(* ===== verification/_CoqProject ===== *)
-Q . S2P
Prelude.v
MachineInt.v
SparkHash.v
Io.v
BitArray.v
BloomFilter.v
LoserTree.v
RadixSort.v
Utf8.v
Chars.v
Arrow.v
ArrowRef.v
BatchSerde.v
ScalarSerde.v
JoinHashMap.v
Joins.v
HashArrays.v
Floats.v
Columnar.v
EqComparator.v
JoinKeys.v
BroadcastJoin.v
BroadcastSemiJoin.v
StreamCursor.v
SortMergeJoin.v
SortMergeScan.v
SortMergeSemi.v
MemManager.v
MemLocks.v
RowNullChecker.v
Limit.v
Window.v
WindowFull.v
WindowExec.v
BatchSize.v
RadixQueue.v
AggHashMap.v
AggAcc.v
AggCtx.v
AggGroups.v
AggSpill.v
AggTable.v
AggExec.v
AggSort.v
SortKeys.v
SortPrune.v
SortTop.v
Selection.v
SortBlocks.v
SortMerge.v
SortCodec.v
SortExec.v
IpcCompression.v
Offsetted.v
ShufflePartitioning.v
PartitionSort.v
BufferedData.v
ShuffleWriter.v
SparkDecimal.v
CastText.v
Cast.v
JsonPath.v
SparkMap.v
SparkStrings.v
FlinkDatetime.v
