(* ===== verification/Prelude.v ===== *)
(** * Auron native engine: a verification development

    Auron (src/native-engine, Rust) executes the physical plans of Spark and Flink
    natively: the JVM side sends a plan, auron-planner turns it into operators
    (datafusion-ext-plans), the operators exchange arrow record batches, use shared
    algorithms and codecs (datafusion-ext-commons) and account their memory with a
    manager that makes them spill (auron-memmgr).  This library models the parts with
    logic of their own and proves them correct.

    ** How code is modelled

    Every function is a Rocq function of the same name where the name is free.
    Mutation is explicit state passing; fallible code returns [Result] (below), which
    also has values for panics, undefined behaviour of unchecked accesses, and loops
    that do not end within their fuel, so that "returns [Ok]" includes memory safety and
    termination.  [for], [while] and [loop] are [rfoldM], [rwhile]/[rwhileM] and
    [rloop].  Fuel is a number the source makes visible (the length of the data, the
    number of slots of a table, the rows that remain); each theorem that a loop returns
    proves that it is enough, by the measure given to [rwhile_inv] and its variants.
    Integers are [Z] with the wrap-around of their width written out ([MachineInt]);
    the build has overflow checks off.  An asynchronous task that sends batches is the
    list of the batches it has sent and its outcome ([Sent]).  Code outside the
    repository (arrow, DataFusion, the row format, JSON libraries, time zones) appears as
    arguments with the documented behaviour as hypotheses, instantiated in the witnesses.
    Floating point is that of the Standard Library ([Floats]).

    ** Files and what they show

    - [Prelude]: outcomes, loops and their rules, tactics, list lemmas.  [MachineInt]:
      machine integers and byte strings.
    - [SparkHash] (datafusion-ext-commons hash/): Murmur3 and XxHash64.  Murmur3 equals
      its reference definition over a byte string, the long variant agrees with it, both
      read inside their input only.
    - [Io] (io/mod.rs): the variable-length integer codec; round trip and the error on
      truncated input that batch streams use as their end.
    - [BitArray], [BloomFilter] (spark_bit_array.rs, spark_bloom_filter.rs): no false
      negatives after any further operations, the vectorized probe equals the scalar
      one, serialization round trip; shrinking keeps members only under a condition.
    - [LoserTree] (algorithm/loser_tree.rs): the tree invariant, the minimum after every
      change, and a k-way merge that returns the sorted permutation.  [RadixSort]
      (algorithm/rdx_sort.rs): the in-place American-flag sort is a sorted permutation.
    - [Utf8], [Arrow], [ArrowRef], [BatchSerde], [ScalarSerde] (io/batch_serde.rs,
      io/scalar_serde.rs): arrays with offsets, validity and nesting, and their codec;
      round trips for arrays, batches, streams of batches and scalars.  [ArrowRef] runs
      the codec on concrete arrays.
    - [JoinHashMap] (joins/join_hash_map.rs): open addressing in groups of slots; a lookup
      returns exactly the build rows of a hash; round trip of the broadcast form.
    - [Joins] (joins/mod.rs, join_utils.rs): join types, projections, column gathers and
      the nested-loop specification of a join.  [EqComparator] (arrow/eq_comparator.rs):
      comparing rows of nested arrays; when a comparator tells whether their values are
      equal.  [JoinKeys]: hashes and comparisons of the key columns of hash joins, and when
      two rows have the same key.  [BroadcastJoin], [BroadcastSemiJoin] (joins/bhj/): the
      hash joiners return the specified rows for all join types, sides, batchings and
      output sizes.
    - [StreamCursor] (joins/stream_cursor.rs): the cursor over a sorted input refines the
      list of its remaining rows.  [SortMergeJoin] (joins/smj/full_join.rs) refines the
      nested-loop specification on sorted inputs.  [SortMergeScan] is the control loop of
      the semi, anti and existence joiners with its interface [ScanLaws]; [SortMergeSemi]
      (joins/smj/semi_join.rs, existence_join.rs) gives the joiners and their theorems.
    - [MemManager] (auron-memmgr/src/lib.rs): consumers, accounting and the spill
      decision as a transition system; the counters agree with the consumers in every
      reachable state, the decision follows the shares, no waiter is forgotten.
      [MemLocks]: its lock acquisitions as interleaved sequences; no deadlock among the
      operations that respect the lock order, and a deadlock with [set_spillable].
    - [RowNullChecker] (common/row_null_checker.rs): the walk over encoded key rows finds
      nulls exactly and stays inside the row.
    - [Limit] (limit_exec.rs): the rows between offset and limit; the underflow when the
      offset is above the limit.
    - [Window], [WindowFull], [WindowExec] (window/, window_exec.rs): the processors of all
      window functions and the operator that drives them.  [Streaming] is the contract
      of a processor that works batch by batch, [WindowFull] treats the functions that
      need a whole partition, and [WindowExec] composes them: any list of window
      expressions yields the values of their definitions, for any batching, with and
      without group limit.
    - [RadixQueue] (algorithm/rdx_queue.rs): the priority queue for small keys; it refines
      a multiset from which minima are taken.
    - [AggHashMap] (agg/agg_hash_map.rs): the hash table of keys; an upsert refines
      appending the new keys to a list.  [AggAcc] (agg/acc.rs, agg.rs, sum.rs, count.rs,
      maxmin.rs): accumulators, their merge, and their codec for spills.  [AggCtx]
      (agg/agg_ctx.rs): what a batch adds to the accumulators of all aggregates.
      [AggGroups] is the specification side: records with a key, and lists of records that
      have the same groups.  [AggSpill] and [AggTable] (agg/agg_table.rs): the bucketed
      spill files, the table with its spills, and their merge.  [AggExec] (agg_exec.rs):
      hash aggregation with spills and partial skipping computes GROUP BY, alone and as
      the two stages of a distributed aggregation; aggregation without grouping.
      [AggSort]: sort aggregation computes GROUP BY in input order.

    - [BatchSize] (lib.rs): how many rows a batch should have; never zero.
    - The external sort (sort_exec.rs).  [SortKeys]: byte-string keys, their order, the key
      collectors and the codec that squeezes ascending keys by their common prefixes; round
      trip.  [SortPrune]: sort columns are dropped from the batches and restored from the
      keys; round trip.  [SortTop] is the specification: the first elements of a sorted
      list, and when a list may be cut before it is merged.  [Selection]
      (arrow/selection.rs): taking and interleaving rows.  [SortBlocks]: runs in memory and
      in spills.  [SortMerge]: cursors and the k-way merge over [LoserTree].  [SortCodec]:
      the batches of spills, on [BatchSerde].  [SortExec]: insertion, spilling by levels,
      output; the operator is ORDER BY with limit and offset.

    - The shuffle (shuffle/).  [HashArrays] (spark_hash.rs): hashes of rows over columns of
      any nesting.  [ShufflePartitioning] (shuffle/mod.rs): the partition of a row, by hash,
      in turns or by ranges.  [IpcCompression] (io/ipc_compression.rs): files of compressed
      blocks of batches; round trip.  [Offsetted] (common/offsetted.rs): data with offsets of
      partitions, merged in the order of partitions over [RadixQueue].  [PartitionSort] and
      [BufferedData] (shuffle/buffered_data.rs): batches staged, sorted by partition over
      [RadixSort], merged and written.  [ShuffleWriter]: the four repartitioners; what is
      between two offsets of the index file reads back as the rows of that partition.
    - Scalar functions (arrow/cast.rs and datafusion-ext-functions/).  [Floats]: IEEE numbers
      and their casts.  [Columnar]: columns and literals as arguments of functions.
      [SparkDecimal]: rounding, checks of overflow and conversions of decimals.  [CastText]:
      texts to integers and dates; [Cast]: casts over nested arrays.  [Chars]: characters of a
      text.  [JsonPath] (spark_get_json_object.rs): the grammar of paths and two ways to
      evaluate them.  [SparkMap] (spark_map.rs): functions that build maps.  [SparkStrings]
      (spark_strings.rs, spark_initcap.rs).  [FlinkDatetime] (flink_datetime.rs): the lenient
      grammar of time stamps and the hybrid calendar.

    Interfaces between files are classes or records of operations with laws: [RowKey]
    and [ScanLaws] for the merge joins, [Streaming], [AggOk], [ContextOk] and [OrderOk]
    for the window operator, [RowFormat] for the encoded keys of an aggregation, [SortFormat] for
    those of a sort, [KeyCollector], [SortedBlockOk], [BuilderOk] and [BatchCodec] for its
    runs; clients are proved against them.  [FrameCodec] (compression), [CastOps] and
    [CastLaws] (the cast kernel of arrow), [SerdeJson], [SonicRs] and [SonicLaws] (JSON),
    [Unicode] and [TimeZones] state what code outside the repository provides; the samples
    at the end of the files are instances.

    ** Not modelled

    Plan construction, metrics, channels and scheduling (library calls without logic of
    their own); scans, sinks, the transport of shuffled data, JNI, the planner and the Flink
    connector (input and output through other systems, generated code, arrow builders);
    kernels that only call arrow or DataFusion: the hash functions as SQL functions, dates
    (chrono and its time zones), crypto, and the expressions of datafusion-ext-exprs, which
    wrap DataFusion's.  Accumulators that keep user data of the JVM (UDAF wrapper).  Of the
    modelled files the plan-level [execute] methods, caching and display code are left out. *)

From stdpp Require Export base tactics numbers list sets strings sorting gmap.
From Stdlib Require Export ZArith Lia.

(** ** Outcomes of Rust code

    [Ok] and [Err] are the two constructors of [Result]; [Panic] is a failed
    [assert!], [expect], [unreachable!] or a bounds-checked index out of range;
    [Undef] is undefined behaviour: an unchecked index out of range, or an
    [assume!] whose condition is false; [Diverge] is a loop that has not ended
    within the fuel the model gives it.  A theorem that a call is [Ok] therefore
    also says that it returns and that none of the unsafe preconditions of the
    code is violated. *)

Inductive Error : Type :=
  | UnexpectedEof
  | Execution (msg : string)
  | NotImplemented (msg : string).

Inductive Result (A : Type) : Type :=
  | Ok (a : A)
  | Err (e : Error)
  | Panic
  | Undef
  | Diverge.
Arguments Ok {A} a.
Arguments Err {A} e.
Arguments Panic {A}.
Arguments Undef {A}.
Arguments Diverge {A}.

#[export] Instance Error_eq_dec : EqDecision Error.
Proof. solve_decision. Defined.

#[export] Instance Result_eq_dec `{EqDecision A} : EqDecision (Result A).
Proof. solve_decision. Defined.

#[export] Instance Result_ret : MRet Result := λ A a, Ok a.

#[export] Instance Result_bind : MBind Result := λ A B f r,
  match r with
  | Ok a => f a
  | Err e => Err e
  | Panic => Panic
  | Undef => Undef
  | Diverge => Diverge
  end.

Declare Scope rust_scope.
Delimit Scope rust_scope with rust.

(** [assert!(b)]: a failed assertion panics. *)
Definition rassert (b : bool) : Result unit := if b then Ok tt else Panic.

(** [assume!(b)]: a false assumption is undefined behaviour. *)
Definition rassume (b : bool) : Result unit := if b then Ok tt else Undef.

(** [v[i]] on a bounds-checked vector, and on an [UncheckedIndex] one. *)
Definition index {A} (v : list A) (i : nat) : Result A :=
  match v !! i with Some x => Ok x | None => Panic end.

Definition uindex {A} (v : list A) (i : nat) : Result A :=
  match v !! i with Some x => Ok x | None => Undef end.

(** [v[i] = x], the same two ways. *)
Definition set_index {A} (v : list A) (i : nat) (x : A) : Result (list A) :=
  if decide (i < length v) then Ok (<[i:=x]> v) else Panic.

Definition set_uindex {A} (v : list A) (i : nat) (x : A) : Result (list A) :=
  if decide (i < length v) then Ok (<[i:=x]> v) else Undef.

Notation "v .[ i ]" := (index v i) (at level 1, format "v .[ i ]") : rust_scope.
Notation "v .![ i ]" := (uindex v i) (at level 1, format "v .![ i ]") : rust_scope.

(** [iter.map(f).collect::<Result<Vec<_>>>()]: stops at the first failure. *)
Fixpoint rmapM {A B} (f : A → Result B) (l : list A) : Result (list B) :=
  match l with
  | [] => Ok []
  | x :: l => y ← f x; ys ← rmapM f l; mret (y :: ys)
  end.

(** [for x in l { s = f(s, x)?; }] *)
Fixpoint rfoldM {A S} (f : S → A → Result S) (s : S) (l : list A) : Result S :=
  match l with
  | [] => Ok s
  | x :: l => s' ← f s x; rfoldM f s' l
  end.

(** [while cond { body }] and [loop { .. }], the latter with a body that either
    continues with a new state ([inl]) or breaks with a value ([inr]). *)
Fixpoint rwhile {S} (fuel : nat) (cond : S → bool) (body : S → Result S) (s : S)
    : Result S :=
  if cond s then
    match fuel with
    | O => Diverge
    | S fuel => s' ← body s; rwhile fuel cond body s'
    end
  else Ok s.

(** A [while] whose condition may fail itself. *)
Fixpoint rwhileM {S} (fuel : nat) (cond : S → Result bool) (body : S → Result S) (s : S)
    : Result S :=
  b ← cond s;
  if b : bool then
    match fuel with
    | O => Diverge
    | S fuel => s' ← body s; rwhileM fuel cond body s'
    end
  else Ok s.

Fixpoint rloop {S T} (fuel : nat) (body : S → Result (S + T)) (s : S) : Result T :=
  match fuel with
  | O => Diverge
  | S fuel =>
    r ← body s;
    match r with inl s' => rloop fuel body s' | inr t => Ok t end
  end.

(** ** Tasks that send batches

    The batches a task has sent to its output channel, and how it ended. *)
Definition Sent (B : Type) : Type := list B * Result unit.

Definition send {B} (batch : B) (s : Sent B) : Sent B := (batch :: s.1, s.2).

(** A failure ends the task and keeps what was sent before. *)
Definition run {A B} (r : Result A) (k : A → Sent B) : Sent B :=
  match r with
  | Ok a => k a
  | Err e => ([], Err e)
  | Panic => ([], Panic)
  | Undef => ([], Undef)
  | Diverge => ([], Diverge)
  end.

(** [a..b] and [(a..b).step_by(k)] as lists of indices. *)
Definition range (a b : nat) : list nat := seq a (b - a).
Definition div_ceil (a b : nat) : nat := (a + (b - 1)) / b.
Definition step_by (a b k : nat) : list nat :=
  (λ i, a + k * i) <$> seq 0 (div_ceil (b - a) k).

(** ** Lemmas on outcomes *)

Lemma bind_Ok {A B} (f : A → Result B) r b :
  r ≫= f = Ok b ↔ ∃ a, r = Ok a ∧ f a = Ok b.
Proof. destruct r; split; try naive_solver. Qed.

Lemma bind_Ok_l {A B} (f : A → Result B) a : Ok a ≫= f = f a.
Proof. done. Qed.

Lemma rassert_Ok b : rassert b = Ok tt ↔ b = true.
Proof. destruct b; naive_solver. Qed.

Lemma index_Ok {A} (v : list A) i x : index v i = Ok x ↔ v !! i = Some x.
Proof. unfold index. destruct (v !! i); naive_solver. Qed.

Lemma uindex_Ok {A} (v : list A) i x : uindex v i = Ok x ↔ v !! i = Some x.
Proof. unfold uindex. destruct (v !! i); naive_solver. Qed.

Lemma set_index_Ok {A} (v : list A) i x :
  i < length v → set_index v i x = Ok (<[i:=x]> v).
Proof. intros. unfold set_index. by rewrite decide_True. Qed.

Lemma set_uindex_Ok {A} (v : list A) i x :
  i < length v → set_uindex v i x = Ok (<[i:=x]> v).
Proof. intros. unfold set_uindex. by rewrite decide_True. Qed.

Lemma rfoldM_app {A S} (f : S → A → Result S) s l1 l2 :
  rfoldM f s (l1 ++ l2) = (s' ← rfoldM f s l1; rfoldM f s' l2).
Proof.
  revert s; induction l1 as [|x l1 IH]; intros s; simpl; [done|].
  destruct (f s x); simpl; [apply IH|done..].
Qed.

(** Two [for] loops over re-indexed lists with bodies that agree pointwise. *)
Lemma rfoldM_fmap_ext {A B C S} (f : S → A → Result S) (f' : S → B → Result S)
    (g : C → A) (g' : C → B) s l :
  (∀ s c, c ∈ l → f s (g c) = f' s (g' c)) →
  rfoldM f s (g <$> l) = rfoldM f' s (g' <$> l).
Proof.
  revert s; induction l as [|c l IH]; intros s H; [done|].
  cbn [fmap list_fmap rfoldM]. rewrite H by set_solver.
  destruct (f' s (g' c)); [|done..]. apply IH. intros; apply H. set_solver.
Qed.

(** The rule for a [for] loop whose body never fails under an invariant. *)
Lemma rfoldM_inv {A S} (I : S → list A → Prop) (f : S → A → Result S) s l :
  I s l →
  (∀ s x l', I s (x :: l') → ∃ s', f s x = Ok s' ∧ I s' l') →
  ∃ s', rfoldM f s l = Ok s' ∧ I s' [].
Proof.
  intros HI Hstep; revert s HI; induction l as [|x l IH]; intros s HI; simpl.
  { eauto. }
  destruct (Hstep s x l HI) as (s' & -> & HI'); simpl. by apply IH.
Qed.

(** Total correctness of a [while] loop from an invariant and a measure. *)
Lemma rwhile_inv {S} (I : S → Prop) (m : S → nat) cond body fuel (s : S) :
  I s → m s ≤ fuel →
  (∀ s, I s → cond s = true → ∃ s', body s = Ok s' ∧ I s' ∧ m s' < m s) →
  ∃ s', rwhile fuel cond body s = Ok s' ∧ I s' ∧ cond s' = false.
Proof.
  intros HI Hm Hstep; revert s HI Hm; induction fuel as [|fuel IH];
    intros s HI Hm; simpl; destruct (cond s) eqn:Hc; eauto.
  - destruct (Hstep s HI Hc) as (s' & _ & _ & ?). lia.
  - destruct (Hstep s HI Hc) as (s' & -> & HI' & ?); simpl.
    apply IH; [done|lia].
Qed.

Lemma rwhileM_inv {S} (I : S → Prop) (m : S → nat) cond body fuel (s : S) :
  I s → m s ≤ fuel →
  (∀ s, I s → ∃ b : bool, cond s = Ok b ∧
     (b = true → ∃ s', body s = Ok s' ∧ I s' ∧ m s' < m s)) →
  ∃ s', rwhileM fuel cond body s = Ok s' ∧ I s' ∧ cond s' = Ok false.
Proof.
  intros HI Hm Hstep; revert s HI Hm; induction fuel as [|fuel IH];
    intros s HI Hm; simpl; destruct (Hstep s HI) as ([] & Hc & Hb); rewrite Hc; simpl; eauto.
  - destruct (Hb eq_refl) as (s' & _ & _ & ?). lia.
  - destruct (Hb eq_refl) as (s' & -> & HI' & ?); simpl. apply IH; [done|lia].
Qed.

(** The same for a [loop]: every iteration keeps the invariant and decreases the
    measure, or breaks with a value that satisfies the postcondition. *)
Lemma rloop_inv {S T} (I : S → Prop) (m : S → nat) (Q : T → Prop) body fuel (s : S) :
  I s → m s < fuel →
  (∀ s, I s → (∃ s', body s = Ok (inl s') ∧ I s' ∧ m s' < m s) ∨
              (∃ t, body s = Ok (inr t) ∧ Q t)) →
  ∃ t, rloop fuel body s = Ok t ∧ Q t.
Proof.
  intros HI Hm Hstep; revert s HI Hm; induction fuel as [|fuel IH];
    intros s HI Hm; simpl; [lia|].
  destruct (Hstep s HI) as [(s' & -> & HI' & ?)|(t & -> & HQ)]; simpl; [|eauto].
  apply IH; [done|lia].
Qed.

Lemma rmapM_Ok {A B} (f : A → Result B) l ys :
  rmapM f l = Ok ys ↔ Forall2 (λ x y, f x = Ok y) l ys.
Proof.
  revert ys; induction l as [|x l IH]; intros ys; simpl.
  { split; [by intros [= <-]; constructor|by inversion 1]. }
  rewrite bind_Ok; setoid_rewrite bind_Ok; setoid_rewrite IH.
  split; [intros (y & Hy & ys' & H & [= <-]); by constructor|].
  inversion 1; subst. naive_solver.
Qed.

Lemma rmapM_ext {A B} (f g : A → Result B) l :
  (∀ x, x ∈ l → f x = g x) → rmapM f l = rmapM g l.
Proof.
  induction l as [|x l IH]; intros H; simpl; [done|].
  rewrite H by set_solver. rewrite IH by set_solver. done.
Qed.

Lemma rmapM_app {A B} (f : A → Result B) l1 l2 :
  rmapM f (l1 ++ l2) = (r1 ← rmapM f l1; r2 ← rmapM f l2; Ok (r1 ++ r2)).
Proof.
  induction l1 as [|x l1 IH]; cbn [rmapM app].
  - cbn. by destruct (rmapM f l2).
  - destruct (f x); [|done..]. cbn [mbind Result_bind]. rewrite IH. destruct (rmapM f l1); [|done..]. cbn.
    by destruct (rmapM f l2).
Qed.

Lemma rmapM_app_Ok {A B} (f : A → Result B) l1 l2 ys1 ys2 :
  rmapM f l1 = Ok ys1 → rmapM f l2 = Ok ys2 → rmapM f (l1 ++ l2) = Ok (ys1 ++ ys2).
Proof. intros H1 H2. by rewrite rmapM_app, H1, H2. Qed.

(** ** Tactics and hints *)

(** [rinv H] splits a successful computation [H : ... = Ok _] into its steps. *)
Ltac rinv H :=
  repeat match type of H with
    | mbind _ _ = Ok _ => apply bind_Ok in H as (? & ? & H)
    | mret _ = Ok _ => injection H as H
    | Ok _ = Ok _ => injection H as H
    | Err _ = Ok _ => discriminate H
    | Panic = Ok _ => discriminate H
    | Undef = Ok _ => discriminate H
    | Diverge = Ok _ => discriminate H
    end; subst.

(** [zlia] is [lia] with division and remainder by constants. *)
Ltac zlia := Z.div_mod_to_equations; lia.

(** Case analysis on the boolean test of an [if] or a [match]. *)
Ltac bool_cases :=
  repeat match goal with
    | |- context [if ?b then _ else _] => destruct b eqn:?
    end.

Create HintDb auron.
Create Rewrite HintDb auron.
#[export] Hint Rewrite @bind_Ok_l @length_app @length_insert @length_fmap
  @length_replicate @length_seq : auron.
#[export] Hint Resolve Forall_nil_2 Forall_cons_2 Forall_app_2 : auron.

(** ** Generic lemmas on lists *)

(** Swapping two positions, [slice::swap]. *)
Definition swap {A} (i j : nat) (l : list A) : list A :=
  match l !! i, l !! j with
  | Some x, Some y => <[i:=y]> (<[j:=x]> l)
  | _, _ => l
  end.

Lemma length_swap {A} i j (l : list A) : length (swap i j l) = length l.
Proof. unfold swap. repeat case_match; by rewrite ?length_insert. Qed.

Lemma lookup_swap_l {A} i j (l : list A) x y :
  l !! i = Some x → l !! j = Some y → swap i j l !! i = Some y.
Proof.
  intros Hi Hj. unfold swap. rewrite Hi, Hj. apply list_lookup_insert_eq.
  rewrite length_insert. by eapply lookup_lt_Some.
Qed.

Lemma lookup_swap_r {A} i j (l : list A) x y :
  l !! i = Some x → l !! j = Some y → swap i j l !! j = Some x.
Proof.
  intros Hi Hj. unfold swap. rewrite Hi, Hj.
  destruct (decide (i = j)) as [->|].
  - rewrite list_lookup_insert_eq; [congruence|].
    rewrite length_insert. by eapply lookup_lt_Some.
  - rewrite list_lookup_insert_ne by done.
    apply list_lookup_insert_eq. by eapply lookup_lt_Some.
Qed.

Lemma lookup_swap_ne {A} i j k (l : list A) :
  k ≠ i → k ≠ j → swap i j l !! k = l !! k.
Proof.
  intros. unfold swap. repeat case_match; by rewrite ?list_lookup_insert_ne by done.
Qed.

Lemma insert_Permutation {A} (l : list A) i x y :
  l !! i = Some y → x :: l ≡ₚ y :: <[i:=x]> l.
Proof.
  intros Hi. pose proof (lookup_lt_Some _ _ _ Hi) as Hlt.
  rewrite <- (take_drop_middle l i y) at 1 by done.
  rewrite insert_take_drop by done.
  rewrite <- !Permutation_middle. apply perm_swap.
Qed.

Lemma swap_Permutation {A} i j (l : list A) : swap i j l ≡ₚ l.
Proof.
  unfold swap. destruct (l !! i) as [x|] eqn:Hi; [|done].
  destruct (l !! j) as [y|] eqn:Hj; [|done].
  apply (Permutation_cons_inv (a := x)). symmetry.
  rewrite (insert_Permutation l j x y Hj).
  destruct (decide (i = j)) as [->|Hne].
  - rewrite list_insert_insert_eq. assert (x = y) as -> by congruence.
    by rewrite list_insert_id.
  - apply insert_Permutation. by rewrite list_lookup_insert_ne.
Qed.

(** [iter().enumerate()]. *)
Definition enumerate {A} (l : list A) : list (nat * A) := imap pair l.

Lemma lookup_enumerate {A} (l : list A) i :
  enumerate l !! i = (λ x, (i, x)) <$> l !! i.
Proof. unfold enumerate. apply list_lookup_imap. Qed.

Lemma fst_enumerate {A} (l : list A) : (enumerate l).*1 = seq 0 (length l).
Proof.
  apply list_eq. intros i. rewrite list_lookup_fmap, lookup_enumerate.
  destruct (l !! i) as [x|] eqn:E; cbn.
  - rewrite lookup_seq_lt; [done|]. by eapply lookup_lt_Some.
  - symmetry. apply lookup_ge_None_2. rewrite length_seq. by apply lookup_ge_None.
Qed.

Lemma length_enumerate {A} (l : list A) : length (enumerate l) = length l.
Proof. apply length_imap. Qed.

Lemma elem_of_enumerate {A} (l : list A) i x :
  (i, x) ∈ enumerate l ↔ l !! i = Some x.
Proof.
  rewrite list_elem_of_lookup. setoid_rewrite lookup_enumerate. split.
  - intros (j & Hj). apply fmap_Some in Hj as (y & Hy & [= -> ->]). done.
  - intros Hi. exists i. by rewrite Hi.
Qed.

(** Sums of a projection, [iter().map(f).sum()]. *)
Definition sumZ {A} (f : A → Z) (l : list A) : Z := foldr (λ x n, f x + n)%Z 0%Z l.

Lemma sumZ_app {A} (f : A → Z) l1 l2 :
  sumZ f (l1 ++ l2) = (sumZ f l1 + sumZ f l2)%Z.
Proof. induction l1; simpl; lia. Qed.

#[export] Instance sumZ_Permutation {A} (f : A → Z) :
  Proper ((≡ₚ) ==> (=)) (sumZ f).
Proof. intros l l' H. induction H; simpl; lia. Qed.

(** Strong sortedness from positions. *)
Lemma StronglySorted_lookup {A} (R : relation A) (l : list A) :
  (∀ i j x y, i < j → l !! i = Some x → l !! j = Some y → R x y) → StronglySorted R l.
Proof.
  induction l as [|a l IH]; intros Hl; constructor.
  - apply IH. intros i j x y Hij Hi Hj. apply (Hl (S i) (S j)); [lia|done..].
  - apply Forall_forall. intros y [j Hj]%list_elem_of_lookup.
    apply (Hl 0 (S j)); [lia|done..].
Qed.

Lemma sum_list_with_insert {A} (f : A → nat) (l : list A) i x y :
  l !! i = Some x → sum_list_with f (<[i := y]> l) + f x = sum_list_with f l + f y.
Proof.
  revert i; induction l as [|a l IH]; intros [|i] Hi; try done.
  - injection Hi as ->. cbn. lia.
  - assert (<[S i := y]> (a :: l) = a :: <[i := y]> l) as -> by done.
    specialize (IH i Hi). cbn. lia.
Qed.

Lemma filter_ext_elem {A} (P Q : A → Prop) `{∀ x, Decision (P x), ∀ x, Decision (Q x)} (l : list A) :
  (∀ x, x ∈ l → P x ↔ Q x) → filter P l = filter Q l.
Proof.
  induction l as [|x l IH]; intros Hiff; [done|]. rewrite !filter_cons.
  rewrite IH by set_solver. rewrite (decide_ext (P x) (Q x)) by (apply Hiff; set_solver).
  done.
Qed.

Lemma filter_none {A} (P : A → Prop) `{∀ x, Decision (P x)} (l : list A) :
  (∀ x, x ∈ l → ¬ P x) → filter P l = [].
Proof.
  induction l as [|x l IH]; intros Hl; [done|].
  rewrite filter_cons, decide_False by (apply Hl; set_solver). apply IH. set_solver.
Qed.

Lemma filter_all {A} (P : A → Prop) `{∀ x, Decision (P x)} (l : list A) :
  (∀ x, x ∈ l → P x) → filter P l = l.
Proof.
  induction l as [|x l IH]; intros Hl; [done|].
  rewrite filter_cons, decide_True by (apply Hl; set_solver). f_equal. apply IH. set_solver.
Qed.

Lemma existsb_false {A} (f : A → bool) l : existsb f l = false ↔ ∀ x, x ∈ l → f x = false.
Proof.
  rewrite <- not_true_iff_false, existsb_exists. setoid_rewrite <- list_elem_of_In. split.
  - intros Hn x Hx. apply not_true_iff_false. intros Hf. apply Hn. eauto.
  - intros Hf (x & Hx & Ht). by rewrite (Hf x Hx) in Ht.
Qed.

Lemma bind_ext_elem {A B} (f g : A → list B) l : (∀ x, x ∈ l → f x = g x) → l ≫= f = l ≫= g.
Proof.
  induction l as [|x l IH]; intros Hl; [done|]. rewrite !bind_cons, Hl, IH; set_solver.
Qed.

(** ** Distinct elements *)

(** The distinct elements in the order of their first occurrence. *)
Definition distinct {A} `{EqDecision A} (l : list A) : list A := reverse (remove_dups (reverse l)).

Lemma distinct_snoc {A} `{EqDecision A} (l : list A) x :
  distinct (l ++ [x]) = if decide (x ∈ l) then distinct l else distinct l ++ [x].
Proof.
  unfold distinct. rewrite reverse_snoc. cbn [remove_dups]. destruct (decide_rel elem_of x (reverse l)) as [Hx|Hx].
  - rewrite decide_True by (by rewrite elem_of_reverse in Hx). done.
  - rewrite decide_False by (by rewrite elem_of_reverse in Hx). by rewrite reverse_cons.
Qed.

Lemma elem_of_distinct {A} `{EqDecision A} (l : list A) x : x ∈ distinct l ↔ x ∈ l.
Proof. unfold distinct. by rewrite elem_of_reverse, elem_of_remove_dups, elem_of_reverse. Qed.

Lemma NoDup_distinct {A} `{EqDecision A} (l : list A) : NoDup (distinct l).
Proof. unfold distinct. rewrite reverse_Permutation. apply NoDup_remove_dups. Qed.
