(* ===== verification/MachineInt.v ===== *)
(** * Machine integers

    The engine is compiled without overflow checks (Cargo.toml sets
    [overflow-checks = false] for the dev profile and the release profile has
    none), so [+], [-], [*] wrap around.  An integer of a w-bit type is a [Z];
    [wrapu w] and [wraps w] are the unsigned and the signed truncation, which
    are also Rust's [as] casts. *)

From S2P Require Import Prelude.
Local Open Scope Z_scope.

Definition wrapu (w x : Z) : Z := x mod 2 ^ w.
Definition wraps (w x : Z) : Z := (x + 2 ^ (w - 1)) mod 2 ^ w - 2 ^ (w - 1).

Definition u8 := wrapu 8.
Definition u32 := wrapu 32.
Definition u64 := wrapu 64.
Definition i8 := wraps 8.
Definition i32 := wraps 32.
Definition i64 := wraps 64.
(** [usize] and [isize] on the 64-bit targets the engine is built for. *)
Definition usize := wrapu 64.
Definition isize := wraps 64.

Definition in_u (w x : Z) : Prop := 0 <= x < 2 ^ w.
Definition in_s (w x : Z) : Prop := - 2 ^ (w - 1) <= x < 2 ^ (w - 1).

Definition USIZE_MAX : Z := 2 ^ 64 - 1.

(** [rotate_left] of the w-bit pattern of [x]. *)
Definition rotl (w x n : Z) : Z :=
  let u := wrapu w x in
  Z.lor (wrapu w (Z.shiftl u n)) (Z.shiftr u (w - n)).

Lemma wrapu_bound w x : 0 <= w → in_u w (wrapu w x).
Proof. intros. apply Z.mod_pos_bound. lia. Qed.

Lemma wrapu_id w x : in_u w x → wrapu w x = x.
Proof. apply Z.mod_small. Qed.

Lemma wrapu_wrapu w x : 0 <= w → wrapu w (wrapu w x) = wrapu w x.
Proof. intros. apply wrapu_id, wrapu_bound. lia. Qed.

Lemma wraps_bound w x : 0 < w → in_s w (wraps w x).
Proof.
  intros Hw. unfold in_s, wraps.
  assert (2 ^ w = 2 * 2 ^ (w - 1)) by (rewrite <- Z.pow_succ_r by lia; f_equal; lia).
  pose proof (Z.mod_pos_bound (x + 2 ^ (w - 1)) (2 ^ w)). lia.
Qed.

Lemma wraps_id w x : 0 < w → in_s w x → wraps w x = x.
Proof.
  intros Hw Hx. unfold in_s in Hx. unfold wraps.
  assert (2 ^ w = 2 * 2 ^ (w - 1)) by (rewrite <- Z.pow_succ_r by lia; f_equal; lia).
  rewrite Z.mod_small by lia. lia.
Qed.

Lemma wraps_wraps w x : 0 < w → wraps w (wraps w x) = wraps w x.
Proof. intros. apply wraps_id; [done|]. by apply wraps_bound. Qed.

(** Casting to the signed type and back loses nothing. *)
Lemma wraps_wrapu w x : 0 < w → wraps w (wrapu w x) = wraps w x.
Proof.
  intros. unfold wraps, wrapu. f_equal.
  rewrite Zplus_mod_idemp_l. done.
Qed.

Lemma wrapu_wraps w x : 0 < w → wrapu w (wraps w x) = wrapu w x.
Proof.
  intros. unfold wraps, wrapu. rewrite Zminus_mod_idemp_l. f_equal. lia.
Qed.

Lemma wraps_cong w x y : 0 < w → wrapu w x = wrapu w y → wraps w x = wraps w y.
Proof. intros Hw E. rewrite <- (wraps_wrapu w x), E by done. by apply wraps_wrapu. Qed.

(** ** Bitwise operations stay within the width *)

Lemma in_s_shiftr w x :
  0 < w → in_s w x ↔ (Z.shiftr x (w - 1) = 0 ∨ Z.shiftr x (w - 1) = -1).
Proof.
  intros Hw. unfold in_s. rewrite Z.shiftr_div_pow2 by lia.
  assert (0 < 2 ^ (w - 1)) by lia. set (p := 2 ^ (w - 1)) in *. split.
  - intros [H1 H2]. destruct (decide (0 <= x)).
    + left. apply Z.div_small. lia.
    + right. symmetry. apply (Z.div_unique _ _ _ (x + p)); lia.
  - pose proof (Z.div_mod x p). pose proof (Z.mod_pos_bound x p). lia.
Qed.

Lemma in_s_lxor w x y : 0 < w → in_s w x → in_s w y → in_s w (Z.lxor x y).
Proof.
  intros Hw. rewrite !in_s_shiftr by done. rewrite Z.shiftr_lxor.
  intros [-> | ->] [-> | ->]; auto.
Qed.

Lemma in_u_shiftr w x : 0 <= w → in_u w x ↔ 0 <= x ∧ Z.shiftr x w = 0.
Proof.
  intros Hw. unfold in_u. rewrite Z.shiftr_div_pow2 by lia.
  assert (0 < 2 ^ w) by lia. split.
  - intros [H1 H2]. by rewrite Z.div_small.
  - intros [Hx Hd]. apply Z.div_small_iff in Hd; lia.
Qed.

Lemma in_u_lxor w x y : 0 <= w → in_u w x → in_u w y → in_u w (Z.lxor x y).
Proof.
  intros Hw. rewrite !in_u_shiftr, Z.shiftr_lxor by done. intros [? ->] [? ->].
  split; [by apply Z.lxor_nonneg|done].
Qed.

Lemma in_u_lor w x y : 0 <= w → in_u w x → in_u w y → in_u w (Z.lor x y).
Proof.
  intros Hw. rewrite !in_u_shiftr, Z.shiftr_lor by done. intros [? ->] [? ->].
  split; [by apply Z.lor_nonneg|done].
Qed.

Lemma in_u_land w x y : 0 <= w → in_u w x → in_u w y → in_u w (Z.land x y).
Proof.
  intros Hw. rewrite !in_u_shiftr, Z.shiftr_land by done. intros [? ->] [? ->].
  split; [apply Z.land_nonneg; lia|done].
Qed.

Lemma in_u_shiftr_le w x n : 0 <= n → in_u w x → in_u w (Z.shiftr x n).
Proof.
  unfold in_u. intros Hn [H1 H2]. rewrite Z.shiftr_div_pow2 by done.
  assert (0 < 2 ^ n) by lia. split; [by apply Z.div_pos|].
  apply Z.le_lt_trans with x; [|done]. apply Z.div_le_upper_bound; nia.
Qed.

(** ** Byte encodings *)

Definition byte_ok (b : Z) : Prop := 0 <= b < 256.
Definition bytes_ok (l : list Z) : Prop := Forall byte_ok l.

(** [to_le_bytes] and [from_le_bytes] (also [to_ne_bytes] and [as_raw_bytes] on
    a little-endian target), and the big-endian pair of the [byteorder] calls. *)
Fixpoint le_bytes (n : nat) (x : Z) : list Z :=
  match n with
  | O => []
  | S n => x mod 256 :: le_bytes n (x / 256)
  end.

Fixpoint le_val (l : list Z) : Z :=
  match l with
  | [] => 0
  | b :: l => b + 256 * le_val l
  end.

Definition be_bytes (n : nat) (x : Z) : list Z := rev (le_bytes n x).
Definition be_val (l : list Z) : Z := le_val (rev l).

Lemma length_le_bytes n x : length (le_bytes n x) = n.
Proof. revert x; induction n; intros; simpl; auto. Qed.

Lemma length_be_bytes n x : length (be_bytes n x) = n.
Proof. unfold be_bytes. by rewrite length_rev, length_le_bytes. Qed.

Lemma le_bytes_ok n x : bytes_ok (le_bytes n x).
Proof.
  revert x; induction n; intros; simpl; constructor; [|apply IHn].
  apply Z.mod_pos_bound. lia.
Qed.

Lemma le_val_le_bytes n x : le_val (le_bytes n x) = wrapu (8 * Z.of_nat n) x.
Proof.
  unfold wrapu. revert x; induction n as [|n IH]; intros x; cbn [le_bytes le_val].
  { by rewrite Z.mod_1_r. }
  rewrite IH. replace (8 * Z.of_nat (S n)) with (8 + 8 * Z.of_nat n) by lia.
  rewrite Z.pow_add_r by lia. change (2 ^ 8) with 256.
  rewrite Z.rem_mul_r by lia. done.
Qed.

Lemma le_bytes_le_val l : bytes_ok l → le_bytes (length l) (le_val l) = l.
Proof.
  induction 1 as [|b l Hb Hl IH]; cbn [le_bytes le_val length]; [done|].
  unfold byte_ok in Hb. f_equal.
  - rewrite Z.mul_comm, Z_mod_plus_full. by apply Z.mod_small.
  - rewrite Z.mul_comm, Z.div_add by lia. by rewrite Z.div_small by lia.
Qed.

Lemma le_val_bound l : bytes_ok l → 0 <= le_val l < 2 ^ (8 * Z.of_nat (length l)).
Proof.
  intros Hl. rewrite <- (le_bytes_le_val l Hl) at 1 2. rewrite le_val_le_bytes.
  apply wrapu_bound. lia.
Qed.

Lemma be_val_be_bytes n x : be_val (be_bytes n x) = wrapu (8 * Z.of_nat n) x.
Proof. unfold be_val, be_bytes. rewrite rev_involutive. apply le_val_le_bytes. Qed.

Lemma be_bytes_ok n x : bytes_ok (be_bytes n x).
Proof. apply Forall_rev, le_bytes_ok. Qed.

(** ** Hints for the component files *)

#[export] Hint Resolve wrapu_bound wraps_bound le_bytes_ok be_bytes_ok
  in_s_lxor in_u_lxor in_u_lor in_u_land in_u_shiftr_le : auron.
#[export] Hint Extern 1 (_ < _) => lia : auron.
#[export] Hint Extern 1 (_ <= _) => lia : auron.
#[export] Hint Rewrite length_le_bytes length_be_bytes : auron.
