(* ===== verification/SparkHash.v ===== *)
(** * Spark-compatible hash functions

    Murmur3 (native-engine/datafusion-ext-commons/src/hash/mur.rs) and XxHash64
    (hash/xxhash.rs), with the unaligned reads of hash/mod.rs.  A read outside
    the slice is [Undef]; the theorems show it cannot happen. *)

From S2P Require Import Prelude MachineInt.
Local Open Scope Z_scope.

(** ** hash/mod.rs *)

(** [read_unaligned] of [n] bytes at [offset], little-endian on every target. *)
Definition read_le (n : nat) (data : list Z) (offset : nat) : Result Z :=
  if decide (offset + n ≤ length data)%nat
  then Ok (le_val (take n (drop offset data))) else Undef.

Definition read32 := read_le 4.
Definition read64 := read_le 8.

Lemma read_le_Ok n data offset :
  (offset + n ≤ length data)%nat →
  read_le n data offset = Ok (le_val (take n (drop offset data))).
Proof. intros. unfold read_le. by rewrite decide_True. Qed.

(** ** hash/mur.rs *)

Module Mur.

Definition mix_k1 (k1 : Z) : Z :=
  let k1 := i32 (k1 * i32 0xcc9e2d51) in
  let k1 := i32 (rotl 32 k1 15) in
  i32 (k1 * i32 0x1b873593).

Definition mix_h1 (h1 k1 : Z) : Z :=
  let h1 := Z.lxor h1 k1 in
  let h1 := i32 (rotl 32 h1 13) in
  i32 (i32 (h1 * 5) + i32 0xe6546b64).

Definition fmix (h1 len : Z) : Z :=
  let h1 := Z.lxor h1 len in
  let h1 := Z.lxor h1 (i32 (Z.shiftr (u32 h1) 16)) in
  let h1 := i32 (h1 * i32 0x85ebca6b) in
  let h1 := Z.lxor h1 (i32 (Z.shiftr (u32 h1) 13)) in
  let h1 := i32 (h1 * i32 0xc2b2ae35) in
  Z.lxor h1 (i32 (Z.shiftr (u32 h1) 16)).

Definition hash_bytes_by_int (data : list Z) (seed : Z) : Result Z :=
  rfoldM (λ h1 i, half_word ← read32 data i; mret (mix_h1 h1 (mix_k1 (i32 half_word))))
    seed (step_by 0 (length data) 4).

Definition spark_compatible_murmur3_hash (data : list Z) (seed : Z) : Result Z :=
  let len := length data in
  let split := (len - len `mod` 4)%nat in
  let data_aligned := take split data in
  let data_trailing := drop split data in
  h1 ← hash_bytes_by_int data_aligned seed;
  let h1 := foldl (λ h1 b, mix_h1 h1 (mix_k1 (i8 b))) h1 data_trailing in
  mret (fmix h1 (i32 (Z.of_nat len))).

Definition hash_long (input seed : Z) : Z :=
  let low := i32 input in
  let high := i32 (Z.shiftr input 32) in
  let k1 := mix_k1 low in
  let h1 := mix_h1 seed k1 in
  let k1 := mix_k1 high in
  let h1 := mix_h1 h1 k1 in
  fmix h1 8.

Definition spark_compatible_murmur3_hash_long (value seed : Z) : Z :=
  hash_long value seed.

(** Reference definition: the input consumed four bytes at a time, the last
    one to three bytes one at a time. *)
Fixpoint mur_ref (data : list Z) (h1 : Z) : Z :=
  match data with
  | b0 :: b1 :: b2 :: b3 :: rest =>
    mur_ref rest (mix_h1 h1 (mix_k1 (i32 (le_val [b0; b1; b2; b3]))))
  | rest => foldl (λ h1 b, mix_h1 h1 (mix_k1 (i8 b))) h1 rest
  end.

#[local] Arguments mix_k1 : simpl never.
#[local] Arguments mix_h1 : simpl never.
#[local] Arguments fmix : simpl never.

Lemma hash_bytes_by_int_nil seed : hash_bytes_by_int [] seed = Ok seed.
Proof. done. Qed.

Lemma div_ceil_4 n : div_ceil (4 * n) 4 = n.
Proof. unfold div_ceil. symmetry. apply (Nat.div_unique _ _ _ 3); lia. Qed.

Lemma read32_shift (w rest : list Z) i :
  length w = 4%nat → read32 (w ++ rest) (4 + i) = read32 rest i.
Proof.
  intros Hw. unfold read32, read_le. rewrite length_app, Hw.
  rewrite (decide_ext (4 + i + 4 ≤ 4 + length rest)%nat (i + 4 ≤ length rest)%nat) by lia.
  rewrite drop_app_ge, Hw by lia. by replace (4 + i - 4)%nat with i by lia.
Qed.

Lemma hash_bytes_by_int_cons w n rest seed :
  length w = 4%nat → length rest = (4 * n)%nat →
  hash_bytes_by_int (w ++ rest) seed =
  hash_bytes_by_int rest (mix_h1 seed (mix_k1 (i32 (le_val w)))).
Proof.
  intros Hw Hn. unfold hash_bytes_by_int, step_by. rewrite length_app, Hw, Hn.
  replace (4 + 4 * n - 0)%nat with (4 * S n)%nat by lia.
  rewrite div_ceil_4, Nat.sub_0_r, div_ceil_4. cbn [seq fmap list_fmap rfoldM].
  assert (read32 (w ++ rest) (0 + 4 * 0) = Ok (le_val w)) as ->.
  { unfold read32. rewrite read_le_Ok by (rewrite length_app; lia).
    rewrite drop_0, take_app_le by lia. by rewrite take_ge by lia. }
  cbn [mbind Result_bind].
  rewrite <- fmap_S_seq, <- list_fmap_compose. apply rfoldM_fmap_ext.
  intros h i _. unfold compose. replace (0 + 4 * S i)%nat with (4 + (0 + 4 * i))%nat by lia.
  by rewrite read32_shift.
Qed.

Lemma mur_ref_app n l1 l2 h :
  length l1 = (4 * n)%nat →
  ∃ h', hash_bytes_by_int l1 h = Ok h' ∧ mur_ref (l1 ++ l2) h = mur_ref l2 h'.
Proof.
  revert l1 h. induction n as [|n IH]; intros l1 h Hl.
  { destruct l1; [|simpl in Hl; lia]. exists h. by rewrite hash_bytes_by_int_nil. }
  destruct l1 as [|b0 [|b1 [|b2 [|b3 l1]]]]; try (simpl in Hl; lia).
  destruct (IH l1 (mix_h1 h (mix_k1 (i32 (le_val [b0; b1; b2; b3])))))
    as (h' & E & E'); [simpl in Hl; lia|].
  exists h'. split; [|exact E'].
  change (b0 :: b1 :: b2 :: b3 :: l1) with ([b0; b1; b2; b3] ++ l1).
  rewrite (hash_bytes_by_int_cons _ n) by (simpl in *; lia). exact E.
Qed.

Lemma mur_ref_short l h :
  (length l < 4)%nat → mur_ref l h = foldl (λ h1 b, mix_h1 h1 (mix_k1 (i8 b))) h l.
Proof.
  intros Hl. destruct l as [|? [|? [|? [|? ?]]]]; try reflexivity.
  cbn [length] in Hl. lia.
Qed.

Lemma fmix_bound h len : in_s 32 (fmix h len).
Proof. unfold fmix, i32. auto with auron. Qed.

Lemma mur_le_val_low v : i32 (le_val (le_bytes 4 v)) = i32 v.
Proof. rewrite le_val_le_bytes. apply wraps_wrapu. lia. Qed.

Lemma le_bytes_8 v : le_bytes 8 v = le_bytes 4 v ++ le_bytes 4 (Z.shiftr v 32).
Proof.
  rewrite Z.shiftr_div_pow2 by lia. change (2 ^ 32) with (256 * 256 * 256 * 256).
  rewrite <- !Z.div_div by lia. done.
Qed.

End Mur.

(** ** hash/xxhash.rs *)

Module XxHash.

Definition PRIME64_1 : Z := 0x9E3779B185EBCA87.
Definition PRIME64_2 : Z := 0xC2B2AE3D27D4EB4F.
Definition PRIME64_3 : Z := 0x165667B19E3779F9.
Definition PRIME64_4 : Z := 0x85EBCA77C2B2AE63.
Definition PRIME64_5 : Z := 0x27D4EB2F165667C5.

Definition xxh_rotl64 (value amt : Z) : Z :=
  Z.lor (u64 (Z.shiftl value (Z.rem amt 64))) (Z.shiftr value (64 - Z.rem amt 64)).

Definition xxh64_round (acc input : Z) : Z :=
  let acc := u64 (acc + u64 (input * PRIME64_2)) in
  let acc := xxh_rotl64 acc 31 in
  u64 (acc * PRIME64_1).

Definition xxh64_merge_round (hash acc : Z) : Z :=
  let hash := Z.lxor hash (xxh64_round 0 acc) in
  let hash := u64 (hash * PRIME64_1) in
  u64 (hash + PRIME64_4).

Definition xxh64_avalanche (hash : Z) : Z :=
  let hash := Z.lxor hash (Z.shiftr hash 33) in
  let hash := u64 (hash * PRIME64_2) in
  let hash := Z.lxor hash (Z.shiftr hash 29) in
  let hash := u64 (hash * PRIME64_3) in
  Z.lxor hash (Z.shiftr hash 32).

(** The four accumulators of the stripe loop with its [offset] and [remaining]. *)
Record Stripe := mkStripe {
  acc1 : Z; acc2 : Z; acc3 : Z; acc4 : Z; s_offset : nat; s_remaining : nat }.

Definition stripe_step (input : list Z) (s : Stripe) : Result Stripe :=
  let off := s_offset s in
  v1 ← read64 input off;
  v2 ← read64 input (off + 8);
  v3 ← read64 input (off + 16);
  v4 ← read64 input (off + 24);
  mret (mkStripe (xxh64_round (acc1 s) v1) (xxh64_round (acc2 s) v2)
    (xxh64_round (acc3 s) v3) (xxh64_round (acc4 s) v4)
    (off + 32) (s_remaining s - 32)).

(** State of the tail loops: the hash, [offset] and [remaining]. *)
Record Tail := mkTail { t_hash : Z; t_offset : nat; t_remaining : nat }.

Definition tail8_step (input : list Z) (t : Tail) : Result Tail :=
  v ← read64 input (t_offset t);
  let hash := Z.lxor (t_hash t) (xxh64_round 0 v) in
  let hash := xxh_rotl64 hash 27 in
  let hash := u64 (hash * PRIME64_1) in
  let hash := u64 (hash + PRIME64_4) in
  mret (mkTail hash (t_offset t + 8) (t_remaining t - 8)).

Definition tail4_step (input : list Z) (t : Tail) : Result Tail :=
  v ← read32 input (t_offset t);
  let hash := Z.lxor (t_hash t) (u64 (v * PRIME64_1)) in
  let hash := xxh_rotl64 hash 23 in
  let hash := u64 (hash * PRIME64_2) in
  let hash := u64 (hash + PRIME64_3) in
  mret (mkTail hash (t_offset t + 4) (t_remaining t - 4)).

Definition tail1_step (input : list Z) (t : Tail) : Result Tail :=
  b ← index input (t_offset t);
  let hash := Z.lxor (t_hash t) (u64 (b * PRIME64_5)) in
  let hash := xxh_rotl64 hash 11 in
  let hash := u64 (hash * PRIME64_1) in
  mret (mkTail hash (t_offset t + 1) (t_remaining t - 1)).

(** The stripe part: the first loop and the merge rounds. *)
Definition xxh64_stripes (input : list Z) (seed : Z) : Result Tail :=
  let remaining := length input in
  if decide (32 ≤ remaining)%nat then
    let s0 := mkStripe (u64 (u64 (seed + PRIME64_1) + PRIME64_2))
                (u64 (seed + PRIME64_2)) seed (u64 (seed - PRIME64_1)) 0 remaining in
    s ← rwhile remaining (λ s, bool_decide (32 ≤ s_remaining s)%nat) (stripe_step input) s0;
    let hash := u64 (u64 (u64 (xxh_rotl64 (acc1 s) 1 + xxh_rotl64 (acc2 s) 7)
                  + xxh_rotl64 (acc3 s) 12) + xxh_rotl64 (acc4 s) 18) in
    let hash := xxh64_merge_round hash (acc1 s) in
    let hash := xxh64_merge_round hash (acc2 s) in
    let hash := xxh64_merge_round hash (acc3 s) in
    let hash := xxh64_merge_round hash (acc4 s) in
    mret (mkTail hash (s_offset s) (s_remaining s))
  else mret (mkTail (u64 (seed + PRIME64_5)) 0 remaining).

Definition xxhash64 (input : list Z) (seed : Z) : Result Z :=
  t ← xxh64_stripes input seed;
  let t := mkTail (u64 (t_hash t + u64 (Z.of_nat (length input))))
             (t_offset t) (t_remaining t) in
  t ← rwhile (length input) (λ t, bool_decide (8 ≤ t_remaining t)%nat) (tail8_step input) t;
  t ← (if decide (4 ≤ t_remaining t)%nat then tail4_step input t else mret t);
  t ← rwhile (length input) (λ t, bool_decide (t_remaining t ≠ 0%nat)) (tail1_step input) t;
  mret (xxh64_avalanche (t_hash t)).

Definition spark_compatible_xxhash64_hash (data : list Z) (seed : Z) : Result Z :=
  h ← xxhash64 data (u64 seed);
  mret (i64 h).

End XxHash.

(** ** Correctness of Murmur3 *)

Section MurCorrect.
Import Mur.

Lemma murmur3_hash_ok data seed :
  spark_compatible_murmur3_hash data seed =
    Ok (fmix (mur_ref data seed) (i32 (Z.of_nat (length data)))).
Proof.
  unfold spark_compatible_murmur3_hash. set (len := length data).
  assert (len = 4 * (len / 4) + len mod 4)%nat as Hlen by (apply Nat.div_mod; lia).
  assert (len mod 4 < 4)%nat by (apply Nat.mod_upper_bound; lia).
  destruct (mur_ref_app (len / 4) (take (len - len mod 4) data)
              (drop (len - len mod 4) data) seed) as (h & E & Eref).
  { rewrite length_take. fold len. lia. }
  rewrite take_drop in Eref. rewrite E, Eref. cbn [mbind Result_bind].
  rewrite mur_ref_short; [done|]. rewrite length_drop. fold len. lia.
Qed.

(** The Murmur3 hash of a byte slice reads only inside the slice, never fails, fits in
    an i32, and equals the reference definition that consumes the input four
    little-endian bytes at a time and then byte by byte. *)
Theorem murmur3_hash_spec data seed :
  ∃ h, spark_compatible_murmur3_hash data seed = Ok h ∧ in_s 32 h ∧
    h = fmix (mur_ref data seed) (i32 (Z.of_nat (length data))).
Proof. rewrite murmur3_hash_ok. eexists. split_and!; [done|apply fmix_bound|done]. Qed.

(** Hashing an i64 with the specialised hash_long gives the same result as hashing
    its eight little-endian bytes with the general routine. *)
Theorem murmur3_hash_long_spec v seed :
  spark_compatible_murmur3_hash (le_bytes 8 v) seed =
    Ok (spark_compatible_murmur3_hash_long v seed).
Proof.
  rewrite murmur3_hash_ok, length_le_bytes. unfold spark_compatible_murmur3_hash_long.
  rewrite le_bytes_8.
  change (mur_ref (le_bytes 4 v ++ le_bytes 4 (Z.shiftr v 32)) seed) with
    (mix_h1 (mix_h1 seed (mix_k1 (i32 (le_val (le_bytes 4 v)))))
            (mix_k1 (i32 (le_val (le_bytes 4 (Z.shiftr v 32)))))).
  rewrite !mur_le_val_low. change (i32 (Z.of_nat 8)) with 8.
  unfold hash_long. cbv zeta. reflexivity.
Qed.
End MurCorrect.

(** ** Correctness of XxHash64 *)

Section XxHashCorrect.
Import XxHash.
Local Open Scope nat_scope.
Context (input : list Z).

Let n := length input.

Definition tail_inv (t : Tail) : Prop := t_offset t + t_remaining t = n.

Lemma stripe_loop_Ok s :
  s_offset s + s_remaining s = n →
  ∃ s', rwhile n (λ s, bool_decide (32 ≤ s_remaining s)) (stripe_step input) s = Ok s' ∧
    s_offset s' + s_remaining s' = n.
Proof.
  intros Hs.
  destruct (rwhile_inv (λ s, s_offset s + s_remaining s = n) s_remaining
    (λ s, bool_decide (32 ≤ s_remaining s)) (stripe_step input) n s)
    as (s' & -> & ? & _); [done|lia| |eauto].
  clear. intros s Hs Hc%bool_decide_eq_true. unfold stripe_step, read64.
  rewrite !read_le_Ok by (fold n; lia). cbn [mbind Result_bind].
  eexists; split; [done|cbn; lia].
Qed.

Lemma xxh64_stripes_Ok seed : ∃ t, xxh64_stripes input seed = Ok t ∧ tail_inv t.
Proof.
  unfold xxh64_stripes, tail_inv. fold n. case_decide as Hn; [|eexists; split; done].
  edestruct stripe_loop_Ok as (s & -> & Hs); [|eexists; split; [done|exact Hs]].
  done.
Qed.

Lemma tail8_step_Ok t :
  tail_inv t → 8 ≤ t_remaining t →
  ∃ t', tail8_step input t = Ok t' ∧ tail_inv t' ∧ t_remaining t' < t_remaining t.
Proof.
  unfold tail_inv. intros Ht Hr. unfold tail8_step, read64.
  rewrite read_le_Ok by (fold n; lia).
  eexists; split; [reflexivity|cbn [t_offset t_remaining]; lia].
Qed.

Lemma tail4_step_Ok t :
  tail_inv t → 4 ≤ t_remaining t → ∃ t', tail4_step input t = Ok t' ∧ tail_inv t'.
Proof.
  unfold tail_inv. intros Ht Hr. unfold tail4_step, read32.
  rewrite read_le_Ok by (fold n; lia).
  eexists; split; [reflexivity|cbn [t_offset t_remaining]; lia].
Qed.

Lemma tail1_step_Ok t :
  tail_inv t → t_remaining t ≠ 0 →
  ∃ t', tail1_step input t = Ok t' ∧ tail_inv t' ∧ t_remaining t' < t_remaining t.
Proof.
  unfold tail_inv. intros Ht Hr. unfold tail1_step.
  destruct (lookup_lt_is_Some_2 input (t_offset t)) as [b Hb]; [fold n; lia|].
  rewrite (proj2 (index_Ok _ _ _) Hb).
  eexists; split; [reflexivity|cbn [t_offset t_remaining]; lia].
Qed.

Lemma xxh64_avalanche_bound h : in_u 64 (xxh64_avalanche h).
Proof. unfold xxh64_avalanche, u64. auto with auron. Qed.

Lemma xxhash64_Ok seed : ∃ h, xxhash64 input seed = Ok h ∧ in_u 64 h.
Proof.
  unfold xxhash64. destruct (xxh64_stripes_Ok seed) as (t0 & -> & H0).
  cbn [mbind Result_bind].
  set (t1 := mkTail _ _ _). assert (tail_inv t1) as H1 by exact H0. clearbody t1.
  destruct (rwhile_inv tail_inv t_remaining (λ t, bool_decide (8 ≤ t_remaining t))
    (tail8_step input) (length input) t1) as (t2 & -> & H2 & _); [done|unfold tail_inv, n in *; lia| |].
  { intros t Ht Hc%bool_decide_eq_true. by apply tail8_step_Ok. }
  cbn [mbind Result_bind].
  assert (∃ t3, (if decide (4 ≤ t_remaining t2) then tail4_step input t2 else mret t2) = Ok t3
    ∧ tail_inv t3) as (t3 & -> & H3).
  { case_decide; [by apply tail4_step_Ok|eauto]. }
  cbn [mbind Result_bind].
  destruct (rwhile_inv tail_inv t_remaining (λ t, bool_decide (t_remaining t ≠ 0))
    (tail1_step input) (length input) t3) as (t4 & -> & H4 & _); [done|unfold tail_inv, n in *; lia| |].
  { intros t Ht Hc%bool_decide_eq_true. by apply tail1_step_Ok. }
  eexists; split; [reflexivity|apply xxh64_avalanche_bound].
Qed.

(** XxHash64 of any byte slice terminates, reads only inside the slice (8-, 4- and
    1-byte reads of its four loops), and returns an i64. *)
Theorem xxhash64_hash_total seed :
  ∃ h, spark_compatible_xxhash64_hash input seed = Ok h ∧ in_s 64 h.
Proof.
  unfold spark_compatible_xxhash64_hash.
  destruct (xxhash64_Ok (u64 seed)) as (h & -> & _).
  eexists; split; [reflexivity|]. by apply wraps_bound.
Qed.

End XxHashCorrect.

(** The test vectors of hash/mur.rs and hash/xxhash.rs. *)
Example murmur3_test_vectors :
  (λ l, Mur.spark_compatible_murmur3_hash l 42) <$>
    [[]; [97]; [97; 98]; [97; 98; 99]; [97; 98; 99; 100]; [97; 98; 99; 100; 101]] =
  Ok <$> [142593372; 1485273170; -97053317; 1322437556; -396302900; 814637928].
Proof. vm_compute. reflexivity. Qed.

Example xxhash64_test_vectors :
  (λ l, XxHash.spark_compatible_xxhash64_hash l 42) <$>
    [[]; [97]; [97; 98]; [97; 98; 99]; [97; 98; 99; 100]; [97; 98; 99; 100; 101];
     seqZ 97 26] =
  Ok <$> [-7444071767201028348; -8582455328737087284; 2710560539726725091;
          1423657621850124518; -6810745876291105281; -990457398947679591;
          -3265757659154784300].
Proof. vm_compute. reflexivity. Qed.
