(* ===== verification/Io.v ===== *)
(** * Byte streams and the length codec

    native-engine/datafusion-ext-commons/src/io/mod.rs.  [impl Read] is a parser
    over the bytes still to be read; a short read is [Err UnexpectedEof].
    [impl Write] is an in-memory sink: a writer is the list of bytes it appends. *)

From S2P Require Import Prelude MachineInt.
Local Open Scope Z_scope.

Definition Reader (A : Type) : Type := list Z → Result (A * list Z).

#[export] Instance Reader_ret : MRet Reader := λ A a inp, Ok (a, inp).
#[export] Instance Reader_bind : MBind Reader := λ A B f m inp,
  '(a, inp') ← m inp; f a inp'.

Definition rlift {A} (r : Result A) : Reader A := λ inp, a ← r; Ok (a, inp).

(** [Read::read_exact]. *)
Definition read_exact (n : nat) : Reader (list Z) := λ inp,
  if decide (n ≤ length inp)%nat then Ok (take n inp, drop n inp) else Err UnexpectedEof.

(** [read_bytes_slice]. *)
Definition read_bytes_slice (n : nat) : Reader (list Z) := read_exact n.

Definition read_u8 : Reader Z := buf ← read_exact 1; rlift (index buf 0).

Definition write_u8 (n : Z) : list Z := [n].

(** [byteorder]'s big-endian integer reads and writes, [read_i32::<BE>] etc. *)
Definition read_be (n : nat) : Reader Z :=
  buf ← read_exact n; mret (wraps (8 * Z.of_nat n) (be_val buf)).

Definition write_be (n : nat) (x : Z) : list Z := be_bytes n x.

(** [write_len]: seven bits per byte, low group first, high bit for "more".  A
    [usize] has at most ten groups, so the loop runs at most nine times. *)
Definition write_len_fuel : nat := 10.

Definition write_len (len : Z) : Result (list Z) :=
  '(len, out) ← rwhile write_len_fuel (λ '(len, _), bool_decide (128 <= len))
      (λ '(len, out),
        let v := len mod 128 in
        let len := len / 128 in
        Ok (len, out ++ write_u8 (u8 (128 + u8 v))))
      (len, []);
  Ok (out ++ write_u8 (u8 len)).

(** [read_len]: [len] and [factor] are [usize], so both wrap. *)
Fixpoint read_len_loop (fuel : nat) (len factor : Z) : Reader Z :=
  match fuel with
  | O => λ _, Diverge
  | S fuel =>
    v ← read_u8;
    if bool_decide (v < 128) then mret (usize (len + usize (v * factor)))
    else read_len_loop fuel (usize (len + usize ((v - 128) * factor))) (usize (factor * 128))
  end.

(** Every iteration consumes one byte of the input. *)
Definition read_len : Reader Z := λ inp, read_len_loop (S (length inp)) 0 1 inp.

(** ** Reader lemmas *)

Lemma reader_bind_Ok {A B} (m : Reader A) (f : A → Reader B) inp a inp' :
  m inp = Ok (a, inp') → (m ≫= f) inp = f a inp'.
Proof. intros H. unfold mbind, Reader_bind. by rewrite H. Qed.

Lemma reader_bind_Err {A B} (m : Reader A) (f : A → Reader B) inp e :
  m inp = Err e → (m ≫= f) inp = Err e.
Proof. intros H. unfold mbind, Reader_bind. by rewrite H. Qed.

Lemma read_exact_app n l rest :
  length l = n → read_exact n (l ++ rest) = Ok (l, rest).
Proof.
  intros <-. unfold read_exact. rewrite decide_True by (rewrite length_app; lia).
  by rewrite take_app_length, drop_app_length.
Qed.

Lemma read_exact_short n inp :
  (length inp < n)%nat → read_exact n inp = Err UnexpectedEof.
Proof. intros. unfold read_exact. by rewrite decide_False by lia. Qed.

Lemma read_u8_cons b rest : read_u8 (b :: rest) = Ok (b, rest).
Proof. done. Qed.

Lemma read_u8_nil : read_u8 [] = Err UnexpectedEof.
Proof. done. Qed.

Lemma read_be_app n x rest :
  (0 < n)%nat → read_be n (write_be n x ++ rest) = Ok (wraps (8 * Z.of_nat n) x, rest).
Proof.
  intros Hn. unfold read_be. erewrite reader_bind_Ok by (apply read_exact_app, length_be_bytes).
  cbn [mret Reader_ret]. unfold write_be. rewrite be_val_be_bytes, wraps_wrapu by lia. done.
Qed.

(** ** The encoding as a recursive function *)

Fixpoint len_bytes (fuel : nat) (len : Z) : list Z :=
  match fuel with
  | O => [len]
  | S fuel => if bool_decide (128 <= len) then (128 + len mod 128) :: len_bytes fuel (len / 128)
              else [len]
  end.

Lemma write_len_loop fuel len out :
  0 <= len < 128 ^ (Z.of_nat fuel + 1) →
  ('(len, out) ← rwhile fuel (λ '(len, _), bool_decide (128 <= len))
      (λ '(len, out), let v := len mod 128 in let len := len / 128 in
        Ok (len, out ++ write_u8 (u8 (128 + u8 v)))) (len, out);
   Ok (out ++ write_u8 (u8 len))) = Ok (out ++ len_bytes fuel len).
Proof.
  revert len out. induction fuel as [|fuel IH]; intros len out Hlen.
  - cbn [rwhile len_bytes]. rewrite bool_decide_eq_false_2 by lia.
    cbn [mbind Result_bind]. unfold u8. rewrite wrapu_id by (unfold in_u; lia). done.
  - cbn [rwhile len_bytes]. case_bool_decide as Hc.
    + cbn [mbind Result_bind]. rewrite IH.
      * rewrite <- app_assoc. unfold write_u8, u8.
        pose proof (Z.mod_pos_bound len 128 ltac:(lia)).
        rewrite !wrapu_id; [done|unfold in_u; lia|].
        rewrite wrapu_id; unfold in_u; lia.
      * rewrite Nat2Z.inj_succ, Z.pow_add_r, Z.pow_succ_r, Z.pow_1_r in Hlen by lia.
        rewrite Z.pow_add_r, Z.pow_1_r by lia. split; [apply Z.div_pos; lia|].
        apply Z.div_lt_upper_bound; lia.
    + cbn [mbind Result_bind]. unfold u8. rewrite wrapu_id by (unfold in_u; lia). done.
Qed.

Lemma write_len_Ok len :
  in_u 64 len → write_len len = Ok (len_bytes write_len_fuel len).
Proof. intros H. unfold write_len. rewrite write_len_loop; [done|]. unfold in_u in H.
  change (128 ^ (Z.of_nat write_len_fuel + 1)) with (2 ^ 77). lia. Qed.

Lemma len_bytes_ok fuel len :
  0 <= len < 128 ^ (Z.of_nat fuel + 1) → bytes_ok (len_bytes fuel len).
Proof.
  revert len. induction fuel as [|fuel IH]; intros len Hlen; cbn [len_bytes].
  { constructor; [|constructor]. unfold byte_ok. lia. }
  case_bool_decide as Hc; constructor; [| |unfold byte_ok; lia|constructor].
  - pose proof (Z.mod_pos_bound len 128 ltac:(lia)). unfold byte_ok. lia.
  - apply IH. rewrite Nat2Z.inj_succ, Z.pow_add_r, Z.pow_succ_r, Z.pow_1_r in Hlen by lia.
    rewrite Z.pow_add_r, Z.pow_1_r by lia. split; [apply Z.div_pos; lia|].
    apply Z.div_lt_upper_bound; lia.
Qed.

(** Decoding an encoded length from an accumulator, all sums below 2^64. *)
Lemma read_len_loop_app wfuel rfuel len acc factor rest :
  0 <= len → 0 <= acc → 0 < factor → acc + len * factor < 2 ^ 64 →
  len < 128 ^ (Z.of_nat wfuel + 1) → (length (len_bytes wfuel len) ≤ rfuel)%nat →
  read_len_loop rfuel acc factor (len_bytes wfuel len ++ rest) = Ok (acc + len * factor, rest).
Proof.
  revert rfuel len acc factor. induction wfuel as [|wfuel IH];
    intros [|rfuel] len acc factor Hlen Hacc Hf Hb Hw Hr; cbn [len_bytes] in *;
    try (exfalso; repeat case_bool_decide; cbn [length] in Hr; lia).
  - cbn [read_len_loop app]. rewrite (reader_bind_Ok _ _ _ _ _ (read_u8_cons _ _)).
    rewrite bool_decide_eq_true_2 by lia. unfold mret, Reader_ret, usize.
    rewrite (wrapu_id 64 (len * factor)), wrapu_id by (unfold in_u; nia). done.
  - case_bool_decide as Hc.
    + cbn [length] in Hr. cbn [read_len_loop app].
      rewrite (reader_bind_Ok _ _ _ _ _ (read_u8_cons _ _)).
      pose proof (Z.mod_pos_bound len 128 ltac:(lia)).
      pose proof (Z.div_mod len 128 ltac:(lia)) as Hdm.
      assert (1 <= len / 128) by (apply Z.div_le_lower_bound; lia).
      assert (len * factor = len / 128 * (factor * 128) + len mod 128 * factor) as Hlf
        by (rewrite Hdm at 1; ring).
      assert (0 <= len mod 128 * factor) by nia.
      rewrite bool_decide_eq_false_2 by lia.
      replace (128 + len mod 128 - 128) with (len mod 128) by lia.
      unfold usize.
      rewrite (wrapu_id 64 (len mod 128 * factor)) by (unfold in_u; nia).
      rewrite (wrapu_id 64 (acc + _)) by (unfold in_u; nia).
      rewrite (wrapu_id 64 (factor * 128)) by (unfold in_u; nia).
      rewrite IH; [|lia..| |].
      * do 2 f_equal. lia.
      * rewrite Nat2Z.inj_succ, Z.pow_add_r, Z.pow_succ_r, Z.pow_1_r in Hw by lia.
        rewrite Z.pow_add_r, Z.pow_1_r by lia. apply Z.div_lt_upper_bound; lia.
      * lia.
    + cbn [read_len_loop app]. rewrite (reader_bind_Ok _ _ _ _ _ (read_u8_cons _ _)).
      rewrite bool_decide_eq_true_2 by lia. unfold mret, Reader_ret, usize.
      rewrite (wrapu_id 64 (len * factor)), wrapu_id by (unfold in_u; nia). done.
Qed.

Lemma read_len_app len rest :
  in_u 64 len → read_len (len_bytes write_len_fuel len ++ rest) = Ok (len, rest).
Proof.
  intros H. unfold in_u in H. unfold read_len. rewrite read_len_loop_app; [|lia..| |].
  - do 2 f_equal. lia.
  - change (128 ^ (Z.of_nat write_len_fuel + 1)) with (2 ^ 77). lia.
  - rewrite length_app. lia.
Qed.

(** Write_len of any usize terminates with valid bytes, and read_len on those bytes
    followed by anything returns the value and leaves exactly what followed. *)
Theorem write_read_len_roundtrip len rest :
  in_u 64 len →
  ∃ bs, write_len len = Ok bs ∧ bytes_ok bs ∧ read_len (bs ++ rest) = Ok (len, rest).
Proof.
  intros H. exists (len_bytes write_len_fuel len).
  split; [by apply write_len_Ok|split; [|by apply read_len_app]].
  apply len_bytes_ok. unfold in_u in H.
  change (128 ^ (Z.of_nat write_len_fuel + 1)) with (2 ^ 77). lia.
Qed.

Lemma write_read_len_roundtrip_witness :
  ∃ bs, write_len 300 = Ok bs ∧ bytes_ok bs ∧ read_len (bs ++ [7]) = Ok (300, [7]).
Proof. apply (write_read_len_roundtrip 300 [7]). unfold in_u. lia. Defined.

(** Cutting an encoding short makes the reader report the end of its input. *)
Lemma read_len_loop_prefix wfuel rfuel len acc factor k :
  0 <= len < 128 ^ (Z.of_nat wfuel + 1) → (k < length (len_bytes wfuel len))%nat → (k < rfuel)%nat →
  read_len_loop rfuel acc factor (take k (len_bytes wfuel len)) = Err UnexpectedEof.
Proof.
  revert rfuel len acc factor k. induction wfuel as [|wfuel IH];
    intros [|rfuel] len acc factor [|k] Hlen Hk Hr; cbn [len_bytes] in *; try lia;
    try (cbn [take read_len_loop]; by apply reader_bind_Err).
  - cbn [length] in Hk. lia.
  - case_bool_decide as Hc; cbn [length] in Hk; [|lia]. cbn [take read_len_loop].
    rewrite (reader_bind_Ok _ _ _ _ _ (read_u8_cons _ _)).
    pose proof (Z.mod_pos_bound len 128 ltac:(lia)).
    rewrite bool_decide_eq_false_2 by lia. apply IH; [|lia..].
    rewrite Nat2Z.inj_succ, Z.pow_add_r, Z.pow_succ_r, Z.pow_1_r in Hlen by lia.
    rewrite Z.pow_add_r, Z.pow_1_r by lia. split; [apply Z.div_pos; lia|].
    apply Z.div_lt_upper_bound; lia.
Qed.

(** Reading any strict prefix of an encoded length fails with UnexpectedEof, which
    read_batch uses to tell the end of a stream. *)
Theorem read_len_truncated len bs k :
  in_u 64 len → write_len len = Ok bs → (k < length bs)%nat →
  read_len (take k bs) = Err UnexpectedEof.
Proof.
  intros H Hw Hk. rewrite write_len_Ok in Hw by done.
  assert (bs = len_bytes write_len_fuel len) as -> by congruence.
  unfold read_len. unfold in_u in H. apply read_len_loop_prefix.
  - change (128 ^ (Z.of_nat write_len_fuel + 1)) with (2 ^ 77). lia.
  - done.
  - rewrite length_take. lia.
Qed.

Lemma read_len_truncated_witness :
  write_len 300 = Ok [172; 2] ∧ read_len (take 1 [172; 2]) = Err UnexpectedEof.
Proof.
  split; [vm_compute; reflexivity|].
  apply (read_len_truncated 300 [172; 2] 1); [unfold in_u; lia|vm_compute; reflexivity|cbn; lia].
Defined.
