(* ===== verification/BitArray.v ===== *)
(** * Spark's bit array

    native-engine/datafusion-ext-commons/src/spark_bit_array.rs: a vector of
    64-bit words.  [assume!(data_offset < self.data.len())] is modelled as
    undefined behaviour when it is false. *)

From S2P Require Import Prelude MachineInt Io.
Local Open Scope Z_scope.

Record SparkBitArray := mkBitArray { data : list Z }.

Definition I32_MAX : Z := 2 ^ 31 - 1.

Definition new_with_num_bits (num_bits : Z) : Result SparkBitArray :=
  _ ← rassert (bool_decide (0 < num_bits));
  _ ← rassert (bool_decide (num_bits <= I32_MAX));
  mret (mkBitArray (replicate (Z.to_nat ((num_bits + 63) / 64)) 0)).

(** [vec![0; n]] of 8-byte words panics when it would exceed [isize::MAX] bytes. *)
Definition alloc_words (n : Z) : Result unit :=
  rassert (bool_decide (n * 8 <= 2 ^ 63 - 1)).

Fixpoint read_words (n : nat) : Reader (list Z) :=
  match n with
  | O => mret []
  | S n => w ← read_be 8; ws ← read_words n; mret (u64 w :: ws)
  end.

Definition read_from : Reader SparkBitArray :=
  n ← read_be 4;
  let data_len := usize n in
  _ ← rlift (alloc_words data_len);
  ws ← read_words (Z.to_nat data_len);
  mret (mkBitArray ws).

Definition write_to (a : SparkBitArray) : list Z :=
  write_be 4 (i32 (Z.of_nat (length (data a)))) ++
  mjoin ((λ datum, write_be 8 (i64 datum)) <$> data a).

Definition set (a : SparkBitArray) (index : Z) : Result SparkBitArray :=
  let data_offset := Z.shiftr index 6 in
  let bit_offset := Z.land index 0x3f in
  _ ← rassume (bool_decide (data_offset < Z.of_nat (length (data a))));
  datum ← Prelude.index (data a) (Z.to_nat data_offset);
  data' ← set_index (data a) (Z.to_nat data_offset)
            (Z.lor datum (u64 (Z.shiftl 1 bit_offset)));
  mret (mkBitArray data').

Definition get (a : SparkBitArray) (index : Z) : Result bool :=
  let data_offset := Z.shiftr index 6 in
  let bit_offset := Z.land index 0x3f in
  _ ← rassume (bool_decide (data_offset < Z.of_nat (length (data a))));
  datum ← Prelude.index (data a) (Z.to_nat data_offset);
  mret (bool_decide (Z.land (Z.shiftr datum bit_offset) 1 = 1)).

Definition put_all (a bit_array : SparkBitArray) : Result SparkBitArray :=
  _ ← rassert (bool_decide (length (data a) = length (data bit_array)));
  mret (mkBitArray (zip_with Z.lor (data a) (data bit_array))).

Definition and (a bit_array : SparkBitArray) : Result SparkBitArray :=
  _ ← rassert (bool_decide (length (data a) = length (data bit_array)));
  mret (mkBitArray (zip_with Z.land (data a) (data bit_array))).

Definition mem_size (a : SparkBitArray) : Z := Z.of_nat (length (data a)) * 8.
Definition bit_size (a : SparkBitArray) : Z := Z.of_nat (length (data a)) * 64.

(** [u64::count_ones]. *)
Definition count_ones (d : Z) : Z := sumZ (λ i, Z.b2z (Z.testbit d i)) (seqZ 0 64).
Definition true_count (a : SparkBitArray) : Z := sumZ count_ones (data a).

(** ** The set of bits it stands for *)

(** Words are 64-bit. *)
Definition wf (a : SparkBitArray) : Prop := Forall (in_u 64) (data a).

(** The abstract view: the value of bit [i]. *)
Definition bit (a : SparkBitArray) (i : Z) : bool :=
  match data a !! Z.to_nat (i / 64) with
  | Some d => Z.testbit d (i mod 64)
  | None => false
  end.

Lemma offset_div i : Z.shiftr i 6 = i / 64.
Proof. by rewrite Z.shiftr_div_pow2. Qed.

Lemma offset_mod i : Z.land i 0x3f = i mod 64.
Proof. change 0x3f with (Z.ones 6). by rewrite Z.land_ones. Qed.

Lemma testbit_land1 d i : 0 <= i → (Z.land (Z.shiftr d i) 1 = 1) ↔ Z.testbit d i = true.
Proof.
  intros Hi. change 1 with (Z.ones 1) at 1. rewrite Z.land_ones by lia.
  rewrite Z.shiftr_div_pow2 by lia. change (2 ^ 1) with 2.
  rewrite <- Z.testbit_spec' by done. destruct (Z.testbit d i); simpl; split; congruence.
Qed.

Lemma word_lookup a i :
  0 <= i < bit_size a → ∃ d, data a !! Z.to_nat (i / 64) = Some d.
Proof.
  unfold bit_size. intros Hi. apply lookup_lt_is_Some_2.
  assert (i / 64 < Z.of_nat (length (data a))) by (apply Z.div_lt_upper_bound; lia).
  pose proof (Z.div_pos i 64). lia.
Qed.

Lemma get_spec a i : 0 <= i < bit_size a → get a i = Ok (bit a i).
Proof.
  intros Hi. destruct (word_lookup a i Hi) as [d Hd].
  unfold get, bit. rewrite offset_div, offset_mod.
  rewrite bool_decide_eq_true_2 by (unfold bit_size in Hi; apply Z.div_lt_upper_bound; lia).
  cbn [rassume mbind Result_bind].
  rewrite (proj2 (index_Ok _ _ _) Hd), Hd. cbn [mbind Result_bind mret Result_ret]. f_equal.
  pose proof (testbit_land1 d (i mod 64)) as Ht.
  destruct (Z.testbit d (i mod 64)); [apply bool_decide_eq_true_2|apply bool_decide_eq_false_2].
  - apply Ht; [apply Z.mod_pos_bound; lia|done].
  - intros E. apply Ht in E; [done|apply Z.mod_pos_bound; lia].
Qed.

Lemma testbit_lor_one d i j :
  0 <= i < 64 → 0 <= j →
  Z.testbit (Z.lor d (u64 (Z.shiftl 1 i))) j = bool_decide (i = j) || Z.testbit d j.
Proof.
  intros Hi Hj. rewrite Z.shiftl_1_l. unfold u64. rewrite wrapu_id.
  2:{ unfold in_u. split; [lia|]. apply Z.pow_lt_mono_r; lia. }
  rewrite Z.lor_spec, Z.pow2_bits_eqb by lia. rewrite orb_comm. f_equal.
  case_bool_decide; [by apply Z.eqb_eq|by apply Z.eqb_neq].
Qed.

Lemma set_spec a i :
  0 <= i < bit_size a →
  ∃ a', set a i = Ok a' ∧ length (data a') = length (data a) ∧ (wf a → wf a') ∧
    ∀ j, 0 <= j → bit a' j = bool_decide (i = j) || bit a j.
Proof.
  intros Hi. destruct (word_lookup a i Hi) as [d Hd].
  pose proof (lookup_lt_Some _ _ _ Hd) as Hlt.
  pose proof (Z.mod_pos_bound i 64 ltac:(lia)) as Hm.
  unfold set. rewrite offset_div, offset_mod.
  rewrite bool_decide_eq_true_2 by (unfold bit_size in Hi; apply Z.div_lt_upper_bound; lia).
  cbn [rassume mbind Result_bind].
  rewrite (proj2 (index_Ok _ _ _) Hd). cbn [mbind Result_bind].
  rewrite set_index_Ok by done. cbn [mbind Result_bind mret Result_ret].
  eexists; split; [done|]. cbn [data]. split; [by rewrite length_insert|]. split.
  - unfold wf. cbn [data]. intros Hwf. apply Forall_insert; [done|].
    apply in_u_lor; [lia| |by apply wrapu_bound].
    by eapply (Forall_lookup_1 _ _ _ _ Hwf).
  - intros j Hj. unfold bit at 1. cbn [data].
    pose proof (Z.mod_pos_bound j 64 ltac:(lia)).
    pose proof (Z.div_mod i 64 ltac:(lia)). pose proof (Z.div_mod j 64 ltac:(lia)).
    pose proof (Z.div_pos i 64). pose proof (Z.div_pos j 64).
    destruct (decide (i / 64 = j / 64)) as [E|E].
    + rewrite <- E, list_lookup_insert_eq by done. rewrite testbit_lor_one by lia.
      unfold bit. rewrite <- E, Hd. f_equal. apply bool_decide_ext. lia.
    + rewrite list_lookup_insert_ne by lia. fold (bit a j).
      rewrite bool_decide_eq_false_2; [done|congruence].
Qed.

(** ** Merging *)

Lemma zip_bits (op : Z → Z → Z) (bop : bool → bool → bool) a b j :
  length (data a) = length (data b) → 0 <= j < bit_size a →
  (∀ x y i, 0 <= i → Z.testbit (op x y) i = bop (Z.testbit x i) (Z.testbit y i)) →
  bit (mkBitArray (zip_with op (data a) (data b))) j = bop (bit a j) (bit b j).
Proof.
  intros Hlen Hj Hop. destruct (word_lookup a j Hj) as [d Hd].
  destruct (word_lookup b j) as [d' Hd']; [unfold bit_size in *; lia|].
  unfold bit. cbn [data]. rewrite lookup_zip_with, Hd, Hd'. cbn.
  apply Hop. apply Z.mod_pos_bound. lia.
Qed.

Lemma zip_wf (op : Z → Z → Z) a b :
  (∀ x y, in_u 64 x → in_u 64 y → in_u 64 (op x y)) → wf a → wf b →
  wf (mkBitArray (zip_with op (data a) (data b))).
Proof.
  unfold wf. cbn [data]. intros Hop Ha Hb. revert Hb. generalize (data b).
  induction Ha; intros l' Hb; destruct Hb; constructor; auto.
Qed.

Lemma put_all_spec a b :
  length (data a) = length (data b) →
  ∃ a', put_all a b = Ok a' ∧ length (data a') = length (data a) ∧ (wf a → wf b → wf a') ∧
    ∀ j, 0 <= j < bit_size a → bit a' j = bit a j || bit b j.
Proof.
  intros Hlen. unfold put_all. rewrite bool_decide_eq_true_2 by done.
  eexists; split; [reflexivity|]. cbn [data].
  split; [rewrite length_zip_with; lia|].
  split; [apply zip_wf; auto with auron|]. intros j Hj.
  apply zip_bits; [done..|]. intros; apply Z.lor_spec.
Qed.

Lemma and_spec a b :
  length (data a) = length (data b) →
  ∃ a', and a b = Ok a' ∧ length (data a') = length (data a) ∧ (wf a → wf b → wf a') ∧
    ∀ j, 0 <= j < bit_size a → bit a' j = bit a j && bit b j.
Proof.
  intros Hlen. unfold and. rewrite bool_decide_eq_true_2 by done.
  eexists; split; [reflexivity|]. cbn [data].
  split; [rewrite length_zip_with; lia|].
  split; [apply zip_wf; auto with auron|]. intros j Hj.
  apply zip_bits; [done..|]. intros; apply Z.land_spec.
Qed.

(** ** Construction *)

Lemma new_with_num_bits_spec n :
  0 < n <= I32_MAX →
  ∃ a, new_with_num_bits n = Ok a ∧ wf a ∧ n <= bit_size a < n + 64 ∧
    bit_size a <= 2 ^ 31 ∧ ∀ i, bit a i = false.
Proof.
  intros Hn. unfold new_with_num_bits.
  rewrite !bool_decide_eq_true_2 by lia. eexists; split; [reflexivity|].
  set (k := (n + 63) / 64).
  assert (n <= 64 * k < n + 64) by (unfold k; zlia).
  unfold wf, bit_size, bit. cbn [data]. rewrite length_replicate, Z2Nat.id by lia.
  unfold I32_MAX in Hn. split_and!; [|lia..|].
  - apply Forall_replicate. unfold in_u. lia.
  - intros i. destruct (replicate _ _ !! _) as [d|] eqn:E; [|done].
    apply lookup_replicate_1 in E as [-> _]. apply Z.bits_0.
Qed.

(** ** Serialization *)

Lemma read_words_app ws rest :
  Forall (in_u 64) ws →
  read_words (length ws) (mjoin ((λ d, write_be 8 (i64 d)) <$> ws) ++ rest) = Ok (ws, rest).
Proof.
  induction 1 as [|w ws Hw Hws IH]; [done|].
  cbn [length read_words fmap list_fmap mjoin list_join]. rewrite <- app_assoc.
  rewrite (reader_bind_Ok _ _ _ _ _ (read_be_app 8 _ _ ltac:(lia))).
  rewrite (reader_bind_Ok _ _ _ _ _ IH). unfold mret, Reader_ret. do 3 f_equal.
  unfold u64, i64. change (8 * Z.of_nat 8) with 64.
  rewrite wraps_wraps, wrapu_wraps by lia. by apply wrapu_id.
Qed.

Lemma read_from_write_to a rest :
  wf a → Z.of_nat (length (data a)) <= I32_MAX →
  read_from (write_to a ++ rest) = Ok (a, rest).
Proof.
  intros Hwf Hlen. unfold read_from, write_to. rewrite <- app_assoc.
  rewrite (reader_bind_Ok _ _ _ _ _ (read_be_app 4 _ _ ltac:(lia))).
  set (n := length (data a)) in *. unfold I32_MAX in Hlen.
  change (8 * Z.of_nat 4) with 32. unfold i32. rewrite wraps_wraps by lia.
  rewrite wraps_id by (unfold in_s; lia).
  unfold usize. rewrite wrapu_id by (unfold in_u; lia).
  unfold alloc_words, rlift. rewrite bool_decide_eq_true_2 by lia.
  unfold mbind at 1, Reader_bind at 1. cbn [rassert mbind Result_bind].
  rewrite Nat2Z.id. unfold n. rewrite (reader_bind_Ok _ _ _ _ _ (read_words_app _ _ Hwf)).
  by destruct a.
Qed.

(** Setting bit i of a bit array and reading bit j, both below the size, is free of
    undefined behaviour and returns true for i = j and the old bit otherwise. *)
Theorem bit_array_set_get a i j a' :
  0 <= i < bit_size a → 0 <= j < bit_size a → set a i = Ok a' →
  get a' j = Ok (bool_decide (i = j) || bit a j) ∧ get a j = Ok (bit a j).
Proof.
  intros Hi Hj Hset. destruct (set_spec a i Hi) as (a2 & E & Hlen & _ & Hbit).
  rewrite E in Hset. injection Hset as ->. split; [|by apply get_spec].
  rewrite get_spec by (unfold bit_size in *; lia). f_equal. apply Hbit. lia.
Qed.

Lemma bit_array_set_get_witness :
  ∃ a', set (mkBitArray [0; 5]) 70 = Ok a' ∧
    get a' 70 = Ok (bool_decide (70 = 70) || bit (mkBitArray [0; 5]) 70) ∧
    get (mkBitArray [0; 5]) 70 = Ok (bit (mkBitArray [0; 5]) 70).
Proof.
  eexists. split; [vm_compute; reflexivity|].
  apply (bit_array_set_get (mkBitArray [0; 5]) 70 70); [unfold bit_size; cbn; lia..|].
  vm_compute. reflexivity.
Defined.
