(* ===== verification/BloomFilter.v ===== *)
(** * Spark's bloom filter

    native-engine/datafusion-ext-commons/src/spark_bloom_filter.rs, on top of the
    bit array and of Murmur3.  The constructor that derives the number of hash
    functions from [f64] arithmetic ([optimal_num_of_hash_functions]) is not
    modelled; the number of hash functions is a field. *)

From S2P Require Import Prelude MachineInt Io SparkHash BitArray.
Local Open Scope Z_scope.

Record SparkBloomFilter := mkBloom {
  bits : SparkBitArray;
  num_hash_functions : Z }.

Definition new_with_num_hash_functions (num_hash_functions num_bits : Z)
    : Result SparkBloomFilter :=
  bits ← BitArray.new_with_num_bits num_bits;
  mret (mkBloom bits num_hash_functions).

Definition bloom_read_from : Reader SparkBloomFilter :=
  version ← read_be 4;
  if bool_decide (version ≠ 1) then rlift (Err (Execution "unsupported version"))
  else
    n ← read_be 4;
    bits ← BitArray.read_from;
    mret (mkBloom bits (usize n)).

Definition bloom_write_to (f : SparkBloomFilter) : list Z :=
  write_be 4 1 ++ write_be 4 (i32 (num_hash_functions f)) ++ BitArray.write_to (bits f).

Definition bloom_mem_size (f : SparkBloomFilter) : Z := BitArray.mem_size (bits f) + 8.

(** [h1 + i * h2] in [i32] arithmetic, then all bits flipped if it is negative. *)
Definition combined_hash (h1 h2 i : Z) : Z :=
  let combined := i32 (h1 + i32 (i * h2)) in
  Z.lxor combined (i32 (- (if bool_decide (combined < 0) then 1 else 0))).

(** [(combined_hash % bit_size) as usize]; [%] by zero panics. *)
Definition bit_index (h1 h2 bit_size i : Z) : Result Z :=
  if bool_decide (bit_size = 0) then Panic
  else Ok (usize (Z.rem (combined_hash h1 h2 i) bit_size)).

(** [1..=self.num_hash_functions as i32]. *)
Definition hash_range (f : SparkBloomFilter) : list Z := seqZ 1 (i32 (num_hash_functions f)).

(** The common body of [put_long] and [put_binary] once the two hashes are known. *)
Definition put_hashes (f : SparkBloomFilter) (h1 h2 : Z) : Result SparkBloomFilter :=
  let bit_size := i32 (BitArray.bit_size (bits f)) in
  bits' ← rfoldM (λ b i, idx ← bit_index h1 h2 bit_size i; BitArray.set b idx)
            (bits f) (hash_range f);
  mret (mkBloom bits' (num_hash_functions f)).

Definition put_long (f : SparkBloomFilter) (item : Z) : Result SparkBloomFilter :=
  let h1 := Mur.spark_compatible_murmur3_hash_long item 0 in
  let h2 := Mur.spark_compatible_murmur3_hash_long item h1 in
  put_hashes f h1 h2.

Definition put_binary (f : SparkBloomFilter) (item : list Z) : Result SparkBloomFilter :=
  h1 ← Mur.spark_compatible_murmur3_hash item 0;
  h2 ← Mur.spark_compatible_murmur3_hash item h1;
  put_hashes f h1 h2.

(** The probing loop: [false] at the first bit that is not set. *)
Fixpoint probe (b : SparkBitArray) (h1 h2 bit_size : Z) (is_ : list Z) : Result bool :=
  match is_ with
  | [] => Ok true
  | i :: is_ =>
    idx ← bit_index h1 h2 bit_size i;
    v ← BitArray.get b idx;
    if negb v then Ok false else probe b h1 h2 bit_size is_
  end.

Definition might_contain_hashes (f : SparkBloomFilter) (h1 h2 : Z) : Result bool :=
  probe (bits f) h1 h2 (i32 (BitArray.bit_size (bits f))) (hash_range f).

Definition might_contain_long (f : SparkBloomFilter) (item : Z) : Result bool :=
  let h1 := Mur.spark_compatible_murmur3_hash_long item 0 in
  let h2 := Mur.spark_compatible_murmur3_hash_long item h1 in
  might_contain_hashes f h1 h2.

Definition might_contain_binary (f : SparkBloomFilter) (item : list Z) : Result bool :=
  h1 ← Mur.spark_compatible_murmur3_hash item 0;
  h2 ← Mur.spark_compatible_murmur3_hash item h1;
  might_contain_hashes f h1 h2.

(** [buffer.as_slice_mut()[i / 8] |= 1 << (i % 8)] on the packed result bits. *)
Definition set_result_bit (buf : list Z) (i : nat) : Result (list Z) :=
  b ← uindex buf (i / 8);
  set_uindex buf (i / 8) (Z.lor b (u8 (Z.shiftl 1 (Z.of_nat (i mod 8))))).

(** The vectorized probe: all first hashes, all second hashes, then the rows.
    The result is the packed bit buffer of the [BooleanArray]. *)
Definition might_contain_longs (f : SparkBloomFilter) (values : list Z) : Result (list Z) :=
  let buffer := replicate (div_ceil (length values) 8) 0 in
  let h1s := (λ v, Mur.spark_compatible_murmur3_hash_long v 0) <$> values in
  let h2s := zip_with Mur.spark_compatible_murmur3_hash_long values h1s in
  let bit_size := i32 (BitArray.bit_size (bits f)) in
  rfoldM (λ buf '(i, (h1, h2)),
      hit ← probe (bits f) h1 h2 bit_size (hash_range f);
      if (hit : bool) then set_result_bit buf i else Ok buf)
    buffer (enumerate (zip h1s h2s)).

Definition bloom_put_all (f other : SparkBloomFilter) : Result SparkBloomFilter :=
  _ ← rassert (bool_decide (num_hash_functions f = num_hash_functions other));
  bits' ← BitArray.put_all (bits f) (bits other);
  mret (mkBloom bits' (num_hash_functions f)).

(** [usize::next_power_of_two], which wraps to 0 without overflow checks. *)
Definition next_power_of_two (n : Z) : Z := usize (2 ^ Z.log2_up n).

Definition shrinked_num_bits (f : SparkBloomFilter) : Z :=
  let num_trues := BitArray.true_count (bits f) in
  next_power_of_two (Z.max (usize (usize (num_hash_functions f * num_trues) * 2)) 1).

Definition shrink_to_fit (f : SparkBloomFilter) : Result SparkBloomFilter :=
  let num_bits := BitArray.bit_size (bits f) in
  let shrinked := shrinked_num_bits f in
  if bool_decide (num_bits <= shrinked) then mret f
  else
    new_bits ← BitArray.new_with_num_bits shrinked;
    new_bits ← rfoldM (λ nb i,
        b ← BitArray.get (bits f) i;
        if (b : bool) then BitArray.set nb (i mod shrinked) else Ok nb)
      new_bits (seqZ 0 num_bits);
    mret (mkBloom new_bits (num_hash_functions f)).

(** ** Correctness *)

(** What the constructor establishes and every operation keeps. *)
Definition bloom_wf (f : SparkBloomFilter) : Prop :=
  BitArray.wf (bits f) ∧ 0 < BitArray.bit_size (bits f) <= 2 ^ 31.

(** The bit that hash function [i] selects in an array of [size] bits. *)
Definition slot (size h1 h2 i : Z) : Z := combined_hash h1 h2 i mod size.

Lemma combined_hash_bound h1 h2 i : 0 <= combined_hash h1 h2 i < 2 ^ 31.
Proof.
  unfold combined_hash. set (c := i32 _).
  assert (in_s 32 c) as Hc by (by apply wraps_bound). unfold in_s in Hc.
  case_bool_decide.
  - change (i32 (- (1))) with (-1). rewrite Z.lxor_m1_r. unfold Z.lnot. lia.
  - change (i32 (- 0)) with 0. rewrite Z.lxor_0_r. lia.
Qed.

Lemma bit_index_Ok size h1 h2 i :
  0 < size <= 2 ^ 31 → bit_index h1 h2 (i32 size) i = Ok (slot size h1 h2 i).
Proof.
  intros Hs. unfold bit_index, slot, usize.
  pose proof (combined_hash_bound h1 h2 i) as Hc.
  set (c := combined_hash h1 h2 i) in *.
  assert (Z.rem c (i32 size) = c mod size ∧ i32 size ≠ 0) as [-> Hnz].
  { destruct (decide (size = 2 ^ 31)) as [->|].
    - change (i32 (2 ^ 31)) with (- 2 ^ 31). split; [|lia].
      rewrite Z.rem_opp_r, Z.rem_small, Z.mod_small by lia. done.
    - unfold i32. rewrite wraps_id by (unfold in_s; lia).
      split; [|lia]. apply Z.rem_mod_nonneg; lia. }
  rewrite bool_decide_eq_false_2 by done. f_equal. apply wrapu_id.
  pose proof (Z.mod_pos_bound c size). unfold in_u. lia.
Qed.

Lemma slot_bound size h1 h2 i : 0 < size → 0 <= slot size h1 h2 i < size.
Proof. intros. by apply Z.mod_pos_bound. Qed.

#[local] Opaque Mur.spark_compatible_murmur3_hash_long Mur.spark_compatible_murmur3_hash
  combined_hash i32.

Lemma probe_spec b h1 h2 is_ :
  0 < BitArray.bit_size b <= 2 ^ 31 →
  probe b h1 h2 (i32 (BitArray.bit_size b)) is_ =
    Ok (forallb (λ i, BitArray.bit b (slot (BitArray.bit_size b) h1 h2 i)) is_).
Proof.
  intros Hs. induction is_ as [|i is_ IH]; [done|]. cbn [probe forallb].
  rewrite bit_index_Ok by done. cbn [mbind Result_bind].
  rewrite BitArray.get_spec by (apply slot_bound; lia). cbn [mbind Result_bind].
  destruct (BitArray.bit b _); [exact IH|done].
Qed.

(** The filter as a set of bits: membership is the conjunction of its slots. *)
Lemma might_contain_hashes_spec f h1 h2 :
  bloom_wf f →
  might_contain_hashes f h1 h2 =
    Ok (forallb (λ i, BitArray.bit (bits f) (slot (BitArray.bit_size (bits f)) h1 h2 i))
         (hash_range f)).
Proof. intros [_ Hs]. by apply probe_spec. Qed.

Lemma might_contain_hashes_true f h1 h2 :
  bloom_wf f →
  might_contain_hashes f h1 h2 = Ok true ↔
  ∀ i, i ∈ hash_range f →
    BitArray.bit (bits f) (slot (BitArray.bit_size (bits f)) h1 h2 i) = true.
Proof.
  intros Hwf. rewrite might_contain_hashes_spec by done. split.
  - intros [= H]. rewrite forallb_forall in H. intros i Hi. by apply H, list_elem_of_In.
  - intros H. f_equal. apply forallb_forall. intros i Hi. by apply H, list_elem_of_In.
Qed.

(** Filters of one shape whose bits grow: every positive answer stays. *)
Definition bloom_le (f g : SparkBloomFilter) : Prop :=
  num_hash_functions f = num_hash_functions g ∧
  BitArray.bit_size (bits f) = BitArray.bit_size (bits g) ∧
  ∀ j, 0 <= j < BitArray.bit_size (bits f) →
    BitArray.bit (bits f) j = true → BitArray.bit (bits g) j = true.

#[export] Instance bloom_le_preorder : PreOrder bloom_le.
Proof.
  split; [by intros f|]. intros f g h (? & ? & Hfg) (? & ? & Hgh).
  split_and!; [congruence..|]. intros j Hj Hb. apply Hgh; [lia|]. by apply Hfg.
Qed.

Lemma might_contain_mono f g h1 h2 :
  bloom_wf f → bloom_wf g → bloom_le f g →
  might_contain_hashes f h1 h2 = Ok true → might_contain_hashes g h1 h2 = Ok true.
Proof.
  intros Hf Hg (Hk & Hs & Hle). rewrite !might_contain_hashes_true by done.
  unfold hash_range. rewrite <- Hk, <- Hs. intros H i Hi. apply Hle; [|by apply H].
  apply slot_bound. destruct Hf. lia.
Qed.

Lemma put_bits_spec b h1 h2 is_ :
  BitArray.wf b → 0 < BitArray.bit_size b <= 2 ^ 31 →
  ∃ b', rfoldM (λ b' i, idx ← bit_index h1 h2 (i32 (BitArray.bit_size b)) i; BitArray.set b' idx)
          b is_ = Ok b' ∧
    BitArray.wf b' ∧ BitArray.bit_size b' = BitArray.bit_size b ∧
    (∀ j, 0 <= j → BitArray.bit b j = true → BitArray.bit b' j = true) ∧
    (∀ i, i ∈ is_ → BitArray.bit b' (slot (BitArray.bit_size b) h1 h2 i) = true).
Proof.
  intros Hwf Hs. set (size := BitArray.bit_size b) in *.
  assert (BitArray.bit_size b = size) as Eb by done. clearbody size.
  revert b Hwf Eb. induction is_ as [|i is_ IH]; intros b Hwf Eb.
  { exists b. split_and!; [done..|]. intros i Hi. set_solver. }
  cbn [rfoldM]. rewrite bit_index_Ok by done. cbn [mbind Result_bind].
  pose proof (slot_bound size h1 h2 i ltac:(lia)) as Hslot.
  destruct (BitArray.set_spec b (slot size h1 h2 i)) as (b1 & -> & Hlen & Hwf1 & Hb1);
    [lia|]. cbn [mbind Result_bind].
  destruct (IH b1) as (b' & -> & Hwf' & Hs' & Hold & Hnew);
    [auto|unfold BitArray.bit_size in *; lia|].
  exists b'. split_and!; [done..| |].
  - intros j Hj Hbj. apply Hold; [done|]. rewrite Hb1, Hbj by done. apply orb_true_r.
  - intros i' [->|Hi]%elem_of_cons; [|by apply Hnew].
    apply Hold; [lia|]. rewrite Hb1 by lia. by rewrite bool_decide_eq_true_2.
Qed.

Lemma put_hashes_spec f h1 h2 :
  bloom_wf f →
  ∃ f', put_hashes f h1 h2 = Ok f' ∧ bloom_wf f' ∧ bloom_le f f' ∧
    might_contain_hashes f' h1 h2 = Ok true.
Proof.
  intros [Hwf Hs]. unfold put_hashes.
  destruct (put_bits_spec (bits f) h1 h2 (hash_range f) Hwf Hs)
    as (b' & -> & Hwf' & Hs' & Hold & Hnew).
  cbn [mbind Result_bind]. eexists; split; [done|].
  assert (bloom_wf (mkBloom b' (num_hash_functions f))) as Hf'
    by (split; cbn [bits]; [done|lia]).
  split_and!; [done| |].
  - split_and!; [done|by symmetry|]. intros j Hj. apply Hold. lia.
  - apply might_contain_hashes_true; [done|]. cbn [bits]. rewrite Hs'. exact Hnew.
Qed.

(** Two filters of one shape, merged: positive wherever one of them is. *)
Lemma bloom_put_all_spec f g :
  bloom_wf f → bloom_wf g → num_hash_functions f = num_hash_functions g →
  BitArray.bit_size (bits f) = BitArray.bit_size (bits g) →
  ∃ r, bloom_put_all f g = Ok r ∧ bloom_wf r ∧ bloom_le f r ∧ bloom_le g r.
Proof.
  intros [Hwf Hs] [Hwg Hsg] Hk Hsize. unfold bloom_put_all.
  rewrite bool_decide_eq_true_2 by done. cbn [rassert mbind Result_bind].
  assert (length (data (bits f)) = length (data (bits g))) as Hlen
    by (unfold BitArray.bit_size in *; lia).
  destruct (BitArray.put_all_spec _ _ Hlen) as (b & E & Hl & Hwfb & Hb).
  rewrite E. cbn [mbind Result_bind]. eexists; split; [done|].
  assert (BitArray.bit_size b = BitArray.bit_size (bits f)) as Hsb
    by (unfold BitArray.bit_size; lia).
  split_and!; (split; [|split]) || split; cbn [bits num_hash_functions]; auto; try lia.
  - intros j Hj Hbj. rewrite Hb by lia. by rewrite Hbj.
  - intros j Hj Hbj. rewrite Hb by lia. rewrite Hbj. apply orb_true_r.
Qed.

(** ** Shrinking *)

Lemma next_power_of_two_shape n :
  64 <= next_power_of_two n → ∃ k, 0 <= k ∧ next_power_of_two n = 64 * 2 ^ k.
Proof.
  unfold next_power_of_two, usize, wrapu. intros H.
  pose proof (Z.log2_up_nonneg n). set (k := Z.log2_up n) in *.
  assert (6 <= k < 64) as Hk.
  { destruct (decide (64 <= k)) as [Hge|].
    - replace k with (64 + (k - 64)) in H by lia.
      rewrite Z.pow_add_r, Z.mul_comm, Z.mod_mul in H by lia. lia.
    - split; [|lia]. apply Z.le_ngt. intros Hlt.
      assert (2 ^ k <= 2 ^ 5) by (apply Z.pow_le_mono_r; lia).
      rewrite Z.mod_small in H by (split; [lia|]; apply Z.pow_lt_mono_r; lia). lia. }
  exists (k - 6). split; [lia|].
  rewrite Z.mod_small by (split; [lia|]; apply Z.pow_lt_mono_r; lia).
  change 64 with (2 ^ 6). rewrite <- Z.pow_add_r by lia. f_equal. lia.
Qed.

(** The copying loop: bit [i mod size] of the new array for every set bit [i]. *)
Lemma shrink_loop_spec b nb size is_ :
  0 < size <= BitArray.bit_size nb → (∀ i, i ∈ is_ → 0 <= i < BitArray.bit_size b) →
  BitArray.wf nb →
  ∃ nb', rfoldM (λ nb i, v ← BitArray.get b i;
            if (v : bool) then BitArray.set nb (i mod size) else Ok nb) nb is_ = Ok nb' ∧
    BitArray.wf nb' ∧ BitArray.bit_size nb' = BitArray.bit_size nb ∧
    (∀ j, 0 <= j → BitArray.bit nb j = true → BitArray.bit nb' j = true) ∧
    (∀ i, i ∈ is_ → BitArray.bit b i = true → BitArray.bit nb' (i mod size) = true).
Proof.
  intros Hsize His Hwf. revert nb Hwf Hsize.
  induction is_ as [|i is_ IH]; intros nb Hwf Hsize.
  { exists nb. split_and!; [done..|]. intros i Hi. set_solver. }
  cbn [rfoldM]. rewrite BitArray.get_spec by (apply His; set_solver).
  cbn [mbind Result_bind]. pose proof (Z.mod_pos_bound i size ltac:(lia)) as Hi.
  assert (∃ nb1, (if BitArray.bit b i then BitArray.set nb (i mod size) else Ok nb) = Ok nb1 ∧
    BitArray.wf nb1 ∧ BitArray.bit_size nb1 = BitArray.bit_size nb ∧
    (∀ j, 0 <= j → BitArray.bit nb j = true → BitArray.bit nb1 j = true) ∧
    (BitArray.bit b i = true → BitArray.bit nb1 (i mod size) = true))
    as (nb1 & -> & Hwf1 & Hs1 & Hold1 & Hnew1).
  { destruct (BitArray.bit b i); [|naive_solver].
    destruct (BitArray.set_spec nb (i mod size)) as (nb1 & -> & Hl & Hw & Hb); [lia|].
    exists nb1. split_and!; [done|auto|unfold BitArray.bit_size; lia| |].
    - intros j Hj Hbj. rewrite Hb, Hbj by done. apply orb_true_r.
    - intros _. rewrite Hb by lia. by rewrite bool_decide_eq_true_2. }
  cbn [mbind Result_bind].
  destruct (IH ltac:(intros; apply His; set_solver) nb1) as (nb' & -> & ? & ? & Hold & Hnew);
    [done|lia|].
  exists nb'. split_and!; [done..|lia|auto|].
  intros i' [->|Hi']%elem_of_cons Hbi; [|by apply Hnew]. apply Hold; [lia|auto].
Qed.

Lemma shrink_to_fit_mono f h1 h2 :
  bloom_wf f →
  (shrinked_num_bits f < BitArray.bit_size (bits f) →
    64 <= shrinked_num_bits f ∧ (shrinked_num_bits f | BitArray.bit_size (bits f))) →
  ∃ g, shrink_to_fit f = Ok g ∧ bloom_wf g ∧ num_hash_functions g = num_hash_functions f ∧
    (might_contain_hashes f h1 h2 = Ok true → might_contain_hashes g h1 h2 = Ok true).
Proof.
  intros Hf Hcond. pose proof Hf as [Hwf Hs]. unfold shrink_to_fit.
  case_bool_decide as Hc; [by eauto|].
  destruct (Hcond ltac:(lia)) as [H64 Hdiv]. clear Hcond.
  destruct (next_power_of_two_shape _ H64) as (k & Hk & Ek).
  fold (shrinked_num_bits f) in Ek. set (m := shrinked_num_bits f) in *.
  destruct (BitArray.new_with_num_bits_spec m) as (nb & -> & Hwn & Hsn & Hmax & _);
    [unfold I32_MAX; lia|]. cbn [mbind Result_bind].
  assert (BitArray.bit_size nb = m) as Em.
  { unfold BitArray.bit_size in *. set (n := Z.of_nat _) in *. lia. }
  destruct (shrink_loop_spec (bits f) nb m (seqZ 0 (BitArray.bit_size (bits f))))
    as (nb' & -> & Hw' & Hs' & _ & Hnew); [lia| |done|].
  { intros i. rewrite elem_of_seqZ. lia. }
  cbn [mbind Result_bind]. eexists; split; [done|].
  assert (bloom_wf (mkBloom nb' (num_hash_functions f))) as Hg
    by (split; cbn [bits]; [done|lia]).
  split_and!; [done..|]. rewrite !might_contain_hashes_true by done.
  intros H i Hi. cbn [bits]. rewrite Hs', Em.
  assert (slot m h1 h2 i = slot (BitArray.bit_size (bits f)) h1 h2 i mod m) as ->.
  { unfold slot. symmetry. by apply Z.mod_mod_divide. }
  apply Hnew; [|by apply H].
  apply elem_of_seqZ. pose proof (slot_bound (BitArray.bit_size (bits f)) h1 h2 i). lia.
Qed.

(** A filter the witnesses use: 1024 bits, six hash functions. *)
Definition bloom_1024 : SparkBloomFilter := mkBloom (mkBitArray (replicate 16 0)) 6.

Lemma bloom_1024_wf : bloom_wf bloom_1024.
Proof.
  split; [|unfold BitArray.bit_size; cbn; lia].
  apply Forall_replicate. unfold in_u. lia.
Defined.

(** ** The vectorized probe *)

Lemma byte_lor_bit b i j :
  0 <= i < 8 → 0 <= j →
  Z.testbit (Z.lor b (u8 (Z.shiftl 1 i))) j = bool_decide (i = j) || Z.testbit b j.
Proof.
  intros Hi Hj. rewrite Z.shiftl_1_l. unfold u8. rewrite wrapu_id.
  2:{ unfold in_u. split; [lia|]. apply Z.pow_lt_mono_r; lia. }
  rewrite Z.lor_spec, Z.pow2_bits_eqb by lia. rewrite orb_comm. f_equal.
  case_bool_decide; [by apply Z.eqb_eq|by apply Z.eqb_neq].
Qed.

(** Bit [i] of a packed buffer. *)
Definition result_bit (buf : list Z) (i : nat) : bool :=
  match buf !! (i / 8)%nat with
  | Some b => Z.testbit b (Z.of_nat (i mod 8))
  | None => false
  end.

Lemma set_result_bit_spec buf i :
  (i / 8 < length buf)%nat →
  ∃ buf', set_result_bit buf i = Ok buf' ∧ length buf' = length buf ∧
    ∀ j, result_bit buf' j = bool_decide (i = j) || result_bit buf j.
Proof.
  intros Hi. destruct (lookup_lt_is_Some_2 _ _ Hi) as [b Hb].
  unfold set_result_bit. rewrite (proj2 (uindex_Ok _ _ _) Hb). cbn [mbind Result_bind].
  rewrite set_uindex_Ok by done. eexists; split; [done|].
  split; [by rewrite length_insert|]. intros j. unfold result_bit at 1.
  pose proof (Nat.div_mod i 8 ltac:(lia)). pose proof (Nat.div_mod j 8 ltac:(lia)).
  pose proof (Nat.mod_upper_bound i 8 ltac:(lia)).
  destruct (decide (i / 8 = j / 8)%nat) as [E|E].
  - rewrite <- E, list_lookup_insert_eq by done. rewrite byte_lor_bit by lia.
    unfold result_bit. rewrite <- E, Hb. f_equal. apply bool_decide_ext. lia.
  - rewrite list_lookup_insert_ne by done. fold (result_bit buf j).
    rewrite bool_decide_eq_false_2; [done|congruence].
Qed.

Lemma result_bit_empty n i : result_bit (replicate n 0) i = false.
Proof.
  unfold result_bit. destruct (_ !! _) as [b|] eqn:E; [|done].
  apply lookup_replicate_1 in E as [-> _]. apply Z.bits_0.
Qed.

(** The row loop fills in the answers of the rows it has passed. *)
Lemma longs_loop_spec f (hs : list (Z * Z)) k buf :
  bloom_wf f → (∀ i, i < length hs → (k + i) / 8 < length buf)%nat →
  (∀ i, (k ≤ i)%nat → result_bit buf i = false) →
  ∃ buf', rfoldM (λ buf '(i, (h1, h2)),
      hit ← probe (bits f) h1 h2 (i32 (BitArray.bit_size (bits f))) (hash_range f);
      if (hit : bool) then set_result_bit buf i else Ok buf)
      buf (imap (λ i h, ((k + i)%nat, h)) hs) = Ok buf' ∧
    (∀ i, (i < k)%nat → result_bit buf' i = result_bit buf i) ∧
    ∀ i h1 h2, hs !! i = Some (h1, h2) →
      might_contain_hashes f h1 h2 = Ok (result_bit buf' (k + i)).
Proof.
  intros Hf. revert k buf. induction hs as [|[h1 h2] hs IH]; intros k buf Hlen Hzero.
  { exists buf. split_and!; [done..|]. intros i ? ? H. by rewrite lookup_nil in H. }
  cbn [imap rfoldM]. rewrite Nat.add_0_r.
  rewrite (imap_ext _ (λ i h, ((S k + i)%nat, h))) by (intros; unfold compose; f_equal; lia).
  fold (might_contain_hashes f h1 h2).
  pose proof (might_contain_hashes_spec f h1 h2 Hf) as E. rewrite E. cbn [mbind Result_bind].
  set (hit := forallb _ _) in *.
  assert (∃ b1, (if hit then set_result_bit buf k else Ok buf) = Ok b1 ∧
    length b1 = length buf ∧ (∀ j, j ≠ k → result_bit b1 j = result_bit buf j) ∧
    result_bit b1 k = hit) as (b1 & -> & Hl1 & Hne & Hk).
  { pose proof (Hzero k ltac:(lia)) as Hz. destruct hit; [|naive_solver].
    destruct (set_result_bit_spec buf k) as (b1 & -> & Hl & Hb).
    { specialize (Hlen 0%nat ltac:(cbn; lia)). by rewrite Nat.add_0_r in Hlen. }
    exists b1. split_and!; [done..| |].
    - intros j Hj. rewrite Hb. by rewrite bool_decide_eq_false_2.
    - rewrite Hb. by rewrite bool_decide_eq_true_2. }
  cbn [mbind Result_bind].
  destruct (IH (S k) b1) as (b' & -> & Hold & Hnew).
  { intros i Hi. rewrite Hl1. specialize (Hlen (S i) ltac:(cbn; lia)).
    by replace (S k + i)%nat with (k + S i)%nat by lia. }
  { intros i Hi. rewrite Hne by lia. apply Hzero. lia. }
  exists b'. split_and!; [done| |].
  - intros i Hi. rewrite Hold by lia. apply Hne. lia.
  - intros [|i] g1 g2 Hi; cbn in Hi.
    + injection Hi as <- <-. rewrite E, Nat.add_0_r. f_equal.
      rewrite Hold by lia. by symmetry.
    + apply Hnew in Hi as ->. do 2 f_equal. lia.
Qed.

(** The vectorized probe of a slice of i64 terminates without leaving its packed buffer,
    and bit i of its result is the answer of the scalar probe of value i. *)
Theorem might_contain_longs_spec f values :
  bloom_wf f →
  ∃ buf, might_contain_longs f values = Ok buf ∧
    ∀ i v, values !! i = Some v → might_contain_long f v = Ok (result_bit buf i).
Proof.
  intros Hf. unfold might_contain_longs.
  set (h1s := _ <$> values). set (h2s := zip_with _ values h1s).
  assert (length (zip h1s h2s) = length values) as Hlen
    by (unfold h2s, h1s; rewrite length_zip_with, length_zip_with, length_fmap; lia).
  destruct (longs_loop_spec f (zip h1s h2s) 0 (replicate (div_ceil (length values) 8) 0))
    as (buf & E & _ & Hb); [done| |by intros; apply result_bit_empty|].
  { intros i Hi. rewrite length_replicate. unfold div_ceil.
    rewrite Hlen in Hi. cbn [Nat.add Nat.sub].
    pose proof (Nat.div_mod i 8 ltac:(lia)).
    pose proof (Nat.div_mod (length values + 7) 8 ltac:(lia)).
    pose proof (Nat.mod_upper_bound (length values + 7) 8 ltac:(lia)). lia. }
  exists buf. split; [exact E|]. intros i v Hv.
  unfold might_contain_long. cbv zeta. apply (Hb i).
  rewrite lookup_zip_with. unfold h2s. rewrite lookup_zip_with. unfold h1s.
  rewrite list_lookup_fmap, Hv. reflexivity.
Qed.

Lemma might_contain_longs_spec_witness :
  ∃ buf, might_contain_longs bloom_1024 [3; 4] = Ok buf ∧
    ∀ i v, [3; 4] !! i = Some v → might_contain_long bloom_1024 v = Ok (result_bit buf i).
Proof. apply (might_contain_longs_spec bloom_1024 [3; 4]). exact bloom_1024_wf. Defined.

(** ** Properties *)

Lemma put_long_spec f x :
  bloom_wf f →
  ∃ f', put_long f x = Ok f' ∧ bloom_wf f' ∧ bloom_le f f' ∧ might_contain_long f' x = Ok true.
Proof. intros Hf. by apply put_hashes_spec. Qed.

Lemma put_binary_spec f x :
  bloom_wf f →
  ∃ f', put_binary f x = Ok f' ∧ bloom_wf f' ∧ bloom_le f f' ∧ might_contain_binary f' x = Ok true.
Proof.
  intros Hf. unfold put_binary, might_contain_binary. rewrite murmur3_hash_ok.
  cbn [mbind Result_bind]. rewrite murmur3_hash_ok. cbn [mbind Result_bind].
  by apply put_hashes_spec.
Qed.

Lemma might_contain_long_mono f g x :
  bloom_wf f → bloom_wf g → bloom_le f g →
  might_contain_long f x = Ok true → might_contain_long g x = Ok true.
Proof. intros. by apply (might_contain_mono f g). Qed.

Lemma might_contain_binary_mono f g x :
  bloom_wf f → bloom_wf g → bloom_le f g →
  might_contain_binary f x = Ok true → might_contain_binary g x = Ok true.
Proof.
  intros Hf Hg Hle. unfold might_contain_binary. rewrite murmur3_hash_ok.
  cbn [mbind Result_bind]. rewrite murmur3_hash_ok. by apply might_contain_mono.
Qed.

(** Any further insertions keep the shape and only add members. *)
Lemma put_many_spec {A} (put : SparkBloomFilter → A → Result SparkBloomFilter) f xs :
  (∀ g y, bloom_wf g → ∃ g', put g y = Ok g' ∧ bloom_wf g' ∧ bloom_le g g') →
  bloom_wf f → ∃ g, rfoldM put f xs = Ok g ∧ bloom_wf g ∧ bloom_le f g.
Proof.
  intros Hput Hf.
  destruct (rfoldM_inv (λ g _, bloom_wf g ∧ bloom_le f g) put f xs) as (g & E & Hg & Hle);
    [done| |by eauto].
  intros g y ys [Hg Hle]. destruct (Hput g y Hg) as (g' & Eg & Hg' & Hle').
  exists g'. split_and!; [exact Eg|done|by transitivity g].
Qed.

(** C39: an i64 put into a well-formed bloom filter is reported as contained after any
    number of further insertions and after merging the filter into any other filter of
    its shape. *)
Theorem bloom_no_false_negative f x xs :
  bloom_wf f →
  ∃ f1 f2, put_long f x = Ok f1 ∧ rfoldM put_long f1 xs = Ok f2 ∧
    might_contain_long f2 x = Ok true ∧
    ∀ g, bloom_wf g → num_hash_functions g = num_hash_functions f2 →
      BitArray.bit_size (bits g) = BitArray.bit_size (bits f2) →
      ∃ r, bloom_put_all g f2 = Ok r ∧ might_contain_long r x = Ok true.
Proof.
  intros Hf. destruct (put_long_spec f x Hf) as (f1 & E1 & Hf1 & _ & Hin).
  destruct (put_many_spec put_long f1 xs) as (f2 & E2 & Hf2 & Hle); [|done|].
  { intros g y Hg. destruct (put_long_spec g y Hg) as (? & ? & ? & ? & _). eauto. }
  pose proof (might_contain_long_mono _ _ x Hf1 Hf2 Hle Hin) as Hin2.
  exists f1, f2. split_and!; [done..|]. intros g Hg Hk Hs.
  destruct (bloom_put_all_spec g f2 Hg Hf2 Hk Hs) as (r & Er & Hr & _ & Hler).
  exists r. split; [exact Er|]. by apply (might_contain_long_mono f2 r).
Qed.

Lemma bloom_no_false_negative_witness :
  ∃ f1 f2, put_long bloom_1024 7 = Ok f1 ∧ rfoldM put_long f1 [8; 9] = Ok f2 ∧
    might_contain_long f2 7 = Ok true.
Proof.
  destruct (bloom_no_false_negative bloom_1024 7 [8; 9] bloom_1024_wf)
    as (f1 & f2 & E1 & E2 & H & _).
  exists f1, f2. auto.
Defined.

(** A byte string put into a well-formed bloom filter is reported as contained
    after any number of further insertions. *)
Theorem bloom_no_false_negative_binary f x xs :
  bloom_wf f →
  ∃ f1 f2, put_binary f x = Ok f1 ∧ rfoldM put_binary f1 xs = Ok f2 ∧
    might_contain_binary f2 x = Ok true.
Proof.
  intros Hf. destruct (put_binary_spec f x Hf) as (f1 & E1 & Hf1 & _ & Hin).
  destruct (put_many_spec put_binary f1 xs) as (f2 & E2 & Hf2 & Hle); [|done|].
  { intros g y Hg. destruct (put_binary_spec g y Hg) as (? & ? & ? & ? & _). eauto. }
  exists f1, f2. split_and!; [done..|]. by apply (might_contain_binary_mono f1 f2).
Qed.

Lemma bloom_no_false_negative_binary_witness :
  ∃ f1 f2, put_binary bloom_1024 [97; 98] = Ok f1 ∧ rfoldM put_binary f1 [[99]] = Ok f2 ∧
    might_contain_binary f2 [97; 98] = Ok true.
Proof. exact (bloom_no_false_negative_binary bloom_1024 [97; 98] [[99]] bloom_1024_wf). Defined.

(** Shrink_to_fit keeps every member of a filter when the shrunk size is at least 64
    bits and divides the old size (or when it does not shrink). *)
Theorem shrink_to_fit_keeps_members f x :
  bloom_wf f →
  (shrinked_num_bits f < BitArray.bit_size (bits f) →
    64 <= shrinked_num_bits f ∧ (shrinked_num_bits f | BitArray.bit_size (bits f))) →
  might_contain_long f x = Ok true →
  ∃ g, shrink_to_fit f = Ok g ∧ bloom_wf g ∧ might_contain_long g x = Ok true.
Proof.
  intros Hf Hcond Hin.
  destruct (shrink_to_fit_mono f (Mur.spark_compatible_murmur3_hash_long x 0)
    (Mur.spark_compatible_murmur3_hash_long x (Mur.spark_compatible_murmur3_hash_long x 0))
    Hf Hcond) as (g & E & Hg & _ & Hm).
  exists g. split_and!; [done..|]. exact (Hm Hin).
Qed.

Lemma shrink_to_fit_keeps_members_witness :
  ∃ f g, put_long bloom_1024 1 = Ok f ∧ shrinked_num_bits f = 128 ∧
    shrink_to_fit f = Ok g ∧ bloom_wf g ∧ might_contain_long g 1 = Ok true.
Proof.
  destruct (put_long_spec bloom_1024 1 bloom_1024_wf) as (f & E & Hf & _ & Hin).
  assert (shrinked_num_bits f = 128 ∧ BitArray.bit_size (bits f) = 1024) as [E1 E2].
  { assert (Ok f = put_long bloom_1024 1) as E' by congruence.
    vm_compute in E'. injection E' as ->. split; vm_compute; reflexivity. }
  destruct (shrink_to_fit_keeps_members f 1 Hf) as (g & Eg & Hg & Hc); [|done|].
  { intros _. rewrite E1, E2. split; [lia|]. by exists 8. }
  exists f, g. auto.
Defined.

(** Without that condition members are lost: with four hash functions and 1024 bits, the
    filter that holds only the value 1 shrinks to 32 bits stored in one 64-bit word, and
    afterwards reports 1 as not contained. *)
Theorem shrink_to_fit_loses_member :
  ∃ f0 f g, new_with_num_hash_functions 4 1024 = Ok f0 ∧ put_long f0 1 = Ok f ∧
    shrink_to_fit f = Ok g ∧ shrinked_num_bits f = 32 ∧
    might_contain_long f 1 = Ok true ∧ might_contain_long g 1 = Ok false.
Proof.
  do 3 eexists. split; [vm_compute; reflexivity|].
  split; [vm_compute; reflexivity|]. split; [vm_compute; reflexivity|].
  vm_compute. auto.
Qed.

(** Reading a serialized bloom filter back gives the same filter and consumes
    exactly its bytes. *)
Theorem bloom_write_read_roundtrip f rest :
  bloom_wf f → 0 <= num_hash_functions f <= I32_MAX →
  bloom_read_from (bloom_write_to f ++ rest) = Ok (f, rest).
Proof.
  intros [Hwf Hs] Hk. unfold I32_MAX in Hk. unfold bloom_read_from, bloom_write_to.
  rewrite <- !app_assoc.
  rewrite (reader_bind_Ok _ _ _ _ _ (read_be_app 4 _ _ ltac:(lia))).
  change (wraps (8 * Z.of_nat 4) 1) with 1. rewrite bool_decide_eq_false_2 by lia.
  rewrite (reader_bind_Ok _ _ _ _ _ (read_be_app 4 _ _ ltac:(lia))).
  erewrite reader_bind_Ok.
  2:{ apply read_from_write_to; [done|]. unfold BitArray.bit_size, I32_MAX in *. lia. }
  change (8 * Z.of_nat 4) with 32. with_strategy transparent [i32] unfold i32.
  rewrite wraps_wraps, wraps_id by (unfold in_s; lia).
  unfold mret, Reader_ret, usize. rewrite wrapu_id by (unfold in_u; lia). by destruct f.
Qed.

Lemma bloom_write_read_roundtrip_witness :
  bloom_read_from (bloom_write_to bloom_1024 ++ [1; 2]) = Ok (bloom_1024, [1; 2]).
Proof.
  apply (bloom_write_read_roundtrip bloom_1024 [1; 2] bloom_1024_wf).
  unfold I32_MAX. cbn. lia.
Defined.
