(* ===== verification/LoserTree.v ===== *)
(** * The tournament loser tree

    native-engine/datafusion-ext-commons/src/algorithm/loser_tree.rs, the k-way
    merge structure of the external sort.  [losers[c]] holds the loser of the
    match at inner node [c] (children [2c] and [2c+1]; leaf [i] is node [n+i]),
    and [losers[0]] the overall winner.  The sentinel [usize::MAX] is [None];
    every vector access is unchecked in the source and [Undef] here when it is
    out of range. *)

From S2P Require Import Prelude.

(** The trait of the values: [a.lt(b)]. *)
Class ComparableForLoserTree (T : Type) := tree_lt : T → T → bool.

(** What the tree relies on: the answers of [lt] follow a preorder.  Two values may
    each be less than the other, as two exhausted cursors are. *)
Class TreeOrder T `{ComparableForLoserTree T} := {
  tree_le : relation T;
  tree_le_trans (a b c : T) : tree_le a b → tree_le b c → tree_le a c;
  tree_lt_le (a b : T) : tree_lt a b = true → tree_le a b;
  tree_ge_le (a b : T) : tree_lt a b = false → tree_le b a
}.

Lemma tree_le_refl `{TreeOrder T} (a : T) : tree_le a a.
Proof. destruct (tree_lt a a) eqn:E; [by apply tree_lt_le|by apply tree_ge_le]. Qed.

Record LoserTree (T : Type) := mkTree {
  losers : list (option nat);
  values : list T }.
Arguments mkTree {T} losers values.
Arguments losers {T} _.
Arguments values {T} _.

Section Operations.
Context {T : Type} `{ComparableForLoserTree T}.

(** [self.values[challenger]] for an entry of [losers]. *)
Definition value_at (vs : list T) (i : option nat) : Result T :=
  match i with Some i => uindex vs i | None => Undef end.

(** State of the two climbing loops: [losers], [winner] and [cmp_node]. *)
Record Climb := mkClimb { c_losers : list (option nat); c_winner : nat; c_node : nat }.

(** One match at [cmp_node], common to both loops: the loser stays, the winner
    climbs. *)
Definition play (vs : list T) (s : Climb) (challenger : nat) : Result Climb :=
  vc ← uindex vs challenger;
  vw ← uindex vs (c_winner s);
  if tree_lt vc vw then
    l ← set_uindex (c_losers s) (c_node s) (Some (c_winner s));
    mret (mkClimb l challenger (c_node s / 2))
  else
    l ← set_uindex (c_losers s) (c_node s) (Some challenger);
    mret (mkClimb l (c_winner s) (c_node s / 2)).

(** Body of [while cmp_node != 0 && self.losers[cmp_node] != usize::MAX]. *)
Definition init_step (vs : list T) (s : Climb) : Result (Climb + Climb) :=
  if bool_decide (c_node s = 0) then Ok (inr s)
  else
    e ← uindex (c_losers s) (c_node s);
    match e with
    | None => Ok (inr s)
    | Some challenger => s' ← play vs s challenger; Ok (inl s')
    end.

(** One iteration of the [for] loop of [init_tree]: leaf [i] enters. *)
Definition init_leaf (vs : list T) (l : list (option nat)) (i : nat)
    : Result (list (option nat)) :=
  let n := length vs in
  s ← rloop (S n) (init_step vs) (mkClimb l i ((n + i) / 2));
  set_uindex (c_losers s) (c_node s) (Some (c_winner s)).

Definition init_tree (vs : list T) : Result (LoserTree T) :=
  let n := length vs in
  l ← rfoldM (init_leaf vs) (replicate n None) (seq 0 n);
  mret (mkTree l vs).

Definition new (vs : list T) : Result (LoserTree T) := init_tree vs.

(** The loop of [adjust_tree]; a node without a match played is out of range. *)
Definition adjust_step (vs : list T) (s : Climb) : Result (Climb + Climb) :=
  if bool_decide (c_node s = 0) then Ok (inr s)
  else
    e ← uindex (c_losers s) (c_node s);
    match e with
    | None => Undef
    | Some challenger =>
      vc ← uindex vs challenger;
      vw ← uindex vs (c_winner s);
      if tree_lt vc vw then
        l ← set_uindex (c_losers s) (c_node s) (Some (c_winner s));
        Ok (inl (mkClimb l challenger (c_node s / 2)))
      else Ok (inl (mkClimb (c_losers s) (c_winner s) (c_node s / 2)))
    end.

Definition adjust_tree (t : LoserTree T) : Result (LoserTree T) :=
  let n := length (values t) in
  w ← uindex (losers t) 0;
  match w with
  | None => Undef
  | Some winner =>
    s ← rloop (S n) (adjust_step (values t)) (mkClimb (losers t) winner ((n + winner) / 2));
    l ← set_uindex (c_losers s) 0 (Some (c_winner s));
    mret (mkTree l (values t))
  end.

Definition len (t : LoserTree T) : nat := length (values t).

(** [peek] returns the first value, not the winner. *)
Definition peek (t : LoserTree T) : Result T := uindex (values t) 0.

(** ** LoserTreePeekMut *)

Record PeekMut := mkPeekMut { tree : LoserTree T; dirty : bool }.

Definition peek_mut (t : LoserTree T) : PeekMut := mkPeekMut t false.

Definition deref (p : PeekMut) : Result T :=
  w ← uindex (losers (tree p)) 0; value_at (values (tree p)) w.

(** Updating the winner in place: [deref_mut] marks the guard dirty and gives the winner out. *)
Definition deref_mut (p : PeekMut) (f : T → T) : Result PeekMut :=
  w ← uindex (losers (tree p)) 0;
  match w with
  | None => Undef
  | Some w =>
    v ← uindex (values (tree p)) w;
    vs ← set_uindex (values (tree p)) w (f v);
    mret (mkPeekMut (mkTree (losers (tree p)) vs) true)
  end.

Definition adjust (p : PeekMut) : Result PeekMut :=
  if dirty p then t ← adjust_tree (tree p); mret (mkPeekMut t false) else mret p.

(** [Drop::drop]. *)
Definition drop_peek (p : PeekMut) : Result (LoserTree T) :=
  if dirty p then adjust_tree (tree p) else mret (tree p).

End Operations.
Arguments Climb : clear implicits.
Arguments PeekMut T : clear implicits.

(** ** Positions in the tree *)

(** Node [y] lies in the subtree of node [x]. *)
Definition under (x y : nat) : Prop := ∃ k, y / 2 ^ k = x.

Lemma under_refl x : under x x.
Proof. exists 0. by rewrite Nat.div_1_r. Qed.

Lemma under_parent x y : under x y → under (x / 2) y.
Proof.
  intros [k <-]. exists (S k).
  rewrite Nat.pow_succ_r', Nat.mul_comm, <- Nat.Div0.div_div. done.
Qed.

Lemma under_child_l x y : under (2 * x) y → under x y.
Proof.
  intros Hu%under_parent. by rewrite Nat.mul_comm, Nat.div_mul in Hu by lia.
Qed.

Lemma under_child_r x y : under (2 * x + 1) y → under x y.
Proof.
  intros Hu%under_parent. rewrite Nat.mul_comm, Nat.div_add_l in Hu by lia.
  by rewrite Nat.add_0_r in Hu.
Qed.

Lemma under_le x y : under x y → x ≤ y.
Proof.
  intros [k <-]. pose proof (Nat.pow_nonzero 2 k). apply Nat.Div0.div_le_upper_bound. nia.
Qed.

(** Two nodes above one leaf with a common parent are the same. *)
Lemma div_pow_le a m : 1 ≤ m → a / 2 ^ m ≤ a / 2.
Proof.
  intros Hm. replace m with (S (m - 1)) by lia. rewrite Nat.pow_succ_r'.
  rewrite <- Nat.Div0.div_div. pose proof (Nat.pow_nonzero 2 (m - 1)).
  apply Nat.Div0.div_le_upper_bound. nia.
Qed.

Lemma under_disjoint c y : 1 ≤ c → under (2 * c) y → under (2 * c + 1) y → False.
Proof.
  intros Hc [k Hk] [k' Hk']. destruct (Nat.lt_trichotomy k k') as [Hlt|[->|Hlt]]; [|lia|].
  - replace k' with (k + (k' - k)) in Hk' by lia.
    rewrite Nat.pow_add_r, <- Nat.Div0.div_div, Hk in Hk'.
    pose proof (div_pow_le (2 * c) (k' - k) ltac:(lia)) as Hd.
    rewrite Hk', Nat.mul_comm, Nat.div_mul in Hd; lia.
  - replace k with (k' + (k - k')) in Hk by lia.
    rewrite Nat.pow_add_r, <- Nat.Div0.div_div, Hk' in Hk.
    pose proof (div_pow_le (2 * c + 1) (k - k') ltac:(lia)) as Hd.
    rewrite Hk in Hd. rewrite (Nat.mul_comm 2 c), Nat.div_add_l in Hd by lia. simpl in Hd. lia.
Qed.

(** A node is its parent's left or right child. *)
Lemma child_cases d : d = 2 * (d / 2) ∨ d = 2 * (d / 2) + 1.
Proof.
  pose proof (Nat.div_mod d 2 ltac:(lia)). pose proof (Nat.mod_upper_bound d 2). lia.
Qed.

Definition sibling (d : nat) : nat :=
  if decide (d = 2 * (d / 2)) then 2 * (d / 2) + 1 else 2 * (d / 2).

(** ** The tournament invariant *)

Section Invariant.
Context {T : Type} `{TreeOrder T}.
Implicit Types (vs : list T) (l : list (option nat)) (w : nat → option nat).

(** Value [i] is not greater than value [j]. *)
Definition vle vs (i j : nat) : Prop :=
  ∀ a b, vs !! i = Some a → vs !! j = Some b → tree_le a b.

Lemma vle_refl vs i : vle vs i i.
Proof.
  intros a b Ha Hb. assert (a = b) as -> by congruence.
  apply tree_le_refl.
Qed.

Lemma vle_trans vs i j k : j < length vs → vle vs i j → vle vs j k → vle vs i k.
Proof.
  intros [b Hb]%lookup_lt_is_Some_2 Hij Hjk a c Ha Hc.
  eapply tree_le_trans; [by eapply Hij|by eapply Hjk].
Qed.

(** [w x] is the winner of the subtree of node [x], [None] while some of its
    leaves have not entered.  The entry of [losers] at an inner node follows. *)
Definition node_ok vs l w (x : nat) : Prop :=
  match w (2 * x), w (2 * x + 1) with
  | Some a, Some b =>
      (w x = Some a ∧ l !! x = Some (Some b) ∧ vle vs a b) ∨
      (w x = Some b ∧ l !! x = Some (Some a) ∧ vle vs b a)
  | Some a, None => w x = None ∧ l !! x = Some (Some a)
  | None, Some b => w x = None ∧ l !! x = Some (Some b)
  | None, None => w x = None ∧ l !! x = Some None
  end.

(** A winner is a leaf of the subtree it has won. *)
Definition winners_below (n : nat) w : Prop :=
  ∀ x i, 1 ≤ x → w x = Some i → i < n ∧ under x (n + i).

(** A complete tournament over [vs]. *)
Definition tree_ok (t : LoserTree T) : Prop :=
  let n := length (values t) in
  length (losers t) = n ∧
  ∃ w, winners_below n w ∧ (∀ i, i < n → w (n + i) = Some i) ∧
    (∀ x, 1 ≤ x < n → node_ok (values t) (losers t) w x) ∧
    (∀ x, 1 ≤ x < 2 * n → is_Some (w x)) ∧
    (0 < n → losers t !! 0 = Some (w 1)).

(** The children of a node and its sibling relation. *)
Lemma node_ok_parent vs l w d :
  1 ≤ d / 2 → node_ok vs l w (d / 2) ↔
  match w d, w (sibling d) with
  | Some a, Some b =>
      (w (d / 2) = Some a ∧ l !! (d / 2) = Some (Some b) ∧ vle vs a b) ∨
      (w (d / 2) = Some b ∧ l !! (d / 2) = Some (Some a) ∧ vle vs b a)
  | Some a, None => w (d / 2) = None ∧ l !! (d / 2) = Some (Some a)
  | None, Some b => w (d / 2) = None ∧ l !! (d / 2) = Some (Some b)
  | None, None => w (d / 2) = None ∧ l !! (d / 2) = Some None
  end.
Proof.
  intros Hd. unfold node_ok, sibling. destruct (child_cases d) as [E|E].
  - rewrite decide_True by lia. by assert (w (2 * (d / 2)) = w d) as -> by (f_equal; lia).
  - rewrite decide_False by lia.
    assert (w (2 * (d / 2) + 1) = w d) as -> by (f_equal; lia).
    destruct (w (2 * (d / 2))), (w d); tauto.
Qed.

Lemma sibling_parent d : sibling d / 2 = d / 2.
Proof.
  unfold sibling. destruct (child_cases d) as [E|E].
  - rewrite decide_True by lia. rewrite Nat.mul_comm, Nat.div_add_l; [|lia]. cbn. lia.
  - rewrite decide_False by lia. rewrite Nat.mul_comm, Nat.div_mul; lia.
Qed.

Lemma sibling_ne d : sibling d ≠ d.
Proof. unfold sibling. destruct (child_cases d); case_decide; lia. Qed.

Lemma sibling_pos d : 1 ≤ d / 2 → 1 ≤ sibling d.
Proof. unfold sibling. case_decide; lia. Qed.

Lemma sibling_ne_parent d : 1 ≤ d / 2 → sibling d ≠ d / 2.
Proof. unfold sibling. case_decide; lia. Qed.

Lemma half_ne d : 1 ≤ d / 2 → d ≠ d / 2.
Proof. intros. destruct (child_cases d); lia. Qed.

Lemma sibling_lt d n : d / 2 < n → sibling d < 2 * n.
Proof. unfold sibling. case_decide; lia. Qed.

Lemma under_sibling d y : 1 ≤ d / 2 → under d y → under (sibling d) y → False.
Proof.
  intros Hd Hu Hs. unfold sibling in Hs. destruct (child_cases d) as [E|E].
  - rewrite decide_True in Hs by lia. rewrite E in Hu. by eapply under_disjoint.
  - rewrite decide_False in Hs by lia. rewrite E in Hu. by eapply under_disjoint.
Qed.

Lemma half_lt d n : d < 2 * n → d / 2 < n.
Proof. intros. destruct (child_cases d); lia. Qed.

(** Updating the winner of one node. *)
Definition upd w (c : nat) (v : option nat) : nat → option nat :=
  λ x, if decide (x = c) then v else w x.

Lemma upd_eq w c v : upd w c v c = v.
Proof. unfold upd. by rewrite decide_True. Qed.

Lemma upd_ne w c v x : x ≠ c → upd w c v x = w x.
Proof. intros. unfold upd. by rewrite decide_False. Qed.

(** Nodes that neither are nor have as a child the changed position keep their
    state. *)
Lemma node_ok_frame vs l l' w c v x :
  x ≠ c → 2 * x ≠ c → 2 * x + 1 ≠ c → l' !! x = l !! x →
  node_ok vs l w x → node_ok vs l' (upd w c v) x.
Proof. intros ? ? ? Hl Hok. unfold node_ok in *. by rewrite !upd_ne, Hl by done. Qed.

Lemma node_ok_losers vs l l' w x :
  l' !! x = l !! x → node_ok vs l w x → node_ok vs l' w x.
Proof. intros Hl Hok. unfold node_ok in *. by rewrite Hl. Qed.

(** ** The climb of one leaf

    The state of both loops: the subtree of [d] is decided with winner
    [c_winner], its parent [c_node] has not heard of it, and every other inner
    node is consistent with the winners below it. *)
Record climb_ok (vs : list T) (s : Climb) (w : nat → option nat) (d : nat) : Prop := {
  co_len : length (c_losers s) = length vs;
  co_range : 1 ≤ d < 2 * length vs;
  co_node : c_node s = d / 2;
  co_win : w d = Some (c_winner s);
  co_below : winners_below (length vs) w;
  co_nodes : ∀ x, 1 ≤ x < length vs → x ≠ d / 2 → node_ok vs (c_losers s) w x;
  co_parent : 1 ≤ d / 2 → w (d / 2) = None ∧ c_losers s !! (d / 2) = Some (w (sibling d));
  co_root : d ≠ 1 → is_Some (w 1) → c_losers s !! 0 = Some (w 1) }.

(** One match moves the climb to the parent, whose winner is now known. *)
Lemma climb_match vs w d (s s' : Climb) ch :
  climb_ok vs s w d → 1 ≤ d / 2 → w (sibling d) = Some ch →
  c_node s' = d / 2 / 2 →
  (c_winner s' = ch ∧ c_losers s' = <[d / 2 := Some (c_winner s)]> (c_losers s) ∧
     vle vs ch (c_winner s) ∨
   c_winner s' = c_winner s ∧ c_losers s' = <[d / 2 := Some ch]> (c_losers s) ∧
     vle vs (c_winner s) ch) →
  climb_ok vs s' (upd w (d / 2) (Some (c_winner s'))) (d / 2).
Proof.
  intros [Hlen Hr Hn Hw Hb Hnodes Hp Hroot] Hd Hch Hn' Hcase.
  destruct (Hp Hd) as [Hnone Hl]. pose proof (half_lt d _ (proj2 Hr)) as Hc.
  set (c := d / 2) in *.
  assert (∀ x, x ≠ c → c_losers s' !! x = c_losers s !! x) as Hne.
  { intros x Hx. destruct Hcase as [(_ & -> & _)|(_ & -> & _)]; by apply list_lookup_insert_ne. }
  assert (∃ e, c_losers s' !! c = Some (Some e) ∧
    (c_winner s' = c_winner s ∧ e = ch ∧ vle vs (c_winner s) ch ∨
     c_winner s' = ch ∧ e = c_winner s ∧ vle vs ch (c_winner s))) as (e & He & Hcase').
  { destruct Hcase as [(-> & -> & ?)|(-> & -> & ?)];
      rewrite list_lookup_insert_eq by lia; eauto 10. }
  split.
  - destruct Hcase as [(_ & -> & _)|(_ & -> & _)]; by rewrite length_insert.
  - lia.
  - exact Hn'.
  - by rewrite upd_eq.
  - intros x i Hx. unfold upd. case_decide as E; [|by apply Hb].
    intros [= <-]. subst x.
    destruct Hcase' as [(-> & _)|(-> & _)].
    + destruct (Hb d (c_winner s)) as [? Hu]; [lia|done|]. split; [done|].
      by apply under_parent in Hu.
    + pose proof (sibling_parent d) as Hsp. fold c in Hsp.
      destruct (Hb (sibling d) ch) as [? Hu]; [by apply sibling_pos|done|].
      split; [done|]. apply under_parent in Hu. by rewrite Hsp in Hu.
  - intros x Hx Hxc. destruct (decide (x = c)) as [->|Hxne].
    + apply (node_ok_parent _ _ _ d Hd). fold c. rewrite upd_eq.
      rewrite !upd_ne by (by apply sibling_ne_parent || by apply half_ne).
      rewrite Hw, Hch. naive_solver.
    + apply (node_ok_frame _ (c_losers s)); auto.
      * intros E. apply Hxc. rewrite <- E. rewrite Nat.mul_comm, Nat.div_mul; lia.
      * intros E. apply Hxc. rewrite <- E. rewrite Nat.mul_comm, Nat.div_add_l; cbn; lia.
  - intros Hcc. rewrite !upd_ne by (try apply sibling_ne; pose proof (Nat.div_lt c 2); lia).
    rewrite Hne by (pose proof (Nat.div_lt c 2); lia).
    pose proof (Nat.div_lt c 2 ltac:(lia) ltac:(lia)).
    specialize (Hnodes (c / 2) ltac:(lia) ltac:(lia)).
    apply (node_ok_parent _ _ _ c Hcc) in Hnodes. rewrite Hnone in Hnodes.
    destruct (w (sibling c)); naive_solver.
  - intros Hc1. rewrite upd_ne by done. rewrite Hne by lia. apply Hroot.
    intros ->. cbn in Hd. lia.
Qed.

(** The end of a climb: the winner is entered at the node it stopped at. *)
Lemma climb_end vs s w d :
  climb_ok vs s w d → (1 ≤ d / 2 → w (sibling d) = None) →
  let l := <[c_node s := Some (c_winner s)]> (c_losers s) in
  length l = length vs ∧ (∀ x, 1 ≤ x < length vs → node_ok vs l w x) ∧
  (is_Some (w 1) → l !! 0 = Some (w 1)).
Proof.
  intros [Hlen Hr Hn Hw Hb Hnodes Hp Hroot] Hend l. subst l. rewrite Hn.
  split; [by rewrite length_insert|]. split.
  - intros x Hx. destruct (decide (x = d / 2)) as [->|Hne].
    + apply (node_ok_parent _ _ _ d ltac:(lia)). rewrite Hw, Hend by lia.
      split; [apply Hp; lia|]. apply list_lookup_insert_eq. lia.
    + eapply node_ok_losers; [|by apply Hnodes]. by apply list_lookup_insert_ne.
  - intros Hs. destruct (decide (d = 1)) as [->|Hd1].
    + cbn. rewrite list_lookup_insert_eq by lia. by rewrite Hw.
    + rewrite list_lookup_insert_ne; [by apply Hroot|].
      destruct d as [|[|d]]; [lia..|]. intros E.
      assert (1 ≤ S (S d) / 2) by (apply (Nat.Div0.div_le_mono 2 (S (S d)) 2); lia). lia.
Qed.

(** [play] as the relation [climb_match] asks for. *)
Lemma play_spec vs w d s ch :
  climb_ok vs s w d → 1 ≤ d / 2 → w (sibling d) = Some ch →
  ∃ s', play vs s ch = Ok s' ∧ c_node s' < c_node s ∧
    climb_ok vs s' (upd w (d / 2) (Some (c_winner s'))) (d / 2).
Proof.
  intros Hco Hd Hch. pose proof Hco as [Hlen Hr Hn Hw Hb Hnodes Hp Hroot].
  pose proof (half_lt d _ (proj2 Hr)) as Hc.
  pose proof (sibling_pos d Hd) as Hsd.
  destruct (Hb d _ ltac:(lia) Hw) as [Hwl _]. destruct (Hb _ _ Hsd Hch) as [Hcl _].
  destruct (lookup_lt_is_Some_2 _ _ Hwl) as [vw Hvw].
  destruct (lookup_lt_is_Some_2 _ _ Hcl) as [vc Hvc].
  unfold play. rewrite (proj2 (uindex_Ok _ _ _) Hvc). cbn [mbind Result_bind].
  rewrite (proj2 (uindex_Ok _ _ _) Hvw). cbn [mbind Result_bind]. rewrite Hn.
  assert (d / 2 / 2 < d / 2) by (apply Nat.div_lt; lia).
  destruct (tree_lt vc vw) eqn:E; rewrite set_uindex_Ok by lia; cbn [mbind Result_bind];
    (eexists; split; [done|]; split; [cbn [c_node]; lia|]);
    (eapply climb_match; [done..|]); cbn [c_winner c_losers].
  - left. split_and!; [done..|]. intros a b Ha Hb'.
    simplify_eq. by apply tree_lt_le.
  - right. split_and!; [done..|]. intros a b Ha Hb'. simplify_eq. by apply tree_ge_le.
Qed.

(** ** Building the tree *)

(** Between two leaves: leaves below [i] have entered, all nodes are consistent. *)
Definition init_ok vs l (i : nat) : Prop :=
  length l = length vs ∧
  ∃ w, winners_below (length vs) w ∧
    (∀ j, j < length vs → w (length vs + j) = if decide (j < i) then Some j else None) ∧
    (∀ x, 1 ≤ x < length vs → node_ok vs l w x) ∧
    (is_Some (w 1) → l !! 0 = Some (w 1)).

Lemma init_ok_0 vs : init_ok vs (replicate (length vs) None) 0.
Proof.
  split; [by rewrite length_replicate|]. exists (λ _, None).
  split_and!; [by intros x i _ [=]|intros; by rewrite decide_False by lia| |by intros [? [=]]].
  intros x Hx. unfold node_ok. split; [done|]. apply lookup_replicate_2. lia.
Qed.

(** The leaf that enters next starts a climb. *)
Lemma climb_start vs l w i :
  i < length vs → length l = length vs → winners_below (length vs) w →
  w (length vs + i) = None →
  (∀ x, 1 ≤ x < length vs → node_ok vs l w x) →
  (is_Some (w 1) → l !! 0 = Some (w 1)) →
  climb_ok vs (mkClimb l i ((length vs + i) / 2)) (upd w (length vs + i) (Some i)) (length vs + i).
Proof.
  intros Hi Hl Hb Hnone Hnodes Hroot. set (n := length vs) in *. set (d := n + i).
  split; cbn [c_losers c_winner c_node]; [done|lia|done|apply upd_eq| | | |].
  - intros x j Hx. unfold upd. case_decide as E; [|by apply Hb].
    intros [= <-]. subst x. split; [done|apply under_refl].
  - intros x Hx Hxd. apply (node_ok_frame _ l); auto.
    + lia.
    + intros E. apply Hxd. unfold d in E |- *. rewrite <- E. rewrite Nat.mul_comm, Nat.div_mul; lia.
    + intros E. apply Hxd. unfold d in E |- *. rewrite <- E.
      rewrite Nat.mul_comm, Nat.div_add_l; cbn; lia.
  - intros Hd. pose proof (half_lt d n ltac:(lia)).
    rewrite !upd_ne by (apply sibling_ne || (symmetry; by apply half_ne) || (apply not_eq_sym, half_ne; done)).
    specialize (Hnodes (d / 2) ltac:(lia)).
    apply (node_ok_parent _ _ _ d Hd) in Hnodes. fold d in Hnone. rewrite Hnone in Hnodes.
    destruct (w (sibling d)); naive_solver.
  - intros Hd1. rewrite upd_ne by done. exact Hroot.
Qed.

Lemma init_leaf_spec vs l i :
  i < length vs → init_ok vs l i →
  ∃ l', init_leaf vs l i = Ok l' ∧ init_ok vs l' (S i).
Proof.
  intros Hi (Hlen & w & Hb & Hleaf & Hnodes & Hroot). set (n := length vs) in *.
  unfold init_leaf. fold n.
  assert (w (n + i) = None) as Hnone by (rewrite Hleaf by done; by rewrite decide_False by lia).
  pose proof (climb_start vs l w i Hi Hlen Hb Hnone Hnodes Hroot) as Hstart. fold n in Hstart.
  destruct (rloop_inv (λ s, ∃ w d, climb_ok vs s w d ∧
      ∀ j, j < n → w (n + j) = if decide (j < S i) then Some j else None)
    c_node
    (λ s, ∃ w d, climb_ok vs s w d ∧ (1 ≤ d / 2 → w (sibling d) = None) ∧
      ∀ j, j < n → w (n + j) = if decide (j < S i) then Some j else None)
    (init_step vs) (S n) (mkClimb l i ((n + i) / 2)))
    as (s & -> & w' & d & Hco & Hend & Hleaf').
  - eexists _, _. split; [exact Hstart|]. intros j Hj. unfold upd.
    case_decide as E; [assert (j = i) as -> by lia; by rewrite decide_True by lia|].
    rewrite Hleaf by done. repeat case_decide; auto; lia.
  - cbn [c_node]. pose proof (half_lt (n + i) n). lia.
  - clear dependent w l. intros s (w & d & Hco & Hleaf). unfold init_step.
    pose proof Hco as [Hlen Hr Hn Hw Hb Hnodes Hp Hroot].
    pose proof (half_lt d n (proj2 Hr)) as Hc.
    case_bool_decide as Hz; [right; eexists; split; [done|]; exists w, d; split_and!; [done|lia|done]|].
    destruct (Hp ltac:(lia)) as [Hnone Hl]. rewrite Hn.
    rewrite (proj2 (uindex_Ok _ _ _) Hl). cbn [mbind Result_bind].
    destruct (w (sibling d)) as [ch|] eqn:Hch.
    + left. destruct (play_spec vs w d s ch Hco ltac:(lia) Hch) as (s' & -> & Hlt & Hco').
      eexists. split; [done|]. split; [|lia]. eexists _, _. split; [exact Hco'|].
      intros j Hj. rewrite upd_ne by lia. by apply Hleaf.
    + right. eexists. split; [done|]. exists w, d. auto.
  - cbn [mbind Result_bind]. pose proof Hco as [Hlen' Hr Hn _ _ _ _ _].
    pose proof (half_lt d n (proj2 Hr)) as Hc.
    rewrite set_uindex_Ok by (fold n in Hlen'; lia). eexists. split; [done|].
    destruct (climb_end vs s w' d Hco Hend) as (? & ? & ?).
    split; [done|]. exists w'. split_and!; [by apply co_below in Hco|done..].
Qed.

Lemma init_ok_complete vs l : init_ok vs l (length vs) → tree_ok (mkTree l vs).
Proof.
  intros (Hlen & w & Hb & Hleaf & Hnodes & Hroot). split; [done|]. cbn [values losers].
  set (n := length vs) in *. exists w.
  assert (∀ k x, 1 ≤ x < 2 * n → 2 * n - x ≤ k → is_Some (w x)) as Hall.
  { induction k as [|k IH]; intros x Hx Hk; [lia|].
    destruct (decide (n ≤ x)) as [Hge|Hlt].
    - replace x with (n + (x - n)) by lia. rewrite Hleaf by lia.
      rewrite decide_True by lia. eauto.
    - specialize (Hnodes x ltac:(lia)). unfold node_ok in Hnodes.
      destruct (IH (2 * x) ltac:(lia) ltac:(lia)) as [a Ha].
      destruct (IH (2 * x + 1) ltac:(lia) ltac:(lia)) as [b Hb'].
      rewrite Ha, Hb' in Hnodes. destruct Hnodes as [(-> & _)|(-> & _)]; eauto. }
  split_and!; [done| |done| |].
  - intros i Hi. rewrite Hleaf by done. by rewrite decide_True.
  - intros x Hx. by eapply Hall.
  - intros Hn. apply Hroot. eapply Hall; [|done]. lia.
Qed.

Lemma new_ok vs : ∃ t, new vs = Ok t ∧ values t = vs ∧ tree_ok t.
Proof.
  unfold new, init_tree.
  destruct (rfoldM_inv (λ l rest, ∃ i, i ≤ length vs ∧ rest = seq i (length vs - i) ∧ init_ok vs l i)
    (init_leaf vs) (replicate (length vs) None) (seq 0 (length vs)))
    as (l & -> & i & Hi & Hrest & Hok).
  - exists 0. rewrite Nat.sub_0_r. split_and!; [lia|done|apply init_ok_0].
  - intros l x rest (i & Hi & Hrest & Hok).
    destruct (length vs - i) as [|m] eqn:Em; [done|]. cbn in Hrest. simplify_eq.
    destruct (init_leaf_spec vs l i ltac:(lia) Hok) as (l' & -> & Hok').
    exists l'. split; [done|]. exists (S i). split_and!; [lia| |done].
    by replace (length vs - S i) with m by lia.
  - assert (i = length vs) as -> by (destruct (length vs - i) eqn:E; [lia|done]).
    eexists. split; [done|]. split; [done|]. by apply init_ok_complete.
Qed.

(** ** The winner is minimal *)

Lemma winner_min t i0 :
  tree_ok t → losers t !! 0 = Some (Some i0) →
  i0 < length (values t) ∧ ∀ i, vle (values t) i0 i.
Proof.
  intros (Hlen & w & Hb & Hleaf & Hnodes & Hall & Hroot) Hl0.
  pose proof (lookup_lt_Some _ _ _ Hl0) as Hpos. rewrite Hlen in Hpos.
  rewrite Hroot in Hl0 by done. set (n := length (values t)) in *.
  assert (w 1 = Some i0) as Hw1 by congruence. destruct (Hb 1 i0 ltac:(lia) Hw1) as [Hi0 _].
  split; [done|].
  assert (∀ k x j, x ≤ k → 1 ≤ x < 2 * n → w x = Some j → vle (values t) i0 j) as Hmin.
  { induction k as [|k IH]; intros x j Hk Hx Hj; [lia|].
    destruct (decide (x = 1)) as [->|Hx1]; [simplify_eq; apply vle_refl|].
    assert (1 ≤ x / 2) as Hpx by (apply (Nat.Div0.div_le_mono 2 x 2); lia).
    pose proof (half_lt x n (proj2 Hx)). pose proof (Nat.div_lt x 2 ltac:(lia) ltac:(lia)).
    specialize (Hnodes (x / 2) ltac:(lia)). apply (node_ok_parent _ _ _ x Hpx) in Hnodes.
    rewrite Hj in Hnodes.
    destruct (Hall (sibling x)) as [b Hb'];
      [split; [by apply sibling_pos|by apply sibling_lt]|].
    rewrite Hb' in Hnodes.
    destruct Hnodes as [(Hw & _)|(Hw & _ & Hle)]; [by eapply (IH (x / 2)); eauto; lia|].
    apply (vle_trans _ _ b); [|by eapply (IH (x / 2)); eauto; lia|done].
    apply (Hb (sibling x) b); [by apply sibling_pos|done]. }
  intros i a b Ha Hbi. pose proof (lookup_lt_Some _ _ _ Hbi) as Hi. fold n in Hi.
  eapply (Hmin (n + i) (n + i) i); [done|lia|by apply Hleaf|done..].
Qed.

(** ** Re-entering the winner after its value has changed *)

(** The winner of the whole tree won every match on its way up. *)
Lemma winner_path vs l w i0 x :
  winners_below (length vs) w → (∀ x, 1 ≤ x < length vs → node_ok vs l w x) →
  (∀ x, 1 ≤ x < 2 * length vs → is_Some (w x)) →
  w 1 = Some i0 → 1 ≤ x → under x (length vs + i0) → w x = Some i0.
Proof.
  intros Hb Hnodes Hall Hw1. destruct (Hb 1 i0 ltac:(lia) Hw1) as [Hi0 _].
  set (n := length vs) in *. induction x as [x IH] using lt_wf_ind. intros Hx Hu.
  destruct (decide (x = 1)) as [->|Hx1]; [done|].
  assert (1 ≤ x / 2) as Hpx by (apply (Nat.Div0.div_le_mono 2 x 2); lia).
  pose proof (under_le _ _ Hu). pose proof (half_lt x n ltac:(lia)).
  pose proof (Nat.div_lt x 2 ltac:(lia) ltac:(lia)).
  pose proof (IH (x / 2) ltac:(lia) Hpx (under_parent _ _ Hu)) as Hw2.
  specialize (Hnodes (x / 2) ltac:(lia)). apply (node_ok_parent _ _ _ x Hpx) in Hnodes.
  destruct (Hall x ltac:(lia)) as [a Ha].
  destruct (Hall (sibling x)) as [b Hb']; [split; [by apply sibling_pos|by apply sibling_lt]|].
  rewrite Ha, Hb' in Hnodes.
  destruct Hnodes as [(Hw & _)|(Hw & _)]; [congruence|].
  exfalso. assert (b = i0) as -> by congruence.
  destruct (Hb (sibling x) i0) as [_ Hus]; [by apply sibling_pos|done|].
  by eapply under_sibling.
Qed.

Lemma under_bounded x y : under x y ↔ Exists (λ k, y / 2 ^ k = x) (seq 0 (S (S y))).
Proof.
  rewrite Exists_exists. split; [|by intros (k & _ & Hk); exists k].
  intros [k Hk]. destruct (decide (k < S (S y))) as [Hlt|Hge].
  - exists k. split; [|done]. apply elem_of_seq. lia.
  - exists (S y). split; [apply elem_of_seq; lia|].
    assert (∀ k, k < 2 ^ k) as Hpow by (intros; apply Nat.pow_gt_lin_r; lia).
    rewrite Nat.div_small by (specialize (Hpow (S y)); lia).
    rewrite Nat.div_small in Hk by (specialize (Hpow k); lia). done.
Qed.

#[local] Instance under_dec x y : Decision (under x y).
Proof.
  refine (cast_if (decide (Exists (λ k, y / 2 ^ k = x) (seq 0 (S (S y)))))); by rewrite under_bounded.
Defined.

(** The winners that remain known once the value of leaf [i0] is open again. *)
Definition reopen w (p x : nat) : option nat :=
  if decide (under x p ∧ x ≠ p) then None else w x.

Lemma reopen_path w p x : under x p → x ≠ p → reopen w p x = None.
Proof. intros. unfold reopen. by rewrite decide_True. Qed.

Lemma reopen_off w p x : ¬ (under x p ∧ x ≠ p) → reopen w p x = w x.
Proof. intros. unfold reopen. by rewrite decide_False. Qed.

Lemma vle_insert vs i0 (v : T) a b :
  a ≠ i0 → b ≠ i0 → vle vs a b → vle (<[i0 := v]> vs) a b.
Proof. intros Ha Hb Hle x y. rewrite !list_lookup_insert_ne by done. apply Hle. Qed.

(** A proper ancestor is the parent of a node on the path. *)
Lemma under_split x p : under x p → x ≠ p → ∃ e, under e p ∧ e / 2 = x.
Proof.
  intros [[|k] Hk] Hne; [rewrite Nat.div_1_r in Hk; congruence|].
  exists (p / 2 ^ k). split; [by exists k|].
  rewrite Nat.Div0.div_div, Nat.mul_comm, <- Nat.pow_succ_r'. done.
Qed.

Lemma under_half x d : under x d → x ≠ d → under x (d / 2) ∧ x ≤ d / 2.
Proof.
  intros [[|k] Hk] Hne; [rewrite Nat.div_1_r in Hk; congruence|].
  assert (under x (d / 2)) as Hu.
  { exists k. by rewrite Nat.Div0.div_div, <- Nat.pow_succ_r'. }
  split; [done|]. by apply under_le.
Qed.

Lemma under_inner x p n : under x p → x ≠ p → p < 2 * n → x < n.
Proof.
  intros Hu Hne Hp. destruct (under_split x p Hu Hne) as (e & He%under_le & <-).
  apply half_lt. lia.
Qed.

Lemma climb_restart vs l w i0 (v : T) :
  length l = length vs → winners_below (length vs) w →
  (∀ i, i < length vs → w (length vs + i) = Some i) →
  (∀ x, 1 ≤ x < length vs → node_ok vs l w x) →
  (∀ x, 1 ≤ x < 2 * length vs → is_Some (w x)) →
  w 1 = Some i0 → l !! 0 = Some (w 1) →
  climb_ok (<[i0 := v]> vs) (mkClimb l i0 ((length vs + i0) / 2))
    (reopen w (length vs + i0)) (length vs + i0).
Proof.
  intros Hlen Hb Hleaf Hnodes Hall Hw1 Hl0. destruct (Hb 1 i0 ltac:(lia) Hw1) as [Hi0 _].
  pose proof (winner_path vs l w i0) as Hpath. set (n := length vs) in *. set (p := n + i0) in *.
  assert (∀ e, under e p → 1 ≤ e / 2 → e < 2 * n →
    reopen w p (e / 2) = None ∧ l !! (e / 2) = Some (reopen w p (sibling e)) ∧
    is_Some (reopen w p (sibling e))) as Hstep.
  { intros e Hu He Hen. pose proof (half_lt e n Hen) as Hh.
    assert (¬ under (sibling e) p) as Hns by (intros ?; by eapply under_sibling).
    rewrite (reopen_off _ _ (sibling e)) by tauto.
    split; [apply reopen_path; [by apply under_parent|unfold p; lia]|].
    destruct (Hall (sibling e)) as [b Hsb]; [split; [by apply sibling_pos|by apply sibling_lt]|].
    split; [|eauto]. pose proof (Hnodes (e / 2) ltac:(lia)) as Hok.
    apply (node_ok_parent _ _ _ e He) in Hok.
    rewrite (Hpath e), Hsb in Hok by (done || (destruct (child_cases e); lia)).
    rewrite (Hpath (e / 2)) in Hok by (done || by apply under_parent).
    destruct Hok as [(_ & Hl & _)|(Heq & _)]; [congruence|].
    destruct (Hb (sibling e) b) as [_ Hus]; [by apply sibling_pos|done|].
    assert (b = i0) as -> by congruence. done. }
  split; rewrite ?length_insert; cbn [c_losers c_winner c_node]; fold n p.
  - done.
  - unfold p; lia.
  - done.
  - rewrite reopen_off by tauto. by apply Hleaf.
  - intros x i Hx. unfold reopen. case_decide; [done|]. by apply Hb.
  - intros x Hx Hxp. destruct (decide (under x p)) as [Hu|Hnu].
    + destruct (under_split x p Hu) as (e & Hue & <-); [unfold p; lia|].
      assert (e ≠ p) as Hep by (intros ->; done).
      pose proof (under_le _ _ Hue).
      destruct (Hstep e Hue) as (Hn1 & Hl & [b Hsb]); [lia|unfold p in *; lia|].
      apply node_ok_parent; [lia|]. rewrite (reopen_path _ _ e) by done.
      rewrite Hsb in Hl |- *. done.
    + unfold node_ok.
      assert (¬ under (2 * x) p) as Hnl by (intros ?%under_child_l; done).
      assert (¬ under (2 * x + 1) p) as Hnr by (intros ?%under_child_r; done).
      rewrite !reopen_off by tauto. specialize (Hnodes x Hx). unfold node_ok in Hnodes.
      destruct (Hall (2 * x) ltac:(lia)) as [a Ha], (Hall (2 * x + 1) ltac:(lia)) as [b Hb'].
      rewrite Ha, Hb' in *.
      assert (a ≠ i0) by (intros ->; apply Hnl, (Hb (2 * x)); [lia|done]).
      assert (b ≠ i0) by (intros ->; apply Hnr, (Hb (2 * x + 1)); [lia|done]).
      destruct Hnodes as [(? & ? & ?)|(? & ? & ?)]; [left|right];
        split_and!; auto using vle_insert.
  - intros Hp. destruct (Hstep p (under_refl p) Hp) as (? & ? & _); [unfold p; lia|done].
  - intros _. unfold reopen. case_decide; [by intros [? [=]]|done].
Qed.

Lemma adjust_step_play vs s ch :
  c_node s ≠ 0 → c_losers s !! c_node s = Some (Some ch) →
  adjust_step vs s = (s' ← play vs s ch; Ok (inl s')).
Proof.
  intros Hz Hl. unfold adjust_step, play. rewrite bool_decide_eq_false_2 by done.
  rewrite (proj2 (uindex_Ok _ _ _) Hl). cbn [mbind Result_bind].
  destruct (uindex vs ch) as [vc| | | |]; cbn [mbind Result_bind]; try done.
  destruct (uindex vs (c_winner s)) as [vw| | | |]; cbn [mbind Result_bind]; try done.
  pose proof (lookup_lt_Some _ _ _ Hl) as Hlt. rewrite !set_uindex_Ok by done.
  destruct (tree_lt vc vw); [done|]. cbn [mbind Result_bind].
  by rewrite list_insert_id.
Qed.

Lemma adjust_tree_ok vs l i0 (v : T) :
  tree_ok (mkTree l vs) → l !! 0 = Some (Some i0) →
  ∃ t, adjust_tree (mkTree l (<[i0 := v]> vs)) = Ok t ∧
    values t = <[i0 := v]> vs ∧ tree_ok t.
Proof.
  intros (Hlen & w & Hb & Hleaf & Hnodes & Hall & Hroot) Hl0. cbn [values losers] in *.
  pose proof (lookup_lt_Some _ _ _ Hl0) as Hpos. rewrite Hlen in Hpos.
  assert (w 1 = Some i0) as Hw1 by (rewrite Hroot in Hl0 by done; congruence).
  destruct (Hb 1 i0 ltac:(lia) Hw1) as [Hi0 _].
  pose proof (climb_restart vs l w i0 v Hlen Hb Hleaf Hnodes Hall Hw1 (Hroot Hpos)) as Hstart.
  unfold adjust_tree. cbn [values losers]. rewrite length_insert.
  rewrite (proj2 (uindex_Ok _ _ _) Hl0). cbn [mbind Result_bind].
  set (vs' := <[i0 := v]> vs) in *. assert (length vs' = length vs) as Hvs by apply length_insert.
  set (n := length vs) in *.
  destruct (rloop_inv (λ s, ∃ w d, climb_ok vs' s w d ∧ (∀ i, i < n → w (n + i) = Some i) ∧
      ∀ x, 1 ≤ x < 2 * n → w x = None → under x d ∧ x < d)
    c_node
    (λ s, ∃ w, climb_ok vs' s w 1 ∧ c_node s = 0 ∧ (∀ i, i < n → w (n + i) = Some i) ∧
      ∀ x, 1 ≤ x < 2 * n → is_Some (w x))
    (adjust_step vs') (S n) (mkClimb l i0 ((n + i0) / 2)))
    as (s & -> & w' & Hco & Hz & Hleaf' & Hall').
  - eexists _, _. split; [exact Hstart|]. split.
    + intros i Hi. rewrite reopen_off; [by apply Hleaf|].
      intros [Hu Hne]. pose proof (under_inner _ _ n Hu Hne). lia.
    + intros x Hx. unfold reopen. case_decide as E; [|intros Hn; destruct (Hall x Hx); congruence].
      intros _. destruct E as [E1 E2]. split; [done|]. pose proof (under_le _ _ E1). lia.
  - cbn [c_node]. pose proof (half_lt (n + i0) n). lia.
  - clear dependent w l. intros s (w & d & Hco & Hleaf & Hopen).
    pose proof Hco as [Hlen Hr Hn Hw Hb Hnodes Hp Hroot]. rewrite Hvs in *.
    destruct (decide (c_node s = 0)) as [Hz|Hz].
    + right. exists s. unfold adjust_step. rewrite bool_decide_eq_true_2 by done.
      split; [done|]. exists w. assert (d = 1) as -> by (destruct (child_cases d); lia).
      split_and!; [done..|]. intros x Hx.
      destruct (w x) eqn:E; [eauto|]. destruct (Hopen x Hx E). lia.
    + left. rewrite Hn in Hz. destruct (Hp ltac:(lia)) as [_ Hl].
      pose proof (half_lt d n (proj2 Hr)) as Hh.
      destruct (w (sibling d)) as [ch|] eqn:Hch.
      2:{ destruct (Hopen (sibling d)) as [Hu _]; [|done|].
          { split; [apply sibling_pos; lia|by apply sibling_lt]. }
          destruct (under_sibling d d); [lia|apply under_refl|done]. }
      rewrite (adjust_step_play _ _ ch) by (rewrite Hn; done).
      destruct (play_spec vs' w d s ch Hco ltac:(lia) Hch) as (s' & -> & Hlt & Hco').
      eexists. split; [done|]. split; [|done].
      exists (upd w (d / 2) (Some (c_winner s'))), (d / 2). split; [done|]. split.
      * intros i Hi. rewrite upd_ne by lia. by apply Hleaf.
      * intros x Hx. unfold upd. case_decide as E; [done|]. intros Hnone.
        destruct (Hopen x Hx Hnone) as [Hu Hxd].
        destruct (under_half x d Hu ltac:(lia)) as [Hu' _].
        split; [done|]. pose proof (under_le _ _ Hu'). lia.
  - cbn [mbind Result_bind]. pose proof (co_len _ _ _ _ Hco) as Hlen'. rewrite Hvs in Hlen'.
    rewrite set_uindex_Ok by lia. eexists. split; [done|]. split; [done|].
    destruct (climb_end vs' s w' 1 Hco) as (Hl & Hnodes' & Hr0); [cbn; lia|].
    rewrite Hz in *. unfold tree_ok. cbn [values losers]. rewrite Hvs in *.
    split; [done|]. exists w'. split_and!; try done.
    + pose proof (co_below _ _ _ _ Hco) as Hbl. by rewrite Hvs in Hbl.
    + intros _. apply Hr0, Hall'. lia.
Qed.

(** Values may be replaced by equivalent ones. *)
Definition equivalent (vs vs' : list T) : Prop :=
  Forall2 (λ a b, tree_le a b ∧ tree_le b a) vs vs'.

Lemma vle_equivalent vs vs' i j : equivalent vs vs' → vle vs i j → vle vs' i j.
Proof.
  intros He Hle a' b' Ha Hb.
  destruct (Forall2_lookup_r _ _ _ _ _ He Ha) as (a & Ha' & _ & Haa).
  destruct (Forall2_lookup_r _ _ _ _ _ He Hb) as (b & Hb' & Hbb & _).
  eapply tree_le_trans; [exact Haa|]. eapply tree_le_trans; [by apply Hle|done].
Qed.

Lemma tree_ok_equivalent l vs vs' :
  equivalent vs vs' → tree_ok (mkTree l vs) → tree_ok (mkTree l vs').
Proof.
  intros He (Hlen & w & Hb & Hleaf & Hnodes & Hall & Hroot).
  pose proof (Forall2_length _ _ _ He) as Hvs. unfold tree_ok. cbn [values losers] in *.
  rewrite <- Hvs. split; [done|]. exists w. split_and!; try done.
  intros x Hx. specialize (Hnodes x Hx). unfold node_ok in *.
  destruct (w (2 * x)), (w (2 * x + 1)); try done.
  destruct Hnodes as [(? & ? & ?)|(? & ? & ?)]; [left|right]; split_and!; eauto using vle_equivalent.
Qed.

(** Replacing the value at one position. *)
Lemma equivalent_insert vs i v v' :
  vs !! i = Some v → tree_le v v' → tree_le v' v → equivalent vs (<[i := v']> vs).
Proof.
  intros Hi H1 H2. apply Forall2_same_length_lookup_2; [by rewrite length_insert|].
  intros j a b Ha Hb. destruct (decide (j = i)) as [->|Hj].
  - rewrite list_lookup_insert_eq in Hb by (by eapply lookup_lt_Some). by simplify_eq.
  - rewrite list_lookup_insert_ne in Hb by done. simplify_eq. split; apply tree_le_refl.
Qed.

End Invariant.

(** ** The tree as a priority structure *)

Section Interface.
Context {T : Type} `{TreeOrder T}.

(** [v] is a value no other value is less than. *)
Definition is_min (vs : list T) (v : T) : Prop :=
  v ∈ vs ∧ ∀ u, u ∈ vs → tree_le v u.

Lemma deref_min (t : LoserTree T) :
  tree_ok t → values t ≠ [] →
  ∃ i v, losers t !! 0 = Some (Some i) ∧ values t !! i = Some v ∧
    deref (peek_mut t) = Ok v ∧ is_min (values t) v.
Proof.
  intros Hok Hne. pose proof Hok as (Hlen & w & Hb & _ & _ & Hall & Hroot).
  assert (0 < length (values t)) as Hpos by (destruct (values t); [done|cbn; lia]).
  destruct (Hall 1 ltac:(lia)) as [i Hi]. rewrite Hi in Hroot.
  destruct (winner_min t i Hok (Hroot Hpos)) as [Hlt Hmin].
  destruct (lookup_lt_is_Some_2 _ _ Hlt) as [v Hv]. exists i, v.
  split_and!; [by apply Hroot|done| |].
  - unfold deref, peek_mut. cbn [tree].
    rewrite (proj2 (uindex_Ok _ _ _) (Hroot Hpos)). by apply uindex_Ok.
  - split; [by eapply list_elem_of_lookup_2|].
    intros u [j Hj]%list_elem_of_lookup. by eapply (Hmin j).
Qed.

Lemma update_min (t : LoserTree T) (f : T → T) :
  tree_ok t → values t ≠ [] →
  ∃ i v p t', values t !! i = Some v ∧ deref (peek_mut t) = Ok v ∧ is_min (values t) v ∧
    deref_mut (peek_mut t) f = Ok p ∧ drop_peek p = Ok t' ∧
    tree_ok t' ∧ values t' = <[i := f v]> (values t).
Proof.
  intros Hok Hne. destruct (deref_min t Hok Hne) as (i & v & H0' & Hv & Hd & Hmin).
  destruct (adjust_tree_ok (values t) (losers t) i (f v)) as (t' & Ht' & Hvs & Hok');
    [by destruct t|done|].
  exists i, v, (mkPeekMut (mkTree (losers t) (<[i := f v]> (values t))) true), t'.
  split_and!; try done. unfold deref_mut, peek_mut. cbn [tree].
  rewrite (proj2 (uindex_Ok _ _ _) H0'). cbn [mbind Result_bind].
  rewrite (proj2 (uindex_Ok _ _ _) Hv). cbn [mbind Result_bind].
  by rewrite set_uindex_Ok by (by eapply lookup_lt_Some).
Qed.

(** Adjusting a tree that is in order, and dropping a guard of one. *)
Lemma adjust_tree_same (t : LoserTree T) :
  tree_ok t → values t ≠ [] → ∃ t', adjust_tree t = Ok t' ∧ values t' = values t ∧ tree_ok t'.
Proof.
  intros Hok Hne. destruct (deref_min t Hok Hne) as (i & v & H0' & Hv & _).
  destruct (adjust_tree_ok (values t) (losers t) i v) as (t' & Ht' & Hvs & Hok'); [by destruct t|done|].
  rewrite (list_insert_id _ _ _ Hv) in *. destruct t. eauto.
Qed.

Lemma drop_peek_same (p : PeekMut T) :
  tree_ok (tree p) → values (tree p) ≠ [] →
  ∃ t', drop_peek p = Ok t' ∧ values t' = values (tree p) ∧ tree_ok t'.
Proof.
  intros Hok Hne. unfold drop_peek. destruct (dirty p); [by apply adjust_tree_same|eauto].
Qed.

(** Building a loser tree over any values terminates without leaving its vectors,
    keeps the values, and the peeked element is a minimum of them. *)
Theorem loser_tree_new_min (vs : list T) :
  vs ≠ [] →
  ∃ t v, new vs = Ok t ∧ values t = vs ∧ tree_ok t ∧
    deref (peek_mut t) = Ok v ∧ is_min vs v.
Proof.
  intros Hne. destruct (new_ok vs) as (t & Ht & <- & Hok).
  destruct (deref_min t Hok Hne) as (i & v & _ & _ & Hd & Hmin). eauto 10.
Qed.

(** After changing the smallest element of a well-formed loser tree through PeekMut and
    dropping it, the tree is well formed again and its peeked element is a minimum of
    the new values. *)
Theorem loser_tree_update_min (t : LoserTree T) (f : T → T) :
  tree_ok t → values t ≠ [] →
  ∃ i v p t' v', values t !! i = Some v ∧ deref (peek_mut t) = Ok v ∧
    deref_mut (peek_mut t) f = Ok p ∧ drop_peek p = Ok t' ∧
    values t' = <[i := f v]> (values t) ∧ tree_ok t' ∧
    deref (peek_mut t') = Ok v' ∧ is_min (values t') v'.
Proof.
  intros Hok Hne. destruct (update_min t f Hok Hne) as (i & v & p & t' & Hv & Hd & _ & Hp & Hdr & Hok' & E).
  assert (values t' ≠ []) as Hne'.
  { rewrite E. intros Hnil%(f_equal length). rewrite length_insert in Hnil.
    by destruct (values t). }
  destruct (deref_min t' Hok' Hne') as (j & v' & _ & _ & Hd' & Hmin').
  exists i, v, p, t', v'. auto 10.
Qed.

End Interface.

(** ** K-way merge

    The cursors and the merge loop of the module's own test: a cursor over a
    sorted vector, exhausted cursors last. *)

Module Merge.
Local Open Scope Z_scope.

Record Cursor := mkCursor { row_idx : nat; cvalues : list Z }.

#[export] Instance cursor_cmp : ComparableForLoserTree Cursor := λ a b,
  match cvalues a !! row_idx a, cvalues b !! row_idx b with
  | Some v1, Some v2 => bool_decide (v1 < v2)
  | None, _ => false
  | _, None => true
  end.

#[export, refine] Instance cursor_order : TreeOrder Cursor := {
  tree_le a b := tree_lt b a = false }.
Proof.
  all: unfold tree_lt, cursor_cmp.
  - intros a b c. repeat case_match; rewrite ?bool_decide_eq_false; try done; lia.
  - intros a b. repeat case_match; rewrite ?bool_decide_eq_true, ?bool_decide_eq_false; try done; lia.
  - done.
Defined.

Definition merge_step (s : LoserTree Cursor * list Z)
    : Result (LoserTree Cursor * list Z + list Z) :=
  let '(t, actual) := s in
  let min := peek_mut t in
  c ← deref min;
  match cvalues c !! row_idx c with
  | Some v =>
    min ← deref_mut min (λ c, mkCursor (row_idx c + 1) (cvalues c));
    t ← drop_peek min;
    Ok (inl (t, actual ++ [v]))
  | None => Ok (inr actual)
  end.

Definition total_rows (nodes : list (list Z)) : nat := length (mjoin nodes).

Definition merge (nodes : list (list Z)) : Result (list Z) :=
  t ← new (mkCursor 0 <$> nodes);
  rloop (S (total_rows nodes)) merge_step (t, []).

(** What a cursor has still to deliver. *)
Definition rest (c : Cursor) : list Z := drop (row_idx c) (cvalues c).

Lemma rest_cons c v :
  cvalues c !! row_idx c = Some v → rest c = v :: rest (mkCursor (row_idx c + 1) (cvalues c)).
Proof. intros Hv. unfold rest. cbn. rewrite Nat.add_1_r. by apply drop_S. Qed.

Lemma mjoin_insert {A} (ls : list (list A)) i x l :
  ls !! i = Some (x :: l) → mjoin ls ≡ₚ x :: mjoin (<[i := l]> ls).
Proof.
  intros Hi. pose proof (lookup_lt_Some _ _ _ Hi).
  rewrite <- (take_drop_middle ls i (x :: l)) at 1 by done.
  rewrite insert_take_drop by done. rewrite !join_app. cbn.
  rewrite <- Permutation_middle. done.
Qed.

(** Loop invariant: the output is sorted, below everything left, and nothing is
    lost or repeated. *)
Definition merge_inv (nodes : list (list Z)) (s : LoserTree Cursor * list Z) : Prop :=
  let '(t, out) := s in
  tree_ok t ∧ values t ≠ [] ∧
  Forall (λ c, Sorted Z.le (rest c)) (values t) ∧
  out ++ mjoin (rest <$> values t) ≡ₚ mjoin nodes ∧
  Sorted Z.le out ∧ (∀ x y, x ∈ out → y ∈ mjoin (rest <$> values t) → x <= y).

Lemma min_below t c v :
  Forall (λ c, Sorted Z.le (rest c)) (values t) → is_min (values t) c →
  cvalues c !! row_idx c = Some v → ∀ y, y ∈ mjoin (rest <$> values t) → v <= y.
Proof.
  intros Hs [_ Hmin] Hv y (l & Hy & Hl)%list_elem_of_join.
  apply list_elem_of_fmap in Hl as (u & -> & Hu).
  destruct (cvalues u !! row_idx u) as [z|] eqn:Hz.
  - specialize (Hmin u Hu). unfold tree_le, cursor_order, tree_lt, cursor_cmp in Hmin. rewrite Hz, Hv in Hmin.
    apply bool_decide_eq_false in Hmin.
    rewrite Forall_forall in Hs. specialize (Hs u Hu).
    rewrite (rest_cons _ _ Hz) in Hs, Hy. apply Sorted_StronglySorted in Hs; [|intros ???; lia].
    apply elem_of_cons in Hy as [->|Hy]; [lia|].
    inversion Hs as [|?? _ Hall]; subst. rewrite Forall_forall in Hall.
    specialize (Hall y Hy). lia.
  - unfold rest in Hy. rewrite drop_ge in Hy by (by apply lookup_ge_None).
    by apply not_elem_of_nil in Hy.
Qed.

Lemma sorted_snoc (l : list Z) v :
  Sorted Z.le l → (∀ x, x ∈ l → x <= v) → Sorted Z.le (l ++ [v]).
Proof.
  intros Hs Hle. induction l as [|a l IH]; [by repeat constructor|].
  apply Sorted_inv in Hs as [Hs Hhd]. cbn. constructor.
  - apply IH; [done|]. intros x Hx. apply Hle. set_solver.
  - destruct l; cbn; constructor; [apply Hle; set_solver|by inversion Hhd].
Qed.

Lemma merge_step_ok nodes s :
  merge_inv nodes s →
  (∃ s', merge_step s = Ok (inl s') ∧ merge_inv nodes s' ∧
     (length (mjoin nodes) - length (snd s') < length (mjoin nodes) - length (snd s))%nat) ∨
  (∃ out, merge_step s = Ok (inr out) ∧ Sorted Z.le out ∧ out ≡ₚ mjoin nodes).
Proof.
  destruct s as [t out]. intros (Hok & Hne & Hs & Hperm & Hsort & Hle). cbn [snd].
  destruct (update_min t (λ c, mkCursor (row_idx c + 1) (cvalues c)) Hok Hne)
    as (i & c & p & t' & Hc & Hd & Hmin & Hp & Hdr & Hok' & Hv).
  unfold merge_step. rewrite Hd. cbn [mbind Result_bind].
  destruct (cvalues c !! row_idx c) as [v|] eqn:Ev.
  - left. rewrite Hp. cbn [mbind Result_bind]. rewrite Hdr. cbn [mbind Result_bind].
    eexists. split; [done|]. cbn [snd].
    assert (mjoin (rest <$> values t) ≡ₚ v :: mjoin (rest <$> values t')) as Hj.
    { rewrite Hv, list_fmap_insert. apply mjoin_insert.
      rewrite list_lookup_fmap, Hc. cbn. by rewrite (rest_cons _ _ Ev). }
    assert ((out ++ [v]) ++ mjoin (rest <$> values t') ≡ₚ mjoin nodes) as Hperm'.
    { rewrite <- app_assoc. cbn. rewrite <- Hj. done. }
    split.
    + split_and!; [done| | |done| |].
      * rewrite Hv. intros Hnil%(f_equal length). rewrite length_insert in Hnil.
        by destruct (values t).
      * rewrite Hv. apply Forall_insert; [done|].
        pose proof (Forall_lookup_1 _ _ _ _ Hs Hc) as Hsc. cbn in Hsc.
        rewrite (rest_cons _ _ Ev) in Hsc. by apply Sorted_inv in Hsc as [? _].
      * apply sorted_snoc; [done|]. intros x Hx. apply Hle; [done|]. rewrite Hj. left.
      * intros x y [Hx| ->%list_elem_of_singleton]%elem_of_app Hy.
        { apply Hle; [done|]. rewrite Hj. by right. }
        apply (min_below t c v Hs Hmin Ev). rewrite Hj. by right.
    + rewrite <- Hperm', !length_app. cbn. lia.
  - right. exists out. split_and!; [done..|]. rewrite <- Hperm.
    assert (mjoin (rest <$> values t) = []) as ->; [|by rewrite app_nil_r].
    apply elem_of_nil_inv. intros y (l & Hy & Hl)%list_elem_of_join.
    apply list_elem_of_fmap in Hl as (u & -> & Hu). destruct Hmin as [_ Hmin].
    specialize (Hmin u Hu). unfold tree_le, cursor_order, tree_lt, cursor_cmp in Hmin. rewrite Ev in Hmin.
    destruct (cvalues u !! row_idx u) eqn:Eu; [done|].
    unfold rest in Hy. rewrite drop_ge in Hy by (by apply lookup_ge_None).
    by apply not_elem_of_nil in Hy.
Qed.

(** C19: merging one or more sorted inputs through the loser tree terminates and yields
    a sorted permutation of all their elements. *)
Theorem kway_merge_sorts (nodes : list (list Z)) :
  nodes ≠ [] → Forall (Sorted Z.le) nodes →
  ∃ out, merge nodes = Ok out ∧ Sorted Z.le out ∧ out ≡ₚ mjoin nodes.
Proof.
  intros Hne Hs. unfold merge, total_rows.
  destruct (new_ok (mkCursor 0 <$> nodes)) as (t & -> & Hv & Hok). cbn [mbind Result_bind].
  apply (rloop_inv (merge_inv nodes) (λ s, length (mjoin nodes) - length (snd s))%nat
    (λ out, Sorted Z.le out ∧ out ≡ₚ mjoin nodes)); [|cbn; lia|].
  - assert (rest <$> values t = nodes) as Hr.
    { rewrite Hv, <- list_fmap_compose. apply list_fmap_id. }
    unfold merge_inv. rewrite Hr. split_and!; try done.
    + rewrite Hv. by destruct nodes.
    + rewrite Hv. by apply Forall_fmap.
    + intros x y Hx. by apply not_elem_of_nil in Hx.
  - apply merge_step_ok.
Qed.

Lemma kway_merge_sorts_witness :
  ∃ out, merge [[1; 5]; []; [2; 3; 9]] = Ok out ∧ Sorted Z.le out ∧
    out ≡ₚ mjoin [[1; 5]; []; [2; 3; 9]].
Proof.
  apply (kway_merge_sorts [[1; 5]; []; [2; 3; 9]]); [done|].
  repeat constructor; lia.
Defined.

Lemma loser_tree_new_min_witness :
  ∃ t v, new [mkCursor 0 [4]; mkCursor 0 [2]; mkCursor 0 [3]] = Ok t ∧
    values t = [mkCursor 0 [4]; mkCursor 0 [2]; mkCursor 0 [3]] ∧ tree_ok t ∧
    deref (peek_mut t) = Ok v ∧ is_min [mkCursor 0 [4]; mkCursor 0 [2]; mkCursor 0 [3]] v.
Proof. by apply (loser_tree_new_min [mkCursor 0 [4]; mkCursor 0 [2]; mkCursor 0 [3]]). Defined.

Lemma loser_tree_update_min_witness :
  ∃ t, new [mkCursor 0 [4]; mkCursor 0 [2]] = Ok t ∧
  ∃ i v p t' v', values t !! i = Some v ∧ deref (peek_mut t) = Ok v ∧
    deref_mut (peek_mut t) (λ c, mkCursor 1 (cvalues c)) = Ok p ∧ drop_peek p = Ok t' ∧
    values t' = <[i := mkCursor 1 (cvalues v)]> (values t) ∧ tree_ok t' ∧
    deref (peek_mut t') = Ok v' ∧ is_min (values t') v'.
Proof.
  destruct (new_ok [mkCursor 0 [4]; mkCursor 0 [2]]) as (t & Ht & Hv & Hok).
  exists t. split; [done|].
  apply (loser_tree_update_min t (λ c, mkCursor 1 (cvalues c)) Hok). by rewrite Hv.
Defined.

End Merge.
