(* ===== verification/RadixSort.v ===== *)
(** * In-place radix sort

    native-engine/datafusion-ext-commons/src/algorithm/rdx_sort.rs,
    [radix_sort_by_key]: an American-flag sort that counts the keys, lays out one
    part per key and swaps items into their parts until at most one part is left
    open.  [counts] and [parts] are unchecked vectors, [array] is indexed with
    bounds checks and swapped without. *)

From S2P Require Import Prelude.

Record Part := mkPart { cur : nat; end_ : nat }.

Section Radix.
Context {T : Type} (key : T → nat).

Definition swap_unchecked (array : list T) (i j : nat) : Result (list T) :=
  if decide (i < length array ∧ j < length array) then Ok (swap i j array) else Undef.

(** [array.iter().for_each(|item| counts[key(item)] += 1)] *)
Definition count_keys (counts : list nat) (array : list T) : Result (list nat) :=
  rfoldM (λ counts item,
      c ← uindex counts (key item); set_uindex counts (key item) (c + 1))
    counts array.

(** "construct parts": an empty bucket keeps the default part. *)
Definition construct_parts (counts : list nat) : Result (list Part * nat) :=
  rfoldM (λ '(parts, beg) '(idx, count),
      if decide (0 < count) then
        parts ← set_uindex parts idx (mkPart beg (beg + count));
        Ok (parts, beg + count)
      else Ok (parts, beg))
    (replicate (length counts) (mkPart 0 0), 0) (enumerate counts).

(** One swap of the innermost loop. *)
Definition place_item (s : list T * list Part) (item_idx : nat) : Result (list T * list Part) :=
  let '(array, parts) := s in
  item ← index array item_idx;
  let target_part_idx := key item in
  target ← uindex parts target_part_idx;
  array ← swap_unchecked array item_idx (cur target);
  parts ← set_uindex parts target_part_idx (mkPart (cur target + 1) (end_ target));
  Ok (array, parts).

(** One part of the [for] loop; [cur] and [end] are read before its swaps. *)
Definition process_part (s : list T * list Part) (part_idx : nat)
    : Result (list T * list Part) :=
  part ← uindex (snd s) part_idx;
  rfoldM place_item s (range (cur part) (end_ part)).

(** [retain(|&i| parts[i].cur < parts[i].end)] *)
Definition open_part (parts : list Part) (i : nat) : bool :=
  match parts !! i with Some p => bool_decide (cur p < end_ p) | None => false end.

Definition retain_open (parts : list Part) (idxs : list nat) : Result (list nat) :=
  if forallb (λ i, bool_decide (i < length parts)) idxs
  then Ok (filter (λ i, open_part parts i = true) idxs) else Undef.

(** One evaluation of the [while] condition and body. *)
Definition pass (s : list nat * (list T * list Part))
    : Result (list nat * (list T * list Part) + list T) :=
  let '(idxs, s) := s in
  idxs ← retain_open (snd s) idxs;
  if decide (1 < length idxs) then
    s ← rfoldM process_part s idxs; Ok (inl (idxs, s))
  else Ok (inr (fst s)).

Definition radix_sort_by_key (array : list T) (counts : list nat)
    : Result (list T * list nat) :=
  let num_keys := length counts in
  counts ← count_keys counts array;
  '(parts, _) ← construct_parts counts;
  array ← rloop (S (length array)) pass (seq 0 num_keys, (array, parts));
  Ok (array, counts).

(** ** Buckets of the original array *)

Definition cnt (l : list T) (k : nat) : nat := length (filter (λ x, key x = k) l).
(** First position of bucket [k] in the sorted array. *)
Definition start (l : list T) (k : nat) : nat := length (filter (λ x, key x < k) l).

Lemma start_0 l : start l 0 = 0.
Proof.
  unfold start. induction l; [done|]. by rewrite filter_cons_False by lia.
Qed.

Lemma start_S l k : start l (S k) = start l k + cnt l k.
Proof.
  unfold start, cnt. induction l as [|x l IH]; [done|].
  rewrite !filter_cons. repeat case_decide; cbn; lia.
Qed.

Lemma start_all l n : Forall (λ x, key x < n) l → start l n = length l.
Proof.
  unfold start. induction 1; [done|]. rewrite filter_cons_True by done. cbn. lia.
Qed.

Lemma start_mono l j k : j ≤ k → start l j ≤ start l k.
Proof. induction 1; [done|]. rewrite start_S. lia. Qed.

Lemma cnt_Permutation l l' k : l ≡ₚ l' → cnt l k = cnt l' k.
Proof. intros H. unfold cnt. by rewrite H. Qed.

(** Every position of the array lies in exactly one bucket. *)
Lemma bucket_of l n p :
  p < start l n → ∃ k, k < n ∧ start l k ≤ p < start l (S k).
Proof.
  induction n as [|n IH]; [rewrite start_0; lia|]. intros Hp.
  destruct (decide (p < start l n)) as [Hlt|].
  - destruct (IH Hlt) as (k & ? & ?). exists k. lia.
  - exists n. lia.
Qed.

(** The positions that hold key [k]. *)
Definition positions (l : list T) (k : nat) : list nat :=
  filter (λ p, (key <$> l) !! p = Some k) (seq 0 (length l)).

Lemma cnt_positions l k : cnt l k = length (positions l k).
Proof.
  unfold cnt, positions. induction l as [|x l IH] using rev_ind; [done|].
  rewrite length_app, Nat.add_1_r, seq_S, !filter_app, !length_app. cbn [Nat.add].
  f_equal.
  - rewrite IH. f_equal. apply filter_ext_elem.
    intros p Hp%elem_of_seq. by rewrite fmap_app, lookup_app_l by (rewrite length_fmap; lia).
  - assert ((key <$> l ++ [x]) !! length l = Some (key x)) as E.
    { by rewrite fmap_app, lookup_app_r, length_fmap, Nat.sub_diag by (rewrite length_fmap; lia). }
    rewrite !filter_cons, !filter_nil, E.
    rewrite (decide_ext (Some (key x) = Some k) (key x = k)) by naive_solver.
    by case_decide.
Qed.

(** Distinct positions that hold key [k] are at most [cnt k] many. *)
Lemma positions_le_cnt l k (ps : list nat) :
  NoDup ps → Forall (λ p, (key <$> l) !! p = Some k) ps → length ps ≤ cnt l k.
Proof.
  intros Hnd Hps. rewrite cnt_positions. apply submseteq_length, NoDup_submseteq; [done|].
  rewrite Forall_forall in Hps. intros p Hp. apply list_elem_of_filter.
  split; [by apply Hps|]. apply elem_of_seq.
  specialize (Hps p Hp). apply lookup_lt_Some in Hps. rewrite length_fmap in Hps. lia.
Qed.

(** ** Counting and layout *)

Lemma count_keys_spec array counts :
  Forall (λ x, key x < length counts) array →
  ∃ counts', count_keys counts array = Ok counts' ∧ length counts' = length counts ∧
    ∀ k c, counts !! k = Some c → counts' !! k = Some (c + cnt array k).
Proof.
  unfold count_keys. revert counts. induction array as [|x l IH]; intros counts Hk.
  { exists counts. split_and!; [done..|]. intros k c Hc. cbn. by rewrite Nat.add_0_r. }
  apply Forall_cons in Hk as [Hx Hl]. cbn [rfoldM].
  destruct (lookup_lt_is_Some_2 _ _ Hx) as [cx Hcx].
  rewrite (proj2 (uindex_Ok _ _ _) Hcx). cbn [mbind Result_bind].
  rewrite set_uindex_Ok by done. cbn [mbind Result_bind].
  destruct (IH (<[key x := cx + 1]> counts)) as (counts' & -> & Hlen & Hcnt).
  { eapply Forall_impl; [exact Hl|]. intros y. by rewrite length_insert. }
  rewrite length_insert in Hlen. exists counts'. split_and!; [done..|].
  intros k c Hc. unfold cnt. rewrite filter_cons. case_decide as E.
  - subst k. simplify_eq. rewrite (Hcnt (key x) (cx + 1)).
    + f_equal. unfold cnt. cbn. lia.
    + by apply list_lookup_insert_eq.
  - apply Hcnt. by rewrite list_lookup_insert_ne.
Qed.

Section Sorting.
Context (arr0 : list T) (n : nat).
Hypothesis keys_bounded : Forall (λ x, key x < n) arr0.

(** Number of items still to be placed. *)
Definition open_items (parts : list Part) : nat := sum_list_with (λ p, end_ p - cur p) parts.

(** A part is the bucket of its key, filled up to [cur], or an empty default. *)
Definition part_ok (k : nat) (p : Part) : Prop :=
  end_ p = start arr0 (S k) ∧ start arr0 k ≤ cur p ≤ end_ p ∨
  cnt arr0 k = 0 ∧ p = mkPart 0 0.

(** The invariant of every swap. *)
Record sort_inv (s : list T * list Part) : Prop := {
  si_perm : fst s ≡ₚ arr0;
  si_parts : length (snd s) = n;
  si_part : ∀ k p, snd s !! k = Some p → part_ok k p;
  si_placed : ∀ k p q, snd s !! k = Some p → start arr0 k ≤ q < cur p →
    (key <$> fst s) !! q = Some k }.

Lemma construct_parts_spec counts :
  length counts = n → (∀ k c, counts !! k = Some c → c = cnt arr0 k) →
  ∃ parts beg, construct_parts counts = Ok (parts, beg) ∧
    sort_inv (arr0, parts) ∧ open_items parts = length arr0.
Proof.
  intros Hn Hcnt. unfold construct_parts.
  destruct (rfoldM_inv (λ '(parts, beg) rest, ∃ i, i ≤ n ∧
      rest = drop i (enumerate counts) ∧ length parts = n ∧ beg = start arr0 i ∧
      open_items parts = start arr0 i ∧
      ∀ k p, parts !! k = Some p →
        p = mkPart 0 0 ∧ (cnt arr0 k = 0 ∨ i ≤ k) ∨
        k < i ∧ p = mkPart (start arr0 k) (start arr0 (S k)))
    (λ '(parts, beg) '(idx, count), if decide (0 < count) then
        parts ← set_uindex parts idx (mkPart beg (beg + count)); Ok (parts, beg + count)
      else Ok (parts, beg))
    (replicate (length counts) (mkPart 0 0), 0) (enumerate counts))
    as ([parts beg] & -> & i & Hi & Hrest & Hlen & Hbeg & Hopen & Hparts).
  - exists 0. rewrite length_replicate, start_0. split_and!; try (done || lia).
    + unfold open_items. clear. induction (length counts); cbn; lia.
    + intros k p [-> _]%lookup_replicate_1. left. split; [done|]. right. lia.
  - intros [parts beg] [idx c] rest (i & Hi & Hrest & Hlen & -> & Hopen & Hparts).
    assert (enumerate counts !! i = Some (idx, c)) as Hic.
    { rewrite <- (Nat.add_0_r i), <- lookup_drop, <- Hrest. done. }
    rewrite lookup_enumerate in Hic. apply fmap_Some in Hic as (c' & Hc & [= -> ->]).
    pose proof (lookup_lt_Some _ _ _ Hc) as Hlt. pose proof (Hcnt _ _ Hc) as ->.
    assert (rest = drop (S i) (enumerate counts)) as Hrest'.
    { apply (f_equal tail) in Hrest. cbn in Hrest. rewrite Hrest.
      replace (S i) with (i + 1) by lia. rewrite <- drop_drop.
      by destruct (drop i (enumerate counts)). }
    destruct (lookup_lt_is_Some_2 parts i ltac:(lia)) as [p0 Hp0].
    assert (p0 = mkPart 0 0) as ->. { destruct (Hparts i p0 Hp0) as [[-> _]|[? _]]; [done|lia]. }
    case_decide as E.
    + rewrite set_uindex_Ok by lia. cbn [mbind Result_bind]. eexists. split; [done|].
      exists (S i). rewrite start_S, length_insert. split_and!; try (done || lia).
      * unfold open_items.
        pose proof (sum_list_with_insert (λ p, end_ p - cur p) parts i _
          (mkPart (start arr0 i) (start arr0 i + cnt arr0 i)) Hp0) as Hs.
        unfold open_items in Hopen. cbn [cur end_] in Hs. lia.
      * intros k p. destruct (decide (k = i)) as [->|].
        { rewrite list_lookup_insert_eq by lia. intros [= <-]. right.
          rewrite start_S. split; [lia|done]. }
        rewrite list_lookup_insert_ne by done. intros Hp.
        destruct (Hparts k p Hp) as [[-> ?]|[? ->]]; [left|right]; (split; [done || lia|try done]).
        lia.
    + eexists. split; [done|]. exists (S i). rewrite start_S.
      split_and!; try (done || lia). intros k p Hp.
      destruct (Hparts k p Hp) as [[-> Hor]|[? ->]]; [left|right]; (split; [done || lia|try done]).
      destruct (decide (k = i)) as [->|]; lia.
  - assert (i = n) as ->.
    { apply (f_equal length) in Hrest. rewrite length_drop, length_enumerate in Hrest.
      cbn in Hrest. lia. }
    exists parts, beg. split; [done|]. rewrite (start_all _ _ keys_bounded) in Hopen.
    split; [|done]. split; cbn [fst snd]; [done|done| |].
    + intros k p Hp. pose proof (lookup_lt_Some _ _ _ Hp). unfold part_ok.
      destruct (Hparts k p Hp) as [[-> [?|?]]|[? ->]]; [by right|lia|left].
      cbn. rewrite start_S. lia.
    + intros k p q Hp Hq. exfalso.
      destruct (Hparts k p Hp) as [[-> _]|[_ ->]]; cbn in Hq; lia.
Qed.

(** ** One swap *)

(** A position of the open range of part [j] is in the placed range of no part. *)
Lemma open_not_placed s j pj k pk i :
  sort_inv s → snd s !! j = Some pj → cur pj ≤ i < end_ pj → snd s !! k = Some pk →
  ¬ (start arr0 k ≤ i < cur pk).
Proof.
  intros [_ _ Hpart _] Hj Hi Hk Hbad.
  destruct (Hpart j pj Hj) as [[Hej Hcj]|[_ ->]]; [|cbn in Hi; lia].
  destruct (Hpart k pk Hk) as [[Hek Hck]|[_ ->]]; [|cbn in Hbad; lia].
  destruct (Nat.lt_trichotomy j k) as [Hlt|[->|Hlt]].
  - pose proof (start_mono arr0 (S j) k ltac:(lia)). lia.
  - simplify_eq. lia.
  - pose proof (start_mono arr0 (S k) j ltac:(lia)). lia.
Qed.

(** The part of an unplaced item has room, by counting. *)
Lemma target_has_room s i t pt :
  sort_inv s → (key <$> fst s) !! i = Some t → snd s !! t = Some pt →
  ¬ (start arr0 t ≤ i < cur pt) →
  end_ pt = start arr0 (S t) ∧ start arr0 t ≤ cur pt < end_ pt.
Proof.
  intros [Hperm Hlen Hpart Hplaced] Hi Hpt Hnot.
  assert (length (i :: seq (start arr0 t) (cur pt - start arr0 t)) ≤ cnt arr0 t) as Hc.
  { rewrite <- (cnt_Permutation _ _ t Hperm). apply positions_le_cnt.
    - constructor; [rewrite elem_of_seq; lia|apply NoDup_seq].
    - constructor; [done|]. apply Forall_forall. intros q Hq%elem_of_seq.
      apply (Hplaced t pt); [done|lia]. }
  cbn [length] in Hc. rewrite length_seq in Hc.
  destruct (Hpart t pt Hpt) as [[He Hcur]|[Hz _]]; [|lia].
  rewrite start_S in He. rewrite start_S. lia.
Qed.

Lemma closed_stays parts t pt k :
  parts !! t = Some pt → cur pt < end_ pt → open_part parts k = false →
  open_part (<[t := mkPart (cur pt + 1) (end_ pt)]> parts) k = false.
Proof.
  unfold open_part. intros Ht Hc Hk. destruct (decide (k = t)) as [->|].
  - rewrite Ht in Hk. apply bool_decide_eq_false in Hk. lia.
  - by rewrite list_lookup_insert_ne.
Qed.

Lemma place_item_spec s j pj i :
  sort_inv s → snd s !! j = Some pj → cur pj ≤ i < end_ pj →
  ∃ s' pj', place_item s i = Ok s' ∧ sort_inv s' ∧
    open_items (snd s) = S (open_items (snd s')) ∧
    snd s' !! j = Some pj' ∧ end_ pj' = end_ pj ∧ cur pj' ≤ S (cur pj) ∧
    ∀ k, open_part (snd s) k = false → open_part (snd s') k = false.
Proof.
  intros Hinv Hj Hi. pose proof Hinv as [Hperm Hlen Hpart Hplaced].
  destruct s as [array parts]. cbn [fst snd] in *.
  pose proof (Permutation_length Hperm) as Hal.
  assert (i < length array) as Hia.
  { destruct (Hpart j pj Hj) as [[He _]|[_ ->]]; [|cbn in Hi; lia].
    pose proof (lookup_lt_Some _ _ _ Hj). pose proof (start_mono arr0 (S j) n ltac:(lia)).
    rewrite (start_all _ _ keys_bounded) in *. lia. }
  destruct (lookup_lt_is_Some_2 _ _ Hia) as [x Hx]. set (t := key x).
  assert ((key <$> array) !! i = Some t) as Ht by (by rewrite list_lookup_fmap, Hx).
  assert (t < n) as Htn.
  { assert (x ∈ arr0) as Hin by (rewrite <- Hperm; by eapply list_elem_of_lookup_2).
    rewrite Forall_forall in keys_bounded. by apply keys_bounded. }
  destruct (lookup_lt_is_Some_2 parts t ltac:(lia)) as [pt Hpt].
  destruct (target_has_room _ i t pt Hinv Ht Hpt) as [He Hc];
    [by eapply (open_not_placed (array, parts) j pj)|].
  assert (cur pt < length array) as Hct.
  { pose proof (start_mono arr0 (S t) n ltac:(lia)).
    rewrite (start_all _ _ keys_bounded) in *. lia. }
  destruct (lookup_lt_is_Some_2 _ _ Hct) as [y Hy].
  unfold place_item. rewrite (proj2 (index_Ok _ _ _) Hx). cbn [mbind Result_bind].
  fold t. rewrite (proj2 (uindex_Ok _ _ _) Hpt). cbn [mbind Result_bind].
  unfold swap_unchecked. rewrite decide_True by done. cbn [mbind Result_bind].
  rewrite set_uindex_Ok by lia. cbn [mbind Result_bind].
  set (parts' := <[t := _]> parts).
  eexists _, (if decide (j = t) then mkPart (cur pt + 1) (end_ pt) else pj).
  split; [done|]. cbn [fst snd]. split_and!.
  - split; cbn [fst snd].
    + by rewrite swap_Permutation.
    + unfold parts'. by rewrite length_insert.
    + intros k p. unfold parts'. destruct (decide (k = t)) as [->|].
      * rewrite list_lookup_insert_eq by lia. intros [= <-]. left. cbn. lia.
      * rewrite list_lookup_insert_ne by done. apply Hpart.
    + intros k p q Hp Hq. rewrite list_lookup_fmap.
      unfold parts' in Hp. destruct (decide (k = t)) as [->|Hkt].
      * rewrite list_lookup_insert_eq in Hp by lia. injection Hp as <-. cbn in Hq.
        destruct (decide (q = cur pt)) as [->|Hq'].
        { by rewrite (lookup_swap_r _ _ _ x y). }
        rewrite lookup_swap_ne; [|intros ->|done].
        { rewrite <- list_lookup_fmap. apply (Hplaced t pt); [done|lia]. }
        eapply (open_not_placed (array, parts) j pj t pt); eauto; lia.
      * rewrite list_lookup_insert_ne in Hp by done.
        rewrite lookup_swap_ne; [rewrite <- list_lookup_fmap; by eapply Hplaced| |].
        { intros ->. by eapply (open_not_placed (array, parts) j pj k p). }
        intros ->. eapply (open_not_placed (array, parts) t pt k p); eauto; lia.
  - unfold open_items, parts'.
    pose proof (sum_list_with_insert (λ p, end_ p - cur p) parts t _
      (mkPart (cur pt + 1) (end_ pt)) Hpt) as Hs. cbn [cur end_] in Hs. lia.
  - unfold parts'. case_decide as E; [subst j|]; [apply list_lookup_insert_eq; lia|].
    by rewrite list_lookup_insert_ne.
  - case_decide; [|done]. subst j. by simplify_eq.
  - case_decide; [|lia]. subst j. simplify_eq. cbn. lia.
  - intros k. apply closed_stays; [done|lia].
Qed.

(** ** One part and one pass *)

Lemma process_part_spec s j pj :
  sort_inv s → snd s !! j = Some pj →
  ∃ s', process_part s j = Ok s' ∧ sort_inv s' ∧
    open_items (snd s) = (end_ pj - cur pj) + open_items (snd s') ∧
    ∀ k, open_part (snd s) k = false → open_part (snd s') k = false.
Proof.
  intros Hinv Hj. unfold process_part. rewrite (proj2 (uindex_Ok _ _ _) Hj).
  cbn [mbind Result_bind]. unfold range.
  destruct (rfoldM_inv (λ s' rest, ∃ i p, rest = seq i (end_ pj - i) ∧ sort_inv s' ∧
      snd s' !! j = Some p ∧ end_ p = end_ pj ∧ cur p ≤ i ∧
      open_items (snd s) + (end_ pj - i) = (end_ pj - cur pj) + open_items (snd s') ∧
      ∀ k, open_part (snd s) k = false → open_part (snd s') k = false)
    place_item s (seq (cur pj) (end_ pj - cur pj)))
    as (s' & -> & i & p & Hrest & Hinv' & _ & _ & _ & Hopen & Hclosed).
  - exists (cur pj), pj. split_and!; auto; lia.
  - intros s1 x rest (i & p & Hrest & Hinv1 & Hp & He & Hc & Hopen & Hclosed).
    destruct (end_ pj - i) as [|m] eqn:Em; [done|]. injection Hrest as -> ->.
    destruct (place_item_spec s1 j p i Hinv1 Hp ltac:(lia))
      as (s2 & p2 & -> & Hinv2 & Hdec & Hp2 & He2 & Hc2 & Hclosed2).
    exists s2. split; [done|]. exists (S i), p2. replace (end_ pj - S i) with m by lia.
    split_and!; auto; lia.
  - exists s'. destruct (end_ pj - i); [|done]. split_and!; auto; lia.
Qed.

Lemma process_parts_spec idxs s :
  sort_inv s → Forall (λ i, i < n) idxs →
  ∃ s', rfoldM process_part s idxs = Ok s' ∧ sort_inv s' ∧
    open_items (snd s') ≤ open_items (snd s) ∧
    ∀ k, open_part (snd s) k = false → open_part (snd s') k = false.
Proof.
  intros Hinv Hidx.
  destruct (rfoldM_inv (λ s' rest, sort_inv s' ∧ Forall (λ i, i < n) rest ∧
      open_items (snd s') ≤ open_items (snd s) ∧
      ∀ k, open_part (snd s) k = false → open_part (snd s') k = false)
    process_part s idxs) as (s' & -> & Hinv' & _ & H); [done| |by exists s'].
  intros s1 x rest (Hinv1 & [Hx Hrest]%Forall_cons & Hopen & Hclosed).
  destruct (lookup_lt_is_Some_2 (snd s1) x) as [p Hp]; [rewrite (si_parts s1); done|].
  destruct (process_part_spec s1 x p Hinv1 Hp) as (s2 & -> & ? & ? & ?).
  exists s2. split_and!; auto. lia.
Qed.

Definition pass_inv (s : list nat * (list T * list Part)) : Prop :=
  sort_inv s.2 ∧ Forall (λ i, i < n) s.1 ∧ NoDup s.1 ∧
  ∀ k, k ∉ s.1 → open_part s.2.2 k = false.

(** With at most one open part every item is in the bucket of its key. *)
Lemma exit_in_bucket s k0 q t :
  sort_inv s → (∀ k, k ≠ k0 → open_part (snd s) k = false) →
  (key <$> fst s) !! q = Some t → start arr0 t ≤ q < start arr0 (S t).
Proof.
  intros Hinv Hclosed Hq. pose proof Hinv as [Hperm Hlen Hpart Hplaced].
  assert (q < length arr0) as Hql.
  { apply lookup_lt_Some in Hq. rewrite length_fmap in Hq.
    by rewrite (Permutation_length Hperm) in Hq. }
  rewrite <- (start_all _ _ keys_bounded) in Hql.
  destruct (bucket_of arr0 n q Hql) as (k & Hk & Hkq).
  assert (t < n) as Htn.
  { rewrite list_lookup_fmap in Hq. apply fmap_Some in Hq as (x & Hx & ->).
    assert (x ∈ arr0) as Hin by (rewrite <- Hperm; by eapply list_elem_of_lookup_2).
    rewrite Forall_forall in keys_bounded. by apply keys_bounded. }
  destruct (lookup_lt_is_Some_2 (snd s) t ltac:(lia)) as [pt Hpt].
  destruct (lookup_lt_is_Some_2 (snd s) k ltac:(lia)) as [pk Hpk].
  destruct (decide (t = k)) as [->|Htk]; [done|]. exfalso.
  destruct (decide (t = k0)) as [->|Ht0].
  - pose proof (Hclosed k ltac:(done)) as Hc. unfold open_part in Hc. rewrite Hpk in Hc.
    apply bool_decide_eq_false in Hc.
    destruct (Hpart k pk Hpk) as [[He Hcur]|[Hz ->]]; [|rewrite start_S in Hkq; lia].
    pose proof (Hplaced k pk q Hpk ltac:(lia)). congruence.
  - pose proof (Hclosed t Ht0) as Hc. unfold open_part in Hc. rewrite Hpt in Hc.
    apply bool_decide_eq_false in Hc.
    destruct (target_has_room s q t pt Hinv Hq Hpt) as [He Hcur]; [|lia].
    destruct (Nat.lt_trichotomy t k) as [Hlt|[->|Hlt]]; [|done|].
    + pose proof (start_mono arr0 (S t) k ltac:(lia)).
      destruct (Hpart t pt Hpt) as [?|[_ ->]]; cbn; lia.
    + pose proof (start_mono arr0 (S k) t ltac:(lia)). lia.
Qed.

Lemma exit_sorted s k0 :
  sort_inv s → (∀ k, k ≠ k0 → open_part (snd s) k = false) →
  StronglySorted (λ x y, key x ≤ key y) (fst s).
Proof.
  intros Hinv Hclosed. apply StronglySorted_lookup. intros i j x y Hij Hx Hy.
  pose proof (exit_in_bucket s k0 i (key x) Hinv Hclosed) as Hi.
  pose proof (exit_in_bucket s k0 j (key y) Hinv Hclosed) as Hj.
  rewrite list_lookup_fmap, Hx in Hi. rewrite list_lookup_fmap, Hy in Hj.
  specialize (Hi eq_refl). specialize (Hj eq_refl).
  destruct (decide (key x ≤ key y)) as [|Hgt]; [done|].
  pose proof (start_mono arr0 (S (key y)) (key x) ltac:(lia)). lia.
Qed.

Lemma pass_spec s :
  pass_inv s →
  (∃ s', pass s = Ok (inl s') ∧ pass_inv s' ∧ open_items s'.2.2 < open_items s.2.2) ∨
  (∃ a, pass s = Ok (inr a) ∧ a ≡ₚ arr0 ∧ StronglySorted (λ x y, key x ≤ key y) a).
Proof.
  destruct s as [idxs s]. intros (Hinv & Hidx & Hnd & Hclosed). cbn [fst snd] in *.
  unfold pass, retain_open. rewrite (proj2 (forallb_forall _ _)).
  2: { intros i Hi%list_elem_of_In. rewrite Forall_forall in Hidx.
       apply bool_decide_eq_true. rewrite (si_parts s Hinv). by apply Hidx. }
  cbn [mbind Result_bind]. set (idxs' := filter _ idxs).
  assert (∀ k, k ∉ idxs' → open_part (snd s) k = false) as Hclosed'.
  { intros k Hk. destruct (open_part (snd s) k) eqn:E; [|done].
    destruct (decide (k ∈ idxs)); [|by rewrite Hclosed in E].
    exfalso. apply Hk. by apply list_elem_of_filter. }
  assert (Forall (λ i, i < n) idxs') as Hidx'.
  { apply Forall_forall. intros i [_ Hi]%list_elem_of_filter.
    rewrite Forall_forall in Hidx. by apply Hidx. }
  case_decide as Hlen.
  - left. destruct idxs' as [|i l] eqn:E; [cbn in Hlen; lia|].
    apply Forall_cons in Hidx' as [Hi Hl].
    assert (open_part (snd s) i = true) as Hopen.
    { assert (i ∈ idxs') as Hin by (rewrite E; set_solver).
      by apply list_elem_of_filter in Hin as [? _]. }
    unfold open_part in Hopen. destruct (snd s !! i) as [p|] eqn:Hp; [|done].
    apply bool_decide_eq_true in Hopen.
    destruct (process_part_spec s i p Hinv Hp) as (s1 & Hs1 & Hinv1 & Hdec & Hc1).
    destruct (process_parts_spec l s1 Hinv1 Hl) as (s2 & Hs2 & Hinv2 & Hle & Hc2).
    exists (i :: l, s2). cbn [rfoldM]. rewrite Hs1. cbn [mbind Result_bind]. rewrite Hs2.
    cbn [mbind Result_bind]. split_and!; [done| |cbn; lia].
    split_and!; cbn [fst snd]; [done|by constructor| |by auto].
    rewrite <- E. by apply NoDup_filter.
  - right. exists (fst s). split; [done|]. split; [apply si_perm, Hinv|].
    destruct idxs' as [|i [|]] eqn:E; [| |cbn in Hlen; lia].
    + apply (exit_sorted s 0 Hinv). intros. apply Hclosed'. set_solver.
    + apply (exit_sorted s i Hinv). intros. apply Hclosed'. set_solver.
Qed.

End Sorting.

Lemma radix_sort_by_key_ok (array : list T) (n : nat) :
  Forall (λ x, key x < n) array →
  ∃ array' counts', radix_sort_by_key array (replicate n 0) = Ok (array', counts') ∧
    array' ≡ₚ array ∧ StronglySorted (λ x y, key x ≤ key y) array' ∧
    length counts' = n ∧ ∀ k, k < n → counts' !! k = Some (cnt array k).
Proof.
  intros Hk. unfold radix_sort_by_key. rewrite length_replicate.
  destruct (count_keys_spec array (replicate n 0)) as (counts' & -> & Hlen & Hcnt).
  { by rewrite length_replicate. }
  rewrite length_replicate in Hlen. cbn [mbind Result_bind].
  assert (∀ k, k < n → counts' !! k = Some (cnt array k)) as Hcnt'.
  { intros k Hkn. by apply (Hcnt k 0), lookup_replicate_2. }
  destruct (construct_parts_spec array n Hk counts' Hlen) as (parts & beg & -> & Hinv & Ho).
  { intros k c Hc. pose proof (lookup_lt_Some _ _ _ Hc) as Hlt. rewrite Hlen in Hlt.
    rewrite Hcnt' in Hc by done. congruence. }
  cbn [mbind Result_bind].
  destruct (rloop_inv (pass_inv array n) (λ s, open_items s.2.2)
    (λ a, a ≡ₚ array ∧ StronglySorted (λ x y, key x ≤ key y) a) pass
    (S (length array)) (seq 0 n, (array, parts))) as (a & -> & Hperm & Hsort).
  - split_and!; cbn [fst snd]; [done| |apply NoDup_seq|].
    + apply Forall_seq. lia.
    + intros k Hkn. rewrite elem_of_seq in Hkn. unfold open_part.
      rewrite lookup_ge_None_2; [done|]. pose proof (si_parts _ _ _ Hinv) as E. cbn in E |- *. lia.
  - cbn [fst snd]. lia.
  - apply (pass_spec array n Hk).
  - cbn [mbind Result_bind]. by exists a, counts'.
Qed.

(** C23: radix_sort_by_key with zeroed counters and keys below their number terminates,
    makes only in-bounds unchecked accesses, and leaves a permutation of the array
    sorted by key and the number of items of every key in the counters. *)
Theorem radix_sort_by_key_sorts (array : list T) (n : nat) :
  Forall (λ x, key x < n) array →
  ∃ array' counts', radix_sort_by_key array (replicate n 0) = Ok (array', counts') ∧
    array' ≡ₚ array ∧ StronglySorted (λ x y, key x ≤ key y) array' ∧
    length counts' = n ∧ ∀ k, k < n → counts' !! k = Some (cnt array k).
Proof. apply radix_sort_by_key_ok. Qed.

End Radix.

Lemma radix_sort_by_key_sorts_witness :
  Forall (λ x, x < 8) [5; 3; 7; 3; 0; 5; 1] ∧
  ∃ array' counts',
    radix_sort_by_key id [5; 3; 7; 3; 0; 5; 1] (replicate 8 0) = Ok (array', counts') ∧
    array' ≡ₚ [5; 3; 7; 3; 0; 5; 1] ∧ StronglySorted (λ x y, id x ≤ id y) array' ∧
    length counts' = 8 ∧ ∀ k, k < 8 → counts' !! k = Some (cnt id [5; 3; 7; 3; 0; 5; 1] k).
Proof.
  assert (Forall (λ x, x < 8) [5; 3; 7; 3; 0; 5; 1]) as H by (repeat constructor; lia).
  split; [exact H|]. exact (radix_sort_by_key_sorts id [5; 3; 7; 3; 0; 5; 1] 8 H).
Defined.

Example radix_sort_by_key_runs :
  radix_sort_by_key id [5; 3; 7; 3; 0; 5; 1] (replicate 8 0)
  = Ok ([0; 1; 3; 3; 5; 5; 7], [1; 1; 0; 2; 0; 2; 0; 1]).
Proof. reflexivity. Qed.
