(* ===== verification/Utf8.v ===== *)
(** * UTF-8

    What the sources use of the standard library's UTF-8 support:
    [String::from_utf8_lossy], which copies valid chunks and replaces every
    maximal invalid one by U+FFFD, and the validity it tests.  A byte is a [Z]. *)

From S2P Require Import Prelude MachineInt.
Local Open Scope Z_scope.

Definition in_range (a b x : Z) : bool := (a <=? x) && (x <=? b).
(** A missing byte reads as 0, which is not a continuation byte. *)
Definition is_cont (l : list Z) (i : nat) : bool := in_range 128 191 (nth i l 0).

(** The first chunk of a non-empty string: its length and whether it is valid. *)
Definition utf8_chunk (b : Z) (l : list Z) : nat * bool :=
  if b <? 128 then (1%nat, true)
  else if in_range 194 223 b then
    if is_cont l 0 then (2%nat, true) else (1%nat, false)
  else if in_range 224 239 b then
    let b1 := nth 0 l 0 in
    if (if b =? 224 then in_range 160 191 b1
        else if b =? 237 then in_range 128 159 b1 else in_range 128 191 b1) then
      if is_cont l 1 then (3%nat, true) else (2%nat, false)
    else (1%nat, false)
  else if in_range 240 244 b then
    let b1 := nth 0 l 0 in
    if (if b =? 240 then in_range 144 191 b1
        else if b =? 244 then in_range 128 143 b1 else in_range 128 191 b1) then
      if is_cont l 1 then
        if is_cont l 2 then (4%nat, true) else (3%nat, false)
      else (2%nat, false)
    else (1%nat, false)
  else (1%nat, false).

(** U+FFFD REPLACEMENT CHARACTER *)
Definition replacement : list Z := [239; 191; 189].

Fixpoint utf8_lossy (fuel : nat) (l : list Z) : list Z :=
  match fuel, l with
  | S fuel, b :: l' =>
    let '(n, ok) := utf8_chunk b l' in
    (if ok then take n l else replacement) ++ utf8_lossy fuel (drop n l)
  | _, _ => []
  end.
(** Every chunk has at least one byte. *)
Definition from_utf8_lossy (l : list Z) : list Z := utf8_lossy (length l) l.

Fixpoint utf8_validb (fuel : nat) (l : list Z) : bool :=
  match fuel, l with
  | S fuel, b :: l' => let '(n, ok) := utf8_chunk b l' in ok && utf8_validb fuel (drop n l)
  | _, _ => true
  end.
Definition utf8_valid (l : list Z) : Prop := utf8_validb (length l) l = true.

Lemma utf8_chunk_pos b l : (1 ≤ (utf8_chunk b l).1)%nat.
Proof. unfold utf8_chunk. repeat case_match; cbn; lia. Qed.

(** A valid string is copied unchanged. *)
Lemma from_utf8_lossy_valid l : utf8_valid l → from_utf8_lossy l = l.
Proof.
  unfold utf8_valid, from_utf8_lossy.
  assert (∀ fuel l, (length l ≤ fuel)%nat → utf8_validb fuel l = true →
    utf8_lossy fuel l = l) as H; [|by apply H].
  induction fuel as [|fuel IH]; intros [|b l'] Hl Hv; try done; [cbn in Hl; lia|].
  cbn [utf8_lossy utf8_validb] in *. pose proof (utf8_chunk_pos b l') as Hn.
  destruct (utf8_chunk b l') as [n ok]. cbn [fst] in Hn.
  apply andb_true_iff in Hv as [-> Hv]. rewrite IH; [apply take_drop| |done].
  rewrite length_drop. cbn [length] in *. lia.
Qed.

(** A first chunk that is valid does not depend on what follows it. *)
Lemma utf8_chunk_app b l1 l2 n : utf8_chunk b l1 = (n, true) → utf8_chunk b (l1 ++ l2) = (n, true) ∧ (n ≤ S (length l1))%nat.
Proof.
  assert (∀ i, is_cont l1 i = true → is_cont (l1 ++ l2) i = true ∧ (i < length l1)%nat) as Hc.
  { intros i Hi. unfold is_cont in *. destruct (decide (i < length l1)%nat); [by rewrite app_nth1|].
    rewrite nth_overflow in Hi by lia. done. }
  assert (∀ lo hi, 0 < lo → in_range lo hi (nth 0 l1 0) = true → in_range lo hi (nth 0 (l1 ++ l2) 0) = true ∧ (0 < length l1)%nat) as Hr.
  { intros lo hi Hlo Hi. destruct l1; [|split; [done|cbn; lia]]. cbn in Hi. unfold in_range in Hi. apply andb_true_iff in Hi as [H%Z.leb_le _]. lia. }
  unfold utf8_chunk. intros H. destruct (b =? 224), (b =? 237), (b =? 240), (b =? 244);
  repeat match type of H with context [if ?c then _ else _] => destruct c eqn:? end; simplify_eq;
    repeat match goal with
    | H : is_cont l1 _ = true |- _ => apply Hc in H as [-> ?]
    | H : in_range _ _ (nth 0 l1 0) = true |- _ => apply Hr in H as [-> ?]; [|done]
    end; split; done || lia.
Qed.

Lemma utf8_valid_app l1 l2 : utf8_valid l1 → utf8_valid l2 → utf8_valid (l1 ++ l2).
Proof.
  unfold utf8_valid. assert (∀ fuel l, (length l ≤ fuel)%nat → utf8_validb fuel l = utf8_validb (length l) l) as Hfuel.
  { assert (∀ f1 f2 l, (length l ≤ f1)%nat → (length l ≤ f2)%nat → utf8_validb f1 l = utf8_validb f2 l) as H; [|intros; apply H; lia].
    induction f1 as [|f1 IH]; intros [|f2] [|b l] H1 H2; cbn [length] in *; try done; try lia. cbn [utf8_validb].
    pose proof (utf8_chunk_pos b l) as Hp. destruct (utf8_chunk b l) as [n ok]. cbn [fst] in Hp. f_equal. apply IH; rewrite length_drop; cbn [length]; lia. }
  intros H1 H2. remember (length l1) as n eqn:Hn. assert (length l1 ≤ n)%nat as Hle by lia. rewrite Hn in H1. clear Hn. revert l1 Hle H1.
  induction n as [|n IH]; intros [|b l1] Hle H1; cbn [length] in *; try done; try lia. cbn [app length utf8_validb] in *.
  destruct (utf8_chunk b l1) as [k ok] eqn:Hk. apply andb_true_iff in H1 as [-> H1]. destruct (utf8_chunk_app b l1 l2 k Hk) as [-> Hkl].
  pose proof (utf8_chunk_pos b l1) as Hp. rewrite Hk in Hp. cbn [fst] in Hp. cbn [andb].
  rewrite Hfuel in H1 by (rewrite length_drop; cbn [length]; lia).
  rewrite Hfuel by (rewrite length_drop; cbn [length]; lia). rewrite app_comm_cons, drop_app_le by (cbn [length]; lia).
  apply IH; [rewrite length_drop; cbn [length]; lia|done].
Qed.
