(* ===== verification/Chars.v ===== *)
(** * Text

    Strings are their UTF-8 bytes.  [chars] is the iterator over the characters of a string,
    each of them the bytes that encode it, and [parse_usize] is [str::parse::<usize>]. *)

From S2P Require Import Prelude MachineInt Utf8.

Set Default Proof Using "Type".

Local Abbreviation bytes := (list Z).

(** The bytes of a literal. *)
Definition str (s : string) : bytes := (λ c, Z.of_nat (Ascii.nat_of_ascii c)) <$> String.list_ascii_of_string s.

Fixpoint chars_fuel (fuel : nat) (s : bytes) : list bytes :=
  match fuel, s with
  | S fuel, b :: s' => let n := (utf8_chunk b s').1 in take n s :: chars_fuel fuel (drop n s)
  | _, _ => []
  end.

(** Every character has at least one byte. *)
Definition chars (s : bytes) : list bytes := chars_fuel (length s) s.

Definition is_digit (b : Z) : bool := (48 <=? b)%Z && (b <=? 57)%Z.

(** One more digit; a number that does not fit is an error. *)
Definition add_digit (v : option Z) (b : Z) : option Z :=
  v ← v;
  let v := (v * 10 + (b - 48))%Z in
  if is_digit b && bool_decide (v < 2 ^ 64)%Z then Some v else None.

(** Digits behind an optional plus. *)
Definition parse_usize (s : bytes) : option Z :=
  let digits := match s with b :: rest => if bool_decide (b = 43%Z ∧ rest ≠ []) then rest else s | [] => [] end in
  if bool_decide (digits = []) then None else foldl add_digit (Some 0%Z) digits.

(** ** Laws *)

Lemma chars_fuel_enough n m s : length s ≤ n → length s ≤ m → chars_fuel n s = chars_fuel m s.
Proof.
  revert m s. induction n as [|n IH]; intros m [|b s] Hn Hm; cbn [length] in *; [by destruct m|lia|by destruct m|].
  destruct m as [|m]; [lia|]. cbn [chars_fuel]. f_equal. pose proof (utf8_chunk_pos b s). apply IH; rewrite length_drop; cbn [length]; lia.
Qed.

Lemma chars_cons b s : chars (b :: s) = take (utf8_chunk b s).1 (b :: s) :: chars (drop (utf8_chunk b s).1 (b :: s)).
Proof.
  unfold chars at 1. cbn [length chars_fuel]. f_equal. pose proof (utf8_chunk_pos b s). apply chars_fuel_enough; rewrite length_drop; cbn [length]; lia.
Qed.

Lemma chars_ascii b s : (b < 128)%Z → chars (b :: s) = [b] :: chars s.
Proof. intros Hb. rewrite chars_cons. unfold utf8_chunk. by rewrite (proj2 (Z.ltb_lt b 128)) by done. Qed.

(** Strings by their first characters. *)
Lemma chars_ind (P : bytes → Prop) : P [] → (∀ b s, P (drop (utf8_chunk b s).1 (b :: s)) → P (b :: s)) → ∀ s, P s.
Proof.
  intros Hn Hc s. remember (length s) as n eqn:Hl. revert s Hl. induction (lt_wf n) as [n _ IH]. intros [|b s] ->; [done|].
  apply Hc. eapply IH; [|done]. pose proof (utf8_chunk_pos b s). rewrite length_drop. cbn [length]. lia.
Qed.

Lemma join_chars s : mjoin (chars s) = s.
Proof.
  induction s as [|b s IH] using chars_ind; [done|]. rewrite chars_cons.
  change (mjoin (?x :: ?l)) with (x ++ mjoin l). rewrite IH. apply take_drop.
Qed.

Lemma utf8_validb_fuel n m s : length s ≤ n → length s ≤ m → utf8_validb n s = utf8_validb m s.
Proof.
  revert m s. induction n as [|n IH]; intros m [|b s] Hn Hm; cbn [length] in *; [by destruct m|lia|by destruct m|].
  destruct m as [|m]; [lia|]. cbn [utf8_validb]. pose proof (utf8_chunk_pos b s) as Hp. destruct (utf8_chunk b s) as [k ok]. cbn [fst] in Hp.
  f_equal. apply IH; rewrite length_drop; cbn [length]; lia.
Qed.

Lemma valid_cons b s : utf8_valid (b :: s) → (utf8_chunk b s).2 = true ∧ utf8_valid (drop (utf8_chunk b s).1 (b :: s)).
Proof.
  unfold utf8_valid. cbn [length utf8_validb]. pose proof (utf8_chunk_pos b s) as Hp. destruct (utf8_chunk b s) as [n ok]. cbn [fst snd] in *.
  intros [H1 H2]%andb_prop. split; [done|]. rewrite <- H2. apply utf8_validb_fuel; rewrite ?length_drop; cbn [length]; lia.
Qed.

Lemma chars_app s1 s2 : utf8_valid s1 → chars (s1 ++ s2) = chars s1 ++ chars s2.
Proof.
  induction s1 as [|b s1 IH] using chars_ind; intros Hv; [done|]. destruct (valid_cons _ _ Hv) as [Hok Hv']. destruct (utf8_chunk b s1) as [n ok] eqn:E.
  cbn [fst snd] in *. subst ok. destruct (utf8_chunk_app b s1 s2 n E) as [E2 Hn].
  change ((b :: s1) ++ s2) with (b :: (s1 ++ s2)). rewrite !chars_cons, E, E2. cbn [fst].
  change (b :: s1 ++ s2) with ((b :: s1) ++ s2). rewrite take_app_le, drop_app_le by (cbn [length]; lia). by rewrite IH.
Qed.
