(* ===== verification/Arrow.v ===== *)
(** * Arrow arrays, the data the operators and codecs work on

    The arrow crate is not part of the sources.  Its columnar layout is modelled
    as data: an [Array] has the buffers of the documented format (validity
    bitmaps with a bit offset, value buffers, i32 offsets, children), [rows] is
    the list of logical values it stands for and [wf] what the format demands.
    The functions of arrow and of the transpose crate that the codecs call are
    the operations of the class [ArrowOps], each with the law its documentation
    states; [Reference] is an instance that satisfies them.  Field names and
    metadata are carried along unread, so a field is its nullability and type. *)

From S2P Require Import Prelude MachineInt Utf8.

Inductive TimeUnit := Second | Millisecond | Microsecond | Nanosecond.

Inductive PrimitiveType :=
  | Int8 | Int16 | Int32 | Int64 | UInt8 | UInt16 | UInt32 | UInt64
  | Float32 | Float64 | Decimal128 (precision scale : Z) | Date32 | Date64
  | Timestamp (unit : TimeUnit) (tz : option string).

(** [Unsupported w] stands for the types the engine's codecs reject. *)
Inductive DataType :=
  | Null | Boolean | Primitive (t : PrimitiveType) | Utf8 | Binary
  | List (nullable : bool) (item : DataType)
  | Map (nullable : bool) (entries : DataType) (sorted : bool)
  | Struct (fields : list (bool * DataType))
  | Unsupported (width : option nat).

#[export] Instance TimeUnit_eq_dec : EqDecision TimeUnit.
Proof. solve_decision. Defined.
#[export] Instance PrimitiveType_eq_dec : EqDecision PrimitiveType.
Proof. solve_decision. Defined.

Section DataType_ind.
Context (P : DataType → Prop).
Hypotheses (HNull : P Null) (HBool : P Boolean) (HPrim : ∀ t, P (Primitive t))
  (HUtf8 : P Utf8) (HBin : P Binary) (HList : ∀ n d, P d → P (List n d))
  (HMap : ∀ n d s, P d → P (Map n d s))
  (HStruct : ∀ fs, Forall (λ f, P f.2) fs → P (Struct fs))
  (HUns : ∀ w, P (Unsupported w)).

Fixpoint DataType_nested_ind (d : DataType) : P d :=
  match d with
  | Null => HNull | Boolean => HBool | Primitive t => HPrim t | Utf8 => HUtf8
  | Binary => HBin | List n d => HList n d (DataType_nested_ind d)
  | Map n d s => HMap n d s (DataType_nested_ind d)
  | Struct fs => HStruct fs
      ((fix go fs := match fs return Forall (λ f, P f.2) fs with
        | [] => Forall_nil_2 _
        | (n, d) :: fs => Forall_cons_2 _ (n, d) fs (DataType_nested_ind d) (go fs)
        end) fs)
  | Unsupported w => HUns w
  end.
End DataType_ind.

(** [get_byte_width] of the native type. *)
Definition byte_width (t : PrimitiveType) : nat :=
  match t with
  | Int8 | UInt8 => 1 | Int16 | UInt16 => 2
  | Int32 | UInt32 | Float32 | Date32 => 4
  | Int64 | UInt64 | Float64 | Date64 | Timestamp _ _ => 8
  | Decimal128 _ _ => 16
  end.

(** [DataType::primitive_width] *)
Definition primitive_width (d : DataType) : option nat :=
  match d with Primitive t => Some (byte_width t) | Unsupported w => w | _ => None end.

(** [ArrowPrimitiveType::DATA_TYPE]: no time zone, default decimal parameters. *)
Definition DATA_TYPE (t : PrimitiveType) : PrimitiveType :=
  match t with
  | Timestamp u _ => Timestamp u None
  | Decimal128 _ _ => Decimal128 38 10
  | t => t
  end.

Fixpoint dt_depth (d : DataType) : nat :=
  match d with
  | List _ d => S (dt_depth d)
  | Map _ d _ => S (dt_depth d)
  | Struct fs => S (list_max ((λ f, dt_depth f.2) <$> fs))
  | _ => 0
  end.

(** ** Arrays *)

(** [NullBuffer] and [BooleanBuffer]: [bb_len] bits from bit [bb_offset] on. *)
Record BitBuffer := mkBits { bb_buffer : list Z; bb_offset : nat; bb_len : nat }.

(** The values of a primitive array are the bit patterns of its native type. *)
Inductive Array :=
  | NullArray (n : nat)
  | BooleanArray (nulls : option BitBuffer) (values : BitBuffer)
  | PrimitiveArray (t : PrimitiveType) (nulls : option BitBuffer) (values : list Z)
  | BytesArray (utf8 : bool) (nulls : option BitBuffer) (offsets data : list Z)
  | ListArray (nullable : bool) (item : DataType) (nulls : option BitBuffer)
      (offsets : list Z) (values : Array)
  | MapArray (nullable : bool) (fields : list (bool * DataType)) (sorted : bool)
      (nulls : option BitBuffer) (offsets : list Z) (n : nat) (entries : list Array)
  | StructArray (fields : list (bool * DataType)) (nulls : option BitBuffer) (n : nat)
      (columns : list Array)
  | OtherArray (width : option nat) (n : nat).

Section Array_ind.
Context (P : Array → Prop).
Hypotheses (HNull : ∀ n, P (NullArray n)) (HBool : ∀ nl v, P (BooleanArray nl v))
  (HPrim : ∀ t nl vs, P (PrimitiveArray t nl vs)) (HBytes : ∀ u nl o d, P (BytesArray u nl o d))
  (HList : ∀ nb d nl o v, P v → P (ListArray nb d nl o v))
  (HMap : ∀ nb fs s nl o n cs, Forall P cs → P (MapArray nb fs s nl o n cs))
  (HStruct : ∀ fs nl n cs, Forall P cs → P (StructArray fs nl n cs))
  (HOther : ∀ w n, P (OtherArray w n)).

Fixpoint Array_nested_ind (a : Array) : P a :=
  let go := fix go cs := match cs return Forall P cs with
    | [] => Forall_nil_2 _
    | c :: cs => Forall_cons_2 _ c cs (Array_nested_ind c) (go cs)
    end in
  match a with
  | NullArray n => HNull n | BooleanArray nl v => HBool nl v
  | PrimitiveArray t nl vs => HPrim t nl vs | BytesArray u nl o d => HBytes u nl o d
  | ListArray nb d nl o v => HList nb d nl o v (Array_nested_ind v)
  | MapArray nb fs s nl o n cs => HMap nb fs s nl o n cs (go cs)
  | StructArray fs nl n cs => HStruct fs nl n cs (go cs)
  | OtherArray w n => HOther w n
  end.
End Array_ind.

(** [Array::data_type], [Array::len] and the physical [Array::nulls]. *)
Definition data_type (a : Array) : DataType :=
  match a with
  | NullArray _ => Null
  | BooleanArray _ _ => Boolean
  | PrimitiveArray t _ _ => Primitive t
  | BytesArray u _ _ _ => if u then Utf8 else Binary
  | ListArray nb d _ _ _ => List nb d
  | MapArray nb fs s _ _ _ _ => Map nb (Struct fs) s
  | StructArray fs _ _ _ => Struct fs
  | OtherArray w _ => Unsupported w
  end.

Definition alen (a : Array) : nat :=
  match a with
  | NullArray n => n
  | BooleanArray _ v => bb_len v
  | PrimitiveArray _ _ vs => length vs
  | BytesArray _ _ o _ => length o - 1
  | ListArray _ _ _ o _ => length o - 1
  | MapArray _ _ _ _ o _ _ => length o - 1
  | StructArray _ _ n _ => n
  | OtherArray _ n => n
  end.

Definition nulls_of (a : Array) : option BitBuffer :=
  match a with
  | NullArray _ | OtherArray _ _ => None
  | BooleanArray nl _ | PrimitiveArray _ nl _ | BytesArray _ nl _ _
  | ListArray _ _ nl _ _ | MapArray _ _ _ nl _ _ _ | StructArray _ nl _ _ => nl
  end.

(** Bit [i] of a bitmap, least significant bit of each byte first. *)
Definition bit_at (buf : list Z) (i : nat) : bool :=
  match buf !! (i / 8) with Some b => Z.testbit b (Z.of_nat (i mod 8)) | None => false end.

Definition bits_at (b : BitBuffer) (i : nat) : bool := bit_at (bb_buffer b) (bb_offset b + i).

(** A row is null when the validity bitmap exists and its bit is clear. *)
Definition null_at (nulls : option BitBuffer) (i : nat) : bool :=
  match nulls with None => false | Some b => negb (bits_at b i) end.

(** ** The rows an array stands for *)

Inductive Val :=
  | VNull | VBool (b : bool) | VPrim (bits : Z) | VBytes (bs : list Z)
  | VList (vs : list Val) | VMap (cols : list (list Val)) | VStruct (vs : list Val)
  | VOther.

Definition sub {A} (l : list A) (a b : nat) : list A := take (b - a) (drop a l).

(** Offset [i] as an index. *)
Definition off (offsets : list Z) (i : nat) : nat := Z.to_nat (nth i offsets 0%Z).

Definition mask (nulls : option BitBuffer) (n : nat) (f : nat → Val) : list Val :=
  (λ i, if null_at nulls i then VNull else f i) <$> seq 0 n.

Fixpoint rows (a : Array) : list Val :=
  match a with
  | NullArray n => replicate n VNull
  | BooleanArray nl v => mask nl (bb_len v) (λ i, VBool (bits_at v i))
  | PrimitiveArray t nl vs => mask nl (length vs) (λ i, VPrim (nth i vs 0%Z))
  | BytesArray u nl o d =>
      mask nl (length o - 1) (λ i, VBytes (sub d (off o i) (off o (S i))))
  | ListArray nb d nl o v =>
      mask nl (length o - 1) (λ i, VList (sub (rows v) (off o i) (off o (S i))))
  | MapArray nb fs s nl o n cs =>
      mask nl (length o - 1) (λ i, VMap ((λ c, sub (rows c) (off o i) (off o (S i))) <$> cs))
  | StructArray fs nl n cs =>
      mask nl n (λ i, VStruct ((λ c, nth i (rows c) VNull) <$> cs))
  | OtherArray w n => replicate n VOther
  end.

(** ** What the format demands *)

Definition bits_wf (b : BitBuffer) : Prop :=
  bytes_ok (bb_buffer b) ∧ bb_offset b + bb_len b ≤ 8 * length (bb_buffer b).

Definition nulls_wf (nulls : option BitBuffer) (n : nat) : Prop :=
  match nulls with None => True | Some b => bits_wf b ∧ bb_len b = n end.

(** At least one offset, never decreasing, non-negative, within the child. *)
Record offsets_wf (o : list Z) (n : nat) : Prop := {
  ow_len : 1 ≤ length o;
  ow_i32 : Forall (λ x, 0 <= x < 2 ^ 31)%Z o;
  ow_mono : ∀ i, S i < length o → off o i ≤ off o (S i);
  ow_end : off o (length o - 1) ≤ n }.

Definition prim_valid (t : PrimitiveType) : Prop :=
  match t with Decimal128 p s => (1 <= p <= 38 ∧ s <= p)%Z | _ => True end.

(** The children of a struct (or of the entries of a map): as many as fields, of
    the fields' types and of the same length; a non-nullable field has no null of
    its own below a valid parent. *)
Definition cols_wf (wf : Array → Prop) (parent_null : nat → bool) (n : nat)
  : list (bool * DataType) → list Array → Prop :=
  fix go fs cs {struct cs} := match cs, fs with
  | [], [] => True
  | c :: cs, (nb, d) :: fs =>
      (data_type c = d ∧ alen c = n ∧ wf c ∧
       (nb = false → ∀ i, i < n → null_at (nulls_of c) i = true → parent_null i = true)) ∧
      go fs cs
  | _, _ => False
  end.

Fixpoint wf (a : Array) : Prop :=
  match a with
  | NullArray n => True
  | BooleanArray nl v => nulls_wf nl (bb_len v) ∧ bits_wf v
  | PrimitiveArray t nl vs =>
      nulls_wf nl (length vs) ∧ prim_valid t ∧
      Forall (in_u (8 * Z.of_nat (byte_width t))) vs
  | BytesArray u nl o d =>
      nulls_wf nl (length o - 1) ∧ offsets_wf o (length d) ∧ bytes_ok d ∧
      (u = true → ∀ i, i < length o - 1 → utf8_valid (sub d (off o i) (off o (S i))))
  | ListArray nb d nl o v =>
      nulls_wf nl (length o - 1) ∧ offsets_wf o (alen v) ∧ data_type v = d ∧ wf v ∧
      (nb = false → ∀ i, off o 0 ≤ i < off o (length o - 1) → null_at (nulls_of v) i = false)
  | MapArray nb fs s nl o n cs =>
      nulls_wf nl (length o - 1) ∧ offsets_wf o n ∧ length fs = 2 ∧
      cols_wf wf (λ _, false) n fs cs
  | StructArray fs nl n cs => nulls_wf nl n ∧ cols_wf wf (null_at nl) n fs cs
  | OtherArray w n => True
  end.

(** The types the codecs support; a time zone is not kept (see BatchSerde). *)
Fixpoint supported (d : DataType) : Prop :=
  match d with
  | Unsupported _ => False
  | Primitive (Timestamp _ tz) => tz = None
  | List _ d => supported d
  | Map _ d _ => supported d
  | Struct fs => foldr (λ f P, supported f.2 ∧ P) True fs
  | _ => True
  end.

(** ** Offsets and masks *)

Lemma off_mono o n i j : offsets_wf o n → i ≤ j → j < length o → off o i ≤ off o j.
Proof.
  intros Ho Hij Hj. induction Hij as [|j Hij IH]; [done|].
  transitivity (off o j); [apply IH; lia|]. apply (ow_mono _ _ Ho). lia.
Qed.

Lemma mask_ext nl nl' n f f' :
  (∀ i, i < n → null_at nl i = null_at nl' i) → (∀ i, i < n → f i = f' i) →
  mask nl n f = mask nl' n f'.
Proof.
  intros Hn Hf. unfold mask. apply list_fmap_ext. intros k i Hi.
  apply lookup_seq in Hi as [-> Hi]. by rewrite Hn, Hf by lia.
Qed.

(** Two arrays with the same type, length, nulls and rows. *)
Record same_rows (a b : Array) : Prop := {
  sr_type : data_type a = data_type b;
  sr_len : alen a = alen b;
  sr_nulls : ∀ i, i < alen b → null_at (nulls_of a) i = null_at (nulls_of b) i;
  sr_rows : rows a = rows b }.

(** [b] is the slice of [a] that starts at [o] and has [l] rows. *)
Record is_slice (a : Array) (o l : nat) (b : Array) : Prop := {
  sl_wf : wf b;
  sl_type : data_type b = data_type a;
  sl_len : alen b = l;
  sl_nulls : ∀ i, i < l → null_at (nulls_of b) i = null_at (nulls_of a) (o + i);
  sl_rows : rows b = take l (drop o (rows a)) }.

(** ** The operations of arrow and transpose *)

Class ArrowOps := {
  (** [Array::slice] *)
  slice : Array → nat → nat → Array;
  (** [make_array(ArrayData::try_new(..)?)] on the buffers of the given array *)
  try_new : Array → Result Array;
  (** [PrimitiveArray::with_precision_and_scale] *)
  with_precision_and_scale : Array → Z → Z → Result Array;
  (** [bit_util::get_bit_raw] and [set_bit_raw] *)
  get_bit_raw : list Z → nat → bool;
  set_bit_raw : list Z → nat → list Z;
  (** [transpose::transpose(input, output, width, height)] *)
  transpose : list Z → nat → nat → list Z;

  slice_law : ∀ a o l, wf a → o + l ≤ alen a → is_slice a o l (slice a o l);
  try_new_law : ∀ a, wf a → try_new a = Ok a;
  with_precision_and_scale_law : ∀ p s nl vs p' s',
    (1 <= p' <= 38 ∧ s' <= p')%Z →
    with_precision_and_scale (PrimitiveArray (Decimal128 p s) nl vs) p' s'
    = Ok (PrimitiveArray (Decimal128 p' s') nl vs);
  get_bit_law : ∀ buf i, i < 8 * length buf → get_bit_raw buf i = bit_at buf i;
  set_bit_law : ∀ buf i, bytes_ok buf → i < 8 * length buf →
    bytes_ok (set_bit_raw buf i) ∧ length (set_bit_raw buf i) = length buf ∧
    ∀ j, bit_at (set_bit_raw buf i) j = bool_decide (j = i) || bit_at buf j;
  transpose_law : ∀ l w h, length l = w * h →
    length (transpose l w h) = w * h ∧
    ∀ x y, x < w → y < h → transpose l w h !! (x * h + y) = l !! (y * w + x) }.
