(* ===== verification/ArrowRef.v ===== *)
(** * A reference instance of the arrow operations

    Slicing shares the buffers and moves the offsets, bitmaps are numbered from
    the least significant bit of each byte, [transpose] gathers its output
    column by column.  The laws of [ArrowOps] hold of it, so they are consistent
    and the theorems about the codecs can be run. *)

From S2P Require Import Prelude MachineInt Utf8 Arrow.

Definition bb_slice (o l : nat) (b : BitBuffer) : BitBuffer :=
  mkBits (bb_buffer b) (bb_offset b + o) l.
Definition off_slice (o l : nat) (offs : list Z) : list Z := take (S l) (drop o offs).

Fixpoint ref_slice (a : Array) (o l : nat) : Array :=
  match a with
  | NullArray _ => NullArray l
  | BooleanArray nl v => BooleanArray (bb_slice o l <$> nl) (bb_slice o l v)
  | PrimitiveArray t nl vs => PrimitiveArray t (bb_slice o l <$> nl) (take l (drop o vs))
  | BytesArray u nl offs d => BytesArray u (bb_slice o l <$> nl) (off_slice o l offs) d
  | ListArray nb d nl offs v => ListArray nb d (bb_slice o l <$> nl) (off_slice o l offs) v
  | MapArray nb fs s nl offs n cs =>
      MapArray nb fs s (bb_slice o l <$> nl) (off_slice o l offs) n cs
  | StructArray fs nl n cs =>
      StructArray fs (bb_slice o l <$> nl) l ((λ c, ref_slice c o l) <$> cs)
  | OtherArray w _ => OtherArray w l
  end.

Definition ref_with_precision_and_scale (a : Array) (p s : Z) : Result Array :=
  match a with
  | PrimitiveArray (Decimal128 _ _) nl vs => Ok (PrimitiveArray (Decimal128 p s) nl vs)
  | _ => Panic
  end.

Definition ref_set_bit (buf : list Z) (i : nat) : list Z :=
  alter (λ b, Z.setbit b (Z.of_nat (i mod 8))) (i / 8) buf.

Definition ref_transpose (l : list Z) (w h : nat) : list Z :=
  (λ p, nth (p mod h * w + p / h) l 0%Z) <$> seq 0 (w * h).

(** ** Slices *)

Lemma take_drop_fmap_seq {A} (f : nat → A) o l n :
  o + l ≤ n → take l (drop o (f <$> seq 0 n)) = (λ i, f (o + i)) <$> seq 0 l.
Proof.
  intros Hol. apply list_eq. intros i. destruct (decide (i < l)) as [Hi|].
  - rewrite lookup_take_lt, lookup_drop, !list_lookup_fmap by done.
    rewrite !lookup_seq_lt by lia. done.
  - rewrite lookup_take_ge, lookup_ge_None_2 by (rewrite ?length_fmap, ?length_seq; lia). done.
Qed.

Lemma bits_at_slice o l b i : bits_at (bb_slice o l b) i = bits_at b (o + i).
Proof. unfold bits_at, bb_slice. cbn. f_equal. lia. Qed.

Lemma null_at_slice o l nl i : null_at (bb_slice o l <$> nl) i = null_at nl (o + i).
Proof. destruct nl; [|done]. cbn. by rewrite bits_at_slice. Qed.

Lemma mask_slice nl n f f' o l :
  o + l ≤ n → (∀ i, i < l → f' i = f (o + i)) →
  mask (bb_slice o l <$> nl) l f' = take l (drop o (mask nl n f)).
Proof.
  intros Hol Hf. unfold mask. rewrite take_drop_fmap_seq by done.
  apply list_fmap_ext. intros k i Hi%lookup_seq. destruct Hi as [-> Hi].
  by rewrite null_at_slice, Hf by lia.
Qed.

Lemma bits_slice_wf o l b : bits_wf b → o + l ≤ bb_len b → bits_wf (bb_slice o l b).
Proof. intros [? ?] ?. split; cbn; [done|lia]. Qed.

Lemma nulls_slice_wf o l nl n : nulls_wf nl n → o + l ≤ n → nulls_wf (bb_slice o l <$> nl) l.
Proof. destruct nl as [b|]; [|done]. intros [? <-] ?. split; [by apply bits_slice_wf|done]. Qed.

Lemma length_off_slice o l offs :
  o + l < length offs → length (off_slice o l offs) = S l.
Proof. intros. unfold off_slice. rewrite length_take, length_drop. lia. Qed.

Lemma off_off_slice o l offs i : i ≤ l → off (off_slice o l offs) i = off offs (o + i).
Proof.
  intros. unfold off, off_slice. rewrite !nth_lookup, lookup_take_lt, lookup_drop by lia. done.
Qed.

Lemma offsets_slice_wf o l offs n :
  offsets_wf offs n → o + l < length offs → offsets_wf (off_slice o l offs) n.
Proof.
  intros Ho Hl. pose proof (length_off_slice _ _ _ Hl) as Hlen.
  split; rewrite ?Hlen; [lia| | |].
  - apply Forall_take, Forall_drop, (ow_i32 _ _ Ho).
  - intros i Hi. rewrite !off_off_slice, Nat.add_succ_r by lia. apply (ow_mono _ _ Ho). lia.
  - rewrite off_off_slice by lia. etransitivity; [|apply (ow_end _ _ Ho)].
    apply (off_mono _ _ _ _ Ho); lia.
Qed.

Lemma nth_take_drop {A} (l : list A) o n i d :
  i < n → nth i (take n (drop o l)) d = nth (o + i) l d.
Proof. intros. by rewrite !nth_lookup, lookup_take_lt, lookup_drop. Qed.

(** The columns of a struct are sliced one by one. *)
Lemma cols_slice pn n fs cs o l :
  Forall (λ c, wf c → o + l ≤ alen c → is_slice c o l (ref_slice c o l)) cs →
  cols_wf wf pn n fs cs → o + l ≤ n →
  cols_wf wf (λ i, pn (o + i)) l fs ((λ c, ref_slice c o l) <$> cs) ∧
  ∀ i, i < l → (λ c, nth i (rows c) VNull) <$> ((λ c, ref_slice c o l) <$> cs)
    = (λ c, nth (o + i) (rows c) VNull) <$> cs.
Proof.
  intros IH Hwf Hol. revert fs Hwf. induction IH as [|c cs Hc _ IH]; intros [|[nb d] fs] Hwf; try done.
  destruct Hwf as [(Ht & Hl & Hwc & Hnn) Hcs]. destruct (IH fs Hcs) as [IH1 IH2].
  destruct (Hc Hwc ltac:(lia)) as [Swf Stype Slen Snull Srows]. split.
  - rewrite fmap_cons. split; [|done]. split_and!; [congruence|done|done|].
    intros Hnb i Hi. rewrite Snull by done. apply Hnn; [done|lia].
  - intros i Hi. rewrite !fmap_cons, IH2 by done. f_equal.
    by rewrite Srows, nth_take_drop.
Qed.

Lemma cols_wf_pn (pn pn' : nat → bool) n fs cs :
  (∀ i, i < n → pn i = pn' i) → cols_wf wf pn n fs cs → cols_wf wf pn' n fs cs.
Proof.
  intros Hpn. revert fs. induction cs as [|c cs IH]; intros [|[nb d] fs]; cbn; try done.
  intros [(? & ? & ? & Hnn) Hcs]. split; [|by apply IH]. split_and!; auto.
  intros ? i Hi ?. rewrite <- Hpn by done. auto.
Qed.

Lemma ref_slice_law a o l : wf a → o + l ≤ alen a → is_slice a o l (ref_slice a o l).
Proof.
  induction a as [n|nl v|t nl vs|u nl offs d|nb d nl offs v IH|nb fs s nl offs n cs IH|fs nl n cs IH|w n]
    using Array_nested_ind; intros Hwf Hol; cbn [alen] in Hol.
  - split; cbn; [done..|]. rewrite drop_replicate, take_replicate. f_equal. lia.
  - destruct Hwf as [Hnl Hv].
    split; [split; [by eapply nulls_slice_wf|by apply bits_slice_wf]|done|done| |].
    + intros i _. apply null_at_slice.
    + apply mask_slice; [done|]. intros i Hi. by rewrite bits_at_slice.
  - destruct Hwf as (Hnl & Hp & Hvs). assert (length (take l (drop o vs)) = l) as Hlen
      by (rewrite length_take, length_drop; lia). split; cbn; rewrite ?Hlen; [|done|done| |].
    + split_and!; [by eapply nulls_slice_wf|done|by apply Forall_take, Forall_drop].
    + intros i _. apply null_at_slice.
    + apply mask_slice; [done|]. intros i Hi. by rewrite nth_take_drop.
  - destruct Hwf as (Hnl & Ho & Hd & Hu). pose proof (ow_len _ _ Ho).
    pose proof (length_off_slice o l offs ltac:(lia)) as Hlen.
    split; cbn; rewrite ?Hlen; cbn [Nat.sub]; rewrite ?Nat.sub_0_r; [|done|done| |].
    + split_and!; [by eapply nulls_slice_wf|apply offsets_slice_wf; [done|lia]|done|].
      intros Hu' i Hi. rewrite !off_off_slice, Nat.add_succ_r by lia. apply Hu; [done|lia].
    + intros i _. apply null_at_slice.
    + apply mask_slice; [done|]. intros i Hi. by rewrite !off_off_slice, Nat.add_succ_r by lia.
  - destruct Hwf as (Hnl & Ho & Hd & Hv & Hnn). pose proof (ow_len _ _ Ho).
    pose proof (length_off_slice o l offs ltac:(lia)) as Hlen.
    split; cbn [wf ref_slice data_type alen nulls_of rows]; rewrite ?Hlen; cbn [Nat.sub];
      rewrite ?Nat.sub_0_r; [|done|done| |].
    + split_and!; [by eapply nulls_slice_wf|apply offsets_slice_wf; [done|lia]|done|done|].
      intros Hnb i. rewrite !off_off_slice by lia. intros Hi. apply Hnn; [done|].
      pose proof (off_mono _ _ 0 (o + 0) Ho ltac:(lia) ltac:(lia)).
      pose proof (off_mono _ _ (o + l) (length offs - 1) Ho ltac:(lia) ltac:(lia)). lia.
    + intros i _. apply null_at_slice.
    + apply mask_slice; [done|]. intros i Hi. by rewrite !off_off_slice, Nat.add_succ_r by lia.
  - destruct Hwf as (Hnl & Ho & Hfs & Hcs). pose proof (ow_len _ _ Ho).
    pose proof (length_off_slice o l offs ltac:(lia)) as Hlen.
    split; cbn [wf ref_slice data_type alen nulls_of rows]; rewrite ?Hlen; cbn [Nat.sub];
      rewrite ?Nat.sub_0_r; [|done|done| |].
    + split_and!; [by eapply nulls_slice_wf|apply offsets_slice_wf; [done|lia]|done|done].
    + intros i _. apply null_at_slice.
    + apply mask_slice; [done|]. intros i Hi. by rewrite !off_off_slice, Nat.add_succ_r by lia.
  - destruct Hwf as (Hnl & Hcs). destruct (cols_slice _ _ _ _ o l IH Hcs Hol) as [Hc Hr].
    split; cbn [wf ref_slice data_type alen nulls_of rows]; [|done|done| |].
    + split; [by eapply nulls_slice_wf|]. eapply cols_wf_pn; [|exact Hc].
      intros i _. by rewrite null_at_slice.
    + intros i _. apply null_at_slice.
    + apply mask_slice; [done|]. intros i Hi. f_equal. by apply Hr.
  - split; cbn; [done..|]. rewrite drop_replicate, take_replicate. f_equal. lia.
Qed.

(** ** Bits and transposition *)

Lemma ref_set_bit_law buf i :
  bytes_ok buf → i < 8 * length buf →
  bytes_ok (ref_set_bit buf i) ∧ length (ref_set_bit buf i) = length buf ∧
  ∀ j, bit_at (ref_set_bit buf i) j = bool_decide (j = i) || bit_at buf j.
Proof.
  intros Hok Hi. unfold ref_set_bit.
  assert (i / 8 < length buf) as Hd by (apply Nat.Div0.div_lt_upper_bound; lia).
  pose proof (Nat.mod_upper_bound i 8 ltac:(lia)) as Hm.
  destruct (lookup_lt_is_Some_2 _ _ Hd) as [b Hb]. split_and!.
  - unfold bytes_ok. apply Forall_lookup. intros k x Hx.
    destruct (decide (k = i / 8)) as [->|].
    + rewrite list_lookup_alter_eq, Hb in Hx.
      assert (x = Z.setbit b (Z.of_nat (i mod 8))) as -> by (by injection Hx).
      pose proof (Forall_lookup_1 _ _ _ _ Hok Hb) as Hbb. unfold byte_ok in *.
      assert (in_u 8 (Z.setbit b (Z.of_nat (i mod 8)))) as Hin; [|unfold in_u in Hin; lia].
      rewrite Z.setbit_spec'. apply in_u_lor; [lia|unfold in_u; lia|].
      unfold in_u. split; [lia|]. apply Z.pow_lt_mono_r; lia.
    + rewrite list_lookup_alter_ne in Hx by done. by apply (Forall_lookup_1 _ _ _ _ Hok Hx).
  - apply length_alter.
  - intros j. unfold bit_at. destruct (decide (j / 8 = i / 8)) as [E|E].
    + rewrite E, list_lookup_alter_eq, Hb. cbn [fmap option_fmap option_map].
      rewrite Z.setbit_eqb by lia. f_equal. apply eq_true_iff_eq.
      rewrite Z.eqb_eq, bool_decide_eq_true.
      pose proof (Nat.div_mod i 8 ltac:(lia)). pose proof (Nat.div_mod j 8 ltac:(lia)).
      split; [intros Hij%Nat2Z.inj; congruence|by intros ->].
    + rewrite list_lookup_alter_ne by done. rewrite bool_decide_eq_false_2 by congruence. done.
Qed.

Lemma ref_transpose_law l w h :
  length l = w * h →
  length (ref_transpose l w h) = w * h ∧
  ∀ x y, x < w → y < h → ref_transpose l w h !! (x * h + y) = l !! (y * w + x).
Proof.
  intros Hl. unfold ref_transpose. split; [by rewrite length_fmap, length_seq|].
  intros x y Hx Hy. rewrite list_lookup_fmap, lookup_seq_lt by nia. cbn [fmap option_fmap option_map].
  replace (0 + (x * h + y)) with (y + x * h) by lia.
  rewrite Nat.Div0.mod_add, Nat.mod_small, Nat.div_add,
    Nat.div_small, Nat.add_0_l by lia.
  destruct (lookup_lt_is_Some_2 l (y * w + x) ltac:(nia)) as [z Hz].
  rewrite nth_lookup, Hz. done.
Qed.

#[export] Instance Reference : ArrowOps := {|
  slice := ref_slice;
  try_new := Ok;
  with_precision_and_scale := ref_with_precision_and_scale;
  get_bit_raw := bit_at;
  set_bit_raw := ref_set_bit;
  transpose := ref_transpose;
  slice_law := ref_slice_law;
  try_new_law := λ a _, eq_refl;
  with_precision_and_scale_law := λ _ _ _ _ _ _ _, eq_refl;
  get_bit_law := λ _ _ _, eq_refl;
  set_bit_law := ref_set_bit_law;
  transpose_law := ref_transpose_law |}.
