(* ===== verification/BatchSerde.v ===== *)
(** * Batch serialization

    native-engine/datafusion-ext-commons/src/io/batch_serde.rs: the format that
    shuffles, spills and broadcasts use for arrow batches.  A writer is the bytes
    it appends; a reader is a [Reader].  The native byte order is little-endian. *)

From S2P Require Import Prelude MachineInt Utf8 Io Arrow ArrowRef.

(** [TransposeOpt]: the scratch buffer is overwritten before every use, so only
    its size is kept. *)
Inductive TransposeOpt := Disabled | Transpose (buffer_len : nat).

Fixpoint data_type_bytes_width (dt : DataType) : nat :=
  match dt with
  | Null => 0
  | Boolean => 0
  | _ =>
    if decide (primitive_width dt = Some 1) then 0 else
    match primitive_width dt with
    | Some (S (S w)) => S (S w)
    | _ =>
      match dt with
      | Utf8 | Binary => 4
      | List _ d => Nat.max (data_type_bytes_width d) 4
      | Map _ d _ => Nat.max (data_type_bytes_width d) 4
      | Struct fields => list_max ((λ f, data_type_bytes_width f.2) <$> fields)
      | _ => 0
      end
    end
  end.

Definition with_transpose (num_rows : nat) (data_types : list DataType) : TransposeOpt :=
  Transpose (num_rows * list_max (data_type_bytes_width <$> data_types)).

Definition as_usize (x : Z) : nat := Z.to_nat (usize x).

(** [&l[a..b]] *)
Definition subslice {A} (l : list A) (a b : nat) : Result (list A) :=
  if decide (a ≤ b ∧ b ≤ length l) then Ok (sub l a b) else Panic.

(** [as_raw_bytes] of a slice of [w]-byte integers, and back. *)
Definition to_raw (w : nat) (vs : list Z) : list Z := concat (le_bytes w <$> vs).
Definition from_raw (w n : nat) (bs : list Z) : list Z :=
  (λ i, le_val (take w (drop (w * i) bs))) <$> seq 0 n.

(** [for column in columns { read_array(..)? }], collected *)
Definition read_all {A B} (f : A → Reader B) : list A → Reader (list B) :=
  fix go l := match l with
  | [] => mret []
  | x :: l => y ← f x; ys ← go l; mret (y :: ys)
  end.

Section Codec.
Context `{ArrowOps}.

(** ** Buffers *)

Definition get_bit_unsafe (buffer : list Z) (i : nat) : Result bool :=
  if decide (i < 8 * length buffer) then Ok (get_bit_raw buffer i) else Undef.
Definition set_bit_unsafe (buffer : list Z) (i : nat) : Result (list Z) :=
  if decide (i < 8 * length buffer) then Ok (set_bit_raw buffer i) else Undef.

Definition write_bits_buffer (buffer : list Z) (bits_offset bits_len : nat) : Result (list Z) :=
  rfoldM (λ out_buffer i,
      bit ← get_bit_unsafe buffer (bits_offset + i);
      if bit : bool then set_bit_unsafe out_buffer i else Ok out_buffer)
    (replicate (div_ceil bits_len 8) 0%Z) (range 0 bits_len).

Definition read_bits_buffer (bits_len : nat) : Reader (list Z) :=
  read_bytes_slice (div_ceil bits_len 8).

(** The transposed or plain write of [n] values of [w] bytes. *)
Definition write_raw (raw : list Z) (w n : nat) (opt : TransposeOpt) : Result (list Z) :=
  match opt with
  | Transpose cap => if decide (w * n ≤ cap) then Ok (transpose raw w n) else Panic
  | Disabled => Ok raw
  end.

Definition read_raw (w n : nat) (opt : TransposeOpt) : Reader (list Z) :=
  match opt with
  | Transpose cap =>
      if decide (w * n ≤ cap) then buffer ← read_exact (w * n); mret (transpose buffer n w)
      else rlift Panic
  | Disabled => read_exact (w * n)
  end.

Definition write_offsets (offsets : list Z) (opt : TransposeOpt) : Result (list Z) :=
  _ ← rassert (bool_decide (1 ≤ length offsets));
  let lens := zip_with (λ beg end_, i32 (end_ - beg)) offsets (tail offsets) in
  write_raw (to_raw 4 lens) 4 (length lens) opt.

Fixpoint accumulate (cur_offset : Z) (lens : list Z) : list Z :=
  match lens with
  | [] => []
  | offset :: lens =>
      let cur_offset := i32 (cur_offset + offset) in
      i32 (cur_offset - offset) :: accumulate cur_offset lens
  end.

Definition read_offsets (num_rows : nat) (opt : TransposeOpt) : Reader (list Z) :=
  raw ← read_raw 4 num_rows opt;
  let lens := i32 <$> from_raw 4 num_rows raw in
  mret (accumulate 0 (lens ++ [0%Z])).

Definition write_nulls (nulls : option BitBuffer) : Result (list Z) :=
  match nulls with
  | Some b =>
      l ← write_len 1;
      bits ← write_bits_buffer (bb_buffer b) (bb_offset b) (bb_len b);
      Ok (l ++ bits)
  | None => write_len 0
  end.

Definition read_nulls (num_rows : nat) : Reader (option BitBuffer) :=
  has_null_buffer ← read_len;
  if decide (has_null_buffer = 1%Z) then
    buf ← read_bits_buffer num_rows; mret (Some (mkBits buf 0 num_rows))
  else mret None.

(** ** Flat arrays *)

(** [if let Transpose(buffer) = opt && byte_width > 1] *)
Definition prim_opt (t : PrimitiveType) (opt : TransposeOpt) : TransposeOpt :=
  if decide (1 < byte_width t) then opt else Disabled.

Definition write_primitive_array (t : PrimitiveType) (nulls : option BitBuffer)
    (values : list Z) (opt : TransposeOpt) : Result (list Z) :=
  n ← write_nulls nulls;
  v ← write_raw (to_raw (byte_width t) values) (byte_width t) (length values) (prim_opt t opt);
  Ok (n ++ v).

Definition read_primitive_array (t : PrimitiveType) (num_rows : nat) (opt : TransposeOpt)
    : Reader Array :=
  null_buffer ← read_nulls num_rows;
  raw ← read_raw (byte_width t) num_rows (prim_opt t opt);
  rlift (try_new (PrimitiveArray (DATA_TYPE t) null_buffer
    (from_raw (byte_width t) num_rows raw))).

Definition write_boolean_array (nulls : option BitBuffer) (values : BitBuffer)
    : Result (list Z) :=
  n ← write_nulls nulls;
  v ← write_bits_buffer (bb_buffer values) (bb_offset values) (bb_len values);
  Ok (n ++ v).

Definition read_boolean_array (num_rows : nat) : Reader Array :=
  null_buffer ← read_nulls num_rows;
  data_buffer ← read_bits_buffer num_rows;
  rlift (try_new (BooleanArray null_buffer (mkBits data_buffer 0 num_rows))).

Definition write_bytes_array (nulls : option BitBuffer) (offsets data : list Z)
    (opt : TransposeOpt) : Result (list Z) :=
  n ← write_nulls nulls;
  o ← write_offsets offsets opt;
  first_offset ← index offsets 0;
  last_offset ← index offsets (length offsets - 1);
  d ← subslice data (as_usize first_offset) (as_usize last_offset);
  Ok (n ++ o ++ d).

Definition read_bytes_array (utf8 : bool) (num_rows : nat) (opt : TransposeOpt)
    : Reader Array :=
  null_buffer ← read_nulls num_rows;
  offsets ← read_offsets num_rows opt;
  values_len ← rlift (index offsets (length offsets - 1));
  data ← read_bytes_slice (as_usize values_len);
  rlift (try_new (BytesArray utf8 null_buffer offsets data)).

(** ** Nested arrays; [write_array] and [read_array] are the recursive calls *)

Definition span_len (first_offset last_offset : Z) : nat :=
  as_usize (usize last_offset - usize first_offset).

Definition write_list_array (write_array : Array → TransposeOpt → Result (list Z))
    (item : DataType) (nulls : option BitBuffer) (offsets : list Z) (values : Array)
    (opt : TransposeOpt) : Result (list Z) :=
  n ← write_nulls nulls;
  o ← write_offsets offsets opt;
  first_offset ← index offsets 0;
  last_offset ← index offsets (length offsets - 1);
  let values := slice values (as_usize first_offset) (span_len first_offset last_offset) in
  v ← write_array values (with_transpose (alen values) [item]);
  Ok (n ++ o ++ v).

Definition read_list_array (read_array : nat → TransposeOpt → Reader Array)
    (nullable : bool) (item : DataType) (num_rows : nat) (opt : TransposeOpt)
    : Reader Array :=
  null_buffer ← read_nulls num_rows;
  offsets ← read_offsets num_rows opt;
  values_len ← rlift (index offsets (length offsets - 1));
  let values_len := as_usize values_len in
  values ← read_array values_len (with_transpose values_len [item]);
  rlift (try_new (ListArray nullable item null_buffer offsets values)).

Definition write_map_array (write_array : Array → TransposeOpt → Result (list Z))
    (data_type : DataType) (nulls : option BitBuffer) (offsets : list Z)
    (entries : list Array) (opt : TransposeOpt) : Result (list Z) :=
  n ← write_nulls nulls;
  o ← write_offsets offsets opt;
  first_offset ← index offsets 0;
  last_offset ← index offsets (length offsets - 1);
  let entries_len := span_len first_offset last_offset in
  keys ← index entries 0;
  values ← index entries 1;
  let keys := slice keys (as_usize first_offset) entries_len in
  let values := slice values (as_usize first_offset) entries_len in
  let child_opt := with_transpose entries_len [data_type] in
  k ← write_array keys child_opt;
  v ← write_array values child_opt;
  Ok (n ++ o ++ k ++ v).

(** [kv_fields] is [None] when the map's field is not a struct ([unreachable!]). *)
Definition read_map_array (nullable : bool) (entries : DataType) (sorted : bool)
    (kv_fields : option (list (bool * DataType)))
    (read_columns : nat → TransposeOpt → Reader (list Array))
    (num_rows : nat) (opt : TransposeOpt) : Reader Array :=
  null_buffer ← read_nulls num_rows;
  offsets ← read_offsets num_rows opt;
  entries_len ← rlift (index offsets (length offsets - 1));
  let entries_len := as_usize entries_len in
  match kv_fields with
  | None => rlift Panic
  | Some fields =>
    key_values ← read_columns entries_len (with_transpose entries_len [entries]);
    struct_array ← rlift (try_new (StructArray fields None entries_len key_values));
    rlift (try_new (MapArray nullable fields sorted null_buffer offsets entries_len key_values))
  end.

Definition write_columns (write_array : Array → TransposeOpt → Result (list Z))
    (opt : TransposeOpt) : list Array → Result (list Z) :=
  fix go cs := match cs with
  | [] => Ok []
  | c :: cs => b ← write_array c opt; bs ← go cs; Ok (b ++ bs)
  end.

Definition write_struct_array (write_array : Array → TransposeOpt → Result (list Z))
    (nulls : option BitBuffer) (columns : list Array) (opt : TransposeOpt)
    : Result (list Z) :=
  n ← write_nulls nulls;
  c ← write_columns write_array opt columns;
  Ok (n ++ c).

Definition read_struct_array (fields : list (bool * DataType))
    (read_columns : nat → TransposeOpt → Reader (list Array))
    (num_rows : nat) (opt : TransposeOpt) : Reader Array :=
  null_buffer ← read_nulls num_rows;
  child_arrays ← read_columns num_rows opt;
  rlift (try_new (StructArray fields null_buffer num_rows child_arrays)).

(** [write_array]: the dispatch on [data_type] is the array's constructor; a
    slice is not a subterm, so the recursion is bounded by the type's depth. *)
Fixpoint write_array_fuel (fuel : nat) (a : Array) (opt : TransposeOpt) : Result (list Z) :=
  match fuel with
  | O => Diverge
  | S fuel =>
    match a with
    | NullArray _ => Ok []
    | BooleanArray nl v => write_boolean_array nl v
    | PrimitiveArray t nl vs => write_primitive_array t nl vs opt
    | BytesArray _ nl o d => write_bytes_array nl o d opt
    | ListArray _ d nl o v => write_list_array (write_array_fuel fuel) d nl o v opt
    | MapArray _ _ _ nl o _ cs =>
        write_map_array (write_array_fuel fuel) (data_type a) nl o cs opt
    | StructArray _ nl _ cs => write_struct_array (write_array_fuel fuel) nl cs opt
    | OtherArray _ _ => Err (NotImplemented "unsupported data type")
    end
  end.

Definition write_array (a : Array) (opt : TransposeOpt) : Result (list Z) :=
  write_array_fuel (S (dt_depth (data_type a))) a opt.

Fixpoint read_array (dt : DataType) (num_rows : nat) (opt : TransposeOpt) : Reader Array :=
  match dt with
  | Null => mret (NullArray num_rows)
  | Boolean => read_boolean_array num_rows
  | Primitive t =>
      a ← read_primitive_array t num_rows opt;
      match t with
      | Decimal128 prec scale => rlift (with_precision_and_scale a prec scale)
      | _ => mret a
      end
  | Utf8 => read_bytes_array true num_rows opt
  | Binary => read_bytes_array false num_rows opt
  | List nb d => read_list_array (read_array d) nb d num_rows opt
  | Map nb d s =>
      match d with
      | Struct fs => read_map_array nb d s (Some fs)
          (λ n opt, read_all (λ f, read_array f.2 n opt) fs) num_rows opt
      | _ => read_map_array nb d s None (λ _ _, mret []) num_rows opt
      end
  | Struct fs =>
      read_struct_array fs (λ n opt, read_all (λ f, read_array f.2 n opt) fs) num_rows opt
  | Unsupported _ => rlift (Err (NotImplemented "unsupported data type"))
  end.

(** ** Batches *)

Definition write_batch (num_rows : nat) (cols : list Array) : Result (list Z) :=
  n ← write_len (Z.of_nat num_rows);
  let opt := with_transpose num_rows (data_type <$> cols) in
  c ← write_columns write_array opt cols;
  Ok (n ++ c).

Definition read_batch (schema : list DataType) : Reader (option (nat * list Array)) :=
  λ input,
  match read_len input with
  | Ok (n, input) =>
      (let num_rows := Z.to_nat n in
       let opt := with_transpose num_rows schema in
       cols ← read_all (λ dt, read_array dt num_rows opt) schema;
       mret (Some (num_rows, cols))) input
  | Err UnexpectedEof => Ok (None, [])
  | Err e => Err e
  | Panic => Panic
  | Undef => Undef
  | Diverge => Diverge
  end.

(** ** Buffers: what is written is read back *)

Lemma bit_at_zeros n i : bit_at (replicate n 0%Z) i = false.
Proof.
  unfold bit_at. destruct (replicate n 0%Z !! (i / 8)) eqn:E; [|done].
  apply lookup_replicate in E as [-> _]. apply Z.testbit_0_l.
Qed.

Lemma div_ceil_8 n : n ≤ 8 * div_ceil n 8.
Proof.
  unfold div_ceil. pose proof (Nat.div_mod (n + (8 - 1)) 8 ltac:(lia)).
  pose proof (Nat.mod_upper_bound (n + (8 - 1)) 8 ltac:(lia)). lia.
Qed.

Lemma write_bits_buffer_spec b :
  bits_wf b →
  ∃ out, write_bits_buffer (bb_buffer b) (bb_offset b) (bb_len b) = Ok out ∧
    bytes_ok out ∧ length out = div_ceil (bb_len b) 8 ∧
    ∀ i, i < bb_len b → bit_at out i = bits_at b i.
Proof.
  intros [Hok Hlen]. unfold write_bits_buffer.
  destruct (rfoldM_inv (λ out rest, ∃ k, rest = seq k (bb_len b - k) ∧
      bytes_ok out ∧ length out = div_ceil (bb_len b) 8 ∧
      ∀ i, bit_at out i = bool_decide (i < k) && bits_at b i)
    (λ out_buffer i, bit ← get_bit_unsafe (bb_buffer b) (bb_offset b + i);
      if bit : bool then set_bit_unsafe out_buffer i else Ok out_buffer)
    (replicate (div_ceil (bb_len b) 8) 0%Z) (range 0 (bb_len b)))
    as (out & -> & k & Hk & Hok' & Hl & Hbits).
  - exists 0. split_and!; [done| |by rewrite length_replicate|].
    + apply Forall_replicate. unfold byte_ok. lia.
    + intros i. by rewrite bit_at_zeros.
  - intros out x rest (k & Hk & Ho & Hl & Hbits).
    destruct (bb_len b - k) as [|m] eqn:Em; [done|]. injection Hk as -> ->.
    pose proof (div_ceil_8 (bb_len b)). unfold get_bit_unsafe.
    rewrite decide_True by lia. cbn [mbind Result_bind]. rewrite get_bit_law by lia.
    replace m with (bb_len b - S k) by lia.
    assert (∀ i, bool_decide (i < S k) && bits_at b i
      = bool_decide (i = k) && bits_at b k || bool_decide (i < k) && bits_at b i) as Hs.
    { intros i. destruct (decide (i = k)) as [->|].
      - rewrite (bool_decide_eq_true_2 (k < S k)), (bool_decide_eq_false_2 (k < k)),
          (bool_decide_eq_true_2 (k = k)) by lia. by rewrite orb_false_r.
      - rewrite (bool_decide_eq_false_2 (i = k)) by done. cbn. f_equal.
        apply bool_decide_ext. lia. }
    fold (bits_at b k). destruct (bits_at b k) eqn:Eb.
    + unfold set_bit_unsafe. rewrite decide_True by lia.
      destruct (set_bit_law out k) as (? & ? & Hset); [done|lia|].
      eexists. split; [done|]. exists (S k). split_and!; [done|done|lia|].
      intros i. by rewrite Hset, Hs, Hbits, andb_true_r.
    + eexists. split; [done|]. exists (S k). split_and!; [done|done|lia|].
      intros i. by rewrite Hs, Hbits, andb_false_r.
  - exists out. split_and!; [done..|]. intros i Hi. rewrite Hbits.
    rewrite bool_decide_eq_true_2; [done|]. destruct (bb_len b - k) eqn:E; [lia|done].
Qed.

Lemma mkBits_wf out n :
  bytes_ok out → length out = div_ceil n 8 → bits_wf (mkBits out 0 n).
Proof. intros Ho Hl. split; cbn; [done|]. rewrite Hl. apply div_ceil_8. Qed.

Lemma nulls_roundtrip nulls n :
  nulls_wf nulls n →
  ∃ bs, write_nulls nulls = Ok bs ∧ ∀ rest, ∃ nulls',
    read_nulls n (bs ++ rest) = Ok (nulls', rest) ∧ nulls_wf nulls' n ∧
    ∀ i, i < n → null_at nulls' i = null_at nulls i.
Proof.
  assert (in_u 64 1 ∧ in_u 64 0) as [H1 H0] by (unfold in_u; lia).
  unfold nulls_wf, write_nulls, read_nulls. destruct nulls as [b|].
  - intros [Hb <-]. destruct (write_bits_buffer_spec b Hb) as (out & -> & Hok & Hlen & Hbits).
    rewrite write_len_Ok by done. cbn [mbind Result_bind]. eexists. split; [done|].
    intros rest. exists (Some (mkBits out 0 (bb_len b))). rewrite <- app_assoc.
    erewrite reader_bind_Ok by (by apply read_len_app). rewrite decide_True by done.
    erewrite reader_bind_Ok by (by apply read_exact_app). split; [done|].
    split; [by split; [apply mkBits_wf|]|].
    intros i Hi. unfold null_at, bits_at at 1. cbn. by rewrite Hbits.
  - intros _. rewrite write_len_Ok by done. eexists. split; [done|].
    intros rest. exists None. erewrite reader_bind_Ok by (by apply read_len_app). done.
Qed.

Lemma transpose_involutive l w h :
  length l = w * h → transpose (transpose l w h) h w = l.
Proof.
  intros Hl. destruct (transpose_law l w h Hl) as [Hl1 H1].
  destruct (transpose_law (transpose l w h) h w) as [Hl2 H2]; [lia|].
  apply list_eq. intros i. destruct (decide (i < w * h)) as [Hi|].
  2: by rewrite !lookup_ge_None_2 by lia.
  assert (w ≠ 0) by lia. pose proof (Nat.div_mod i w ltac:(done)) as Hdm.
  pose proof (Nat.mod_upper_bound i w ltac:(done)).
  assert (i / w < h) by (apply Nat.Div0.div_lt_upper_bound; lia).
  replace i with (i / w * w + i mod w) by lia.
  rewrite H2 by done. by rewrite H1.
Qed.

Definition room (opt : TransposeOpt) (w n : nat) : Prop :=
  match opt with Disabled => True | Transpose cap => w * n ≤ cap end.
(** Writer and reader agree on whether to transpose. *)
Definition same_mode (opt opt' : TransposeOpt) : Prop :=
  match opt, opt' with
  | Disabled, Disabled => True | Transpose _, Transpose _ => True | _, _ => False
  end.

Lemma room_le opt w w' n : w' ≤ w → room opt w n → room opt w' n.
Proof. destruct opt; cbn; [done|]. nia. Qed.

Lemma with_transpose_room n ds d w :
  d ∈ ds → w ≤ data_type_bytes_width d → room (with_transpose n ds) w n.
Proof.
  intros Hd Hw. cbn. rewrite Nat.mul_comm. apply Nat.mul_le_mono_l.
  pose proof (proj1 (list_max_le (data_type_bytes_width <$> ds) _) (Nat.le_refl _)) as Hm.
  apply List.Forall_forall with (x := data_type_bytes_width d) in Hm; [lia|].
  apply list_elem_of_In. by apply list_elem_of_fmap_2.
Qed.

Lemma raw_roundtrip raw w n opt :
  length raw = w * n → room opt w n →
  ∃ bs, write_raw raw w n opt = Ok bs ∧ ∀ opt' rest, room opt' w n → same_mode opt opt' →
    read_raw w n opt' (bs ++ rest) = Ok (raw, rest).
Proof.
  intros Hl Hr. unfold write_raw, read_raw. destruct opt as [|cap]; cbn in Hr.
  - eexists. split; [done|]. intros [|cap'] rest Hr' Hm; [|done]. by apply read_exact_app.
  - rewrite decide_True by done. eexists. split; [done|].
    intros [|cap'] rest Hr' Hm; [done|]. cbn in Hr'. rewrite decide_True by done.
    erewrite reader_bind_Ok by (apply read_exact_app, transpose_law; done).
    by rewrite transpose_involutive.
Qed.

Lemma length_to_raw w vs : length (to_raw w vs) = w * length vs.
Proof.
  unfold to_raw. induction vs as [|v vs IH]; [cbn; lia|].
  cbn [fmap list_fmap concat]. rewrite length_app, length_le_bytes, IH. cbn. lia.
Qed.

Lemma from_to_raw w vs :
  from_raw w (length vs) (to_raw w vs) = wrapu (8 * Z.of_nat w) <$> vs.
Proof.
  unfold from_raw, to_raw. induction vs as [|v vs IH]; [done|].
  cbn [length seq]. rewrite fmap_cons, <- fmap_S_seq, <- list_fmap_compose.
  cbn [fmap list_fmap concat]. f_equal.
  - rewrite Nat.mul_0_r, drop_0, take_app_length' by (by rewrite length_le_bytes).
    apply le_val_le_bytes.
  - etransitivity; [|exact IH]. apply list_fmap_ext. intros i x _. unfold compose.
    f_equal. f_equal. replace (w * S x) with (length (le_bytes w v) + w * x)
      by (rewrite length_le_bytes; lia). by rewrite drop_app_add.
Qed.

(** ** Offsets *)

Definition lens_of (o : list Z) : list Z := zip_with (λ beg end_, i32 (end_ - beg)) o (tail o).
(** The offsets that are read back start at 0. *)
Definition shift (o : list Z) : list Z := (λ x, x - nth 0 o 0)%Z <$> o.

Lemma accumulate_lens x o c :
  Forall (λ y, 0 <= y < 2 ^ 31)%Z (x :: o) → (0 <= c <= x)%Z →
  (∀ i, S i < length (x :: o) → off (x :: o) i ≤ off (x :: o) (S i)) →
  accumulate (x - c) (lens_of (x :: o) ++ [0%Z]) = (λ y, y - c)%Z <$> (x :: o).
Proof.
  revert x. induction o as [|y o IH]; intros x Hb Hc Hmono.
  - apply Forall_cons in Hb as [Hx _]. cbn [lens_of zip_with tail app accumulate].
    assert (in_s 32 (x - c)) by (unfold in_s; lia). unfold i32.
    rewrite Z.add_0_r, !wraps_id by (rewrite ?Z.sub_0_r, ?wraps_id; done || lia).
    by rewrite Z.sub_0_r.
  - apply Forall_cons in Hb as [Hx Hb]. pose proof Hb as [Hy _]%Forall_cons.
    assert (x <= y)%Z as Hxy.
    { specialize (Hmono 0 ltac:(cbn; lia)). unfold off in Hmono. cbn in Hmono. lia. }
    change (lens_of (x :: y :: o)) with (i32 (y - x) :: lens_of (y :: o)).
    rewrite <- app_comm_cons. cbn [accumulate]. unfold i32.
    rewrite (wraps_id 32 (y - x)) by (unfold in_s; lia).
    replace (x - c + (y - x))%Z with (y - c)%Z by lia.
    rewrite (wraps_id 32 (y - c)) by (unfold in_s; lia).
    replace (y - c - (y - x))%Z with (x - c)%Z by lia.
    rewrite (wraps_id 32 (x - c)) by (unfold in_s; lia).
    rewrite fmap_cons. f_equal. apply IH; [done|lia|].
    intros i Hi. specialize (Hmono (S i)). cbn in Hmono, Hi. apply Hmono. lia.
Qed.

Lemma length_lens_of o : length (lens_of o) = length o - 1.
Proof.
  unfold lens_of. rewrite length_zip_with, length_tl. lia.
Qed.

Lemma offsets_roundtrip o n opt :
  offsets_wf o n → room opt 4 (length o - 1) →
  ∃ bs, write_offsets o opt = Ok bs ∧
    ∀ opt' rest, room opt' 4 (length o - 1) → same_mode opt opt' →
      read_offsets (length o - 1) opt' (bs ++ rest) = Ok (shift o, rest).
Proof.
  intros [Hl Hb Hmono Hend] Hr. unfold write_offsets, read_offsets.
  rewrite bool_decide_eq_true_2 by done. cbn [rassert mbind Result_bind].
  fold (lens_of o). rewrite length_lens_of.
  destruct (raw_roundtrip (to_raw 4 (lens_of o)) 4 (length o - 1) opt)
    as (bs & -> & Hrd); [|done|].
  { by rewrite length_to_raw, length_lens_of. }
  exists bs. split; [done|]. intros opt' rest Hr' Hm.
  erewrite reader_bind_Ok by (by apply Hrd).
  rewrite <- length_lens_of, from_to_raw. cbn [mret Reader_ret].
  assert (i32 <$> (wrapu (8 * Z.of_nat 4) <$> lens_of o) = lens_of o) as ->.
  { rewrite <- list_fmap_compose. rewrite <- (list_fmap_id (lens_of o)) at 2.
    apply list_fmap_ext. intros i x Hx. unfold compose, i32.
    change (8 * Z.of_nat 4)%Z with 32%Z. rewrite wraps_wrapu by lia.
    unfold lens_of in Hx. apply lookup_zip_with_Some in Hx as (a & b & -> & _).
    unfold i32. by rewrite wraps_wraps. }
  unfold mret, Reader_ret. do 2 f_equal. unfold shift. destruct o as [|x o]; [cbn in Hl; lia|].
  cbn [nth]. rewrite <- (Z.sub_diag x) at 1. apply accumulate_lens; [done| |done].
  apply Forall_cons in Hb as [Hx _]. lia.
Qed.

Lemma index_nth {A} (l : list A) i d : i < length l → index l i = Ok (nth i l d).
Proof.
  intros Hi. apply index_Ok. destruct (lookup_lt_is_Some_2 l i Hi) as [x Hx].
  rewrite nth_lookup, Hx. done.
Qed.

Lemma nth_off o n i : offsets_wf o n → (0 <= nth i o 0 < 2 ^ 31)%Z.
Proof.
  intros Ho. pose proof (ow_i32 _ _ Ho) as Hb. rewrite nth_lookup.
  destruct (o !! i) eqn:E; [|cbn; lia]. cbn.
  eapply (Forall_lookup_1 _ _ _ _ Hb) in E. lia.
Qed.

Lemma as_usize_off o n i : offsets_wf o n → as_usize (nth i o 0%Z) = off o i.
Proof.
  intros Ho. pose proof (nth_off _ _ i Ho). unfold as_usize, off, usize.
  by rewrite wrapu_id by (unfold in_u; lia).
Qed.

Lemma span_len_off o n i j :
  offsets_wf o n → off o i ≤ off o j →
  span_len (nth i o 0%Z) (nth j o 0%Z) = off o j - off o i.
Proof.
  intros Ho Hle. pose proof (nth_off _ _ i Ho). pose proof (nth_off _ _ j Ho).
  unfold span_len, as_usize, off, usize in *.
  rewrite (wrapu_id 64 (nth j o 0%Z)), (wrapu_id 64 (nth i o 0%Z)) by (unfold in_u; lia).
  rewrite wrapu_id by (unfold in_u; lia). lia.
Qed.

Lemma length_shift o : length (shift o) = length o.
Proof. unfold shift. by rewrite length_fmap. Qed.

Lemma nth_shift o i :
  i < length o → nth i (shift o) 0%Z = (nth i o 0 - nth 0 o 0)%Z.
Proof.
  intros Hi. rewrite !(nth_lookup _ i). unfold shift. rewrite list_lookup_fmap.
  destruct (lookup_lt_is_Some_2 o i Hi) as [x ->]. done.
Qed.

Lemma off_shift o n i : offsets_wf o n → i < length o → off (shift o) i = off o i - off o 0.
Proof.
  intros Ho Hi. pose proof (nth_off _ _ 0 Ho). pose proof (nth_off _ _ i Ho).
  pose proof (off_mono _ _ 0 i Ho ltac:(lia) Hi) as Hm.
  unfold off in *. rewrite nth_shift by done. lia.
Qed.

Definition span (o : list Z) : nat := off o (length o - 1) - off o 0.

Lemma span_bound o n : offsets_wf o n → off o 0 + span o ≤ n.
Proof.
  intros Ho. pose proof (off_mono _ _ 0 (length o - 1) Ho ltac:(lia)).
  pose proof (ow_len _ _ Ho). pose proof (ow_end _ _ Ho). unfold span. lia.
Qed.

Lemma shift_wf o n : offsets_wf o n → offsets_wf (shift o) (span o).
Proof.
  intros Ho. pose proof (ow_len _ _ Ho). split; rewrite ?length_shift; [done| | |].
  - unfold shift. apply Forall_fmap, Forall_lookup. intros i x Hx. cbn.
    pose proof (lookup_lt_Some _ _ _ Hx) as Hi.
    pose proof (off_mono _ _ 0 i Ho ltac:(lia) Hi) as Hm.
    pose proof (nth_off _ _ 0 Ho). pose proof (nth_off _ _ i Ho) as Hx'. unfold off in Hm.
    rewrite (nth_lookup _ i), Hx in Hm, Hx'. cbn [default from_option id] in Hm, Hx'. lia.
  - intros i Hi. rewrite !(off_shift _ _ _ Ho) by lia.
    pose proof (ow_mono _ _ Ho i Hi). lia.
  - rewrite (off_shift _ _ _ Ho) by lia. done.
Qed.

(** A sub-range of a compacted child is the sub-range of the child. *)
Lemma sub_compact {A} (l : list A) f m a b :
  f ≤ a → a ≤ b → b ≤ f + m → sub (take m (drop f l)) (a - f) (b - f) = sub l a b.
Proof.
  intros. unfold sub. replace m with (a - f + (m - (a - f))) by lia.
  rewrite <- take_drop_commute, drop_drop, take_take. f_equal; [lia|]. f_equal. lia.
Qed.

Lemma sub_shift {A} (l : list A) o n i :
  offsets_wf o n → i < length o - 1 →
  sub (take (span o) (drop (off o 0) l)) (off (shift o) i) (off (shift o) (S i))
  = sub l (off o i) (off o (S i)).
Proof.
  intros Ho Hi. rewrite !(off_shift _ _ _ Ho) by lia.
  pose proof (off_mono _ _ 0 i Ho ltac:(lia) ltac:(lia)).
  pose proof (off_mono _ _ i (S i) Ho ltac:(lia) ltac:(lia)).
  pose proof (off_mono _ _ (S i) (length o - 1) Ho ltac:(lia) ltac:(lia)).
  unfold span. apply sub_compact; lia.
Qed.

(** ** Round trip of arrays *)

(** [write_array] of an array of type [dt] succeeds when the scratch buffer has
    room, and [read_array] gives an equivalent array back. *)
Definition serde_ok (dt : DataType) : Prop :=
  ∀ a fuel opt, data_type a = dt → wf a → dt_depth dt < fuel →
  room opt (data_type_bytes_width dt) (alen a) →
  ∃ bs, write_array_fuel fuel a opt = Ok bs ∧
  ∀ opt' rest, room opt' (data_type_bytes_width dt) (alen a) → same_mode opt opt' →
  ∃ a', read_array dt (alen a) opt' (bs ++ rest) = Ok (a', rest) ∧ wf a' ∧ same_rows a' a.

Lemma rlift_Ok {A} (x : A) inp : rlift (Ok x) inp = Ok (x, inp).
Proof. done. Qed.

Lemma null_serde : serde_ok Null.
Proof.
  intros a [|fuel] opt Hd Hwf Hf _; [lia|]. destruct a; try done; [|by destruct utf8].
  exists []. split; [done|]. intros opt' rest _ _. by exists (NullArray n).
Qed.

Lemma boolean_serde : serde_ok Boolean.
Proof.
  intros a [|fuel] opt Hd Hwf Hf _; [lia|]. destruct a as [| nl v| | | | | |]; try done;
    [|by destruct utf8]. destruct Hwf as [Hnl Hv]. cbn [write_array_fuel alen].
  unfold write_boolean_array. destruct (nulls_roundtrip _ _ Hnl) as (bn & -> & Hrn).
  destruct (write_bits_buffer_spec v Hv) as (out & -> & Hok & Hlen & Hbits).
  cbn [mbind Result_bind]. eexists. split; [done|]. intros opt' rest _ _.
  rewrite <- app_assoc. destruct (Hrn (out ++ rest)) as (nl' & Hr & Hnl' & Hnull).
  cbn [read_array]. unfold read_boolean_array. erewrite reader_bind_Ok by exact Hr.
  erewrite reader_bind_Ok by (by apply read_exact_app).
  set (a' := BooleanArray nl' _).
  assert (wf a') as Hwf' by (split; [done|by apply mkBits_wf]).
  rewrite try_new_law, rlift_Ok by done. exists a'. split_and!; [done..|].
  split; [done|done|exact Hnull|]. apply mask_ext; [exact Hnull|].
  intros i Hi. f_equal. unfold bits_at at 1. cbn. by apply Hbits.
Qed.

Lemma prim_room t opt n :
  room opt (data_type_bytes_width (Primitive t)) n → room (prim_opt t opt) (byte_width t) n.
Proof.
  unfold prim_opt. case_decide as E; [|done]. apply room_le.
  destruct t; try reflexivity; cbn in E; lia.
Qed.

Lemma prim_same_mode t opt opt' :
  same_mode opt opt' → same_mode (prim_opt t opt) (prim_opt t opt').
Proof. unfold prim_opt. by case_decide. Qed.

Lemma prim_values_read t vs :
  Forall (in_u (8 * Z.of_nat (byte_width t))) vs →
  from_raw (byte_width t) (length vs) (to_raw (byte_width t) vs) = vs.
Proof.
  intros Hvs. rewrite from_to_raw. rewrite <- (list_fmap_id vs) at 2.
  apply list_fmap_ext. intros i x Hx. apply wrapu_id.
  by apply (Forall_lookup_1 _ _ _ _ Hvs Hx).
Qed.

Lemma primitive_serde t : supported (Primitive t) → serde_ok (Primitive t).
Proof.
  intros Hsup a [|fuel] opt Hd Hwf Hf Hroom; [lia|].
  destruct a as [| |t' nl vs| | | | |]; try done; [|by destruct utf8].
  cbn in Hd. injection Hd as ->. destruct Hwf as (Hnl & Hval & Hvs).
  cbn [write_array_fuel alen] in *. unfold write_primitive_array.
  destruct (nulls_roundtrip _ _ Hnl) as (bn & -> & Hrn).
  destruct (raw_roundtrip (to_raw (byte_width t) vs) (byte_width t) (length vs) (prim_opt t opt))
    as (bv & -> & Hrv); [apply length_to_raw|by apply prim_room|].
  cbn [mbind Result_bind]. eexists. split; [done|]. intros opt' rest Hroom' Hmode.
  rewrite <- app_assoc. destruct (Hrn (bv ++ rest)) as (nl' & Hr & Hnl' & Hnull).
  assert (wf (PrimitiveArray (DATA_TYPE t) nl' vs)) as Hwf1
    by (destruct t; cbn in *; split_and!; done || lia).
  assert (read_primitive_array t (length vs) opt' (bn ++ bv ++ rest)
    = Ok (PrimitiveArray (DATA_TYPE t) nl' vs, rest)) as Hread.
  { unfold read_primitive_array. erewrite reader_bind_Ok by exact Hr.
    erewrite reader_bind_Ok by (apply Hrv; [by apply prim_room|by apply prim_same_mode]).
    rewrite prim_values_read by done. by rewrite try_new_law. }
  exists (PrimitiveArray t nl' vs). cbn [read_array]. split_and!.
  - erewrite reader_bind_Ok by exact Hread.
    destruct t; try done; cbn [DATA_TYPE]; [|cbn in Hsup; by subst].
    by rewrite with_precision_and_scale_law.
  - done.
  - split; [done..|exact Hnull|]. by apply mask_ext; [exact Hnull|].
Qed.

(** The common part of byte, list and map arrays. *)
Lemma index_last_shift o n :
  offsets_wf o n → index (shift o) (length (shift o) - 1) = Ok (nth (length o - 1) (shift o) 0%Z) ∧
    as_usize (nth (length o - 1) (shift o) 0%Z) = span o.
Proof.
  intros Ho. pose proof (ow_len _ _ Ho). rewrite length_shift. split.
  - apply index_nth. rewrite length_shift. lia.
  - rewrite (as_usize_off _ _ _ (shift_wf _ _ Ho)), (off_shift _ _ _ Ho) by lia. done.
Qed.

Lemma bytes_serde (u : bool) : serde_ok (if u then Utf8 else Binary).
Proof.
  intros a [|fuel] opt Hd Hwf Hf Hroom; [lia|].
  destruct a as [| | |u' nl o d| | | |]; try (by destruct u).
  assert (u' = u) as -> by (by destruct u', u). clear Hd.
  destruct Hwf as (Hnl & Ho & Hok & Hutf). cbn [write_array_fuel alen] in *.
  assert (∀ opt, room opt (data_type_bytes_width (if u then Utf8 else Binary)) (length o - 1) →
    room opt 4 (length o - 1)) as Hroom4 by (by destruct u).
  unfold write_bytes_array. pose proof (ow_len _ _ Ho) as Hlen.
  destruct (nulls_roundtrip _ _ Hnl) as (bn & -> & Hrn).
  destruct (offsets_roundtrip _ _ opt Ho (Hroom4 _ Hroom)) as (bo & -> & Hro).
  cbn [mbind Result_bind]. rewrite !(index_nth _ _ 0%Z) by lia. cbn [mbind Result_bind].
  rewrite !(as_usize_off _ _ _ Ho). unfold subslice.
  rewrite decide_True by (split; [apply (off_mono _ _ _ _ Ho); lia|apply (ow_end _ _ Ho)]).
  cbn [mbind Result_bind]. eexists. split; [done|]. intros opt' rest Hroom' Hmode.
  rewrite <- !app_assoc. set (dat := sub d _ _). fold (span o) in dat.
  destruct (Hrn (bo ++ dat ++ rest)) as (nl' & Hr & Hnl' & Hnull).
  assert (length dat = span o) as Hdat.
  { unfold dat, sub. rewrite length_take, length_drop. fold (span o).
    pose proof (span_bound _ _ Ho). lia. }
  assert (∀ i, i < length o - 1 → sub dat (off (shift o) i) (off (shift o) (S i))
    = sub d (off o i) (off o (S i))) as Hsub by (intros; by eapply sub_shift).
  set (a' := BytesArray u nl' (shift o) dat).
  assert (wf a') as Hwf'.
  { cbn. rewrite length_shift, Hdat. split_and!; [done|by eapply shift_wf| |].
    - unfold dat, sub. by apply Forall_take, Forall_drop.
    - intros Hu i Hi. rewrite Hsub by done. by apply Hutf. }
  assert (read_bytes_array u (length o - 1) opt' (bn ++ bo ++ dat ++ rest) = Ok (a', rest)) as Hread.
  { unfold read_bytes_array. erewrite reader_bind_Ok by exact Hr.
    erewrite reader_bind_Ok by (apply Hro; auto).
    destruct (index_last_shift _ _ Ho) as [-> Hspan]. rewrite (reader_bind_Ok _ _ _ _ _ (rlift_Ok _ _)).
    rewrite Hspan. erewrite reader_bind_Ok by (by apply read_exact_app).
    fold a'. by rewrite try_new_law. }
  exists a'. split_and!; [by destruct u|done|].
  split; [done|cbn; by rewrite length_shift|exact Hnull|]. cbn. rewrite length_shift.
  apply mask_ext; [exact Hnull|]. intros i Hi. by rewrite Hsub.
Qed.

Lemma width_list nb d : data_type_bytes_width (List nb d) = Nat.max (data_type_bytes_width d) 4.
Proof. done. Qed.

Lemma list_serde nb d : serde_ok d → serde_ok (List nb d).
Proof.
  intros IH a [|fuel] opt Hd Hwf Hf Hroom; [lia|].
  destruct a as [| | | |nb' d' nl o v| | |]; try done; [by destruct utf8|].
  cbn in Hd. injection Hd as -> ->. destruct Hwf as (Hnl & Ho & Htype & Hv & Hnn).
  cbn [write_array_fuel alen dt_depth] in *. rewrite width_list in *.
  assert (∀ opt, room opt (Nat.max (data_type_bytes_width d) 4) (length o - 1) →
    room opt 4 (length o - 1)) as Hroom4 by (intros ?; apply room_le; lia).
  unfold write_list_array. pose proof (ow_len _ _ Ho) as Hlen.
  destruct (nulls_roundtrip _ _ Hnl) as (bn & -> & Hrn).
  destruct (offsets_roundtrip _ _ opt Ho (Hroom4 _ Hroom)) as (bo & -> & Hro).
  cbn [mbind Result_bind]. rewrite !(index_nth _ _ 0%Z) by lia. cbn [mbind Result_bind].
  rewrite !(as_usize_off _ _ _ Ho), (span_len_off _ _ _ _ Ho)
    by (apply (off_mono _ _ _ _ Ho); lia). fold (span o).
  destruct (slice_law v (off o 0) (span o) Hv (span_bound _ _ Ho)) as [Swf Stype Slen Snull Srows].
  set (c := slice v (off o 0) (span o)) in *. rewrite Slen.
  destruct (IH c fuel (with_transpose (span o) [d])) as (bv & -> & Hrv);
    [congruence|done|lia|rewrite Slen; eapply with_transpose_room; [by left|done]|].
  cbn [mbind Result_bind]. eexists. split; [done|]. intros opt' rest Hroom' Hmode.
  rewrite <- !app_assoc. destruct (Hrn (bo ++ bv ++ rest)) as (nl' & Hr & Hnl' & Hnull).
  destruct (Hrv (with_transpose (span o) [d]) rest) as (c' & Hrc & Hwfc & [Rt Rl Rn Rr]);
    [rewrite Slen; eapply with_transpose_room; [by left|done]|done|].
  rewrite Slen in Hrc, Rl, Rn.
  set (a' := ListArray nb d nl' (shift o) c').
  assert (wf a') as Hwf'.
  { cbn [wf a']. rewrite length_shift, Rl. split_and!; [done|by eapply shift_wf|congruence|done|].
    intros Hnb i Hi. rewrite !(off_shift _ _ _ Ho) in Hi by lia. fold (span o) in Hi.
    rewrite Rn, Snull by lia. apply Hnn; [done|]. unfold span in Hi. lia. }
  exists a'. split_and!; [|done|].
  - cbn [read_array]. unfold read_list_array. erewrite reader_bind_Ok by exact Hr.
    erewrite reader_bind_Ok by (apply Hro; auto).
    destruct (index_last_shift _ _ Ho) as [-> Hspan].
    rewrite (reader_bind_Ok _ _ _ _ _ (rlift_Ok _ _)), Hspan.
    erewrite reader_bind_Ok by exact Hrc. fold a'. by rewrite try_new_law.
  - split; [done|cbn; by rewrite length_shift|exact Hnull|]. cbn. rewrite length_shift.
    apply mask_ext; [exact Hnull|]. intros i Hi. rewrite Rr, Srows. by erewrite sub_shift.
Qed.

(** ** Columns *)

Lemma write_columns_cons wr opt c cs :
  write_columns wr opt (c :: cs)
  = (b ← wr c opt; bs ← write_columns wr opt cs; Ok (b ++ bs)).
Proof. done. Qed.

Lemma read_all_cons {A B} (f : A → Reader B) x l :
  read_all f (x :: l) = (y ← f x; ys ← read_all f l; mret (y :: ys)).
Proof. done. Qed.

Lemma columns_serde pn n fs cs fuel opt :
  Forall (λ f, serde_ok f.2) fs → cols_wf wf pn n fs cs →
  Forall (λ f, dt_depth f.2 < fuel) fs →
  Forall (λ f, room opt (data_type_bytes_width f.2) n) fs →
  ∃ bs, write_columns (write_array_fuel fuel) opt cs = Ok bs ∧
  ∀ opt' rest, Forall (λ f, room opt' (data_type_bytes_width f.2) n) fs → same_mode opt opt' →
  ∃ cs', read_all (λ f, read_array f.2 n opt') fs (bs ++ rest) = Ok (cs', rest) ∧
    cols_wf wf pn n fs cs' ∧ Forall2 same_rows cs' cs.
Proof.
  intros Hser. revert cs. induction Hser as [|[nb d] fs Hd Hfs IH];
    intros [|c cs] Hwf Hfuel Hroom; try done.
  { exists []. split; [done|]. intros opt' rest _ _. by exists []. }
  destruct Hwf as [(Ht & Hl & Hc & Hnn) Hcs].
  apply Forall_cons in Hfuel as [Hf1 Hf2]. apply Forall_cons in Hroom as [Hr1 Hr2].
  cbn [snd] in *. destruct (Hd c fuel opt Ht Hc Hf1) as (b & Hb & Hrb); [by rewrite Hl|].
  destruct (IH cs Hcs Hf2 Hr2) as (bs & Hbs & Hrbs).
  exists (b ++ bs). rewrite write_columns_cons, Hb. cbn [mbind Result_bind].
  rewrite Hbs. cbn [mbind Result_bind]. split; [done|].
  intros opt' rest [Hr1' Hr2']%Forall_cons Hmode. cbn [snd] in *.
  destruct (Hrb opt' (bs ++ rest)) as (c' & Hrc & Hwfc & [Rt Rl Rn Rr]); [by rewrite Hl|done|].
  destruct (Hrbs opt' rest Hr2' Hmode) as (cs' & Hrcs & Hwfcs & Hsame).
  exists (c' :: cs'). rewrite Hl in Hrc, Rl, Rn. split_and!.
  - rewrite read_all_cons, <- app_assoc. erewrite reader_bind_Ok by exact Hrc.
    erewrite reader_bind_Ok by exact Hrcs. done.
  - split; [|done]. split_and!; [congruence|done|done|].
    intros Hnb i Hi. rewrite Rn by done. by apply Hnn.
  - constructor; [|done]. split; [done|congruence| |done]. rewrite Hl. done.
Qed.

Lemma fields_depth fs fuel :
  dt_depth (Struct fs) < S fuel → Forall (λ f, dt_depth f.2 < fuel) fs.
Proof.
  cbn [dt_depth]. intros Hf. apply Forall_forall. intros f Hin.
  assert (dt_depth f.2 ≤ list_max ((λ f, dt_depth f.2) <$> fs)); [|lia].
  pose proof (proj1 (list_max_le ((λ f, dt_depth f.2) <$> fs) _) (Nat.le_refl _)) as Hm.
  eapply List.Forall_forall in Hm; [exact Hm|]. apply list_elem_of_In.
  by apply (list_elem_of_fmap_2 (λ f, dt_depth f.2)).
Qed.

Lemma fields_room opt fs n :
  room opt (data_type_bytes_width (Struct fs)) n →
  Forall (λ f, room opt (data_type_bytes_width f.2) n) fs.
Proof.
  intros Hroom. apply Forall_forall. intros f Hin. eapply room_le; [|exact Hroom].
  change (data_type_bytes_width (Struct fs))
    with (list_max ((λ f : bool * DataType, data_type_bytes_width f.2) <$> fs)).
  pose proof (proj1 (list_max_le ((λ f : bool * DataType, data_type_bytes_width f.2) <$> fs) _)
    (Nat.le_refl _)) as Hm.
  eapply List.Forall_forall in Hm; [exact Hm|]. apply list_elem_of_In.
  by apply (list_elem_of_fmap_2 (λ f, data_type_bytes_width f.2)).
Qed.

Lemma cols_wf_impl (pn pn' : nat → bool) n fs cs :
  (∀ i, i < n → pn i = true → pn' i = true) → cols_wf wf pn n fs cs → cols_wf wf pn' n fs cs.
Proof.
  intros Hpn. revert fs. induction cs as [|c cs IH]; intros [|[nb d] fs]; cbn; try done.
  intros [(? & ? & ? & Hnn) Hcs]. split; [|by apply IH]. split_and!; auto.
Qed.

Lemma struct_serde fs : Forall (λ f, serde_ok f.2) fs → serde_ok (Struct fs).
Proof.
  intros IH a [|fuel] opt Hd Hwf Hf Hroom; [lia|].
  destruct a as [| | | | | |fs' nl n cs|]; try done; [by destruct utf8|].
  cbn in Hd. injection Hd as ->. destruct Hwf as (Hnl & Hcs).
  cbn [write_array_fuel alen] in *. unfold write_struct_array.
  destruct (nulls_roundtrip _ _ Hnl) as (bn & -> & Hrn).
  destruct (columns_serde _ _ _ _ fuel opt IH Hcs (fields_depth _ _ Hf) (fields_room _ _ _ Hroom))
    as (bc & -> & Hrc).
  cbn [mbind Result_bind]. eexists. split; [done|]. intros opt' rest Hroom' Hmode.
  rewrite <- !app_assoc. destruct (Hrn (bc ++ rest)) as (nl' & Hr & Hnl' & Hnull).
  destruct (Hrc opt' rest (fields_room _ _ _ Hroom') Hmode) as (cs' & Hrcs & Hwfcs & Hsame).
  set (a' := StructArray fs nl' n cs').
  assert (wf a') as Hwf'.
  { split; [done|]. eapply cols_wf_impl; [|exact Hwfcs]. intros i Hi. by rewrite Hnull. }
  exists a'. split_and!; [|done|].
  - cbn [read_array]. unfold read_struct_array. erewrite reader_bind_Ok by exact Hr.
    erewrite reader_bind_Ok by exact Hrcs. fold a'. by rewrite try_new_law.
  - split; [done|done|exact Hnull|]. cbn [rows a']. apply mask_ext; [exact Hnull|].
    intros i Hi. f_equal. clear - Hsame. induction Hsame as [|c' c cs' cs [_ _ _ Hr] _ IH]; [done|].
    rewrite !fmap_cons. f_equal; [by rewrite Hr|exact IH].
Qed.

(** The slices of the columns of a map's entries. *)
Lemma slice_cols pn n fs cs o l :
  cols_wf wf pn n fs cs → o + l ≤ n →
  cols_wf wf (λ i, pn (o + i)) l fs ((λ c, slice c o l) <$> cs) ∧
  Forall2 (λ c c', rows c' = take l (drop o (rows c))) cs ((λ c, slice c o l) <$> cs).
Proof.
  intros Hwf Hol. revert fs Hwf. induction cs as [|c cs IH]; intros [|[nb d] fs] Hwf; try done.
  destruct Hwf as [(Ht & Hl & Hc & Hnn) Hcs]. destruct (IH fs Hcs) as [IH1 IH2].
  destruct (slice_law c o l Hc ltac:(lia)) as [Swf Stype Slen Snull Srows].
  rewrite fmap_cons. split; [|by constructor]. split; [|done].
  split_and!; [congruence|done|done|].
  intros Hnb i Hi. rewrite Snull by done. apply Hnn; [done|lia].
Qed.

Lemma map_serde nb fs s : Forall (λ f, serde_ok f.2) fs → serde_ok (Map nb (Struct fs) s).
Proof.
  intros IH a [|fuel] opt Hd Hwf Hf Hroom; [lia|].
  destruct a as [| | | | |nb' fs' s' nl o n cs| |]; try done; [by destruct utf8|].
  cbn in Hd. injection Hd as -> -> ->. destruct Hwf as (Hnl & Ho & Hfs & Hcs).
  cbn [write_array_fuel alen] in *.
  assert (∀ opt, room opt (data_type_bytes_width (Map nb (Struct fs) s)) (length o - 1) →
    room opt 4 (length o - 1)) as Hroom4 by (intros ?; apply room_le; apply Nat.le_max_r).
  unfold write_map_array. pose proof (ow_len _ _ Ho) as Hlen.
  destruct (nulls_roundtrip _ _ Hnl) as (bn & -> & Hrn).
  destruct (offsets_roundtrip _ _ opt Ho (Hroom4 _ Hroom)) as (bo & -> & Hro).
  cbn [mbind Result_bind]. rewrite !(index_nth o _ 0%Z) by lia. cbn [mbind Result_bind].
  rewrite !(as_usize_off _ _ _ Ho), (span_len_off _ _ _ _ Ho)
    by (apply (off_mono _ _ _ _ Ho); lia). fold (span o).
  destruct (slice_cols _ _ _ _ (off o 0) (span o) Hcs (span_bound _ _ Ho)) as [Swf Srows].
  destruct (columns_serde _ _ _ _ fuel (with_transpose (span o) [Map nb (Struct fs) s]) IH Swf)
    as (bc & Hbc & Hrc).
  { apply fields_depth. cbn [dt_depth] in *. lia. }
  { apply fields_room. eapply with_transpose_room; [by left|apply Nat.le_max_l]. }
  destruct fs as [|[nb1 d1] [|[nb2 d2] [|]]]; try done.
  destruct cs as [|k [|v [|]]]; try (by repeat destruct Hcs as [_ Hcs]).
  cbn [index lookup list_lookup data_type mbind Result_bind].
  change ((λ c, slice c (off o 0) (span o)) <$> [k; v])
    with [slice k (off o 0) (span o); slice v (off o 0) (span o)] in *.
  rewrite !write_columns_cons in Hbc.
  apply bind_Ok in Hbc as (bk & Hk & Hbc). apply bind_Ok in Hbc as (bv' & Hbc & [= <-]).
  apply bind_Ok in Hbc as (bv & Hv & [= <-]). rewrite Hk. cbn [mbind Result_bind]. rewrite Hv.
  cbn [mbind Result_bind]. eexists. split; [done|]. intros opt' rest Hroom' Hmode.
  rewrite <- !app_assoc.
  destruct (Hrn (bo ++ bk ++ bv ++ rest)) as (nl' & Hr & Hnl' & Hnull).
  set (fs := [(nb1, d1); (nb2, d2)]) in *.
  destruct (Hrc (with_transpose (span o) [Struct fs]) rest) as (cs' & Hrcs & Hwfcs & Hsame).
  { apply fields_room. eapply with_transpose_room; [by left|done]. }
  { done. }
  set (a' := MapArray nb fs s nl' (shift o) (span o) cs').
  assert (wf a') as Hwf'.
  { cbn [wf a']. rewrite length_shift. split_and!; [done|by eapply shift_wf|done|exact Hwfcs]. }
  assert (wf (StructArray fs None (span o) cs')) as Hwfs by (split; [done|exact Hwfcs]).
  exists a'. split_and!; [|done|].
  - cbn [read_array]. unfold read_map_array. erewrite reader_bind_Ok by exact Hr.
    erewrite reader_bind_Ok by (apply Hro; auto).
    destruct (index_last_shift _ _ Ho) as [-> Hspan].
    rewrite (reader_bind_Ok _ _ _ _ _ (rlift_Ok _ _)), Hspan.
    rewrite app_nil_r, <- app_assoc in Hrcs.
    erewrite reader_bind_Ok by exact Hrcs. rewrite (try_new_law _ Hwfs).
    rewrite (reader_bind_Ok _ _ _ _ _ (rlift_Ok _ _)). fold a'. by rewrite try_new_law.
  - split; [done|cbn; by rewrite length_shift|exact Hnull|]. cbn [rows a']. rewrite length_shift.
    apply mask_ext; [exact Hnull|]. intros i Hi. f_equal.
    inversion Hsame as [|k' ? l1 ? [_ _ _ Rk] Hs2]; subst.
    inversion Hs2 as [|v' ? l2 ? [_ _ _ Rv] Hs3]; subst. inversion Hs3; subst.
    inversion Srows as [|? ? ? ? Sk Hs4]; subst. inversion Hs4 as [|? ? ? ? Sv _]; subst.
    cbn [fmap list_fmap]. rewrite Rk, Rv, Sk, Sv. by erewrite !sub_shift.
Qed.

(** ** All types *)

Lemma serde_all dt : supported dt → serde_ok dt.
Proof.
  enough (supported dt → serde_ok dt ∧
    match dt with Struct fs => Forall (λ f, serde_ok f.2) fs | _ => True end) as Hall
    by (intros Hs; by apply Hall).
  induction dt as [| |t| | |nb d IH|nb d s IH|fs IH|w] using DataType_nested_ind; intros Hs.
  - split; [apply null_serde|done].
  - split; [apply boolean_serde|done].
  - split; [by apply primitive_serde|done].
  - split; [apply (bytes_serde true)|done].
  - split; [apply (bytes_serde false)|done].
  - split; [apply list_serde; by apply IH|done].
  - split; [|done]. destruct d as [| | | | | | |fs|]; [..|by apply map_serde, IH|];
      intros [] fuel opt Hd; try done; by destruct utf8.
  - assert (Forall (λ f, serde_ok f.2) fs) as Hfs; [|by split; [apply struct_serde|]].
    clear -IH Hs. induction IH as [|f fs Hf _ IH]; [constructor|].
    destruct Hs as [Hs1 Hs2]. constructor; [by apply Hf|by apply IH].
  - done.
Qed.

Definition array_ok (a : Array) : Prop := wf a ∧ supported (data_type a).

(** Write_array of a well-formed array of a supported type (nulls, offsets, slices
    and nesting included) never fails or overruns the transpose buffer when that is
    large enough, and read_array returns an array with the same type, length, nulls and
    rows and consumes exactly the written bytes. *)
Theorem write_read_array_roundtrip a opt :
  array_ok a → room opt (data_type_bytes_width (data_type a)) (alen a) →
  ∃ bs, write_array a opt = Ok bs ∧ ∀ rest, ∃ a',
    read_array (data_type a) (alen a) opt (bs ++ rest) = Ok (a', rest) ∧
    wf a' ∧ same_rows a' a.
Proof.
  intros [Hwf Hs] Hroom. unfold write_array.
  destruct (serde_all _ Hs a (S (dt_depth (data_type a))) opt) as (bs & Hb & Hr);
    [done|done|lia|done|].
  exists bs. split; [done|]. intros rest. apply Hr; [done|]. by destruct opt.
Qed.

(** One column after the other, with the scratch buffer of the whole batch. *)
Lemma batch_columns n cols opt :
  Forall (λ a, array_ok a ∧ alen a = n ∧ room opt (data_type_bytes_width (data_type a)) n) cols →
  ∃ bs, write_columns write_array opt cols = Ok bs ∧ ∀ rest, ∃ cols',
    read_all (λ dt, read_array dt n opt) (data_type <$> cols) (bs ++ rest) = Ok (cols', rest) ∧
    Forall wf cols' ∧ Forall2 same_rows cols' cols.
Proof.
  induction 1 as [|c cs ([Hwf Hs] & Hl & Hroom) _ IH].
  { exists []. split; [done|]. intros rest. by exists []. }
  destruct IH as (bs & Hbs & Hrbs).
  destruct (serde_all _ Hs c (S (dt_depth (data_type c))) opt) as (b & Hb & Hrb);
    [done|done|lia|by rewrite Hl|].
  exists (b ++ bs). change (write_array c opt = Ok b) in Hb. rewrite write_columns_cons, Hb.
  cbn [mbind Result_bind]. rewrite Hbs. cbn [mbind Result_bind]. split; [done|]. intros rest.
  destruct (Hrb opt (bs ++ rest)) as (c' & Hrc & Hwfc & Hsc); [by rewrite Hl|by destruct opt|].
  destruct (Hrbs rest) as (cs' & Hrcs & Hwfcs & Hscs).
  exists (c' :: cs'). rewrite Hl in Hrc. split_and!; [|by constructor..].
  rewrite fmap_cons, read_all_cons, <- app_assoc. erewrite reader_bind_Ok by exact Hrc.
  erewrite reader_bind_Ok by exact Hrcs. done.
Qed.

Lemma write_read_batch num_rows cols :
  in_u 64 (Z.of_nat num_rows) → Forall (λ a, array_ok a ∧ alen a = num_rows) cols →
  ∃ bs, write_batch num_rows cols = Ok bs ∧ bs ≠ [] ∧ ∀ rest, ∃ cols',
    read_batch (data_type <$> cols) (bs ++ rest) = Ok (Some (num_rows, cols'), rest) ∧
    Forall wf cols' ∧ Forall2 same_rows cols' cols.
Proof.
  intros Hn Hcols. unfold write_batch, read_batch. rewrite write_len_Ok by done.
  set (opt := with_transpose num_rows (data_type <$> cols)).
  destruct (batch_columns num_rows cols opt) as (bs & -> & Hr).
  { apply Forall_forall. intros a Ha. rewrite Forall_forall in Hcols.
    destruct (Hcols a Ha) as [? Hl]. split_and!; [done..|].
    eapply with_transpose_room; [by apply list_elem_of_fmap_2|done]. }
  cbn [mbind Result_bind]. eexists. split; [done|]. split.
  { cbn [len_bytes write_len_fuel]. by case_bool_decide. }
  intros rest. rewrite <- app_assoc, read_len_app, Nat2Z.id by done.
  destruct (Hr rest) as (cols' & Hrd & Hwf & Hsame). exists cols'. split_and!; [|done..].
  fold opt. erewrite reader_bind_Ok by exact Hrd. done.
Qed.

(** C15: read_batch returns the batch that write_batch wrote, column by column with the
    same rows, and leaves the rest of the input; the scratch buffer that both sides size
    from the schema is always large enough. Columns are of the types that keep
    themselves: a timestamp with a time zone is written and read too, but comes back
    without the zone. *)
Theorem write_read_batch_roundtrip num_rows cols rest :
  in_u 64 (Z.of_nat num_rows) → Forall (λ a, array_ok a ∧ alen a = num_rows) cols →
  ∃ bs cols', write_batch num_rows cols = Ok bs ∧
    read_batch (data_type <$> cols) (bs ++ rest) = Ok (Some (num_rows, cols'), rest) ∧
    Forall wf cols' ∧ Forall2 same_rows cols' cols.
Proof.
  intros Hn Hcols. destruct (write_read_batch _ _ Hn Hcols) as (bs & Hw & _ & Hr).
  destruct (Hr rest) as (cols' & ?). by exists bs, cols'.
Qed.

(** A reader that calls [read_batch] until it returns [None]. *)
Fixpoint read_batches (fuel : nat) (schema : list DataType) (input : list Z)
    : Result (list (nat * list Array)) :=
  match fuel with
  | O => Diverge
  | S fuel =>
    '(b, input) ← read_batch schema input;
    match b with
    | None => Ok []
    | Some b => bs ← read_batches fuel schema input; Ok (b :: bs)
    end
  end.

(** Reading a concatenation of written batches until read_batch reports the end of the
    stream gives exactly those batches, in order. *)
Theorem batch_stream_roundtrip schema batches :
  Forall (λ '(n, cols), in_u 64 (Z.of_nat n) ∧ data_type <$> cols = schema ∧
    Forall (λ a, array_ok a ∧ alen a = n) cols) batches →
  ∃ bss bs', rmapM (λ '(n, cols), write_batch n cols) batches = Ok bss ∧
    read_batches (S (length batches)) schema (concat bss) = Ok bs' ∧
    Forall2 (λ b' b, b'.1 = b.1 ∧ Forall2 same_rows b'.2 b.2) bs' batches.
Proof.
  induction 1 as [|[n cols] batches (Hn & Hs & Hcols) _ IH].
  { exists [], []. done. }
  destruct IH as (bss & bs' & Hw & Hr & Hsame).
  destruct (write_read_batch n cols Hn Hcols) as (b & Hb & _ & Hrb).
  destruct (Hrb (concat bss)) as (cols' & Hrd & _ & Hcs).
  exists (b :: bss), ((n, cols') :: bs'). cbn [rmapM]. rewrite Hb. cbn [mbind Result_bind].
  rewrite Hw. cbn [mbind Result_bind mret Result_ret concat]. split; [done|].
  rewrite Hs in Hrd. cbn [length read_batches]. rewrite Hrd.
  cbn [mbind Result_bind]. cbn [length read_batches] in Hr. rewrite Hr.
  cbn [mbind Result_bind]. split; [done|]. by constructor.
Qed.

End Codec.

(** ** Concrete batches *)

(** Three rows: an Int32 column with a null (its bitmap starts at bit 1), a sliced
    string column, and a list column over a sliced child. *)
Definition sample_i32 : Array := PrimitiveArray Int32 (Some (mkBits [11%Z] 1 3)) [7; 8; 9]%Z.
Definition sample_str : Array := BytesArray true None [1; 2; 2; 4]%Z [97; 98; 99; 100]%Z.
Definition sample_list : Array := ListArray true Boolean None [2; 3; 3; 5]%Z
  (BooleanArray None (mkBits [180%Z] 1 6)).

Lemma samples_ok :
  Forall (λ a, array_ok a ∧ alen a = 3) [sample_i32; sample_str; sample_list].
Proof.
  assert (∀ a b c d n, (0 <= a <= b)%Z → (b <= c <= d)%Z → (d < 2 ^ 31)%Z → Z.to_nat d ≤ n →
    offsets_wf [a; b; c; d] n) as Hoff.
  { intros a b c d n H1 H2 H3 H4. split; unfold off; cbn [length nth Nat.sub]; [lia| | |lia].
    - repeat constructor; lia.
    - intros [|[|[|i]]] Hi; cbn [nth]; lia. }
  assert (∀ b, (0 <= b < 256)%Z → bytes_ok [b]) as Hb by (intros; by apply Forall_singleton).
  repeat apply Forall_cons_2; [| | |apply Forall_nil_2]; (split; [split; [|done]|done]);
    cbn [wf sample_i32 sample_str sample_list nulls_wf]; split_and!; try done.
  - split; cbn; [by apply Hb|lia].
  - rewrite !Forall_cons. unfold in_u. cbn. split_and!; try lia. apply Forall_nil_2.
  - apply Hoff; cbn; lia.
  - unfold bytes_ok. rewrite !Forall_cons. unfold byte_ok. split_and!; try lia. apply Forall_nil_2.
  - intros _ [|[|[|i]]] Hi; cbn in Hi; [reflexivity..|lia].
  - apply Hoff; cbn; lia.
  - split; cbn; [by apply Hb|lia].
Qed.

Lemma write_read_array_roundtrip_witness :
  ∃ bs, write_array sample_list (Transpose 12) = Ok bs ∧ ∀ rest, ∃ a',
    read_array (data_type sample_list) (alen sample_list) (Transpose 12) (bs ++ rest)
      = Ok (a', rest) ∧ wf a' ∧ same_rows a' sample_list.
Proof.
  apply (write_read_array_roundtrip sample_list (Transpose 12)).
  - pose proof samples_ok as H. rewrite Forall_forall in H. apply (H sample_list). set_solver.
  - apply Nat.leb_le. vm_compute. reflexivity.
Defined.

Lemma write_read_batch_roundtrip_witness :
  ∃ bs cols', write_batch 3 [sample_i32; sample_str; sample_list] = Ok bs ∧
    read_batch (data_type <$> [sample_i32; sample_str; sample_list]) (bs ++ [1%Z])
      = Ok (Some (3, cols'), [1%Z]) ∧
    Forall wf cols' ∧ Forall2 same_rows cols' [sample_i32; sample_str; sample_list].
Proof.
  apply (write_read_batch_roundtrip 3 [sample_i32; sample_str; sample_list] [1%Z]).
  - unfold in_u. lia.
  - apply samples_ok.
Defined.

Lemma batch_stream_roundtrip_witness :
  let batches := [(3, [sample_i32; sample_str]); (3, [sample_i32; sample_str])] in
  ∃ bss bs', rmapM (λ '(n, cols), write_batch n cols) batches = Ok bss ∧
    read_batches 3 [Primitive Int32; Utf8] (concat bss) = Ok bs' ∧
    Forall2 (λ b' b, b'.1 = b.1 ∧ Forall2 same_rows b'.2 b.2) bs' batches.
Proof.
  apply (batch_stream_roundtrip [Primitive Int32; Utf8]
    [(3, [sample_i32; sample_str]); (3, [sample_i32; sample_str])]).
  pose proof samples_ok as H. rewrite !Forall_cons in H.
  repeat constructor; unfold in_u; try lia; try done; apply H.
Defined.

(** The bytes on the wire: the row count, then per column the null flag and bitmap,
    and the values with their bytes transposed. *)
Example write_batch_bytes :
  write_batch 3 [sample_i32; sample_str]
  = Ok ([3] ++ [1; 5; 7; 8; 9; 0; 0; 0; 0; 0; 0; 0; 0; 0]
        ++ [0; 1; 0; 2; 0; 0; 0; 0; 0; 0; 0; 0; 0; 98; 99; 100])%Z.
Proof. vm_compute. reflexivity. Qed.

(** A timestamp with a time zone is written, and read back without the zone. *)
Lemma timestamp_zone_lost :
  let d := Primitive (Timestamp Microsecond (Some "Asia/Shanghai"%string)) in
  (bs ← write_batch 1 [PrimitiveArray (Timestamp Microsecond (Some "Asia/Shanghai"%string)) None [5%Z]]; read_batch [d] bs) =
  Ok (Some (1, [PrimitiveArray (Timestamp Microsecond None) None [5%Z]]), []).
Proof. vm_compute. reflexivity. Qed.
