(* ===== verification/ScalarSerde.v ===== *)
(** * Scalar serialization

    native-engine/datafusion-ext-commons/src/io/scalar_serde.rs: single values, as
    used for accumulator states and literals.  Nested scalars are one-row arrays
    and go through the array codec without transposition. *)

From S2P Require Import Prelude MachineInt Utf8 Io Arrow ArrowRef BatchSerde.

(** DataFusion's [ScalarValue]; a primitive payload is its bit pattern. *)
Inductive ScalarValue :=
  | SNull
  | SBoolean (v : option bool)
  | SPrimitive (t : PrimitiveType) (v : option Z)
  | SUtf8 (v : option (list Z))
  | SBinary (v : option (list Z))
  | SList (v : Array)
  | SStruct (v : Array)
  | SMap (v : Array)
  | SOther (null : bool).

(** [ScalarValue::is_null] *)
Definition is_null (v : ScalarValue) : bool :=
  match v with
  | SNull => true
  | SBoolean v => bool_decide (v = None)
  | SPrimitive _ v => bool_decide (v = None)
  | SUtf8 v | SBinary v => bool_decide (v = None)
  | SList a | SStruct a | SMap a => null_at (nulls_of a) 0
  | SOther b => b
  end.

Definition scalar_type (v : ScalarValue) : DataType :=
  match v with
  | SNull => Null
  | SBoolean _ => Boolean
  | SPrimitive t _ => Primitive t
  | SUtf8 _ => Utf8
  | SBinary _ => Binary
  | SList a | SStruct a | SMap a => data_type a
  | SOther _ => Unsupported None
  end.

Section Scalars.
Context `{ArrowOps}.

(** The [write_prim!] macro. *)
Definition write_prim (w : nat) (v : option Z) (nullable : bool) : Result (list Z) :=
  if nullable then
    match v with
    | Some v => Ok (write_u8 1 ++ le_bytes w v)
    | None => Ok (write_u8 0)
    end
  else match v with Some v => Ok (le_bytes w v) | None => Panic end.

(** The [read_prim!] macro. *)
Definition read_prim (w : nat) (nullable : bool) : Reader (option Z) :=
  if nullable then
    valid ← read_u8;
    if negb (valid =? 0)%Z then buf ← read_exact w; mret (Some (le_val buf)) else mret None
  else buf ← read_exact w; mret (Some (le_val buf)).

Definition write_opt_bytes (v : option (list Z)) : Result (list Z) :=
  match v with
  | Some v => l ← write_len (Z.of_nat (length v) + 1); Ok (l ++ v)
  | None => write_len 0
  end.

Definition write_scalar (value : ScalarValue) (nullable : bool) : Result (list Z) :=
  _ ← rassert (nullable || negb (is_null value));
  match value with
  | SNull => Ok (write_u8 0)
  | SBoolean v => write_prim 1 (Z.b2z <$> v) nullable
  | SPrimitive t v => write_prim (byte_width t) v nullable
  | SUtf8 v => write_opt_bytes v
  | SBinary v => write_opt_bytes v
  | SList a => write_array a Disabled
  | SStruct a => write_array a Disabled
  | SMap a => write_array a Disabled
  | SOther _ => Err (NotImplemented "unsupported scalarValue type")
  end.

(** [as_list], [as_struct] and [as_map] panic on another kind of array. *)
Definition as_list (a : Array) : Result ScalarValue :=
  match a with ListArray _ _ _ _ _ => Ok (SList a) | _ => Panic end.
Definition as_struct (a : Array) : Result ScalarValue :=
  match a with StructArray _ _ _ _ => Ok (SStruct a) | _ => Panic end.
Definition as_map (a : Array) : Result ScalarValue :=
  match a with MapArray _ _ _ _ _ _ _ => Ok (SMap a) | _ => Panic end.

Definition read_opt_bytes : Reader (option (list Z)) :=
  data_len ← read_len;
  if (data_len >? 0)%Z then
    v ← read_bytes_slice (Z.to_nat (data_len - 1)); mret (Some v)
  else mret None.

Definition read_scalar (dt : DataType) (nullable : bool) : Reader ScalarValue :=
  match dt with
  | Null => _ ← read_u8; mret SNull
  | Boolean => v ← read_prim 1 nullable; mret (SBoolean ((λ v, negb (v =? 0)%Z) <$> v))
  | Primitive t => v ← read_prim (byte_width t) nullable; mret (SPrimitive t v)
  | Binary => v ← read_opt_bytes; mret (SBinary v)
  | Utf8 => v ← read_opt_bytes; mret (SUtf8 (from_utf8_lossy <$> v))
  | List _ _ => a ← read_array dt 1 Disabled; rlift (as_list a)
  | Struct _ => a ← read_array dt 1 Disabled; rlift (as_struct a)
  | Map _ _ _ => a ← read_array dt 1 Disabled; rlift (as_map a)
  | Unsupported _ => rlift (Err (NotImplemented "unsupported data type"))
  end.

(** ** Round trip *)

(** The values the type system of Rust and arrow admits, of supported types. *)
Definition scalar_ok (v : ScalarValue) : Prop :=
  match v with
  | SNull | SBoolean _ => True
  | SPrimitive t (Some x) => in_u (8 * Z.of_nat (byte_width t)) x
  | SPrimitive _ None => True
  | SUtf8 (Some l) => utf8_valid l ∧ (Z.of_nat (length l) + 1 < 2 ^ 64)%Z
  | SBinary (Some l) => (Z.of_nat (length l) + 1 < 2 ^ 64)%Z
  | SUtf8 None | SBinary None => True
  | SList a => (∃ nb d nl o v, a = ListArray nb d nl o v) ∧ alen a = 1 ∧ array_ok a
  | SStruct a => (∃ fs nl n cs, a = StructArray fs nl n cs) ∧ alen a = 1 ∧ array_ok a
  | SMap a => (∃ nb fs s nl o n cs, a = MapArray nb fs s nl o n cs) ∧ alen a = 1 ∧ array_ok a
  | SOther _ => False
  end.

(** Equal, or one-row arrays with the same row. *)
Definition same_scalar (v w : ScalarValue) : Prop :=
  match v, w with
  | SList a, SList b | SStruct a, SStruct b | SMap a, SMap b => same_rows a b
  | _, _ => v = w
  end.

Lemma prim_roundtrip w v nullable :
  (nullable || negb (bool_decide (v = None))) = true →
  (∀ x, v = Some x → in_u (8 * Z.of_nat w) x) →
  ∃ bs, write_prim w v nullable = Ok bs ∧ ∀ rest, read_prim w nullable (bs ++ rest) = Ok (v, rest).
Proof.
  intros Hn Hv. unfold write_prim, read_prim.
  assert (∀ x rest, v = Some x →
    (buf ← read_exact w; mret (Some (le_val buf)) : Reader (option Z)) (le_bytes w x ++ rest)
    = Ok (Some x, rest)) as Hread.
  { intros x rest Hx. erewrite reader_bind_Ok by (apply read_exact_app, length_le_bytes).
    rewrite le_val_le_bytes, wrapu_id by auto. done. }
  destruct nullable, v as [x|]; try done; eexists; (split; [done|]); intros rest; auto.
  rewrite <- app_assoc. exact (Hread x rest eq_refl).
Qed.

Lemma opt_bytes_roundtrip v :
  (∀ l, v = Some l → Z.of_nat (length l) + 1 < 2 ^ 64)%Z →
  ∃ bs, write_opt_bytes v = Ok bs ∧ ∀ rest, read_opt_bytes (bs ++ rest) = Ok (v, rest).
Proof.
  intros Hv. unfold write_opt_bytes, read_opt_bytes. destruct v as [l|].
  - specialize (Hv l eq_refl). rewrite write_len_Ok by (unfold in_u; lia).
    cbn [mbind Result_bind]. eexists. split; [done|]. intros rest. rewrite <- app_assoc.
    erewrite reader_bind_Ok by (apply read_len_app; unfold in_u; lia).
    rewrite (proj2 (Z.gtb_lt _ _)) by lia.
    erewrite reader_bind_Ok by (apply read_exact_app; lia). done.
  - rewrite write_len_Ok by (unfold in_u; lia). eexists. split; [done|]. intros rest.
    erewrite reader_bind_Ok by (apply read_len_app; unfold in_u; lia). done.
Qed.

Lemma scalar_array_roundtrip a :
  array_ok a → alen a = 1 →
  ∃ bs, write_array a Disabled = Ok bs ∧ ∀ rest, ∃ a',
    read_array (data_type a) 1 Disabled (bs ++ rest) = Ok (a', rest) ∧ same_rows a' a.
Proof.
  intros [Hwf Hs] Hl.
  destruct (serde_all _ Hs a (S (dt_depth (data_type a))) Disabled) as (bs & Hb & Hr);
    [done|done|lia|done|].
  exists bs. split; [exact Hb|]. intros rest. destruct (Hr Disabled rest) as (a' & Hra & _ & Hsa);
    [done|done|]. rewrite Hl in Hra. by exists a'.
Qed.

(** Write_scalar of a supported value (null only when nullable) succeeds and read_scalar
    returns it: the same scalar, or for a nested one the same row, and consumes exactly
    its bytes. *)
Theorem write_read_scalar_roundtrip v nullable :
  scalar_ok v → nullable = true ∨ is_null v = false →
  ∃ bs, write_scalar v nullable = Ok bs ∧ ∀ rest, ∃ v',
    read_scalar (scalar_type v) nullable (bs ++ rest) = Ok (v', rest) ∧ same_scalar v' v.
Proof.
  intros Hok Hn. assert (nullable || negb (is_null v) = true) as Hn'
    by (destruct Hn as [->| ->]; [done|by rewrite orb_true_r]).
  unfold write_scalar. rewrite Hn'. cbn [rassert mbind Result_bind].
  destruct v as [|v|t v|v|v|a|a|a|]; cbn [scalar_type is_null scalar_ok] in *.
  - eexists. split; [done|]. intros rest. by exists SNull.
  - destruct (prim_roundtrip 1 (Z.b2z <$> v) nullable) as (bs & Hw & Hr).
    { by destruct v. }
    { intros x Hx. destruct v as [b|]; [|done]. injection Hx as <-. unfold in_u. by destruct b. }
    exists bs. split; [done|]. intros rest. cbn [read_scalar].
    erewrite reader_bind_Ok by apply Hr. eexists. split; [done|]. by destruct v as [[]|].
  - destruct (prim_roundtrip (byte_width t) v nullable) as (bs & Hw & Hr); [done| |].
    { intros x ->. done. }
    exists bs. split; [done|]. intros rest. cbn [read_scalar].
    erewrite reader_bind_Ok by apply Hr. by eexists.
  - destruct (opt_bytes_roundtrip v) as (bs & Hw & Hr); [intros l ->; apply Hok|].
    exists bs. split; [done|]. intros rest. cbn [read_scalar].
    erewrite reader_bind_Ok by apply Hr. eexists. split; [done|]. destruct v as [l|]; [|done].
    cbn. by rewrite from_utf8_lossy_valid by apply Hok.
  - destruct (opt_bytes_roundtrip v) as (bs & Hw & Hr); [by intros l ->|].
    exists bs. split; [done|]. intros rest. cbn [read_scalar].
    erewrite reader_bind_Ok by apply Hr. by eexists.
  - destruct Hok as ((nb & d & nl & o & v & Ha) & Hl & Hok).
    destruct (scalar_array_roundtrip a Hok Hl) as (bs & Hw & Hr).
    exists bs. split; [done|]. intros rest. destruct (Hr rest) as (a' & Hra & Hs).
    exists (SList a'). split; [|done]. pose proof (sr_type _ _ Hs) as Ht. subst a.
    cbn [data_type read_scalar] in *. erewrite reader_bind_Ok by exact Hra.
    destruct a'; try done. cbn in Ht. by destruct utf8.
  - destruct Hok as ((fs & nl & n & cs & Ha) & Hl & Hok).
    destruct (scalar_array_roundtrip a Hok Hl) as (bs & Hw & Hr).
    exists bs. split; [done|]. intros rest. destruct (Hr rest) as (a' & Hra & Hs).
    exists (SStruct a'). split; [|done]. pose proof (sr_type _ _ Hs) as Ht. subst a.
    cbn [data_type read_scalar] in *. erewrite reader_bind_Ok by exact Hra.
    destruct a'; try done. cbn in Ht. by destruct utf8.
  - destruct Hok as ((nb & fs & s & nl & o & n & cs & Ha) & Hl & Hok).
    destruct (scalar_array_roundtrip a Hok Hl) as (bs & Hw & Hr).
    exists bs. split; [done|]. intros rest. destruct (Hr rest) as (a' & Hra & Hs).
    exists (SMap a'). split; [|done]. pose proof (sr_type _ _ Hs) as Ht. subst a.
    cbn [data_type read_scalar] in *. erewrite reader_bind_Ok by exact Hra.
    destruct a'; try done. cbn in Ht. by destruct utf8.
  - done.
Qed.

End Scalars.

Lemma write_read_scalar_roundtrip_witness :
  ∃ bs, write_scalar (SUtf8 (Some [83; 108; 97; 115; 104]%Z)) true = Ok bs ∧ ∀ rest, ∃ v',
    read_scalar Utf8 true (bs ++ rest) = Ok (v', rest) ∧
    same_scalar v' (SUtf8 (Some [83; 108; 97; 115; 104]%Z)).
Proof.
  apply (write_read_scalar_roundtrip (SUtf8 (Some [83; 108; 97; 115; 104]%Z)) true).
  - split; [vm_compute; reflexivity|cbn; lia].
  - by left.
Defined.
