(* ===== verification/JoinHashMap.v ===== *)
(** * The hash map of broadcast hash joins

    native-engine/datafusion-ext-plans/src/joins/join_hash_map.rs: an open
    addressing table of groups of eight slots.  A slot holds a 32-bit hash and a
    [MapValue], which is either one build row or the start of a run of rows in
    [mapped_indices].  A u32 is a [Z]; [map] and [mapped_indices] are unchecked
    vectors. *)

From S2P Require Import Prelude MachineInt Io BatchSerde.

(** ** MapValue *)

Definition MapValue : Type := Z.
Definition EMPTY : MapValue := 0%Z.
Definition new_single (idx : Z) : MapValue := Z.lor (Z.shiftl 1 31) idx.
Definition new_range (start : Z) : MapValue := start.
Definition is_empty (v : MapValue) : bool := (v =? 0)%Z.
Definition is_single (v : MapValue) : bool := (Z.shiftr v 31 =? 1)%Z.
Definition is_range (v : MapValue) : bool := (Z.shiftr v 31 =? 0)%Z && negb (is_empty v).
Definition get_single (v : MapValue) : Z := Z.land v 0x7fffffff.

(** ** Table *)

Definition MAP_VALUE_GROUP_SIZE : nat := 8.

Record MapValueGroup := mkGroup { hashes : list Z; values : list MapValue }.
Definition default_group : MapValueGroup :=
  mkGroup (replicate MAP_VALUE_GROUP_SIZE 0%Z) (replicate MAP_VALUE_GROUP_SIZE EMPTY).

Record Table := mkTable {
  num_valid_items : nat;
  map_mod_bits : nat;
  map : list MapValueGroup;
  mapped_indices : list Z }.

(** The item with the smaller hash first, then the smaller row index. *)
Definition item_le (x y : nat * Z) : Prop :=
  (x.2 < y.2)%Z ∨ x.2 = y.2 ∧ x.1 ≤ y.1.
#[export] Instance item_le_dec : RelDecision item_le.
Proof. intros x y. unfold item_le. apply _. Defined.

(** itertools' [chunk_by]: maximal runs of equal hashes. *)
Fixpoint chunk_by_hash (items : list (nat * Z)) : list (Z * list nat) :=
  match items with
  | [] => []
  | (idx, hash) :: items =>
    match chunk_by_hash items with
    | (h, chunk) :: chunks =>
        if decide (h = hash) then (hash, idx :: chunk) :: chunks
        else (hash, [idx]) :: (h, chunk) :: chunks
    | [] => [(hash, [idx])]
    end
  end.

(** One iteration of "collect map items". *)
Definition collect_chunk (s : list Z * list (Z * MapValue)) (hc : Z * list nat)
    : Result (list Z * list (Z * MapValue)) :=
  let '(mapped, items) := s in
  let '(hash, chunk) := hc in
  let pos := length mapped in
  let mapped := mapped ++ [0%Z] ++ (Z.of_nat <$> chunk) in
  let start := pos + 1 in
  let len := length mapped - start in
  mapped ← set_uindex mapped pos (Z.of_nat len);
  match len with
  | 0 => Panic
  | 1 =>
      match last mapped with
      | Some single => Ok (take pos mapped, items ++ [(hash, new_single single)])
      | None => Panic
      end
  | _ => Ok (mapped, items ++ [(hash, new_range (Z.of_nat start))])
  end.

(** [next_power_of_two().trailing_zeros()] of [max(n, 128) * 2 / 8] *)
Definition mod_bits (num_items : nat) : nat :=
  Nat.log2_up (Nat.max num_items 128 * 2 / MAP_VALUE_GROUP_SIZE).

Definition entry (bits : nat) (hash : Z) : nat := Z.to_nat (hash mod 2 ^ Z.of_nat bits).

(** [simd_eq(..).first_set()]: the first lane that satisfies a test. *)
Fixpoint first_set (p : Z → bool) (lanes : list Z) : option nat :=
  match lanes with
  | [] => None
  | x :: lanes => if p x then Some 0 else S <$> first_set p lanes
  end.

(** The probing loop of the build. *)
Definition insert_step (bits : nat) (item : Z * MapValue) (s : nat * list MapValueGroup)
    : Result (nat * list MapValueGroup + list MapValueGroup) :=
  let '(e, map) := s in
  g ← uindex map e;
  match first_set (λ h, h =? 0)%Z (hashes g) with
  | Some empty_pos =>
      map ← set_uindex map e
        (mkGroup (<[empty_pos := item.1]> (hashes g)) (<[empty_pos := item.2]> (values g)));
      Ok (inr map)
  | None => Ok (inl ((e + 1) mod 2 ^ bits, map))
  end.

Definition insert_item (bits : nat) (map : list MapValueGroup) (item : Z * MapValue)
    : Result (list MapValueGroup) :=
  rloop (S (2 ^ bits)) (insert_step bits item) (entry bits item.1, map).

Definition create_from_key_columns_and_hashes (num_rows : nat) (key_is_valid : nat → bool)
    (hashes : list Z) : Result Table :=
  _ ← rassert (bool_decide (Z.of_nat num_rows < 1073741824)%Z);
  let valid_items := filter (λ x, key_is_valid x.1 = true) (enumerate hashes) in
  let chunks := chunk_by_hash (merge_sort item_le valid_items) in
  '(mapped_indices, map_items) ← rfoldM collect_chunk ([], []) chunks;
  let bits := mod_bits (length map_items) in
  map ← rfoldM (insert_item bits) (replicate (2 ^ bits) default_group) map_items;
  Ok (mkTable (length valid_items) bits map mapped_indices).

(** [get_range]; [start - 1] and the slice are unchecked. *)
Definition get_range (mapped_indices : list Z) (v : MapValue) : Result (list Z) :=
  let start := Z.to_nat v in
  len ← uindex mapped_indices (start - 1);
  let end_ := start + Z.to_nat len in
  if decide (end_ ≤ length mapped_indices) then
    Ok (take (Z.to_nat len) (drop start mapped_indices))
  else Undef.

(** The probing loop of a lookup. *)
Definition lookup_step (t : Table) (hash : Z) (e : nat) : Result (nat + MapValue) :=
  g ← uindex (map t) e;
  match first_set (λ h, (h =? hash) || (h =? 0))%Z (hashes g) with
  | Some pos => v ← index (values g) pos; Ok (inr v)
  | None => Ok (inl ((e + 1) mod 2 ^ map_mod_bits t))
  end.

Definition lookup_one (t : Table) (hash : Z) : Result MapValue :=
  rloop (S (2 ^ map_mod_bits t)) (lookup_step t hash) (entry (map_mod_bits t) hash).

(** The prefetches have no effect; [hashes] is overwritten in place. *)
Definition lookup_many (t : Table) (hashes : list Z) : Result (list MapValue) :=
  rmapM (lookup_one t) hashes.

(** The build rows a map value stands for, as both joiners enumerate them. *)
Definition matched_rows (mapped_indices : list Z) (v : MapValue) : Result (list Z) :=
  if is_single v then Ok [get_single v]
  else if is_range v then get_range mapped_indices v
  else Ok [].

(** ** Serialization *)

(** A group is eight hashes followed by eight values, 64 bytes. *)
Definition group_words (g : MapValueGroup) : list Z := hashes g ++ values g.
Definition words_group (ws : list Z) : MapValueGroup :=
  mkGroup (take MAP_VALUE_GROUP_SIZE ws) (drop MAP_VALUE_GROUP_SIZE ws).

Definition write_to (t : Table) : Result (list Z) :=
  a ← write_len (Z.of_nat (num_valid_items t));
  b ← write_len (Z.of_nat (map_mod_bits t));
  let c := to_raw 4 (concat (group_words <$> map t)) in
  d ← write_len (Z.of_nat (length (mapped_indices t)));
  e ← rmapM write_len (mapped_indices t);
  Ok (a ++ b ++ c ++ d ++ concat e).

Definition read_from : Reader Table :=
  num_valid_items ← read_len;
  map_mod_bits ← read_len;
  let bits := Z.to_nat (u32 map_mod_bits) in
  raw ← read_exact (64 * 2 ^ bits);
  let map := (λ g, words_group (from_raw 4 16 (take 64 (drop (64 * g) raw)))) <$> seq 0 (2 ^ bits) in
  mapped_indices_len ← read_len;
  mapped_indices ← read_all (λ _, v ← read_len; mret (u32 v)) (seq 0 (Z.to_nat mapped_indices_len));
  mret (mkTable (Z.to_nat num_valid_items) bits map mapped_indices).

(** ** Map values *)

Lemma single_decode mapped i :
  (0 <= i < 2 ^ 31)%Z → matched_rows mapped (new_single i) = Ok [i].
Proof.
  intros Hi. unfold matched_rows, is_single, new_single, get_single.
  assert (Z.shiftr i 31 = 0)%Z as Hs by (rewrite Z.shiftr_div_pow2 by lia; apply Z.div_small; lia).
  rewrite Z.shiftr_lor, Hs. change (Z.shiftr (Z.shiftl 1 31) 31) with 1%Z. cbn [Z.lor Z.eqb Pos.eqb].
  do 2 f_equal. rewrite Z.land_lor_distr_l.
  change (Z.land (Z.shiftl 1 31) 0x7fffffff) with 0%Z. rewrite Z.lor_0_l.
  change 0x7fffffff%Z with (Z.ones 31). rewrite Z.land_ones, Z.mod_small by lia. done.
Qed.

Lemma range_decode mapped i :
  (0 < i < 2 ^ 31)%Z → matched_rows mapped (new_range i) = get_range mapped i.
Proof.
  intros Hi. unfold matched_rows, is_single, is_range, is_empty, new_range.
  rewrite Z.shiftr_div_pow2, Z.div_small by lia. cbn.
  by rewrite (proj2 (Z.eqb_neq i 0)) by lia.
Qed.

Lemma get_range_app mapped ext v r :
  get_range mapped v = Ok r → get_range (mapped ++ ext) v = Ok r.
Proof.
  unfold get_range. intros Hr. apply bind_Ok in Hr as (len & Hlen & Hr).
  apply uindex_Ok in Hlen. case_decide as E; [|done].
  rewrite (proj2 (uindex_Ok _ _ _) (lookup_app_l_Some _ _ _ _ Hlen)). cbn [mbind Result_bind].
  rewrite decide_True by (rewrite length_app; lia). injection Hr as <-. f_equal.
  rewrite drop_app_le by lia. rewrite take_app_le; [done|]. rewrite length_drop. lia.
Qed.

Lemma matched_rows_app mapped ext v r :
  matched_rows mapped v = Ok r → matched_rows (mapped ++ ext) v = Ok r.
Proof.
  unfold matched_rows. destruct (is_single v); [done|]. destruct (is_range v); [|done].
  apply get_range_app.
Qed.

(** ** Chunks of the sorted items *)

Definition with_hash (h : Z) (items : list (nat * Z)) : list nat :=
  fst <$> filter (λ x, x.2 = h) items.

Lemma with_hash_cons_eq h idx items : with_hash h ((idx, h) :: items) = idx :: with_hash h items.
Proof. unfold with_hash. by rewrite filter_cons_True. Qed.

Lemma with_hash_cons_ne h h' idx items :
  h' ≠ h → with_hash h ((idx, h') :: items) = with_hash h items.
Proof. intros. unfold with_hash. by rewrite filter_cons_False. Qed.

Lemma with_hash_nil h items : h ∉ snd <$> items → with_hash h items = [].
Proof.
  intros Hh. unfold with_hash. induction items as [|[i x] items IH]; [done|].
  rewrite fmap_cons in Hh. apply not_elem_of_cons in Hh as [? ?].
  rewrite filter_cons_False by (cbn in *; congruence). auto.
Qed.

Record chunks_of (items : list (nat * Z)) (chunks : list (Z * list nat)) : Prop := {
  co_chunk : ∀ h c, (h, c) ∈ chunks → c = with_hash h items ∧ c ≠ [];
  co_nodup : NoDup (fst <$> chunks);
  co_mem : ∀ h, h ∈ fst <$> chunks ↔ h ∈ snd <$> items;
  co_head : fst <$> head chunks = snd <$> head items }.

Lemma chunk_by_hash_spec items :
  StronglySorted (λ x y, x.2 <= y.2)%Z items → chunks_of items (chunk_by_hash items).
Proof.
  induction 1 as [|[idx hash] items Hs [Hc Hnd Hm Hh] Hle]; [split; [set_solver|constructor|done|done]|].
  cbn [chunk_by_hash]. destruct (chunk_by_hash items) as [|[h c] chunks] eqn:E.
  - destruct items as [|x items]; [|done]. split.
    + intros h c Hin%list_elem_of_singleton. injection Hin as -> ->. by rewrite with_hash_cons_eq.
    + apply NoDup_singleton.
    + set_solver.
    + done.
  - case_decide as Eh.
    + subst h. rewrite fmap_cons in Hnd. apply NoDup_cons in Hnd as [Hni Hnd]. split.
      * intros h' c' [[= -> ->]|Hin]%elem_of_cons.
        { rewrite with_hash_cons_eq. split; [f_equal|done]. apply Hc. by left. }
        rewrite with_hash_cons_ne; [apply Hc; by right|].
        intros <-. apply Hni. by apply (list_elem_of_fmap_2 fst) in Hin.
      * rewrite fmap_cons. by constructor.
      * intros h'. rewrite !fmap_cons, !elem_of_cons. specialize (Hm h').
        rewrite fmap_cons, elem_of_cons in Hm. cbn in *. naive_solver.
      * done.
    + assert (hash ∉ snd <$> items) as Hni.
      { intros ([i x] & -> & Hx)%list_elem_of_fmap. cbn in *.
        destruct items as [|[i2 h2] items]; [done|]. cbn in Hh. injection Hh as <-.
        rewrite Forall_forall in Hle. pose proof (Hle (i2, h) ltac:(by left)) as H1. cbn in H1.
        apply elem_of_cons in Hx as [[= -> ->]|Hx]; [done|].
        apply StronglySorted_inv in Hs as [_ Hs]. rewrite Forall_forall in Hs.
        pose proof (Hs _ Hx) as H2. cbn in H2. lia. }
      assert (hash ∉ (h, c).1 :: (fst <$> chunks)) as Hni'.
      { intros Hin. apply Hni. rewrite <- Hm. done. }
      split.
      * intros h' c' [[= -> ->]|Hin]%elem_of_cons.
        { rewrite with_hash_cons_eq, with_hash_nil by done. done. }
        rewrite with_hash_cons_ne; [by apply Hc|].
        intros <-. apply Hni'. by apply (list_elem_of_fmap_2 fst) in Hin.
      * rewrite fmap_cons. by constructor.
      * intros h'. rewrite !(fmap_cons _ (_, _)), !elem_of_cons. cbn. rewrite <- Hm.
        rewrite fmap_cons, elem_of_cons. cbn. naive_solver.
      * done.
Qed.

(** ** Map items *)

Definition decodes (mapped : list Z) (hc : Z * list nat) (item : Z * MapValue) : Prop :=
  hc.1 = item.1 ∧ matched_rows mapped item.2 = Ok (Z.of_nat <$> hc.2).

Lemma collect_chunk_spec mapped items hash chunk :
  chunk ≠ [] → Forall (λ i, Z.of_nat i < 2 ^ 31)%Z chunk →
  (Z.of_nat (length mapped) + 1 < 2 ^ 31)%Z →
  ∃ ext v, collect_chunk (mapped, items) (hash, chunk) = Ok (mapped ++ ext, items ++ [(hash, v)]) ∧
    length ext ≤ 2 * length chunk ∧ matched_rows (mapped ++ ext) v = Ok (Z.of_nat <$> chunk).
Proof.
  intros Hne Hb Hlen. unfold collect_chunk.
  rewrite set_uindex_Ok by (rewrite !length_app; cbn; lia). cbn [mbind Result_bind].
  rewrite insert_app_r_alt, Nat.sub_diag by lia. cbn [insert list_insert app].
  replace (length (mapped ++ 0%Z :: (Z.of_nat <$> chunk)) - (length mapped + 1))
    with (length chunk) by (rewrite length_app; cbn [length]; rewrite length_fmap; lia).
  destruct chunk as [|i [|j chunk]]; [done| |].
  - cbn [length fmap list_fmap]. rewrite last_app, take_app_length.
    exists [], (new_single (Z.of_nat i)). cbn [last]. rewrite app_nil_r.
    split_and!; [done|cbn; lia|]. apply Forall_cons in Hb as [Hi _]. apply single_decode. lia.
  - cbn [length]. eexists _, _. split; [done|]. split.
    { cbn [length fmap list_fmap]. rewrite length_fmap. lia. }
    rewrite range_decode by lia. unfold get_range. rewrite Nat2Z.id.
    replace (length mapped + 1 - 1) with (length mapped) by lia.
    rewrite (proj2 (uindex_Ok _ _ (Z.of_nat (S (S (length chunk))))))
      by (by rewrite lookup_app_r, Nat.sub_diag by lia).
    cbn [mbind Result_bind]. rewrite Nat2Z.id, decide_True
      by (rewrite length_app; cbn [length fmap list_fmap]; rewrite length_fmap; lia).
    f_equal. rewrite drop_app_add. cbn [drop fmap list_fmap].
    apply take_ge. cbn [length]. rewrite length_fmap. lia.
Qed.

Lemma collect_spec chunks mapped items :
  Forall (λ hc, hc.2 ≠ [] ∧ Forall (λ i, Z.of_nat i < 2 ^ 31)%Z hc.2) chunks →
  (Z.of_nat (length mapped + 2 * sum_list_with (λ hc, length hc.2) chunks) < 2 ^ 31)%Z →
  ∃ ext new, rfoldM collect_chunk (mapped, items) chunks = Ok (mapped ++ ext, items ++ new) ∧
    Forall2 (decodes (mapped ++ ext)) chunks new.
Proof.
  intros Hc. revert mapped items. induction Hc as [|[h c] chunks [Hne Hb] _ IH]; intros mapped items Hlen.
  { exists [], []. rewrite !app_nil_r. done. }
  cbn [snd sum_list_with] in *. assert (1 ≤ length c) by (destruct c; [done|cbn; lia]).
  destruct (collect_chunk_spec mapped items h c Hne Hb ltac:(lia)) as (ext1 & v & Hv & Hl & Hm).
  destruct (IH (mapped ++ ext1) (items ++ [(h, v)])) as (ext2 & new & Hf & Hall).
  { rewrite length_app. lia. }
  exists (ext1 ++ ext2), ((h, v) :: new). cbn [rfoldM]. rewrite Hv. cbn [mbind Result_bind].
  rewrite Hf, !app_assoc, <- (app_assoc items). split; [done|]. constructor; [|done].
  split; [done|]. by apply matched_rows_app.
Qed.

(** ** Probing *)

(** A loop that follows a path and stops at its end. *)
Lemma rloop_path {S T} (body : S → Result (S + T)) (path : nat → S) k fuel r :
  (∀ j, j < k → body (path j) = Ok (inl (path (Datatypes.S j)))) →
  body (path k) = Ok (inr r) → k < fuel → rloop fuel body (path 0) = Ok r.
Proof.
  revert path fuel. induction k as [|k IH]; intros path [|fuel] Hstep Hend Hf; try lia;
    cbn [rloop].
  - by rewrite Hend.
  - rewrite (Hstep 0) by lia. cbn [mbind Result_bind].
    apply (IH (λ j, path (Datatypes.S j))); [|done|lia]. intros j Hj. apply Hstep. lia.
Qed.

Lemma least (P : nat → Prop) `{∀ n, Decision (P n)} n :
  P n → ∃ k, k ≤ n ∧ P k ∧ ∀ j, j < k → ¬ P j.
Proof.
  intros Hn. induction (lt_wf n) as [n _ IH].
  destruct (decide (Exists P (seq 0 n))) as [(j & Hj%elem_of_seq & HP)%Exists_exists|Hno].
  - destruct (IH j ltac:(lia) HP) as (k & ? & ?). exists k. split; [lia|done].
  - exists n. split_and!; [done..|]. intros j Hj HP. apply Hno, Exists_exists.
    exists j. rewrite elem_of_seq. split; [lia|done].
Qed.

(** ** Groups as lists of items *)

Definition encode (l : list (Z * MapValue)) : MapValueGroup :=
  mkGroup ((fst <$> l) ++ replicate (8 - length l) 0%Z)
          ((snd <$> l) ++ replicate (8 - length l) EMPTY).

Lemma first_set_app p (l l' : list Z) :
  Forall (λ x, p x = false) l → first_set p (l ++ l') = (λ n, length l + n) <$> first_set p l'.
Proof.
  induction 1 as [|x l Hx _ IH]; cbn; [by destruct (first_set p l')|].
  rewrite Hx, IH. by destruct (first_set p l').
Qed.

Lemma first_set_none p l : Forall (λ x, p x = false) l → first_set p l = None.
Proof. intros Hl. rewrite <- (app_nil_r l), first_set_app by done. done. Qed.

Lemma encode_insert_pos p l :
  Forall (λ x, p x.1 = false) l → p 0%Z = true → length l ≤ 8 →
  first_set p (hashes (encode l)) = if decide (length l < 8) then Some (length l) else None.
Proof.
  intros Hl H0 H8. cbn [encode hashes]. rewrite first_set_app by (by apply Forall_fmap).
  rewrite length_fmap. case_decide.
  - replace (8 - length l) with (S (7 - length l)) by lia. cbn. rewrite H0. cbn. f_equal. lia.
  - replace (8 - length l) with 0 by lia. done.
Qed.

Lemma encode_snoc l h v :
  length l < 8 →
  mkGroup (<[length l := h]> (hashes (encode l))) (<[length l := v]> (values (encode l)))
  = encode (l ++ [(h, v)]).
Proof.
  intros Hl. unfold encode. cbn [hashes values]. rewrite length_app. cbn [length].
  replace (8 - length l) with (S (8 - (length l + 1))) by lia. cbn [replicate].
  rewrite !fmap_app. f_equal.
  - rewrite <- (length_fmap fst l) at 1. rewrite insert_app_r_alt, Nat.sub_diag by lia.
    by rewrite <- app_assoc.
  - rewrite <- (length_fmap snd l) at 1. rewrite insert_app_r_alt, Nat.sub_diag by lia.
    by rewrite <- app_assoc.
Qed.

(** Group [j] on the probe path of a hash. *)
Definition probe (bits : nat) (h : Z) (j : nat) : nat := (entry bits h + j) mod 2 ^ bits.

Lemma pow2_pos bits : 2 ^ bits ≠ 0.
Proof. apply Nat.pow_nonzero. lia. Qed.

Lemma entry_lt bits h : entry bits h < 2 ^ bits.
Proof.
  unfold entry. pose proof (Z.mod_pos_bound h (2 ^ Z.of_nat bits) ltac:(lia)) as Hb.
  apply Nat2Z.inj_lt. rewrite Z2Nat.id, Nat2Z.inj_pow by lia. lia.
Qed.

Lemma probe_0 bits h : probe bits h 0 = entry bits h.
Proof. unfold probe. rewrite Nat.add_0_r. apply Nat.mod_small, entry_lt. Qed.

Lemma probe_S bits h j : (probe bits h j + 1) mod 2 ^ bits = probe bits h (S j).
Proof. unfold probe. rewrite Nat.Div0.add_mod_idemp_l. f_equal. lia. Qed.

Lemma probe_lt bits h j : probe bits h j < 2 ^ bits.
Proof. apply Nat.mod_upper_bound, pow2_pos. Qed.

(** Every group is on every path, within one turn. *)
Lemma probe_reaches bits h g : g < 2 ^ bits → ∃ k, k < 2 ^ bits ∧ probe bits h k = g.
Proof.
  intros Hg. pose proof (entry_lt bits h) as He. pose proof (pow2_pos bits).
  destruct (decide (entry bits h ≤ g)).
  - exists (g - entry bits h). split; [lia|]. unfold probe.
    replace (entry bits h + (g - entry bits h)) with g by lia. by apply Nat.mod_small.
  - exists (g + 2 ^ bits - entry bits h). split; [lia|]. unfold probe.
    replace (entry bits h + (g + 2 ^ bits - entry bits h)) with (g + 1 * 2 ^ bits) by lia.
    rewrite Nat.Div0.mod_add. by apply Nat.mod_small.
Qed.

(** ** The table invariant *)

Definition full (gs : list (list (Z * MapValue))) (g : nat) : Prop :=
  ∃ l, gs !! g = Some l ∧ length l = 8.
#[export] Instance full_dec gs g : Decision (full gs g).
Proof.
  refine (match gs !! g as o return gs !! g = o → _ with
    | Some l => λ E, match decide (length l = 8) with left H => left _ | right H => right _ end
    | None => λ E, right _ end eq_refl);
    [by exists l|intros (l' & E' & H'); congruence..].
Defined.

(** The groups hold the items, and every group before the one of an item on the
    item's probe path is full. *)
Record table_inv (bits : nat) (gs : list (list (Z * MapValue))) (items : list (Z * MapValue))
  : Prop := {
  ti_len : length gs = 2 ^ bits;
  ti_cap : ∀ g l, gs !! g = Some l → length l ≤ 8;
  ti_items : concat gs ≡ₚ items;
  ti_path : ∀ g l x, gs !! g = Some l → x ∈ l →
    ∃ k, probe bits x.1 k = g ∧ ∀ j, j < k → full gs (probe bits x.1 j) }.

Lemma concat_insert_snoc {A} (gs : list (list A)) g l x :
  gs !! g = Some l → concat (<[g := l ++ [x]]> gs) ≡ₚ concat gs ++ [x].
Proof.
  intros Hg. rewrite <- (take_drop_middle gs g l Hg) at 2.
  rewrite insert_take_drop by (by eapply lookup_lt_Some).
  rewrite !concat_app. cbn [concat]. rewrite <- !app_assoc. f_equiv. cbn.
  rewrite <- Permutation_middle. rewrite (Permutation_app_comm _ [x]). cbn.
  by rewrite Permutation_middle.
Qed.

Lemma elem_of_group {A} (gs : list (list A)) g l x : gs !! g = Some l → x ∈ l → x ∈ concat gs.
Proof.
  intros Hg Hx. apply list_elem_of_In, in_concat. exists l.
  split; apply list_elem_of_In; [by eapply list_elem_of_lookup_2|done].
Qed.

Lemma has_room bits gs items :
  table_inv bits gs items → length items < 8 * 2 ^ bits → ∃ g, g < 2 ^ bits ∧ ¬ full gs g.
Proof.
  intros [Hl Hc Hp _] Hlt. destruct (decide (Exists (λ g, ¬ full gs g) (seq 0 (2 ^ bits)))) as [He|Hn].
  { apply Exists_exists in He as (g & Hg%elem_of_seq & ?). exists g. split; [lia|done]. }
  exfalso. assert (length (concat gs) = 8 * length gs) as Hlen.
  { assert (Forall (λ l, length l = 8) gs) as Hall.
    { apply Forall_lookup. intros g l Hg. destruct (decide (full gs g)) as [(l' & ? & ?)|Hf]; [congruence|].
      exfalso. apply Hn, Exists_exists. exists g. split; [|done]. apply elem_of_seq.
      apply lookup_lt_Some in Hg. lia. }
    clear -Hall. induction Hall as [|l gs Hl _ IH]; [done|]. cbn. rewrite length_app, IH. lia. }
  apply Permutation_length in Hp. lia.
Qed.

Lemma lookup_encode (gs : list (list (Z * MapValue))) (g : nat) l : gs !! g = Some l → (encode <$> gs) !! g = Some (encode l).
Proof. intros Hg. by rewrite list_lookup_fmap, Hg. Qed.

(** Putting an item into the first group with room on its path keeps the invariant. *)
Lemma table_inv_insert bits gs items x k l :
  table_inv bits gs items → gs !! probe bits x.1 k = Some l → ¬ full gs (probe bits x.1 k) → length l < 8 →
  (∀ j, j < k → full gs (probe bits x.1 j)) →
  table_inv bits (<[probe bits x.1 k := l ++ [x]]> gs) (items ++ [x]).
Proof.
  intros [Hl Hc Hp Hpath] Hgl Hnk Hl8 Hbefore.
  assert (∀ g, full gs g → full (<[probe bits x.1 k := l ++ [x]]> gs) g) as Hfull.
  { intros g' (l' & Hg' & Hl'). exists l'. rewrite list_lookup_insert_ne; [done|].
    intros <-. apply Hnk. by exists l'. }
  split.
  + by rewrite length_insert.
  + intros g' l' Hg'. apply list_lookup_insert_Some in Hg' as [(<- & <- & _)|(? & Hg')]; [|eauto].
    rewrite length_app. cbn. lia.
  + by rewrite concat_insert_snoc, Hp.
  + intros g' l' y Hg' Hy. apply list_lookup_insert_Some in Hg' as [(<- & <- & _)|(? & Hg')].
    * apply elem_of_app in Hy as [Hy|Hy%list_elem_of_singleton].
      { destruct (Hpath _ _ _ Hgl Hy) as (k' & ? & ?). exists k'. auto. }
      subst y. exists k. split; [done|]. intros j Hj. apply Hfull. by apply Hbefore.
    * destruct (Hpath _ _ _ Hg' Hy) as (k' & ? & ?). exists k'. auto.
Qed.

Lemma insert_item_spec bits gs items x :
  table_inv bits gs items → Forall (λ y, y.1 ≠ 0%Z) items → length items < 8 * 2 ^ bits →
  ∃ gs', insert_item bits (encode <$> gs) x = Ok (encode <$> gs') ∧
    table_inv bits gs' (items ++ [x]).
Proof.
  intros Hinv Hnz Hlt. destruct (has_room _ _ _ Hinv Hlt) as (g & Hg & Hnf).
  pose proof Hinv as [Hl Hc Hp Hpath].
  destruct (probe_reaches bits x.1 g Hg) as (k0 & Hk0 & <-).
  destruct (least (λ k, ¬ full gs (probe bits x.1 k)) k0 Hnf) as (k & Hk & Hnk & Hbefore).
  destruct (lookup_lt_is_Some_2 gs (probe bits x.1 k)) as [l Hgl]; [rewrite Hl; apply probe_lt|].
  assert (length l < 8) as Hl8.
  { pose proof (Hc _ _ Hgl). destruct (decide (length l = 8)); [|lia]. exfalso. apply Hnk. by exists l. }
  assert (∀ g l, gs !! g = Some l → Forall (λ y, (y.1 =? 0)%Z = false) l) as Hnz'.
  { intros g' l' Hg'. apply Forall_forall. intros y Hy. rewrite Forall_forall in Hnz.
    apply Z.eqb_neq, Hnz. rewrite <- Hp. by eapply elem_of_group. }
  exists (<[probe bits x.1 k := l ++ [x]]> gs). split.
  - unfold insert_item. rewrite <- probe_0.
    apply (rloop_path _ (λ j, (probe bits x.1 j, encode <$> gs)) k); [| |lia].
    + intros j Hj. cbn [insert_step]. destruct (decide (full gs (probe bits x.1 j))) as [(l' & Hg' & Hl')|Hf];
        [|by destruct (Hbefore j Hj)].
      rewrite (proj2 (uindex_Ok _ _ _) (lookup_encode _ _ _ Hg')). cbn [mbind Result_bind].
      rewrite (encode_insert_pos (λ h, h =? 0)%Z) by (eauto; lia).
      rewrite decide_False, probe_S by lia. done.
    + cbn [insert_step]. rewrite (proj2 (uindex_Ok _ _ _) (lookup_encode _ _ _ Hgl)).
      cbn [mbind Result_bind]. rewrite (encode_insert_pos (λ h, h =? 0)%Z) by (eauto; lia).
      rewrite decide_True by done.
      rewrite set_uindex_Ok by (rewrite length_fmap, Hl; apply probe_lt). cbn [mbind Result_bind].
      rewrite encode_snoc, <- surjective_pairing, list_fmap_insert by done. done.
  - apply table_inv_insert; [done..|]. intros j Hj.
    destruct (decide (full gs (probe bits x.1 j))); [done|]. by destruct (Hbefore j Hj).
Qed.

Lemma mod_bits_room n : n < 8 * 2 ^ mod_bits n.
Proof.
  unfold mod_bits, MAP_VALUE_GROUP_SIZE. set (m := Nat.max n 128 * 2 / 8).
  assert (m ≤ 2 ^ Nat.log2_up m) as Hm.
  { destruct (decide (1 < m)); [by apply Nat.log2_up_spec|]. pose proof (pow2_pos (Nat.log2_up m)). lia. }
  pose proof (Nat.div_mod (Nat.max n 128 * 2) 8 ltac:(lia)).
  pose proof (Nat.mod_upper_bound (Nat.max n 128 * 2) 8 ltac:(lia)). fold m in H. lia.
Qed.

Lemma build_map_spec bits items :
  Forall (λ y, y.1 ≠ 0%Z) items → length items < 8 * 2 ^ bits →
  ∃ gs, rfoldM (insert_item bits) (replicate (2 ^ bits) default_group) items = Ok (encode <$> gs) ∧
    table_inv bits gs items.
Proof.
  intros Hnz Hlen.
  destruct (rfoldM_inv (λ m rest, ∃ gs done, items = done ++ rest ∧ m = encode <$> gs ∧
      table_inv bits gs done) (insert_item bits) (replicate (2 ^ bits) default_group) items)
    as (m & -> & gs & done & Hd & -> & Hinv).
  - exists (replicate (2 ^ bits) []), []. split_and!; [done|by rewrite fmap_replicate|]. split.
    + apply length_replicate.
    + intros g l [-> _]%lookup_replicate. cbn. lia.
    + clear. induction (2 ^ bits); done.
    + intros g l x [-> _]%lookup_replicate. set_solver.
  - intros m x rest (gs & done & Hd & -> & Hinv). subst items.
    rewrite length_app in Hlen. cbn in Hlen.
    destruct (insert_item_spec bits gs done x Hinv) as (gs' & -> & Hinv').
    { by apply Forall_app in Hnz as [? _]. }
    { lia. }
    eexists. split; [done|]. exists gs', (done ++ [x]). by rewrite <- app_assoc.
  - rewrite app_nil_r in Hd. subst done. by exists gs.
Qed.

(** ** Lookup *)

Lemma encode_find l h :
  Forall (λ y, y.1 ≠ 0%Z) l → h ∈ fst <$> l →
  ∃ s v, (h, v) ∈ l ∧ first_set (λ x, (x =? h) || (x =? 0))%Z (hashes (encode l)) = Some s ∧
    index (values (encode l)) s = Ok v.
Proof.
  intros Hnz Hin. destruct (list_elem_of_split_l _ _ Hin) as (k1 & k2 & Hk & Hni).
  apply fmap_app_inv in Hk as (l1 & l2 & -> & Hl2 & ->).
  symmetry in Hl2. apply fmap_cons_inv in Hl2 as ([h' v] & l3 & -> & -> & ->). cbn in *.
  exists (length l1), v. split; [set_solver|]. cbn [encode hashes values]. split.
  - rewrite fmap_app, fmap_cons, <- app_assoc. rewrite first_set_app.
    + cbn. rewrite Z.eqb_refl, length_fmap. cbn. f_equal. lia.
    + apply Forall_fmap, Forall_forall. intros y Hy. cbn.
      apply Forall_app in Hnz as [Hnz _]. rewrite Forall_forall in Hnz.
      apply orb_false_iff. split; apply Z.eqb_neq; [|by apply Hnz].
      intros <-. apply Hni. by apply list_elem_of_fmap_2.
  - apply index_Ok. rewrite fmap_app, <- app_assoc, fmap_cons.
    rewrite lookup_app_r, length_fmap, Nat.sub_diag by (rewrite length_fmap; lia). done.
Qed.

Lemma encode_miss l h :
  Forall (λ y, y.1 ≠ 0%Z) l → h ∉ fst <$> l → length l ≤ 8 →
  first_set (λ x, (x =? h) || (x =? 0))%Z (hashes (encode l))
  = if decide (length l < 8) then Some (length l) else None.
Proof.
  intros Hnz Hni Hl. apply (encode_insert_pos (λ x, (x =? h) || (x =? 0))%Z); [|by rewrite orb_true_r|done].
  apply Forall_forall. intros y Hy. rewrite Forall_forall in Hnz.
  apply orb_false_iff. split; apply Z.eqb_neq; [|by apply Hnz].
  intros <-. apply Hni. by apply list_elem_of_fmap_2.
Qed.

Lemma encode_empty_value l : length l < 8 → index (values (encode l)) (length l) = Ok EMPTY.
Proof.
  intros Hl. apply index_Ok. cbn [encode values].
  rewrite lookup_app_r, length_fmap, Nat.sub_diag by (rewrite length_fmap; lia).
  apply lookup_replicate_2. lia.
Qed.

Lemma lookup_one_spec t gs items h :
  map t = encode <$> gs → table_inv (map_mod_bits t) gs items →
  Forall (λ y, y.1 ≠ 0%Z) items → length items < 8 * 2 ^ map_mod_bits t →
  ∃ v, lookup_one t h = Ok v ∧ ((h, v) ∈ items ∨ v = EMPTY ∧ h ∉ fst <$> items).
Proof.
  intros Hmap Hinv Hnz Hlt. set (bits := map_mod_bits t) in *.
  destruct (has_room _ _ _ Hinv Hlt) as (g & Hg & Hnf). destruct Hinv as [Hl Hc Hp Hpath].
  destruct (probe_reaches bits h g Hg) as (k0 & Hk0 & <-).
  set (stop := λ k, match gs !! probe bits h k with
    | Some l => h ∈ fst <$> l ∨ ¬ full gs (probe bits h k) | None => False end).
  assert (∀ k, ∃ l, gs !! probe bits h k = Some l ∧ length l ≤ 8 ∧ Forall (λ y, y.1 ≠ 0%Z) l) as Hgrp.
  { intros k. destruct (lookup_lt_is_Some_2 gs (probe bits h k)) as [l Hgl]; [rewrite Hl; apply probe_lt|].
    exists l. split_and!; [done|eauto|]. apply Forall_forall. intros y Hy.
    rewrite Forall_forall in Hnz. apply Hnz. rewrite <- Hp. by eapply elem_of_group. }
  assert (∀ k, Decision (stop k)) as Hdec by (intros k; unfold stop; destruct (gs !! _); apply _).
  destruct (least stop k0) as (k & Hk & Hstop & Hbefore).
  { unfold stop. destruct (Hgrp k0) as (l & -> & _). by right. }
  assert (∀ j, j < k → ∃ l, gs !! probe bits h j = Some l ∧ length l = 8 ∧
    h ∉ fst <$> l ∧ Forall (λ y, y.1 ≠ 0%Z) l) as Hskip.
  { intros j Hj. pose proof (Hbefore j Hj) as Hns. destruct (Hgrp j) as (l & Hgl & Hl8 & Hlz).
    exists l. unfold stop in Hns. rewrite Hgl in Hns.
    destruct (decide (full gs (probe bits h j))) as [(l' & ? & ?)|]; [|naive_solver].
    split_and!; [done|congruence|naive_solver|done]. }
  destruct (Hgrp k) as (l & Hgl & Hl8 & Hlz). unfold stop in Hstop. rewrite Hgl in Hstop.
  assert (∀ r, lookup_step t h (probe bits h k) = Ok (inr r) → lookup_one t h = Ok r) as Hrun.
  { intros r Hr. unfold lookup_one. fold bits. rewrite <- probe_0.
    apply (rloop_path _ (probe bits h) k); [|done|lia].
    intros j Hj. destruct (Hskip j Hj) as (lj & Hgj & Hlj & Hnj & Hzj).
    unfold lookup_step. rewrite Hmap, (proj2 (uindex_Ok _ _ _) (lookup_encode _ _ _ Hgj)).
    cbn [mbind Result_bind]. rewrite encode_miss by (done || lia).
    rewrite decide_False by lia. fold bits. by rewrite probe_S. }
  assert (lookup_step t h (probe bits h k) =
    match first_set (λ x, (x =? h) || (x =? 0))%Z (hashes (encode l)) with
    | Some pos => v ← index (values (encode l)) pos; Ok (inr v)
    | None => Ok (inl ((probe bits h k + 1) mod 2 ^ bits)) end) as Hstep.
  { unfold lookup_step. rewrite Hmap, (proj2 (uindex_Ok _ _ _) (lookup_encode _ _ _ Hgl)). done. }
  destruct (decide (h ∈ fst <$> l)) as [Hin|Hni].
  - destruct (encode_find l h Hlz Hin) as (s & v & Hv & Hs & Hi). exists v. split.
    + apply Hrun. by rewrite Hstep, Hs, Hi.
    + left. rewrite <- Hp. by eapply elem_of_group.
  - destruct Hstop as [?|Hnfull]; [done|].
    assert (length l < 8) as Hlt8.
    { destruct (decide (length l = 8)); [|lia]. exfalso. apply Hnfull. by exists l. }
    exists EMPTY. split.
    + apply Hrun. rewrite Hstep, encode_miss, decide_True, encode_empty_value by done. done.
    + right. split; [done|]. intros ([h' v] & -> & Hin)%list_elem_of_fmap. cbn in *.
      rewrite <- Hp in Hin. apply list_elem_of_In, in_concat in Hin as (l' & Hl' & Hin).
      apply list_elem_of_In in Hl', Hin. apply list_elem_of_lookup in Hl' as [g' Hg'].
      destruct (Hpath _ _ _ Hg' Hin) as (k' & Hk' & Hfull'). cbn in Hk', Hfull'.
      assert (h' ∈ fst <$> l') as Hh' by (by apply (list_elem_of_fmap_2 fst) in Hin).
      destruct (Nat.lt_trichotomy k' k) as [Hlt'|[->|Hgt]].
      * destruct (Hskip k' Hlt') as (lj & Hgj & _ & Hnj & _). congruence.
      * congruence.
      * destruct (Hfull' k Hgt) as (l2 & ? & ?). apply Hnfull. by exists l2.
Qed.

(** ** The rows of a hash *)

#[export] Instance item_le_trans : Transitive item_le.
Proof. intros x y z. unfold item_le. lia. Qed.
#[export] Instance item_le_total : Total item_le.
Proof. intros x y. unfold item_le. lia. Qed.

(** The valid build rows with hash [h], in order. *)
Definition rows_with_hash (key_is_valid : nat → bool) (hashes : list Z) (h : Z) : list nat :=
  filter (λ i, key_is_valid i = true ∧ hashes !! i = Some h) (seq 0 (length hashes)).

Definition valid_items (key_is_valid : nat → bool) (hashes : list Z) : list (nat * Z) :=
  filter (λ x, key_is_valid x.1 = true) (enumerate hashes).

Lemma StronglySorted_filter {A} (R : relation A) (P : A → Prop) `{∀ x, Decision (P x)} l :
  StronglySorted R l → StronglySorted R (filter P l).
Proof.
  induction 1 as [|x l Hs IH Hx]; [constructor|]. rewrite filter_cons. case_decide; [|done].
  constructor; [done|]. apply Forall_forall. intros y [_ Hy]%list_elem_of_filter.
  rewrite Forall_forall in Hx. auto.
Qed.

Lemma seq_sorted a n : StronglySorted le (seq a n).
Proof.
  apply StronglySorted_lookup. intros i j x y Hij [-> _]%lookup_seq [-> _]%lookup_seq. lia.
Qed.

Lemma with_hash_sorted valid hashes h :
  with_hash h (merge_sort item_le (valid_items valid hashes)) = rows_with_hash valid hashes h.
Proof.
  pose proof (merge_sort_Permutation item_le (valid_items valid hashes)) as Hperm.
  pose proof (StronglySorted_merge_sort item_le (valid_items valid hashes)) as Hs.
  set (s := merge_sort item_le _) in *.
  apply (StronglySorted_unique le).
  - unfold with_hash. apply (StronglySorted_filter _ (λ x, x.2 = h)) in Hs.
    assert (Forall (λ x : nat * Z, x.2 = h) (filter (λ x, x.2 = h) s)) as Hh.
    { apply Forall_forall. by intros x [? _]%list_elem_of_filter. }
    clear -Hs Hh. induction Hs as [|x l _ IH Hx]; cbn; [constructor|].
    apply Forall_cons in Hh as [Hxh Hh]. constructor; [by apply IH|].
    apply Forall_fmap, Forall_forall. intros y Hy. rewrite Forall_forall in Hx, Hh.
    specialize (Hx y Hy). specialize (Hh y Hy). unfold item_le in Hx. cbn. lia.
  - apply StronglySorted_filter, seq_sorted.
  - apply NoDup_Permutation.
    + unfold with_hash. apply (sublist_NoDup _ (fst <$> s)); [|apply fmap_sublist, sublist_filter].
      rewrite Hperm. unfold valid_items.
      eapply sublist_NoDup; [|apply fmap_sublist, sublist_filter].
      rewrite fst_enumerate. apply NoDup_seq.
    + apply NoDup_filter, NoDup_seq.
    + intros i. unfold with_hash, rows_with_hash. rewrite list_elem_of_fmap, list_elem_of_filter.
      setoid_rewrite list_elem_of_filter. setoid_rewrite Hperm. unfold valid_items.
      setoid_rewrite list_elem_of_filter. split.
      * intros ([i' h'] & -> & Hh & Hv & Hin%elem_of_enumerate). cbn in *. subst h'. split; [done|].
        apply elem_of_seq. apply lookup_lt_Some in Hin. lia.
      * intros [[Hv Hh] _]. exists (i, h). split_and!; [done..|]. by apply elem_of_enumerate.
Qed.

Lemma chunk_sum items :
  sum_list_with (λ hc, length hc.2) (chunk_by_hash items) = length items.
Proof.
  induction items as [|[idx hash] items IH]; [done|]. cbn [chunk_by_hash length].
  destruct (chunk_by_hash items) as [|[h c] chunks]; [|case_decide]; cbn in *; lia.
Qed.

Lemma table_lookup key_is_valid (hashes : list Z) :
  (Z.of_nat (length hashes) < 2 ^ 30)%Z → Forall (λ h, h ≠ 0%Z) hashes →
  ∃ t, create_from_key_columns_and_hashes (length hashes) key_is_valid hashes = Ok t ∧
    num_valid_items t = length (filter (λ i, key_is_valid i = true) (seq 0 (length hashes))) ∧
    ∀ probes, Forall (λ h, h ≠ 0%Z) probes →
    ∃ vs, lookup_many t probes = Ok vs ∧
      Forall2 (λ h v, matched_rows (mapped_indices t) v
        = Ok (Z.of_nat <$> rows_with_hash key_is_valid hashes h)) probes vs.
Proof.
  intros Hlen Hnz. unfold create_from_key_columns_and_hashes.
  rewrite bool_decide_eq_true_2 by lia. cbn [rassert mbind Result_bind].
  fold (valid_items key_is_valid hashes). set (l := valid_items key_is_valid hashes).
  pose proof (merge_sort_Permutation item_le l) as Hperm. set (s := merge_sort item_le l) in *.
  assert (StronglySorted (λ x y, x.2 <= y.2)%Z s) as Hs.
  { pose proof (StronglySorted_merge_sort item_le l) as Hs. fold s in Hs. clear -Hs.
    induction Hs as [|x s' Hs IH Hx]; constructor; [done|]. eapply Forall_impl; [exact Hx|].
    intros y. unfold item_le. lia. }
  destruct (chunk_by_hash_spec s Hs) as [Hchunk Hnd Hmem _].
  assert (∀ x, x ∈ s → hashes !! x.1 = Some x.2) as Hin.
  { intros [i h] Hx. rewrite Hperm in Hx. apply list_elem_of_filter in Hx as [_ Hx].
    by apply elem_of_enumerate in Hx. }
  assert (length s ≤ length hashes) as Hsl.
  { rewrite (Permutation_length Hperm). unfold l, valid_items.
    rewrite length_filter. by rewrite length_enumerate. }
  destruct (collect_spec (chunk_by_hash s) [] []) as (mapped & items & Hc & Hdec).
  { apply Forall_forall. intros [h c] Hhc. destruct (Hchunk h c Hhc) as [-> Hne].
    split; [done|]. apply Forall_forall. intros i ([i' h'] & -> & [_ Hx]%list_elem_of_filter)%list_elem_of_fmap.
    apply Hin in Hx. apply lookup_lt_Some in Hx. cbn in *. lia. }
  { rewrite chunk_sum. cbn. lia. }
  rewrite Hc. cbn [mbind Result_bind app]. cbn [app] in Hdec.
  assert (fst <$> items = fst <$> chunk_by_hash s) as Hfst.
  { clear -Hdec. induction Hdec as [|hc item cs items [Hh _] _ IH]; [done|].
    rewrite !fmap_cons. by f_equal. }
  assert (Forall (λ y, y.1 ≠ 0%Z) items) as Hinz.
  { apply Forall_forall. intros y Hy. assert (y.1 ∈ snd <$> s) as Hys.
    { rewrite <- Hmem, <- Hfst. by apply list_elem_of_fmap_2. }
    apply list_elem_of_fmap in Hys as (x & -> & Hx%Hin). rewrite Forall_forall in Hnz.
    apply Hnz. by eapply list_elem_of_lookup_2. }
  destruct (build_map_spec (mod_bits (length items)) items Hinz (mod_bits_room _)) as (gs & -> & Hinv).
  cbn [mbind Result_bind]. eexists. split; [done|]. cbn [num_valid_items mapped_indices]. split.
  { rewrite <- fst_enumerate. unfold l, valid_items. clear.
    induction (enumerate hashes) as [|x e IH]; [done|]. rewrite fmap_cons, !filter_cons.
    case_decide; cbn; lia. }
  intros probes Hpr. set (t := mkTable _ _ _ _).
  assert (∀ h, ∃ v, lookup_one t h = Ok v ∧ matched_rows mapped v
    = Ok (Z.of_nat <$> rows_with_hash key_is_valid hashes h)) as Hone.
  { intros h. destruct (lookup_one_spec t gs items h) as (v & Hv & Hcase);
      [done|done|done|apply mod_bits_room|]. exists v. split; [done|].
    rewrite <- with_hash_sorted. fold l. fold s. destruct Hcase as [Hin'|[-> Hni]].
    - apply list_elem_of_lookup in Hin' as [i Hi].
      destruct (Forall2_lookup_r _ _ _ _ _ Hdec Hi) as ([h' c] & Hi' & [Heq Hm]). cbn in *. subst h'.
      destruct (Hchunk h c) as [-> _]; [by eapply list_elem_of_lookup_2|]. done.
    - rewrite with_hash_nil; [done|]. by rewrite <- Hmem, <- Hfst. }
  unfold lookup_many. clear -Hone. induction probes as [|h probes (vs & IH1 & IH2)].
  { exists []. done. }
  destruct (Hone h) as (v & Hv & Hm). exists (v :: vs). cbn [rmapM]. rewrite Hv.
  cbn [mbind Result_bind]. rewrite IH1. cbn. split; [done|]. by constructor.
Qed.

(** C20: building the table from fewer than 2^30 hashes terminates, and looking up any
    non-zero hash terminates at a map value that stands for exactly the build rows with
    that hash and a valid key, in order; no unchecked access is out of range although
    probing wraps around and groups fill up. *)
Theorem join_hash_map_lookup_exact key_is_valid (hashes : list Z) :
  (Z.of_nat (length hashes) < 2 ^ 30)%Z → Forall (λ h, h ≠ 0%Z) hashes →
  ∃ t, create_from_key_columns_and_hashes (length hashes) key_is_valid hashes = Ok t ∧
    num_valid_items t = length (filter (λ i, key_is_valid i = true) (seq 0 (length hashes))) ∧
    ∀ probes, Forall (λ h, h ≠ 0%Z) probes →
    ∃ vs, lookup_many t probes = Ok vs ∧
      Forall2 (λ h v, matched_rows (mapped_indices t) v
        = Ok (Z.of_nat <$> rows_with_hash key_is_valid hashes h)) probes vs.
Proof. apply table_lookup. Qed.

Lemma join_hash_map_lookup_exact_witness :
  let hashes := [2147483653; 2147483909; 2147483653; 2147483660]%Z in
  let key_is_valid := λ i : nat, negb (i =? 3)%nat in
  ∃ t, create_from_key_columns_and_hashes 4 key_is_valid hashes = Ok t ∧
    num_valid_items t = 3 ∧
    ∀ probes, Forall (λ h, h ≠ 0%Z) probes →
    ∃ vs, lookup_many t probes = Ok vs ∧
      Forall2 (λ h v, matched_rows (mapped_indices t) v
        = Ok (Z.of_nat <$> rows_with_hash key_is_valid hashes h)) probes vs.
Proof.
  apply (join_hash_map_lookup_exact (λ i, negb (i =? 3)%nat)
    [2147483653; 2147483909; 2147483653; 2147483660]%Z); [cbn; lia|].
  repeat (apply Forall_cons_2; [lia|]). apply Forall_nil_2.
Defined.

(** ** Serialization round trip *)

Record group_ok (g : MapValueGroup) : Prop := {
  go_hashes : length (hashes g) = 8;
  go_values : length (values g) = 8;
  go_u32 : Forall (in_u 32) (group_words g) }.

Record table_ok (t : Table) : Prop := {
  to_items : in_u 64 (Z.of_nat (num_valid_items t));
  to_bits : (Z.of_nat (map_mod_bits t) < 2 ^ 32)%Z;
  to_map : length (map t) = 2 ^ map_mod_bits t;
  to_groups : Forall group_ok (map t);
  to_len : in_u 64 (Z.of_nat (length (mapped_indices t)));
  to_mapped : Forall (in_u 32) (mapped_indices t) }.

(** Cutting a concatenation of pieces of equal length back into the pieces. *)
Lemma uniform_chunks {A} w (cs : list (list A)) :
  Forall (λ c, length c = w) cs →
  (λ g, take w (drop (w * g) (concat cs))) <$> seq 0 (length cs) = cs.
Proof.
  induction 1 as [|c cs Hc _ IH]; [done|]. cbn [length seq concat].
  rewrite fmap_cons, <- fmap_S_seq, <- list_fmap_compose. f_equal.
  - rewrite Nat.mul_0_r, drop_0. by rewrite take_app_length'.
  - etransitivity; [|exact IH]. apply list_fmap_ext. intros i x _. unfold compose.
    f_equal. replace (w * S x) with (length c + w * x) by lia. by rewrite drop_app_add.
Qed.

Lemma to_raw_concat w (l : list (list Z)) : to_raw w (concat l) = concat (to_raw w <$> l).
Proof.
  unfold to_raw. induction l as [|x l IH]; [done|]. cbn [concat]. rewrite fmap_app, concat_app, IH. done.
Qed.

Lemma wrapu_list l : Forall (in_u 32) l → wrapu 32 <$> l = l.
Proof.
  induction 1 as [|x l Hx _ IH]; [done|]. rewrite fmap_cons, IH. by rewrite wrapu_id.
Qed.

Lemma groups_roundtrip (m : list MapValueGroup) :
  Forall group_ok m →
  let raw := to_raw 4 (concat (group_words <$> m)) in
  length raw = 64 * length m ∧
  (λ g, words_group (from_raw 4 16 (take 64 (drop (64 * g) raw)))) <$> seq 0 (length m) = m.
Proof.
  intros Hm. rewrite to_raw_concat, <- list_fmap_compose.
  assert (∀ g, group_ok g → length (group_words g) = 16) as H16.
  { intros g [Hh Hv _]. unfold group_words, MapValue in *. rewrite length_app. lia. }
  assert (Forall (λ c, length c = 64) ((to_raw 4 ∘ group_words) <$> m)) as Hlen.
  { apply Forall_fmap. eapply Forall_impl; [exact Hm|]. intros g Hg. cbn.
    rewrite length_to_raw, H16 by done. done. }
  split.
  - clear -Hlen. induction m as [|g m IH]; [done|]. rewrite fmap_cons in Hlen.
    apply Forall_cons in Hlen as [Hg Hm]. specialize (IH Hm). rewrite fmap_cons.
    cbn [concat length]. rewrite length_app. lia.
  - pose proof (uniform_chunks 64 _ Hlen) as Hc. rewrite length_fmap in Hc.
    set (raw := concat _) in *.
    transitivity ((λ c, words_group (from_raw 4 16 c)) <$>
      ((λ g, take 64 (drop (64 * g) raw)) <$> seq 0 (length m))).
    { by rewrite <- list_fmap_compose. }
    rewrite Hc, <- list_fmap_compose. clear -Hm H16.
    induction Hm as [|g m Hg _ IH]; [done|]. rewrite fmap_cons, IH. f_equal.
    unfold compose. rewrite <- (H16 g Hg) at 1. rewrite from_to_raw.
    change (8 * Z.of_nat 4)%Z with 32%Z. rewrite wrapu_list by apply Hg.
    destruct g as [hs vs], Hg as [Hh _ _]. unfold words_group, group_words, MAP_VALUE_GROUP_SIZE.
    cbn [hashes values] in *. rewrite <- Hh at 1. by rewrite take_app_length, drop_app_length' by done.
Qed.

Lemma read_mapped l rest :
  Forall (in_u 32) l →
  ∃ e, rmapM write_len l = Ok e ∧ ∀ a,
    read_all (λ _ : nat, v ← read_len; mret (u32 v)) (seq a (length l)) (concat e ++ rest) = Ok (l, rest).
Proof.
  induction 1 as [|x l Hx _ (e & He & IH)]; [by exists []|].
  exists (len_bytes write_len_fuel x :: e). assert (in_u 64 x) as Hx64 by (unfold in_u in *; lia).
  cbn [rmapM]. rewrite write_len_Ok by done. cbn [mbind Result_bind]. rewrite He. split; [done|].
  intros a. cbn [length seq concat]. rewrite read_all_cons, <- app_assoc.
  erewrite reader_bind_Ok; [|erewrite reader_bind_Ok by (by apply read_len_app); done].
  erewrite reader_bind_Ok by apply IH. unfold u32. by rewrite wrapu_id.
Qed.

(** A hash table written for broadcasting is read back unchanged, and exactly its
    bytes are consumed. *)
Theorem join_hash_map_write_read_roundtrip t rest :
  table_ok t → ∃ bs, write_to t = Ok bs ∧ read_from (bs ++ rest) = Ok (t, rest).
Proof.
  intros [Hi Hb Hm Hg Hl Hmi]. unfold write_to, read_from.
  assert (in_u 64 (Z.of_nat (map_mod_bits t))) by (unfold in_u; lia).
  destruct (read_mapped (mapped_indices t) rest Hmi) as (e & He & Hre).
  rewrite !write_len_Ok, He by done. cbn [mbind Result_bind]. eexists. split; [done|].
  destruct (groups_roundtrip (map t) Hg) as [Hraw Hgroups].
  rewrite <- !app_assoc. erewrite reader_bind_Ok by (by apply read_len_app).
  erewrite reader_bind_Ok by (by apply read_len_app).
  assert (Z.to_nat (u32 (Z.of_nat (map_mod_bits t))) = map_mod_bits t) as ->.
  { unfold u32. rewrite wrapu_id by (unfold in_u; lia). lia. }
  erewrite reader_bind_Ok by (apply read_exact_app; by rewrite Hraw, Hm).
  erewrite reader_bind_Ok by (by apply read_len_app). rewrite !Nat2Z.id.
  erewrite reader_bind_Ok by apply Hre. unfold mret, Reader_ret. do 2 f_equal.
  rewrite <- Hm, Hgroups. by destruct t.
Qed.

Lemma join_hash_map_write_read_roundtrip_witness :
  let t := mkTable 3 0 [encode [(2147483653, 1); (2147483909, 2147483649)]%Z] [2; 0; 2]%Z in
  ∃ bs, write_to t = Ok bs ∧ read_from (bs ++ [9%Z]) = Ok (t, [9%Z]).
Proof.
  apply (join_hash_map_write_read_roundtrip
    (mkTable 3 0 [encode [(2147483653, 1); (2147483909, 2147483649)]%Z] [2; 0; 2]%Z) [9%Z]).
  split; cbn [num_valid_items map_mod_bits map mapped_indices]; try (unfold in_u; cbn; lia).
  - apply Forall_singleton. split; [done..|].
    change (Forall (in_u 32) [2147483653; 2147483909; 0; 0; 0; 0; 0; 0;
      1; 2147483649; 0; 0; 0; 0; 0; 0]%Z).
    repeat (apply Forall_cons_2; [unfold in_u; lia|]). apply Forall_nil_2.
  - repeat (apply Forall_cons_2; [unfold in_u; lia|]). apply Forall_nil_2.
Defined.
