(* ===== verification/Joins.v ===== *)
(** * Data shared by the join operators

    native-engine/datafusion-ext-plans/src/joins/mod.rs and join_utils.rs, and the
    column gathers of datafusion-ext-commons/src/arrow/selection.rs.  A record
    batch is its columns of logical values; a schema is the number of its fields,
    since the joins only look at positions. *)

From S2P Require Import Prelude MachineInt.

Inductive JoinType :=
  | Inner | Left | Right | Full | LeftAnti | RightAnti | LeftSemi | RightSemi | Existence.
#[export] Instance JoinType_eq_dec : EqDecision JoinType.
Proof. solve_decision. Defined.

(** DataFusion's own enumeration, and the two [TryFrom] conversions. *)
Inductive DfJoinType :=
  | DfInner | DfLeft | DfRight | DfFull | DfLeftAnti | DfRightAnti | DfLeftSemi | DfRightSemi
  | DfLeftMark | DfRightMark.

Definition to_df_join_type (t : JoinType) : Result DfJoinType :=
  match t with
  | Inner => Ok DfInner | Left => Ok DfLeft | Right => Ok DfRight | Full => Ok DfFull
  | LeftAnti => Ok DfLeftAnti | RightAnti => Ok DfRightAnti
  | LeftSemi => Ok DfLeftSemi | RightSemi => Ok DfRightSemi
  | Existence => Err (Execution "unsupported join type")
  end.

Definition from_df_join_type (t : DfJoinType) : Result JoinType :=
  match t with
  | DfInner => Ok Inner | DfLeft => Ok Left | DfRight => Ok Right | DfFull => Ok Full
  | DfLeftAnti => Ok LeftAnti | DfRightAnti => Ok RightAnti
  | DfLeftSemi => Ok LeftSemi | DfRightSemi => Ok RightSemi
  | DfLeftMark | DfRightMark => Panic
  end.

Inductive JoinSide := SideLeft | SideRight | SideNone.

Section Batches.
Context {V : Type} (null : V).

Record RecordBatch := mkBatch { num_rows : nat; columns : list (list V) }.

Definition batch_ok (b : RecordBatch) : Prop := Forall (λ c, length c = num_rows b) (columns b).

(** Row [i] of some columns, and the rows of a batch. *)
Definition row_at (cols : list (list V)) (i : nat) : list V := (λ c, nth i c null) <$> cols.
Definition batch_rows (b : RecordBatch) : list (list V) := row_at (columns b) <$> seq 0 (num_rows b).

(** [RecordBatch::try_new_with_options]: as many columns as the schema has fields,
    all of the given length. *)
Definition try_new_batch (num_fields : nat) (cols : list (list V)) (n : nat) : Result RecordBatch :=
  if decide (length cols = num_fields ∧ Forall (λ c, length c = n) cols)
  then Ok (mkBatch n cols) else Err (Execution "number of columns or rows mismatch").

(** [take_cols]: arrow's [take] on every column; a missing index gives null. *)
Definition take_opt (c : list V) (i : option nat) : Result V :=
  match i with None => Ok null | Some i => index c i end.
Definition take_cols (cols : list (list V)) (indices : list (option nat)) : Result (list (list V)) :=
  rmapM (λ c, rmapM (take_opt c) indices) cols.

(** [new_null_array] for every field of a schema *)
Definition null_cols (num_fields n : nat) : list (list V) := replicate num_fields (replicate n null).

(** arrow's [filter] kernel on every column: null selects nothing. *)
Definition filter_col (selected : list (option bool)) (c : list V) : list V :=
  snd <$> filter (λ x, x.1 = Some true) (zip selected c).

(** ** JoinProjection *)

Record JoinProjection := mkProjection { schema : nat; left_ : list nat; right_ : list nat }.

(** [try_new]; [schema.project] fails on a position out of range. *)
Definition projection_try_new (join_type : JoinType)
    (schema left_schema right_schema : nat) (projection : list nat) : Result JoinProjection :=
  if decide (Forall (λ i, i < schema) projection) then
    let n := length projection in
    match join_type with
    | Inner | Left | Right | Full =>
        let '(l, r) := foldl (λ '(l, r) i,
            if decide (i < left_schema) then (l ++ [i], r)
            else if decide (i - left_schema < right_schema) then (l, r ++ [i - left_schema])
            else (l, r)) ([], []) projection in
        Ok (mkProjection n l r)
    | LeftAnti | LeftSemi => Ok (mkProjection n projection [])
    | RightAnti | RightSemi => Ok (mkProjection n [] projection)
    | Existence =>
        Ok (mkProjection n (filter (λ i, i < left_schema) projection) [])
    end
  else Err (Execution "project index out of bounds").

Definition project (idxs : list nat) (cols : list (list V)) : Result (list (list V)) :=
  rmapM (index cols) idxs.
Definition project_left (p : JoinProjection) := project (left_ p).
Definition project_right (p : JoinProjection) := project (right_ p).

(** ** JoinFilter *)

Record ColumnIndex := mkColumnIndex { side : JoinSide; col_index : nat }.

(** DataFusion's [ColumnarValue] of a boolean expression. *)
Inductive ColumnarValue := Scalar (v : option bool) | Array (vs : list (option bool)).

(** [expression] stands for the evaluation of the residual predicate on the compact
    batch, which belongs to DataFusion. *)
Record JoinFilter := mkFilter {
  expression : RecordBatch → Result ColumnarValue;
  column_indices : list ColumnIndex;
  filter_schema : nat }.

Definition filter_column (left_cols right_cols : list (list V)) (c : ColumnIndex)
    : Result (list V) :=
  match side c with
  | SideLeft => match left_cols !! col_index c with
      | Some x => Ok x
      | None => Err (Execution "join filter left column index out of range") end
  | SideRight => match right_cols !! col_index c with
      | Some x => Ok x
      | None => Err (Execution "join filter right column index out of range") end
  | SideNone => Err (Execution "join filter column side must be left or right")
  end.

(** A null of the predicate counts as not matched. *)
Definition filter_evaluate (f : JoinFilter) (left_cols right_cols : list (list V)) (n : nat)
    : Result (list (option bool)) :=
  cols ← rmapM (filter_column left_cols right_cols) (column_indices f);
  batch ← try_new_batch (filter_schema f) cols n;
  v ← expression f batch;
  match v with
  | Scalar (Some true) => Ok (replicate n (Some true))
  | Scalar _ => Ok (replicate n (Some false))
  | Array selected => Ok ((λ b, Some (bool_decide (b = Some true))) <$> selected)
  end.

(** ** Rows of gathered columns *)

Definition cols_len (cols : list (list V)) (n : nat) : Prop := Forall (λ c, length c = n) cols.

(** Row [i], or a row of nulls. *)
Definition row_opt (cols : list (list V)) (i : option nat) : list V :=
  match i with Some i => row_at cols i | None => replicate (length cols) null end.

Lemma row_at_app c1 c2 i : row_at (c1 ++ c2) i = row_at c1 i ++ row_at c2 i.
Proof. apply fmap_app. Qed.

Definition idx_ok (n : nat) (i : option nat) : Prop := match i with Some i => i < n | None => True end.

Lemma take_opt_ok c n i : length c = n → idx_ok n i →
  take_opt c i = Ok (match i with Some i => nth i c null | None => null end).
Proof.
  intros <- Hi. destruct i as [i|]; [|done]. cbn in *. apply index_Ok.
  destruct (lookup_lt_is_Some_2 c i Hi) as [x Hx]. by rewrite nth_lookup, Hx.
Qed.

Lemma rmapM_pure {A B} (f : A → Result B) (g : A → B) l :
  (∀ x, x ∈ l → f x = Ok (g x)) → rmapM f l = Ok (g <$> l).
Proof.
  intros Hf. rewrite (rmapM_ext _ (λ x, Ok (g x))) by done. clear.
  induction l as [|x l IH]; [done|]. cbn. rewrite IH. done.
Qed.

Definition taken (cols : list (list V)) (indices : list (option nat)) : list (list V) :=
  (λ c, (λ i, match i with Some i => nth i c null | None => null end) <$> indices) <$> cols.

Lemma take_cols_ok cols n indices :
  cols_len cols n → Forall (idx_ok n) indices → take_cols cols indices = Ok (taken cols indices).
Proof.
  intros Hc Hi. unfold take_cols, taken. apply rmapM_pure. intros c Hcin. apply rmapM_pure.
  intros i Hiin. unfold cols_len in Hc. rewrite Forall_forall in Hc. rewrite Forall_forall in Hi.
  apply (take_opt_ok c n); auto.
Qed.

Lemma taken_len cols indices : cols_len (taken cols indices) (length indices).
Proof. unfold cols_len, taken. apply Forall_fmap, Forall_true. intros c. cbn. apply length_fmap. Qed.

Lemma taken_row cols indices j i :
  indices !! j = Some i → row_at (taken cols indices) j = row_opt cols i.
Proof.
  intros Hj. unfold row_at, taken, row_opt. rewrite <- list_fmap_compose.
  destruct i as [i|].
  - apply list_fmap_ext. intros _ c _. unfold compose. rewrite nth_lookup, list_lookup_fmap, Hj. done.
  - transitivity ((λ _, null) <$> cols); [|clear; induction cols; cbn; by f_equal].
    apply list_fmap_ext. intros _ c _. unfold compose. rewrite nth_lookup, list_lookup_fmap, Hj. done.
Qed.

(** Gathering every row in order is the identity: the fast path of the joiners. *)
Lemma taken_seq cols n : cols_len cols n → taken cols (Some <$> seq 0 n) = cols.
Proof.
  intros Hc. unfold taken. rewrite <- (list_fmap_id cols) at 2. apply list_fmap_ext.
  intros k c Hk. unfold cols_len in Hc. rewrite Forall_lookup in Hc. specialize (Hc k c Hk).
  apply list_eq. intros i. rewrite <- list_fmap_compose, list_lookup_fmap.
  destruct (decide (i < n)).
  - rewrite lookup_seq_lt by done. cbn. rewrite nth_lookup.
    destruct (lookup_lt_is_Some_2 c i ltac:(lia)) as [x ->]. done.
  - rewrite !lookup_ge_None_2 by (rewrite ?length_seq; unfold id; lia). done.
Qed.

Lemma project_ok idxs cols n :
  Forall (λ i, i < length cols) idxs → cols_len cols n →
  ∃ cols', project idxs cols = Ok cols' ∧ cols_len cols' n ∧ length cols' = length idxs ∧
    ∀ i, row_at cols' i = (λ k, nth k (row_at cols i) null) <$> idxs.
Proof.
  intros Hi Hc. unfold project. induction Hi as [|k idxs Hk _ (cols' & IH & IHl & IHn & IHr)].
  { exists []. split_and!; try done. by constructor. }
  destruct (lookup_lt_is_Some_2 cols k Hk) as [c Hck].
  exists (c :: cols'). cbn [rmapM]. rewrite (proj2 (index_Ok _ _ _) Hck). cbn [mbind Result_bind].
  rewrite IH. cbn [mbind Result_bind mret Result_ret]. split_and!; [done| |cbn; by rewrite IHn|].
  - constructor; [|done]. unfold cols_len in Hc. rewrite Forall_lookup in Hc. eauto.
  - intros i. change (row_at (c :: cols') i) with (nth i c null :: row_at cols' i).
    rewrite IHr, fmap_cons. f_equal. unfold row_at. by rewrite (nth_lookup _ k), list_lookup_fmap, Hck.
Qed.

Lemma null_cols_len f n : cols_len (null_cols f n) n.
Proof. apply Forall_replicate, length_replicate. Qed.

Lemma null_cols_row f n i : row_at (null_cols f n) i = replicate f null.
Proof.
  unfold row_at, null_cols. rewrite fmap_replicate. f_equal.
  rewrite nth_lookup. destruct (replicate n null !! i) eqn:E; [|done].
  by apply lookup_replicate in E as [-> _].
Qed.

(** ** Row-wise filters *)

(** The value a filter column takes on a pair of rows. *)
Definition pick (l r : list V) (c : ColumnIndex) : V :=
  match side c with SideLeft => nth (col_index c) l null | _ => nth (col_index c) r null end.

(** The predicate is evaluated row by row as [e]; its columns exist. *)
Record filter_ok (f : JoinFilter) (nl nr : nat) (e : list V → option bool) : Prop := {
  fo_expr : ∀ b, batch_ok b → expression f b = Ok (Array (e <$> batch_rows b));
  fo_schema : filter_schema f = length (column_indices f);
  fo_cols : Forall (λ c, match side c with
    | SideLeft => col_index c < nl | SideRight => col_index c < nr | SideNone => False end)
    (column_indices f) }.

(** Whether a pair of rows passes the optional filter. *)
Definition passes (fe : option (JoinFilter * (list V → option bool))) (l r : list V) : bool :=
  match fe with
  | None => true
  | Some (f, e) => bool_decide (e (pick l r <$> column_indices f) = Some true)
  end.

Lemma filter_evaluate_ok f e lc rc n :
  filter_ok f (length lc) (length rc) e → cols_len lc n → cols_len rc n →
  filter_evaluate f lc rc n
  = Ok ((λ i, Some (passes (Some (f, e)) (row_at lc i) (row_at rc i))) <$> seq 0 n).
Proof.
  intros [He Hs Hc] Hl Hr. unfold filter_evaluate.
  set (cols := (λ c, match side c with
    | SideLeft => nth (col_index c) lc [] | _ => nth (col_index c) rc [] end) <$> column_indices f).
  assert (rmapM (filter_column lc rc) (column_indices f) = Ok cols) as ->.
  { apply rmapM_pure. intros c Hin. rewrite Forall_forall in Hc. specialize (Hc c Hin).
    unfold filter_column. destruct (side c); [| |done].
    - destruct (lookup_lt_is_Some_2 lc _ Hc) as [x Hx]. by rewrite nth_lookup, Hx.
    - destruct (lookup_lt_is_Some_2 rc _ Hc) as [x Hx]. by rewrite nth_lookup, Hx. }
  assert (Forall (λ c, length c = n) cols) as Hlen.
  { unfold cols. apply Forall_fmap, Forall_forall. intros c Hin. rewrite Forall_forall in Hc.
    specialize (Hc c Hin). cbn. unfold cols_len in *. rewrite Forall_lookup in Hl, Hr.
    destruct (side c); [| |done].
    - destruct (lookup_lt_is_Some_2 lc _ Hc) as [x Hx]. rewrite nth_lookup, Hx. eauto.
    - destruct (lookup_lt_is_Some_2 rc _ Hc) as [x Hx]. rewrite nth_lookup, Hx. eauto. }
  cbn [mbind Result_bind]. unfold try_new_batch.
  rewrite decide_True by (split; [unfold cols; by rewrite length_fmap|done]).
  cbn [mbind Result_bind]. rewrite He by done. cbn [mbind Result_bind]. f_equal.
  unfold batch_rows. cbn [columns num_rows]. rewrite <- !list_fmap_compose.
  apply list_fmap_ext. intros k i _. unfold compose. cbn [passes]. f_equal.
  apply bool_decide_ext. enough (row_at cols i = pick (row_at lc i) (row_at rc i) <$> column_indices f)
    as -> by done.
  unfold row_at, cols. rewrite <- list_fmap_compose. apply list_fmap_ext. intros j c Hj.
  rewrite Forall_lookup in Hc. specialize (Hc j c Hj). unfold compose, pick.
  destruct (side c); [| |done]; rewrite !(nth_lookup _ (col_index c)), list_lookup_fmap.
  - destruct (lookup_lt_is_Some_2 lc _ Hc) as [x ->]. done.
  - destruct (lookup_lt_is_Some_2 rc _ Hc) as [x ->]. done.
Qed.

(** The filtered columns hold the rows that pass. *)
Lemma filter_col_select (sel : nat → bool) (c : list V) n :
  length c = n →
  filter_col ((λ i, Some (sel i)) <$> seq 0 n) c
  = (λ i, nth i c null) <$> filter (λ i, sel i = true) (seq 0 n).
Proof.
  intros <-. unfold filter_col. assert (∀ a, snd <$> filter (λ x, x.1 = Some true)
      (zip ((λ i, Some (sel i)) <$> seq a (length c)) c)
    = (λ i, nth (i - a) c null) <$> filter (λ i, sel i = true) (seq a (length c))) as H.
  { induction c as [|x c IH]; intros a; [done|]. cbn [length seq]. rewrite fmap_cons. cbn [zip_with].
    rewrite !filter_cons. cbn [fst].
    specialize (IH (S a)). destruct (decide (sel a = true)), (decide (Some (sel a) = Some true));
      try congruence.
    - rewrite !fmap_cons, Nat.sub_diag. cbn [snd nth]. f_equal. etransitivity; [exact IH|].
      apply list_fmap_ext. intros k i [_ Hi%elem_of_seq]%list_elem_of_lookup_2%list_elem_of_filter.
      by replace (i - a) with (S (i - S a)) by lia.
    - etransitivity; [exact IH|].
      apply list_fmap_ext. intros k i [_ Hi%elem_of_seq]%list_elem_of_lookup_2%list_elem_of_filter.
      by replace (i - a) with (S (i - S a)) by lia. }
  etransitivity; [apply H|]. apply list_fmap_ext. intros k i _. by rewrite Nat.sub_0_r.
Qed.

Lemma filter_cols_rows (sel : nat → bool) cols n :
  cols_len cols n →
  let cols' := filter_col ((λ i, Some (sel i)) <$> seq 0 n) <$> cols in
  let kept := filter (λ i, sel i = true) (seq 0 n) in
  cols_len cols' (length kept) ∧ ∀ j i, kept !! j = Some i → row_at cols' j = row_at cols i.
Proof.
  intros Hc. cbn zeta. unfold cols_len in *. split.
  - apply Forall_fmap. eapply Forall_impl; [exact Hc|]. intros c Hlen. cbn.
    rewrite (filter_col_select sel c n Hlen). apply length_fmap.
  - intros j i Hj. unfold row_at. rewrite <- list_fmap_compose. apply list_fmap_ext.
    intros k c Hk. rewrite Forall_lookup in Hc. unfold compose.
    rewrite (filter_col_select sel c n (Hc k c Hk)), nth_lookup, list_lookup_fmap, Hj. done.
Qed.

(** ** Rows of batches *)

Definition proj_row (idxs : list nat) (row : list V) : list V := (λ k, nth k row null) <$> idxs.

(** The rows of a batch whose columns hold one row per element of a list. *)
Lemma batch_rows_list {A} (f : A → list V) (l : list A) cols :
  (∀ k x, l !! k = Some x → row_at cols k = f x) →
  batch_rows (mkBatch (length l) cols) = f <$> l.
Proof.
  intros Hf. unfold batch_rows. cbn. apply list_eq. intros k. rewrite !list_lookup_fmap.
  destruct (l !! k) as [x|] eqn:E.
  - rewrite lookup_seq_lt by (by eapply lookup_lt_Some). cbn. f_equal. by apply Hf.
  - rewrite lookup_ge_None_2; [done|]. rewrite length_seq. by apply lookup_ge_None.
Qed.

Lemma filter_nth {A} (Q : A → bool) (l : list A) d :
  filter (λ x, Q x = true) l
  = (λ i, nth i l d) <$> filter (λ i, Q (nth i l d) = true) (seq 0 (length l)).
Proof.
  assert (∀ a, filter (λ x, Q x = true) l = (λ i, nth (i - a) l d) <$>
    filter (λ i, Q (nth (i - a) l d) = true) (seq a (length l))) as Hgen.
  { induction l as [|x l IH]; intros a; [done|]. cbn [length seq]. rewrite !filter_cons.
    rewrite Nat.sub_diag. change (nth 0 (x :: l) d) with x. specialize (IH (S a)).
    assert (filter (λ i, Q (nth (i - a) (x :: l) d) = true) (seq (S a) (length l))
      = filter (λ i, Q (nth (i - S a) l d) = true) (seq (S a) (length l))) as E.
    { apply filter_ext_elem. intros i Hi%elem_of_seq. by replace (i - a) with (S (i - S a)) by lia. }
    rewrite E. rewrite IH. case_decide; [rewrite fmap_cons, Nat.sub_diag; change (nth 0 (x :: l) d) with x; f_equal|];
      apply list_fmap_ext; intros k i [_ Hi%elem_of_seq]%list_elem_of_lookup_2%list_elem_of_filter;
      by replace (i - a) with (S (i - S a)) by lia. }
  rewrite (Hgen 0). rewrite (filter_ext_elem _ (λ i, Q (nth i l d) = true)).
  - apply list_fmap_ext. intros k i _. by rewrite Nat.sub_0_r.
  - intros i _. by rewrite Nat.sub_0_r.
Qed.

Lemma count_selected (sel : nat → bool) l :
  length (filter (λ b, b = Some true) ((λ i, Some (sel i)) <$> l))
  = length (filter (λ i, sel i = true) l).
Proof.
  induction l as [|i l IH]; [done|]. rewrite fmap_cons, !filter_cons.
  destruct (decide (Some (sel i) = Some true)), (decide (sel i = true)); cbn; congruence.
Qed.

End Batches.
Arguments mkBatch {V} num_rows columns.
Arguments num_rows {V} r.
Arguments columns {V} r.
Arguments expression {V} j.
Arguments column_indices {V} j.
Arguments filter_schema {V} j.
