(* ===== verification/HashArrays.v ===== *)
(** * Hashes of columns

    native-engine/datafusion-ext-commons/src/spark_hash.rs: the hash of every row over a
    list of columns, column by column, each value's hash being the seed of the next.  Hash
    partitioning and the hash joins use it with Murmur3 and XxHash64.

    [hash_val] is the hash of a logical value; [create_hashes_rows] shows that the column
    loops, with their shortcuts for columns without nulls, and the walk through nested
    arrays compute it for every row.  Dictionary arrays are not among the arrays of [Arrow]. *)

From S2P Require Import Prelude MachineInt Utf8 Arrow ArrowRef BatchSerde SparkHash.

Set Default Proof Using "Type".

Definition i16 := wraps 16.

Section HashArrays.
Context `{Ops : ArrowOps} (h : list Z → Z → Result Z).

(** [(value as $ty).to_le_bytes()] with the type of the macro's argument. *)
Definition prim_hash_bytes (t : PrimitiveType) (value : Z) : list Z :=
  match t with
  | Int8 => le_bytes 4 (i8 value)
  | Int16 => le_bytes 4 (i16 value)
  | t => le_bytes (byte_width t) value
  end.

Definition bool_hash_bytes (value : bool) : list Z := le_bytes 4 (if value then 1 else 0).

(** [array.value(i)] of a bytes array. *)
Definition bytes_value (offsets data : list Z) (i : nat) : Result (list Z) :=
  start ← index offsets i;
  end_ ← index offsets (i + 1);
  if decide (0 <= start <= end_ ∧ end_ <= Z.of_nat (length data))%Z then
    Ok (sub data (Z.to_nat start) (Z.to_nat end_))
  else Panic.

(** [list_array.value(idx)]: the slice between two offsets. *)
Definition list_value (offsets : list Z) (values : Array) (idx : nat) : Result Array :=
  start ← index offsets idx;
  end_ ← index offsets (idx + 1);
  Ok (slice values (Z.to_nat start) (Z.to_nat end_ - Z.to_nat start)).

(** The primitive types that [hash_one] and [hash_array] have cases for. *)
Definition hashes_one (t : PrimitiveType) : bool :=
  match t with
  | UInt8 | UInt16 | UInt32 | UInt64 => false
  | Timestamp Nanosecond _ => true
  | Timestamp _ tz => bool_decide (tz = None)
  | _ => true
  end.

Definition hashes_column (t : PrimitiveType) : bool :=
  match t with UInt8 | UInt16 | UInt32 | UInt64 => false | _ => true end.

(** The recursion follows the data type. *)
Fixpoint hash_one (d : DataType) (col : Array) (idx : nat) (hash : Z) : Result Z :=
  if null_at (nulls_of col) idx then Ok hash
  else
    match d, col with
    | Null, _ => Ok hash
    | Boolean, BooleanArray _ values =>
        if decide (idx < bb_len values) then h (bool_hash_bytes (bits_at values idx)) hash else Panic
    | Primitive t, PrimitiveArray _ _ values =>
        if hashes_one t then v ← index values idx; h (prim_hash_bytes t v) hash else Panic
    | (Utf8 | Binary), BytesArray _ _ offsets data => bs ← bytes_value offsets data idx; h bs hash
    | List _ d, ListArray _ _ _ offsets values =>
        value_array ← list_value offsets values idx;
        rfoldM (λ hash i, hash_one d value_array i hash) hash (seq 0 (alen value_array))
    | Map _ (Struct [(_, kd); (_, vd)]) _, MapArray _ _ _ _ offsets _ entries =>
        kv ← rmapM (λ c, list_value offsets c idx) entries;
        key_array ← index kv 0;
        value_array ← index kv 1;
        rfoldM (λ hash i, hash ← hash_one kd key_array i hash; hash_one vd value_array i hash) hash
          (seq 0 (alen key_array))
    | Struct fs, StructArray _ _ _ columns =>
        (fix go (fs : list (bool * DataType)) (columns : list Array) (hash : Z) : Result Z :=
           match fs, columns with
           | (_, d) :: fs, col :: columns => hash ← hash_one d col idx hash; go fs columns hash
           | _, _ => Ok hash
           end) fs columns hash
    | _, _ => Panic
    end.

Definition null_count (a : Array) : nat := length (filter (λ i, null_at (nulls_of a) i = true) (seq 0 (alen a))).

(** The loop over the buffer: without a null every value is hashed, otherwise the valid ones. *)
Definition hash_loop (array : Array) (hashes : list Z) (value : nat → Result (list Z)) : Result (list Z) :=
  if decide (null_count array = 0) then rmapM (λ '(i, hash), bs ← value i; h bs hash) (enumerate hashes)
  else rmapM (λ '(i, hash), if negb (null_at (nulls_of array) i) then bs ← value i; h bs hash else Ok hash) (enumerate hashes).

Definition hash_array (array : Array) (hashes : list Z) : Result (list Z) :=
  _ ← rassert (bool_decide (alen array = length hashes));
  match array with
  | NullArray _ => Ok hashes
  | BooleanArray _ values => hash_loop array hashes (λ i, Ok (bool_hash_bytes (bits_at values i)))
  | PrimitiveArray t _ values =>
      if hashes_column t then hash_loop array hashes (λ i, v ← index values i; Ok (prim_hash_bytes t v))
      else rmapM (λ '(i, hash), hash_one (data_type array) array i hash) (enumerate hashes)
  | BytesArray _ _ offsets data => hash_loop array hashes (bytes_value offsets data)
  | _ => rmapM (λ '(i, hash), hash_one (data_type array) array i hash) (enumerate hashes)
  end.

Definition create_hashes (len : nat) (arrays : list Array) (seed : Z) : Result (list Z) :=
  rfoldM (λ hashes col, hash_array col hashes) (replicate len seed) arrays.

End HashArrays.

Definition create_murmur3_hashes `{ArrowOps} (len : nat) (arrays : list Array) (seed : Z) : Result (list Z) :=
  create_hashes Mur.spark_compatible_murmur3_hash len arrays seed.

Definition create_xxhash64_hashes `{ArrowOps} (len : nat) (arrays : list Array) (seed : Z) : Result (list Z) :=
  create_hashes XxHash.spark_compatible_xxhash64_hash len arrays seed.

(** ** The hash of a value *)

Section Spec.
Context `{Ops : ArrowOps} (h : list Z → Z → Result Z) (hp : list Z → Z → Z).
Context (h_ok : ∀ bs seed, bytes_ok bs → h bs seed = Ok (hp bs seed)).

(** The hash of a struct's fields, of the elements of a list, and of the entries of a map. *)
Fixpoint hash_val (d : DataType) (v : Val) (hash : Z) : Z :=
  match d, v with
  | Boolean, VBool b => hp (bool_hash_bytes b) hash
  | Primitive t, VPrim x => hp (prim_hash_bytes t x) hash
  | (Utf8 | Binary), VBytes bs => hp bs hash
  | List _ d, VList vs => foldl (λ hash v, hash_val d v hash) hash vs
  | Map _ (Struct [(_, kd); (_, vd)]) _, VMap [ks; vs] =>
      foldl (λ hash kv, hash_val vd kv.2 (hash_val kd kv.1 hash)) hash (zip ks vs)
  | Struct fs, VStruct vs =>
      (fix go (fs : list (bool * DataType)) (vs : list Val) (hash : Z) : Z :=
         match fs, vs with
         | (_, d) :: fs, v :: vs => go fs vs (hash_val d v hash)
         | _, _ => hash
         end) fs vs hash
  | _, _ => hash
  end.

Lemma hash_val_null d hash : hash_val d VNull hash = hash.
Proof. by destruct d as [| | | | | |? [| | | | | | |[|[] [|[] []]]|] ?| |]. Qed.

(** The types that can be hashed inside a list, map or struct, and as a column. *)
Fixpoint hashable (d : DataType) : Prop :=
  match d with
  | Primitive t => hashes_one t = true
  | List _ d => hashable d
  | Map _ d _ => hashable d
  | Struct fs => foldr (λ f P, hashable f.2 ∧ P) True fs
  | Unsupported _ => False
  | _ => True
  end.

Definition hashable_column (d : DataType) : Prop :=
  match d with Primitive t => hashes_column t = true | d => hashable d end.

Definition hash_one_spec (d : DataType) : Prop :=
  hashable d → ∀ a idx hash, data_type a = d → wf a → idx < alen a →
  hash_one h d a idx hash = Ok (hash_val d (nth idx (rows a) VNull) hash).

Lemma nth_mask nl n f i : i < n → nth i (mask nl n f) VNull = if null_at nl i then VNull else f i.
Proof. intros Hi. unfold mask. by rewrite nth_lookup, list_lookup_fmap, lookup_seq_lt. Qed.

Lemma nth_null a i : i < alen a → null_at (nulls_of a) i = true → nth i (rows a) VNull = VNull.
Proof.
  intros Hi Hn. destruct a; cbn [rows nulls_of alen] in *; try done; rewrite nth_mask by done; by rewrite Hn.
Qed.

(** Values below a valid row are left to the cases of the type. *)
Lemma hash_one_valid d a idx hash :
  idx < alen a →
  (null_at (nulls_of a) idx = false → hash_one h d a idx hash = Ok (hash_val d (nth idx (rows a) VNull) hash)) →
  hash_one h d a idx hash = Ok (hash_val d (nth idx (rows a) VNull) hash).
Proof.
  intros Hi Hv. destruct (null_at (nulls_of a) idx) eqn:E; [|by apply Hv].
  rewrite nth_null, hash_val_null by done. destruct d; cbn [hash_one]; by rewrite E.
Qed.

Lemma rfoldM_nth {A} (l : list A) (d : A) (f : Z → A → Z) (body : Z → nat → Result Z) hash :
  (∀ i hash, i < length l → body hash i = Ok (f hash (nth i l d))) →
  rfoldM body hash (seq 0 (length l)) = Ok (foldl f hash l).
Proof.
  intros Hb. assert (∀ k, k ≤ length l → ∀ hash, rfoldM body hash (seq (length l - k) k) = Ok (foldl f hash (drop (length l - k) l))) as H.
  { induction k as [|k IH]; intros Hk hash'; [by rewrite Nat.sub_0_r, drop_all|]. cbn [seq rfoldM].
    rewrite Hb by lia. cbn [mbind Result_bind]. replace (S (length l - S k)) with (length l - k) by lia. rewrite IH by lia.
    destruct (lookup_lt_is_Some_2 l (length l - S k) ltac:(lia)) as [x Hx]. rewrite (drop_S _ _ _ Hx), nth_lookup, Hx.
    cbn. by replace (S (length l - S k)) with (length l - k) by lia. }
  specialize (H (length l)). rewrite Nat.sub_diag, drop_0 in H. by apply H.
Qed.

Lemma length_rows_array a : length (rows a) = alen a.
Proof. destruct a; cbn; rewrite ?length_replicate; try done; unfold mask; by rewrite length_fmap, length_seq. Qed.

(** What [list_value] returns. *)
Lemma list_value_ok o v idx :
  offsets_wf o (alen v) → wf v → S idx < length o →
  ∃ c, list_value o v idx = Ok c ∧ wf c ∧ data_type c = data_type v ∧ rows c = sub (rows v) (off o idx) (off o (S idx)).
Proof.
  intros Ho Hv Hi. unfold list_value.
  destruct (lookup_lt_is_Some_2 o idx ltac:(lia)) as [x Hx]. destruct (lookup_lt_is_Some_2 o (S idx) Hi) as [y Hy].
  rewrite Nat.add_1_r, (proj2 (index_Ok _ _ _) Hx). cbn [mbind Result_bind]. rewrite (proj2 (index_Ok _ _ _) Hy). cbn [mbind Result_bind].
  assert (Z.to_nat x = off o idx) as -> by (unfold off; by rewrite nth_lookup, Hx).
  assert (Z.to_nat y = off o (S idx)) as -> by (unfold off; by rewrite nth_lookup, Hy).
  pose proof (off_mono _ _ idx (S idx) Ho ltac:(lia) Hi) as Hle1. pose proof (off_mono _ _ (S idx) (length o - 1) Ho ltac:(lia) ltac:(lia)) as Hle2.
  pose proof (ow_end _ _ Ho) as Hend.
  destruct (slice_law v (off o idx) (off o (S idx) - off o idx) Hv ltac:(lia)) as [Hw Ht Hl _ Hr].
  eexists. split; [done|]. split; [done|]. split; [done|]. by rewrite Hr.
Qed.

Lemma bytes_value_ok u nl o d i :
  wf (BytesArray u nl o d) → i < length o - 1 →
  bytes_value o d i = Ok (sub d (off o i) (off o (S i))) ∧ bytes_ok (sub d (off o i) (off o (S i))).
Proof.
  intros (_ & Ho & Hd & _) Hi. unfold bytes_value.
  destruct (lookup_lt_is_Some_2 o i ltac:(lia)) as [x Hx]. destruct (lookup_lt_is_Some_2 o (S i) ltac:(lia)) as [y Hy].
  rewrite Nat.add_1_r, (proj2 (index_Ok _ _ _) Hx). cbn [mbind Result_bind]. rewrite (proj2 (index_Ok _ _ _) Hy). cbn [mbind Result_bind].
  pose proof (off_mono _ _ i (S i) Ho ltac:(lia) ltac:(lia)) as Hle1. pose proof (off_mono _ _ (S i) (length o - 1) Ho ltac:(lia) ltac:(lia)) as Hle2.
  pose proof (ow_end _ _ Ho) as Hend. pose proof (ow_i32 _ _ Ho) as H32. rewrite Forall_lookup in H32.
  pose proof (H32 _ _ Hx). pose proof (H32 _ _ Hy).
  assert (off o i = Z.to_nat x) as Ex by (unfold off; by rewrite nth_lookup, Hx).
  assert (off o (S i) = Z.to_nat y) as Ey by (unfold off; by rewrite nth_lookup, Hy).
  rewrite decide_True by lia. rewrite Ex, Ey. split; [done|]. unfold sub, bytes_ok. by apply Forall_take, Forall_drop.
Qed.

Lemma prim_hash_bytes_ok t v : bytes_ok (prim_hash_bytes t v).
Proof. destruct t; apply le_bytes_ok. Qed.

Lemma columns_hash fs n idx (pn : nat → bool) cs hash :
  Forall (λ f, hash_one_spec f.2) fs → foldr (λ f P, hashable f.2 ∧ P) True fs → cols_wf wf pn n fs cs → idx < n →
  (fix go (fs : list (bool * DataType)) (columns : list Array) (hash : Z) : Result Z :=
     match fs, columns with
     | (_, d) :: fs, col :: columns => hash ← hash_one h d col idx hash; go fs columns hash
     | _, _ => Ok hash
     end) fs cs hash =
  Ok ((fix go (fs : list (bool * DataType)) (vs : list Val) (hash : Z) : Z :=
         match fs, vs with
         | (_, d) :: fs, v :: vs => go fs vs (hash_val d v hash)
         | _, _ => hash
         end) fs ((λ c, nth idx (rows c) VNull) <$> cs) hash).
Proof.
  intros Hfs. revert cs hash. induction Hfs as [|[nb d] fs Hd _ IH]; intros cs hash Hh Hw Hi.
  - by destruct cs.
  - destruct cs as [|c cs]; [by destruct Hw|]. destruct Hw as [(Ht & Hl & Hc & _) Hw]. destruct Hh as [Hh1 Hh2]. rewrite fmap_cons.
    change (hash_one_spec d) in Hd. rewrite (Hd Hh1 c idx hash Ht Hc) by lia. cbn [mbind Result_bind]. by apply IH.
Qed.

Lemma list_hash d : hash_one_spec d → ∀ c hash n, n = length (rows c) → hashable d → data_type c = d → wf c →
  rfoldM (λ hash i, hash_one h d c i hash) hash (seq 0 n) = Ok (foldl (λ hash v, hash_val d v hash) hash (rows c)).
Proof.
  intros Hd c hash n -> Hh Ht Hw. apply (rfoldM_nth _ VNull (λ hash v, hash_val d v hash)). intros i hash' Hi.
  apply Hd; [done..|]. by rewrite <- length_rows_array.
Qed.

(** Keys and values of an entry follow each other. *)
Lemma map_hash kd vd : hash_one_spec kd → hash_one_spec vd → ∀ kc vc hash n,
  n = length (rows kc) → length (rows vc) = n → hashable kd → hashable vd → data_type kc = kd → data_type vc = vd →
  wf kc → wf vc →
  rfoldM (λ hash i, hash ← hash_one h kd kc i hash; hash_one h vd vc i hash) hash (seq 0 n) =
  Ok (foldl (λ hash kv, hash_val vd kv.2 (hash_val kd kv.1 hash)) hash (zip (rows kc) (rows vc))).
Proof.
  intros Hk Hv kc vc hash n -> Hlen Hhk Hhv Htk Htv Hwk Hwv.
  replace (length (rows kc)) with (length (zip (rows kc) (rows vc))) by (rewrite length_zip_with; lia).
  apply (rfoldM_nth _ (VNull, VNull) (λ hash kv, hash_val vd kv.2 (hash_val kd kv.1 hash))).
  intros i hash' Hi. rewrite length_zip_with in Hi.
  assert (nth i (zip (rows kc) (rows vc)) (VNull, VNull) = (nth i (rows kc) VNull, nth i (rows vc) VNull)) as ->.
  { destruct (lookup_lt_is_Some_2 (rows kc) i ltac:(lia)) as [k Hik]. destruct (lookup_lt_is_Some_2 (rows vc) i ltac:(lia)) as [v Hiv].
    rewrite !nth_lookup, Hik, Hiv, lookup_zip_with, Hik, Hiv. done. }
  rewrite (Hk Hhk kc i) by (first [done|rewrite <- length_rows_array; lia]). cbn [mbind Result_bind fst snd].
  apply Hv; first [done|rewrite <- length_rows_array; lia].
Qed.

Lemma sub_length {A} (l : list A) a b : b ≤ length l → length (sub l a b) = b - a.
Proof. intros. unfold sub. rewrite length_take, length_drop. lia. Qed.

Lemma hash_one_all d : hash_one_spec d ∧ match d with Struct fs => Forall (λ f, hash_one_spec f.2) fs | _ => True end.
Proof using h_ok.
  induction d as [| |t| | |nb d IH|nb d s IH|fs IH|w] using DataType_nested_ind.
  - split; [|done]. intros _ a idx hash Ht _ Hi. apply hash_one_valid; [done|]. intros Hn. cbn [hash_one]. rewrite Hn. done.
  - split; [|done]. intros _ a idx hash Ht _ Hi. apply hash_one_valid; [done|]. intros Hn. cbn [hash_one]. rewrite Hn.
    destruct a as [|nl v| | | | | |]; try done; [|by destruct utf8]. cbn [alen nulls_of] in Hi, Hn. cbn [rows]. rewrite decide_True, nth_mask, Hn by done.
    apply h_ok, le_bytes_ok.
  - split; [|done]. intros Hh a idx hash Ht _ Hi. apply hash_one_valid; [done|]. intros Hn. cbn [hash_one]. rewrite Hn.
    destruct a as [| |t' nl vs| | | | |]; try done; [|by destruct utf8]. cbn [alen nulls_of data_type] in Ht, Hi, Hn. injection Ht as ->. cbn [hashable] in Hh. cbn [rows]. rewrite Hh.
    destruct (lookup_lt_is_Some_2 vs idx Hi) as [v Hv]. rewrite (proj2 (index_Ok _ _ _) Hv). cbn [mbind Result_bind].
    rewrite nth_mask, Hn, nth_lookup, Hv by done. apply h_ok, prim_hash_bytes_ok.
  - split; [|done]. intros _ a idx hash Ht Hw Hi. apply hash_one_valid; [done|]. intros Hn. cbn [hash_one]. rewrite Hn.
    destruct a as [| | |u nl o d| | | |]; try done. cbn in Hi, Hn. destruct (bytes_value_ok u nl o d idx Hw Hi) as [-> Hb].
    cbn [mbind Result_bind rows]. rewrite nth_mask, Hn by done. by apply h_ok.
  - split; [|done]. intros _ a idx hash Ht Hw Hi. apply hash_one_valid; [done|]. intros Hn. cbn [hash_one]. rewrite Hn.
    destruct a as [| | |u nl o d| | | |]; try done. cbn in Hi, Hn. destruct (bytes_value_ok u nl o d idx Hw Hi) as [-> Hb].
    cbn [mbind Result_bind rows]. rewrite nth_mask, Hn by done. by apply h_ok.
  - split; [|done]. intros Hh a idx hash Ht Hw Hi. apply hash_one_valid; [done|]. intros Hn. cbn [hash_one]. rewrite Hn.
    destruct a as [| | |[]| nb' d' nl o v | | |]; try done. cbn in Ht, Hi, Hn. injection Ht as -> ->.
    destruct Hw as (_ & Ho & Hvt & Hv & _). destruct (list_value_ok o v idx Ho Hv ltac:(lia)) as (c & -> & Hc & Hct & Hr).
    cbn [mbind Result_bind rows]. rewrite nth_mask, Hn, <- Hr by done. cbn [hash_val].
    apply list_hash; [apply IH|by rewrite length_rows_array|done|congruence|done].
  - split; [|done]. intros Hh a idx hash Ht Hw Hi. apply hash_one_valid; [done|]. intros Hn.
    destruct a as [| | |[]| | nb' fs s' nl o n cs | |]; try done. cbn in Ht. injection Ht as -> <- ->.
    destruct IH as [_ IH]. destruct Hw as (_ & Ho & Hfs & Hcs). destruct fs as [|[nk kd] [|[nv vd] []]]; try done.
    destruct cs as [|kc [|vc []]]; cbn in Hcs; try tauto.
    destruct Hcs as [(Hkt & Hkl & Hkw & _) [(Hvt & Hvl & Hvw & _) _]]. cbn [alen] in Hi.
    apply Forall_cons_1 in IH as [Hk IH]. apply Forall_cons_1 in IH as [Hv _]. destruct Hh as (Hhk & Hhv & _).
    cbn [hash_one]. rewrite Hn. cbn in Hn.
    destruct (list_value_ok o kc idx) as (kc' & Hk' & Hkw' & Hkt' & Hkr); [by rewrite Hkl|done|lia|].
    destruct (list_value_ok o vc idx) as (vc' & Hv' & Hvw' & Hvt' & Hvr); [by rewrite Hvl|done|lia|].
    cbn [rmapM]. rewrite Hk', Hv'. cbn [mbind Result_bind mret Result_ret index lookup list_lookup rows fmap list_fmap].
    rewrite nth_mask, Hn by done. cbn [hash_val]. rewrite <- Hkr, <- Hvr.
    pose proof (off_mono _ _ (S idx) (length o - 1) Ho ltac:(lia) ltac:(lia)) as Hle. pose proof (ow_end _ _ Ho) as Hend.
    apply map_hash; [done|done|by rewrite length_rows_array| |done|done|congruence|congruence|done|done].
    rewrite <- length_rows_array, Hkr, Hvr, !sub_length; [done|rewrite length_rows_array; lia..].
  - assert (Forall (λ f : bool * DataType, hash_one_spec f.2) fs) as Hfs by (eapply Forall_impl; [exact IH|]; by intros f [? _]).
    split; [|done]. intros Hh a idx hash Ht Hw Hi. apply hash_one_valid; [done|]. intros Hn. cbn [hash_one]. rewrite Hn.
    destruct a as [| | |[]| | |fs' nl n cs|]; try done. cbn in Ht, Hi, Hn. injection Ht as ->. destruct Hw as [_ Hw].
    cbn [rows]. rewrite nth_mask, Hn by done. by apply (columns_hash _ n idx (null_at nl)).
  - split; [|done]. intros [].
Qed.

(** ** Columns *)

Lemma null_count_0 a i : null_count a = 0 → i < alen a → null_at (nulls_of a) i = false.
Proof.
  intros Hc Hi. unfold null_count in Hc. apply nil_length_inv in Hc. destruct (null_at (nulls_of a) i) eqn:E; [|done].
  assert (i ∈ filter (λ i, null_at (nulls_of a) i = true) (seq 0 (alen a))) as Hin; [|rewrite Hc in Hin; by apply not_elem_of_nil in Hin].
  apply list_elem_of_filter. split; [done|]. apply elem_of_seq. lia.
Qed.

Lemma rmapM_enumerate {A B} (f : nat * A → Result B) (g : nat → A → B) (l : list A) :
  (∀ i x, l !! i = Some x → f (i, x) = Ok (g i x)) → rmapM f (enumerate l) = Ok (imap g l).
Proof.
  intros Hf. unfold enumerate.
  assert (∀ k, (∀ i x, l !! i = Some x → f (k + i, x) = Ok (g (k + i) x)) →
    rmapM f (imap (λ i x, (k + i, x)) l) = Ok (imap (λ i x, g (k + i) x) l)) as H; [|by apply (H 0)].
  clear Hf. induction l as [|x l IH]; intros k Hf; [done|]. rewrite !imap_cons. cbn [rmapM].
  rewrite (Hf 0 x) by done. cbn [mbind Result_bind].
  assert (imap ((λ i x, (k + i, x)) ∘ S) l = imap (λ i x, (S k + i, x)) l) as -> by (apply imap_ext; intros i y _; cbn; f_equal; lia).
  rewrite IH. 2:{ intros i y Hy. replace (S k + i) with (k + S i) by lia. by apply Hf. }
  cbn. do 2 f_equal. apply imap_ext. intros i y _. cbn. f_equal. lia.
Qed.

(** The hash of row [i] of a column with seed [hash]. *)
Definition hash_row (a : Array) (i : nat) (hash : Z) : Z := hash_val (data_type a) (nth i (rows a) VNull) hash.

Lemma hash_loop_rows a hashes value :
  length hashes = alen a →
  (∀ i, i < alen a → null_at (nulls_of a) i = false →
     ∃ bs, value i = Ok bs ∧ bytes_ok bs ∧ ∀ hash, hash_row a i hash = hp bs hash) →
  hash_loop h a hashes value = Ok (imap (λ i hash, hash_row a i hash) hashes).
Proof using h_ok.
  intros Hl Hv. unfold hash_loop. case_decide as Hc; apply rmapM_enumerate; intros i x Hx; apply lookup_lt_Some in Hx as Hi;
    rewrite Hl in Hi.
  - destruct (Hv i Hi (null_count_0 _ _ Hc Hi)) as (bs & -> & Hb & ->). cbn [mbind Result_bind]. by apply h_ok.
  - destruct (null_at (nulls_of a) i) eqn:E; cbn [negb].
    + unfold hash_row. by rewrite nth_null, hash_val_null.
    + destruct (Hv i Hi E) as (bs & -> & Hb & ->). cbn [mbind Result_bind]. by apply h_ok.
Qed.

Lemma hash_array_ok a hashes :
  wf a → hashable_column (data_type a) → length hashes = alen a →
  hash_array h a hashes = Ok (imap (λ i hash, hash_row a i hash) hashes).
Proof using h_ok.
  intros Hw Hh Hl. unfold hash_array. rewrite bool_decide_eq_true_2 by done. cbn [rassert mbind Result_bind].
  assert (hashable (data_type a) → rmapM (λ '(i, hash), hash_one h (data_type a) a i hash) (enumerate hashes)
    = Ok (imap (λ i hash, hash_row a i hash) hashes)) as Hone.
  { intros Hh1. apply rmapM_enumerate. intros i x Hx. apply lookup_lt_Some in Hx. apply hash_one_all; [done..|lia]. }
  destruct a as [n|nl v|t nl vs|u nl o d|nb d nl o v|nb fs s nl o n cs|fs nl n cs|w n]; try by apply Hone.
  - f_equal. symmetry. apply list_eq. intros i. rewrite list_lookup_imap. by destruct (hashes !! i).
  - apply hash_loop_rows; [done|]. intros i Hi Hn. cbn [alen nulls_of] in Hi, Hn. eexists. split; [done|]. split; [apply le_bytes_ok|].
    intros hash. unfold hash_row. cbn [data_type rows]. by rewrite nth_mask, Hn.
  - cbn [data_type hashable_column] in Hh. rewrite Hh. apply hash_loop_rows; [done|]. intros i Hi Hn. cbn [alen nulls_of] in Hi, Hn.
    destruct (lookup_lt_is_Some_2 vs i Hi) as [v Hv]. rewrite (proj2 (index_Ok _ _ _) Hv). eexists. split; [done|].
    split; [apply prim_hash_bytes_ok|]. intros hash. unfold hash_row. cbn [data_type rows]. by rewrite nth_mask, Hn, nth_lookup, Hv.
  - apply hash_loop_rows; [done|]. intros i Hi Hn. cbn [alen nulls_of] in Hi, Hn. destruct (bytes_value_ok u nl o d i Hw Hi) as [-> Hb].
    eexists. split; [done|]. split; [done|]. intros hash. unfold hash_row. cbn [data_type rows]. rewrite nth_mask, Hn by done. by destruct u.
Qed.

(** The hash of a row over all columns, from the first on. *)
Definition row_hash (arrays : list Array) (seed : Z) (i : nat) : Z :=
  foldl (λ hash a, hash_row a i hash) seed arrays.

Lemma create_hashes_ok len arrays seed :
  Forall (λ a, wf a ∧ hashable_column (data_type a) ∧ alen a = len) arrays →
  create_hashes h len arrays seed = Ok (row_hash arrays seed <$> seq 0 len).
Proof using h_ok.
  intros Ha. unfold create_hashes.
  assert (∀ hashes : list Z, length hashes = len →
    rfoldM (λ hashes col, hash_array h col hashes) hashes arrays = Ok (imap (λ i hash, row_hash arrays hash i) hashes)) as H.
  { induction Ha as [|a arrays (Hw & Hh & Hal) _ IH]; intros hashes Hl; cbn [rfoldM].
    - f_equal. symmetry. apply list_eq. intros i. rewrite list_lookup_imap. by destruct (hashes !! i).
    - rewrite hash_array_ok by congruence. cbn [mbind Result_bind]. rewrite IH by (by rewrite length_imap). f_equal.
      apply list_eq. intros i. rewrite !list_lookup_imap. by destruct (hashes !! i). }
  rewrite H by apply length_replicate. f_equal. apply list_eq. intros i. rewrite list_lookup_imap, list_lookup_fmap.
  destruct (decide (i < len)).
  - by rewrite lookup_replicate_2, lookup_seq_lt.
  - rewrite lookup_ge_None_2, lookup_ge_None_2; [done|rewrite length_seq; lia|rewrite length_replicate; lia].
Qed.

End Spec.

(** ** The hashes of the engine *)

Definition pure_hash (h : list Z → Z → Result Z) (data : list Z) (seed : Z) : Z :=
  match h data seed with Ok x => x | _ => 0%Z end.

(** C13: hashing a batch column by column, with the loops that skip null checks and the
    walk through nested lists, maps and structs, gives for every row the hash that folds
    the hash function over the logical values of its columns, where a null leaves the
    hash as it is. *)
Theorem create_hashes_rows `{ArrowOps} (h : list Z → Z → Result Z) len arrays seed :
  (∀ data seed, bytes_ok data → ∃ x, h data seed = Ok x) →
  Forall (λ a, wf a ∧ hashable_column (data_type a) ∧ alen a = len) arrays →
  create_hashes h len arrays seed = Ok (row_hash (pure_hash h) arrays seed <$> seq 0 len).
Proof.
  intros Hh. apply create_hashes_ok. intros bs seed' Hb. unfold pure_hash. by destruct (Hh bs seed' Hb) as [x ->].
Qed.

Definition murmur3 : list Z → Z → Z := pure_hash Mur.spark_compatible_murmur3_hash.

Lemma create_murmur3_hashes_ok `{ArrowOps} len arrays seed :
  Forall (λ a, wf a ∧ hashable_column (data_type a) ∧ alen a = len) arrays →
  create_murmur3_hashes len arrays seed = Ok (row_hash murmur3 arrays seed <$> seq 0 len).
Proof.
  apply create_hashes_ok. intros bs seed' _. unfold murmur3, pure_hash. by rewrite murmur3_hash_ok.
Qed.

(** ** Concrete columns *)

Module HashSample.

(** The vectors of the unit tests for [i8]. *)
Example murmur3_i8 :
  create_murmur3_hashes 5 [PrimitiveArray Int8 None [1; 0; 255; 127; 128]%Z] 42 =
  Ok (i32 <$> [0xdea578e3; 0x379fae8f; 0xa0590e3d; 0x43b4d8ed; 0x422a1365]%Z).
Proof. vm_compute. reflexivity. Qed.

Definition tz_timestamps : Array := PrimitiveArray (Timestamp Microsecond (Some "UTC"%string)) None [7%Z].

(** A timestamp with a time zone is hashed as a column, but not inside a struct. *)
Example timestamp_tz_in_struct :
  match create_murmur3_hashes 1 [tz_timestamps] 42 with Ok _ => true | _ => false end = true ∧
  create_murmur3_hashes 1 [StructArray [(true, Primitive (Timestamp Microsecond (Some "UTC"%string)))] None 1 [tz_timestamps]] 42 = Panic.
Proof. split; vm_compute; reflexivity. Qed.

Lemma create_hashes_rows_witness :
  create_hashes Mur.spark_compatible_murmur3_hash 3 [sample_i32; sample_str; sample_list] 42 =
  Ok (row_hash (pure_hash Mur.spark_compatible_murmur3_hash) [sample_i32; sample_str; sample_list] 42 <$> seq 0 3).
Proof.
  apply create_hashes_rows.
  - intros data seed _. rewrite murmur3_hash_ok. eauto.
  - assert (Forall (λ a, hashable_column (data_type a)) [sample_i32; sample_str; sample_list]) as Hh by (repeat constructor).
    pose proof samples_ok as Hs. rewrite Forall_forall in *. intros a Ha. destruct (Hs a Ha) as [[Hw _] Hl]. auto.
Defined.

End HashSample.
