(* ===== verification/Floats.v ===== *)
(** * Floating point

    [f32] and [f64] over the IEEE operations of the Standard Library: the bit patterns that
    arrays hold, rounding to an integral value, and the casts of [as].  Arithmetic is
    [SFadd], [SFsub], [SFmul] and [SFdiv] at the precision of the type. *)

From Stdlib Require Export SpecFloat.
From S2P Require Import Prelude MachineInt.
Local Open Scope Z_scope.

Set Default Proof Using "Type".

(** The number of bits of the significand, with the hidden one, and of the exponent. *)
Record FloatFormat := mkFormat { prec : Z; ebits : Z }.

Definition f32 : FloatFormat := mkFormat 24 8.
Definition f64 : FloatFormat := mkFormat 53 11.

Section Floats.
Context (F : FloatFormat).

Definition emax : Z := 2 ^ (ebits F - 1).
Definition e_min : Z := 3 - emax - prec F.

Definition f_add : spec_float → spec_float → spec_float := SFadd (prec F) emax.
Definition f_sub : spec_float → spec_float → spec_float := SFsub (prec F) emax.
Definition f_mul : spec_float → spec_float → spec_float := SFmul (prec F) emax.
Definition f_div : spec_float → spec_float → spec_float := SFdiv (prec F) emax.

(** [from_bits] and [to_bits]; the bits of a NaN are those of the quiet NaN. *)
Definition f_of_bits (bits : Z) : spec_float :=
  let m := bits mod 2 ^ (prec F - 1) in
  let e := (bits / 2 ^ (prec F - 1)) mod 2 ^ ebits F in
  let s := Z.testbit bits (prec F - 1 + ebits F) in
  if e =? 0 then match m with Zpos m => S754_finite s m e_min | _ => S754_zero s end
  else if e =? 2 ^ ebits F - 1 then (if m =? 0 then S754_infinity s else S754_nan)
  else match m + 2 ^ (prec F - 1) with Zpos m => S754_finite s m (e - 1 + e_min) | _ => S754_nan end.

Definition f_to_bits (x : spec_float) : Z :=
  let sign (s : bool) := if s then 2 ^ (prec F - 1 + ebits F) else 0 in
  let exponent (e : Z) := e * 2 ^ (prec F - 1) in
  match x with
  | S754_zero s => sign s
  | S754_infinity s => sign s + exponent (2 ^ ebits F - 1)
  | S754_nan => exponent (2 ^ ebits F - 1) + 2 ^ (prec F - 2)
  | S754_finite s m e =>
      if Zpos m <? 2 ^ (prec F - 1) then sign s + Zpos m
      else sign s + exponent (e - e_min + 1) + (Zpos m - 2 ^ (prec F - 1))
  end.

(** The integer [n * 2 ^ e] as a float; [s] is the sign of a zero. *)
Definition f_of_scaled (n e : Z) (s : bool) : spec_float := binary_normalize (prec F) emax n e s.

Definition f_of_int (n : Z) : spec_float := f_of_scaled n 0 false.

Definition signed_m (s : bool) (m : positive) : Z := if s then Zneg m else Zpos m.

Definition f_floor (x : spec_float) : spec_float :=
  match x with
  | S754_finite s m e => if 0 <=? e then x else f_of_scaled (signed_m s m / 2 ^ (- e)) 0 s
  | _ => x
  end.

Definition f_ceil (x : spec_float) : spec_float :=
  match x with
  | S754_finite s m e => if 0 <=? e then x else f_of_scaled (- (- signed_m s m / 2 ^ (- e))) 0 s
  | _ => x
  end.

(** [as f32], [as f64] *)
Definition f_cast (x : spec_float) : spec_float :=
  match x with S754_finite s m e => f_of_scaled (signed_m s m) e s | _ => x end.

End Floats.

Definition is_nan (x : spec_float) : bool := match x with S754_nan => true | _ => false end.
Definition is_infinite (x : spec_float) : bool := match x with S754_infinity _ => true | _ => false end.

Definition sign_of (x : spec_float) : bool :=
  match x with S754_zero s | S754_infinity s | S754_finite s _ _ => s | S754_nan => false end.

(** [copysign] with the sign of a number that is not NaN. *)
Definition copysign (x : spec_float) (s : bool) : spec_float :=
  match x with
  | S754_zero _ => S754_zero s
  | S754_infinity _ => S754_infinity s
  | S754_nan => S754_nan
  | S754_finite _ m e => S754_finite s m e
  end.

(** A float towards zero; none for NaN and infinities. *)
Definition f_trunc (x : spec_float) : option Z :=
  match x with
  | S754_zero _ => Some 0
  | S754_finite s m e => Some (if 0 <=? e then signed_m s m * 2 ^ e else Z.quot (signed_m s m) (2 ^ (- e)))
  | _ => None
  end.

(** [as] to a signed integer of [w] bits saturates; NaN becomes zero. *)
Definition f_to_int (w : Z) (x : spec_float) : Z :=
  match x with
  | S754_nan => 0
  | S754_infinity s => if s then - 2 ^ (w - 1) else 2 ^ (w - 1) - 1
  | _ => match f_trunc x with Some n => Z.max (- 2 ^ (w - 1)) (Z.min (2 ^ (w - 1) - 1) n) | None => 0 end
  end.

Lemma f_to_int_range w x : 0 < w → in_s w (f_to_int w x).
Proof.
  intros Hw. unfold f_to_int, in_s. assert (0 < 2 ^ (w - 1)) by (apply Z.pow_pos_nonneg; lia).
  destruct x as [| [] | | s m e]; cbn [f_trunc]; lia.
Qed.

(** On a number that is not NaN it is the truncation, cut to the range of the type. *)
Lemma f_to_int_trunc w x n :
  0 < w → f_trunc x = Some n → in_s w n → f_to_int w x = n.
Proof.
  intros Hw Hx Hn. unfold f_to_int, in_s in *. destruct x; cbn [f_trunc] in *; simplify_eq; lia.
Qed.

(** 0.5, 1.5, -2.5, 0.1 and their images. *)
Example f64_bits :
  (f_to_bits f64 <$> [f_of_bits f64 4602678819172646912; f_of_scaled f64 3 (-1) false; f_of_scaled f64 (-5) (-1) false]) =
  [4602678819172646912; 4609434218613702656; 13836183955189006336] ∧
  f_to_bits f64 (f_div f64 (f_of_int f64 1) (f_of_int f64 10)) = 4591870180066957722 ∧
  (f_to_bits f64 <$> [f_floor f64 (f_of_scaled f64 (-5) (-1) false); f_ceil f64 (f_of_scaled f64 (-5) (-1) false)]) =
  (f_to_bits f64 <$> [f_of_int f64 (-3); f_of_int f64 (-2)]).
Proof. by vm_compute. Qed.
