(* ===== verification/Columnar.v ===== *)
(** * Arguments and results of functions

    DataFusion passes to a function columns and single values ([ColumnarValue]).  A column
    is its type and its rows (the rows of an [Arrow.Array]); the value of an integer or
    decimal row is its number, the value of a float row its bit pattern.  [iter] is the
    iterator over the rows of an array of a type, [from_iter] collects one. *)

From S2P Require Import Prelude MachineInt Arrow.

Set Default Proof Using "Type".

Record Column := mkColumn { ctype : DataType; cvals : list Val }.

Inductive ColumnarValue :=
  | CArray (a : Column)
  | CScalar (t : DataType) (v : Val).

(** Equality of types. *)
Fixpoint dt_eqb (d1 d2 : DataType) {struct d1} : bool :=
  match d1, d2 with
  | Null, Null | Boolean, Boolean | Utf8, Utf8 | Binary, Binary => true
  | Primitive t1, Primitive t2 => bool_decide (t1 = t2)
  | List n1 d1, List n2 d2 => bool_decide (n1 = n2) && dt_eqb d1 d2
  | Map n1 d1 s1, Map n2 d2 s2 => bool_decide (n1 = n2) && dt_eqb d1 d2 && bool_decide (s1 = s2)
  | Struct fs1, Struct fs2 =>
      (fix go fs1 fs2 {struct fs1} := match fs1, fs2 with
       | [], [] => true
       | (n1, d1) :: fs1, (n2, d2) :: fs2 => bool_decide (n1 = n2) && dt_eqb d1 d2 && go fs1 fs2
       | _, _ => false
       end) fs1 fs2
  | Unsupported w1, Unsupported w2 => bool_decide (w1 = w2)
  | _, _ => false
  end.

Lemma dt_eqb_eq d1 d2 : dt_eqb d1 d2 = true ↔ d1 = d2.
Proof.
  revert d2. induction d1 as [| |t1| | |n1 d1 IH|n1 d1 s1 IH|fs1 IH|w1] using DataType_nested_ind; intros d2;
    destruct d2 as [| |t2| | |n2 d2|n2 d2 s2|fs2|w2]; cbn [dt_eqb]; try (split; [discriminate|discriminate]); try done.
  - rewrite bool_decide_eq_true. split; [by intros ->|by intros [= ->]].
  - rewrite andb_true_iff, bool_decide_eq_true, IH. split; [by intros [-> ->]|by intros [= -> ->]].
  - rewrite !andb_true_iff, !bool_decide_eq_true, IH. split; [by intros [[-> ->] ->]|by intros [= -> -> ->]].
  - trans (fs1 = fs2); [|split; [by intros ->|by intros [= ->]]]. revert fs2. induction IH as [|[n1 d1] fs1 Hd HF IHfs]; intros [|[n2 d2] fs2];
      try (split; discriminate); [done|]. rewrite !andb_true_iff, bool_decide_eq_true, Hd, IHfs. cbn [snd].
    split; [by intros [[-> ->] ->]|by intros [= -> -> ->]].
  - rewrite bool_decide_eq_true. split; [by intros ->|by intros [= ->]].
Qed.

#[export] Instance DataType_eq_dec : EqDecision DataType.
Proof. intros d1 d2. destruct (dt_eqb d1 d2) eqn:E; [left|right]; rewrite <- dt_eqb_eq; [done|by rewrite E]. Defined.

(** Equality of scalar values, floats by their bits. *)
Fixpoint Val_dec (v1 v2 : Val) {struct v1} : {v1 = v2} + {v1 ≠ v2}.
Proof.
  pose proof (List.list_eq_dec Val_dec) as Hl. pose proof (List.list_eq_dec Hl) as Hm.
  decide equality; [apply Bool.bool_dec|apply Z.eq_dec|apply (List.list_eq_dec Z.eq_dec)].
Defined.

#[export] Instance Val_eq_dec : EqDecision Val := Val_dec.

Definition clen (c : Column) : nat := length (cvals c).

Definition is_vnull (v : Val) : bool := match v with VNull => true | _ => false end.

(** [ColumnarValue::into_array]: a single value is repeated. *)
Definition into_array (n : nat) (c : ColumnarValue) : Column :=
  match c with CArray a => a | CScalar t v => mkColumn t (replicate n v) end.

Definition arg_type (c : ColumnarValue) : DataType := match c with CArray a => ctype a | CScalar t _ => t end.

(** The number of a row of a primitive column, none for null. *)
Definition prim_of (v : Val) : option Z := match v with VPrim z => Some z | _ => None end.
Definition val_prim (o : option Z) : Val := match o with Some z => VPrim z | None => VNull end.
Definition bytes_of (v : Val) : option (list Z) := match v with VBytes bs => Some bs | _ => None end.
Definition val_bytes (o : option (list Z)) : Val := match o with Some bs => VBytes bs | None => VNull end.
Definition bool_of (v : Val) : option bool := match v with VBool b => Some b | _ => None end.
Definition val_bool (o : option bool) : Val := match o with Some b => VBool b | None => VNull end.

(** The downcast to an array of a type fails for an array of another type. *)
Definition downcast (d : DataType) (c : Column) : Result Column :=
  if decide (ctype c = d) then Ok c else Err (Execution "could not cast array").

Definition prim_iter (c : Column) : list (option Z) := prim_of <$> cvals c.
Definition prim_from_iter (t : PrimitiveType) (l : list (option Z)) : Column := mkColumn (Primitive t) (val_prim <$> l).
Definition bytes_iter (c : Column) : list (option (list Z)) := bytes_of <$> cvals c.
Definition bytes_from_iter (d : DataType) (l : list (option (list Z))) : Column := mkColumn d (val_bytes <$> l).

(** [opt.map(f)] for a function that can fail. *)
Definition omapM {A B} (f : A → Result B) (o : option A) : Result (option B) :=
  match o with Some x => y ← f x; Ok (Some y) | None => Ok None end.

(** A primitive array from one of another type, value by value. *)
Definition unary (t : PrimitiveType) (f : Z → Result Z) (c : Column) : Result Column :=
  l ← rmapM (omapM f) (prim_iter c); Ok (prim_from_iter t l).

(** [Decimal128Array::with_precision_and_scale] *)
Definition with_precision_and_scale (precision scale : Z) (c : Column) : Result Column :=
  if bool_decide (1 <= precision <= 38 ∧ scale <= precision)%Z
  then Ok (mkColumn (Primitive (Decimal128 precision scale)) (cvals c)) else Err (Execution "invalid precision or scale").

(** ** Laws *)

(** The rows of a column of numbers. *)
Definition prim_rows (c : Column) : Prop := Forall (λ v, v = VNull ∨ ∃ z, v = VPrim z) (cvals c).

Lemma rmapM_omapM_Ok {A B} (f : A → Result B) (g : A → B) (l : list (option A)) :
  (∀ x, Some x ∈ l → f x = Ok (g x)) → rmapM (omapM f) l = Ok ((λ o : option A, g <$> o) <$> l).
Proof.
  intros Hf. apply rmapM_Ok, Forall2_fmap_r, Forall_Forall2_diag, Forall_forall. intros [x|] Hx; [|done].
  cbn [omapM]. by rewrite Hf by done.
Qed.

Lemma unary_Ok t f g c :
  (∀ z, VPrim z ∈ cvals c → f z = Ok (g z)) →
  unary t f c = Ok (mkColumn (Primitive t) ((λ v, val_prim (g <$> prim_of v)) <$> cvals c)).
Proof.
  intros Hf. unfold unary. rewrite (rmapM_omapM_Ok f g).
  - cbn [mbind Result_bind]. unfold prim_from_iter, prim_iter. by rewrite <- !list_fmap_compose.
  - intros z Hz. unfold prim_iter in Hz. apply list_elem_of_fmap in Hz as (v & Hv & Hin). destruct v; try done. injection Hv as ->. by apply Hf.
Qed.

Lemma downcast_Ok d c : ctype c = d → downcast d c = Ok c.
Proof. intros <-. unfold downcast. by rewrite decide_True. Qed.

(** The elements between two offsets. *)
Lemma sub_seq {A} (l : list A) d a b : a ≤ b ≤ length l → sub l a b = (λ j, nth j l d) <$> seq a (b - a).
Proof.
  intros Hab. apply list_eq. intros i. unfold sub. destruct (decide (i < b - a)).
  - rewrite lookup_take_lt, lookup_drop, list_lookup_fmap, lookup_seq_lt by done. cbn.
    destruct (lookup_lt_is_Some_2 l (a + i) ltac:(lia)) as [x Hx]. by rewrite nth_lookup, Hx.
  - rewrite lookup_take_ge by lia. symmetry. apply lookup_ge_None_2. rewrite length_fmap, length_seq. lia.
Qed.
