(* ===== verification/EqComparator.v ===== *)
(** * Comparing rows of arrays

    native-engine/datafusion-ext-commons/src/arrow/eq_comparator.rs: [EqComparator] compares
    the keys of joins.  [make_eq_comparator] follows the nesting of two arrays and returns a
    closure of two row numbers; with [ignores_null] it reads values without looking at the
    validity, as the comparator of keys does.

    [eq_comparator_rows]: without [ignores_null] two rows are equal when their values are and
    contain no null, and with it the same holds for rows that contain no null.
    [eq_comparator_reads_nulls] shows that the comparison of keys depends on the values behind
    nulls otherwise.  Dictionary, map and large arrays are not among the arrays of [Arrow]. *)

From S2P Require Import Prelude MachineInt Arrow ArrowRef HashArrays Columnar Floats.

Set Default Proof Using "Type".

Local Abbreviation bytes := (list Z).

(** [Box<dyn Fn(usize, usize) -> bool>] *)
Definition DynEqComparator : Type := nat → nat → Result bool.

(** [logical_nulls().filter(|x| x.null_count() > 0)] *)
Definition some_nulls (a : Array) : option BitBuffer := if decide (0 < null_count a) then nulls_of a else None.

Definition eq_impl (l r : Array) (ignores_null : bool) (eq : DynEqComparator) : DynEqComparator :=
  if ignores_null then eq
  else match some_nulls l, some_nulls r with
  | None, None => eq
  | Some l, None => λ i j, if null_at (Some l) i then Ok false else eq i j
  | None, Some r => λ i j, if null_at (Some r) j then Ok false else eq i j
  | Some l, Some r => λ i j, if null_at (Some l) i || null_at (Some r) j then Ok false else eq i j
  end.

(** [==] of the native type on bit patterns. *)
Definition native_eq (t : PrimitiveType) (x y : Z) : bool :=
  match t with
  | Float32 => SFeqb (f_of_bits f32 x) (f_of_bits f32 y)
  | Float64 => SFeqb (f_of_bits f64 x) (f_of_bits f64 y)
  | _ => Z.eqb x y
  end.

(** The pairs of types that [downcast_primitive!] takes together. *)
Definition same_native (t1 t2 : PrimitiveType) : bool := bool_decide (DATA_TYPE t1 = DATA_TYPE t2).

Definition eq_primitive (t : PrimitiveType) (l_values r_values : list Z) : DynEqComparator := λ i j,
  x ← index l_values i;
  y ← index r_values j;
  Ok (native_eq t x y).

Definition eq_boolean (l_values r_values : BitBuffer) : DynEqComparator := λ i j,
  _ ← rassert (bool_decide (i < bb_len l_values));
  _ ← rassert (bool_decide (j < bb_len r_values));
  Ok (eqb (bits_at l_values i) (bits_at r_values j)).

Definition eq_bytes (l_offsets l_data r_offsets r_data : list Z) : DynEqComparator := λ i j,
  l ← bytes_value l_offsets l_data i;
  r ← bytes_value r_offsets r_data j;
  Ok (bool_decide (l = r)).

(** The loop over two ranges: whether all pairs are equal. *)
Fixpoint all_pairs (eq : DynEqComparator) (ps : list (nat * nat)) : Result bool :=
  match ps with
  | [] => Ok true
  | (i, j) :: ps => e ← eq i j; if e : bool then all_pairs eq ps else Ok false
  end.

Definition eq_list (l_o r_o : list Z) (eq : DynEqComparator) : DynEqComparator := λ i j,
  l_end ← index l_o (i + 1);
  l_start ← index l_o i;
  r_end ← index r_o (j + 1);
  r_start ← index r_o j;
  let '(l_start, l_end, r_start, r_end) := (Z.to_nat l_start, Z.to_nat l_end, Z.to_nat r_start, Z.to_nat r_end) in
  e ← all_pairs eq (zip (seq l_start (l_end - l_start)) (seq r_start (r_end - r_start)));
  if e : bool then Ok (bool_decide (l_end - l_start = r_end - r_start)) else Ok false.

Definition eq_struct (comparators : list DynEqComparator) : DynEqComparator := λ i j,
  rfoldM (λ (e : bool) eq, if e then eq i j else Ok false) true comparators.

(** The comparators of two lists of columns. *)
Definition column_comparators (make : Array → Array → Result DynEqComparator) : list Array → list Array → Result (list DynEqComparator) :=
  fix go ls rs := match ls, rs with
  | l :: ls, r :: rs => eq ← make l r; eqs ← go ls rs; Ok (eq :: eqs)
  | _, _ => Ok []
  end.

Definition no_order {A} : Result A := Err (Execution "can't compare arrays of different types or without natural order").

Fixpoint make_eq_comparator (ignores_null : bool) (left right : Array) {struct left} : Result DynEqComparator :=
  match left, right with
  | PrimitiveArray t1 _ l_values, PrimitiveArray t2 _ r_values =>
      if same_native t1 t2 then Ok (eq_impl left right ignores_null (eq_primitive t1 l_values r_values)) else no_order
  | BooleanArray _ l_values, BooleanArray _ r_values => Ok (eq_impl left right ignores_null (eq_boolean l_values r_values))
  | BytesArray u1 _ l_offsets l_data, BytesArray u2 _ r_offsets r_data =>
      if eqb u1 u2 then Ok (eq_impl left right ignores_null (eq_bytes l_offsets l_data r_offsets r_data)) else no_order
  | ListArray _ _ _ l_o l_values, ListArray _ _ _ r_o r_values =>
      eq ← make_eq_comparator ignores_null l_values r_values;
      Ok (eq_impl left right ignores_null (eq_list l_o r_o eq))
  | StructArray _ _ _ ls, StructArray _ _ _ rs =>
      if decide (length ls = length rs) then
        comparators ← column_comparators (make_eq_comparator ignores_null) ls rs;
        Ok (eq_impl left right ignores_null (eq_struct comparators))
      else Err (Execution "Cannot compare StructArray with different number of columns")
  | _, _ => no_order
  end.

(** ** The comparator of keys *)

Inductive EqComparator :=
  | EqPrimitive (t : PrimitiveType) (c1 c2 : list Z)
  | EqBytes (o1 d1 o2 d2 : list Z)
  | EqOther (eq : DynEqComparator).

Definition make_eq_comparator_multiple_arrays (cols1 cols2 : list Array) : Result DynEqComparator :=
  if decide (length cols1 = length cols2) then
    eqs ← column_comparators (make_eq_comparator true) cols1 cols2;
    Ok (eq_struct eqs)
  else Err (Execution "make_eq_comparator_multiple_arrays: cols1.len != cols2.len").

(** The types that are compared without a closure. *)
Definition inlined (t : PrimitiveType) : bool :=
  match t with Int8 | Int16 | Int32 | Int64 | Date32 | Date64 => true | _ => false end.

Definition try_new (cols1 cols2 : list Array) : Result EqComparator :=
  let other := eq ← make_eq_comparator_multiple_arrays cols1 cols2; Ok (EqOther eq) in
  match zip cols1 cols2 with
  | [(PrimitiveArray t1 _ c1, PrimitiveArray t2 _ c2)] =>
      if inlined t1 && bool_decide (t1 = t2) then Ok (EqPrimitive t1 c1 c2) else other
  | [(BytesArray u1 _ o1 d1, BytesArray u2 _ o2 d2)] => if eqb u1 u2 then Ok (EqBytes o1 d1 o2 d2) else other
  | _ => other
  end.

(** [value_unchecked] of a bytes array. *)
Definition bytes_unchecked (offsets data : list Z) (i : nat) : Result bytes :=
  match bytes_value offsets data i with Ok v => Ok v | _ => Undef end.

Definition key_eq (c : EqComparator) (i j : nat) : Result bool :=
  match c with
  | EqPrimitive _ c1 c2 => x ← uindex c1 i; y ← uindex c2 j; Ok (Z.eqb x y)
  | EqBytes o1 d1 o2 d2 => x ← bytes_unchecked o1 d1 i; y ← bytes_unchecked o2 d2 j; Ok (bool_decide (x = y))
  | EqOther eq => eq i j
  end.

(** ** Equality of values *)

Definition all_fields (f : DataType → Val → Val → bool) : list (bool * DataType) → list Val → list Val → bool :=
  fix go fs vs1 vs2 {struct fs} := match fs, vs1, vs2 with
  | (_, d) :: fs, v1 :: vs1, v2 :: vs2 => f d v1 v2 && go fs vs1 vs2
  | [], [], [] => true
  | _, _, _ => false
  end.

(** Null equals nothing, and a value that contains null neither. *)
Fixpoint val_eq (d : DataType) (v1 v2 : Val) {struct d} : bool :=
  match d with
  | Primitive t => match v1, v2 with VPrim x, VPrim y => native_eq t x y | _, _ => false end
  | Boolean => match v1, v2 with VBool x, VBool y => eqb x y | _, _ => false end
  | Utf8 | Binary => match v1, v2 with VBytes x, VBytes y => bool_decide (x = y) | _, _ => false end
  | List _ d =>
      match v1, v2 with
      | VList l1, VList l2 => forallb (λ p, val_eq d p.1 p.2) (zip l1 l2) && bool_decide (length l1 = length l2)
      | _, _ => false
      end
  | Struct fs => match v1, v2 with VStruct l1, VStruct l2 => all_fields val_eq fs l1 l2 | _, _ => false end
  | _ => false
  end.

(** No null at any depth. *)
Fixpoint no_null (v : Val) : bool :=
  match v with
  | VNull => false
  | VList vs | VStruct vs => forallb no_null vs
  | VMap cols => forallb (forallb no_null) cols
  | _ => true
  end.

Definition fields_comparable (f : DataType → DataType → Prop) : list (bool * DataType) → list (bool * DataType) → Prop :=
  fix go fs1 fs2 {struct fs1} := match fs1, fs2 with
  | [], [] => True
  | (_, d1) :: fs1, (_, d2) :: fs2 => f d1 d2 ∧ go fs1 fs2
  | _, _ => False
  end.

Fixpoint comparable (d1 d2 : DataType) {struct d1} : Prop :=
  match d1, d2 with
  | Primitive t1, Primitive t2 => same_native t1 t2 = true
  | Boolean, Boolean | Utf8, Utf8 | Binary, Binary => True
  | List _ d1, List _ d2 => comparable d1 d2
  | Struct fs1, Struct fs2 => fields_comparable comparable fs1 fs2
  | _, _ => False
  end.

Definition row (a : Array) (i : nat) : Val := nth i (rows a) VNull.

Lemma val_eq_null_l d v : val_eq d VNull v = false.
Proof. by destruct d. Qed.

Lemma val_eq_null_r d v : val_eq d v VNull = false.
Proof. by destruct d, v. Qed.

Lemma row_mask a nl n f i : rows a = mask nl n f → i < n → null_at nl i = false → row a i = f i.
Proof. intros Hr Hi Hn. unfold row. by rewrite Hr, nth_mask, Hn. Qed.

(** The rows for which a comparator is right. *)
Definition readable (ignores_null : bool) (l r : Array) (i j : nat) : Prop :=
  i < alen l ∧ j < alen r ∧ (ignores_null = true → no_null (row l i) = true ∧ no_null (row r j) = true).

Lemma some_nulls_at a i : i < alen a → match some_nulls a with Some b => null_at (Some b) i | None => false end = null_at (nulls_of a) i.
Proof.
  intros Hi. unfold some_nulls. case_decide as Hc; [by destruct (nulls_of a)|]. symmetry. apply null_count_0; [lia|done].
Qed.

Lemma eq_impl_ok l r ignores_null eq d i j :
  readable ignores_null l r i j →
  (null_at (nulls_of l) i = false → null_at (nulls_of r) j = false → eq i j = Ok (val_eq d (row l i) (row r j))) →
  eq_impl l r ignores_null eq i j = Ok (val_eq d (row l i) (row r j)).
Proof.
  intros (Hi & Hj & Hnn) Heq. unfold eq_impl. destruct ignores_null.
  - destruct (Hnn eq_refl) as [Hl Hr]. apply Heq.
    + destruct (null_at (nulls_of l) i) eqn:E; [|done]. unfold row in Hl. by rewrite (nth_null l i Hi E) in Hl.
    + destruct (null_at (nulls_of r) j) eqn:E; [|done]. unfold row in Hr. by rewrite (nth_null r j Hj E) in Hr.
  - pose proof (some_nulls_at l i Hi) as El. pose proof (some_nulls_at r j Hj) as Er.
    assert (∀ b1 b2, null_at (nulls_of l) i = b1 → null_at (nulls_of r) j = b2 →
      (if b1 || b2 then Ok false else eq i j) = Ok (val_eq d (row l i) (row r j))) as Hcase.
    { intros [] [] H1 H2; cbn [orb]; [| | |by apply Heq].
      - unfold row. by rewrite (nth_null l i Hi H1), val_eq_null_l.
      - unfold row. by rewrite (nth_null l i Hi H1), val_eq_null_l.
      - unfold row. by rewrite (nth_null r j Hj H2), val_eq_null_r. }
    specialize (Hcase _ _ (eq_sym El) (eq_sym Er)).
    destruct (some_nulls l) as [nl|], (some_nulls r) as [nr|]; cbn [orb] in Hcase; rewrite ?orb_false_r in Hcase; exact Hcase.
Qed.

(** ** The cases of the comparator *)

Definition comparator_spec (l : Array) : Prop := ∀ ignores_null r,
  wf l → wf r → comparable (data_type l) (data_type r) →
  ∃ eq, make_eq_comparator ignores_null l r = Ok eq ∧
    ∀ i j, readable ignores_null l r i j → eq i j = Ok (val_eq (data_type l) (row l i) (row r j)).

Lemma native_eq_same t1 t2 x y : same_native t1 t2 = true → native_eq t1 x y = native_eq t2 x y.
Proof. unfold same_native. intros H%bool_decide_eq_true. destruct t1, t2; try discriminate; done. Qed.

Lemma prim_comparator t nl vs : comparator_spec (PrimitiveArray t nl vs).
Proof.
  intros ig r Hl Hr Hc. destruct r as [| |t2 nl2 vs2|[]| | | |]; try done. cbn [data_type comparable] in Hc. cbn [make_eq_comparator]. rewrite Hc.
  eexists. split; [done|]. intros i j Hij. apply eq_impl_ok; [done|]. destruct Hij as (Hi & Hj & _). cbn [nulls_of alen] in *. intros Hn1 Hn2.
  rewrite (row_mask _ nl (length vs) (λ i, VPrim (nth i vs 0%Z)) i), (row_mask _ nl2 (length vs2) (λ i, VPrim (nth i vs2 0%Z)) j) by done.
  unfold eq_primitive. destruct (lookup_lt_is_Some_2 vs i Hi) as [x Hx]. destruct (lookup_lt_is_Some_2 vs2 j Hj) as [y Hy].
  rewrite (proj2 (index_Ok _ _ _) Hx). cbn [mbind Result_bind]. rewrite (proj2 (index_Ok _ _ _) Hy). cbn [mbind Result_bind data_type val_eq].
  by rewrite !nth_lookup, Hx, Hy.
Qed.

Lemma bool_comparator nl v : comparator_spec (BooleanArray nl v).
Proof.
  intros ig r Hl Hr Hc. destruct r as [|nl2 v2| |[]| | | |]; try done. cbn [make_eq_comparator].
  eexists. split; [done|]. intros i j Hij. apply eq_impl_ok; [done|]. destruct Hij as (Hi & Hj & _). cbn [nulls_of alen] in *. intros Hn1 Hn2.
  rewrite (row_mask _ nl (bb_len v) (λ i, VBool (bits_at v i)) i), (row_mask _ nl2 (bb_len v2) (λ i, VBool (bits_at v2 i)) j) by done.
  unfold eq_boolean. by rewrite !bool_decide_eq_true_2 by done.
Qed.

Lemma bytes_comparator u nl o d : comparator_spec (BytesArray u nl o d).
Proof.
  intros ig r Hl Hr Hc. assert (∃ nl2 o2 d2, r = BytesArray u nl2 o2 d2) as (nl2 & o2 & d2 & ->) by (destruct r as [| | |u2 nl2 o2 d2| | | |]; destruct u; try destruct u2; try done; by do 3 eexists).
  cbn [make_eq_comparator]. rewrite eqb_reflx. eexists. split; [done|]. intros i j Hij. apply eq_impl_ok; [done|].
  destruct Hij as (Hi & Hj & _). cbn [nulls_of alen] in *. intros Hn1 Hn2.
  rewrite (row_mask _ nl (length o - 1) (λ i, VBytes (sub d (off o i) (off o (S i)))) i),
    (row_mask _ nl2 (length o2 - 1) (λ i, VBytes (sub d2 (off o2 i) (off o2 (S i)))) j) by done.
  unfold eq_bytes. destruct (bytes_value_ok u nl o d i Hl Hi) as [-> _]. destruct (bytes_value_ok u nl2 o2 d2 j Hr Hj) as [-> _]. by destruct u.
Qed.

Lemma all_pairs_ok eq f ps : (∀ p, p ∈ ps → eq p.1 p.2 = Ok (f p)) → all_pairs eq ps = Ok (forallb f ps).
Proof.
  induction ps as [|[i j] ps IH]; intros Hp; [done|]. cbn [all_pairs forallb]. pose proof (Hp (i, j) ltac:(by left)) as Hij. cbn [fst snd] in Hij. rewrite Hij. cbn [mbind Result_bind].
  destruct (f (i, j)); [|done]. apply IH. intros p Hps. apply Hp. by right.
Qed.

Lemma zip_fmap {A B C D} (f : A → B) (g : C → D) l1 l2 : zip (f <$> l1) (g <$> l2) = (λ p, (f p.1, g p.2)) <$> zip l1 l2.
Proof. revert l2. induction l1 as [|x l1 IH]; intros [|y l2]; try done. rewrite !fmap_cons. cbn [zip_with]. by rewrite IH. Qed.

Lemma forallb_fmap {A B} (f : A → B) (g : B → bool) l : forallb g (f <$> l) = forallb (λ x, g (f x)) l.
Proof. induction l as [|x l IH]; [done|]. rewrite fmap_cons. cbn [forallb]. by rewrite IH. Qed.

(** The range of a list row lies in the child. *)
Lemma list_range o n i :
  offsets_wf o n → i < length o - 1 →
  ∃ x y, o !! i = Some x ∧ o !! (i + 1) = Some y ∧ Z.to_nat x = off o i ∧ Z.to_nat y = off o (S i) ∧ off o i ≤ off o (S i) ≤ n.
Proof.
  intros Ho Hi. destruct (lookup_lt_is_Some_2 o i ltac:(lia)) as [x Hx]. destruct (lookup_lt_is_Some_2 o (S i) ltac:(lia)) as [y Hy].
  exists x, y. rewrite Nat.add_1_r. pose proof (off_mono _ _ i (S i) Ho ltac:(lia) ltac:(lia)).
  pose proof (off_mono _ _ (S i) (length o - 1) Ho ltac:(lia) ltac:(lia)). pose proof (ow_end _ _ Ho).
  split; [done|]. split; [done|]. split; [unfold off; by rewrite nth_lookup, Hx|]. split; [unfold off; by rewrite nth_lookup, Hy|]. lia.
Qed.

Lemma no_null_item a lo hi k :
  forallb no_null (sub (rows a) lo hi) = true → lo ≤ k < hi → hi ≤ alen a → no_null (row a k) = true.
Proof.
  intros Hn Hk Hhi. rewrite forallb_forall in Hn. apply Hn, list_elem_of_In. rewrite (sub_seq _ VNull) by (rewrite length_rows_array; lia).
  apply list_elem_of_fmap. exists k. split; [done|]. apply elem_of_seq. lia.
Qed.

Lemma list_comparator nb d nl o v : comparator_spec v → comparator_spec (ListArray nb d nl o v).
Proof.
  intros IH ig r Hl Hr Hc. destruct r as [| | |[]|nb2 d2 nl2 o2 v2| | |]; try done. destruct Hl as (Hnl & Ho & <- & Hv & _), Hr as (Hnl2 & Ho2 & <- & Hv2 & _).
  cbn [data_type comparable] in Hc. destruct (IH ig v2 Hv Hv2 Hc) as (eq & Heq & Hval). cbn [make_eq_comparator]. rewrite Heq. cbn [mbind Result_bind].
  eexists. split; [done|]. intros i j Hij. apply eq_impl_ok; [done|]. destruct Hij as (Hi & Hj & Hnn). cbn [nulls_of alen] in *. intros Hn1 Hn2.
  assert (row (ListArray nb (data_type v) nl o v) i = VList (sub (rows v) (off o i) (off o (S i)))) as E1
    by exact (row_mask (ListArray nb (data_type v) nl o v) nl (length o - 1) (λ i, VList (sub (rows v) (off o i) (off o (S i)))) i eq_refl Hi Hn1).
  assert (row (ListArray nb2 (data_type v2) nl2 o2 v2) j = VList (sub (rows v2) (off o2 j) (off o2 (S j)))) as E2
    by exact (row_mask (ListArray nb2 (data_type v2) nl2 o2 v2) nl2 (length o2 - 1) (λ i, VList (sub (rows v2) (off o2 i) (off o2 (S i)))) j eq_refl Hj Hn2).
  rewrite E1, E2 in *. destruct (list_range o _ i Ho Hi) as (x & y & Hx & Hy & Ex & Ey & Hb). destruct (list_range o2 _ j Ho2 Hj) as (x2 & y2 & Hx2 & Hy2 & Ex2 & Ey2 & Hb2).
  unfold eq_list. rewrite (proj2 (index_Ok _ _ _) Hy). cbn [mbind Result_bind]. rewrite (proj2 (index_Ok _ _ _) Hx). cbn [mbind Result_bind].
  rewrite (proj2 (index_Ok _ _ _) Hy2). cbn [mbind Result_bind]. rewrite (proj2 (index_Ok _ _ _) Hx2). cbn [mbind Result_bind]. rewrite Ex, Ey, Ex2, Ey2.
  rewrite (all_pairs_ok eq (λ p, val_eq (data_type v) (row v p.1) (row v2 p.2))).
  2: { intros [i' j'] Hp. apply elem_of_zip_l in Hp as Hp1. apply elem_of_zip_r in Hp as Hp2. apply elem_of_seq in Hp1, Hp2. cbn [fst snd] in *. apply Hval.
    split; [lia|]. split; [lia|]. intros Hig. destruct (Hnn Hig) as [Hno1 Hno2]. cbn [no_null] in Hno1, Hno2. split; eapply no_null_item; (done || lia). }
  cbn [mbind Result_bind data_type val_eq]. rewrite (sub_seq (rows v) VNull), (sub_seq (rows v2) VNull) by (rewrite length_rows_array; lia).
  rewrite zip_fmap, forallb_fmap, !length_fmap, !length_seq. cbn [fst snd]. unfold row. by destruct (forallb _ _).
Qed.

Lemma eq_struct_false eqs i j : rfoldM (λ (e : bool) (eq : DynEqComparator), if e then eq i j else Ok false) false eqs = Ok false.
Proof. by induction eqs. Qed.

(** Columns that can be compared, with [n1] and [n2] rows. *)
Definition cols_comparable (n1 n2 : nat) : list Array → list Array → Prop :=
  Forall2 (λ l r, (wf l ∧ alen l = n1) ∧ (wf r ∧ alen r = n2) ∧ comparable (data_type l) (data_type r)).

Definition rows_eq (ls rs : list Array) (i j : nat) : bool := forallb (λ p, val_eq (data_type p.1) (row p.1 i) (row p.2 j)) (zip ls rs).

Definition cols_readable (ignores_null : bool) (ls rs : list Array) (i j : nat) : Prop :=
  ignores_null = true → Forall (λ c, no_null (row c i) = true) ls ∧ Forall (λ c, no_null (row c j) = true) rs.

Lemma columns_comparator ig n1 n2 ls rs :
  Forall comparator_spec ls → cols_comparable n1 n2 ls rs →
  ∃ eqs, column_comparators (make_eq_comparator ig) ls rs = Ok eqs ∧ ∀ i j, i < n1 → j < n2 → cols_readable ig ls rs i j →
    eq_struct eqs i j = Ok (rows_eq ls rs i j).
Proof.
  intros Hls Hc. induction Hc as [|l r ls rs ([Hwl Hn1] & [Hwr Hn2] & Hc1) Hc IH]; [by exists []|]. apply Forall_cons in Hls as [Hl Hls].
  destruct (IH Hls) as (eqs & Heqs & Hval). destruct (Hl ig r Hwl Hwr Hc1) as (eq & Heq & Hv). exists (eq :: eqs).
  change (column_comparators (make_eq_comparator ig) (l :: ls) (r :: rs)) with
    (eq ← make_eq_comparator ig l r; eqs ← column_comparators (make_eq_comparator ig) ls rs; Ok (eq :: eqs)).
  rewrite Heq. cbn [mbind Result_bind]. rewrite Heqs. split; [done|]. intros i j Hi Hj Hnn.
  assert (cols_readable ig ls rs i j ∧ (ig = true → no_null (row l i) = true ∧ no_null (row r j) = true)) as [Hrest Hhead].
  { split; intros Hig; destruct (Hnn Hig) as [[H1 H1']%Forall_cons [H2 H2']%Forall_cons]; done. }
  unfold eq_struct. cbn [rfoldM]. rewrite (Hv i j) by (split; [lia|split; [lia|done]]). cbn [mbind Result_bind]. unfold rows_eq. cbn [zip_with forallb fst snd].
  destruct (val_eq (data_type l) (row l i) (row r j)); cbn [andb]; [|by rewrite eq_struct_false]. by apply Hval.
Qed.

Lemma cols_wf_comparable pn1 pn2 n1 n2 fs1 fs2 ls rs :
  cols_wf wf pn1 n1 fs1 ls → cols_wf wf pn2 n2 fs2 rs → fields_comparable comparable fs1 fs2 → cols_comparable n1 n2 ls rs.
Proof.
  revert fs1 fs2 rs. induction ls as [|l ls IH]; intros [|[nb1 d1] fs1] [|[nb2 d2] fs2] [|r rs] Hw1 Hw2 Hc; try done; [constructor|].
  destruct Hw1 as [(<- & Hn1 & Hwl & _) Hw1], Hw2 as [(<- & Hn2 & Hwr & _) Hw2], Hc as [Hc1 Hc]. constructor; [done|]. by apply (IH fs1 fs2).
Qed.

Lemma all_fields_rows pn n fs ls rs i j :
  cols_wf wf pn n fs ls → length ls = length rs →
  all_fields val_eq fs ((λ c, row c i) <$> ls) ((λ c, row c j) <$> rs) = rows_eq ls rs i j.
Proof.
  revert fs rs. induction ls as [|l ls IH]; intros [|[nb d] fs] [|r rs] Hw Hl; try done. injection Hl as Hl. destruct Hw as [(<- & _) Hw].
  rewrite !fmap_cons. cbn [all_fields]. unfold rows_eq. cbn [zip_with forallb fst snd]. f_equal. by apply IH.
Qed.

Lemma struct_comparator fs nl n cs : Forall comparator_spec cs → comparator_spec (StructArray fs nl n cs).
Proof.
  intros IH ig r Hl Hr Hc. destruct r as [| | |[]| | |fs2 nl2 n2 cs2|]; try done. destruct Hl as [Hnl Hw], Hr as [Hnl2 Hw2]. cbn [data_type comparable] in Hc.
  pose proof (cols_wf_comparable _ _ _ _ _ _ _ _ Hw Hw2 Hc) as Hcc. pose proof (Forall2_length _ _ _ Hcc) as Hlen.
  destruct (columns_comparator ig n n2 cs cs2 IH Hcc) as (eqs & Heqs & Hval).
  cbn [make_eq_comparator]. rewrite decide_True by done. rewrite Heqs. cbn [mbind Result_bind]. eexists. split; [done|].
  intros i j Hij. apply eq_impl_ok; [done|]. destruct Hij as (Hi & Hj & Hnn). cbn [nulls_of alen] in *. intros Hn1 Hn2.
  assert (row (StructArray fs nl n cs) i = VStruct ((λ c, row c i) <$> cs)) as E1
    by exact (row_mask (StructArray fs nl n cs) nl n (λ i, VStruct ((λ c, row c i) <$> cs)) i eq_refl Hi Hn1).
  assert (row (StructArray fs2 nl2 n2 cs2) j = VStruct ((λ c, row c j) <$> cs2)) as E2
    by exact (row_mask (StructArray fs2 nl2 n2 cs2) nl2 n2 (λ i, VStruct ((λ c, row c i) <$> cs2)) j eq_refl Hj Hn2).
  rewrite E1, E2 in *. cbn [data_type val_eq]. rewrite (all_fields_rows _ n) by done. apply Hval; [done..|]. intros Hig. destruct (Hnn Hig) as [H1 H2].
  cbn [no_null] in H1, H2. rewrite forallb_fmap in H1, H2. rewrite forallb_forall in H1. rewrite forallb_forall in H2.
  split; apply Forall_forall; intros c Hin; [by apply H1, list_elem_of_In|by apply H2, list_elem_of_In].
Qed.

Lemma comparator_ok l : comparator_spec l.
Proof.
  induction l as [n|nl v|p nl vs|u nl o d|nb d nl o v IH|nb fs s nl o n cs IH|fs nl n cs IH|w n] using Array_nested_ind.
  - by intros ig r Hl Hr Hc.
  - apply bool_comparator.
  - apply prim_comparator.
  - apply bytes_comparator.
  - by apply list_comparator.
  - by intros ig r Hl Hr Hc.
  - by apply struct_comparator.
  - by intros ig r Hl Hr Hc.
Qed.

(** A comparator of two arrays says of two rows whether their values are equal and
    contain no null at the top, for any nesting. *)
Theorem eq_comparator_rows l r ignores_null :
  wf l → wf r → comparable (data_type l) (data_type r) →
  ∃ eq, make_eq_comparator ignores_null l r = Ok eq ∧
    ∀ i j, readable ignores_null l r i j → eq i j = Ok (val_eq (data_type l) (row l i) (row r j)).
Proof. apply comparator_ok. Qed.

Lemma inlined_eq t x y : inlined t = true → native_eq t x y = Z.eqb x y.
Proof. by destruct t. Qed.

(** The comparator through closures. *)
Lemma closure_rows cols1 cols2 n1 n2 :
  cols_comparable n1 n2 cols1 cols2 →
  ∃ eq, make_eq_comparator_multiple_arrays cols1 cols2 = Ok eq ∧
    ∀ i j, i < n1 → j < n2 → cols_readable true cols1 cols2 i j → eq i j = Ok (rows_eq cols1 cols2 i j).
Proof.
  intros Hc. unfold make_eq_comparator_multiple_arrays. rewrite decide_True by (by eapply Forall2_length).
  destruct (columns_comparator true n1 n2 cols1 cols2) as (eqs & -> & Hval); [by apply Forall_true, comparator_ok|done|].
  by eexists.
Qed.

(** A single column whose value is not null. *)
Lemma readable_single l r i j :
  i < alen l → j < alen r → cols_readable true [l] [r] i j → null_at (nulls_of l) i = false ∧ null_at (nulls_of r) j = false.
Proof.
  intros Hi Hj Hnn. destruct (Hnn eq_refl) as [[Hl _]%Forall_cons [Hr _]%Forall_cons]. split.
  - destruct (null_at (nulls_of l) i) eqn:E; [|done]. unfold row in Hl. by rewrite (nth_null l i Hi E) in Hl.
  - destruct (null_at (nulls_of r) j) eqn:E; [|done]. unfold row in Hr. by rewrite (nth_null r j Hj E) in Hr.
Qed.

Lemma prim_inlined t nl nl2 vs vs2 i j :
  inlined t = true → i < length vs → j < length vs2 → null_at nl i = false → null_at nl2 j = false →
  key_eq (EqPrimitive t vs vs2) i j = Ok (rows_eq [PrimitiveArray t nl vs] [PrimitiveArray t nl2 vs2] i j).
Proof.
  intros Ht Hi Hj Hn1 Hn2. unfold rows_eq. cbn [key_eq zip_with forallb fst snd data_type val_eq]. rewrite andb_true_r.
  destruct (lookup_lt_is_Some_2 vs i Hi) as [x Hx]. destruct (lookup_lt_is_Some_2 vs2 j Hj) as [y Hy].
  rewrite (proj2 (uindex_Ok _ _ _) Hx). cbn [mbind Result_bind]. rewrite (proj2 (uindex_Ok _ _ _) Hy). cbn [mbind Result_bind].
  rewrite (row_mask _ nl (length vs) (λ i, VPrim (nth i vs 0%Z)) i), (row_mask _ nl2 (length vs2) (λ i, VPrim (nth i vs2 0%Z)) j) by done.
  by rewrite inlined_eq, !nth_lookup, Hx, Hy by done.
Qed.

Lemma bytes_inlined u nl nl2 o o2 d d2 i j :
  wf (BytesArray u nl o d) → wf (BytesArray u nl2 o2 d2) → i < length o - 1 → j < length o2 - 1 →
  null_at nl i = false → null_at nl2 j = false →
  key_eq (EqBytes o d o2 d2) i j = Ok (rows_eq [BytesArray u nl o d] [BytesArray u nl2 o2 d2] i j).
Proof.
  intros Hwl Hwr Hi Hj Hn1 Hn2. unfold rows_eq. cbn [key_eq zip_with forallb fst snd]. rewrite andb_true_r. unfold bytes_unchecked.
  destruct (bytes_value_ok u nl o d i Hwl Hi) as [-> _]. destruct (bytes_value_ok u nl2 o2 d2 j Hwr Hj) as [-> _]. cbn [mbind Result_bind].
  rewrite (row_mask _ nl (length o - 1) (λ i, VBytes (sub d (off o i) (off o (S i)))) i),
    (row_mask _ nl2 (length o2 - 1) (λ i, VBytes (sub d2 (off o2 i) (off o2 (S i)))) j) by done.
  by destruct u.
Qed.

Lemma try_new_rows cols1 cols2 n1 n2 :
  cols_comparable n1 n2 cols1 cols2 →
  ∃ c, try_new cols1 cols2 = Ok c ∧
    ∀ i j, i < n1 → j < n2 → cols_readable true cols1 cols2 i j → key_eq c i j = Ok (rows_eq cols1 cols2 i j).
Proof.
  intros Hc. destruct (closure_rows cols1 cols2 n1 n2 Hc) as (eq & Heq & Hval).
  assert (∃ c, (eq ← make_eq_comparator_multiple_arrays cols1 cols2; Ok (EqOther eq)) = Ok c ∧
    ∀ i j, i < n1 → j < n2 → cols_readable true cols1 cols2 i j → key_eq c i j = Ok (rows_eq cols1 cols2 i j)) as Hother.
  { rewrite Heq. cbn [mbind Result_bind]. by eexists. }
  unfold try_new. destruct Hc as [|l r cols1 cols2 ([Hwl Hn1] & [Hwr Hn2] & Hc1) Hc]; [exact Hother|].
  destruct Hc; [|destruct l, r; exact Hother]. cbn [zip_with].
  destruct l as [| |t nl vs|u nl o d| | | |], r as [| |t2 nl2 vs2|u2 nl2 o2 d2| | | |]; try exact Hother; cbn [alen] in *; subst n1 n2.
  - destruct (inlined t && bool_decide (t = t2)) eqn:Ht; [|exact Hother]. apply andb_prop in Ht as [Ht <-%bool_decide_eq_true].
    eexists. split; [done|]. intros i j Hi Hj Hnn. destruct (readable_single (PrimitiveArray t nl vs) (PrimitiveArray t nl2 vs2) i j Hi Hj Hnn). by apply prim_inlined.
  - destruct (eqb u u2) eqn:Hu; [|exact Hother]. apply eqb_prop in Hu as <-.
    eexists. split; [done|]. intros i j Hi Hj Hnn. destruct (readable_single (BytesArray u nl o d) (BytesArray u nl2 o2 d2) i j Hi Hj Hnn). by apply bytes_inlined.
Qed.

(** C26: the comparator of key columns, inlined or through closures over nested arrays,
    reads within its arrays and says of two rows without nulls whether their values are
    equal, field by field and item by item, floating point by IEEE equality. *)
Theorem key_comparator_rows cols1 cols2 n1 n2 i j :
  cols_comparable n1 n2 cols1 cols2 → i < n1 → j < n2 → cols_readable true cols1 cols2 i j →
  ∃ c, try_new cols1 cols2 = Ok c ∧ key_eq c i j = Ok (rows_eq cols1 cols2 i j).
Proof. intros Hc Hi Hj Hnn. destruct (try_new_rows cols1 cols2 n1 n2 Hc) as (c & ? & Hval). exists c. split; [done|]. by apply Hval. Qed.

Module ComparatorSample.

(** The lists [1, null] with 0 and with 7 behind the null, and [1, 0]. *)
Definition nulls10 : BitBuffer := mkBits [1%Z] 0 2.
Definition list_of (nulls : option BitBuffer) (vs : list Z) : Array :=
  ListArray true (Primitive Int32) None [0; Z.of_nat (length vs)]%Z (PrimitiveArray Int32 nulls vs).

Definition ints (vs : list Z) : Array := PrimitiveArray Int32 None vs.

Lemma in_u32 vs : forallb (λ v, (0 <=? v)%Z && (v <? 2 ^ 32)%Z) vs = true → Forall (in_u 32) vs.
Proof. intros H. rewrite forallb_forall in H. apply Forall_forall. intros v Hv%list_elem_of_In. apply H in Hv. unfold in_u. lia. Qed.

Lemma list_of_wf nl vs : nulls_wf nl (length vs) → forallb (λ v, (0 <=? v)%Z && (v <? 2 ^ 32)%Z) vs = true → (Z.of_nat (length vs) < 2 ^ 31)%Z → wf (list_of nl vs).
Proof.
  intros Hn Hv%in_u32 Hl. split; [done|]. split; [|split; [done|split; [done|done]]]. split; [cbn; lia| | |].
  - repeat (apply Forall_cons_2; [lia|]). apply Forall_nil_2.
  - intros [|i] Hi; [unfold off; cbn [nth]; lia|cbn in Hi; lia].
  - unfold off. cbn [nth length Nat.sub alen]. lia.
Qed.

Lemma eq_comparator_rows_witness :
  readable false (list_of None [1; 2]%Z) (list_of None [1; 2]%Z) 0 0 ∧
  ∃ eq, make_eq_comparator false (list_of None [1; 2]%Z) (list_of None [1; 2]%Z) = Ok eq ∧
    ∀ i j, readable false (list_of None [1; 2]%Z) (list_of None [1; 2]%Z) i j →
      eq i j = Ok (val_eq (List true (Primitive Int32)) (row (list_of None [1; 2]%Z) i) (row (list_of None [1; 2]%Z) j)).
Proof.
  split; [split; [cbn; lia|split; [cbn; lia|done]]|].
  apply (eq_comparator_rows (list_of None [1; 2]%Z) (list_of None [1; 2]%Z) false); [by apply list_of_wf..|done].
Defined.

Lemma key_comparator_rows_witness :
  ∃ c, try_new [ints [7]%Z; list_of None [5]%Z] [ints [7]%Z; list_of None [5; 6]%Z] = Ok c ∧
    key_eq c 0 0 = Ok (rows_eq [ints [7]%Z; list_of None [5]%Z] [ints [7]%Z; list_of None [5; 6]%Z] 0 0).
Proof.
  apply (key_comparator_rows [ints [7]%Z; list_of None [5]%Z] [ints [7]%Z; list_of None [5; 6]%Z] 1 1 0 0); [|lia..|].
  - assert (∀ v, wf (ints [v]%Z) ↔ in_u 32 v) as Hi.
    { intros v. split; [by intros (_ & _ & [? _]%Forall_cons)|]. intros Hv. split; [done|]. split; [done|]. by apply Forall_cons_2, Forall_nil_2. }
    repeat apply Forall2_cons_2; [| |apply Forall2_nil_2].
    + by split; [split; [apply Hi|]|split; [split; [apply Hi|]|]].
    + by split; [split; [by apply list_of_wf|]|split; [split; [by apply list_of_wf|]|]].
  - intros _. split; by repeat (apply Forall_cons_2; [done|]); apply Forall_nil_2.
Defined.

(** Both comparisons of keys depend on what lies behind the nulls: two lists with null compare
    unequal or equal, and a null equals a zero. *)
Lemma eq_comparator_reads_nulls :
  let eq a b := (c ← try_new [a] [b]; key_eq c 0 0) in
  row (list_of (Some nulls10) [1; 0]%Z) 0 = row (list_of (Some nulls10) [1; 7]%Z) 0 ∧
  eq (list_of (Some nulls10) [1; 0]%Z) (list_of (Some nulls10) [1; 7]%Z) = Ok false ∧
  eq (list_of (Some nulls10) [1; 0]%Z) (list_of (Some nulls10) [1; 0]%Z) = Ok true ∧
  eq (list_of (Some nulls10) [1; 0]%Z) (list_of None [1; 0]%Z) = Ok true.
Proof. by vm_compute. Qed.

End ComparatorSample.
