(* ===== verification/JoinKeys.v ===== *)
(** * Keys of hash joins

    native-engine/datafusion-ext-plans/src/joins/join_hash_map.rs and joins/bhj/: the hashes of
    key columns, their validity, and when two rows have the same key.  Hashing is
    [create_hashes] of HashArrays with foldhash, the argument [fold_hash]; comparing is
    [EqComparator].

    [keys_match] is the specification of a common key: equal values, field by field, with
    floating point compared as IEEE does, and equal hashes.  Equal values have equal hashes
    unless they contain 0.0 and -0.0 ([keys_match_values], [join_zeros]).  The theorems are about
    columns whose non-null keys hold no null inside ([keys_ok]); the comparator reads what lies
    behind such nulls (EqComparator). *)

From S2P Require Import Prelude MachineInt Arrow ArrowRef HashArrays Columnar Floats EqComparator.

Set Default Proof Using "Type".

Section JoinKeys.
Context `{Ops : ArrowOps} (fold_hash : list Z → Z → Z).

Definition JOIN_HASH_RANDOM_SEED : Z := 0x1E39FA04.

(** The hasher is fed with the hash so far, then with the bytes. *)
Definition join_hasher (v : list Z) (h : Z) : Result Z := Ok (fold_hash v h mod 2 ^ 32)%Z.

(** "use 31-bit non-zero hash" *)
Definition join_create_hashes (num_rows : nat) (key_columns : list Array) : Result (list Z) :=
  hashes ← create_hashes join_hasher num_rows key_columns JOIN_HASH_RANDOM_SEED;
  Ok ((λ h, Z.lor h 0x80000000) <$> (hashes : list Z)).

(** A key is null when one of its columns is. *)
Definition key_is_valid (key_columns : list Array) (row_idx : nat) : bool :=
  forallb (λ col, negb (null_at (nulls_of col) row_idx)) key_columns.

(** ** The specification *)

Definition join_hash (cols : list Array) (i : nat) : Z :=
  Z.lor (row_hash (pure_hash join_hasher) cols JOIN_HASH_RANDOM_SEED i) 0x80000000.

Definition keys_match (pk bk : list Array) (i j : nat) : bool := (join_hash pk i =? join_hash bk j)%Z && rows_eq pk bk i j.

(** Key columns of [n] rows. *)
Record keys_ok (n : nat) (cols : list Array) : Prop := {
  ko_cols : Forall (λ a, wf a ∧ hashable_column (data_type a) ∧ alen a = n) cols;
  ko_values i : i < n → key_is_valid cols i = true → Forall (λ c, no_null (row c i) = true) cols;
}.

Definition same_types (ls rs : list Array) : Prop := Forall2 (λ l r, comparable (data_type l) (data_type r)) ls rs.

Lemma join_create_hashes_ok n cols : keys_ok n cols → join_create_hashes n cols = Ok (join_hash cols <$> seq 0 n).
Proof.
  intros Hk. unfold join_create_hashes. rewrite create_hashes_rows; [|by eexists|apply Hk]. cbn [mbind Result_bind].
  by rewrite <- list_fmap_compose.
Qed.

Lemma join_hash_nonzero cols i : join_hash cols i ≠ 0%Z.
Proof. unfold join_hash. intros E. apply Z.lor_eq_0_iff in E as [_ E]. discriminate E. Qed.

Lemma keys_comparable pn bn pk bk : keys_ok pn pk → keys_ok bn bk → same_types pk bk → cols_comparable pn bn pk bk.
Proof.
  intros [Hp _] [Hb _] Ht. induction Ht as [|l r pk bk Hlr _ IH]; [constructor|].
  apply Forall_cons in Hp as [(? & _ & ?) Hp]. apply Forall_cons in Hb as [(? & _ & ?) Hb]. constructor; [done|by apply IH].
Qed.

(** The comparator of two lists of key columns. *)
Lemma comparator_keys pn bn pk bk :
  keys_ok pn pk → keys_ok bn bk → same_types pk bk →
  ∃ eq, try_new pk bk = Ok eq ∧
    ∀ i j, i < pn → j < bn → key_is_valid pk i = true → key_is_valid bk j = true → key_eq eq i j = Ok (rows_eq pk bk i j).
Proof.
  intros Hp Hb Ht. destruct (try_new_rows pk bk pn bn (keys_comparable pn bn pk bk Hp Hb Ht)) as (eq & Heq & Hval).
  exists eq. split; [done|]. intros i j Hi Hj Hvi Hvj. apply Hval; [done..|]. intros _. split; [by apply Hp|by apply Hb].
Qed.

End JoinKeys.

(** ** Equality of values is transitive *)

Definition float_eq (x y : spec_float) : bool := SFeqb x y.

Lemma SFeqb_true x y :
  SFeqb x y = true ↔
  match x, y with
  | S754_zero _, S754_zero _ => True
  | S754_infinity s, S754_infinity t => s = t
  | S754_finite s m e, S754_finite t n f => s = t ∧ m = n ∧ e = f
  | _, _ => False
  end.
Proof.
  unfold SFeqb, SFcompare. destruct x as [s|s| |s m e], y as [t|t| |t n f]; try (destruct s; done); try (destruct t; done); try done.
  - by destruct s, t.
  - change (Pos.compare_cont Eq m n) with (Pos.compare m n). split.
    + destruct s, t; try done; destruct (Z.compare_spec e f); try done; destruct (Pos.compare_spec m n); try done; by subst.
    + intros (-> & -> & ->). destruct t; by rewrite Z.compare_refl, Pos.compare_refl.
Qed.

Lemma SFeqb_sym x y : SFeqb x y = SFeqb y x.
Proof. apply eq_true_iff_eq. rewrite !SFeqb_true. destruct x, y; naive_solver. Qed.

Lemma SFeqb_trans x y z : SFeqb x y = true → SFeqb y z = true → SFeqb x z = true.
Proof. rewrite !SFeqb_true. destruct x, y, z; naive_solver. Qed.

Lemma native_eq_sym t x y : native_eq t x y = native_eq t y x.
Proof. destruct t; cbn [native_eq]; apply Z.eqb_sym || apply SFeqb_sym. Qed.

Lemma native_eq_trans t x y z : native_eq t x y = true → native_eq t y z = true → native_eq t x z = true.
Proof. destruct t; cbn [native_eq]; (rewrite !Z.eqb_eq; congruence) || apply SFeqb_trans. Qed.

(** A comparison that is symmetric and transitive. *)
Definition per (d : DataType) : Prop :=
  (∀ v1 v2, val_eq d v1 v2 = val_eq d v2 v1) ∧ (∀ v1 v2 v3, val_eq d v1 v2 = true → val_eq d v2 v3 = true → val_eq d v1 v3 = true).

Lemma items_per d : per d → per (List true d).
Proof.
  intros [Hs Ht]. split.
  - intros [| | | |l1| | |] [| | | |l2| | |]; try done. cbn [val_eq]. f_equal; [|apply bool_decide_ext; lia].
    revert l2. induction l1 as [|v1 l1 IH]; intros [|v2 l2]; try done. cbn [zip_with forallb fst snd]. by rewrite Hs, IH.
  - intros [| | | |l1| | |] [| | | |l2| | |] [| | | |l3| | |]; try done. cbn [val_eq]. rewrite !andb_true_iff, !bool_decide_eq_true.
    revert l2 l3. induction l1 as [|v1 l1 IH]; intros [|v2 l2] [|v3 l3] H12 H23; try (by destruct H12); try (by destruct H23).
    revert H12 H23. cbn [zip_with forallb fst snd length]. rewrite !andb_true_iff. intros [[H1 H2] [= H3]] [[H4 H5] [= H6]].
    destruct (IH l2 l3 (conj H2 H3) (conj H5 H6)) as [H7 H8]. split; [split; [by eapply Ht|done]|congruence].
Qed.

Lemma fields_per fs : Forall (λ f, per f.2) fs → per (Struct fs).
Proof.
  intros Hfs. split.
  - intros [| | | | | |l1|] [| | | | | |l2|]; try done. cbn [val_eq]. revert l1 l2.
    induction Hfs as [|[nb d] fs [Hs Ht] _ IH]; intros [|v1 l1] [|v2 l2]; try done. cbn [all_fields]. cbn [snd] in Hs. by rewrite Hs, IH.
  - intros [| | | | | |l1|] [| | | | | |l2|] [| | | | | |l3|]; try done. cbn [val_eq]. revert l1 l2 l3.
    induction Hfs as [|[nb d] fs [Hs Ht] _ IH]; intros [|v1 l1] [|v2 l2] [|v3 l3]; try done. cbn [all_fields].
    rewrite !andb_true_iff. intros [H1 H2] [H3 H4]. split; [by eapply Ht|by eapply IH].
Qed.

Lemma val_eq_per d : per d.
Proof.
  induction d as [| |t| | |nb d IH|nb d s IH|fs IH|w] using DataType_nested_ind.
  - split; done.
  - split; [intros [|b| | | | | |] [|c| | | | | |]; try done; by destruct b, c|intros [|b| | | | | |] [|c| | | | | |] [|e| | | | | |]; try done; by destruct b, c, e].
  - split; [intros [] []; try done; apply native_eq_sym|intros [] [] []; try done; apply native_eq_trans].
  - split; [intros [] []; try done; cbn [val_eq]; apply bool_decide_ext; done|intros [] [] []; try done; cbn [val_eq]; rewrite !bool_decide_eq_true; congruence].
  - split; [intros [] []; try done; cbn [val_eq]; apply bool_decide_ext; done|intros [] [] []; try done; cbn [val_eq]; rewrite !bool_decide_eq_true; congruence].
  - by apply items_per.
  - split; done.
  - by apply fields_per.
  - split; done.
Qed.

Lemma comparable_val_eq d1 d2 v w : comparable d1 d2 → val_eq d1 v w = val_eq d2 v w.
Proof.
  revert d2 v w. induction d1 as [| |t| | |nb d IH|nb d s IH|fs IH|w1] using DataType_nested_ind; intros d2 v w Hc.
  - done.
  - by destruct d2.
  - destruct d2; try done. cbn [val_eq]. destruct v, w; try done. by apply native_eq_same.
  - by destruct d2.
  - by destruct d2.
  - destruct d2 as [| | | | |nb2 d2| | |]; try done. cbn [val_eq]. destruct v as [| | | |l1| | |], w as [| | | |l2| | |]; try done. f_equal.
    generalize (zip l1 l2). intros l. induction l as [|p l IHl]; [done|]. cbn [forallb]. by rewrite IHl, (IH d2) by done.
  - done.
  - destruct d2 as [| | | | | | |fs2|]; try done. cbn [val_eq]. destruct v as [| | | | | |l1|], w as [| | | | | |l2|]; try done.
    cbn [comparable] in Hc. revert fs2 l1 l2 Hc.
    induction IH as [|[nb d] fs Hd _ IHf]; intros [|[nb2 d2] fs2] [|v1 l1] [|v2 l2] Hc; try done.
    destruct Hc as [Hc1 Hc]. cbn [all_fields snd] in *. by rewrite (Hd d2), (IHf fs2) by done.
  - done.
Qed.

Lemma val_eq_same d x x' y z : val_eq d x y = true → val_eq d x' y = true → val_eq d x z = val_eq d x' z.
Proof.
  destruct (val_eq_per d) as [Hs Ht]. intros H1 H2. apply eq_true_iff_eq. split; intros H.
  - apply (Ht x' y z); [done|]. apply (Ht y x z); [by rewrite Hs|done].
  - apply (Ht x y z); [done|]. apply (Ht y x' z); [by rewrite Hs|done].
Qed.

(** Rows that match a common row match the same rows. *)
Lemma rows_eq_same pk pk' bk i i' j k :
  same_types pk bk → same_types pk' bk → rows_eq pk bk i j = true → rows_eq pk' bk i' j = true →
  rows_eq pk bk i k = rows_eq pk' bk i' k.
Proof.
  unfold same_types, rows_eq. intros Ht. revert pk'. induction Ht as [|p b pk bk Hpb _ IH]; intros pk' Ht'; inversion Ht' as [|p' b' pk1 bk1 Hpb' Ht1]; subst; [done|].
  cbn [zip_with forallb fst snd]. rewrite !andb_true_iff. intros [H1 H2] [H3 H4]. rewrite (IH _ Ht1 H2 H4). f_equal.
  rewrite (comparable_val_eq (data_type p) (data_type b)) in * by done. rewrite (comparable_val_eq (data_type p') (data_type b)) in * by done.
  by eapply val_eq_same.
Qed.

Section Values.
Context `{Ops : ArrowOps} (fold_hash : list Z → Z → Z).
Local Abbreviation keys_match := (keys_match fold_hash).
Local Abbreviation join_hash := (join_hash fold_hash).

Lemma keys_match_same pk pk' bk i i' j k :
  same_types pk bk → same_types pk' bk → keys_match pk bk i j = true → keys_match pk' bk i' j = true →
  keys_match pk bk i k = keys_match pk' bk i' k.
Proof.
  intros Ht Ht'. unfold keys_match. rewrite !andb_true_iff, !Z.eqb_eq. intros [H1 H2] [H3 H4].
  f_equal; [congruence|by eapply rows_eq_same].
Qed.

(** *** Types whose equal values are the same *)

Fixpoint float_free (d : DataType) : bool :=
  match d with
  | Primitive Float32 | Primitive Float64 => false
  | List _ d => float_free d
  | Struct fs => forallb (λ f, float_free f.2) fs
  | _ => true
  end.

Lemma val_eq_value d v w : float_free d = true → val_eq d v w = true → v = w.
Proof.
  revert v w. induction d as [| |t| | |nb d IH|nb d s IH|fs IH|w1] using DataType_nested_ind; intros v w Hf He; try done.
  - destruct v, w; try done. cbn [val_eq] in He. apply eqb_prop in He. by subst.
  - destruct v, w; try done. cbn [val_eq] in He. destruct t; try done; cbn [native_eq] in He; apply Z.eqb_eq in He; by subst.
  - destruct v, w; try done. cbn [val_eq] in He. apply bool_decide_eq_true in He. by subst.
  - destruct v, w; try done. cbn [val_eq] in He. apply bool_decide_eq_true in He. by subst.
  - destruct v as [| | | |l1| | |], w as [| | | |l2| | |]; try done. cbn [val_eq] in He. apply andb_prop in He as [He Hl%bool_decide_eq_true]. f_equal.
    revert l2 He Hl. induction l1 as [|v1 l1 IHl]; intros [|v2 l2] He Hl; try done. injection Hl as Hl. cbn [zip_with forallb fst snd] in He.
    apply andb_prop in He as [He1 He]. f_equal; [by apply IH|by apply IHl].
  - destruct v as [| | | | | |l1|], w as [| | | | | |l2|]; try done. cbn [val_eq float_free] in He, Hf. f_equal. revert l1 l2 Hf He.
    induction IH as [|[nb d] fs Hd _ IHf]; intros [|v1 l1] [|v2 l2] Hf He; try done. cbn [all_fields forallb snd] in *.
    apply andb_prop in Hf as [Hf1 Hf], He as [He1 He]. f_equal; [by apply Hd|by apply IHf].
Qed.

Lemma native_hash_bytes t1 t2 x : same_native t1 t2 = true → prim_hash_bytes t1 x = prim_hash_bytes t2 x.
Proof. unfold same_native. intros H%bool_decide_eq_true. destruct t1, t2; try discriminate; done. Qed.

Lemma comparable_hash hp d1 d2 v hash : comparable d1 d2 → hash_val hp d1 v hash = hash_val hp d2 v hash.
Proof.
  revert d2 v hash. induction d1 as [| |t| | |nb d IH|nb d s IH|fs IH|w1] using DataType_nested_ind; intros d2 v hash Hc.
  - done.
  - by destruct d2.
  - destruct d2; try done. cbn [hash_val]. destruct v; try done. by rewrite (native_hash_bytes t t0).
  - by destruct d2.
  - by destruct d2.
  - destruct d2 as [| | | | |nb2 d2| | |]; try done. cbn [hash_val]. destruct v as [| | | |l| | |]; try done. revert hash.
    induction l as [|v l IHl]; intros hash; [done|]. cbn [foldl]. by rewrite (IH d2), IHl by done.
  - done.
  - destruct d2 as [| | | | | | |fs2|]; try done. cbn [hash_val]. destruct v as [| | | | | |l|]; try done. cbn [comparable] in Hc. revert fs2 l hash Hc.
    induction IH as [|[nb d] fs Hd _ IHf]; intros [|[nb2 d2] fs2] [|v l] hash Hc; try done. destruct Hc as [Hc1 Hc].
    cbn [snd] in Hd. rewrite (Hd d2) by done. by apply IHf.
  - done.
Qed.

(** Without floating point, keys match exactly when they have the same values. *)
Lemma keys_match_values pk bk i j :
  same_types pk bk → Forall (λ c, float_free (data_type c) = true) pk →
  keys_match pk bk i j = rows_eq pk bk i j.
Proof.
  intros Ht Hf. unfold keys_match. destruct (rows_eq pk bk i j) eqn:He; [|by rewrite andb_false_r].
  rewrite andb_true_r, Z.eqb_eq. unfold join_hash. f_equal. unfold row_hash. generalize JOIN_HASH_RANDOM_SEED.
  unfold rows_eq in He. induction Ht as [|p b pk bk Hpb _ IH]; [done|]. intros hash. apply Forall_cons in Hf as [Hf1 Hf].
  cbn [zip_with forallb fst snd] in He. apply andb_prop in He as [He1 He]. cbn [foldl]. rewrite <- (IH Hf He). f_equal.
  unfold hash_row. apply val_eq_value in He1; [|done]. unfold row in He1. rewrite He1. by apply comparable_hash.
Qed.

End Values.

(** 0.0 and -0.0 are equal values with different hashes, hence different keys, and a NaN is not
    the same key as itself. *)
Module KeySample.

Definition hash (bytes : list Z) (h : Z) : Z := foldl (λ a b, a * 31 + b)%Z h bytes.

Definition doubles (bits : list Z) : list Array := [PrimitiveArray Float64 None bits].

Definition nan : Z := 0x7FF8000000000000.

Lemma join_zeros :
  let zero := doubles [0%Z] in
  let minus_zero := doubles [(2 ^ 63)%Z] in
  rows_eq zero minus_zero 0 0 = true ∧
  keys_match hash zero minus_zero 0 0 = false ∧
  rows_eq (doubles [nan]) (doubles [nan]) 0 0 = false ∧
  keys_match hash (doubles [nan]) (doubles [nan]) 0 0 = false.
Proof. by vm_compute. Qed.

End KeySample.
