(* ===== verification/BroadcastJoin.v ===== *)
(** * Broadcast hash joins

    native-engine/datafusion-ext-plans/src/joins/bhj/full_join.rs and
    semi_join.rs, the [JoinHashMap] half of joins/join_hash_map.rs, and the driver
    [execute_join_with_map] of broadcast_join_exec.rs.  Sending a batch appends
    it to the output; timers and metrics are left out.  Key columns are arrays, hashed and
    compared as JoinKeys says; evaluating the key expressions belongs to DataFusion and is
    an argument. *)

From S2P Require Import Prelude MachineInt Arrow ArrowRef BatchSerde HashArrays JoinHashMap Joins EqComparator JoinKeys.

Inductive ProbeSide := L | R.

Section Bhj.
Context {V : Type} (null : V) `{Ops : ArrowOps} (fold_hash : list Z → Z → Z).

Local Abbreviation KeyColumn := Arrow.Array.

(** ** JoinHashMap *)

Record JoinHashMap := mkMap {
  data_batch : RecordBatch (V := V); key_columns : list KeyColumn; table : Table }.

Definition create_from_key_columns (n : nat) (cols : list KeyColumn) : Result Table :=
  _ ← rassert (bool_decide (Z.of_nat n < 1073741824)%Z);
  hashes ← join_create_hashes fold_hash n cols;
  create_from_key_columns_and_hashes n (key_is_valid cols) hashes.

Definition create_from_data_batch (data : RecordBatch (V := V))
    (key_exprs : RecordBatch (V := V) → Result (list KeyColumn)) : Result JoinHashMap :=
  cols ← key_exprs data;
  t ← create_from_key_columns (num_rows data) cols;
  Ok (mkMap data cols t).

Definition is_all_nulls (m : JoinHashMap) : bool := bool_decide (num_valid_items (table m) = 0).

Record JoinParams := mkJoinParams {
  left_schema : nat; right_schema : nat; output_schema : nat;
  left_keys : RecordBatch (V := V) → Result (list KeyColumn);
  right_keys : RecordBatch (V := V) → Result (list KeyColumn);
  projection : JoinProjection;
  join_filter : option (JoinFilter (V := V));
  batch_size : nat;
  is_null_aware_anti_join : bool }.

(** What both joiners do first with a probed batch: keys, hashes, the comparator of keys,
    lookups. *)
Definition create_probed_key_columns (jp : JoinParams) (s : ProbeSide)
    (probed_batch : RecordBatch (V := V)) : Result (list KeyColumn) :=
  match s with L => left_keys jp probed_batch | R => right_keys jp probed_batch end.

(** Only the rows with a valid key are looked up. *)
Definition lookup_probed (m : JoinHashMap) (cols : list KeyColumn) (hashes : list Z) : Result (list MapValue) :=
  lookup_many (table m) (snd <$> filter (λ x, key_is_valid cols x.1 = true) (enumerate hashes)).

Definition project_probe (jp : JoinParams) (s : ProbeSide) (cols : list (list V)) :=
  match s with L => project_left (projection jp) cols | R => project_right (projection jp) cols end.
Definition project_build (jp : JoinParams) (s : ProbeSide) (cols : list (list V)) :=
  match s with L => project_right (projection jp) cols | R => project_left (projection jp) cols end.

(** ** FullJoiner: inner and outer joins *)

Record JoinerParams := mkJoinerParams {
  probe_side : ProbeSide; probe_side_outer : bool; build_side_outer : bool }.

Definition LEFT_PROBED_INNER := mkJoinerParams L false false.
Definition LEFT_PROBED_LEFT := mkJoinerParams L true false.
Definition LEFT_PROBED_RIGHT := mkJoinerParams L false true.
Definition LEFT_PROBED_OUTER := mkJoinerParams L true true.
Definition RIGHT_PROBED_INNER := mkJoinerParams R false false.
Definition RIGHT_PROBED_LEFT := mkJoinerParams R false true.
Definition RIGHT_PROBED_RIGHT := mkJoinerParams R true false.
Definition RIGHT_PROBED_OUTER := mkJoinerParams R true true.

Record FullJoiner := mkJoiner {
  map_joined : list bool; output : list (RecordBatch (V := V)); output_rows : nat }.

Definition full_new (m : JoinHashMap) : FullJoiner :=
  mkJoiner (replicate (num_rows (data_batch m)) false) [] 0.

Definition flush (P : JoinerParams) (jp : JoinParams) (st : FullJoiner)
    (probe_cols build_cols : list (list V)) (n : nat) : Result FullJoiner :=
  b ← try_new_batch (output_schema jp)
    (match probe_side P with L => probe_cols ++ build_cols | R => build_cols ++ probe_cols end) n;
  Ok (mkJoiner (map_joined st) (output st ++ [b]) (output_rows st + num_rows b)).

(** "fast path for the case where every probed records have 1-to-1 joined" *)
Definition gather_probe (cols : list (list V)) (n : nat) (indices : list nat)
    : Result (list (list V)) :=
  if decide (indices = seq 0 n) then Ok cols else take_cols null cols (Some <$> indices).

(** [for idx in build_indices.iter().flatten() { map_joined.set(idx, true) }] *)
Definition set_joined (joined : list bool) (indices : list (option nat)) : Result (list bool) :=
  rfoldM (λ joined i, match i with Some i => set_index joined i true | None => Ok joined end)
    joined indices.

Definition flush_hash_joined (P : JoinerParams) (jp : JoinParams) (m : JoinHashMap)
    (st : FullJoiner) (probed_batch : RecordBatch (V := V))
    (probe_indices inner_indices : list nat) (outer_indices : list (option nat))
    : Result FullJoiner :=
  let build_indices := if probe_side_outer P then outer_indices else Some <$> inner_indices in
  let n := length probe_indices in
  _ ← rassert (bool_decide (length probe_indices = length build_indices));
  match join_filter jp with
  | Some f =>
    if probe_side_outer P || build_side_outer P
    then Err (Execution "join filter is only supported for inner hash join")
    else
      pcols ← gather_probe (columns probed_batch) (num_rows probed_batch) probe_indices;
      bcols ← take_cols null (columns (data_batch m)) build_indices;
      let '(left_cols, right_cols) :=
        match probe_side P with L => (pcols, bcols) | R => (bcols, pcols) end in
      selected ← filter_evaluate f left_cols right_cols n;
      let n := length (filter (λ b, b = Some true) selected) in
      let left_cols := filter_col selected <$> left_cols in
      let right_cols := filter_col selected <$> right_cols in
      let '(pcols, bcols) :=
        match probe_side P with L => (left_cols, right_cols) | R => (right_cols, left_cols) end in
      pcols ← project_probe jp (probe_side P) pcols;
      bcols ← project_build jp (probe_side P) bcols;
      flush P jp st pcols bcols n
  | None =>
    pprojected ← project_probe jp (probe_side P) (columns probed_batch);
    mprojected ← project_build jp (probe_side P) (columns (data_batch m));
    pcols ← gather_probe pprojected (num_rows probed_batch) probe_indices;
    joined ← (if build_side_outer P then set_joined (map_joined st) build_indices
              else Ok (map_joined st));
    bcols ← take_cols null mprojected build_indices;
    flush P jp (mkJoiner joined (output st) (output_rows st)) pcols bcols n
  end.

(** The local variables of [join]. *)
Record JoinLoop := mkLoop {
  probe_idx : list nat; inner_idx : list nat; outer_idx : list (option nat);
  hashes_idx : nat; joiner : FullJoiner }.

(** The closure [join] for one candidate row of the map. *)
Definition join_candidate (P : JoinerParams) (eq : EqComparator) (row_idx : nat)
    (s : JoinLoop * bool) (map_idx : Z) : Result (JoinLoop * bool) :=
  let '(s, joined) := s in
  let j := Z.to_nat map_idx in
  e ← key_eq eq row_idx j;
  if e : bool then
    Ok (if probe_side_outer P
     then mkLoop (probe_idx s ++ [row_idx]) (inner_idx s) (outer_idx s ++ [Some j])
            (hashes_idx s) (joiner s)
     else mkLoop (probe_idx s ++ [row_idx]) (inner_idx s ++ [j]) (outer_idx s)
            (hashes_idx s) (joiner s), true)
  else Ok (s, joined).

(** The map lookup of a probed row with a valid key. *)
Definition probe_row (P : JoinerParams) (m : JoinHashMap) (eq : EqComparator) (pk : list KeyColumn)
    (map_values : list MapValue) (s : JoinLoop) (row_idx : nat) : Result (JoinLoop * bool) :=
  if key_is_valid pk row_idx then
    v ← index map_values (hashes_idx s);
    rows ← matched_rows (mapped_indices (table m)) v;
    let s := mkLoop (probe_idx s) (inner_idx s) (outer_idx s) (hashes_idx s + 1) (joiner s) in
    rfoldM (join_candidate P eq row_idx) (s, false) rows
  else Ok (s, false).

(** One iteration of the loop over the probed rows. *)
Definition join_row (P : JoinerParams) (jp : JoinParams) (m : JoinHashMap)
    (probed_batch : RecordBatch (V := V)) (eq : EqComparator) (pk : list KeyColumn) (map_values : list MapValue)
    (s : JoinLoop) (row_idx : nat) : Result JoinLoop :=
  '(s, joined) ← probe_row P m eq pk map_values s row_idx;
  let s := if probe_side_outer P && negb joined
    then mkLoop (probe_idx s ++ [row_idx]) (inner_idx s) (outer_idx s ++ [None])
           (hashes_idx s) (joiner s)
    else s in
  if decide (Nat.max (batch_size jp) (num_rows probed_batch) < length (probe_idx s)) then
    st ← flush_hash_joined P jp m (joiner s) probed_batch (probe_idx s) (inner_idx s) (outer_idx s);
    Ok (mkLoop [] [] [] (hashes_idx s) st)
  else Ok s.

Definition full_join (P : JoinerParams) (jp : JoinParams) (m : JoinHashMap) (st : FullJoiner)
    (probed_batch : RecordBatch (V := V)) : Result FullJoiner :=
  pk ← create_probed_key_columns jp (probe_side P) probed_batch;
  probed_hashes ← join_create_hashes fold_hash (num_rows probed_batch) pk;
  eq ← try_new pk (key_columns m);
  map_values ← lookup_probed m pk probed_hashes;
  s ← rfoldM (join_row P jp m probed_batch eq pk map_values) (mkLoop [] [] [] 0 st)
        (range 0 (num_rows probed_batch));
  if decide (probe_idx s = []) then Ok (joiner s)
  else flush_hash_joined P jp m (joiner s) probed_batch (probe_idx s) (inner_idx s) (outer_idx s).

(** The indices of the bits with a given value. *)
Definition bit_indices (bits : list bool) (b : bool) : list nat :=
  fst <$> filter (λ x, x.2 = b) (enumerate bits).

(** [finish]: the unjoined rows of the build side, with nulls for every field of
    the probe side. *)
Definition full_finish (P : JoinerParams) (jp : JoinParams) (m : JoinHashMap) (st : FullJoiner)
    : Result FullJoiner :=
  if build_side_outer P then
    let unjoined := bit_indices (map_joined st) false in
    let pschema := match probe_side P with L => left_schema jp | R => right_schema jp end in
    mprojected ← project_build jp (probe_side P) (columns (data_batch m));
    let n := length unjoined in
    let pcols := null_cols null pschema n in
    bcols ← take_cols null mprojected (Some <$> unjoined);
    flush P jp (mkJoiner [] (output st) (output_rows st)) pcols bcols n
  else Ok (mkJoiner [] (output st) (output_rows st)).

Definition full_can_early_stop (P : JoinerParams) (m : JoinHashMap) : bool :=
  if probe_side_outer P then false else is_all_nulls m.

(** [execute_join_with_map]: join every probed batch unless the joiner can stop,
    then finish. *)
Definition run_full (P : JoinerParams) (jp : JoinParams) (m : JoinHashMap)
    (probed : list (RecordBatch (V := V))) : Result FullJoiner :=
  st ← rfoldM (λ st b, if full_can_early_stop P m then Ok st else full_join P jp m st b)
         (full_new m) probed;
  full_finish P jp m st.

(** ** Lookup of the probed rows *)

Definition join_hashes (n : nat) (cols : list KeyColumn) : list Z := join_hash fold_hash cols <$> seq 0 n.

(** The build rows that a probed row joins, by definition. *)
Definition matches (pk bk : list KeyColumn) (bn i : nat) : list nat :=
  if key_is_valid pk i then
    filter (λ j, key_is_valid bk j = true ∧ keys_match fold_hash pk bk i j = true) (seq 0 bn)
  else [].

Lemma hashes_lookup n cols i : i < n → join_hashes n cols !! i = Some (join_hash fold_hash cols i).
Proof. intros Hi. unfold join_hashes. by rewrite list_lookup_fmap, lookup_seq_lt. Qed.

Lemma length_hashes n cols : length (join_hashes n cols) = n.
Proof. unfold join_hashes. by rewrite length_fmap, length_seq. Qed.

Lemma hashes_nonzero n cols : Forall (λ h, h ≠ 0%Z) (join_hashes n cols).
Proof. apply Forall_fmap, Forall_true. intros h. apply join_hash_nonzero. Qed.

(** The hash table finds, for a probed row, the build rows with the same hash, and
    those with an equal key among them are exactly the matches. *)
Lemma candidates_eq pk bk bn i :
  key_is_valid pk i = true →
  filter (λ j, rows_eq pk bk i j = true)
    (rows_with_hash (key_is_valid bk) (join_hashes bn bk) (join_hash fold_hash pk i)) = matches pk bk bn i.
Proof.
  intros Hv. unfold matches, rows_with_hash. rewrite Hv, length_hashes, list_filter_filter.
  apply filter_ext_elem. intros j Hj%elem_of_seq. rewrite hashes_lookup by lia. unfold keys_match.
  rewrite andb_true_iff, Z.eqb_eq. split; [intros (? & ? & [=])|intros (? & -> & ?)]; done.
Qed.

(** The table of key columns. *)
Lemma create_table bn bk :
  (Z.of_nat bn < 2 ^ 30)%Z → keys_ok bn bk →
  ∃ t, create_from_key_columns bn bk = Ok t ∧
    num_valid_items t = length (filter (λ i, key_is_valid bk i = true) (seq 0 bn)) ∧
    ∀ probes, Forall (λ h, h ≠ 0%Z) probes → ∃ vs, lookup_many t probes = Ok vs ∧
      Forall2 (λ h v, matched_rows (mapped_indices t) v
        = Ok (Z.of_nat <$> rows_with_hash (key_is_valid bk) (join_hashes bn bk) h)) probes vs.
Proof.
  intros Hn Hk. unfold create_from_key_columns. rewrite bool_decide_eq_true_2 by lia. cbn [rassert mbind Result_bind].
  rewrite (join_create_hashes_ok fold_hash bn bk Hk). cbn [mbind Result_bind].
  destruct (table_lookup (key_is_valid bk) (join_hashes bn bk)) as (t & Ht & Hi & Hl);
    [by rewrite length_hashes|apply hashes_nonzero|]. rewrite length_hashes in Ht, Hi. by exists t.
Qed.

(** The valid probed rows, with their hashes. *)
Definition probed_items (n : nat) (pk : list KeyColumn) : list (nat * Z) :=
  enumerate (join_hashes n pk).
Definition valid_count (n : nat) (pk : list KeyColumn) (i : nat) : nat :=
  length (filter (λ x, key_is_valid pk x.1 = true) (take i (probed_items n pk))).

Lemma probed_items_lookup n pk i :
  i < n → probed_items n pk !! i = Some (i, join_hash fold_hash pk i).
Proof. intros Hi. unfold probed_items. by rewrite lookup_enumerate, hashes_lookup. Qed.

Lemma valid_count_S n pk i :
  i < n → valid_count n pk (S i) = valid_count n pk i + if key_is_valid pk i then 1 else 0.
Proof.
  intros Hi. unfold valid_count. rewrite (take_S_r _ _ _ (probed_items_lookup n pk i Hi)).
  rewrite filter_app, length_app. f_equal. rewrite filter_cons, filter_nil. cbn [fst].
  destruct (key_is_valid pk i); case_decide; done.
Qed.

Lemma lookup_filter_count {A} (Q : A → Prop) `{∀ x, Decision (Q x)} (l : list A) i x :
  l !! i = Some x → Q x → filter Q l !! length (filter Q (take i l)) = Some x.
Proof.
  intros Hi HQ. assert (filter Q l = filter Q (take i l) ++ x :: filter Q (drop (S i) l)) as ->.
  { by rewrite <- filter_cons_True, <- filter_app, take_drop_middle by done. }
  by rewrite lookup_app_r, Nat.sub_diag by lia.
Qed.

(** The rows behind a looked up value: candidates in range and valid, among them the
    matches. *)
Definition candidates_of (t : Table) (pk bk : list KeyColumn) (bn i : nat) (v : MapValue) (rows : list nat) : Prop :=
  matched_rows (mapped_indices t) v = Ok (Z.of_nat <$> rows) ∧
  Forall (λ j, j < bn ∧ key_is_valid bk j = true) rows ∧
  filter (λ j, rows_eq pk bk i j = true) rows = matches pk bk bn i.

Lemma lookup_probed_spec bk bn t data pk n :
  create_from_key_columns bn bk = Ok t → (Z.of_nat bn < 2 ^ 30)%Z → keys_ok bn bk →
  ∃ vs, lookup_probed (mkMap data bk t) pk (join_hashes n pk) = Ok vs ∧
  ∀ i, i < n → key_is_valid pk i = true →
  ∃ v rows, vs !! valid_count n pk i = Some v ∧ candidates_of t pk bk bn i v rows.
Proof.
  intros Ht Hn Hk. destruct (create_table bn bk Hn Hk) as (t' & Ht' & _ & Hlook). assert (t' = t) as -> by congruence.
  destruct (Hlook (snd <$> filter (λ x, key_is_valid pk x.1 = true) (enumerate (join_hashes n pk)))) as (vs & Hvs & Hall).
  { apply Forall_fmap, Forall_forall. intros [i h] [_ Hin%elem_of_enumerate]%list_elem_of_filter.
    cbn. pose proof (hashes_nonzero n pk) as Hnz. rewrite Forall_lookup in Hnz. eauto. }
  exists vs. split; [done|]. intros i Hi Hv.
  pose proof (lookup_filter_count (λ x, key_is_valid pk x.1 = true) _ _ _
    (probed_items_lookup n pk i Hi) Hv) as Hf. fold (valid_count n pk i) in Hf.
  assert ((snd <$> filter (λ x, key_is_valid pk x.1 = true) (enumerate (join_hashes n pk)))
    !! valid_count n pk i = Some (join_hash fold_hash pk i)) as Hs.
  { rewrite list_lookup_fmap. unfold probed_items in Hf. by rewrite Hf. }
  destruct (Forall2_lookup_l _ _ _ _ _ Hall Hs) as (v & Hvl & Hm).
  eexists v, _. split; [done|]. split; [exact Hm|]. split; [|by apply candidates_eq].
  unfold rows_with_hash. rewrite length_hashes. apply Forall_forall. intros j [[? _] Hj%elem_of_seq]%list_elem_of_filter. split; [lia|done].
Qed.

(** Whether the map has valid items, from the build keys. *)
Lemma all_nulls_no_matches pk bk bn t data i :
  create_from_key_columns bn bk = Ok t → (Z.of_nat bn < 2 ^ 30)%Z → keys_ok bn bk →
  is_all_nulls (mkMap data bk t) = true → matches pk bk bn i = [].
Proof.
  intros Ht Hb Hk Hnull. destruct (create_table bn bk Hb Hk) as (t' & Ht' & Hn & _). assert (t' = t) as -> by congruence.
  apply bool_decide_eq_true in Hnull. cbn [table] in Hnull. rewrite Hn in Hnull.
  apply length_zero_iff_nil in Hnull.
  unfold matches. destruct (key_is_valid pk i); [|done].
  apply elem_of_nil_inv. intros j [[Hv _] Hj]%list_elem_of_filter.
  assert (j ∈ filter (λ i, key_is_valid bk i = true) (seq 0 bn)) as Hin by (by apply list_elem_of_filter).
  rewrite Hnull in Hin. set_solver.
Qed.

(** ** What the full joiner must output *)

Definition proj_p (P : JoinerParams) (jp : JoinParams) : list nat :=
  match probe_side P with L => left_ (projection jp) | R => right_ (projection jp) end.
Definition proj_b (P : JoinerParams) (jp : JoinParams) : list nat :=
  match probe_side P with L => right_ (projection jp) | R => left_ (projection jp) end.

(** A probe row and a build row side by side, left columns first. *)
Definition side_by_side (P : JoinerParams) (p b : list V) : list V :=
  match probe_side P with L => p ++ b | R => b ++ p end.

(** The joined row of probe row [i] and build row [j], or nulls. *)
Definition out_row (P : JoinerParams) (jp : JoinParams) (bdata pb : RecordBatch (V := V))
    (p : nat * option nat) : list V :=
  side_by_side P (proj_row null (proj_p P jp) (row_at null (columns pb) p.1))
    (match p.2 with
     | Some j => proj_row null (proj_b P jp) (row_at null (columns bdata) j)
     | None => replicate (length (proj_b P jp)) null end).

(** The pairs of one probed row: its matches, or itself alone on the outer side. *)
Definition row_pairs (outer : bool) (ms : list nat) (i : nat) : list (nat * option nat) :=
  match ms with
  | [] => if outer then [(i, None)] else []
  | _ => (λ j, (i, Some j)) <$> ms
  end.

(** Whether a pair passes the residual filter. *)
Definition pair_passes (P : JoinerParams)
    (fe : option (JoinFilter (V := V) * (list V → option bool)))
    (bdata pb : RecordBatch (V := V)) (p : nat * option nat) : bool :=
  let pr := row_at null (columns pb) p.1 in
  let br := row_opt null (columns bdata) p.2 in
  match probe_side P with L => passes null fe pr br | R => passes null fe br pr end.

(** Bit [j] of [map_joined] after the build rows [js] have been joined. *)
Definition joined_by (bn : nat) (js : list (option nat)) : list bool :=
  (λ j, bool_decide (Some j ∈ js)) <$> seq 0 bn.

Lemma set_joined_by bn js is_ :
  Forall (idx_ok bn) is_ → set_joined (joined_by bn js) is_ = Ok (joined_by bn (js ++ is_)).
Proof.
  intros Hi. revert js. induction Hi as [|i is_ Hi _ IH]; intros js.
  { cbn. by rewrite app_nil_r. }
  unfold set_joined in *. cbn [rfoldM]. destruct i as [i|].
  - cbn in Hi. rewrite set_index_Ok by (unfold joined_by; rewrite length_fmap, length_seq; done).
    cbn [mbind Result_bind].
    assert (<[i := true]> (joined_by bn js) = joined_by bn (js ++ [Some i])) as ->.
    { apply list_eq. intros k. unfold joined_by.
      destruct (decide (k < bn)).
      - rewrite (list_lookup_fmap _ _ k), lookup_seq_lt by done. cbn.
        destruct (decide (k = i)) as [->|].
        + rewrite list_lookup_insert_eq by (rewrite length_fmap, length_seq; done).
          f_equal. symmetry. apply bool_decide_eq_true. set_solver.
        + rewrite list_lookup_insert_ne, list_lookup_fmap, lookup_seq_lt by done. cbn. f_equal.
          apply bool_decide_ext. set_solver.
      - rewrite !lookup_ge_None_2 by (rewrite ?length_insert, ?length_fmap, ?length_seq; lia). done. }
    rewrite IH, <- app_assoc. done.
  - cbn [mbind Result_bind]. rewrite IH. f_equal. unfold joined_by. apply list_fmap_ext.
    intros k j _. apply bool_decide_ext. set_solver.
Qed.

Lemma joined_by_unjoined bn js :
  bit_indices (joined_by bn js) false = filter (λ j, Some j ∉ js) (seq 0 bn).
Proof.
  unfold bit_indices, joined_by, enumerate.
  assert (∀ a, fst <$> filter (λ x, x.2 = false) (imap (λ k b, (a + k, b)) ((λ j, bool_decide (Some j ∈ js)) <$> seq a bn))
    = filter (λ j, Some j ∉ js) (seq a bn)) as Hgen.
  { induction bn as [|bn IH]; intros a; [done|]. cbn [seq]. rewrite fmap_cons.
    cbn [imap]. rewrite !filter_cons. rewrite Nat.add_0_r. cbn [snd].
    rewrite (decide_ext (bool_decide (Some a ∈ js) = false) (Some a ∉ js))
      by apply bool_decide_eq_false.
    assert (imap ((λ k b, (a + k, b)) ∘ S) ((λ j, bool_decide (Some j ∈ js)) <$> seq (S a) bn)
      = imap (λ k b, (S a + k, b)) ((λ j, bool_decide (Some j ∈ js)) <$> seq (S a) bn)) as ->.
    { apply imap_ext. intros k x _. cbn. f_equal. lia. }
    case_decide; [rewrite fmap_cons; f_equal|]; apply IH. }
  apply (Hgen 0).
Qed.

Lemma project_row idxs cols cols' i n :
  project idxs cols = Ok cols' → Forall (λ k, k < length cols) idxs → cols_len cols n →
  row_at null cols' i = proj_row null idxs (row_at null cols i).
Proof.
  intros Hp Hi Hc. destruct (project_ok null idxs cols n Hi Hc) as (c & Hc' & _ & _ & Hr).
  assert (c = cols') as -> by congruence. apply Hr.
Qed.

Lemma gather_probe_ok cols n indices :
  cols_len cols n → Forall (λ i, i < n) indices →
  gather_probe cols n indices = Ok (taken null cols (Some <$> indices)).
Proof.
  intros Hc Hi. unfold gather_probe. case_decide as E.
  - subst. by rewrite taken_seq.
  - apply (take_cols_ok null cols n); [done|]. by apply Forall_fmap.
Qed.

(** ** Correctness of the full joiner *)

Section Full.
Context (P : JoinerParams) (jp : JoinParams) (bdata : RecordBatch (V := V))
  (bk : list KeyColumn) (t : Table) (np : nat)
  (fe : option (JoinFilter (V := V) * (list V → option bool))).
Local Abbreviation bn := (num_rows bdata).
Local Abbreviation m := (mkMap bdata bk t).

(** The plan is consistent: projections in range, the output schema has the
    projected columns, a filter only on inner joins. *)
Record full_ok : Prop := {
  fj_data : batch_ok bdata;
  fj_proj_p : Forall (λ k, k < np) (proj_p P jp);
  fj_proj_b : Forall (λ k, k < length (columns bdata)) (proj_b P jp);
  fj_schema : output_schema jp = length (proj_p P jp) + length (proj_b P jp);
  fj_filter : join_filter jp = fst <$> fe;
  fj_filter_inner : ∀ f e, fe = Some (f, e) →
    probe_side_outer P = false ∧ build_side_outer P = false ∧
    match probe_side P with
    | L => filter_ok null f np (length (columns bdata)) e
    | R => filter_ok null f (length (columns bdata)) np e end;
  fj_pschema : build_side_outer P = true →
    match probe_side P with L => left_schema jp | R => right_schema jp end = length (proj_p P jp) }.
Hypothesis ok : full_ok.

(** What has been sent, and which build rows have been joined. *)
Record st_inv (st : FullJoiner) (rows : list (list V)) (js : list (option nat)) : Prop := {
  si_rows : concat (batch_rows null <$> output st) = rows;
  si_count : output_rows st = length rows;
  si_joined : build_side_outer P = true → map_joined st = joined_by bn js }.

Lemma flush_spec st rows js pcols bcols {A} (f : A → list V) (l : list A) joined js' :
  st_inv st rows js → (build_side_outer P = true → joined = joined_by bn js') →
  cols_len pcols (length l) → cols_len bcols (length l) →
  length pcols = length (proj_p P jp) → length bcols = length (proj_b P jp) →
  (∀ k x, l !! k = Some x →
    side_by_side P (row_at null pcols k) (row_at null bcols k) = f x) →
  ∃ st', flush P jp (mkJoiner joined (output st) (output_rows st)) pcols bcols (length l) = Ok st' ∧
    st_inv st' (rows ++ (f <$> l)) js'.
Proof.
  intros [Hr Hc Hj] Hjoined Hp Hb Hlp Hlb Hf. unfold flush, try_new_batch.
  set (cols := match probe_side P with L => pcols ++ bcols | R => bcols ++ pcols end).
  rewrite decide_True.
  2: { rewrite (fj_schema ok). unfold cols. split.
       - destruct (probe_side P); rewrite length_app; lia.
       - destruct (probe_side P); by apply Forall_app. }
  cbn [mbind Result_bind]. eexists. split; [done|].
  assert (batch_rows null (mkBatch (length l) cols) = f <$> l) as Hrows.
  { apply batch_rows_list. intros k x Hk. rewrite <- (Hf k x Hk). unfold cols, side_by_side.
    destruct (probe_side P); apply row_at_app. }
  split; cbn [output output_rows map_joined]; [| |done].
  - rewrite fmap_app, concat_app, Hr. cbn [fmap list_fmap concat]. by rewrite Hrows, app_nil_r.
  - cbn [num_rows]. by rewrite Hc, length_app, length_fmap.
Qed.

Definition pairs_ok (pb : RecordBatch (V := V)) (ps : list (nat * option nat)) : Prop :=
  Forall (λ p, p.1 < num_rows pb ∧ idx_ok bn p.2) ps.

Lemma project_probe_ok cols n :
  cols_len cols n → length cols = np →
  ∃ c, project_probe jp (probe_side P) cols = Ok c ∧ cols_len c n ∧
    length c = length (proj_p P jp) ∧ ∀ i, row_at null c i = proj_row null (proj_p P jp) (row_at null cols i).
Proof.
  intros Hc Hl. pose proof (fj_proj_p ok) as Hp. rewrite <- Hl in Hp.
  unfold project_probe, project_left, project_right. unfold proj_p in *.
  destruct (probe_side P); apply (project_ok null _ cols n Hp Hc).
Qed.

Lemma project_build_ok cols n :
  cols_len cols n → length cols = length (columns bdata) →
  ∃ c, project_build jp (probe_side P) cols = Ok c ∧ cols_len c n ∧
    length c = length (proj_b P jp) ∧ ∀ i, row_at null c i = proj_row null (proj_b P jp) (row_at null cols i).
Proof.
  intros Hc Hl. pose proof (fj_proj_b ok) as Hp. rewrite <- Hl in Hp.
  unfold project_build, project_left, project_right. unfold proj_b in *.
  destruct (probe_side P); apply (project_ok null _ cols n Hp Hc).
Qed.

Lemma side_by_side_out pb i o pr br :
  pr = proj_row null (proj_p P jp) (row_at null (columns pb) i) →
  br = match o with Some j => proj_row null (proj_b P jp) (row_at null (columns bdata) j)
       | None => replicate (length (proj_b P jp)) null end →
  side_by_side P pr br = out_row P jp bdata pb (i, o).
Proof. by intros -> ->. Qed.

Lemma flush_hash_joined_plain st pb ps inner outer rows js :
  fe = None → batch_ok pb → length (columns pb) = np → pairs_ok pb ps →
  (if probe_side_outer P then outer else Some <$> inner) = snd <$> ps → st_inv st rows js →
  ∃ st', flush_hash_joined P jp m st pb (fst <$> ps) inner outer = Ok st' ∧
    st_inv st' (rows ++ (out_row P jp bdata pb <$> ps)) (js ++ (snd <$> ps)).
Proof.
  intros Hfe Hpb Hnp Hps Hbuild Hst. unfold flush_hash_joined.
  rewrite Hbuild, bool_decide_eq_true_2 by (by rewrite !length_fmap).
  cbn [rassert mbind Result_bind]. rewrite (fj_filter ok), Hfe. cbn [fmap option_fmap option_map].
  destruct (project_probe_ok _ _ Hpb Hnp) as (pc & -> & Hpc & Hpl & Hpr).
  cbn [mbind Result_bind data_batch].
  destruct (project_build_ok _ _ (fj_data ok) eq_refl) as (bc & -> & Hbc & Hbl & Hbr).
  cbn [mbind Result_bind data_batch].
  rewrite gather_probe_ok; [|done|].
  2: { apply Forall_fmap. eapply Forall_impl; [exact Hps|]. intros p [? _]. done. }
  cbn [mbind Result_bind].
  assert (Forall (idx_ok bn) (snd <$> ps)) as Hidx.
  { apply Forall_fmap. eapply Forall_impl; [exact Hps|]. intros p [_ ?]. done. }
  assert (∃ joined, (if build_side_outer P then set_joined (map_joined st) (snd <$> ps)
      else Ok (map_joined st)) = Ok joined ∧
    (build_side_outer P = true → joined = joined_by bn (js ++ (snd <$> ps)))) as (joined & -> & Hj).
  { destruct (build_side_outer P) eqn:E; [|by exists (map_joined st)].
    eexists. split; [|done]. rewrite (si_joined _ _ _ Hst) by done. by apply set_joined_by. }
  cbn [mbind Result_bind]. rewrite (take_cols_ok null _ bn) by done. cbn [mbind Result_bind].
  rewrite length_fmap.
  eapply (flush_spec st rows js); [done|done| | | | |].
  - pose proof (taken_len null pc (Some <$> (fst <$> ps))) as Hl. by rewrite !length_fmap in Hl.
  - pose proof (taken_len null bc (snd <$> ps)) as Hl. by rewrite length_fmap in Hl.
  - unfold taken. by rewrite length_fmap.
  - unfold taken. by rewrite length_fmap.
  - intros k [i o] Hk. rewrite (taken_row null _ _ k (Some i)), (taken_row null _ _ k o)
      by (by rewrite !list_lookup_fmap, Hk).
    apply side_by_side_out; [apply Hpr|]. destruct o; cbn; [apply Hbr|by rewrite Hbl].
Qed.

Lemma flush_hash_joined_filter st pb ps inner outer rows js f e :
  fe = Some (f, e) → batch_ok pb → length (columns pb) = np → pairs_ok pb ps →
  (if probe_side_outer P then outer else Some <$> inner) = snd <$> ps → st_inv st rows js →
  ∃ st', flush_hash_joined P jp m st pb (fst <$> ps) inner outer = Ok st' ∧
    st_inv st' (rows ++ (out_row P jp bdata pb <$>
      filter (λ p, pair_passes P fe bdata pb p = true) ps)) (js ++ (snd <$> ps)).
Proof.
  intros Hfe Hpb Hnp Hps Hbuild Hst. unfold flush_hash_joined.
  rewrite Hbuild, bool_decide_eq_true_2 by (by rewrite !length_fmap).
  cbn [rassert mbind Result_bind]. rewrite (fj_filter ok), Hfe. cbn [fmap option_fmap option_map fst].
  destruct (fj_filter_inner ok f e Hfe) as (Hpo & Hbo & Hf). rewrite Hpo, Hbo. cbn [orb data_batch].
  assert (Forall (idx_ok bn) (snd <$> ps)) as Hidx.
  { apply Forall_fmap. eapply Forall_impl; [exact Hps|]. intros p [_ ?]. done. }
  rewrite gather_probe_ok; [|done|].
  2: { apply Forall_fmap. eapply Forall_impl; [exact Hps|]. intros p [? _]. done. }
  cbn [mbind Result_bind]. rewrite (take_cols_ok null _ bn) by (apply (fj_data ok) || done).
  cbn [mbind Result_bind]. rewrite length_fmap.
  set (pc := taken null (columns pb) (Some <$> (fst <$> ps))).
  set (bc := taken null (columns bdata) (snd <$> ps)).
  assert (cols_len pc (length ps)) as Hpc.
  { pose proof (taken_len null (columns pb) (Some <$> (fst <$> ps))) as Hl. by rewrite !length_fmap in Hl. }
  assert (cols_len bc (length ps)) as Hbc.
  { pose proof (taken_len null (columns bdata) (snd <$> ps)) as Hl. by rewrite length_fmap in Hl. }
  assert (length pc = np ∧ length bc = length (columns bdata)) as [Hpn Hbn]
    by (unfold pc, bc, taken; by rewrite !length_fmap).
  assert (∀ k p, ps !! k = Some p → row_at null pc k = row_at null (columns pb) p.1 ∧
    row_at null bc k = row_opt null (columns bdata) p.2) as Hrow.
  { intros k [i o] Hk. unfold pc, bc. split.
    - by rewrite (taken_row null _ _ k (Some i)) by (by rewrite !list_lookup_fmap, Hk).
    - by rewrite (taken_row null _ _ k o) by (by rewrite !list_lookup_fmap, Hk). }
  set (sel := λ k, pair_passes P fe bdata pb (nth k ps (0, None))).
  set (selected := (λ k, Some (sel k)) <$> seq 0 (length ps)).
  assert (∀ lc rc, (lc, rc) = match probe_side P with L => (pc, bc) | R => (bc, pc) end →
    filter_evaluate f lc rc (length ps) = Ok selected) as Hsel.
  { intros lc rc Hlr.
    assert (filter_ok null f (length lc) (length rc) e ∧ cols_len lc (length ps) ∧
      cols_len rc (length ps)) as (Hfo & Hlc & Hrc).
    { destruct (probe_side P); injection Hlr as -> ->; by rewrite Hpn, Hbn. }
    rewrite (filter_evaluate_ok null f e) by done. f_equal. unfold selected.
    apply list_fmap_ext. intros k i Hi. apply lookup_seq in Hi as [-> Hi]. f_equal.
    unfold sel, pair_passes. rewrite nth_lookup.
    destruct (lookup_lt_is_Some_2 ps (0 + k) ltac:(lia)) as [p Hp]. rewrite Hp. cbn [default from_option id].
    destruct (Hrow _ _ Hp) as [<- <-]. rewrite Hfe.
    destruct (probe_side P); by injection Hlr as -> ->. }
  destruct (match probe_side P with L => (pc, bc) | R => (bc, pc) end) as [lc rc] eqn:Elr.
  rewrite (Hsel lc rc eq_refl). cbn [mbind Result_bind].
  pose proof (count_selected sel (seq 0 (length ps))) as Hcount. fold selected in Hcount.
  rewrite Hcount. clear Hcount.
  set (kept := filter (λ k, sel k = true) (seq 0 (length ps))).
  assert (∃ pf bf, match probe_side P with
      | L => (filter_col selected <$> lc, filter_col selected <$> rc)
      | R => (filter_col selected <$> rc, filter_col selected <$> lc) end = (pf, bf) ∧
    pf = filter_col selected <$> pc ∧ bf = filter_col selected <$> bc) as (pf & bf & -> & -> & ->).
  { destruct (probe_side P); injection Elr as -> ->; eauto. }
  destruct (filter_cols_rows null sel pc (length ps) Hpc) as [Hpfl Hpfr].
  destruct (filter_cols_rows null sel bc (length ps) Hbc) as [Hbfl Hbfr].
  fold selected in Hpfl, Hpfr, Hbfl, Hbfr. fold kept in Hpfl, Hpfr, Hbfl, Hbfr.
  destruct (project_probe_ok _ _ Hpfl) as (pp & -> & Hpp & Hppl & Hppr); [by rewrite length_fmap|].
  cbn [mbind Result_bind].
  destruct (project_build_ok _ _ Hbfl) as (bb & -> & Hbb & Hbbl & Hbbr); [by rewrite length_fmap|].
  cbn [mbind Result_bind]. rewrite (filter_nth _ ps (0, None)). fold sel. fold kept.
  rewrite <- list_fmap_compose.
  destruct (flush_spec st rows js pp bb (out_row P jp bdata pb ∘ (λ i, nth i ps (0, None))) kept
    (map_joined st) (js ++ (snd <$> ps))) as (st' & Hf' & Hinv); try done.
  - by rewrite Hbo.
  - intros k i Hk. unfold compose. rewrite Hppr, Hbbr, (Hpfr k i Hk), (Hbfr k i Hk).
    assert (i < length ps) as Hi.
    { apply list_elem_of_lookup_2, list_elem_of_filter in Hk as [_ Hk%elem_of_seq]. lia. }
    destruct (lookup_lt_is_Some_2 ps i Hi) as [[a o] Hp]. rewrite nth_lookup, Hp.
    destruct (Hrow _ _ Hp) as [-> ->]. cbn [default from_option id fst snd].
    apply side_by_side_out; [done|]. destruct o as [j|]; [done|]. exfalso.
    rewrite Hpo in Hbuild. assert (None ∈ (Some <$> inner)) as Hin.
    { rewrite Hbuild. apply list_elem_of_fmap. exists (a, None). split; [done|].
      by eapply list_elem_of_lookup_2. }
    by apply list_elem_of_fmap in Hin as (? & ? & _).
  - exists st'. split; [destruct st; exact Hf'|]. rewrite <- Hfe. exact Hinv.
Qed.

Lemma flush_hash_joined_spec st pb ps inner outer rows js :
  batch_ok pb → length (columns pb) = np → pairs_ok pb ps →
  (if probe_side_outer P then outer else Some <$> inner) = snd <$> ps → st_inv st rows js →
  ∃ st', flush_hash_joined P jp m st pb (fst <$> ps) inner outer = Ok st' ∧
    st_inv st' (rows ++ (out_row P jp bdata pb <$>
      filter (λ p, pair_passes P fe bdata pb p = true) ps)) (js ++ (snd <$> ps)).
Proof.
  intros Hpb Hnp Hps Hbuild Hst. destruct fe as [[f e]|] eqn:Hfe.
  - rewrite <- Hfe. by apply (flush_hash_joined_filter st pb ps inner outer rows js f e).
  - assert (filter (λ p, pair_passes P None bdata pb p = true) ps = ps) as ->.
    { clear. induction ps as [|p ps IH]; [done|]. rewrite filter_cons_True; [by f_equal|].
      unfold pair_passes. by destruct (probe_side P). }
    by apply flush_hash_joined_plain.
Qed.

(** ** One probed batch *)

Definition build_idx (s : JoinLoop) : list (option nat) :=
  if probe_side_outer P then outer_idx s else Some <$> inner_idx s.

Definition push_all (s : JoinLoop) (i : nat) (ms : list nat) : JoinLoop :=
  if probe_side_outer P
  then mkLoop (probe_idx s ++ ((λ _, i) <$> ms)) (inner_idx s) (outer_idx s ++ (Some <$> ms))
         (hashes_idx s) (joiner s)
  else mkLoop (probe_idx s ++ ((λ _, i) <$> ms)) (inner_idx s ++ ms) (outer_idx s)
         (hashes_idx s) (joiner s).

Lemma push_all_nil s i : push_all s i [] = s.
Proof. unfold push_all. destruct s. cbn. rewrite !app_nil_r. by destruct (probe_side_outer P). Qed.

Lemma candidate_ok eq i s b j e :
  key_eq eq i j = Ok e →
  join_candidate P eq i (s, b) (Z.of_nat j) = Ok (if e then (push_all s i [j], true) else (s, b)).
Proof. intros He. unfold join_candidate. rewrite Nat2Z.id, He. cbn [mbind Result_bind]. by destruct e. Qed.

Lemma push_all_cons s i j ms : push_all (push_all s i [j]) i ms = push_all s i (j :: ms).
Proof. unfold push_all. destruct (probe_side_outer P); cbn; by rewrite <- !app_assoc. Qed.

Lemma candidates_fold eq pk i rows s b :
  Forall (λ j, key_eq eq i j = Ok (rows_eq pk bk i j)) rows →
  rfoldM (join_candidate P eq i) (s, b) (Z.of_nat <$> rows)
  = Ok (push_all s i (filter (λ j, rows_eq pk bk i j = true) rows),
     b || negb (bool_decide (filter (λ j, rows_eq pk bk i j = true) rows = []))).
Proof.
  intros Hall. revert s b. induction Hall as [|j rows Hj _ IH]; intros s b.
  { cbn. rewrite push_all_nil, orb_false_r. done. }
  rewrite fmap_cons. cbn [rfoldM]. rewrite (candidate_ok _ _ _ _ _ _ Hj). cbn [mbind Result_bind]. rewrite filter_cons.
  destruct (rows_eq pk bk i j); case_decide; try done. rewrite IH, push_all_cons.
  rewrite (bool_decide_eq_false_2 (_ :: _ = [])) by done. by rewrite !orb_true_r, orb_true_l.
Qed.

Section Batch.
Context (pb : RecordBatch (V := V)) (pk : list KeyColumn).
Hypothesis bk_ok : keys_ok bn bk.
Hypothesis bn_lt : (Z.of_nat bn < 2 ^ 30)%Z.
Hypothesis Ht : create_from_key_columns bn bk = Ok t.

Record probed_ok : Prop := {
  po_batch : batch_ok pb;
  po_cols : length (columns pb) = np;
  po_keys : create_probed_key_columns jp (probe_side P) pb = Ok pk;
  po_keys_ok : keys_ok (num_rows pb) pk;
  po_types : same_types pk bk }.
Hypothesis pok : probed_ok.

Definition pairs_of (i : nat) : list (nat * option nat) :=
  row_pairs (probe_side_outer P) (matches pk bk bn i) i.
Definition pairs_upto (i : nat) : list (nat * option nat) := concat (pairs_of <$> seq 0 i).

Definition emitted (ps : list (nat * option nat)) : list (list V) :=
  out_row P jp bdata pb <$> filter (λ p, pair_passes P fe bdata pb p = true) ps.

Lemma emitted_app ps1 ps2 : emitted (ps1 ++ ps2) = emitted ps1 ++ emitted ps2.
Proof. unfold emitted. by rewrite filter_app, fmap_app. Qed.

Record loop_inv (rows0 : list (list V)) (js0 : list (option nat)) (i : nat) (s : JoinLoop)
  : Prop := {
  li_count : hashes_idx s = valid_count (num_rows pb) pk i;
  li_split : ∃ sent pend, pairs_upto i = sent ++ pend ∧
    probe_idx s = fst <$> pend ∧ build_idx s = snd <$> pend ∧
    st_inv (joiner s) (rows0 ++ emitted sent) (js0 ++ (snd <$> sent)) }.

Lemma pairs_of_ok i : i < num_rows pb → pairs_ok pb (pairs_of i).
Proof.
  intros Hi. unfold pairs_of, row_pairs, pairs_ok.
  assert (Forall (λ j, j < bn) (matches pk bk bn i)) as Hm.
  { unfold matches. destruct (key_is_valid pk i); [|constructor]. apply Forall_forall.
    intros j [_ Hj%elem_of_seq]%list_elem_of_filter. lia. }
  destruct (matches pk bk bn i) as [|j ms].
  - destruct (probe_side_outer P); [|constructor]. by apply Forall_singleton.
  - apply Forall_fmap. eapply Forall_impl; [exact Hm|]. intros k Hk. done.
Qed.

Lemma pairs_upto_S i : pairs_upto (S i) = pairs_upto i ++ pairs_of i.
Proof. unfold pairs_upto. rewrite seq_S, fmap_app, concat_app. cbn. by rewrite app_nil_r. Qed.

Lemma pairs_upto_ok i : i ≤ num_rows pb → pairs_ok pb (pairs_upto i).
Proof.
  induction i as [|i IH]; intros Hi; [constructor|]. rewrite pairs_upto_S. apply Forall_app.
  split; [apply IH; lia|]. apply pairs_of_ok. lia.
Qed.

(** Appending one row's pairs to the index vectors. *)
Lemma push_row s i ms :
  probe_idx (if probe_side_outer P && bool_decide (ms = [])
    then mkLoop (probe_idx (push_all s i ms) ++ [i]) (inner_idx (push_all s i ms))
           (outer_idx (push_all s i ms) ++ [None]) (hashes_idx s) (joiner s)
    else push_all s i ms) = probe_idx s ++ (fst <$> row_pairs (probe_side_outer P) ms i) ∧
  build_idx (if probe_side_outer P && bool_decide (ms = [])
    then mkLoop (probe_idx (push_all s i ms) ++ [i]) (inner_idx (push_all s i ms))
           (outer_idx (push_all s i ms) ++ [None]) (hashes_idx s) (joiner s)
    else push_all s i ms) = build_idx s ++ (snd <$> row_pairs (probe_side_outer P) ms i).
Proof.
  unfold build_idx, push_all, row_pairs. destruct (probe_side_outer P) eqn:EP, ms as [|j ms];
    cbn [andb bool_decide decide_rel probe_idx inner_idx outer_idx].
  - rewrite bool_decide_eq_true_2 by done. cbn. by rewrite !app_nil_r.
  - rewrite bool_decide_eq_false_2 by done. cbn [probe_idx outer_idx].
    rewrite <- !list_fmap_compose. done.
  - cbn. by rewrite !app_nil_r.
  - rewrite <- !list_fmap_compose. rewrite fmap_app. done.
Qed.

Lemma join_row_spec eq rows0 js0 vs i s :
  (∀ j, j < bn → key_is_valid pk i = true → key_is_valid bk j = true → key_eq eq i j = Ok (rows_eq pk bk i j)) →
  (key_is_valid pk i = true → ∃ v rows, vs !! valid_count (num_rows pb) pk i = Some v ∧
    candidates_of t pk bk bn i v rows) →
  loop_inv rows0 js0 i s → i < num_rows pb →
  ∃ s', join_row P jp m pb eq pk vs s i = Ok s' ∧ loop_inv rows0 js0 (S i) s'.
Proof.
  intros Heq Hlook [Hcount (sent & pend & Hsplit & Hprobe & Hbuild & Hst)] Hi. unfold join_row.
  set (ms := matches pk bk bn i).
  set (s0 := mkLoop (probe_idx s) (inner_idx s) (outer_idx s)
    (valid_count (num_rows pb) pk (S i)) (joiner s)).
  assert (probe_row P m eq pk vs s i = Ok (push_all s0 i ms, negb (bool_decide (ms = [])))) as ->.
  { unfold probe_row, s0. rewrite valid_count_S by done. destruct (key_is_valid pk i) eqn:Ev.
    - destruct (Hlook eq_refl) as (v & rows & Hv & Hm & Hr & Hf). rewrite Hcount.
      rewrite (proj2 (index_Ok _ _ _) Hv). cbn [mbind Result_bind table]. rewrite Hm.
      cbn [mbind Result_bind]. rewrite (candidates_fold eq pk), Hf; [done|].
      eapply Forall_impl; [exact Hr|]. intros j [Hj Hvj]. by apply Heq.
    - unfold ms, matches. rewrite Ev, push_all_nil, Nat.add_0_r, <- Hcount. by destruct s. }
  cbn [mbind Result_bind]. rewrite negb_involutive.
  destruct (push_row s0 i ms) as [Hp1 Hb1].
  assert (∀ s, hashes_idx (push_all s i ms) = hashes_idx s ∧ joiner (push_all s i ms) = joiner s) as Hpa
    by (intros s1; unfold push_all; by destruct (probe_side_outer P)).
  destruct (Hpa s0) as [-> ->].
  set (s1 := if probe_side_outer P && bool_decide (ms = []) then _ else _) in *.
  assert (hashes_idx s1 = valid_count (num_rows pb) pk (S i) ∧ joiner s1 = joiner s) as [Hc1 Hj1].
  { unfold s1. destruct (probe_side_outer P && bool_decide (ms = [])); [done|].
    destruct (Hpa s0) as [E1 E2]. by rewrite E1, E2. }
  change (row_pairs (probe_side_outer P) ms i) with (pairs_of i) in Hp1, Hb1. change (probe_idx s0) with (probe_idx s) in Hp1.
  change (build_idx s0) with (build_idx s) in Hb1.
  rewrite Hprobe, <- fmap_app in Hp1. rewrite Hbuild, <- fmap_app in Hb1.
  assert (pairs_upto (S i) = sent ++ (pend ++ pairs_of i)) as Hup
    by (by rewrite pairs_upto_S, Hsplit, app_assoc).
  case_decide.
  - pose proof (pairs_upto_ok (S i) ltac:(lia)) as Hok. rewrite Hup in Hok.
    apply Forall_app in Hok as [_ Hok].
    destruct (flush_hash_joined_spec (joiner s1) pb (pend ++ pairs_of i) (inner_idx s1) (outer_idx s1)
      (rows0 ++ emitted sent) (js0 ++ (snd <$> sent))) as (st' & Hf & Hst');
      [apply pok|apply pok|done|exact Hb1|by rewrite Hj1|].
    rewrite Hp1, Hf. cbn [mbind Result_bind]. eexists. split; [done|]. split; [done|].
    exists (pairs_upto (S i)), []. rewrite app_nil_r. split_and!; [done|done| |].
    { unfold build_idx. by destruct (probe_side_outer P). }
    cbn [joiner]. rewrite Hup, emitted_app, fmap_app, !app_assoc. exact Hst'.
  - eexists. split; [done|]. split; [done|]. exists sent, (pend ++ pairs_of i).
    split_and!; [done|done|done|]. by rewrite Hj1.
Qed.

Lemma full_join_spec st rows js :
  st_inv st rows js →
  ∃ st', full_join P jp m st pb = Ok st' ∧
    st_inv st' (rows ++ emitted (pairs_upto (num_rows pb))) (js ++ (snd <$> pairs_upto (num_rows pb))).
Proof.
  intros Hst. unfold full_join. rewrite (po_keys pok). cbn [mbind Result_bind].
  rewrite (join_create_hashes_ok fold_hash _ pk (po_keys_ok pok)). cbn [mbind Result_bind key_columns].
  destruct (comparator_keys (num_rows pb) bn pk bk (po_keys_ok pok) bk_ok (po_types pok)) as (eq & -> & Heq). cbn [mbind Result_bind].
  destruct (lookup_probed_spec bk bn t bdata pk (num_rows pb) Ht bn_lt bk_ok) as (vs & Hvs & Hlook).
  fold (join_hashes (num_rows pb) pk). rewrite Hvs. cbn [mbind Result_bind]. unfold range. rewrite Nat.sub_0_r.
  destruct (rfoldM_inv (λ s rest, ∃ i, i ≤ num_rows pb ∧ rest = seq i (num_rows pb - i) ∧ loop_inv rows js i s)
    (join_row P jp m pb eq pk vs) (mkLoop [] [] [] 0 st) (seq 0 (num_rows pb)))
    as (s & -> & i & Hi & Hrest & [_ (sent & pend & Hsplit & Hprobe & Hbuild & Hst')]).
  - exists 0. split_and!; [lia|by rewrite Nat.sub_0_r|]. split; [done|].
    exists [], []. split_and!; [done|done|unfold build_idx; by destruct (probe_side_outer P)|].
    cbn. by rewrite !app_nil_r.
  - intros s x rest (i & Hi & Hrest & Hinv). destruct (num_rows pb - i) as [|k] eqn:E; [done|].
    injection Hrest as -> ->.
    destruct (join_row_spec eq rows js vs i s) as (s' & -> & Hinv'); [| |done|lia|].
    { intros j Hj. apply Heq; [lia|done]. }
    { intros Hv. apply Hlook; [lia|done]. }
    exists s'. split; [done|]. exists (S i). split_and!; [lia| |done]. f_equal. lia.
  - assert (i = num_rows pb) as -> by (destruct (num_rows pb - i) eqn:E; [lia|done]).
    cbn [mbind Result_bind]. pose proof (pairs_upto_ok (num_rows pb) ltac:(lia)) as Hok.
    rewrite Hsplit in *. apply Forall_app in Hok as [_ Hok]. case_decide as Enil.
    + rewrite Hprobe in Enil. apply fmap_nil_inv in Enil as ->. rewrite app_nil_r. eauto.
    + destruct (flush_hash_joined_spec (joiner s) pb pend (inner_idx s) (outer_idx s)
        (rows ++ emitted sent) (js ++ (snd <$> sent))) as (st' & Hf & Hst'');
        [apply pok|apply pok|done|exact Hbuild|done|].
      rewrite Hprobe, Hf. exists st'. split; [done|].
      rewrite emitted_app, fmap_app, !app_assoc. exact Hst''.
Qed.

End Batch.

(** ** All batches, then the unjoined build rows *)

(** The nested-loop specification: for every probed row its matches in build
    order (or itself with nulls on the outer side), then the build rows that no
    probed row matches (on the outer side). *)
Definition probed_spec (b : RecordBatch (V := V) * list KeyColumn) : list (list V) :=
  emitted b.1 (pairs_upto b.2 (num_rows b.1)).

Definition is_matched (batches : list (RecordBatch (V := V) * list KeyColumn)) (j : nat) : bool :=
  existsb (λ b, existsb (λ i, bool_decide (j ∈ matches b.2 bk bn i)) (seq 0 (num_rows b.1))) batches.

Definition unjoined_row (j : nat) : list V :=
  side_by_side P (replicate (length (proj_p P jp)) null)
    (proj_row null (proj_b P jp) (row_at null (columns bdata) j)).

Definition join_spec (batches : list (RecordBatch (V := V) * list KeyColumn)) : list (list V) :=
  concat (probed_spec <$> batches) ++
  (if build_side_outer P
   then unjoined_row <$> filter (λ j, is_matched batches j = false) (seq 0 bn) else []).

Definition all_joined (batches : list (RecordBatch (V := V) * list KeyColumn)) : list (option nat) :=
  concat ((λ b, snd <$> pairs_upto b.2 (num_rows b.1)) <$> batches).

Lemma joined_in_pairs pk n j :
  Some j ∈ snd <$> pairs_upto pk n ↔ ∃ i, i < n ∧ j ∈ matches pk bk bn i.
Proof.
  induction n as [|n IH].
  { cbn. split; [set_solver|intros (i & ? & _); lia]. }
  rewrite pairs_upto_S, fmap_app, elem_of_app, IH.
  assert (Some j ∈ snd <$> pairs_of pk n ↔ j ∈ matches pk bk bn n) as ->.
  { unfold pairs_of, row_pairs. destruct (matches pk bk bn n) as [|j' ms].
    - destruct (probe_side_outer P); cbn; set_solver.
    - rewrite <- list_fmap_compose. rewrite list_elem_of_fmap. cbn. naive_solver. }
  split.
  - intros [(i & ? & ?)|?]; [exists i|exists n]; split; (done || lia).
  - intros (i & Hi & Hm). destruct (decide (i = n)) as [->|]; [by right|left; exists i; split; [lia|done]].
Qed.

Lemma is_matched_joined batches j :
  is_matched batches j = true ↔ Some j ∈ all_joined batches.
Proof.
  unfold is_matched, all_joined. induction batches as [|[pb pk] batches IH].
  { cbn. split; [done|set_solver]. }
  cbn [existsb fmap list_fmap concat fst snd]. rewrite orb_true_iff, elem_of_app, IH.
  rewrite joined_in_pairs. apply or_iff_compat_r. rewrite existsb_exists. split.
  - intros (i & Hi%in_seq & Hm%bool_decide_eq_true). exists i. split; [lia|done].
  - intros (i & Hi & Hm). exists i. rewrite in_seq, bool_decide_eq_true. split; [lia|done].
Qed.

Section Run.
Hypothesis bk_ok : keys_ok bn bk.
Hypothesis bn_lt : (Z.of_nat bn < 2 ^ 30)%Z.
Hypothesis Ht : create_from_key_columns bn bk = Ok t.

Lemma run_batches batches st rows js :
  Forall (λ b, probed_ok b.1 b.2) batches → st_inv st rows js →
  ∃ st', rfoldM (λ st b, if full_can_early_stop P m then Ok st else full_join P jp m st b)
      st (fst <$> batches) = Ok st' ∧
    st_inv st' (rows ++ concat (probed_spec <$> batches)) (js ++ all_joined batches).
Proof.
  intros Hb. revert st rows js. induction Hb as [|[pb pk] batches Hok _ IH]; intros st rows js Hst.
  { exists st. unfold all_joined. cbn. rewrite !app_nil_r. done. }
  rewrite fmap_cons. cbn [rfoldM fst snd] in *.
  assert (∃ st', (if full_can_early_stop P m then Ok st else full_join P jp m st pb) = Ok st' ∧
    st_inv st' (rows ++ probed_spec (pb, pk)) (js ++ (snd <$> pairs_upto pk (num_rows pb))))
    as (st1 & -> & Hst1).
  { destruct (full_can_early_stop P m) eqn:Estop.
    - exists st. split; [done|]. unfold full_can_early_stop in Estop.
      destruct (probe_side_outer P) eqn:Eouter; [done|].
      assert (pairs_upto pk (num_rows pb) = []) as Hnil.
      { generalize (num_rows pb). induction n as [|n IHn]; [done|].
        rewrite pairs_upto_S, IHn. unfold pairs_of, row_pairs.
        rewrite (all_nulls_no_matches pk bk bn t bdata n Ht bn_lt bk_ok Estop), Eouter. done. }
      unfold probed_spec. cbn [fst snd]. rewrite Hnil. cbn. by rewrite !app_nil_r.
    - by apply (full_join_spec pb pk bk_ok bn_lt Ht Hok). }
  cbn [mbind Result_bind]. destruct (IH st1 _ _ Hst1) as (st2 & Hr & Hst2).
  exists st2. split; [done|]. unfold all_joined in *. cbn [fmap list_fmap concat fst snd].
  rewrite !app_assoc. exact Hst2.
Qed.

Lemma full_finish_spec st rows js :
  st_inv st rows js →
  ∃ st', full_finish P jp m st = Ok st' ∧
    concat (batch_rows null <$> output st') = rows ++ (if build_side_outer P
      then unjoined_row <$> filter (λ j, Some j ∉ js) (seq 0 bn) else []) ∧
    output_rows st' = length (concat (batch_rows null <$> output st')).
Proof.
  intros Hst. unfold full_finish. pose proof Hst as [Hr Hc Hj].
  destruct (build_side_outer P) eqn:Eb.
  2: { eexists. split; [done|]. cbn. rewrite app_nil_r, Hr. done. }
  rewrite (Hj eq_refl), joined_by_unjoined. set (un := filter _ _).
  rewrite (fj_pschema ok Eb). cbn [data_batch].
  destruct (project_build_ok _ _ (fj_data ok) eq_refl) as (bc & -> & Hbc & Hbl & Hbr).
  cbn [mbind Result_bind].
  rewrite (take_cols_ok null _ bn).
  2: done.
  2: { apply Forall_fmap, Forall_forall. intros j [_ Hj'%elem_of_seq]%list_elem_of_filter. cbn. lia. }
  cbn [mbind Result_bind].
  assert (st_inv (mkJoiner (joined_by bn js) (output st) (output_rows st)) rows js) as Hst'
    by (split; done).
  unfold flush, try_new_batch.
  set (pc := null_cols null (length (proj_p P jp)) (length un)).
  set (bc' := taken null bc (Some <$> un)).
  assert (cols_len pc (length un)) as Hpl by apply null_cols_len.
  assert (cols_len bc' (length un)) as Hbl'.
  { pose proof (taken_len null bc (Some <$> un)) as Hl. by rewrite length_fmap in Hl. }
  set (cols := match probe_side P with L => pc ++ bc' | R => bc' ++ pc end).
  rewrite decide_True.
  2: { rewrite (fj_schema ok). unfold cols, pc, null_cols, bc', taken. split.
       - destruct (probe_side P); rewrite length_app, length_replicate, length_fmap; lia.
       - destruct (probe_side P); by apply Forall_app. }
  cbn [mbind Result_bind]. eexists. split; [done|]. cbn [output output_rows num_rows].
  assert (batch_rows null (mkBatch (length un) cols) = unjoined_row <$> un) as Hrows.
  { apply batch_rows_list. intros k j Hk. unfold cols, unjoined_row, side_by_side.
    rewrite <- (null_cols_row null (length (proj_p P jp)) (length un) k), <- Hbr.
    assert (row_at null bc' k = row_at null bc j) as <-.
    { unfold bc'. by rewrite (taken_row null _ _ k (Some j)) by (by rewrite list_lookup_fmap, Hk). }
    destruct (probe_side P); apply row_at_app. }
  rewrite fmap_app, concat_app, Hr. cbn [fmap list_fmap concat]. rewrite Hrows, app_nil_r.
  split; [done|]. rewrite Hc, length_app, length_fmap. done.
Qed.

Lemma run_full_spec batches :
  Forall (λ b, probed_ok b.1 b.2) batches →
  ∃ st, run_full P jp m (fst <$> batches) = Ok st ∧
    concat (batch_rows null <$> output st) = join_spec batches ∧
    output_rows st = length (join_spec batches).
Proof.
  intros Hb. unfold run_full.
  destruct (run_batches batches (full_new m) [] [] Hb) as (st & -> & Hst).
  { split; [done|done|]. intros _. cbn. unfold joined_by. clear.
    rewrite <- (length_seq bn 0) at 1. induction (seq 0 bn) as [|j l IH]; [done|]. cbn. f_equal. exact IH. }
  cbn [mbind Result_bind app] in *. destruct (full_finish_spec st _ _ Hst) as (st' & -> & Hrows & Hc).
  exists st'. split; [done|]. rewrite Hc, Hrows. unfold join_spec.
  enough (filter (λ j, Some j ∉ all_joined batches) (seq 0 bn)
    = filter (λ j, is_matched batches j = false) (seq 0 bn)) as -> by done.
  apply filter_ext_elem. intros j _. rewrite <- is_matched_joined.
  destruct (is_matched batches j); split; intros; congruence.
Qed.

End Run.
End Full.

(** C5: for inner, left, right and full broadcast hash joins, probing either side and
    with a residual filter on inner joins, building the map and joining all batches
    succeeds and the rows sent are exactly the nested-loop join: every probed row with
    the build rows of the same key in order, null-padded rows of the outer sides, and
    the filter applied to the pairs. Keys are the same when the comparator of the keys
    says that their values are equal (floating point by ==, so a NaN has no partner) and
    their hashes are equal, which equal values without floating point always have; the
    key columns of both sides have the same types, ones that the code hashes and
    compares, and a key may be null, but hold no null inside a list or struct. *)
Theorem bhj_full_join_correct P jp bdata bkeys bk np fe batches :
  (Z.of_nat (num_rows bdata) < 2 ^ 30)%Z → bkeys bdata = Ok bk → keys_ok (num_rows bdata) bk →
  full_ok P jp bdata np fe → Forall (λ b, probed_ok P jp bk np b.1 b.2) batches →
  ∃ m st, create_from_data_batch bdata bkeys = Ok m ∧ run_full P jp m (fst <$> batches) = Ok st ∧
    concat (batch_rows null <$> output st) = join_spec P jp bdata bk fe batches ∧
    output_rows st = length (join_spec P jp bdata bk fe batches).
Proof.
  intros Hn Hk Hko Hok Hb. destruct (create_table (num_rows bdata) bk Hn Hko) as (t & Ht & _).
  exists (mkMap bdata bk t).
  destruct (run_full_spec P jp bdata bk t np fe Hok Hko Hn Ht batches Hb) as (st & ? & ? & ?).
  exists st. split; [|done]. unfold create_from_data_batch. rewrite Hk. cbn [mbind Result_bind].
  by rewrite Ht.
Qed.

End Bhj.

(** ** A concrete full outer join *)

Module Sample.
(** An array of up to eight integers. *)
Definition bits_of (l : list bool) : Z := foldr (λ b n, Z.b2z b + 2 * n)%Z 0%Z l.
Definition int_array (l : list (option Z)) : Arrow.Array :=
  PrimitiveArray Int64 (Some (mkBits [bits_of ((λ v, bool_decide (is_Some v)) <$> l)] 0 (length l))) (default 0%Z <$> l).

Definition key0 (b : RecordBatch (V := option Z)) : Result (list Arrow.Array) := Ok [int_array (nth 0 (columns b) [])].
(** Every row has the same hash, so the candidates are told apart by key. *)
Definition hash1 (_ : list Z) (_ : Z) : Z := 5.
Definition build : RecordBatch :=
  mkBatch 4 [[Some 1; Some 2; None; Some 2]; [Some 10; Some 20; Some 30; Some 40]]%Z.
Definition probe1 : RecordBatch := mkBatch 3 [[Some 2; Some 5; None]; [Some 7; Some 8; Some 9]]%Z.
Definition build_keys : list Arrow.Array := [int_array [Some 1; Some 2; None; Some 2]%Z].
Definition probe_keys : list Arrow.Array := [int_array [Some 2; Some 5; None]%Z].
Definition params : JoinParams :=
  mkJoinParams 2 2 4 key0 key0 (mkProjection 4 [0; 1] [0; 1]) None 2 false.

Lemma int_array_keys l :
  bytes_ok [bits_of ((λ v, bool_decide (is_Some v)) <$> l)] → length l ≤ 8 → Forall (λ v, in_u 64 (default 0%Z v)) l →
  keys_ok (length l) [int_array l].
Proof.
  intros Hb Hl Hv. split.
  - apply Forall_cons_2; [|apply Forall_nil_2]. split; [|split; [done|apply length_fmap]].
    split; [split; [split; [done|cbn; lia]|symmetry; apply length_fmap]|]. split; [done|]. by apply Forall_fmap.
  - intros i Hi Hvi. apply Forall_cons_2; [|apply Forall_nil_2]. unfold key_is_valid in Hvi. cbn [forallb] in Hvi.
    apply andb_prop in Hvi as [Hn%negb_true_iff _]. cbn [int_array nulls_of] in Hn.
    by erewrite (row_mask (int_array l)); [|reflexivity|by rewrite length_fmap|exact Hn].
Qed.

Ltac int_keys := apply int_array_keys; [repeat (apply Forall_cons_2; [vm_compute; intuition discriminate|]); apply Forall_nil_2|cbn; lia|];
  repeat (apply Forall_cons_2; [cbn; unfold in_u; lia|]); apply Forall_nil_2.

Lemma build_keys_ok : keys_ok 4 build_keys.
Proof. change (keys_ok (length [Some 1; Some 2; None; Some 2]%Z) build_keys). int_keys. Qed.

Lemma probe_keys_ok : keys_ok 3 probe_keys.
Proof. change (keys_ok (length [Some 2; Some 5; None]%Z) probe_keys). int_keys. Qed.
End Sample.

Lemma bhj_full_join_correct_witness :
  ∃ m st, create_from_data_batch Sample.hash1 Sample.build Sample.key0 = Ok m ∧
    run_full None Sample.hash1 LEFT_PROBED_OUTER Sample.params m [Sample.probe1] = Ok st ∧
    concat (batch_rows None <$> output st)
      = join_spec None Sample.hash1 LEFT_PROBED_OUTER Sample.params Sample.build
          Sample.build_keys None [(Sample.probe1, Sample.probe_keys)] ∧
    output_rows st = length (join_spec None Sample.hash1 LEFT_PROBED_OUTER Sample.params Sample.build
          Sample.build_keys None [(Sample.probe1, Sample.probe_keys)]).
Proof.
  apply (bhj_full_join_correct None Sample.hash1 LEFT_PROBED_OUTER Sample.params Sample.build
    Sample.key0 Sample.build_keys 2 None [(Sample.probe1, Sample.probe_keys)]).
  - cbn. lia.
  - reflexivity.
  - exact Sample.build_keys_ok.
  - split; try done; cbn; repeat (apply Forall_cons_2; [done || lia|]); apply Forall_nil_2.
  - apply Forall_singleton. split; try done; [|exact Sample.probe_keys_ok|].
    + cbn. repeat (apply Forall_cons_2; [done || lia|]); apply Forall_nil_2.
    + by repeat constructor.
Defined.

(** The run itself, evaluated: two matches, two probed rows alone, two build rows. *)
Example bhj_full_join_runs :
  (m ← create_from_data_batch Sample.hash1 Sample.build Sample.key0;
   st ← run_full None Sample.hash1 LEFT_PROBED_OUTER Sample.params m [Sample.probe1];
   Ok (concat (batch_rows None <$> output st)))
  = Ok [[Some 2; Some 7; Some 2; Some 20]; [Some 2; Some 7; Some 2; Some 40];
        [Some 5; Some 8; None; None]; [None; Some 9; None; None];
        [None; None; Some 1; Some 10]; [None; None; None; Some 30]]%Z.
Proof. vm_compute. reflexivity. Qed.
