(* ===== verification/BroadcastSemiJoin.v ===== *)
(** * Broadcast semi, anti and existence joins

    native-engine/datafusion-ext-plans/src/joins/bhj/semi_join.rs, driven by
    [execute_join_with_map].  The join side is the probed side or the build side;
    in the latter case the joined build rows are collected in [map_joined] and
    written by [finish]. *)

From S2P Require Import Prelude MachineInt Arrow ArrowRef BatchSerde HashArrays JoinHashMap Joins EqComparator JoinKeys BroadcastJoin.

Inductive SemiMode := Semi | Anti | ExistenceMode.
#[export] Instance SemiMode_eq_dec : EqDecision SemiMode.
Proof. solve_decision. Defined.

Record SemiParams := mkSemiParams {
  s_probe_side : ProbeSide; probe_is_join_side : bool; mode : SemiMode }.

Definition LEFT_PROBED_LEFT_SEMI := mkSemiParams L true Semi.
Definition LEFT_PROBED_LEFT_ANTI := mkSemiParams L true Anti.
Definition LEFT_PROBED_RIGHT_SEMI := mkSemiParams L false Semi.
Definition LEFT_PROBED_RIGHT_ANTI := mkSemiParams L false Anti.
Definition LEFT_PROBED_EXISTENCE := mkSemiParams L true ExistenceMode.
Definition RIGHT_PROBED_LEFT_SEMI := mkSemiParams R false Semi.
Definition RIGHT_PROBED_LEFT_ANTI := mkSemiParams R false Anti.
Definition RIGHT_PROBED_RIGHT_SEMI := mkSemiParams R true Semi.
Definition RIGHT_PROBED_RIGHT_ANTI := mkSemiParams R true Anti.
Definition RIGHT_PROBED_EXISTENCE := mkSemiParams R false ExistenceMode.

Section Semi.
Context {V : Type} (null : V) (vbool : bool → V) `{Ops : ArrowOps} (fold_hash : list Z → Z → Z).
Local Abbreviation KeyColumn := Arrow.Array.
Local Abbreviation JoinParams := (JoinParams (V := V)).
Local Abbreviation JoinHashMap := (JoinHashMap (V := V)).
Local Abbreviation matches := (matches fold_hash).
Local Abbreviation valid_count := (valid_count fold_hash).
Local Abbreviation is_matched := (is_matched fold_hash).

Record SemiJoiner := mkSemi {
  s_map_joined : list bool; s_output : list (RecordBatch (V := V)); s_output_rows : nat }.

Definition semi_new (m : JoinHashMap) : SemiJoiner :=
  mkSemi (replicate (num_rows (data_batch m)) false) [] 0.

(** [RecordBatch::try_new] takes the row count from the first column. *)
Definition semi_flush (jp : JoinParams) (st : SemiJoiner) (cols : list (list V)) : Result SemiJoiner :=
  match cols with
  | [] => Err (Execution "must either specify a row count or at least one column")
  | c :: _ =>
    b ← try_new_batch (output_schema jp) cols (length c);
    Ok (mkSemi (s_map_joined st) (s_output st ++ [b]) (s_output_rows st + num_rows b))
  end.

(** "Whether the build side contains any NULL join keys" *)
Definition build_has_null_keys (m : JoinHashMap) : bool :=
  if decide (num_rows (data_batch m) = 0) then false
  else existsb (λ col, bool_decide (0 < null_count col)) (key_columns m).

Record SemiLoop := mkSemiLoop { probed_joined : list bool; map_joined_ : list bool; next_hash : nat }.

(** The iterator over the rows of a range with an equal key, from its next item on. *)
Fixpoint next_eq (eq : EqComparator) (row_idx : nat) (range : list Z) : Result (option (nat * list Z)) :=
  match range with
  | [] => Ok None
  | map_idx :: range =>
    e ← key_eq eq row_idx (Z.to_nat map_idx);
    if e : bool then Ok (Some (Z.to_nat map_idx, range)) else next_eq eq row_idx range
  end.

Definition join_rest (eq : EqComparator) (row_idx : nat) (range : list Z) (map_joined : list bool) : Result (list bool) :=
  rfoldM (λ map_joined map_idx,
    e ← key_eq eq row_idx (Z.to_nat map_idx);
    if e : bool then set_index map_joined (Z.to_nat map_idx) true else Ok map_joined) map_joined range.

Definition semi_row (P : SemiParams) (jp : JoinParams) (m : JoinHashMap) (eq : EqComparator) (pk : list KeyColumn)
    (map_values : list MapValue) (s : SemiLoop) (row_idx : nat) : Result SemiLoop :=
  let key_ok := key_is_valid pk row_idx in
  if bool_decide (mode P = Anti) && probe_is_join_side P
     && (negb key_ok || build_has_null_keys m) && is_null_aware_anti_join jp then
    pj ← set_index (probed_joined s) row_idx true;
    Ok (mkSemiLoop pj (map_joined_ s) (next_hash s))
  else if key_ok then
    v ← index map_values (next_hash s);
    let s := mkSemiLoop (probed_joined s) (map_joined_ s) (next_hash s + 1) in
    if is_single v then
      let map_idx := Z.to_nat (get_single v) in
      e ← key_eq eq row_idx map_idx;
      if e : bool then
        if probe_is_join_side P then
          pj ← set_index (probed_joined s) row_idx true;
          Ok (mkSemiLoop pj (map_joined_ s) (next_hash s))
        else
          mj ← set_index (map_joined_ s) map_idx true;
          Ok (mkSemiLoop (probed_joined s) mj (next_hash s))
      else Ok s
    else if is_range v then
      range ← get_range (mapped_indices (table m)) v;
      eqs ← next_eq eq row_idx range;
      match eqs with
      | None => Ok s
      | Some (map_idx, eqs) =>
        if probe_is_join_side P then
          pj ← set_index (probed_joined s) row_idx true;
          Ok (mkSemiLoop pj (map_joined_ s) (next_hash s))
        else
          joined ← index (map_joined_ s) map_idx;
          if joined : bool then Ok s
          else
            mj ← set_index (map_joined_ s) map_idx true;
            mj ← join_rest eq row_idx eqs mj;
            Ok (mkSemiLoop (probed_joined s) mj (next_hash s))
      end
    else Ok s
  else Ok s.

(** The rows of the join side that are written, from its joined bits. *)
Definition semi_cols (P : SemiParams) (projected : list (list V)) (joined : list bool)
    : Result (list (list V)) :=
  match mode P with
  | Semi => take_cols null projected (Some <$> bit_indices joined true)
  | Anti => take_cols null projected (Some <$> bit_indices joined false)
  | ExistenceMode => Ok (projected ++ [vbool <$> joined])
  end.

Definition semi_join (P : SemiParams) (jp : JoinParams) (m : JoinHashMap) (st : SemiJoiner)
    (probed_batch : RecordBatch (V := V)) : Result SemiJoiner :=
  pk ← create_probed_key_columns jp (s_probe_side P) probed_batch;
  probed_hashes ← join_create_hashes fold_hash (num_rows probed_batch) pk;
  eq ← try_new pk (key_columns m);
  map_values ← lookup_probed m pk probed_hashes;
  s ← rfoldM (semi_row P jp m eq pk map_values)
        (mkSemiLoop (replicate (num_rows probed_batch) false) (s_map_joined st) 0)
        (range 0 (num_rows probed_batch));
  let st := mkSemi (map_joined_ s) (s_output st) (s_output_rows st) in
  if probe_is_join_side P then
    pprojected ← project_probe jp (s_probe_side P) (columns probed_batch);
    pcols ← semi_cols P pprojected (probed_joined s);
    semi_flush jp st pcols
  else Ok st.

Definition semi_finish (P : SemiParams) (jp : JoinParams) (m : JoinHashMap) (st : SemiJoiner)
    : Result SemiJoiner :=
  if probe_is_join_side P then Ok st
  else
    mprojected ← project_build jp (s_probe_side P) (columns (data_batch m));
    let joined := s_map_joined st in
    let st := mkSemi [] (s_output st) (s_output_rows st) in
    cols ← semi_cols P mprojected joined;
    semi_flush jp st cols.

(** [map_joined.all()] *)
Definition semi_can_early_stop (P : SemiParams) (st : SemiJoiner) : bool :=
  negb (probe_is_join_side P) && forallb id (s_map_joined st).

Definition run_semi (P : SemiParams) (jp : JoinParams) (m : JoinHashMap)
    (probed : list (RecordBatch (V := V))) : Result SemiJoiner :=
  st ← rfoldM (λ st b, if semi_can_early_stop P st then Ok st else semi_join P jp m st b)
         (semi_new m) probed;
  semi_finish P jp m st.

(** ** Ranges of equal keys *)

(** What joining a range does to the joined bits, given its rows with an equal key. *)
Definition join_eqs (eqs : list nat) (map_joined : list bool) : Result (list bool) :=
  match eqs with
  | [] => Ok map_joined
  | map_idx :: eqs =>
    joined ← index map_joined map_idx;
    if joined : bool then Ok map_joined
    else
      map_joined ← set_index map_joined map_idx true;
      rfoldM (λ mj i, set_index mj i true) map_joined eqs
  end.

Section Ranges.
Context (eq : EqComparator) (row_idx : nat) (f : nat → bool).
Local Abbreviation right := (Forall (λ j, key_eq eq row_idx j = Ok (f j))).
Local Abbreviation eqs := (filter (λ j, f j = true)).

Lemma next_eq_spec rows :
  right rows →
  (eqs rows = [] ∧ next_eq eq row_idx (Z.of_nat <$> rows) = Ok None) ∨
  ∃ j rest, eqs rows = j :: eqs rest ∧ right rest ∧ next_eq eq row_idx (Z.of_nat <$> rows) = Ok (Some (j, Z.of_nat <$> rest)).
Proof.
  induction 1 as [|j rows Hj Hr IH]; [by left|]. rewrite fmap_cons, filter_cons. cbn [next_eq]. rewrite Nat2Z.id, Hj. cbn [mbind Result_bind].
  destruct (f j); case_decide; try done. right. by exists j, rows.
Qed.

Lemma join_rest_spec rows mj :
  right rows → join_rest eq row_idx (Z.of_nat <$> rows) mj = rfoldM (λ mj i, set_index mj i true) mj (eqs rows).
Proof.
  intros Hr. revert mj. induction Hr as [|j rows Hj _ IH]; intros mj; [done|]. unfold join_rest in *. rewrite fmap_cons, filter_cons. cbn [rfoldM].
  rewrite Nat2Z.id, Hj. cbn [mbind Result_bind]. destruct (f j); case_decide; try done; cbn [rfoldM mbind Result_bind]; [|apply IH].
  destruct (set_index mj j true); cbn [mbind Result_bind]; [apply IH|done..].
Qed.
End Ranges.

(** ** Joined bits *)

Lemma bit_indices_fmap (f : nat → bool) n b :
  bit_indices (f <$> seq 0 n) b = filter (λ i, f i = b) (seq 0 n).
Proof.
  unfold bit_indices, enumerate.
  assert (∀ a, fst <$> filter (λ x, x.2 = b) (imap (λ k c, (a + k, c)) (f <$> seq a n))
    = filter (λ i, f i = b) (seq a n)) as Hgen.
  { induction n as [|n IH]; intros a; [done|]. cbn [seq]. rewrite fmap_cons. cbn [imap].
    rewrite !filter_cons, Nat.add_0_r. cbn [snd].
    assert (imap ((λ k c, (a + k, c)) ∘ S) (f <$> seq (S a) n)
      = imap (λ k c, (S a + k, c)) (f <$> seq (S a) n)) as ->.
    { apply imap_ext. intros k x _. cbn. f_equal. lia. }
    case_decide; [rewrite fmap_cons; f_equal|]; apply IH. }
  apply (Hgen 0).
Qed.

Lemma set_index_fmap (f g : nat → bool) n i :
  i < n → g i = true → (∀ k, k ≠ i → g k = f k) →
  set_index (f <$> seq 0 n) i true = Ok (g <$> seq 0 n).
Proof.
  intros Hi Hg Hne. rewrite set_index_Ok by (by rewrite length_fmap, length_seq). f_equal.
  apply list_eq. intros k. destruct (decide (k = i)) as [->|].
  - rewrite list_lookup_insert_eq by (by rewrite length_fmap, length_seq).
    by rewrite list_lookup_fmap, lookup_seq_lt, <- Hg by done.
  - rewrite list_lookup_insert_ne, !list_lookup_fmap by done.
    destruct (seq 0 n !! k) as [x|] eqn:E; [|done]. apply lookup_seq in E as [-> _].
    cbn. by rewrite Hne.
Qed.

Lemma set_all_joined mj l :
  rfoldM (λ mj i, set_index mj i true) mj l = set_joined mj (Some <$> l).
Proof.
  unfold set_joined. revert mj. induction l as [|i l IH]; intros mj; [done|].
  cbn [rfoldM fmap list_fmap]. destruct (set_index mj i true); cbn; [apply IH|done..].
Qed.

Lemma joined_by_ext bn js js' :
  (∀ j, Some j ∈ js ↔ Some j ∈ js') → joined_by bn js = joined_by bn js'.
Proof. intros Hj. apply list_fmap_ext. intros k j _. apply bool_decide_ext, Hj. Qed.

(** The rows of the join side that are written. *)
Definition semi_rows (P : SemiParams) (joined : nat → bool) (row : nat → list V) (n : nat)
    : list (list V) :=
  match mode P with
  | Semi => row <$> filter (λ i, joined i = true) (seq 0 n)
  | Anti => row <$> filter (λ i, joined i = false) (seq 0 n)
  | ExistenceMode => (λ i, row i ++ [vbool (joined i)]) <$> seq 0 n
  end.

Definition extra_cols (P : SemiParams) : nat := if decide (mode P = ExistenceMode) then 1 else 0.

Lemma semi_flush_spec jp st cols {A} (f : A → list V) (l : list A) rows :
  concat (batch_rows null <$> s_output st) = rows → s_output_rows st = length rows →
  cols_len cols (length l) → length cols = output_schema jp → 0 < length cols →
  (∀ k x, l !! k = Some x → row_at null cols k = f x) →
  ∃ st', semi_flush jp st cols = Ok st' ∧ s_map_joined st' = s_map_joined st ∧
    concat (batch_rows null <$> s_output st') = rows ++ (f <$> l) ∧
    s_output_rows st' = length (rows ++ (f <$> l)).
Proof.
  intros Hr Hc Hl Hs Hpos Hf. unfold semi_flush. destruct cols as [|c cols]; [cbn in Hpos; lia|].
  assert (length c = length l) as -> by (by apply Forall_cons in Hl as [? _]).
  unfold try_new_batch. rewrite decide_True by done. cbn [mbind Result_bind].
  eexists. split; [done|]. cbn [s_map_joined s_output s_output_rows num_rows]. split; [done|].
  rewrite fmap_app, concat_app, Hr. cbn [fmap list_fmap concat].
  rewrite (batch_rows_list null f l _ Hf), app_nil_r. split; [done|].
  by rewrite Hc, length_app, length_fmap.
Qed.

Definition wrote (st st' : SemiJoiner) (rows new : list (list V)) : Prop :=
  s_map_joined st' = s_map_joined st ∧
  concat (batch_rows null <$> s_output st') = rows ++ new ∧ s_output_rows st' = length (rows ++ new).

Lemma write_selected jp st projected joined n rows row b :
  concat (batch_rows null <$> s_output st) = rows → s_output_rows st = length rows →
  cols_len projected n → length projected = output_schema jp → 0 < output_schema jp →
  (∀ i, row_at null projected i = row i) →
  ∃ st', (cols ← take_cols null projected (Some <$> bit_indices (joined <$> seq 0 n) b);
      semi_flush jp st cols) = Ok st' ∧
    wrote st st' rows (row <$> filter (λ i, joined i = b) (seq 0 n)).
Proof.
  intros Hr Hc Hl Hs Hpos Hrow. rewrite bit_indices_fmap. set (l := filter _ _).
  rewrite (take_cols_ok null _ n); [|done|].
  2: { apply Forall_fmap, Forall_forall. intros i [_ Hi%elem_of_seq]%list_elem_of_filter. cbn. lia. }
  cbn [mbind Result_bind].
  destruct (semi_flush_spec jp st (taken null projected (Some <$> l)) row l rows Hr Hc)
    as (st' & ? & ? & ? & ?).
  - pose proof (taken_len null projected (Some <$> l)) as Hlen. by rewrite length_fmap in Hlen.
  - unfold taken. by rewrite length_fmap.
  - unfold taken. rewrite length_fmap. lia.
  - intros k i Hk. rewrite (taken_row null _ _ k (Some i)) by (by rewrite list_lookup_fmap, Hk).
    apply Hrow.
  - by exists st'.
Qed.

Lemma write_join_side P jp st projected joined n rows row :
  concat (batch_rows null <$> s_output st) = rows → s_output_rows st = length rows →
  cols_len projected n → length projected + extra_cols P = output_schema jp → 0 < output_schema jp →
  (∀ i, row_at null projected i = row i) →
  ∃ st', (cols ← semi_cols P projected (joined <$> seq 0 n); semi_flush jp st cols) = Ok st' ∧
    wrote st st' rows (semi_rows P joined row n).
Proof.
  intros Hr Hc Hl Hs Hpos Hrow. unfold semi_cols, semi_rows, extra_cols in *.
  destruct (mode P) eqn:EP.
  - rewrite decide_False in Hs by done. apply write_selected; try done. lia.
  - rewrite decide_False in Hs by done. apply write_selected; try done. lia.
  - rewrite decide_True in Hs by done. cbn [mbind Result_bind].
    rewrite <- list_fmap_compose.
    destruct (semi_flush_spec jp st (projected ++ [vbool ∘ joined <$> seq 0 n])
      (λ i, row i ++ [vbool (joined i)]) (seq 0 n) rows Hr Hc) as (st' & ? & ? & ? & ?).
    + rewrite length_seq. apply Forall_app. split; [done|]. apply Forall_singleton.
      by rewrite length_fmap, length_seq.
    + rewrite length_app. cbn. lia.
    + rewrite length_app. cbn. lia.
    + intros k i Hk. rewrite row_at_app, Hrow. pose proof Hk as [-> _]%lookup_seq. f_equal.
      cbn [row_at fmap list_fmap]. by rewrite nth_lookup, list_lookup_fmap, Hk.
    + by exists st'.
Qed.

(** ** One probed batch *)

Section Correct.
Context (P : SemiParams) (jp : JoinParams) (bdata : RecordBatch (V := V))
  (bk : list KeyColumn) (t : Table) (np : nat).
Local Abbreviation bn := (num_rows bdata).
Local Abbreviation m := (mkMap bdata bk t).

Definition join_proj : list nat :=
  if probe_is_join_side P then
    match s_probe_side P with L => left_ (projection jp) | R => right_ (projection jp) end
  else match s_probe_side P with L => right_ (projection jp) | R => left_ (projection jp) end.

Record semi_ok : Prop := {
  so_data : batch_ok bdata;
  so_proj : Forall (λ k, k < if probe_is_join_side P then np else length (columns bdata)) join_proj;
  so_schema : length join_proj + extra_cols P = output_schema jp;
  so_pos : 0 < output_schema jp }.
Hypothesis ok : semi_ok.
Hypothesis bk_ok : keys_ok bn bk.
Hypothesis bn_lt : (Z.of_nat bn < 2 ^ 30)%Z.
Hypothesis Ht : create_from_key_columns fold_hash bn bk = Ok t.

(** A null-aware anti join: its rule applies to the probed side. *)
Definition null_aware_anti : bool := bool_decide (mode P = Anti) && probe_is_join_side P && is_null_aware_anti_join jp.

(** On an empty build side it must keep all rows, which the code does not
    ([null_aware_anti_join_empty_build]). *)
Hypothesis not_empty : null_aware_anti = true → bn ≠ 0.

Record semi_probed_ok (pb : RecordBatch (V := V)) (pk : list KeyColumn) : Prop := {
  sp_batch : batch_ok pb;
  sp_cols : length (columns pb) = np;
  sp_keys : create_probed_key_columns jp (s_probe_side P) pb = Ok pk;
  sp_keys_ok : keys_ok (num_rows pb) pk;
  sp_types : same_types pk bk }.

(** Some build row has a null key. *)
Definition has_null_keys : bool := existsb (λ j, negb (key_is_valid bk j)) (seq 0 bn).

(** Rows that NOT IN does not keep although nothing matches: when there are build rows, those
    with a null key, and all when a build key is null. *)
Definition null_aware (pk : list KeyColumn) (i : nat) : bool :=
  null_aware_anti && bool_decide (bn ≠ 0) && (negb (key_is_valid pk i) || has_null_keys).

Lemma has_null_keys_ok : bn ≠ 0 → build_has_null_keys m = has_null_keys.
Proof using bk_ok.
  clear not_empty. intros Hbn. unfold build_has_null_keys, has_null_keys. cbn [data_batch key_columns]. rewrite decide_False by done.
  apply eq_true_iff_eq. rewrite !existsb_exists. pose proof (ko_cols _ _ bk_ok) as Hc. split.
  - intros (col & Hcol & Hn%bool_decide_eq_true). unfold null_count in Hn.
    destruct (filter _ (seq 0 (alen col))) as [|j l] eqn:E; [cbn in Hn; lia|].
    assert (j ∈ filter (λ i, null_at (nulls_of col) i = true) (seq 0 (alen col))) as [Hj Hs]%list_elem_of_filter by (rewrite E; by left).
    rewrite Forall_forall in Hc. destruct (Hc col) as (_ & _ & Hl); [by apply list_elem_of_In|]. rewrite Hl in Hs.
    exists j. split; [by apply list_elem_of_In|]. unfold key_is_valid. apply negb_true_iff, not_true_is_false. rewrite forallb_forall.
    intros Hall. specialize (Hall col Hcol). by rewrite Hj in Hall.
  - intros (j & Hj%list_elem_of_In & Hv%negb_true_iff). unfold key_is_valid in Hv.
    assert (existsb (λ col, null_at (nulls_of col) j) bk = true) as (col & Hcol & Hn)%existsb_exists.
    { clear -Hv. induction bk as [|c cols IH]; [done|]. cbn [forallb existsb] in *. destruct (null_at (nulls_of c) j); [done|]. by apply IH. }
    exists col. split; [done|]. apply bool_decide_eq_true. rewrite Forall_forall in Hc.
    destruct (Hc col) as (_ & _ & Hl); [by apply list_elem_of_In|].
    destruct (decide (null_count col = 0)) as [Hz|]; [|lia]. apply elem_of_seq in Hj. by rewrite (null_count_0 col j Hz) in Hn by lia.
Qed.

(** The condition of the code. *)
Lemma null_aware_ok pk i :
  bool_decide (mode P = Anti) && probe_is_join_side P && (negb (key_is_valid pk i) || build_has_null_keys m)
    && is_null_aware_anti_join jp = null_aware pk i.
Proof using bk_ok not_empty.
  unfold null_aware. destruct null_aware_anti eqn:E; unfold null_aware_anti in E.
  - rewrite has_null_keys_ok, (bool_decide_eq_true_2 (bn ≠ 0)) by (by apply not_empty). apply andb_prop in E as [-> ->]. by rewrite andb_true_r.
  - destruct (bool_decide (mode P = Anti)), (probe_is_join_side P), (is_null_aware_anti_join jp); try done; cbn; by rewrite andb_false_r.
Qed.

Definition row_joined (pk : list KeyColumn) (i : nat) : bool :=
  null_aware pk i || negb (bool_decide (matches pk bk bn i = [])).

(** Matches of two rows that share a build row are the same. *)
Lemma matches_same pk pk' i i' j :
  same_types pk bk → same_types pk' bk →
  j ∈ matches pk bk bn i → j ∈ matches pk' bk bn i' → matches pk bk bn i = matches pk' bk bn i'.
Proof.
  intros Hl Hl' Hj Hj'. unfold BroadcastJoin.matches in *.
  destruct (key_is_valid pk i); [|set_solver]. destruct (key_is_valid pk' i'); [|set_solver].
  apply list_elem_of_filter in Hj as [[_ Hj] _]. apply list_elem_of_filter in Hj' as [[_ Hj'] _].
  apply filter_ext_elem. intros j2 _. by rewrite (keys_match_same fold_hash pk pk' bk i i' j j2).
Qed.

(** The groups of build rows joined so far are match sets. *)
Definition groups_ok (gs : list (list nat)) : Prop :=
  ∀ g, g ∈ gs → ∃ pk i, same_types pk bk ∧ g = matches pk bk bn i.

Lemma matches_bound pk i : Forall (λ j, j < bn) (matches pk bk bn i).
Proof.
  unfold BroadcastJoin.matches. destruct (key_is_valid pk i); [|constructor]. apply Forall_forall.
  intros j [_ Hj%elem_of_seq]%list_elem_of_filter. lia.
Qed.

Lemma join_range_spec gs pk i :
  groups_ok gs → same_types pk bk →
  join_eqs (matches pk bk bn i) (joined_by bn (Some <$> concat gs))
  = Ok (joined_by bn (Some <$> concat (gs ++ [matches pk bk bn i]))).
Proof.
  intros Hgs Hl. rewrite concat_app, fmap_app. cbn [concat]. rewrite app_nil_r.
  pose proof (matches_bound pk i) as Hb. unfold join_eqs.
  destruct (matches pk bk bn i) as [|j ms] eqn:E; [cbn; by rewrite app_nil_r|].
  pose proof (Forall_inv Hb) as Hj. cbn in Hj.
  rewrite (proj2 (index_Ok _ _ (bool_decide (Some j ∈ Some <$> concat gs)))).
  2: { unfold joined_by. by rewrite list_lookup_fmap, lookup_seq_lt. }
  cbn [mbind Result_bind]. case_bool_decide as Hin.
  - f_equal. apply joined_by_ext. intros k. rewrite elem_of_app. split; [by left|].
    intros [?|Hk]; [done|]. apply list_elem_of_fmap in Hin as (j' & [= <-] & Hin).
    apply list_elem_of_In, in_concat in Hin as (g & Hg & Hjg). apply list_elem_of_In in Hg, Hjg.
    destruct (Hgs g Hg) as (pk' & i' & Hl' & ->).
    assert (matches pk' bk bn i' = j :: ms) as Hsame.
    { rewrite <- E. apply (matches_same pk' pk i' i j); [done..|]. rewrite E. by left. }
    apply list_elem_of_fmap in Hk as (k' & [= <-] & Hk). apply list_elem_of_fmap_2.
    apply list_elem_of_In, in_concat. exists (matches pk' bk bn i').
    split; apply list_elem_of_In; [done|]. by rewrite Hsame.
  - assert (∀ mj, (map_joined ← set_index mj j true;
      rfoldM (λ mj i, set_index mj i true) map_joined ms) = set_joined mj (Some <$> (j :: ms))) as ->.
    { intros mj. rewrite <- set_all_joined. done. }
    rewrite (set_joined_by bn); [done|]. apply Forall_fmap. eapply Forall_impl; [exact Hb|]. done.
Qed.

Section OneBatch.
Context (pb : RecordBatch (V := V)) (pk : list KeyColumn).
Hypothesis pok : semi_probed_ok pb pk.
Local Abbreviation n := (num_rows pb).

Definition pj_bits (i : nat) : list bool :=
  (λ k, bool_decide (k < i) && (probe_is_join_side P && row_joined pk k)) <$> seq 0 n.

(** With the null-aware rule and a null build key every row is skipped and no
    lookup result is consumed. *)
Definition skip_all : bool := null_aware_anti && bool_decide (bn ≠ 0) && has_null_keys.

Record semi_inv (mj0 : list bool) (gs : list (list nat)) (i : nat) (s : SemiLoop) : Prop := {
  sv_probed : probed_joined s = pj_bits i;
  sv_map : if probe_is_join_side P then map_joined_ s = mj0
           else map_joined_ s = joined_by bn (Some <$> concat (gs ++ (matches pk bk bn <$> seq 0 i)));
  sv_next : skip_all = false → next_hash s = valid_count n pk i }.

Lemma pj_bits_S_same i :
  probe_is_join_side P && row_joined pk i = false → pj_bits (S i) = pj_bits i.
Proof.
  intros Hf. apply list_fmap_ext. intros _ k _. destruct (decide (k = i)) as [->|].
  - rewrite Hf, !andb_false_r. done.
  - f_equal. apply bool_decide_ext. lia.
Qed.

Lemma pj_bits_S_set i :
  i < n → probe_is_join_side P && row_joined pk i = true →
  set_index (pj_bits i) i true = Ok (pj_bits (S i)).
Proof.
  intros Hi Ht'. apply set_index_fmap; [done| |].
  - rewrite Ht', bool_decide_eq_true_2 by lia. done.
  - intros k Hk. f_equal. apply bool_decide_ext. lia.
Qed.

Lemma groups_snoc gs i :
  concat (gs ++ (matches pk bk bn <$> seq 0 (S i)))
  = concat ((gs ++ (matches pk bk bn <$> seq 0 i)) ++ [matches pk bk bn i]).
Proof. by rewrite seq_S, fmap_app, app_assoc. Qed.

Lemma groups_ok_app gs l : groups_ok gs → groups_ok (gs ++ (matches pk bk bn <$> l)).
Proof.
  intros Hgs g [Hg|Hg]%elem_of_app; [by apply Hgs|].
  apply list_elem_of_fmap in Hg as (i & -> & _). exists pk, i. split; [apply pok|done].
Qed.

Lemma row_joined_plain i :
  null_aware pk i = false → row_joined pk i = negb (bool_decide (matches pk bk bn i = [])).
Proof. intros E. unfold row_joined. by rewrite E. Qed.

(** The two outcomes of a lookup, for a row the null-aware rule lets through. *)
Lemma row_no_match mj0 gs i s next :
  null_aware pk i = false → matches pk bk bn i = [] → semi_inv mj0 gs i s →
  (skip_all = false → next = valid_count n pk (S i)) →
  semi_inv mj0 gs (S i) (mkSemiLoop (probed_joined s) (map_joined_ s) next).
Proof.
  intros Hna Hm [Hp Hmap Hn] Hnext. split; cbn [probed_joined map_joined_ next_hash]; [| |done].
  - rewrite Hp, pj_bits_S_same; [done|]. rewrite row_joined_plain, Hm by done. cbn. by rewrite andb_false_r.
  - destruct (probe_is_join_side P); [done|]. rewrite Hmap, groups_snoc, Hm.
    rewrite (concat_app _ [[]]). cbn. by rewrite !app_nil_r.
Qed.

Lemma row_match_probe mj0 gs i s next :
  null_aware pk i = false → matches pk bk bn i ≠ [] → probe_is_join_side P = true → i < n →
  semi_inv mj0 gs i s → (skip_all = false → next = valid_count n pk (S i)) →
  ∃ pj, set_index (probed_joined s) i true = Ok pj ∧
    semi_inv mj0 gs (S i) (mkSemiLoop pj (map_joined_ s) next).
Proof.
  intros Hna Hm Hside Hi [Hp Hmap Hn] Hnext. exists (pj_bits (S i)). split.
  - rewrite Hp. apply pj_bits_S_set; [done|]. rewrite Hside, row_joined_plain by done.
    by rewrite bool_decide_eq_false_2.
  - split; cbn [probed_joined map_joined_ next_hash]; [done| |done]. by rewrite Hside in *.
Qed.

Lemma row_match_build mj0 gs i s next :
  null_aware pk i = false → probe_is_join_side P = false → groups_ok gs →
  semi_inv mj0 gs i s → (skip_all = false → next = valid_count n pk (S i)) →
  ∃ mj, join_eqs (matches pk bk bn i) (map_joined_ s) = Ok mj ∧
    semi_inv mj0 gs (S i) (mkSemiLoop (probed_joined s) mj next).
Proof.
  intros Hna Hside Hgs [Hp Hmap Hn] Hnext. rewrite Hside in Hmap. rewrite Hmap.
  rewrite join_range_spec; [|by apply groups_ok_app|apply pok]. eexists. split; [done|].
  split; cbn [probed_joined map_joined_ next_hash]; [|rewrite Hside; by rewrite groups_snoc|done].
  rewrite Hp, pj_bits_S_same; [done|]. by rewrite Hside.
Qed.

(** A single candidate is a range of one. *)
Lemma set_single_join_range j mj r :
  join_eqs [j] mj = Ok r → set_index mj j true = Ok r.
Proof.
  unfold join_eqs. intros Hr. apply bind_Ok in Hr as (b & Hb%index_Ok & Hr).
  pose proof (lookup_lt_Some _ _ _ Hb) as Hlt. rewrite set_index_Ok in * by done.
  destruct b; [|done]. injection Hr as <-. f_equal. by apply list_insert_id.
Qed.

(** The null-aware rule sets the row. *)
Lemma row_null_aware mj0 gs i s :
  null_aware pk i = true → i < n → semi_inv mj0 gs i s →
  ∃ pj, set_index (probed_joined s) i true = Ok pj ∧ semi_inv mj0 gs (S i) (mkSemiLoop pj (map_joined_ s) (next_hash s)).
Proof.
  intros Hna Hi [Hp Hmap Hn]. exists (pj_bits (S i)). assert (probe_is_join_side P = true) as Hside.
  { unfold null_aware, null_aware_anti in Hna. destruct (probe_is_join_side P); [done|]. by rewrite andb_false_r in Hna. }
  rewrite Hp, pj_bits_S_set; [|done|unfold row_joined; by rewrite Hside, Hna]. split; [done|].
  split; cbn [probed_joined map_joined_ next_hash]; [done|by rewrite Hside in *|].
  intros Hskip. rewrite (Hn Hskip), valid_count_S by done. unfold null_aware in Hna. unfold skip_all in Hskip.
  destruct (key_is_valid pk i); [|lia]. cbn [negb orb] in Hna. congruence.
Qed.

Lemma not_skipped i : null_aware pk i = false → skip_all = false.
Proof.
  unfold skip_all, null_aware. destruct null_aware_anti, (bool_decide (bn ≠ 0)), has_null_keys; try done. by rewrite orb_true_r.
Qed.

(** The outcomes of a lookup with a single candidate and with a range. *)
Lemma semi_row_spec eq mj0 gs vs i s :
  (∀ j, j < bn → key_is_valid pk i = true → key_is_valid bk j = true → key_eq eq i j = Ok (rows_eq pk bk i j)) →
  groups_ok gs → i < n →
  (key_is_valid pk i = true → ∃ v rows, vs !! valid_count n pk i = Some v ∧ candidates_of fold_hash t pk bk bn i v rows) →
  semi_inv mj0 gs i s →
  ∃ s', semi_row P jp m eq pk vs s i = Ok s' ∧ semi_inv mj0 gs (S i) s'.
Proof using ok bk_ok bn_lt Ht not_empty pok.
  intros Heq Hgs Hi Hlook Hinv. unfold semi_row. rewrite null_aware_ok.
  destruct (null_aware pk i) eqn:Hna.
  { destruct (row_null_aware mj0 gs i s Hna Hi Hinv) as (pj & -> & Hinv'). by eexists. }
  pose proof (sv_next _ _ _ _ Hinv (not_skipped i Hna)) as Hnext. pose proof (valid_count_S fold_hash n pk i Hi) as HS.
  destruct (key_is_valid pk i) eqn:Ev.
  2: { exists s. split; [done|]. destruct s as [pj mj nh].
       apply (row_no_match mj0 gs i (mkSemiLoop pj mj nh)); [done| |done|].
       - unfold BroadcastJoin.matches. by rewrite Ev.
       - intros _. cbn in Hnext. rewrite HS. lia. }
  destruct (Hlook eq_refl) as (v & rows & Hv & Hm & Hr & Hf). rewrite Hnext, (proj2 (index_Ok _ _ _) Hv). cbn [mbind Result_bind]. rewrite <- HS.
  cbn [probed_joined map_joined_ next_hash key_columns table].
  assert (Forall (λ j, key_eq eq i j = Ok (rows_eq pk bk i j)) rows) as Hkeys
    by (eapply Forall_impl; [exact Hr|]; intros j [Hj Hvj]; by apply Heq).
  set (next := valid_count n pk (S i)) in *. unfold matched_rows in Hm. destruct (is_single v); [|destruct (is_range v)].
  - assert (rows = [Z.to_nat (get_single v)]) as ->.
    { injection Hm as Hm. destruct rows as [|j [|]]; try done. cbn in Hm. injection Hm as ->. by rewrite Nat2Z.id. }
    apply Forall_inv in Hkeys. rewrite Hkeys. cbn [mbind Result_bind]. rewrite filter_cons, filter_nil in Hf.
    destruct (rows_eq pk bk i (Z.to_nat (get_single v))); case_decide; try done; cbn [mbind Result_bind].
    + destruct (probe_is_join_side P) eqn:Hside.
      * destruct (row_match_probe mj0 gs i s next) as (pj & -> & Hinv'); try done; [by rewrite <- Hf|]. by eexists.
      * destruct (row_match_build mj0 gs i s next) as (mj & Hj & Hinv'); try done. rewrite <- Hf in Hj.
        rewrite (set_single_join_range _ _ _ Hj). by eexists.
    + eexists. split; [done|]. by apply row_no_match.
  - rewrite Hm. cbn [mbind Result_bind].
    destruct (next_eq_spec eq i (rows_eq pk bk i) rows Hkeys) as [[Hnil ->]|(j & rest & Hcons & Hrest & ->)]; cbn [mbind Result_bind].
    { eexists. split; [done|]. apply row_no_match; try done. by rewrite <- Hf. }
    destruct (probe_is_join_side P) eqn:Hside.
    + destruct (row_match_probe mj0 gs i s next) as (pj & -> & Hinv'); try done; [by rewrite <- Hf, Hcons|]. by eexists.
    + destruct (row_match_build mj0 gs i s next) as (mj & Hj & Hinv'); try done. rewrite <- Hf, Hcons in Hj. cbn [join_eqs] in Hj.
      apply bind_Ok in Hj as (joined & -> & Hj). cbn [mbind Result_bind]. destruct joined; [injection Hj as <-; by eexists|].
      apply bind_Ok in Hj as (mj1 & -> & Hj). cbn [mbind Result_bind].
      rewrite (join_rest_spec eq i (rows_eq pk bk i) rest mj1 Hrest), Hj. by eexists.
  - assert (rows = []) as -> by (injection Hm as Hm; by destruct rows).
    eexists. split; [done|]. by apply row_no_match.
Qed.

Definition join_row_of (cols : list (list V)) (i : nat) : list V :=
  proj_row null join_proj (row_at null cols i).

Record sst (st : SemiJoiner) (rows : list (list V)) (gs : list (list nat)) : Prop := {
  ss_rows : concat (batch_rows null <$> s_output st) = rows;
  ss_count : s_output_rows st = length rows;
  ss_groups : groups_ok gs;
  ss_map : probe_is_join_side P = false → s_map_joined st = joined_by bn (Some <$> concat gs) }.

Definition probed_out : list (list V) :=
  if probe_is_join_side P then semi_rows P (row_joined pk) (join_row_of (columns pb)) n else [].

Lemma semi_join_spec st rows gs :
  sst st rows gs →
  ∃ st', semi_join P jp m st pb = Ok st' ∧
    sst st' (rows ++ probed_out) (gs ++ (matches pk bk bn <$> seq 0 n)).
Proof.
  intros [Hr Hc Hgs Hmap]. unfold semi_join. rewrite (sp_keys _ _ pok). cbn [mbind Result_bind].
  rewrite (join_create_hashes_ok fold_hash _ pk (sp_keys_ok _ _ pok)). cbn [mbind Result_bind key_columns].
  destruct (comparator_keys n bn pk bk (sp_keys_ok _ _ pok) bk_ok (sp_types _ _ pok)) as (eq & -> & Heq). cbn [mbind Result_bind].
  destruct (lookup_probed_spec fold_hash bk bn t bdata pk n Ht bn_lt bk_ok) as (vs & Hvs & Hlook).
  fold (join_hashes fold_hash n pk). rewrite Hvs. cbn [mbind Result_bind]. unfold range. rewrite Nat.sub_0_r.
  destruct (rfoldM_inv (λ s rest, ∃ i, i ≤ n ∧ rest = seq i (n - i) ∧ semi_inv (s_map_joined st) gs i s)
    (semi_row P jp m eq pk vs) (mkSemiLoop (replicate n false) (s_map_joined st) 0) (seq 0 n))
    as (s & -> & i & Hi & Hrest & [Hp Hmj _]).
  - exists 0. split_and!; [lia|by rewrite Nat.sub_0_r|]. split; cbn [probed_joined map_joined_ next_hash].
    + unfold pj_bits. clear. rewrite <- (length_seq n 0) at 1.
      induction (seq 0 n) as [|k l IH]; [done|]. cbn. f_equal. exact IH.
    + destruct (probe_is_join_side P); [done|]. cbn. rewrite app_nil_r. by apply Hmap.
    + done.
  - intros s x rest (i & Hi & Hrest & Hinv). destruct (n - i) as [|k] eqn:E; [done|].
    injection Hrest as -> ->.
    destruct (semi_row_spec eq (s_map_joined st) gs vs i s) as (s' & -> & Hinv'); [|done|lia| |done|].
    { intros j Hj. apply Heq; [lia|done]. }
    { intros Hv. apply Hlook; [lia|done]. }
    exists s'. split; [done|]. exists (S i). split_and!; [lia| |done]. f_equal. lia.
  - assert (i = n) as -> by (destruct (n - i) eqn:E; [lia|done]). cbn [mbind Result_bind].
    unfold probed_out. destruct (probe_is_join_side P) eqn:Hside.
    + pose proof (so_proj ok) as Hproj. rewrite Hside in Hproj. rewrite <- (sp_cols _ _ pok) in Hproj.
      destruct (project_ok null _ _ _ Hproj (sp_batch _ _ pok)) as (pc & Hpc & Hlen & Hnum & Hrow).
      assert (project_probe jp (s_probe_side P) (columns pb) = Ok pc) as ->.
      { unfold project_probe, project_left, project_right. rewrite <- Hpc. unfold join_proj.
        rewrite Hside. by destruct (s_probe_side P). }
      cbn [mbind Result_bind].
      assert (probed_joined s = row_joined pk <$> seq 0 n) as ->.
      { rewrite Hp. unfold pj_bits. apply list_fmap_ext. intros k x Hx. apply lookup_seq in Hx as [-> Hx].
        rewrite bool_decide_eq_true_2, Hside by lia. done. }
      destruct (write_join_side P jp (mkSemi (map_joined_ s) (s_output st) (s_output_rows st)) pc
        (row_joined pk) n rows (join_row_of (columns pb))) as (st' & -> & Hm' & Hrows & Hcnt);
        [done|done|done|by rewrite Hnum, (so_schema ok)|apply (so_pos ok)|apply Hrow|].
      exists st'. split; [done|]. split; [done|done|by apply groups_ok_app|congruence].
    + eexists. split; [done|]. rewrite app_nil_r. split; cbn [s_output s_output_rows s_map_joined];
        [done|done|by apply groups_ok_app|done].
Qed.

End OneBatch.

(** ** All batches *)

Definition semi_spec (batches : list (RecordBatch (V := V) * list KeyColumn))
    : list (list V) :=
  if probe_is_join_side P then concat ((λ b, probed_out b.1 b.2) <$> batches)
  else semi_rows P (is_matched bdata bk batches) (join_row_of (columns bdata)) bn.

Definition all_groups (batches : list (RecordBatch (V := V) * list KeyColumn))
    : list (list nat) :=
  concat ((λ b, matches b.2 bk bn <$> seq 0 (num_rows b.1)) <$> batches).

Lemma all_groups_matched batches :
  joined_by bn (Some <$> concat (all_groups batches)) = is_matched bdata bk batches <$> seq 0 bn.
Proof.
  unfold joined_by. apply list_fmap_ext. intros _ j _. apply eq_true_iff_eq.
  rewrite bool_decide_eq_true. unfold is_matched, all_groups. rewrite existsb_exists.
  rewrite list_elem_of_fmap. split.
  - intros (j' & [= <-] & Hin%list_elem_of_In). apply in_concat in Hin as (g & Hg & Hj). apply in_concat in Hg as (l & Hl & Hg).
    apply list_elem_of_In, list_elem_of_fmap in Hl as (b & -> & Hb).
    apply list_elem_of_In, list_elem_of_fmap in Hg as (i & -> & Hi%elem_of_seq).
    exists b. split; [by apply list_elem_of_In|]. apply existsb_exists. exists i.
    rewrite in_seq, bool_decide_eq_true. split; [lia|]. by apply list_elem_of_In.
  - intros (b & Hb & Hi). apply existsb_exists in Hi as (i & Hi%in_seq & Hj%bool_decide_eq_true).
    exists j. split; [done|]. apply list_elem_of_In, in_concat.
    exists (matches b.2 bk bn i). split; [|by apply list_elem_of_In].
    apply in_concat. exists (matches b.2 bk bn <$> seq 0 (num_rows b.1)).
    split; apply list_elem_of_In.
    + apply list_elem_of_fmap. exists b. split; [done|]. by apply list_elem_of_In.
    + apply list_elem_of_fmap. exists i. split; [done|]. apply elem_of_seq. lia.
Qed.

Lemma all_joined_more js js' :
  forallb id (joined_by bn js) = true → joined_by bn (js ++ js') = joined_by bn js.
Proof.
  intros Hall. apply list_fmap_ext. intros k j Hk. apply lookup_seq in Hk as [-> Hk].
  rewrite forallb_forall in Hall.
  assert (Some (0 + k) ∈ js) as Hin.
  { assert (bool_decide (Some (0 + k) ∈ js) = true) as Hb.
    { apply (Hall (bool_decide (Some (0 + k) ∈ js))). apply list_elem_of_In.
      unfold joined_by. apply list_elem_of_fmap. exists (0 + k). split; [done|]. apply elem_of_seq. lia. }
    by apply bool_decide_eq_true in Hb. }
  rewrite !bool_decide_eq_true_2; [done|done|]. apply elem_of_app. by left.
Qed.

Lemma run_semi_batches batches st rows gs :
  Forall (λ b, semi_probed_ok b.1 b.2) batches → sst st rows gs →
  ∃ st', rfoldM (λ st b, if semi_can_early_stop P st then Ok st else semi_join P jp m st b)
      st (fst <$> batches) = Ok st' ∧
    sst st' (rows ++ concat ((λ b, probed_out b.1 b.2) <$> batches)) (gs ++ all_groups batches).
Proof.
  intros Hb. revert st rows gs. induction Hb as [|[pb pk] batches Hok _ IH]; intros st rows gs Hst.
  { exists st. unfold all_groups. cbn. rewrite !app_nil_r. done. }
  rewrite fmap_cons. cbn [rfoldM fst snd] in *.
  assert (∃ st', (if semi_can_early_stop P st then Ok st else semi_join P jp m st pb) = Ok st' ∧
    sst st' (rows ++ probed_out pb pk) (gs ++ (matches pk bk bn <$> seq 0 (num_rows pb))))
    as (st1 & -> & Hst1).
  { destruct (semi_can_early_stop P st) eqn:Estop; [|by apply semi_join_spec].
    exists st. split; [done|]. unfold semi_can_early_stop in Estop.
    apply andb_true_iff in Estop as [Hside%negb_true_iff Hall]. destruct Hst as [Hr Hc Hgs Hmap].
    unfold probed_out. rewrite Hside, app_nil_r. split; [done|done|by eapply groups_ok_app|].
    intros _. rewrite (Hmap Hside) in *. rewrite concat_app, fmap_app. by rewrite all_joined_more. }
  cbn [mbind Result_bind]. destruct (IH st1 _ _ Hst1) as (st2 & Hr & Hst2).
  exists st2. split; [done|]. unfold all_groups in *. cbn [fmap list_fmap concat fst snd].
  rewrite !app_assoc. exact Hst2.
Qed.

Lemma run_semi_spec batches :
  Forall (λ b, semi_probed_ok b.1 b.2) batches →
  ∃ st, run_semi P jp m (fst <$> batches) = Ok st ∧
    concat (batch_rows null <$> s_output st) = semi_spec batches ∧
    s_output_rows st = length (semi_spec batches).
Proof.
  intros Hb. unfold run_semi.
  destruct (run_semi_batches batches (semi_new m) [] [] Hb) as (st & -> & [Hr Hc Hgs Hmap]).
  { split; [done|done|set_solver|]. intros _. cbn. unfold joined_by. clear.
    rewrite <- (length_seq bn 0) at 1. induction (seq 0 bn) as [|j l IH]; [done|]. cbn. f_equal. exact IH. }
  cbn [mbind Result_bind app] in *. unfold semi_finish, semi_spec.
  destruct (probe_is_join_side P) eqn:Hside.
  { exists st. split; [done|]. by rewrite Hr, Hc. }
  assert (concat ((λ b, probed_out b.1 b.2) <$> batches) = []) as Hnil.
  { unfold probed_out. rewrite Hside. clear. induction batches; [done|]. cbn. done. }
  rewrite Hnil in Hr, Hc. cbn [data_batch].
  pose proof (so_proj ok) as Hproj. rewrite Hside in Hproj.
  destruct (project_ok null _ _ _ Hproj (so_data ok)) as (bc & Hbc & Hlen & Hnum & Hrow).
  assert (project_build jp (s_probe_side P) (columns bdata) = Ok bc) as ->.
  { unfold project_build, project_left, project_right. rewrite <- Hbc. unfold join_proj.
    rewrite Hside. by destruct (s_probe_side P). }
  cbn [mbind Result_bind]. rewrite (Hmap eq_refl), all_groups_matched.
  destruct (write_join_side P jp (mkSemi [] (s_output st) (s_output_rows st)) bc
    (is_matched bdata bk batches) bn [] (join_row_of (columns bdata))) as (st' & -> & _ & Hrows & Hcnt);
    [done|done|done|by rewrite Hnum, (so_schema ok)|apply (so_pos ok)|apply Hrow|].
  by exists st'.
Qed.

End Correct.

(** C22: for semi, anti and existence broadcast joins with either side as the join side,
    the rows sent are exactly the rows of the join side with (or without) a partner of
    the same key (keys and their columns as for the full broadcast join), or all of them
    with the existence flag, also when the early exits and the skipping of already
    joined ranges take effect; over a build side that is not empty a null-aware anti
    join keeps what NOT IN keeps: no row with a null key, and none at all when a build
    key is null. *)
Theorem bhj_semi_join_correct P jp bdata bkeys bk np batches :
  (Z.of_nat (num_rows bdata) < 2 ^ 30)%Z → bkeys bdata = Ok bk → keys_ok (num_rows bdata) bk →
  (null_aware_anti P jp = true → num_rows bdata ≠ 0) →
  semi_ok P jp bdata np → Forall (λ b, semi_probed_ok P jp bk np b.1 b.2) batches →
  ∃ m st, create_from_data_batch fold_hash bdata bkeys = Ok m ∧
    run_semi P jp m (fst <$> batches) = Ok st ∧
    concat (batch_rows null <$> s_output st) = semi_spec P jp bdata bk batches ∧
    s_output_rows st = length (semi_spec P jp bdata bk batches).
Proof.
  intros Hn Hk Hko Hne Hok Hb. destruct (create_table fold_hash (num_rows bdata) bk Hn Hko) as (t & Ht & _).
  exists (mkMap bdata bk t).
  destruct (run_semi_spec P jp bdata bk t np Hok Hko Hn Ht Hne batches Hb) as (st & ? & ? & ?).
  exists st. split; [|done]. unfold create_from_data_batch. rewrite Hk. cbn [mbind Result_bind].
  by rewrite Ht.
Qed.

End Semi.

(** ** Concrete joins *)

Module SemiSample.
Definition vbool (b : bool) : option Z := Some (Z.b2z b).
(** A left anti join that probes the left side; [naaj] makes it null-aware. *)
Definition params (naaj : bool) : JoinParams :=
  mkJoinParams 2 2 2 Sample.key0 Sample.key0 (mkProjection 2 [0; 1] []) None 10 naaj.
Definition empty_build : RecordBatch (V := option Z) := mkBatch 0 [[]; []].
End SemiSample.

(** The null-aware anti join over a build side with a null key. *)
Lemma bhj_semi_join_correct_witness :
  ∃ m st, create_from_data_batch Sample.hash1 Sample.build Sample.key0 = Ok m ∧
    run_semi None SemiSample.vbool Sample.hash1 LEFT_PROBED_LEFT_ANTI
      (SemiSample.params true) m [Sample.probe1] = Ok st ∧
    concat (batch_rows None <$> s_output st)
      = semi_spec None SemiSample.vbool Sample.hash1 LEFT_PROBED_LEFT_ANTI (SemiSample.params true) Sample.build
          Sample.build_keys [(Sample.probe1, Sample.probe_keys)] ∧
    s_output_rows st = length (semi_spec None SemiSample.vbool Sample.hash1 LEFT_PROBED_LEFT_ANTI
      (SemiSample.params true) Sample.build Sample.build_keys [(Sample.probe1, Sample.probe_keys)]).
Proof.
  apply (bhj_semi_join_correct None SemiSample.vbool Sample.hash1 LEFT_PROBED_LEFT_ANTI
    (SemiSample.params true) Sample.build Sample.key0 Sample.build_keys 2 [(Sample.probe1, Sample.probe_keys)]).
  - cbn. lia.
  - reflexivity.
  - exact Sample.build_keys_ok.
  - done.
  - split; try done; cbn; try lia; repeat (apply Forall_cons_2; [done || lia|]); apply Forall_nil_2.
  - apply Forall_singleton. split; try done; [|exact Sample.probe_keys_ok|].
    + cbn. repeat (apply Forall_cons_2; [done || lia|]); apply Forall_nil_2.
    + by repeat constructor.
Defined.

Definition run_sample_anti (naaj : bool) (build : RecordBatch (V := option Z))
    : Result (list (list (option Z))) :=
  m ← create_from_data_batch Sample.hash1 build Sample.key0;
  st ← run_semi None SemiSample.vbool Sample.hash1 LEFT_PROBED_LEFT_ANTI
         (SemiSample.params naaj) m [Sample.probe1];
  Ok (concat (batch_rows None <$> s_output st)).

(** A plain anti join keeps the unmatched row and the row with a null key; the
    null-aware one drops everything when the build side has a null key. *)
Example anti_join_runs :
  run_sample_anti false Sample.build = Ok [[Some 5; Some 8]; [None; Some 9]]%Z ∧
  run_sample_anti true Sample.build = Ok [].
Proof. split; vm_compute; reflexivity. Qed.

(** With an empty build side a plain anti join returns every probed row, but a
    null-aware anti join still drops the probed row whose key is null. *)
Theorem null_aware_anti_join_empty_build :
  run_sample_anti false SemiSample.empty_build = Ok (batch_rows None Sample.probe1) ∧
  run_sample_anti true SemiSample.empty_build = Ok [[Some 2; Some 7]; [Some 5; Some 8]]%Z.
Proof. split; vm_compute; reflexivity. Qed.
