(* ===== verification/StreamCursor.v ===== *)
(** * The cursor over one sorted input of a sort-merge join

    native-engine/datafusion-ext-plans/src/joins/stream_cursor.rs, with the
    [compare_cursor!] macro of sort_merge_join_exec.rs and the batch interleaver of
    datafusion-ext-commons/src/arrow/selection.rs.

    [StreamCursor] is the struct; [try_new], [cur_forward] ([next] and its awaited
    future), [is_null_key], [key], [num_buffered_batches] and
    [clean_out_dated_batches] are its operations.  The abstract view of a cursor is
    [rest]: the list of rows that it has not passed yet.  The lemmas say that the
    operations implement that view: [cur_forward] drops the head, the current key is
    the head's, cleaning changes nothing, and an index taken earlier keeps naming the
    same row until batches are cleaned. *)

From S2P Require Import Prelude MachineInt Joins.

(** arrow's row format: what the joins rely on is that [Row] has a total order whose
    equality is equality. *)
Class RowKey (K : Type) `{EqDecision K} := {
  row_cmp : K → K → comparison;
  row_cmp_eq : ∀ a b, row_cmp a b = Eq ↔ a = b;
  row_cmp_antisym : ∀ a b, row_cmp b a = CompOpp (row_cmp a b);
  row_cmp_trans : ∀ a b c, row_cmp a b = Lt → row_cmp b c = Lt → row_cmp a c = Lt }.

Definition Idx : Type := nat * nat.

Section Cursor.
Context {V : Type} (null : V) {K : Type} `{RowKey K}.
(** The null checker of the key rows decides each row by its bytes alone. *)
Context (key_null : K → bool).
Context (num_fields : nat).

(** A batch of the input stream with its key rows. *)
Record KeyedBatch := mkKeyed { kb_batch : RecordBatch (V:=V); key_rows : list K }.

Record StreamCursor := mkCursor {
  stream : list (Result KeyedBatch);
  batches : list (RecordBatch (V:=V));
  cur_idx : Idx;
  keys : list (list K);
  key_has_nulls : list (option (list bool));
  finished : bool }.

(** The cursor starts on a batch with one row of nulls. *)
Definition try_new (stream : list (Result KeyedBatch)) : Result StreamCursor :=
  null_columns ← take_cols null (replicate num_fields []) [None];
  null_batch ← try_new_batch num_fields null_columns 1;
  Ok (mkCursor stream [null_batch] (0, 0) [[]] [Some [true]] false).

(** [Some(nb).filter(|nb| nb.null_count() > 0)] *)
Definition null_buffer (ks : list K) : option (list bool) :=
  let nb := key_null <$> ks in
  if existsb id nb then Some nb else None.

(** The future returned by [next]: the first non-empty batch of the stream. *)
Fixpoint load_next_batch (c : StreamCursor) (input : list (Result KeyedBatch))
    : Result StreamCursor :=
  match input with
  | [] => Ok (mkCursor [] (batches c) (cur_idx c) (keys c) (key_has_nulls c) true)
  | item :: input =>
      kb ← item;
      if decide (num_rows (kb_batch kb) = 0) then load_next_batch c input
      else Ok (mkCursor input (batches c ++ [kb_batch kb]) (cur_idx c) (keys c ++ [key_rows kb])
                 (key_has_nulls c ++ [null_buffer (key_rows kb)]) (finished c))
  end.

(** [cur_forward!]: [next] and, where it gives a future, its completion. *)
Definition cur_forward (c : StreamCursor) : Result StreamCursor :=
  let '(i, j) := cur_idx c in
  b ← index (batches c) i;
  let idx := if decide (num_rows b ≤ S j) then (S i, 0) else (i, S j) in
  let c := mkCursor (stream c) (batches c) idx (keys c) (key_has_nulls c) (finished c) in
  if decide (length (batches c) ≤ idx.1) then load_next_batch c (stream c) else Ok c.

Definition is_null_key (c : StreamCursor) (idx : Idx) : Result bool :=
  nb ← index (key_has_nulls c) idx.1;
  match nb with Some nb => index nb idx.2 | None => Ok false end.

Definition key (c : StreamCursor) (idx : Idx) : Result K :=
  ks ← index (keys c) idx.1; index ks idx.2.

Definition cur_key (c : StreamCursor) : Result K := key c (cur_idx c).

(** [!cur.finished() && cur.cur_key() == k], where [k] is only read if needed *)
Definition cur_key_eq (c : StreamCursor) (k : Result K) : Result bool :=
  if finished c then Ok false else a ← cur_key c; b ← k; Ok (bool_decide (a = b)).

Definition num_buffered_batches (c : StreamCursor) : nat := length (batches c) - 1.

(** [vec.splice(1..n, empty())] *)
Definition splice1 {A} (n : nat) (l : list A) : list A := take 1 l ++ drop n l.

Definition clean_out_dated_batches (c : StreamCursor) : StreamCursor :=
  let '(i, j) := cur_idx c in
  if decide (1 < i) then
    mkCursor (stream c) (splice1 i (batches c)) (1, j) (splice1 i (keys c))
      (splice1 i (key_has_nulls c)) (finished c)
  else c.

(** [compare_cursor!]: null keys come first, left before right. *)
Definition compare_cursor (c1 c2 : StreamCursor) : Result comparison :=
  lnull ← is_null_key c1 (cur_idx c1);
  if lnull : bool then Ok Lt else
  rnull ← is_null_key c2 (cur_idx c2);
  if rnull : bool then Ok Gt else
  k1 ← key c1 (cur_idx c1); k2 ← key c2 (cur_idx c2); Ok (row_cmp k1 k2).

(** [create_batch_interleaver]: one array per batch for every column, gathered by
    (batch, row) pairs. *)
Definition interleave_column (bs : list (RecordBatch (V:=V))) (indices : list Idx) (c : nat)
    : Result (list V) :=
  let arrays := omap (λ b, columns b !! c) bs in
  rmapM (λ '(i, j), a ← index arrays i; index a j) indices.

Definition batch_interleave (bs : list (RecordBatch (V:=V))) (indices : list Idx)
    : Result (RecordBatch (V:=V)) :=
  b0 ← index bs 0;
  _ ← rassert (forallb (λ b, length (columns b) <=? length (columns b0)) bs);
  cols ← rmapM (interleave_column bs indices) (seq 0 (length (columns b0)));
  try_new_batch (length (columns b0)) cols (length indices).

(** ** The abstract view *)

Local Abbreviation Entry := (K * list V)%type.

Definition entries (kb : KeyedBatch) : list Entry := zip (key_rows kb) (batch_rows null (kb_batch kb)).

(** What the cursor assumes of the batches it is given. *)
Record batch_wf (b : RecordBatch (V:=V)) (ks : list K) : Prop := {
  bw_ok : batch_ok b;
  bw_fields : length (columns b) = num_fields;
  bw_keys : length ks = num_rows b }.

Definition null_row : list V := replicate num_fields null.
Definition null_batch : RecordBatch (V:=V) := mkBatch 1 (replicate num_fields [null]).

(** The rows of the current batch from the current one on, then the stream's. *)
Definition buffered (c : StreamCursor) : list Entry :=
  match batches c !! (cur_idx c).1, keys c !! (cur_idx c).1 with
  | Some b, Some ks => drop (cur_idx c).2 (entries (mkKeyed b ks))
  | _, _ => []
  end.

Definition stream_entries (s : list (Result KeyedBatch)) : list Entry :=
  s ≫= (λ r, match r with Ok kb => entries kb | _ => [] end).

Definition rest (c : StreamCursor) : list Entry :=
  if finished c then [] else buffered c ++ stream_entries (stream c).

Definition stream_wf (s : list (Result KeyedBatch)) : Prop :=
  Forall (λ r, match r with Ok kb => batch_wf (kb_batch kb) (key_rows kb) | _ => False end) s.

Record base_wf (c : StreamCursor) : Prop := {
  cw_null : batches c !! 0 = Some null_batch ∧ keys c !! 0 = Some [];
  cw_keys : length (keys c) = length (batches c);
  cw_nulls : length (key_has_nulls c) = length (batches c);
  cw_batches : ∀ i b ks, batches c !! S i = Some b → keys c !! S i = Some ks →
    batch_wf b ks ∧ key_has_nulls c !! S i = Some (null_buffer ks) }.

(** The cursor stands on a row of its last batch, or past all of them at the end. *)
Record cursor_wf (c : StreamCursor) : Prop := {
  cw_base : base_wf c;
  cw_stream : stream_wf (stream c);
  cw_cur : if finished c then (cur_idx c).1 = length (batches c)
    else ∃ i b, (cur_idx c).1 = S i ∧ length (batches c) = S (S i) ∧
      batches c !! S i = Some b ∧ (cur_idx c).2 < num_rows b }.

(** Index [idx] names the row [r] of cursor [c]. *)
Definition idx_row (c : StreamCursor) (idx : Idx) (r : list V) : Prop :=
  ∃ b, batches c !! idx.1 = Some b ∧ idx.2 < num_rows b ∧ row_at null (columns b) idx.2 = r.

(** [c'] has all the batches of [c] and maybe more. *)
Definition extends (c c' : StreamCursor) : Prop :=
  batches c `prefix_of` batches c' ∧ keys c `prefix_of` keys c'.

(** ** The operations implement the view *)

Lemma extends_refl c : extends c c.
Proof. split; reflexivity. Qed.

Lemma extends_trans c1 c2 c3 : extends c1 c2 → extends c2 c3 → extends c1 c3.
Proof. intros [] []; split; etransitivity; eauto. Qed.

Lemma idx_row_extends c c' idx r : extends c c' → idx_row c idx r → idx_row c' idx r.
Proof. intros [Hb _] (b & Hi & ?). exists b. split; [|done]. by eapply prefix_lookup_Some. Qed.

Lemma key_extends c c' idx k : extends c c' → key c idx = Ok k → key c' idx = Ok k.
Proof.
  intros [_ Hk] (ks & Hks%index_Ok & Hi)%bind_Ok. unfold key.
  by rewrite (proj2 (index_Ok _ _ _) (prefix_lookup_Some _ _ _ _ Hks Hk)).
Qed.

Lemma idx_row_null c : base_wf c → idx_row c (0, 0) null_row.
Proof.
  intros [[Hn _] _ _ _]. exists null_batch. split_and!; [done|cbn; lia|].
  unfold row_at, null_row, null_batch. cbn. by rewrite fmap_replicate.
Qed.

Lemma entries_length b ks : batch_wf b ks → length (entries (mkKeyed b ks)) = num_rows b.
Proof.
  intros [_ _ Hk]. unfold entries, batch_rows. cbn.
  rewrite length_zip_with, length_fmap, length_seq. lia.
Qed.

Lemma entries_lookup b ks j k r : batch_wf b ks →
  entries (mkKeyed b ks) !! j = Some (k, r) ↔
  ks !! j = Some k ∧ j < num_rows b ∧ row_at null (columns b) j = r.
Proof.
  intros [_ _ Hk]. unfold entries, batch_rows. cbn [kb_batch key_rows]. rewrite lookup_zip_with_Some. split.
  - intros (? & ? & [= -> ->] & Hks & Hr). apply list_lookup_fmap_Some in Hr as (j' & -> & Hj).
    apply lookup_seq in Hj as [-> ?]. done.
  - intros (Hks & Hlt & Hr). exists k, r. split_and!; try done.
    rewrite list_lookup_fmap, lookup_seq_lt by done. cbn. by rewrite Hr.
Qed.

Lemma base_wf_push c kb :
  base_wf c → batch_wf (kb_batch kb) (key_rows kb) → ∀ s idx f,
  base_wf (mkCursor s (batches c ++ [kb_batch kb]) idx (keys c ++ [key_rows kb])
             (key_has_nulls c ++ [null_buffer (key_rows kb)]) f).
Proof.
  intros [[Hb0 Hk0] Hk Hn Hb] Hkb s idx f.
  split; cbn [batches keys key_has_nulls].
  - by rewrite !lookup_app_l by (by eapply lookup_lt_Some).
  - rewrite !length_app, Hk. done.
  - rewrite !length_app, Hn. done.
  - intros i b ks Hi Hki. destruct (decide (S i < length (batches c))).
    + rewrite lookup_app_l in Hi by done. rewrite lookup_app_l in Hki by lia.
      rewrite lookup_app_l by lia. eauto.
    + apply lookup_lt_Some in Hi as Hlt. rewrite length_app in Hlt. cbn in Hlt.
      assert (S i = length (batches c)) as Hi' by lia. rewrite Hi' in *.
      rewrite lookup_app_r, Nat.sub_diag in Hi by lia. rewrite lookup_app_r in Hki by lia.
      rewrite lookup_app_r by lia. rewrite Hk, Nat.sub_diag in Hki. rewrite Hn, Nat.sub_diag.
      cbn in *. by simplify_eq.
Qed.

(** Loading from the stream continues the view. *)
Lemma load_next_batch_ok c s :
  base_wf c → stream_wf s → finished c = false → cur_idx c = (length (batches c), 0) →
  ∃ c', load_next_batch c s = Ok c' ∧ cursor_wf c' ∧ rest c' = stream_entries s ∧ extends c c'.
Proof.
  intros Hc Hs Hf Hcur. induction Hs as [|r s Hr Hs IH]; cbn [load_next_batch].
  - eexists. split; [done|]. split_and!; [|done|split; reflexivity].
    split; [destruct Hc; by split|by constructor|]. cbn. by rewrite Hcur.
  - destruct r as [kb| | | |]; try done. cbn [mbind Result_bind]. case_decide as Hn.
    + destruct IH as (c' & -> & Hwf & Hr' & Hx). eexists; split_and!; try done.
      rewrite Hr'. unfold stream_entries. rewrite bind_cons.
      destruct (entries kb) eqn:E; [done|]. destruct kb as [b ks].
      pose proof (entries_length b ks Hr) as Hl. cbn in *. rewrite E in Hl. cbn in Hl. lia.
    + eexists. split; [done|]. split_and!.
      * split; [by apply base_wf_push|done|]. cbn [finished cur_idx batches]. rewrite Hf, Hcur.
        pose proof (lookup_lt_Some _ _ _ (proj1 (cw_null c Hc))).
        exists (length (batches c) - 1), (kb_batch kb). cbn [fst snd]. rewrite length_app. cbn.
        split_and!; [lia|lia| |lia].
        rewrite lookup_app_r by lia. by replace (_ - _) with 0 by lia.
      * unfold rest, buffered. cbn [finished cur_idx batches keys stream]. rewrite Hf, Hcur. cbn [fst snd].
        rewrite lookup_app_r, Nat.sub_diag by lia.
        rewrite lookup_app_r by (rewrite (cw_keys c Hc); lia).
        rewrite (cw_keys c Hc), Nat.sub_diag. by destruct kb.
      * split; cbn; eexists; reflexivity.
Qed.

Lemma try_new_ok s : stream_wf s →
  ∃ c c', try_new s = Ok c ∧ cur_forward c = Ok c' ∧ cursor_wf c' ∧ rest c' = stream_entries s.
Proof.
  intros Hs. exists (mkCursor s [null_batch] (0, 0) [[]] [Some [true]] false).
  edestruct (load_next_batch_ok (mkCursor s [null_batch] (1, 0) [[]] [Some [true]] false) s)
    as (c' & Hl & Hwf & Hr & _); try done.
  exists c'. split_and!; try done. unfold try_new.
  rewrite (take_cols_ok null _ 0).
  - cbn [mbind Result_bind]. unfold taken. rewrite fmap_replicate. cbn. unfold try_new_batch.
    rewrite decide_True; [done|]. rewrite length_replicate. split; [done|].
    by apply Forall_replicate.
  - by apply Forall_replicate.
  - by apply Forall_singleton.
Qed.

Lemma finished_rest c : cursor_wf c → finished c = bool_decide (rest c = []).
Proof.
  intros [Hb Hs Hc]. unfold rest. destruct (finished c); [done|].
  destruct Hc as (i & b & Hi & Hl & Hbi & Hj). symmetry. apply bool_decide_eq_false_2.
  unfold buffered. rewrite Hi, Hbi.
  destruct (lookup_lt_is_Some_2 (keys c) (S i)) as [ks Hks]; [rewrite (cw_keys c Hb); lia|].
  rewrite Hks. destruct (cw_batches c Hb i b ks Hbi Hks) as [Hw _].
  intros [Hn _]%app_eq_nil. apply (f_equal length) in Hn.
  rewrite length_drop, (entries_length _ _ Hw) in Hn. cbn in Hn. lia.
Qed.

(** What the code reads at the current position is the head of the view. *)
Lemma current_row c k r es :
  cursor_wf c → rest c = (k, r) :: es →
  finished c = false ∧ cur_key c = Ok k ∧ idx_row c (cur_idx c) r ∧
  is_null_key c (cur_idx c) = Ok (key_null k).
Proof.
  intros Hwf Hr. pose proof (finished_rest c Hwf) as Hf. rewrite Hr in Hf. cbn in Hf.
  destruct Hwf as [Hb Hs Hc]. unfold rest in Hr. rewrite Hf in Hc, Hr.
  destruct Hc as (i & b & Hi & Hl & Hbi & Hj). unfold buffered in Hr. rewrite Hi, Hbi in Hr.
  destruct (lookup_lt_is_Some_2 (keys c) (S i)) as [ks Hks]; [rewrite (cw_keys c Hb); lia|].
  rewrite Hks in Hr. destruct (cw_batches c Hb i b ks Hbi Hks) as [Hw Hnb].
  destruct (cur_idx c) as [i' j] eqn:Hcur. cbn [fst snd] in *. subst i'.
  assert (entries (mkKeyed b ks) !! j = Some (k, r)) as He.
  { rewrite <- (Nat.add_0_r j), <- lookup_drop.
    destruct (drop j (entries _)) as [|e l] eqn:E.
    - apply (f_equal length) in E. rewrite length_drop, (entries_length _ _ Hw) in E. cbn in E. lia.
    - cbn in Hr. injection Hr as Hr _. cbn. by rewrite Hr. }
  apply entries_lookup in He as (Hk & Hlt & Hrow); [|done].
  assert (key c (S i, j) = Ok k) as Hkey.
  { unfold key. cbn [fst snd]. rewrite (proj2 (index_Ok _ _ _) Hks). by apply index_Ok. }
  split; [done|]. split; [unfold cur_key; by rewrite Hcur|]. split; [by exists b|].
  unfold is_null_key. cbn [fst snd]. rewrite (proj2 (index_Ok _ _ _) Hnb). cbn [mbind Result_bind].
  unfold null_buffer. destruct (existsb id (key_null <$> ks)) eqn:Hex.
  - apply index_Ok. by rewrite list_lookup_fmap, Hk.
  - destruct (key_null k) eqn:Hkn; [|done]. exfalso.
    apply not_true_iff_false in Hex. apply Hex, existsb_exists. exists true. split; [|done].
    apply list_elem_of_In, list_elem_of_fmap. exists k. split; [done|]. by apply list_elem_of_lookup_2 in Hk.
Qed.

(** [cur_forward] drops the head of the view. *)
Lemma cur_forward_ok c e es :
  cursor_wf c → rest c = e :: es →
  ∃ c', cur_forward c = Ok c' ∧ cursor_wf c' ∧ rest c' = es ∧ extends c c'.
Proof.
  intros Hwf Hr. pose proof (finished_rest c Hwf) as Hf. rewrite Hr in Hf. cbn in Hf.
  destruct Hwf as [Hb Hs Hc]. unfold rest in Hr. rewrite Hf in Hc, Hr.
  destruct Hc as (i & b & Hi & Hl & Hbi & Hj). unfold buffered in Hr. rewrite Hi, Hbi in Hr.
  destruct (lookup_lt_is_Some_2 (keys c) (S i)) as [ks Hks]; [rewrite (cw_keys c Hb); lia|].
  rewrite Hks in Hr. destruct (cw_batches c Hb i b ks Hbi Hks) as [Hw _].
  pose proof (entries_length b ks Hw) as Hlen. unfold cur_forward.
  destruct (cur_idx c) as [i' j] eqn:Hcur. cbn [fst snd] in *. subst i'.
  rewrite (proj2 (index_Ok _ _ _) Hbi). cbn [mbind Result_bind batches fst stream].
  assert (es = drop (S j) (entries (mkKeyed b ks)) ++ stream_entries (stream c)) as ->.
  { destruct (drop j (entries _)) as [|e' l] eqn:E.
    { apply (f_equal length) in E. rewrite length_drop, Hlen in E. cbn in E. lia. }
    cbn in Hr. injection Hr as _ <-. f_equal.
    replace (S j) with (j + 1) by lia. rewrite <- drop_drop, E. done. }
  destruct (decide (num_rows b ≤ S j)) as [Hend|Hend]; cbn [fst].
  - rewrite decide_True by (cbn; lia).
    edestruct (load_next_batch_ok
      (mkCursor (stream c) (batches c) (S (S i), 0) (keys c) (key_has_nulls c) (finished c)) (stream c))
      as (c' & Hload & Hwf' & Hr' & Hx); try done.
    { destruct Hb; by split. } { cbn. by rewrite Hl. }
    exists c'. split_and!; try done. rewrite Hr', drop_ge by lia. done.
  - rewrite decide_False by (cbn; lia). eexists. split; [done|]. split_and!.
    + split; [destruct Hb; by split|done|]. cbn [finished cur_idx batches]. rewrite Hf.
      exists i, b. cbn. split_and!; [done..|lia].
    + unfold rest, buffered. cbn [finished cur_idx batches keys stream fst snd]. by rewrite Hf, Hbi, Hks.
    + split; reflexivity.
Qed.

(** Cleaning keeps the view. *)
Lemma clean_ok c : cursor_wf c →
  cursor_wf (clean_out_dated_batches c) ∧ rest (clean_out_dated_batches c) = rest c.
Proof.
  intros Hwf. unfold clean_out_dated_batches. destruct (cur_idx c) as [i j] eqn:Hcur.
  case_decide as Hi; [|done].
  destruct Hwf as [[[Hb0 Hk0] Hk Hn Hb] Hs Hc].
  assert (∀ {A} (l : list A) x, l !! 0 = Some x → take 1 l = [x]) as Htake
    by (intros A [|? ?] x; cbn; [done|by intros [= ->]]).
  destruct (lookup_lt_is_Some_2 (key_has_nulls c) 0) as [nb0 Hnb0].
  { rewrite Hn. by eapply lookup_lt_Some. }
  unfold splice1. rewrite (Htake _ _ _ Hb0), (Htake _ _ _ Hk0), (Htake _ _ _ Hnb0). cbn [app].
  split.
  - split.
    + split; cbn [batches keys key_has_nulls]; [done|cbn; by rewrite !length_drop, Hk|
        cbn; by rewrite !length_drop, Hn|].
      cbn [lookup]. intros m b ks. cbn. rewrite !lookup_drop. intros Hm Hkm.
      destruct i as [|i]; [lia|]. apply (Hb (i + m) b ks); done.
    + done.
    + cbn [finished cur_idx batches]. rewrite Hcur in Hc. destruct (finished c).
      * cbn [fst] in *. rewrite Hc, drop_ge by lia. done.
      * destruct Hc as (i' & b & Hi' & Hl & Hbi & Hj). cbn [fst snd] in *. subst i.
        exists 0, b. split; [done|]. split; [cbn; rewrite length_drop; lia|]. split; [|done].
        change (drop (S i') (batches c) !! 0 = Some b). by rewrite lookup_drop, Nat.add_0_r.
  - unfold rest. cbn [finished stream]. destruct (finished c); [done|]. f_equal.
    unfold buffered. rewrite Hcur. cbn [cur_idx batches keys fst snd].
    change ((null_batch :: drop i (batches c)) !! 1) with (drop i (batches c) !! 0).
    change (([] :: drop i (keys c)) !! 1) with (drop i (keys c) !! 0).
    by rewrite !lookup_drop, Nat.add_0_r.
Qed.

(** The interleaver gathers the named rows. *)
Lemma base_wf_columns c : base_wf c →
  Forall (λ b, length (columns b) = num_fields ∧ batch_ok b) (batches c).
Proof.
  intros Hb. apply Forall_lookup. intros [|i] b Hi.
  - rewrite (proj1 (cw_null c Hb)) in Hi. injection Hi as <-. cbn. rewrite length_replicate.
    split; [done|]. by apply Forall_replicate.
  - destruct (lookup_lt_is_Some_2 (keys c) (S i)) as [ks Hks].
    { rewrite (cw_keys c Hb). by eapply lookup_lt_Some. }
    destruct (cw_batches c Hb i b ks Hi Hks) as [[? ? ?] _]. done.
Qed.

Lemma omap_columns (bs : list (RecordBatch (V:=V))) m :
  Forall (λ b, length (columns b) = num_fields ∧ batch_ok b) bs → m < num_fields →
  omap (λ b, columns b !! m) bs = (λ b, nth m (columns b) []) <$> bs.
Proof.
  intros Hbs Hm. induction Hbs as [|b bs [Hb _] _ IH]; [done|].
  cbn. destruct (lookup_lt_is_Some_2 (columns b) m) as [col Hcol]; [by rewrite Hb|].
  rewrite Hcol, (nth_lookup_Some _ _ [] _ Hcol). by f_equal.
Qed.

Lemma interleave_column_ok c indices rows m :
  base_wf c → Forall2 (idx_row c) indices rows → m < num_fields →
  interleave_column (batches c) indices m = Ok ((λ r, nth m r null) <$> rows).
Proof.
  intros Hb Hrows Hm. pose proof (base_wf_columns c Hb) as Hbs. unfold interleave_column.
  rewrite (omap_columns _ m Hbs Hm). apply rmapM_Ok, Forall2_fmap_r.
  eapply Forall2_impl; [exact Hrows|]. intros [i j] r (b & Hi & Hj & <-). cbn [fst snd] in *.
  rewrite (proj2 (index_Ok _ i (nth m (columns b) []))) by (by rewrite list_lookup_fmap, Hi).
  cbn [mbind Result_bind]. apply index_Ok. rewrite Forall_lookup in Hbs.
  destruct (Hbs i b Hi) as [Hbc Hok].
  destruct (lookup_lt_is_Some_2 (columns b) m) as [col Hcol]; [by rewrite Hbc|].
  unfold batch_ok in Hok. rewrite Forall_lookup in Hok. specialize (Hok m col Hcol).
  rewrite (nth_lookup_Some _ _ [] _ Hcol). unfold row_at.
  erewrite (nth_lookup_Some _ m null); [|by rewrite list_lookup_fmap, Hcol].
  destruct (lookup_lt_is_Some_2 col j) as [x Hx]; [by rewrite Hok|].
  by rewrite Hx, (nth_lookup_Some _ _ null _ Hx).
Qed.

Lemma idx_row_length c idx r : base_wf c → idx_row c idx r → length r = num_fields.
Proof.
  intros Hb (b & Hi & _ & <-). pose proof (base_wf_columns c Hb) as Hbs. rewrite Forall_lookup in Hbs.
  unfold row_at. rewrite length_fmap. by apply (Hbs _ _ Hi).
Qed.

Lemma fmap_nth_seq (r : list V) : (λ m, nth m r null) <$> seq 0 (length r) = r.
Proof.
  apply list_eq. intros i. rewrite list_lookup_fmap. destruct (decide (i < length r)).
  - rewrite lookup_seq_lt by done. cbn. destruct (lookup_lt_is_Some_2 r i) as [x Hx]; [done|].
    by rewrite Hx, (nth_lookup_Some _ _ null _ Hx).
  - rewrite !lookup_ge_None_2 by (rewrite ?length_seq; lia). done.
Qed.

(** The interleaver gathers exactly the rows that its indices name. *)
Lemma batch_interleave_ok c indices rows :
  base_wf c → Forall2 (idx_row c) indices rows →
  ∃ b, batch_interleave (batches c) indices = Ok b ∧ batch_ok b ∧
    num_rows b = length rows ∧ length (columns b) = num_fields ∧
    (∀ j r, rows !! j = Some r → row_at null (columns b) j = r).
Proof.
  intros Hb Hrows. pose proof (base_wf_columns c Hb) as Hbs. unfold batch_interleave.
  rewrite (proj2 (index_Ok _ _ _) (proj1 (cw_null c Hb))). cbn [mbind Result_bind].
  replace (length (columns null_batch)) with num_fields by (cbn; by rewrite length_replicate).
  assert (forallb (λ b, length (columns b) <=? num_fields) (batches c) = true) as ->.
  { apply forallb_forall. intros b Hin. rewrite <- list_elem_of_In in Hin. rewrite Forall_forall in Hbs.
    apply Nat.leb_le. by rewrite (proj1 (Hbs b Hin)). }
  cbn [rassert mbind Result_bind].
  rewrite (rmapM_pure _ (λ m, (λ r, nth m r null) <$> rows)).
  2: { intros m Hm%elem_of_seq. apply interleave_column_ok; [done..|lia]. }
  cbn [mbind Result_bind]. unfold try_new_batch.
  pose proof (Forall2_length _ _ _ Hrows) as Hlen.
  rewrite decide_True.
  2: { rewrite length_fmap, length_seq. split; [done|]. apply Forall_fmap, Forall_true.
       intros m. cbn. by rewrite length_fmap. }
  eexists. split; [done|]. unfold batch_ok. cbn [num_rows columns]. split_and!; [|done| |].
  - apply Forall_fmap, Forall_true. intros m. cbn. by rewrite length_fmap.
  - by rewrite length_fmap, length_seq.
  - intros j r Hj. unfold row_at. rewrite <- list_fmap_compose.
    destruct (Forall2_lookup_r _ _ _ _ _ Hrows Hj) as (idx & _ & Hidx).
    transitivity ((λ m, nth m r null) <$> seq 0 num_fields);
      [|rewrite <- (idx_row_length c idx r Hb Hidx); apply fmap_nth_seq].
    apply list_fmap_ext. intros _ m _. unfold compose.
    erewrite nth_lookup_Some; [done|]. by rewrite list_lookup_fmap, Hj.
Qed.

Lemma cur_key_eq_ok c k : cursor_wf c →
  cur_key_eq c (Ok k) = Ok (match rest c with (k', _) :: _ => bool_decide (k' = k) | [] => false end).
Proof.
  intros Hwf. unfold cur_key_eq. destruct (rest c) as [|[k' r] es] eqn:Hr.
  - rewrite (finished_rest c Hwf), Hr. done.
  - destruct (current_row c k' r es Hwf Hr) as (-> & -> & _). done.
Qed.

(** ** Matching *)

Definition matches (a b : Entry) : bool := negb (key_null a.1) && bool_decide (a.1 = b.1).

Definition key_le (a b : Entry) : Prop := row_cmp a.1 b.1 ≠ Gt.
Definition sorted : list Entry → Prop := StronglySorted key_le.

Lemma row_cmp_refl k : row_cmp k k = Eq.
Proof. by apply row_cmp_eq. Qed.

Lemma row_cmp_lt_le a b c : row_cmp a b = Lt → row_cmp b c ≠ Gt → row_cmp a c = Lt.
Proof.
  intros Hab Hbc. destruct (row_cmp b c) eqn:E; [|by eapply row_cmp_trans|done].
  apply row_cmp_eq in E as ->. done.
Qed.

(** A key below the head of a sorted list is not in it. *)
Lemma sorted_above k f l x :
  sorted (f :: l) → row_cmp k f.1 = Lt → x ∈ f :: l → k ≠ x.1.
Proof.
  intros Hs Hlt Hx ->. apply StronglySorted_inv in Hs as [_ Hs]. rewrite Forall_forall in Hs.
  apply elem_of_cons in Hx as [->|Hx]; [by rewrite row_cmp_refl in Hlt|].
  pose proof (row_cmp_lt_le _ _ _ Hlt (Hs x Hx)) as Habs. by rewrite row_cmp_refl in Habs.
Qed.

Lemma less_no_match e f r x :
  sorted (f :: r) → key_null e.1 = true ∨ row_cmp e.1 f.1 = Lt → x ∈ f :: r → matches e x = false.
Proof.
  intros Hs [Hn|Hlt] Hx; unfold matches; [by rewrite Hn|].
  rewrite bool_decide_eq_false_2 by (by eapply sorted_above). by rewrite andb_false_r.
Qed.

Lemma greater_no_match e l f x :
  sorted (e :: l) → key_null f.1 = true ∨ row_cmp e.1 f.1 = Gt → x ∈ e :: l → matches x f = false.
Proof.
  intros Hs Hf Hx. unfold matches. case_bool_decide as Heq; [|by rewrite andb_false_r].
  rewrite Heq. destruct Hf as [->|Hgt]; [done|]. exfalso.
  refine (sorted_above f.1 e l x Hs _ Hx (eq_sym Heq)). by rewrite row_cmp_antisym, Hgt.
Qed.

(** The head of [l], if any, has another key than [k]. *)
Definition no_head (k : K) (l : list Entry) : Prop :=
  match l with (k', _) :: _ => k' ≠ k | [] => True end.

(** A run of key [k] in sorted input ends where the head changes. *)
Lemma run_complete k g t :
  sorted (g ++ t) → g ≠ [] → Forall (λ e, e.1 = k) g → no_head k t → ∀ x, x ∈ t → k ≠ x.1.
Proof.
  intros Hs Hg Hk Hn x Hx. destruct t as [|[k' r] t]; [by apply not_elem_of_nil in Hx|].
  destruct g as [|e g]; [done|]. apply Forall_cons in Hk as [He _].
  apply StronglySorted_app in Hs as (Hcross & _ & Ht).
  apply (sorted_above k (k', r) t); [done| |done]. cbn.
  assert (key_le e (k', r)) as Hle by (apply Hcross; set_solver).
  unfold key_le in Hle. rewrite He in Hle. cbn in Hle. destruct (row_cmp k k') eqn:E; try done.
  apply row_cmp_eq in E. by subst.
Qed.

Lemma no_head_eq k l :
  match l with (k', _) :: _ => bool_decide (k' = k) | [] => false end = false ↔ no_head k l.
Proof.
  destruct l as [|[k' r] l]; cbn; [done|]. by rewrite bool_decide_eq_false.
Qed.

Lemma sorted_app_r g t : sorted (g ++ t) → sorted t.
Proof. intros Hs. by apply StronglySorted_app in Hs as (_ & _ & ?). Qed.

Lemma sorted_tail e l : sorted (e :: l) → sorted l.
Proof. by intros [? _]%StronglySorted_inv. Qed.

Lemma matches_key k e f : key_null k = false → e.1 = k → f.1 = k → matches e f = true.
Proof. intros Hk He Hf. unfold matches. rewrite He, Hf, Hk. by rewrite bool_decide_eq_true_2. Qed.

Lemma matches_ne e f : e.1 ≠ f.1 → matches e f = false.
Proof. intros Hne. unfold matches. by rewrite bool_decide_eq_false_2, andb_false_r. Qed.

End Cursor.

(** [compare_cursor!] on the heads of the two views. *)
Lemma compare_cursor_ok {V} (null : V) `{RowKey K} (key_null : K → bool) n1 n2 c1 c2 k1 r1 l k2 r2 r :
  cursor_wf null key_null n1 c1 → cursor_wf null key_null n2 c2 →
  rest null c1 = (k1, r1) :: l → rest null c2 = (k2, r2) :: r →
  compare_cursor c1 c2 =
  Ok (if key_null k1 then Lt else if key_null k2 then Gt else row_cmp k1 k2).
Proof.
  intros H1 H2 Hl Hr. destruct (current_row null key_null n1 c1 k1 r1 l H1 Hl) as (_ & Hk1 & _ & Hn1).
  destruct (current_row null key_null n2 c2 k2 r2 r H2 Hr) as (_ & Hk2 & _ & Hn2).
  unfold compare_cursor, cur_key in *. rewrite Hn1, Hk1, Hn2, Hk2. cbn [mbind Result_bind].
  destruct (key_null k1); [done|]. cbn [mbind Result_bind]. by destruct (key_null k2).
Qed.

(** ** Concrete inputs *)

#[export] Instance Z_row_key : RowKey Z := {
  row_cmp := Z.compare;
  row_cmp_eq := Z.compare_eq_iff;
  row_cmp_antisym := λ a b, Z.compare_antisym a b;
  row_cmp_trans := λ a b c Hab Hbc, Z.lt_trans a b c Hab Hbc }.

Module CursorSample.


(** Keys are the first column; -1 stands for the encoding of a null key. *)
Definition batch (ks vs : list Z) : Result (KeyedBatch (V:=Z) (K:=Z)) :=
  Ok (mkKeyed (mkBatch (length ks) [ks; vs]) ks).
Definition sample_null (k : Z) : bool := bool_decide (k = -1)%Z.
Definition sl : list (Result (KeyedBatch (V:=Z) (K:=Z))) :=
  [batch [-1; 1] [10; 11]; batch [] []; batch [2; 2] [12; 13]; batch [2; 5] [14; 15]]%Z.
Definition sr : list (Result (KeyedBatch (V:=Z) (K:=Z))) :=
  [batch [-1; 2] [20; 21]; batch [2; 3; 5] [22; 23; 24]]%Z.

Lemma batch_ok2 ks vs : length ks = length vs →
  match batch ks vs with Ok kb => batch_wf 2 (kb_batch kb) (key_rows kb) | _ => False end.
Proof.
  intros Hlen. split; try done. cbn.
  apply Forall_cons_2; [done|]. apply Forall_cons_2; [done|]. apply Forall_nil_2.
Qed.

Lemma sorted_Z (l : list (Z * list Z)) :
  StronglySorted Z.le (fst <$> l) → sorted l.
Proof.
  induction l as [|a l IH]; intros Hl; [constructor|].
  apply StronglySorted_inv in Hl as [Hl Ha]. constructor; [by apply IH|].
  apply (proj1 (Forall_fmap fst _ l)) in Ha. eapply Forall_impl; [exact Ha|]. intros b Hb. exact Hb.
Qed.

Lemma sl_wf : stream_wf 2 sl.
Proof. repeat (apply Forall_cons_2; [by apply batch_ok2|]). apply Forall_nil_2. Qed.
Lemma sr_wf : stream_wf 2 sr.
Proof. repeat (apply Forall_cons_2; [by apply batch_ok2|]). apply Forall_nil_2. Qed.
Lemma sl_sorted : sorted (stream_entries 0%Z sl).
Proof. apply sorted_Z. cbn. repeat constructor; lia. Qed.
Lemma sr_sorted : sorted (stream_entries 0%Z sr).
Proof. apply sorted_Z. cbn. repeat constructor; lia. Qed.

End CursorSample.
