(* ===== verification/SortMergeJoin.v ===== *)
(** * The sort-merge join: inner and outer joins

    native-engine/datafusion-ext-plans/src/joins/smj/full_join.rs, driven by
    [execute_join] of sort_merge_join_exec.rs.  [FullJoiner] holds the pending pairs
    of row indices and the batches it has sent; [Merge] is the joiner with its two
    cursors.  Each loop of [join] is a definition of its own: [collect] gathers the
    rows of one key on both sides, [push_product] emits their product, [stream_right]
    and [stream_left] join what is left of the longer side, [drain_left] and
    [drain_right] emit the unmatched tail of an outer side.

    The specification [join_spec] is the nested loop: every pair of rows with equal
    non-null keys, and for an outer side every row without a partner next to nulls.
    Loops are given as fuel a bound on the number of input rows, which the proofs show
    to be enough. *)

From S2P Require Import Prelude MachineInt Joins StreamCursor.

Section FullJoin.
Context {V : Type} (null : V) {K : Type} `{RowKey K} (key_null : K → bool).
Context (L_OUTER R_OUTER : bool) (batch_size : nat) (projection : JoinProjection)
  (join_filter : option (JoinFilter (V:=V))).

Local Abbreviation Cursor := (StreamCursor (V:=V) (K:=K)).
Local Abbreviation forward := (cur_forward key_null).

Record FullJoiner := mkFull {
  lindices : list Idx; rindices : list Idx;
  output : list (RecordBatch (V:=V)); output_rows : nat }.

Definition full_new : FullJoiner := mkFull [] [] [] 0.

Definition should_flush (j : FullJoiner) : bool := batch_size <=? length (lindices j).
Definition has_enough_room (j : FullJoiner) (new_size : nat) : bool :=
  length (lindices j) + new_size <=? batch_size.

Definition push (j : FullJoiner) (l r : Idx) : FullJoiner :=
  mkFull (lindices j ++ [l]) (rindices j ++ [r]) (output j) (output_rows j).

(** The columns of a flushed batch: the residual filter and the projection are only
    applied when there is a filter, the inputs are already projected otherwise. *)
Definition output_cols (lcols rcols : list (list V)) (n : nat) : Result (list (list V) * nat) :=
  match join_filter with
  | Some f =>
      selected ← filter_evaluate f lcols rcols n;
      pl ← project_left projection (filter_col selected <$> lcols);
      pr ← project_right projection (filter_col selected <$> rcols);
      Ok (pl ++ pr, length (filter (λ v, v = Some true) selected))
  | None => Ok (lcols ++ rcols, n)
  end.

Definition flush (j : FullJoiner) (c1 c2 : Cursor) : Result FullJoiner :=
  let l := lindices j in
  let r := rindices j in
  _ ← rassert (bool_decide (length l = length r));
  lcols ← batch_interleave (batches c1) l;
  rcols ← batch_interleave (batches c2) r;
  '(cols, n) ← output_cols (columns lcols) (columns rcols) (length l);
  b ← try_new_batch (schema projection) cols n;
  if decide (0 < num_rows b)
  then Ok (mkFull [] [] (output j ++ [b]) (output_rows j + num_rows b))
  else Ok (mkFull [] [] (output j) (output_rows j)).

(** The joiner and its two cursors. *)
Record Merge := mkMerge { self : FullJoiner; cur1 : Cursor; cur2 : Cursor }.

Definition set_self (s : Merge) (j : FullJoiner) : Merge := mkMerge j (cur1 s) (cur2 s).
Definition forward1 (s : Merge) : Result Merge := c ← forward (cur1 s); Ok (mkMerge (self s) c (cur2 s)).
Definition forward2 (s : Merge) : Result Merge := c ← forward (cur2 s); Ok (mkMerge (self s) (cur1 s) c).
Definition do_flush (s : Merge) : Result Merge := j ← flush (self s) (cur1 s) (cur2 s); Ok (set_self s j).
Definition clean1 (s : Merge) : Merge := mkMerge (self s) (clean_out_dated_batches (cur1 s)) (cur2 s).
Definition clean2 (s : Merge) : Merge := mkMerge (self s) (cur1 s) (clean_out_dated_batches (cur2 s)).

(** ** The rows of one key *)

Record Collect := mkCollect {
  merge : Merge; equal_lindices : list Idx; equal_rindices : list Idx;
  l_equal : bool; r_equal : bool }.

Definition collect_left (l_key_idx : Idx) (x : Collect) : Result Collect :=
  let s := merge x in
  b ← cur_key_eq (cur1 s) (key (cur1 s) l_key_idx);
  if b : bool then
    s' ← forward1 s;
    Ok (mkCollect s' (equal_lindices x ++ [cur_idx (cur1 s)]) (equal_rindices x) true (r_equal x))
  else Ok (mkCollect s (equal_lindices x) (equal_rindices x) false (r_equal x)).

Definition collect_right (r_key_idx : Idx) (x : Collect) : Result Collect :=
  let s := merge x in
  b ← cur_key_eq (cur2 s) (key (cur2 s) r_key_idx);
  if b : bool then
    s' ← forward2 s;
    Ok (mkCollect s' (equal_lindices x) (equal_rindices x ++ [cur_idx (cur2 s)]) (l_equal x) true)
  else Ok (mkCollect s (equal_lindices x) (equal_rindices x) (l_equal x) false).

Definition collect_step (l_key_idx r_key_idx : Idx) (x : Collect) : Result Collect :=
  x ← (if l_equal x then collect_left l_key_idx x else Ok x);
  if r_equal x then collect_right r_key_idx x else Ok x.

Definition collect (fuel : nat) (l_key_idx r_key_idx : Idx) (x : Collect) : Result Collect :=
  rwhile fuel (λ x, l_equal x && r_equal x)
    (collect_step l_key_idx r_key_idx) x.

(** [equal_lindices.iter().cartesian_product(&equal_rindices)] *)
Definition product (l r : list Idx) : list (Idx * Idx) := a ← l; (λ b, (a, b)) <$> r.

Definition push_product (s : Merge) (l r : list Idx) : Result Merge :=
  if has_enough_room (self s) (length l * length r) then
    Ok (set_self s (foldl (λ j p, push j p.1 p.2) (self s) (product l r)))
  else
    rfoldM (λ s p, let s := set_self s (push (self s) p.1 p.2) in
                   if should_flush (self s) then do_flush s else Ok s) s (product l r).

Definition stream_right_step (l : list Idx) (s : Merge) : Result Merge :=
  let s := set_self s (foldl (λ j lidx, push j lidx (cur_idx (cur2 s))) (self s) l) in
  s ← forward2 s;
  if should_flush (self s) || (1 <? num_buffered_batches (cur2 s))
  then s ← do_flush s; Ok (clean2 s) else Ok s.

Definition stream_right (fuel : nat) (l : list Idx) (l_key_idx : Idx) : Merge → Result Merge :=
  rwhileM fuel (λ s, cur_key_eq (cur2 s) (key (cur1 s) l_key_idx)) (stream_right_step l).

Definition stream_left_step (r : list Idx) (s : Merge) : Result Merge :=
  let s := set_self s (foldl (λ j ridx, push j (cur_idx (cur1 s)) ridx) (self s) r) in
  s ← forward1 s;
  if should_flush (self s) || (1 <? num_buffered_batches (cur1 s))
  then s ← do_flush s; Ok (clean1 s) else Ok s.

Definition stream_left (fuel : nat) (r : list Idx) (r_key_idx : Idx) : Merge → Result Merge :=
  rwhileM fuel (λ s, cur_key_eq (cur1 s) (key (cur2 s) r_key_idx)) (stream_left_step r).

(** [Ordering::Equal] *)
Definition join_equal (fuel : nat) (s : Merge) : Result Merge :=
  let l_key_idx := cur_idx (cur1 s) in
  let r_key_idx := cur_idx (cur2 s) in
  s ← forward1 s;
  s ← forward2 s;
  x ← collect fuel l_key_idx r_key_idx (mkCollect s [l_key_idx] [r_key_idx] true true);
  let has_multi_equal := (1 <? length (equal_lindices x)) || (1 <? length (equal_rindices x)) in
  if negb has_multi_equal then
    Ok (set_self (merge x) (push (self (merge x)) l_key_idx r_key_idx))
  else
    s ← push_product (merge x) (equal_lindices x) (equal_rindices x);
    s ← (if r_equal x then stream_right fuel (equal_lindices x) l_key_idx s else Ok s);
    if l_equal x then stream_left fuel (equal_rindices x) r_key_idx s else Ok s.

(** One iteration of the main loop. *)
Definition join_step (fuel : nat) (s : Merge) : Result Merge :=
  s ← (if should_flush (self s) || (1 <? num_buffered_batches (cur1 s))
          || (1 <? num_buffered_batches (cur2 s))
       then s ← do_flush s; Ok (clean2 (clean1 s)) else Ok s);
  o ← compare_cursor (cur1 s) (cur2 s);
  match o with
  | Lt => forward1 (if L_OUTER then set_self s (push (self s) (cur_idx (cur1 s)) (0, 0)) else s)
  | Gt => forward2 (if R_OUTER then set_self s (push (self s) (0, 0) (cur_idx (cur2 s))) else s)
  | Eq => join_equal fuel s
  end.

Definition drain_left_step (s : Merge) : Result Merge :=
  s ← forward1 (set_self s (push (self s) (cur_idx (cur1 s)) (0, 0)));
  if should_flush (self s) then s ← do_flush s; Ok (clean1 s) else Ok s.

Definition drain_left (fuel : nat) : Merge → Result Merge :=
  rwhile fuel (λ s, L_OUTER && negb (finished (cur1 s))) drain_left_step.

Definition drain_right_step (s : Merge) : Result Merge :=
  s ← forward2 (set_self s (push (self s) (0, 0) (cur_idx (cur2 s))));
  if should_flush (self s) then s ← do_flush s; Ok (clean2 s) else Ok s.

Definition drain_right (fuel : nat) : Merge → Result Merge :=
  rwhile fuel (λ s, R_OUTER && negb (finished (cur2 s))) drain_right_step.

Definition both_unfinished (s : Merge) : bool :=
  negb (finished (cur1 s)) && negb (finished (cur2 s)).

Definition join (fuel : nat) (s : Merge) : Result Merge :=
  s ← rwhile fuel both_unfinished (join_step fuel) s;
  s ← (if decide (lindices (self s) ≠ []) then s ← do_flush s; Ok (clean2 (clean1 s)) else Ok s);
  s ← drain_left fuel s;
  s ← drain_right fuel s;
  if decide (lindices (self s) ≠ []) then do_flush s else Ok s.

(** [execute_join]: load the first batch of both sides, then join. *)
Definition execute_join (fuel : nat) (left right : Cursor) : Result FullJoiner :=
  c1 ← forward left;
  c2 ← forward right;
  s ← join fuel (mkMerge full_new c1 c2);
  Ok (self s).

(** ** Specification *)

Local Abbreviation Entry := (K * list V)%type.
Local Abbreviation Row := (list V).
Local Abbreviation matches := (matches (V:=V) key_null).
Context (nl nr : nat).
Context (fe : option (JoinFilter (V:=V) * (list V → option bool))).

Definition row_pairs (r : list Entry) (e : Entry) : list (Row * Row) :=
  (λ f, (e.2, f.2)) <$> filter (λ f, matches e f = true) r.

Definition left_pairs (r : list Entry) (e : Entry) : list (Row * Row) :=
  match row_pairs r e with
  | [] => if L_OUTER then [(e.2, null_row null nr)] else []
  | ps => ps
  end.

Definition right_unmatched (l r : list Entry) : list (Row * Row) :=
  if R_OUTER
  then (λ f, (null_row null nl, f.2)) <$> filter (λ f, existsb (λ e, matches e f) l = false) r
  else [].

(** The joined pairs of rows, before the residual filter. *)
Definition join_pairs (l r : list Entry) : list (Row * Row) :=
  (l ≫= left_pairs r) ++ right_unmatched l r.

Definition out_row (p : Row * Row) : Row :=
  match fe with
  | Some _ => proj_row null (left_ projection) p.1 ++ proj_row null (right_ projection) p.2
  | None => p.1 ++ p.2
  end.

Definition emit (ps : list (Row * Row)) : list Row :=
  out_row <$> filter (λ p, passes null fe p.1 p.2 = true) ps.

Definition join_spec (l r : list Entry) : list Row := emit (join_pairs l r).

(** *** The specification, one step of the merge at a time *)

Local Abbreviation cross g1 g2 := (g1 ≫= λ a, (λ b, (a, b)) <$> g2).

Lemma bind_fmap {A B C} (f : A → B) (g : B → list C) (l : list A) :
  (f <$> l) ≫= g = l ≫= (λ x, g (f x)).
Proof. induction l as [|x l IH]; [done|]. cbn. by rewrite IH. Qed.

Lemma row_pairs_none r e :
  (∀ x, x ∈ r → matches e x = false) → row_pairs r e = [].
Proof. intros Hr. unfold row_pairs. rewrite filter_none; [done|]. intros x Hx. by rewrite Hr. Qed.

Lemma join_pairs_less e l r :
  (∀ x, x ∈ r → matches e x = false) →
  join_pairs (e :: l) r = (if L_OUTER then [(e.2, null_row null nr)] else []) ++ join_pairs l r.
Proof.
  intros Hr. unfold join_pairs. rewrite bind_cons, <- app_assoc. f_equal.
  { unfold left_pairs. by rewrite row_pairs_none. }
  f_equal. unfold right_unmatched. destruct R_OUTER; [|done]. f_equal.
  apply filter_ext_elem. intros x Hx. cbn. by rewrite (Hr x Hx).
Qed.

Lemma join_pairs_greater f l r :
  (∀ x, x ∈ l → matches x f = false) →
  join_pairs l (f :: r) ≡ₚ (if R_OUTER then [(null_row null nl, f.2)] else []) ++ join_pairs l r.
Proof.
  intros Hl. unfold join_pairs.
  rewrite (bind_ext_elem (left_pairs (f :: r)) (left_pairs r)).
  2: { intros x Hx. unfold left_pairs, row_pairs. by rewrite filter_cons, (Hl x Hx). }
  unfold right_unmatched. destruct R_OUTER; [|done].
  rewrite filter_cons, decide_True by (by apply existsb_false). rewrite fmap_cons.
  by rewrite <- Permutation_middle.
Qed.

(** A complete run of one key on both sides contributes the product of the runs. *)
Lemma join_pairs_equal k g1 g2 l r :
  key_null k = false → g1 ≠ [] → g2 ≠ [] →
  Forall (λ e, e.1 = k) g1 → Forall (λ e, e.1 = k) g2 →
  (∀ x, x ∈ l → k ≠ x.1) → (∀ x, x ∈ r → k ≠ x.1) →
  join_pairs (g1 ++ l) (g2 ++ r) = cross (snd <$> g1) (snd <$> g2) ++ join_pairs l r.
Proof.
  intros Hk Hn1 Hn2 H1 H2 Hl Hr. rewrite Forall_forall in H1. rewrite Forall_forall in H2.
  unfold join_pairs. rewrite bind_app, <- app_assoc. f_equal; [|f_equal].
  - unfold left_pairs. rewrite bind_fmap. apply bind_ext_elem. intros e He. cbn.
    unfold row_pairs. rewrite filter_app, filter_all.
    2: { intros f Hf. by apply (matches_key key_null k); auto. }
    rewrite (filter_none _ r), app_nil_r.
    2: { intros f Hf. rewrite matches_ne; [done|]. rewrite (H1 e He). auto. }
    rewrite <- list_fmap_compose. destruct g2; [done|]. done.
  - apply bind_ext_elem. intros e He. unfold left_pairs, row_pairs. rewrite filter_app.
    rewrite (filter_none _ g2); [done|]. intros f Hf. rewrite matches_ne; [done|].
    rewrite (H2 f Hf). intros E. by apply (Hl e He).
  - unfold right_unmatched. destruct R_OUTER; [|done]. rewrite filter_app, filter_none; [cbn; f_equal|].
    + apply filter_ext_elem. intros f Hf. rewrite existsb_app.
      rewrite (proj2 (existsb_false _ g1)); [done|]. intros e He. apply matches_ne.
      rewrite (H1 e He). auto.
    + intros f Hf. rewrite existsb_false. intros Habs. destruct g1 as [|e g1]; [done|].
      assert (matches e f = true) as Ht by (apply (matches_key key_null k); [done|apply H1; set_solver|auto]).
      rewrite (Habs e ltac:(set_solver)) in Ht. done.
Qed.

Lemma join_pairs_nil_r l :
  join_pairs l [] = if L_OUTER then (λ e, (e.2, null_row null nr)) <$> l else [].
Proof.
  unfold join_pairs, right_unmatched. transitivity (l ≫= left_pairs []).
  { destruct R_OUTER; apply app_nil_r. }
  unfold left_pairs, row_pairs. cbn. destruct L_OUTER; by induction l.
Qed.

Lemma join_pairs_nil_l r :
  join_pairs [] r = if R_OUTER then (λ f, (null_row null nl, f.2)) <$> r else [].
Proof.
  unfold join_pairs, right_unmatched. destruct R_OUTER; [|done]. cbn.
  by rewrite filter_all.
Qed.

(** ** Correctness *)

Local Abbreviation idx_row := (idx_row null).
Local Abbreviation rest := (rest null).
Local Abbreviation wf1 := (cursor_wf null key_null nl).
Local Abbreviation wf2 := (cursor_wf null key_null nr).

(** What the plan guarantees of the filter and of the projection. *)
Record smj_ok : Prop := {
  so_filter : join_filter = fst <$> fe;
  so_output : match fe with
    | None => schema projection = nl + nr
    | Some (f, e) => filter_ok null f nl nr e ∧
        schema projection = length (left_ projection) + length (right_ projection) ∧
        Forall (λ i, i < nl) (left_ projection) ∧ Forall (λ i, i < nr) (right_ projection)
    end }.
Context (ok : smj_ok).

Lemma emit_app a b : emit (a ++ b) = emit a ++ emit b.
Proof. unfold emit. by rewrite filter_app, fmap_app. Qed.

#[local] Instance emit_perm : Proper ((≡ₚ) ==> (≡ₚ)) emit.
Proof. intros a b Hab. unfold emit. by rewrite Hab. Qed.

(** The joiner has sent or holds pending exactly the pairs [acc]. *)
Record joiner_inv (j : FullJoiner) (c1 c2 : Cursor) (sent pend : list (Row * Row)) : Prop := {
  ji_left : Forall2 (idx_row c1) (lindices j) (fst <$> pend);
  ji_right : Forall2 (idx_row c2) (rindices j) (snd <$> pend);
  ji_sent : concat (batch_rows null <$> output j) = emit sent;
  ji_rows : output_rows j = length (emit sent) }.

Definition holds (j : FullJoiner) (c1 c2 : Cursor) (acc : list (Row * Row)) : Prop :=
  ∃ sent pend, joiner_inv j c1 c2 sent pend ∧ sent ++ pend ≡ₚ acc.

Lemma holds_extends j c1 c2 c1' c2' acc :
  extends c1 c1' → extends c2 c2' → holds j c1 c2 acc → holds j c1' c2' acc.
Proof.
  intros H1 H2 (sent & pend & [Hl Hr Hs Hn] & Hp). exists sent, pend. split; [|done].
  split; try done.
  - eapply Forall2_impl; [exact Hl|]. intros. by eapply idx_row_extends.
  - eapply Forall2_impl; [exact Hr|]. intros. by eapply idx_row_extends.
Qed.

Lemma holds_perm j c1 c2 acc acc' : acc ≡ₚ acc' → holds j c1 c2 acc → holds j c1 c2 acc'.
Proof. intros Hp (sent & pend & Hj & Hp'). exists sent, pend. by rewrite <- Hp. Qed.

Lemma holds_push j c1 c2 acc l r lr rr :
  idx_row c1 l lr → idx_row c2 r rr → holds j c1 c2 acc → holds (push j l r) c1 c2 (acc ++ [(lr, rr)]).
Proof.
  intros Hl Hr (sent & pend & [Hjl Hjr Hs Hn] & Hp). exists sent, (pend ++ [(lr, rr)]). split.
  - split; try done; unfold push; cbn [lindices rindices]; rewrite fmap_app;
      (apply Forall2_app; [done|]); by apply Forall2_cons.
  - by rewrite app_assoc, Hp.
Qed.

Lemma output_cols_filter lcols rcols pend f e :
  fe = Some (f, e) →
  cols_len lcols (length pend) → cols_len rcols (length pend) →
  length lcols = nl → length rcols = nr →
  (∀ i p, pend !! i = Some p → row_at null lcols i = p.1 ∧ row_at null rcols i = p.2) →
  ∃ cols, output_cols lcols rcols (length pend) = Ok (cols, length (emit pend)) ∧
    length cols = schema projection ∧ cols_len cols (length (emit pend)) ∧
    (∀ i r, emit pend !! i = Some r → row_at null cols i = r).
Proof.
  intros Hfe Hl Hr Hnl Hnr Hrows. unfold output_cols. rewrite (so_filter ok).
  pose proof (so_output ok) as Ho. rewrite Hfe in Ho. destruct Ho as (Hf & Hsch & Hpl & Hpr).
  unfold emit, out_row. rewrite Hfe. cbn [fmap option_fmap option_map fst].
  set (sel := λ i, passes null (Some (f, e)) (row_at null lcols i) (row_at null rcols i)).
  set (selected := (λ i, Some (sel i)) <$> seq 0 (length pend)).
  assert (filter_evaluate f lcols rcols (length pend) = Ok selected) as ->
    by (apply filter_evaluate_ok; rewrite ?Hnl, ?Hnr; done).
  cbn [mbind Result_bind].
  destruct (filter_cols_rows null sel lcols _ Hl) as [Hll Hlr]. fold selected in Hll, Hlr.
  destruct (filter_cols_rows null sel rcols _ Hr) as [Hrl Hrr]. fold selected in Hrl, Hrr.
  set (kept := filter (λ i, sel i = true) (seq 0 (length pend))) in *.
  assert (filter (λ p, passes null (Some (f, e)) p.1 p.2 = true) pend
    = (λ i, nth i pend ([], [])) <$> kept) as Hkept.
  { rewrite (filter_nth (λ p, passes null (Some (f, e)) p.1 p.2) pend ([], [])). f_equal.
    apply filter_ext_elem. intros i Hi%elem_of_seq.
    destruct (lookup_lt_is_Some_2 pend i) as [p Hp]; [lia|].
    rewrite (nth_lookup_Some _ _ _ _ Hp). unfold sel. destruct (Hrows i p Hp) as [-> ->]. done. }
  rewrite Hkept. rewrite !length_fmap.
  assert (length (filter_col selected <$> lcols) = nl) as Hnl' by (by rewrite length_fmap).
  assert (length (filter_col selected <$> rcols) = nr) as Hnr' by (by rewrite length_fmap).
  rewrite <- Hnl' in Hpl. rewrite <- Hnr' in Hpr.
  destruct (project_ok null _ _ _ Hpl Hll) as (cl & Ecl & Hcl & Hlcl & Hrcl).
  destruct (project_ok null _ _ _ Hpr Hrl) as (cr & Ecr & Hcr & Hlcr & Hrcr).
  unfold project_left, project_right. rewrite Ecl. cbn [mbind Result_bind]. rewrite Ecr.
  cbn [mbind Result_bind]. eexists. unfold selected at 1. rewrite count_selected. fold kept.
  split; [done|]. split_and!; [rewrite length_app; lia|by apply Forall_app|].
  intros j r Hj. apply list_lookup_fmap_Some in Hj as (p & -> & Hj).
  apply list_lookup_fmap_Some in Hj as (i & -> & Hj).
  rewrite row_at_app, Hrcl, Hrcr, (Hlr j i Hj), (Hrr j i Hj).
  apply list_elem_of_lookup_2, list_elem_of_filter in Hj as [_ Hi%elem_of_seq].
  destruct (lookup_lt_is_Some_2 pend i) as [p Hp]; [lia|].
  rewrite (nth_lookup_Some _ _ _ _ Hp). destruct (Hrows i p Hp) as [-> ->]. done.
Qed.

(** The columns of a flushed batch hold the rows [emit] makes of the pending pairs. *)
Lemma output_cols_ok lcols rcols pend :
  cols_len lcols (length pend) → cols_len rcols (length pend) →
  length lcols = nl → length rcols = nr →
  (∀ i p, pend !! i = Some p → row_at null lcols i = p.1 ∧ row_at null rcols i = p.2) →
  ∃ cols, output_cols lcols rcols (length pend) = Ok (cols, length (emit pend)) ∧
    length cols = schema projection ∧ cols_len cols (length (emit pend)) ∧
    (∀ i r, emit pend !! i = Some r → row_at null cols i = r).
Proof.
  intros Hl Hr Hnl Hnr Hrows.
  assert (fe = None ∨ ∃ f e, fe = Some (f, e)) as [Hfe|(f & e & Hfe)]
    by (destruct fe as [[]|]; eauto).
  2: by eapply output_cols_filter.
  unfold output_cols. rewrite (so_filter ok). pose proof (so_output ok) as Ho. rewrite Hfe in Ho.
  unfold emit, out_row. rewrite Hfe. cbn [fmap option_fmap option_map].
  rewrite filter_all by done. eexists. split; [by rewrite length_fmap|]. rewrite length_app, length_fmap.
  split_and!; [lia|by apply Forall_app|]. intros i r Hi.
  apply list_lookup_fmap_Some in Hi as (p & -> & Hp). rewrite row_at_app.
  destruct (Hrows i p Hp) as [-> ->]. done.
Qed.

(** [flush] sends every pending pair; nothing pending refers to a batch afterwards. *)
Lemma flush_ok j c1 c2 acc :
  wf1 c1 → wf2 c2 → holds j c1 c2 acc →
  ∃ j', flush j c1 c2 = Ok j' ∧ lindices j' = [] ∧ ∀ c1' c2', holds j' c1' c2' acc.
Proof.
  intros H1 H2 (sent & pend & [Hl Hr Hs Hn] & Hp). unfold flush.
  pose proof (Forall2_length _ _ _ Hl) as Hll. pose proof (Forall2_length _ _ _ Hr) as Hrl.
  rewrite length_fmap in Hll, Hrl. rewrite bool_decide_eq_true_2 by congruence.
  cbn [rassert mbind Result_bind].
  destruct (batch_interleave_ok null key_null nl c1 _ _ (cw_base _ _ _ _ H1) Hl)
    as (lb & -> & Hlok & Hlrows & Hlcols & Hlr).
  destruct (batch_interleave_ok null key_null nr c2 _ _ (cw_base _ _ _ _ H2) Hr)
    as (rb & -> & Hrok & Hrrows & Hrcols & Hrr).
  cbn [mbind Result_bind]. rewrite length_fmap in Hlrows, Hrrows.
  destruct (output_cols_ok (columns lb) (columns rb) pend) as (cols & Hout & Hcs & Hcl & Hcr).
  { by rewrite <- Hlrows. } { by rewrite <- Hrrows. } { done. } { done. }
  { intros i p Hi. split; [apply Hlr|apply Hrr]; by rewrite list_lookup_fmap, Hi. }
  rewrite Hll, Hout. cbn [mbind Result_bind]. unfold try_new_batch. rewrite decide_True by done.
  cbn [mbind Result_bind num_rows].
  pose proof (batch_rows_list null id (emit pend) cols Hcr) as Hrows.
  rewrite list_fmap_id in Hrows. case_decide as Hpos.
  - eexists. split_and!; [done..|]. intros c1' c2'. exists (sent ++ pend), []. rewrite app_nil_r.
    split; [|done]. split; cbn [lindices rindices output output_rows]; [constructor..| |].
    + by rewrite fmap_app, concat_app, Hs, emit_app, fmap_cons, Hrows, concat_cons, app_nil_r.
    + by rewrite Hn, emit_app, length_app.
  - eexists. split_and!; [done..|]. intros c1' c2'. exists (sent ++ pend), []. rewrite app_nil_r.
    assert (emit pend = []) as He by (apply length_zero_iff_nil; lia).
    split; [|done]. split; cbn [lindices rindices output output_rows]; [constructor..| |];
      by rewrite emit_app, He, app_nil_r.
Qed.

Record merge_inv (s : Merge) (acc : list (Row * Row)) : Prop := {
  mi_1 : wf1 (cur1 s); mi_2 : wf2 (cur2 s); mi_holds : holds (self s) (cur1 s) (cur2 s) acc }.

Lemma merge_inv_perm s acc acc' : acc ≡ₚ acc' → merge_inv s acc → merge_inv s acc'.
Proof. intros Hp [H1 H2 Hj]. split; [done..|]. by eapply holds_perm. Qed.

Lemma merge_inv_push s acc l r lr rr :
  idx_row (cur1 s) l lr → idx_row (cur2 s) r rr → merge_inv s acc →
  merge_inv (set_self s (push (self s) l r)) (acc ++ [(lr, rr)]).
Proof. intros Hl Hr [H1 H2 Hj]. split; [done..|]. by apply holds_push. Qed.

Lemma do_flush_ok s acc : merge_inv s acc →
  ∃ j, do_flush s = Ok (set_self s j) ∧ lindices j = [] ∧ ∀ c1 c2, holds j c1 c2 acc.
Proof.
  intros [H1 H2 Hj]. destruct (flush_ok _ _ _ _ H1 H2 Hj) as (j & Hf & Hn & Hall).
  exists j. unfold do_flush. by rewrite Hf.
Qed.

Lemma forward1_ok s acc e es :
  merge_inv s acc → rest (cur1 s) = e :: es →
  ∃ c, forward1 s = Ok (mkMerge (self s) c (cur2 s)) ∧
    merge_inv (mkMerge (self s) c (cur2 s)) acc ∧ rest c = es ∧ extends (cur1 s) c.
Proof.
  intros [H1 H2 Hj] Hr. destruct (cur_forward_ok null key_null nl _ _ _ H1 Hr) as (c & Hc & Hwf & Hr' & Hx).
  exists c. unfold forward1. rewrite Hc. split_and!; try done. split; [done..|].
  eapply holds_extends; [done|apply extends_refl|done].
Qed.

Lemma forward2_ok s acc e es :
  merge_inv s acc → rest (cur2 s) = e :: es →
  ∃ c, forward2 s = Ok (mkMerge (self s) (cur1 s) c) ∧
    merge_inv (mkMerge (self s) (cur1 s) c) acc ∧ rest c = es ∧ extends (cur2 s) c.
Proof.
  intros [H1 H2 Hj] Hr. destruct (cur_forward_ok null key_null nr _ _ _ H2 Hr) as (c & Hc & Hwf & Hr' & Hx).
  exists c. unfold forward2. rewrite Hc. split_and!; try done. split; [done..|].
  eapply holds_extends; [apply extends_refl|done..].
Qed.

(** A flush when [b] holds, followed by cleaning one or both cursors, keeps the
    pairs and the views. *)
Lemma flush_clean_ok (b : bool) (cl1 cl2 : Merge → Merge) s acc :
  merge_inv s acc → (cl1 = clean1 ∨ cl1 = id) → (cl2 = clean2 ∨ cl2 = id) →
  ∃ s', (if b then s ← do_flush s; Ok (cl2 (cl1 s)) else Ok s) = Ok s' ∧ merge_inv s' acc ∧
    rest (cur1 s') = rest (cur1 s) ∧ rest (cur2 s') = rest (cur2 s) ∧
    (cl1 = id → cur1 s' = cur1 s) ∧ (cl2 = id → cur2 s' = cur2 s) ∧
    (b = true → lindices (self s') = []).
Proof.
  intros Hs Hc1 Hc2. destruct b; [|by exists s].
  destruct (do_flush_ok s acc Hs) as (j & -> & Hn & Hj). cbn [mbind Result_bind].
  eexists. split; [done|]. destruct Hs as [H1 H2 _].
  destruct (clean_ok null key_null nl _ H1) as [H1' Hr1].
  destruct (clean_ok null key_null nr _ H2) as [H2' Hr2].
  destruct Hc1 as [->| ->], Hc2 as [->| ->]; unfold clean1, clean2, set_self, id; cbn [self cur1 cur2];
    (split; [split; cbn [self cur1 cur2]; auto|]); split_and!; try done; intros E;
    first [exact (f_equal (λ f, cur1 (f s)) E)|exact (f_equal (λ f, cur2 (f s)) E)|done].
Qed.

(** *** Pushing many pairs *)

Definition pair_row (s : Merge) (p : Idx * Idx) (q : Row * Row) : Prop :=
  idx_row (cur1 s) p.1 q.1 ∧ idx_row (cur2 s) p.2 q.2.

Lemma push_all_ok s acc ps qs :
  Forall2 (pair_row s) ps qs → merge_inv s acc →
  merge_inv (set_self s (foldl (λ j p, push j p.1 p.2) (self s) ps)) (acc ++ qs).
Proof.
  revert s acc qs. induction ps as [|p ps IH]; intros s acc qs Hps Hs.
  - apply Forall2_nil_inv_l in Hps as ->. rewrite app_nil_r. by destruct s.
  - apply Forall2_cons_inv_l in Hps as ([lr rr] & qs' & [Hl Hr] & Hps & ->).
    replace (acc ++ (lr, rr) :: qs') with ((acc ++ [(lr, rr)]) ++ qs') by (by rewrite <- app_assoc).
    apply (IH (set_self s (push (self s) p.1 p.2))); [done|]. by apply merge_inv_push.
Qed.

Lemma product_rows s el er rows1 rows2 :
  Forall2 (idx_row (cur1 s)) el rows1 → Forall2 (idx_row (cur2 s)) er rows2 →
  Forall2 (pair_row s) (product el er) (cross rows1 rows2).
Proof.
  intros H1 H2. unfold product. induction H1 as [|l lr el rows1 Hl _ IH]; [constructor|].
  rewrite !bind_cons. apply Forall2_app; [|done]. apply Forall2_fmap.
  eapply Forall2_impl; [exact H2|]. done.
Qed.

Lemma push_product_ok s acc el er rows1 rows2 :
  merge_inv s acc → Forall2 (idx_row (cur1 s)) el rows1 → Forall2 (idx_row (cur2 s)) er rows2 →
  ∃ s', push_product s el er = Ok s' ∧ merge_inv s' (acc ++ cross rows1 rows2) ∧
    cur1 s' = cur1 s ∧ cur2 s' = cur2 s.
Proof.
  intros Hs H1 H2. pose proof (product_rows s el er _ _ H1 H2) as Hps. unfold push_product.
  destruct (has_enough_room _ _); [eexists; split; [done|]; by auto using push_all_ok|].
  revert Hps. generalize (product el er) as ps. generalize (cross rows1 rows2) as qs.
  clear H1 H2. intros qs ps. revert s acc qs Hs. induction ps as [|p ps IH]; intros s acc qs Hs Hps.
  - apply Forall2_nil_inv_l in Hps as ->. rewrite app_nil_r. by exists s.
  - apply Forall2_cons_inv_l in Hps as ([lr rr] & qs' & [Hl Hr] & Hps & ->).
    cbn [rfoldM]. pose proof (merge_inv_push _ _ _ _ _ _ Hl Hr Hs) as Hs1.
    destruct (flush_clean_ok (should_flush (self (set_self s (push (self s) p.1 p.2)))) id id _ _ Hs1)
      as (s' & Hf & Hs' & _ & _ & Hc1 & Hc2 & _); [auto..|].
    specialize (Hc1 eq_refl). specialize (Hc2 eq_refl).
    assert (∀ x, (if should_flush (self x) then do_flush x else Ok x) =
      (if should_flush (self x) then s ← do_flush x; Ok (id (id s)) else Ok x)) as Hid.
    { intros x. destruct (should_flush (self x)); [|done]. by destruct (do_flush x). }
    rewrite Hid, Hf. cbn [mbind Result_bind].
    destruct (IH s' _ qs' Hs') as (s'' & -> & Hs'' & Hc1' & Hc2').
    { eapply Forall2_impl; [exact Hps|]. intros ? ? []. split; by rewrite ?Hc1, ?Hc2. }
    exists s''. split; [done|]. rewrite <- app_assoc in Hs''. split; [done|].
    rewrite Hc1', Hc2', Hc1, Hc2. done.
Qed.

(** *** Streaming the longer side *)

Lemma cross_snoc {A B} (a : list A) (b : list B) x :
  cross a (b ++ [x]) ≡ₚ cross a b ++ ((λ y, (y, x)) <$> a).
Proof.
  induction a as [|y a IH]; [done|]. rewrite !bind_cons, IH, fmap_app. cbn.
  rewrite <- !app_assoc. f_equiv. cbn. by rewrite Permutation_middle.
Qed.

Lemma stream_right_step_ok s acc el rows1 k r es :
  merge_inv s acc → Forall2 (idx_row (cur1 s)) el rows1 → rest (cur2 s) = (k, r) :: es →
  ∃ s', stream_right_step el s = Ok s' ∧ merge_inv s' (acc ++ ((λ a, (a, r)) <$> rows1)) ∧
    cur1 s' = cur1 s ∧ rest (cur2 s') = es.
Proof.
  intros Hs Hel Er. unfold stream_right_step.
  destruct (current_row null key_null nr _ _ _ _ (mi_2 _ _ Hs) Er) as (_ & _ & Hrow & _).
  pose proof (push_all_ok s acc ((λ l, (l, cur_idx (cur2 s))) <$> el) ((λ a, (a, r)) <$> rows1)) as Hpush.
  rewrite foldl_fmap in Hpush. cbn [fst snd] in Hpush.
  edestruct forward2_ok as (c & -> & Hs1 & Hrc & _); [apply Hpush; [|exact Hs]|exact Er|].
  { apply Forall2_fmap. eapply Forall2_impl; [exact Hel|]. done. }
  cbn [mbind Result_bind].
  edestruct (flush_clean_ok) as (s2 & Hf & Hs2 & _ & Hr2 & Hid & _ & _);
    [exact Hs1|right; reflexivity|left; reflexivity|].
  unfold id in Hf. rewrite Hf. exists s2. split_and!; [done..| |by rewrite Hr2].
  by rewrite Hid.
Qed.

Lemma stream_right_ok fuel s acc el rows1 g2 lk k :
  merge_inv s (acc ++ cross rows1 (snd <$> g2)) →
  Forall2 (idx_row (cur1 s)) el rows1 → key (cur1 s) lk = Ok k → length (rest (cur2 s)) ≤ fuel →
  Forall (λ e, e.1 = k) g2 →
  ∃ s' g, stream_right fuel el lk s = Ok s' ∧ merge_inv s' (acc ++ cross rows1 (snd <$> g)) ∧
    cur1 s' = cur1 s ∧ g2 ++ rest (cur2 s) = g ++ rest (cur2 s') ∧
    Forall (λ e, e.1 = k) g ∧ no_head k (rest (cur2 s')).
Proof.
  intros Hs Hel Hk Hfuel Hg2.
  destruct (rwhileM_inv (λ s', ∃ g, merge_inv s' (acc ++ cross rows1 (snd <$> g)) ∧
      cur1 s' = cur1 s ∧ g2 ++ rest (cur2 s) = g ++ rest (cur2 s') ∧ Forall (λ e, e.1 = k) g)
      (λ s', length (rest (cur2 s'))) (λ s, cur_key_eq (cur2 s) (key (cur1 s) lk))
      (stream_right_step el) fuel s) as (s' & Hw & (g & Hs' & Hc1 & Hr & Hg) & Hend);
    [by exists g2|exact Hfuel| |].
  - intros s' (g & Hs' & Hc1 & Hr & Hg). rewrite Hc1, Hk.
    rewrite (cur_key_eq_ok null key_null nr) by apply Hs'. eexists. split; [done|]. intros Hb.
    destruct (rest (cur2 s')) as [|[k' r] es] eqn:Er; [done|]. apply bool_decide_eq_true in Hb as ->.
    rewrite <- Hc1 in Hel.
    destruct (stream_right_step_ok s' _ el rows1 k r es Hs' Hel Er) as (s2 & -> & Hs2 & Hc2 & Hr2).
    exists s2. split; [done|]. rewrite Hr2. split; [|cbn; lia]. exists (g ++ [(k, r)]). split_and!.
    + eapply merge_inv_perm; [|exact Hs2]. by rewrite fmap_app, (cross_snoc rows1 _ r), app_assoc.
    + by rewrite Hc2.
    + by rewrite Hr, <- app_assoc.
    + apply Forall_app. split; [done|]. by apply Forall_singleton.
  - exists s', g. split_and!; try done. rewrite Hc1, Hk in Hend.
    rewrite (cur_key_eq_ok null key_null nr) in Hend by apply Hs'.
    apply no_head_eq. by injection Hend.
Qed.

Lemma cross_snoc_l {A B} (a : list A) (b : list B) x :
  cross (a ++ [x]) b = cross a b ++ ((λ y, (x, y)) <$> b).
Proof. rewrite bind_app. by rewrite bind_cons, app_nil_r. Qed.

Lemma stream_left_step_ok s acc er rows2 k r es :
  merge_inv s acc → Forall2 (idx_row (cur2 s)) er rows2 → rest (cur1 s) = (k, r) :: es →
  ∃ s', stream_left_step er s = Ok s' ∧ merge_inv s' (acc ++ ((λ b, (r, b)) <$> rows2)) ∧
    cur2 s' = cur2 s ∧ rest (cur1 s') = es.
Proof.
  intros Hs Her Er. unfold stream_left_step.
  destruct (current_row null key_null nl _ _ _ _ (mi_1 _ _ Hs) Er) as (_ & _ & Hrow & _).
  pose proof (push_all_ok s acc ((λ r, (cur_idx (cur1 s), r)) <$> er) ((λ b, (r, b)) <$> rows2)) as Hpush.
  rewrite foldl_fmap in Hpush. cbn [fst snd] in Hpush.
  edestruct forward1_ok as (c & -> & Hs1 & Hrc & _); [apply Hpush; [|exact Hs]|exact Er|].
  { apply Forall2_fmap. eapply Forall2_impl; [exact Her|]. done. }
  cbn [mbind Result_bind].
  edestruct (flush_clean_ok) as (s2 & Hf & Hs2 & Hr2 & _ & _ & Hid & _);
    [exact Hs1|left; reflexivity|right; reflexivity|].
  unfold id in Hf. rewrite Hf. exists s2. split_and!; [done..| |by rewrite Hr2].
  by rewrite Hid.
Qed.

Lemma stream_left_ok fuel s acc er rows2 g1 rk k :
  merge_inv s (acc ++ cross (snd <$> g1) rows2) →
  Forall2 (idx_row (cur2 s)) er rows2 → key (cur2 s) rk = Ok k → length (rest (cur1 s)) ≤ fuel →
  Forall (λ e, e.1 = k) g1 →
  ∃ s' g, stream_left fuel er rk s = Ok s' ∧ merge_inv s' (acc ++ cross (snd <$> g) rows2) ∧
    cur2 s' = cur2 s ∧ g1 ++ rest (cur1 s) = g ++ rest (cur1 s') ∧
    Forall (λ e, e.1 = k) g ∧ no_head k (rest (cur1 s')).
Proof.
  intros Hs Her Hk Hfuel Hg1.
  destruct (rwhileM_inv (λ s', ∃ g, merge_inv s' (acc ++ cross (snd <$> g) rows2) ∧
      cur2 s' = cur2 s ∧ g1 ++ rest (cur1 s) = g ++ rest (cur1 s') ∧ Forall (λ e, e.1 = k) g)
      (λ s', length (rest (cur1 s'))) (λ s, cur_key_eq (cur1 s) (key (cur2 s) rk))
      (stream_left_step er) fuel s) as (s' & Hw & (g & Hs' & Hc2 & Hr & Hg) & Hend);
    [by exists g1|exact Hfuel| |].
  - intros s' (g & Hs' & Hc2 & Hr & Hg). rewrite Hc2, Hk.
    rewrite (cur_key_eq_ok null key_null nl) by apply Hs'. eexists. split; [done|]. intros Hb.
    destruct (rest (cur1 s')) as [|[k' r] es] eqn:Er; [done|]. apply bool_decide_eq_true in Hb as ->.
    rewrite <- Hc2 in Her.
    destruct (stream_left_step_ok s' _ er rows2 k r es Hs' Her Er) as (s2 & -> & Hs2 & Hc2' & Hr2).
    exists s2. split; [done|]. rewrite Hr2. split; [|cbn; lia]. exists (g ++ [(k, r)]). split_and!.
    + by rewrite fmap_app, (cross_snoc_l _ rows2 r), app_assoc.
    + by rewrite Hc2'.
    + by rewrite Hr, <- app_assoc.
    + apply Forall_app. split; [done|]. by apply Forall_singleton.
  - exists s', g. split_and!; try done. rewrite Hc2, Hk in Hend.
    rewrite (cur_key_eq_ok null key_null nl) in Hend by apply Hs'.
    apply no_head_eq. by injection Hend.
Qed.

(** *** Collecting the rows of one key *)

(** Both sides have collected a run of key [k]; a side that is no longer equal has
    reached the end of its run. *)
Record collect_inv (l0 r0 : list Entry) (k : K) (lk rk : Idx) (acc : list (Row * Row))
    (g1 g2 : list Entry) (x : Collect) : Prop := {
  ci_merge : merge_inv (merge x) acc;
  ci_lk : key (cur1 (merge x)) lk = Ok k;
  ci_rk : key (cur2 (merge x)) rk = Ok k;
  ci_l : Forall2 (idx_row (cur1 (merge x))) (equal_lindices x) (snd <$> g1);
  ci_r : Forall2 (idx_row (cur2 (merge x))) (equal_rindices x) (snd <$> g2);
  ci_g1 : Forall (λ e, e.1 = k) g1;
  ci_g2 : Forall (λ e, e.1 = k) g2;
  ci_l0 : l0 = g1 ++ rest (cur1 (merge x));
  ci_r0 : r0 = g2 ++ rest (cur2 (merge x));
  ci_hd1 : equal_lindices x !! 0 = Some lk;
  ci_hd2 : equal_rindices x !! 0 = Some rk;
  ci_end1 : l_equal x = false → no_head k (rest (cur1 (merge x)));
  ci_end2 : r_equal x = false → no_head k (rest (cur2 (merge x))) }.

Lemma collect_left_ok l0 r0 k lk rk acc g1 g2 x :
  collect_inv l0 r0 k lk rk acc g1 g2 x →
  ∃ x' g1', collect_left lk x = Ok x' ∧ collect_inv l0 r0 k lk rk acc g1' g2 x' ∧
    r_equal x' = r_equal x ∧ equal_rindices x' = equal_rindices x ∧
    cur2 (merge x') = cur2 (merge x) ∧
    (l_equal x' = true → 1 < length (equal_lindices x') ∧
       length (rest (cur1 (merge x'))) < length (rest (cur1 (merge x)))).
Proof.
  intros [Hm Hlk Hrk Hl Hr Hg1 Hg2 Hl0 Hr0 Hh1 Hh2 He1 He2]. unfold collect_left.
  rewrite Hlk, (cur_key_eq_ok null key_null nl) by apply Hm. cbn [mbind Result_bind].
  destruct (rest (cur1 (merge x))) as [|[k' r] es] eqn:Er;
    [|destruct (bool_decide (k' = k)) eqn:Ek].
  - eexists _, g1. split; [done|]. split; [|done].
    by split; cbn [merge equal_lindices equal_rindices l_equal r_equal]; rewrite ?Er.
  - apply bool_decide_eq_true in Ek as ->.
    destruct (current_row null key_null nl _ _ _ _ (mi_1 _ _ Hm) Er) as (_ & _ & Hrow & _).
    destruct (forward1_ok _ _ _ _ Hm Er) as (c & -> & Hm' & Hrc & Hx). cbn [mbind Result_bind].
    eexists _, (g1 ++ [(k, r)]). split; [done|].
    cbn [merge equal_lindices equal_rindices l_equal r_equal cur1 cur2]. split; [|split_and!; try done].
    + split; cbn [merge equal_lindices equal_rindices l_equal r_equal cur1 cur2]; try done.
      * by eapply key_extends.
      * rewrite fmap_app. apply Forall2_app.
        -- eapply Forall2_impl; [exact Hl|]. intros. by eapply idx_row_extends.
        -- apply Forall2_cons. split; [by eapply idx_row_extends|constructor].
      * apply Forall_app. split; [done|]. by apply Forall_singleton.
      * by rewrite Hrc, <- app_assoc.
      * rewrite lookup_app_l; [done|]. by eapply lookup_lt_Some.
    + intros _. apply lookup_lt_Some in Hh1. rewrite length_app, Hrc. cbn. lia.
  - eexists _, g1. split; [done|]. split; [|done].
    split; cbn [merge equal_lindices equal_rindices l_equal r_equal]; rewrite ?Er; try done.
    intros _. cbn. by apply bool_decide_eq_false in Ek.
Qed.

Lemma collect_right_ok l0 r0 k lk rk acc g1 g2 x :
  collect_inv l0 r0 k lk rk acc g1 g2 x →
  ∃ x' g2', collect_right rk x = Ok x' ∧ collect_inv l0 r0 k lk rk acc g1 g2' x' ∧
    l_equal x' = l_equal x ∧ equal_lindices x' = equal_lindices x ∧
    cur1 (merge x') = cur1 (merge x) ∧
    (r_equal x' = true → 1 < length (equal_rindices x')).
Proof.
  intros [Hm Hlk Hrk Hl Hr Hg1 Hg2 Hl0 Hr0 Hh1 Hh2 He1 He2]. unfold collect_right.
  rewrite Hrk, (cur_key_eq_ok null key_null nr) by apply Hm. cbn [mbind Result_bind].
  destruct (rest (cur2 (merge x))) as [|[k' r] es] eqn:Er;
    [|destruct (bool_decide (k' = k)) eqn:Ek].
  - eexists _, g2. split; [done|]. split; [|done].
    by split; cbn [merge equal_lindices equal_rindices l_equal r_equal]; rewrite ?Er.
  - apply bool_decide_eq_true in Ek as ->.
    destruct (current_row null key_null nr _ _ _ _ (mi_2 _ _ Hm) Er) as (_ & _ & Hrow & _).
    destruct (forward2_ok _ _ _ _ Hm Er) as (c & -> & Hm' & Hrc & Hx). cbn [mbind Result_bind].
    eexists _, (g2 ++ [(k, r)]). split; [done|].
    cbn [merge equal_lindices equal_rindices l_equal r_equal cur1 cur2]. split; [|split_and!; try done].
    + split; cbn [merge equal_lindices equal_rindices l_equal r_equal cur1 cur2]; try done.
      * by eapply key_extends.
      * rewrite fmap_app. apply Forall2_app.
        -- eapply Forall2_impl; [exact Hr|]. intros. by eapply idx_row_extends.
        -- apply Forall2_cons. split; [by eapply idx_row_extends|constructor].
      * apply Forall_app. split; [done|]. by apply Forall_singleton.
      * by rewrite Hrc, <- app_assoc.
      * rewrite lookup_app_l; [done|]. by eapply lookup_lt_Some.
    + intros _. apply lookup_lt_Some in Hh2. rewrite length_app. cbn. lia.
  - eexists _, g2. split; [done|]. split; [|done].
    split; cbn [merge equal_lindices equal_rindices l_equal r_equal]; rewrite ?Er; try done.
    intros _. cbn. by apply bool_decide_eq_false in Ek.
Qed.

(** The loop ends with at most one side still inside its run, and a side that is
    still inside has more than one row. *)
Lemma collect_ok fuel l0 r0 k lk rk acc g1 g2 x :
  collect_inv l0 r0 k lk rk acc g1 g2 x → l_equal x = true → r_equal x = true →
  length (rest (cur1 (merge x))) < fuel →
  ∃ x' g1' g2', collect fuel lk rk x = Ok x' ∧ collect_inv l0 r0 k lk rk acc g1' g2' x' ∧
    l_equal x' && r_equal x' = false ∧
    (l_equal x' = true → 1 < length (equal_lindices x')) ∧
    (r_equal x' = true → 1 < length (equal_rindices x')).
Proof.
  intros Hx Hle Hre Hfuel.
  destruct (rwhile_inv (λ x, (∃ g1 g2, collect_inv l0 r0 k lk rk acc g1 g2 x) ∧
      (l_equal x && r_equal x = true ∨
       (l_equal x = true → 1 < length (equal_lindices x)) ∧
       (r_equal x = true → 1 < length (equal_rindices x))))
    (λ x, if l_equal x && r_equal x then S (length (rest (cur1 (merge x)))) else 0)
    (λ x, l_equal x && r_equal x) (collect_step lk rk) fuel x)
    as (x' & Hw & ((g1' & g2' & Hx') & Hor) & Hend).
  - split; [eauto|]. left. by rewrite Hle, Hre.
  - rewrite Hle, Hre. cbn. lia.
  - clear x g1 g2 Hx Hle Hre Hfuel. intros x [(g1 & g2 & Hx) _] Hb.
    apply andb_true_iff in Hb as [Hle Hre]. unfold collect_step. rewrite Hle.
    destruct (collect_left_ok _ _ _ _ _ _ _ _ _ Hx) as (x1 & g1' & -> & Hx1 & Hre1 & Her1 & Hc1 & Hl1).
    cbn [mbind Result_bind]. rewrite Hre1, Hre.
    destruct (collect_right_ok _ _ _ _ _ _ _ _ _ Hx1) as (x2 & g2' & -> & Hx2 & Hle2 & Hel2 & Hc2 & Hr2).
    exists x2. split; [done|]. cbn [andb]. split_and!; [eauto| |].
    + right. split; [|done]. rewrite Hle2, Hel2. intros Ht. by apply Hl1.
    + rewrite Hle2, Hc2. destruct (l_equal x1) eqn:E; cbn [andb]; [|lia].
      specialize (Hl1 eq_refl). destruct (r_equal x2); lia.
  - exists x', g1', g2'. split_and!; try done; destruct Hor as [Hor|[? ?]]; congruence || done.
Qed.

(** *** The runs of one key are joined in full *)

Lemma collect_start s acc k r1 l r2 r :
  merge_inv s acc → rest (cur1 s) = (k, r1) :: l → rest (cur2 s) = (k, r2) :: r →
  ∃ c1 c2, forward1 s = Ok (mkMerge (self s) c1 (cur2 s)) ∧
    forward2 (mkMerge (self s) c1 (cur2 s)) = Ok (mkMerge (self s) c1 c2) ∧ rest c1 = l ∧
    collect_inv (rest (cur1 s)) (rest (cur2 s)) k (cur_idx (cur1 s)) (cur_idx (cur2 s)) acc
      [(k, r1)] [(k, r2)]
      (mkCollect (mkMerge (self s) c1 c2) [cur_idx (cur1 s)] [cur_idx (cur2 s)] true true).
Proof.
  intros Hs E1 E2.
  destruct (current_row null key_null nl _ _ _ _ (mi_1 _ _ Hs) E1) as (_ & Hk1 & Hrow1 & _).
  destruct (current_row null key_null nr _ _ _ _ (mi_2 _ _ Hs) E2) as (_ & Hk2 & Hrow2 & _).
  destruct (forward1_ok _ _ _ _ Hs E1) as (c1 & Hf1 & Hs1 & Hr1 & Hx1).
  destruct (forward2_ok _ _ _ _ Hs1 E2) as (c2 & Hf2 & Hs2 & Hr2 & Hx2). cbn [self cur1 cur2] in *.
  exists c1, c2. split_and!; [done..|].
  split; cbn [merge equal_lindices equal_rindices l_equal r_equal cur1 cur2]; try done.
  - by eapply key_extends.
  - by eapply key_extends.
  - apply Forall2_cons. split; [by eapply idx_row_extends|constructor].
  - apply Forall2_cons. split; [by eapply idx_row_extends|constructor].
  - by apply Forall_singleton.
  - by apply Forall_singleton.
  - by rewrite Hr1.
  - by rewrite Hr2.
Qed.

(** [s'] has joined the runs [g1] and [g2] of key [k]. *)
Record joined_runs (s s' : Merge) (acc : list (Row * Row)) (k : K) (g1 g2 : list Entry) : Prop := {
  jr_inv : merge_inv s' (acc ++ cross (snd <$> g1) (snd <$> g2));
  jr_1 : rest (cur1 s) = g1 ++ rest (cur1 s');
  jr_2 : rest (cur2 s) = g2 ++ rest (cur2 s');
  jr_g1 : Forall (λ e, e.1 = k) g1;
  jr_g2 : Forall (λ e, e.1 = k) g2;
  jr_end1 : no_head k (rest (cur1 s'));
  jr_end2 : no_head k (rest (cur2 s')) }.

Lemma stream_runs_ok fuel s acc k lk rk g1 g2 x :
  collect_inv (rest (cur1 s)) (rest (cur2 s)) k lk rk acc g1 g2 x →
  l_equal x && r_equal x = false →
  length (rest (cur1 s)) ≤ fuel → length (rest (cur2 s)) ≤ fuel →
  ∃ s' g1' g2',
    (s ← push_product (merge x) (equal_lindices x) (equal_rindices x);
     s ← (if r_equal x then stream_right fuel (equal_lindices x) lk s else Ok s);
     if l_equal x then stream_left fuel (equal_rindices x) rk s else Ok s) = Ok s' ∧
    joined_runs s s' acc k g1' g2'.
Proof.
  intros [Hm Hlk Hrk Hl Hr Hg1 Hg2 Hl0 Hr0 Hh1 Hh2 He1 He2] Hne Hf1 Hf2.
  rewrite Hl0, length_app in Hf1. rewrite Hr0, length_app in Hf2.
  destruct (push_product_ok _ _ _ _ _ _ Hm Hl Hr) as (s1 & -> & Hs1 & Hc1 & Hc2).
  cbn [mbind Result_bind]. rewrite <- Hc1, <- Hc2 in *.
  destruct (r_equal x) eqn:Ere.
  - rewrite andb_true_r in Hne. rewrite Hne in *.
    destruct (stream_right_ok fuel s1 acc _ _ g2 lk k Hs1 Hl Hlk) as (s2 & g & -> & Hs2 & Hc & Hrest & Hg & Hend);
      [lia|done|]. cbn [mbind Result_bind].
    exists s2, g1, g. split; [done|]. split; try done; rewrite ?Hc; try done; [|by apply He1].
    by rewrite Hr0.
  - destruct (l_equal x) eqn:Ele; cbn [mbind Result_bind].
    + destruct (stream_left_ok fuel s1 acc _ _ g1 rk k Hs1 Hr Hrk) as (s2 & g & -> & Hs2 & Hc & Hrest & Hg & Hend);
        [lia|done|].
      exists s2, g, g2. split; [done|]. split; try done; rewrite ?Hc; try done; [|by apply He2].
      by rewrite Hl0.
    + exists s1, g1, g2. split; [done|]. split; auto.
Qed.

Lemma join_equal_ok fuel s acc k r1 l r2 r :
  merge_inv s acc → rest (cur1 s) = (k, r1) :: l → rest (cur2 s) = (k, r2) :: r →
  length (rest (cur1 s)) ≤ fuel → length (rest (cur2 s)) ≤ fuel →
  ∃ s' g1 g2, join_equal fuel s = Ok s' ∧ joined_runs s s' acc k g1 g2.
Proof.
  intros Hs E1 E2 Hf1 Hf2.
  destruct (collect_start s acc k r1 l r2 r Hs E1 E2) as (c1 & c2 & Hfw1 & Hfw2 & Hr1 & Hci).
  unfold join_equal. rewrite Hfw1. cbn [mbind Result_bind]. rewrite Hfw2. cbn [mbind Result_bind].
  destruct (collect_ok fuel _ _ _ _ _ _ _ _ _ Hci) as (x & g1 & g2 & -> & Hx & Hne & Hle & Hre);
    [done..|cbn [merge cur1]; rewrite Hr1; rewrite E1 in Hf1; cbn in Hf1; lia|].
  cbn [mbind Result_bind].
  destruct (1 <? length (equal_lindices x)) eqn:M1; [|destruct (1 <? length (equal_rindices x)) eqn:M2];
    cbn [orb negb].
  1, 2: by apply (stream_runs_ok fuel s acc k _ _ g1 g2 x).
  apply Nat.ltb_ge in M1, M2.
  assert (l_equal x = false) as El by (destruct (l_equal x); [specialize (Hle eq_refl); lia|done]).
  assert (r_equal x = false) as Er by (destruct (r_equal x); [specialize (Hre eq_refl); lia|done]).
  destruct Hx as [Hm _ _ Hl Hr Hg1 Hg2 Hl0 Hr0 Hh1 Hh2 He1 He2].
  destruct (equal_lindices x) as [|i1 []]; [done| |cbn in M1; lia].
  destruct (equal_rindices x) as [|i2 []]; [done| |cbn in M2; lia].
  injection Hh1 as ->. injection Hh2 as ->.
  apply Forall2_cons_inv_l in Hl as (a & ? & Ha & ->%Forall2_nil_inv_l & Ea).
  apply Forall2_cons_inv_l in Hr as (b & ? & Hb & ->%Forall2_nil_inv_l & Eb).
  eexists _, g1, g2. split; [done|].
  split; try done; [|by apply He1|by apply He2]. rewrite Ea, Eb. by apply merge_inv_push.
Qed.

(** *** The main loop *)

(** What is joined so far and what the specification makes of the rest. *)
Definition progress (l0 r0 : list Entry) (s : Merge) : Prop :=
  sorted (rest (cur1 s)) ∧ sorted (rest (cur2 s)) ∧
  ∃ acc, merge_inv s acc ∧ acc ++ join_pairs (rest (cur1 s)) (rest (cur2 s)) ≡ₚ join_pairs l0 r0.

Definition remaining (s : Merge) : nat := length (rest (cur1 s)) + length (rest (cur2 s)).

Lemma join_less_ok s acc e l :
  merge_inv s acc → rest (cur1 s) = e :: l →
  ∃ s', forward1 (if L_OUTER then set_self s (push (self s) (cur_idx (cur1 s)) (0, 0)) else s) = Ok s' ∧
    merge_inv s' (acc ++ (if L_OUTER then [(e.2, null_row null nr)] else [])) ∧
    rest (cur1 s') = l ∧ cur2 s' = cur2 s.
Proof.
  intros Hs E1. destruct e as [k r1].
  destruct (current_row null key_null nl _ _ _ _ (mi_1 _ _ Hs) E1) as (_ & _ & Hrow & _).
  destruct L_OUTER.
  - edestruct forward1_ok as (c & -> & Hs' & Hr & _); [|exact E1|by eexists].
    apply merge_inv_push; [exact Hrow| |done]. eapply idx_row_null, cw_base, Hs.
  - edestruct forward1_ok as (c & -> & Hs' & Hr & _); [done..|]. rewrite app_nil_r. by eexists.
Qed.

Lemma join_greater_ok s acc f r :
  merge_inv s acc → rest (cur2 s) = f :: r →
  ∃ s', forward2 (if R_OUTER then set_self s (push (self s) (0, 0) (cur_idx (cur2 s))) else s) = Ok s' ∧
    merge_inv s' (acc ++ (if R_OUTER then [(null_row null nl, f.2)] else [])) ∧
    rest (cur2 s') = r ∧ cur1 s' = cur1 s.
Proof.
  intros Hs E2. destruct f as [k r2].
  destruct (current_row null key_null nr _ _ _ _ (mi_2 _ _ Hs) E2) as (_ & _ & Hrow & _).
  destruct R_OUTER.
  - edestruct forward2_ok as (c & -> & Hs' & Hr & _); [|exact E2|by eexists].
    apply merge_inv_push; [|exact Hrow|done]. eapply idx_row_null, cw_base, Hs.
  - edestruct forward2_ok as (c & -> & Hs' & Hr & _); [done..|]. rewrite app_nil_r. by eexists.
Qed.

Lemma join_equal_progress fuel l0 r0 s acc k r1 l r2 r :
  merge_inv s acc → rest (cur1 s) = (k, r1) :: l → rest (cur2 s) = (k, r2) :: r →
  key_null k = false → remaining s ≤ fuel → sorted (rest (cur1 s)) → sorted (rest (cur2 s)) →
  acc ++ join_pairs (rest (cur1 s)) (rest (cur2 s)) ≡ₚ join_pairs l0 r0 →
  ∃ s', join_equal fuel s = Ok s' ∧ progress l0 r0 s' ∧ remaining s' < remaining s.
Proof.
  intros Hs E1 E2 Hk Hfuel Hs1 Hs2 Hp. unfold remaining in *.
  destruct (join_equal_ok fuel s acc k r1 l r2 r) as (s' & g1 & g2 & Hj & [Hi Hr1 Hr2 Hg1 Hg2 Hn1 Hn2]);
    [done..|lia|lia|].
  assert (g1 ≠ []) as Hne1.
  { intros ->. cbn in Hr1. rewrite <- Hr1, E1 in Hn1. by apply Hn1. }
  assert (g2 ≠ []) as Hne2.
  { intros ->. cbn in Hr2. rewrite <- Hr2, E2 in Hn2. by apply Hn2. }
  rewrite Hr1 in Hs1. rewrite Hr2 in Hs2.
  exists s'. split; [done|]. split.
  - split; [by eapply sorted_app_r|]. split; [by eapply sorted_app_r|]. eexists. split; [exact Hi|].
    rewrite <- Hp, <- app_assoc, Hr1, Hr2. f_equiv.
    by rewrite (join_pairs_equal k) by (done || (by eapply run_complete; eauto)).
  - rewrite Hr1, Hr2, !length_app. destruct g1; [done|]. cbn. lia.
Qed.

Lemma join_step_ok fuel l0 r0 s :
  progress l0 r0 s → both_unfinished s = true → remaining s ≤ fuel →
  ∃ s', join_step fuel s = Ok s' ∧ progress l0 r0 s' ∧ remaining s' < remaining s.
Proof.
  intros (Hs1 & Hs2 & acc & Hs & Hp) Hb Hfuel. unfold join_step.
  edestruct (flush_clean_ok) as (s1 & Hf & Hi & Hr1 & Hr2 & _);
    [exact Hs|left; reflexivity|left; reflexivity|]. rewrite Hf. clear Hf. cbn [mbind Result_bind].
  unfold both_unfinished in Hb. apply andb_true_iff in Hb as [Hb1 Hb2].
  rewrite (finished_rest null key_null nl) in Hb1 by apply Hs.
  rewrite (finished_rest null key_null nr) in Hb2 by apply Hs. unfold remaining in *.
  rewrite <- Hr1, <- Hr2 in *. clear dependent s.
  destruct (rest (cur1 s1)) as [|[k1 r1] l] eqn:E1; [done|].
  destruct (rest (cur2 s1)) as [|[k2 r2] r] eqn:E2; [done|].
  rewrite (compare_cursor_ok null key_null nl nr _ _ k1 r1 l k2 r2 r) by (done || apply Hi).
  cbn [mbind Result_bind].
  assert (∀ s', key_null k1 = true ∨ row_cmp k1 k2 = Lt →
    merge_inv s' (acc ++ (if L_OUTER then [(r1, null_row null nr)] else [])) →
    rest (cur1 s') = l → cur2 s' = cur2 s1 → progress l0 r0 s') as Hless.
  { intros s' Hc Hi' Hr1 Hc2. split; [rewrite Hr1; by eapply sorted_tail|].
    rewrite Hc2, Hr1, E2. split; [done|]. eexists. split; [exact Hi'|].
    rewrite <- Hp, (join_pairs_less (k1, r1)); [by rewrite <- app_assoc|].
    intros x Hx. by apply (less_no_match key_null (k1, r1) (k2, r2) r). }
  assert (∀ s', key_null k2 = true ∨ row_cmp k1 k2 = Gt →
    merge_inv s' (acc ++ (if R_OUTER then [(null_row null nl, r2)] else [])) →
    rest (cur2 s') = r → cur1 s' = cur1 s1 → progress l0 r0 s') as Hgreater.
  { intros s' Hc Hi' Hr2 Hc1. rewrite <- E1 in Hs1, Hp.
    split; [by rewrite Hc1|]. split; [rewrite Hr2; by eapply sorted_tail|].
    rewrite Hc1, Hr2. eexists. split; [exact Hi'|].
    rewrite <- Hp, (join_pairs_greater (k2, r2)); [by rewrite <- app_assoc|].
    rewrite E1 in *. intros x Hx. by apply (greater_no_match key_null (k1, r1) l). }
  destruct (join_less_ok s1 acc _ _ Hi E1) as (s2 & Hl2 & Hi2 & Hr2 & Hc2).
  destruct (join_greater_ok s1 acc _ _ Hi E2) as (s3 & Hl3 & Hi3 & Hr3 & Hc3).
  destruct (key_null k1) eqn:N1; [|destruct (key_null k2) eqn:N2; [|destruct (row_cmp k1 k2) eqn:C]].
  - exists s2. split; [done|]. split; [by apply Hless; auto|]. rewrite Hr2, Hc2, E2. cbn. lia.
  - exists s3. split; [done|]. split; [by apply Hgreater; auto|]. rewrite Hr3, Hc3, E1. cbn. lia.
  - apply row_cmp_eq in C as ->.
    destruct (join_equal_progress fuel l0 r0 s1 acc k2 r1 l r2 r) as (s' & Hj & Hpr & Hrem);
      rewrite ?E1, ?E2; try done; [unfold remaining; by rewrite E1, E2|].
    exists s'. split; [done|]. split; [done|]. unfold remaining in Hrem. by rewrite E1, E2 in Hrem.
  - exists s2. split; [done|]. split; [by apply Hless; auto|]. rewrite Hr2, Hc2, E2. cbn. lia.
  - exists s3. split; [done|]. split; [by apply Hgreater; auto|]. rewrite Hr3, Hc3, E1. cbn. lia.
Qed.

(** *** The tail of an outer side *)

Definition left_tail (l : list Entry) : list (Row * Row) :=
  if L_OUTER then (λ e, (e.2, null_row null nr)) <$> l else [].
Definition right_tail (r : list Entry) : list (Row * Row) :=
  if R_OUTER then (λ f, (null_row null nl, f.2)) <$> r else [].

Lemma drain_left_ok fuel s acc :
  merge_inv s acc → length (rest (cur1 s)) ≤ fuel →
  ∃ s', drain_left fuel s = Ok s' ∧ merge_inv s' (acc ++ left_tail (rest (cur1 s))) ∧
    cur2 s' = cur2 s.
Proof.
  intros Hs Hfuel. unfold drain_left, left_tail.
  destruct L_OUTER eqn:HL; [|exists s; rewrite app_nil_r; by destruct fuel].
  destruct (rwhile_inv (λ s', ∃ g, rest (cur1 s) = g ++ rest (cur1 s') ∧ cur2 s' = cur2 s ∧
      merge_inv s' (acc ++ ((λ e, (e.2, null_row null nr)) <$> g)))
    (λ s', length (rest (cur1 s'))) (λ s, true && negb (finished (cur1 s))) drain_left_step fuel s)
    as (s' & Hw & (g & Hg & Hc & Hs') & Hend).
  - exists []. by rewrite app_nil_r.
  - done.
  - intros s' (g & Hg & Hc & Hs') Hb. cbn [andb] in Hb.
    rewrite (finished_rest null key_null nl) in Hb by apply Hs'.
    destruct (rest (cur1 s')) as [|[k r1] l] eqn:E1; [done|].
    destruct (current_row null key_null nl _ _ _ _ (mi_1 _ _ Hs') E1) as (_ & _ & Hrow & _).
    unfold drain_left_step.
    edestruct forward1_ok as (c & -> & Hs1 & Hr & _).
    { apply merge_inv_push; [exact Hrow| |exact Hs']. eapply idx_row_null, cw_base, Hs'. }
    { exact E1. }
    cbn [mbind Result_bind].
    edestruct flush_clean_ok as (s2 & Hf & Hs2 & Hr2 & _ & _ & Hid & _);
      [exact Hs1|left; reflexivity|right; reflexivity|]. unfold id in Hf. rewrite Hf.
    exists s2. split; [done|]. rewrite Hr2. cbn [cur1]. rewrite Hr. split; [|cbn; lia].
    exists (g ++ [(k, r1)]). split_and!.
    + by rewrite Hg, <- app_assoc.
    + by rewrite Hid.
    + by rewrite fmap_app, app_assoc.
  - exists s'. split; [done|]. split; [|done]. cbn [andb] in Hend.
    rewrite (finished_rest null key_null nl), negb_false_iff, bool_decide_eq_true in Hend by apply Hs'.
    rewrite Hend, app_nil_r in Hg. by rewrite Hg.
Qed.

Lemma drain_right_ok fuel s acc :
  merge_inv s acc → length (rest (cur2 s)) ≤ fuel →
  ∃ s', drain_right fuel s = Ok s' ∧ merge_inv s' (acc ++ right_tail (rest (cur2 s))).
Proof.
  intros Hs Hfuel. unfold drain_right, right_tail.
  destruct R_OUTER eqn:HR; [|exists s; rewrite app_nil_r; by destruct fuel].
  destruct (rwhile_inv (λ s', ∃ g, rest (cur2 s) = g ++ rest (cur2 s') ∧
      merge_inv s' (acc ++ ((λ e, (null_row null nl, e.2)) <$> g)))
    (λ s', length (rest (cur2 s'))) (λ s, true && negb (finished (cur2 s))) drain_right_step fuel s)
    as (s' & Hw & (g & Hg & Hs') & Hend).
  - exists []. by rewrite app_nil_r.
  - done.
  - intros s' (g & Hg & Hs') Hb. cbn [andb] in Hb.
    rewrite (finished_rest null key_null nr) in Hb by apply Hs'.
    destruct (rest (cur2 s')) as [|[k r2] l] eqn:E2; [done|].
    destruct (current_row null key_null nr _ _ _ _ (mi_2 _ _ Hs') E2) as (_ & _ & Hrow & _).
    unfold drain_right_step.
    edestruct forward2_ok as (c & -> & Hs1 & Hr & _).
    { apply merge_inv_push; [|exact Hrow|exact Hs']. eapply idx_row_null, cw_base, Hs'. }
    { exact E2. }
    cbn [mbind Result_bind].
    edestruct flush_clean_ok as (s2 & Hf & Hs2 & _ & Hr2 & _ & _ & _);
      [exact Hs1|right; reflexivity|left; reflexivity|]. unfold id in Hf. rewrite Hf.
    exists s2. split; [done|]. rewrite Hr2. cbn [cur2]. rewrite Hr. split; [|cbn; lia].
    exists (g ++ [(k, r2)]). split_and!.
    + by rewrite Hg, <- app_assoc.
    + by rewrite fmap_app, app_assoc.
  - exists s'. split; [done|]. cbn [andb] in Hend.
    rewrite (finished_rest null key_null nr), negb_false_iff, bool_decide_eq_true in Hend by apply Hs'.
    rewrite Hend, app_nil_r in Hg. by rewrite Hg.
Qed.

Lemma join_pairs_one_empty l r : l = [] ∨ r = [] → join_pairs l r = left_tail l ++ right_tail r.
Proof.
  unfold left_tail, right_tail. intros [->| ->].
  - rewrite join_pairs_nil_l. by destruct L_OUTER.
  - rewrite join_pairs_nil_r. destruct R_OUTER; by rewrite app_nil_r.
Qed.

(** A joiner with nothing pending has sent all its pairs. *)
Lemma holds_sent j c1 c2 acc :
  holds j c1 c2 acc → lindices j = [] →
  concat (batch_rows null <$> output j) ≡ₚ emit acc ∧ output_rows j = length (emit acc).
Proof.
  intros (sent & pend & [Hl _ Hs Hn] & Hp) Hnil. rewrite Hnil in Hl.
  apply Forall2_nil_inv_l, fmap_nil_inv in Hl as ->. rewrite app_nil_r in Hp.
  rewrite Hs, Hn, Hp. done.
Qed.

Lemma join_ok fuel s :
  merge_inv s [] → sorted (rest (cur1 s)) → sorted (rest (cur2 s)) → remaining s ≤ fuel →
  ∃ s', join fuel s = Ok s' ∧
    concat (batch_rows null <$> output (self s')) ≡ₚ join_spec (rest (cur1 s)) (rest (cur2 s)) ∧
    output_rows (self s') = length (join_spec (rest (cur1 s)) (rest (cur2 s))).
Proof.
  intros Hs Hs1 Hs2 Hfuel. unfold join.
  destruct (rwhile_inv (λ s', progress (rest (cur1 s)) (rest (cur2 s)) s' ∧ remaining s' ≤ fuel) remaining
    both_unfinished (join_step fuel) fuel s) as (s1 & -> & [(_ & _ & acc & Hi & Hp) Hrem] & Hend);
    [split; [split; [done|]; split; [done|]; by exists []|done]|done| |].
  { intros s' [Hpr Hle] Hb. destruct (join_step_ok fuel _ _ s' Hpr Hb Hle) as (s2 & ? & ? & ?).
    exists s2. split_and!; try done. lia. }
  cbn [mbind Result_bind]. unfold join_spec. generalize dependent (join_pairs (rest (cur1 s)) (rest (cur2 s))).
  intros all Hall. rewrite join_pairs_one_empty in Hall.
  2: { unfold both_unfinished in Hend. rewrite (finished_rest null key_null nl) in Hend by apply Hi.
       rewrite (finished_rest null key_null nr) in Hend by apply Hi.
       destruct (rest (cur1 s1)); [by left|]. destruct (rest (cur2 s1)); [by right|done]. }
  unfold remaining in Hrem.
  destruct (flush_clean_ok (bool_decide (lindices (self s1) ≠ [])) clean1 clean2 _ _ Hi)
    as (s2 & Hf & Hi2 & Hr1 & Hr2 & _); [by left..|].
  assert (∀ (P : Prop) `{Decision P} {A} (a b : A), (if decide P then a else b) = if bool_decide P then a else b)
    as Hdec by (intros P dec A a b; by destruct dec).
  rewrite Hdec, Hf. cbn [mbind Result_bind]. rewrite <- Hr1, <- Hr2 in *.
  destruct (drain_left_ok fuel s2 acc Hi2) as (s3 & -> & Hi3 & Hc3); [lia|]. cbn [mbind Result_bind].
  rewrite <- Hc3 in *.
  destruct (drain_right_ok fuel s3 _ Hi3) as (s4 & -> & Hi4); [lia|]. cbn [mbind Result_bind].
  rewrite <- app_assoc in Hi4. apply (merge_inv_perm _ _ _ Hall) in Hi4. case_decide as Hnil.
  - destruct (do_flush_ok s4 _ Hi4) as (j & -> & Hn & Hj). eexists. split; [done|]. cbn [self set_self].
    by apply (holds_sent j (cur1 s4) (cur2 s4)).
  - exists s4. split; [done|]. by eapply holds_sent; [apply Hi4|].
Qed.

Lemma execute_join_ok fuel sl sr :
  stream_wf nl sl → stream_wf nr sr →
  sorted (stream_entries null sl) → sorted (stream_entries null sr) →
  length (stream_entries null sl) + length (stream_entries null sr) ≤ fuel →
  ∃ left right j, try_new null nl sl = Ok left ∧ try_new null nr sr = Ok right ∧
    execute_join fuel left right = Ok j ∧
    concat (batch_rows null <$> output j) ≡ₚ join_spec (stream_entries null sl) (stream_entries null sr) ∧
    output_rows j = length (join_spec (stream_entries null sl) (stream_entries null sr)).
Proof.
  intros Hwl Hwr Hsl Hsr Hfuel.
  destruct (try_new_ok null key_null nl sl Hwl) as (left & c1 & Hnl & Hf1 & Hw1 & Hr1).
  destruct (try_new_ok null key_null nr sr Hwr) as (right & c2 & Hnr & Hf2 & Hw2 & Hr2).
  rewrite <- Hr1, <- Hr2 in *.
  destruct (join_ok fuel (mkMerge full_new c1 c2)) as (s & Hj & Hout & Hn); [|done..|].
  { split; [done..|]. exists [], []. split; [|done]. split; constructor. }
  exists left, right, (self s). unfold execute_join. rewrite Hf1, Hf2. cbn [mbind Result_bind].
  rewrite Hj. done.
Qed.

End FullJoin.

(** C4: for inner, left, right and full sort-merge joins of two sorted inputs, cut into
    batches in any way and with any output batch size, the join terminates without
    failing and the rows it sends are a permutation of the nested-loop specification:
    pairs with equal non-null keys that pass the residual filter, and unmatched rows of
    an outer side next to nulls. *)
Theorem smj_full_join_correct {V} (null : V) `{RowKey K} (key_null : K → bool) (L_OUTER R_OUTER : bool)
    (batch_size : nat) projection join_filter nl nr fe fuel sl sr :
  smj_ok null projection join_filter nl nr fe →
  stream_wf nl sl → stream_wf nr sr →
  sorted (stream_entries null sl) → sorted (stream_entries null sr) →
  length (stream_entries null sl) + length (stream_entries null sr) ≤ fuel →
  ∃ left right j, try_new null nl sl = Ok left ∧ try_new null nr sr = Ok right ∧
    execute_join key_null L_OUTER R_OUTER batch_size projection join_filter fuel left right = Ok j ∧
    concat (batch_rows null <$> output j)
      ≡ₚ join_spec null key_null L_OUTER R_OUTER projection nl nr fe
           (stream_entries null sl) (stream_entries null sr) ∧
    output_rows j = length (join_spec null key_null L_OUTER R_OUTER projection nl nr fe
           (stream_entries null sl) (stream_entries null sr)).
Proof. intros ok. by apply execute_join_ok. Qed.

Module SmjSample.
Import CursorSample.

Definition projection : JoinProjection := mkProjection 4 [0; 1] [0; 1].

Definition expected : list (list Z) :=
  [[-1; 10; 0; 0]; [1; 11; 0; 0]; [2; 12; 2; 21]; [2; 12; 2; 22]; [2; 13; 2; 21];
   [2; 13; 2; 22]; [2; 14; 2; 21]; [2; 14; 2; 22]; [5; 15; 5; 24]; [0; 0; -1; 20]; [0; 0; 3; 23]]%Z.

Lemma smj_full_join_correct_witness :
  ∃ left right j, try_new 0%Z 2 sl = Ok left ∧ try_new 0%Z 2 sr = Ok right ∧
    execute_join sample_null true true 3 projection None 11 left right = Ok j ∧
    concat (batch_rows 0%Z <$> output j) ≡ₚ expected ∧ output_rows j = 11.
Proof.
  assert (join_spec 0%Z sample_null true true projection 2 2 None (stream_entries 0%Z sl)
    (stream_entries 0%Z sr) = expected) as E by (vm_compute; reflexivity).
  change 11 with (length expected) at 2. rewrite <- E.
  apply (smj_full_join_correct (V:=Z) 0%Z (K:=Z) sample_null true true 3 projection None 2 2 None 11 sl sr).
  - split; done.
  - apply sl_wf.
  - apply sr_wf.
  - apply sl_sorted.
  - apply sr_sorted.
  - cbn. lia.
Defined.

(** The same join evaluated. *)
Example smj_full_join_runs :
  (left ← try_new 0%Z 2 sl; right ← try_new 0%Z 2 sr;
   j ← execute_join sample_null true true 3 projection None 11 left right;
   Ok (concat (batch_rows 0%Z <$> output j)))
  = Ok [[-1; 10; 0; 0]; [0; 0; -1; 20]; [1; 11; 0; 0]; [2; 12; 2; 21]; [2; 12; 2; 22];
        [2; 13; 2; 21]; [2; 13; 2; 22]; [2; 14; 2; 21]; [2; 14; 2; 22]; [0; 0; 3; 23];
        [5; 15; 5; 24]]%Z.
Proof. vm_compute. reflexivity. Qed.

End SmjSample.
