(* ===== verification/SortMergeScan.v ===== *)
(** * The sort-merge scan shared by the semi, anti and existence joins

    The [join] methods of joins/smj/semi_join.rs and joins/smj/existence_join.rs have
    the same control structure: both sides are scanned in key order and each row is
    reported once, as matched or unmatched, to the joiner.  [Scan] is what a joiner
    does with such a report; [scan_join] is the common [join] method.  The class
    [ScanLaws] is what the scan promises to and requires of a joiner; the scan's
    theorem, [scan_join_ok], is that the joiner is told of every row of the side it
    listens to exactly once, in order, with the right verdict. *)

From S2P Require Import Prelude MachineInt Joins StreamCursor.

Section Scan.
Context {V : Type} (null : V) {K : Type} `{RowKey K} (key_null : K → bool).
Local Abbreviation Cursor := (StreamCursor (V:=V) (K:=K)).
Local Abbreviation forward := (cur_forward key_null).
Local Abbreviation Row := (list V).
Local Abbreviation Entry := (K * list V)%type.

(** What a joiner does at each step of the scan. *)
Record Scan (J : Type) := mkScan {
  on_less : J → Idx → J;       (** an unmatched row of the left side *)
  on_greater : J → Idx → J;    (** an unmatched row of the right side *)
  on_equal_l : J → Idx → J;    (** a matched row of the left side *)
  on_equal_r : J → Idx → J;    (** a matched row of the right side *)
  scan_should_flush : J → bool;
  scan_flush : J → Cursor → Cursor → Result J;
  drain_l : bool;              (** the unmatched tail of the left side is consumed *)
  drain_r : bool;
  has_pending : J → bool }.
Arguments on_less {J} s.
Arguments on_greater {J} s.
Arguments on_equal_l {J} s.
Arguments on_equal_r {J} s.
Arguments scan_should_flush {J} s.
Arguments scan_flush {J} s.
Arguments drain_l {J} s.
Arguments drain_r {J} s.
Arguments has_pending {J} s.

Context {J : Type} (scan : Scan J).

Record Scanning := mkScanning { self : J; cur1 : Cursor; cur2 : Cursor }.

Definition set_self (s : Scanning) (j : J) : Scanning := mkScanning j (cur1 s) (cur2 s).
Definition forward1 (s : Scanning) : Result Scanning :=
  c ← forward (cur1 s); Ok (mkScanning (self s) c (cur2 s)).
Definition forward2 (s : Scanning) : Result Scanning :=
  c ← forward (cur2 s); Ok (mkScanning (self s) (cur1 s) c).
Definition do_flush (s : Scanning) : Result Scanning :=
  j ← scan_flush scan (self s) (cur1 s) (cur2 s); Ok (set_self s j).
Definition clean1 (s : Scanning) : Scanning :=
  mkScanning (self s) (clean_out_dated_batches (cur1 s)) (cur2 s).
Definition clean2 (s : Scanning) : Scanning :=
  mkScanning (self s) (cur1 s) (clean_out_dated_batches (cur2 s)).

(** Report the current row of one side and move past it. *)
Definition report_left (f : J → Idx → J) (s : Scanning) : Result Scanning :=
  forward1 (set_self s (f (self s) (cur_idx (cur1 s)))).
Definition report_right (f : J → Idx → J) (s : Scanning) : Result Scanning :=
  forward2 (set_self s (f (self s) (cur_idx (cur2 s)))).

(** [(s, l_equal, r_equal)] of the loop that advances both sides through a key. *)
Record Equals := mkEquals { scanning : Scanning; l_equal : bool; r_equal : bool }.

Definition equals_left (l_key_idx : Idx) (x : Equals) : Result Equals :=
  let s := scanning x in
  b ← cur_key_eq (cur1 s) (key (cur1 s) l_key_idx);
  if b : bool then s ← report_left (on_equal_l scan) s; Ok (mkEquals s true (r_equal x))
  else Ok (mkEquals s false (r_equal x)).

Definition equals_right (r_key_idx : Idx) (x : Equals) : Result Equals :=
  let s := scanning x in
  b ← cur_key_eq (cur2 s) (key (cur2 s) r_key_idx);
  if b : bool then s ← report_right (on_equal_r scan) s; Ok (mkEquals s (l_equal x) true)
  else Ok (mkEquals s (l_equal x) false).

Definition equals_step (l_key_idx r_key_idx : Idx) (x : Equals) : Result Equals :=
  x ← (if l_equal x then equals_left l_key_idx x else Ok x);
  if r_equal x then equals_right r_key_idx x else Ok x.

Definition stream_left_step (s : Scanning) : Result Scanning :=
  s ← report_left (on_equal_l scan) s;
  if scan_should_flush scan (self s) || (1 <? num_buffered_batches (cur1 s))
  then s ← do_flush s; Ok (clean1 s) else Ok s.

Definition stream_left (fuel : nat) (r_key_idx : Idx) : Scanning → Result Scanning :=
  rwhileM fuel (λ s, cur_key_eq (cur1 s) (key (cur2 s) r_key_idx)) stream_left_step.

Definition stream_right_step (s : Scanning) : Result Scanning :=
  s ← report_right (on_equal_r scan) s;
  if scan_should_flush scan (self s) || (1 <? num_buffered_batches (cur2 s))
  then s ← do_flush s; Ok (clean2 s) else Ok s.

Definition stream_right (fuel : nat) (l_key_idx : Idx) : Scanning → Result Scanning :=
  rwhileM fuel (λ s, cur_key_eq (cur2 s) (key (cur1 s) l_key_idx)) stream_right_step.

(** [Ordering::Equal] *)
Definition scan_equal (fuel : nat) (s : Scanning) : Result Scanning :=
  let l_key_idx := cur_idx (cur1 s) in
  let r_key_idx := cur_idx (cur2 s) in
  s ← report_left (on_equal_l scan) s;
  s ← report_right (on_equal_r scan) s;
  x ← rwhile fuel (λ x, l_equal x && r_equal x) (equals_step l_key_idx r_key_idx)
        (mkEquals s true true);
  s ← (if l_equal x then stream_left fuel r_key_idx (scanning x) else Ok (scanning x));
  if r_equal x then stream_right fuel l_key_idx s else Ok s.

(** One iteration of the main loop. *)
Definition scan_step (fuel : nat) (s : Scanning) : Result Scanning :=
  s ← (if scan_should_flush scan (self s) || (1 <? num_buffered_batches (cur1 s))
          || (1 <? num_buffered_batches (cur2 s))
       then s ← do_flush s; Ok (clean2 (clean1 s)) else Ok s);
  o ← compare_cursor (cur1 s) (cur2 s);
  match o with
  | Lt => report_left (on_less scan) s
  | Gt => report_right (on_greater scan) s
  | Eq => scan_equal fuel s
  end.

Definition both_unfinished (s : Scanning) : bool :=
  negb (finished (cur1 s)) && negb (finished (cur2 s)).

(** The rest of the side whose unmatched rows are wanted. *)
Definition drain_left_step (s : Scanning) : Result Scanning :=
  s ← report_left (on_less scan) s;
  if scan_should_flush scan (self s) then s ← do_flush s; Ok (clean1 s) else Ok s.
Definition drain_right_step (s : Scanning) : Result Scanning :=
  s ← report_right (on_greater scan) s;
  if scan_should_flush scan (self s) then s ← do_flush s; Ok (clean2 s) else Ok s.

Definition scan_join (fuel : nat) (s : Scanning) : Result Scanning :=
  s ← rwhile fuel both_unfinished (scan_step fuel) s;
  s ← rwhile fuel (λ s, drain_l scan && negb (finished (cur1 s))) drain_left_step s;
  s ← rwhile fuel (λ s, drain_r scan && negb (finished (cur2 s))) drain_right_step s;
  if has_pending scan (self s) then do_flush s else Ok s.

(** [execute_join]: load the first batch of both sides, then join. *)
Definition execute_scan (fuel : nat) (joiner : J) (left right : Cursor) : Result J :=
  c1 ← forward left;
  c2 ← forward right;
  s ← scan_join fuel (mkScanning joiner c1 c2);
  Ok (self s).

(** ** The contract of a joiner *)

Local Abbreviation idx_row := (idx_row null).
Local Abbreviation rest := (rest null).
Context (nl nr : nat).
Local Abbreviation wf1 := (cursor_wf null key_null nl).
Local Abbreviation wf2 := (cursor_wf null key_null nr).
Local Abbreviation matches := (matches (V:=V) key_null).

(** [told j c1 c2 al ar]: joiner [j] has been told of the left rows [al] and the right
    rows [ar], each with its verdict. *)
Class ScanLaws (told : J → Cursor → Cursor → list (Row * bool) → list (Row * bool) → Prop) : Prop := {
  told_extends j c1 c2 c1' c2' al ar :
    extends c1 c1' → extends c2 c2' → told j c1 c2 al ar → told j c1' c2' al ar;
  told_less j c1 c2 al ar i r :
    idx_row c1 i r → told j c1 c2 al ar → told (on_less scan j i) c1 c2 (al ++ [(r, false)]) ar;
  told_equal_l j c1 c2 al ar i r :
    idx_row c1 i r → told j c1 c2 al ar → told (on_equal_l scan j i) c1 c2 (al ++ [(r, true)]) ar;
  told_greater j c1 c2 al ar i r :
    idx_row c2 i r → told j c1 c2 al ar → told (on_greater scan j i) c1 c2 al (ar ++ [(r, false)]);
  told_equal_r j c1 c2 al ar i r :
    idx_row c2 i r → told j c1 c2 al ar → told (on_equal_r scan j i) c1 c2 al (ar ++ [(r, true)]);
  told_flush j c1 c2 al ar :
    wf1 c1 → wf2 c2 → told j c1 c2 al ar →
    ∃ j', scan_flush scan j c1 c2 = Ok j' ∧ has_pending scan j' = false ∧
      ∀ c1' c2', told j' c1' c2' al ar }.

Context `{!ScanLaws told}.

Record scan_inv (s : Scanning) (al ar : list (Row * bool)) : Prop := {
  si_1 : wf1 (cur1 s); si_2 : wf2 (cur2 s); si_told : told (self s) (cur1 s) (cur2 s) al ar }.

(** The verdicts of the specification. *)
Definition verdicts_l (l r : list Entry) : list (Row * bool) :=
  (λ e, (e.2, existsb (matches e) r)) <$> l.
Definition verdicts_r (l r : list Entry) : list (Row * bool) :=
  (λ f, (f.2, existsb (λ e, matches e f) l)) <$> r.

Lemma report_left_ok f b s al ar k r es :
  (∀ j c1 c2 al ar i r, idx_row c1 i r → told j c1 c2 al ar → told (f j i) c1 c2 (al ++ [(r, b)]) ar) →
  scan_inv s al ar → rest (cur1 s) = (k, r) :: es →
  ∃ s', report_left f s = Ok s' ∧ scan_inv s' (al ++ [(r, b)]) ar ∧ rest (cur1 s') = es ∧
    extends (cur1 s) (cur1 s') ∧ cur2 s' = cur2 s.
Proof.
  intros Hf [H1 H2 Ht] Hr. destruct (current_row null key_null nl _ _ _ _ H1 Hr) as (_ & _ & Hrow & _).
  destruct (cur_forward_ok null key_null nl _ _ _ H1 Hr) as (c & Hc & Hwf & Hr' & Hx).
  unfold report_left, forward1. cbn [cur1 set_self]. rewrite Hc. eexists. split; [done|].
  split; [|done]. split; [done..|]. cbn [self cur1 cur2 set_self].
  eapply told_extends; [exact Hx|apply extends_refl|]. by apply Hf.
Qed.

Lemma report_right_ok f b s al ar k r es :
  (∀ j c1 c2 al ar i r, idx_row c2 i r → told j c1 c2 al ar → told (f j i) c1 c2 al (ar ++ [(r, b)])) →
  scan_inv s al ar → rest (cur2 s) = (k, r) :: es →
  ∃ s', report_right f s = Ok s' ∧ scan_inv s' al (ar ++ [(r, b)]) ∧ rest (cur2 s') = es ∧
    extends (cur2 s) (cur2 s') ∧ cur1 s' = cur1 s.
Proof.
  intros Hf [H1 H2 Ht] Hr. destruct (current_row null key_null nr _ _ _ _ H2 Hr) as (_ & _ & Hrow & _).
  destruct (cur_forward_ok null key_null nr _ _ _ H2 Hr) as (c & Hc & Hwf & Hr' & Hx).
  unfold report_right, forward2. cbn [cur2 set_self]. rewrite Hc. eexists. split; [done|].
  split; [|done]. split; [done..|]. cbn [self cur1 cur2 set_self].
  eapply told_extends; [apply extends_refl|exact Hx|]. by apply Hf.
Qed.

(** A conditional flush followed by cleaning keeps everything that matters. *)
Lemma scan_flush_clean_ok (b b1 b2 : bool) s al ar :
  scan_inv s al ar →
  ∃ s', (if b then s ← do_flush s;
           Ok ((if b2 then clean2 else id) ((if b1 then clean1 else id) s)) else Ok s) = Ok s' ∧
    scan_inv s' al ar ∧ rest (cur1 s') = rest (cur1 s) ∧ rest (cur2 s') = rest (cur2 s) ∧
    (b1 = false → cur1 s' = cur1 s) ∧ (b2 = false → cur2 s' = cur2 s) ∧
    (b = true → has_pending scan (self s') = false).
Proof.
  intros [H1 H2 Ht]. destruct b; [|by exists s].
  destruct (told_flush _ _ _ _ _ H1 H2 Ht) as (j & Hf & Hn & Hj). unfold do_flush. rewrite Hf.
  cbn [mbind Result_bind]. eexists. split; [done|].
  destruct (clean_ok null key_null nl _ H1) as [H1' Hr1].
  destruct (clean_ok null key_null nr _ H2) as [H2' Hr2].
  destruct b1, b2; unfold clean1, clean2, set_self, id; cbn [self cur1 cur2];
    (split; [split; cbn [self cur1 cur2]; auto|]); split_and!; done.
Qed.

(** *** The verdicts, one step of the merge at a time *)

Lemma verdicts_less e l r :
  (∀ x, x ∈ r → matches e x = false) →
  verdicts_l (e :: l) r = (e.2, false) :: verdicts_l l r ∧ verdicts_r (e :: l) r = verdicts_r l r.
Proof.
  intros Hr. split.
  - unfold verdicts_l. rewrite fmap_cons. by rewrite (proj2 (existsb_false _ _) Hr).
  - apply list_fmap_ext. intros _ f Hf%list_elem_of_lookup_2. cbn. by rewrite (Hr f Hf).
Qed.

Lemma verdicts_greater f l r :
  (∀ x, x ∈ l → matches x f = false) →
  verdicts_r l (f :: r) = (f.2, false) :: verdicts_r l r ∧ verdicts_l l (f :: r) = verdicts_l l r.
Proof.
  intros Hl. split.
  - unfold verdicts_r. rewrite fmap_cons. by rewrite (proj2 (existsb_false _ _) Hl).
  - apply list_fmap_ext. intros _ e He%list_elem_of_lookup_2. cbn. by rewrite (Hl e He).
Qed.

Definition marked (g : list Entry) : list (Row * bool) := (λ e, (e.2, true)) <$> g.

Lemma verdicts_equal k g1 g2 l r :
  key_null k = false → g1 ≠ [] → g2 ≠ [] →
  Forall (λ e, e.1 = k) g1 → Forall (λ e, e.1 = k) g2 →
  (∀ x, x ∈ l → k ≠ x.1) → (∀ x, x ∈ r → k ≠ x.1) →
  verdicts_l (g1 ++ l) (g2 ++ r) = marked g1 ++ verdicts_l l r ∧
  verdicts_r (g1 ++ l) (g2 ++ r) = marked g2 ++ verdicts_r l r.
Proof.
  intros Hk Hn1 Hn2 H1 H2 Hl Hr. rewrite Forall_forall in H1. rewrite Forall_forall in H2.
  unfold verdicts_l, verdicts_r, marked. rewrite !fmap_app.
  split; f_equal; apply list_fmap_ext; intros _ e He%list_elem_of_lookup_2; f_equal; rewrite existsb_app.
  - destruct g2 as [|f g2]; [done|]. cbn. by rewrite (matches_key key_null k) by (auto || apply H2; set_solver).
  - rewrite (proj2 (existsb_false _ g2)); [done|]. intros f Hf. apply matches_ne.
    rewrite (H2 f Hf). intros E. by apply (Hl e He).
  - destruct g1 as [|f g1]; [done|]. cbn. by rewrite (matches_key key_null k) by (auto || apply H1; set_solver).
  - rewrite (proj2 (existsb_false _ g1)); [done|]. intros f Hf. apply matches_ne.
    rewrite (H1 f Hf). auto.
Qed.

(** *** The runs of one key *)

Lemma scan_stream_left_ok fuel s al ar g1 rk k :
  scan_inv s (al ++ marked g1) ar → key (cur2 s) rk = Ok k → length (rest (cur1 s)) ≤ fuel →
  Forall (λ e, e.1 = k) g1 →
  ∃ s' g, stream_left fuel rk s = Ok s' ∧ scan_inv s' (al ++ marked g) ar ∧
    cur2 s' = cur2 s ∧ g1 ++ rest (cur1 s) = g ++ rest (cur1 s') ∧
    Forall (λ e, e.1 = k) g ∧ no_head k (rest (cur1 s')).
Proof.
  intros Hs Hk Hfuel Hg1.
  destruct (rwhileM_inv (λ s', ∃ g, scan_inv s' (al ++ marked g) ar ∧
      cur2 s' = cur2 s ∧ g1 ++ rest (cur1 s) = g ++ rest (cur1 s') ∧ Forall (λ e, e.1 = k) g)
      (λ s', length (rest (cur1 s'))) (λ s, cur_key_eq (cur1 s) (key (cur2 s) rk))
      stream_left_step fuel s) as (s' & Hw & (g & Hs' & Hc & Hr & Hg) & Hend);
    [by exists g1|exact Hfuel| |].
  - intros s' (g & Hs' & Hc & Hr & Hg). rewrite Hc, Hk.
    rewrite (cur_key_eq_ok null key_null nl) by apply Hs'. eexists. split; [done|]. intros Hb.
    destruct (rest (cur1 s')) as [|[k' r] es] eqn:Er; [done|]. apply bool_decide_eq_true in Hb as ->.
    unfold stream_left_step.
    destruct (report_left_ok _ _ _ _ _ _ _ _ told_equal_l Hs' Er) as (s1 & -> & Hs1 & Hr1 & _ & Hc1).
    cbn [mbind Result_bind].
    destruct (scan_flush_clean_ok (scan_should_flush scan (self s1) || (1 <? num_buffered_batches (cur1 s1)))
      true false _ _ _ Hs1) as (s2 & Hf & Hs2 & Hr2 & _ & _ & Hid & _).
    cbv beta iota delta [id] in Hf. rewrite Hf. exists s2. split; [done|]. rewrite Hr2, Hr1.
    split; [|cbn; lia]. exists (g ++ [(k, r)]). split_and!.
    + unfold marked. by rewrite fmap_app, app_assoc.
    + by rewrite Hid, Hc1.
    + by rewrite Hr, <- app_assoc.
    + apply Forall_app. split; [done|]. by apply Forall_singleton.
  - exists s', g. split_and!; try done. rewrite Hc, Hk in Hend.
    rewrite (cur_key_eq_ok null key_null nl) in Hend by apply Hs'. apply no_head_eq. by injection Hend.
Qed.

Lemma scan_stream_right_ok fuel s al ar g2 lk k :
  scan_inv s al (ar ++ marked g2) → key (cur1 s) lk = Ok k → length (rest (cur2 s)) ≤ fuel →
  Forall (λ e, e.1 = k) g2 →
  ∃ s' g, stream_right fuel lk s = Ok s' ∧ scan_inv s' al (ar ++ marked g) ∧
    cur1 s' = cur1 s ∧ g2 ++ rest (cur2 s) = g ++ rest (cur2 s') ∧
    Forall (λ e, e.1 = k) g ∧ no_head k (rest (cur2 s')).
Proof.
  intros Hs Hk Hfuel Hg2.
  destruct (rwhileM_inv (λ s', ∃ g, scan_inv s' al (ar ++ marked g) ∧
      cur1 s' = cur1 s ∧ g2 ++ rest (cur2 s) = g ++ rest (cur2 s') ∧ Forall (λ e, e.1 = k) g)
      (λ s', length (rest (cur2 s'))) (λ s, cur_key_eq (cur2 s) (key (cur1 s) lk))
      stream_right_step fuel s) as (s' & Hw & (g & Hs' & Hc & Hr & Hg) & Hend);
    [by exists g2|exact Hfuel| |].
  - intros s' (g & Hs' & Hc & Hr & Hg). rewrite Hc, Hk.
    rewrite (cur_key_eq_ok null key_null nr) by apply Hs'. eexists. split; [done|]. intros Hb.
    destruct (rest (cur2 s')) as [|[k' r] es] eqn:Er; [done|]. apply bool_decide_eq_true in Hb as ->.
    unfold stream_right_step.
    destruct (report_right_ok _ _ _ _ _ _ _ _ told_equal_r Hs' Er) as (s1 & -> & Hs1 & Hr1 & _ & Hc1).
    cbn [mbind Result_bind].
    destruct (scan_flush_clean_ok (scan_should_flush scan (self s1) || (1 <? num_buffered_batches (cur2 s1)))
      false true _ _ _ Hs1) as (s2 & Hf & Hs2 & _ & Hr2 & Hid & _ & _).
    cbv beta iota delta [id] in Hf. rewrite Hf. exists s2. split; [done|]. rewrite Hr2, Hr1.
    split; [|cbn; lia]. exists (g ++ [(k, r)]). split_and!.
    + unfold marked. by rewrite fmap_app, app_assoc.
    + by rewrite Hid, Hc1.
    + by rewrite Hr, <- app_assoc.
    + apply Forall_app. split; [done|]. by apply Forall_singleton.
  - exists s', g. split_and!; try done. rewrite Hc, Hk in Hend.
    rewrite (cur_key_eq_ok null key_null nr) in Hend by apply Hs'. apply no_head_eq. by injection Hend.
Qed.

(** Both sides have reported a run of key [k]; a side that is no longer equal has
    reached the end of its run. *)
Record equals_inv (l0 r0 : list Entry) (k : K) (lk rk : Idx) (al ar : list (Row * bool))
    (g1 g2 : list Entry) (x : Equals) : Prop := {
  ei_scan : scan_inv (scanning x) (al ++ marked g1) (ar ++ marked g2);
  ei_lk : key (cur1 (scanning x)) lk = Ok k;
  ei_rk : key (cur2 (scanning x)) rk = Ok k;
  ei_g1 : Forall (λ e, e.1 = k) g1;
  ei_g2 : Forall (λ e, e.1 = k) g2;
  ei_l0 : l0 = g1 ++ rest (cur1 (scanning x));
  ei_r0 : r0 = g2 ++ rest (cur2 (scanning x));
  ei_end1 : l_equal x = false → no_head k (rest (cur1 (scanning x)));
  ei_end2 : r_equal x = false → no_head k (rest (cur2 (scanning x))) }.

Lemma equals_left_ok l0 r0 k lk rk al ar g1 g2 x :
  equals_inv l0 r0 k lk rk al ar g1 g2 x →
  ∃ x' g1', equals_left lk x = Ok x' ∧ equals_inv l0 r0 k lk rk al ar g1' g2 x' ∧
    r_equal x' = r_equal x ∧
    (l_equal x' = true →
       length (rest (cur1 (scanning x'))) < length (rest (cur1 (scanning x)))).
Proof.
  intros [Hm Hlk Hrk Hg1 Hg2 Hl0 Hr0 He1 He2]. unfold equals_left.
  rewrite Hlk, (cur_key_eq_ok null key_null nl) by apply Hm. cbn [mbind Result_bind].
  destruct (rest (cur1 (scanning x))) as [|[k' r] es] eqn:Er;
    [|destruct (bool_decide (k' = k)) eqn:Ek].
  - eexists _, g1. split; [done|]. split; [|done].
    by split; cbn [scanning l_equal r_equal]; rewrite ?Er.
  - apply bool_decide_eq_true in Ek as ->.
    destruct (report_left_ok _ _ _ _ _ _ _ _ told_equal_l Hm Er) as (s1 & -> & Hs1 & Hr1 & Hx & Hc1).
    cbn [mbind Result_bind]. eexists _, (g1 ++ [(k, r)]). split; [done|].
    cbn [scanning l_equal r_equal]. rewrite Hr1. split; [|split; [done|cbn; lia]].
    split; cbn [scanning l_equal r_equal]; rewrite ?Hc1; try done.
    + unfold marked. by rewrite fmap_app, app_assoc.
    + by eapply key_extends.
    + apply Forall_app. split; [done|]. by apply Forall_singleton.
    + by rewrite Hr1, <- app_assoc.
  - eexists _, g1. split; [done|]. split; [|done].
    split; cbn [scanning l_equal r_equal]; rewrite ?Er; try done.
    intros _. cbn. by apply bool_decide_eq_false in Ek.
Qed.

Lemma equals_right_ok l0 r0 k lk rk al ar g1 g2 x :
  equals_inv l0 r0 k lk rk al ar g1 g2 x →
  ∃ x' g2', equals_right rk x = Ok x' ∧ equals_inv l0 r0 k lk rk al ar g1 g2' x' ∧
    l_equal x' = l_equal x ∧ cur1 (scanning x') = cur1 (scanning x).
Proof.
  intros [Hm Hlk Hrk Hg1 Hg2 Hl0 Hr0 He1 He2]. unfold equals_right.
  rewrite Hrk, (cur_key_eq_ok null key_null nr) by apply Hm. cbn [mbind Result_bind].
  destruct (rest (cur2 (scanning x))) as [|[k' r] es] eqn:Er;
    [|destruct (bool_decide (k' = k)) eqn:Ek].
  - eexists _, g2. split; [done|]. split; [|done].
    by split; cbn [scanning l_equal r_equal]; rewrite ?Er.
  - apply bool_decide_eq_true in Ek as ->.
    destruct (report_right_ok _ _ _ _ _ _ _ _ told_equal_r Hm Er) as (s1 & -> & Hs1 & Hr1 & Hx & Hc1).
    cbn [mbind Result_bind]. eexists _, (g2 ++ [(k, r)]). split; [done|].
    cbn [scanning l_equal r_equal]. split; [|done].
    split; cbn [scanning l_equal r_equal]; rewrite ?Hc1; try done.
    + unfold marked. by rewrite fmap_app, app_assoc.
    + by eapply key_extends.
    + apply Forall_app. split; [done|]. by apply Forall_singleton.
    + by rewrite Hr1, <- app_assoc.
  - eexists _, g2. split; [done|]. split; [|done].
    split; cbn [scanning l_equal r_equal]; rewrite ?Er; try done.
    intros _. cbn. by apply bool_decide_eq_false in Ek.
Qed.

Lemma equals_ok fuel l0 r0 k lk rk al ar g1 g2 x :
  equals_inv l0 r0 k lk rk al ar g1 g2 x → l_equal x = true → r_equal x = true →
  length (rest (cur1 (scanning x))) < fuel →
  ∃ x' g1' g2', rwhile fuel (λ x, l_equal x && r_equal x) (equals_step lk rk) x = Ok x' ∧
    equals_inv l0 r0 k lk rk al ar g1' g2' x' ∧ l_equal x' && r_equal x' = false.
Proof.
  intros Hx Hle Hre Hfuel.
  destruct (rwhile_inv (λ x, ∃ g1 g2, equals_inv l0 r0 k lk rk al ar g1 g2 x)
    (λ x, if l_equal x && r_equal x then S (length (rest (cur1 (scanning x)))) else 0)
    (λ x, l_equal x && r_equal x) (equals_step lk rk) fuel x)
    as (x' & Hw & (g1' & g2' & Hx') & Hend); [eauto|rewrite Hle, Hre; cbn; lia| |eauto 7].
  clear x g1 g2 Hx Hle Hre Hfuel. intros x (g1 & g2 & Hx) Hb.
  apply andb_true_iff in Hb as [Hle Hre]. unfold equals_step. rewrite Hle.
  destruct (equals_left_ok _ _ _ _ _ _ _ _ _ _ Hx) as (x1 & g1' & -> & Hx1 & Hre1 & Hl1).
  cbn [mbind Result_bind]. rewrite Hre1, Hre.
  destruct (equals_right_ok _ _ _ _ _ _ _ _ _ _ Hx1) as (x2 & g2' & -> & Hx2 & Hle2 & Hc2).
  exists x2. split; [done|]. cbn [andb]. split; [eauto|].
  rewrite Hle2, Hc2. destruct (l_equal x1) eqn:E; cbn [andb]; [|lia].
  specialize (Hl1 eq_refl). destruct (r_equal x2); lia.
Qed.

Record scanned_runs (s s' : Scanning) (al ar : list (Row * bool)) (k : K) (g1 g2 : list Entry) : Prop := {
  sr_inv : scan_inv s' (al ++ marked g1) (ar ++ marked g2);
  sr_1 : rest (cur1 s) = g1 ++ rest (cur1 s');
  sr_2 : rest (cur2 s) = g2 ++ rest (cur2 s');
  sr_g1 : Forall (λ e, e.1 = k) g1;
  sr_g2 : Forall (λ e, e.1 = k) g2;
  sr_end1 : no_head k (rest (cur1 s'));
  sr_end2 : no_head k (rest (cur2 s')) }.

Lemma scan_stream_runs_ok fuel s al ar k lk rk g1 g2 x :
  equals_inv (rest (cur1 s)) (rest (cur2 s)) k lk rk al ar g1 g2 x →
  l_equal x && r_equal x = false →
  length (rest (cur1 s)) ≤ fuel → length (rest (cur2 s)) ≤ fuel →
  ∃ s' g1' g2',
    (s ← (if l_equal x then stream_left fuel rk (scanning x) else Ok (scanning x));
     if r_equal x then stream_right fuel lk s else Ok s) = Ok s' ∧
    scanned_runs s s' al ar k g1' g2'.
Proof.
  intros [Hm Hlk Hrk Hg1 Hg2 Hl0 Hr0 He1 He2] Hne Hf1 Hf2.
  rewrite Hl0, length_app in Hf1. rewrite Hr0, length_app in Hf2.
  destruct (l_equal x) eqn:Ele.
  - cbn [andb] in Hne. rewrite Hne in *.
    destruct (scan_stream_left_ok fuel _ al _ g1 rk k Hm Hrk) as (s2 & g & -> & Hs2 & Hc & Hrest & Hg & Hend);
      [lia|done|]. cbn [mbind Result_bind].
    exists s2, g, g2. split; [done|]. split; try done; rewrite ?Hc; try done; [|by apply He2].
    by rewrite Hl0.
  - cbn [mbind Result_bind]. destruct (r_equal x) eqn:Ere.
    + destruct (scan_stream_right_ok fuel _ _ ar g2 lk k Hm Hlk) as (s2 & g & -> & Hs2 & Hc & Hrest & Hg & Hend);
        [lia|done|].
      exists s2, g1, g. split; [done|]. split; try done; rewrite ?Hc; try done; [|by apply He1].
      by rewrite Hr0.
    + exists (scanning x), g1, g2. split; [done|]. split; auto.
Qed.

Lemma scan_equal_ok fuel s al ar k r1 l r2 r :
  scan_inv s al ar → rest (cur1 s) = (k, r1) :: l → rest (cur2 s) = (k, r2) :: r →
  length (rest (cur1 s)) ≤ fuel → length (rest (cur2 s)) ≤ fuel →
  ∃ s' g1 g2, scan_equal fuel s = Ok s' ∧ scanned_runs s s' al ar k g1 g2.
Proof.
  intros Hs E1 E2 Hf1 Hf2. unfold scan_equal.
  destruct (current_row null key_null nl _ _ _ _ (si_1 _ _ _ Hs) E1) as (_ & Hk1 & _).
  destruct (current_row null key_null nr _ _ _ _ (si_2 _ _ _ Hs) E2) as (_ & Hk2 & _).
  destruct (report_left_ok _ _ _ _ _ _ _ _ told_equal_l Hs E1) as (s1 & -> & Hs1 & Hr1 & Hx1 & Hc1).
  cbn [mbind Result_bind]. rewrite <- Hc1 in E2.
  destruct (report_right_ok _ _ _ _ _ _ _ _ told_equal_r Hs1 E2) as (s2 & -> & Hs2 & Hr2 & Hx2 & Hc2).
  cbn [mbind Result_bind]. rewrite Hc1 in Hx2, E2. rewrite <- Hc2 in Hx1, Hr1.
  destruct (equals_ok fuel (rest (cur1 s)) (rest (cur2 s)) k (cur_idx (cur1 s)) (cur_idx (cur2 s)) al ar
    [(k, r1)] [(k, r2)] (mkEquals s2 true true)) as (x & g1 & g2 & -> & Hx & Hne); [|done|done| |].
  { split; cbn [scanning l_equal r_equal]; try done.
    - by eapply key_extends.
    - by eapply key_extends.
    - by apply Forall_singleton.
    - by apply Forall_singleton.
    - by rewrite Hr1.
    - by rewrite Hr2. }
  { cbn [scanning]. rewrite Hr1. rewrite E1 in Hf1. cbn in Hf1. lia. }
  cbn [mbind Result_bind]. by apply (scan_stream_runs_ok fuel s al ar k _ _ g1 g2 x).
Qed.

(** *** The main loop *)

Definition scan_progress (l0 r0 : list Entry) (s : Scanning) : Prop :=
  sorted (rest (cur1 s)) ∧ sorted (rest (cur2 s)) ∧
  ∃ al ar, scan_inv s al ar ∧
    al ++ verdicts_l (rest (cur1 s)) (rest (cur2 s)) = verdicts_l l0 r0 ∧
    ar ++ verdicts_r (rest (cur1 s)) (rest (cur2 s)) = verdicts_r l0 r0.

Definition remaining (s : Scanning) : nat := length (rest (cur1 s)) + length (rest (cur2 s)).

Lemma scan_less_progress l0 r0 s al ar k1 r1 l k2 r2 r :
  scan_inv s al ar → rest (cur1 s) = (k1, r1) :: l → rest (cur2 s) = (k2, r2) :: r →
  scan_progress l0 r0 s → key_null k1 = true ∨ row_cmp k1 k2 = Lt →
  al ++ verdicts_l (rest (cur1 s)) (rest (cur2 s)) = verdicts_l l0 r0 →
  ar ++ verdicts_r (rest (cur1 s)) (rest (cur2 s)) = verdicts_r l0 r0 →
  ∃ s', report_left (on_less scan) s = Ok s' ∧ scan_progress l0 r0 s' ∧ remaining s' < remaining s.
Proof.
  intros Hs E1 E2 (Hs1 & Hs2 & _) Hc Hl Hr.
  destruct (report_left_ok _ _ _ _ _ _ _ _ told_less Hs E1) as (s' & Hrep & Hs' & Hr1 & _ & Hc2).
  exists s'. split; [done|]. rewrite E1, E2 in *.
  destruct (verdicts_less (k1, r1) l ((k2, r2) :: r)) as [Vl Vr].
  { intros x Hx. by apply (less_no_match key_null (k1, r1) (k2, r2) r). }
  split; [|unfold remaining; rewrite Hr1, Hc2, E1, E2; cbn; lia].
  split; [rewrite Hr1; by eapply sorted_tail|]. rewrite Hc2, Hr1, E2. split; [done|].
  exists (al ++ [(r1, false)]), ar. split; [done|].
  rewrite Vl in Hl. rewrite Vr in Hr. by rewrite <- app_assoc.
Qed.

Lemma scan_greater_progress l0 r0 s al ar k1 r1 l k2 r2 r :
  scan_inv s al ar → rest (cur1 s) = (k1, r1) :: l → rest (cur2 s) = (k2, r2) :: r →
  scan_progress l0 r0 s → key_null k2 = true ∨ row_cmp k1 k2 = Gt →
  al ++ verdicts_l (rest (cur1 s)) (rest (cur2 s)) = verdicts_l l0 r0 →
  ar ++ verdicts_r (rest (cur1 s)) (rest (cur2 s)) = verdicts_r l0 r0 →
  ∃ s', report_right (on_greater scan) s = Ok s' ∧ scan_progress l0 r0 s' ∧ remaining s' < remaining s.
Proof.
  intros Hs E1 E2 (Hs1 & Hs2 & _) Hc Hl Hr.
  destruct (report_right_ok _ _ _ _ _ _ _ _ told_greater Hs E2) as (s' & Hrep & Hs' & Hr2 & _ & Hc1).
  exists s'. split; [done|]. rewrite E1, E2 in *.
  destruct (verdicts_greater (k2, r2) ((k1, r1) :: l) r) as [Vr Vl].
  { intros x Hx. by apply (greater_no_match key_null (k1, r1) l). }
  split; [|unfold remaining; rewrite Hr2, Hc1, E1, E2; cbn; lia].
  split; [by rewrite Hc1, E1|]. rewrite Hc1, Hr2, E1. split; [by eapply sorted_tail|].
  exists al, (ar ++ [(r2, false)]). split; [done|].
  rewrite Vl in Hl. rewrite Vr in Hr. by rewrite <- app_assoc.
Qed.

Lemma scan_equal_progress fuel l0 r0 s al ar k r1 l r2 r :
  scan_inv s al ar → rest (cur1 s) = (k, r1) :: l → rest (cur2 s) = (k, r2) :: r →
  scan_progress l0 r0 s → key_null k = false → remaining s ≤ fuel →
  al ++ verdicts_l (rest (cur1 s)) (rest (cur2 s)) = verdicts_l l0 r0 →
  ar ++ verdicts_r (rest (cur1 s)) (rest (cur2 s)) = verdicts_r l0 r0 →
  ∃ s', scan_equal fuel s = Ok s' ∧ scan_progress l0 r0 s' ∧ remaining s' < remaining s.
Proof.
  intros Hs E1 E2 (Hs1 & Hs2 & _) Hk Hfuel Hl Hr. unfold remaining in *.
  destruct (scan_equal_ok fuel s al ar k r1 l r2 r) as (s' & g1 & g2 & Hj & [Hi Hr1 Hr2 Hg1 Hg2 Hn1 Hn2]);
    [done..|lia|lia|].
  assert (g1 ≠ []) as Hne1.
  { intros ->. cbn in Hr1. rewrite <- Hr1, E1 in Hn1. by apply Hn1. }
  assert (g2 ≠ []) as Hne2.
  { intros ->. cbn in Hr2. rewrite <- Hr2, E2 in Hn2. by apply Hn2. }
  rewrite Hr1, Hr2 in *. exists s'. split; [done|]. split.
  - split; [by eapply sorted_app_r|]. split; [by eapply sorted_app_r|].
    destruct (verdicts_equal k g1 g2 (rest (cur1 s')) (rest (cur2 s'))) as [Vl Vr];
      [done..|by eapply run_complete; eauto|by eapply run_complete; eauto|].
    eexists _, _. split; [exact Hi|]. rewrite Vl in Hl. rewrite Vr in Hr.
    by rewrite <- !app_assoc.
  - rewrite !length_app. destruct g1; [done|]. cbn. lia.
Qed.

Lemma scan_step_ok fuel l0 r0 s :
  scan_progress l0 r0 s → both_unfinished s = true → remaining s ≤ fuel →
  ∃ s', scan_step fuel s = Ok s' ∧ scan_progress l0 r0 s' ∧ remaining s' < remaining s.
Proof.
  intros Hpr Hb Hfuel. destruct Hpr as (Hs1 & Hs2 & al & ar & Hs & Hl & Hr). unfold scan_step.
  destruct (scan_flush_clean_ok (scan_should_flush scan (self s) || (1 <? num_buffered_batches (cur1 s))
    || (1 <? num_buffered_batches (cur2 s))) true true _ _ _ Hs) as (s1 & Hf & Hi & Hr1 & Hr2 & _).
  cbv beta iota in Hf. rewrite Hf. clear Hf. cbn [mbind Result_bind].
  unfold both_unfinished in Hb. apply andb_true_iff in Hb as [Hb1 Hb2].
  rewrite (finished_rest null key_null nl) in Hb1 by apply Hs.
  rewrite (finished_rest null key_null nr) in Hb2 by apply Hs.
  assert (remaining s = remaining s1) as Hrem by (unfold remaining; congruence).
  rewrite Hrem in *. rewrite <- Hr1, <- Hr2 in *. clear dependent s.
  assert (scan_progress l0 r0 s1) as Hpr by (split; [done|]; split; eauto).
  destruct (rest (cur1 s1)) as [|[k1 r1] l] eqn:E1; [done|].
  destruct (rest (cur2 s1)) as [|[k2 r2] r] eqn:E2; [done|].
  rewrite (compare_cursor_ok null key_null nl nr _ _ k1 r1 l k2 r2 r) by (done || apply Hi).
  cbn [mbind Result_bind]. rewrite <- E1, <- E2 in Hl, Hr.
  destruct (key_null k1) eqn:N1; [|destruct (key_null k2) eqn:N2; [|destruct (row_cmp k1 k2) eqn:C]].
  - eapply scan_less_progress; eauto.
  - eapply scan_greater_progress; eauto.
  - apply row_cmp_eq in C as ->. eapply scan_equal_progress; eauto.
  - eapply scan_less_progress; eauto.
  - eapply scan_greater_progress; eauto.
Qed.

(** *** The unmatched tail *)

Definition unmatched (l : list Entry) : list (Row * bool) := (λ e, (e.2, false)) <$> l.

Lemma scan_drain_left_ok fuel s al ar :
  scan_inv s al ar → length (rest (cur1 s)) ≤ fuel →
  ∃ s', rwhile fuel (λ s, drain_l scan && negb (finished (cur1 s))) drain_left_step s = Ok s' ∧
    scan_inv s' (al ++ if drain_l scan then unmatched (rest (cur1 s)) else []) ar ∧ cur2 s' = cur2 s.
Proof.
  intros Hs Hfuel. destruct (drain_l scan) eqn:HL; [|exists s; rewrite app_nil_r; by destruct fuel].
  destruct (rwhile_inv (λ s', ∃ g, rest (cur1 s) = g ++ rest (cur1 s') ∧ cur2 s' = cur2 s ∧
      scan_inv s' (al ++ unmatched g) ar)
    (λ s', length (rest (cur1 s'))) (λ s, true && negb (finished (cur1 s))) drain_left_step fuel s)
    as (s' & Hw & (g & Hg & Hc & Hs') & Hend).
  - exists []. unfold unmatched. by rewrite app_nil_r.
  - done.
  - intros s' (g & Hg & Hc & Hs') Hb. cbn [andb] in Hb.
    rewrite (finished_rest null key_null nl) in Hb by apply Hs'.
    destruct (rest (cur1 s')) as [|[k r1] l] eqn:E1; [done|]. unfold drain_left_step.
    destruct (report_left_ok _ _ _ _ _ _ _ _ told_less Hs' E1) as (s1 & -> & Hs1 & Hr1 & _ & Hc2).
    cbn [mbind Result_bind].
    destruct (scan_flush_clean_ok (scan_should_flush scan (self s1)) true false _ _ _ Hs1)
      as (s2 & Hf & Hs2 & Hr2 & _ & _ & Hid & _). cbv beta iota delta [id] in Hf. rewrite Hf.
    exists s2. split; [done|]. rewrite Hr2, Hr1. split; [|cbn; lia].
    exists (g ++ [(k, r1)]). split_and!.
    + by rewrite Hg, <- app_assoc.
    + by rewrite Hid, Hc2.
    + unfold unmatched. by rewrite fmap_app, app_assoc.
  - exists s'. split; [done|]. split; [|done]. cbn [andb] in Hend.
    rewrite (finished_rest null key_null nl), negb_false_iff, bool_decide_eq_true in Hend by apply Hs'.
    rewrite Hend, app_nil_r in Hg. by rewrite Hg.
Qed.

Lemma scan_drain_right_ok fuel s al ar :
  scan_inv s al ar → length (rest (cur2 s)) ≤ fuel →
  ∃ s', rwhile fuel (λ s, drain_r scan && negb (finished (cur2 s))) drain_right_step s = Ok s' ∧
    scan_inv s' al (ar ++ if drain_r scan then unmatched (rest (cur2 s)) else []).
Proof.
  intros Hs Hfuel. destruct (drain_r scan) eqn:HL; [|exists s; rewrite app_nil_r; by destruct fuel].
  destruct (rwhile_inv (λ s', ∃ g, rest (cur2 s) = g ++ rest (cur2 s') ∧
      scan_inv s' al (ar ++ unmatched g))
    (λ s', length (rest (cur2 s'))) (λ s, true && negb (finished (cur2 s))) drain_right_step fuel s)
    as (s' & Hw & (g & Hg & Hs') & Hend).
  - exists []. unfold unmatched. by rewrite app_nil_r.
  - done.
  - intros s' (g & Hg & Hs') Hb. cbn [andb] in Hb.
    rewrite (finished_rest null key_null nr) in Hb by apply Hs'.
    destruct (rest (cur2 s')) as [|[k r1] l] eqn:E1; [done|]. unfold drain_right_step.
    destruct (report_right_ok _ _ _ _ _ _ _ _ told_greater Hs' E1) as (s1 & -> & Hs1 & Hr1 & _).
    cbn [mbind Result_bind].
    destruct (scan_flush_clean_ok (scan_should_flush scan (self s1)) false true _ _ _ Hs1)
      as (s2 & Hf & Hs2 & _ & Hr2 & _). cbv beta iota delta [id] in Hf. rewrite Hf.
    exists s2. split; [done|]. rewrite Hr2, Hr1. split; [|cbn; lia].
    exists (g ++ [(k, r1)]). split_and!.
    + by rewrite Hg, <- app_assoc.
    + unfold unmatched. by rewrite fmap_app, app_assoc.
  - exists s'. split; [done|]. cbn [andb] in Hend.
    rewrite (finished_rest null key_null nr), negb_false_iff, bool_decide_eq_true in Hend by apply Hs'.
    rewrite Hend, app_nil_r in Hg. by rewrite Hg.
Qed.

(** *** The whole scan *)

Lemma verdicts_one_empty l r :
  l = [] ∨ r = [] → verdicts_l l r = unmatched l ∧ verdicts_r l r = unmatched r.
Proof.
  intros [->| ->]; (split; [|]); try done; apply list_fmap_ext; done.
Qed.

Definition all_unmatched (l : list (Row * bool)) : Prop := Forall (λ p, p.2 = false) l.

Lemma unmatched_all l : all_unmatched (unmatched l).
Proof. apply Forall_fmap, Forall_true. done. Qed.

(** The joiner has been told the verdicts of both sides, but for unmatched rows at the
    end of a side that is not drained. *)
Definition told_all (j : J) (c1 c2 : Cursor) (l r : list Entry) : Prop :=
  ∃ al ar tl tr, told j c1 c2 al ar ∧
    al ++ tl = verdicts_l l r ∧ ar ++ tr = verdicts_r l r ∧
    all_unmatched tl ∧ all_unmatched tr ∧
    (drain_l scan = true → tl = []) ∧ (drain_r scan = true → tr = []).

Lemma scan_join_ok fuel s :
  scan_inv s [] [] → sorted (rest (cur1 s)) → sorted (rest (cur2 s)) → remaining s ≤ fuel →
  ∃ s', scan_join fuel s = Ok s' ∧ has_pending scan (self s') = false ∧
    told_all (self s') (cur1 s') (cur2 s') (rest (cur1 s)) (rest (cur2 s)).
Proof.
  intros Hs Hs1 Hs2 Hfuel. unfold scan_join.
  destruct (rwhile_inv (λ s', scan_progress (rest (cur1 s)) (rest (cur2 s)) s' ∧ remaining s' ≤ fuel) remaining
    both_unfinished (scan_step fuel) fuel s) as (s1 & -> & [(_ & _ & al & ar & Hi & Hl & Hr) Hrem] & Hend);
    [split; [split; [done|]; split; [done|]; by exists [], []|done]|done| |].
  { intros s' [Hpr Hle] Hb. destruct (scan_step_ok fuel _ _ s' Hpr Hb Hle) as (s2 & ? & ? & ?).
    exists s2. split_and!; try done. lia. }
  cbn [mbind Result_bind].
  destruct (verdicts_one_empty (rest (cur1 s1)) (rest (cur2 s1))) as [Vl Vr].
  { unfold both_unfinished in Hend. rewrite (finished_rest null key_null nl) in Hend by apply Hi.
    rewrite (finished_rest null key_null nr) in Hend by apply Hi.
    destruct (rest (cur1 s1)); [by left|]. destruct (rest (cur2 s1)); [by right|done]. }
  rewrite Vl in Hl. rewrite Vr in Hr. unfold remaining in Hrem.
  destruct (scan_drain_left_ok fuel s1 al ar Hi) as (s3 & -> & Hi3 & Hc3); [lia|]. cbn [mbind Result_bind].
  rewrite <- Hc3 in *.
  destruct (scan_drain_right_ok fuel s3 _ _ Hi3) as (s4 & -> & Hi4); [lia|]. cbn [mbind Result_bind].
  assert (∃ s', (if has_pending scan (self s4) then do_flush s4 else Ok s4) = Ok s' ∧
    has_pending scan (self s') = false ∧
    scan_inv s' (al ++ if drain_l scan then unmatched (rest (cur1 s1)) else [])
      (ar ++ if drain_r scan then unmatched (rest (cur2 s3)) else [])) as (s5 & -> & Hp & [_ _ Ht]).
  { destruct (has_pending scan (self s4)) eqn:Hp; [|by exists s4].
    destruct (scan_flush_clean_ok true false false _ _ _ Hi4) as (s5 & Hf & Hs5 & _ & _ & _ & _ & Hp5).
    exists s5. split; [|auto]. cbv beta iota delta [id] in Hf. rewrite <- Hf. by destruct (do_flush s4). }
  exists s5. split; [done|]. split; [done|].
  eexists _, _, (if drain_l scan then [] else unmatched (rest (cur1 s1))),
    (if drain_r scan then [] else unmatched (rest (cur2 s3))). split; [exact Ht|].
  rewrite <- Hl, <- Hr.
  destruct (drain_l scan), (drain_r scan); rewrite ?app_nil_r; split_and!;
    (done || apply unmatched_all || by apply Forall_nil_2).
Qed.

Lemma execute_scan_ok fuel joiner sl sr :
  (∀ c1 c2, told joiner c1 c2 [] []) →
  stream_wf nl sl → stream_wf nr sr →
  sorted (stream_entries null sl) → sorted (stream_entries null sr) →
  length (stream_entries null sl) + length (stream_entries null sr) ≤ fuel →
  ∃ left right j c1 c2, try_new null nl sl = Ok left ∧ try_new null nr sr = Ok right ∧
    execute_scan fuel joiner left right = Ok j ∧ has_pending scan j = false ∧
    told_all j c1 c2 (stream_entries null sl) (stream_entries null sr).
Proof.
  intros Hnew Hwl Hwr Hsl Hsr Hfuel.
  destruct (try_new_ok null key_null nl sl Hwl) as (left & c1 & Hnl & Hf1 & Hw1 & Hr1).
  destruct (try_new_ok null key_null nr sr Hwr) as (right & c2 & Hnr & Hf2 & Hw2 & Hr2).
  rewrite <- Hr1, <- Hr2 in *.
  destruct (scan_join_ok fuel (mkScanning joiner c1 c2)) as (s & Hj & Hp & Ht); [|done..|].
  { by split. }
  exists left, right, (self s), (cur1 s), (cur2 s). unfold execute_scan. rewrite Hf1, Hf2.
  cbn [mbind Result_bind]. by rewrite Hj.
Qed.

End Scan.
