(* ===== verification/SortMergeSemi.v ===== *)
(** * The sort-merge join: semi, anti and existence joins

    joins/smj/semi_join.rs and joins/smj/existence_join.rs.  Both joiners are clients
    of the scan of [SortMergeScan]: they give the reactions to a reported row and the
    [flush] that sends the pending rows, and discharge [ScanLaws].  The theorems say
    that a semi (anti) join sends the rows of its side that have a (no) partner, in
    input order, and that the existence join sends every left row, in order, with a
    boolean that tells whether it has a partner. *)

From S2P Require Import Prelude MachineInt Joins StreamCursor SortMergeScan.

(** ** SemiJoiner *)

Inductive SemiJoinSide := L | R.
#[export] Instance SemiJoinSide_eq_dec : EqDecision SemiJoinSide.
Proof. solve_decision. Defined.

Record JoinerParams := mkJoinerParams { join_side : SemiJoinSide; semi : bool }.
Definition LEFT_SEMI := mkJoinerParams L true.
Definition LEFT_ANTI := mkJoinerParams L false.
Definition RIGHT_SEMI := mkJoinerParams R true.
Definition RIGHT_ANTI := mkJoinerParams R false.

Section SemiJoin.
Context {V : Type} (null : V) {K : Type} `{RowKey K} (key_null : K → bool).
Context (P : JoinerParams) (batch_size : nat) (schema : nat).
Local Abbreviation Cursor := (StreamCursor (V:=V) (K:=K)).
Local Abbreviation Row := (list V).
Local Abbreviation Entry := (K * list V)%type.
Local Abbreviation is_side s := (bool_decide (join_side P = s)).

Record SemiJoiner := mkSemi {
  indices : list Idx; output : list (RecordBatch (V:=V)); output_rows : nat }.

Definition semi_new : SemiJoiner := mkSemi [] [] 0.

Definition semi_should_flush (j : SemiJoiner) : bool := batch_size <=? length (indices j).

Definition semi_flush (j : SemiJoiner) (c1 c2 : Cursor) : Result SemiJoiner :=
  cols ← match join_side P with
         | L => batch_interleave (batches c1) (indices j)
         | R => batch_interleave (batches c2) (indices j)
         end;
  b ← try_new_batch schema (columns cols) (length (indices j));
  if decide (0 < num_rows b)
  then Ok (mkSemi [] (output j ++ [b]) (output_rows j + num_rows b))
  else Ok (mkSemi [] (output j) (output_rows j)).

Definition semi_push (cond : bool) (j : SemiJoiner) (i : Idx) : SemiJoiner :=
  if cond then mkSemi (indices j ++ [i]) (output j) (output_rows j) else j.

(** The reactions of [SemiJoiner::join] to the rows of the scan. *)
Definition semi_scan : Scan (V:=V) (K:=K) SemiJoiner := {|
  on_less := semi_push (is_side L && negb (semi P));
  on_greater := semi_push (is_side R && negb (semi P));
  on_equal_l := semi_push (is_side L && semi P);
  on_equal_r := semi_push (is_side R && semi P);
  scan_should_flush := semi_should_flush;
  scan_flush := semi_flush;
  drain_l := is_side L && negb (semi P);
  drain_r := is_side R && negb (semi P);
  has_pending := λ j, bool_decide (indices j ≠ []) |}.

Definition semi_join (fuel : nat) (left right : Cursor) : Result SemiJoiner :=
  execute_scan key_null semi_scan fuel semi_new left right.

(** The rows whose verdict is the one the joiner wants. *)
Definition select (l : list (Row * bool)) : list Row := fst <$> filter (λ p, p.2 = semi P) l.

Definition side_of {A} (l r : A) : A := match join_side P with L => l | R => r end.

Definition semi_spec (l r : list Entry) : list Row :=
  match join_side P with
  | L => snd <$> filter (λ e, existsb (matches key_null e) r = semi P) l
  | R => snd <$> filter (λ f, existsb (λ e, matches key_null e f) l = semi P) r
  end.

Context (nl nr : nat) (Hschema : schema = side_of nl nr).

Definition semi_told (j : SemiJoiner) (c1 c2 : Cursor) (al ar : list (Row * bool)) : Prop :=
  ∃ sent pend, sent ++ pend = select (side_of al ar) ∧
    concat (batch_rows null <$> output j) = sent ∧ output_rows j = length sent ∧
    Forall2 (idx_row null (side_of c1 c2)) (indices j) pend.

Lemma select_app a b : select (a ++ b) = select a ++ select b.
Proof. unfold select. by rewrite filter_app, fmap_app. Qed.

(** A row is pushed iff the side and the verdict are the wanted ones. *)
Lemma semi_push_told s (b : bool) j c1 c2 al ar i r :
  idx_row null (match s with L => c1 | R => c2 end) i r → semi_told j c1 c2 al ar →
  semi_told (semi_push (is_side s && if b then semi P else negb (semi P)) j i) c1 c2
    (match s with L => al ++ [(r, b)] | R => al end) (match s with L => ar | R => ar ++ [(r, b)] end).
Proof.
  intros Hi (sent & pend & Hs & Ho & Hn & Hp). unfold semi_told, semi_push, side_of in *.
  case_bool_decide as Hside; cbn [andb].
  - subst s. destruct (if b then semi P else negb (semi P)) eqn:Hb.
    + assert (b = semi P) as -> by (by destruct b, (semi P)). exists sent, (pend ++ [r]). cbn [output output_rows indices].
      rewrite app_assoc, Hs. split_and!; [|done|done|].
      * destruct (join_side P); rewrite select_app; f_equal; unfold select;
          by rewrite filter_cons, decide_True by done.
      * apply Forall2_app; [done|]. apply Forall2_cons. split; [by destruct (join_side P)|constructor].
    + exists sent, pend. split_and!; try done. assert (b ≠ semi P) by (by destruct b, (semi P)).
      destruct (join_side P); rewrite select_app, Hs; unfold select at 3;
        rewrite filter_cons, decide_False by done; by rewrite app_nil_r.
  - exists sent, pend. by destruct (join_side P), s.
Qed.

Lemma semi_flush_ok j c1 c2 al ar :
  cursor_wf null key_null nl c1 → cursor_wf null key_null nr c2 → semi_told j c1 c2 al ar →
  ∃ j', semi_flush j c1 c2 = Ok j' ∧ indices j' = [] ∧ ∀ c1' c2', semi_told j' c1' c2' al ar.
Proof.
  intros H1 H2 (sent & pend & Hs & Ho & Hn & Hp). unfold semi_flush.
  assert (∃ b, match join_side P with L => batch_interleave (batches c1) (indices j)
      | R => batch_interleave (batches c2) (indices j) end = Ok b ∧ batch_ok b ∧
    num_rows b = length pend ∧ length (columns b) = schema ∧
    ∀ k r, pend !! k = Some r → row_at null (columns b) k = r) as (b & -> & Hok & Hrows & Hcols & Hr).
  { rewrite Hschema. unfold side_of in *. destruct (join_side P).
    - apply (batch_interleave_ok null key_null nl c1); [apply H1|done].
    - apply (batch_interleave_ok null key_null nr c2); [apply H2|done]. }
  cbn [mbind Result_bind]. pose proof (Forall2_length _ _ _ Hp) as Hlen.
  unfold try_new_batch. rewrite decide_True by (split; [done|]; rewrite Hlen, <- Hrows; exact Hok).
  cbn [mbind Result_bind num_rows]. rewrite Hlen.
  pose proof (batch_rows_list null id pend _ Hr) as Hb. rewrite list_fmap_id in Hb.
  case_decide as Hpos; (eexists; split; [done|]; split; [done|]; intros c1' c2'; exists (sent ++ pend), []);
    cbn [output output_rows indices]; rewrite app_nil_r; (split; [done|]).
  - rewrite fmap_app, concat_app, Ho, fmap_cons, Hb, concat_cons, app_nil_r, length_app, Hn.
    split_and!; done || constructor.
  - assert (pend = []) as -> by (apply length_zero_iff_nil; lia). rewrite app_nil_r.
    split_and!; done || constructor.
Qed.

#[export] Instance semi_laws : ScanLaws null key_null semi_scan nl nr semi_told.
Proof.
  split.
  - intros j c1 c2 c1' c2' al ar H1 H2 (sent & pend & Hs & Ho & Hn & Hp). exists sent, pend.
    split_and!; try done. eapply Forall2_impl; [exact Hp|]. unfold side_of.
    intros i r. destruct (join_side P); by apply idx_row_extends.
  - intros j c1 c2 al ar i r. apply (semi_push_told L false).
  - intros j c1 c2 al ar i r. apply (semi_push_told L true).
  - intros j c1 c2 al ar i r. apply (semi_push_told R false).
  - intros j c1 c2 al ar i r. apply (semi_push_told R true).
  - intros j c1 c2 al ar H1 H2 Ht. destruct (semi_flush_ok j c1 c2 al ar H1 H2 Ht) as (j' & ? & Hi & ?).
    exists j'. split_and!; try done. cbn. by rewrite Hi.
Qed.

Lemma select_unmatched tl :
  all_unmatched tl → semi P = true → select tl = [].
Proof.
  intros Ht Hsemi. unfold select. rewrite filter_none; [done|]. unfold all_unmatched in Ht.
  rewrite Forall_forall in Ht. intros p Hp. rewrite (Ht p Hp), Hsemi. done.
Qed.

Lemma filter_fmap {A B} (f : A → B) (Q : B → Prop) `{∀ x, Decision (Q x)} (l : list A) :
  filter Q (f <$> l) = f <$> filter (λ x, Q (f x)) l.
Proof.
  induction l as [|x l IH]; [done|]. rewrite fmap_cons, !filter_cons.
  destruct (decide (Q (f x))); rewrite ?fmap_cons; by rewrite IH.
Qed.

Lemma select_verdicts l r :
  select (side_of (verdicts_l key_null l r) (verdicts_r key_null l r)) = semi_spec l r.
Proof.
  unfold select, semi_spec, side_of, verdicts_l, verdicts_r.
  destruct (join_side P); rewrite filter_fmap, <- list_fmap_compose; done.
Qed.

Lemma semi_join_ok fuel sl sr :
  stream_wf nl sl → stream_wf nr sr →
  sorted (stream_entries null sl) → sorted (stream_entries null sr) →
  length (stream_entries null sl) + length (stream_entries null sr) ≤ fuel →
  ∃ left right j, try_new null nl sl = Ok left ∧ try_new null nr sr = Ok right ∧
    semi_join fuel left right = Ok j ∧
    concat (batch_rows null <$> output j) = semi_spec (stream_entries null sl) (stream_entries null sr) ∧
    output_rows j = length (semi_spec (stream_entries null sl) (stream_entries null sr)).
Proof.
  intros Hwl Hwr Hsl Hsr Hfuel.
  destruct (execute_scan_ok null key_null semi_scan nl nr (told := semi_told) fuel semi_new sl sr)
    as (left & right & j & c1 & c2 & Hl & Hr & Hj & Hpend & al & ar & tl & tr &
        (sent & pend & Hs & Ho & Hn & Hp) & Hal & Har & Htl & Htr & Hdl & Hdr); [|done..|].
  { intros c1 c2. exists [], []. split_and!; try done. unfold side_of. by destruct (join_side P). }
  exists left, right, j. split_and!; try done; rewrite <- select_verdicts, <- Hal, <- Har.
  1: rewrite Ho. 2: rewrite Hn; f_equal.
  all: apply bool_decide_eq_false, dec_stable in Hpend; rewrite Hpend in Hp;
    apply Forall2_nil_inv_l in Hp as ->; rewrite app_nil_r in Hs; rewrite Hs.
  all: cbn [drain_l drain_r semi_scan] in Hdl, Hdr; unfold side_of in *;
    destruct (join_side P), (semi P) eqn:E; cbn in Hdl, Hdr;
    rewrite select_app, ?(select_unmatched tl), ?(select_unmatched tr) by done;
    rewrite ?Hdl, ?Hdr by done; by rewrite app_nil_r.
Qed.

End SemiJoin.

(** C21: the semi and anti sort-merge joins of either side terminate and send exactly
    the rows of their side that have (do not have) a partner with an equal non-null key,
    in input order. *)
Theorem smj_semi_join_correct {V} (null : V) `{RowKey K} (key_null : K → bool)
    (P : JoinerParams) (batch_size nl nr fuel : nat) sl sr :
  stream_wf nl sl → stream_wf nr sr →
  sorted (stream_entries null sl) → sorted (stream_entries null sr) →
  length (stream_entries null sl) + length (stream_entries null sr) ≤ fuel →
  ∃ left right j, try_new null nl sl = Ok left ∧ try_new null nr sr = Ok right ∧
    semi_join key_null P batch_size (side_of P nl nr) fuel left right = Ok j ∧
    concat (batch_rows null <$> output j)
      = semi_spec key_null P (stream_entries null sl) (stream_entries null sr) ∧
    output_rows j = length (semi_spec key_null P (stream_entries null sl) (stream_entries null sr)).
Proof. by apply semi_join_ok. Qed.

Lemma smj_semi_join_correct_witness :
  let rows := [[-1; 10]; [1; 11]]%Z in
  ∃ left right j, try_new 0%Z 2 CursorSample.sl = Ok left ∧ try_new 0%Z 2 CursorSample.sr = Ok right ∧
    semi_join CursorSample.sample_null LEFT_ANTI 1 2 11 left right = Ok j ∧
    concat (batch_rows 0%Z <$> output j) = rows ∧ output_rows j = length rows.
Proof.
  intros rows.
  assert (semi_spec CursorSample.sample_null LEFT_ANTI (stream_entries 0%Z CursorSample.sl)
    (stream_entries 0%Z CursorSample.sr) = rows) as <- by (vm_compute; reflexivity).
  apply (smj_semi_join_correct 0%Z CursorSample.sample_null LEFT_ANTI 1 2 2 11).
  - apply CursorSample.sl_wf.
  - apply CursorSample.sr_wf.
  - apply CursorSample.sl_sorted.
  - apply CursorSample.sr_sorted.
  - cbn. lia.
Defined.

(** The same join evaluated. *)
Example smj_semi_join_runs :
  (left ← try_new 0%Z 2 CursorSample.sl; right ← try_new 0%Z 2 CursorSample.sr;
   j ← semi_join CursorSample.sample_null RIGHT_SEMI 1 2 11 left right;
   Ok (concat (batch_rows 0%Z <$> output j))) = Ok [[2; 21]; [2; 22]; [5; 24]]%Z.
Proof. vm_compute. reflexivity. Qed.

(** ** ExistenceJoiner *)

Section ExistenceJoin.
Context {V : Type} (null : V) (of_bool : bool → V) {K : Type} `{RowKey K} (key_null : K → bool).
Context (batch_size : nat) (output_schema : nat).
Local Abbreviation Cursor := (StreamCursor (V:=V) (K:=K)).
Local Abbreviation Row := (list V).
Local Abbreviation Entry := (K * list V)%type.

Record ExistenceJoiner := mkExistence {
  e_indices : list Idx; e_exists : list bool;
  e_output : list (RecordBatch (V:=V)); e_output_rows : nat }.

Definition existence_new : ExistenceJoiner := mkExistence [] [] [] 0.

Definition existence_should_flush (j : ExistenceJoiner) : bool := batch_size <=? length (e_indices j).

Definition existence_flush (j : ExistenceJoiner) (c1 c2 : Cursor) : Result ExistenceJoiner :=
  cols ← batch_interleave (batches c1) (e_indices j);
  let exists_col := of_bool <$> e_exists j in
  b ← try_new_batch output_schema (columns cols ++ [exists_col]) (length (e_indices j));
  if decide (0 < num_rows b)
  then Ok (mkExistence [] [] (e_output j ++ [b]) (e_output_rows j + num_rows b))
  else Ok (mkExistence [] [] (e_output j) (e_output_rows j)).

Definition existence_push (b : bool) (j : ExistenceJoiner) (i : Idx) : ExistenceJoiner :=
  mkExistence (e_indices j ++ [i]) (e_exists j ++ [b]) (e_output j) (e_output_rows j).

(** The reactions of [ExistenceJoiner::join]: the right side is only skipped. *)
Definition existence_scan : Scan (V:=V) (K:=K) ExistenceJoiner := {|
  on_less := existence_push false;
  on_greater := λ j _, j;
  on_equal_l := existence_push true;
  on_equal_r := λ j _, j;
  scan_should_flush := existence_should_flush;
  scan_flush := existence_flush;
  drain_l := true;
  drain_r := false;
  has_pending := λ j, bool_decide (e_indices j ≠ []) |}.

Definition existence_join (fuel : nat) (left right : Cursor) : Result ExistenceJoiner :=
  execute_scan key_null existence_scan fuel existence_new left right.

Definition with_flag (p : Row * bool) : Row := p.1 ++ [of_bool p.2].

Definition existence_spec (l r : list Entry) : list Row :=
  (λ e, e.2 ++ [of_bool (existsb (matches key_null e) r)]) <$> l.

Context (nl nr : nat).

Definition existence_told (j : ExistenceJoiner) (c1 c2 : Cursor) (al ar : list (Row * bool)) : Prop :=
  ∃ sent pend, sent ++ pend = al ∧
    concat (batch_rows null <$> e_output j) = with_flag <$> sent ∧ e_output_rows j = length sent ∧
    Forall2 (idx_row null c1) (e_indices j) (fst <$> pend) ∧ e_exists j = snd <$> pend.

Lemma existence_push_told b j c1 c2 al ar i r :
  idx_row null c1 i r → existence_told j c1 c2 al ar →
  existence_told (existence_push b j i) c1 c2 (al ++ [(r, b)]) ar.
Proof.
  intros Hi (sent & pend & <- & Ho & Hn & Hp & He). exists sent, (pend ++ [(r, b)]).
  unfold existence_push. cbn [e_output e_output_rows e_indices e_exists].
  rewrite !fmap_app, He, app_assoc. split_and!; try done.
  apply Forall2_app; [done|]. apply Forall2_cons. split; [done|constructor].
Qed.

Lemma existence_flush_ok j c1 c2 al ar :
  output_schema = S nl → cursor_wf null key_null nl c1 → existence_told j c1 c2 al ar →
  ∃ j', existence_flush j c1 c2 = Ok j' ∧ e_indices j' = [] ∧ ∀ c1' c2', existence_told j' c1' c2' al ar.
Proof.
  intros Hs H1 (sent & pend & <- & Ho & Hn & Hp & He). unfold existence_flush.
  destruct (batch_interleave_ok null key_null nl c1 _ _ (cw_base _ _ _ _ H1) Hp)
    as (b & -> & Hok & Hrows & Hcols & Hr).
  cbn [mbind Result_bind]. pose proof (Forall2_length _ _ _ Hp) as Hlen. rewrite length_fmap in Hlen, Hrows.
  unfold try_new_batch. rewrite Hlen, He. rewrite decide_True.
  2: { rewrite length_app, Hcols, Hs. split; [cbn; lia|]. apply Forall_app. split.
       - rewrite <- Hrows. exact Hok.
       - apply Forall_singleton. by rewrite !length_fmap. }
  cbn [mbind Result_bind num_rows].
  assert (batch_rows null (mkBatch (length pend) (columns b ++ [of_bool <$> (snd <$> pend)]))
    = with_flag <$> pend) as Hb.
  { apply batch_rows_list. intros k p Hk. rewrite row_at_app. unfold with_flag. f_equal.
    - apply Hr. by rewrite list_lookup_fmap, Hk.
    - cbn. f_equal. erewrite nth_lookup_Some; [done|]. by rewrite !list_lookup_fmap, Hk. }
  case_decide as Hpos; (eexists; split; [done|]; split; [done|]; intros c1' c2'; exists (sent ++ pend), []);
    cbn [e_output e_output_rows e_indices e_exists]; rewrite app_nil_r; (split; [done|]).
  - rewrite !fmap_app, concat_app, Ho, fmap_cons, Hb, concat_cons, app_nil_r, length_app, Hn.
    split_and!; done || constructor.
  - assert (pend = []) as -> by (apply length_zero_iff_nil; lia). rewrite app_nil_r.
    split_and!; done || constructor.
Qed.

Lemma existence_laws :
  output_schema = S nl → ScanLaws null key_null existence_scan nl nr existence_told.
Proof.
  intros Hs. split.
  - intros j c1 c2 c1' c2' al ar H1 H2 (sent & pend & ? & ? & ? & Hp & ?). exists sent, pend.
    split_and!; try done. eapply Forall2_impl; [exact Hp|]. intros. by eapply idx_row_extends.
  - intros j c1 c2 al ar i r. apply (existence_push_told false).
  - intros j c1 c2 al ar i r. apply (existence_push_told true).
  - intros j c1 c2 al ar i r _ Ht. exact Ht.
  - intros j c1 c2 al ar i r _ Ht. exact Ht.
  - intros j c1 c2 al ar H1 H2 Ht.
    destruct (existence_flush_ok j c1 c2 al ar Hs H1 Ht) as (j' & ? & Hi & ?).
    exists j'. split_and!; try done. cbn. by rewrite Hi.
Qed.

Lemma existence_join_ok fuel sl sr :
  output_schema = S nl → stream_wf nl sl → stream_wf nr sr →
  sorted (stream_entries null sl) → sorted (stream_entries null sr) →
  length (stream_entries null sl) + length (stream_entries null sr) ≤ fuel →
  ∃ left right j, try_new null nl sl = Ok left ∧ try_new null nr sr = Ok right ∧
    existence_join fuel left right = Ok j ∧
    concat (batch_rows null <$> e_output j)
      = existence_spec (stream_entries null sl) (stream_entries null sr) ∧
    e_output_rows j = length (stream_entries null sl).
Proof.
  intros Hs Hwl Hwr Hsl Hsr Hfuel. pose proof (existence_laws Hs) as Hlaws.
  destruct (execute_scan_ok null key_null existence_scan nl nr (told := existence_told) fuel existence_new sl sr)
    as (left & right & j & c1 & c2 & Hl & Hr & Hj & Hpend & al & ar & tl & tr &
        (sent & pend & Hsp & Ho & Hn & Hp & He) & Hal & Har & Htl & Htr & Hdl & Hdr); [|done..|].
  { intros c1 c2. exists [], []. split_and!; done || constructor. }
  cbn in Hpend. apply bool_decide_eq_false, dec_stable in Hpend. rewrite Hpend in Hp.
  apply Forall2_nil_inv_l, fmap_nil_inv in Hp as ->. rewrite app_nil_r in Hsp. subst al.
  rewrite (Hdl eq_refl), app_nil_r in Hal. exists left, right, j. split_and!; try done.
  - rewrite Ho, Hal. unfold verdicts_l, existence_spec. by rewrite <- list_fmap_compose.
  - rewrite Hn, Hal. unfold verdicts_l. by rewrite length_fmap.
Qed.

(** With a schema of another width than the buffered columns plus one, every flush
    fails. *)
Lemma existence_flush_mismatch j c1 c2 rows :
  output_schema ≠ S nl → cursor_wf null key_null nl c1 →
  Forall2 (idx_row null c1) (e_indices j) rows →
  existence_flush j c1 c2 = Err (Execution "number of columns or rows mismatch").
Proof.
  intros Hs H1 Hp. unfold existence_flush.
  destruct (batch_interleave_ok null key_null nl c1 _ _ (cw_base _ _ _ _ H1) Hp)
    as (b & -> & _ & _ & Hcols & _). cbn [mbind Result_bind]. unfold try_new_batch.
  rewrite decide_False; [done|]. rewrite length_app, Hcols. cbn. intros [? _]. lia.
Qed.

End ExistenceJoin.

(** The existence sort-merge join terminates and sends every left row once, in input
    order, with a boolean that says whether the right side has a row with its non-null
    key. *)
Theorem smj_existence_join_correct {V} (null : V) (of_bool : bool → V) `{RowKey K} (key_null : K → bool)
    (batch_size nl nr fuel : nat) sl sr :
  stream_wf nl sl → stream_wf nr sr →
  sorted (stream_entries null sl) → sorted (stream_entries null sr) →
  length (stream_entries null sl) + length (stream_entries null sr) ≤ fuel →
  ∃ left right j, try_new null nl sl = Ok left ∧ try_new null nr sr = Ok right ∧
    existence_join of_bool key_null batch_size (S nl) fuel left right = Ok j ∧
    concat (batch_rows null <$> e_output j)
      = existence_spec of_bool key_null (stream_entries null sl) (stream_entries null sr) ∧
    e_output_rows j = length (stream_entries null sl).
Proof. by apply existence_join_ok. Qed.

Lemma smj_existence_join_correct_witness :
  let rows := [[-1; 10; 0]; [1; 11; 0]; [2; 12; 1]; [2; 13; 1]; [2; 14; 1]; [5; 15; 1]]%Z in
  ∃ left right j, try_new 0%Z 2 CursorSample.sl = Ok left ∧ try_new 0%Z 2 CursorSample.sr = Ok right ∧
    existence_join Z.b2z CursorSample.sample_null 2 3 11 left right = Ok j ∧
    concat (batch_rows 0%Z <$> e_output j) = rows ∧ e_output_rows j = 6.
Proof.
  intros rows.
  assert (existence_spec Z.b2z CursorSample.sample_null (stream_entries 0%Z CursorSample.sl)
    (stream_entries 0%Z CursorSample.sr) = rows) as <- by (vm_compute; reflexivity).
  apply (smj_existence_join_correct 0%Z Z.b2z CursorSample.sample_null 2 2 2 11).
  - apply CursorSample.sl_wf.
  - apply CursorSample.sr_wf.
  - apply CursorSample.sl_sorted.
  - apply CursorSample.sr_sorted.
  - cbn. lia.
Defined.

(** When column pruning leaves fewer left columns than the full output schema has, every
    flush of the existence join fails with a schema mismatch. *)
Theorem smj_existence_pruned_fails {V} (null : V) (of_bool : bool → V) {K} (key_null : K → bool)
    (output_schema nl : nat) (j : ExistenceJoiner) c1 c2 rows :
  nl + 1 < output_schema → cursor_wf null key_null nl c1 →
  Forall2 (idx_row null c1) (e_indices j) rows →
  existence_flush of_bool output_schema j c1 c2 = Err (Execution "number of columns or rows mismatch").
Proof. intros Hs Hc Hp. eapply existence_flush_mismatch; [|exact Hc|exact Hp]. lia. Qed.

(** Left input of columns (key, value) pruned to the key: the operator's own schema
    still has three fields. *)
Lemma smj_existence_pruned_fails_witness :
  let c := mkCursor [] [null_batch 0%Z 1; mkBatch 1 [[7%Z]]] (1, 0) [[]; [7%Z]] [Some [true]; None] false in
  existence_flush Z.b2z 3 (mkExistence [(1, 0)] [false] [] 0) c c
    = Err (Execution "number of columns or rows mismatch").
Proof.
  intros c.
  apply (smj_existence_pruned_fails 0%Z Z.b2z (λ _ : Z, false) 3 1 _ c c [[7%Z]]); [lia| |].
  - split; [split; try done| |].
    + intros [|[|i]] b ks Hb Hk; try done. injection Hb as <-. injection Hk as <-. split; [|done].
      split; try done. by apply Forall_singleton.
    + apply Forall_nil_2.
    + exists 0, (mkBatch 1 [[7%Z]]). cbn. split_and!; try done. lia.
  - apply Forall2_cons. split; [|constructor]. exists (mkBatch 1 [[7%Z]]). cbn. split_and!; try done. lia.
Defined.
