(* ===== verification/MemManager.v ===== *)
(** * The memory manager

    native-engine/auron-memmgr/src/lib.rs: registration of memory consumers, the
    accounting of what they use, the decision whether a consumer that grows must
    spill, wait or do nothing, and the condition variable on which it waits.

    [MemManager] is the manager with the consumers it owns; every operation is one
    critical section, with its asserts, casts and wrap-around.  A consumer is named by
    the identity of its [Arc<MemConsumerInfo>]; the vector of the manager owns the only
    strong reference, so [consumer_info] fails exactly when the consumer is not in it.
    The values read from the JVM and the operating system are arguments ([Env]).
    [waiters] are the threads asleep on the condition variable.

    The second part is the locks themselves: the sequence of acquisitions of each
    operation, and interleavings of such sequences. *)

From S2P Require Import Prelude MachineInt.
Local Open Scope Z_scope.

Record MemConsumerStatus := mkStatus { mem_used : Z; spillable : bool }.

Record MemManagerStatus := mkMmStatus {
  num_consumers : Z; total_used : Z; num_spillables : Z; mem_spillables : Z }.

Record MemManager := mkManager {
  total : Z;
  consumers : list (nat * MemConsumerStatus);
  status : MemManagerStatus;
  waiters : list nat }.

Definition MIN_TRIGGER_SIZE : Z := Z.shiftl 1 24.

(** [init] *)
Definition mm_init (total : Z) : MemManager := mkManager total [] (mkMmStatus 0 0 0 0) [].

(** [consumer_info]: upgrade the weak reference. *)
Definition consumer_info (mm : MemManager) (id : nat) : Result MemConsumerStatus :=
  match list_find (λ c, c.1 = id) (consumers mm) with
  | Some (_, c) => Ok c.2
  | None => Panic
  end.

Definition set_info (mm : MemManager) (id : nat) (s : MemConsumerStatus) : MemManager :=
  mkManager (total mm) ((λ c, if decide (c.1 = id) then (id, s) else c) <$> consumers mm)
    (status mm) (waiters mm).

Definition set_status (mm : MemManager) (s : MemManagerStatus) : MemManager :=
  mkManager (total mm) (consumers mm) s (waiters mm).

(** Freeing some memory wakes all the waiting growers. *)
Definition update_total_used_with_diff (mm : MemManager) (diff_used : Z) : Result (MemManager * Z) :=
  let s := status mm in
  let sum := isize (isize (total_used s) + diff_used) in
  _ ← rassert (0 <=? sum);
  let new_used := usize sum in
  let mm' := set_status mm (mkMmStatus (num_consumers s) new_used (num_spillables s) (mem_spillables s)) in
  Ok (if new_used <? total_used s
      then mkManager (total mm') (consumers mm') (status mm') [] else mm', new_used).

Definition register_consumer (mm : MemManager) (id : nat) (spillable : bool) : MemManager :=
  let s := status mm in
  mkManager (total mm) (consumers mm ++ [(id, mkStatus 0 spillable)])
    (mkMmStatus (usize (num_consumers s + 1)) (total_used s)
       (if spillable then usize (num_spillables s + 1) else num_spillables s) (mem_spillables s))
    (waiters mm).

(** [Vec::swap_remove] *)
Definition swap_remove {A} (i : nat) (l : list A) : list A :=
  match last l with
  | Some x => take (length l - 1) (<[i := x]> l)
  | None => l
  end.

Definition deregister_consumer (mm : MemManager) (id : nat) : Result MemManager :=
  c ← consumer_info mm id;
  let s := status mm in
  _ ← rassert (mem_used c <=? total_used s);
  let mm := set_status mm (mkMmStatus (usize (num_consumers s - 1)) (total_used s)
              (num_spillables s) (mem_spillables s)) in
  '(mm, _) ← update_total_used_with_diff mm (isize (- isize (mem_used c)));
  mm ← (if spillable c then
          let s := status mm in
          _ ← rassert (mem_used c <=? mem_spillables s);
          Ok (set_status mm (mkMmStatus (num_consumers s) (total_used s) (usize (num_spillables s - 1))
                               (usize (mem_spillables s - mem_used c))))
        else Ok mm);
  match list_find (λ x, x.1 = id) (consumers mm) with
  | Some (i, _) => Ok (mkManager (total mm) (swap_remove i (consumers mm)) (status mm) (waiters mm))
  | None => Panic
  end.

Definition set_spillable (mm : MemManager) (id : nat) (b : bool) : Result MemManager :=
  c ← consumer_info mm id;
  mm ← (if decide (spillable c ≠ b) then
          let s := status mm in
          if b then
            Ok (set_status mm (mkMmStatus (num_consumers s) (total_used s) (usize (num_spillables s + 1))
                                 (usize (mem_spillables s + mem_used c))))
          else
            _ ← rassert (mem_used c <=? mem_spillables s);
            Ok (set_status mm (mkMmStatus (num_consumers s) (total_used s) (usize (num_spillables s - 1))
                                 (usize (mem_spillables s - mem_used c))))
        else Ok mm);
  Ok (set_info mm id (mkStatus (mem_used c) b)).

(** ** Updating the memory of a consumer *)

Inductive Operation := Spill | Wait | Nothing.
#[export] Instance Operation_eq_dec : EqDecision Operation.
Proof. solve_decision. Defined.

(** What the operating system and the JVM report at that moment. *)
Record Env := mkEnv { mem_jvm_direct_used : Z; mem_proc_max : Z; mem_proc_total_used : Z }.

(** The three updaters; each gives the new consumer status, the old and the new use. *)
Definition Updater : Type := MemConsumerStatus → MemConsumerStatus * Z * Z.
Definition update_mem_used (new_used : Z) : Updater := λ c,
  (mkStatus new_used (spillable c), mem_used c, new_used).
Definition update_mem_used_with_diff (diff_used : Z) : Updater := λ c,
  let old_used := mem_used c in
  let new_used := if 0 <? diff_used then Z.min USIZE_MAX (old_used + usize diff_used)
                  else Z.max 0 (old_used - usize (isize (- diff_used))) in
  (mkStatus new_used (spillable c), old_used, new_used).
Definition force_spill : Updater := λ c,
  (c, mem_used c, usize (mem_used c + 1)).

(** The decision once the locks are released. *)
Definition decide_operation (env : Env) (total total_used num_spillables mem_spillables : Z)
    (old_used new_used : Z) (spillable forced : bool) : Result Operation :=
  let mem_unspillable := usize (total_used - mem_spillables) in
  let total_managed := Z.max 0 (Z.max 0 (total - mem_jvm_direct_used env) - mem_unspillable) in
  if decide (num_spillables = 0) then Panic else
  let consumer_mem_max := total_managed / num_spillables in
  let consumer_mem_min := consumer_mem_max / 8 in
  let total_overflowed := total_managed <? total_used in
  let consumer_overflowed := consumer_mem_max <? new_used in
  let proc_overflowed := mem_proc_max env <? mem_proc_total_used env in
  Ok (if forced || ((total_overflowed || consumer_overflowed || proc_overflowed)
                    && (MIN_TRIGGER_SIZE <? new_used) && (old_used <? new_used))
      then if forced || (spillable && (consumer_mem_min <? new_used)) then Spill else Wait
      else Nothing).

(** The spillable part follows the change of a spillable consumer. *)
Definition update_mem_spillables (mm : MemManager) (c : MemConsumerStatus) (diff_used : Z)
    : Result MemManager :=
  if spillable c then
    let s := status mm in
    let sum := isize (isize (mem_spillables s) + diff_used) in
    _ ← rassert (0 <=? sum);
    Ok (set_status mm (mkMmStatus (num_consumers s) (total_used s) (num_spillables s) (usize sum)))
  else Ok mm.

(** [update_consumer_mem_used_with_custom_updater] up to the waiting and spilling. *)
Definition update_consumer (env : Env) (mm : MemManager) (id : nat) (updater : Updater) (forced : bool)
    : Result (MemManager * Operation) :=
  c ← consumer_info mm id;
  let '(c', old_used, new_used) := updater c in
  let mm := set_info mm id c' in
  let diff_used := isize (isize new_used - isize old_used) in
  _ ← rassert (negb forced || spillable c');
  '(mm, new_total) ← update_total_used_with_diff mm diff_used;
  mm ← update_mem_spillables mm c' diff_used;
  if negb forced && (bool_decide (old_used = 0) || bool_decide (new_used = 0) || negb (spillable c'))
  then Ok (mm, Nothing)
  else
    op ← decide_operation env (total mm) new_total (num_spillables (status mm)) (mem_spillables (status mm))
           old_used new_used (spillable c') forced;
    Ok (mm, op).

(** [cv.wait_while_for]: the thread sleeps while the total is exceeded. *)
Definition wait_while (mm : MemManager) (tid : nat) : MemManager :=
  if total mm <? total_used (status mm)
  then mkManager (total mm) (consumers mm) (status mm) (tid :: waiters mm) else mm.

(** A timed out thread stops waiting; it spills. *)
Definition wait_timeout (mm : MemManager) (tid : nat) : MemManager :=
  mkManager (total mm) (consumers mm) (status mm) (filter (λ t, t ≠ tid) (waiters mm)).

(** ** Operations as a transition system *)

Inductive Op :=
  | Register (id : nat) (b : bool)
  | Deregister (id : nat)
  | SetSpillable (id : nat) (b : bool)
  | UpdateUsed (id : nat) (new_used : Z) (env : Env)
  | UpdateDiff (id : nat) (diff_used : Z) (env : Env)
  | ForceSpill (id : nat) (env : Env)
  | WaitFor (tid : nat)
  | Timeout (tid : nat).

Definition step (mm : MemManager) (op : Op) : Result MemManager :=
  match op with
  | Register id b => Ok (register_consumer mm id b)
  | Deregister id => deregister_consumer mm id
  | SetSpillable id b => set_spillable mm id b
  | UpdateUsed id n env => r ← update_consumer env mm id (update_mem_used n) false; Ok r.1
  | UpdateDiff id d env => r ← update_consumer env mm id (update_mem_used_with_diff d) false; Ok r.1
  | ForceSpill id env => r ← update_consumer env mm id force_spill true; Ok r.1
  | WaitFor tid => Ok (wait_while mm tid)
  | Timeout tid => Ok (wait_timeout mm tid)
  end.

Definition ids (mm : MemManager) : list nat := fst <$> consumers mm.

Definition used (l : list (nat * MemConsumerStatus)) : Z := sumZ (λ c, mem_used c.2) l.
Definition used_spillable (l : list (nat * MemConsumerStatus)) : Z :=
  sumZ (λ c, if spillable c.2 then mem_used c.2 else 0) l.
Definition count_spillable (l : list (nat * MemConsumerStatus)) : Z :=
  sumZ (λ c, if spillable c.2 then 1 else 0) l.

(** The bound on what is ever accounted: far below [isize::MAX]. *)
Definition LIMIT : Z := 2 ^ 62.

(** What callers guarantee: a registered consumer is new, any other operation is on a
    registered one, only spillable consumers are forced to spill, and the memory in use
    and the number of consumers stay within the address space. *)
Definition legal (mm : MemManager) (op : Op) : Prop :=
  match op with
  | Register id _ => id ∉ ids mm ∧ Z.of_nat (length (consumers mm)) + 1 < LIMIT
  | Deregister id => id ∈ ids mm
  | SetSpillable id _ => id ∈ ids mm
  | UpdateUsed id n _ => id ∈ ids mm ∧ 0 <= n ∧ total_used (status mm) + n < LIMIT
  | UpdateDiff id d _ => id ∈ ids mm ∧ - LIMIT < d ∧ total_used (status mm) + Z.max 0 d < LIMIT
  | ForceSpill id _ =>
      match consumer_info mm id with Ok c => spillable c = true | _ => False end ∧
      total_used (status mm) + 1 < LIMIT
  | WaitFor _ | Timeout _ => True
  end.
#[export] Instance legal_dec mm op : Decision (legal mm op).
Proof. destruct op; cbn [legal]; try apply _. destruct (consumer_info mm id); apply _. Defined.

(** The accounting invariant; [d] is the number of forced spills so far. *)
Record mm_inv (d : Z) (mm : MemManager) : Prop := {
  mi_nodup : NoDup (ids mm);
  mi_pos : Forall (λ c, 0 <= mem_used c.2) (consumers mm);
  mi_d : 0 <= d;
  mi_num : num_consumers (status mm) = Z.of_nat (length (consumers mm));
  mi_total : total_used (status mm) = used (consumers mm) + d;
  mi_nsp : num_spillables (status mm) = count_spillable (consumers mm);
  mi_msp : mem_spillables (status mm) = used_spillable (consumers mm) + d;
  mi_limit : total_used (status mm) < LIMIT;
  mi_len : Z.of_nat (length (consumers mm)) < LIMIT;
  mi_wait : waiters mm ≠ [] → total mm < total_used (status mm) }.

(** ** Lemmas *)

Lemma isize_id x : - 2 ^ 63 <= x < 2 ^ 63 → isize x = x.
Proof. intros. apply wraps_id; [lia|]. unfold in_s. lia. Qed.
Lemma usize_id x : 0 <= x < 2 ^ 64 → usize x = x.
Proof. intros. by apply wrapu_id. Qed.

Lemma consumer_info_split mm id :
  NoDup (ids mm) → id ∈ ids mm →
  ∃ c l1 l2, consumer_info mm id = Ok c ∧ consumers mm = l1 ++ (id, c) :: l2 ∧
    list_find (λ x, x.1 = id) (consumers mm) = Some (length l1, (id, c)) ∧
    (∀ s, consumers (set_info mm id s) = l1 ++ (id, s) :: l2) ∧ id ∉ (fst <$> l1 ++ l2).
Proof.
  unfold ids, consumer_info. intros Hnd [i Hi]%list_elem_of_lookup.
  apply list_lookup_fmap_Some in Hi as ([id' c] & -> & Hi). cbn in *.
  apply list_elem_of_split_length in Hi as (l1 & l2 & Hl & ->). rewrite Hl in *. clear Hl.
  rewrite fmap_app, fmap_cons in Hnd. apply NoDup_app in Hnd as (H1 & H12 & H2).
  apply NoDup_cons in H2 as [Hn2 H2]. cbn [fst] in *.
  assert (id' ∉ l1.*1) as Hn1 by (intros Hin; apply (H12 _ Hin); set_solver).
  assert (list_find (λ x, x.1 = id') (l1 ++ (id', c) :: l2) = Some (length l1, (id', c))) as Hf.
  { apply list_find_Some. split_and!; [by rewrite lookup_app_r, Nat.sub_diag by lia|done|].
    intros j y Hj Hlt. rewrite lookup_app_l in Hj by done. apply list_elem_of_lookup_2 in Hj.
    intros <-. apply Hn1. by apply list_elem_of_fmap_2. }
  exists c, l1, l2. rewrite Hf. split_and!; try done.
  - intros s. unfold set_info. cbn [consumers]. rewrite fmap_app, fmap_cons, decide_True by done.
    assert (∀ l, id' ∉ l.*1 →
      (λ c, if decide (c.1 = id') then (id', s) else c) <$> l = l) as Hid.
    { clear. intros l Hl. rewrite <- list_fmap_id. apply list_fmap_ext. intros _ x Hx%list_elem_of_lookup_2.
      rewrite decide_False; [done|]. intros <-. apply Hl. by apply list_elem_of_fmap_2. }
    by rewrite !Hid.
  - rewrite fmap_app, not_elem_of_app. done.
Qed.

Lemma used_split l1 l2 x : used (l1 ++ x :: l2) = used (l1 ++ l2) + mem_used x.2.
Proof. unfold used. rewrite !sumZ_app. unfold sumZ. cbn [foldr]. lia. Qed.
Lemma used_spillable_split l1 l2 x : used_spillable (l1 ++ x :: l2)
  = used_spillable (l1 ++ l2) + if spillable x.2 then mem_used x.2 else 0.
Proof. unfold used_spillable. rewrite !sumZ_app. unfold sumZ. cbn [foldr]. lia. Qed.
Lemma count_spillable_split l1 l2 x : count_spillable (l1 ++ x :: l2)
  = count_spillable (l1 ++ l2) + if spillable x.2 then 1 else 0.
Proof. unfold count_spillable. rewrite !sumZ_app. unfold sumZ. cbn [foldr]. lia. Qed.

(** Sums over the other consumers: the spillable part is at most the whole, and there
    are no more spillable consumers than consumers. *)
Lemma sums_bounds l : Forall (λ c, 0 <= mem_used c.2) l →
  0 <= used_spillable l <= used l ∧ 0 <= count_spillable l <= Z.of_nat (length l).
Proof.
  unfold used, used_spillable, count_spillable.
  unfold sumZ. induction 1 as [|x l Hx _ IH]; cbn [foldr length]; [lia|]. destruct (spillable x.2); lia.
Qed.

Lemma swap_remove_perm {A} (l1 l2 : list A) x :
  swap_remove (length l1) (l1 ++ x :: l2) ≡ₚ l1 ++ l2.
Proof.
  unfold swap_remove. destruct l2 as [|y l2 _] using rev_ind.
  - rewrite last_snoc, insert_app_r_alt, Nat.sub_diag by lia. cbn.
    rewrite length_app. cbn. rewrite Nat.add_sub, take_app_length. by rewrite app_nil_r.
  - replace (l1 ++ x :: l2 ++ [y]) with ((l1 ++ x :: l2) ++ [y]) by (by rewrite <- app_assoc).
    rewrite last_snoc, <- app_assoc. rewrite insert_app_r_alt, Nat.sub_diag by lia. cbn [app insert list_insert].
    replace (l1 ++ y :: l2 ++ [y]) with ((l1 ++ y :: l2) ++ [y]) by (by rewrite <- app_assoc).
    rewrite take_app_length' by (rewrite !length_app; cbn; rewrite length_app; cbn; lia).
    f_equiv. apply Permutation_cons_append.
Qed.

(** The new total, when nothing overflows; waiting threads are woken by a decrease. *)
Lemma update_total_ok mm diff :
  0 <= total_used (status mm) < LIMIT → - LIMIT < diff < LIMIT →
  0 <= total_used (status mm) + diff →
  (waiters mm ≠ [] → total mm < total_used (status mm)) →
  let new := total_used (status mm) + diff in
  let s := status mm in
  ∃ w, update_total_used_with_diff mm diff
    = Ok (mkManager (total mm) (consumers mm)
            (mkMmStatus (num_consumers s) new (num_spillables s) (mem_spillables s)) w, new) ∧
    (w ≠ [] → total mm < new) ∧ (diff < 0 → w = []).
Proof.
  intros Ht Hd Hn Hw. unfold LIMIT in *. unfold update_total_used_with_diff.
  rewrite (isize_id (total_used _)), isize_id by lia. rewrite (proj2 (Z.leb_le _ _)) by lia.
  cbn [rassert mbind Result_bind]. rewrite usize_id by lia.
  destruct (total_used (status mm) + diff <? total_used (status mm)) eqn:E.
  - exists []. done.
  - apply Z.ltb_ge in E. exists (waiters mm). split; [done|]. split; [|lia]. intros Hne%Hw. lia.
Qed.

(** An operation that lowers the total leaves nobody asleep. *)
Definition wakes (mm mm' : MemManager) : Prop :=
  total_used (status mm') < total_used (status mm) → waiters mm' = [].

Lemma decide_operation_ok env total tu ns ms old new sp forced :
  0 < ns → ∃ op, decide_operation env total tu ns ms old new sp forced = Ok op.
Proof. intros Hn. unfold decide_operation. rewrite decide_False by lia. eauto. Qed.

Lemma NoDup_ids_update l1 l2 (id : nat) (c c' : MemConsumerStatus) :
  NoDup (fst <$> l1 ++ (id, c) :: l2) → NoDup (fst <$> l1 ++ (id, c') :: l2).
Proof. by rewrite !fmap_app, !fmap_cons. Qed.

Lemma update_mem_spillables_ok mm c diff :
  0 <= mem_spillables (status mm) < LIMIT → - LIMIT < diff < LIMIT →
  (spillable c = true → 0 <= mem_spillables (status mm) + diff) →
  let s := status mm in
  update_mem_spillables mm c diff
    = Ok (set_status mm (mkMmStatus (num_consumers s) (total_used s) (num_spillables s)
            (mem_spillables s + if spillable c then diff else 0))).
Proof.
  unfold LIMIT, update_mem_spillables. intros Hm Hd Hs. destruct (spillable c); cbn zeta.
  - specialize (Hs eq_refl). rewrite (isize_id (mem_spillables _)), isize_id by lia.
    rewrite (proj2 (Z.leb_le _ _)) by lia. cbn [rassert mbind Result_bind]. by rewrite usize_id by lia.
  - rewrite Z.add_0_r. by destruct mm as [? ? [] ?].
Qed.

(** One update of a consumer's use keeps the invariant; an updater that reports more
    than it records ([e]) adds to the drift. *)
Lemma update_consumer_ok env mm id updater forced d e c c' old new :
  mm_inv d mm → id ∈ ids mm → consumer_info mm id = Ok c → updater c = (c', old, new) →
  old = mem_used c → spillable c' = spillable c → new = mem_used c' + e →
  0 <= e → 0 <= mem_used c' → new < LIMIT → total_used (status mm) + new - old < LIMIT →
  (forced = true → spillable c = true) → (spillable c = false → e = 0) →
  ∃ mm' op, update_consumer env mm id updater forced = Ok (mm', op) ∧ mm_inv (d + e) mm' ∧
    total mm' = total mm ∧ wakes mm mm' ∧
    if negb forced && (bool_decide (old = 0) || bool_decide (new = 0) || negb (spillable c'))
    then op = Nothing
    else decide_operation env (total mm') (total_used (status mm')) (num_spillables (status mm'))
           (mem_spillables (status mm')) old new (spillable c') forced = Ok op.
Proof.
  intros Hinv Hin Hc Hu Hold Hsp Hnew He Hc' Hlim Hlim2 Hforced Hunsp.
  pose proof Hinv as [Hnd Hpos Hd Hnum Htot Hnsp Hmsp Hlimit Hlen Hwait].
  destruct (consumer_info_split mm id Hnd Hin) as (c0 & l1 & l2 & Hc0 & Hl & _ & Hset & _).
  assert (c0 = c) as -> by congruence. unfold ids in Hnd. rewrite Hl in *.
  apply Forall_app in Hpos as [Hp1 [Hpc Hp2]%Forall_cons]. cbn [snd] in Hpc.
  destruct (sums_bounds (l1 ++ l2)) as [Hs1 Hs2]; [by apply Forall_app|].
  rewrite used_split in Htot. rewrite used_spillable_split in Hmsp. rewrite count_spillable_split in Hnsp.
  cbn [snd] in *. unfold update_consumer. rewrite Hc. cbn [mbind Result_bind]. rewrite Hu.
  unfold LIMIT in *. rewrite (isize_id new), (isize_id old), (isize_id (new - old)) by lia.
  assert (negb forced || spillable c' = true) as ->.
  { rewrite Hsp. destruct forced; [|done]. by rewrite Hforced. }
  cbn [rassert mbind Result_bind].
  destruct (update_total_ok (set_info mm id c') (new - old)) as (w & -> & Hw & Hwake);
    [unfold LIMIT; cbn [status set_info]; lia..|exact Hwait|].
  cbn [mbind Result_bind].
  rewrite update_mem_spillables_ok.
  2: { unfold LIMIT; cbn [status set_info mem_spillables]. destruct (spillable c); lia. }
  2: { unfold LIMIT. lia. }
  2: { cbn [status set_info mem_spillables]. rewrite Hsp. intros Es. rewrite Es in *. lia. }
  unfold set_status, set_info. cbn [mbind Result_bind status total consumers waiters mem_spillables
       num_spillables num_consumers total_used].
  set (mm' := mkManager _ _ _ _).
  assert (mm_inv (d + e) mm') as Hinv'.
  { unfold mm'. split; unfold ids; cbn [set_status set_info status total consumers waiters mem_spillables
       num_spillables num_consumers total_used].
    all: try (specialize (Hset c'); unfold set_info in Hset; cbn [consumers] in Hset; rewrite Hset).
    - by eapply NoDup_ids_update.
    - apply Forall_app. split; [done|]. by apply Forall_cons.
    - lia.
    - rewrite Hnum, !length_app. done.
    - rewrite used_split. cbn [snd]. lia.
    - rewrite count_spillable_split. cbn [snd]. by rewrite Hsp.
    - rewrite used_spillable_split. cbn [snd]. rewrite Hmsp, Hsp.
      destruct (spillable c); [lia|]. rewrite Hunsp by done. lia.
    - unfold LIMIT. lia.
    - unfold LIMIT. rewrite length_app in *. cbn [length] in *. lia.
    - exact Hw. }
  assert (wakes mm mm') as Hwk by (unfold wakes, mm'; cbn; intros; apply Hwake; lia).
  destruct (negb forced && _) eqn:Eearly; [eexists _, _; split_and!; done|].
  destruct (decide_operation_ok env (total mm) (total_used (status mm) + (new - old)) (num_spillables (status mm))
    (mem_spillables (status mm) + (if spillable c' then new - old else 0)) old new (spillable c') forced) as [op Hop].
  { rewrite Hnsp. destruct (spillable c) eqn:Es; [lia|]. rewrite Hsp in Eearly. cbn [negb] in Eearly.
    rewrite !orb_true_r, andb_true_r in Eearly. destruct forced; [|done].
    by specialize (Hforced eq_refl). }
  rewrite Hop. eexists _, _. split; [done|]. split; [exact Hinv'|]. split; [done|]. split; [exact Hwk|]. exact Hop.
Qed.

Lemma register_ok mm id b d : mm_inv d mm → legal mm (Register id b) → mm_inv d (register_consumer mm id b).
Proof.
  intros [Hnd Hpos Hd Hnum Htot Hnsp Hmsp Hlimit Hlen Hwait] [Hid Hl].
  destruct (sums_bounds (consumers mm) Hpos) as [Hs1 Hs2]. unfold LIMIT in *.
  split; unfold ids, register_consumer; cbn [consumers status num_consumers total_used num_spillables
    mem_spillables waiters total].
  - rewrite fmap_app. apply NoDup_app. split; [done|]. split; [|apply NoDup_singleton].
    intros x Hx Hin. apply list_elem_of_singleton in Hin. cbn in Hin. by subst.
  - apply Forall_app. split; [done|]. by apply Forall_singleton.
  - done.
  - rewrite usize_id, length_app by lia. cbn [length]. lia.
  - rewrite used_split, app_nil_r. cbn. lia.
  - rewrite count_spillable_split, app_nil_r. cbn [snd spillable]. destruct b; [|lia]. rewrite usize_id; lia.
  - rewrite used_spillable_split, app_nil_r. cbn [snd spillable mem_used]. destruct b; lia.
  - done.
  - unfold LIMIT. rewrite length_app. cbn [length]. lia.
  - done.
Qed.

(** Removing the consumer [(id, c)] from a manager that satisfies the invariant. *)
Lemma deregister_ok mm id d :
  mm_inv d mm → id ∈ ids mm →
  ∃ mm', deregister_consumer mm id = Ok mm' ∧ mm_inv d mm' ∧ wakes mm mm'.
Proof.
  intros [Hnd Hpos Hd Hnum Htot Hnsp Hmsp Hlimit Hlen Hwait] Hin.
  destruct (consumer_info_split mm id Hnd Hin) as (c & l1 & l2 & Hc & Hl & Hf & _ & Hnin).
  unfold ids in Hnd. rewrite Hl in Hnd, Hpos, Hnum, Htot, Hnsp, Hmsp, Hlen.
  apply Forall_app in Hpos as [Hp1 [Hpc Hp2]%Forall_cons]. cbn [snd] in Hpc.
  destruct (sums_bounds (l1 ++ l2)) as [Hs1 Hs2]; [by apply Forall_app|].
  rewrite used_split in Htot. rewrite used_spillable_split in Hmsp. rewrite count_spillable_split in Hnsp.
  rewrite length_app in Hnum, Hlen. cbn [snd length] in *. unfold LIMIT in *. rewrite length_app in Hs2.
  unfold deregister_consumer. rewrite Hc. cbn [mbind Result_bind].
  rewrite (proj2 (Z.leb_le (mem_used c) _)) by lia. cbn [rassert mbind Result_bind].
  rewrite (isize_id (mem_used c)), (isize_id (- mem_used c)) by lia.
  edestruct (update_total_ok (set_status mm (mkMmStatus (usize (num_consumers (status mm) - 1))
    (total_used (status mm)) (num_spillables (status mm)) (mem_spillables (status mm)))) (- mem_used c))
    as (w & -> & Hw & Hwake); [unfold LIMIT; cbn [status set_status total_used]; lia..|exact Hwait|].
  unfold set_status. cbn [mbind Result_bind status total consumers waiters mem_spillables
    num_spillables num_consumers total_used] in *.
  set (perm := swap_remove_perm l1 l2 (id, c)).
  assert (∀ ns ms, ns = count_spillable (l1 ++ l2) → ms = used_spillable (l1 ++ l2) + d →
    mm_inv d (mkManager (total mm) (swap_remove (length l1) (l1 ++ (id, c) :: l2))
      (mkMmStatus (usize (num_consumers (status mm) - 1)) (total_used (status mm) + - mem_used c) ns ms) w)) as Hdone.
  { intros ns ms -> ->. split; unfold ids; cbn [status total consumers waiters mem_spillables
      num_spillables num_consumers total_used]; try done.
    - rewrite perm, fmap_app. rewrite fmap_app, fmap_cons in Hnd.
      apply NoDup_app in Hnd as (? & Hx & [? ?]%NoDup_cons). apply NoDup_app. split_and!; try done.
      intros x Hx1 Hx2. apply (Hx x Hx1). set_solver.
    - rewrite perm. by apply Forall_app.
    - rewrite perm, length_app, usize_id by lia. lia.
    - unfold used. rewrite perm. fold (used (l1 ++ l2)). lia.
    - unfold count_spillable. by rewrite perm.
    - unfold used_spillable. by rewrite perm.
    - unfold LIMIT. lia.
    - rewrite perm, length_app. unfold LIMIT. lia. }
  destruct (spillable c); cbn [mbind Result_bind].
  - rewrite (proj2 (Z.leb_le (mem_used c) _)) by lia. cbn [rassert mbind Result_bind consumers].
    rewrite Hf. eexists. split; [done|]. cbn [total status waiters]. rewrite Hl.
    split; [apply Hdone; rewrite usize_id; lia|]. unfold wakes. cbn. intros. apply Hwake. lia.
  - cbn [consumers]. rewrite Hf. eexists. split; [done|]. cbn [total status waiters]. rewrite Hl.
    split; [apply Hdone; lia|]. unfold wakes. cbn. intros. apply Hwake. lia.
Qed.

Lemma set_spillable_ok mm id b d :
  mm_inv d mm → id ∈ ids mm →
  ∃ mm', set_spillable mm id b = Ok mm' ∧ mm_inv d mm' ∧ wakes mm mm'.
Proof.
  intros [Hnd Hpos Hd Hnum Htot Hnsp Hmsp Hlimit Hlen Hwait] Hin.
  destruct (consumer_info_split mm id Hnd Hin) as (c & l1 & l2 & Hc & Hl & _ & Hset & _).
  unfold ids in Hnd. rewrite Hl in Hnd, Hpos, Hnum, Htot, Hnsp, Hmsp, Hlen.
  apply Forall_app in Hpos as [Hp1 [Hpc Hp2]%Forall_cons]. cbn [snd] in Hpc.
  destruct (sums_bounds (l1 ++ l2)) as [Hs1 Hs2]; [by apply Forall_app|].
  rewrite used_split in Htot. rewrite used_spillable_split in Hmsp. rewrite count_spillable_split in Hnsp.
  rewrite length_app in Hnum, Hlen. cbn [snd length] in *. unfold LIMIT in *. rewrite length_app in Hs2.
  unfold set_spillable. rewrite Hc. cbn [mbind Result_bind].
  specialize (Hset (mkStatus (mem_used c) b)). unfold set_info in *. cbn [consumers] in Hset.
  assert (∀ ns ms, ns = count_spillable (l1 ++ (id, mkStatus (mem_used c) b) :: l2) →
    ms = used_spillable (l1 ++ (id, mkStatus (mem_used c) b) :: l2) + d →
    mm_inv d (mkManager (total mm) (l1 ++ (id, mkStatus (mem_used c) b) :: l2)
      (mkMmStatus (num_consumers (status mm)) (total_used (status mm)) ns ms) (waiters mm))) as Hdone.
  { intros ns ms -> ->. split; unfold ids; cbn [status total consumers waiters mem_spillables
      num_spillables num_consumers total_used]; try done.
    - by eapply NoDup_ids_update.
    - apply Forall_app. split; [done|]. by apply Forall_cons.
    - rewrite length_app. cbn [length]. lia.
    - rewrite used_split. cbn [snd mem_used]. lia.
    - unfold LIMIT. rewrite length_app. cbn [length]. lia. }
  rewrite count_spillable_split, used_spillable_split in Hdone. cbn [snd spillable mem_used] in Hdone.
  destruct (decide (spillable c ≠ b)) as [Hne|Heq]; [destruct b|].
  - destruct (spillable c); [done|]. cbn [mbind Result_bind]. eexists. split; [done|].
    unfold set_status. cbn [total consumers waiters status]. rewrite Hset.
    split; [apply Hdone; rewrite usize_id; lia|]. unfold wakes. cbn. lia.
  - destruct (spillable c); [|done]. rewrite (proj2 (Z.leb_le (mem_used c) _)) by lia.
    cbn [rassert mbind Result_bind]. eexists. split; [done|].
    unfold set_status. cbn [total consumers waiters status]. rewrite Hset.
    split; [apply Hdone; rewrite usize_id; lia|]. unfold wakes. cbn. lia.
  - apply dec_stable in Heq. cbn [mbind Result_bind]. eexists. split; [done|].
    cbn [total consumers waiters status]. rewrite Hset.
    replace (status mm) with (mkMmStatus (num_consumers (status mm)) (total_used (status mm))
      (num_spillables (status mm)) (mem_spillables (status mm))) by (by destruct (status mm)).
    split; [apply Hdone; rewrite Heq in *; destruct b; lia|]. unfold wakes. cbn. lia.
Qed.

Lemma init_inv total : mm_inv 0 (mm_init total).
Proof. split; cbn; try done; [constructor..]. Qed.

Definition forced_by (op : Op) : Z := match op with ForceSpill _ _ => 1 | _ => 0 end.

Lemma consumer_bound mm d id c :
  mm_inv d mm → consumer_info mm id = Ok c → id ∈ ids mm → 0 <= mem_used c <= total_used (status mm).
Proof.
  intros [Hnd Hpos Hd Hnum Htot Hnsp Hmsp Hlimit Hlen Hwait] Hc Hin.
  destruct (consumer_info_split mm id Hnd Hin) as (c0 & l1 & l2 & Hc0 & Hl & _).
  assert (c0 = c) as -> by congruence. rewrite Hl in *.
  apply Forall_app in Hpos as [Hp1 [Hpc Hp2]%Forall_cons].
  destruct (sums_bounds (l1 ++ l2)) as [Hs1 _]; [by apply Forall_app|].
  rewrite used_split in Htot. cbn [snd] in *. lia.
Qed.

Lemma info_registered mm id c : consumer_info mm id = Ok c → id ∈ ids mm.
Proof.
  unfold consumer_info. destruct (list_find _ _) as [[i x]|] eqn:E; [|done]. intros _.
  apply list_find_Some in E as (Hi & <- & _). apply list_elem_of_fmap_2. by eapply list_elem_of_lookup_2.
Qed.

(** One legal operation never fails an assertion and keeps the accounting. *)
Lemma step_ok mm op d :
  mm_inv d mm → legal mm op →
  ∃ mm', step mm op = Ok mm' ∧ mm_inv (d + forced_by op) mm' ∧ wakes mm mm'.
Proof.
  intros Hinv Hl. destruct op as [id b|id|id b|id n env|id df env|id env|tid|tid];
    cbn [step forced_by legal] in *; rewrite ?Z.add_0_r.
  - eexists. split; [done|]. split; [by apply register_ok|]. unfold wakes. cbn. lia.
  - by apply deregister_ok.
  - by apply set_spillable_ok.
  - destruct Hl as (Hin & Hn & Hlim).
    destruct (consumer_info_split mm id (mi_nodup _ _ Hinv) Hin) as (c & _ & _ & Hc & _).
    pose proof (consumer_bound _ _ _ _ Hinv Hc Hin).
    destruct (update_consumer_ok env mm id (update_mem_used n) false d 0 c (mkStatus n (spillable c))
      (mem_used c) n) as (mm' & op & -> & Hi & _ & Hwk & _); try done; cbn [mem_used]; try lia.
    rewrite Z.add_0_r in Hi. eexists. split; [done|]. split; [exact Hi|done].
  - destruct Hl as (Hin & Hn & Hlim).
    destruct (consumer_info_split mm id (mi_nodup _ _ Hinv) Hin) as (c & _ & _ & Hc & _).
    pose proof (consumer_bound _ _ _ _ Hinv Hc Hin). pose proof (mi_limit _ _ Hinv). unfold LIMIT in *.
    destruct (update_consumer_ok env mm id (update_mem_used_with_diff df) false d 0 c
      (update_mem_used_with_diff df c).1.1 (mem_used c) (update_mem_used_with_diff df c).2)
      as (mm' & op & -> & Hi & _ & Hwk & _); try done; unfold update_mem_used_with_diff, LIMIT, USIZE_MAX in *; cbn [fst snd mem_used].
    all: try (destruct (0 <? df) eqn:E; [apply Z.ltb_lt in E|apply Z.ltb_ge in E];
      rewrite ?(isize_id (- df)), ?usize_id by lia; lia).
    rewrite Z.add_0_r in Hi. eexists. split; [done|]. split; [exact Hi|done].
  - destruct Hl as [Hsp Hlim]. destruct (consumer_info mm id) as [c| | | |] eqn:Hc; try done. pose proof (info_registered _ _ _ Hc) as Hin.
    pose proof (consumer_bound _ _ _ _ Hinv Hc Hin). pose proof (mi_limit _ _ Hinv). unfold LIMIT in *.
    destruct (update_consumer_ok env mm id force_spill true d 1 c c (mem_used c) (mem_used c + 1))
      as (mm' & op & -> & Hi & _ & Hwk & _); unfold LIMIT in *; try done; try lia; try congruence.
    { unfold force_spill. rewrite usize_id by lia. done. }
    eexists. split; [done|]. split; [exact Hi|done].
  - eexists. split; [done|]. unfold wait_while. destruct (total mm <? _) eqn:E.
    + apply Z.ltb_lt in E. split; [destruct Hinv; by split|]. unfold wakes. cbn. lia.
    + split; [done|]. unfold wakes. lia.
  - eexists. split; [done|]. destruct Hinv as [? ? ? ? ? ? ? ? ? Hw].
    split; [|unfold wakes; cbn; lia]. split; try done. cbn [waiters total wait_timeout].
    intros Hne. apply Hw. intros E. apply Hne. by rewrite E.
Qed.

(** ** Reachable states *)

(** Executions of legal operations from a fresh manager, in any interleaving of the
    critical sections of any number of threads. *)
Inductive reaches (total : Z) : list Op → MemManager → Prop :=
  | reaches_init : reaches total [] (mm_init total)
  | reaches_step ops mm op mm' :
      reaches total ops mm → legal mm op → step mm op = Ok mm' → reaches total (ops ++ [op]) mm'.

Lemma reaches_inv total ops mm : reaches total ops mm → mm_inv (sumZ forced_by ops) mm.
Proof.
  induction 1 as [|ops mm op mm' _ IH Hl Hs]; [apply init_inv|].
  destruct (step_ok mm op _ IH Hl) as (mm'' & Hs' & Hi & _). rewrite sumZ_app.
  assert (mm'' = mm') as <- by congruence. replace (sumZ forced_by [op]) with (forced_by op); [done|].
  unfold sumZ. cbn [foldr]. lia.
Qed.

Definition used_unspillable (l : list (nat * MemConsumerStatus)) : Z :=
  sumZ (λ c, if spillable c.2 then 0 else mem_used c.2) l.

Lemma used_parts l : used l = used_spillable l + used_unspillable l.
Proof.
  unfold used, used_spillable, used_unspillable, sumZ. induction l as [|x l IH]; cbn [foldr]; [lia|].
  destruct (spillable x.2); lia.
Qed.

(** C8: in every state reachable by legal operations of any number of threads, the
    counters of the memory manager agree with its consumers: their number, the number of
    spillable ones, and the used and spillable memory up to one byte per forced spill;
    unspillable memory is exact, and no legal operation fails an assertion, underflows
    or divides by zero. *)
Theorem mm_accounting_invariant total ops mm :
  reaches total ops mm →
  let s := status mm in
  let forced := sumZ forced_by ops in
  num_consumers s = Z.of_nat (length (consumers mm)) ∧
  num_spillables s = count_spillable (consumers mm) ∧
  total_used s = used (consumers mm) + forced ∧
  mem_spillables s = used_spillable (consumers mm) + forced ∧
  total_used s - mem_spillables s = used_unspillable (consumers mm) ∧
  ∀ op, legal mm op → ∃ mm', step mm op = Ok mm'.
Proof.
  intros Hr. pose proof (reaches_inv _ _ _ Hr) as Hinv. pose proof (used_parts (consumers mm)) as Hp.
  pose proof Hinv as [Hnd Hpos Hd Hnum Htot Hnsp Hmsp Hlimit Hlen Hwait]. cbn zeta.
  split_and!; [done..|lia|]. intros op Hl. destruct (step_ok mm op _ Hinv Hl) as (mm' & ? & _). eauto.
Qed.

(** What a spillable consumer may use: an equal part of the managed memory. *)
Definition share (env : Env) (mm : MemManager) : Z :=
  Z.max 0 (Z.max 0 (total mm - mem_jvm_direct_used env)
           - (total_used (status mm) - mem_spillables (status mm))) / num_spillables (status mm).

(** A spillable consumer that does not grow or stays below 16 MiB is never disturbed,
    one that grows beyond its share of the managed memory must spill, and only one below
    an eighth of its share is asked to wait. *)
Theorem mm_spill_decision total ops mm id c n env :
  reaches total ops mm → legal mm (UpdateUsed id n env) →
  consumer_info mm id = Ok c → spillable c = true → 0 < mem_used c → 0 < n →
  ∃ mm' op, update_consumer env mm id (update_mem_used n) false = Ok (mm', op) ∧
    (n <= mem_used c → op = Nothing) ∧
    (n <= MIN_TRIGGER_SIZE → op = Nothing) ∧
    (mem_used c < n → MIN_TRIGGER_SIZE < n → share env mm' < n → op = Spill) ∧
    (op = Wait → n <= share env mm' / 8).
Proof.
  intros Hr (Hin & Hn & Hlim) Hc Hsp Hold Hpos. pose proof (reaches_inv _ _ _ Hr) as Hinv.
  pose proof (consumer_bound _ _ _ _ Hinv Hc Hin).
  destruct (update_consumer_ok env mm id (update_mem_used n) false _ 0 c (mkStatus n (spillable c))
    (mem_used c) n Hinv Hin Hc) as (mm' & op & -> & Hi & _ & _ & Hop); try done; cbn [mem_used]; try lia.
  exists mm', op. split; [done|]. cbn [spillable] in Hop. rewrite Hsp in Hop.
  rewrite !bool_decide_eq_false_2 in Hop by lia. cbn [negb andb orb] in Hop.
  destruct Hi as [_ Hpos' Hd _ Htot Hnsp Hmsp Hlimit' _ _]. unfold LIMIT in *.
  destruct (sums_bounds _ Hpos') as [Hs _]. unfold decide_operation in Hop.
  destruct (decide (num_spillables (status mm') = 0)) as [|Hne]; [done|].
  rewrite usize_id in Hop by lia. fold (share env mm') in Hop.
  assert (0 <= share env mm') as Hshare.
  { apply Z.div_pos; [lia|]. rewrite Hnsp in *. destruct (sums_bounds _ Hpos') as [_ ?]. lia. }
  assert (share env mm' / 8 <= share env mm') by (apply Z.div_le_upper_bound; lia).
  injection Hop as <-. cbn [orb]. generalize dependent (share env mm'). intros sh Hsh Hsh8.
  destruct (MIN_TRIGGER_SIZE <? n) eqn:E1; [apply Z.ltb_lt in E1|apply Z.ltb_ge in E1];
    (destruct (mem_used c <? n) eqn:E2; [apply Z.ltb_lt in E2|apply Z.ltb_ge in E2]);
    (destruct (sh <? n) eqn:E3; [apply Z.ltb_lt in E3|apply Z.ltb_ge in E3]);
    (destruct (sh / 8 <? n) eqn:E4; [apply Z.ltb_lt in E4|apply Z.ltb_ge in E4]);
    rewrite ?andb_false_r, ?andb_true_r, ?orb_true_r; cbn [andb orb];
    split_and!; intros; try lia; try done; by destruct (_ || _).
Qed.

(** C40: no thread sleeps on the condition variable unless the memory in use exceeds the
    total, and an operation that lowers the memory in use wakes all the sleeping
    threads. *)
Theorem mm_no_lost_wakeup capacity ops mm op mm' :
  reaches capacity ops mm → legal mm op → step mm op = Ok mm' →
  (waiters mm ≠ [] → total mm < total_used (status mm)) ∧
  (total_used (status mm') < total_used (status mm) → waiters mm' = []).
Proof.
  intros Hr Hl Hs. pose proof (reaches_inv _ _ _ Hr) as Hinv. split; [apply Hinv|].
  destruct (step_ok mm op _ Hinv Hl) as (mm2 & Hs2 & _ & Hw).
  assert (mm2 = mm') as -> by congruence. exact Hw.
Qed.

(** Executions computed. *)
Fixpoint legal_run (mm : MemManager) (ops : list Op) : option MemManager :=
  match ops with
  | [] => Some mm
  | op :: ops =>
      if decide (legal mm op)
      then match step mm op with Ok mm' => legal_run mm' ops | _ => None end else None
  end.

Lemma legal_run_reaches total ops0 mm ops mm' :
  reaches total ops0 mm → legal_run mm ops = Some mm' → reaches total (ops0 ++ ops) mm'.
Proof.
  revert ops0 mm. induction ops as [|op ops IH]; intros ops0 mm Hr Hgo; cbn [legal_run] in Hgo.
  - injection Hgo as <-. by rewrite app_nil_r.
  - destruct (decide (legal mm op)) as [Hl|]; [|done].
    destruct (step mm op) as [mm2| | | |] eqn:E; try done.
    replace (ops0 ++ op :: ops) with ((ops0 ++ [op]) ++ ops) by (by rewrite <- app_assoc).
    apply (IH (ops0 ++ [op]) mm2); [|exact Hgo]. by eapply reaches_step.
Qed.

Module MemSample.
Definition env0 : Env := mkEnv 0 0 0.
(** Two consumers, one of them spillable, share 100 MiB; one grows, is forced to spill,
    becomes unspillable and goes away. *)
Definition ops : list Op :=
  [Register 1 true; Register 2 false; UpdateUsed 1 (30 * 2 ^ 20) env0; UpdateUsed 2 5 env0;
   UpdateDiff 1 (40 * 2 ^ 20) env0; ForceSpill 1 env0; UpdateUsed 1 7 env0; SetSpillable 1 false;
   Deregister 1].

Definition final : MemManager :=
  mkManager (100 * 2 ^ 20) [(2%nat, mkStatus 5 false)] (mkMmStatus 1 6 0 1) [].

Lemma reaches_final : reaches (100 * 2 ^ 20) ops final.
Proof.
  apply (legal_run_reaches _ [] (mm_init (100 * 2 ^ 20)) ops final); [apply reaches_init|].
  vm_compute. reflexivity.
Qed.

Lemma mm_accounting_invariant_witness :
  total_used (status final) = used (consumers final) + 1 ∧
  mem_spillables (status final) = used_spillable (consumers final) + 1.
Proof. pose proof (mm_accounting_invariant _ ops final reaches_final) as H. split; apply H. Defined.

(** A growing consumer that is beyond its share of 50 MiB is told to spill. *)
Definition grown : MemManager :=
  mkManager (100 * 2 ^ 20) [(1%nat, mkStatus 9 true); (2%nat, mkStatus 8 true)] (mkMmStatus 2 17 2 17) [].
Lemma reaches_grown : reaches (100 * 2 ^ 20)
  [Register 1 true; Register 2 true; UpdateUsed 1 9 env0; UpdateUsed 2 8 env0] grown.
Proof.
  apply (legal_run_reaches _ [] (mm_init (100 * 2 ^ 20)) _ grown); [apply reaches_init|].
  vm_compute. reflexivity.
Qed.

Lemma mm_spill_decision_witness :
  ∃ mm', update_consumer env0 grown 1 (update_mem_used (60 * 2 ^ 20)) false = Ok (mm', Spill).
Proof.
  destruct (mm_spill_decision _ _ grown 1 (mkStatus 9 true) (60 * 2 ^ 20) env0 reaches_grown)
    as (mm' & op & Hu & _ & _ & Hspill & _); [|reflexivity|reflexivity|reflexivity|reflexivity|].
  - apply (bool_decide_eq_true_1 _). vm_compute. reflexivity.
  - exists mm'. rewrite Hu. do 2 f_equal. apply Hspill; [reflexivity|reflexivity|].
    assert (Ok (mm', op) = update_consumer env0 grown 1 (update_mem_used (60 * 2 ^ 20)) false) as E by done.
    vm_compute in E. injection E as -> _. reflexivity.
Defined.

(** A thread that waits with the total exceeded is woken when the other consumer
    frees its memory. *)
Definition asleep : MemManager :=
  mkManager 10 [(1%nat, mkStatus 9 true); (2%nat, mkStatus 8 true)] (mkMmStatus 2 17 2 17) [7%nat].
Lemma reaches_asleep : reaches 10
  [Register 1 true; Register 2 true; UpdateUsed 1 9 env0; UpdateUsed 2 8 env0; WaitFor 7] asleep.
Proof.
  apply (legal_run_reaches _ [] (mm_init 10) _ asleep); [apply reaches_init|]. vm_compute. reflexivity.
Qed.

Lemma mm_no_lost_wakeup_witness :
  10 < total_used (status asleep) ∧ ∃ mm', step asleep (Deregister 1) = Ok mm' ∧ waiters mm' = [].
Proof.
  destruct (step asleep (Deregister 1)) as [mm'| | | |] eqn:E; try discriminate E.
  destruct (mm_no_lost_wakeup 10 _ asleep (Deregister 1) mm' reaches_asleep) as [H1 H2];
    [apply (bool_decide_eq_true_1 _); vm_compute; reflexivity|exact E|].
  split; [apply H1; discriminate|]. exists mm'. split; [done|]. apply H2.
  vm_compute in E. injection E as <-. reflexivity.
Defined.
End MemSample.
