(* ===== verification/MemLocks.v ===== *)
(** * Lock order of the memory manager

    The mutexes of native-engine/auron-memmgr/src/lib.rs: the vector of consumers, the
    status of the manager and the status of each consumer.  Every operation is given by
    the sequence of its acquisitions and releases (guards are released by an explicit
    [drop] or at the end of their scope); threads interleave such sequences, and a
    mutex is held by one thread at a time.  All operations but [set_spillable] take the
    locks in one order, so they cannot deadlock among themselves; [set_spillable] takes
    two of them in the opposite order. *)

From S2P Require Import Prelude.

Inductive Lock := LConsumers | LStatus | LConsumer (id : nat).
#[export] Instance Lock_eq_dec : EqDecision Lock.
Proof. solve_decision. Defined.

Inductive Action := Acquire (l : Lock) | Release (l : Lock).

(** ** The sequences of the operations *)

Definition register_locks : list Action :=
  [Acquire LConsumers; Acquire LStatus; Release LStatus; Release LConsumers].

Definition deregister_locks (id : nat) : list Action :=
  [Acquire LConsumers; Acquire LStatus; Acquire (LConsumer id);
   Release LStatus; Release LConsumers; Release (LConsumer id)].

Definition dump_status_locks (ids : list nat) : list Action :=
  [Acquire LStatus; Release LStatus; Acquire LConsumers]
  ++ (ids ≫= λ id, [Acquire (LConsumer id); Release (LConsumer id)]) ++ [Release LConsumers].

Definition mem_used_percent_locks (id : nat) : list Action :=
  [Acquire LStatus; Release LStatus; Acquire (LConsumer id); Release (LConsumer id)].

Definition update_locks (id : nat) : list Action :=
  [Acquire LStatus; Acquire (LConsumer id); Release (LConsumer id); Release LStatus].

(** The manager's status is only locked when the flag changes. *)
Definition set_spillable_locks (id : nat) (changes : bool) : list Action :=
  Acquire (LConsumer id) :: (if changes then [Acquire LStatus; Release LStatus] else [])
  ++ [Release (LConsumer id)].

(** ** Interleavings *)

Record Thread := mkThread { held : list Lock; todo : list Action }.

Definition free (ts : list Thread) (l : Lock) : Prop := Forall (λ t, l ∉ held t) ts.

Inductive lock_step : list Thread → list Thread → Prop :=
  | acquire_step ts i h l p :
      ts !! i = Some (mkThread h (Acquire l :: p)) → free ts l →
      lock_step ts (<[i := mkThread (l :: h) p]> ts)
  | release_step ts i h l p :
      ts !! i = Some (mkThread h (Release l :: p)) →
      lock_step ts (<[i := mkThread (filter (λ x, x ≠ l) h) p]> ts).

Definition start (ps : list (list Action)) : list Thread := mkThread [] <$> ps.

Definition deadlocked (ts : list Thread) : Prop :=
  Exists (λ t, todo t ≠ []) ts ∧ ∀ ts', ¬ lock_step ts ts'.

(** ** The common order *)

Definition rank (l : Lock) : nat := match l with LConsumers => 0 | LStatus => 1 | LConsumer _ => 2 end.

(** With the locks [h] held, [p] acquires upwards and ends holding nothing. *)
Fixpoint ordered (h : list Lock) (p : list Action) : bool :=
  match p with
  | [] => bool_decide (h = [])
  | Acquire l :: p => forallb (λ x, rank x <? rank l) h && ordered (l :: h) p
  | Release l :: p => ordered (filter (λ x, x ≠ l) h) p
  end.

Inductive MmOp :=
  | MmRegister | MmDeregister (id : nat) | MmDumpStatus (ids : list nat)
  | MmMemUsedPercent (id : nat) | MmUpdate (id : nat) | MmSetSpillable (id : nat) (changes : bool).

Definition op_locks (o : MmOp) : list Action :=
  match o with
  | MmRegister => register_locks
  | MmDeregister id => deregister_locks id
  | MmDumpStatus ids => dump_status_locks ids
  | MmMemUsedPercent id => mem_used_percent_locks id
  | MmUpdate id => update_locks id
  | MmSetSpillable id b => set_spillable_locks id b
  end.

Definition reverses (o : MmOp) : bool := match o with MmSetSpillable _ b => b | _ => false end.

Lemma filter_self (l : Lock) : filter (λ x, x ≠ l) [l] = [].
Proof. rewrite filter_cons, decide_False; [done|]. by intros []. Qed.

Lemma ordered_dump ids p :
  ordered [LConsumers] ((ids ≫= λ id, [Acquire (LConsumer id); Release (LConsumer id)]) ++ p)
  = ordered [LConsumers] p.
Proof.
  induction ids as [|id ids IH]; [done|]. rewrite bind_cons, <- app_assoc.
  cbn [app ordered forallb rank Nat.ltb Nat.leb andb].
  rewrite filter_cons, decide_False by (by intros []). rewrite filter_cons, decide_True by done.
  rewrite filter_nil. exact IH.
Qed.

Lemma op_ordered o p : reverses o = false → ordered [] p = true → ordered [] (op_locks o ++ p) = true.
Proof.
  intros Ho Hp. destruct o as [|id|ids|id|id|id b]; cbn [op_locks reverses] in *.
  - done.
  - unfold deregister_locks. cbn [app ordered forallb rank Nat.ltb Nat.leb andb].
    rewrite !filter_cons, !filter_nil.
    repeat first [rewrite (decide_True (P := _ ≠ _)) by done
      |rewrite (decide_False (P := _ ≠ _)) by (by intros [])|rewrite filter_cons|rewrite filter_nil].
    done.
  - unfold dump_status_locks. rewrite <- !app_assoc. cbn [app ordered forallb rank Nat.ltb Nat.leb andb].
    rewrite ?filter_self. cbn [forallb andb]. rewrite ordered_dump. cbn [app ordered]. by rewrite ?filter_self.
  - unfold mem_used_percent_locks. cbn [app ordered forallb andb]. rewrite ?filter_self. cbn [forallb andb].
    by rewrite ?filter_self.
  - unfold update_locks. cbn [app ordered forallb rank Nat.ltb Nat.leb andb].
    rewrite ?filter_cons, ?decide_False by (by intros []). rewrite ?decide_True by done.
    by rewrite ?filter_nil, ?filter_self.
  - subst b. unfold set_spillable_locks. cbn [app ordered forallb andb]. by rewrite ?filter_self.
Qed.

Lemma ops_ordered os : Forall (λ o, reverses o = false) os → ordered [] (os ≫= op_locks) = true.
Proof. induction 1 as [|o os Ho _ IH]; [done|]. rewrite bind_cons. by apply op_ordered. Qed.

Definition all_ordered (ts : list Thread) : Prop := Forall (λ t, ordered (held t) (todo t) = true) ts.

Lemma lock_step_ordered ts ts' : all_ordered ts → lock_step ts ts' → all_ordered ts'.
Proof.
  unfold all_ordered. intros Hts Hstep. destruct Hstep as [ts i h l p Hi Hfree|ts i h l p Hi];
    apply Forall_insert; try done;
    (rewrite Forall_lookup in Hts; specialize (Hts i _ Hi); cbn [held todo ordered] in Hts).
  - by apply andb_true_iff in Hts as [_ ?].
  - done.
Qed.

(** In a stuck state of ordered threads, a thread that wants a lock is blocked by one
    that wants a higher lock. *)
Lemma blocked_higher ts t l p :
  all_ordered ts → (∀ ts', ¬ lock_step ts ts') → t ∈ ts → todo t = Acquire l :: p →
  ∃ t' l' p', t' ∈ ts ∧ todo t' = Acquire l' :: p' ∧ rank l < rank l'.
Proof.
  intros Hts Hstuck [i Hi]%list_elem_of_lookup Htodo. destruct t as [h td]. cbn in Htodo. subst td.
  destruct (decide (free ts l)) as [Hf|Hf]; [by destruct (Hstuck _ (acquire_step ts i h l p Hi Hf))|].
  apply not_Forall_Exists in Hf; [|apply _]. apply Exists_exists in Hf as (t' & Ht' & Hheld).
  apply dec_stable in Hheld. unfold all_ordered in Hts. rewrite Forall_forall in Hts.
  specialize (Hts t' Ht'). destruct t' as [h' [|[l'|l'] p']]; cbn [held todo ordered] in *.
  - apply bool_decide_eq_true in Hts. subst. by apply not_elem_of_nil in Hheld.
  - exists (mkThread h' (Acquire l' :: p')), l', p'. split_and!; try done.
    apply andb_true_iff in Hts as [Hts _]. rewrite forallb_forall in Hts.
    apply Nat.ltb_lt, Hts. by apply list_elem_of_In.
  - apply list_elem_of_lookup in Ht' as [j Hj]. by destruct (Hstuck _ (release_step ts j h' l' p' Hj)).
Qed.

Lemma ordered_progress ts : all_ordered ts → ¬ deadlocked ts.
Proof.
  intros Hts [(t & Ht & Hne)%Exists_exists Hstuck].
  assert (∀ n, ∃ t' l' p', t' ∈ ts ∧ todo t' = Acquire l' :: p' ∧ n ≤ rank l') as Hclimb.
  { induction n as [|n (t' & l' & p' & Hin & Htd & Hr)].
    - destruct (todo t) as [|[l|l] p] eqn:E; [done|exists t, l, p; split_and!; [done..|lia]|].
      apply list_elem_of_lookup in Ht as [i Hi]. destruct t as [h td]. cbn in E. subst td.
      by destruct (Hstuck _ (release_step ts i h l p Hi)).
    - destruct (blocked_higher ts t' l' p' Hts Hstuck Hin Htd) as (t2 & l2 & p2 & ? & ? & ?).
      exists t2, l2, p2. split_and!; try done. lia. }
  destruct (Hclimb 3) as (t' & l' & p' & _ & _ & Hr). destruct l'; cbn in Hr; lia.
Qed.

(** C37: threads that run any sequences of registrations, deregistrations, memory
    updates and status queries, in any interleaving of their lock acquisitions, never
    deadlock. *)
Theorem mm_ordered_operations_do_not_deadlock oss ts :
  Forall (Forall (λ o, reverses o = false)) oss →
  rtc lock_step (start ((λ os, os ≫= op_locks) <$> oss)) ts → ¬ deadlocked ts.
Proof.
  intros Hoss Hr. apply ordered_progress.
  assert (all_ordered (start ((λ os, os ≫= op_locks) <$> oss))) as Hstart.
  { unfold all_ordered, start. apply Forall_fmap, Forall_fmap. eapply Forall_impl; [exact Hoss|].
    intros os Hos. by apply ops_ordered. }
  clear Hoss. induction Hr as [|ts1 ts2 ts3 Hs _ IH]; [done|]. apply IH. by eapply lock_step_ordered.
Qed.

Lemma mm_ordered_operations_do_not_deadlock_witness :
  ¬ deadlocked [mkThread [LStatus] [Acquire (LConsumer 1); Release (LConsumer 1); Release LStatus];
                mkThread [LConsumers] [Acquire LStatus; Release LStatus; Release LConsumers]].
Proof.
  apply (mm_ordered_operations_do_not_deadlock [[MmUpdate 1]; [MmRegister]]).
  - apply Forall_cons_2; [by apply Forall_singleton|]. apply Forall_cons_2; [by apply Forall_singleton|].
    apply Forall_nil_2.
  - eapply rtc_l; [apply (acquire_step _ 0 [] LStatus); [reflexivity|]|].
    { repeat (apply Forall_cons_2; [apply not_elem_of_nil|]). apply Forall_nil_2. }
    eapply rtc_l; [apply (acquire_step _ 1 [] LConsumers); [reflexivity|]|apply rtc_refl].
    apply Forall_cons_2; [cbn; set_solver|]. apply Forall_cons_2; [cbn; set_solver|]. apply Forall_nil_2.
Defined.

(** Set_spillable and a memory update of the same consumer on two threads can reach a
    state in which each waits for the lock the other holds. *)
Theorem mm_set_spillable_update_deadlock id :
  ∃ ts, rtc lock_step (start [set_spillable_locks id true; update_locks id]) ts ∧ deadlocked ts.
Proof.
  exists [mkThread [LConsumer id] [Acquire LStatus; Release LStatus; Release (LConsumer id)];
          mkThread [LStatus] [Acquire (LConsumer id); Release (LConsumer id); Release LStatus]]. split.
  - eapply rtc_l; [apply (acquire_step _ 0 [] (LConsumer id)); [reflexivity|]|].
    { repeat (apply Forall_cons_2; [apply not_elem_of_nil|]). apply Forall_nil_2. }
    eapply rtc_l; [apply (acquire_step _ 1 [] LStatus); [reflexivity|]|apply rtc_refl].
    apply Forall_cons_2; [cbn; set_solver|]. apply Forall_cons_2; [cbn; set_solver|]. apply Forall_nil_2.
  - split; [by apply Exists_cons_hd|]. intros ts' Hs.
    inversion Hs as [ts i h l p Hi Hfree|ts i h l p Hi]; subst.
    + destruct i as [|[|i]]; cbn in Hi; simplify_eq; apply Forall_cons in Hfree as [H0 [H1 _]%Forall_cons];
        cbn in H0, H1; set_solver.
    + destruct i as [|[|i]]; cbn in Hi; simplify_eq.
Qed.
