(* ===== verification/RowNullChecker.v ===== *)
(** * Null check of encoded key rows

    native-engine/datafusion-ext-plans/src/common/row_null_checker.rs.  A key row is the
    concatenation of its encoded fields; the checker walks over the fields, tests the
    null sentinel at the front of each and computes how many bytes the field takes.

    [FieldConfig], [DataTypeInfo] and the functions are those of the source; slicing
    and indexing outside the data panic.  The row format itself belongs to arrow
    (arrow-row, "row format"): [encodes] states what its documentation says of the bytes
    of one field.  The theorem is that on rows of that format the checker does not
    panic and finds a null exactly when a field is null. *)

From S2P Require Import Prelude MachineInt.
Local Open Scope Z_scope.

Record SortOptions := mkSortOptions { descending : bool; nulls_first : bool }.

Inductive DataTypeInfo :=
  | InfoNull | InfoPrimitive | InfoBoolean | InfoVariable | InfoFixedSizeBinary
  | InfoStruct | InfoList | InfoDictionary.

Record FieldConfig := mkFieldConfig {
  data_type : DataTypeInfo; sort_options : SortOptions; encoded_length : nat }.

Definition new_primitive (o : SortOptions) (n : nat) := mkFieldConfig InfoPrimitive o n.
Definition new_boolean (o : SortOptions) := mkFieldConfig InfoBoolean o 2.
Definition new_variable (o : SortOptions) := mkFieldConfig InfoVariable o 0.
Definition new_fixed_size_binary (o : SortOptions) (size : nat) := mkFieldConfig InfoFixedSizeBinary o (1 + size).
Definition new_struct (o : SortOptions) (n : nat) := mkFieldConfig InfoStruct o n.
Definition new_list (o : SortOptions) := mkFieldConfig InfoList o 0.
Definition new_dictionary (o : SortOptions) (n : nat) := mkFieldConfig InfoDictionary o n.

(** The arrow types as the checker sees them: [Primitive width] is any type with
    [is_primitive], [Dictionary] carries the width class of its value type. *)
Inductive KeyType :=
  | KNull | KBoolean | KPrimitive (width : nat) | KUtf8 | KLargeUtf8 | KBinary | KLargeBinary
  | KFixedSizeBinary (size : nat) | KList | KLargeList | KStruct
  | KDictionary (value_type : option nat) | KOther.

(** [value_type] is the byte width of an integer value type of a dictionary, [None]
    for every other value type. *)
Definition create_field_config_from_data_type (dt : KeyType) (o : SortOptions) : Result FieldConfig :=
  match dt with
  | KNull => Ok (mkFieldConfig InfoNull o 0)
  | KBoolean => Ok (new_boolean o)
  | KPrimitive width => Ok (new_primitive o (1 + width))
  | KUtf8 | KLargeUtf8 => Ok (new_variable o)
  | KBinary | KLargeBinary => Ok (new_variable o)
  | KFixedSizeBinary size => Ok (new_fixed_size_binary o size)
  | KList | KLargeList => Ok (new_list o)
  | KStruct => Ok (new_struct o 32)
  | KDictionary (Some 1%nat) => Ok (new_dictionary o 2)
  | KDictionary (Some 2%nat) => Ok (new_dictionary o 3)
  | KDictionary (Some 4%nat) => Ok (new_dictionary o 5)
  | KDictionary (Some 8%nat) => Ok (new_dictionary o 9)
  | KDictionary _ => Ok (new_dictionary o 5)
  | KOther => Panic
  end.

Definition type_needs_decoded_nulls (t : DataTypeInfo) : bool :=
  match t with InfoStruct | InfoList | InfoDictionary => true | _ => false end.

Definition needs_decoded_nulls (cfgs : list FieldConfig) : bool :=
  existsb (λ c, type_needs_decoded_nulls (data_type c)) cfgs.

Definition null_sentinel (o : SortOptions) : Z := if nulls_first o then 0 else 255.

(** [!b] on a byte *)
Definition not_u8 (b : Z) : Z := 255 - b.

Definition check_field_null (data : list Z) (c : FieldConfig) : Result bool :=
  if decide (data = []) then Ok true else
  match data_type c with
  | InfoNull => Ok true
  | _ => b ← index data 0; Ok (bool_decide (b = null_sentinel (sort_options c)))
  end.

(** ** Lengths of fields *)

Definition MINI_BLOCK_SIZE : nat := 8.
Definition MINI_BLOCK_COUNT : nat := 4.
Definition BLOCK_SIZE : nat := 32.

(** One block of [size] bytes and its sentinel at [idx]: the length of the field if it
    ends here, or the index of the next block. *)
Definition block_step (data : list Z) (continuation : Z) (size idx : nat) : Result (nat + nat) :=
  if decide (length data ≤ idx + size)%nat then Ok (inr (length data))
  else
    sentinel ← index data (idx + size);
    if decide (sentinel ≠ continuation) then Ok (inr (idx + size + 1)%nat)
    else Ok (inl (idx + (size + 1))%nat).

(** The mini blocks, and then the full blocks in a loop. *)
Fixpoint mini_blocks (n : nat) (data : list Z) (continuation : Z) (idx : nat) : Result (nat + nat) :=
  match n with
  | O => Ok (inl idx)
  | S n =>
      r ← block_step data continuation MINI_BLOCK_SIZE idx;
      match r with
      | inr len => Ok (inr len)
      | inl idx => mini_blocks n data continuation idx
      end
  end.

Definition decode_variable_blocks_length (data : list Z) (o : SortOptions) : Result nat :=
  let non_empty_sentinel := if descending o then not_u8 2 else 2 in
  b ← index data 0;
  if decide (b ≠ non_empty_sentinel) then Ok 1%nat else
  let continuation := if descending o then not_u8 255 else 255 in
  r ← mini_blocks MINI_BLOCK_COUNT data continuation 1;
  match r with
  | inr len => Ok len
  | inl idx => rloop (S (length data)) (block_step data continuation BLOCK_SIZE) idx
  end.

Definition calculate_variable_length (data : list Z) (o : SortOptions) : Result nat :=
  if decide (data = []) then Ok 0%nat else
  b ← index data 0;
  if decide (b = null_sentinel o) then Ok 1%nat else
  let empty_sentinel := if descending o then not_u8 1 else 1 in
  if decide (b = empty_sentinel) then Ok 1%nat
  else decode_variable_blocks_length data o.

Definition calculate_field_length (data : list Z) (c : FieldConfig) : Result nat :=
  if decide (data = []) then Ok 0%nat else
  match data_type c with
  | InfoNull => Ok 0%nat
  | InfoPrimitive => Ok (encoded_length c)
  | InfoBoolean => Ok 2%nat
  | InfoVariable => calculate_variable_length data (sort_options c)
  | InfoFixedSizeBinary => Ok (encoded_length c)
  | InfoStruct => n ← check_field_null data c; Ok (if n : bool then encoded_length c else encoded_length c)
  | InfoList => calculate_variable_length data (sort_options c)
  | InfoDictionary => Ok (encoded_length c)
  end.

(** [&row_data[offset..]] *)
Definition slice_from (data : list Z) (offset : nat) : Result (list Z) :=
  if decide (offset ≤ length data)%nat then Ok (drop offset data) else Panic.

Fixpoint has_null_fields (row_data : list Z) (cfgs : list FieldConfig) (offset : nat) : Result bool :=
  match cfgs with
  | [] => Ok false
  | c :: cfgs =>
      if decide (length row_data ≤ offset)%nat then Ok true else
      data ← slice_from row_data offset;
      has_null ← check_field_null data c;
      if has_null : bool then Ok true else
      len ← calculate_field_length data c;
      has_null_fields row_data cfgs (offset + len)
  end.

(** [has_null_internal], which [has_null] calls with the checker's fields. *)
Definition has_null (row_data : list Z) (cfgs : list FieldConfig) : Result bool :=
  has_null_fields row_data cfgs 0.

Record RowNullChecker := mkRowNullChecker {
  field_configs : list FieldConfig; decoded_nulls : bool }.

Definition new (fields : list (KeyType * SortOptions)) : Result RowNullChecker :=
  cfgs ← rmapM (λ f, create_field_config_from_data_type f.1 f.2) fields;
  Ok (mkRowNullChecker cfgs (needs_decoded_nulls cfgs)).

(** [SortOptions::default()] *)
Definition default_options : SortOptions := mkSortOptions false true.

Definition from_schema (fields : list KeyType) : Result RowNullChecker :=
  cfgs ← rmapM (λ f, create_field_config_from_data_type f default_options) fields;
  Ok (mkRowNullChecker cfgs (needs_decoded_nulls cfgs)).

(** [has_nulls]: bit [i] says that row [i] is valid.  Rows with nested or dictionary
    fields are decoded by arrow's converter; [decode] gives the logical nulls of each
    key column. *)
Definition has_nulls (decode : list (list Z) → Result (list (option (list bool))))
    (self : RowNullChecker) (rows : list (list Z)) : Result (list bool) :=
  if negb (decoded_nulls self) then
    rmapM (λ row, n ← has_null row (field_configs self); Ok (negb n)) rows
  else
    logical_nulls ← match decode rows with Ok x => Ok x | _ => Panic end;
    rmapM (λ i, rfoldM (λ ok nulls, if ok : bool then
        match nulls with Some nb => index nb i | None => Ok true end else Ok false) true logical_nulls)
      (seq 0 (length rows)).

(** ** The row format *)

(** A non-empty value in blocks: data blocks of eight bytes, four of them at most, then
    of thirty-two, each followed by the continuation byte, or by another byte after the
    last block. *)
Inductive block_bytes (continuation : Z) : nat → list Z → Prop :=
  | last_mini k b s : length b = MINI_BLOCK_SIZE → s ≠ continuation →
      block_bytes continuation (S k) (b ++ [s])
  | next_mini k b rest : length b = MINI_BLOCK_SIZE → block_bytes continuation k rest →
      block_bytes continuation (S k) (b ++ continuation :: rest)
  | last_full b s : length b = BLOCK_SIZE → s ≠ continuation →
      block_bytes continuation 0 (b ++ [s])
  | next_full b rest : length b = BLOCK_SIZE → block_bytes continuation 0 rest →
      block_bytes continuation 0 (b ++ continuation :: rest).

(** The number of data bytes of a fixed-width type, which follow the null byte. *)
Definition fixed_width (dt : KeyType) : option nat :=
  match dt with
  | KBoolean => Some 1%nat
  | KPrimitive width => Some width
  | KFixedSizeBinary size => Some size
  | _ => None
  end.

Definition is_variable (dt : KeyType) : bool :=
  match dt with KUtf8 | KLargeUtf8 | KBinary | KLargeBinary => true | _ => false end.

(** The bytes of one field; the boolean tells whether the value is null. *)
Inductive encodes (o : SortOptions) : KeyType → bool → list Z → Prop :=
  | enc_null_type : encodes o KNull true []
  | enc_fixed dt is_null b bs :
      fixed_width dt = Some (length bs) → b = (if is_null : bool then null_sentinel o else 1) →
      encodes o dt is_null (b :: bs)
  | enc_var_null dt : is_variable dt → encodes o dt true [null_sentinel o]
  | enc_var_empty dt : is_variable dt →
      encodes o dt false [if descending o then not_u8 1 else 1]
  | enc_var_blocks dt bs : is_variable dt →
      block_bytes (if descending o then not_u8 255 else 255) MINI_BLOCK_COUNT bs →
      encodes o dt false ((if descending o then not_u8 2 else 2) :: bs).

(** A row is its fields one after the other. *)
Inductive row_encodes : list (KeyType * SortOptions) → list bool → list Z → Prop :=
  | row_nil : row_encodes [] [] []
  | row_cons dt o fields n ns bs rest :
      encodes o dt n bs → row_encodes fields ns rest →
      row_encodes ((dt, o) :: fields) (n :: ns) (bs ++ rest).

(** ** Lengths of block encodings *)

Lemma block_at cont size pre b s rest :
  length b = size →
  block_step (pre ++ (b ++ s :: rest)) cont size (length pre) =
    Ok (if decide (s ≠ cont) then inr (length pre + size + 1)%nat
        else inl (length pre + (size + 1))%nat).
Proof.
  intros Hb. unfold block_step. rewrite !length_app, length_cons.
  rewrite decide_False by lia.
  assert (index (pre ++ b ++ s :: rest) (length pre + size) = Ok s) as ->.
  { apply index_Ok. rewrite lookup_app_r by lia. rewrite lookup_app_r by lia.
    by replace (length pre + size - length pre - length b)%nat with O by lia. }
  simpl. by destruct (decide _).
Qed.

Lemma mini_blocks_ok cont k bs :
  block_bytes cont k bs → ∀ pre rest,
  mini_blocks k (pre ++ bs ++ rest) cont (length pre) = Ok (inr (length pre + length bs)%nat)
  ∨ ∃ done more, bs = done ++ more ∧ block_bytes cont 0 more ∧
      mini_blocks k (pre ++ bs ++ rest) cont (length pre) = Ok (inl (length pre + length done)%nat).
Proof.
  assert (Hz : ∀ bs pre rest, block_bytes cont 0 bs → ∃ done more, bs = done ++ more ∧
    block_bytes cont 0 more ∧
    mini_blocks 0 (pre ++ bs ++ rest) cont (length pre) = Ok (inl (length pre + length done)%nat)).
  { intros bs' pre rest Hb. exists [], bs'. simpl. rewrite Nat.add_0_r. auto. }
  induction 1 as [k b s Hb Hs|k b bs Hb Hbs IH|b s Hb Hs|b bs Hb Hbs IH]; intros pre rest.
  - left. cbn [mini_blocks]. rewrite <-app_assoc. simpl app. rewrite block_at by done. cbn [mbind Result_bind].
    rewrite decide_True by done. do 2 f_equal. rewrite length_app. simpl. lia.
  - cbn [mini_blocks]. rewrite <-app_assoc. simpl app. rewrite block_at by done. cbn [mbind Result_bind].
    rewrite decide_False by naive_solver.
    specialize (IH (pre ++ b ++ [cont]) rest).
    replace ((pre ++ b ++ [cont]) ++ bs ++ rest) with (pre ++ b ++ cont :: bs ++ rest) in IH
      by by rewrite <-!app_assoc.
    rewrite !length_app, Hb, length_cons in *. simpl length in IH.
    destruct IH as [IH|(d & m & -> & Hm & IH)]; [left|right].
    + rewrite IH. do 2 f_equal. lia.
    + exists (b ++ cont :: d), m. split; [by rewrite <-app_assoc|]. split; [done|].
      rewrite IH. rewrite length_app, length_cons. do 2 f_equal. lia.
  - right. apply Hz. by constructor.
  - right. apply Hz. by constructor.
Qed.

(** The loop over the full blocks ends within the bytes of the field. *)
Lemma full_blocks_ok cont bs :
  block_bytes cont 0 bs → ∀ pre rest fuel, (length bs ≤ fuel)%nat →
  rloop fuel (block_step (pre ++ bs ++ rest) cont BLOCK_SIZE) (length pre)
    = Ok (length pre + length bs)%nat.
Proof.
  remember 0%nat as k eqn:Hk. intros H; revert Hk.
  induction H as [k b s Hb Hs|k b bs Hb Hbs IH|b s Hb Hs|b bs Hb Hbs IH]; intros Hk pre rest fuel Hf;
    try done; rewrite length_app in Hf; destruct fuel as [|fuel]; simpl length in Hf; try lia; cbn [rloop].
  - rewrite <-app_assoc. simpl app. rewrite block_at by done. cbn [mbind Result_bind].
    rewrite decide_True by done. f_equal. rewrite length_app. simpl. lia.
  - rewrite <-app_assoc. simpl app. rewrite block_at by done. cbn [mbind Result_bind].
    rewrite decide_False by naive_solver.
    specialize (IH eq_refl (pre ++ b ++ [cont]) rest fuel).
    replace ((pre ++ b ++ [cont]) ++ bs ++ rest) with (pre ++ b ++ cont :: bs ++ rest) in IH
      by by rewrite <-!app_assoc.
    rewrite !length_app, Hb in *. simpl length in *. rewrite IH by lia. f_equal. lia.
Qed.

Lemma variable_blocks_length o bs rest :
  block_bytes (if descending o then not_u8 255 else 255) MINI_BLOCK_COUNT bs →
  decode_variable_blocks_length ((if descending o then not_u8 2 else 2) :: bs ++ rest) o
    = Ok (S (length bs)).
Proof.
  intros Hb. unfold decode_variable_blocks_length. cbn [index lookup list_lookup mbind].
  set (h := if descending o then _ else _). set (cont := if descending o then _ else _) in *.
  change (index (h :: bs ++ rest) 0) with (Ok h). cbn [mbind Result_bind].
  rewrite decide_False by naive_solver.
  pose proof (mini_blocks_ok _ _ _ Hb [h] rest) as [Hm|(d & m & -> & Hz & Hm)];
    simpl length in Hm; simpl app in Hm; rewrite Hm; cbn [mbind Result_bind]; [done|].
  change (1 + length d)%nat with (S (length d)).
  pose proof (full_blocks_ok _ _ Hz (h :: d) rest) as Hl.
  simpl app in Hl. rewrite <-app_assoc. simpl length in *. rewrite Hl;
    rewrite !length_app; [f_equal; lia|lia].
Qed.

(** ** Fields and rows *)

Lemma null_sentinel_ne o : null_sentinel o ≠ 1 ∧ null_sentinel o ≠ not_u8 1 ∧
  null_sentinel o ≠ 2 ∧ null_sentinel o ≠ not_u8 2.
Proof. unfold null_sentinel, not_u8. destruct (nulls_first o); lia. Qed.

(** What the checker needs of a field: its first byte decides, and the length is that of
    the field's bytes. *)
Lemma field_ok o dt c n bs rest :
  create_field_config_from_data_type dt o = Ok c →
  encodes o dt n bs → bs ++ rest ≠ [] →
  check_field_null (bs ++ rest) c = Ok n ∧
  (n = false → calculate_field_length (bs ++ rest) c = Ok (length bs) ∧ bs ≠ []).
Proof.
  pose proof (null_sentinel_ne o) as (H1 & H1' & H2 & H2').
  intros Hc He Hne. unfold check_field_null, calculate_field_length.
  rewrite !decide_False by done.
  destruct He as [|dt n b bs Hw ->|dt Hv|dt Hv|dt bs Hv Hb].
  - simplify_eq/=. done.
  - destruct dt; simplify_eq/=; (split; [f_equal; destruct n; case_bool_decide; naive_solver|]);
      intros ->; by rewrite ?Hw.
  - destruct dt; simplify_eq/=; (split; [by rewrite bool_decide_true|done]).
  - destruct dt; simplify_eq/=; (split; [rewrite bool_decide_false; [done|by destruct (descending o)]|intros _]);
      (split; [|done]); unfold calculate_variable_length;
      rewrite decide_False by done; cbn; rewrite decide_False by (destruct (descending o); congruence);
      by rewrite decide_True.
  - destruct dt; simplify_eq/=; (split; [rewrite bool_decide_false; [done|by destruct (descending o)]|intros _]);
      (split; [|done]); unfold calculate_variable_length;
      rewrite decide_False by done; rewrite variable_blocks_length by done;
      cbn; rewrite decide_False by (destruct (descending o); congruence);
      by rewrite decide_False by by destruct (descending o).
Qed.

Lemma has_null_fields_ok fields cfgs ns bs pre :
  rmapM (λ f, create_field_config_from_data_type f.1 f.2) fields = Ok cfgs →
  row_encodes fields ns bs →
  has_null_fields (pre ++ bs) cfgs (length pre) = Ok (existsb id ns).
Proof.
  intros Hc Hr. revert cfgs pre Hc. induction Hr as [|dt o fields n ns bs rest He Hr IH];
    intros cfgs pre Hc.
  - by injection Hc as <-.
  - cbn [rmapM fst snd] in Hc. apply bind_Ok in Hc as (c & Hc & Hcs).
    apply bind_Ok in Hcs as (cs & Hcs & [= <-]). cbn [has_null_fields existsb].
    case_decide as Hlen.
    { assert (bs = []) as -> by (apply length_zero_iff_nil; rewrite !length_app in Hlen; lia).
      by inversion He; subst. }
    unfold slice_from. rewrite decide_True by (rewrite length_app; lia).
    cbn [mbind Result_bind]. rewrite drop_app_length.
    destruct (field_ok o dt c n bs rest Hc He) as [-> Hl].
    { intros Hnil. rewrite length_app, Hnil in Hlen. simpl in Hlen. lia. }
    cbn [mbind Result_bind]. destruct n; [done|]. destruct (Hl eq_refl) as [-> _].
    cbn [mbind Result_bind orb id].
    rewrite app_assoc, <-length_app. by apply IH.
Qed.

(** C38: for key rows of fixed-width, string, binary and null columns in arrow's row
    format, in any sort order, the checker built from the column types never indexes
    outside a row, its block loops end, and it reports a row as valid exactly when none
    of its fields is null. *)
Theorem row_null_checker_correct decode fields checker rows nss :
  new fields = Ok checker → decoded_nulls checker = false →
  Forall2 (row_encodes fields) nss rows →
  has_nulls decode checker rows = Ok ((λ ns, negb (existsb id ns)) <$> nss).
Proof.
  intros Hn Hd Hr. unfold new in Hn. apply bind_Ok in Hn as (cfgs & Hc & [= <-]).
  cbn [decoded_nulls field_configs] in *. unfold has_nulls. cbn [decoded_nulls field_configs].
  rewrite Hd. cbn [negb]. apply rmapM_Ok. apply Forall2_fmap_r. apply Forall2_flip.
  eapply Forall2_impl; [exact Hr|]. intros ns row Hrow. unfold flip.
  pose proof (has_null_fields_ok fields cfgs ns row [] Hc Hrow) as Hn.
  unfold has_null. cbn [app length] in Hn. by rewrite Hn.
Qed.

Module NullSample.

Definition asc := mkSortOptions false true.
Definition desc := mkSortOptions true false.
Definition sample_fields := [(KPrimitive 4, asc); (KUtf8, desc); (KBoolean, asc)].

(** A string of forty bytes, written in descending order: four mini blocks and a full one. *)
Definition forty : list Z :=
  let mini := repeat (not_u8 97) 8 ++ [0] in
  253 :: mini ++ mini ++ mini ++ mini ++ (repeat (not_u8 97) 32 ++ [not_u8 8]).

Definition row1 := [1;0;0;0;5] ++ forty ++ [1;1] ++ [].
Definition row2 := [1;0;0;0;5] ++ [254] ++ [0;0] ++ [].
Definition row3 := [0;0;0;0;0] ++ [255] ++ [1;0] ++ [].

Lemma forty_encodes : encodes desc KUtf8 false forty.
Proof.
  apply (enc_var_blocks desc KUtf8); [done|].
  change (block_bytes 0 4 (tail forty)). unfold forty, tail. cbv zeta.
  do 4 (rewrite <-app_assoc; apply next_mini; [done|]).
  by apply last_full.
Qed.

Lemma rows_encode : Forall2 (row_encodes sample_fields)
  [[false; false; false]; [false; false; true]; [true; true; false]] [row1; row2; row3].
Proof.
  repeat (apply Forall2_cons; split; [|]); [..|by apply Forall2_nil].
  - apply row_cons; [by apply enc_fixed|]. apply row_cons; [apply forty_encodes|].
    apply row_cons; [by apply enc_fixed|apply row_nil].
  - apply row_cons; [by apply enc_fixed|]. apply row_cons; [by apply (enc_var_empty desc KUtf8)|].
    apply row_cons; [by apply enc_fixed|apply row_nil].
  - apply row_cons; [by apply enc_fixed|]. apply row_cons; [by apply (enc_var_null desc KUtf8)|].
    apply row_cons; [by apply enc_fixed|apply row_nil].
Qed.

Lemma row_null_checker_correct_witness :
  new sample_fields = Ok (mkRowNullChecker [new_primitive asc 5; new_variable desc; new_boolean asc] false) ∧
  has_nulls (λ _, Panic) (mkRowNullChecker [new_primitive asc 5; new_variable desc; new_boolean asc] false)
    [row1; row2; row3] = Ok [true; false; false].
Proof.
  split; [reflexivity|].
  exact (row_null_checker_correct (λ _, Panic) sample_fields _ _ _ eq_refl eq_refl rows_encode).
Defined.

(** The same by evaluation. *)
Example has_nulls_runs :
  has_nulls (λ _, Panic) (mkRowNullChecker [new_primitive asc 5; new_variable desc; new_boolean asc] false)
    [row1; row2; row3] = Ok [true; false; false].
Proof. vm_compute. reflexivity. Qed.

End NullSample.
