(* ===== verification/Limit.v ===== *)
(** * Limit

    native-engine/datafusion-ext-plans/src/limit_exec.rs.  The operator forwards the
    rows [offset .. limit) of its input: it slices the first and the last batch it
    needs and stops reading when the limit is reached.

    The input is a stream of batches, each a list of rows, or of errors; the result is
    the batches sent to the output channel and the outcome of the task.  Counters are
    64-bit; the build leaves overflow checks off, so [limit - skip] wraps. *)

From S2P Require Import Prelude MachineInt.
Local Open Scope Z_scope.

Section Limit.
Context {Row : Type}.
Local Abbreviation Stream := (list (Result (list Row))).

Definition num_rows (batch : list Row) : Z := Z.of_nat (length batch).

(** [batch.slice(offset, length)]: the arguments lie inside the batch. *)
Definition slice (batch : list Row) (offset len : Z) : Result (list Row) :=
  if decide (offset + len ≤ num_rows batch)
  then Ok (take (Z.to_nat len) (drop (Z.to_nat offset) batch)) else Panic.

(** The part both loops share: cut the batch at the rows that remain. *)
Definition cut_batch (batch : list Row) (remaining : Z) : Result (list Row * Z) :=
  if decide (remaining < num_rows batch) then
    batch ← slice batch 0 remaining; Ok (batch, 0)
  else Ok (batch, usize (remaining - num_rows batch)).

Fixpoint execute_limit (input : Stream) (remaining : Z) : Sent (list Row) :=
  if decide (remaining > 0) then
    match input with
    | [] => ([], Ok tt)
    | next :: input =>
        run next (λ batch,
        run (cut_batch batch remaining) (λ '(batch, remaining),
        send batch (execute_limit input remaining)))
    end
  else ([], Ok tt).

Fixpoint limit_with_offset_loop (input : Stream) (skip remaining : Z) : Sent (list Row) :=
  if decide (remaining > 0) then
    match input with
    | [] => ([], Ok tt)
    | next :: input =>
        run next (λ batch,
        let rows := num_rows batch in
        if decide (skip > 0 ∧ rows ≤ skip) then
          limit_with_offset_loop input (usize (skip - rows)) remaining
        else
          run (if decide (skip > 0) then
                 batch ← slice batch skip (usize (rows - skip)); Ok (batch, 0)
               else Ok (batch, skip)) (λ '(batch, skip),
          run (cut_batch batch remaining) (λ '(batch, remaining),
          send batch (limit_with_offset_loop input skip remaining))))
    end
  else ([], Ok tt).

Definition execute_limit_with_offset (input : Stream) (limit offset : Z) : Sent (list Row) :=
  let skip := offset in
  let remaining := usize (limit - skip) in
  limit_with_offset_loop input skip remaining.

Definition execute (input : Stream) (limit offset : Z) : Sent (list Row) :=
  if decide (offset = 0) then execute_limit input limit
  else execute_limit_with_offset input limit offset.

(** ** Lemmas *)

(** A batch has fewer rows than a [usize] counts. *)
Definition batch_ok (batch : list Row) : Prop := num_rows batch < 2 ^ 64.

Lemma cut_batch_ok batch remaining :
  0 < remaining < 2 ^ 64 →
  cut_batch batch remaining = Ok (take (Z.to_nat remaining) batch, Z.max 0 (remaining - num_rows batch)).
Proof.
  intros Hr. unfold cut_batch, slice. unfold num_rows in *. case_decide as Hc.
  - rewrite decide_True by lia. simpl. rewrite drop_0. do 2 f_equal. lia.
  - rewrite take_ge by lia. do 2 f_equal. rewrite Z.max_r by lia. apply wrapu_id.
    unfold in_u. lia.
Qed.

(** [more] stands for whatever the input would still deliver; it is read only when the
    batches before it have fewer rows than the limit. *)
Lemma limit_ok (batches : list (list Row)) (more : Stream) remaining :
  0 ≤ remaining < 2 ^ 64 →
  (remaining ≤ num_rows (concat batches) ∨ more = []) →
  ∃ out, execute_limit ((Ok <$> batches) ++ more) remaining = (out, Ok tt) ∧
    concat out = take (Z.to_nat remaining) (concat batches).
Proof.
  revert remaining; induction batches as [|b bs IH]; intros r Hr Hm;
    rewrite ?fmap_nil, ?fmap_cons; cbn [app execute_limit concat].
  - exists []. rewrite take_nil. split; [|done].
    destruct more as [|x more]; simpl; case_decide as Hd; try done.
    destruct Hm as [Hm|Hm]; [|done]. unfold num_rows in Hm. simpl in Hm. lia.
  - case_decide as Hd.
    + cbn [run]. rewrite cut_batch_ok by lia. cbn [run].
      destruct (IH (Z.max 0 (r - num_rows b))) as (out & He & Ho).
      { unfold num_rows. lia. }
      { destruct Hm as [Hm|Hm]; [left|by right]. unfold num_rows in *. simpl in Hm.
        rewrite length_app in Hm. lia. }
      exists (take (Z.to_nat r) b :: out). rewrite He. split; [done|].
      simpl. rewrite Ho, take_app. f_equal. f_equal. unfold num_rows. lia.
    + exists []. split; [done|]. replace (Z.to_nat r) with O by lia. by rewrite take_0.
Qed.

(** Once nothing is left to skip the second loop is the first. *)
Lemma offset_loop_zero input remaining :
  limit_with_offset_loop input 0 remaining = execute_limit input remaining.
Proof.
  revert remaining; induction input as [|next input IH]; intros r;
    cbn [limit_with_offset_loop execute_limit]; [done|].
  case_decide; [|done]. destruct next as [b| | | |]; try done. cbn [run].
  rewrite decide_False by lia. rewrite decide_False by lia. cbn [run].
  destruct (cut_batch b r) as [[b' r']| | | |]; try done. cbn [run]. by rewrite IH.
Qed.

Lemma limit_with_offset_ok (batches : list (list Row)) (more : Stream) skip remaining :
  Forall batch_ok batches → 0 ≤ skip < 2 ^ 64 → 0 ≤ remaining < 2 ^ 64 →
  (skip + remaining ≤ num_rows (concat batches) ∨ more = []) →
  ∃ out, limit_with_offset_loop ((Ok <$> batches) ++ more) skip remaining = (out, Ok tt) ∧
    concat out = take (Z.to_nat remaining) (drop (Z.to_nat skip) (concat batches)).
Proof.
  intros Hbs. revert skip; induction Hbs as [|b bs Hb Hbs IH]; intros s Hs Hr Hm.
  { destruct (decide (s = 0)) as [->|Hn].
    { rewrite offset_loop_zero. apply (limit_ok []); [lia|]. naive_solver. }
    exists []. simpl. rewrite drop_nil, take_nil. split; [|done].
    destruct more as [|x more]; simpl; case_decide; try done.
    destruct Hm as [Hm|?]; [|done]. unfold num_rows in Hm; simpl in Hm; lia. }
  destruct (decide (s = 0)) as [->|Hn].
  { rewrite offset_loop_zero. apply (limit_ok (b :: bs)); [lia|]. naive_solver. }
  rewrite fmap_cons. cbn [app limit_with_offset_loop concat]. case_decide as Hd; cycle 1.
  { exists []. replace (Z.to_nat remaining) with O by lia. by rewrite take_0. }
  cbn [run]. case_decide as Hskip.
  - destruct Hskip as [_ Hskip].
    rewrite (wrapu_id 64) by (unfold in_u, num_rows in *; lia).
    destruct (IH (s - num_rows b)) as (out & -> & Ho); [unfold num_rows in *; lia|lia| |].
    { destruct Hm as [Hm|Hm]; [left|by right]. unfold num_rows in *; simpl in Hm;
        rewrite length_app in Hm; lia. }
    exists out. split; [done|]. rewrite Ho, drop_app, (drop_ge b) by (unfold num_rows in *; lia).
    f_equal. cbn [app]. f_equal. unfold num_rows. lia.
  - rewrite decide_True by lia.
    assert (s < num_rows b) as Hlt by lia.
    unfold slice. assert (usize (num_rows b - s) = num_rows b - s) as -> by (apply wrapu_id; unfold in_u, batch_ok in *; lia).
    rewrite decide_True by lia. cbn [mbind Result_bind run].
    rewrite cut_batch_ok by lia. cbn [run]. rewrite offset_loop_zero.
    rewrite (take_ge (drop _ b)) by (rewrite length_drop; unfold num_rows; lia).
    set (b' := drop (Z.to_nat s) b).
    assert (Hl : num_rows b' = num_rows b - s)
      by (unfold b', num_rows in *; rewrite length_drop; lia).
    destruct (limit_ok bs more (Z.max 0 (remaining - num_rows b'))) as (out & -> & Ho).
    { unfold num_rows; lia. }
    { destruct Hm as [Hm|Hm]; [left|by right]. rewrite Hl. unfold num_rows in *; simpl in Hm;
        rewrite length_app in Hm; lia. }
    exists (take (Z.to_nat remaining) b' :: out). split; [done|]. simpl.
    rewrite Ho, drop_app. replace (Z.to_nat s - length b)%nat with O by (unfold num_rows in *; lia).
    rewrite drop_0, take_app. fold b'. do 2 f_equal. unfold num_rows. lia.
Qed.

(** With an offset not above the limit, the limit operator forwards exactly the input
    rows from offset to limit, however the input is cut into batches, and reads nothing
    behind the row at the limit: an error that follows is not reported. *)
Theorem limit_exec_correct batches more limit offset :
  Forall batch_ok batches → 0 ≤ offset ≤ limit → limit < 2 ^ 64 →
  (limit ≤ num_rows (concat batches) ∨ more = []) →
  ∃ out, execute ((Ok <$> batches) ++ more) limit offset = (out, Ok tt) ∧
    concat out = take (Z.to_nat (limit - offset)) (drop (Z.to_nat offset) (concat batches)).
Proof.
  intros Hb Ho Hl Hm. unfold execute. case_decide as Hz.
  - subst. rewrite Z.sub_0_r, drop_0. apply limit_ok; [lia|done].
  - unfold execute_limit_with_offset. rewrite (wrapu_id 64) by (unfold in_u; lia).
    apply limit_with_offset_ok; [done|lia|lia|]. destruct Hm; [left; lia|by right].
Qed.

(** With an offset above the limit, the subtraction of the two 64-bit counters wraps
    around and the operator forwards every row after the offset instead of none. *)
Theorem limit_below_offset_underflow batches limit offset :
  Forall batch_ok batches → 0 ≤ limit < offset → offset < 2 ^ 64 → num_rows (concat batches) ≤ 2 ^ 64 - offset →
  ∃ out, execute (Ok <$> batches) limit offset = (out, Ok tt) ∧
    concat out = drop (Z.to_nat offset) (concat batches).
Proof.
  intros Hb Hlo Ho Hn. unfold execute. rewrite decide_False by lia.
  unfold execute_limit_with_offset.
  assert (usize (limit - offset) = 2 ^ 64 + limit - offset) as ->.
  { unfold usize, wrapu. symmetry. apply (Z.mod_unique_pos _ _ (-1)); lia. }
  destruct (limit_with_offset_ok batches [] offset (2 ^ 64 + limit - offset)) as (out & He & Hc);
    [done|lia|lia|by right|].
  rewrite app_nil_r in He. exists out. split; [done|].
  rewrite Hc. apply take_ge. rewrite length_drop. unfold num_rows in Hn. lia.
Qed.

End Limit.

Module LimitSample.

Definition batches : list (list Z) := [[1; 2; 3]; []; [4; 5]; [6; 7]].

Lemma limit_exec_correct_witness :
  ∃ out, execute ((Ok <$> batches) ++ [Err UnexpectedEof]) 6 2 = (out, Ok tt) ∧ concat out = [3; 4; 5; 6].
Proof. apply (limit_exec_correct batches [Err UnexpectedEof] 6 2); [repeat constructor|lia|lia|left; vm_compute; discriminate]. Defined.

Lemma limit_below_offset_underflow_witness :
  ∃ out, execute (Ok <$> batches) 2 4 = (out, Ok tt) ∧ concat out = [5; 6; 7].
Proof. apply (limit_below_offset_underflow batches 2 4); [repeat constructor|lia|lia|vm_compute; discriminate]. Defined.

Example limit_runs : execute (Ok <$> batches) 6 2 = ([[3]; []; [4; 5]; [6]], Ok tt).
Proof. vm_compute. reflexivity. Qed.

End LimitSample.
