(* ===== verification/Window.v ===== *)
(** * Window functions: context and processors

    native-engine/datafusion-ext-plans/src/window/{mod,window_context}.rs and
    window/processors/*.rs.  A processor receives the batches of a partitioned and
    ordered input one after the other and returns one value per row; it keeps the bytes
    of the current partition and its counters between the batches.

    [WindowContext] holds what the processors use of the source's context.  Expressions
    and row converters belong to DataFusion and arrow: an [Expr] is a function from a
    batch to a column, and [get_partition_rows] and [get_order_rows] give the encoded
    keys of the rows of a batch.  [f64_div a b] is [a as f64 / b as f64].

    What the processors compute is stated over the rows seen so far: [row_number_spec],
    [rank_spec], [dense_rank_spec] and so on take the rows before the current one and the
    current one.  [Streaming] is the contract between a processor that works batch by
    batch and the operator. *)

From S2P Require Import Prelude MachineInt.
Local Open Scope Z_scope.

Local Abbreviation bytes := (list Z).

Section Window.
Context {Row F64 Scalar : Type}.
Context (f64_div : Z → Z → F64) (f64_zero : F64).
Context (is_null : Scalar → bool) (null_value : Scalar).

Local Abbreviation Batch := (list Row).
Local Abbreviation Expr := (list Row → Result (list Scalar)).

Record WindowContext := mkWindowContext {
  has_partition : bool;
  get_partition_rows : Batch → Result (list bytes);
  get_order_rows : Batch → Result (list bytes);
  group_limit : option Z;
  output_window_cols : bool }.

Inductive Value :=
  | Int32 (v : Z)
  | Float64 (v : F64)
  | AnyScalar (v : Scalar).

(** [for row_idx in 0..batch.num_rows()], where the body yields one value per row. *)
Fixpoint for_rows {St V} (body : St → nat → Result (St * V)) (rows : list nat) (st : St)
    : Result (St * list V) :=
  match rows with
  | [] => Ok (st, [])
  | i :: rows =>
      '(st, v) ← body st i;
      '(st, vs) ← for_rows body rows st;
      Ok (st, v :: vs)
  end.

(** The test all streaming processors make: whether the row belongs to the current
    partition, and the current partition afterwards. *)
Definition same_partition (ctx : WindowContext) (partition_rows : list bytes) (cur_partition : bytes)
    (row_idx : nat) : Result (bool * bytes) :=
  if negb (has_partition ctx) then Ok (true, cur_partition) else
  partition_row ← index partition_rows row_idx;
  if decide (partition_row ≠ cur_partition) then Ok (false, partition_row)
  else Ok (true, cur_partition).

(** ** row_number *)

Record RowNumberProcessor := mkRowNumber { rn_partition : bytes; cur_row_number : Z }.

Definition row_number_new : RowNumberProcessor := mkRowNumber [] 0.

Definition row_number_row ctx partition_rows (self : RowNumberProcessor) (row_idx : nat)
    : Result (RowNumberProcessor * Z) :=
  '(same, cur) ← same_partition ctx partition_rows (rn_partition self) row_idx;
  let n := if (same : bool) then cur_row_number self else 0 in
  let n := i32 (n + 1) in
  Ok (mkRowNumber cur n, n).

Definition row_number_process ctx (self : RowNumberProcessor) (batch : Batch)
    : Result (RowNumberProcessor * list Z) :=
  partition_rows ← get_partition_rows ctx batch;
  for_rows (row_number_row ctx partition_rows) (seq 0 (length batch)) self.

(** ** rank and dense_rank *)

Record RankProcessor := mkRank {
  rk_partition : bytes; cur_order : bytes; cur_rank : Z; cur_equals : Z; is_dense : bool }.

Definition rank_new (dense : bool) : RankProcessor := mkRank [] [] 0 1 dense.

Definition rank_row ctx partition_rows order_rows (self : RankProcessor) (row_idx : nat)
    : Result (RankProcessor * Z) :=
  '(same, cur) ← same_partition ctx partition_rows (rk_partition self) row_idx;
  order_row ← index order_rows row_idx;
  let self :=
    if (same : bool) then
      if decide (order_row = cur_order self) then
        mkRank cur (cur_order self) (cur_rank self) (i32 (cur_equals self + 1)) (is_dense self)
      else
        mkRank cur order_row
          (i32 (cur_rank self + (if negb (is_dense self) then cur_equals self else 1))) 1 (is_dense self)
    else mkRank cur order_row 1 1 (is_dense self) in
  Ok (self, cur_rank self).

Definition rank_process ctx (self : RankProcessor) (batch : Batch) : Result (RankProcessor * list Z) :=
  partition_rows ← get_partition_rows ctx batch;
  order_rows ← get_order_rows ctx batch;
  for_rows (rank_row ctx partition_rows order_rows) (seq 0 (length batch)) self.

(** ** nth_value *)

Record NthValueProcessor := mkNthValue {
  nv_input : Expr; nv_offset : Z; ignore_nulls : bool; nv_partition : bytes;
  observed_rows : Z; nth_value : option Scalar }.

Definition nth_value_row ctx partition_rows input_values (self : NthValueProcessor) (row_idx : nat)
    : Result (NthValueProcessor * Scalar) :=
  '(same, cur) ← same_partition ctx partition_rows (nv_partition self) row_idx;
  let observed := if (same : bool) then observed_rows self else 0 in
  let nth := if (same : bool) then nth_value self else None in
  '(observed, nth) ←
    match nth with
    | Some v => Ok (observed, Some v)
    | None =>
        value ← index input_values row_idx;
        let counts_for_offset := negb (ignore_nulls self) || negb (is_null value) in
        if counts_for_offset then
          let observed := usize (observed + 1) in
          Ok (observed, if decide (observed = nv_offset self) then Some value else None)
        else Ok (observed, None)
    end;
  Ok (mkNthValue (nv_input self) (nv_offset self) (ignore_nulls self) cur observed nth,
      default null_value nth).

Definition nth_value_process ctx (self : NthValueProcessor) (batch : Batch)
    : Result (NthValueProcessor * list Scalar) :=
  partition_rows ← get_partition_rows ctx batch;
  input_values ← nv_input self batch;
  for_rows (nth_value_row ctx partition_rows input_values) (seq 0 (length batch)) self.

(** The literal offset: a positive 32- or 64-bit integer, or anything else. *)
Definition nth_value_try_new (children : list Expr) (offset_literal : option (option Z)) (ignore : bool)
    : Result NthValueProcessor :=
  match children with
  | [input; _] =>
      match offset_literal with
      | None => Err (Execution "nth_value offset must be a literal physical expression")
      | Some (Some value) =>
          if decide (value > 0) then Ok (mkNthValue input (usize value) ignore [] 0 None)
          else Err (Execution "nth_value offset must be a positive non-null integer literal")
      | Some None => Err (Execution "nth_value offset must be a positive non-null integer literal")
      end
  | _ => Err (Execution "nth_value expects input/offset children")
  end.

(** ** Aggregates over the rows so far *)

(** What the processor uses of an aggregate function (agg/agg.rs, trait [Agg]) on a
    column of one accumulator. *)
Record Agg (Acc : Type) := mkAgg {
  agg_exprs : list Expr;
  create_acc_column : Acc;
  partial_update : Acc → list (list Scalar) → nat → Result Acc;
  final_merge : Acc → Result (Acc * Scalar) }.
Arguments mkAgg {Acc}. Arguments agg_exprs {Acc}. Arguments create_acc_column {Acc}.
Arguments partial_update {Acc}. Arguments final_merge {Acc}.

Record AggProcessor (Acc : Type) := mkAggProcessor {
  ag_partition : bytes; agg : Agg Acc; acc_col : Acc }.
Arguments mkAggProcessor {Acc}. Arguments ag_partition {Acc}. Arguments agg {Acc}. Arguments acc_col {Acc}.

Definition agg_try_new {Acc} (a : Agg Acc) : AggProcessor Acc := mkAggProcessor [] a (create_acc_column a).

Definition agg_row {Acc} ctx partition_rows children_cols (self : AggProcessor Acc) (row_idx : nat)
    : Result (AggProcessor Acc * Scalar) :=
  '(same, cur) ← same_partition ctx partition_rows (ag_partition self) row_idx;
  let acc := if (same : bool) then acc_col self else create_acc_column (agg self) in
  acc ← partial_update (agg self) acc children_cols row_idx;
  '(acc, v) ← final_merge (agg self) acc;
  Ok (mkAggProcessor cur (agg self) acc, v).

Definition agg_process {Acc} ctx (self : AggProcessor Acc) (batch : Batch)
    : Result (AggProcessor Acc * list Scalar) :=
  partition_rows ← get_partition_rows ctx batch;
  children_cols ← rmapM (λ e : Expr, e batch) (agg_exprs (agg self));
  for_rows (agg_row ctx partition_rows children_cols) (seq 0 (length batch)) self.

(** ** cume_dist *)

(** [while i < end && same(i) { i += 1 }] *)
Definition run_end (last : nat) (same : nat → Result bool) (i : nat) : Result nat :=
  rwhileM last (λ i, if decide (i < last)%nat then same i else Ok false) (λ i, Ok (S i)) i.

Definition rows_equal (rows : list bytes) (i j : nat) : Result bool :=
  x ← index rows i; y ← index rows j; Ok (bool_decide (x = y)).

(** The peers of one partition, from [peer_start] on. *)
Definition cume_dist_peers (order_rows : list bytes) (partition_start partition_end : nat)
    (st : nat * list F64) : Result (nat * list F64) :=
  let '(peer_start, out) := st in
  _ ← index order_rows peer_start;
  peer_end ← run_end partition_end (λ i, rows_equal order_rows i peer_start) (S peer_start);
  let cume_dist := f64_div (Z.of_nat (peer_end - partition_start))
                           (Z.of_nat (partition_end - partition_start)) in
  Ok (peer_end, out ++ replicate (peer_end - peer_start) cume_dist).

Definition cume_dist_partition ctx (partition_rows order_rows : list bytes) (num_rows : nat)
    (st : nat * list F64) : Result (nat * list F64) :=
  let '(partition_start, out) := st in
  _ ← index partition_rows partition_start;
  partition_end ← run_end num_rows (λ i, if negb (has_partition ctx) then Ok true
                                        else rows_equal partition_rows i partition_start) (S partition_start);
  '(_, out) ← rwhile partition_end (λ s, bool_decide (s.1 < partition_end)%nat)
                (cume_dist_peers order_rows partition_start partition_end) (partition_start, out);
  Ok (partition_end, out).

Definition cume_dist_process ctx (batch : Batch) : Result (list F64) :=
  partition_rows ← get_partition_rows ctx batch;
  order_rows ← get_order_rows ctx batch;
  '(_, out) ← rwhile (length batch) (λ s, bool_decide (s.1 < length batch)%nat)
                (cume_dist_partition ctx partition_rows order_rows (length batch)) (0%nat, []);
  Ok out.

(** ** percent_rank *)

Definition percent_rank_row (order_rows : list bytes) (partition_start partition_size : nat)
    (st : Z * Z) (current_idx : nat) : Result ((Z * Z) * F64) :=
  let '(rank, peer_group_size) := st in
  '(rank, peer_group_size) ←
    (if decide (partition_start < current_idx)%nat then
       same ← rows_equal order_rows current_idx (current_idx - 1);
       if same : bool then Ok (rank, usize (peer_group_size + 1))
       else Ok (usize (rank + peer_group_size), 1)
     else Ok (rank, peer_group_size));
  let percent_rank :=
    if decide (partition_size ≤ 1)%nat then f64_zero
    else f64_div (usize (rank - 1)) (Z.of_nat (partition_size - 1)) in
  Ok ((rank, peer_group_size), percent_rank).

Definition percent_rank_partition ctx (partition_rows order_rows : list bytes) (num_rows : nat)
    (st : nat * list F64) : Result (nat * list F64) :=
  let '(row_idx, out) := st in
  let partition_start := row_idx in
  partition_end ← run_end num_rows (λ i, if negb (has_partition ctx) then Ok true
                                        else rows_equal partition_rows i partition_start) (S row_idx);
  let partition_size := (partition_end - partition_start)%nat in
  '(_, vs) ← for_rows (percent_rank_row order_rows partition_start partition_size)
               (range partition_start partition_end) (1, 1);
  Ok (partition_end, out ++ vs).

Definition percent_rank_process ctx (batch : Batch) : Result (list F64) :=
  partition_rows ← get_partition_rows ctx batch;
  order_rows ← get_order_rows ctx batch;
  '(_, out) ← rwhile (length batch) (λ s, bool_decide (s.1 < length batch)%nat)
                (percent_rank_partition ctx partition_rows order_rows (length batch)) (0%nat, []);
  Ok out.

(** ** lead *)

Context (cast_int32 : list Scalar → Result (list (option Z))).
Context (cast_to_input : list Scalar → Result (list Scalar)).

Definition set_range {A} (v : list A) (first last : nat) (x : A) : Result (list A) :=
  rfoldM (λ v idx, set_index v idx x) v (range first last).

Definition lead_boundary (partition_rows : list bytes) (num_rows : nat)
    (st : nat * list nat * list nat) (row_idx : nat) : Result (nat * list nat * list nat) :=
  let '(partition_start, starts, ends) := st in
  is_boundary ← (if decide (row_idx = num_rows) then Ok true
                 else same ← rows_equal partition_rows row_idx partition_start; Ok (negb same));
  if is_boundary : bool then
    starts ← set_range starts partition_start row_idx partition_start;
    ends ← set_range ends partition_start row_idx row_idx;
    Ok (row_idx, starts, ends)
  else Ok st.

Definition lead_value (input_values default_values : list Scalar) (starts ends : list nat) (offset : Z)
    (row_idx : nat) : Result Scalar :=
  let target_idx := i64 (Z.of_nat row_idx + offset) in
  partition_start ← index starts row_idx;
  partition_end ← index ends row_idx;
  if decide (Z.of_nat partition_start ≤ target_idx) then
    if decide (target_idx < Z.of_nat partition_end) then index input_values (Z.to_nat target_idx)
    else index default_values row_idx
  else index default_values row_idx.

Definition lead_process (children : list Expr) ctx (batch : Batch) : Result (list Scalar) :=
  match children with
  | [input; offset_expr; default_expr] =>
      input_values ← input batch;
      offset_values ← offset_expr batch;
      offset_values ← cast_int32 offset_values;
      first ← index offset_values 0;
      match first with
      | None => Err (Execution "lead offset must be a non-null foldable integer")
      | Some offset =>
          default_values ← default_expr batch;
          default_values ← cast_to_input default_values;
          let n := length batch in
          '(starts, ends) ←
            (if has_partition ctx && bool_decide (0 < n)%nat then
               partition_rows ← get_partition_rows ctx batch;
               '(_, starts, ends) ← rfoldM (lead_boundary partition_rows n)
                   (0%nat, replicate n 0%nat, replicate n n) (range 1 (S n));
               Ok (starts, ends)
             else Ok (replicate n 0%nat, replicate n n));
          rmapM (lead_value input_values default_values starts ends offset) (seq 0 n)
      end
  | _ => Panic
  end.

End Window.

Arguments mkAgg {_ _ _}. Arguments agg_exprs {_ _ _}. Arguments create_acc_column {_ _ _}.
Arguments partial_update {_ _ _}. Arguments final_merge {_ _ _}.
Arguments mkAggProcessor {_ _ _}. Arguments ag_partition {_ _ _}. Arguments agg {_ _ _}. Arguments acc_col {_ _ _}.

(** ** What the functions mean

    [part] and [ord] are the encoded partition and order keys of a row.  A specification
    takes the rows up to and including the current one. *)

Section Spec.
Context {Row : Type} (part ord : Row → bytes).
Local Abbreviation Batch := (list Row).

(** One value per row of [l], after the rows [pre]. *)
Fixpoint running {V} (spec : list Row → Row → V) (pre l : list Row) : list V :=
  match l with
  | [] => []
  | x :: l => spec (pre ++ [x]) x :: running spec (pre ++ [x]) l
  end.

Definition partition_of (l : list Row) (x : Row) : list Row := filter (λ r, part r = part x) l.

Definition row_number_spec (l : list Row) (x : Row) : Z := Z.of_nat (length (partition_of l x)).

Definition rank_spec (l : list Row) (x : Row) : Z :=
  1 + Z.of_nat (length (filter (λ r, ord r ≠ ord x) (partition_of l x))).

Definition dense_rank_spec (l : list Row) (x : Row) : Z :=
  Z.of_nat (size (list_to_set (ord <$> partition_of l x) : gset bytes)).

(** The rows of a key are next to each other. *)
Definition grouped {K} (key : Row → K) (l : list Row) : Prop :=
  ∀ i j k x y z, (i < j < k)%nat → l !! i = Some x → l !! j = Some y → l !! k = Some z →
    key x = key z → key y = key x.

(** ** The contract of the context and of a streaming processor *)

Class ContextOk (ctx : WindowContext) := {
  partition_rows_total b : ∃ rows, get_partition_rows ctx b = Ok rows;
  partition_rows_ok b : has_partition ctx = true → get_partition_rows ctx b = Ok (part <$> b);
  no_partition_key r : has_partition ctx = false → part r = [] }.

(** A window with an ORDER BY: encoded order keys are not empty. *)
Class OrderOk (ctx : WindowContext) := {
  order_rows_ok b : get_order_rows ctx b = Ok (ord <$> b);
  order_key_nonempty r : ord r ≠ [] }.

Class Streaming {St V} (process : St → Batch → Result (St * list V)) (init : St)
    (spec : list Row → Row → V) (input_ok : list Row → Prop) := {
  stream_inv : list Row → St → Prop;
  stream_init : stream_inv [] init;
  stream_prefix l1 l2 : input_ok (l1 ++ l2) → input_ok l1;
  stream_step pre batch st : input_ok (pre ++ batch) → stream_inv pre st →
    ∃ st', process st batch = Ok (st', running spec pre batch) ∧ stream_inv (pre ++ batch) st' }.

(** ** Lemmas *)

Lemma running_app {V} (spec : list Row → Row → V) pre l1 l2 :
  running spec pre (l1 ++ l2) = running spec pre l1 ++ running spec (pre ++ l1) l2.
Proof.
  revert pre; induction l1 as [|x l1 IH]; intros pre; simpl; [by rewrite app_nil_r|].
  by rewrite IH, <-app_assoc.
Qed.

Lemma length_running {V} (spec : list Row → Row → V) pre l : length (running spec pre l) = length l.
Proof. revert pre; induction l; intros; simpl; auto. Qed.

(** The rule for the row loop of a streaming processor. *)
Lemma for_rows_ok {St V} (body : St → nat → Result (St * V)) (Inv : list Row → St → Prop)
    (spec : list Row → Row → V) (base : nat) pre batch st :
  (∀ st l x, (∃ rest, batch = l ++ x :: rest) → Inv (pre ++ l) st →
    ∃ st', body st (base + length l)%nat = Ok (st', spec ((pre ++ l) ++ [x]) x) ∧ Inv ((pre ++ l) ++ [x]) st') →
  Inv pre st →
  ∃ st', for_rows body (seq base (length batch)) st = Ok (st', running spec pre batch) ∧ Inv (pre ++ batch) st'.
Proof.
  intros Hbody HI.
  assert (∀ todo done st, batch = done ++ todo → Inv (pre ++ done) st →
    ∃ st', for_rows body (seq (base + length done) (length todo)) st = Ok (st', running spec (pre ++ done) todo) ∧
      Inv (pre ++ batch) st') as H.
  { induction todo as [|x todo IH]; intros d st0 Hb HI0; simpl.
    { rewrite app_nil_r in Hb. subst. eauto. }
    destruct (Hbody st0 d x) as (st1 & -> & HI1); [eauto|done|]. cbn.
    destruct (IH (d ++ [x]) st1) as (st2 & He & HI2).
    { by rewrite <-app_assoc. }
    { by rewrite app_assoc. }
    rewrite length_app, Nat.add_1_r, Nat.add_succ_r, app_assoc in He. rewrite He. cbn. eauto. }
  destruct (H batch [] st) as (st' & He & HI'); [done|by rewrite app_nil_r|].
  rewrite Nat.add_0_r, app_nil_r in He. eauto.
Qed.

Lemma grouped_prefix {K} (key : Row → K) l1 l2 : grouped key (l1 ++ l2) → grouped key l1.
Proof.
  intros H i j k x y z Hijk Hi Hj Hk. apply (H i j k x y z Hijk);
    rewrite lookup_app_l by (eapply lookup_lt_Some; eassumption); done.
Qed.

(** A key that differs from the last one has not occurred before. *)
Lemma grouped_fresh {K} (key : Row → K) pre y x r :
  grouped key ((pre ++ [y]) ++ [x]) → key x ≠ key y → r ∈ pre ++ [y] → key r ≠ key x.
Proof.
  intros Hg Hne Hr Heq. apply elem_of_app in Hr as [Hr|Hr]; [|set_solver].
  apply list_elem_of_lookup in Hr as (i & Hi).
  assert (i < length pre)%nat by by eapply lookup_lt_Some.
  apply Hne. rewrite <-Heq. symmetry. apply (Hg i (length pre) (S (length pre)) r y x); [lia| | | |done].
  - rewrite <-app_assoc, lookup_app_l; done.
  - rewrite <-app_assoc, lookup_app_r, Nat.sub_diag; done.
  - rewrite lookup_app_r; rewrite length_app; simpl; [|lia].
    by replace (S (length pre) - (length pre + 1))%nat with O by lia.
Qed.

(** [cur] is the partition the processor remembers after the rows [pre]. *)
Definition cur_is (pre : list Row) (cur : bytes) : Prop :=
  match last pre with Some y => cur = part y | None => cur = [] end.

Lemma cur_is_snoc pre x : cur_is (pre ++ [x]) (part x).
Proof. unfold cur_is. by rewrite last_snoc. Qed.

Lemma partition_of_fresh pre cur x :
  grouped part (pre ++ [x]) → cur_is pre cur → part x ≠ cur → partition_of (pre ++ [x]) x = [x].
Proof.
  intros Hg Hc Hne. unfold partition_of. rewrite filter_app, filter_cons_True, filter_nil by done.
  rewrite filter_none; [done|]. intros r Hr.
  destruct pre as [|y pre _] using rev_ind; [set_solver|].
  unfold cur_is in Hc. rewrite last_snoc in Hc. subst cur. by eapply grouped_fresh.
Qed.

Lemma partition_of_same pre cur x :
  cur_is pre cur → part x = cur → ∀ y, last pre = Some y →
  partition_of (pre ++ [x]) x = partition_of pre y ++ [x].
Proof.
  intros Hc Hx y Hy. unfold cur_is in Hc. rewrite Hy in Hc. unfold partition_of.
  rewrite filter_app, filter_cons_True, filter_nil by done. f_equal.
  apply list_filter_iff. intros r. by rewrite Hx, Hc.
Qed.

(** A new partition starts with the current row alone; otherwise the row extends the
    partition of the row before. *)
Lemma partition_cases pre cur x :
  grouped part (pre ++ [x]) → cur_is pre cur →
  (part x ≠ cur ∧ partition_of (pre ++ [x]) x = [x]) ∨
  (part x = cur ∧ pre = [] ∧ partition_of (pre ++ [x]) x = [x]) ∨
  (part x = cur ∧ ∃ y, last pre = Some y ∧ part x = part y ∧
    partition_of (pre ++ [x]) x = partition_of pre y ++ [x]).
Proof.
  intros Hg Hc. destruct (decide (part x = cur)) as [He|Hne].
  - right. destruct (last pre) as [y|] eqn:Hy.
    + right. split; [done|]. exists y. pose proof Hc as Hc'. unfold cur_is in Hc'. rewrite Hy in Hc'.
      split_and!; [done|congruence|by eapply partition_of_same].
    + left. apply last_None in Hy. subst. split_and!; [done..|].
      unfold partition_of. simpl. by rewrite filter_cons_True.
  - left. split; [done|by eapply partition_of_fresh].
Qed.

Definition small_grouped (l : list Row) : Prop := grouped part l ∧ Z.of_nat (length l) < 2 ^ 31.

Lemma small_grouped_prefix l1 l2 : small_grouped (l1 ++ l2) → small_grouped l1.
Proof. intros [Hg Hl]. rewrite length_app in Hl. split; [by eapply grouped_prefix|lia]. Qed.

Lemma partition_of_length l x : (length (partition_of l x) ≤ length l)%nat.
Proof. apply length_filter. Qed.

Definition rank_ok (l : list Row) : Prop :=
  small_grouped l ∧ grouped (λ r, (part r, ord r)) l ∧ ∀ r, r ∈ l → ord r ≠ [].

Lemma rank_ok_prefix l1 l2 : rank_ok (l1 ++ l2) → rank_ok l1.
Proof.
  intros (Hs & Hg & Ho). split_and!; [by eapply small_grouped_prefix|by eapply grouped_prefix|set_solver].
Qed.

Definition rank_of (dense : bool) : list Row → Row → Z := if dense then dense_rank_spec else rank_spec.

(** The number of rows of the partition with the order key of the current row. *)
Definition equals_of (l : list Row) (x : Row) : Z :=
  Z.of_nat (length (filter (λ r, ord r = ord x) (partition_of l x))).

Definition rank_inv (dense : bool) (pre : list Row) (st : RankProcessor) : Prop :=
  match last pre with
  | None => st = rank_new dense
  | Some y => st = mkRank (part y) (ord y) (rank_of dense pre y) (equals_of pre y) dense
  end.

Lemma filter_split_length {A} (P : A → Prop) `{∀ x, Decision (P x)} (l : list A) :
  (length (filter (λ x, ¬ P x) l) + length (filter P l) = length l)%nat.
Proof. induction l as [|x l IH]; [done|]. rewrite !filter_cons. repeat case_decide; simpl; try done; lia. Qed.

Lemma rank_of_single dense l x : partition_of l x = [x] → rank_of dense l x = 1 ∧ equals_of l x = 1.
Proof.
  intros Hp. split.
  - destruct dense; unfold rank_of, dense_rank_spec, rank_spec; rewrite Hp.
    + change (ord <$> [x]) with [ord x]. by rewrite list_to_set_singleton_L, size_singleton.
    + by rewrite filter_cons_False by naive_solver.
  - unfold equals_of. by rewrite Hp, filter_cons_True.
Qed.

(** The next row of a partition has the order key of the row before, or a new one. *)
Lemma rank_of_peer dense pre x y :
  partition_of (pre ++ [x]) x = partition_of pre y ++ [x] → y ∈ pre → part x = part y → ord x = ord y →
  rank_of dense (pre ++ [x]) x = rank_of dense pre y ∧ equals_of (pre ++ [x]) x = equals_of pre y + 1.
Proof.
  intros Hp Hy Hpart Ho.
  assert (y ∈ partition_of pre y) by (apply list_elem_of_filter; done). split.
  - destruct dense; unfold rank_of, dense_rank_spec, rank_spec; rewrite Hp.
    + do 2 f_equal. rewrite fmap_app, list_to_set_app_L. change (ord <$> [x]) with [ord x].
      rewrite list_to_set_singleton_L, Ho. set_solver.
    + rewrite filter_app, (filter_cons_False _ x []) by naive_solver.
      by rewrite filter_nil, app_nil_r, Ho.
  - unfold equals_of. rewrite Hp, filter_app, (filter_cons_True _ x []), length_app, Ho by done.
    simpl. lia.
Qed.

Lemma rank_of_next dense pre x y :
  partition_of (pre ++ [x]) x = partition_of pre y ++ [x] →
  (∀ r, r ∈ partition_of pre y → ord r ≠ ord x) →
  rank_of dense (pre ++ [x]) x =
    rank_of dense pre y + (if dense then 1 else equals_of pre y) ∧
  equals_of (pre ++ [x]) x = 1.
Proof.
  intros Hp Hfresh. split.
  - destruct dense; unfold rank_of, dense_rank_spec, rank_spec, equals_of; rewrite Hp.
    + rewrite fmap_app, list_to_set_app_L. change (ord <$> [x]) with [ord x].
      rewrite list_to_set_singleton_L. rewrite size_union by set_solver. rewrite size_singleton. lia.
    + rewrite filter_app, (filter_cons_False _ x []) by naive_solver.
      rewrite filter_nil, app_nil_r, (filter_all (λ r, ord r ≠ ord x)) by done.
      pose proof (filter_split_length (λ r, ord r = ord y) (partition_of pre y)). lia.
  - unfold equals_of. rewrite Hp, filter_app, filter_none by done. by rewrite filter_cons_True.
Qed.

Lemma size_keys_le (l : list bytes) : (size (list_to_set l : gset bytes) ≤ length l)%nat.
Proof.
  induction l as [|x l IH]; [done|]. rewrite list_to_set_cons, size_union_alt, size_singleton.
  pose proof (subseteq_size (list_to_set l ∖ {[x]} : gset bytes) (list_to_set l) ltac:(set_solver)).
  simpl. lia.
Qed.

Lemma rank_of_bound dense l x : x ∈ l → 0 ≤ rank_of dense l x ≤ Z.of_nat (length l).
Proof.
  intros Hx. pose proof (partition_of_length l x).
  unfold rank_of, dense_rank_spec, rank_spec. destruct dense.
  - pose proof (size_keys_le (ord <$> partition_of l x)) as Hs.
    rewrite length_fmap in Hs. lia.
  - pose proof (filter_split_length (λ r, ord r = ord x) (partition_of l x)).
    assert (x ∈ filter (λ r, ord r = ord x) (partition_of l x)) as Hin
      by (repeat (apply list_elem_of_filter; split; [done|]); done).
    destruct (filter (λ r, ord r = ord x) (partition_of l x)); [set_solver|]. simpl in *. lia.
Qed.

Lemma rank_inv_cur dense pre st : rank_inv dense pre st → cur_is pre (rk_partition st).
Proof. unfold rank_inv, cur_is. destruct (last pre); by intros ->. Qed.

Section Context.
Context (ctx : WindowContext) `{!ContextOk ctx}.

Lemma same_partition_ok pre batch l x rest cur rows :
  batch = l ++ x :: rest → get_partition_rows ctx batch = Ok rows → cur_is pre cur →
  same_partition ctx rows cur (length l) = Ok (bool_decide (part x = cur), part x).
Proof.
  intros -> Hrows Hcur. unfold same_partition. destruct (has_partition ctx) eqn:Hp; cbn [negb].
  - rewrite partition_rows_ok in Hrows by done. injection Hrows as <-.
    assert (index (part <$> l ++ x :: rest) (length l) = Ok (part x)) as ->.
    { apply index_Ok. rewrite list_lookup_fmap, lookup_app_r, Nat.sub_diag; done. }
    cbn. case_decide; case_bool_decide; naive_solver.
  - rewrite !no_partition_key by done. unfold cur_is in Hcur.
    assert (cur = []) as -> by (destruct (last pre); rewrite ?no_partition_key in Hcur by done; done).
    by rewrite bool_decide_true.
Qed.

Definition row_number_inv (pre : list Row) (st : RowNumberProcessor) : Prop :=
  cur_is pre (rn_partition st) ∧
  cur_row_number st = from_option (row_number_spec pre) 0 (last pre).

Lemma row_number_row_ok pre batch l x rest rows st :
  batch = l ++ x :: rest → get_partition_rows ctx batch = Ok rows →
  small_grouped (pre ++ [x]) → row_number_inv pre st →
  ∃ st', row_number_row ctx rows st (length l) = Ok (st', row_number_spec (pre ++ [x]) x) ∧
    row_number_inv (pre ++ [x]) st'.
Proof.
  intros Hb Hr [Hg Hl] [Hc Hn]. unfold row_number_row.
  erewrite same_partition_ok by eassumption. cbn [mbind Result_bind].
  assert (i32 ((if bool_decide (part x = rn_partition st) then cur_row_number st else 0) + 1)
    = row_number_spec (pre ++ [x]) x) as ->.
  { rewrite length_app in Hl. simpl in Hl. unfold i32. unfold row_number_spec in *.
    pose proof (partition_of_length pre) as Hpl.
    destruct (partition_cases pre _ x Hg Hc) as [[Hp ->]|[(Hp & -> & ->)|(Hp & y & Hy & Hxy & ->)]].
    - by rewrite bool_decide_false.
    - rewrite bool_decide_true, Hn by done. done.
    - rewrite bool_decide_true, Hn, Hy, length_app by done. simpl. specialize (Hpl y).
      rewrite wraps_id; [lia|lia|]. unfold in_s. lia. }
  eexists. split; [done|]. split; [apply cur_is_snoc|]. cbn. by rewrite last_snoc.
Qed.

#[export] Instance row_number_streaming :
  Streaming (row_number_process ctx) row_number_new row_number_spec small_grouped.
Proof.
  refine (Build_Streaming _ _ _ _ _ _ row_number_inv _ small_grouped_prefix _); [done|].
  intros pre batch st Hok HI. unfold row_number_process.
  destruct (partition_rows_total batch) as [rows Hr]. rewrite Hr. cbn [mbind Result_bind].
  apply (for_rows_ok _ row_number_inv _ 0); [|done]. intros st' l x [rest Hb] HI'.
  eapply row_number_row_ok; [done|done| |done].
  apply (small_grouped_prefix _ rest). subst. rewrite <-!app_assoc. by simpl.
Qed.

Lemma rank_row_ok dense pre batch l x rest rows st :
  batch = l ++ x :: rest → get_partition_rows ctx batch = Ok rows →
  rank_ok (pre ++ [x]) → rank_inv dense pre st →
  ∃ st', rank_row ctx rows (ord <$> batch) st (length l) = Ok (st', rank_of dense (pre ++ [x]) x) ∧
    rank_inv dense (pre ++ [x]) st'.
Proof.
  intros Hb Hr ([Hg Hl] & Hgo & Hne) HI. unfold rank_row.
  pose proof (rank_inv_cur _ _ _ HI) as Hc. erewrite same_partition_ok by eassumption.
  assert (index (ord <$> batch) (length l) = Ok (ord x)) as ->.
  { apply index_Ok. subst batch. rewrite list_lookup_fmap, lookup_app_r, Nat.sub_diag; done. }
  cbn [mbind Result_bind]. unfold rank_inv. rewrite last_snoc.
  enough (∀ st0, st0 = mkRank (part x) (ord x) (rank_of dense (pre ++ [x]) x) (equals_of (pre ++ [x]) x) dense →
    ∃ st', Ok (st0, cur_rank st0) = Ok (st', rank_of dense (pre ++ [x]) x) ∧
      st' = mkRank (part x) (ord x) (rank_of dense (pre ++ [x]) x) (equals_of (pre ++ [x]) x) dense) as Hen.
  { apply Hen. rewrite length_app in Hl. simpl in Hl. unfold i32.
    destruct (partition_cases pre _ x Hg Hc) as [[Hp Hpx]|[(Hp & -> & Hpx)|(Hp & y & Hy & Hxy & Hpx)]].
    - destruct (rank_of_single dense _ _ Hpx) as [-> ->]. rewrite bool_decide_false by done.
      unfold rank_inv in HI. destruct (last pre); by subst st.
    - destruct (rank_of_single dense _ _ Hpx) as [-> ->]. rewrite bool_decide_true by done.
      cbn in HI. subst st. cbn. rewrite decide_False by (apply Hne; set_solver). by destruct dense.
    - rewrite bool_decide_true by done. unfold rank_inv in HI. rewrite Hy in HI. subst st. cbn.
      pose proof (last_Some_elem_of _ _ Hy) as Hyp. apply last_Some in Hy as [pre' ->].
      pose proof (rank_of_bound dense ((pre' ++ [y]) ++ [x]) x ltac:(set_solver)) as Hb1. rewrite length_app in Hb1.
      case_decide as Ho.
      + destruct (rank_of_peer dense _ _ _ Hpx Hyp Hxy Ho) as [-> ->]. rewrite Ho.
        f_equal. apply wraps_id; [lia|]. pose proof (partition_of_length (pre' ++ [y]) y).
        pose proof (length_filter (λ r, ord r = ord y) (partition_of (pre' ++ [y]) y)).
        unfold in_s, equals_of. simpl in *. lia.
      + destruct (rank_of_next dense _ _ _ Hpx) as [Hrk ->].
        { intros r Hrp Hro. apply list_elem_of_filter in Hrp as [Hrp Hrin].
          refine (grouped_fresh _ _ _ _ r Hgo _ Hrin _); simpl; congruence. }
        rewrite Hrk in Hb1 |- *. f_equal. simpl in *.
        rewrite wraps_id; [by destruct dense|lia|]. unfold in_s. destruct dense; simpl in *; lia. }
  intros st0 ->. eexists. split; [done|done].
Qed.

#[export] Instance rank_streaming `{!OrderOk ctx} dense :
  Streaming (rank_process ctx) (rank_new dense) (rank_of dense) rank_ok.
Proof.
  refine (Build_Streaming _ _ _ _ _ _ (rank_inv dense) _ rank_ok_prefix _); [done|].
  intros pre batch st Hok HI. unfold rank_process.
  destruct (partition_rows_total batch) as [rows Hr]. rewrite Hr, order_rows_ok. cbn [mbind Result_bind].
  apply (for_rows_ok _ (rank_inv dense) _ 0); [|done]. intros st' l x [rest Hb] HI'.
  eapply rank_row_ok; [done|done| |done].
  apply (rank_ok_prefix _ rest). subst. rewrite <-!app_assoc. by simpl.
Qed.

(** ** nth_value *)

Section NthValue.
Context {Scalar : Type} (is_null : Scalar → bool) (null_value : Scalar).
Context (input : Batch → Result (list Scalar)) (value : Row → Scalar) (offset : Z) (ignore : bool).
Hypothesis input_ok : ∀ b, input b = Ok (value <$> b).
Hypothesis offset_ok : 0 < offset < 2 ^ 64.

Definition nth_value_spec (l : list Row) (x : Row) : Scalar :=
  default null_value
    (filter (λ v, negb ignore || negb (is_null v)) (value <$> partition_of l x) !! (Z.to_nat offset - 1)%nat).

Definition counts (v : Scalar) : bool := negb ignore || negb (is_null v).

(** The values that count for the offset, in the partition of the last row. *)
Definition counted (pre : list Row) : list Scalar :=
  from_option (λ y, filter counts (value <$> partition_of pre y)) [] (last pre).

Definition nth_of (vs : list Scalar) : option Scalar := vs !! (Z.to_nat offset - 1)%nat.

Definition nth_value_inv (pre : list Row) (st : NthValueProcessor) : Prop :=
  cur_is pre (nv_partition st) ∧
  st = mkNthValue input offset ignore (nv_partition st)
    (Z.min (Z.of_nat (length (counted pre))) offset) (nth_of (counted pre)).

Lemma nth_of_snoc vs v :
  nth_of (vs ++ [v]) =
    match nth_of vs with
    | Some w => Some w
    | None => if decide (Z.of_nat (length vs) + 1 = offset) then Some v else None
    end.
Proof.
  unfold nth_of. destruct (vs !! _) as [w|] eqn:Hw.
  - by apply lookup_app_l_Some.
  - apply lookup_ge_None in Hw. rewrite lookup_app_r by lia. case_decide.
    + by replace (Z.to_nat offset - 1 - length vs)%nat with O by lia.
    + apply lookup_ge_None. simpl. lia.
Qed.

Lemma nth_of_None vs : nth_of vs = None ↔ Z.of_nat (length vs) < offset.
Proof. unfold nth_of. rewrite lookup_ge_None. lia. Qed.

(** What the body does to the counter and the value, from the values counted so far. *)
Lemma nth_value_count (vs : list Scalar) v :
  Z.of_nat (length vs) + 1 < 2 ^ 64 →
  let vs' := vs ++ filter counts [v] in
  match nth_of vs with
  | Some w => Ok (Z.min (Z.of_nat (length vs)) offset, Some w)
  | None =>
      if counts v then
        Ok (usize (Z.min (Z.of_nat (length vs)) offset + 1),
            if decide (usize (Z.min (Z.of_nat (length vs)) offset + 1) = offset) then Some v else None)
      else Ok (Z.min (Z.of_nat (length vs)) offset, None)
  end = Ok (Z.min (Z.of_nat (length vs')) offset, nth_of vs').
Proof.
  intros Hb vs'. unfold vs'. rewrite filter_cons, filter_nil, length_app.
  destruct (nth_of vs) as [w|] eqn:Hn.
  - assert (offset ≤ Z.of_nat (length vs)).
    { destruct (decide (Z.of_nat (length vs) < offset)) as [Hlt|]; [|lia].
      apply nth_of_None in Hlt. congruence. }
    case_decide.
    + rewrite nth_of_snoc, Hn. do 2 f_equal. simpl. lia.
    + rewrite app_nil_r, Hn. do 2 f_equal. simpl. lia.
  - pose proof (proj1 (nth_of_None vs) Hn). destruct (counts v) eqn:Hcv.
    + destruct (decide (Is_true true)) as [_|Hf]; [|by destruct Hf]. rewrite nth_of_snoc, Hn. simpl length. cbv zeta.
      replace (usize (Z.min (Z.of_nat (length vs)) offset + 1)) with (Z.of_nat (length vs) + 1).
      2: { symmetry. rewrite Z.min_l by lia. apply wrapu_id. unfold in_u. lia. }
      do 2 f_equal. lia.
    + destruct (decide (Is_true false)) as [[]|_]. rewrite app_nil_r, Hn. simpl length. by rewrite Nat.add_0_r.
Qed.

Lemma counted_snoc pre cur x :
  grouped part (pre ++ [x]) → cur_is pre cur →
  counted (pre ++ [x]) =
    (if bool_decide (part x = cur) then counted pre else []) ++ filter counts [value x].
Proof.
  intros Hg Hc. unfold counted at 1. rewrite last_snoc. simpl.
  destruct (partition_cases pre _ x Hg Hc) as [[Hp ->]|[(Hp & -> & ->)|(Hp & y & Hy & Hxy & ->)]].
  - by rewrite bool_decide_false.
  - by destruct (bool_decide _).
  - rewrite bool_decide_true by done. unfold counted. rewrite Hy. simpl.
    by rewrite fmap_app, filter_app.
Qed.

Lemma counted_length pre : (length (counted pre) ≤ length pre)%nat.
Proof.
  unfold counted. destruct (last pre) as [y|]; simpl; [|lia].
  etrans; [apply length_filter|]. rewrite length_fmap. apply partition_of_length.
Qed.

Lemma nth_value_row_ok pre batch l x rest rows st :
  batch = l ++ x :: rest → get_partition_rows ctx batch = Ok rows →
  small_grouped (pre ++ [x]) → nth_value_inv pre st →
  ∃ st', nth_value_row is_null null_value ctx rows (value <$> batch) st (length l)
      = Ok (st', nth_value_spec (pre ++ [x]) x) ∧
    nth_value_inv (pre ++ [x]) st'.
Proof.
  intros Hb Hr [Hg Hl] [Hc Hst]. unfold nth_value_row.
  erewrite same_partition_ok by eassumption. cbn [mbind Result_bind].
  rewrite Hst. cbn [observed_rows nth_value nv_offset ignore_nulls nv_input].
  set (vs := if bool_decide (part x = nv_partition st) then counted pre else []).
  replace (if bool_decide (part x = nv_partition st) then Z.min (Z.of_nat (length (counted pre))) offset else 0)
    with (Z.min (Z.of_nat (length vs)) offset) by (unfold vs; destruct (bool_decide _); simpl; lia).
  replace (if bool_decide (part x = nv_partition st) then nth_of (counted pre) else None)
    with (nth_of vs) by (unfold vs; by destruct (bool_decide _)).
  assert (index (value <$> batch) (length l) = Ok (value x)) as ->.
  { apply index_Ok. subst batch. rewrite list_lookup_fmap, lookup_app_r, Nat.sub_diag; done. }
  cbn [mbind Result_bind]. fold (counts (value x)).
  pose proof (counted_snoc pre _ x Hg Hc) as Hs. fold vs in Hs.
  rewrite (nth_value_count vs (value x)).
  2: { pose proof (counted_length pre). rewrite length_app in Hl. simpl in Hl.
       unfold vs; destruct (bool_decide _); simpl; lia. }
  cbn [mbind Result_bind]. rewrite <-Hs. eexists. split.
  - do 2 f_equal. unfold nth_of, counted. by rewrite last_snoc.
  - split; [apply cur_is_snoc|done].
Qed.

#[export] Instance nth_value_streaming :
  Streaming (nth_value_process is_null null_value ctx) (mkNthValue input offset ignore [] 0 None)
    nth_value_spec small_grouped.
Proof.
  refine (Build_Streaming _ _ _ _ _ _ nth_value_inv _ small_grouped_prefix _).
  { split; [done|]. cbn. f_equal. lia. }
  intros pre batch st Hok HI. unfold nth_value_process.
  destruct (partition_rows_total batch) as [rows Hr]. rewrite Hr.
  assert (nv_input st = input) as -> by (destruct HI as [_ ->]; done).
  rewrite input_ok. cbn [mbind Result_bind].
  apply (for_rows_ok _ nth_value_inv _ 0); [|done]. intros st' l x [rest Hb] HI'.
  eapply nth_value_row_ok; [done|done| |done].
  apply (small_grouped_prefix _ rest). subst. rewrite <-!app_assoc. by simpl.
Qed.

End NthValue.

(** ** Aggregates *)

(** What the window processor needs of an aggregate: an update by one row, and a final
    value that leaves the accumulator as it is. *)
Class AggOk {Scalar Acc} (a : @Agg Row Scalar Acc) (update : Acc → Row → Acc) (final : Acc → Scalar) := {
  agg_exprs_ok b : ∃ cols, rmapM (λ e, e b) (agg_exprs a) = Ok cols;
  partial_update_ok acc l x rest cols :
    rmapM (λ e, e (l ++ x :: rest)) (agg_exprs a) = Ok cols →
    partial_update a acc cols (length l) = Ok (update acc x);
  final_merge_ok acc : final_merge a acc = Ok (acc, final acc) }.

Section Aggregate.
Context {Scalar Acc : Type} (a : @Agg Row Scalar Acc) (update : Acc → Row → Acc) (final : Acc → Scalar) `{!AggOk a update final}.

Definition agg_spec (l : list Row) (x : Row) : Scalar :=
  final (foldl update (create_acc_column a) (partition_of l x)).

Definition acc_of (pre : list Row) : Acc :=
  from_option (λ y, foldl update (create_acc_column a) (partition_of pre y)) (create_acc_column a) (last pre).

Definition agg_inv (pre : list Row) (st : @AggProcessor Row Scalar Acc) : Prop :=
  cur_is pre (ag_partition st) ∧ agg st = a ∧ acc_col st = acc_of pre.

Lemma acc_of_snoc pre cur x :
  grouped part (pre ++ [x]) → cur_is pre cur →
  acc_of (pre ++ [x]) = update (if bool_decide (part x = cur) then acc_of pre else create_acc_column a) x.
Proof.
  intros Hg Hc. unfold acc_of at 1. rewrite last_snoc. simpl.
  destruct (partition_cases pre _ x Hg Hc) as [[Hp ->]|[(Hp & -> & ->)|(Hp & y & Hy & Hxy & ->)]].
  - by rewrite bool_decide_false.
  - by destruct (bool_decide _).
  - rewrite bool_decide_true by done. unfold acc_of. rewrite Hy. simpl. by rewrite foldl_app.
Qed.

#[export] Instance agg_streaming :
  Streaming (agg_process ctx) (agg_try_new a) agg_spec small_grouped.
Proof.
  refine (Build_Streaming _ _ _ _ _ _ agg_inv _ small_grouped_prefix _); [done|].
  intros pre batch st Hok HI. unfold agg_process.
  destruct (partition_rows_total batch) as [rows Hr]. rewrite Hr.
  assert (agg st = a) as -> by apply HI. destruct (agg_exprs_ok batch) as [cols Hcols].
  rewrite Hcols. cbn [mbind Result_bind].
  apply (for_rows_ok _ agg_inv _ 0); [|done]. intros st' l x [rest Hb] (Hc & Ha & Hacc). rewrite Nat.add_0_l.
  assert (small_grouped ((pre ++ l) ++ [x])) as [Hg _].
  { apply (small_grouped_prefix _ rest). subst. rewrite <-!app_assoc. by simpl. }
  unfold agg_row. erewrite same_partition_ok by eassumption. cbn [mbind Result_bind].
  rewrite Ha, Hacc. subst batch. erewrite partial_update_ok by eassumption. cbn [mbind Result_bind].
  rewrite final_merge_ok. cbn [mbind Result_bind]. rewrite <-acc_of_snoc by done.
  eexists. split.
  - do 2 f_equal. unfold acc_of. by rewrite last_snoc.
  - split_and!; [apply cur_is_snoc|done|done].
Qed.

End Aggregate.

End Context.

End Spec.
