(* ===== verification/WindowFull.v ===== *)
(** * Window functions that need a whole partition

    [percent_rank], [cume_dist] and [lead] of window/processors/ look at all rows of a
    partition.  Their loops walk over the maximal runs of rows with equal partition keys,
    and those of cume_dist over the runs of equal order keys inside a partition.

    [runs] is the list of these runs.  The lemmas show that each processor terminates
    and returns, run by run, the values of [percent_rank_values], [cume_dist_values] and
    [lead_values]. *)

From S2P Require Import Prelude MachineInt Window.
Local Open Scope Z_scope.

Local Abbreviation bytes := (list Z).

(** ** Runs *)

Section Runs.
Context {Row K : Type} `{EqDecision K} (key : Row → K).

Fixpoint runs (l : list Row) : list (list Row) :=
  match l with
  | [] => []
  | x :: l =>
      match runs l with
      | (y :: r) :: rs => if decide (key x = key y) then (x :: y :: r) :: rs else [x] :: (y :: r) :: rs
      | rs => [x] :: rs
      end
  end.

(** [run] is a maximal run at the front of [run ++ rest]. *)
Definition is_run (run rest : list Row) : Prop :=
  match run with
  | [] => False
  | x :: _ => Forall (λ r, key r = key x) run ∧
      match rest with [] => True | y :: _ => key y ≠ key x end
  end.

(** The values of all runs, where those of a run depend on the rows before it. *)
Fixpoint runs_from {V} (f : list Row → list Row → list V) (done : list Row) (rs : list (list Row)) : list V :=
  match rs with
  | [] => []
  | r :: rs => f done r ++ runs_from f (done ++ r) rs
  end.

Lemma runs_nonempty l : Forall (λ r, r ≠ []) (runs l).
Proof.
  induction l as [|x l IH]; simpl; [constructor|].
  destruct (runs l) as [|[|y r] rs]; [by repeat constructor|by inversion IH|].
  case_decide; inversion IH; by repeat constructor.
Qed.

Lemma concat_runs l : concat (runs l) = l.
Proof.
  induction l as [|x l IH]; [done|]. simpl.
  destruct (runs l) as [|[|y r] rs]; simpl in *; [by rewrite <-IH|by rewrite <-IH|].
  case_decide; simpl; by rewrite <-IH.
Qed.

(** The first run of a list that is not empty. *)
Lemma runs_split l : l ≠ [] → ∃ run rest, l = run ++ rest ∧ is_run run rest ∧ runs l = run :: runs rest.
Proof.
  induction l as [|x l IH]; intros Hl; [done|].
  destruct (decide (l = [])) as [->|Hne].
  { exists [x], []. split_and!; [done| |done]. split; [by constructor|done]. }
  destruct (IH Hne) as (run & rest & -> & Hrun & Hr). simpl. rewrite Hr.
  destruct run as [|y run]; [done|]. destruct Hrun as [Hall Hrest]. case_decide as Hxy.
  - exists (x :: y :: run), rest. split_and!; [done| |done]. split.
    + constructor; [done|]. eapply Forall_impl; [exact Hall|]. simpl; congruence.
    + destruct rest; [done|]. congruence.
  - exists [x], (y :: run ++ rest). split_and!; [done| |].
    + split; [by constructor|]. congruence.
    + by rewrite <-Hr.
Qed.

Lemma runs_cons run rest : is_run run rest → runs (run ++ rest) = run :: runs rest.
Proof.
  induction run as [|x run IH]; [done|]. intros [Hall Hrest]. apply Forall_cons in Hall as [_ Hall].
  destruct run as [|x' run].
  - simpl. destruct rest as [|y rest]; [done|].
    destruct (runs_split (y :: rest)) as (run' & rest' & Heq & Hrun & ->); [done|].
    destruct run' as [|y' run']; [done|]. injection Heq as <- _.
    by rewrite decide_False by congruence.
  - pose proof Hall as Hall'. apply Forall_cons in Hall' as [Hx' _].
    change ((x :: x' :: run) ++ rest) with (x :: ((x' :: run) ++ rest)). cbn [runs]. rewrite IH.
    + by rewrite decide_True by done.
    + split; [eapply Forall_impl; [exact Hall|]; simpl; congruence|]. destruct rest; [done|congruence].
Qed.

Lemma is_run_nonempty run rest : is_run run rest → (0 < length run)%nat.
Proof. destruct run; simpl; [done|lia]. Qed.

(** A [while] loop whose body treats one run, from the position [base] on. *)
Lemma run_loop {V} (body : nat * list V → Result (nat * list V)) (f : list Row → list Row → list V)
    (base fuel : nat) (l : list Row) (out : list V) :
  (∀ done run rest out, l = done ++ run ++ rest → is_run run rest → run ∈ runs l →
    body ((base + length done)%nat, out) = Ok ((base + length done + length run)%nat, out ++ f done run)) →
  (length l ≤ fuel)%nat →
  rwhile fuel (λ s, bool_decide (s.1 < base + length l)%nat) body (base, out)
    = Ok ((base + length l)%nat, out ++ runs_from f [] (runs l)).
Proof.
  intros Hbody Hf.
  assert (∀ todo done fuel out, l = done ++ todo → (∃ rs, runs l = rs ++ runs todo) → (length todo ≤ fuel)%nat →
    rwhile fuel (λ s, bool_decide (s.1 < base + length l)%nat) body ((base + length done)%nat, out)
      = Ok ((base + length l)%nat, out ++ runs_from f done (runs todo))) as H.
  { intros todo. induction todo as [todo IH] using (induction_ltof1 _ (@length Row)).
    intros d fuel' out' Hl [rs Hrs] Hfuel. destruct (decide (todo = [])) as [->|Hne].
    { rewrite app_nil_r in Hl. subst d. cbn [runs runs_from]. rewrite app_nil_r.
      destruct fuel'; simpl; by rewrite bool_decide_false by lia. }
    destruct (runs_split todo Hne) as (run & rest & -> & Hrun & Hruns). rewrite Hruns in Hrs |- *.
    pose proof (is_run_nonempty _ _ Hrun). rewrite length_app in Hfuel.
    assert (length l = length d + length run + length rest)%nat by (subst l; rewrite !length_app; lia).
    destruct fuel' as [|fuel']; [lia|]. simpl rwhile. rewrite bool_decide_true by (simpl; lia).
    rewrite (Hbody d run rest) by (try done; rewrite Hrs; set_solver). cbn [mbind Result_bind].
    replace (base + length d + length run)%nat with (base + length (d ++ run))%nat
      by (rewrite length_app; lia).
    rewrite (IH rest); [|unfold ltof; rewrite length_app; lia|by rewrite <-app_assoc| |lia].
    { simpl. by rewrite <-app_assoc. }
    exists (rs ++ [run]). by rewrite Hrs, <-app_assoc. }
  specialize (H l [] fuel out eq_refl (ex_intro _ [] eq_refl) Hf). by rewrite Nat.add_0_r in H.
Qed.

Lemma runs_from_concat {V} (g : list Row → list V) done rs :
  runs_from (λ _, g) done rs = concat (g <$> rs).
Proof. revert done; induction rs as [|r rs IH]; intros done; simpl; [done|]. by rewrite IH. Qed.

(** The end of a run is found by the [while] loop of the source. *)
Lemma run_end_ok last same i e :
  (i ≤ e ≤ last)%nat → (∀ j, (i ≤ j < e)%nat → same j = Ok true) →
  ((e < last)%nat → same e = Ok false) → run_end last same i = Ok e.
Proof.
  intros Hie Hsame Hend. unfold run_end.
  assert (∀ fuel i, (i ≤ e)%nat → (e - i ≤ fuel)%nat → (∀ j, (i ≤ j < e)%nat → same j = Ok true) →
    rwhileM fuel (λ i, if decide (i < last)%nat then same i else Ok false) (λ i, Ok (S i)) i = Ok e) as H.
  { assert (e ≤ last)%nat by lia. clear i Hie Hsame. intros fuel. induction fuel as [|fuel IH]; intros i Hie Hf Hs; simpl;
      destruct (decide (i = e)) as [->|Hne]; [|lia| |].
    1,2: case_decide; [by rewrite Hend by lia|done].
    rewrite decide_True by lia. rewrite Hs by lia. cbn. apply IH; [lia|lia|].
    intros; apply Hs; lia. }
  apply H; [lia|lia|done].
Qed.

End Runs.

(** Row comparison of a run: with its first row and with the row after it. *)
Lemma rows_equal_ok {Row} (key : Row → bytes) (l : list Row) i j x y :
  l !! i = Some x → l !! j = Some y →
  rows_equal (key <$> l) i j = Ok (bool_decide (key x = key y)).
Proof.
  intros Hi Hj. unfold rows_equal. unfold index. by rewrite !list_lookup_fmap, Hi, Hj.
Qed.

Lemma run_end_run {Row} (key : Row → bytes) (done run rest : list Row) (last : nat) :
  is_run key run rest → (last = length done + length run + length rest)%nat →
  run_end last (λ i, rows_equal (key <$> done ++ run ++ rest) i (length done)) (S (length done))
    = Ok (length done + length run)%nat.
Proof.
  intros Hrun ->. destruct run as [|x run]; [done|]. destruct Hrun as [Hall Hrest].
  assert ((done ++ (x :: run) ++ rest) !! length done = Some x) as Hx
    by (rewrite lookup_app_r, Nat.sub_diag; done).
  apply run_end_ok; simpl length.
  - lia.
  - intros j Hj. destruct (lookup_lt_is_Some_2 (x :: run) (j - length done)) as [y Hy]; [simpl; lia|].
    erewrite rows_equal_ok; [|rewrite lookup_app_r by lia; by apply lookup_app_l_Some|done].
    rewrite bool_decide_true; [done|]. rewrite Forall_lookup in Hall. by eapply Hall.
  - intros Hlt. destruct rest as [|z rest]; [simpl in Hlt; lia|].
    erewrite rows_equal_ok; [| |done].
    2: { rewrite lookup_app_r by lia. rewrite lookup_app_r by (simpl; lia).
         replace (_ - _ - _)%nat with O by (simpl; lia). done. }
    by rewrite bool_decide_false.
Qed.

(** ** The values of one partition *)

Section Full.
Context {Row F64 : Type} (f64_div : Z → Z → F64) (f64_zero : F64) (part ord : Row → bytes).

(** The share of the partition's rows that come before the row or are its peers. *)
Definition cume_dist_values (le : bytes → bytes → Prop) `{!RelDecision le} (l : list Row) : list F64 :=
  (λ x, f64_div (Z.of_nat (length (filter (λ r, le (ord r) (ord x)) l))) (Z.of_nat (length l))) <$> l.

Definition percent_rank_values (l : list Row) : list F64 :=
  (λ rank, if decide (length l ≤ 1)%nat then f64_zero
           else f64_div (rank - 1) (Z.of_nat (length l) - 1)) <$> running (rank_spec part ord) [] l.

(** *** cume_dist *)

(** The peer groups in a sorted partition, as the loop sees them. *)
Definition cume_dist_group (n : nat) (done run : list Row) : list F64 :=
  replicate (length run) (f64_div (Z.of_nat (length done + length run)) (Z.of_nat n)).

Lemma sorted_group_count (le : bytes → bytes → Prop) `{!RelDecision le, !Reflexive le, !AntiSymm (=) le}
    done run rest x :
  StronglySorted le (ord <$> done ++ run ++ rest) → is_run ord run rest → x ∈ run →
  length (filter (λ r, le (ord r) (ord x)) (done ++ run ++ rest)) = (length done + length run)%nat.
Proof.
  intros Hs Hrun Hx. destruct run as [|x0 run]; [done|]. destruct Hrun as [Hall Hrest].
  assert (Heq : ∀ r, r ∈ x0 :: run → ord r = ord x).
  { rewrite Forall_forall in Hall. intros r Hr. rewrite (Hall r Hr), (Hall x Hx). done. }
  rewrite !fmap_app in Hs. apply StronglySorted_app in Hs as (Hdr & _ & Hs).
  apply StronglySorted_app in Hs as (Hrr & _ & Hsr).
  rewrite !filter_app, !length_app, (filter_all _ done), (filter_all _ (x0 :: run)), (filter_none _ rest).
  - simpl. lia.
  - intros z Hz Hle. assert (Hxz : le (ord x) (ord z)).
    { apply Hrr; apply list_elem_of_fmap_2; done. }
    destruct rest as [|y rest]; [set_solver|]. apply Hrest.
    rewrite (Heq x0) by set_solver. apply (anti_symm le).
    + apply elem_of_cons in Hz as [->|Hz]; [done|]. simpl in Hsr.
      apply StronglySorted_inv in Hsr as [_ Hyz]. rewrite Forall_forall in Hyz.
      rewrite <-(anti_symm le _ _ Hle Hxz). apply Hyz. by apply list_elem_of_fmap_2.
    + apply Hrr; apply list_elem_of_fmap_2; [done|set_solver].
  - intros r Hr. by rewrite (Heq r Hr).
  - intros r Hr. apply Hdr; [by apply list_elem_of_fmap_2|]. apply elem_of_app. left.
    by apply list_elem_of_fmap_2.
Qed.

Lemma cume_dist_groups (le : bytes → bytes → Prop) `{!RelDecision le, !Reflexive le, !AntiSymm (=) le} l :
  StronglySorted le (ord <$> l) →
  runs_from (cume_dist_group (length l)) [] (runs ord l) = cume_dist_values le l.
Proof.
  intros Hs. unfold cume_dist_values. set (g := λ x, f64_div _ _).
  assert (∀ todo done, l = done ++ todo →
    runs_from (cume_dist_group (length l)) done (runs ord todo) = g <$> todo) as H; [|by apply (H l [])].
  intros todo. induction todo as [todo IH] using (induction_ltof1 _ (@length Row)).
  intros d Hl. destruct (decide (todo = [])) as [->|Hne]; [done|].
  destruct (runs_split ord todo Hne) as (run & rest & -> & Hrun & ->).
  pose proof (is_run_nonempty ord _ _ Hrun). simpl. rewrite fmap_app. f_equal.
  - unfold cume_dist_group. rewrite <-(length_fmap g run). apply replicate_as_Forall.
    split; [done|]. apply Forall_fmap, Forall_forall. intros x Hx. simpl. unfold g.
    rewrite Hl, (sorted_group_count le d run rest x) by (try done; by rewrite <-Hl). by rewrite length_fmap.
  - apply (IH rest); [unfold ltof; rewrite length_app; lia|]. by rewrite <-app_assoc.
Qed.

Section Context.
Context (ctx : @WindowContext Row) `{!ContextOk part ctx}.

Lemma partition_end_ok done run rest rows :
  is_run part run rest → get_partition_rows ctx (done ++ run ++ rest) = Ok rows →
  run_end (length (done ++ run ++ rest))
    (λ i, if negb (has_partition ctx) then Ok true else rows_equal rows i (length done)) (S (length done))
    = Ok (length done + length run)%nat.
Proof.
  intros Hrun Hrows. pose proof (is_run_nonempty part _ _ Hrun). destruct (has_partition ctx) eqn:Hp; simpl.
  - rewrite (partition_rows_ok part) in Hrows by done. injection Hrows as <-.
    apply run_end_run; [done|]. rewrite !length_app. lia.
  - assert (rest = []) as ->.
    { destruct run as [|x run], rest as [|y rest]; try done. destruct Hrun as [_ Hy].
      by rewrite !(no_partition_key part) in Hy. }
    apply run_end_ok; [rewrite !length_app; simpl; lia|done|rewrite !length_app; simpl; lia].
Qed.

Lemma cume_dist_peers_ok done run rest d r rest' out :
  run = d ++ r ++ rest' → is_run ord r rest' →
  cume_dist_peers f64_div (ord <$> done ++ run ++ rest) (length done) (length done + length run)
      ((length done + length d)%nat, out)
    = Ok ((length done + length d + length r)%nat, out ++ cume_dist_group (length run) d r).
Proof.
  intros Hr Hrun. pose proof (is_run_nonempty ord _ _ Hrun). unfold cume_dist_peers.
  assert (∃ x, (done ++ run ++ rest) !! (length done + length d)%nat = Some x) as [x Hx].
  { apply lookup_lt_is_Some_2. subst run. rewrite !length_app. lia. }
  assert (index (ord <$> done ++ run ++ rest) (length done + length d) = Ok (ord x)) as ->.
  { apply index_Ok. by rewrite list_lookup_fmap, Hx. }
  cbn [mbind Result_bind].
  assert (run_end (length done + length run)
    (λ i, rows_equal (ord <$> done ++ run ++ rest) i (length done + length d)) (S (length done + length d))
    = Ok (length done + length d + length r)%nat) as ->.
  { destruct r as [|x0 r]; [done|]. destruct Hrun as [Hall Hrest].
    assert (∀ j y, (d ++ (x0 :: r) ++ rest') !! j = Some y →
      (done ++ run ++ rest) !! (length done + j)%nat = Some y) as Hlk.
    { intros j y Hj. rewrite lookup_app_r by lia. replace (length done + j - length done)%nat with j by lia.
      apply lookup_app_l_Some. by subst run. }
    assert (Hx0 : (done ++ run ++ rest) !! (length done + length d)%nat = Some x0).
    { apply Hlk. rewrite lookup_app_r, Nat.sub_diag; done. }
    assert (Hlen : length run = (length d + S (length r) + length rest')%nat)
      by (subst run; rewrite !length_app; simpl; lia).
    apply run_end_ok; simpl length.
    - lia.
    - intros j Hj. destruct (lookup_lt_is_Some_2 (x0 :: r) (j - length done - length d)) as [y Hy]; [simpl; lia|].
      rewrite (rows_equal_ok ord _ _ _ y x0); [| |done].
      2: { replace j with (length done + (j - length done))%nat by lia. apply Hlk.
           rewrite lookup_app_r by lia. by apply lookup_app_l_Some. }
      rewrite bool_decide_true; [done|]. rewrite Forall_lookup in Hall. by eapply Hall.
    - intros Hlt. destruct rest' as [|z rest']; [simpl in Hlen; lia|].
      rewrite (rows_equal_ok ord _ _ _ z x0); [| |done].
      2: { rewrite <-Nat.add_assoc. apply Hlk. rewrite lookup_app_r by lia.
           rewrite lookup_app_r by (simpl; lia).
           by replace (length d + S (length r) - length d - length (x0 :: r))%nat with O by (simpl; lia). }
      by rewrite bool_decide_false. }
  cbn [mbind Result_bind]. unfold cume_dist_group. do 4 f_equal; [lia|f_equal; lia].
Qed.

Lemma cume_dist_process_ok `{!OrderOk ord ctx} (le : bytes → bytes → Prop) `{!RelDecision le, !Reflexive le, !AntiSymm (=) le} batch :
  has_partition ctx = true → Forall (λ run, StronglySorted le (ord <$> run)) (runs part batch) →
  cume_dist_process f64_div ctx batch = Ok (concat (cume_dist_values le <$> runs part batch)).
Proof.
  intros Hp Hs. unfold cume_dist_process. rewrite (order_rows_ok ord), (partition_rows_ok part) by done.
  cbn [mbind Result_bind].
  pose proof (run_loop part (cume_dist_partition f64_div ctx (part <$> batch) (ord <$> batch) (length batch))
    (λ _ run, runs_from (cume_dist_group (length run)) [] (runs ord run)) 0 (length batch) batch []) as Hl.
  simpl in Hl. rewrite Hl; [|clear Hl|done].
  - cbn. rewrite runs_from_concat. f_equal. f_equal. clear Hl. induction Hs as [|r rs Hr _ IH]; [done|].
    rewrite !fmap_cons, IH, (cume_dist_groups le); done.
  - intros d run rest out -> Hrun _. pose proof (is_run_nonempty part _ _ Hrun). unfold cume_dist_partition.
    destruct (lookup_lt_is_Some_2 (d ++ run ++ rest) (length d)) as [x Hx]; [rewrite !length_app; lia|].
    assert (index (part <$> d ++ run ++ rest) (length d) = Ok (part x)) as ->.
    { apply index_Ok. by rewrite list_lookup_fmap, Hx. }
    cbn [mbind Result_bind].
    rewrite (partition_end_ok d run rest) by (try done; by rewrite (partition_rows_ok part) by done).
    cbn [mbind Result_bind].
    rewrite (run_loop ord _ (cume_dist_group (length run)) (length d) _ run out); [done| |lia].
    intros d' r rest' out' Hd' Hr' _. by eapply cume_dist_peers_ok.
Qed.

(** *** percent_rank *)

Definition pct (n : nat) (rank : Z) : F64 :=
  if decide (n ≤ 1)%nat then f64_zero else f64_div (rank - 1) (Z.of_nat n - 1).

Definition percent_rank_inv (pre : list Row) (st : Z * Z) : Prop :=
  match last pre with
  | None => st = (1, 1)
  | Some y => st = (rank_spec part ord pre y, equals_of part ord pre y)
  end.

Lemma running_fmap {V W} (g : V → W) (spec : list Row → Row → V) pre l :
  running (λ l x, g (spec l x)) pre l = g <$> running spec pre l.
Proof. revert pre; induction l as [|x l IH]; intros pre; simpl; [done|]. by rewrite IH. Qed.

Lemma same_partition_snoc pre x y :
  Forall (λ r, part r = part x) (pre ++ [x]) → y ∈ pre →
  partition_of part (pre ++ [x]) x = partition_of part pre y ++ [x].
Proof.
  rewrite Forall_app, Forall_forall. intros [Hpre _] Hy. unfold partition_of.
  rewrite filter_app, (filter_cons_True _ x []), filter_nil by done. f_equal.
  apply list_filter_iff. intros r. by rewrite (Hpre y Hy).
Qed.

(** The counters after the next row of the partition. *)
Lemma percent_rank_counters pre x :
  grouped ord (pre ++ [x]) → Forall (λ r, part r = part x) (pre ++ [x]) →
  ∀ y, last pre = Some y →
  (if decide (ord x = ord y) then (rank_spec part ord pre y, equals_of part ord pre y + 1)
   else (rank_spec part ord pre y + equals_of part ord pre y, 1))
  = (rank_spec part ord (pre ++ [x]) x, equals_of part ord (pre ++ [x]) x).
Proof.
  intros Hg Hall y Hy. pose proof (last_Some_elem_of _ _ Hy) as Hyp.
  pose proof (same_partition_snoc pre x y Hall Hyp) as Hp.
  case_decide as Ho.
  - destruct (rank_of_peer part ord false pre x y) as [Hr ->]; try done.
    { rewrite Forall_app, Forall_forall in Hall. symmetry. by apply Hall. }
    simpl in Hr. by rewrite Hr.
  - destruct (rank_of_next part ord false pre x y Hp) as [Hr ->]; [|simpl in Hr; by rewrite Hr].
    intros r Hr. apply list_elem_of_filter in Hr as [_ Hr].
    apply last_Some in Hy as [pre' ->]. by eapply grouped_fresh.
Qed.

Lemma percent_rank_row_ok done run rest pre x rest' st :
  run = pre ++ x :: rest' → Z.of_nat (length run) < 2 ^ 63 →
  grouped ord run → Forall (λ r, part r = part x) run → percent_rank_inv pre st →
  ∃ st', percent_rank_row f64_div f64_zero (ord <$> done ++ run ++ rest) (length done) (length run) st
      (length done + length pre)%nat = Ok (st', pct (length run) (rank_spec part ord (pre ++ [x]) x)) ∧
    percent_rank_inv (pre ++ [x]) st'.
Proof.
  intros Hrun Hlen Hg Hall HI. destruct st as [rank peers]. unfold percent_rank_row.
  assert (Hg' : grouped ord (pre ++ [x])).
  { apply (grouped_prefix _ _ rest'). rewrite <-app_assoc. simpl. by rewrite <-Hrun. }
  assert (Hall' : Forall (λ r, part r = part x) (pre ++ [x])).
  { rewrite Hrun in Hall. rewrite (cons_middle x pre rest'), app_assoc in Hall. by apply Forall_app in Hall as [? _]. }
  assert (Hpl : (length pre < length run)%nat) by (subst run; rewrite length_app; simpl; lia).
  assert (Hbound : 1 ≤ rank_spec part ord (pre ++ [x]) x ≤ Z.of_nat (length run)).
  { pose proof (rank_of_bound part ord false (pre ++ [x]) x ltac:(set_solver)) as Hb. simpl in Hb.
    rewrite length_app in Hb. simpl in Hb. unfold rank_spec in *. lia. }
  assert (∀ rk eq, (rk, eq) = (rank_spec part ord (pre ++ [x]) x, equals_of part ord (pre ++ [x]) x) →
    ∃ st', Ok ((rk, eq), if decide (length run ≤ 1)%nat then f64_zero
             else f64_div (usize (rk - 1)) (Z.of_nat (length run - 1)))
        = Ok (st', pct (length run) (rank_spec part ord (pre ++ [x]) x)) ∧
      percent_rank_inv (pre ++ [x]) st') as Hend.
  { intros rk eq [= -> ->]. eexists. split.
    - do 2 f_equal. unfold pct. case_decide; [done|]. f_equal; [|lia].
      apply wrapu_id. unfold in_u. lia.
    - unfold percent_rank_inv. by rewrite last_snoc. }
  unfold percent_rank_inv in HI. destruct (last pre) as [y|] eqn:Hy.
  - injection HI as -> ->. apply last_Some in Hy as Hpre. destruct Hpre as [pre' Hpre].
    rewrite decide_True by (subst pre; rewrite length_app; simpl; lia).
    rewrite (rows_equal_ok ord _ _ _ x y).
    + cbn [mbind Result_bind].
      pose proof (percent_rank_counters pre x Hg' Hall' y Hy) as Hc. simpl in *.
      pose proof (partition_of_length part pre y) as Hpo.
      pose proof (length_filter (λ r, ord r = ord y) (partition_of part pre y)) as Hfl.
      case_bool_decide as Ho; [rewrite decide_True in Hc by done|rewrite decide_False in Hc by done];
        cbn [mbind Result_bind]; apply Hend; rewrite <-Hc; f_equal; apply wrapu_id; unfold in_u.
      * unfold equals_of. lia.
      * injection Hc as -> _. lia.
    + rewrite lookup_app_r by lia. rewrite lookup_app_l by (subst run; rewrite length_app in *; simpl in *; lia).
      subst run. rewrite lookup_app_r by lia.
      by replace (length done + length pre - length done - length pre)%nat with O by lia.
    + assert (Hpl' : length pre = S (length pre')) by (subst pre; rewrite length_app; simpl; lia).
      rewrite lookup_app_r by lia. rewrite lookup_app_l by lia.
      subst run. rewrite lookup_app_l by lia. subst pre.
      rewrite lookup_app_r by lia.
      by replace (length done + length (pre' ++ [y]) - 1 - length done - length pre')%nat with O by lia.
  - injection HI as -> ->. apply last_None in Hy. subst pre.
    rewrite decide_False by (simpl; lia). cbn [mbind Result_bind]. apply Hend.
    destruct (rank_of_single part ord false ([] ++ [x]) x) as [Hr ->].
    { unfold partition_of. simpl. by rewrite filter_cons_True. }
    simpl in *. by rewrite Hr.
Qed.

Lemma percent_rank_process_ok `{!OrderOk ord ctx} batch :
  Z.of_nat (length batch) < 2 ^ 63 → Forall (grouped ord) (runs part batch) →
  percent_rank_process f64_div f64_zero ctx batch = Ok (concat (percent_rank_values <$> runs part batch)).
Proof.
  intros Hlen Hs. unfold percent_rank_process. rewrite (order_rows_ok ord).
  destruct (partition_rows_total part batch) as [rows Hrows]. rewrite Hrows. cbn [mbind Result_bind].
  pose proof (run_loop part (percent_rank_partition f64_div f64_zero ctx rows (ord <$> batch) (length batch))
    (λ _ run, percent_rank_values run) 0 (length batch) batch []) as Hl.
  simpl in Hl. rewrite Hl; [|clear Hl|done].
  - cbn. by rewrite runs_from_concat.
  - intros d run rest out Hb Hrun Hin. unfold percent_rank_partition.
    rewrite Hb in Hrows |- *. rewrite (partition_end_ok d run rest rows) by done.
    cbn [mbind Result_bind]. replace (length d + length run - length d)%nat with (length run) by lia.
    unfold range. replace (length d + length run - length d)%nat with (length run) by lia.
    assert (Hlr : Z.of_nat (length run) < 2 ^ 63) by (rewrite Hb, !length_app in Hlen; lia).
    assert (Hgr : grouped ord run).
    { rewrite Forall_forall in Hs. by apply Hs. }
    destruct (for_rows_ok (percent_rank_row f64_div f64_zero (ord <$> d ++ run ++ rest) (length d) (length run))
      percent_rank_inv (λ l x, pct (length run) (rank_spec part ord l x)) (length d) [] run (1, 1))
      as (st' & He & _); [|done|].
    + intros st l x [rest' Hr] HI. eapply percent_rank_row_ok; [exact Hr|done|done| |done].
      destruct run as [|x0 run]; [done|]. destruct Hrun as [Hall _]. rewrite Forall_forall in Hall |- *.
      intros r Hrin. rewrite (Hall r Hrin). symmetry. apply Hall. rewrite Hr. set_solver.
    + rewrite He. cbn [mbind Result_bind]. do 3 f_equal. by rewrite running_fmap.
Qed.

End Context.
End Full.

(** *** lead *)

Lemma set_range_ok {A} (a b c : list A) (x : A) :
  set_range (a ++ b ++ c) (length a) (length a + length b) x = Ok (a ++ replicate (length b) x ++ c).
Proof.
  unfold set_range, range. replace (length a + length b - length a)%nat with (length b) by lia.
  revert a; induction b as [|y b IH]; intros a; [done|]. cbn [seq length rfoldM].
  rewrite set_index_Ok by (rewrite !length_app; simpl; lia). cbn [mbind Result_bind].
  rewrite insert_app_r_alt, Nat.sub_diag by lia. simpl.
  specialize (IH (a ++ [x])). rewrite length_app, Nat.add_1_r, <-!app_assoc in IH. exact IH.
Qed.

Lemma rfoldM_id {A S} (f : S → A → Result S) s l : (∀ x, x ∈ l → f s x = Ok s) → rfoldM f s l = Ok s.
Proof.
  induction l as [|x l IH]; intros H; simpl; [done|]. rewrite H by set_solver. cbn. apply IH. set_solver.
Qed.

Section Lead.
Context {Row Scalar : Type} (part ord : Row → bytes).

(** The value [offset] rows further in the partition, or the default of the row. *)
Definition lead_values (value default_value : Row → Scalar) (offset : Z) (l : list Row) : list Scalar :=
  imap (λ i x, let target := Z.of_nat i + offset in
    if decide (0 ≤ target) then from_option value (default_value x) (l !! Z.to_nat target)
    else default_value x) l.

Definition starts_of (done run : list Row) : list nat := replicate (length run) (length done).
Definition ends_of (done run : list Row) : list nat := replicate (length run) (length done + length run)%nat.

(** One run: nothing happens before its end, where both vectors are filled. *)
Lemma lead_boundary_run done run rest s1 s2 s3 e1 e2 e3 :
  is_run part run rest →
  length s1 = length done → length s2 = length run → length e1 = length done → length e2 = length run →
  rfoldM (lead_boundary (part <$> done ++ run ++ rest) (length (done ++ run ++ rest)))
    (length done, s1 ++ s2 ++ s3, e1 ++ e2 ++ e3) (seq (S (length done)) (length run))
  = Ok ((length done + length run)%nat, s1 ++ starts_of done run ++ s3, e1 ++ ends_of done run ++ e3).
Proof.
  intros Hrun Hs1 Hs2 He1 He2. destruct run as [|x run]; [done|]. destruct Hrun as [Hall Hrest].
  set (batch := done ++ (x :: run) ++ rest).
  assert (Hx : batch !! length done = Some x) by (unfold batch; rewrite lookup_app_r, Nat.sub_diag; done).
  assert (Hn : length batch = (length done + S (length run) + length rest)%nat)
    by (unfold batch; rewrite !length_app; simpl; lia).
  change (length (x :: run)) with (S (length run)). rewrite seq_S, rfoldM_app.
  rewrite rfoldM_id; cbn [mbind Result_bind].
  - cbn [seq rfoldM]. unfold lead_boundary.
    assert ((if decide (S (length done) + length run = length batch)%nat then Ok true
       else same ← rows_equal (part <$> batch) (S (length done) + length run) (length done); Ok (negb same))
      = Ok true) as ->.
    { case_decide; [done|]. destruct rest as [|z rest]; [simpl in *; lia|].
      rewrite (rows_equal_ok part _ _ _ z x); [| |done].
      - by rewrite bool_decide_false.
      - unfold batch. rewrite lookup_app_r by lia. rewrite lookup_app_r by (simpl; lia).
        by replace (S (length done) + length run - length done - length (x :: run))%nat with O by (simpl; lia). }
    cbn [mbind Result_bind].
    pose proof (set_range_ok s1 s2 s3 (length done)) as HS.
    pose proof (set_range_ok e1 e2 e3 (S (length done) + length run)%nat) as HE.
    rewrite Hs1, Hs2 in HS. rewrite He1, He2 in HE. simpl length in HS, HE.
    replace (length done + S (length run))%nat with (S (length done) + length run)%nat in HS, HE by lia.
    rewrite HS. cbn [mbind Result_bind]. rewrite HE. cbn [mbind Result_bind].
    unfold starts_of, ends_of. simpl length.
    by replace (length done + S (length run))%nat with (S (length done) + length run)%nat by lia.
  - intros j Hj. apply elem_of_seq in Hj. unfold lead_boundary. rewrite decide_False by lia.
    destruct (lookup_lt_is_Some_2 (x :: run) (j - length done)) as [y Hy]; [simpl; lia|].
    rewrite (rows_equal_ok part _ _ _ y x); [| |done].
    + rewrite bool_decide_true; [done|]. rewrite Forall_lookup in Hall. by eapply Hall.
    + unfold batch. rewrite lookup_app_r by lia. by apply lookup_app_l_Some.
Qed.

Lemma lead_boundaries batch :
  ∀ todo done s1 s2 e1 e2, batch = done ++ todo →
  length s1 = length done → length s2 = length todo → length e1 = length done → length e2 = length todo →
  rfoldM (lead_boundary (part <$> batch) (length batch))
    (length done, s1 ++ s2, e1 ++ e2) (seq (S (length done)) (length todo))
  = Ok (length batch, s1 ++ runs_from starts_of done (runs part todo), e1 ++ runs_from ends_of done (runs part todo)).
Proof.
  intros todo. induction todo as [todo IH] using (induction_ltof1 _ (@length Row)).
  intros d s1 s2 e1 e2 Hb Hs1 Hs2 He1 He2. destruct (decide (todo = [])) as [->|Hne].
  { apply length_zero_iff_nil in Hs2, He2. subst. simpl. by rewrite !app_nil_r. }
  destruct (runs_split part todo Hne) as (run & rest & -> & Hrun & ->).
  pose proof (is_run_nonempty part _ _ Hrun). rewrite length_app in Hs2, He2.
  rewrite length_app, seq_app, rfoldM_app.
  rewrite <-(take_drop (length run) s2), <-(take_drop (length run) e2), Hb.
  rewrite lead_boundary_run; [|done|done|rewrite length_take; lia|done|rewrite length_take; lia].
  cbn [mbind Result_bind]. rewrite <-Hb.
  replace (length d + length run)%nat with (length (d ++ run)) by by rewrite length_app.
  rewrite Nat.add_succ_l. replace (length d + length run)%nat with (length (d ++ run)) by by rewrite length_app.
  rewrite !(app_assoc _ (_ d run)).
  rewrite (IH rest).
  - cbn [runs_from]. by rewrite <-!app_assoc.
  - unfold ltof. rewrite length_app. lia.
  - by rewrite <-app_assoc.
  - unfold starts_of. rewrite !length_app, length_replicate. lia.
  - rewrite length_drop. lia.
  - unfold ends_of. rewrite !length_app, length_replicate. lia.
  - rewrite length_drop. lia.
Qed.

(** The values of one run, from vectors that hold its bounds. *)
Lemma lead_values_run (value default_value : Row → Scalar) offset done run rest s1 s3 e1 e3 :
  in_s 32 offset → Z.of_nat (length (done ++ run ++ rest)) < 2 ^ 31 →
  length s1 = length done → length e1 = length done →
  rmapM (lead_value (value <$> done ++ run ++ rest) (default_value <$> done ++ run ++ rest)
      (s1 ++ starts_of done run ++ s3) (e1 ++ ends_of done run ++ e3) offset)
    (seq (length done) (length run)) = Ok (lead_values value default_value offset run).
Proof.
  intros Hoff Hn Hs1 He1. apply rmapM_Ok. apply Forall2_same_length_lookup. unfold lead_values.
  rewrite length_seq, length_imap. split; [done|]. intros i j v Hj Hv.
  apply lookup_seq in Hj as [-> Hi]. apply list_lookup_imap_Some in Hv as (x & Hx & ->).
  set (batch := done ++ run ++ rest) in *.
  assert (Hlk : ∀ k y, run !! k = Some y → batch !! (length done + k)%nat = Some y).
  { intros k y Hk. unfold batch. rewrite lookup_app_r by lia.
    replace (length done + k - length done)%nat with k by lia. by apply lookup_app_l_Some. }
  assert (Hpos : ∀ (a c : list nat) b, length a = length done →
    index (a ++ replicate (length run) b ++ c) (length done + i) = Ok b).
  { intros a c b Ha. apply index_Ok. rewrite lookup_app_r by lia. apply lookup_app_l_Some.
    apply lookup_replicate. split; [done|lia]. }
  unfold lead_value. unfold starts_of, ends_of. rewrite !Hpos by done. cbn [mbind Result_bind].
  assert (Hln : (length done + length run ≤ length batch)%nat) by (unfold batch; rewrite !length_app; lia).
  unfold i64. rewrite wraps_id by (unfold in_s in *; lia).
  assert (Hdef : index (default_value <$> batch) (length done + i) = Ok (default_value x)).
  { apply index_Ok. by rewrite list_lookup_fmap, (Hlk i x). }
  cbv zeta. case_decide as H1.
  - rewrite (decide_True (P := 0 ≤ Z.of_nat i + offset)) by lia. case_decide as H2.
    + destruct (lookup_lt_is_Some_2 run (Z.to_nat (Z.of_nat i + offset))) as [y Hy]; [lia|].
      rewrite Hy. simpl. apply index_Ok. rewrite list_lookup_fmap.
      replace (Z.to_nat (Z.of_nat (length done + i) + offset))
        with (length done + Z.to_nat (Z.of_nat i + offset))%nat by lia.
      by rewrite (Hlk _ _ Hy).
    + rewrite (lookup_ge_None_2 run) by lia. done.
  - rewrite decide_False by lia. done.
Qed.

Lemma lead_values_runs (value default_value : Row → Scalar) offset batch :
  in_s 32 offset → Z.of_nat (length batch) < 2 ^ 31 →
  ∀ todo done s1 e1, batch = done ++ todo → length s1 = length done → length e1 = length done →
  rmapM (lead_value (value <$> batch) (default_value <$> batch)
      (s1 ++ runs_from starts_of done (runs part todo)) (e1 ++ runs_from ends_of done (runs part todo)) offset)
    (seq (length done) (length todo)) = Ok (concat (lead_values value default_value offset <$> runs part todo)).
Proof.
  intros Hoff Hn todo. induction todo as [todo IH] using (induction_ltof1 _ (@length Row)).
  intros d s1 e1 Hb Hs1 He1. destruct (decide (todo = [])) as [->|Hne]; [done|].
  destruct (runs_split part todo Hne) as (run & rest & -> & Hrun & ->).
  pose proof (is_run_nonempty part _ _ Hrun). rewrite length_app, seq_app. cbn [runs_from fmap list_fmap concat].
  apply rmapM_app_Ok.
  - rewrite Hb. apply lead_values_run; [done|by rewrite <-Hb|done|done].
  - replace (length d + length run)%nat with (length (d ++ run)) by by rewrite length_app.
    rewrite !(app_assoc _ (_ d run)). apply (IH rest).
    + unfold ltof. rewrite length_app. lia.
    + by rewrite <-app_assoc.
    + unfold starts_of. rewrite !length_app, length_replicate. lia.
    + unfold ends_of. rewrite !length_app, length_replicate. lia.
Qed.

Lemma runs_constant (l : list Row) : (∀ r, part r = []) → l ≠ [] → runs part l = [l].
Proof.
  intros Hp Hl. destruct (runs_split part l Hl) as (run & rest & -> & Hrun & ->).
  destruct run as [|x run], rest as [|y rest]; try done; [by rewrite app_nil_r|].
  destruct Hrun as [_ Hy]. by rewrite !Hp in Hy.
Qed.

Section Context.
Context (ctx : @WindowContext Row) `{!ContextOk part ctx}.
Context (cast_int32 : list Scalar → Result (list (option Z))) (cast_to_input : list Scalar → Result (list Scalar)).
Context (input offset_expr default_expr : list Row → Result (list Scalar)).
Context (value default_value : Row → Scalar) (offset : Z).

(** The children evaluate row by row, the offset is the same constant for all rows. *)
Class LeadArgs := {
  lead_input_ok b : input b = Ok (value <$> b);
  lead_default_ok b : (d ← default_expr b; cast_to_input d) = Ok (default_value <$> b);
  lead_offset_ok b : (o ← offset_expr b; cast_int32 o) = Ok (replicate (length b) (Some offset));
  lead_offset_range : in_s 32 offset }.

Lemma lead_process_ok `{!LeadArgs} batch :
  batch ≠ [] → Z.of_nat (length batch) < 2 ^ 31 →
  lead_process cast_int32 cast_to_input [input; offset_expr; default_expr] ctx batch
    = Ok (concat (lead_values value default_value offset <$> runs part batch)).
Proof.
  intros Hne Hn. unfold lead_process. rewrite lead_input_ok. cbn [mbind Result_bind].
  pose proof (lead_offset_ok batch) as Ho. pose proof (lead_default_ok batch) as Hd.
  apply bind_Ok in Ho as (o & -> & Ho). apply bind_Ok in Hd as (d & Hd1 & Hd2).
  cbn [mbind Result_bind]. rewrite Ho. cbn [mbind Result_bind].
  assert (0 < length batch)%nat by (destruct batch; [done|simpl; lia]).
  assert (index (replicate (length batch) (Some offset)) 0 = Ok (Some offset)) as ->.
  { apply index_Ok, lookup_replicate. split; [done|lia]. }
  cbn [mbind Result_bind]. rewrite Hd1. cbn [mbind Result_bind]. rewrite Hd2. cbn [mbind Result_bind].
  pose proof (lead_values_runs value default_value offset batch lead_offset_range Hn batch [] [] []
    eq_refl eq_refl eq_refl) as Hv.
  destruct (has_partition ctx) eqn:Hp.
  - cbn [andb]. rewrite bool_decide_true, (partition_rows_ok part) by done. cbn [mbind Result_bind].
    unfold range. replace (S (length batch) - 1)%nat with (length batch) by lia.
    pose proof (lead_boundaries batch batch [] [] (replicate (length batch) 0%nat) []
      (replicate (length batch) (length batch))) as Hb. simpl in Hb.
    rewrite Hb by (by rewrite ?length_replicate). cbn [mbind Result_bind]. exact Hv.
  - cbn [andb mbind Result_bind].
    rewrite (runs_constant batch) in Hv |- * by (try done; intros; by apply (no_partition_key part)).
    cbn [runs_from] in Hv. unfold starts_of, ends_of in Hv. rewrite !app_nil_r in Hv. exact Hv.
Qed.

End Context.
End Lead.
