(* ===== verification/WindowExec.v ===== *)
(** * The window operator

    native-engine/datafusion-ext-plans/src/window_exec.rs and the processor table of
    window/mod.rs.  [execute_window] creates one processor per window expression and
    passes the input through them: batch by batch when all of them stream, otherwise
    partition by partition, or all at once when there is no partition key.  A group limit
    keeps the rows whose rank-like value is at most the limit.

    The operator is proved against the contract [proc_step] of a processor, which the
    processors of [Window] and [WindowFull] satisfy.  The columns already have their
    declared types, so the cast of the source does not change them. *)

From S2P Require Import Prelude MachineInt Window WindowFull.
Local Open Scope Z_scope.

Local Abbreviation bytes := (list Z).

Section WindowExec.
Context {Row F64 Scalar Acc : Type}.
Context (f64_div : Z → Z → F64) (f64_zero : F64).
Context (is_null : Scalar → bool) (null_value : Scalar).
Context (cast_int32 : list Scalar → Result (list (option Z))) (cast_to_input : list Scalar → Result (list Scalar)).

Local Abbreviation Batch := (list Row).
Local Abbreviation Expr := (list Row → Result (list Scalar)).
Local Abbreviation Context' := (@WindowContext Row).
Local Abbreviation Column := (list (@Value F64 Scalar)).

Inductive WindowRankType := RowNumber | Rank | DenseRank.

(** [Agg] carries the aggregate that [create_agg] builds for the expression. *)
Inductive WindowFunction :=
  | RankLike (t : WindowRankType)
  | PercentRank
  | NthValue (ignore : bool)
  | Lead
  | CumeDist
  | AggFunction (a : @Agg Row Scalar Acc).

(** [offset_literal] is the value of the second child when it is a literal. *)
Record WindowExpr := mkWindowExpr {
  func : WindowFunction; children : list Expr; offset_literal : option (option Z) }.

Inductive Processor :=
  | PRowNumber (p : RowNumberProcessor)
  | PRank (p : RankProcessor)
  | PPercentRank
  | PNthValue (p : @NthValueProcessor Row Scalar)
  | PLead (children : list Expr)
  | PCumeDist
  | PAgg (p : @AggProcessor Row Scalar Acc).

Definition create_processor (e : WindowExpr) : Result Processor :=
  match func e with
  | RankLike RowNumber => Ok (PRowNumber row_number_new)
  | RankLike Rank => Ok (PRank (rank_new false))
  | RankLike DenseRank => Ok (PRank (rank_new true))
  | PercentRank => Ok PPercentRank
  | Lead => Ok (PLead (children e))
  | NthValue ignore => p ← nth_value_try_new (children e) (offset_literal e) ignore; Ok (PNthValue p)
  | CumeDist => Ok PCumeDist
  | AggFunction a => Ok (PAgg (agg_try_new a))
  end.

Definition expr_requires_full_partition (e : WindowExpr) : bool :=
  match func e with PercentRank | Lead | CumeDist => true | _ => false end.

Definition requires_full_partition (exprs : list WindowExpr) : bool :=
  existsb expr_requires_full_partition exprs.

(** The method call on the boxed processor; [column] puts the values into an array. *)
Definition column {S V} (self : S → Processor) (wrap : V → @Value F64 Scalar) (r : Result (S * list V))
    : Result (Processor * Column) :=
  '(p, vs) ← r; Ok (self p, list_fmap _ _ wrap vs).

Definition stateless {V} (r : Result (list V)) : Result (unit * list V) := vs ← r; Ok (tt, vs).

Definition process_batch (ctx : Context') (p : Processor) (batch : Batch) : Result (Processor * Column) :=
  match p with
  | PRowNumber p => column PRowNumber Int32 (row_number_process ctx p batch)
  | PRank p => column PRank Int32 (rank_process ctx p batch)
  | PPercentRank => column (λ _, PPercentRank) Float64 (stateless (percent_rank_process f64_div f64_zero ctx batch))
  | PNthValue p => column PNthValue AnyScalar (nth_value_process is_null null_value ctx p batch)
  | PLead cs => column (λ _, PLead cs) AnyScalar (stateless (lead_process cast_int32 cast_to_input cs ctx batch))
  | PCumeDist => column (λ _, PCumeDist) Float64 (stateless (cume_dist_process f64_div ctx batch))
  | PAgg p => column PAgg AnyScalar (agg_process ctx p batch)
  end.

(** An output batch: the rows and the window columns. *)
Local Abbreviation Output := (list Row * list (list (@Value F64 Scalar)))%type.

Fixpoint process_columns (ctx : Context') (ps : list Processor) (batch : Batch)
    : Result (list Processor * list Column) :=
  match ps with
  | [] => Ok ([], [])
  | p :: ps =>
      '(p, col) ← process_batch ctx p batch;
      '(ps, cols) ← process_columns ctx ps batch;
      Ok (p :: ps, col :: cols)
  end.

(** [lt_eq] of an integer column with the limit; other columns are a type error. *)
Definition within_limit (limit : Z) (v : @Value F64 Scalar) : Result bool :=
  match v with
  | Int32 n => Ok (bool_decide (n ≤ i32 limit))
  | _ => Err (Execution "Invalid comparison operation")
  end.

(** [arrow::compute::filter] *)
Definition filter_by {A} (mask : list bool) (l : list A) : list A :=
  snd <$> filter (λ p, p.1 = true) (zip mask l).

Definition process_window_batch (ctx : Context') (batch : Batch) (ps : list Processor)
    : Result (list Processor * Output) :=
  '(ps, window_cols) ← process_columns ctx ps batch;
  '(batch, window_cols) ←
    match group_limit ctx with
    | Some limit =>
        match window_cols with
        | [col] =>
            limited ← rmapM (within_limit limit) col;
            Ok (filter_by limited batch, [filter_by limited col])
        | _ => Panic
        end
    | None => Ok (batch, window_cols)
    end;
  Ok (ps, (batch, if output_window_cols ctx then window_cols else [])).

Definition flush_window_batches (ctx : Context') (staging : list Batch) (ps : list Processor)
    : Result (list Processor * list Output) :=
  if decide (staging = []) then Ok (ps, []) else
  '(ps, out) ← process_window_batch ctx (concat staging) ps;
  Ok (ps, [out]).

Definition emit {B} (outs : list B) (s : Sent B) : Sent B := (outs ++ s.1, s.2).

(** All batches streaming through the processors. *)
Fixpoint stream_batches (ctx : Context') (ps : list Processor) (input : list (Result Batch)) : Sent Output :=
  match input with
  | [] => ([], Ok tt)
  | next :: input =>
      run next (λ batch,
      run (process_window_batch ctx batch ps) (λ '(ps, out),
      send out (stream_batches ctx ps input)))
  end.

(** Collecting the whole input. *)
Fixpoint stage_all (ctx : Context') (ps : list Processor) (staging : list Batch) (input : list (Result Batch))
    : Sent Output :=
  match input with
  | [] => run (flush_window_batches ctx staging ps) (λ '(_, outs), (outs, Ok tt))
  | next :: input => run next (λ batch, stage_all ctx ps (staging ++ [batch]) input)
  end.

Record PartitionState := mkPartitionState {
  staging_batches : list Batch; current_partition : option bytes; processors : list Processor }.

(** The partitions of one batch, from [partition_start] on; [k] is the rest of the task. *)
Fixpoint partition_slices (fuel : nat) (ctx : Context') (batch : Batch) (partition_rows : list bytes)
    (partition_start : nat) (st : PartitionState) (k : PartitionState → Sent Output) : Sent Output :=
  if decide (partition_start < length batch)%nat then
    match fuel with
    | O => ([], Diverge)
    | S fuel =>
        run (index partition_rows partition_start) (λ partition_key,
        run (run_end (length batch) (λ i, row ← index partition_rows i; Ok (bool_decide (row = partition_key)))
               (S partition_start)) (λ partition_end,
        run (if decide (current_partition st ≠ Some partition_key) then
               '(ps, outs) ← flush_window_batches ctx (staging_batches st) (processors st);
               Ok (mkPartitionState [] (Some partition_key) ps, outs)
             else Ok (st, [])) (λ '(st, outs),
        let slice := take (partition_end - partition_start) (drop partition_start batch) in
        let st := mkPartitionState (staging_batches st ++ [slice]) (current_partition st) (processors st) in
        emit outs (partition_slices fuel ctx batch partition_rows partition_end st k))))
    end
  else k st.

Fixpoint stream_partitions (ctx : Context') (st : PartitionState) (input : list (Result Batch)) : Sent Output :=
  match input with
  | [] => run (flush_window_batches ctx (staging_batches st) (processors st)) (λ '(_, outs), (outs, Ok tt))
  | next :: input =>
      run next (λ batch,
      if decide (batch = []) then stream_partitions ctx st input else
      run (get_partition_rows ctx batch) (λ partition_rows,
      partition_slices (length batch) ctx batch partition_rows 0 st (λ st, stream_partitions ctx st input)))
  end.

Definition execute_window (ctx : Context') (window_exprs : list WindowExpr) (input : list (Result Batch))
    : Sent Output :=
  run (rmapM create_processor window_exprs) (λ ps,
  if requires_full_partition window_exprs then
    if negb (has_partition ctx) then stage_all ctx ps [] input
    else stream_partitions ctx (mkPartitionState [] None ps) input
  else stream_batches ctx ps input).

(** ** What the operator returns

    The input is grouped by partition, sorted by the order key inside a partition, and
    has fewer rows than an [i32] counts.  The ranking functions are for windows with an
    ORDER BY ([OrderOk]), and cume_dist for those with a PARTITION BY as well
    ([cume_dist_without_partition_panics]). *)

Context (part ord : Row → bytes).
Context (le : bytes → bytes → Prop) `{!RelDecision le, !Reflexive le, !AntiSymm (=) le}.

Definition input_ok (l : list Row) : Prop :=
  small_grouped part l ∧
  StronglySorted (λ a b, part a = part b → le (ord a) (ord b)) l.

(** The column of an expression for a piece of the input after the rows [pre]. *)
Inductive expr_means (ctx : Context') : WindowExpr → (list Row → list Row → Column) → Prop :=
  | means_row_number cs o :
      expr_means ctx (mkWindowExpr (RankLike RowNumber) cs o)
        (λ pre rows, Int32 <$> running (row_number_spec part) pre rows)
  | means_rank cs o : OrderOk ord ctx →
      expr_means ctx (mkWindowExpr (RankLike Rank) cs o)
        (λ pre rows, Int32 <$> running (rank_spec part ord) pre rows)
  | means_dense_rank cs o : OrderOk ord ctx →
      expr_means ctx (mkWindowExpr (RankLike DenseRank) cs o)
        (λ pre rows, Int32 <$> running (dense_rank_spec part ord) pre rows)
  | means_percent_rank cs o : OrderOk ord ctx →
      expr_means ctx (mkWindowExpr PercentRank cs o)
        (λ _ rows, Float64 <$> percent_rank_values f64_div f64_zero part ord rows)
  | means_cume_dist cs o : OrderOk ord ctx → has_partition ctx = true →
      expr_means ctx (mkWindowExpr CumeDist cs o) (λ _ rows, Float64 <$> cume_dist_values f64_div ord le rows)
  | means_lead input offset_expr default_expr o value default_value offset :
      LeadArgs cast_int32 cast_to_input input offset_expr default_expr value default_value offset →
      expr_means ctx (mkWindowExpr Lead [input; offset_expr; default_expr] o)
        (λ _ rows, AnyScalar <$> lead_values value default_value offset rows)
  | means_nth_value input c ignore value offset :
      (∀ b, input b = Ok (value <$> b)) → 0 < offset < 2 ^ 64 →
      expr_means ctx (mkWindowExpr (NthValue ignore) [input; c] (Some (Some offset)))
        (λ pre rows, AnyScalar <$> running (nth_value_spec part is_null null_value value offset ignore) pre rows)
  | means_agg cs o a update final : AggOk a update final →
      expr_means ctx (mkWindowExpr (AggFunction a) cs o)
        (λ pre rows, AnyScalar <$> running (agg_spec part a update final) pre rows).

(** The output of the operator: pieces of the input with their columns. *)
Fixpoint outputs (ctx : Context') (vals : list (list Row → list Row → Column)) (pre : list Row)
    (pieces : list (list Row)) : list Output :=
  match pieces with
  | [] => []
  | rows :: pieces =>
      (rows, if output_window_cols ctx then (λ v, v pre rows) <$> vals else [])
      :: outputs ctx vals (pre ++ rows) pieces
  end.

(** ** The contract of a processor

    From a state that fits the rows seen so far, it returns the values of the next piece.
    A processor that needs whole partitions ([full]) is only given such pieces. *)

Definition proc_step (full : bool) (ctx : Context') (inv : list Row → Processor → Prop)
    (vals : list Row → list Row → Column) : Prop :=
  ∀ pre rows p, input_ok (pre ++ rows) → (full = true → is_run part rows []) → inv pre p →
    ∃ p', process_batch ctx p rows = Ok (p', vals pre rows) ∧ inv (pre ++ rows) p'.

Definition processes (full : bool) (ctx : Context') (init : Processor) (vals : list Row → list Row → Column) : Prop :=
  ∃ inv, inv [] init ∧ proc_step full ctx inv vals.

Lemma streaming_processes full ctx {St V} (process : St → Batch → Result (St * list V)) init spec ok
    (embed : St → Processor) (wrap : V → @Value F64 Scalar) :
  Streaming process init spec ok → (∀ l, input_ok l → ok l) →
  (∀ p b, process_batch ctx (embed p) b = column embed wrap (process p b)) →
  processes full ctx (embed init) (λ pre rows, wrap <$> running spec pre rows).
Proof.
  intros HS Hok Hp. exists (λ pre p, ∃ st, p = embed st ∧ stream_inv pre st). split.
  - exists init. split; [done|]. apply stream_init.
  - intros pre rows p Hi _ (st & -> & HI). rewrite Hp.
    destruct (stream_step pre rows st (Hok _ Hi) HI) as (st' & -> & HI'). cbn. eauto.
Qed.

Lemma stateless_processes ctx {V} (p : Processor) (process : Batch → Result (list V))
    (vals : list Row → list V) (wrap : V → @Value F64 Scalar) :
  (∀ b, process_batch ctx p b = column (λ _, p) wrap (stateless (process b))) →
  (∀ pre rows, input_ok (pre ++ rows) → is_run part rows [] → process rows = Ok (vals rows)) →
  processes true ctx p (λ _ rows, wrap <$> vals rows).
Proof.
  intros Hp Hv. exists (λ _ q, q = p). split; [done|]. intros pre rows q Hi Hr ->.
  rewrite Hp, (Hv pre) by auto. cbn. eauto.
Qed.

(** *** Sorted input *)

Lemma input_ok_prefix l1 l2 : input_ok (l1 ++ l2) → input_ok l1.
Proof.
  intros (Hs & Hsort). split; [by eapply small_grouped_prefix|].
  by apply StronglySorted_app in Hsort as (_ & ? & _).
Qed.

Lemma StronglySorted_at {A} (R : A → A → Prop) (l : list A) i j x y :
  StronglySorted R l → (i < j)%nat → l !! i = Some x → l !! j = Some y → R x y.
Proof.
  intros Hs. revert i j. induction Hs as [|z l Hs IH Hz]; intros i j Hij Hi Hj; [done|].
  destruct i as [|i], j as [|j]; simpl in *; try lia.
  - injection Hi as ->. rewrite Forall_lookup in Hz. by eapply Hz.
  - by eapply (IH i j); [lia|..].
Qed.

Lemma input_ok_rank ctx `{!OrderOk ord ctx} l : input_ok l → rank_ok part ord l.
Proof.
  intros ([Hg Hl] & Hs). split_and!; [done| |intros r _; by apply (@order_key_nonempty _ ord ctx _)].
  intros i j k x y z Hijk Hi Hj Hk [= Hp Hord].
  assert (part y = part x) as Hpy by (eapply (Hg i j k x y z); eauto).
  f_equal; [done|]. apply (anti_symm le).
  - rewrite Hord. apply (StronglySorted_at _ _ j k y z Hs); [lia|done|done|congruence].
  - apply (StronglySorted_at _ _ i j x y Hs); [lia|done|done|done].
Qed.

(** Inside one partition the rows are sorted by their order keys. *)
Lemma run_sorted pre rows : input_ok (pre ++ rows) → is_run part rows [] → StronglySorted le (ord <$> rows).
Proof.
  intros (_ & Hs) Hrun. apply StronglySorted_app in Hs as (_ & _ & Hs).
  destruct rows as [|x rows]; [done|]. destruct Hrun as [Hall _]. revert Hs Hall. generalize (part x).
  generalize (x :: rows). intros l k Hs Hall.
  induction Hs as [|y l Hs IH Hy]; [constructor|]. apply Forall_cons in Hall as [Hyk Hall]. simpl.
  constructor; [by apply IH|]. rewrite Forall_forall in Hy, Hall. apply Forall_fmap, Forall_forall.
  intros z Hz. simpl. apply Hy; [done|]. by rewrite Hyk, (Hall z Hz).
Qed.

Lemma run_grouped pre rows : input_ok (pre ++ rows) → is_run part rows [] → grouped ord rows.
Proof.
  intros Hi Hr. pose proof (run_sorted pre rows Hi Hr) as Hs.
  intros i j k x y z Hijk Hx Hy Hz Hxz.
  assert (∀ n w, rows !! n = Some w → (ord <$> rows) !! n = Some (ord w)) as Hf
    by (intros n w Hw; by rewrite list_lookup_fmap, Hw).
  apply (anti_symm le).
  - rewrite Hxz. eapply (StronglySorted_at _ _ j k _ _ Hs); [lia|by apply Hf..].
  - eapply (StronglySorted_at _ _ i j _ _ Hs); [lia|by apply Hf..].
Qed.

Lemma run_single rows : is_run part rows [] → runs part rows = [rows].
Proof.
  intros Hr. destruct (runs_split part rows) as (run & rest & Heq & Hrun & ->).
  { by destruct rows. }
  destruct run as [|x run]; [done|]. destruct rest as [|y rest]; [by rewrite app_nil_r in Heq; subst|].
  destruct Hrun as [_ Hy]. subst rows. destruct Hr as [Hall _]. rewrite Forall_forall in Hall.
  exfalso. apply Hy. apply Hall. set_solver.
Qed.

Lemma expr_processes full ctx `{!ContextOk part ctx} e vals :
  expr_means ctx e vals → (expr_requires_full_partition e = true → full = true) →
  ∃ p, create_processor e = Ok p ∧ processes full ctx p vals.
Proof.
  intros Hm Hfull. assert (Hsg : ∀ l, input_ok l → small_grouped part l) by (by intros l [? _]).
  destruct Hm as [cs o|cs o Ho|cs o Ho|cs o Ho|cs o Ho Hp|input oe de o value dv off HL|input c ign value off Hin Hoff|cs o a update final HA];
    try (assert (full = true) as -> by (apply Hfull; done)).
  - eexists. split; [done|]. by apply (streaming_processes _ _ _ _ _ _ PRowNumber Int32 (row_number_streaming part ord ctx)).
  - eexists. split; [done|]. apply (streaming_processes _ _ _ _ _ _ PRank Int32 (rank_streaming part ord ctx false)); [by apply (input_ok_rank ctx)|done].
  - eexists. split; [done|]. apply (streaming_processes _ _ _ _ _ _ PRank Int32 (rank_streaming part ord ctx true)); [by apply (input_ok_rank ctx)|done].
  - eexists. split; [done|].
    apply (stateless_processes ctx PPercentRank (percent_rank_process f64_div f64_zero ctx)); [done|].
    intros pre rows Hi Hr. rewrite (percent_rank_process_ok _ _ part ord ctx rows).
    + rewrite (run_single rows Hr). simpl. by rewrite app_nil_r.
    + destruct Hi as ([_ Hl] & _). rewrite length_app in Hl. lia.
    + rewrite (run_single rows Hr). constructor; [by eapply run_grouped|done].
  - eexists. split; [done|].
    apply (stateless_processes ctx PCumeDist (cume_dist_process f64_div ctx)); [done|].
    intros pre rows Hi Hr. rewrite (cume_dist_process_ok _ part ord ctx le rows); [|done|].
    + rewrite (run_single rows Hr). simpl. by rewrite app_nil_r.
    + rewrite (run_single rows Hr). constructor; [by eapply run_sorted|done].
  - eexists. split; [done|].
    apply (stateless_processes ctx (PLead [input; oe; de])
      (lead_process cast_int32 cast_to_input [input; oe; de] ctx)); [done|].
    intros pre rows Hi Hr. rewrite (lead_process_ok part ctx _ _ _ _ _ value dv off rows).
    + rewrite (run_single rows Hr). simpl. by rewrite app_nil_r.
    + by destruct rows.
    + destruct Hi as ([_ Hl] & _). rewrite length_app in Hl. lia.
  - eexists. split.
    { cbn. rewrite decide_True by lia. cbn. unfold usize. by rewrite wrapu_id by (unfold in_u; lia). }
    by apply (streaming_processes _ _ _ _ _ _ PNthValue AnyScalar
      (nth_value_streaming part ord ctx is_null null_value input value off ign Hin Hoff)).
  - eexists. split; [done|].
    by apply (streaming_processes _ _ _ _ _ _ PAgg AnyScalar (agg_streaming part ord ctx a update final)).
Qed.

(** ** The loops of the operator *)

Section Loops.
Context (full : bool) (ctx : Context') `{!ContextOk part ctx}.
Context (invs : list (list Row → Processor → Prop)) (vals : list (list Row → list Row → Column)).
Hypothesis steps : Forall2 (proc_step full ctx) invs vals.
Hypothesis no_limit : group_limit ctx = None.

Definition fit (pre : list Row) (ps : list Processor) : Prop := Forall2 (λ (inv : list Row → Processor → Prop) p, inv pre p) invs ps.

Lemma process_columns_ok pre rows ps :
  input_ok (pre ++ rows) → (full = true → is_run part rows []) → fit pre ps →
  ∃ ps', process_columns ctx ps rows = Ok (ps', (λ v, v pre rows) <$> vals) ∧ fit (pre ++ rows) ps'.
Proof.
  intros Hi Hr. unfold fit. clear no_limit. pose proof steps as Hsteps. clear steps. revert ps.
  induction Hsteps as [|inv v invs' vs Hs _ IH]; intros ps Hps.
  - inversion Hps; subst. exists []. by split.
  - inversion Hps as [|? p ? ps' Hp Hps']; subst. simpl.
    destruct (Hs pre rows p Hi Hr Hp) as (p' & -> & Hp'). cbn.
    destruct (IH ps' Hps') as (ps'' & -> & Hps''). cbn. eexists. split; [done|]. by constructor.
Qed.

Definition output_of (pre rows : list Row) : Output :=
  (rows, if output_window_cols ctx then (λ v, v pre rows) <$> vals else []).

Lemma process_window_batch_ok pre rows ps :
  input_ok (pre ++ rows) → (full = true → is_run part rows []) → fit pre ps →
  ∃ ps', process_window_batch ctx rows ps = Ok (ps', output_of pre rows) ∧ fit (pre ++ rows) ps'.
Proof.
  intros Hi Hr Hps. unfold process_window_batch.
  destruct (process_columns_ok pre rows ps Hi Hr Hps) as (ps' & -> & Hps'). cbn. rewrite no_limit. cbn. eauto.
Qed.

Lemma stream_batches_ok pre ps batches :
  full = false → input_ok (pre ++ concat batches) → fit pre ps →
  stream_batches ctx ps (Ok <$> batches) = (outputs ctx vals pre batches, Ok tt).
Proof.
  intros Hf. revert pre ps; induction batches as [|b bs IH]; intros pre ps Hi Hps; [done|].
  rewrite fmap_cons. cbn [stream_batches run concat] in *. rewrite app_assoc in Hi.
  destruct (process_window_batch_ok pre b ps) as (ps' & -> & Hps');
    [by eapply input_ok_prefix|by rewrite Hf|done|].
  cbn [run]. rewrite (IH (pre ++ b)) by done. done.
Qed.

Lemma stage_all_ok ps staging batches :
  stage_all ctx ps staging (Ok <$> batches) =
    run (flush_window_batches ctx (staging ++ batches) ps) (λ '(_, outs), (outs, Ok tt)).
Proof.
  revert staging; induction batches as [|b bs IH]; intros staging; [by rewrite app_nil_r|].
  rewrite fmap_cons. cbn [stage_all run]. by rewrite IH, <-app_assoc.
Qed.

Lemma flush_window_ok pre ps staging :
  staging ≠ [] → input_ok (pre ++ concat staging) → is_run part (concat staging) [] → fit pre ps →
  ∃ ps', flush_window_batches ctx staging ps = Ok (ps', [output_of pre (concat staging)]) ∧
    fit (pre ++ concat staging) ps'.
Proof.
  intros Hs Hi Hr Hps. unfold flush_window_batches. rewrite decide_False by done.
  destruct (process_window_batch_ok pre (concat staging) ps) as (ps' & -> & Hps'); [done|done|done|].
  cbn. eauto.
Qed.

(** *** Partition by partition *)

(** The rows [pre] are flushed, those of [staging_batches] belong to one partition. *)
Definition staged (pre : list Row) (st : PartitionState) : Prop :=
  fit pre (processors st) ∧
  match current_partition st with
  | None => staging_batches st = []
  | Some k => staging_batches st ≠ [] ∧ concat (staging_batches st) ≠ [] ∧
      Forall (λ r, part r = k) (concat (staging_batches st))
  end.

Lemma constant_is_run k (run rest : list Row) :
  run ≠ [] → Forall (λ r, part r = k) run → match rest with [] => True | y :: _ => part y ≠ k end →
  is_run part run rest.
Proof.
  intros Hne Hall Hrest. destruct run as [|x run]; [done|]. pose proof Hall as Hall'.
  apply Forall_cons in Hall' as [Hx _]. split.
  - eapply Forall_impl; [exact Hall|]. simpl; congruence.
  - destruct rest; [done|congruence].
Qed.

Lemma partition_key_end done run rest x :
  is_run part run rest → head run = Some x →
  run_end (length (done ++ run ++ rest))
    (λ i, row ← index (part <$> done ++ run ++ rest) i; Ok (bool_decide (row = part x))) (S (length done))
    = Ok (length done + length run)%nat.
Proof.
  intros Hrun Hx. destruct run as [|x' run]; [done|]. injection Hx as ->. destruct Hrun as [Hall Hrest].
  assert (∀ j y, (done ++ (x :: run) ++ rest) !! j = Some y →
    (row ← index (part <$> done ++ (x :: run) ++ rest) j; Ok (bool_decide (row = part x)))
      = Ok (bool_decide (part y = part x))) as Hix.
  { intros j y Hj. unfold index. by rewrite list_lookup_fmap, Hj. }
  apply run_end_ok.
  - rewrite !length_app. simpl. lia.
  - intros j Hj. simpl length in Hj.
    destruct (lookup_lt_is_Some_2 (x :: run) (j - length done)) as [y Hy]; [simpl; lia|].
    rewrite (Hix j y); [|rewrite lookup_app_r by lia; by apply lookup_app_l_Some].
    rewrite bool_decide_true; [done|]. rewrite Forall_lookup in Hall. by eapply Hall.
  - intros Hlt. destruct rest as [|z rest]; [rewrite !length_app in Hlt; simpl in Hlt; lia|].
    rewrite (Hix _ z); [by rewrite bool_decide_false|].
    rewrite lookup_app_r by lia. rewrite lookup_app_r by lia.
    by replace (length done + length (x :: run) - length done - length (x :: run))%nat with O by lia.
Qed.

Lemma partition_slices_ok batch more (k : PartitionState → Sent Output) :
  has_partition ctx = true →
  (∀ pre st, staged pre st → input_ok (pre ++ concat (staging_batches st) ++ more) →
    k st = (outputs ctx vals pre (runs part (concat (staging_batches st) ++ more)), Ok tt)) →
  ∀ todo done fuel pre st, batch = done ++ todo → (length todo ≤ fuel)%nat → staged pre st →
  input_ok (pre ++ concat (staging_batches st) ++ todo ++ more) →
  partition_slices fuel ctx batch (part <$> batch) (length done) st k
    = (outputs ctx vals pre (runs part (concat (staging_batches st) ++ todo ++ more)), Ok tt).
Proof.
  intros Hp Hk todo. induction todo as [todo IH] using (induction_ltof1 _ (@length Row)).
  intros d fuel pre st Hb Hf Hst Hi. destruct (decide (todo = [])) as [->|Hne].
  { rewrite app_nil_r in Hb. subst d. destruct fuel; simpl; rewrite decide_False by lia; by apply Hk. }
  destruct (runs_split part todo Hne) as (rows & rest & -> & Hrun & _).
  pose proof (is_run_nonempty part _ _ Hrun) as Hlen. rewrite length_app in Hf.
  assert (∃ x tl, rows = x :: tl) as (x & tl & Hrows) by (destruct rows; [done|eauto]).
  assert (Hx : head rows = Some x) by by subst rows.
  assert (Hlb : length batch = (length d + length rows + length rest)%nat)
    by (subst batch; rewrite !length_app; lia).
  destruct fuel as [|fuel]; [lia|]. cbn [partition_slices]. rewrite decide_True by lia.
  assert (index (part <$> batch) (length d) = Ok (part x)) as ->.
  { apply index_Ok. rewrite list_lookup_fmap, Hb, lookup_app_r, Nat.sub_diag by lia. by subst rows. }
  cbn [run]. rewrite Hb, (partition_key_end d rows rest x Hrun Hx), <-Hb. cbn [run].
  assert (Hslice : take (length d + length rows - length d) (drop (length d) batch) = rows).
  { rewrite Hb, drop_app_length. by replace (length d + length rows - length d)%nat with (length rows) by lia; rewrite take_app_length. }
  assert (Hconst : Forall (λ r, part r = part x) rows) by (subst rows; apply Hrun).
  assert (Hrne : rows ≠ []) by by subst rows.
  assert (Hgo : ∀ pre' st', staged pre' st' → pre' ++ concat (staging_batches st') ++ rest ++ more
      = pre ++ concat (staging_batches st) ++ (rows ++ rest) ++ more →
    partition_slices fuel ctx batch (part <$> batch) (length d + length rows) st' k
      = (outputs ctx vals pre' (runs part (concat (staging_batches st') ++ rest ++ more)), Ok tt)).
  { intros pre' st' Hst' Heq. rewrite <-length_app. apply (IH rest); [unfold ltof; rewrite length_app; lia| |lia|done|by rewrite Heq].
    by rewrite <-app_assoc. }
  rewrite Hslice. destruct Hst as [Hps Hcur].
  case_decide as Hc.
  - destruct (current_partition st) as [k0|] eqn:Hk0.
    + destruct Hcur as (Hs & Hcs & Hall).
      destruct (flush_window_ok pre (processors st) (staging_batches st)) as (ps' & -> & Hps'); [done| | |done|].
      { rewrite app_assoc in Hi. by eapply input_ok_prefix. }
      { by eapply constant_is_run. }
      cbn [mbind Result_bind run]. rewrite (Hgo (pre ++ concat (staging_batches st))).
      * cbn. rewrite app_nil_r. rewrite <-app_assoc.
        rewrite (runs_cons part (concat (staging_batches st))); [done|].
        eapply constant_is_run; [done|done|]. subst rows. simpl. congruence.
      * split; [done|]. cbn. by rewrite app_nil_r.
      * cbn. by rewrite app_nil_r, <-!app_assoc.
    + rewrite Hcur in Hi |- *. cbn [flush_window_batches mbind Result_bind run].
      unfold flush_window_batches. rewrite decide_True by done. cbn [mbind Result_bind run].
      rewrite (Hgo pre).
      * cbn. by rewrite app_nil_r, <-app_assoc.
      * split; [done|]. cbn. by rewrite app_nil_r.
      * cbn. by rewrite app_nil_r, Hcur, <-!app_assoc.
  - rewrite Hc in Hcur. cbn [mbind Result_bind run].
    destruct Hcur as (Hs & Hcs & Hall). rewrite (Hgo pre).
    + cbn. by rewrite concat_app, <-!app_assoc; simpl; rewrite app_nil_r.
    + split; [done|]. cbn. rewrite Hc, concat_app. simpl. rewrite app_nil_r.
      split_and!; [by destruct (staging_batches st)|by destruct (concat (staging_batches st))|].
      by apply Forall_app_2.
    + cbn. rewrite concat_app. simpl. by rewrite app_nil_r, <-!app_assoc.
Qed.

Lemma stream_partitions_ok pre st batches :
  has_partition ctx = true → staged pre st →
  input_ok (pre ++ concat (staging_batches st) ++ concat batches) →
  stream_partitions ctx st (Ok <$> batches)
    = (outputs ctx vals pre (runs part (concat (staging_batches st) ++ concat batches)), Ok tt).
Proof.
  intros Hp. revert pre st; induction batches as [|b bs IH]; intros pre st Hst Hi.
  - cbn [fmap list_fmap stream_partitions concat] in *. rewrite app_nil_r in *.
    destruct Hst as [Hps Hcur]. destruct (current_partition st) as [k|].
    + destruct Hcur as (Hs & Hcs & Hall).
      assert (Hr : is_run part (concat (staging_batches st)) []) by (by eapply constant_is_run).
      destruct (flush_window_ok pre (processors st) (staging_batches st)) as (ps' & -> & _); [done..|].
      by rewrite (run_single _ Hr).
    + rewrite Hcur. unfold flush_window_batches. by rewrite decide_True.
  - rewrite fmap_cons. cbn [stream_partitions run concat] in *. case_decide as Hb.
    { subst b. by apply IH. }
    rewrite (partition_rows_ok part) by done. cbn [run].
    apply (partition_slices_ok b (concat bs) _ Hp) with (done := []) (fuel := length b); [|done|lia|done|done].
    intros pre' st' Hst' Hi'. by apply IH.
Qed.

End Loops.

(** The processors of all expressions, ready for the first row. *)
Lemma create_processors_ok full ctx `{!ContextOk part ctx} exprs vals :
  Forall2 (expr_means ctx) exprs vals →
  (∀ e, e ∈ exprs → expr_requires_full_partition e = true → full = true) →
  ∃ ps invs, rmapM create_processor exprs = Ok ps ∧ Forall2 (proc_step full ctx) invs vals ∧ fit invs [] ps.
Proof.
  induction 1 as [|e v exprs vals He _ IH]; intros Hf.
  - exists [], []. unfold fit. by split_and!.
  - destruct IH as (ps & invs & Hps & Hinv & Hfit); [intros; eapply Hf; [by right|done]|].
    destruct (expr_processes full ctx e v He) as (p & Hp & inv & Hi & Hs); [apply Hf; by left|].
    exists (p :: ps), (inv :: invs). simpl. rewrite Hp, Hps. split_and!; [done|by constructor|by constructor].
Qed.

Lemma requires_full_elem exprs e :
  e ∈ exprs → expr_requires_full_partition e = true → requires_full_partition exprs = true.
Proof. intros He Hf. apply existsb_exists. exists e. split; [by apply list_elem_of_In|done]. Qed.


(** Without a PARTITION BY there are no partition rows (arrow converts no columns to no
    rows), but cume_dist indexes them: the task panics. *)
Lemma cume_dist_without_partition_panics ctx `{!OrderOk ord ctx} cs o batches :
  has_partition ctx = false → (∀ b, get_partition_rows ctx b = Ok []) → concat batches ≠ [] →
  execute_window ctx [mkWindowExpr CumeDist cs o] (Ok <$> batches) = ([], Panic).
Proof.
  intros Hp Hr Hne. unfold execute_window. cbn [rmapM create_processor func mbind Result_bind run requires_full_partition existsb expr_requires_full_partition orb].
  rewrite Hp. cbn [mret Result_ret run negb]. rewrite stage_all_ok. cbn [app]. unfold flush_window_batches. rewrite decide_False by by intros ->.
  unfold process_window_batch. cbn [process_columns process_batch]. unfold cume_dist_process.
  rewrite Hr, (order_rows_ok ord). cbn [mbind Result_bind]. destruct (concat batches) as [|r rows]; [done|].
  cbn [length rwhile]. by rewrite bool_decide_true by (cbn; lia).
Qed.

(** ** Group limits *)

Definition rank_like_spec (t : WindowRankType) : list Row → Row → Z :=
  match t with
  | RowNumber => row_number_spec part
  | Rank => rank_spec part ord
  | DenseRank => dense_rank_spec part ord
  end.

(** The rows within the limit, with their values. *)
Definition kept (t : WindowRankType) (limit : Z) (pre rows : list Row) : list (Row * Z) :=
  filter (λ p, p.2 ≤ limit) (zip rows (running (rank_like_spec t) pre rows)).

Lemma filter_by_rows (limit : Z) (rows : list Row) (vs : list Z) :
  length rows = length vs →
  filter_by ((λ v, bool_decide (v ≤ limit)) <$> vs) rows = fst <$> filter (λ p, p.2 ≤ limit) (zip rows vs) ∧
  filter_by ((λ v, bool_decide (v ≤ limit)) <$> vs) (Int32 <$> vs : Column)
    = (λ p, Int32 p.2) <$> filter (λ p, p.2 ≤ limit) (zip rows vs).
Proof.
  unfold filter_by. revert vs; induction rows as [|r rows IH]; intros [|v vs] Hl; try done.
  injection Hl as Hl. destruct (IH vs Hl) as [IH1 IH2].
  rewrite !fmap_cons. cbn [zip_with]. rewrite !filter_cons. cbn [fst snd].
  destruct (decide (v ≤ limit)) as [Hv|Hv].
  - rewrite (bool_decide_true (v ≤ limit)) by done. rewrite !(decide_True (P := true = true)) by done.
    rewrite !fmap_cons, IH1, IH2. done.
  - rewrite (bool_decide_false (v ≤ limit)) by done. rewrite !(decide_False (P := false = true)) by done.
    by rewrite IH1, IH2.
Qed.

Lemma within_limit_ok limit vs :
  in_s 32 limit →
  rmapM (within_limit limit) (Int32 <$> vs : Column) = Ok ((λ v, bool_decide (v ≤ limit)) <$> vs).
Proof.
  intros Hl. apply rmapM_Ok. apply Forall2_fmap_l, Forall2_fmap_r. apply Forall_Forall2_diag, Forall_true. intros v.
  simpl. unfold i32. by rewrite wraps_id.
Qed.

Lemma kept_app t limit pre l1 l2 :
  kept t limit pre (l1 ++ l2) = kept t limit pre l1 ++ kept t limit (pre ++ l1) l2.
Proof.
  unfold kept. rewrite running_app, zip_with_app by by rewrite length_running. by rewrite filter_app.
Qed.

Lemma rank_like_means ctx `{!OrderOk ord ctx} t cs o :
  expr_means ctx (mkWindowExpr (RankLike t) cs o)
    (λ pre rows, Int32 <$> running (rank_like_spec t) pre rows).
Proof. destruct t; by constructor. Qed.

Lemma stream_limited_ok ctx `{!ContextOk part ctx} t limit inv pre p batches :
  group_limit ctx = Some limit → in_s 32 limit →
  proc_step false ctx inv (λ pre rows, Int32 <$> running (rank_like_spec t) pre rows) →
  input_ok (pre ++ concat batches) → inv pre p →
  ∃ outs, stream_batches ctx [p] (Ok <$> batches) = (outs, Ok tt) ∧
    concat (fst <$> outs) = fst <$> kept t limit pre (concat batches) ∧
    concat ((λ out, concat out.2) <$> outs) =
      (if output_window_cols ctx then (λ p, Int32 p.2) <$> kept t limit pre (concat batches) else []).
Proof.
  intros Hl Hlim Hs. revert pre p; induction batches as [|b bs IH]; intros pre p Hi HI.
  { exists []. split_and!; [done|done|]. by destruct (output_window_cols ctx). }
  rewrite fmap_cons. cbn [stream_batches run concat] in *. rewrite app_assoc in Hi.
  destruct (Hs pre b p) as (p' & Hp & HI'); [by eapply input_ok_prefix|done|done|].
  destruct (IH (pre ++ b) p' Hi HI') as (outs & Ho & Hr & Hc).
  unfold process_window_batch. cbn [process_columns]. rewrite Hp. cbn [mbind Result_bind]. rewrite Hl.
  rewrite within_limit_ok by done. cbn [mbind Result_bind run]. rewrite Ho.
  destruct (filter_by_rows limit b (running (rank_like_spec t) pre b)) as [-> ->]; [by rewrite length_running|].
  eexists. split; [done|]. rewrite kept_app, fmap_app. cbn [fst snd send fmap list_fmap concat].
  fold (kept t limit pre b). split; [by f_equal|]. cbn [fmap list_fmap] in Hc. rewrite Hc.
  destruct (output_window_cols ctx); simpl; [by rewrite app_nil_r, fmap_app|done].
Qed.

(** With a group limit and one rank-like function the window operator sends exactly the
    rows whose row number, rank or dense rank is at most the limit, in order and with
    these values. *)
Theorem window_group_limit_correct ctx `{!ContextOk part ctx, !OrderOk ord ctx} t cs o limit batches :
  group_limit ctx = Some limit → in_s 32 limit → input_ok (concat batches) →
  ∃ outs, execute_window ctx [mkWindowExpr (RankLike t) cs o] (Ok <$> batches) = (outs, Ok tt) ∧
    concat (fst <$> outs) = fst <$> kept t limit [] (concat batches) ∧
    concat ((λ out, concat out.2) <$> outs) =
      (if output_window_cols ctx then (λ p, Int32 p.2) <$> kept t limit [] (concat batches) else []).
Proof.
  intros Hl Hlim Hi. unfold execute_window.
  destruct (create_processors_ok false ctx [mkWindowExpr (RankLike t) cs o]
    [λ pre rows, Int32 <$> running (rank_like_spec t) pre rows]) as (ps & invs & -> & Hs & Hfit).
  { repeat constructor. by apply rank_like_means. }
  { intros e ->%list_elem_of_singleton. done. }
  cbn [run]. inversion Hs as [|inv ? ? ? Hstep Hnil]; subst. inversion Hnil; subst.
  inversion Hfit as [|? p ? ? Hp Hnil']; subst. inversion Hnil'; subst.
  cbn [requires_full_partition existsb expr_requires_full_partition func orb].
  by eapply stream_limited_ok.
Qed.

(** With a group limit and more than one window expression the first batch makes the
    task panic. *)
Theorem window_group_limit_needs_one_column ctx `{!ContextOk part ctx} exprs vals batch batches limit :
  group_limit ctx = Some limit → Forall2 (expr_means ctx) exprs vals →
  requires_full_partition exprs = false → (1 < length exprs)%nat → input_ok batch →
  execute_window ctx exprs (Ok <$> batch :: batches) = ([], Panic).
Proof.
  intros Hl Hm Hf Hlen Hi. unfold execute_window.
  destruct (create_processors_ok (requires_full_partition exprs) ctx exprs vals Hm)
    as (ps & invs & -> & Hs & Hfit); [apply requires_full_elem|]. rewrite Hf in *. cbn [run].
  rewrite fmap_cons. cbn [stream_batches run]. unfold process_window_batch.
  destruct (process_columns_ok false ctx invs vals Hs [] batch ps) as (ps' & -> & _); [done|done|done|].
  cbn [mbind Result_bind]. rewrite Hl. apply Forall2_length in Hm.
  destruct vals as [|v1 [|v2 vals]]; simpl in *; [lia|lia|done].
Qed.

End WindowExec.

(** ** A run

    Rows are pairs of a partition key and an order key. *)
Module WindowSample.

Local Abbreviation Row := (Z * Z)%type.

(** Encoded rows are compared byte by byte. *)
Fixpoint bytes_le (a b : bytes) : Prop :=
  match a, b with
  | [], _ => True
  | _ :: _, [] => False
  | x :: a, y :: b => x < y ∨ (x = y ∧ bytes_le a b)
  end.

#[local] Instance bytes_le_dec : RelDecision bytes_le.
Proof.
  refine (fix go a b := match a, b return Decision (bytes_le a b) with
    | [], _ => left I
    | _ :: _, [] => right (λ f, f)
    | x :: a, y :: b => or_dec _ (and_dec _ (go a b))
    end).
Defined.

#[local] Instance bytes_le_refl : Reflexive bytes_le.
Proof. intros a. induction a; simpl; auto. Qed.

#[local] Instance bytes_le_antisymm : AntiSymm (=) bytes_le.
Proof.
  intros a. induction a as [|x a IH]; intros [|y b]; simpl; try done.
  intros [?|[-> ?]] [?|[? ?]]; try lia. f_equal. by apply IH.
Qed.

Definition part (r : Row) : bytes := [1; r.1].
Definition ord (r : Row) : bytes := [1; r.2].

Definition sample_ctx (limit : option Z) : @WindowContext Row :=
  mkWindowContext true (λ b, Ok (part <$> b)) (λ b, Ok (ord <$> b)) limit true.

#[local] Instance sample_ctx_ok limit : ContextOk part (sample_ctx limit).
Proof. split; [by eexists|done|done]. Qed.

#[local] Instance sample_order_ok limit : OrderOk ord (sample_ctx limit).
Proof. by split. Qed.

(** Counting all rows. *)
Definition count_agg : @Agg Row (option Z) Z :=
  mkAgg [] 0 (λ acc _ _, Ok (acc + 1)) (λ acc, Ok (acc, Some acc)).

#[local] Instance count_agg_ok : AggOk count_agg (λ acc _, acc + 1) Some.
Proof. split; [by eexists|done|done]. Qed.

Definition order_value (b : list Row) : Result (list (option Z)) := Ok ((λ r, Some r.2) <$> b).
Definition constant (v : option Z) (b : list Row) : Result (list (option Z)) := Ok (replicate (length b) v).

Lemma sample_lead : LeadArgs (Row := Row) (λ l, Ok l) (λ l, Ok l)
  order_value (constant (Some 1)) (λ b, Ok ((λ _, None) <$> b)) (λ r, Some r.2) (λ _, None) 1.
Proof. split; [done|done|done|]. unfold in_s. lia. Qed.

Definition rank_exprs : list (@WindowExpr Row (option Z) Z) :=
  [mkWindowExpr (RankLike Rank) [] None; mkWindowExpr (AggFunction count_agg) [] None;
   mkWindowExpr (NthValue false) [order_value; constant (Some 2)] (Some (Some 2))].

Definition exprs : list (@WindowExpr Row (option Z) Z) :=
  rank_exprs ++
  [mkWindowExpr (RankLike DenseRank) [] None; mkWindowExpr PercentRank [] None; mkWindowExpr CumeDist [] None;
   mkWindowExpr Lead [order_value; constant (Some 1); λ b, Ok ((λ _, None) <$> b)] None].

Definition sample_batches : list (list Row) := [[(1, 10); (1, 10)]; [(1, 20); (2, 5)]; []; [(2, 5); (2, 7)]].

Definition is_null (v : option Z) : bool := bool_decide (v = None).

Local Abbreviation F := (@pair Z Z).
Local Abbreviation means :=
  (expr_means F (0, 1) is_null None (λ l, Ok l) (λ l, Ok l) part ord bytes_le (sample_ctx None)).

Lemma sample_grouped : grouped part (concat sample_batches).
Proof.
  assert (StronglySorted (λ a b : Row, a.1 ≤ b.1) (concat sample_batches)) as Hs.
  { repeat first [apply SSorted_nil | apply SSorted_cons | apply Forall_nil_2 | apply Forall_cons_2];
      vm_compute; congruence. }
  intros i j k x y z Hijk Hi Hj Hk Hxz. unfold part in *. simplify_eq.
  pose proof (StronglySorted_at _ _ i j x y Hs ltac:(lia) Hi Hj).
  pose proof (StronglySorted_at _ _ j k y z Hs ltac:(lia) Hj Hk). simpl in *.
  do 2 f_equal. lia.
Qed.

Lemma sample_input_ok : input_ok part ord bytes_le (concat sample_batches).
Proof.
  split_and!.
  - split; [apply sample_grouped|done].
  - repeat first [apply SSorted_nil | apply SSorted_cons | apply Forall_nil_2 | apply Forall_cons_2];
      intros Hp; vm_compute in Hp |- *; simplify_eq; intuition lia.
Qed.

Definition rank_vals : list (list Row → list Row → list (@Value (Z * Z) (option Z))) :=
  [λ pre rows, Int32 <$> running (rank_spec part ord) pre rows;
   λ pre rows, AnyScalar <$> running (agg_spec part count_agg (λ acc _, acc + 1) Some) pre rows;
   λ pre rows, AnyScalar <$> running (nth_value_spec part is_null None (λ r, Some r.2) 2 false) pre rows].

Definition all_vals : list (list Row → list Row → list (@Value (Z * Z) (option Z))) :=
  rank_vals ++
  [λ pre rows, Int32 <$> running (dense_rank_spec part ord) pre rows;
   λ _ rows, Float64 <$> percent_rank_values F (0, 1) part ord rows;
   λ _ rows, Float64 <$> cume_dist_values F ord bytes_le rows;
   λ _ rows, AnyScalar <$> lead_values (λ r, Some r.2) (λ _, None) 1 rows].

Lemma sample_rank_means limit :
  Forall2 (expr_means F (0, 1) is_null None (λ l, Ok l) (λ l, Ok l) part ord bytes_le (sample_ctx limit))
    rank_exprs rank_vals.
Proof.
  apply Forall2_cons; split; [apply means_rank, _|].
  apply Forall2_cons; split; [by apply means_agg; apply count_agg_ok|].
  apply Forall2_cons; split; [by apply means_nth_value|apply Forall2_nil_2].
Qed.

Lemma sample_means : Forall2 means exprs all_vals.
Proof.
  apply Forall2_app; [apply sample_rank_means|].
  apply Forall2_cons; split; [apply means_dense_rank, _|].
  apply Forall2_cons; split; [apply means_percent_rank, _|].
  apply Forall2_cons; split; [by apply means_cume_dist; [apply _|]|].
  apply Forall2_cons; split; [by apply means_lead; apply sample_lead|apply Forall2_nil_2].
Qed.

Local Abbreviation execute ctx es bs :=
  (execute_window (Acc := Z) F (0, 1) is_null None (λ l, Ok l) (λ l, Ok l) ctx es (Ok <$> bs)).


(** The same by evaluation: the columns of the first partition. *)
Example window_runs :
  head (execute (sample_ctx None) exprs sample_batches).1 =
  Some ([(1, 10); (1, 10); (1, 20)],
    [[Int32 1; Int32 1; Int32 3]; [AnyScalar (Some 1); AnyScalar (Some 2); AnyScalar (Some 3)];
     [AnyScalar None; AnyScalar (Some 10); AnyScalar (Some 10)]; [Int32 1; Int32 1; Int32 2];
     [Float64 (0, 2); Float64 (0, 2); Float64 (2, 2)]; [Float64 (2, 3); Float64 (2, 3); Float64 (3, 3)];
     [AnyScalar (Some 10); AnyScalar (Some 20); AnyScalar None]]).
Proof. vm_compute. reflexivity. Qed.

(** An empty batch is all that lead has to take its offset from. *)
Example lead_empty_batch_panics :
  execute (mkWindowContext false (λ _, Ok []) (λ b, Ok (ord <$> b)) None true)
    [mkWindowExpr Lead [order_value; constant (Some 1); λ b, Ok ((λ _, None) <$> b)] None] [[]] = ([], Panic).
Proof. vm_compute. reflexivity. Qed.

Lemma window_group_limit_correct_witness :
  ∃ outs, execute (sample_ctx (Some 2)) [mkWindowExpr (RankLike RowNumber) [] None] sample_batches = (outs, Ok tt) ∧
    concat (fst <$> outs) = [(1, 10); (1, 10); (2, 5); (2, 5)].
Proof.
  destruct (window_group_limit_correct (Acc := Z) F (0, 1) is_null None (λ l, Ok l) (λ l, Ok l) part ord bytes_le
    (sample_ctx (Some 2)) RowNumber [] None 2 sample_batches) as (outs & He & Hr & _).
  - reflexivity.
  - unfold in_s. lia.
  - exact sample_input_ok.
  - exists outs. split; [exact He|]. rewrite Hr. vm_compute. reflexivity.
Defined.

Lemma sample_first_batch_ok : input_ok part ord bytes_le [(1, 10); (1, 10)].
Proof. apply (input_ok_prefix part ord bytes_le _ (concat (tail sample_batches))). apply sample_input_ok. Qed.

Lemma window_group_limit_needs_one_column_witness :
  execute (sample_ctx (Some 2)) rank_exprs sample_batches = ([], Panic).
Proof.
  apply (window_group_limit_needs_one_column F (0, 1) is_null None (λ l, Ok l) (λ l, Ok l) part ord bytes_le
    (sample_ctx (Some 2)) rank_exprs rank_vals [(1, 10); (1, 10)] (tail sample_batches) 2).
  - reflexivity.
  - apply sample_rank_means.
  - reflexivity.
  - simpl. lia.
  - exact sample_first_batch_ok.
Defined.

End WindowSample.
