(* ===== verification/BatchSize.v ===== *)
(** * Batch sizes

    native-engine/datafusion-ext-commons/src/lib.rs: how many rows a batch should have, from
    the memory of the rows seen so far.  The configured sizes are arguments.  A suggested
    size is never zero, which the loops that cut batches rely on. *)

From S2P Require Import Prelude.

Definition compute_batch_size_with_target_mem_size (batch_size mem_size num_rows target_mem_size : nat) : nat :=
  let batch_size_min := 20 in
  if decide (num_rows = 0) then batch_size
  else
    let est_mem_size_per_row := (mem_size `max` 16) / (num_rows `max` 1) in
    let est_sub_batch_size := target_mem_size / (est_mem_size_per_row `max` 16) in
    (est_sub_batch_size `min` batch_size) `max` batch_size_min.

Lemma compute_batch_size_pos batch_size mem_size num_rows target :
  0 < batch_size → 0 < compute_batch_size_with_target_mem_size batch_size mem_size num_rows target.
Proof. intros. unfold compute_batch_size_with_target_mem_size. case_decide; lia. Qed.

Definition compute_suggested_batch_size_for_output (batch_size suggested_batch_mem_size mem_size num_rows : nat) : nat :=
  compute_batch_size_with_target_mem_size batch_size mem_size num_rows suggested_batch_mem_size.

Definition compute_suggested_batch_size_for_kway_merge
    (batch_size suggested_kway_merge_batch_mem_size mem_size num_rows : nat) : nat :=
  compute_batch_size_with_target_mem_size batch_size mem_size num_rows suggested_kway_merge_batch_mem_size.
