(* ===== verification/RadixQueue.v ===== *)
(** * The radix queue

    native-engine/datafusion-ext-commons/src/algorithm/rdx_queue.rs: a priority queue for
    values with small integer keys.  The values with key [r] form a linked list of
    positions that starts at [entries[r]] and continues in [node_nexts]; [cur_rdx] is the
    smallest key in use.  [usize::MAX], which marks the end of a list and the key of an
    empty queue, is [None].  The vectors are unchecked, so an index out of range, or the
    end mark used as an index, is [Undef].

    [PeekMut] is modelled by [with_min]: an update of the minimal value through the guard,
    and the adjustment when the guard is dropped.  The invariant gives the linked lists;
    it shows that the value the queue gives out has a smallest key, as long as keys only
    grow. *)

From S2P Require Import Prelude.

Section RadixQueue.
Context {T : Type} (rdx : T → nat).

Record RadixQueue := mkRadixQueue {
  num_keys : nat;
  cur_rdx : option nat;
  values : list T;
  entries : list (option nat);
  node_nexts : list (option nat) }.

Definition min_key (m : option nat) (r : nat) : option nat :=
  match m with None => Some r | Some m => Some (m `min` r) end.

(** One round of the loop of [init_tree]; the state is the queue and [min_rdx]. *)
Definition init_one (st : RadixQueue * option nat) (p : nat * T) : Result (RadixQueue * option nat) :=
  let '(q, min_rdx) := st in
  let rdx := rdx p.2 in
  q ← (if decide (rdx < num_keys q) then
         next ← uindex (entries q) rdx;
         node_nexts ← set_uindex (node_nexts q) p.1 next;
         entries ← set_uindex (entries q) rdx (Some p.1);
         Ok (mkRadixQueue (num_keys q) (cur_rdx q) (values q) entries node_nexts)
       else Ok q);
  Ok (q, min_key min_rdx rdx).

Definition init_tree (q : RadixQueue) : Result RadixQueue :=
  '(q, min_rdx) ← rfoldM init_one (q, None) (enumerate (values q));
  Ok (mkRadixQueue (num_keys q) min_rdx (values q) (entries q) (node_nexts q)).

Definition rq_new (values : list T) (num_keys : nat) : Result RadixQueue :=
  let num_keys := num_keys + 1 in
  init_tree (mkRadixQueue num_keys (Some 0) values (replicate num_keys None) (replicate (length values) None)).

(** [entries.get(cur_rdx).cloned().unwrap_or_default()] as an index of [values]. *)
Definition peek_idx (q : RadixQueue) : Result nat :=
  match cur_rdx q with
  | None => Ok 0
  | Some cur => match entries q !! cur with
                | None => Ok 0
                | Some None => Undef
                | Some (Some i) => Ok i
                end
  end.

Definition peek (q : RadixQueue) : Result T := i ← peek_idx q; uindex (values q) i.

(** The end mark as an index is out of range. *)
Definition entry_idx (e : option nat) : Result nat := match e with Some i => Ok i | None => Undef end.

Definition adjust_tree (q : RadixQueue) : Result RadixQueue :=
  match cur_rdx q with
  | None => Ok q
  | Some old_rdx =>
      if decide (old_rdx < num_keys q) then
        e ← uindex (entries q) old_rdx;
        i ← entry_idx e;
        v ← uindex (values q) i;
        let new_rdx := rdx v in
        if decide (old_rdx < new_rdx) then
          next ← uindex (node_nexts q) i;
          entries ← set_uindex (entries q) old_rdx next;
          '(entries, node_nexts) ←
            (if decide (new_rdx < num_keys q) then
               head ← uindex entries new_rdx;
               node_nexts ← set_uindex (node_nexts q) i head;
               entries ← set_uindex entries new_rdx (Some i);
               Ok (entries, node_nexts)
             else Ok (entries, node_nexts q));
          next_rdx ← rwhileM (num_keys q)
            (λ next_rdx, if decide (next_rdx < num_keys q) then
                           e ← uindex entries next_rdx; Ok (bool_decide (e = None))
                         else Ok false)
            (λ next_rdx, Ok (next_rdx + 1)) old_rdx;
          Ok (mkRadixQueue (num_keys q) (Some next_rdx) (values q) entries node_nexts)
        else Ok q
      else Ok q
  end.

(** A use of [peek_mut] that changes the value. *)
Definition with_min {A} (q : RadixQueue) (f : T → Result (T * A)) : Result (RadixQueue * A) :=
  i ← peek_idx q;
  v ← uindex (values q) i;
  '(v, a) ← f v;
  values ← set_uindex (values q) i v;
  q ← adjust_tree (mkRadixQueue (num_keys q) (cur_rdx q) values (entries q) (node_nexts q));
  Ok (q, a).

(** ** The invariant *)

(** The positions of a list that starts at [h]. *)
Fixpoint linked (nexts : list (option nat)) (h : option nat) (l : list nat) : Prop :=
  match l with
  | [] => h = None
  | i :: l => h = Some i ∧ ∃ n, nexts !! i = Some n ∧ linked nexts n l
  end.

Record chains_ok (q : RadixQueue) (chains : list (list nat)) : Prop := {
  ch_keys : length chains = num_keys q;
  ch_entries : length (entries q) = num_keys q;
  ch_nexts : length (node_nexts q) = length (values q);
  ch_linked : ∀ r l, chains !! r = Some l → ∃ h, entries q !! r = Some h ∧ linked (node_nexts q) h l;
  ch_nodup : ∀ r l, chains !! r = Some l → NoDup l;
  ch_values : ∀ r l i, chains !! r = Some l → i ∈ l → ∃ v, values q !! i = Some v ∧ rdx v = r }.

Record rq_inv (q : RadixQueue) : Prop := {
  inv_chains : ∃ chains, chains_ok q chains ∧
    (∀ i v, values q !! i = Some v → ∃ l, chains !! rdx v = Some l ∧ i ∈ l) ∧
    ∃ c i l, cur_rdx q = Some c ∧ chains !! c = Some (i :: l) ∧ ∀ r l, r < c → chains !! r = Some l → l = [] }.

(** ** Lemmas *)

Lemma linked_lt nexts h l i : linked nexts h l → i ∈ l → i < length nexts.
Proof.
  revert h; induction l as [|j l IH]; intros h Hl Hi; [set_solver|]. destruct Hl as (_ & n & Hn & Hl).
  apply elem_of_cons in Hi as [->|Hi]; [by eapply lookup_lt_Some|by eapply IH].
Qed.

Lemma linked_insert nexts h l i x : i ∉ l → linked nexts h l → linked (<[i := x]> nexts) h l.
Proof.
  revert h; induction l as [|j l IH]; intros h Hi Hl; [done|]. destruct Hl as (-> & n & Hn & Hl).
  split; [done|]. exists n. rewrite list_lookup_insert_ne by set_solver. split; [done|]. apply IH; [set_solver|done].
Qed.

(** Putting position [i] in front of the list of key [r]. *)
Lemma link_ok q chains i v r l h :
  chains_ok q chains → values q !! i = Some v → rdx v = r → chains !! r = Some l → entries q !! r = Some h →
  (∀ r l, chains !! r = Some l → i ∉ l) →
  chains_ok (mkRadixQueue (num_keys q) (cur_rdx q) (values q) (<[r := Some i]> (entries q)) (<[i := h]> (node_nexts q)))
    (<[r := i :: l]> chains).
Proof.
  intros [Hk He Hn Hlk Hnd Hv] Hi Hr Hl Hh Hnew. pose proof (lookup_lt_Some _ _ _ Hl) as Hrl.
  pose proof (lookup_lt_Some _ _ _ Hi) as Hil.
  assert (Hcase : ∀ r' l', <[r := i :: l]> chains !! r' = Some l' → (r' = r ∧ l' = i :: l) ∨ (r' ≠ r ∧ chains !! r' = Some l')).
  { intros r' l' H. destruct (decide (r' = r)) as [->|Hne].
    - rewrite list_lookup_insert_eq in H by done. left. by injection H as <-.
    - rewrite list_lookup_insert_ne in H by done. by right. }
  split; cbn; rewrite ?length_insert; try done.
  - intros r' l' [[-> ->]|[Hne Hl']]%Hcase.
    + rewrite list_lookup_insert_eq by (rewrite He, <- Hk; done). eexists. split; [done|]. split; [done|].
      exists h. rewrite list_lookup_insert_eq by (by rewrite Hn). split; [done|].
      apply linked_insert; [by eapply Hnew|]. destruct (Hlk r l Hl) as (h' & Hh' & Hll). congruence.
    + rewrite list_lookup_insert_ne by done. destruct (Hlk r' l' Hl') as (h' & Hh' & Hll). exists h'. split; [done|].
      apply linked_insert; [by eapply Hnew|done].
  - intros r' l' [[-> ->]|[Hne Hl']]%Hcase; [|by eapply Hnd].
    apply NoDup_cons. split; [by eapply Hnew|by eapply Hnd].
  - intros r' l' j [[-> ->]|[Hne Hl']]%Hcase Hj; [|by eapply Hv].
    apply elem_of_cons in Hj as [->|Hj]; [by exists v|by eapply Hv].
Qed.

(** The state of [init_tree] after the first [j] values. *)
Definition init_inv (vs : list T) (n : nat) (st : RadixQueue * option nat) (rest : list (nat * T)) : Prop :=
  ∃ j chains, rest = drop j (enumerate vs) ∧ j ≤ length vs ∧ values st.1 = vs ∧ num_keys st.1 = n ∧
    chains_ok st.1 chains ∧ (∀ r l i, chains !! r = Some l → i ∈ l → i < j) ∧
    (∀ i v, i < j → vs !! i = Some v → ∃ l, chains !! rdx v = Some l ∧ i ∈ l) ∧
    match st.2 with
    | None => j = 0
    | Some m => (∃ i v, i < j ∧ vs !! i = Some v ∧ rdx v = m) ∧ ∀ i v, i < j → vs !! i = Some v → m ≤ rdx v
    end.

Lemma init_one_ok vs n st p rest :
  Forall (λ v, rdx v < n) vs → init_inv vs n st (p :: rest) → ∃ st', init_one st p = Ok st' ∧ init_inv vs n st' rest.
Proof.
  destruct st as [q m]. intros Hvs (j & chains & Hrest & Hj & Hq & Hn & Hch & Hlt & Hin & Hmin). cbn [fst snd] in *.
  assert (Hp : enumerate vs !! j = Some p) by (by rewrite <- (Nat.add_0_r j), <- lookup_drop, <- Hrest).
  rewrite lookup_enumerate in Hp. apply fmap_Some in Hp as (v & Hv & ->).
  assert (Hr : rdx v < n) by (by eapply Forall_lookup_1 in Hvs). unfold init_one. cbn [fst snd].
  rewrite Hn, decide_True by done. pose proof (lookup_lt_Some _ _ _ Hv) as Hjl. pose proof Hch as [Hk He Hnx _ _ _].
  destruct (lookup_lt_is_Some_2 (entries q) (rdx v)) as [h Hh]; [lia|].
  destruct (lookup_lt_is_Some_2 chains (rdx v)) as [l Hl]; [lia|].
  rewrite (proj2 (uindex_Ok _ _ _) Hh). cbn [mbind Result_bind].
  rewrite (set_uindex_Ok (node_nexts q)) by (rewrite Hnx, Hq; done). cbn [mbind Result_bind].
  rewrite set_uindex_Ok by lia. cbn [mbind Result_bind]. eexists. split; [done|].
  exists (S j), (<[rdx v := j :: l]> chains). cbn [fst snd values num_keys]. split_and!; [| |done|done| | | |].
  - assert (drop j (enumerate vs) = (j, v) :: rest) as E by done.
    rewrite <- (skipn_skipn 1 j), E. done.
  - lia.
  - rewrite <- Hn. eapply link_ok; [done|by rewrite Hq|done..|]. intros r l' Hl' Hjin.
    specialize (Hlt r l' j Hl' Hjin). lia.
  - intros r l' i Hl' Hi. destruct (decide (r = rdx v)) as [->|Hne].
    + rewrite list_lookup_insert_eq in Hl' by lia. injection Hl' as <-. apply elem_of_cons in Hi as [->|Hi]; [lia|].
      specialize (Hlt _ _ _ Hl Hi). lia.
    + rewrite list_lookup_insert_ne in Hl' by done. specialize (Hlt _ _ _ Hl' Hi). lia.
  - intros i w Hi Hw. destruct (decide (rdx w = rdx v)) as [E|Hne].
    + rewrite E, list_lookup_insert_eq by lia. eexists. split; [done|]. destruct (decide (i = j)) as [->|]; [left|].
      right. destruct (Hin i w) as (l' & Hl' & Hil'); [lia|done|]. congruence.
    + rewrite list_lookup_insert_ne by done. apply Hin; [|done]. assert (i ≠ j) by (intros ->; congruence). lia.
  - destruct m as [m|]; cbn [min_key].
    + destruct Hmin as [(i0 & v0 & Hi0 & Hv0 & Hm0) Hle]. split.
      * destruct (Nat.min_spec m (rdx v)) as [[_ ->]|[_ ->]]; [exists i0, v0; split_and!; [lia|done..]|exists j, v; split_and!; [lia|done..]].
      * intros i w Hi Hw. destruct (decide (i = j)) as [->|]; [assert (w = v) as -> by congruence; lia|].
        specialize (Hle i w ltac:(lia) Hw). lia.
    + subst j. split; [exists 0, v; split_and!; [lia|done..]|]. intros i w Hi Hw. assert (i = 0) as -> by lia.
      assert (w = v) as -> by congruence. done.
Qed.

Lemma rq_new_ok vs n :
  vs ≠ [] → Forall (λ v, rdx v ≤ n) vs →
  ∃ q, rq_new vs n = Ok q ∧ values q = vs ∧ num_keys q = n + 1 ∧ rq_inv q.
Proof.
  intros Hne Hvs. unfold rq_new, init_tree. cbn [values].
  assert (Hvs' : Forall (λ v, rdx v < n + 1) vs) by (eapply Forall_impl; [exact Hvs|]; intros; cbn in *; lia).
  destruct (rfoldM_inv (init_inv vs (n + 1)) init_one
    (mkRadixQueue (n + 1) (Some 0) vs (replicate (n + 1) None) (replicate (length vs) None), None) (enumerate vs))
    as ([q m] & -> & j & chains & Hrest & Hj & Hq & Hn & Hch & Hlt & Hin & Hmin).
  { exists 0, (replicate (n + 1) []). rewrite drop_0. split_and!; try done; [lia| | |].
    - split; cbn; rewrite ?length_replicate; try done.
      + intros r l [-> Hr]%lookup_replicate. exists None. split; [by apply lookup_replicate|done].
      + intros r l [-> Hr]%lookup_replicate. apply NoDup_nil_2.
      + intros r l i [-> Hr]%lookup_replicate. set_solver.
    - intros r l i [-> Hr]%lookup_replicate. set_solver.
    - intros. lia. }
  { intros st p rest Hi. by apply init_one_ok. }
  cbn [fst snd mbind Result_bind] in *. eexists. split; [done|]. cbn [values num_keys]. split; [done|]. split; [done|].
  assert (Hjl : j = length vs).
  { destruct (decide (j < length vs)); [|lia]. apply (f_equal length) in Hrest.
    rewrite length_drop, length_enumerate in Hrest. cbn in Hrest. lia. }
  destruct m as [m|]; [|destruct vs; [done|cbn in *; lia]]. destruct Hmin as [(i0 & v0 & Hi0 & Hv0 & Hm) Hle].
  split. exists chains. split; [by destruct Hch; split|]. cbn [values cur_rdx]. split.
  { intros i v Hv. apply Hin; [|by rewrite <- Hq]. subst j. rewrite <- Hq. by eapply lookup_lt_Some. }
  destruct (Hin i0 v0 Hi0 Hv0) as (l0 & Hl0 & Hin0). subst m. destruct l0 as [|i l]; [set_solver|].
  exists (rdx v0), i, l. split_and!; [done..|]. intros r l' Hr Hl'. destruct l' as [|i' l']; [done|].
  destruct Hch as [_ _ _ _ _ Hv]. destruct (Hv r _ i' Hl' ltac:(left)) as (w & Hw & Hrw). rewrite Hq in Hw.
  specialize (Hle i' w). apply lookup_lt_Some in Hw as Hi'. specialize (Hle ltac:(lia) Hw). lia.
Qed.

(** The value the queue gives out has a smallest key. *)
Lemma peek_idx_ok q :
  rq_inv q → ∃ i v, peek_idx q = Ok i ∧ values q !! i = Some v ∧ cur_rdx q = Some (rdx v) ∧
    ∀ w, w ∈ values q → rdx v ≤ rdx w.
Proof.
  intros [(chains & Hch & Hin & c & i & l & Hc & Hl & Hempty)].
  destruct Hch as [Hk He Hn Hlk Hnd Hv]. destruct (Hlk c _ Hl) as (h & Hh & -> & _).
  destruct (Hv c _ i Hl ltac:(left)) as (v & Hvi & <-). exists i, v. split_and!; [|done|done|].
  - unfold peek_idx. by rewrite Hc, Hh.
  - intros w [j Hj]%list_elem_of_lookup. destruct (Hin j w Hj) as (l' & Hl' & Hjl').
    destruct (decide (rdx w < rdx v)) as [Hlt|]; [|lia]. specialize (Hempty _ l' Hlt Hl'). set_solver.
Qed.

Lemma peek_ok q : rq_inv q → ∃ v, peek q = Ok v ∧ v ∈ values q ∧ ∀ w, w ∈ values q → rdx v ≤ rdx w.
Proof.
  intros Hq. destruct (peek_idx_ok q Hq) as (i & v & Hi & Hv & _ & Hmin). exists v. unfold peek. rewrite Hi. cbn.
  rewrite (proj2 (uindex_Ok _ _ _) Hv). split_and!; [done|by eapply list_elem_of_lookup_2|done].
Qed.

(** Taking the first position off the list of the smallest key. *)
Lemma unlink_ok q chains c i l v' n :
  chains_ok q chains → chains !! c = Some (i :: l) → node_nexts q !! i = Some n →
  chains_ok (mkRadixQueue (num_keys q) (cur_rdx q) (<[i := v']> (values q)) (<[c := n]> (entries q)) (node_nexts q))
    (<[c := l]> chains) ∧ ∀ r l', <[c := l]> chains !! r = Some l' → i ∉ l'.
Proof.
  intros [Hk He Hn Hlk Hnd Hv] Hl Hni. pose proof (lookup_lt_Some _ _ _ Hl) as Hcl.
  assert (Hcase : ∀ r' l', <[c := l]> chains !! r' = Some l' → (r' = c ∧ l' = l) ∨ (r' ≠ c ∧ chains !! r' = Some l')).
  { intros r' l' H. destruct (decide (r' = c)) as [->|Hne].
    - rewrite list_lookup_insert_eq in H by done. left. by injection H as <-.
    - rewrite list_lookup_insert_ne in H by done. by right. }
  assert (Hnot : ∀ r l', <[c := l]> chains !! r = Some l' → i ∉ l').
  { intros r l' [[-> ->]|[Hne Hl']]%Hcase Hi.
    - specialize (Hnd c _ Hl). apply NoDup_cons in Hnd as [? _]. done.
    - destruct (Hv _ _ i Hl ltac:(left)) as (v1 & Hv1 & <-). destruct (Hv _ _ i Hl' Hi) as (v2 & Hv2 & <-). congruence. }
  split; [|done]. split; cbn; rewrite ?length_insert; try done.
  - intros r l' [[-> ->]|[Hne Hl']]%Hcase.
    + rewrite list_lookup_insert_eq by lia. exists n. split; [done|].
      destruct (Hlk c _ Hl) as (h & _ & _ & n' & Hn' & Hlk'). congruence.
    + rewrite list_lookup_insert_ne by done. by apply Hlk.
  - intros r l' [[-> ->]|[Hne Hl']]%Hcase; [|by eapply Hnd].
    specialize (Hnd c _ Hl). by apply NoDup_cons in Hnd as [_ ?].
  - intros r l' j Hl' Hj. pose proof (Hnot r l' Hl') as Hi.
    rewrite list_lookup_insert_ne by (intros ->; done).
    destruct (Hcase _ _ Hl') as [[-> ->]|[Hne Hl'']]; [eapply Hv; [done|by right]|by eapply Hv].
Qed.

(** The next key in use. *)
Lemma forward_ok (es : list (option nat)) n c r j :
  length es = n → c ≤ r → es !! r = Some (Some j) →
  ∃ c' j', rwhileM n (λ next_rdx, if decide (next_rdx < n) then e ← uindex es next_rdx; Ok (bool_decide (e = None)) else Ok false)
      (λ next_rdx, Ok (next_rdx + 1)) c = Ok c' ∧ c ≤ c' ≤ r ∧ es !! c' = Some (Some j') ∧
    ∀ k, c ≤ k < c' → es !! k = Some None.
Proof.
  intros Hl Hcr Hr. pose proof (lookup_lt_Some _ _ _ Hr) as Hrl.
  match goal with |- context [rwhileM n ?F ?G] => set (cond := F); set (body := G) end.
  assert (Hcond : ∀ s, s ≤ r → ∃ e, es !! s = Some e ∧ cond s = Ok (bool_decide (e = None))).
  { intros s Hs. destruct (lookup_lt_is_Some_2 es s) as [e He]; [lia|]. exists e. split; [done|].
    unfold cond. rewrite decide_True by lia. by rewrite (proj2 (uindex_Ok _ _ _) He). }
  destruct (rwhileM_inv (λ s, c ≤ s ≤ r ∧ ∀ k, c ≤ k < s → es !! k = Some None) (λ s, r - s) cond body n c)
    as (c' & Hw & [Hc' Hall] & Hf).
  - split; [lia|]. intros. lia.
  - lia.
  - intros s [Hs Hall]. destruct (Hcond s ltac:(lia)) as (e & He & Hc). exists (bool_decide (e = None)). split; [done|].
    intros ->%bool_decide_eq_true. exists (s + 1). split; [done|].
    assert (s ≠ r) by (intros ->; congruence). split; [|lia]. split; [lia|].
    intros k Hk. destruct (decide (k = s)) as [->|]; [done|]. apply Hall. lia.
  - destruct (Hcond c' ltac:(lia)) as (e & He & Hc). rewrite Hc in Hf. injection Hf as Hf.
    apply bool_decide_eq_false in Hf. destruct e as [j'|]; [|done]. exists c', j'. by split_and!; try lia.
Qed.

(** A position that moves to another list; the others stay. *)
Lemma moved_in (vs : list T) (chains : list (list nat)) c i l l' v' :
  (∀ j w, vs !! j = Some w → ∃ lj, chains !! rdx w = Some lj ∧ j ∈ lj) → chains !! c = Some (i :: l) →
  chains !! rdx v' = Some l' → c ≠ rdx v' → i < length vs →
  ∀ j w, <[i := v']> vs !! j = Some w → ∃ lj, <[rdx v' := i :: l']> (<[c := l]> chains) !! rdx w = Some lj ∧ j ∈ lj.
Proof.
  intros Hin Hl Hl' Hne Hi j w Hj. pose proof (lookup_lt_Some _ _ _ Hl). pose proof (lookup_lt_Some _ _ _ Hl').
  destruct (decide (j = i)) as [->|Hji].
  { rewrite list_lookup_insert_eq in Hj by done. injection Hj as <-. exists (i :: l'). split; [|left].
    apply list_lookup_insert_eq. by rewrite length_insert. }
  rewrite list_lookup_insert_ne in Hj by done. destruct (Hin j w Hj) as (lj & Hlj & Hjlj).
  destruct (decide (rdx w = rdx v')) as [E|E1].
  { rewrite E, list_lookup_insert_eq by (by rewrite length_insert). eexists. split; [done|]. right. congruence. }
  rewrite list_lookup_insert_ne by done. destruct (decide (rdx w = c)) as [E|E2].
  { rewrite E, list_lookup_insert_eq by done. eexists. split; [done|]. rewrite E, Hl in Hlj. injection Hlj as <-.
    by apply elem_of_cons in Hjlj as [->|?]. }
  rewrite list_lookup_insert_ne by done. eauto.
Qed.

(** Replacing a value by one with the same key. *)
Lemma same_key_inv q i v v' :
  rq_inv q → values q !! i = Some v → rdx v' = rdx v →
  rq_inv (mkRadixQueue (num_keys q) (cur_rdx q) (<[i := v']> (values q)) (entries q) (node_nexts q)).
Proof.
  intros [(chains & [Hk He Hn Hlk Hnd Hvs] & Hin & Hcur)] Hv Heq. pose proof (lookup_lt_Some _ _ _ Hv) as Hil.
  assert (Hv' : <[i := v']> (values q) !! i = Some v') by (by apply list_lookup_insert_eq).
  split. exists chains. split; [split; cbn; rewrite ?length_insert; try done|cbn [values cur_rdx]; split; [|done]].
  - intros r l' j Hl' Hj. destruct (decide (j = i)) as [->|Hji]; [|by rewrite list_lookup_insert_ne by done; eapply Hvs].
    rewrite Hv'. exists v'. split; [done|]. destruct (Hvs r l' i Hl' Hj) as (v1 & Hv1 & <-). congruence.
  - intros j w Hj. destruct (decide (j = i)) as [->|Hji].
    + rewrite Hv' in Hj. injection Hj as <-. rewrite Heq. by apply Hin.
    + rewrite list_lookup_insert_ne in Hj by done. by apply Hin.
Qed.

Lemma with_min_ok {A} q (f : T → Result (T * A)) i v v' a :
  rq_inv q → peek_idx q = Ok i → values q !! i = Some v → f v = Ok (v', a) → rdx v ≤ rdx v' < num_keys q →
  ∃ q', with_min q f = Ok (q', a) ∧ rq_inv q' ∧ values q' = <[i := v']> (values q) ∧ num_keys q' = num_keys q.
Proof.
  intros [(chains & Hch & Hin & c & i' & l & Hc & Hl & Hempty)] Hi Hv Hf Hle.
  pose proof Hch as [Hk He Hn Hlk Hnd Hvs]. destruct (Hlk c _ Hl) as (h & Hh & -> & n & Hni & Hnl).
  assert (i' = i) as -> by (unfold peek_idx in Hi; rewrite Hc, Hh in Hi; by injection Hi).
  destruct (Hvs c _ i Hl ltac:(left)) as (v0 & Hv0 & Hr0). assert (v0 = v) as -> by congruence.
  pose proof (lookup_lt_Some _ _ _ Hv) as Hil. pose proof (lookup_lt_Some _ _ _ Hl) as Hcl.
  unfold with_min. rewrite Hi. cbn [mbind Result_bind]. rewrite (proj2 (uindex_Ok _ _ _) Hv). cbn [mbind Result_bind].
  rewrite Hf. cbn [mbind Result_bind]. rewrite set_uindex_Ok by done. cbn [mbind Result_bind].
  assert (Hv' : <[i := v']> (values q) !! i = Some v') by (by apply list_lookup_insert_eq).
  unfold adjust_tree. cbn [cur_rdx num_keys entries values node_nexts]. rewrite Hc, decide_True by lia.
  rewrite (proj2 (uindex_Ok _ _ _) Hh). cbn [mbind Result_bind entry_idx]. rewrite (proj2 (uindex_Ok _ _ _) Hv').
  cbn [mbind Result_bind]. case_decide as Hgt.
  - destruct (unlink_ok q chains c i l v' n Hch Hl Hni) as [Hun Hnot].
    assert (Hne : c ≠ rdx v') by lia.
    rewrite (proj2 (uindex_Ok _ _ _) Hni). cbn [mbind Result_bind]. rewrite (set_uindex_Ok (entries q)) by lia.
    cbn [mbind Result_bind]. rewrite decide_True by lia.
    destruct (lookup_lt_is_Some_2 (entries q) (rdx v')) as [h' Hh']; [lia|].
    assert (Hh'' : <[c := n]> (entries q) !! rdx v' = Some h') by (by rewrite list_lookup_insert_ne).
    rewrite (proj2 (uindex_Ok _ _ _) Hh''). cbn [mbind Result_bind].
    rewrite (set_uindex_Ok (node_nexts q)) by lia. cbn [mbind Result_bind].
    rewrite set_uindex_Ok by (rewrite length_insert; lia). cbn [mbind Result_bind].
    destruct (lookup_lt_is_Some_2 chains (rdx v')) as [l' Hl']; [lia|].
    assert (Hl'' : <[c := l]> chains !! rdx v' = Some l') by (by rewrite list_lookup_insert_ne).
    pose proof (link_ok _ _ i v' (rdx v') l' h' Hun Hv' eq_refl Hl'' Hh'' Hnot) as Hlink.
    cbn [num_keys cur_rdx values entries node_nexts] in Hlink.
    set (es := <[rdx v' := Some i]> (<[c := n]> (entries q))) in *.
    set (chains' := <[rdx v' := i :: l']> (<[c := l]> chains)) in *.
    destruct (forward_ok es (num_keys q) c (rdx v') i) as (c' & j' & -> & Hc' & Hj' & Hbefore).
    { unfold es. by rewrite !length_insert. }
    { lia. }
    { unfold es. apply list_lookup_insert_eq. rewrite length_insert. lia. }
    cbn [mbind Result_bind]. eexists. split; [done|]. split; [|done]. split. exists chains'.
    split; [by destruct Hlink; split|]. cbn [values cur_rdx]. split.
    + by apply (moved_in (values q) chains c i l l').
    + destruct Hlink as [Hk' _ _ Hlk' _ _]. cbn [num_keys entries node_nexts] in Hk', Hlk'.
      destruct (lookup_lt_is_Some_2 chains' c') as [lc Hlc]; [lia|].
      destruct (Hlk' c' lc Hlc) as (hc & Hhc & Hlinked). rewrite Hj' in Hhc. injection Hhc as <-.
      destruct lc as [|x lc]; [done|]. exists c', x, lc. split_and!; [done..|].
      intros r lr Hr Hlr. destruct (decide (c ≤ r)) as [Hcr|Hcr].
      * destruct (Hlk' r lr Hlr) as (hr & Hhr & Hlinkr). rewrite Hbefore in Hhr by lia. injection Hhr as <-.
        destruct lr; [done|]. by destruct Hlinkr as [? _].
      * apply (Hempty r); [lia|]. unfold chains' in Hlr. rewrite !list_lookup_insert_ne in Hlr by lia. done.
  - eexists. split; [done|]. split; [|done]. rewrite <- Hc. apply (same_key_inv q i v v'); [|done|lia].
    split. exists chains. split; [done|]. split; [done|]. by exists c, i, l.
Qed.

(** *** Uses of the queue *)

(** Each use takes the minimal value and replaces it; the minima are collected. *)
Fixpoint rq_run {A} (q : RadixQueue) (fs : list (T → Result (T * A))) : Result (list T * RadixQueue) :=
  match fs with
  | [] => Ok ([], q)
  | f :: fs =>
      v ← peek q;
      '(q, _) ← with_min q f;
      '(vs, q) ← rq_run q fs;
      Ok (v :: vs, q)
  end.

(** The same with a multiset of values: any value with a smallest key is replaced. *)
Inductive takes_min {A} : list T → list (T → Result (T * A)) → list T → list T → Prop :=
  | takes_nil vs : takes_min vs [] [] vs
  | takes_cons vs v rest f v' a fs out vs' :
      vs ≡ₚ v :: rest → (∀ w, w ∈ vs → rdx v ≤ rdx w) → f v = Ok (v', a) →
      takes_min (v' :: rest) fs out vs' → takes_min vs (f :: fs) (v :: out) vs'.

Lemma takes_min_perm {A} vs1 vs2 (fs : list (T → Result (T * A))) out vs' :
  vs1 ≡ₚ vs2 → takes_min vs1 fs out vs' → ∃ vs'', takes_min vs2 fs out vs'' ∧ vs' ≡ₚ vs''.
Proof.
  intros Hp H. destruct H as [vs|vs v rest f v' a fs out vs' Hvs Hmin Hf Hrest].
  - exists vs2. split; [constructor|done].
  - exists vs'. split; [|done]. econstructor; [by rewrite <- Hp| |done|done]. intros w Hw. apply Hmin. by rewrite Hp.
Qed.

Lemma rq_run_ok {A} (fs : list (T → Result (T * A))) q :
  rq_inv q → (∀ f v, f ∈ fs → rdx v < num_keys q → ∃ v' a, f v = Ok (v', a) ∧ rdx v ≤ rdx v' < num_keys q) →
  (∀ v, v ∈ values q → rdx v < num_keys q) →
  ∃ out q' vs', rq_run q fs = Ok (out, q') ∧ takes_min (values q) fs out vs' ∧ vs' ≡ₚ values q'.
Proof.
  revert q. induction fs as [|f fs IH]; intros q Hq Hfs Hlt.
  { exists [], q, (values q). split; [done|]. split; [constructor|done]. }
  destruct (peek_idx_ok q Hq) as (i & v & Hi & Hv & _ & Hmin). assert (Hin : v ∈ values q) by (by eapply list_elem_of_lookup_2).
  destruct (Hfs f v ltac:(left) (Hlt v Hin)) as (v' & a & Hf & Hle).
  destruct (with_min_ok q f i v v' a Hq Hi Hv Hf Hle) as (q1 & Hw & Hq1 & Hvs & Hnk).
  assert (Hp : values q1 ≡ₚ v' :: delete i (values q)).
  { rewrite Hvs, insert_take_drop, delete_take_drop by (by eapply lookup_lt_Some). apply Permutation_sym, Permutation_middle. }
  destruct (IH q1) as (out & q' & vs' & Hr & Ht & Hp'); [done| | |].
  { intros f0 v0 Hf0. rewrite Hnk. apply Hfs. by right. }
  { intros w. rewrite Hp, Hnk, elem_of_cons. intros [->|Hw']; [lia|]. apply Hlt. rewrite (delete_Permutation _ _ _ Hv). by right. }
  destruct (takes_min_perm _ _ _ _ _ Hp Ht) as (vs'' & Ht' & Hp'').
  exists (v :: out), q', vs''. cbn [rq_run]. unfold peek. rewrite Hi. cbn [mbind Result_bind].
  rewrite (proj2 (uindex_Ok _ _ _) Hv). cbn [mbind Result_bind]. rewrite Hw. cbn [mbind Result_bind]. rewrite Hr.
  split; [done|]. split; [|by rewrite <- Hp''].
  econstructor; [by apply delete_Permutation|done|done|done].
Qed.

(** A radix queue behaves like a multiset from which a value with a smallest key is
    replaced: any sequence of uses that do not lower keys succeeds, in bounds, and takes
    minima. *)
Theorem radix_queue_takes_min {A} vs n (fs : list (T → Result (T * A))) :
  vs ≠ [] → Forall (λ v, rdx v ≤ n) vs →
  (∀ f v, f ∈ fs → rdx v ≤ n → ∃ v' a, f v = Ok (v', a) ∧ rdx v ≤ rdx v' ≤ n) →
  ∃ out q vs', (q ← rq_new vs n; rq_run q fs) = Ok (out, q) ∧ takes_min vs fs out vs' ∧ vs' ≡ₚ values q.
Proof.
  intros Hne Hvs Hfs. destruct (rq_new_ok vs n Hne Hvs) as (q & -> & Hv & Hnk & Hq). cbn [mbind Result_bind].
  destruct (rq_run_ok fs q Hq) as (out & q' & vs' & Hr & Ht & Hp).
  - intros f v Hf. rewrite Hnk. intros Hlt. destruct (Hfs f v Hf ltac:(lia)) as (v' & a & E & Hle). exists v', a. split; [done|lia].
  - intros v. rewrite Hv, Hnk. rewrite Forall_forall in Hvs. intros Hin. specialize (Hvs v Hin). lia.
  - rewrite Hv in Ht. exists out, q', vs'. done.
Qed.

End RadixQueue.

Module RadixQueueSample.

(** Numbers as their own keys; a use adds 2, up to 9. *)
Definition step (v : nat) : Result (nat * unit) := Ok (((v + 2) `min` 9) `max` v, tt).

Lemma radix_queue_takes_min_witness :
  ∃ q vs', (q ← rq_new id [4; 1; 7] 9; rq_run id q [step; step; step; step]) = Ok ([1; 3; 4; 5], q) ∧
    takes_min id [4; 1; 7] [step; step; step; step] [1; 3; 4; 5] vs' ∧ vs' ≡ₚ values q.
Proof.
  destruct (radix_queue_takes_min id [4; 1; 7] 9 [step; step; step; step]) as (out & q & vs' & Hr & Ht & Hp).
  - done.
  - repeat constructor; cbn; lia.
  - intros f v Hf Hv. assert (f = step) as -> by (clear -Hf; set_solver). unfold step, id in *. eexists _, _. split; [done|]. lia.
  - assert (out = [1; 3; 4; 5]) as -> by (clear -Hr; vm_compute in Hr; congruence). exists q, vs'. split; [exact Hr|]. split; [exact Ht|exact Hp].
Defined.

End RadixQueueSample.
