(* ===== verification/AggHashMap.v ===== *)
(** * The hash map of hash aggregation

    native-engine/datafusion-ext-plans/src/agg/agg_hash_map.rs: an open addressing table
    from key bytes to the index of the accumulators of the key.  A slot holds a non-zero
    32-bit hash and the index of its key in [keys]; the groups of eight slots and the
    probe sequence are those of the join hash map, so [MapValueGroup], [first_set] and
    the insertion loop of a rehash ([insert_item]) are shared with [JoinHashMap].
    [map] and [keys] are unchecked vectors.

    The hasher (foldhash) is a parameter of which only the type is used: the map is
    correct for any hash function.  [spilled] tells whether an owned key lives on the
    heap.  The abstract map is the list of distinct keys in the order of their first
    occurrence, and an upsert returns positions in that list. *)

From S2P Require Import Prelude MachineInt Io BatchSerde JoinHashMap.

Local Abbreviation bytes := (list Z).

Section AggHashMap.
Context (hash_one : bytes → Z) (spilled : bytes → bool).

Record AggTable := mkAggTable {
  agg_map : list MapValueGroup;
  agg_mod_bits : nat;
  key_heap_mem_size : Z;
  agg_keys : list bytes }.

Definition agg_default : AggTable := mkAggTable [] 0 0 [].

Definition agg_len (t : AggTable) : nat := length (agg_keys t).

(** [HASHER.hash_one(value.as_bytes()) as u32 | 0x80000000] *)
Definition agg_hash (key : bytes) : Z := Z.lor (u32 (hash_one key)) 0x80000000.

(** The non-empty slots of a group, in lane order. *)
Definition group_items (g : MapValueGroup) : list (Z * MapValue) :=
  filter (λ x, x.1 ≠ 0%Z) (zip (hashes g) (values g)).

Definition rehash (t : AggTable) (bits : nat) : Result AggTable :=
  rehashed ← rfoldM (λ m g, rfoldM (insert_item bits) m (group_items g))
               (replicate (2 ^ bits) default_group) (agg_map t);
  Ok (mkAggTable rehashed bits (key_heap_mem_size t) (agg_keys t)).

(** [max(n, 128) * 2 / 8] rounded up to a power of two, as in the join hash map. *)
Definition reserve (t : AggTable) (num_new_items : nat) : Result AggTable :=
  let num_reserved_items := agg_len t + num_new_items in
  let new_map_mod_bits := mod_bits num_reserved_items in
  if decide (agg_mod_bits t < new_map_mod_bits) then rehash t new_map_mod_bits else Ok t.

(** The loop over the lanes with a matching hash. *)
Fixpoint match_lanes (keys : list bytes) (key : bytes) (hash : Z) (lanes : list (Z * MapValue)) : Result (option Z) :=
  match lanes with
  | [] => Ok None
  | (h, v) :: lanes =>
      if (h =? hash)%Z then
        k ← uindex keys (Z.to_nat v);
        if decide (k = key) then Ok (Some v) else match_lanes keys key hash lanes
      else match_lanes keys key hash lanes
  end.

Definition upsert_step (t : AggTable) (key : bytes) (hash : Z) (e : nat)
    : Result (nat + (AggTable * Z)) :=
  g ← uindex (agg_map t) e;
  found ← match_lanes (agg_keys t) key hash (zip (hashes g) (values g));
  match found with
  | Some record_idx => Ok (inr (t, record_idx))
  | None =>
      match first_set (λ h, h =? 0)%Z (hashes g) with
      | Some empty_pos =>
          let record_idx := u32 (Z.of_nat (agg_len t)) in
          map ← set_uindex (agg_map t) e
            (mkGroup (<[empty_pos := hash]> (hashes g)) (<[empty_pos := record_idx]> (values g)));
          let heap := if spilled key then usize (key_heap_mem_size t + Z.of_nat (length key))
                      else key_heap_mem_size t in
          Ok (inr (mkAggTable map (agg_mod_bits t) heap (agg_keys t ++ [key]), record_idx))
      | None => Ok (inl ((e + 1) mod 2 ^ agg_mod_bits t))
      end
  end.

Definition upsert_one_impl (t : AggTable) (key : bytes) (hash : Z) (e : nat) : Result (AggTable * Z) :=
  rloop (S (2 ^ agg_mod_bits t)) (upsert_step t key hash) e.

(** The prefetches have no effect; a hash is overwritten by the index of its key. *)
Fixpoint upsert_many (t : AggTable) (keys : list bytes) : Result (AggTable * list Z) :=
  match keys with
  | [] => Ok (t, [])
  | key :: keys =>
      let hash := agg_hash key in
      '(t, i) ← upsert_one_impl t key hash (entry (agg_mod_bits t) hash);
      '(t, idxs) ← upsert_many t keys;
      Ok (t, i :: idxs)
  end.

Definition upsert_records (t : AggTable) (keys : list bytes) : Result (AggTable * list Z) :=
  t ← reserve t (length keys);
  upsert_many t keys.

Definition take_keys (t : AggTable) : AggTable * list bytes :=
  (mkAggTable (replicate (length (agg_map t)) default_group) (agg_mod_bits t) 0 [], agg_keys t).

Definition into_keys (t : AggTable) : list bytes := agg_keys t.

(** ** The abstract map *)

Definition upsert_spec (s : list bytes * list Z) (key : bytes) : list bytes * list Z :=
  let '(keys, out) := s in
  match list_find (λ k, k = key) keys with
  | Some (i, _) => (keys, out ++ [Z.of_nat i])
  | None => (keys ++ [key], out ++ [Z.of_nat (length keys)])
  end.

(** The slot of the [i]-th key. *)
Definition slots (keys : list bytes) : list (Z * MapValue) := imap (λ i k, (agg_hash k, Z.of_nat i)) keys.

(** The bytes of the keys on the heap. *)
Definition heap_size (keys : list bytes) : Z :=
  Z.of_nat (sum_list_with (λ k, if spilled k then length k else 0) keys).

(** The table holds exactly the slots of its keys; a fresh one has no groups. *)
Definition agg_inv (t : AggTable) : Prop :=
  NoDup (agg_keys t) ∧ key_heap_mem_size t = usize (heap_size (agg_keys t)) ∧
  ((agg_map t = [] ∧ agg_mod_bits t = 0 ∧ agg_keys t = []) ∨
   ∃ gs, agg_map t = encode <$> gs ∧ table_inv (agg_mod_bits t) gs (slots (agg_keys t))).

(** ** Lemmas *)

Lemma agg_hash_nonzero key : agg_hash key ≠ 0%Z.
Proof.
  unfold agg_hash. intros H. apply Z.lor_eq_0_iff in H as [_ H]. discriminate.
Qed.

Lemma slots_nonzero keys : Forall (λ y, y.1 ≠ 0%Z) (slots keys).
Proof.
  apply Forall_lookup. intros i [h v] H. apply list_lookup_imap_Some in H as (k & _ & [= -> ->]).
  apply agg_hash_nonzero.
Qed.

Lemma length_slots keys : length (slots keys) = length keys.
Proof. apply length_imap. Qed.

Lemma slots_snoc keys key : slots (keys ++ [key]) = slots keys ++ [(agg_hash key, Z.of_nat (length keys))].
Proof. unfold slots. rewrite imap_app. cbn. by rewrite Nat.add_0_r. Qed.

Lemma elem_of_slots keys x : x ∈ slots keys → ∃ i k, keys !! i = Some k ∧ x = (agg_hash k, Z.of_nat i).
Proof.
  intros [i Hi]%list_elem_of_lookup. apply list_lookup_imap_Some in Hi as (k & Hk & ->). eauto.
Qed.

Lemma zip_encode l : length l ≤ 8 →
  zip (hashes (encode l)) (values (encode l)) = l ++ replicate (8 - length l) (0%Z, EMPTY).
Proof.
  intros Hl. unfold encode. cbn [hashes values].
  rewrite zip_with_app by (by rewrite !length_fmap). rewrite zip_fst_snd. f_equal.
  generalize (8 - length l). intros n. induction n; cbn; by f_equal.
Qed.

Lemma group_items_encode l : length l ≤ 8 → Forall (λ y, y.1 ≠ 0%Z) l → group_items (encode l) = l.
Proof.
  intros Hl Hnz. unfold group_items. rewrite zip_encode by done. rewrite filter_app.
  rewrite filter_all by (by apply Forall_forall). rewrite filter_none; [apply app_nil_r|].
  intros x [-> _]%elem_of_replicate. naive_solver.
Qed.

Lemma table_inv_perm bits gs items items' :
  table_inv bits gs items → items ≡ₚ items' → table_inv bits gs items'.
Proof. intros [? ? Hp ?] Hi. split; try done. by rewrite Hp. Qed.

Lemma rfoldM_concat {A B S} (f : S → B → Result S) (g : A → list B) s l :
  rfoldM (λ s x, rfoldM f s (g x)) s l = rfoldM f s (concat (g <$> l)).
Proof.
  revert s; induction l as [|x l IH]; intros s; [done|]. cbn [rfoldM fmap list_fmap concat].
  rewrite rfoldM_app. destruct (rfoldM f s (g x)); [|done..]. apply IH.
Qed.

(** A rehash moves all slots into a larger table. *)
Lemma rehash_ok t bits :
  agg_inv t → length (agg_keys t) < 8 * 2 ^ bits →
  ∃ gs, rehash t bits = Ok (mkAggTable (encode <$> gs) bits (key_heap_mem_size t) (agg_keys t)) ∧
    table_inv bits gs (slots (agg_keys t)).
Proof.
  intros (Hnd & _ & Ht) Hlt. unfold rehash. rewrite (rfoldM_concat (insert_item bits) group_items).
  assert (∃ items, concat (group_items <$> agg_map t) = items ∧ items ≡ₚ slots (agg_keys t)) as (items & -> & Hp).
  { destruct Ht as [(-> & _ & ->)|(gs & -> & [Hl Hc Hp Hpath])]; [by exists []|].
    exists (concat gs). split; [|done].
    assert (Forall (λ l, length l ≤ 8 ∧ Forall (λ y, y.1 ≠ 0%Z) l) gs) as Hgs.
    { apply Forall_lookup. intros g l Hg. split; [by eapply Hc|]. apply Forall_forall. intros y Hy.
      pose proof (slots_nonzero (agg_keys t)) as Hnz. rewrite Forall_forall in Hnz. apply Hnz.
      rewrite <- Hp. by eapply elem_of_group. }
    clear -Hgs. induction Hgs as [|l gs [Hl Hnz] _ IH]; [done|]. rewrite !fmap_cons. cbn [concat].
    by rewrite group_items_encode, IH. }
  destruct (build_map_spec bits items) as (gs & -> & Hinv).
  { rewrite Hp. apply slots_nonzero. }
  { rewrite Hp, length_slots. done. }
  exists gs. split; [done|]. by eapply table_inv_perm.
Qed.

Lemma reserve_ok t n :
  agg_inv t →
  ∃ t', reserve t n = Ok t' ∧ agg_keys t' = agg_keys t ∧ key_heap_mem_size t' = key_heap_mem_size t ∧
    (∃ gs, agg_map t' = encode <$> gs ∧ table_inv (agg_mod_bits t') gs (slots (agg_keys t))) ∧
    length (agg_keys t) + n < 8 * 2 ^ agg_mod_bits t'.
Proof.
  intros Hinv. unfold reserve, agg_len. pose proof (mod_bits_room (length (agg_keys t) + n)) as Hroom.
  case_decide as Hd.
  - destruct (rehash_ok t (mod_bits (length (agg_keys t) + n)) Hinv) as (gs & -> & Hgs); [lia|].
    eexists. split_and!; [done|done|done|by exists gs|done].
  - exists t. destruct Hinv as (Hnd & _ & [(Hm & Hb & Hk)|Hgs]).
    + exfalso. apply Hd. rewrite Hb. unfold mod_bits.
      apply Nat.log2_up_pos. unfold MAP_VALUE_GROUP_SIZE. apply Nat.div_le_lower_bound; lia.
    + split_and!; [done..|].
      assert (2 ^ mod_bits (length (agg_keys t) + n) ≤ 2 ^ agg_mod_bits t) by (apply Nat.pow_le_mono_r; lia).
      lia.
Qed.

(** *** Probing for a key *)

Lemma match_lanes_miss keys key l n :
  Forall (λ x, x ∈ slots keys) l → (∀ i, keys !! i = Some key → (agg_hash key, Z.of_nat i) ∉ l) →
  match_lanes keys key (agg_hash key) (l ++ replicate n (0%Z, EMPTY)) = Ok None.
Proof.
  intros Hl Hmiss. induction Hl as [|x l Hx Hl IH].
  - induction n as [|n IHn]; [done|]. cbn [replicate app match_lanes].
    destruct (Z.eqb_spec 0 (agg_hash key)) as [H0|]; [|done]. by destruct (agg_hash_nonzero key).
  - apply elem_of_slots in Hx as (i & k & Hk & ->). cbn [app match_lanes].
    rewrite IH by set_solver. case_match; [|done]. rewrite Nat2Z.id.
    rewrite (proj2 (uindex_Ok _ _ _) Hk). cbn [mbind Result_bind]. rewrite decide_False; [done|].
    intros ->. apply (Hmiss i Hk). by left.
Qed.

Lemma match_lanes_hit keys key i l n :
  NoDup keys → keys !! i = Some key → Forall (λ x, x ∈ slots keys) l → (agg_hash key, Z.of_nat i) ∈ l →
  match_lanes keys key (agg_hash key) (l ++ replicate n (0%Z, EMPTY)) = Ok (Some (Z.of_nat i)).
Proof.
  intros Hnd Hi Hl Hin. induction Hl as [|x l Hx Hl IH]; [set_solver|].
  apply elem_of_slots in Hx as (j & k & Hk & ->). cbn [app match_lanes].
  destruct (decide (k = key)) as [->|Hne].
  - assert (j = i) as -> by (by eapply NoDup_lookup). rewrite Z.eqb_refl, Nat2Z.id.
    rewrite (proj2 (uindex_Ok _ _ _) Hi). cbn. by rewrite decide_True.
  - apply elem_of_cons in Hin as [[= Hh Hij]|Hin].
    { apply (inj Z.of_nat) in Hij as ->. congruence. }
    rewrite IH by done. case_match; [|done]. rewrite Nat2Z.id.
    rewrite (proj2 (uindex_Ok _ _ _) Hk). cbn. by rewrite decide_False.
Qed.

Section Probe.
Context (t : AggTable) (gs : list (list (Z * MapValue))) (key : bytes).
Hypothesis map_ok : agg_map t = encode <$> gs.
Hypothesis inv_ok : table_inv (agg_mod_bits t) gs (slots (agg_keys t)).
Hypothesis nodup_ok : NoDup (agg_keys t).
Hypothesis room_ok : length (agg_keys t) < 8 * 2 ^ agg_mod_bits t.
Hypothesis count_ok : (Z.of_nat (length (agg_keys t)) < 2 ^ 32)%Z.

Local Abbreviation bits := (agg_mod_bits t).
Local Abbreviation h := (agg_hash key).

Lemma probe_group k : ∃ l, gs !! probe bits h k = Some l ∧ length l ≤ 8 ∧ Forall (λ x, x ∈ slots (agg_keys t)) l.
Proof.
  destruct inv_ok as [Hl Hc Hp _].
  destruct (lookup_lt_is_Some_2 gs (probe bits h k)) as [l Hgl]; [rewrite Hl; apply probe_lt|].
  exists l. split_and!; [done|eauto|]. apply Forall_forall. intros x Hx. rewrite <- Hp.
  by eapply elem_of_group.
Qed.

(** One step of the loop at a group that does not have the key. *)
Lemma upsert_step_miss k l :
  gs !! probe bits h k = Some l → (∀ i, agg_keys t !! i = Some key → (h, Z.of_nat i) ∉ l) →
  length l = 8 → upsert_step t key h (probe bits h k) = Ok (inl (probe bits h (S k))).
Proof.
  intros Hg Hmiss Hl. destruct (probe_group k) as (l' & Hg' & _ & Hs). assert (l' = l) as -> by congruence.
  unfold upsert_step. rewrite map_ok, (proj2 (uindex_Ok _ _ _) (lookup_encode _ _ _ Hg)).
  cbn [mbind Result_bind]. rewrite zip_encode, match_lanes_miss by (done || lia). cbn [mbind Result_bind].
  rewrite (encode_insert_pos (λ x, x =? 0)%Z); [|by eapply Forall_impl; [exact Hs|]; intros y Hy;
    apply Z.eqb_neq; pose proof (slots_nonzero (agg_keys t)) as Hnz; rewrite Forall_forall in Hnz; apply Hnz|done|lia].
  rewrite decide_False by lia. by rewrite probe_S.
Qed.

Lemma upsert_one_hit i :
  agg_keys t !! i = Some key → upsert_one_impl t key h (entry bits h) = Ok (t, Z.of_nat i).
Proof.
  intros Hi. pose proof inv_ok as [Hl Hc Hp Hpath].
  assert (Hin : (h, Z.of_nat i) ∈ concat gs).
  { rewrite Hp. apply list_elem_of_lookup. exists i. unfold slots. by rewrite list_lookup_imap, Hi. }
  apply list_elem_of_In, in_concat in Hin as (l & Hgl & Hin). apply list_elem_of_In in Hgl, Hin.
  apply list_elem_of_lookup in Hgl as [g Hg].
  destruct (probe_reaches bits h g) as (k0 & Hk0 & Hpk0); [rewrite <- Hl; by eapply lookup_lt_Some|].
  destruct (Hpath g l _ Hg Hin) as (k1 & Hk1 & Hfull). cbn [fst] in Hk1, Hfull.
  set (here := λ k, Exists (λ l, (h, Z.of_nat i) ∈ l) (option_list (gs !! probe bits h k))).
  assert (Hhere : ∀ k, here k ↔ ∃ l, gs !! probe bits h k = Some l ∧ (h, Z.of_nat i) ∈ l).
  { intros k. unfold here. rewrite Exists_exists. destruct (gs !! probe bits h k); cbn; set_solver. }
  destruct (least here (Nat.min k0 k1)) as (k & Hk & Hkin & Hbefore).
  { apply Hhere. exists l. split; [|done]. destruct (Nat.min_spec k0 k1) as [[_ ->]|[_ ->]]; congruence. }
  apply Hhere in Hkin as (l' & Hg' & Hin'). unfold upsert_one_impl. rewrite <- probe_0.
  apply (rloop_path _ (probe bits h) k); [| |lia].
  - intros j Hj. destruct (Hfull j ltac:(lia)) as (lj & Hgj & Hlj).
    apply (upsert_step_miss j lj); [done| |done]. intros i' Hi'.
    assert (i' = i) as -> by (by eapply NoDup_lookup). intros Hinj. apply (Hbefore j Hj), Hhere. eauto.
  - destruct (probe_group k) as (l2 & Hg2 & Hl2 & Hs2). assert (l2 = l') as -> by congruence.
    unfold upsert_step. rewrite map_ok, (proj2 (uindex_Ok _ _ _) (lookup_encode _ _ _ Hg')).
    cbn [mbind Result_bind]. rewrite zip_encode, (match_lanes_hit _ _ i) by done. done.
Qed.

Lemma upsert_one_new :
  key ∉ agg_keys t →
  ∃ gs' heap, upsert_one_impl t key h (entry bits h)
      = Ok (mkAggTable (encode <$> gs') bits heap (agg_keys t ++ [key]), Z.of_nat (length (agg_keys t))) ∧
    heap = (if spilled key then usize (key_heap_mem_size t + Z.of_nat (length key)) else key_heap_mem_size t) ∧
    table_inv bits gs' (slots (agg_keys t ++ [key])).
Proof.
  intros Hnew. destruct (has_room _ _ _ inv_ok) as (g & Hg & Hnf); [by rewrite length_slots|].
  destruct (probe_reaches bits h g Hg) as (k0 & Hk0 & <-).
  destruct (least (λ k, ¬ full gs (probe bits h k)) k0 Hnf) as (k & Hk & Hnk & Hbefore).
  destruct (probe_group k) as (l & Hgl & Hl8 & Hs).
  assert (Hlt : length l < 8).
  { destruct (decide (length l = 8)); [|lia]. exfalso. apply Hnk. by exists l. }
  assert (Hmiss : ∀ i (l : list (Z * MapValue)), agg_keys t !! i = Some key → ((h, Z.of_nat i) : Z * MapValue) ∉ l).
  { intros i l' Hi. exfalso. apply Hnew. by eapply list_elem_of_lookup_2. }
  exists (<[probe bits h k := l ++ [(h, Z.of_nat (length (agg_keys t)))]]> gs).
  eexists. split; [|split; [done|]].
  - unfold upsert_one_impl. rewrite <- probe_0. apply (rloop_path _ (probe bits h) k); [| |lia].
    + intros j Hj. destruct (decide (full gs (probe bits h j))) as [(lj & Hgj & Hlj)|Hf];
        [|by destruct (Hbefore j Hj)]. apply (upsert_step_miss j lj); auto.
    + unfold upsert_step. rewrite map_ok, (proj2 (uindex_Ok _ _ _) (lookup_encode _ _ _ Hgl)).
      cbn [mbind Result_bind]. rewrite zip_encode, match_lanes_miss by auto. cbn [mbind Result_bind].
      rewrite (encode_insert_pos (λ x, x =? 0)%Z); [|by eapply Forall_impl; [exact Hs|]; intros y Hy;
        apply Z.eqb_neq; pose proof (slots_nonzero (agg_keys t)) as Hnz; rewrite Forall_forall in Hnz; apply Hnz|done|lia].
      rewrite decide_True by done.
      rewrite set_uindex_Ok by (rewrite length_fmap; by eapply lookup_lt_Some). cbn [mbind Result_bind].
      unfold agg_len, u32. rewrite wrapu_id by (unfold in_u; lia).
      rewrite encode_snoc, list_fmap_insert by done. done.
  - rewrite slots_snoc. apply (table_inv_insert bits gs _ (h, Z.of_nat (length (agg_keys t)))); try done.
    intros j Hj. destruct (decide (full gs (probe bits h j))); [done|]. by destruct (Hbefore j Hj).
Qed.

End Probe.

Lemma heap_size_snoc keys key :
  heap_size (keys ++ [key]) = (heap_size keys + (if spilled key then Z.of_nat (length key) else 0))%Z.
Proof. unfold heap_size. rewrite sum_list_with_app. cbn. destruct (spilled key); lia. Qed.

Lemma list_find_key (keys : list bytes) key :
  match list_find (λ k, k = key) keys with
  | Some (i, _) => keys !! i = Some key
  | None => key ∉ keys
  end.
Proof.
  destruct (list_find (λ k, k = key) keys) as [[i k]|] eqn:E.
  - apply list_find_Some in E as (Hk & -> & _). done.
  - apply list_find_None in E. rewrite Forall_forall in E. intros Hin. by eapply E.
Qed.

Lemma upsert_many_ok keys t gs out :
  agg_map t = encode <$> gs → table_inv (agg_mod_bits t) gs (slots (agg_keys t)) → NoDup (agg_keys t) →
  key_heap_mem_size t = usize (heap_size (agg_keys t)) →
  length (agg_keys t) + length keys < 8 * 2 ^ agg_mod_bits t →
  (Z.of_nat (length (agg_keys t) + length keys) < 2 ^ 32)%Z →
  ∃ t' idxs, upsert_many t keys = Ok (t', idxs) ∧ agg_inv t' ∧
    foldl upsert_spec (agg_keys t, out) keys = (agg_keys t', out ++ idxs).
Proof.
  revert t gs out; induction keys as [|key keys IH]; intros t gs out Hm Hinv Hnd Hheap Hroom Hcount.
  { exists t, []. rewrite app_nil_r. split_and!; [done| |done]. split_and!; [done|done|]. right. eauto. }
  cbn [upsert_many foldl length] in *.
  pose proof (list_find_key (agg_keys t) key) as Hfind. unfold upsert_spec at 2.
  destruct (list_find (λ k, k = key) (agg_keys t)) as [[i k]|].
  - rewrite (upsert_one_hit t gs key) with (i := i) by (done || lia). cbn [mbind Result_bind].
    destruct (IH t gs (out ++ [Z.of_nat i])) as (t' & idxs & -> & Hinv' & Hf); [done..|lia|lia|].
    exists t', (Z.of_nat i :: idxs). split_and!; [done|done|]. by rewrite Hf, <- app_assoc.
  - edestruct (upsert_one_new t gs key) as (gs' & heap & -> & Hh & Hinv'); [done || lia..|].
    cbn [mbind Result_bind].
    destruct (IH (mkAggTable (encode <$> gs') (agg_mod_bits t) heap (agg_keys t ++ [key])) gs'
      (out ++ [Z.of_nat (length (agg_keys t))])) as (t' & idxs & -> & Hinv'' & Hf); cbn [agg_map agg_mod_bits agg_keys key_heap_mem_size].
    + done.
    + done.
    + apply NoDup_app. split_and!; [done|set_solver|apply NoDup_singleton].
    + rewrite Hh, heap_size_snoc, Hheap. destruct (spilled key); [|by rewrite Z.add_0_r].
      unfold usize, wrapu. apply Z.add_mod_idemp_l. lia.
    + rewrite length_app. cbn. lia.
    + rewrite length_app. cbn. lia.
    + exists t', (Z.of_nat (length (agg_keys t)) :: idxs). split_and!; [done|done|].
      cbn [agg_keys] in Hf. by rewrite Hf, <- app_assoc.
Qed.

Lemma upsert_records_ok t keys :
  agg_inv t → (Z.of_nat (length (agg_keys t) + length keys) < 2 ^ 32)%Z →
  ∃ t' idxs, upsert_records t keys = Ok (t', idxs) ∧ agg_inv t' ∧
    foldl upsert_spec (agg_keys t, []) keys = (agg_keys t', idxs).
Proof.
  intros Hinv Hcount. unfold upsert_records.
  destruct (reserve_ok t (length keys) Hinv) as (t' & -> & Hk & Hh & (gs & Hm & Hgs) & Hroom).
  cbn [mbind Result_bind]. destruct Hinv as (Hnd & Hheap & _).
  destruct (upsert_many_ok keys t' gs []) as (t'' & idxs & He & Hinv' & Hf); rewrite ?Hk, ?Hh; try done.
  rewrite Hk in Hf. eauto.
Qed.

(** C10: upserting a list of keys into the hash table gives each key the position of its
    first occurrence among all keys inserted so far, appends new keys in order, keeps
    the table invariant through growth and rehashing, and never fails or loops. *)
Theorem agg_hash_map_upsert_refines t keys :
  agg_inv t → (Z.of_nat (length (agg_keys t) + length keys) < 2 ^ 32)%Z →
  ∃ t' idxs, upsert_records t keys = Ok (t', idxs) ∧ agg_inv t' ∧
    foldl upsert_spec (agg_keys t, []) keys = (agg_keys t', idxs).
Proof. apply upsert_records_ok. Qed.

(** Emptying the map keeps its groups and leaves it ready for use. *)
Lemma take_keys_ok t : agg_inv t → agg_inv (take_keys t).1 ∧ (take_keys t).2 = agg_keys t.
Proof.
  intros (Hnd & _ & Ht). split; [|done]. unfold take_keys. cbn [fst]. split_and!; [apply NoDup_nil_2|done|].
  cbn [agg_map agg_mod_bits agg_keys]. destruct Ht as [(-> & -> & _)|(gs & -> & [Hl Hc Hp _])]; [by left|right].
  exists (replicate (length gs) []). rewrite fmap_replicate, length_fmap. split; [done|]. split.
  - by rewrite length_replicate.
  - intros g l [-> _]%lookup_replicate. cbn. lia.
  - clear. induction (length gs); done.
  - intros g l x [-> _]%lookup_replicate. set_solver.
Qed.

End AggHashMap.

Module AggMapSample.

Definition hash_one (k : bytes) : Z := Z.of_nat (sum_list_with Z.to_nat k).
Definition spilled (k : bytes) : bool := bool_decide (24 < length k).

(** All keys have the same hash. *)
Definition sample_keys : list bytes := [[1; 2]; [3]; [2; 1]; [1; 2]; [3; 0]; [3]]%Z.

Lemma default_inv : agg_inv hash_one spilled agg_default.
Proof. split_and!; [apply NoDup_nil_2|done|by left]. Qed.

Lemma agg_hash_map_upsert_refines_witness :
  ∃ t, upsert_records hash_one spilled agg_default sample_keys = Ok (t, [0; 1; 2; 0; 3; 1]%Z) ∧
    agg_inv hash_one spilled t ∧ agg_keys t = [[1; 2]; [3]; [2; 1]; [3; 0]]%Z.
Proof.
  destruct (agg_hash_map_upsert_refines hash_one spilled agg_default sample_keys) as (t & idxs & He & Hi & Hf).
  - exact default_inv.
  - vm_compute. reflexivity.
  - assert (foldl upsert_spec ([], []) sample_keys
      = ([[1; 2]; [3]; [2; 1]; [3; 0]]%Z, [0; 1; 2; 0; 3; 1]%Z)) as Hs by (vm_compute; reflexivity).
    change (foldl upsert_spec ([], []) sample_keys = (agg_keys t, idxs)) in Hf. rewrite Hs in Hf.
    injection Hf as Hk Hidx. exists t. rewrite He, <- Hidx. split; [done|]. by split.
Defined.

End AggMapSample.
