(* ===== verification/AggAcc.v ===== *)
(** * Accumulator columns and aggregate functions

    native-engine/datafusion-ext-plans/src/agg/{acc,agg,sum,count,maxmin}.rs.  An
    accumulator column has one accumulator per group; [partial_update] adds input rows
    to the accumulators that an index selection names, [partial_merge] adds the
    accumulators of another column.  Modelled are [count], and [sum], [max] and [min] of
    64-bit integers on [AccPrimColumn]; arrays are lists of optional values.

    A column is spilled as the values of selected accumulators and read back.

    The view of a column is the list of its accumulators as optional values, and a row
    adds its contribution [contrib] with [merge].  The lemmas show that both operations
    change exactly the named accumulators and never fail on accumulators of the right
    type, that [merge] is associative and commutative, and that spilling and reading back
    gives the selected accumulators. *)

From S2P Require Import Prelude MachineInt Io Arrow BatchSerde.

Local Abbreviation Array := (list (option Z)).

(** ** Index selections *)

Inductive IdxSelection :=
  | Single (idx : nat)
  | Indices (indices : list nat)
  | IndicesU32 (indices : list Z)
  | Range (begin_ end_ : nat).

Definition idx_iter (s : IdxSelection) : list nat :=
  match s with
  | Single idx => [idx]
  | Indices indices => indices
  | IndicesU32 indices => Z.to_nat <$> indices
  | Range begin_ end_ => range begin_ end_
  end.

(** [idx_for_zipped!]: a single index is paired with every index of the other side. *)
Definition idx_zipped (s1 s2 : IdxSelection) : list (nat * nat) :=
  match s1, s2 with
  | Single idx1, _ => pair idx1 <$> idx_iter s2
  | _, Single idx2 => (λ i, (i, idx2)) <$> idx_iter s1
  | _, _ => zip (idx_iter s1) (idx_iter s2)
  end.

(** ** Columns *)

Inductive AccColumn :=
  | AccPrimColumn (values : list Z) (valids : list bool)
  | AccCountColumn (values : list Z).

Definition num_records (c : AccColumn) : nat :=
  match c with AccPrimColumn values _ => length values | AccCountColumn values => length values end.

Definition acc_resize (c : AccColumn) (len : nat) : AccColumn :=
  match c with
  | AccPrimColumn values valids => AccPrimColumn (resize len 0%Z values) (resize len false valids)
  | AccCountColumn values => AccCountColumn (resize len 0%Z values)
  end.

(** The largest index of a selection; for a range, its end. *)
Definition idx_max_value (s : IdxSelection) : nat :=
  match s with
  | Single v => v
  | Indices _ | IndicesU32 _ => max_list (idx_iter s)
  | Range _ end_ => end_
  end.

Definition ensure_size (c : AccColumn) (s : IdxSelection) : AccColumn :=
  if decide (num_records c ≤ idx_max_value s) then acc_resize c (idx_max_value s + 1) else c.

(** [AccPrimColumn::update_value] *)
Definition update_value (values : list Z) (valids : list bool) (idx : nat) (default_value : Z)
    (update : Z → Z) : Result AccColumn :=
  valid ← index valids idx;
  if valid : bool then
    v ← index values idx;
    values ← set_index values idx (update v);
    Ok (AccPrimColumn values valids)
  else
    values ← set_index values idx default_value;
    valids ← set_index valids idx true;
    Ok (AccPrimColumn values valids).

(** [freeze_to_arrays(idx)[0]] *)
Definition freeze (c : AccColumn) (s : IdxSelection) : Result Array :=
  match c with
  | AccPrimColumn values valids =>
      rmapM (λ i, valid ← index valids i;
                  if valid : bool then v ← index values i; Ok (Some v) else Ok None) (idx_iter s)
  | AccCountColumn values => rmapM (λ i, v ← index values i; Ok (Some v)) (idx_iter s)
  end.

(** [unfreeze_from_arrays]; the value of a null slot is not used. *)
Definition unfreeze (c : AccColumn) (array : Array) : AccColumn :=
  match c with
  | AccPrimColumn _ _ => AccPrimColumn (default 0%Z <$> array) ((λ v, bool_decide (is_Some v)) <$> array)
  | AccCountColumn _ => AccCountColumn (default 0%Z <$> array)
  end.

(** *** Spilling *)

(** [BitVec<u8>::as_raw_slice]: least significant bit first; the bits after the last one
    are zero here and are not used by the reader. *)
Definition byte_of (bits : list bool) : Z := foldr (λ b n, Z.b2z b + 2 * n)%Z 0%Z bits.
Definition pack_bits (bits : list bool) : list Z :=
  (λ k, byte_of (take 8 (drop (8 * k) bits))) <$> seq 0 (div_ceil (length bits) 8).

Definition acc_spill (c : AccColumn) (s : IdxSelection) : Result (list Z) :=
  match c with
  | AccPrimColumn values valids =>
      bits ← rmapM (index valids) (idx_iter s);
      let num_valids := length (filter (λ b, b = true) bits) in
      len ← write_len (Z.of_nat num_valids);
      values ← rmapM (λ i, valid ← index valids i;
                           if valid : bool then v ← index values i; Ok [v] else Ok []) (idx_iter s);
      Ok (len ++ pack_bits bits ++ to_raw 8 (concat values))
  | AccCountColumn values =>
      lens ← rmapM (λ i, v ← index values i; write_len (usize v)) (idx_iter s);
      Ok (concat lens)
  end.

(** [BitVec::iter_ones], counting from [k]. *)
Fixpoint iter_ones (k : nat) (bits : list bool) : list nat :=
  match bits with
  | [] => []
  | b :: bits => if b then k :: iter_ones (S k) bits else iter_ones (S k) bits
  end.

(** The loop over the valid rows of [unspill]; the state is [values] and [read_value_pos]. *)
Definition fill_one (read_values : list Z) (st : list Z * nat) (i : nat) : Result (list Z * nat) :=
  let '(values, read_value_pos) := st in
  v ← index read_values read_value_pos;
  values ← set_index values i v;
  Ok (values, read_value_pos + 1).

Fixpoint read_counts (num_rows : nat) (values : list Z) : Reader (list Z) :=
  match num_rows with
  | 0 => mret values
  | S num_rows => v ← read_len; read_counts num_rows (values ++ [i64 v])
  end.

Definition acc_unspill (c : AccColumn) (num_rows : nat) : Reader AccColumn :=
  match c with
  | AccPrimColumn values _ =>
      num_valids ← read_len;
      bits ← read_exact (div_ceil num_rows 8);
      let valids := bit_at bits <$> seq 0 num_rows in
      let values := resize num_rows 0%Z values in
      raw ← read_exact (8 * Z.to_nat num_valids);
      let read_values := i64 <$> from_raw 8 (Z.to_nat num_valids) raw in
      st ← rlift (rfoldM (fill_one read_values) (values, 0) (iter_ones 0 valids));
      mret (AccPrimColumn st.1 valids)
  | AccCountColumn values =>
      _ ← rlift (rassert (bool_decide (length values = 0)));
      values ← read_counts num_rows values;
      mret (AccCountColumn values)
  end.

(** ** Aggregate functions *)

Inductive AggKind := Sum | Count | Max | Min.
#[export] Instance AggKind_eq_dec : EqDecision AggKind.
Proof. solve_decision. Defined.

Definition create_acc_column (a : AggKind) (num_rows : nat) : AccColumn :=
  match a with
  | Count => AccCountColumn (replicate num_rows 0%Z)
  | _ => AccPrimColumn (replicate num_rows 0%Z) (replicate num_rows false)
  end.

(** [P::ORD] of max and min. *)
Definition keeps (a : AggKind) (v w : Z) : bool :=
  match a with
  | Max => bool_decide (v ?= w = Gt)%Z
  | _ => bool_decide (v ?= w = Lt)%Z
  end.

(** The closure passed to [update_value]; for a count, the addition to the accumulator. *)
Definition combine (a : AggKind) (partial_value v : Z) : Z :=
  match a with
  | Sum | Count => i64 (v + partial_value)
  | _ => if keeps a v partial_value then v else partial_value
  end.

Definition downcast_error {A} : Result A := Err (Execution "error downcasting").

(** [partial_args.iter().all(|arg| arg.is_valid(idx))] *)
Fixpoint all_valid (args : list Array) (idx : nat) : Result bool :=
  match args with
  | [] => Ok true
  | arg :: args =>
      v ← index arg idx;
      if decide (is_Some v) then all_valid args idx else Ok false
  end.

Definition count_add (values : list Z) (acc_idx : nat) (add : Z) : Result AccColumn :=
  if decide (length values ≤ acc_idx) then Ok (AccCountColumn (values ++ [add]))
  else
    v ← index values acc_idx;
    values ← set_index values acc_idx (i64 (v + add));
    Ok (AccCountColumn values).

Definition update_row (a : AggKind) (args : list Array) (c : AccColumn) (p : nat * nat) : Result AccColumn :=
  let '(acc_idx, arg_idx) := p in
  match a, c with
  | Count, AccCountColumn values =>
      valid ← all_valid args arg_idx;
      count_add values acc_idx (if valid : bool then 1 else 0)
  | Count, _ => downcast_error
  | _, AccPrimColumn values valids =>
      partial_arg ← index args 0;
      v ← index partial_arg arg_idx;
      match v with
      | Some partial_value => update_value values valids acc_idx partial_value (combine a partial_value)
      | None => Ok c
      end
  | _, _ => downcast_error
  end.

(** Whether the column has the type the function downcasts it to. *)
Definition column_fits (a : AggKind) (c : AccColumn) : bool :=
  match a, c with
  | Count, AccCountColumn _ => true
  | Count, _ => false
  | _, AccPrimColumn _ _ => true
  | _, _ => false
  end.

Definition partial_update (a : AggKind) (accs : AccColumn) (acc_idx : IdxSelection) (partial_args : list Array)
    (partial_arg_idx : IdxSelection) : Result AccColumn :=
  _ ← (if decide (a = Count) then Ok [] else index partial_args 0);
  if column_fits a accs then
    rfoldM (update_row a partial_args) (ensure_size accs acc_idx) (idx_zipped acc_idx partial_arg_idx)
  else downcast_error.

Definition merge_row (a : AggKind) (merging : AccColumn) (c : AccColumn) (p : nat * nat) : Result AccColumn :=
  let '(acc_idx, merging_idx) := p in
  match a, c, merging with
  | Count, AccCountColumn values, AccCountColumn merging_values =>
      add ← index merging_values merging_idx;
      count_add values acc_idx add
  | Count, _, _ => downcast_error
  | _, AccPrimColumn values valids, AccPrimColumn mvalues mvalids =>
      valid ← index mvalids merging_idx;
      if valid : bool then
        merging_value ← index mvalues merging_idx;
        update_value values valids acc_idx merging_value (combine a merging_value)
      else Ok c
  | _, _, _ => downcast_error
  end.

Definition partial_merge (a : AggKind) (accs : AccColumn) (acc_idx : IdxSelection) (merging : AccColumn)
    (merging_idx : IdxSelection) : Result AccColumn :=
  if column_fits a accs && column_fits a merging then
    rfoldM (merge_row a merging) (ensure_size accs acc_idx) (idx_zipped acc_idx merging_idx)
  else downcast_error.

Definition final_merge (c : AccColumn) (s : IdxSelection) : Result Array := freeze c s.

(** ** The abstract column *)

Definition view (c : AccColumn) : Array :=
  match c with
  | AccPrimColumn values valids => zip_with (λ v (b : bool), if b then Some v else None) values valids
  | AccCountColumn values => Some <$> values
  end.

Definition init (a : AggKind) : option Z := match a with Count => Some 0%Z | _ => None end.

(** Adding an accumulator to another, and what a row adds. *)
Definition merge (a : AggKind) (s m : option Z) : option Z :=
  match s, m with
  | Some w, Some v => Some (combine a v w)
  | Some w, None => Some w
  | None, _ => m
  end.

Definition contrib (a : AggKind) (row : list (option Z)) : option Z :=
  match a with
  | Count => Some (if decide (Forall is_Some row) then 1 else 0)%Z
  | _ => mjoin (head row)
  end.

(** The accumulator of a list of rows. *)
Definition merge_all (a : AggKind) (ms : list (option Z)) : option Z := foldl (merge a) (init a) ms.

Definition value_ok (v : option Z) : Prop := ∀ x, v = Some x → in_s 64 x.

(** A column of the function, with one validity bit per value. *)
Definition acc_ok (a : AggKind) (c : AccColumn) : Prop :=
  column_fits a c = true ∧
  match c with
  | AccPrimColumn values valids => length values = length valids ∧ Forall (in_s 64) values
  | AccCountColumn values => Forall (in_s 64) values
  end.

(** Accumulator [i]; one beyond the end of the column is a fresh one. *)
Definition slot (a : AggKind) (c : AccColumn) (i : nat) : option Z := default (init a) (view c !! i).

(** Row [j] of the argument arrays. *)
Definition arg_row (args : list Array) (j : nat) : list (option Z) := (λ arg, default None (arg !! j)) <$> args.

(** ** Lemmas *)

(** *** Merging accumulators *)

Lemma i64_idem_l x y : i64 (i64 x + y) = i64 (x + y).
Proof.
  apply wraps_cong; [lia|]. unfold i64, wrapu. rewrite <- Z.add_mod_idemp_l by lia.
  fold (wrapu 64 (wraps 64 x)). rewrite wrapu_wraps by lia. unfold wrapu. by rewrite Z.add_mod_idemp_l by lia.
Qed.

Lemma i64_idem_r x y : i64 (x + i64 y) = i64 (x + y).
Proof. by rewrite Z.add_comm, i64_idem_l, Z.add_comm. Qed.

Lemma combine_ok a v w : in_s 64 v → in_s 64 w → in_s 64 (combine a v w).
Proof. intros Hv Hw. destruct a; cbn; try (apply wraps_bound; lia); by case_match. Qed.

Lemma combine_comm a v w : combine a v w = combine a w v.
Proof.
  destruct a; cbn; try (f_equal; lia); unfold keeps; repeat case_bool_decide; try done;
    rewrite ?Z.compare_lt_iff, ?Z.compare_gt_iff in *; lia.
Qed.

Lemma combine_assoc a u v w : combine a w (combine a v u) = combine a (combine a w v) u.
Proof.
  destruct a; unfold combine; try (rewrite i64_idem_l, i64_idem_r; f_equal; lia); unfold keeps;
    repeat case_bool_decide; try done; rewrite ?Z.compare_lt_iff, ?Z.compare_gt_iff in *; lia.
Qed.

#[export] Instance merge_assoc a : Assoc (=) (merge a).
Proof. intros [u|] [v|] [w|]; cbn; try done. f_equal. symmetry. apply combine_assoc. Qed.

#[export] Instance merge_comm a : Comm (=) (merge a).
Proof. intros [u|] [v|]; cbn; try done. f_equal. apply combine_comm. Qed.

(** The accumulators that occur: a fresh accumulator changes nothing. *)
Definition normal (a : AggKind) (s : option Z) : Prop := merge a s (init a) = s.

Lemma normal_ok a s : value_ok s → (a = Count → is_Some s) → normal a s.
Proof.
  intros Hs Hc. unfold normal. destruct a; [by destruct s| |by destruct s..].
  destruct (Hc eq_refl) as [n ->]. cbn. f_equal. rewrite Z.add_0_r. apply wraps_id; [lia|]. by apply Hs.
Qed.

Lemma normal_init a : normal a (init a).
Proof. apply normal_ok; destruct a; cbn; try done; intros ? [= <-]; unfold in_s; lia. Qed.

Lemma normal_merge a s m : normal a s → normal a (merge a s m).
Proof. unfold normal. intros Hs. by rewrite (comm (merge a) s m), <- (assoc (merge a)), Hs. Qed.

Lemma merge_init_r a s m : merge a (merge a s (init a)) m = merge a s (merge a (init a) m).
Proof. by rewrite (assoc (merge a)). Qed.

Lemma foldl_merge_l a s ms : normal a s → foldl (merge a) s ms = merge a s (merge_all a ms).
Proof.
  unfold merge_all. revert s. induction ms as [|m ms IH]; intros s Hs; cbn [foldl]; [done|].
  rewrite IH by (by apply normal_merge). rewrite (IH (merge a (init a) m)) by (apply normal_merge, normal_init).
  by rewrite !(assoc (merge a)), Hs.
Qed.

(** Folding rows piecewise and merging is folding all rows, in any order. *)
Lemma merge_all_app a l1 l2 : merge_all a (l1 ++ l2) = merge a (merge_all a l1) (merge_all a l2).
Proof.
  unfold merge_all at 1. rewrite foldl_app. apply foldl_merge_l. unfold merge_all.
  generalize (normal_init a). generalize (init a) at 1 2. induction l1 as [|m l1 IH]; intros s Hs; [done|].
  cbn. apply IH. by apply normal_merge.
Qed.

Lemma normal_merge_all a l : normal a (merge_all a l).
Proof.
  unfold merge_all. generalize (normal_init a). generalize (init a) at 1 2.
  induction l as [|m l IH]; intros s Hs; [done|]. cbn. apply IH. by apply normal_merge.
Qed.

#[export] Instance merge_all_perm a : Proper ((≡ₚ) ==> (=)) (merge_all a).
Proof.
  intros l l' Hp. unfold merge_all. generalize (init a). induction Hp as [|x l l' _ IH|x y l|l l' l'' _ IH1 _ IH2];
    intros s; cbn; [done|apply IH| |by rewrite IH1]. f_equal.
  by rewrite <- (assoc (merge a)), (comm (merge a) y x), (assoc (merge a)).
Qed.

Lemma merge_all_concat a ls : merge_all a (concat ls) = merge_all a (merge_all a <$> ls).
Proof.
  induction ls as [|l ls IH]; [done|]. rewrite fmap_cons. cbn [concat]. rewrite merge_all_app, IH.
  change (merge_all a l :: (merge_all a <$> ls)) with ([merge_all a l] ++ (merge_all a <$> ls)).
  rewrite merge_all_app. f_equal. unfold merge_all at 2. cbn.
  by rewrite (comm (merge a)), (normal_merge_all a l).
Qed.

Lemma merge_all_singles a l : merge_all a ((λ m, merge_all a [m]) <$> l) = merge_all a l.
Proof.
  assert (concat ((λ m, [m]) <$> l) = l) as E by (induction l as [|x l IH]; [done|]; cbn; by rewrite <- IH at 2).
  rewrite <- E at 2. rewrite merge_all_concat, <- list_fmap_compose. done.
Qed.

(** *** Columns *)

Lemma length_view a c : acc_ok a c → length (view c) = num_records c.
Proof. intros [_ H]. destruct c; cbn in *; [rewrite length_zip_with; lia|apply length_fmap]. Qed.

Lemma resize_zip_with {A B C} (f : A → B → C) n x y l k :
  length l = length k → zip_with f (resize n x l) (resize n y k) = resize n (f x y) (zip_with f l k).
Proof.
  intros Hl. destruct (decide (n ≤ length l)).
  - rewrite !resize_le by (rewrite ?length_zip_with; lia). symmetry. apply zip_with_take.
  - rewrite !resize_ge by (rewrite ?length_zip_with; lia).
    rewrite zip_with_app by done. f_equal. rewrite length_zip_with, <- Hl, Nat.min_id.
    generalize (n - length l). intros m. induction m; cbn; by f_equal.
Qed.

Lemma resize_fmap {A B} (f : A → B) n x l : f <$> resize n x l = resize n (f x) (f <$> l).
Proof.
  destruct (decide (n ≤ length l)).
  - rewrite !resize_le by (rewrite ?length_fmap; lia). apply fmap_take.
  - rewrite !resize_ge by (rewrite ?length_fmap; lia). by rewrite fmap_app, fmap_replicate, length_fmap.
Qed.

Lemma view_resize a c n : acc_ok a c → view (acc_resize c n) = resize n (init a) (view c).
Proof.
  intros [Hf H]. destruct c as [vs bs|vs].
  - assert (init a = None) as -> by by destruct a.
    apply (resize_zip_with (λ v (b : bool), if b then Some v else None) n 0%Z false vs bs), H.
  - assert (init a = Some 0%Z) as -> by by destruct a. apply resize_fmap.
Qed.

Lemma Forall_resize' {A} (P : A → Prop) n x l : P x → Forall P l → Forall P (resize n x l).
Proof. intros. by apply Forall_resize. Qed.

Lemma in_s_0 : in_s 64 0.
Proof. unfold in_s. lia. Qed.

Lemma acc_resize_ok a c n : acc_ok a c → acc_ok a (acc_resize c n).
Proof.
  intros [Hf H]. destruct c as [vs bs|vs].
  - destruct H as [Hl Hr]. split; [by destruct a|]. cbn. rewrite !length_resize. split; [done|].
    by apply Forall_resize'; [apply in_s_0|].
  - split; [by destruct a|]. by apply Forall_resize'; [apply in_s_0|].
Qed.

Lemma num_records_resize c n : num_records (acc_resize c n) = n.
Proof. destruct c; cbn; apply length_resize. Qed.

Lemma lookup_resize_default {A} (l : list A) n x i :
  length l ≤ n → default x (resize n x l !! i) = default x (l !! i).
Proof.
  intros Hn. rewrite resize_ge by done. destruct (decide (i < length l)).
  - by rewrite lookup_app_l.
  - rewrite lookup_app_r by lia. rewrite (lookup_ge_None_2 l) by lia. cbn.
    destruct (_ !! _) eqn:E; [|done]. by apply lookup_replicate in E as [-> _].
Qed.

(** Growing a column does not change its accumulators. *)
Lemma slot_resize a c n i : acc_ok a c → num_records c ≤ n → slot a (acc_resize c n) i = slot a c i.
Proof.
  intros Hc Hn. unfold slot. rewrite (view_resize a) by done. apply lookup_resize_default.
  by rewrite (length_view a).
Qed.

Lemma ensure_size_ok a c s :
  acc_ok a c →
  acc_ok a (ensure_size c s) ∧ idx_max_value s < num_records (ensure_size c s) ∧
  num_records c ≤ num_records (ensure_size c s) ∧ ∀ i, slot a (ensure_size c s) i = slot a c i.
Proof.
  intros Hc. unfold ensure_size. case_decide as Hd.
  - rewrite num_records_resize. split; [by apply acc_resize_ok|]. split_and!; [lia|lia|].
    intros i. apply slot_resize; [done|lia].
  - split; [done|]. split_and!; [lia|lia|done].
Qed.

Lemma create_acc_column_ok a n :
  acc_ok a (create_acc_column a n) ∧ num_records (create_acc_column a n) = n ∧
  ∀ i, slot a (create_acc_column a n) i = init a.
Proof.
  assert (view (create_acc_column a n) = replicate n (init a)) as Hv.
  { destruct a; cbn; rewrite ?fmap_replicate; try done; induction n; cbn; by f_equal. }
  split; [|split].
  - assert (Forall (in_s 64) (replicate n 0%Z)) by (apply Forall_replicate, in_s_0).
    destruct a; (split; [done|]); cbn; rewrite ?length_replicate; done.
  - destruct a; cbn; apply length_replicate.
  - intros i. unfold slot. rewrite Hv. destruct (_ !! _) eqn:E; [|done]. by apply lookup_replicate in E as [-> _].
Qed.

Lemma slot_lookup a c i : acc_ok a c → i < num_records c → view c !! i = Some (slot a c i).
Proof.
  intros Hc Hi. rewrite <- (length_view a) in Hi by done. apply lookup_lt_is_Some_2 in Hi as [s Hs].
  unfold slot. by rewrite Hs.
Qed.

Lemma slot_insert a c c' i s j :
  acc_ok a c → i < num_records c → view c' = <[i := s]> (view c) →
  slot a c' j = if decide (i = j) then s else slot a c j.
Proof.
  intros Hc Hi Hv. unfold slot. rewrite Hv. case_decide as E.
  - subst. by rewrite list_lookup_insert_eq by (by rewrite (length_view a)).
  - by rewrite list_lookup_insert_ne.
Qed.

Lemma slot_ok a c i : acc_ok a c → value_ok (slot a c i) ∧ (a = Count → is_Some (slot a c i)).
Proof.
  intros [Hf H]. unfold slot. destruct (view c !! i) as [s|] eqn:E; cbn.
  - destruct c as [vs bs|vs]; cbn in E.
    + apply lookup_zip_with_Some in E as (x & b & -> & Hx & _). destruct H as [_ H].
      split; [|by destruct a]. destruct b; [|done]. intros ? [= <-]. by eapply Forall_lookup_1.
    + apply list_lookup_fmap_Some in E as (x & -> & Hx). split; [|eauto].
      intros ? [= <-]. by eapply Forall_lookup_1.
  - destruct a; (split; [|done || (intros; eexists; done)]); cbn; try done. intros ? [= <-]. apply in_s_0.
Qed.

Lemma slot_normal a c i : acc_ok a c → normal a (slot a c i).
Proof. intros Hc. apply normal_ok; by apply slot_ok. Qed.

Lemma freeze_ok a c s :
  acc_ok a c → Forall (λ i, i < num_records c) (idx_iter s) → freeze c s = Ok (slot a c <$> idx_iter s).
Proof.
  intros Hc Hs. destruct c as [vs bs|vs]; cbn [freeze]; apply rmapM_Ok, Forall2_fmap_r;
    apply Forall_Forall2_diag; eapply Forall_impl; try exact Hs; intros i Hi; unfold compose.
  - pose proof (slot_lookup a _ i Hc Hi) as Hv. cbn [view] in Hv.
    apply lookup_zip_with_Some in Hv as (x & b & -> & Hx & Hb). unfold index. rewrite Hb, Hx. by destruct b.
  - pose proof (slot_lookup a _ i Hc Hi) as Hv. cbn [view] in Hv.
    apply list_lookup_fmap_Some in Hv as (x & -> & Hx). unfold index. by rewrite Hx.
Qed.

Lemma unfreeze_ok a c array :
  acc_ok a c → Forall (λ v, value_ok v ∧ (a = Count → is_Some v)) array →
  acc_ok a (unfreeze c array) ∧ view (unfreeze c array) = array.
Proof.
  intros [Hf _] Hs.
  assert (Hr : Forall (in_s 64) (default 0%Z <$> array)).
  { apply Forall_fmap. eapply Forall_impl; [exact Hs|]. intros [v|] [Hv _]; cbn; [by apply Hv|apply in_s_0]. }
  assert (Hv : view (unfreeze c array) = array).
  { destruct c as [vs bs|vs]; cbn; clear Hr.
    - induction Hs as [|[v|] l _ _ IH]; cbn; try done; by rewrite IH.
    - assert (a = Count) as -> by by destruct a.
      induction Hs as [|v l [_ Hx] _ IH]; cbn; [done|]. destruct (Hx eq_refl) as [x ->]. cbn. by rewrite IH. }
  split; [|done]. destruct c as [vs bs|vs]; (split; [by destruct a|]); cbn; [by rewrite !length_fmap|done].
Qed.

(** *** One row *)

Lemma update_value_ok a values valids i v s :
  acc_ok a (AccPrimColumn values valids) → view (AccPrimColumn values valids) !! i = Some s → in_s 64 v →
  ∃ c, update_value values valids i v (combine a v) = Ok c ∧ acc_ok a c ∧
    num_records c = length values ∧ view c = <[i := merge a s (Some v)]> (view (AccPrimColumn values valids)).
Proof.
  intros [Hf [Hl Hr]] Hs Hv. cbn in *. pose proof Hs as Hs'. apply lookup_zip_with_Some in Hs' as (x & b & -> & Hx & Hb).
  pose proof (lookup_lt_Some _ _ _ Hx). pose proof (lookup_lt_Some _ _ _ Hb).
  unfold update_value. rewrite (proj2 (index_Ok _ _ _) Hb). cbn [mbind Result_bind]. destruct b.
  - rewrite (proj2 (index_Ok _ _ _) Hx). cbn [mbind Result_bind]. rewrite set_index_Ok by done. cbn.
    eexists. split; [done|]. split; [split; [done|split; [by rewrite length_insert|]]|].
    { apply Forall_insert; [done|]. apply combine_ok; [done|]. by eapply Forall_lookup_1. }
    split; [cbn; by rewrite length_insert|]. rewrite <- (list_insert_id valids i true Hb) at 1.
    symmetry. apply (insert_zip_with (λ v (b : bool), if b then Some v else None) _ _ i _ true).
  - rewrite set_index_Ok by done. cbn [mbind Result_bind]. rewrite set_index_Ok by done. cbn.
    eexists. split; [done|]. split; [split; [done|split; [by rewrite !length_insert|by apply Forall_insert]]|].
    split; [cbn; by rewrite length_insert|].
    symmetry. apply (insert_zip_with (λ v (b : bool), if b then Some v else None) _ _ i _ true).
Qed.

Lemma count_add_ok values i n add :
  Forall (in_s 64) values → values !! i = Some n → in_s 64 add →
  ∃ c, count_add values i add = Ok c ∧ acc_ok Count c ∧ num_records c = length values ∧
    view c = <[i := merge Count (Some n) (Some add)]> (Some <$> values).
Proof.
  intros Hr Hi Hadd. pose proof (lookup_lt_Some _ _ _ Hi). unfold count_add. rewrite decide_False by lia.
  rewrite (proj2 (index_Ok _ _ _) Hi). cbn [mbind Result_bind]. rewrite set_index_Ok by done.
  eexists. split; [done|]. split; [split; [done|]|split; [cbn; by rewrite length_insert|cbn; by rewrite list_fmap_insert]].
  apply Forall_insert; [done|]. apply wraps_bound. lia.
Qed.

Lemma all_valid_ok args j :
  Forall (λ arg, j < length arg) args →
  all_valid args j = Ok (bool_decide (Forall is_Some (arg_row args j))).
Proof.
  induction 1 as [|arg args Hj _ IH]; [done|]. cbn [all_valid arg_row fmap list_fmap].
  destruct (lookup_lt_is_Some_2 arg j Hj) as [v Hv]. rewrite (proj2 (index_Ok _ _ _) Hv), Hv. cbn.
  case_decide as Hs.
  - rewrite IH. f_equal. apply bool_decide_ext. unfold arg_row. rewrite Forall_cons. naive_solver.
  - rewrite bool_decide_false; [done|]. by intros [? _]%Forall_cons.
Qed.

(** Row [j] can be read from the argument arrays, and there is one for all but a count. *)
Definition row_ok (a : AggKind) (args : list Array) (j : nat) : Prop :=
  Forall (λ arg, j < length arg) args ∧ Forall value_ok (arg_row args j) ∧ (a = Count ∨ args ≠ []).

Lemma update_row_ok a args c i j :
  acc_ok a c → i < num_records c → row_ok a args j →
  ∃ c', update_row a args c (i, j) = Ok c' ∧ acc_ok a c' ∧ num_records c' = num_records c ∧
    view c' = <[i := merge a (slot a c i) (contrib a (arg_row args j))]> (view c).
Proof.
  intros Hc Hi (Hargs & Hvals & Hne). pose proof (slot_lookup a c i Hc Hi) as Hs. destruct c as [vs bs|vs].
  - set (s := slot a _ i) in *. assert (Hmain : ∃ c', (partial_arg ← index args 0; v ← index partial_arg j;
        match v with
        | Some partial_value => update_value vs bs i partial_value (combine a partial_value)
        | None => Ok (AccPrimColumn vs bs)
        end) = Ok c' ∧ acc_ok a c' ∧ num_records c' = length vs ∧
        view c' = <[i := merge a s (mjoin (head (arg_row args j)))]> (view (AccPrimColumn vs bs))).
    { destruct args as [|arg args]; [destruct Hc as [? _]; destruct a, Hne; done|].
      apply Forall_cons in Hargs as [Hj _]. apply Forall_cons in Hvals as [Hval _].
      destruct (lookup_lt_is_Some_2 arg j Hj) as [v Hv]. rewrite Hv in Hval. cbn [arg_row fmap list_fmap].
      change (index (arg :: args) 0) with (Ok arg). cbn [mbind Result_bind].
      rewrite (proj2 (index_Ok _ _ _) Hv), Hv. cbn [mbind Result_bind default]. destruct v as [v|].
      - destruct (update_value_ok a vs bs i v s Hc Hs) as (c' & -> & ? & ? & ?); [by apply Hval|]. eauto.
      - eexists. split; [done|]. split; [done|]. split; [done|]. cbn. destruct s; by rewrite list_insert_id. }
    destruct Hc as [? _]. destruct a; done.
  - assert (a = Count) as -> by (destruct Hc as [? _]; by destruct a). cbn [update_row].
    rewrite all_valid_ok by done. cbn [mbind Result_bind]. destruct Hc as [_ Hr].
    cbn [view] in Hs. apply list_lookup_fmap_Some in Hs as (n & E & Hn). rewrite E. unfold contrib.
    assert ((if decide (Forall is_Some (arg_row args j)) then 1 else 0)%Z
      = (if bool_decide (Forall is_Some (arg_row args j)) then 1 else 0)%Z) as -> by (case_bool_decide; by case_decide).
    apply (count_add_ok vs i n); [done|done|]. case_bool_decide; unfold in_s; lia.
Qed.

Lemma merge_row_ok a m c i j :
  acc_ok a c → acc_ok a m → i < num_records c → j < num_records m →
  ∃ c', merge_row a m c (i, j) = Ok c' ∧ acc_ok a c' ∧ num_records c' = num_records c ∧
    view c' = <[i := merge a (slot a c i) (slot a m j)]> (view c).
Proof.
  intros Hc Hm Hi Hj. pose proof (slot_lookup a c i Hc Hi) as Hs. pose proof (slot_lookup a m j Hm Hj) as Hv.
  pose proof Hc as [Hf _]. pose proof Hm as [Hfm Hrm]. destruct c as [vs bs|vs].
  - destruct m as [mvs mbs|mvs]; [|by destruct a]. cbn [view] in Hv. destruct Hrm as [_ Hrm].
    set (s := slot a (AccPrimColumn vs bs) i) in *. set (v := slot a (AccPrimColumn mvs mbs) j) in *.
    apply lookup_zip_with_Some in Hv as (x & b & Ev & Hx & Hb).
    assert (Hmain : ∃ c', (valid ← index mbs j;
        if valid : bool then merging_value ← index mvs j; update_value vs bs i merging_value (combine a merging_value)
        else Ok (AccPrimColumn vs bs)) = Ok c' ∧ acc_ok a c' ∧ num_records c' = length vs ∧
        view c' = <[i := merge a s v]> (view (AccPrimColumn vs bs))).
    { rewrite (proj2 (index_Ok _ _ _) Hb), Ev. cbn [mbind Result_bind]. destruct b.
      - rewrite (proj2 (index_Ok _ _ _) Hx). cbn [mbind Result_bind].
        apply (update_value_ok a vs bs i x s Hc Hs). by eapply Forall_lookup_1.
      - eexists. split; [done|]. split; [done|]. split; [done|]. destruct s; by rewrite list_insert_id. }
    by destruct a.
  - assert (a = Count) as -> by by destruct a. destruct m as [mvs mbs|mvs]; [done|]. cbn [view] in Hs, Hv. cbn [merge_row].
    apply list_lookup_fmap_Some in Hv as (k & -> & Hk). apply list_lookup_fmap_Some in Hs as (n & -> & Hn).
    rewrite (proj2 (index_Ok _ _ _) Hk). cbn [mbind Result_bind]. destruct Hc as [_ Hr].
    apply (count_add_ok vs i n); [done..|]. by eapply Forall_lookup_1.
Qed.

(** *** Selections of rows *)

(** What the pairs of a zipped selection send to accumulator [i]. *)
Definition picks (pairs : list (nat * nat)) (i : nat) : list nat := snd <$> filter (λ p, p.1 = i) pairs.

Lemma picks_app p1 p2 i : picks (p1 ++ p2) i = picks p1 i ++ picks p2 i.
Proof. unfold picks. by rewrite filter_app, fmap_app. Qed.

Lemma elem_of_zip_fst {A B} (l : list A) (k : list B) p : p ∈ zip l k → p.1 ∈ l ∧ p.2 ∈ k.
Proof. destruct p. intros H. split; [by eapply elem_of_zip_l|by eapply elem_of_zip_r]. Qed.

Lemma idx_zipped_elem s1 s2 p : p ∈ idx_zipped s1 s2 → p.1 ∈ idx_iter s1 ∧ p.2 ∈ idx_iter s2.
Proof.
  destruct s1, s2; cbn; try apply elem_of_zip_fst; rewrite ?list_elem_of_fmap; intros H;
    repeat match goal with H : ∃ _, _ |- _ => destruct H as (? & -> & ?) end; set_solver.
Qed.

Lemma max_list_elem n l : n ∈ l → n ≤ max_list l.
Proof. induction l as [|m l IH]; [set_solver|]. cbn. intros [->|H]%elem_of_cons; [lia|]. specialize (IH H). lia. Qed.

Lemma idx_max_elem s i : i ∈ idx_iter s → i ≤ idx_max_value s.
Proof.
  destruct s; cbn [idx_iter idx_max_value].
  - set_solver.
  - apply max_list_elem.
  - apply max_list_elem.
  - unfold range. rewrite elem_of_seq. lia.
Qed.

Lemma fold_pairs_ok a (f : AccColumn → nat * nat → Result AccColumn) (g : nat → option Z) (P : nat → Prop) c pairs :
  acc_ok a c → Forall (λ p, p.1 < num_records c ∧ P p.2) pairs →
  (∀ c i j, acc_ok a c → i < num_records c → P j → ∃ c', f c (i, j) = Ok c' ∧ acc_ok a c' ∧
     num_records c' = num_records c ∧ view c' = <[i := merge a (slot a c i) (g j)]> (view c)) →
  ∃ c', rfoldM f c pairs = Ok c' ∧ acc_ok a c' ∧ num_records c' = num_records c ∧
    ∀ i, slot a c' i = foldl (merge a) (slot a c i) (g <$> picks pairs i).
Proof.
  intros Hc Hp Hf. revert c Hc Hp. induction pairs as [|[i j] pairs IH]; intros c Hc Hp; [by exists c|].
  apply Forall_cons in Hp as [[Hi Hj] Hp]. cbn [fst snd] in Hi, Hj.
  destruct (Hf c i j Hc Hi Hj) as (c' & He & Hc' & Hn & Hv). cbn [rfoldM]. rewrite He. cbn [mbind Result_bind].
  destruct (IH c' Hc') as (c'' & -> & Hc'' & Hn' & Hs); [by rewrite Hn|].
  exists c''. split; [done|]. split; [done|]. split; [congruence|]. intros k. rewrite Hs.
  rewrite (slot_insert a c c' i _ k Hc Hi Hv). unfold picks. rewrite filter_cons. cbn [fst]. case_decide as E; [|done].
  subst. done.
Qed.

(** Adding rows to the accumulators of a selection. *)
Lemma partial_update_ok a c s args argsel :
  acc_ok a c → (a = Count ∨ args ≠ []) → (∀ j, j ∈ idx_iter argsel → row_ok a args j) →
  ∃ c', partial_update a c s args argsel = Ok c' ∧ acc_ok a c' ∧
    num_records c ≤ num_records c' ∧ idx_max_value s < num_records c' ∧
    ∀ i, slot a c' i = foldl (merge a) (slot a c i) ((λ j, contrib a (arg_row args j)) <$> picks (idx_zipped s argsel) i).
Proof.
  intros Hc Hne Hrows. unfold partial_update.
  assert (∃ x, (if decide (a = Count) then Ok [] else index args 0) = Ok x) as [x ->].
  { case_decide; [eauto|]. destruct Hne as [?|Hne]; [done|]. destruct args; [done|]. eexists. done. }
  cbn [mbind Result_bind]. rewrite (proj1 Hc).
  destruct (ensure_size_ok a c s Hc) as (Ho & Hmax & Hle & Hsl).
  destruct (fold_pairs_ok a (update_row a args) (λ j, contrib a (arg_row args j)) (row_ok a args)
    (ensure_size c s) (idx_zipped s argsel) Ho) as (c' & -> & Hc' & Hn & Hs).
  { apply Forall_forall. intros p [H1 H2]%idx_zipped_elem. split; [|by apply Hrows].
    apply idx_max_elem in H1. lia. }
  { intros. by apply update_row_ok. }
  exists c'. split; [done|]. split; [done|]. split; [lia|]. split; [lia|]. intros i. by rewrite Hs, Hsl.
Qed.

(** Adding the accumulators of another column. *)
Lemma partial_merge_ok a c s m msel :
  acc_ok a c → acc_ok a m → (∀ j, j ∈ idx_iter msel → j < num_records m) →
  ∃ c', partial_merge a c s m msel = Ok c' ∧ acc_ok a c' ∧
    num_records c ≤ num_records c' ∧ idx_max_value s < num_records c' ∧
    ∀ i, slot a c' i = foldl (merge a) (slot a c i) (slot a m <$> picks (idx_zipped s msel) i).
Proof.
  intros Hc Hm Hrows. unfold partial_merge. rewrite (proj1 Hc), (proj1 Hm). cbn [andb].
  destruct (ensure_size_ok a c s Hc) as (Ho & Hmax & Hle & Hsl).
  destruct (fold_pairs_ok a (merge_row a m) (slot a m) (λ j, j < num_records m)
    (ensure_size c s) (idx_zipped s msel) Ho) as (c' & -> & Hc' & Hn & Hs).
  { apply Forall_forall. intros p [H1 H2]%idx_zipped_elem. split; [|by apply Hrows].
    apply idx_max_elem in H1. lia. }
  { intros. by apply merge_row_ok. }
  exists c'. split; [done|]. split; [done|]. split; [lia|]. split; [lia|]. intros i. by rewrite Hs, Hsl.
Qed.

(** *** Spilling *)

Lemma testbit_byte_of bits j : Z.testbit (byte_of bits) (Z.of_nat j) = default false (bits !! j).
Proof.
  revert j. induction bits as [|b bits IH]; intros j; [apply Z.testbit_0_l|]. cbn [byte_of foldr]. fold (byte_of bits).
  rewrite (Z.add_comm (Z.b2z b)). destruct j as [|j].
  - cbn [Z.of_nat lookup list_lookup]. apply Z.testbit_0_r.
  - rewrite Nat2Z.inj_succ, Z.testbit_succ_r by lia. apply IH.
Qed.

Lemma length_pack_bits bits : length (pack_bits bits) = div_ceil (length bits) 8.
Proof. unfold pack_bits. by rewrite length_fmap, length_seq. Qed.

Lemma unpack_bits bits : bit_at (pack_bits bits) <$> seq 0 (length bits) = bits.
Proof.
  apply list_eq. intros i. destruct (decide (i < length bits)) as [Hi|Hi].
  - rewrite list_lookup_fmap, lookup_seq_lt by done. cbn [fmap option_fmap option_map plus].
    destruct (lookup_lt_is_Some_2 bits i Hi) as [b Hb]. rewrite Hb. f_equal.
    unfold bit_at, pack_bits. rewrite list_lookup_fmap, lookup_seq_lt; cbn [fmap option_fmap option_map plus].
    + rewrite testbit_byte_of, lookup_take_lt by (apply Nat.mod_upper_bound; lia).
      rewrite lookup_drop, <- Nat.div_mod by lia. by rewrite Hb.
    + unfold div_ceil. apply Nat.Div0.div_lt_upper_bound.
      pose proof (Nat.div_mod (length bits + (8 - 1)) 8 ltac:(lia)).
      pose proof (Nat.mod_upper_bound (length bits + (8 - 1)) 8 ltac:(lia)). lia.
  - rewrite !lookup_ge_None_2; [done|lia|rewrite length_fmap, length_seq; lia].
Qed.

Lemma fill_one_ok rv values pos i v :
  rv !! pos = Some v → i < length values → fill_one rv (values, pos) i = Ok (<[i := v]> values, pos + 1).
Proof. intros Hv Hi. unfold fill_one. rewrite (proj2 (index_Ok _ _ _) Hv). cbn. by rewrite set_index_Ok. Qed.

(** The loop of [unspill] puts the values back at the valid rows. *)
Lemma fill_ok vs pre done_ rv :
  rv = done_ ++ omap id vs →
  rfoldM (fill_one rv) (pre ++ replicate (length vs) 0%Z, length done_)
    (iter_ones (length pre) ((λ v : option Z, bool_decide (is_Some v)) <$> vs))
  = Ok (pre ++ (default 0%Z <$> vs), length rv).
Proof.
  revert pre done_. induction vs as [|v vs IH]; intros pre done_ Hrv.
  { cbn in Hrv. rewrite Hrv. cbn. by rewrite !app_nil_r. }
  rewrite !fmap_cons. cbn [length replicate iter_ones]. destruct v as [v|].
  - change (omap id (Some v :: vs)) with ([v] ++ omap id vs) in Hrv.
    rewrite bool_decide_true by eauto. cbn [rfoldM]. rewrite (fill_one_ok _ _ _ _ v);
      [|rewrite Hrv, lookup_app_r, Nat.sub_diag by lia; done|rewrite length_app; cbn; lia]. cbn [mbind Result_bind].
    rewrite insert_app_r_alt, Nat.sub_diag by lia. cbn [insert list_insert].
    specialize (IH (pre ++ [v]) (done_ ++ [v])). rewrite !length_app in IH. cbn [length] in IH.
    rewrite (Nat.add_comm (length pre)) in IH. cbn [plus] in IH.
    change (v :: replicate (length vs) 0%Z) with ([v] ++ replicate (length vs) 0%Z).
    rewrite app_assoc, IH by (by rewrite <- app_assoc). cbn [default]. by rewrite <- !app_assoc.
  - rewrite bool_decide_false by (by intros [? ?]).
    specialize (IH (pre ++ [0%Z]) done_). rewrite length_app in IH. cbn [length] in IH.
    rewrite (Nat.add_comm (length pre)) in IH. cbn [plus] in IH.
    change (0%Z :: replicate (length vs) 0%Z) with ([0%Z] ++ replicate (length vs) 0%Z).
    rewrite app_assoc, IH by done. cbn [default]. by rewrite <- app_assoc.
Qed.

Lemma read_counts_app vs acc rest :
  Forall (in_s 64) vs →
  read_counts (length vs) acc (concat ((λ v, len_bytes write_len_fuel (usize v)) <$> vs) ++ rest) = Ok (acc ++ vs, rest).
Proof.
  intros Hvs. revert acc. induction Hvs as [|v vs Hv _ IH]; intros acc; cbn [length read_counts].
  { cbn. by rewrite app_nil_r. }
  rewrite fmap_cons. cbn [concat]. rewrite <- app_assoc.
  rewrite (reader_bind_Ok _ _ _ _ _ (read_len_app (usize v) _ (wrapu_bound 64 v ltac:(lia)))).
  unfold i64, usize. rewrite wraps_wrapu, wraps_id by (done || lia). rewrite IH. by rewrite <- app_assoc.
Qed.

(** The parts of a spilled selection [l] of accumulators. *)
Lemma prim_spill_ok values valids s l :
  Forall2 (λ i v, view (AccPrimColumn values valids) !! i = Some v) (idx_iter s) l →
  (Z.of_nat (length (idx_iter s)) < 2 ^ 64)%Z →
  acc_spill (AccPrimColumn values valids) s =
    Ok (len_bytes write_len_fuel (Z.of_nat (length (omap id l))) ++
        pack_bits ((λ v, bool_decide (is_Some v)) <$> l) ++ to_raw 8 (omap id l)).
Proof.
  intros Hl Hlt. cbn [acc_spill].
  assert (rmapM (index valids) (idx_iter s) = Ok ((λ v, bool_decide (is_Some v)) <$> l)) as ->.
  { apply rmapM_Ok, Forall2_fmap_r. eapply Forall2_impl; [exact Hl|]. cbn. intros i v Hv.
    apply lookup_zip_with_Some in Hv as (x & b & -> & _ & Hb). unfold index. rewrite Hb. by destruct b. }
  assert (rmapM (λ i, valid ← index valids i; if valid : bool then v ← index values i; Ok [v] else Ok []) (idx_iter s)
    = Ok (option_list <$> l)) as Hvs.
  { apply rmapM_Ok, Forall2_fmap_r. eapply Forall2_impl; [exact Hl|]. cbn. intros i v Hv.
    apply lookup_zip_with_Some in Hv as (x & b & -> & Hx & Hb). unfold index. rewrite Hb, Hx. by destruct b. }
  assert (length (filter (λ b : bool, b = true) ((λ v, bool_decide (is_Some v)) <$> l)) = length (omap id l)) as Hn.
  { clear. induction l as [|[v|] l IH]; [done| |]; rewrite fmap_cons, filter_cons; cbn; [|done]. by rewrite <- IH. }
  assert (concat (option_list <$> l) = omap id l) as Hc.
  { clear. induction l as [|[v|] l IH]; [done| |]; rewrite fmap_cons; cbn; by rewrite IH. }
  cbn [mbind Result_bind]. rewrite Hn, write_len_Ok.
  - cbn [mbind Result_bind]. rewrite Hvs. cbn [mbind Result_bind]. by rewrite Hc.
  - apply Forall2_length in Hl. assert (length (omap id l) ≤ length l).
    { clear. induction l as [|[v|] l IH]; cbn; lia. } unfold in_u. lia.
Qed.

(** Reading a spilled selection gives a column of the selected accumulators. *)
Lemma acc_spill_ok a c s :
  acc_ok a c → Forall (λ i, i < num_records c) (idx_iter s) → (Z.of_nat (length (idx_iter s)) < 2 ^ 64)%Z →
  ∃ bs c', acc_spill c s = Ok bs ∧
    (∀ rest, acc_unspill (create_acc_column a 0) (length (idx_iter s)) (bs ++ rest) = Ok (c', rest)) ∧
    acc_ok a c' ∧ view c' = slot a c <$> idx_iter s.
Proof.
  intros Hc Hs Hlt. set (l := slot a c <$> idx_iter s).
  assert (Hl : Forall2 (λ i v, view c !! i = Some v) (idx_iter s) l).
  { apply Forall2_fmap_r, Forall_Forall2_diag. eapply Forall_impl; [exact Hs|].
    intros i Hi. unfold compose. by apply slot_lookup. }
  assert (Hok : Forall (λ v, value_ok v ∧ (a = Count → is_Some v)) l).
  { apply Forall_fmap, Forall_forall. intros i _. by apply slot_ok. }
  assert (Hlen : length l = length (idx_iter s)) by apply length_fmap. rewrite <- Hlen in *.
  pose proof (unfreeze_ok a _ l (proj1 (create_acc_column_ok a 0)) Hok) as Hu.
  destruct c as [vs bs|vs].
  - assert (create_acc_column a 0 = AccPrimColumn [] []) as E by (destruct Hc as [? _]; by destruct a).
    eexists _, _. split; [by apply prim_spill_ok; rewrite <- ?Hlen|]. split; [|exact Hu].
    intros rest. rewrite E. cbn [acc_unspill unfreeze]. rewrite <- !app_assoc.
    assert (length (omap id l) ≤ length l) by (clear; induction l as [|[v|] l IH]; cbn; lia).
    erewrite reader_bind_Ok by (apply read_len_app; unfold in_u; lia).
    erewrite reader_bind_Ok by (apply read_exact_app; by rewrite length_pack_bits, length_fmap).
    rewrite Nat2Z.id. erewrite reader_bind_Ok by (apply read_exact_app; by rewrite length_to_raw).
    rewrite from_to_raw, <- list_fmap_compose.
    assert (i64 ∘ wrapu (8 * Z.of_nat 8) <$> omap id l = omap id l) as ->.
    { clear -Hok. rewrite <- (list_fmap_id (omap id l)) at 2. apply list_fmap_ext. intros i v Hv. unfold compose, i64.
      change (8 * Z.of_nat 8)%Z with 64%Z. rewrite wraps_wrapu by lia. apply wraps_id; [lia|].
      apply list_elem_of_lookup_2, list_elem_of_omap in Hv as (o & Ho & Hv). rewrite Forall_forall in Hok. by eapply Hok. }
    rewrite resize_nil. pose proof (unpack_bits ((λ v, bool_decide (is_Some v)) <$> l)) as Hb.
    rewrite length_fmap in Hb. rewrite Hb.
    pose proof (fill_ok l [] [] _ eq_refl) as Hfill. cbn [app length] in Hfill. by rewrite Hfill.
  - assert (a = Count) as -> by (destruct Hc as [? _]; by destruct a).
    exists (concat ((λ v, len_bytes write_len_fuel (usize v)) <$> (default 0%Z <$> l))), (unfreeze (create_acc_column Count 0) l).
    split; [|split; [|exact Hu]].
    + cbn [acc_spill]. assert (rmapM (λ i, v ← index vs i; write_len (usize v)) (idx_iter s)
        = Ok ((λ v, len_bytes write_len_fuel (usize v)) <$> (default 0%Z <$> l))) as ->; [|done].
      apply rmapM_Ok. rewrite <- list_fmap_compose. apply Forall2_fmap_r. eapply Forall2_impl; [exact Hl|].
      cbn [view]. intros i v Hv. apply list_lookup_fmap_Some in Hv as (x & -> & Hx). unfold index, compose. rewrite Hx.
      cbn [mbind Result_bind default]. by apply write_len_Ok, wrapu_bound.
    + intros rest. cbn [create_acc_column acc_unspill unfreeze replicate].
      rewrite (reader_bind_Ok _ _ _ tt (concat _ ++ rest)) by done.
      erewrite reader_bind_Ok; [done|]. rewrite <- (length_fmap (default 0%Z) l). rewrite read_counts_app; [done|].
      apply Forall_fmap. eapply Forall_impl; [exact Hok|]. intros [v|] [Hv _]; cbn; [by apply Hv|apply in_s_0].
Qed.

(** Spilling selected accumulators of a primitive or count column and reading them back,
    with any bytes behind, gives a column with the same values and nulls and consumes
    exactly its bytes. *)
Theorem acc_spill_roundtrip a c s :
  acc_ok a c → Forall (λ i, i < num_records c) (idx_iter s) → (Z.of_nat (length (idx_iter s)) < 2 ^ 64)%Z →
  ∃ bs c' array, acc_spill c s = Ok bs ∧
    (∀ rest, acc_unspill (create_acc_column a 0) (length (idx_iter s)) (bs ++ rest) = Ok (c', rest)) ∧
    freeze c s = Ok array ∧ freeze c' (Range 0 (length (idx_iter s))) = Ok array.
Proof.
  intros Hc Hs Hlt. destruct (acc_spill_ok a c s Hc Hs Hlt) as (bs & c' & He & Hr & Hc' & Hv).
  exists bs, c', (slot a c <$> idx_iter s). split; [done|]. split; [done|]. split; [by apply freeze_ok|].
  pose proof (length_view a c' Hc') as Hl. rewrite Hv, length_fmap in Hl.
  rewrite (freeze_ok a) by (done || (apply Forall_forall; intros i Hi; cbn in Hi; unfold range in Hi; apply elem_of_seq in Hi; lia)).
  f_equal. rewrite <- Hv. unfold slot. rewrite Hv. cbn [idx_iter]. unfold range. rewrite Nat.sub_0_r.
  apply list_eq. intros i. rewrite !list_lookup_fmap. destruct (decide (i < length (idx_iter s))) as [Hi|Hi].
  - rewrite lookup_seq_lt by done. cbn. rewrite list_lookup_fmap. destruct (lookup_lt_is_Some_2 _ _ Hi) as [j ->]. done.
  - rewrite (lookup_ge_None_2 (seq _ _)), (lookup_ge_None_2 (idx_iter s)) by (rewrite ?length_seq; lia). done.
Qed.

Lemma acc_spill_roundtrip_witness :
  ∃ bs c', acc_spill (AccPrimColumn [5; 0; -7] [true; false; true])%Z (IndicesU32 [2; 1; 0]%Z) = Ok bs ∧
    acc_unspill (create_acc_column Sum 0) 3 (bs ++ [42]%Z) = Ok (c', [42]%Z) ∧
    freeze c' (Range 0 3) = Ok [Some (-7); None; Some 5]%Z.
Proof.
  destruct (acc_spill_roundtrip Sum (AccPrimColumn [5; 0; -7] [true; false; true])%Z (IndicesU32 [2; 1; 0]%Z))
    as (bs & c' & array & Hs & Hu & Hf & Hf').
  - split; [reflexivity|]. split; [reflexivity|]. repeat constructor; unfold in_s; lia.
  - vm_compute. repeat constructor.
  - vm_compute. reflexivity.
  - exists bs, c'. split; [exact Hs|]. split; [exact (Hu [42]%Z)|]. etransitivity; [exact Hf'|]. rewrite <- Hf. reflexivity.
Defined.
