(* ===== verification/AggCtx.v ===== *)
(** * The aggregation context

    native-engine/datafusion-ext-plans/src/agg/{acc,agg_ctx}.rs: the table of accumulator
    columns and the operations that feed an input batch to all aggregates of a plan node,
    with their modes and FILTER clauses.

    Column values are of an abstract type [V]; [to_i64] and [of_i64] are the values of
    64-bit integer columns.  Expressions belong to DataFusion: an expression is a function
    from a batch to a column that may fail.  The values of a FILTER are pairs of the value
    bit and the validity bit of a BooleanArray.  [row_encode] and [row_decode] are arrow's
    row format for one row of the grouping columns.

    [batch_data] states what a batch contributes to each aggregate, row by row;
    [update_batch_ok] shows that the update adds exactly these contributions to the
    accumulators the index selection names. *)

From S2P Require Import Prelude MachineInt Io Arrow BatchSerde Joins AggAcc.

Set Default Proof Using "Type".

Local Abbreviation Array := (list (option Z)).
Local Abbreviation bytes := (list Z).

(** ** Accumulator tables *)

Local Abbreviation AccTable := (list AccColumn).

Definition acc_table_new (cols : list AccColumn) (n : nat) : Result AccTable :=
  _ ← rassert (forallb (λ c, bool_decide (num_records c = n)) cols);
  Ok cols.

Definition acc_table_resize (t : AccTable) (n : nat) : AccTable := (λ c, acc_resize c n) <$> t.

(** [AccTable::ensure_size]: unlike the method of a column, up to the end of a range. *)
Definition idx_num_records (s : IdxSelection) : nat :=
  match s with
  | Single idx => idx + 1
  | Indices _ | IndicesU32 _ => if decide (idx_iter s = []) then 0 else max_list (idx_iter s) + 1
  | Range _ end_ => end_
  end.

Definition acc_table_ensure_size (t : AccTable) (s : IdxSelection) : AccTable :=
  (λ c, if decide (num_records c < idx_num_records s) then acc_resize c (idx_num_records s) else c) <$> t.

(** ** Contexts *)

Inductive AggMode := Partial | PartialMerge | Final.
#[export] Instance AggMode_eq_dec : EqDecision AggMode.
Proof. solve_decision. Defined.

Section AggCtx.
Context {V : Type} (to_i64 : V → option Z) (of_i64 : option Z → V).
Context (row_encode : list V → bytes) (row_decode : bytes → Result (list V)).

Local Abbreviation Batch := (RecordBatch (V:=V)).
Local Abbreviation BooleanArray := (list (bool * bool)).

Record AggExpr := mkAggExpr {
  mode : AggMode;
  agg : AggKind;
  exprs : list (Batch → Result Array);
  filter_expr : option (Batch → Result BooleanArray) }.

Definition is_partial (e : AggExpr) : bool := bool_decide (mode e = Partial).
Definition is_final (e : AggExpr) : bool := bool_decide (mode e = Final).
Definition is_partial_merge (e : AggExpr) : bool := bool_decide (mode e = PartialMerge).

Record AggContext := mkAggContext {
  need_partial_update : bool;
  need_partial_merge : bool;
  need_final_merge : bool;
  need_partial_update_aggs : list (nat * AggKind);
  need_partial_merge_aggs : list (nat * AggKind);
  groupings : list (Batch → Result (list V));
  aggs : list AggExpr;
  input_acc_arrays_len : nat;
  output_num_fields : nat }.

(** The accumulators of the four functions are single arrays. *)
Definition acc_arrays_len (e : AggExpr) : nat := 1.

Definition agg_ctx_try_new (groupings : list (Batch → Result (list V))) (aggs : list AggExpr) : Result AggContext :=
  let need_partial_update := existsb is_partial aggs in
  let need_partial_merge := existsb (λ e, negb (is_partial e)) aggs in
  let need_final_merge := existsb is_final aggs in
  _ ← rassert (negb (need_final_merge && existsb (λ e, negb (is_final e)) aggs));
  _ ← rassert (forallb (λ e, bool_decide (filter_expr e = None) || is_partial e) aggs);
  Ok (mkAggContext need_partial_update need_partial_merge need_final_merge
    ((λ p, (p.1, agg p.2)) <$> filter (λ p, is_partial p.2 = true) (enumerate aggs))
    ((λ p, (p.1, agg p.2)) <$> filter (λ p, is_partial p.2 = false) (enumerate aggs))
    groupings aggs
    (sum_list_with (λ e, if is_partial_merge e || is_final e then acc_arrays_len e else 0) aggs)
    (length groupings + length aggs)).

Definition create_acc_table (ctx : AggContext) (n : nat) : Result AccTable :=
  acc_table_new ((λ e, create_acc_column (agg e) n) <$> aggs ctx) n.

(** [RowConverter::convert_columns]: the number of rows is that of the first column. *)
Definition convert_columns (arrays : list (list V)) : Result (list bytes) :=
  let n := match arrays with [] => 0 | array :: _ => length array end in
  rmapM (λ j, row ← rmapM (λ array, index array j) arrays; Ok (row_encode row)) (range 0 n).

Definition create_grouping_rows (ctx : AggContext) (batch : Batch) : Result (list bytes) :=
  arrays ← rmapM (λ e, e batch) (groupings ctx);
  convert_columns arrays.

(** The loop that hands each partial aggregate its slice of the evaluated arguments; the
    state is [input_arrays] and [offset]. *)
Definition take_args (cols : list Array) (st : list (list Array) * nat) (e : AggExpr) : Result (list (list Array) * nat) :=
  let '(input_arrays, offset) := st in
  if is_partial e then
    let num_agg_exprs := length (exprs e) in
    prepared ← subslice cols offset (offset + num_agg_exprs);
    Ok (input_arrays ++ [prepared], offset + num_agg_exprs)
  else Ok (input_arrays ++ [[]], offset).

Definition input_arrays (ctx : AggContext) (batch : Batch) : Result (list (list Array)) :=
  agg_exprs_batch ← rmapM (λ f, f batch) (concat (exprs <$> filter (λ e, is_partial e = true) (aggs ctx)));
  st ← rfoldM (take_args agg_exprs_batch) ([], 0) (aggs ctx);
  Ok st.1.

Definition eval_filter (e : AggExpr) (b : Batch) : Result (option BooleanArray) :=
  match filter_expr e with
  | None => Ok None
  | Some f => array ← f b; Ok (Some array)
  end.

Definition filter_arrays (ctx : AggContext) (batch : Batch) : Result (list (option BooleanArray)) :=
  rmapM (λ e, eval_filter e batch) (aggs ctx).

(** [build_filtered_indices]: [filter_array.value(i)] is the value bit, whether the slot is
    valid or not. *)
Definition build_filtered_indices (acc_idx : IdxSelection) (batch_start_idx batch_end_idx : nat)
    (filter_array : BooleanArray) : Result (list nat * list nat) :=
  rfoldM (λ st i,
      value ← index filter_array i;
      if value.1 : bool then
        acc ← match acc_idx with
              | Single idx => Ok idx
              | Indices _ | IndicesU32 _ => index (idx_iter acc_idx) (i - batch_start_idx)
              | Range start _ => Ok (start + (i - batch_start_idx))
              end;
        Ok (st.1 ++ [acc], st.2 ++ [i])
      else Ok st)
    ([], []) (range batch_start_idx batch_end_idx).

Definition update_agg (arrays : list (list Array)) (filters : list (option BooleanArray)) (acc_idx : IdxSelection)
    (batch_start_idx batch_end_idx : nat) (agg_idx : nat) (a : AggKind) (acc_col : AccColumn) : Result AccColumn :=
  filter ← index filters agg_idx;
  args ← index arrays agg_idx;
  match filter with
  | Some filter_array =>
      '(filtered_acc, filtered_input) ← build_filtered_indices acc_idx batch_start_idx batch_end_idx filter_array;
      if decide (filtered_acc = []) then Ok acc_col
      else partial_update a acc_col (Indices filtered_acc) args (Indices filtered_input)
  | None => partial_update a acc_col acc_idx args (Range batch_start_idx batch_end_idx)
  end.

(** [for (agg_idx, agg) in aggs { .. &mut acc_table.cols_mut()[agg_idx] .. }] *)
Definition for_cols (f : nat → AggKind → AccColumn → Result AccColumn) (t : AccTable) (l : list (nat * AggKind))
    : Result AccTable :=
  rfoldM (λ t '(agg_idx, a), acc_col ← index t agg_idx; acc_col ← f agg_idx a acc_col; set_index t agg_idx acc_col) t l.

(** [AggContext::partial_merge] *)
Definition ctx_partial_merge (ctx : AggContext) (t : AccTable) (acc_idx : IdxSelection) (merging : AccTable)
    (merging_idx : IdxSelection) : Result AccTable :=
  if need_partial_merge ctx then
    for_cols (λ agg_idx a acc_col,
        merging_acc_col ← index merging agg_idx;
        partial_merge a acc_col acc_idx merging_acc_col merging_idx) t (need_partial_merge_aggs ctx)
  else Ok t.

(** The accumulators of the input batch; the state is the table and [acc_arrays_start]. *)
Definition unfreeze_agg (batch : Batch) (batch_start_idx batch_end_idx : nat) (st : AccTable * nat) (p : nat * AggKind)
    : Result (AccTable * nat) :=
  let '(merging, acc_arrays_start) := st in
  array ← index (columns batch) acc_arrays_start;
  array ← subslice array batch_start_idx batch_end_idx;
  col ← index merging p.1;
  merging ← set_index merging p.1 (unfreeze col (to_i64 <$> array));
  Ok (merging, acc_arrays_start + 1).

Definition update_batch_slice_to_acc_table (ctx : AggContext) (batch : Batch) (batch_start_idx batch_end_idx : nat)
    (t : AccTable) (acc_idx : IdxSelection) : Result AccTable :=
  let t := acc_table_ensure_size t acc_idx in
  t ← (if need_partial_update ctx then
         arrays ← input_arrays ctx batch;
         filters ← filter_arrays ctx batch;
         for_cols (update_agg arrays filters acc_idx batch_start_idx batch_end_idx) t (need_partial_update_aggs ctx)
       else Ok t);
  if need_partial_merge ctx then
    merging ← create_acc_table ctx 0;
    _ ← rassert (bool_decide (input_acc_arrays_len ctx ≤ length (columns batch)));
    st ← rfoldM (unfreeze_agg batch batch_start_idx batch_end_idx)
           (merging, length (columns batch) - input_acc_arrays_len ctx) (need_partial_merge_aggs ctx);
    ctx_partial_merge ctx t acc_idx st.1 (Range 0 (batch_end_idx - batch_start_idx))
  else Ok t.

Definition update_batch_to_acc_table (ctx : AggContext) (batch : Batch) (t : AccTable) (acc_idx : IdxSelection)
    : Result AccTable :=
  update_batch_slice_to_acc_table ctx batch 0 (num_rows batch) t acc_idx.

Definition freeze_acc_table (t : AccTable) (s : IdxSelection) : Result (list Array) := rmapM (λ c, freeze c s) t.

Definition build_agg_columns (ctx : AggContext) (t : AccTable) (s : IdxSelection) : Result (list Array) :=
  if need_final_merge ctx then rmapM (λ p, final_merge p.2 s) (zip (aggs ctx) t)
  else freeze_acc_table t s.

(** The grouping columns of some rows; a row converter knows the number of columns. *)
Definition transpose_rows (n : nat) (rows : list (list V)) : Result (list (list V)) :=
  rmapM (λ k, rmapM (λ row, index row k) rows) (range 0 n).

Definition to_columns (arrays : list Array) : list (list V) := (λ array : list (option Z), of_i64 <$> array) <$> arrays.

Definition convert_records_to_batch (ctx : AggContext) (keys : list bytes) (t : AccTable) (s : IdxSelection)
    : Result Batch :=
  rows ← rmapM row_decode keys;
  grouping_columns ← transpose_rows (length (groupings ctx)) rows;
  agg_columns ← build_agg_columns ctx t s;
  try_new_batch (output_num_fields ctx) (grouping_columns ++ to_columns agg_columns) (length keys).

(** The output for a batch once partial aggregation is skipped: one record per row. *)
Definition process_partial_skipped (ctx : AggContext) (batch : Batch) : Sent Batch :=
  run (create_acc_table ctx (num_rows batch)) (λ t,
  run (update_batch_to_acc_table ctx batch t (Range 0 (num_rows batch))) (λ t,
  run (rmapM (λ e, e batch) (groupings ctx)) (λ grouping_columns,
  run (build_agg_columns ctx t (Range 0 (num_rows batch))) (λ agg_columns,
  run (try_new_batch (output_num_fields ctx) (grouping_columns ++ to_columns agg_columns) (num_rows batch))
    (λ output_batch, send output_batch ([], Ok tt)))))).

(** ** What a batch contributes *)

(** SQL's condition for a row to pass a FILTER. *)
Definition sql_true (filter : option BooleanArray) (j : nat) : bool :=
  match filter with
  | None => true
  | Some array => match array !! j with Some (value, valid) => valid && value | None => false end
  end.

(** The arguments of a partial aggregate can be evaluated, and the null slots of its FILTER
    have the value bit false. *)
Definition partial_data (b : Batch) (e : AggExpr) (cs : list (option Z)) : Prop :=
  ∃ args filter, rmapM (λ f, f b) (exprs e) = Ok args ∧ eval_filter e b = Ok filter ∧
    Forall (λ arg, length arg = num_rows b ∧ Forall value_ok arg) args ∧ (agg e = Count ∨ args ≠ []) ∧
    (∀ array, filter = Some array → length array = num_rows b ∧ Forall (λ p, p.2 = false → p.1 = false) array) ∧
    cs = (λ j, if sql_true filter j then contrib (agg e) (arg_row args j) else None) <$> seq 0 (num_rows b).

(** The accumulators of the [r]-th merged aggregate are the [r]-th of the last columns. *)
Definition merge_data (ctx : AggContext) (b : Batch) (k : nat) (e : AggExpr) (cs : list (option Z)) : Prop :=
  ∃ r col, need_partial_merge_aggs ctx !! r = Some (k, agg e) ∧
    columns b !! (length (columns b) - input_acc_arrays_len ctx + r) = Some col ∧ length col = num_rows b ∧
    cs = to_i64 <$> col ∧ Forall (λ v, value_ok v ∧ (agg e = Count → is_Some v)) cs.

Definition batch_data (ctx : AggContext) (b : Batch) (css : list (list (option Z))) : Prop :=
  length css = length (aggs ctx) ∧ input_acc_arrays_len ctx ≤ length (columns b) ∧
  ∀ k e cs, aggs ctx !! k = Some e → css !! k = Some cs →
    if is_partial e then partial_data b e cs else merge_data ctx b k e cs.

Definition table_ok (ctx : AggContext) (t : AccTable) : Prop :=
  Forall2 (λ e c, acc_ok (agg e) c) (aggs ctx) t.

(** The selection names one accumulator per row. *)
Definition sel_ok (s : IdxSelection) (n : nat) : Prop :=
  match s with Single _ => True | _ => length (idx_iter s) = n end.

(** The accumulators of a column after the rows of [pairs]. *)
Definition col_step (a : AggKind) (pairs : list (nat * nat)) (g : nat → option Z) (c c' : AccColumn) : Prop :=
  acc_ok a c' ∧ num_records c ≤ num_records c' ∧
  ∀ i, slot a c' i = foldl (merge a) (slot a c i) (g <$> picks pairs i).

(** ** Lemmas *)

Lemma foldl_merge_skip a (p : nat → bool) (h : nat → option Z) s l :
  foldl (merge a) s ((λ j, if p j then h j else None) <$> l) = foldl (merge a) s (h <$> filter (λ j, p j = true) l).
Proof.
  revert s. induction l as [|j l IH]; intros s; [done|]. rewrite fmap_cons, filter_cons. cbn [foldl].
  destruct (p j); [by rewrite decide_True|]. rewrite decide_False by done. rewrite IH. by destruct s.
Qed.

Lemma picks_filter (f : nat → bool) pairs i :
  picks (filter (λ p, f p.2 = true) pairs) i = filter (λ j, f j = true) (picks pairs i).
Proof.
  unfold picks. induction pairs as [|p pairs IH]; [done|]. rewrite !filter_cons.
  destruct (decide (f p.2 = true)), (decide (p.1 = i)); rewrite ?filter_cons, ?fmap_cons, ?filter_cons;
    rewrite ?decide_True, ?decide_False by done; cbn; by rewrite ?IH.
Qed.

(** A loop that updates each named column on its own. *)
Lemma for_cols_ok (R : nat → AggKind → AccColumn → AccColumn → Prop) f l t :
  NoDup l.*1 →
  (∀ k a, (k, a) ∈ l → ∃ c c', t !! k = Some c ∧ f k a c = Ok c' ∧ R k a c c') →
  ∃ t', for_cols f t l = Ok t' ∧ length t' = length t ∧
    ∀ k c, t !! k = Some c → ∃ c', t' !! k = Some c' ∧ (∀ a, (k, a) ∈ l → R k a c c') ∧ (k ∉ l.*1 → c' = c).
Proof.
  revert t. induction l as [|[k a] l IH]; intros t Hnd Hl.
  { exists t. split_and!; [done..|]. intros k c Hc. exists c. split_and!; [done|set_solver|done]. }
  apply NoDup_cons in Hnd as [Hk Hnd]. cbn [fst] in Hk.
  destruct (Hl k a ltac:(set_solver)) as (c & c' & Hc & Hf & HR).
  pose proof (lookup_lt_Some _ _ _ Hc). unfold for_cols. cbn [rfoldM]. rewrite (proj2 (index_Ok _ _ _) Hc).
  cbn [mbind Result_bind]. rewrite Hf. cbn [mbind Result_bind]. rewrite set_index_Ok by done. cbn [mbind Result_bind].
  destruct (IH (<[k := c']> t)) as (t' & He & Hlen & Hall); [done| |].
  { intros k' a' Hin. assert (k' ≠ k) by (intros ->; apply Hk; apply list_elem_of_fmap; by exists (k, a')).
    rewrite list_lookup_insert_ne by done. apply Hl. set_solver. }
  exists t'. split; [done|]. split; [by rewrite Hlen, length_insert|]. intros k' d Hd.
  destruct (decide (k' = k)) as [->|Hne].
  - assert (d = c) as -> by congruence. destruct (Hall k c') as (c'' & Hc'' & _ & Hsame).
    { by rewrite list_lookup_insert_eq. }
    exists c''. rewrite (Hsame Hk) in *. split; [done|]. split; [|set_solver].
    intros a' [[= ->]|Hin]%elem_of_cons; [done|]. exfalso. apply Hk, list_elem_of_fmap. by exists (k, a').
  - destruct (Hall k' d) as (d' & Hd' & HR' & Hsame); [by rewrite list_lookup_insert_ne|].
    exists d'. split; [done|]. split.
    + intros a' [[= -> ->]|Hin]%elem_of_cons; [done|by apply HR'].
    + cbn. intros Hn. apply Hsame. set_solver.
Qed.

(** *** Selections *)

(** The accumulator of the [k]-th selected row. *)
Definition acc_at (s : IdxSelection) (k : nat) : nat :=
  match s with
  | Single idx => idx
  | Range start _ => start + k
  | _ => default 0 (idx_iter s !! k)
  end.

Lemma lookup_range a b i : range a b !! i = if decide (i < b - a) then Some (a + i) else None.
Proof.
  unfold range. case_decide; [by apply lookup_seq_lt|]. apply lookup_ge_None_2. rewrite length_seq. lia.
Qed.

Lemma idx_iter_acc_at s n k :
  sel_ok s n → k < n → (∀ idx, s ≠ Single idx) → idx_iter s !! k = Some (acc_at s k).
Proof.
  destruct s as [idx|l|l|a b]; cbn [sel_ok acc_at idx_iter]; intros Hl Hk Hs.
  - by destruct (Hs idx).
  - rewrite <- Hl in Hk. by apply lookup_lt_is_Some_2 in Hk as [x ->].
  - rewrite <- Hl in Hk. by apply lookup_lt_is_Some_2 in Hk as [x ->].
  - unfold range in Hl. rewrite length_seq in Hl. rewrite lookup_range, decide_True by lia. done.
Qed.

Lemma zipped_range s lo hi :
  sel_ok s (hi - lo) → idx_zipped s (Range lo hi) = (λ i, (acc_at s (i - lo), i)) <$> range lo hi.
Proof.
  intros Hs. assert ((∃ idx, s = Single idx) ∨ ∀ idx, s ≠ Single idx) as [[idx ->]|Hn]; [|done|].
  { destruct s; eauto. }
  assert (idx_zipped s (Range lo hi) = zip (idx_iter s) (range lo hi)) as ->.
  { destruct s as [idx| | |]; try done. by destruct (Hn idx). }
  apply list_eq. intros i. rewrite list_lookup_fmap, lookup_range. case_decide as Hi; cbn [fmap option_fmap option_map].
  - apply lookup_zip_with_Some. exists (acc_at s i), (lo + i). rewrite lookup_range, decide_True by done.
    replace (lo + i - lo) with i by lia. split_and!; [done| |done]. by eapply idx_iter_acc_at.
  - apply lookup_ge_None_2. rewrite length_zip_with. unfold range. rewrite length_seq. lia.
Qed.

Definition value_bit (array : BooleanArray) (j : nat) : bool := (default (false, false) (array !! j)).1.

(** The rows of a batch that pass a FILTER, with their accumulators. *)
Lemma build_filtered_indices_ok s lo hi array :
  sel_ok s (hi - lo) → hi ≤ length array →
  let fp := filter (λ p, value_bit array p.2 = true) (idx_zipped s (Range lo hi)) in
  build_filtered_indices s lo hi array = Ok (fp.*1, fp.*2).
Proof.
  intros Hs Hlen fp. unfold fp. rewrite zipped_range by done. unfold build_filtered_indices.
  match goal with |- rfoldM ?F _ _ = _ => set (f := F) end.
  assert (Hind : ∀ l st, (∀ i, i ∈ l → lo ≤ i < hi) →
    let q := filter (λ p : nat * nat, value_bit array p.2 = true) ((λ i, (acc_at s (i - lo), i)) <$> l) in
    rfoldM f st l = Ok (st.1 ++ q.*1, st.2 ++ q.*2)).
  { induction l as [|i l IH]; intros [st1 st2] Hl; cbn [fst snd].
    { cbn. by rewrite !app_nil_r. }
    assert (Hi : lo ≤ i < hi) by (apply Hl; set_solver). cbn [rfoldM].
    assert (f (st1, st2) i = Ok (if value_bit array i then (st1 ++ [acc_at s (i - lo)], st2 ++ [i]) else (st1, st2))) as ->.
    { destruct (lookup_lt_is_Some_2 array i) as [[v b] Hv]; [lia|]. unfold f, value_bit. rewrite (proj2 (index_Ok _ _ _) Hv), Hv.
      cbn [mbind Result_bind default fst]. destruct v; [|done].
      assert (Hk : (∀ idx, s ≠ Single idx) → idx_iter s !! (i - lo) = Some (acc_at s (i - lo)))
        by (intros; eapply idx_iter_acc_at; [done|lia|done]).
      destruct s; cbn [mbind Result_bind acc_at]; try done; by rewrite (proj2 (index_Ok _ _ _) (Hk ltac:(done))). }
    cbn [mbind Result_bind]. rewrite fmap_cons, filter_cons. cbn [snd].
    destruct (value_bit array i).
    - rewrite decide_True by done. rewrite IH by set_solver. cbn [fst snd]. rewrite !fmap_cons. cbn [fst snd]. by rewrite <- !app_assoc.
    - rewrite decide_False by done. by rewrite IH by set_solver. }
  rewrite Hind; [done|]. intros i Hi. unfold range in Hi. apply elem_of_seq in Hi. lia.
Qed.

(** *** Evaluating the arguments *)

Definition args_of (b : Batch) (e : AggExpr) : list Array :=
  if is_partial e then match rmapM (λ f, f b) (exprs e) with Ok args => args | _ => [] end else [].

Definition evaluates (b : Batch) (e : AggExpr) : Prop :=
  is_partial e = true → ∃ args, rmapM (λ f, f b) (exprs e) = Ok args.

Lemma rmapM_total {A B} (f : A → Result B) l : (∀ x, x ∈ l → ∃ y, f x = Ok y) → ∃ ys, rmapM f l = Ok ys.
Proof.
  induction l as [|x l IH]; intros Hl; [by exists []|]. destruct (Hl x) as [y Hy]; [set_solver|].
  destruct IH as [ys Hys]; [set_solver|]. exists (y :: ys). cbn. by rewrite Hy, Hys.
Qed.

Lemma eval_all b es :
  Forall (evaluates b) es →
  rmapM (λ f, f b) (concat (exprs <$> filter (λ e, is_partial e = true) es)) = Ok (concat (args_of b <$> es)).
Proof.
  induction 1 as [|e es He _ IH]; [done|]. rewrite filter_cons, fmap_cons. unfold args_of at 1.
  destruct (is_partial e) eqn:Ep.
  - rewrite decide_True by done. destruct (He Ep) as [args Hargs]. rewrite fmap_cons. cbn [concat].
    rewrite rmapM_app, Hargs. cbn [mbind Result_bind]. by rewrite IH.
  - rewrite decide_False by done. apply IH.
Qed.

Lemma subslice_mid {A} (l1 l2 l3 : list A) :
  subslice (l1 ++ l2 ++ l3) (length l1) (length l1 + length l2) = Ok l2.
Proof.
  unfold subslice, sub. rewrite decide_True by (rewrite !length_app; lia).
  rewrite drop_app_length, Nat.add_comm, Nat.add_sub, take_app_length. done.
Qed.

Lemma take_args_ok b es pre acc :
  Forall (evaluates b) es →
  rfoldM (take_args (pre ++ concat (args_of b <$> es))) (acc, length pre) es
  = Ok (acc ++ (args_of b <$> es), length pre + length (concat (args_of b <$> es))).
Proof.
  intros Hes. revert pre acc. induction Hes as [|e es He _ IH]; intros pre acc.
  { cbn. by rewrite app_nil_r, Nat.add_0_r. }
  rewrite !fmap_cons. cbn [rfoldM concat]. unfold take_args at 2.
  assert (Hlen : is_partial e = true → length (exprs e) = length (args_of b e)).
  { intros Hp. unfold args_of. rewrite Hp. destruct (He Hp) as [args Hargs]. rewrite Hargs.
    apply rmapM_Ok, Forall2_length in Hargs. done. }
  specialize (IH (pre ++ args_of b e)). rewrite length_app, <- app_assoc in IH.
  destruct (is_partial e) eqn:Ep.
  - rewrite (Hlen eq_refl), subslice_mid. cbn [mbind Result_bind]. by rewrite IH, <- app_assoc, length_app, Nat.add_assoc.
  - cbn [mbind Result_bind]. assert (args_of b e = []) as E by (unfold args_of; by rewrite Ep). rewrite E in *.
    cbn [app length] in *. rewrite Nat.add_0_r in IH. by rewrite IH, <- app_assoc.
Qed.

Lemma input_arrays_ok ctx b : Forall (evaluates b) (aggs ctx) → input_arrays ctx b = Ok (args_of b <$> aggs ctx).
Proof.
  intros He. unfold input_arrays. rewrite eval_all by done. cbn [mbind Result_bind].
  pose proof (take_args_ok b (aggs ctx) [] [] He) as Ht. cbn [app length] in Ht. rewrite Ht. done.
Qed.

(** *** One aggregate *)

Lemma picks_slice s lo hi i j : j ∈ picks (idx_zipped s (Range lo hi)) i → lo ≤ j < hi.
Proof.
  unfold picks. intros ([i' j'] & -> & Hp)%list_elem_of_fmap. apply list_elem_of_filter in Hp as [_ Hp].
  apply idx_zipped_elem in Hp as [_ Hj]. cbn in *. unfold range in Hj. apply elem_of_seq in Hj. lia.
Qed.

Lemma picks_range s n i j : j ∈ picks (idx_zipped s (Range 0 n)) i → j < n.
Proof. intros Hj%picks_slice. lia. Qed.

(** The rows of a slice, counted from its start. *)
Lemma picks_rebase s lo hi i :
  sel_ok s (hi - lo) → (λ j, lo + j) <$> picks (idx_zipped s (Range 0 (hi - lo))) i = picks (idx_zipped s (Range lo hi)) i.
Proof.
  intros Hs. rewrite (zipped_range s lo hi), (zipped_range s 0 (hi - lo)) by (rewrite ?Nat.sub_0_r; done).
  assert (range lo hi = (λ j, lo + j) <$> range 0 (hi - lo)) as ->.
  { unfold range. rewrite Nat.sub_0_r. rewrite (fmap_add_seq lo 0). by rewrite Nat.add_0_r. }
  unfold picks. generalize (range 0 (hi - lo)). intros l. induction l as [|j l IH]; [done|].
  rewrite !fmap_cons, !filter_cons. cbn [fst snd]. replace (lo + j - lo) with (j - 0) by lia.
  case_decide; [by rewrite !fmap_cons, IH|done].
Qed.

Lemma row_ok_args (b : Batch) e args j :
  Forall (λ arg, length arg = num_rows b ∧ Forall value_ok arg) args → (agg e = Count ∨ args ≠ []) →
  j < num_rows b → row_ok (agg e) args j.
Proof.
  intros Hargs Hne Hj. split; [|split; [|done]].
  - eapply Forall_impl; [exact Hargs|]. intros arg [-> _]. done.
  - unfold arg_row. apply Forall_fmap. eapply Forall_impl; [exact Hargs|]. intros arg [Hl Hv].
    destruct (lookup_lt_is_Some_2 arg j) as [v E]; [lia|]. unfold compose. rewrite E. by eapply Forall_lookup_1 in E.
Qed.

Lemma update_agg_ok b e cs k arrays filters filter s c lo hi :
  hi ≤ num_rows b → is_partial e = true → partial_data b e cs → arrays !! k = Some (args_of b e) →
  filters !! k = Some filter → eval_filter e b = Ok filter → acc_ok (agg e) c → sel_ok s (hi - lo) →
  ∃ c', update_agg arrays filters s lo hi k (agg e) c = Ok c' ∧
    col_step (agg e) (idx_zipped s (Range lo hi)) (λ j, default None (cs !! j)) c c'.
Proof.
  intros Hhi Hp (args & f & Hargs & Hf & Hrows & Hne & Hbool & ->) Ha Hfl Hev Hc Hs.
  assert (f = filter) as -> by congruence.
  assert (args_of b e = args) as Ea by (unfold args_of; by rewrite Hp, Hargs). rewrite Ea in Ha.
  set (pairs := idx_zipped s (Range lo hi)).
  set (h := λ j, contrib (agg e) (arg_row args j)).
  assert (Hcs : ∀ i, ((λ j, default None (((λ j, if sql_true filter j then h j else None) <$> seq 0 (num_rows b)) !! j))
      <$> picks pairs i) = (λ j, if sql_true filter j then h j else None) <$> picks pairs i).
  { intros i. apply list_fmap_ext. intros x j Hx. apply list_elem_of_lookup_2, picks_slice in Hx.
    by rewrite list_lookup_fmap, lookup_seq_lt by lia. }
  unfold update_agg. rewrite (proj2 (index_Ok _ _ _) Hfl). cbn [mbind Result_bind].
  rewrite (proj2 (index_Ok _ _ _) Ha). cbn [mbind Result_bind]. destruct filter as [array|].
  - destruct (Hbool array eq_refl) as [Hlen Hnull].
    rewrite (build_filtered_indices_ok s lo hi array) by (done || lia).
    cbn [mbind Result_bind]. fold pairs. set (fp := base.filter _ pairs).
    assert (Hfp : ∀ i, (h <$> picks fp i) = (h <$> base.filter (λ j, sql_true (Some array) j = true) (picks pairs i))).
    { intros i. unfold fp. rewrite (picks_filter (value_bit array)). f_equal.
      apply filter_ext_elem. intros j _. unfold value_bit, sql_true. destruct (array !! j) as [[v valid]|] eqn:E; cbn; [|done].
      rewrite Forall_lookup in Hnull. specialize (Hnull j _ E). cbn in Hnull. destruct v, valid; naive_solver. }
    case_decide as Hnil.
    + exists c. split; [done|]. split; [done|]. split; [done|]. intros i. rewrite Hcs, foldl_merge_skip, <- Hfp.
      apply fmap_nil_inv in Hnil. by rewrite Hnil.
    + destruct (partial_update_ok (agg e) c (Indices fp.*1) args (Indices fp.*2) Hc Hne) as (c' & -> & Hc' & Hn & _ & Hsl).
      { cbn. intros j ([i' j'] & -> & Hin)%list_elem_of_fmap. apply list_elem_of_filter in Hin as [_ Hin].
        apply idx_zipped_elem in Hin as [_ Hj]. cbn in Hj. unfold range in Hj. apply elem_of_seq in Hj.
        eapply row_ok_args; [done..|]. cbn. lia. }
      exists c'. split; [done|]. split; [done|]. split; [done|]. intros i. rewrite Hsl. cbn [idx_zipped idx_iter].
      rewrite zip_fst_snd. change (λ j, contrib (agg e) (arg_row args j)) with h.
      by rewrite Hcs, foldl_merge_skip, <- Hfp.
  - destruct (partial_update_ok (agg e) c s args (Range lo hi) Hc Hne) as (c' & -> & Hc' & Hn & _ & Hsl).
    { intros j Hj. cbn in Hj. unfold range in Hj. apply elem_of_seq in Hj. eapply row_ok_args; [done..|lia]. }
    exists c'. split; [done|]. split; [done|]. split; [done|]. intros i. by rewrite Hsl, Hcs.
Qed.

(** *** The fields of a context *)

Definition mode_aggs (partial : bool) (es : list AggExpr) : list (nat * AggKind) :=
  (λ p, (p.1, agg p.2)) <$> filter (λ p, is_partial p.2 = partial) (enumerate es).

Record ctx_ok (ctx : AggContext) : Prop := {
  ctx_update : need_partial_update ctx = existsb is_partial (aggs ctx);
  ctx_merge : need_partial_merge ctx = existsb (λ e, negb (is_partial e)) (aggs ctx);
  ctx_final : need_final_merge ctx = existsb is_final (aggs ctx);
  ctx_update_aggs : need_partial_update_aggs ctx = mode_aggs true (aggs ctx);
  ctx_merge_aggs : need_partial_merge_aggs ctx = mode_aggs false (aggs ctx);
  ctx_fields : output_num_fields ctx = length (groupings ctx) + length (aggs ctx);
  ctx_acc_arrays : input_acc_arrays_len ctx = length (need_partial_merge_aggs ctx);
  ctx_filters : Forall (λ e, is_partial e = false → filter_expr e = None) (aggs ctx);
  ctx_modes : need_final_merge ctx = true → Forall (λ e, is_final e = true) (aggs ctx) }.

Lemma elem_of_mode_aggs p es k a :
  (k, a) ∈ mode_aggs p es ↔ ∃ e, es !! k = Some e ∧ is_partial e = p ∧ a = agg e.
Proof.
  unfold mode_aggs. rewrite list_elem_of_fmap. split.
  - intros ([k' e] & [= -> ->] & [Hp Hin]%list_elem_of_filter). apply elem_of_enumerate in Hin. eauto.
  - intros (e & He & Hp & ->). exists (k, e). split; [done|]. apply list_elem_of_filter. split; [done|].
    by apply elem_of_enumerate.
Qed.

Lemma mode_aggs_nodup p es : NoDup (mode_aggs p es).*1.
Proof.
  unfold mode_aggs. rewrite <- list_fmap_compose.
  eapply (sublist_NoDup _ (enumerate es).*1).
  - rewrite fst_enumerate. apply NoDup_seq.
  - apply (fmap_sublist fst), sublist_filter.
Qed.

Lemma length_mode_aggs p es : length (mode_aggs p es) = length (filter (λ e, is_partial e = p) es).
Proof.
  assert ((enumerate es).*2 = es) as He.
  { apply list_eq. intros i. rewrite list_lookup_fmap, lookup_enumerate. by destruct (es !! i). }
  unfold mode_aggs. rewrite length_fmap. rewrite <- He at 2. generalize (enumerate es). clear He.
  induction l as [|q l IH]; [done|]. rewrite fmap_cons, !filter_cons. case_decide; cbn; by rewrite ?IH.
Qed.

Lemma agg_ctx_try_new_ok gs es ctx : agg_ctx_try_new gs es = Ok ctx → ctx_ok ctx ∧ groupings ctx = gs ∧ aggs ctx = es.
Proof.
  unfold agg_ctx_try_new. intros H. apply bind_Ok in H as (? & Hfin & H). apply bind_Ok in H as (? & Hfil & H).
  injection H as <-. split; [|done]. split; try done; cbn [input_acc_arrays_len need_partial_merge_aggs aggs need_final_merge].
  - fold (mode_aggs false es). rewrite length_mode_aggs. clear. induction es as [|e es IH]; [done|].
    rewrite filter_cons. cbn [sum_list_with]. rewrite IH. unfold is_partial, is_partial_merge, is_final, acc_arrays_len.
    destruct (mode e); cbn; done.
  - destruct (forallb _ es) eqn:E in Hfil; [|done]. rewrite forallb_forall in E. apply Forall_forall. intros e He Hp.
    apply list_elem_of_In, E in He. rewrite Hp, orb_false_r in He. by apply bool_decide_eq_true in He.
  - intros Hf. rewrite Hf in Hfin. destruct (existsb _ es) eqn:E in Hfin; [done|]. rewrite existsb_false in E.
    apply Forall_forall. intros e He. specialize (E e He). by destruct (is_final e).
Qed.

(** *** The merge stage *)

Lemma unfreeze_all (b : Batch) lo hi start l merging :
  lo ≤ hi ≤ num_rows b →   NoDup l.*1 →
  (∀ r k a, l !! r = Some (k, a) → is_Some (merging !! k) ∧
     ∃ col, columns b !! (start + r) = Some col ∧ length col = num_rows b) →
  ∃ merging', rfoldM (unfreeze_agg b lo hi) (merging, start) l = Ok (merging', start + length l) ∧
    (∀ k, k ∉ l.*1 → merging' !! k = merging !! k) ∧
    ∀ r k a col c, l !! r = Some (k, a) → columns b !! (start + r) = Some col → merging !! k = Some c →
      merging' !! k = Some (unfreeze c (to_i64 <$> sub col lo hi)).
Proof.
  clear row_encode row_decode. intros Hlh. revert start merging. induction l as [|[k a] l IH]; intros start merging Hnd Hl.
  { exists merging. cbn. rewrite Nat.add_0_r. done. }
  apply NoDup_cons in Hnd as [Hk Hnd]. cbn [fst] in Hk.
  destruct (Hl 0 k a eq_refl) as ([c Hc] & col & Hcol & Hlen). rewrite Nat.add_0_r in Hcol.
  pose proof (lookup_lt_Some _ _ _ Hc). cbn [rfoldM]. unfold unfreeze_agg at 2.
  rewrite (proj2 (index_Ok _ _ _) Hcol). cbn [mbind Result_bind fst]. unfold subslice at 1. rewrite decide_True by lia.
  cbn [mbind Result_bind]. rewrite (proj2 (index_Ok _ _ _) Hc). cbn [mbind Result_bind].
  rewrite set_index_Ok by done. cbn [mbind Result_bind].
  destruct (IH (start + 1) (<[k := unfreeze c (to_i64 <$> sub col lo hi)]> merging)) as (m' & He & Hsame & Hnew); [done| |].
  { intros r k' a' Hr. destruct (Hl (S r) k' a' Hr) as (Hm & Hcol'). rewrite <- Nat.add_assoc. split; [|done].
    apply lookup_lt_is_Some. rewrite length_insert. by apply lookup_lt_is_Some. }
  exists m'. split; [rewrite He; do 2 f_equal; cbn; lia|]. split.
  - intros k' Hk'. cbn in Hk'. rewrite Hsame by set_solver. apply list_lookup_insert_ne. set_solver.
  - intros [|r] k' a' col' c' Hr Hcol' Hc'.
    + injection Hr as -> ->. rewrite Nat.add_0_r in Hcol'. rewrite Hsame by done.
      rewrite list_lookup_insert_eq by done. congruence.
    + cbn in Hr. eapply Hnew; [done| |].
      * by rewrite <- Nat.add_assoc.
      * rewrite list_lookup_insert_ne; [done|]. intros ->. apply Hk, list_elem_of_fmap.
        exists (k', a'). split; [done|]. by eapply list_elem_of_lookup_2.
Qed.

Lemma create_acc_table_ok ctx n :
  create_acc_table ctx n = Ok ((λ e, create_acc_column (agg e) n) <$> aggs ctx).
Proof.
  unfold create_acc_table, acc_table_new. rewrite (proj2 (rassert_Ok _)); [done|].
  apply forallb_forall. intros c Hc. apply list_elem_of_In, list_elem_of_fmap in Hc as (e & -> & _).
  apply bool_decide_true, create_acc_column_ok.
Qed.

(** ** The update of a table by a batch *)

Lemma ensure_col_ok a c n :
  acc_ok a c →
  let c' := if decide (num_records c < n) then acc_resize c n else c in
  acc_ok a c' ∧ num_records c ≤ num_records c' ∧ n ≤ num_records c' ∧ ∀ i, slot a c' i = slot a c i.
Proof.
  intros Hc. cbn. case_decide.
  - rewrite num_records_resize. split; [by apply acc_resize_ok|]. split_and!; [lia|lia|].
    intros i. apply slot_resize; [done|lia].
  - split; [done|]. split_and!; [lia|lia|done].
Qed.

Lemma update_stage_ok ctx b css t s lo hi :
  hi ≤ num_rows b →   ctx_ok ctx → batch_data ctx b css → table_ok ctx t → sel_ok s (hi - lo) →
  ∃ t', (if need_partial_update ctx then
           arrays ← input_arrays ctx b; filters ← filter_arrays ctx b;
           for_cols (update_agg arrays filters s lo hi) t (need_partial_update_aggs ctx)
         else Ok t) = Ok t' ∧ length t' = length t ∧
    ∀ k c e cs, t !! k = Some c → aggs ctx !! k = Some e → css !! k = Some cs → ∃ c', t' !! k = Some c' ∧
      if is_partial e then col_step (agg e) (idx_zipped s (Range lo hi)) (λ j, default None (cs !! j)) c c'
      else c' = c.
Proof.
  intros Hhi [Hup _ _ Hua _ _ _ Hfil _] (Hlen & _ & Hdata) Ht Hs. pose proof (Forall2_length _ _ _ Ht) as Htl.
  assert (Hcss : ∀ k e, aggs ctx !! k = Some e → is_partial e = true → ∃ cs, css !! k = Some cs ∧ partial_data b e cs).
  { intros k e He Hp. destruct (lookup_lt_is_Some_2 css k) as [cs Hcs]; [rewrite Hlen; by eapply lookup_lt_Some|].
    exists cs. split; [done|]. specialize (Hdata k e cs He Hcs). by rewrite Hp in Hdata. }
  assert (Hnone : ∀ k e, need_partial_update ctx = false → aggs ctx !! k = Some e → is_partial e = false).
  { intros k e Hn He. rewrite Hup, existsb_false in Hn. apply Hn. by eapply list_elem_of_lookup_2. }
  destruct (need_partial_update ctx) eqn:Hn; last first.
  { exists t. split_and!; [done..|]. intros k c e cs Hc He _. exists c. by rewrite (Hnone k e). }
  rewrite input_arrays_ok.
  2:{ apply Forall_lookup. intros k e He Hp. destruct (Hcss k e He Hp) as (cs & _ & args & f & Ha & _). eauto. }
  cbn [mbind Result_bind].
  assert (∃ filters, filter_arrays ctx b = Ok filters ∧ Forall2 (λ e f, eval_filter e b = Ok f) (aggs ctx) filters)
    as (filters & -> & Hf).
  { unfold filter_arrays. setoid_rewrite rmapM_Ok. destruct (rmapM_total (λ e, eval_filter e b) (aggs ctx)) as [fs Hfs].
    - intros e [k He]%list_elem_of_lookup. destruct (is_partial e) eqn:Hp.
      + destruct (Hcss k e He Hp) as (cs & _ & args & f & _ & Hev & _). eauto.
      + rewrite Forall_lookup in Hfil. unfold eval_filter. rewrite (Hfil k e He Hp). eauto.
    - apply rmapM_Ok in Hfs. eauto. }
  cbn [mbind Result_bind]. rewrite Hua.
  set (arrays := args_of b <$> aggs ctx).
  destruct (for_cols_ok (λ k a c c', ∀ e cs, aggs ctx !! k = Some e → css !! k = Some cs →
      col_step (agg e) (idx_zipped s (Range lo hi)) (λ j, default None (cs !! j)) c c')
    (update_agg arrays filters s lo hi) (mode_aggs true (aggs ctx)) t (mode_aggs_nodup _ _))
    as (t' & He & Hl & Hall).
  { intros k a (e & He & Hp & ->)%elem_of_mode_aggs. destruct (Hcss k e He Hp) as (cs & Hcs & Hpd).
    destruct (Forall2_lookup_l _ _ _ _ _ Ht He) as (c & Hc & Hok).
    destruct (Forall2_lookup_l _ _ _ _ _ Hf He) as (f & Hfl & Hev).
    destruct (update_agg_ok b e cs k arrays filters f s c lo hi Hhi Hp Hpd) as (c' & Hu & Hstep); [|done..|].
    { unfold arrays. by rewrite list_lookup_fmap, He. }
    exists c, c'. split_and!; [done..|]. intros e' cs' He' Hcs'. assert (e' = e) as -> by congruence.
    by assert (cs' = cs) as -> by congruence. }
  exists t'. split_and!; [done..|]. intros k c e cs Hc Hk Hcs. destruct (Hall k c Hc) as (c' & Hc' & Hin & Hout).
  exists c'. split; [done|]. destruct (is_partial e) eqn:Hp.
  - eapply Hin; [|done..]. apply elem_of_mode_aggs. eauto.
  - apply Hout. intros ([k' a'] & -> & (e' & He' & Hp' & _)%elem_of_mode_aggs)%list_elem_of_fmap. cbn in *. congruence.
Qed.

Lemma merge_stage_ok ctx b css t s lo hi :
  lo ≤ hi ≤ num_rows b →   ctx_ok ctx → batch_data ctx b css → table_ok ctx t → sel_ok s (hi - lo) →
  ∃ t', (if need_partial_merge ctx then
           merging ← create_acc_table ctx 0;
           _ ← rassert (bool_decide (input_acc_arrays_len ctx ≤ length (columns b)));
           st ← rfoldM (unfreeze_agg b lo hi)
             (merging, length (columns b) - input_acc_arrays_len ctx) (need_partial_merge_aggs ctx);
           ctx_partial_merge ctx t s st.1 (Range 0 (hi - lo))
         else Ok t) = Ok t' ∧ length t' = length t ∧
    ∀ k c e cs, t !! k = Some c → aggs ctx !! k = Some e → css !! k = Some cs → ∃ c', t' !! k = Some c' ∧
      if is_partial e then c' = c
      else col_step (agg e) (idx_zipped s (Range lo hi)) (λ j, default None (cs !! j)) c c'.
Proof.
  intros Hlh [_ Hmg _ _ Hma _ _ _ _] (Hlen & Hcols & Hdata) Ht Hs.
  set (start := length (columns b) - input_acc_arrays_len ctx) in *.
  assert (Hcss : ∀ k e, aggs ctx !! k = Some e → is_partial e = false → ∃ cs, css !! k = Some cs ∧ merge_data ctx b k e cs).
  { intros k e He Hp. destruct (lookup_lt_is_Some_2 css k) as [cs Hcs]; [rewrite Hlen; by eapply lookup_lt_Some|].
    exists cs. split; [done|]. specialize (Hdata k e cs He Hcs). by rewrite Hp in Hdata. }
  destruct (need_partial_merge ctx) eqn:Hn; last first.
  { exists t. split_and!; [done..|]. intros k c e cs Hc He _. exists c. split; [done|].
    symmetry in Hmg. rewrite existsb_false in Hmg. specialize (Hmg e ltac:(by eapply list_elem_of_lookup_2)).
    by destruct (is_partial e). }
  rewrite create_acc_table_ok. cbn [mbind Result_bind]. rewrite (proj2 (rassert_Ok _)) by (by apply bool_decide_true).
  cbn [mbind Result_bind]. set (m0 := (λ e, create_acc_column (agg e) 0) <$> aggs ctx).
  pose proof (mode_aggs_nodup false (aggs ctx)) as Hnd. rewrite <- Hma in Hnd.
  assert (Hin : ∀ r k a, need_partial_merge_aggs ctx !! r = Some (k, a) →
    ∃ e cs col, aggs ctx !! k = Some e ∧ a = agg e ∧ is_partial e = false ∧ css !! k = Some cs ∧
      columns b !! (start + r) = Some col ∧ length col = num_rows b ∧ cs = to_i64 <$> col ∧
      Forall (λ v, value_ok v ∧ (agg e = Count → is_Some v)) cs).
  { intros r k a Hr. pose proof Hr as Hr'. apply list_elem_of_lookup_2 in Hr'. rewrite Hma in Hr'.
    apply elem_of_mode_aggs in Hr' as (e & He & Hp & ->).
    destruct (Hcss k e He Hp) as (cs & Hcs & r' & col & Hr2 & Hcol & Hcl & Hc & Hok). exists e, cs, col.
    assert (r' = r) as ->; [|done].
    eapply (NoDup_lookup _ _ _ k Hnd); rewrite list_lookup_fmap; [by rewrite Hr2|by rewrite Hr]. }
  destruct (unfreeze_all b lo hi start (need_partial_merge_aggs ctx) m0 Hlh Hnd) as (m & Hm & _ & Hnew).
  { intros r k a Hr. destruct (Hin r k a Hr) as (e & cs & col & He & _ & _ & _ & Hcol & Hcl & _). split; [|eauto].
    unfold m0. rewrite list_lookup_fmap, He. eexists. done. }
  rewrite Hm. cbn [mbind Result_bind fst]. unfold ctx_partial_merge. rewrite Hn.
  destruct (for_cols_ok (λ k a c c', ∀ e cs, aggs ctx !! k = Some e → css !! k = Some cs →
      col_step (agg e) (idx_zipped s (Range lo hi)) (λ j, default None (cs !! j)) c c')
    (λ k a c, mc ← index m k; partial_merge a c s mc (Range 0 (hi - lo))) (need_partial_merge_aggs ctx) t Hnd)
    as (t' & He & Hl & Hall).
  { intros k a [r Hr]%list_elem_of_lookup.
    destruct (Hin r k a Hr) as (e & cs & col & He & -> & _ & Hcs & Hcol & Hcl & Hceq & Hok).
    destruct (Forall2_lookup_l _ _ _ _ _ Ht He) as (c & Hc & Hcok).
    assert (Hmk : m !! k = Some (unfreeze (create_acc_column (agg e) 0) (to_i64 <$> sub col lo hi))).
    { eapply Hnew; [done..|]. unfold m0. by rewrite list_lookup_fmap, He. }
    destruct (unfreeze_ok (agg e) (create_acc_column (agg e) 0) (to_i64 <$> sub col lo hi)) as (Huok & Huv);
      [apply create_acc_column_ok| |].
    { unfold sub. rewrite fmap_take, fmap_drop, <- Hceq. by apply Forall_take, Forall_drop. }
    destruct (partial_merge_ok (agg e) c s (unfreeze (create_acc_column (agg e) 0) (to_i64 <$> sub col lo hi)) (Range 0 (hi - lo)) Hcok Huok)
      as (c' & Hpm & Hc' & Hn' & _ & Hsl).
    { intros j Hj. cbn in Hj. unfold range in Hj. apply elem_of_seq in Hj.
      rewrite <- (length_view (agg e)), Huv, length_fmap by done. unfold sub. rewrite length_take, length_drop. lia. }
    exists c, c'. split; [done|]. rewrite (proj2 (index_Ok _ _ _) Hmk). split; [done|].
    intros e' cs' He' Hcs'. assert (e' = e) as -> by congruence. assert (cs' = cs) as -> by congruence.
    split; [done|]. split; [done|]. intros i. rewrite Hsl, <- (picks_rebase s lo hi i), <- list_fmap_compose by done. f_equal.
    apply list_fmap_ext. intros x j Hx. apply list_elem_of_lookup_2, picks_range in Hx. unfold slot, compose.
    rewrite Huv, Hceq, !list_lookup_fmap. unfold sub. rewrite lookup_take_lt, lookup_drop by done.
    destruct (lookup_lt_is_Some_2 col (lo + j)) as [v ->]; [lia|]. done. }
  exists t'. split_and!; [done..|]. intros k c e cs Hc Hk Hcs. destruct (Hall k c Hc) as (c' & Hc' & Hin' & Hout).
  exists c'. split; [done|]. destruct (is_partial e) eqn:Hp.
  - apply Hout. rewrite Hma. intros ([k' a'] & -> & (e' & He' & Hp' & _)%elem_of_mode_aggs)%list_elem_of_fmap. cbn in *. congruence.
  - eapply (Hin' (agg e)); [|done..]. rewrite Hma. apply elem_of_mode_aggs. eauto.
Qed.

(** Accumulator [i] of aggregate [k], and what row [j] contributes to aggregate [k]. *)
Definition tslot (ctx : AggContext) (t : AccTable) (k i : nat) : option Z :=
  match aggs ctx !! k, t !! k with Some e, Some c => slot (agg e) c i | _, _ => None end.

Definition contrib_at (css : list (list (option Z))) (k j : nat) : option Z :=
  match css !! k with Some cs => default None (cs !! j) | None => None end.

Definition kind_at (ctx : AggContext) (k : nat) : AggKind :=
  match aggs ctx !! k with Some e => agg e | None => Sum end.

(** All columns have at least [n] accumulators. *)
Definition covers (t : AccTable) (n : nat) : Prop := Forall (λ c, n ≤ num_records c) t.

Lemma update_slice_ok ctx b css t s n lo hi :
  lo ≤ hi ≤ num_rows b → ctx_ok ctx → batch_data ctx b css → table_ok ctx t → sel_ok s (hi - lo) → covers t n →
  ∃ t', update_batch_slice_to_acc_table ctx b lo hi t s = Ok t' ∧ table_ok ctx t' ∧ covers t' n ∧ covers t' (idx_num_records s) ∧
    ∀ k i, k < length (aggs ctx) → tslot ctx t' k i =
      foldl (merge (kind_at ctx k)) (tslot ctx t k i) (contrib_at css k <$> picks (idx_zipped s (Range lo hi)) i).
Proof.
  intros [Hlo Hhi] Hctx Hb Ht Hs Hn. unfold update_batch_slice_to_acc_table.
  set (t0 := acc_table_ensure_size t s).
  assert (Ht0 : table_ok ctx t0).
  { unfold t0, acc_table_ensure_size, table_ok. apply Forall2_fmap_r. eapply Forall2_impl; [exact Ht|].
    intros e c Hc. by apply ensure_col_ok. }
  destruct (update_stage_ok ctx b css t0 s lo hi Hhi Hctx Hb Ht0 Hs) as (t1 & -> & Hl1 & H1). cbn [mbind Result_bind].
  pose proof (Forall2_length _ _ _ Ht) as Hl. pose proof (Forall2_length _ _ _ Ht0) as Hl0.
  assert (Hlook : ∀ k, k < length (aggs ctx) → ∃ e cs c, aggs ctx !! k = Some e ∧ css !! k = Some cs ∧ t !! k = Some c ∧ acc_ok (agg e) c).
  { intros k Hk. destruct (lookup_lt_is_Some_2 _ _ Hk) as [e He].
    destruct (lookup_lt_is_Some_2 css k) as [cs Hcs]; [by rewrite (proj1 Hb)|].
    destruct (Forall2_lookup_l _ _ _ _ _ Ht He) as (c & Hc & Hok). eauto 10. }
  assert (Hk0 : ∀ k e c, aggs ctx !! k = Some e → t !! k = Some c → ∃ c0, t0 !! k = Some c0 ∧ acc_ok (agg e) c0 ∧
    num_records c ≤ num_records c0 ∧ idx_num_records s ≤ num_records c0 ∧ ∀ i, slot (agg e) c0 i = slot (agg e) c i).
  { intros k e c He Hc. unfold t0, acc_table_ensure_size. rewrite list_lookup_fmap, Hc. eexists. split; [done|].
    apply ensure_col_ok. destruct (Forall2_lookup_l _ _ _ _ _ Ht He) as (c' & Hc' & Hok). congruence. }
  assert (Ht1 : table_ok ctx t1).
  { apply Forall2_same_length_lookup_2; [congruence|]. intros k e c1 He Hc1.
    destruct (Hlook k) as (e' & cs & c & He' & Hcs & Hc & _); [by eapply lookup_lt_Some|]. assert (e' = e) as -> by congruence.
    destruct (Hk0 k e c He Hc) as (c0 & Hc0 & Hok0 & _). destruct (H1 k c0 e cs Hc0 He Hcs) as (c1' & Hc1' & Hst).
    assert (c1' = c1) as -> by congruence. destruct (is_partial e); [by destruct Hst|by subst]. }
  destruct (merge_stage_ok ctx b css t1 s lo hi (conj Hlo Hhi) Hctx Hb Ht1 Hs) as (t2 & -> & Hl2 & H2).
  assert (Hall : ∀ k, k < length (aggs ctx) → ∃ e cs c c2, aggs ctx !! k = Some e ∧ css !! k = Some cs ∧ t !! k = Some c ∧
    t2 !! k = Some c2 ∧ acc_ok (agg e) c2 ∧ num_records c ≤ num_records c2 ∧ idx_num_records s ≤ num_records c2 ∧
    ∀ i, slot (agg e) c2 i = foldl (merge (agg e)) (slot (agg e) c i)
      ((λ j, default None (cs !! j)) <$> picks (idx_zipped s (Range lo hi)) i)).
  { intros k Hk. destruct (Hlook k Hk) as (e & cs & c & He & Hcs & Hc & _).
    destruct (Hk0 k e c He Hc) as (c0 & Hc0 & Hok0 & Hn0 & Hs0 & Hsl0).
    destruct (H1 k c0 e cs Hc0 He Hcs) as (c1 & Hc1 & Hst1). destruct (H2 k c1 e cs Hc1 He Hcs) as (c2 & Hc2 & Hst2).
    exists e, cs, c, c2. do 4 (split; [done|]).
    destruct (is_partial e); [subst c2; destruct Hst1 as (Ho & Hnn & Hsl)|subst c1; destruct Hst2 as (Ho & Hnn & Hsl)];
      (split; [done|]; split; [lia|]; split; [lia|]; intros i; by rewrite Hsl, Hsl0). }
  exists t2. split; [done|]. split; [|split; [|split]].
  - apply Forall2_same_length_lookup_2; [congruence|]. intros k e c2 He Hc2.
    destruct (Hall k) as (e' & cs & c & c2' & He' & _ & _ & Hc2' & Ho & _); [by eapply lookup_lt_Some|]. congruence.
  - apply Forall_lookup. intros k c2 Hc2. destruct (Hall k) as (e & cs & c & c2' & _ & _ & Hc & Hc2' & _ & Hle & _).
    { apply lookup_lt_Some in Hc2. congruence. }
    eapply Forall_lookup_1 in Hn; [|done]. assert (c2' = c2) as -> by congruence. lia.
  - apply Forall_lookup. intros k c2 Hc2. destruct (Hall k) as (e & cs & c & c2' & _ & _ & Hc & Hc2' & _ & _ & Hle & _).
    { apply lookup_lt_Some in Hc2. congruence. }
    assert (c2' = c2) as -> by congruence. lia.
  - intros k i Hk. destruct (Hall k Hk) as (e & cs & c & c2 & He & Hcs & Hc & Hc2 & _ & _ & _ & Hsl).
    unfold tslot, kind_at, contrib_at. by rewrite He, Hc, Hc2, Hcs, Hsl.
Qed.

Lemma update_batch_ok ctx b css t s n :
  ctx_ok ctx → batch_data ctx b css → table_ok ctx t → sel_ok s (num_rows b) → covers t n →
  ∃ t', update_batch_to_acc_table ctx b t s = Ok t' ∧ table_ok ctx t' ∧ covers t' n ∧ covers t' (idx_num_records s) ∧
    ∀ k i, k < length (aggs ctx) → tslot ctx t' k i =
      foldl (merge (kind_at ctx k)) (tslot ctx t k i) (contrib_at css k <$> picks (idx_zipped s (Range 0 (num_rows b))) i).
Proof.
  intros Hctx Hb Ht Hs. apply update_slice_ok; [lia|done..|]. by rewrite Nat.sub_0_r.
Qed.

(** ** Output *)

(** The values of group [i] as an output row. *)
Definition value_row (ctx : AggContext) (t : AccTable) (i : nat) : list V :=
  (λ k, of_i64 (tslot ctx t k i)) <$> seq 0 (length (aggs ctx)).

Local Abbreviation null := (of_i64 None).

(** A selection of existing accumulators. *)
Definition in_table (t : AccTable) (s : IdxSelection) : Prop := Forall (λ i, covers t (S i)) (idx_iter s).

Lemma in_table_range t lo hi : covers t hi → in_table t (Range lo hi).
Proof.
  intros Hcov. apply Forall_forall. intros i Hi. cbn in Hi. unfold range in Hi. apply elem_of_seq in Hi.
  eapply Forall_impl; [exact Hcov|]. cbn. lia.
Qed.

Lemma freeze_acc_table_ok ctx t s :
  table_ok ctx t → in_table t s →
  freeze_acc_table t s = Ok ((λ k, tslot ctx t k <$> idx_iter s) <$> seq 0 (length (aggs ctx))).
Proof.
  intros Ht Hcov. unfold freeze_acc_table. apply rmapM_Ok. apply Forall2_fmap_r.
  pose proof (Forall2_length _ _ _ Ht) as Hl. apply Forall2_same_length_lookup_2; [by rewrite length_seq|].
  intros k c k' Hc Hk'. apply lookup_seq in Hk' as [-> Hk]. cbn [plus].
  destruct (lookup_lt_is_Some_2 _ _ Hk) as [e He]. destruct (Forall2_lookup_l _ _ _ _ _ Ht He) as (c' & Hc' & Hok).
  assert (c' = c) as -> by congruence. unfold compose. rewrite (freeze_ok (agg e)); [|done|].
  - f_equal. apply list_fmap_ext. intros ? i _. unfold tslot. by rewrite He, Hc.
  - eapply Forall_impl; [exact Hcov|]. intros i Hi. by eapply Forall_lookup_1 in Hi; [|exact Hc].
Qed.

Lemma build_agg_columns_ok ctx t s :
  table_ok ctx t → in_table t s →
  build_agg_columns ctx t s = Ok ((λ k, tslot ctx t k <$> idx_iter s) <$> seq 0 (length (aggs ctx))).
Proof.
  intros Ht Hcov. unfold build_agg_columns. rewrite <- (freeze_acc_table_ok ctx t s) by done.
  destruct (need_final_merge ctx); [|done]. unfold freeze_acc_table, final_merge.
  pose proof (Forall2_length _ _ _ Ht) as Hl. clear -Hl. revert Hl. generalize (aggs ctx). intros es.
  revert es. induction t as [|c t IH]; intros [|e es] Hl; try done. cbn. destruct (freeze c _); [|done..]. cbn.
  rewrite IH by (cbn in Hl; lia). done.
Qed.

Lemma lookup_nth {A} (l : list A) i d : i < length l → l !! i = Some (nth i l d).
Proof. intros. destruct (nth_lookup_or_length l i d); [done|lia]. Qed.

Lemma transpose_rows_ok n (rows : list (list V)) :
  Forall (λ r, length r = n) rows →
  ∃ cols, transpose_rows n rows = Ok cols ∧ length cols = n ∧ Forall (λ c, length c = length rows) cols ∧
    ∀ i r, rows !! i = Some r → row_at null cols i = r.
Proof.
  intros Hr. exists ((λ k, (λ r, nth k r null) <$> rows) <$> seq 0 n). split_and!.
  - unfold transpose_rows, range. rewrite Nat.sub_0_r. apply rmapM_Ok, Forall2_fmap_r, Forall_Forall2_diag, Forall_seq.
    intros k Hk. unfold compose. apply rmapM_Ok, Forall2_fmap_r, Forall_Forall2_diag. eapply Forall_impl; [exact Hr|].
    intros r Hlen. cbn in Hlen. unfold compose. apply index_Ok. apply lookup_nth. lia.
  - by rewrite length_fmap, length_seq.
  - apply Forall_fmap, Forall_forall. intros k _. unfold compose. apply length_fmap.
  - intros i r Hi. unfold row_at. rewrite <- list_fmap_compose. eapply Forall_lookup_1 in Hr; [|done].
    apply list_eq. intros k. rewrite list_lookup_fmap. unfold compose. destruct (decide (k < n)) as [Hk|Hk].
    + rewrite lookup_seq_lt by done. cbn. rewrite (nth_lookup_Some _ i null (nth k r null)).
      * symmetry. apply lookup_nth. lia.
      * by rewrite list_lookup_fmap, Hi.
    + rewrite !lookup_ge_None_2; [done|lia|rewrite length_seq; lia].
Qed.

Lemma row_at_values ctx t lo hi i :
  i < hi - lo →
  row_at null (to_columns ((λ k, tslot ctx t k <$> range lo hi) <$> seq 0 (length (aggs ctx)))) i = value_row ctx t (lo + i).
Proof.
  intros Hi. unfold row_at, to_columns, value_row. rewrite <- !list_fmap_compose. apply list_fmap_ext. intros ? k _.
  unfold compose. apply nth_lookup_Some. by rewrite !list_lookup_fmap, lookup_range, decide_True.
Qed.

(** The rows of a batch given by its columns. *)
Lemma batch_rows_ok (n : nat) (cols : list (list V)) (rows : list (list V)) :
  length rows = n → (∀ i r, rows !! i = Some r → row_at null cols i = r) → batch_rows null (mkBatch n cols) = rows.
Proof.
  intros <- Hr. unfold batch_rows. cbn. apply list_eq. intros i. rewrite list_lookup_fmap.
  destruct (decide (i < length rows)) as [Hi|Hi].
  - rewrite lookup_seq_lt by done. destruct (lookup_lt_is_Some_2 _ _ Hi) as [r E]. rewrite E. cbn. f_equal. by apply Hr.
  - rewrite !lookup_ge_None_2; [done|lia|rewrite length_seq; lia].
Qed.

Lemma convert_records_ok ctx t keys rows lo hi :
  ctx_ok ctx → table_ok ctx t → covers t hi → length keys = hi - lo →
  Forall2 (λ k r, row_decode k = Ok r ∧ length r = length (groupings ctx)) keys rows →
  ∃ b, convert_records_to_batch ctx keys t (Range lo hi) = Ok b ∧
    batch_rows null b = zip_with (λ r i, r ++ value_row ctx t i) rows (range lo hi).
Proof.
  intros Hctx Ht Hcov Hlen Hk. unfold convert_records_to_batch. pose proof (Forall2_length _ _ _ Hk) as Hkl.
  rewrite (proj2 (rmapM_Ok _ _ rows)) by (eapply Forall2_impl; [exact Hk|]; naive_solver). cbn [mbind Result_bind].
  destruct (transpose_rows_ok (length (groupings ctx)) rows) as (cols & -> & Hcl & Hcs & Hrow).
  { eapply Forall2_Forall_r; [exact Hk|]. apply Forall_true. naive_solver. }
  cbn [mbind Result_bind]. rewrite build_agg_columns_ok by (done || by apply in_table_range). cbn [mbind Result_bind idx_iter]. unfold try_new_batch.
  rewrite decide_True.
  - eexists. split; [done|]. apply batch_rows_ok.
    { rewrite length_zip_with. unfold range. rewrite length_seq. lia. }
    intros i r Hr. apply lookup_zip_with_Some in Hr as (r0 & i0 & -> & Hr0 & Hi0). rewrite lookup_range in Hi0.
    case_decide; [|done]. injection Hi0 as <-. rewrite row_at_app, row_at_values by done. by rewrite (Hrow i r0).
  - split.
    + rewrite length_app, Hcl. unfold to_columns. rewrite !length_fmap, length_seq. by destruct Hctx.
    + apply Forall_app. split; [by rewrite Hkl|]. unfold to_columns. rewrite Forall_fmap. apply Forall_fmap, Forall_forall.
      intros k _. unfold compose. rewrite !length_fmap. unfold range. rewrite length_seq. done.
Qed.

(** *** Grouping rows and skipped aggregation *)

(** The grouping values of the rows of a batch. *)
Definition group_data (ctx : AggContext) (b : Batch) (groups : list (list V)) : Prop :=
  ∃ arrays, rmapM (λ e, e b) (groupings ctx) = Ok arrays ∧ arrays ≠ [] ∧
    Forall (λ array, length array = num_rows b) arrays ∧ groups = row_at null arrays <$> seq 0 (num_rows b).

Lemma group_data_length ctx b groups :
  group_data ctx b groups → length groups = num_rows b ∧ Forall (λ g, length g = length (groupings ctx)) groups.
Proof.
  intros (arrays & He & _ & _ & ->). rewrite length_fmap, length_seq. split; [done|].
  apply Forall_fmap, Forall_forall. intros j _. unfold compose, row_at. rewrite length_fmap.
  apply rmapM_Ok, Forall2_length in He. done.
Qed.

Lemma create_grouping_rows_ok ctx b groups :
  group_data ctx b groups → create_grouping_rows ctx b = Ok (row_encode <$> groups).
Proof.
  intros (arrays & He & Hne & Hl & ->). unfold create_grouping_rows. rewrite He. cbn [mbind Result_bind].
  unfold convert_columns. destruct arrays as [|a0 arrays]; [done|]. rewrite (Forall_inv Hl). unfold range.
  rewrite Nat.sub_0_r. apply rmapM_Ok. rewrite <- list_fmap_compose. apply Forall2_fmap_r, Forall_Forall2_diag, Forall_seq.
  intros j Hj. unfold compose. rewrite (proj2 (rmapM_Ok _ _ (row_at null (a0 :: arrays) j))); [done|].
  unfold row_at. apply Forall2_fmap_r, Forall_Forall2_diag. eapply Forall_impl; [exact Hl|].
  intros a Ha. cbn in Ha. unfold compose. apply index_Ok, lookup_nth. lia.
Qed.

Lemma picks_same (n i : nat) : i < n → picks (idx_zipped (Range 0 n) (Range 0 n)) i = [i].
Proof.
  intros Hi. rewrite zipped_range by (cbn; unfold range; by rewrite length_seq). unfold picks, range.
  rewrite Nat.sub_0_r. replace n with (i + S (n - S i)) by lia. rewrite seq_app, fmap_app, filter_app, fmap_app.
  cbn [seq plus fmap list_fmap]. rewrite filter_none.
  - rewrite filter_cons, decide_True by (cbn; lia). rewrite filter_none; [done|].
    intros p (j & -> & Hj)%list_elem_of_fmap. apply elem_of_seq in Hj. cbn. lia.
  - intros p (j & -> & Hj)%list_elem_of_fmap. apply elem_of_seq in Hj. cbn. lia.
Qed.

Lemma create_table_ok ctx n :
  let t := (λ e, create_acc_column (agg e) n) <$> aggs ctx in
  table_ok ctx t ∧ covers t n ∧ ∀ k i, k < length (aggs ctx) → tslot ctx t k i = init (kind_at ctx k).
Proof.
  cbn. split; [|split].
  - apply Forall2_fmap_r, Forall_Forall2_diag, Forall_forall. intros e _. apply create_acc_column_ok.
  - apply Forall_fmap, Forall_forall. intros e _. unfold compose.
    destruct (create_acc_column_ok (agg e) n) as (_ & -> & _). done.
  - intros k i Hk. unfold tslot, kind_at. rewrite list_lookup_fmap. destruct (lookup_lt_is_Some_2 _ _ Hk) as [e ->].
    cbn. apply create_acc_column_ok.
Qed.

(** Without aggregation, a row is output with the accumulators of the row alone. *)
Lemma process_partial_skipped_ok ctx b css groups :
  ctx_ok ctx → batch_data ctx b css → group_data ctx b groups →
  ∃ out, process_partial_skipped ctx b = ([out], Ok tt) ∧
    batch_rows null out = imap (λ j g, g ++
      ((λ k, of_i64 (merge_all (kind_at ctx k) [contrib_at css k j])) <$> seq 0 (length (aggs ctx)))) groups.
Proof.
  intros Hctx Hb Hg. pose proof (group_data_length _ _ _ Hg) as [Hgl Hgw].
  destruct Hg as (arrays & He & Hne & Hl & Hgeq). unfold process_partial_skipped.
  rewrite create_acc_table_ok. cbn [run]. destruct (create_table_ok ctx (num_rows b)) as (Ht & Hcov & Hinit).
  destruct (update_batch_ok ctx b css _ (Range 0 (num_rows b)) (num_rows b) Hctx Hb Ht) as (t & -> & Ht' & Hcov' & _ & Hsl);
    [cbn; unfold range; by rewrite length_seq, Nat.sub_0_r|done|].
  cbn [run]. rewrite He. cbn [run]. rewrite build_agg_columns_ok by (done || by apply in_table_range). cbn [run idx_iter]. unfold try_new_batch. rewrite decide_True.
  - cbn [run]. eexists. split; [done|]. apply batch_rows_ok; [by rewrite length_imap|].
    intros j r Hr. apply list_lookup_imap_Some in Hr as (g & Hgj & ->).
    pose proof (lookup_lt_Some _ _ _ Hgj) as Hj. rewrite Hgl in Hj.
    rewrite row_at_app, row_at_values by lia. rewrite Hgeq, list_lookup_fmap, lookup_seq_lt in Hgj by done.
    injection Hgj as <-. f_equal. unfold value_row. apply list_fmap_ext. intros ? k Hk.
    apply lookup_seq in Hk as [-> Hk]. cbn [plus]. rewrite Hsl, Hinit, picks_same by done. done.
  - apply rmapM_Ok, Forall2_length in He. split.
    + rewrite length_app. unfold to_columns. rewrite !length_fmap, length_seq, <- He. by destruct Hctx.
    + apply Forall_app. split; [done|]. unfold to_columns. rewrite Forall_fmap. apply Forall_fmap, Forall_forall.
      intros k _. unfold compose. rewrite !length_fmap. unfold range. rewrite length_seq. lia.
Qed.

End AggCtx.

(** A null FILTER value whose value bit is set passes, although SQL says that only true
    passes. *)
Example filter_keeps_null_rows :
  build_filtered_indices (Single 0) 0 1 [(true, false)] = Ok ([0], [0]) ∧ sql_true (Some [(true, false)]) 0 = false.
Proof. split; reflexivity. Qed.
