(* ===== verification/AggGroups.v ===== *)
(** * Groups of records

    The specification side of hash aggregation.  A record is a key with what it contributes
    to each aggregate; the value of a key for an aggregate merges the contributions of the
    records with that key.  Two lists of records are equivalent when they have the same
    keys with the same values: this is what spilling, merging and skipping preserve, while
    the records themselves change.

    [table_rel] relates a hash map and its accumulator table to the records added so far;
    [upsert_rel] shows that an upsert of keys followed by an update of the named
    accumulators adds the records. *)

From S2P Require Import Prelude MachineInt Io Arrow BatchSerde Joins JoinHashMap AggHashMap AggAcc AggCtx.

Set Default Proof Using "Type".

Local Abbreviation bytes := (list Z).
Local Abbreviation Record_ := (bytes * (nat → option Z))%type.
Local Abbreviation AccTable := (list AccColumn).

Section Groups.
Context {V : Type} (ctx : @AggContext V).

(** The contributions to aggregate [k] of the records with a key, and their value. *)
Definition gvals (P : list Record_) (key : bytes) (k : nat) : list (option Z) :=
  (λ r : Record_, r.2 k) <$> filter (λ r, r.1 = key) P.
Definition gval (P : list Record_) (key : bytes) (k : nat) : option Z := merge_all (kind_at ctx k) (gvals P key k).

Definition same_groups (P Q : list Record_) : Prop :=
  (∀ key, key ∈ P.*1 ↔ key ∈ Q.*1) ∧ ∀ key k, k < length (aggs ctx) → gval P key k = gval Q key k.

#[export] Instance same_groups_equiv : Equivalence same_groups.
Proof.
  split.
  - done.
  - intros P Q [Hk Hv]. split; [by intros|]. intros. symmetry. by apply Hv.
  - intros P Q R [Hk Hv] [Hk' Hv']. split; [intros; by rewrite Hk|]. intros. by rewrite Hv, Hv'.
Qed.

Lemma gvals_app P Q key k : gvals (P ++ Q) key k = gvals P key k ++ gvals Q key k.
Proof. unfold gvals. by rewrite filter_app, fmap_app. Qed.

Lemma gval_app P Q key k :
  gval (P ++ Q) key k = merge (kind_at ctx k) (gval P key k) (gval Q key k).
Proof. unfold gval. rewrite gvals_app. apply merge_all_app. Qed.

#[export] Instance same_groups_app : Proper (same_groups ==> same_groups ==> same_groups) (++).
Proof.
  intros P P' [Hk Hv] Q Q' [Hk' Hv']. split.
  - intros key. rewrite !fmap_app, !elem_of_app. by rewrite Hk, Hk'.
  - intros key k Hl. by rewrite !gval_app, Hv, Hv'.
Qed.

#[export] Instance same_groups_perm : subrelation Permutation same_groups.
Proof.
  intros P Q Hp. split; [intros; by rewrite Hp|]. intros key k _. unfold gval, gvals. by rewrite Hp.
Qed.

Lemma gvals_notin P key k : key ∉ P.*1 → gvals P key k = [].
Proof.
  intros Hn. unfold gvals. rewrite filter_none; [done|]. intros r Hr <-. apply Hn, list_elem_of_fmap. eauto.
Qed.

(** The value of a key that occurs once. *)
Lemma gvals_unique P r k : NoDup P.*1 → r ∈ P → gvals P r.1 k = [r.2 k].
Proof.
  intros Hnd [i Hi]%list_elem_of_lookup. pose proof (take_drop_middle P i r Hi) as E. rewrite <- E in Hnd |- *.
  rewrite fmap_app, fmap_cons in Hnd. apply NoDup_app in Hnd as (_ & Hd & Hc). apply NoDup_cons in Hc as [Hc _].
  rewrite gvals_app. rewrite gvals_notin by (intros Hin; apply (Hd _ Hin); left). unfold gvals.
  rewrite filter_cons, decide_True by done. rewrite fmap_cons. cbn [app]. f_equal.
  apply (gvals_notin _ _ k Hc).
Qed.

(** Groups written out: one record per key. *)
Definition grouped (P Q : list Record_) : Prop :=
  NoDup Q.*1 ∧ (∀ key, key ∈ P.*1 ↔ key ∈ Q.*1) ∧
  ∀ r k, r ∈ Q → k < length (aggs ctx) → r.2 k = gval P r.1 k.

Lemma gval_normal P key k : normal (kind_at ctx k) (gval P key k).
Proof. apply normal_merge_all. Qed.

Lemma grouped_same P Q : grouped P Q → same_groups P Q.
Proof.
  intros (Hnd & Hk & Hv). split; [done|]. intros key k Hl. destruct (decide (key ∈ Q.*1)) as [Hin|Hin].
  - apply list_elem_of_fmap in Hin as (r & -> & Hr). unfold gval at 2. rewrite gvals_unique by done.
    rewrite (Hv r k Hr Hl). unfold merge_all. cbn. rewrite (comm (merge _)). symmetry. apply gval_normal.
  - unfold gval. rewrite !gvals_notin; [done|done|by rewrite Hk].
Qed.

Lemma grouped_perm P Q Q' : Q ≡ₚ Q' → grouped P Q → grouped P Q'.
Proof.
  intros Hp (Hnd & Hk & Hv). split_and!; [by rewrite <- Hp|intros; by rewrite <- Hp|].
  intros r k Hr. apply Hv. by rewrite Hp.
Qed.

Lemma grouped_trans P P' Q : same_groups P P' → grouped P' Q → grouped P Q.
Proof.
  intros [Hk Hv] (Hnd & Hk' & Hv'). split_and!; [done|intros; by rewrite Hk|].
  intros r k Hr Hl. by rewrite Hv', Hv.
Qed.

(** Groups of disjoint keys can be written out one after the other. *)
Lemma grouped_app P1 P2 Q1 Q2 :
  grouped P1 Q1 → grouped P2 Q2 → (∀ key, key ∈ P1.*1 → key ∉ P2.*1) → grouped (P1 ++ P2) (Q1 ++ Q2).
Proof.
  intros (Hn1 & Hk1 & Hv1) (Hn2 & Hk2 & Hv2) Hd. split_and!.
  - rewrite fmap_app. apply NoDup_app. split_and!; [done| |done]. intros key. rewrite <- Hk1, <- Hk2. apply Hd.
  - intros key. rewrite !fmap_app, !elem_of_app. by rewrite Hk1, Hk2.
  - intros r k [Hr|Hr]%elem_of_app Hl.
    + rewrite (Hv1 r k Hr Hl), gval_app. unfold gval at 3. rewrite gvals_notin.
      * unfold merge_all. cbn. symmetry. apply gval_normal.
      * apply Hd, Hk1, list_elem_of_fmap. eauto.
    + rewrite (Hv2 r k Hr Hl), gval_app. unfold gval at 2. rewrite gvals_notin.
      * unfold merge_all. cbn. rewrite (comm (merge _)). symmetry. apply gval_normal.
      * intros Hin. apply (Hd _ Hin), Hk2, list_elem_of_fmap. eauto.
Qed.

(** *** Upserting keys *)

Lemma upsert_spec_ok ks keys out keys' res :
  NoDup keys → foldl upsert_spec (keys, out) ks = (keys', res) →
  ∃ idxs, res = out ++ idxs ∧ NoDup keys' ∧ keys `prefix_of` keys' ∧
    Forall2 (λ i key, keys' !! Z.to_nat i = Some key) idxs ks ∧
    (∀ key, key ∈ keys' ↔ key ∈ keys ∨ key ∈ ks) ∧
    ∀ g, length keys ≤ g < length keys' → g ∈ (Z.to_nat <$> idxs).
Proof.
  revert keys out. induction ks as [|key ks IH]; intros keys out Hnd H.
  { injection H as <- <-. exists []. rewrite app_nil_r. split_and!; [done|done|done|constructor|set_solver|intros; lia]. }
  cbn [foldl] in H. unfold upsert_spec in H at 2. pose proof (list_find_key keys key) as Hf.
  destruct (list_find (λ k, k = key) keys) as [[i k]|].
  - destruct (IH keys _ Hnd H) as (idxs & -> & Hnd' & Hpre & Hall & Hk & Hg). exists (Z.of_nat i :: idxs).
    rewrite <- app_assoc. split_and!; [done|done|done| | |].
    + constructor; [|done]. rewrite Nat2Z.id. by eapply prefix_lookup_Some.
    + intros key'. rewrite Hk, elem_of_cons. apply list_elem_of_lookup_2 in Hf. naive_solver.
    + intros g Hlt. rewrite fmap_cons. right. by apply Hg.
  - edestruct (IH (keys ++ [key])) as (idxs & -> & Hnd' & Hpre & Hall & Hk & Hg); [|exact H|].
    { apply NoDup_app. split_and!; [done|set_solver|apply NoDup_singleton]. }
    exists (Z.of_nat (length keys) :: idxs). rewrite <- app_assoc. split_and!; [done|done| | | |].
    + etransitivity; [|exact Hpre]. by apply prefix_app_r.
    + constructor; [|done]. rewrite Nat2Z.id. eapply prefix_lookup_Some; [|done].
      rewrite lookup_app_r, Nat.sub_diag by lia. done.
    + intros key'. rewrite Hk, elem_of_app, elem_of_cons. set_solver.
    + intros g Hlt. rewrite fmap_cons, Nat2Z.id. destruct (decide (g = length keys)) as [->|]; [left|right].
      apply Hg. rewrite length_app. cbn. lia.
Qed.

Lemma upsert_len ks keys out keys' res :
  foldl upsert_spec (keys, out) ks = (keys', res) → length keys' ≤ length keys + length ks.
Proof.
  revert keys out. induction ks as [|key ks IH]; intros keys out H; [injection H as <- <-; cbn; lia|].
  cbn [foldl] in H. unfold upsert_spec in H at 2. destruct (list_find _ keys) as [[i k]|]; apply IH in H;
    rewrite ?length_app in H; cbn in *; lia.
Qed.

(** What the pairs of an upsert send to group [g]. *)
Lemma picks_zip {A} (h : A → option Z) (l : list nat) (N : list A) m i :
  length l = length N → ∀ f : nat → option Z, (∀ j r, N !! j = Some r → f (m + j) = h r) →
  f <$> picks (zip l (seq m (length N))) i = h ∘ snd <$> filter (λ p, p.1 = i) (zip l N).
Proof.
  revert l m. induction N as [|r N IH]; intros [|x l] m Hl f Hf; try done. cbn [length seq].
  change (zip (x :: l) (m :: seq (S m) (length N))) with ((x, m) :: zip l (seq (S m) (length N))).
  change (zip (x :: l) (r :: N)) with ((x, r) :: zip l N). unfold picks. rewrite !filter_cons. cbn [fst].
  assert (IH' : f <$> picks (zip l (seq (S m) (length N))) i = h ∘ snd <$> filter (λ p, p.1 = i) (zip l N)).
  { apply IH; [cbn in Hl; lia|]. intros j r' Hj. rewrite <- (Hf (S j) r' Hj). f_equal. lia. }
  unfold picks in IH'. case_decide; [|exact IH']. rewrite !fmap_cons. f_equal; [|exact IH'].
  unfold compose. cbn [snd]. rewrite <- (Hf 0 r eq_refl). f_equal. lia.
Qed.

Lemma zip_filter_keys (l : list nat) (N : list Record_) (key : bytes) (g : nat) (k : nat) :
  Forall2 (λ i r, i = g ↔ r.1 = key) l N →
  (λ r : Record_, r.2 k) ∘ snd <$> filter (λ p, p.1 = g) (zip l N) = gvals N key k.
Proof.
  unfold gvals. induction 1 as [|i r l N Hir _ IH]; [done|].
  change (zip (i :: l) (r :: N)) with ((i, r) :: zip l N). rewrite !filter_cons. cbn [fst].
  destruct (decide (i = g)) as [E|E].
  - rewrite decide_True by tauto. rewrite !fmap_cons. by rewrite IH.
  - by rewrite decide_False by tauto.
Qed.

Lemma covers_max t n m : covers t n → covers t m → covers t (n `max` m).
Proof. intros Hn Hm. apply Forall_forall. intros c Hc. unfold covers in *. rewrite Forall_forall in *. specialize (Hn c Hc). specialize (Hm c Hc). lia. Qed.

Lemma covers_le t n m : covers t n → m ≤ n → covers t m.
Proof. intros Hn Hm. eapply Forall_impl; [exact Hn|]. cbn. lia. Qed.

(** *** The hash table of some records *)

Context (hash_one : bytes → Z) (spilled : bytes → bool).

Record table_rel (map : AggTable) (acc : AccTable) (P : list Record_) : Prop := {
  tr_map : agg_inv hash_one spilled map;
  tr_table : table_ok ctx acc;
  tr_covers : covers acc (length (agg_keys map));
  tr_keys : ∀ key, key ∈ agg_keys map ↔ key ∈ P.*1;
  tr_vals : ∀ k g key, k < length (aggs ctx) → agg_keys map !! g = Some key → tslot ctx acc k g = gval P key k;
  tr_fresh : ∀ k g, k < length (aggs ctx) → length (agg_keys map) ≤ g → tslot ctx acc k g = init (kind_at ctx k) }.

Lemma table_rel_empty : table_rel agg_default ((λ e, create_acc_column (agg e) 0) <$> aggs ctx) [].
Proof.
  destruct (create_table_ok ctx 0) as (Ht & Hcov & Hs). split; try done.
  - split_and!; [apply NoDup_nil_2|done|by left].
  - intros. by apply Hs.
Qed.

(** Adding records: upsert their keys, then add what record [j] contributes to the
    accumulator of its key. *)
Lemma upsert_rel map acc P (N : list Record_) :
  table_rel map acc P → (Z.of_nat (length (agg_keys map) + length N) < 2 ^ 32)%Z →
  ∃ map' idxs, upsert_records hash_one spilled map N.*1 = Ok (map', idxs) ∧ length idxs = length N ∧
    length (agg_keys map') ≤ length (agg_keys map) + length N ∧
    ∀ acc', table_ok ctx acc' → covers acc' (length (agg_keys map)) →
      covers acc' (idx_num_records (IndicesU32 idxs)) →
      (∀ k i, k < length (aggs ctx) → tslot ctx acc' k i = foldl (merge (kind_at ctx k)) (tslot ctx acc k i)
        ((λ j, match N !! j with Some r => r.2 k | None => None end)
          <$> picks (idx_zipped (IndicesU32 idxs) (Range 0 (length N))) i)) →
      table_rel map' acc' (P ++ N).
Proof.
  intros [Hmap Ht Hcov Hkeys Hvals Hfresh] Hlt.
  destruct (upsert_records_ok hash_one spilled map N.*1 Hmap) as (map' & idxs & He & Hmap' & Hf); [by rewrite length_fmap|].
  pose proof (proj1 Hmap) as Hnd. pose proof (proj1 Hmap') as Hnd'.
  destruct (upsert_spec_ok _ _ _ _ _ Hnd Hf) as (idxs' & E & _ & Hpre & Hall & Hk & Hg). cbn in E. subst idxs'.
  pose proof (Forall2_length _ _ _ Hall) as Hlen. rewrite length_fmap in Hlen.
  exists map', idxs. split; [done|]. split; [done|]. split; [apply upsert_len in Hf; by rewrite length_fmap in Hf|].
  intros acc' Ht' Hcov1 Hcov2 Hsl. cbn [idx_zipped idx_iter] in Hsl.
  assert (Hpick : ∀ k i, (λ j, match N !! j with Some r => r.2 k | None => None end)
      <$> picks (zip (Z.to_nat <$> idxs) (range 0 (length N))) i
    = (λ r : Record_, r.2 k) ∘ snd <$> filter (λ p, p.1 = i) (zip (Z.to_nat <$> idxs) N)).
  { intros k i. unfold range. rewrite Nat.sub_0_r. apply picks_zip; [by rewrite length_fmap|].
    intros j r Hj. cbn. by rewrite Hj. }
  assert (Hidx : ∀ g key, agg_keys map' !! g = Some key →
    Forall2 (λ i r, i = g ↔ r.1 = key) (Z.to_nat <$> idxs) N).
  { intros g key Hgk. apply Forall2_fmap_l. apply Forall2_fmap_r in Hall. eapply Forall2_impl; [exact Hall|].
    cbn. intros i r Hi. split; [intros <-; congruence|]. intros E. rewrite E in Hi. by eapply NoDup_lookup. }
  split; [done|done| | | |].
  - assert (length (agg_keys map') ≤ length (agg_keys map) `max` idx_num_records (IndicesU32 idxs)).
    { destruct (decide (length (agg_keys map) < length (agg_keys map'))) as [Hlong|]; [|lia].
      specialize (Hg (length (agg_keys map') - 1) ltac:(lia)). cbn [idx_num_records idx_iter].
      rewrite decide_False by (intros Hn; rewrite Hn in Hg; set_solver). apply max_list_elem in Hg. lia. }
    eapply covers_le; [apply (covers_max _ _ _ Hcov1 Hcov2)|done].
  - intros key. rewrite Hk, fmap_app, elem_of_app, Hkeys. done.
  - intros k g key Hkl Hgk. rewrite Hsl, Hpick, (zip_filter_keys _ N key g k (Hidx g key Hgk)) by done.
    rewrite gval_app. unfold gval at 2. rewrite <- (foldl_merge_l _ _ _ (gval_normal P key k)). f_equal.
    destruct (decide (g < length (agg_keys map))) as [Hlo|Hhi].
    + apply Hvals; [done|]. destruct (lookup_lt_is_Some_2 _ _ Hlo) as [key' Hk']. rewrite Hk'.
      eapply prefix_lookup_Some in Hk'; [|exact Hpre]. congruence.
    + rewrite Hfresh by (done || lia). unfold gval. rewrite gvals_notin; [done|]. rewrite <- Hkeys. intros Hin.
      apply list_elem_of_lookup in Hin as [g' Hg']. pose proof (lookup_lt_Some _ _ _ Hg').
      eapply prefix_lookup_Some in Hg'; [|exact Hpre]. assert (g = g') by (by eapply NoDup_lookup). lia.
  - intros k g Hkl Hgl. rewrite Hsl, Hpick by done. rewrite filter_none.
    + cbn. apply Hfresh; [done|]. apply prefix_length in Hpre. lia.
    + intros [i r] Hin. apply elem_of_zip_l in Hin. cbn. intros ->.
      apply list_elem_of_fmap in Hin as (z & -> & Hz). apply list_elem_of_lookup in Hz as [j Hj].
      destruct (Forall2_lookup_l _ _ _ _ _ Hall Hj) as (key & _ & Hkey). apply lookup_lt_Some in Hkey. lia.
Qed.

(** The records a list of keys and a table stand for. *)
Definition table_records (keys : list bytes) (acc : AccTable) : list Record_ :=
  imap (λ g key, (key, λ k, tslot ctx acc k g)) keys.

Lemma fst_table_records keys acc : (table_records keys acc).*1 = keys.
Proof.
  apply list_eq. intros g. unfold table_records. rewrite list_lookup_fmap, list_lookup_imap. by destruct (keys !! g).
Qed.

Lemma table_rel_grouped map acc P : table_rel map acc P → grouped P (table_records (agg_keys map) acc).
Proof.
  intros [Hmap _ _ Hkeys Hvals _]. split_and!.
  - rewrite fst_table_records. apply Hmap.
  - intros key. rewrite fst_table_records. by rewrite Hkeys.
  - intros r k Hr Hk. apply list_elem_of_lookup in Hr as [g Hg].
    apply list_lookup_imap_Some in Hg as (key & Hg & ->). cbn. by apply Hvals.
Qed.

End Groups.
