(* ===== verification/AggSpill.v ===== *)
(** * Spill files of hash aggregation

    native-engine/datafusion-ext-plans/src/agg/agg_table.rs: records are spilled in chunks
    of a bucket of their keys' hash, ordered by bucket, and read back by
    [RecordsSpillCursor].  A spill is the list of bytes written
    to it: compression and files belong to the spill of the memory manager.

    The bucket hash is a parameter of which only the type is used.  [spill_file] describes
    a file by the chunks it was written from; [write_spill_ok] shows that the writer
    produces such a file for entries sorted by bucket, and [read_bucket_ok] that the cursor
    returns the chunks in order and stops at the end mark. *)

From S2P Require Import Prelude MachineInt BatchSize Io Arrow BatchSerde Joins JoinHashMap RadixSort AggHashMap AggAcc AggCtx AggGroups.

Local Abbreviation bytes := (list Z).
Local Abbreviation Record_ := (bytes * (nat → option Z))%type.
Local Abbreviation AccTable := (list AccColumn).

Section AggSpill.
Context {V : Type} (ctx : @AggContext V) (bucket_hash : bytes → Z).

(** [(hash as u32 % num_spill_buckets as u32) as u16]; the number of buckets is not zero. *)
Definition bucket_id (key : bytes) (num_spill_buckets : nat) : Z :=
  wrapu 16 (u32 (bucket_hash key) mod u32 (Z.of_nat num_spill_buckets)).

(** ** Writing *)

Definition write_key (key : bytes) : Result bytes := len ← write_len (Z.of_nat (length key)); Ok (len ++ key).

Definition write_spill_bucket (t : AccTable) (keys : list bytes) (acc_indices : list nat) : Result bytes :=
  accs ← rmapM (λ col, acc_spill col (Indices acc_indices)) t;
  keys ← rmapM write_key keys;
  Ok (concat accs ++ concat keys).

Section Entries.
Context {E : Type} (key_of : E → Result bytes) (acc_of : E → nat).

(** The [while] loop over the chunks of a bucket; the state is [offset] and the output. *)
Definition write_chunk (t : AccTable) (entries : list E) (bucket_batch_size cur_bucket_id offset_end : nat)
    (st : nat * bytes) : Result (nat * bytes) :=
  let '(offset, out) := st in
  let cur_bucket_count := bucket_batch_size `min` (offset_end - offset) in
  id ← write_len (Z.of_nat cur_bucket_id);
  count ← write_len (Z.of_nat cur_bucket_count);
  chunk ← subslice entries offset (offset + cur_bucket_count);
  keys ← rmapM key_of chunk;
  bucket ← write_spill_bucket t keys (acc_of <$> chunk);
  Ok (offset + cur_bucket_count, out ++ id ++ count ++ bucket).

Definition write_bucket (t : AccTable) (entries : list E) (bucket_batch_size : nat) (st : nat * bytes) (p : nat * nat)
    : Result (nat * bytes) :=
  let offset_end := st.1 + p.2 in
  rwhile (length entries) (λ st, bool_decide (st.1 < offset_end))
    (write_chunk t entries bucket_batch_size p.1 offset_end) st.

Definition write_spill (t : AccTable) (entries : list E) (bucket_counts : list nat)
    (bucket_batch_size num_spill_buckets : nat) : Result bytes :=
  st ← rfoldM (write_bucket t entries bucket_batch_size) (0, []) (enumerate bucket_counts);
  id ← write_len (Z.of_nat num_spill_buckets);
  count ← write_len 0;
  Ok (st.2 ++ id ++ count).

End Entries.

(** ** Reading *)

Definition read_spill_bucket (t : AccTable) (num_rows : nat) : Reader (AccTable * list bytes) :=
  t ← read_all (λ col, acc_unspill col num_rows) t;
  keys ← read_all (λ _, len ← read_len; read_bytes_slice (Z.to_nat len)) (range 0 num_rows);
  mret (t, keys).

Record RecordsSpillCursor := mkCursor {
  input : bytes;
  cur_bucket_idx : nat;
  cur_bucket_count : nat }.

Definition try_from_spill (spill : bytes) : Result RecordsSpillCursor :=
  '(idx, inp) ← read_len spill;
  '(count, inp) ← read_len inp;
  Ok (mkCursor inp (Z.to_nat idx) (Z.to_nat count)).

(** [.expect(..)] *)
Definition expect {A} (r : Result A) : Result A := match r with Err _ => Panic | _ => r end.

Definition read_bucket (c : RecordsSpillCursor) : Result (RecordsSpillCursor * (AccTable * list bytes)) :=
  t ← create_acc_table ctx 0;
  '(data, inp) ← read_spill_bucket t (cur_bucket_count c) (input c);
  '(idx, inp) ← expect (read_len inp);
  '(count, inp) ← expect (read_len inp);
  Ok (mkCursor inp (Z.to_nat idx) (Z.to_nat count), data).

(** ** Files *)

Record Chunk := mkChunk { ck_bucket : nat; ck_table : AccTable; ck_keys : list bytes }.

Definition chunk_records (c : Chunk) : list Record_ := table_records ctx (ck_keys c) (ck_table c).

Local Abbreviation len_of n := (len_bytes write_len_fuel (Z.of_nat n)).
Local Abbreviation empty_table := ((λ e, create_acc_column (agg e) 0) <$> aggs ctx).

Record chunk_ok (n : nat) (bs : bytes) (c : Chunk) : Prop := {
  ck_lt : ck_bucket c < n;
  ck_count : (Z.of_nat (length (ck_keys c)) < 2 ^ 64)%Z;
  ck_table_ok : table_ok ctx (ck_table c);
  ck_covers : covers (ck_table c) (length (ck_keys c));
  ck_ids : Forall (λ key, bucket_id key n = Z.of_nat (ck_bucket c)) (ck_keys c);
  ck_reads : ∀ rest, read_spill_bucket empty_table (length (ck_keys c)) (bs ++ rest) = Ok ((ck_table c, ck_keys c), rest) }.

(** Chunks from bucket [lo] on, and the end mark. *)
Inductive spill_file (n : nat) : nat → bytes → list Chunk → Prop :=
  | spill_end lo : lo ≤ n → spill_file n lo (len_of n ++ len_of 0) []
  | spill_chunk lo bs c rest cs :
      lo ≤ ck_bucket c → chunk_ok n bs c → spill_file n (ck_bucket c) rest cs →
      spill_file n lo (len_of (ck_bucket c) ++ len_of (length (ck_keys c)) ++ bs ++ rest) (c :: cs).

(** A cursor that has read the head of the first of [cs]. *)
Definition cursor_ok (n : nat) (cur : RecordsSpillCursor) (cs : list Chunk) : Prop :=
  match cs with
  | [] => cur = mkCursor [] n 0
  | c :: cs => ∃ bs rest, cur = mkCursor (bs ++ rest) (ck_bucket c) (length (ck_keys c)) ∧
      chunk_ok n bs c ∧ spill_file n (ck_bucket c) rest cs
  end.

(** ** Lemmas *)

Lemma spill_file_weaken n lo lo' bs cs : lo' ≤ lo → spill_file n lo bs cs → spill_file n lo' bs cs.
Proof. intros Hle H. destruct H; constructor; (done || lia). Qed.

Lemma read_head n m rest :
  (Z.of_nat n < 2 ^ 64)%Z → (Z.of_nat m < 2 ^ 64)%Z →
  read_len (len_of n ++ len_of m ++ rest) = Ok (Z.of_nat n, len_of m ++ rest) ∧
  read_len (len_of m ++ rest) = Ok (Z.of_nat m, rest).
Proof. intros Hn Hm. split; apply read_len_app; unfold in_u; lia. Qed.

Lemma len_bytes_pos fuel len : 0 < length (len_bytes fuel len).
Proof. destruct fuel; cbn [len_bytes]; [|case_bool_decide]; cbn; lia. Qed.

(** What the head of a file says. *)
Lemma spill_file_head n lo bs cs :
  (Z.of_nat n < 2 ^ 64)%Z → spill_file n lo bs cs →
  ∃ idx count inp inp', read_len bs = Ok (Z.of_nat idx, inp') ∧ read_len inp' = Ok (Z.of_nat count, inp) ∧
    cursor_ok n (mkCursor inp idx count) cs ∧ lo ≤ idx ≤ n ∧ length inp < length bs.
Proof.
  intros Hn [lo' Hlo|lo' bs' c rest cs' Hlo Hc Hf].
  - destruct (read_head n 0 []) as [H1 H2]; [done|lia|]. rewrite !app_nil_r in H1, H2.
    exists n, 0, [], (len_of 0). split; [done|]. split; [done|]. split; [done|]. split; [lia|].
    rewrite length_app. pose proof (len_bytes_pos write_len_fuel (Z.of_nat n)). cbn [length]. lia.
  - destruct Hc as [Hlt Hcount Ht Hcov Hids Hreads].
    destruct (read_head (ck_bucket c) (length (ck_keys c)) (bs' ++ rest)) as [H1 H2]; [lia|done|].
    do 4 eexists. split; [exact H1|]. split; [exact H2|]. split; [exists bs', rest; split_and!; [done|done|done]|].
    split; [lia|]. rewrite !length_app. pose proof (len_bytes_pos write_len_fuel (Z.of_nat (ck_bucket c))). lia.
Qed.

Lemma try_from_spill_ok n bs cs :
  (Z.of_nat n < 2 ^ 64)%Z → spill_file n 0 bs cs →
  ∃ cur, try_from_spill bs = Ok cur ∧ cursor_ok n cur cs.
Proof.
  intros Hn Hf. destruct (spill_file_head n 0 bs cs Hn Hf) as (idx & count & inp & inp' & H1 & H2 & Hc & _).
  eexists. split; [|exact Hc]. unfold try_from_spill. rewrite H1. cbn [mbind Result_bind]. rewrite H2.
  cbn [mbind Result_bind]. by rewrite !Nat2Z.id.
Qed.

Lemma cursor_idx n cur cs : cursor_ok n cur cs → cur_bucket_idx cur ≤ n ∧ (cur_bucket_idx cur = n ↔ cs = []).
Proof.
  destruct cs as [|c cs]; [intros ->; cbn; naive_solver lia|]. intros (bs & rest & -> & [Hlt _ _ _ _ _] & _). cbn.
  split; [lia|]. split; [lia|done].
Qed.

(** The cursor returns its first chunk and goes to a bucket that is not smaller. *)
Lemma read_bucket_ok n cur c cs :
  (Z.of_nat n < 2 ^ 64)%Z → cursor_ok n cur (c :: cs) →
  ∃ cur', read_bucket cur = Ok (cur', (ck_table c, ck_keys c)) ∧ cursor_ok n cur' cs ∧
    cur_bucket_idx cur = ck_bucket c ∧ ck_bucket c ≤ cur_bucket_idx cur' ≤ n ∧ length (input cur') < length (input cur).
Proof.
  intros Hn (bs & rest & -> & Hc & Hf). pose proof Hc as [_ _ _ _ _ Hreads].
  destruct (spill_file_head n _ _ cs Hn Hf) as (idx & count & inp & inp' & H1 & H2 & Hcur & Hidx & Hlen).
  exists (mkCursor inp idx count). unfold read_bucket. rewrite create_acc_table_ok. cbn [mbind Result_bind input cur_bucket_count].
  rewrite Hreads. cbn [mbind Result_bind]. rewrite H1. cbn [expect mbind Result_bind]. rewrite H2.
  cbn [expect mbind Result_bind]. rewrite !Nat2Z.id. cbn [input cur_bucket_idx]. rewrite length_app.
  split_and!; [done|done|done|lia|lia|lia].
Qed.

(** The buckets of a file are ordered. *)
Lemma spill_file_buckets n lo bs cs : spill_file n lo bs cs → Forall (λ c, lo ≤ ck_bucket c) cs.
Proof.
  induction 1 as [|lo bs c rest cs Hlo _ _ IH]; [done|]. constructor; [done|]. eapply Forall_impl; [exact IH|]. cbn. lia.
Qed.

Lemma cursor_buckets n cur cs : cursor_ok n cur cs → Forall (λ c, cur_bucket_idx cur ≤ ck_bucket c) cs.
Proof.
  destruct cs as [|c cs]; [done|]. intros (bs & rest & -> & _ & Hf). constructor; [done|]. by eapply spill_file_buckets.
Qed.

Lemma spill_file_ids n lo bs cs : spill_file n lo bs cs →
  Forall (λ c, Forall (λ key, bucket_id key n = Z.of_nat (ck_bucket c)) (ck_keys c)) cs.
Proof. induction 1 as [|lo bs c rest cs _ [_ _ _ _ Hids _] _ IH]; [done|]. by constructor. Qed.

Lemma cursor_ids n cur cs : cursor_ok n cur cs →
  Forall (λ c, Forall (λ key, bucket_id key n = Z.of_nat (ck_bucket c)) (ck_keys c)) cs.
Proof.
  destruct cs as [|c cs]; [done|]. intros (bs & rest & -> & [_ _ _ _ Hids _] & Hf). constructor; [done|].
  by eapply spill_file_ids.
Qed.

(** *** Chunks *)

Definition key_ok (key : bytes) : Prop := (Z.of_nat (length key) < 2 ^ 64)%Z.

Lemma read_keys {A} (l : list A) keys rest :
  length l = length keys → Forall key_ok keys →
  read_all (λ _, len ← read_len; read_bytes_slice (Z.to_nat len)) l (concat ((λ key, len_of (length key) ++ key) <$> keys) ++ rest)
  = Ok (keys, rest).
Proof.
  intros Hl Hk. revert l Hl. induction Hk as [|key keys Hk _ IH]; intros [|x l] Hl; try done.
  rewrite fmap_cons. cbn [read_all concat]. rewrite <- !app_assoc.
  erewrite reader_bind_Ok.
  2:{ erewrite reader_bind_Ok by (apply read_len_app; unfold in_u, key_ok in *; lia).
      rewrite Nat2Z.id. by apply read_exact_app. }
  erewrite reader_bind_Ok by (apply IH; cbn in Hl; lia). done.
Qed.

Lemma spill_columns es t idxs :
  Forall2 (λ e c, acc_ok (agg e) c) es t → Forall (λ i, covers t (S i)) idxs → (Z.of_nat (length idxs) < 2 ^ 64)%Z →
  ∃ bss t', rmapM (λ col, acc_spill col (Indices idxs)) t = Ok bss ∧
    (∀ rest, read_all (λ col, acc_unspill col (length idxs)) ((λ e : @AggExpr V, create_acc_column (agg e) 0) <$> es)
      (concat bss ++ rest) = Ok (t', rest)) ∧
    Forall2 (λ e c, acc_ok (agg e) c) es t' ∧
    ∀ k e c, es !! k = Some e → t !! k = Some c → ∃ c', t' !! k = Some c' ∧ view c' = slot (agg e) c <$> idxs.
Proof.
  intros Ht Hidx Hlt. induction Ht as [|e c es t Hc Ht IH].
  { exists [], []. split_and!; [done..|]. intros k e c He. done. }
  assert (Forall (λ i, i < num_records c) idxs ∧ Forall (λ i, covers t (S i)) idxs) as [Hc1 Hc2].
  { split; (eapply Forall_impl; [exact Hidx|]); intros i Hi; apply Forall_cons in Hi as [? ?]; done. }
  destruct (IH Hc2) as (bss & t' & Hw & Hr & Ht' & Hv).
  destruct (acc_spill_ok (agg e) c (Indices idxs) Hc Hc1 Hlt) as (bs & c' & Hs & Hu & Hc' & Hview).
  exists (bs :: bss), (c' :: t'). split; [cbn [rmapM]; rewrite Hs; cbn [mbind Result_bind]; by rewrite Hw|].
  split; [|split; [by constructor|]].
  - intros rest. rewrite fmap_cons. cbn [concat read_all]. rewrite <- app_assoc. erewrite reader_bind_Ok by apply Hu.
    erewrite reader_bind_Ok by apply Hr. done.
  - intros [|k] e' d He' Hd; [injection He' as <-; injection Hd as <-; by exists c'|]. by apply Hv.
Qed.

Lemma write_spill_bucket_ok t keys idxs :
  table_ok ctx t → in_table t (Indices idxs) → length idxs = length keys → (Z.of_nat (length keys) < 2 ^ 64)%Z →
  Forall key_ok keys →
  ∃ bs t', write_spill_bucket t keys idxs = Ok bs ∧ table_ok ctx t' ∧ covers t' (length keys) ∧
    (∀ rest, read_spill_bucket empty_table (length keys) (bs ++ rest) = Ok ((t', keys), rest)) ∧
    ∀ k j i, idxs !! j = Some i → tslot ctx t' k j = tslot ctx t k i.
Proof.
  intros Ht Hin Hlen Hlt Hk. unfold write_spill_bucket.
  destruct (spill_columns (aggs ctx) t idxs Ht Hin) as (bss & t' & -> & Hr & Ht' & Hv); [by rewrite Hlen|].
  cbn [mbind Result_bind]. rewrite (proj2 (rmapM_Ok write_key keys ((λ key, len_of (length key) ++ key) <$> keys))); last first.
  { apply Forall2_fmap_r, Forall_Forall2_diag. eapply Forall_impl; [exact Hk|]. intros key Hkey. unfold compose, write_key.
    rewrite write_len_Ok by (unfold in_u, key_ok in *; lia). done. }
  cbn [mbind Result_bind]. exists (concat bss ++ concat ((λ key, len_of (length key) ++ key) <$> keys)), t'.
  split; [done|]. split; [done|]. split; [|split].
  - apply Forall_lookup. intros k c' Hc'. destruct (Forall2_lookup_r _ _ _ _ _ Ht' Hc') as (e & He & Hok).
    destruct (Forall2_lookup_l _ _ _ _ _ Ht He) as (c & Hc & _). destruct (Hv k e c He Hc) as (c2 & Hc2 & Hview).
    assert (c2 = c') as -> by congruence. rewrite <- (length_view (agg e)), Hview, length_fmap by done. lia.
  - intros rest. unfold read_spill_bucket. rewrite <- app_assoc, <- Hlen. erewrite reader_bind_Ok by apply Hr.
    erewrite reader_bind_Ok; [done|]. apply read_keys; [unfold range; rewrite length_seq; lia|done].
  - intros k j i Hj. unfold tslot. destruct (aggs ctx !! k) as [e|] eqn:He; [|done].
    destruct (Forall2_lookup_l _ _ _ _ _ Ht He) as (c & Hc & _). destruct (Hv k e c He Hc) as (c' & Hc' & Hview).
    rewrite Hc, Hc'. unfold slot at 1. by rewrite Hview, list_lookup_fmap, Hj.
Qed.

(** *** The writer *)

(** Records that agree one by one. *)
Lemma same_groups_Forall2 P Q :
  Forall2 (λ r r' : Record_, r.1 = r'.1 ∧ ∀ k, r.2 k = r'.2 k) P Q → same_groups ctx P Q.
Proof.
  intros H. split.
  - intros key. assert (P.*1 = Q.*1) as ->; [|done]. induction H as [|r r' P Q [E _] _ IH]; [done|]. cbn. by rewrite E, IH.
  - intros key k _. unfold gval. f_equal. unfold gvals. induction H as [|r r' P Q [E Ek] _ IH]; [done|].
    rewrite !filter_cons, <- E. case_decide; [|done]. rewrite !fmap_cons, Ek. by f_equal.
Qed.

Section Writer.
Context {E : Type} (key_of : E → Result bytes) (acc_of : E → nat).
Context (keyf : E → bytes) (bucket : E → nat) (t : AccTable) (n : nat).
Hypothesis t_ok : table_ok ctx t.
Hypothesis n_ok : (Z.of_nat n < 2 ^ 32)%Z.

Definition entry_ok (e : E) : Prop :=
  key_of e = Ok (keyf e) ∧ key_ok (keyf e) ∧ bucket_id (keyf e) n = Z.of_nat (bucket e) ∧ bucket e < n ∧
  covers t (S (acc_of e)).

Definition entry_record (e : E) : Record_ := (keyf e, λ k, tslot ctx t k (acc_of e)).

(** The chunks have the records of the entries. *)
Definition holds_entries (cs : list Chunk) (es : list E) : Prop :=
  same_groups ctx (concat (chunk_records <$> cs)) (entry_record <$> es) ∧
  length (concat (chunk_records <$> cs)) = length es.

Lemma holds_entries_app c1 c2 e1 e2 :
  holds_entries c1 e1 → holds_entries c2 e2 → holds_entries (c1 ++ c2) (e1 ++ e2).
Proof.
  intros [Hs1 Hl1] [Hs2 Hl2]. split.
  - by rewrite !fmap_app, concat_app, Hs1, Hs2.
  - by rewrite fmap_app, concat_app, !length_app, Hl1, Hl2.
Qed.

(** [out] is the chunks [cs] from bucket [lo] on, to be continued from bucket [hi] on. *)
Definition writes (lo : nat) (out : bytes) (cs : list Chunk) (hi : nat) : Prop :=
  ∀ rest cs', spill_file n hi rest cs' → spill_file n lo (out ++ rest) (cs ++ cs').

Lemma writes_trans lo mid hi o1 o2 c1 c2 :
  writes lo o1 c1 mid → writes mid o2 c2 hi → writes lo (o1 ++ o2) (c1 ++ c2) hi.
Proof. intros H1 H2 rest cs Hr. rewrite <- !app_assoc. by apply H1, H2. Qed.

Lemma writes_nil lo hi : lo ≤ hi → writes lo [] [] hi.
Proof. intros Hle rest cs Hr. by eapply spill_file_weaken. Qed.

Lemma subslice_take {A} (l1 l2 l3 : list A) c :
  c ≤ length l2 → subslice (l1 ++ l2 ++ l3) (length l1) (length l1 + c) = Ok (take c l2).
Proof.
  intros Hc. pose proof (subslice_mid l1 (take c l2) (drop c l2 ++ l3)) as Hs.
  rewrite app_assoc, length_take, Nat.min_l, <- app_assoc in Hs by done. rewrite <- Hs. do 2 f_equal.
  by rewrite (app_assoc (take c l2)), take_drop.
Qed.

Lemma write_chunk_ok bbs b pre seg post out :
  Forall entry_ok seg → Forall (λ e, bucket e = b) seg → 0 < bbs → seg ≠ [] → (Z.of_nat (length seg) < 2 ^ 32)%Z →
  let c := bbs `min` length seg in
  ∃ o cs, write_chunk key_of acc_of t (pre ++ seg ++ post) bbs b (length pre + length seg) (length pre, out)
      = Ok (length pre + c, out ++ o) ∧ writes b o cs b ∧ holds_entries cs (take c seg).
Proof.
  intros Hok Hb Hbbs Hne Hlt c. assert (Hc : 0 < c ≤ length seg) by (destruct seg; [done|cbn in *; lia]).
  assert (Hbn : b < n).
  { destruct seg as [|e seg]; [done|]. apply Forall_cons in Hok as [(_ & _ & _ & ? & _) _]. by apply Forall_cons in Hb as [<- _]. }
  unfold write_chunk. replace (length pre + length seg - length pre) with (length seg) by lia. fold c.
  rewrite write_len_Ok by (unfold in_u; lia). cbn [mbind Result_bind].
  rewrite write_len_Ok by (unfold in_u; lia). cbn [mbind Result_bind].
  rewrite subslice_take by lia. cbn [mbind Result_bind].
  apply (Forall_take _ c) in Hok, Hb. set (chunk := take c seg) in *.
  assert (Hcl : length chunk = c) by (unfold chunk; rewrite length_take; lia).
  rewrite (proj2 (rmapM_Ok key_of chunk (keyf <$> chunk))); last first.
  { apply Forall2_fmap_r, Forall_Forall2_diag. eapply Forall_impl; [exact Hok|]. by intros e [? _]. }
  cbn [mbind Result_bind].
  destruct (write_spill_bucket_ok t (keyf <$> chunk) (acc_of <$> chunk) t_ok) as (bs & t' & -> & Ht' & Hcov & Hr & Hs).
  { apply Forall_fmap. eapply Forall_impl; [exact Hok|]. by intros e (_ & _ & _ & _ & ?). }
  { by rewrite !length_fmap. }
  { rewrite length_fmap. lia. }
  { apply Forall_fmap. eapply Forall_impl; [exact Hok|]. by intros e (_ & ? & _). }
  cbn [mbind Result_bind]. eexists _, [mkChunk b t' (keyf <$> chunk)]. split; [done|]. split.
  - intros rest cs Hrest. rewrite <- !app_assoc. rewrite <- Hcl, <- (length_fmap keyf chunk).
    pose proof (spill_chunk n b bs (mkChunk b t' (keyf <$> chunk)) rest cs) as Hx. cbn [ck_bucket ck_keys app] in *.
    apply Hx; [done| |done]. clear Hx.
    split; cbn [ck_bucket ck_keys ck_table]; [done|rewrite length_fmap; lia|done|done| |done].
    apply Forall_fmap, Forall_forall. intros e He. unfold compose. rewrite Forall_forall in Hok, Hb.
    destruct (Hok e He) as (_ & _ & -> & _). by rewrite (Hb e He).
  - unfold holds_entries. cbn [fmap list_fmap concat]. rewrite app_nil_r.
    split; [|unfold chunk_records, table_records; cbn [ck_keys]; by rewrite length_imap, length_fmap].
    apply same_groups_Forall2. unfold chunk_records, table_records.
    cbn [ck_keys ck_table]. apply Forall2_same_length_lookup_2; [by rewrite length_imap, !length_fmap|]. intros j r r' Hr1 Hr2.
    apply list_lookup_imap_Some in Hr1 as (key & Hkey & ->). apply list_lookup_fmap_Some in Hr2 as (e & -> & He).
    rewrite list_lookup_fmap, He in Hkey. injection Hkey as <-. split; [done|].
    intros k. cbn. apply Hs. by rewrite list_lookup_fmap, He.
Qed.

Lemma write_bucket_ok bbs b pre seg post out :
  Forall entry_ok seg → Forall (λ e, bucket e = b) seg → 0 < bbs → (Z.of_nat (length seg) < 2 ^ 32)%Z →
  ∃ o cs, write_bucket key_of acc_of t (pre ++ seg ++ post) bbs (length pre, out) (b, length seg)
      = Ok (length pre + length seg, out ++ o) ∧ writes b o cs b ∧ holds_entries cs seg.
Proof.
  intros Hok Hb Hbbs Hlt. unfold write_bucket. cbn [fst snd].
  assert (Hfuel : length seg ≤ length (pre ++ seg ++ post)) by (rewrite !length_app; lia).
  revert Hfuel. generalize (length (pre ++ seg ++ post)) as fuel. intros fuel.
  revert pre seg out Hok Hb Hlt. induction fuel as [|fuel IH]; intros pre seg out Hok Hb Hlt Hfuel; cbn [rwhile fst].
  { destruct seg; [|cbn in Hfuel; lia]. rewrite bool_decide_false by (cbn; lia). exists [], []. rewrite app_nil_r, Nat.add_0_r.
    split_and!; [done|by apply writes_nil|done]. }
  case_bool_decide as Hcond; last first.
  { destruct seg; [|cbn in Hcond; lia]. exists [], []. rewrite app_nil_r, Nat.add_0_r.
    split_and!; [done|by apply writes_nil|done]. }
  assert (Hne : seg ≠ []) by (intros ->; cbn in Hcond; lia).
  destruct (write_chunk_ok bbs b pre seg post out Hok Hb Hbbs Hne Hlt) as (o1 & cs1 & -> & Hw1 & Hs1).
  cbn [mbind Result_bind]. set (c := bbs `min` length seg) in *.
  assert (Hc : 0 < c ≤ length seg) by (destruct seg; [done|cbn in *; lia]).
  destruct (IH (pre ++ take c seg) (drop c seg) (out ++ o1)) as (o2 & cs2 & He & Hw2 & Hs2).
  { by apply Forall_drop. }
  { by apply Forall_drop. }
  { rewrite length_drop. lia. }
  { rewrite length_drop. lia. }
  rewrite !length_app, length_take, Nat.min_l, length_drop in He by lia.
  replace (length pre + c + (length seg - c)) with (length pre + length seg) in He by lia.
  rewrite <- !app_assoc, (app_assoc (take c seg)), take_drop in He. rewrite He.
  exists (o1 ++ o2), (cs1 ++ cs2). split; [done|]. split; [by eapply writes_trans|].
  rewrite <- (take_drop c seg). by apply holds_entries_app.
Qed.

Definition segment (entries : list E) (b : nat) : list E := filter (λ e, bucket e = b) entries.

(** A list sorted by bucket is its buckets one after the other. *)
Lemma sorted_head (l : list E) m :
  StronglySorted (λ x y, bucket x ≤ bucket y) l → Forall (λ e, m ≤ bucket e) l →
  l = filter (λ e, bucket e = m) l ++ filter (λ e, bucket e ≠ m) l.
Proof.
  induction 1 as [|x l Hs IH Hx]; intros Hm; [done|]. apply Forall_cons in Hm as [Hxm Hm]. rewrite !filter_cons.
  destruct (decide (bucket x = m)) as [Eq|Ne].
  - rewrite decide_False by (intros Hn; by apply Hn). cbn. f_equal. by apply IH.
  - rewrite decide_True by done. rewrite filter_none.
    + cbn. f_equal. symmetry. apply filter_all. intros e He Eq. rewrite Forall_forall in Hx. specialize (Hx e He). lia.
    + intros e He. rewrite Forall_forall in Hx. specialize (Hx e He). lia.
Qed.

Lemma sorted_filter (P : E → Prop) `{∀ e, Decision (P e)} (l : list E) :
  StronglySorted (λ x y, bucket x ≤ bucket y) l → StronglySorted (λ x y, bucket x ≤ bucket y) (filter P l).
Proof.
  induction 1 as [|x l Hs IH Hx]; [constructor|]. rewrite filter_cons. case_decide; [|done]. constructor; [done|].
  apply Forall_forall. intros y [_ Hy]%list_elem_of_filter. rewrite Forall_forall in Hx. by apply Hx.
Qed.

Lemma sorted_concat (l : list E) m k :
  StronglySorted (λ x y, bucket x ≤ bucket y) l → Forall (λ e, m ≤ bucket e < m + k) l →
  l = concat (segment l <$> seq m k).
Proof.
  revert l m. induction k as [|k IH]; intros l m Hs Hl.
  { destruct l as [|e l]; [done|]. apply Forall_cons in Hl as [? _]. lia. }
  cbn [seq]. rewrite fmap_cons. cbn [concat].
  assert (Hl' : Forall (λ e, S m ≤ bucket e < S m + k) (filter (λ e, bucket e ≠ m) l)).
  { apply Forall_forall. intros e [Hne He]%list_elem_of_filter. rewrite Forall_forall in Hl. specialize (Hl e He). lia. }
  rewrite (sorted_head l m Hs) at 1 by (eapply Forall_impl; [exact Hl|]; cbn; lia). f_equal.
  rewrite (IH (filter (λ e, bucket e ≠ m) l) (S m)) at 1 by (done || by apply sorted_filter). f_equal.
  apply list_fmap_ext. intros ? b Hb. apply lookup_seq in Hb as [-> _]. unfold segment. rewrite list_filter_filter.
  apply filter_ext_elem. intros e _. lia.
Qed.

Lemma write_buckets_ok bbs entries k m pre out :
  Forall entry_ok entries → 0 < bbs → (Z.of_nat (length entries) < 2 ^ 32)%Z → m + k = n →
  entries = pre ++ concat (segment entries <$> seq m k) →
  ∃ o cs off, rfoldM (write_bucket key_of acc_of t entries bbs) (length pre, out) ((λ b, (b, length (segment entries b))) <$> seq m k)
      = Ok (off, out ++ o) ∧ writes m o cs n ∧ holds_entries cs (concat (segment entries <$> seq m k)).
Proof.
  intros Hok Hbbs Hlt. revert m pre out. induction k as [|k IH]; intros m pre out Hmk He.
  { exists [], [], (length pre). rewrite app_nil_r. split_and!; [done|apply writes_nil; lia|done]. }
  cbn [seq] in *. rewrite !fmap_cons in *. cbn [rfoldM concat] in *.
  assert (Hseg : Forall entry_ok (segment entries m)).
  { apply Forall_forall. intros e [_ Hin]%list_elem_of_filter. rewrite Forall_forall in Hok. by apply Hok. }
  destruct (write_bucket_ok bbs m pre (segment entries m) (concat (segment entries <$> seq (S m) k)) out Hseg) as (o1 & cs1 & Hw & Hw1 & Hs1).
  { apply Forall_forall. by intros e [? _]%list_elem_of_filter. }
  { done. }
  { pose proof (length_filter (λ e, bucket e = m) entries). unfold segment. lia. }
  rewrite <- He in Hw. rewrite Hw. cbn [mbind Result_bind].
  destruct (IH (S m) (pre ++ segment entries m) (out ++ o1)) as (o2 & cs2 & off & Hr & Hw2 & Hs2); [lia|by rewrite <- app_assoc|].
  rewrite length_app in Hr. rewrite Hr. exists (o1 ++ o2), (cs1 ++ cs2), off. rewrite app_assoc.
  split; [done|]. split.
  - eapply writes_trans; [exact Hw1|]. intros rest cs' Hrest. apply (spill_file_weaken n (S m)); [lia|]. by apply Hw2.
  - by apply holds_entries_app.
Qed.

(** Entries sorted by bucket are written as a file that has their records. *)
Lemma write_spill_ok bbs entries counts :
  Forall entry_ok entries → 0 < bbs → (Z.of_nat (length entries) < 2 ^ 32)%Z →
  StronglySorted (λ x y, bucket x ≤ bucket y) entries →
  length counts = n → (∀ b, b < n → counts !! b = Some (cnt bucket entries b)) →
  ∃ bs cs, write_spill key_of acc_of t entries counts bbs n = Ok bs ∧ spill_file n 0 bs cs ∧
    holds_entries cs entries.
Proof.
  intros Hok Hbbs Hlt Hs Hcl Hcnt. unfold write_spill.
  assert (Hcat : entries = concat (segment entries <$> seq 0 n)).
  { apply sorted_concat; [done|]. eapply Forall_impl; [exact Hok|]. intros e (_ & _ & _ & ? & _). lia. }
  assert (enumerate counts = (λ b, (b, length (segment entries b))) <$> seq 0 n) as ->.
  { apply list_eq. intros b. rewrite lookup_enumerate, list_lookup_fmap. destruct (decide (b < n)) as [Hb|Hb].
    - by rewrite (Hcnt b Hb), lookup_seq_lt by done.
    - rewrite !lookup_ge_None_2; [done|rewrite length_seq; lia|lia]. }
  destruct (write_buckets_ok bbs entries n 0 [] []) as (o & cs & off & Hr & Hw & Hg); [done..|].
  cbn [length app] in Hr. rewrite Hr. cbn [mbind Result_bind snd].
  rewrite write_len_Ok by (unfold in_u; lia). cbn [mbind Result_bind].
  rewrite write_len_Ok by (unfold in_u; lia). cbn [mbind Result_bind].
  eexists _, cs. split; [done|]. rewrite <- (app_nil_r cs). split; [apply Hw; by constructor|].
  rewrite app_nil_r, Hcat. exact Hg.
Qed.

End Writer.

End AggSpill.
