(* ===== verification/AggTable.v ===== *)
(** * Hash aggregation tables

    native-engine/datafusion-ext-plans/src/agg/agg_table.rs: [AggTable] with its in-memory
    data, which is a hash table or a list of unmerged records, its spills and its output.

    The sizes of allocations ([mem_used]) and the comparisons of cardinality ratios, which
    are floating point, are parameters; so is, in [process_input_batch], whether the memory
    manager asks for a spill, because that depends on the other consumers.  Metrics, timers
    and UDAFs are left out.

    The state is related to the records processed so far by [state_rel]; all operations
    keep it up to [same_groups].  The output of [merge_loop] is proved for any spills that
    have the file format of [AggSpill]. *)

From S2P Require Import Prelude MachineInt BatchSize Io Arrow BatchSerde Joins JoinHashMap RadixSort RadixQueue AggHashMap AggAcc AggCtx AggGroups AggSpill.

Set Default Proof Using "Type".

Local Abbreviation bytes := (list Z).
Local Abbreviation Record_ := (bytes * (nat → option Z))%type.
Local Abbreviation AccTable := (list AccColumn).

(** ** Tasks that send batches and return a value *)

Definition Emit (B A : Type) : Type := list B * Result A.
#[export] Instance Emit_ret {B} : MRet (Emit B) := λ A a, ([], Ok a).
#[export] Instance Emit_bind {B} : MBind (Emit B) := λ A C f m,
  match m.2 with
  | Ok a => let r := f a in (m.1 ++ r.1, r.2)
  | Err e => (m.1, Err e)
  | Panic => (m.1, Panic)
  | Undef => (m.1, Undef)
  | Diverge => (m.1, Diverge)
  end.

Definition lift {B A} (r : Result A) : Emit B A := ([], r).
Definition emit {B} (b : B) : Emit B unit := ([b], Ok tt).

Fixpoint emit_foldM {B A S} (f : S → A → Emit B S) (s : S) (l : list A) : Emit B S :=
  match l with
  | [] => mret s
  | x :: l => s' ← f s x; emit_foldM f s' l
  end.

Record AggConf := mkConf {
  batch_size : nat;
  suggested_batch_mem_size : nat;
  suggested_kway_merge_batch_mem_size : nat;
  supports_partial_skipping : bool;
  partial_skipping_min_rows : nat;
  partial_skipping_skip_spill : bool;
  is_expand_agg : bool }.

Section AggTable.
Context {V : Type} (to_i64 : V → option Z) (of_i64 : option Z → V).
Context (row_encode : list V → bytes) (row_decode : bytes → Result (list V)).
Context (hash_one : bytes → Z) (spilled : bytes → bool) (bucket_hash : bytes → Z).
Context (ctx : @AggContext V) (conf : AggConf).

Local Abbreviation Batch := (RecordBatch (V:=V)).

Record HashingData := mkHashing {
  h_acc_table : AccTable;
  h_map : AggHashMap.AggTable;
  num_input_records : nat }.

(** An entry is (bucket_id, batch_idx, row_idx, acc_idx). *)
Local Abbreviation Entry := (Z * Z * Z * Z)%type.

Record MergingData := mkMerging {
  m_acc_table : AccTable;
  key_rows : list (list bytes);
  m_entries : list Entry }.

Inductive InMemData := Hashing (h : HashingData) | Merging (m : MergingData).

Context (mem_used : InMemData → nat).
Context (ratio_exceeds ratio_low : nat → nat → bool).

Definition data_num_records (d : InMemData) : nat :=
  match d with Hashing h => agg_len (h_map h) | Merging m => length (m_entries m) end.

Definition hashing_try_new : Result InMemData :=
  t ← create_acc_table ctx 0; Ok (Hashing (mkHashing t agg_default 0)).
Definition merging_try_new : Result InMemData :=
  t ← create_acc_table ctx 0; Ok (Merging (mkMerging t [] [])).

(** [num_spill_buckets]: a cell that keeps its first value.  The division by a configured size
    of zero panics. *)
Definition num_spill_buckets (cell : option nat) (mem_size : nat) : Result nat :=
  match cell with
  | Some n => Ok n
  | None =>
      _ ← rassert (bool_decide (0 < suggested_batch_mem_size conf));
      Ok ((mem_size / suggested_batch_mem_size conf / 2) `max` 16)
  end.

Record TableState := mkTable {
  table_id : nat;
  data : InMemData;
  spills : list bytes;
  bucket_cell : option nat }.

Definition agg_table_try_new : Result TableState := d ← hashing_try_new; Ok (mkTable 0 d [] None).

(** [renew]: the old data, and the table with new data. *)
Definition renew (st : TableState) (is_hashing : bool) : Result (InMemData * TableState) :=
  d ← (if is_hashing then hashing_try_new else merging_try_new);
  Ok (data st, mkTable (table_id st + 1) d (spills st) (bucket_cell st)).

(** ** Input *)

Definition update_batch (h : HashingData) (batch : Batch) : Result HashingData :=
  grouping_rows ← create_grouping_rows row_encode ctx batch;
  '(map, record_indices) ← upsert_records hash_one spilled (h_map h) grouping_rows;
  t ← update_batch_to_acc_table to_i64 ctx batch (h_acc_table h) (IndicesU32 record_indices);
  Ok (mkHashing t map (num_input_records h + num_rows batch)).

Definition add_batch (m : MergingData) (n : nat) (batch : Batch) : Result MergingData :=
  let num_entries_old := length (m_entries m) in
  let batch_idx := length (key_rows m) in
  t ← update_batch_to_acc_table to_i64 ctx batch (m_acc_table m) (Range num_entries_old (num_entries_old + num_rows batch));
  grouping_rows ← create_grouping_rows row_encode ctx batch;
  let entries := imap (λ i row, (u32 (bucket_id bucket_hash row n), u32 (Z.of_nat batch_idx), u32 (Z.of_nat i),
                                 u32 (u32 (Z.of_nat num_entries_old) + u32 (Z.of_nat i)))) grouping_rows in
  Ok (mkMerging t (key_rows m ++ [grouping_rows]) (m_entries m ++ entries)).

Definition check_trigger_partial_skipping (st : TableState) : bool :=
  bool_decide (table_id st = 0) && negb (is_expand_agg conf) && supports_partial_skipping conf &&
  match data st with
  | Hashing h => ratio_exceeds (agg_len (h_map h)) (num_input_records h)
  | Merging _ => false
  end.

(** ** Spilling *)

Definition hashing_into_spill (h : HashingData) (bucket_batch_size n : nat) : Result bytes :=
  let key_rows := into_keys (h_map h) in
  let entries := imap (λ record_idx key, (u32 (bucket_id bucket_hash key n), u32 (Z.of_nat record_idx))) key_rows in
  '(entries, bucket_counts) ← radix_sort_by_key (λ e, Z.to_nat e.1) entries (replicate n 0);
  write_spill (λ e, index key_rows (Z.to_nat e.2)) (λ e, Z.to_nat e.2) (h_acc_table h) entries bucket_counts
    bucket_batch_size n.

Definition merging_key (m : MergingData) (e : Entry) : Result bytes :=
  rows ← index (key_rows m) (Z.to_nat e.1.1.2);
  index rows (Z.to_nat e.1.2).

Definition merging_into_spill (m : MergingData) (bucket_batch_size n : nat) : Result bytes :=
  '(entries, bucket_counts) ← radix_sort_by_key (λ e, Z.to_nat e.1.1.1) (m_entries m) (replicate n 0);
  write_spill (merging_key m) (λ e, Z.to_nat e.2) (m_acc_table m) entries bucket_counts bucket_batch_size n.

(** [try_into_spill] and the value of the bucket cell. *)
Definition try_into_spill (d : InMemData) (cell : option nat) : Result (bytes * nat) :=
  let bucket_batch_size := compute_batch_size_with_target_mem_size (batch_size conf) (mem_used d)
    (data_num_records d) (suggested_kway_merge_batch_mem_size conf) in
  n ← num_spill_buckets cell (mem_used d);
  spill ← match d with
          | Hashing h => hashing_into_spill h bucket_batch_size n
          | Merging m => merging_into_spill m bucket_batch_size n
          end;
  Ok (spill, n).

(** Errors that the caller handles. *)
Inductive Signal := TriggerPartialSkipping | SpillPartialSkipping.

Definition table_spill (st : TableState) : Result (TableState * option Signal) :=
  if supports_partial_skipping conf && partial_skipping_skip_spill conf then Ok (st, Some SpillPartialSkipping)
  else
    let next_is_hashing := match data st with
                           | Hashing h => ratio_low (agg_len (h_map h)) (num_input_records h)
                           | Merging _ => false
                           end in
    '(cur_in_mem, st) ← renew st next_is_hashing;
    '(spill, n) ← try_into_spill cur_in_mem (bucket_cell st);
    Ok (mkTable (table_id st) (data st) (spills st ++ [spill]) (Some n), None).

(** The batch is added to the table in memory. *)
Definition update_data (st : TableState) (batch : Batch) : Result TableState :=
  match data st with
  | Hashing h => h ← update_batch h batch; Ok (mkTable (table_id st) (Hashing h) (spills st) (bucket_cell st))
  | Merging m =>
      n ← num_spill_buckets (bucket_cell st) 0;
      m ← add_batch m n batch;
      Ok (mkTable (table_id st) (Merging m) (spills st) (Some n))
  end.

(** [mem_high] is [mem_used_percent() > 0.8]; [must_spill] is whether [update_mem_used]
    calls the table's [spill]. *)
Definition process_input_batch (st : TableState) (batch : Batch) (mem_high must_spill : bool)
    : Result (TableState * option Signal) :=
  st ← update_data st batch;
  if partial_skipping_skip_spill conf && mem_high && supports_partial_skipping conf
  then Ok (st, Some TriggerPartialSkipping)
  else if bool_decide (partial_skipping_min_rows conf ≤ data_num_records (data st)) && check_trigger_partial_skipping st
  then Ok (st, Some TriggerPartialSkipping)
  else if must_spill then table_spill st
  else Ok (st, None).

(** ** Output *)

(** One batch of records: the keys and accumulators from [begin] to [end]. *)
Definition output_batch (keys : list bytes) (t : AccTable) (begin_ end_ : nat) : Emit Batch unit :=
  ks ← lift (subslice keys begin_ end_);
  batch ← lift (convert_records_to_batch of_i64 row_decode ctx ks t (Range begin_ end_));
  emit batch.

(** The records in reversed order of batches, truncated as they are sent. *)
Definition output_in_mem (h : HashingData) (output_batch_size : nat) : Emit Batch unit :=
  let num_records := agg_len (h_map h) in
  _ ← emit_foldM (λ st begin_,
        let '(keys, t) := st in
        _ ← output_batch keys t begin_ ((begin_ + output_batch_size) `min` num_records);
        mret (take begin_ keys, acc_table_resize t begin_))
      (into_keys (h_map h), h_acc_table h) (reverse (step_by 0 num_records output_batch_size));
  mret tt.

Local Abbreviation Queue := (@RadixQueue RecordsSpillCursor).

(** The records of one chunk. *)
Definition merge_chunk (st : Queue * AggHashMap.AggTable * AccTable) : Result (Queue * AggHashMap.AggTable * AccTable) :=
  let '(cursors, map, t) := st in
  '(cursors, (bucket_acc_table, bucket_key_rows)) ← with_min cur_bucket_idx cursors (read_bucket ctx);
  '(map, map_indices) ← upsert_records hash_one spilled map bucket_key_rows;
  t ← for_cols (λ agg_idx a acc_col,
        bucket_acc_col ← index bucket_acc_table agg_idx;
        partial_merge a acc_col (IndicesU32 map_indices) bucket_acc_col (Range 0 (length map_indices)))
      t (imap (λ agg_idx e, (agg_idx, agg e)) (aggs ctx));
  Ok (cursors, map, t).

(** The inner loop: all chunks of a bucket.  A chunk consumes bytes of its spill. *)
Definition merge_bucket (st : Queue * AggHashMap.AggTable * AccTable) (cur : nat)
    : Result (Queue * AggHashMap.AggTable * AccTable) :=
  rwhileM (sum_list_with (length ∘ input) (values st.1.1))
    (λ '(cursors, _, _), c ← peek cursors; Ok (bool_decide (cur_bucket_idx c = cur))) merge_chunk st.

(** The outer loop: at most one round per bucket. *)
Fixpoint merge_loop (fuel n : nat) (st : Queue * AggHashMap.AggTable * AccTable) : Emit Batch Queue :=
  match fuel with
  | 0 => lift Diverge
  | S fuel =>
      let '(cursors, map, t) := st in
      c ← lift (peek cursors);
      if decide (cur_bucket_idx c < n) then
        st ← lift (merge_bucket (cursors, map, t) (cur_bucket_idx c));
        let '(cursors, map, t) := st in
        let '(map, keys) := take_keys map in
        _ ← emit_foldM (λ _ begin_, output_batch keys t begin_ ((begin_ + batch_size conf) `min` length keys))
              tt (step_by 0 (length keys) (batch_size conf));
        merge_loop fuel n (cursors, map, acc_table_resize t 0)
      else mret cursors
  end.

(** What is left in memory is written after the spills. *)
Definition spill_rest (in_mem : InMemData) (cur_spills : list bytes) (cell : option nat) : Result (list bytes * option nat) :=
  if decide (0 < data_num_records in_mem) then
    '(spill, n) ← try_into_spill in_mem cell;
    Ok (cur_spills ++ [spill], Some n)
  else Ok (cur_spills, cell).

Definition table_output (st : TableState) : Emit Batch TableState :=
  '(in_mem, st) ← lift (renew st true);
  let cur_spills := spills st in
  let st := mkTable (table_id st) (data st) [] (bucket_cell st) in
  if decide (data_num_records in_mem = 0 ∧ cur_spills = []) then mret st
  else if decide (cur_spills = []) then
    match in_mem with
    | Hashing h =>
        let output_batch_size := compute_batch_size_with_target_mem_size (batch_size conf)
          (mem_used in_mem) (agg_len (h_map h)) (suggested_batch_mem_size conf) in
        _ ← output_in_mem h output_batch_size;
        mret st
    | Merging _ => lift Panic
    end
  else
    '(cur_spills, cell) ← lift (spill_rest in_mem cur_spills (bucket_cell st));
    cursors ← lift (rmapM try_from_spill cur_spills);
    n ← lift (num_spill_buckets cell 0);
    cursors ← lift (rq_new cur_bucket_idx cursors n);
    _ ← lift (rassert (bool_decide (0 < length (values cursors))));
    t ← lift (create_acc_table ctx 0);
    cursors ← merge_loop (n + 1) n (cursors, agg_default, t);
    _ ← lift (rassert (forallb (λ c, bool_decide (n ≤ cur_bucket_idx c)) (values cursors)));
    mret (mkTable (table_id st) (data st) [] (Some n)).

(** ** Lemmas: sending batches *)

Lemma emit_bind {B A C} (l : list B) (a : A) (f : A → Emit B C) : ((l, Ok a) : Emit B A) ≫= f = (l ++ (f a).1, (f a).2).
Proof. done. Qed.

Lemma lift_bind {B A C} (a : A) (f : A → Emit B C) : lift (Ok a) ≫= f = f a.
Proof. unfold lift. rewrite emit_bind. cbn. by destruct (f a). Qed.

Local Abbreviation null := (of_i64 None).

(** The output row of a record. *)
Definition decode_key (key : bytes) : list V := match row_decode key with Ok g => g | _ => [] end.
Definition out_row (r : Record_) : list V :=
  decode_key r.1 ++ ((λ k, of_i64 (r.2 k)) <$> seq 0 (length (aggs ctx))).

Definition key_good (key : bytes) : Prop :=
  key_ok key ∧ ∃ g, row_decode key = Ok g ∧ length g = length (groupings ctx).

(** The rows of some batches. *)
Definition rows_of (bs : list Batch) : list (list V) := concat (batch_rows null <$> bs).

Lemma rows_of_app b1 b2 : rows_of (b1 ++ b2) = rows_of b1 ++ rows_of b2.
Proof. unfold rows_of. by rewrite fmap_app, concat_app. Qed.

Lemma lookup_table_records keys t i :
  table_records ctx keys t !! i = (λ key, (key, λ k, tslot ctx t k i)) <$> keys !! i.
Proof. apply list_lookup_imap. Qed.

Lemma lookup_sub {A} (l : list A) a b i : sub l a b !! i = if decide (i < b - a) then l !! (a + i) else None.
Proof.
  unfold sub. case_decide; [by rewrite lookup_take_lt, lookup_drop|]. rewrite lookup_take_ge by lia. done.
Qed.

Lemma length_sub {A} (l : list A) a b : a ≤ b ≤ length l → length (sub l a b) = b - a.
Proof. intros H. unfold sub. rewrite length_take, length_drop. lia. Qed.

Lemma output_batch_ok keys t lo hi :
  ctx_ok ctx → table_ok ctx t → covers t (length keys) → Forall key_good keys → lo ≤ hi ≤ length keys →
  ∃ b, output_batch keys t lo hi = ([b], Ok tt) ∧
    batch_rows null b = out_row <$> sub (table_records ctx keys t) lo hi.
Proof.
  intros Hctx Ht Hcov Hk Hlh. unfold output_batch, subslice. rewrite decide_True by lia. rewrite lift_bind.
  assert (Hsub : Forall key_good (sub keys lo hi)) by (by apply Forall_take, Forall_drop).
  destruct (convert_records_ok of_i64 row_decode ctx t (sub keys lo hi) (decode_key <$> sub keys lo hi) lo hi)
    as (b & -> & Hb); [done|done|by eapply covers_le; [exact Hcov|lia]|by apply length_sub| |].
  { apply Forall2_fmap_r, Forall_Forall2_diag. eapply Forall_impl; [exact Hsub|]. intros key (_ & g & Hg & Hl).
    unfold compose, decode_key. by rewrite Hg. }
  rewrite lift_bind. exists b. split; [done|]. rewrite Hb. apply list_eq. intros i.
  rewrite list_lookup_fmap, lookup_sub. case_decide as Hi.
  - rewrite lookup_table_records. destruct (lookup_lt_is_Some_2 keys (lo + i)) as [key E]; [lia|]. rewrite E. cbn.
    apply lookup_zip_with_Some. exists (decode_key key), (lo + i). split_and!; [done| |].
    + by rewrite list_lookup_fmap, lookup_sub, decide_True, E.
    + by rewrite lookup_range, decide_True.
  - apply lookup_ge_None_2. rewrite length_zip_with. unfold range. rewrite length_seq. lia.
Qed.

(** Cutting a table keeps the accumulators that are left. *)
Lemma slot_resize_lt a c n i : acc_ok a c → i < n ≤ num_records c → slot a (acc_resize c n) i = slot a c i.
Proof.
  intros Hc Hi. unfold slot. rewrite (view_resize a), resize_le by (done || (rewrite (length_view a) by done; lia)).
  by rewrite lookup_take_lt by lia.
Qed.

Lemma acc_table_resize_ok t n :
  table_ok ctx t → covers t n →
  table_ok ctx (acc_table_resize t n) ∧ covers (acc_table_resize t n) n ∧
  ∀ k i, i < n → tslot ctx (acc_table_resize t n) k i = tslot ctx t k i.
Proof.
  intros Ht Hcov. unfold acc_table_resize. split; [|split].
  - apply Forall2_fmap_r. eapply Forall2_impl; [exact Ht|]. intros e c Hc. by apply acc_resize_ok.
  - apply Forall_fmap, Forall_forall. intros c _. unfold compose. by rewrite num_records_resize.
  - intros k i Hi. unfold tslot. destruct (aggs ctx !! k) as [e|] eqn:He; [|done]. rewrite list_lookup_fmap.
    destruct (Forall2_lookup_l _ _ _ _ _ Ht He) as (c & Hc & Hok). rewrite Hc. cbn.
    eapply Forall_lookup_1 in Hcov; [|exact Hc]. by apply slot_resize_lt.
Qed.

(** The steps of a range cover it. *)
Lemma div_ceil_spec n k : 0 < k → n ≤ k * div_ceil n k ∧ ∀ i, i < div_ceil n k → k * i < n.
Proof.
  intros Hk. unfold div_ceil. pose proof (Nat.div_mod (n + (k - 1)) k ltac:(lia)) as Hd.
  pose proof (Nat.mod_upper_bound (n + (k - 1)) k ltac:(lia)). split; [nia|]. intros i Hi. nia.
Qed.

Lemma sub_app {A} (l : list A) a b c : a ≤ b ≤ c → sub l a b ++ sub l b c = sub l a c.
Proof.
  intros H. unfold sub. replace (c - a) with ((b - a) + (c - b)) by lia.
  rewrite <- take_take_drop, drop_drop. by replace (a + (b - a)) with b by lia.
Qed.

Lemma sub_all {A} (l : list A) : sub l 0 (length l) = l.
Proof. unfold sub. rewrite Nat.sub_0_r, drop_0. by apply take_ge. Qed.

(** The output of one bucket. *)
Lemma output_steps_ok keys t bs s m :
  ctx_ok ctx → table_ok ctx t → covers t (length keys) → Forall key_good keys → 0 < bs →
  (∀ i, i < s + m → bs * i < length keys) → bs * s ≤ length keys →
  ∃ out, emit_foldM (λ _ begin_, output_batch keys t begin_ ((begin_ + bs) `min` length keys)) tt
      ((λ i, 0 + bs * i) <$> seq s m) = (out, Ok tt) ∧
    rows_of out = out_row <$> sub (table_records ctx keys t) (bs * s) ((bs * (s + m)) `min` length keys).
Proof.
  intros Hctx Ht Hcov Hk Hbs. revert s. induction m as [|m IH]; intros s Hlt Hs.
  { exists []. split; [done|]. rewrite Nat.add_0_r, Nat.min_l by done. unfold sub. by rewrite Nat.sub_diag. }
  cbn [seq]. rewrite fmap_cons. cbn [emit_foldM]. change (0 + bs * s) with (bs * s). specialize (Hlt s ltac:(lia)) as Hss.
  destruct (output_batch_ok keys t (bs * s) ((bs * s + bs) `min` length keys)) as (b & -> & Hb); [done..|lia|].
  rewrite emit_bind. replace (bs * s + bs) with (bs * S s) in * by lia.
  destruct (decide (bs * S s ≤ length keys)) as [Hle|Hgt].
  - destruct (IH (S s)) as (out & -> & Hout); [intros i Hi; apply Hlt; lia|done|]. exists ([b] ++ out). split; [done|].
    rewrite rows_of_app, Hout. unfold rows_of. cbn [fmap list_fmap concat]. rewrite app_nil_r, Hb, <- fmap_app. f_equal.
    rewrite Nat.min_l by done. replace (S s + m) with (s + S m) by lia. apply sub_app. lia.
  - destruct m as [|m]; [|specialize (Hlt (S s) ltac:(lia)); lia]. cbn. exists [b]. split; [done|].
    unfold rows_of. cbn [fmap list_fmap concat]. rewrite app_nil_r, Hb. by replace (s + 1) with (S s) by lia.
Qed.

Lemma output_all_ok keys t bs :
  ctx_ok ctx → table_ok ctx t → covers t (length keys) → Forall key_good keys → 0 < bs →
  ∃ out, emit_foldM (λ _ begin_, output_batch keys t begin_ ((begin_ + bs) `min` length keys)) tt
      (step_by 0 (length keys) bs) = (out, Ok tt) ∧ rows_of out = out_row <$> table_records ctx keys t.
Proof.
  intros Hctx Ht Hcov Hk Hbs. unfold step_by. rewrite Nat.sub_0_r.
  destruct (div_ceil_spec (length keys) bs Hbs) as [Hge Hlt].
  destruct (output_steps_ok keys t bs 0 (div_ceil (length keys) bs)) as (out & -> & Hout); [done..|lia|].
  exists out. split; [done|]. rewrite Hout, Nat.mul_0_r, Nat.add_0_l, Nat.min_r by done. f_equal.
  rewrite <- (sub_all (table_records ctx keys t)) at 2. f_equal. unfold table_records. by rewrite length_imap.
Qed.

(** A table that was cut after its first keys. *)
Definition cut_of (keys : list bytes) (t : AccTable) (n : nat) (st : list bytes * AccTable) : Prop :=
  st.1 = take n keys ∧ table_ok ctx st.2 ∧ covers st.2 n ∧ ∀ k i, i < n → tslot ctx st.2 k i = tslot ctx t k i.

Lemma out_rows_cut keys t n lo hi st :
  cut_of keys t n st → hi ≤ n →
  out_row <$> sub (table_records ctx st.1 st.2) lo hi = out_row <$> sub (table_records ctx keys t) lo hi.
Proof.
  intros (Hk & _ & _ & Hs) Hle. apply list_eq. intros i. rewrite !list_lookup_fmap, !lookup_sub. case_decide as Hi; [|done].
  rewrite !lookup_table_records, Hk, lookup_take_lt by lia. destruct (keys !! (lo + i)); [|done]. cbn. f_equal.
  unfold out_row. cbn. f_equal. apply list_fmap_ext. intros ? k _. by rewrite Hs by lia.
Qed.

Lemma output_reversed_ok keys t bs m st :
  ctx_ok ctx → Forall key_good keys → 0 < bs → (∀ i, i < m → bs * i < length keys) →
  cut_of keys t ((bs * m) `min` length keys) st →
  ∃ out st', emit_foldM (λ st begin_, let '(ks, t) := st in
        _ ← output_batch ks t begin_ ((begin_ + bs) `min` length keys);
        mret (take begin_ ks, acc_table_resize t begin_)) st (reverse ((λ i, 0 + bs * i) <$> seq 0 m)) = (out, Ok st') ∧
    rows_of out ≡ₚ out_row <$> sub (table_records ctx keys t) 0 ((bs * m) `min` length keys).
Proof.
  intros Hctx Hk Hbs. revert st. induction m as [|m IH]; intros [ks t0] Hlt Hcut.
  { exists [], (ks, t0). split; [done|]. rewrite Nat.mul_0_r. done. }
  rewrite seq_S, fmap_app, reverse_app, list_fmap_singleton, reverse_singleton.
  cbn [app emit_foldM]. change (0 + bs * (0 + m)) with (bs * m).
  pose proof (Hlt m ltac:(lia)) as Hm. set (hi := (bs * S m) `min` length keys) in *.
  assert (Hhi : (bs * m + bs) `min` length keys = hi) by (unfold hi; f_equal; lia). rewrite Hhi.
  destruct Hcut as (Hks & Ht0 & Hcov & Hs) eqn:Ecut. cbn [fst snd] in *.
  assert (Hkl : length ks = hi) by (rewrite Hks, length_take; unfold hi; lia).
  destruct (output_batch_ok ks t0 (bs * m) hi) as (b & -> & Hb); [done|done|by rewrite Hkl| |unfold hi in *; lia|].
  { rewrite Hks. by apply Forall_take. }
  rewrite emit_bind. cbn [mret Emit_ret fst snd app].
  assert (Hmh : bs * m ≤ hi) by (unfold hi; lia).
  destruct (acc_table_resize_ok t0 (bs * m) Ht0) as (Ht1 & Hc1 & Hs1); [by eapply covers_le|].
  destruct (IH (take (bs * m) ks, acc_table_resize t0 (bs * m))) as (out & st' & He & Hout).
  { intros i Hi. apply Hlt. lia. }
  { replace ((bs * m) `min` length keys) with (bs * m) by lia. split; cbn [fst snd].
    - rewrite Hks, take_take. f_equal. lia.
    - split; [done|]. split; [done|]. intros k i Hi. rewrite Hs1 by done. apply Hs. lia. }
  rewrite emit_bind, He. cbn [fst snd]. exists ([b] ++ out), st'. split; [done|].
  rewrite rows_of_app, Hout. unfold rows_of. cbn [fmap list_fmap concat]. rewrite app_nil_r, Hb.
  pose proof (out_rows_cut keys t hi (bs * m) hi (ks, t0) Hcut (le_n _)) as Hor. cbn [fst snd] in Hor. rewrite Hor.
  rewrite <- fmap_app, (Permutation_app_comm _ _). replace ((bs * m) `min` length keys) with (bs * m) by lia.
  by rewrite sub_app by lia.
Qed.

Lemma output_in_mem_ok h P bs :
  ctx_ok ctx → table_rel ctx hash_one spilled (h_map h) (h_acc_table h) P → (∀ key, key ∈ P.*1 → key_good key) → 0 < bs →
  ∃ out, output_in_mem h bs = (out, Ok tt) ∧
    rows_of out ≡ₚ out_row <$> table_records ctx (agg_keys (h_map h)) (h_acc_table h).
Proof.
  intros Hctx [Hmap Ht Hcov Hkeys Hvals Hfresh] Hgood Hbs. unfold output_in_mem, agg_len, into_keys.
  set (keys := agg_keys (h_map h)) in *. destruct (div_ceil_spec (length keys) bs Hbs) as [Hge Hlt].
  unfold step_by. rewrite Nat.sub_0_r.
  destruct (output_reversed_ok keys (h_acc_table h) bs (div_ceil (length keys) bs) (keys, h_acc_table h))
    as (out & st' & -> & Hout); [done| |done|done| |].
  { apply Forall_forall. intros key Hin. by apply Hgood, Hkeys. }
  { rewrite Nat.min_r by done. split; cbn; [by rewrite take_ge|]. split; [done|]. split; [done|]. done. }
  rewrite emit_bind. exists out. cbn. rewrite app_nil_r. split; [done|]. rewrite Hout, Nat.min_r by done.
  rewrite <- (sub_all (table_records ctx keys (h_acc_table h))) at 2. do 2 f_equal. unfold table_records.
  by rewrite length_imap.
Qed.

(** ** Lemmas: merging spills *)

Definition all_aggs : list (nat * AggKind) := imap (λ agg_idx e, (agg_idx, agg e)) (aggs ctx).

Lemma elem_of_all_aggs k a : (k, a) ∈ all_aggs ↔ ∃ e, aggs ctx !! k = Some e ∧ a = agg e.
Proof.
  unfold all_aggs. rewrite list_elem_of_lookup. split.
  - intros [i Hi]. apply list_lookup_imap_Some in Hi as (e & He & [= -> ->]). eauto.
  - intros (e & He & ->). exists k. by rewrite list_lookup_imap, He.
Qed.

Lemma fst_all_aggs : all_aggs.*1 = seq 0 (length (aggs ctx)).
Proof.
  unfold all_aggs. apply list_eq. intros i. rewrite list_lookup_fmap, list_lookup_imap.
  destruct (decide (i < length (aggs ctx))) as [Hi|Hi].
  - rewrite lookup_seq_lt by done. by destruct (lookup_lt_is_Some_2 _ _ Hi) as [e ->].
  - rewrite (lookup_ge_None_2 (aggs ctx)), (lookup_ge_None_2 (seq _ _)) by (rewrite ?length_seq; lia). done.
Qed.

(** Adding the accumulators of a chunk. *)
Lemma merge_table_ok t bt idxs :
  table_ok ctx t → table_ok ctx bt → covers bt (length idxs) →
  ∃ t', for_cols (λ agg_idx a acc_col,
        bucket_acc_col ← index bt agg_idx;
        partial_merge a acc_col (IndicesU32 idxs) bucket_acc_col (Range 0 (length idxs))) t all_aggs = Ok t' ∧
    table_ok ctx t' ∧ (∀ n, covers t n → covers t' n) ∧ covers t' (idx_num_records (IndicesU32 idxs)) ∧
    ∀ k i, tslot ctx t' k i = foldl (merge (kind_at ctx k)) (tslot ctx t k i)
      (tslot ctx bt k <$> picks (idx_zipped (IndicesU32 idxs) (Range 0 (length idxs))) i).
Proof.
  intros Ht Hbt Hcov. set (s := IndicesU32 idxs). set (sel := Range 0 (length idxs)).
  set (R := λ (k : nat) (a : AggKind) (c c' : AccColumn), ∀ bc, bt !! k = Some bc → acc_ok a c' ∧ num_records c ≤ num_records c' ∧
    idx_max_value s < num_records c' ∧
    ∀ i, slot a c' i = foldl (merge a) (slot a c i) (slot a bc <$> picks (idx_zipped s sel) i)).
  destruct (for_cols_ok R (λ agg_idx a acc_col, bucket_acc_col ← index bt agg_idx;
      partial_merge a acc_col s bucket_acc_col sel) all_aggs t) as (t' & He & Hl & Hall).
  { rewrite fst_all_aggs. apply NoDup_seq. }
  { intros k a (e & He & ->)%elem_of_all_aggs. destruct (Forall2_lookup_l _ _ _ _ _ Ht He) as (c & Hc & Hok).
    destruct (Forall2_lookup_l _ _ _ _ _ Hbt He) as (bc & Hbc & Hbok).
    destruct (partial_merge_ok (agg e) c s bc sel Hok Hbok) as (c' & Hm & Hrest).
    { intros j Hj. cbn in Hj. unfold range in Hj. apply elem_of_seq in Hj. eapply Forall_lookup_1 in Hcov; [|exact Hbc]. lia. }
    exists c, c'. split; [done|]. rewrite (proj2 (index_Ok _ _ _) Hbc). split; [done|].
    intros bc' Hbc'. assert (bc' = bc) as -> by congruence. done. }
  assert (Hcol : ∀ k e c, aggs ctx !! k = Some e → t !! k = Some c → ∃ c' bc, t' !! k = Some c' ∧ bt !! k = Some bc ∧
    acc_ok (agg e) c' ∧ num_records c ≤ num_records c' ∧ idx_max_value s < num_records c' ∧
    ∀ i, slot (agg e) c' i = foldl (merge (agg e)) (slot (agg e) c i) (slot (agg e) bc <$> picks (idx_zipped s sel) i)).
  { intros k e c Hk Hc. destruct (Hall k c Hc) as (c' & Hc' & HR & _).
    destruct (Forall2_lookup_l _ _ _ _ _ Hbt Hk) as (bc & Hbc & _). exists c', bc. split; [done|]. split; [done|].
    apply (HR (agg e)); [|done]. apply elem_of_all_aggs. eauto. }
  pose proof (Forall2_length _ _ _ Ht) as Htl.
  assert (Hcol' : ∀ k c', t' !! k = Some c' → ∃ c, t !! k = Some c ∧ num_records c ≤ num_records c' ∧ idx_max_value s < num_records c').
  { intros k c' Hc'. destruct (lookup_lt_is_Some_2 t k) as [c Hc]; [rewrite <- Hl; by eapply lookup_lt_Some|].
    destruct (Forall2_lookup_r _ _ _ _ _ Ht Hc) as (e & He' & _).
    destruct (Hcol k e c He' Hc) as (c2 & bc & Hc2 & _ & _ & Hle & Hlt & _). exists c. split; [done|].
    assert (c2 = c') as -> by congruence. done. }
  exists t'. split; [exact He|]. split; [|split; [|split]].
  - apply Forall2_same_length_lookup_2; [congruence|]. intros k e c' Hk Hc'.
    destruct (Hcol' k c' Hc') as (c & Hc & _). destruct (Hcol k e c Hk Hc) as (c2 & bc & Hc2 & _ & Hok & _). congruence.
  - intros n Hn. apply Forall_lookup. intros k c' Hc'. destruct (Hcol' k c' Hc') as (c & Hc & Hle & _).
    eapply Forall_lookup_1 in Hn; [|exact Hc]. lia.
  - apply Forall_lookup. intros k c' Hc'. destruct (Hcol' k c' Hc') as (c & Hc & _ & Hlt).
    unfold idx_num_records, s in *. cbn [idx_max_value idx_iter] in *. case_decide; lia.
  - intros k i. unfold tslot, kind_at. destruct (aggs ctx !! k) as [e|] eqn:Ek.
    + destruct (Forall2_lookup_l _ _ _ _ _ Ht Ek) as (c & Hc & _).
      destruct (Hcol k e c Ek Hc) as (c' & bc & Hc' & Hbc & _ & _ & _ & Hs). by rewrite Hc, Hc', Hbc, Hs.
    + generalize (picks (idx_zipped s sel) i). intros l. induction l as [|j l IH]; [done|]. exact IH.
Qed.

(** The records still in the spills. *)
Definition remaining (chunks : list (list Chunk)) : list Record_ := concat (chunk_records ctx <$> concat chunks).

Definition merge_inv (n : nat) (st : Queue * AggHashMap.AggTable * AccTable) (chunks : list (list Chunk)) (P : list Record_) : Prop :=
  rq_inv cur_bucket_idx st.1.1 ∧ num_keys st.1.1 = n + 1 ∧
  Forall2 (cursor_ok ctx bucket_hash n) (values st.1.1) chunks ∧
  table_rel ctx hash_one spilled st.1.2 st.2 P ∧
  (Z.of_nat (length P + length (remaining chunks)) < 2 ^ 32)%Z.

Lemma concat_take_one {A} (ls : list (list A)) i x l :
  ls !! i = Some (x :: l) → concat ls ≡ₚ x :: concat (<[i := l]> ls).
Proof.
  revert i. induction ls as [|l0 ls IH]; intros [|i] Hi; try done.
  - by injection Hi as ->.
  - change (<[S i := l]> (l0 :: ls)) with (l0 :: <[i := l]> ls). cbn [concat]. rewrite (IH i Hi).
    apply Permutation_sym, Permutation_middle.
Qed.

Lemma remaining_take chunks i c cs :
  chunks !! i = Some (c :: cs) → remaining chunks ≡ₚ chunk_records ctx c ++ remaining (<[i := cs]> chunks).
Proof. intros Hi. unfold remaining. by rewrite (concat_take_one _ _ _ _ Hi). Qed.

Lemma table_rel_length map t P : table_rel ctx hash_one spilled map t P → length (agg_keys map) ≤ length P.
Proof.
  intros [Hmap _ _ Hk _ _]. rewrite <- (length_fmap fst P). apply submseteq_length, NoDup_submseteq; [apply Hmap|].
  intros key. by rewrite Hk.
Qed.

Lemma chunk_contrib t (keys : list bytes) idxs k i :
  length idxs = length keys →
  tslot ctx t k <$> picks (idx_zipped (IndicesU32 idxs) (Range 0 (length idxs))) i
  = (λ j, match table_records ctx keys t !! j with Some r => r.2 k | None => None end)
      <$> picks (idx_zipped (IndicesU32 idxs) (Range 0 (length keys))) i.
Proof.
  intros Hl. rewrite Hl. apply list_fmap_ext. intros ? j Hj. apply list_elem_of_lookup_2, picks_range in Hj.
  rewrite lookup_table_records. by destruct (lookup_lt_is_Some_2 keys j Hj) as [key ->].
Qed.

Lemma merge_chunk_ok n st chunks P i cur c cs :
  (Z.of_nat n < 2 ^ 64)%Z → merge_inv n st chunks P → peek_idx st.1.1 = Ok i → values st.1.1 !! i = Some cur →
  chunks !! i = Some (c :: cs) →
  ∃ st' cur', merge_chunk st = Ok st' ∧ merge_inv n st' (<[i := cs]> chunks) (P ++ chunk_records ctx c) ∧
    values st'.1.1 = <[i := cur']> (values st.1.1) ∧ cursor_ok ctx bucket_hash n cur' cs ∧
    cur_bucket_idx cur = ck_bucket c ∧ ck_bucket c ≤ cur_bucket_idx cur' ∧ length (input cur') < length (input cur).
Proof.
  destruct st as [[q map] t]. intros Hn (Hq & Hnk & Hcur & Htr & Hlen) Hi Hv Hc. cbn [fst snd] in *.
  pose proof (Forall2_lookup_lr _ _ _ _ _ _ Hcur Hv Hc) as Hco.
  destruct (read_bucket_ok ctx bucket_hash n cur c cs Hn Hco) as (cur' & Hread & Hcur' & Hidx & [Hle Hle'] & Hinp).
  destruct (with_min_ok cur_bucket_idx q (read_bucket ctx) i cur cur' (ck_table c, ck_keys c) Hq Hi Hv Hread)
    as (q' & Hwm & Hq' & Hvals & Hnk'); [lia|].
  destruct Hco as (bs & rest & _ & Hcok & _).
  unfold merge_chunk. rewrite Hwm. cbn [mbind Result_bind].
  pose proof (remaining_take chunks i c cs Hc) as Hrem. pose proof (Permutation_length Hrem) as Hrl. rewrite length_app in Hrl.
  assert (Hkl : length (chunk_records ctx c) = length (ck_keys c)) by apply length_imap.
  pose proof (table_rel_length _ _ _ Htr) as Hkml.
  destruct (upsert_rel ctx hash_one spilled map t P (chunk_records ctx c) Htr) as (map' & idxs & Hu & Hil & _ & Hrel); [lia|].
  unfold chunk_records in Hu. rewrite fst_table_records in Hu. rewrite Hu. cbn [mbind Result_bind].
  destruct Hcok as [_ _ Hct Hcc _ _]. rewrite Hkl in Hil.
  destruct (merge_table_ok t (ck_table c) idxs) as (t' & Hm & Ht' & Hcov1 & Hcov2 & Hsl); [apply Htr|done|by rewrite Hil|].
  change (imap (λ agg_idx e, (agg_idx, agg e)) (aggs ctx)) with all_aggs. rewrite Hm. cbn [mbind Result_bind].
  exists (q', map', t'), cur'. split; [done|]. split; [|by split_and!]. split_and!; cbn [fst snd]; [done|lia| | |].
  - rewrite Hvals. by apply Forall2_insert.
  - apply Hrel; [done|by apply Hcov1, Htr|done|]. intros k g Hk. rewrite Hsl, Hkl. f_equal.
    by apply chunk_contrib.
  - rewrite length_app. lia.
Qed.

(** The state of the inner loop: [P] has been read, all of bucket [b]. *)
Definition bucket_inv (n b : nat) (R : list Record_) (st : Queue * AggHashMap.AggTable * AccTable) : Prop :=
  ∃ chunks P, merge_inv n st chunks P ∧ P ++ remaining chunks ≡ₚ R ∧
    (∀ key, key ∈ P.*1 → bucket_id bucket_hash key n = Z.of_nat b) ∧
    Forall (λ cur, b ≤ cur_bucket_idx cur) (values st.1.1).

Lemma merge_bucket_ok n b R st :
  (Z.of_nat n < 2 ^ 64)%Z → b < n → bucket_inv n b R st →
  ∃ st', merge_bucket st b = Ok st' ∧ bucket_inv n b R st' ∧ Forall (λ cur, b < cur_bucket_idx cur) (values st'.1.1).
Proof.
  intros Hn Hb Hst. unfold merge_bucket.
  match goal with |- context [rwhileM _ ?C] => set (cond := C) end.
  assert (Hcond : ∀ s, bucket_inv n b R s → ∃ i cur, peek_idx s.1.1 = Ok i ∧ values s.1.1 !! i = Some cur ∧
    (∀ w, w ∈ values s.1.1 → cur_bucket_idx cur ≤ cur_bucket_idx w) ∧ cond s = Ok (bool_decide (cur_bucket_idx cur = b))).
  { intros [[q map] t] (chunks & P & (Hq & _) & _). cbn [fst snd] in *.
    destruct (peek_idx_ok cur_bucket_idx q Hq) as (i & cur & Hi & Hv & _ & Hmin). exists i, cur. split_and!; [done..|].
    unfold cond, peek. rewrite Hi. cbn [mbind Result_bind]. by rewrite (proj2 (uindex_Ok _ _ _) Hv). }
  destruct (rwhileM_inv (bucket_inv n b R) (λ s, sum_list_with (length ∘ input) (values s.1.1)) cond merge_chunk
    (sum_list_with (length ∘ input) (values st.1.1)) st) as (st' & Hw & Hinv & Hfalse); [done|done| |].
  - intros s Hs. destruct (Hcond s Hs) as (i & cur & Hi & Hv & Hmin & Hc). eexists. split; [done|].
    intros Heq%bool_decide_eq_true. destruct Hs as (chunks & P & Hinv & Hperm & Hids & Hge).
    pose proof Hinv as (_ & _ & Hcur & _ & _). destruct (Forall2_lookup_l _ _ _ _ _ Hcur Hv) as (cs & Hcs & Hok).
    destruct cs as [|c cs]; [apply cursor_idx in Hok as [_ [_ Hnil]]; specialize (Hnil eq_refl); lia|].
    pose proof (cursor_ids _ _ _ _ _ Hok) as Hcid. apply Forall_cons in Hcid as [Hcid _].
    destruct (merge_chunk_ok n s chunks P i cur c cs Hn Hinv Hi Hv Hcs) as (s' & cur' & Hm & Hinv' & Hvals & _ & Hidx & Hle & Hlt).
    exists s'. split; [done|]. split; [exists (<[i := cs]> chunks), (P ++ chunk_records ctx c); split_and!|].
    + done.
    + rewrite <- app_assoc, <- (remaining_take chunks i c cs Hcs). done.
    + intros key. rewrite fmap_app, elem_of_app. intros [Hk|Hk]; [by apply Hids|].
      unfold chunk_records in Hk. rewrite fst_table_records in Hk. rewrite Forall_forall in Hcid. rewrite (Hcid key Hk). lia.
    + rewrite Hvals. apply Forall_insert; [done|lia].
    + rewrite Hvals. pose proof (sum_list_with_insert (length ∘ input) (values s.1.1) i cur cur' Hv) as Hsum.
      unfold compose in *. lia.
  - exists st'. split; [done|]. split; [done|]. destruct (Hcond st' Hinv) as (i & cur & Hi & Hv & Hmin & Hc).
    rewrite Hc in Hfalse. injection Hfalse as Hne%bool_decide_eq_false. destruct Hinv as (_ & _ & _ & _ & _ & Hge).
    rewrite Forall_forall in Hge. apply Forall_forall. intros w Hw'. specialize (Hmin w Hw').
    specialize (Hge cur ltac:(by eapply list_elem_of_lookup_2)). lia.
Qed.

Lemma resized_fresh t k i :
  table_ok ctx t → k < length (aggs ctx) → tslot ctx (acc_table_resize t 0) k i = init (kind_at ctx k).
Proof.
  intros Ht Hk. unfold tslot, kind_at, acc_table_resize. rewrite list_lookup_fmap.
  destruct (lookup_lt_is_Some_2 _ _ Hk) as [e He]. rewrite He. destruct (Forall2_lookup_l _ _ _ _ _ Ht He) as (c & Hc & Hok).
  rewrite Hc. cbn [fmap option_fmap option_map]. unfold slot. rewrite (view_resize (agg e)), resize_0 by done. done.
Qed.

Lemma table_rel_taken map t :
  agg_inv hash_one spilled map → table_ok ctx t → table_rel ctx hash_one spilled (take_keys map).1 (acc_table_resize t 0) [].
Proof.
  intros Hmap Ht. destruct (take_keys_ok hash_one spilled map Hmap) as [Hm _].
  destruct (acc_table_resize_ok t 0 Ht) as (Ht' & Hcov & _); [apply Forall_forall; lia|]. split; try done.
  intros k g Hk _. by apply resized_fresh.
Qed.

Lemma remaining_ids n cs chunks lo :
  Forall2 (cursor_ok ctx bucket_hash n) cs chunks → Forall (λ cur, lo ≤ cur_bucket_idx cur) cs →
  ∀ key, key ∈ (remaining chunks).*1 → (Z.of_nat lo ≤ bucket_id bucket_hash key n)%Z.
Proof.
  intros Hcur Hlo key (r & -> & Hr)%list_elem_of_fmap. unfold remaining in Hr.
  apply list_elem_of_In, in_concat in Hr as (l & Hl & Hr). apply list_elem_of_In in Hl, Hr.
  apply list_elem_of_fmap in Hl as (c & -> & Hc). apply list_elem_of_In, in_concat in Hc as (ck & Hck & Hc).
  apply list_elem_of_In in Hck, Hc. apply list_elem_of_lookup in Hck as [i Hi].
  destruct (Forall2_lookup_r _ _ _ _ _ Hcur Hi) as (cur & Hv & Hok).
  pose proof (cursor_ids _ _ _ _ _ Hok) as Hids. pose proof (cursor_buckets _ _ _ _ _ Hok) as Hbs.
  rewrite Forall_forall in Hids, Hbs. specialize (Hids c Hc). specialize (Hbs c Hc).
  eapply Forall_lookup_1 in Hlo; [|exact Hv]. rewrite Forall_forall in Hids. rewrite (Hids r.1); [lia|].
  unfold chunk_records in Hr. rewrite <- (fst_table_records ctx (ck_keys c) (ck_table c)). apply list_elem_of_fmap. eauto.
Qed.

(** The output of the merge: every group of the spilled records once. *)
Lemma merge_loop_ok n lo fuel st chunks :
  ctx_ok ctx → (Z.of_nat n < 2 ^ 64)%Z → 0 < batch_size conf → (∀ key, key ∈ (remaining chunks).*1 → key_good key) →
  merge_inv n st chunks [] → Forall (λ cur, lo ≤ cur_bucket_idx cur) (values st.1.1) → n < lo + fuel →
  ∃ out q Q, merge_loop fuel n st = (out, Ok q) ∧ grouped ctx (remaining chunks) Q ∧ rows_of out ≡ₚ out_row <$> Q ∧
    Forall (λ cur, n ≤ cur_bucket_idx cur) (values q).
Proof.
  clear ratio_exceeds ratio_low. intros Hctx Hn Hbs. revert lo st chunks. induction fuel as [|fuel IH]; intros lo [[q map] t] chunks Hgood Hinv Hlo Hfuel.
  { exfalso. destruct Hinv as (Hq & _ & Hcur & _). cbn [fst snd] in *.
    destruct (peek_idx_ok cur_bucket_idx q Hq) as (i & cur & _ & Hv & _). eapply Forall_lookup_1 in Hlo; [|exact Hv].
    destruct (Forall2_lookup_l _ _ _ _ _ Hcur Hv) as (cs & _ & Hok). apply cursor_idx in Hok as [? _]. lia. }
  cbn [merge_loop]. pose proof Hinv as (Hq & _ & Hcur & _ & _). cbn [fst snd] in Hq, Hcur, Hlo.
  destruct (peek_idx_ok cur_bucket_idx q Hq) as (i & cur & Hi & Hv & _ & Hmin).
  assert (Hpeek : peek q = Ok cur) by (unfold peek; rewrite Hi; cbn; by rewrite (proj2 (uindex_Ok _ _ _) Hv)).
  rewrite Hpeek, lift_bind. set (b := cur_bucket_idx cur) in *.
  assert (Hmin' : Forall (λ w, b ≤ cur_bucket_idx w) (values q)) by (by apply Forall_forall).
  assert (lo ≤ b) by (by eapply Forall_lookup_1 in Hlo; [|exact Hv]). case_decide as Hb.
  - destruct (merge_bucket_ok n b (remaining chunks) (q, map, t) Hn Hb) as ([[q' map'] t'] & -> & (chunks' & P & Hinv' & Hperm & Hids & _) & Hgt).
    { exists chunks, []. split_and!; [done|done|set_solver|done]. }
    rewrite lift_bind. cbn [fst snd] in *. pose proof Hinv' as (Hq' & Hnk' & Hcur' & Htr & Hlen).
    cbn [fst snd] in Hq', Hnk', Hcur', Htr.
    assert (HgoodP : ∀ key, key ∈ P.*1 → key_good key).
    { intros key Hk. apply Hgood. rewrite <- Hperm, fmap_app. set_solver. }
    assert (Ek : (take_keys map').2 = agg_keys map') by done.
    rewrite (surjective_pairing (take_keys map')), Ek.
    destruct (output_all_ok (agg_keys map') t' (batch_size conf) Hctx) as (out1 & -> & Hout1); [apply Htr|apply Htr| |done|].
    { apply Forall_forall. intros key Hk. by apply HgoodP, Htr. }
    rewrite emit_bind.
    destruct (IH (S b) (q', (take_keys map').1, acc_table_resize t' 0) chunks') as (out2 & q2 & Q2 & -> & HQ2 & Hout2 & Hend).
    { intros key Hk. apply Hgood. rewrite <- Hperm, fmap_app. set_solver. }
    { split_and!; cbn [fst snd]; [done|done|done| |].
      - apply table_rel_taken; apply Htr.
      - cbn. lia. }
    { done. }
    { lia. }
    exists (out1 ++ out2), q2, (table_records ctx (agg_keys map') t' ++ Q2). split; [done|]. split; [|split].
    + eapply grouped_trans; [by apply same_groups_perm, Permutation_sym|].
      apply grouped_app; [by eapply table_rel_grouped|done|].
      intros key Hk Hk'. pose proof (remaining_ids n (values q') chunks' (S b) Hcur' Hgt key Hk') as Hge.
      rewrite (Hids key Hk) in Hge. lia.
    + by rewrite rows_of_app, Hout1, Hout2, fmap_app.
    + done.
  - exists [], q, []. split; [done|].
    assert (Hnil : remaining chunks = []).
    { unfold remaining. assert (concat chunks = []) as ->; [|done].
      assert (Hall : Forall (λ cs, cs = []) chunks).
      { apply Forall_lookup. intros j cs Hj. destruct (Forall2_lookup_r _ _ _ _ _ Hcur Hj) as (w & Hw & Hok).
        eapply Forall_lookup_1 in Hmin'; [|exact Hw]. apply cursor_idx in Hok as [? Hok]. apply Hok. lia. }
      clear -Hall. induction Hall as [|cs chunks -> _ IHc]; [done|]. exact IHc. }
    rewrite Hnil. split_and!; [|done|].
    + split_and!; [apply NoDup_nil_2|done|set_solver].
    + eapply Forall_impl; [exact Hmin'|]. cbn. lia.
Qed.

(** ** Lemmas: spilling *)

Lemma bucket_id_bound key n :
  0 < n → (Z.of_nat n < 2 ^ 32)%Z → (0 ≤ bucket_id bucket_hash key n < Z.of_nat n ∧ bucket_id bucket_hash key n < 2 ^ 16)%Z.
Proof.
  intros Hn Hlt. unfold bucket_id. assert (u32 (Z.of_nat n) = Z.of_nat n) as -> by (apply wrapu_id; unfold in_u; lia).
  pose proof (Z.mod_pos_bound (u32 (bucket_hash key)) (Z.of_nat n) ltac:(lia)) as Hm.
  pose proof (wrapu_bound 16 (u32 (bucket_hash key) mod Z.of_nat n) ltac:(lia)) as Hb. unfold in_u in Hb.
  assert (wrapu 16 (u32 (bucket_hash key) mod Z.of_nat n) ≤ u32 (bucket_hash key) mod Z.of_nat n)%Z.
  { unfold wrapu at 1. apply Z.mod_le; lia. }
  lia.
Qed.

Lemma u32_bucket key n : 0 < n → (Z.of_nat n < 2 ^ 32)%Z → u32 (bucket_id bucket_hash key n) = bucket_id bucket_hash key n.
Proof. intros Hn Hlt. pose proof (bucket_id_bound key n Hn Hlt). apply wrapu_id. unfold in_u. lia. Qed.

(** Entries in any order are sorted and written. *)
Lemma sort_and_write_ok {E} (key_of : E → Result bytes) (acc_of : E → nat) (keyf : E → bytes) (bucket : E → nat) t n bbs entries :
  table_ok ctx t → (Z.of_nat n < 2 ^ 32)%Z → 0 < bbs → (Z.of_nat (length entries) < 2 ^ 32)%Z →
  Forall (entry_ok bucket_hash key_of acc_of keyf bucket t n) entries →
  ∃ bs cs, ('(entries, bucket_counts) ← radix_sort_by_key bucket entries (replicate n 0);
            write_spill key_of acc_of t entries bucket_counts bbs n) = Ok bs ∧
    spill_file ctx bucket_hash n 0 bs cs ∧ holds_entries ctx acc_of keyf t cs entries.
Proof.
  intros Ht Hn Hbbs Hlen Hok.
  destruct (radix_sort_by_key_ok bucket entries n) as (arr & counts & -> & Hperm & Hsort & Hcl & Hcnt).
  { eapply Forall_impl; [exact Hok|]. by intros e (_ & _ & _ & ? & _). }
  cbn [mbind Result_bind].
  destruct (write_spill_ok ctx bucket_hash key_of acc_of keyf bucket t n Ht Hn bbs arr counts) as (bs & cs & -> & Hf & Hg).
  - by rewrite Hperm.
  - done.
  - by rewrite Hperm.
  - done.
  - done.
  - intros b Hb. rewrite Hcnt by done. f_equal. by apply cnt_Permutation.
  - exists bs, cs. split; [done|]. split; [done|]. destruct Hg as [Hg Hl]. split; [|by rewrite Hl, Hperm].
    rewrite Hg. apply same_groups_perm. by rewrite Hperm.
Qed.

Lemma hashing_into_spill_ok h P bbs n :
  table_rel ctx hash_one spilled (h_map h) (h_acc_table h) P → (∀ key, key ∈ P.*1 → key_good key) →
  0 < n → (Z.of_nat n < 2 ^ 32)%Z → 0 < bbs → (Z.of_nat (length P) < 2 ^ 32)%Z →
  ∃ bs cs, hashing_into_spill h bbs n = Ok bs ∧ spill_file ctx bucket_hash n 0 bs cs ∧
    same_groups ctx (concat (chunk_records ctx <$> cs)) P ∧ length (concat (chunk_records ctx <$> cs)) ≤ length P.
Proof.
  intros Htr Hgood Hn0 Hn Hbbs Hlen. pose proof (table_rel_length _ _ _ Htr) as Hkl.
  pose proof (table_rel_grouped _ _ _ _ _ _ Htr) as Hgr. destruct Htr as [Hmap Ht Hcov Hkeys Hvals Hfresh].
  unfold hashing_into_spill, into_keys. set (keys := agg_keys (h_map h)) in *.
  set (entries := imap _ keys).
  assert (Hent : ∀ i e, entries !! i = Some e → ∃ key, keys !! i = Some key ∧ e = (bucket_id bucket_hash key n, Z.of_nat i)).
  { intros i e He. apply list_lookup_imap_Some in He as (key & Hk & ->). exists key. split; [done|].
    rewrite u32_bucket by done. f_equal. apply wrapu_id. apply lookup_lt_Some in Hk. unfold in_u. lia. }
  destruct (sort_and_write_ok (λ e, index keys (Z.to_nat e.2)) (λ e, Z.to_nat e.2)
    (λ e, default [] (keys !! Z.to_nat e.2)) (λ e, Z.to_nat e.1) (h_acc_table h) n bbs entries) as (bs & cs & He & Hf & Hg & Hgl).
  - done.
  - done.
  - done.
  - unfold entries. rewrite length_imap. lia.
  - apply Forall_lookup. intros i e He. destruct (Hent i e He) as (key & Hk & ->). unfold entry_ok. cbn [fst snd].
    rewrite Nat2Z.id, Hk. cbn [default]. pose proof (bucket_id_bound key n Hn0 Hn). unfold id. split_and!.
    + by apply index_Ok.
    + apply Hgood, Hkeys. by eapply list_elem_of_lookup_2.
    + lia.
    + lia.
    + eapply covers_le; [exact Hcov|]. by apply lookup_lt_Some in Hk.
  - exists bs, cs. split; [exact He|]. split; [done|].
    split; [|rewrite Hgl; unfold entries; rewrite length_imap; lia]. rewrite Hg. symmetry. rewrite (grouped_same _ _ _ Hgr). fold keys.
    apply same_groups_Forall2. unfold entries, table_records. apply Forall2_same_length_lookup_2.
    { by rewrite length_fmap, !length_imap. }
    intros i r r' Hr Hr'. apply list_lookup_imap_Some in Hr as (key & Hk & ->).
    apply list_lookup_fmap_Some in Hr' as (e & -> & He'). destruct (Hent i e He') as (key' & Hk' & ->).
    assert (key' = key) as -> by congruence. unfold entry_record. cbn [fst snd]. rewrite Nat2Z.id, Hk. done.
Qed.

(** Unmerged records: entry [i] is the [i]-th record. *)
Record merging_rel (n : nat) (m : MergingData) (P : list Record_) : Prop := {
  mr_table : table_ok ctx (m_acc_table m);
  mr_covers : covers (m_acc_table m) (length (m_entries m));
  mr_fresh : ∀ k g, k < length (aggs ctx) → length (m_entries m) ≤ g → tslot ctx (m_acc_table m) k g = init (kind_at ctx k);
  mr_length : length (m_entries m) = length P;
  mr_entry : ∀ i e r, m_entries m !! i = Some e → P !! i = Some r →
    merging_key m e = Ok r.1 ∧ e.1.1.1 = bucket_id bucket_hash r.1 n ∧ e.2 = Z.of_nat i ∧
    ∀ k, k < length (aggs ctx) → tslot ctx (m_acc_table m) k i = merge_all (kind_at ctx k) [r.2 k] }.

(** Records with their contributions replaced by the accumulators of these. *)
Lemma same_groups_single P Q :
  Forall2 (λ r r' : Record_, r.1 = r'.1 ∧ ∀ k, k < length (aggs ctx) → r'.2 k = merge_all (kind_at ctx k) [r.2 k]) P Q →
  same_groups ctx P Q.
Proof.
  intros H. split.
  - intros key. assert (P.*1 = Q.*1) as ->; [|done]. induction H as [|r r' P Q [E _] _ IH]; [done|]. cbn. by rewrite E, IH.
  - intros key k Hk. unfold gval. rewrite <- merge_all_singles. f_equal.
    unfold gvals. induction H as [|r r' P Q [E Ek] _ IH]; [done|]. rewrite !filter_cons, <- E. case_decide; [|done].
    rewrite !fmap_cons, (Ek k Hk). by f_equal.
Qed.

Lemma merging_into_spill_ok m P bbs n :
  merging_rel n m P → (∀ key, key ∈ P.*1 → key_good key) →
  0 < n → (Z.of_nat n < 2 ^ 32)%Z → 0 < bbs → (Z.of_nat (length P) < 2 ^ 32)%Z →
  ∃ bs cs, merging_into_spill m bbs n = Ok bs ∧ spill_file ctx bucket_hash n 0 bs cs ∧
    same_groups ctx (concat (chunk_records ctx <$> cs)) P ∧ length (concat (chunk_records ctx <$> cs)) ≤ length P.
Proof.
  intros [Ht Hcov Hfresh Hlen Hent] Hgood Hn0 Hn Hbbs Hlt. unfold merging_into_spill.
  assert (Hrec : ∀ i e, m_entries m !! i = Some e → ∃ r, P !! i = Some r).
  { intros i e He. apply lookup_lt_is_Some_2. rewrite <- Hlen. by eapply lookup_lt_Some. }
  destruct (sort_and_write_ok (merging_key m) (λ e, Z.to_nat e.2)
    (λ e, match merging_key m e with Ok key => key | _ => [] end) (λ e, Z.to_nat e.1.1.1) (m_acc_table m) n bbs (m_entries m))
    as (bs & cs & He & Hf & Hg & Hgl).
  - done.
  - done.
  - done.
  - lia.
  - apply Forall_lookup. intros i e He. destruct (Hrec i e He) as [r Hr]. destruct (Hent i e r He Hr) as (Hk & Hb & Hi & _).
    unfold entry_ok. rewrite Hk, Hb, Hi. pose proof (bucket_id_bound r.1 n Hn0 Hn). rewrite Nat2Z.id. split_and!.
    + done.
    + apply Hgood. apply list_elem_of_fmap. exists r. split; [done|]. by eapply list_elem_of_lookup_2.
    + lia.
    + lia.
    + eapply covers_le; [exact Hcov|]. by apply lookup_lt_Some in He.
  - exists bs, cs. split; [exact He|]. split; [done|]. split; [|rewrite Hgl; lia].
    rewrite Hg. symmetry. apply same_groups_single.
    apply Forall2_same_length_lookup_2; [by rewrite length_fmap|]. intros i r r' Hr Hr'.
    apply list_lookup_fmap_Some in Hr' as (e & -> & He'). destruct (Hent i e r He' Hr) as (Hk & _ & Hi & Hv).
    unfold entry_record. cbn [fst snd]. rewrite Hk, Hi, Nat2Z.id. done.
Qed.

(** ** Lemmas: input *)

(** The records of a batch: the encoded grouping values and the contributions of its rows. *)
Definition batch_records (b : Batch) (N : list Record_) : Prop :=
  ∃ css groups, batch_data to_i64 ctx b css ∧ group_data of_i64 ctx b groups ∧
    N = imap (λ j g, (row_encode g, λ k, contrib_at css k j)) groups.

Lemma batch_records_keys b N : batch_records b N → create_grouping_rows row_encode ctx b = Ok N.*1 ∧ length N = num_rows b.
Proof.
  intros (css & groups & _ & Hg & ->). rewrite (create_grouping_rows_ok of_i64 row_encode ctx b groups Hg). split.
  - f_equal. apply list_eq. intros i. rewrite !list_lookup_fmap, list_lookup_imap. by destruct (groups !! i).
  - rewrite length_imap. by apply (group_data_length of_i64 ctx b groups).
Qed.

(** The update of a table, in terms of the records of the batch. *)
Lemma update_records_ok b N t s n :
  ctx_ok ctx → batch_records b N → table_ok ctx t → sel_ok s (num_rows b) → covers t n →
  ∃ t', update_batch_to_acc_table to_i64 ctx b t s = Ok t' ∧ table_ok ctx t' ∧ covers t' n ∧ covers t' (idx_num_records s) ∧
    ∀ k i, k < length (aggs ctx) → tslot ctx t' k i = foldl (merge (kind_at ctx k)) (tslot ctx t k i)
      ((λ j, match N !! j with Some r => r.2 k | None => None end) <$> picks (idx_zipped s (Range 0 (length N))) i).
Proof.
  intros Hctx HN Ht Hs Hn. pose proof (batch_records_keys b N HN) as [_ Hlen].
  destruct HN as (css & groups & Hb & Hg & HN). destruct (update_batch_ok to_i64 ctx b css t s n Hctx Hb Ht Hs Hn)
    as (t' & He & Ht' & Hc1 & Hc2 & Hsl). exists t'. do 4 (split; [done|]). intros k i Hk. rewrite Hsl, Hlen by done.
  f_equal. apply list_fmap_ext. intros ? j Hj. apply list_elem_of_lookup_2, picks_range in Hj.
  rewrite HN, list_lookup_imap. rewrite <- Hlen, HN, length_imap in Hj.
  by destruct (lookup_lt_is_Some_2 groups j Hj) as [g ->].
Qed.

Lemma update_batch_rel h P b N :
  ctx_ok ctx → table_rel ctx hash_one spilled (h_map h) (h_acc_table h) P → batch_records b N →
  (Z.of_nat (length P + length N) < 2 ^ 32)%Z →
  ∃ h', update_batch h b = Ok h' ∧ table_rel ctx hash_one spilled (h_map h') (h_acc_table h') (P ++ N).
Proof.
  intros Hctx Htr HN Hlt. pose proof (batch_records_keys b N HN) as [Hkeys Hlen].
  pose proof (table_rel_length _ _ _ Htr) as Hkl. unfold update_batch. rewrite Hkeys. cbn [mbind Result_bind].
  destruct (upsert_rel ctx hash_one spilled _ _ P N Htr) as (map' & idxs & -> & Hil & _ & Hrel); [lia|].
  cbn [mbind Result_bind].
  destruct (update_records_ok b N (h_acc_table h) (IndicesU32 idxs) (length (agg_keys (h_map h))) Hctx HN)
    as (t' & -> & Ht' & Hc1 & Hc2 & Hsl); [apply Htr|cbn; by rewrite length_fmap, Hil|apply Htr|].
  cbn [mbind Result_bind]. eexists. split; [done|]. cbn [h_map h_acc_table]. by apply Hrel.
Qed.

Lemma picks_shift a n i :
  picks (idx_zipped (Range a (a + n)) (Range 0 n)) i = if decide (a ≤ i < a + n) then [i - a] else [].
Proof.
  rewrite zipped_range by (cbn; unfold range; rewrite length_seq; lia). unfold picks, range. rewrite Nat.sub_0_r.
  case_decide as Hi.
  - replace n with ((i - a) + S (n - S (i - a))) by lia. rewrite seq_app, fmap_app, filter_app, fmap_app.
    cbn [seq fmap list_fmap plus]. rewrite filter_none.
    + rewrite filter_cons, decide_True by (cbn; lia). rewrite filter_none; [done|].
      intros p (j & -> & Hj)%list_elem_of_fmap. apply elem_of_seq in Hj. cbn. lia.
    + intros p (j & -> & Hj)%list_elem_of_fmap. apply elem_of_seq in Hj. cbn. lia.
  - rewrite filter_none; [done|]. intros p (j & -> & Hj)%list_elem_of_fmap. apply elem_of_seq in Hj. cbn. lia.
Qed.

Lemma merging_key_grow m e key rows t es :
  merging_key m e = Ok key → merging_key (mkMerging t (key_rows m ++ [rows]) es) e = Ok key.
Proof.
  unfold merging_key. cbn [key_rows]. intros (rs & Hrs & Hk)%bind_Ok. apply index_Ok in Hrs.
  rewrite (proj2 (index_Ok (key_rows m ++ [rows]) _ rs)); [done|].
  by apply lookup_app_l_Some.
Qed.

Lemma add_batch_rel n m P b N :
  ctx_ok ctx → merging_rel n m P → batch_records b N → 0 < n → (Z.of_nat n < 2 ^ 32)%Z →
  (Z.of_nat (length P + length N) < 2 ^ 32)%Z → (Z.of_nat (length (key_rows m)) < 2 ^ 32)%Z →
  ∃ m', add_batch m n b = Ok m' ∧ merging_rel n m' (P ++ N) ∧ length (key_rows m') = S (length (key_rows m)).
Proof.
  intros Hctx [Ht Hcov Hfresh Hlen Hent] HN Hn0 Hn Hlt Hkr. pose proof (batch_records_keys b N HN) as [Hkeys HNl].
  unfold add_batch. set (old := length (m_entries m)) in *.
  destruct (update_records_ok b N (m_acc_table m) (Range old (old + num_rows b)) old Hctx HN Ht)
    as (t' & -> & Ht' & _ & Hc2 & Hsl); [cbn; unfold range; rewrite length_seq; lia|done|].
  cbn [mbind Result_bind]. rewrite Hkeys. cbn [mbind Result_bind idx_num_records] in *. rewrite <- HNl in *.
  eexists. split; [done|]. split; [|cbn; rewrite length_app; cbn; lia].
  assert (Hslot : ∀ k i, k < length (aggs ctx) → tslot ctx t' k i = if decide (old ≤ i < old + length N) then
    foldl (merge (kind_at ctx k)) (tslot ctx (m_acc_table m) k i)
      [match N !! (i - old) with Some r => r.2 k | None => None end] else tslot ctx (m_acc_table m) k i).
  { intros k i Hk. rewrite Hsl, picks_shift by done. by case_decide. }
  split; cbn [m_acc_table m_entries]; rewrite ?length_app, ?length_imap, ?length_fmap; fold old.
  - done.
  - done.
  - intros k g Hk Hg. rewrite Hslot, decide_False by (done || lia). apply Hfresh; [done|]. fold old. lia.
  - lia.
  - intros i e r He Hr. destruct (decide (i < old)) as [Hi|Hi].
    + rewrite lookup_app_l in He by done. rewrite lookup_app_l in Hr by lia.
      destruct (Hent i e r He Hr) as (Hk & Hb & Hidx & Hv). split_and!; [by apply merging_key_grow|done|done|].
      intros k Hkl. rewrite Hslot, decide_False by (done || lia). by apply Hv.
    + rewrite lookup_app_r in He by lia. rewrite lookup_app_r, <- Hlen in Hr by lia. fold old in He, Hr.
      apply list_lookup_imap_Some in He as (key & Hkey & ->). rewrite list_lookup_fmap, Hr in Hkey. injection Hkey as <-.
      pose proof (lookup_lt_Some _ _ _ Hr) as Hj. cbn [fst snd].
      assert (Hu : ∀ x, (Z.of_nat x < 2 ^ 32)%Z → u32 (Z.of_nat x) = Z.of_nat x) by (intros x Hx; apply wrapu_id; unfold in_u; lia).
      rewrite u32_bucket, !Hu, <- Nat2Z.inj_add, Hu by (done || lia). split_and!; [|done|f_equal; lia|].
      * unfold merging_key. cbn [fst snd key_rows]. rewrite !Nat2Z.id.
        rewrite (proj2 (index_Ok _ (length (key_rows m)) N.*1)) by (rewrite lookup_app_r, Nat.sub_diag by lia; done).
        cbn [mbind Result_bind]. apply index_Ok. by rewrite list_lookup_fmap, Hr.
      * intros k Hk. rewrite Hslot, decide_True by (done || lia). rewrite Hr. rewrite Hfresh by (done || (fold old; lia)).
        done.
Qed.

(** ** The state of a table and the records processed *)

Definition cell_ok (cell : option nat) : Prop := ∀ n, cell = Some n → 0 < n ∧ (Z.of_nat n < 2 ^ 32)%Z.

Definition data_rel (cell : option nat) (nb : nat) (d : InMemData) (P : list Record_) : Prop :=
  match d with
  | Hashing h => table_rel ctx hash_one spilled (h_map h) (h_acc_table h) P
  | Merging m => ∃ n, cell = Some n ∧ merging_rel n m P ∧ length (key_rows m) ≤ nb
  end.

Definition is_merging (d : InMemData) : bool := match d with Merging _ => true | Hashing _ => false end.

(** After at most [nb] batches with the records [R]: the spills hold [chunks], the rest
    is in memory, and together they have the groups of [R]. *)
Definition state_rel (st : TableState) (nb : nat) (R : list Record_) : Prop :=
  ∃ chunks P, cell_ok (bucket_cell st) ∧
    Forall2 (λ f cs, ∃ n, bucket_cell st = Some n ∧ spill_file ctx bucket_hash n 0 f cs) (spills st) chunks ∧
    data_rel (bucket_cell st) nb (data st) P ∧ (is_merging (data st) = true → spills st ≠ []) ∧
    same_groups ctx R (remaining chunks ++ P) ∧ length (remaining chunks) + length P ≤ length R.

(** Sizes: positive batch and memory sizes, bucket numbers that fit 32 bits. *)
Definition conf_ok : Prop :=
  0 < batch_size conf ∧ 0 < suggested_batch_mem_size conf ∧ ∀ d, (Z.of_nat (mem_used d / suggested_batch_mem_size conf / 2) < 2 ^ 32)%Z.

Lemma num_spill_buckets_ok cell d :
  conf_ok → cell_ok cell →
  ∃ n, num_spill_buckets cell (mem_used d) = Ok n ∧ cell_ok (Some n) ∧ ∀ n', cell = Some n' → n = n'.
Proof.
  intros (_ & Hs & Hm) Hc. unfold num_spill_buckets. destruct cell as [n|].
  - exists n. split; [done|]. split; [done|]. congruence.
  - rewrite (proj2 (rassert_Ok _)) by (by apply bool_decide_true). cbn [mbind Result_bind]. eexists. split; [done|]. split; [|done].
    specialize (Hm d). revert Hm. generalize (mem_used d / suggested_batch_mem_size conf / 2). intros q Hq n [= <-]. lia.
Qed.

Lemma data_rel_length cell nb d P : data_rel cell nb d P → data_num_records d ≤ length P.
Proof.
  destruct d as [h|m]; cbn [data_rel data_num_records].
  - by apply table_rel_length.
  - intros (n & _ & Hm & _). by rewrite (mr_length _ _ _ Hm).
Qed.

Lemma data_rel_nil cell nb d P : data_rel cell nb d P → data_num_records d = 0 → P = [].
Proof.
  destruct d as [h|m]; cbn [data_rel data_num_records].
  - intros Htr Hz. apply nil_length_inv in Hz. pose proof (tr_keys _ _ _ _ _ _ Htr) as Hk. rewrite Hz in Hk.
    destruct P as [|r P]; [done|]. exfalso. apply (not_elem_of_nil r.1), Hk. rewrite fmap_cons. left.
  - intros (n & _ & Hm & _) Hz. rewrite (mr_length _ _ _ Hm) in Hz. by apply nil_length_inv.
Qed.

Lemma try_into_spill_ok cell nb d P :
  conf_ok → cell_ok cell → data_rel cell nb d P → (∀ key, key ∈ P.*1 → key_good key) → (Z.of_nat (length P) < 2 ^ 32)%Z →
  ∃ bs n cs, try_into_spill d cell = Ok (bs, n) ∧ cell_ok (Some n) ∧ (∀ n', cell = Some n' → n = n') ∧
    spill_file ctx bucket_hash n 0 bs cs ∧ same_groups ctx (concat (chunk_records ctx <$> cs)) P ∧
    length (concat (chunk_records ctx <$> cs)) ≤ length P.
Proof.
  intros Hconf Hcell Hd Hgood Hlen. unfold try_into_spill.
  set (bbs := compute_batch_size_with_target_mem_size _ _ _ _).
  assert (Hbbs : 0 < bbs) by (apply compute_batch_size_pos, Hconf).
  destruct (num_spill_buckets_ok cell d Hconf Hcell) as (n & -> & Hc & Hcn). cbn [mbind Result_bind].
  destruct (Hc n eq_refl) as [Hn0 Hn]. clearbody bbs. destruct d as [h|m].
  - destruct (hashing_into_spill_ok h P bbs n Hd Hgood Hn0 Hn Hbbs Hlen) as (bs & cs & -> & Hf & Hg & Hl).
    by exists bs, n, cs.
  - destruct Hd as (n' & Hn' & Hm & _). rewrite <- (Hcn n' Hn') in Hm.
    destruct (merging_into_spill_ok m P bbs n Hm Hgood Hn0 Hn Hbbs Hlen) as (bs & cs & -> & Hf & Hg & Hl).
    by exists bs, n, cs.
Qed.

Lemma new_data_ok cell nb (is_hashing : bool) :
  (is_hashing = false → is_Some cell) →
  ∃ d, (if is_hashing then hashing_try_new else merging_try_new) = Ok d ∧ data_rel cell nb d [] ∧ is_merging d = negb is_hashing.
Proof.
  intros Hc. unfold hashing_try_new, merging_try_new. rewrite create_acc_table_ok. cbn [mbind Result_bind].
  destruct is_hashing; eexists; (split; [done|]); (split; [|done]); cbn [data_rel].
  - apply table_rel_empty.
  - destruct Hc as [n ->]; [done|]. exists n. split; [done|]. split; [|cbn; lia].
    destruct (create_table_ok ctx 0) as (Ht & Hcov & Hs). split; cbn; try done. intros. by apply Hs.
Qed.

Lemma remaining_snoc chunks cs : remaining (chunks ++ [cs]) = remaining chunks ++ concat (chunk_records ctx <$> cs).
Proof. unfold remaining. rewrite concat_app. cbn [concat]. by rewrite app_nil_r, fmap_app, concat_app. Qed.

Lemma same_keys P Q : same_groups ctx P Q → (∀ key, key ∈ P.*1 → key_good key) → ∀ key, key ∈ Q.*1 → key_good key.
Proof. intros [Hk _] Hg key. rewrite <- Hk. apply Hg. Qed.

Lemma table_spill_ok st nb R :
  conf_ok → (∀ key, key ∈ R.*1 → key_good key) → (Z.of_nat (length R) < 2 ^ 32)%Z → state_rel st nb R →
  ∃ st' s, table_spill st = Ok (st', s) ∧ state_rel st' nb R ∧
    (s = None ∨ s = Some SpillPartialSkipping ∧ supports_partial_skipping conf = true).
Proof.
  clear ratio_exceeds. intros Hconf Hgood Hlen Hst. unfold table_spill.
  destruct (supports_partial_skipping conf && partial_skipping_skip_spill conf) eqn:Hskip.
  { exists st, (Some SpillPartialSkipping). apply andb_true_iff in Hskip as [? _]. auto. }
  destruct Hst as (chunks & P & Hcell & Hsp & Hd & Hm & Hg & Hl). set (hash := match data st with Hashing _ => _ | _ => _ end).
  destruct (try_into_spill_ok (bucket_cell st) nb (data st) P) as (bs & n & cs & Hspill & Hn & Hcn & Hf & Hgs & Hls);
    [done|done|done| |lia|].
  { intros key Hk. apply (same_keys _ _ Hg Hgood). rewrite fmap_app. set_solver. }
  unfold renew. destruct (new_data_ok (Some n) nb hash) as (d & -> & Hd' & Hmd); [done|].
  cbn [mbind Result_bind bucket_cell]. rewrite Hspill. cbn [mbind Result_bind table_id data spills].
  eexists _, None. split; [done|]. split; [|by left]. exists (chunks ++ [cs]), []. split_and!; cbn [data spills bucket_cell].
  - done.
  - apply Forall2_app; [|constructor; [by exists n|done]]. eapply Forall2_impl; [exact Hsp|].
    intros f cs' (n' & Hn' & Hf'). exists n'. by rewrite (Hcn n' Hn').
  - done.
  - intros _ E. by apply (app_cons_not_nil (spills st) [] bs).
  - by rewrite Hg, remaining_snoc, app_nil_r, Hgs.
  - rewrite remaining_snoc, length_app. cbn. lia.
Qed.

Lemma update_data_ok st nb R b N :
  ctx_ok ctx → (Z.of_nat (length R + length N + nb) < 2 ^ 32)%Z → state_rel st nb R → batch_records b N →
  ∃ st', update_data st b = Ok st' ∧ state_rel st' (S nb) (R ++ N).
Proof.
  clear ratio_exceeds ratio_low. intros Hctx Hlen (chunks & P & Hcell & Hsp & Hd & Hm & Hg & Hl) HN. unfold update_data.
  assert (Hg' : same_groups ctx (R ++ N) (remaining chunks ++ P ++ N)) by (by rewrite Hg, app_assoc).
  destruct (data st) as [h|m]; cbn [data_rel] in Hd.
  - destruct (update_batch_rel h P b N) as (h' & -> & Htr); [done|done|done|lia|]. cbn [mbind Result_bind].
    eexists. split; [done|]. exists chunks, (P ++ N). do 4 (split; [done|]). split; [done|]. rewrite !length_app. lia.
  - destruct Hd as (n & Hn & Hmr & Hkr). rewrite Hn. cbn [num_spill_buckets mbind Result_bind]. destruct (Hcell n Hn) as [Hn0 Hn32].
    destruct (add_batch_rel n m P b N) as (m' & -> & Hmr' & Hkr'); [done|done|done|done|done|lia|lia|]. cbn [mbind Result_bind].
    eexists. split; [done|]. rewrite Hn in Hcell, Hsp.
    exists chunks, (P ++ N). do 2 (split; [done|]). split; [exists n; split; [done|]; split; [done|lia]|].
    split; [done|]. split; [done|]. rewrite !length_app. lia.
Qed.

Lemma process_input_batch_ok st nb R b N mem_high must_spill :
  ctx_ok ctx → conf_ok → (∀ key, key ∈ (R ++ N).*1 → key_good key) → (Z.of_nat (length R + length N + nb) < 2 ^ 32)%Z →
  state_rel st nb R → batch_records b N →
  ∃ st' s, process_input_batch st b mem_high must_spill = Ok (st', s) ∧ state_rel st' (S nb) (R ++ N) ∧
    (s = None ∨ supports_partial_skipping conf = true).
Proof.
  intros Hctx Hconf Hgood Hlen Hst HN. unfold process_input_batch.
  destruct (update_data_ok st nb R b N Hctx Hlen Hst HN) as (st' & -> & Hst'). cbn [mbind Result_bind].
  destruct (partial_skipping_skip_spill conf && mem_high && supports_partial_skipping conf) eqn:E1.
  { eexists st', _. split; [done|]. split; [done|]. right. by apply andb_true_iff in E1 as [_ ?]. }
  destruct (bool_decide _ && check_trigger_partial_skipping st') eqn:E2.
  { eexists st', _. split; [done|]. split; [done|]. right. unfold check_trigger_partial_skipping in E2.
    destruct (supports_partial_skipping conf); [done|]. by rewrite !andb_false_r in E2. }
  destruct must_spill; [|by exists st', None; auto].
  destruct (table_spill_ok st' (S nb) (R ++ N)) as (st2 & s & -> & Hst2 & Hs); [done|done|rewrite length_app; lia|done|].
  exists st2, s. split; [done|]. split; [done|]. naive_solver.
Qed.

Lemma data_rel_mono cell nb nb' d P : nb ≤ nb' → data_rel cell nb d P → data_rel cell nb' d P.
Proof. intros Hle. destruct d as [h|m]; [done|]. intros (n & ? & ? & ?). exists n. split; [done|]. split; [done|lia]. Qed.

Lemma try_from_spills_ok n fs chunks :
  (Z.of_nat n < 2 ^ 64)%Z → Forall2 (λ f cs, spill_file ctx bucket_hash n 0 f cs) fs chunks →
  ∃ cs, rmapM try_from_spill fs = Ok cs ∧ Forall2 (cursor_ok ctx bucket_hash n) cs chunks.
Proof.
  intros Hn H. induction H as [|f cs fs chunks Hf _ (cursors & He & IH)]; [by exists []|].
  destruct (try_from_spill_ok ctx bucket_hash n f cs Hn Hf) as (cur & Hc & Hok). exists (cur :: cursors).
  cbn [rmapM]. rewrite Hc, He. by split; [|constructor].
Qed.

(** Merging the spills, whatever they hold. *)
Lemma merge_spills_ok n fs chunks :
  ctx_ok ctx → (Z.of_nat n < 2 ^ 32)%Z → 0 < batch_size conf → fs ≠ [] →
  Forall2 (λ f cs, spill_file ctx bucket_hash n 0 f cs) fs chunks →
  (∀ key, key ∈ (remaining chunks).*1 → key_good key) → (Z.of_nat (length (remaining chunks)) < 2 ^ 32)%Z →
  ∃ out cs q0 t q Q, rmapM try_from_spill fs = Ok cs ∧ rq_new cur_bucket_idx cs n = Ok q0 ∧ 0 < length (values q0) ∧
    create_acc_table ctx 0 = Ok t ∧ merge_loop (n + 1) n (q0, agg_default, t) = (out, Ok q) ∧
    Forall (λ c, n ≤ cur_bucket_idx c) (values q) ∧ grouped ctx (remaining chunks) Q ∧ rows_of out ≡ₚ out_row <$> Q.
Proof.
  clear mem_used ratio_exceeds ratio_low. intros Hctx Hn Hbs Hne Hfs Hgood Hlen.
  destruct (try_from_spills_ok n fs chunks) as (cs & Hcs & Hcur); [lia|done|].
  destruct (rq_new_ok cur_bucket_idx cs n) as (q0 & Hq0 & Hv & Hnk & Hinv).
  { intros ->. apply Forall2_nil_inv_l in Hcur as ->. by apply Forall2_nil_inv_r in Hfs. }
  { apply Forall_lookup. intros i cur Hi. destruct (Forall2_lookup_l _ _ _ _ _ Hcur Hi) as (c & _ & Hok).
    by apply cursor_idx in Hok as [? _]. }
  destruct (merge_loop_ok n 0 (n + 1) (q0, agg_default, (λ e, create_acc_column (agg e) 0) <$> aggs ctx) chunks)
    as (out & q & Q & Hml & HQ & Hout & Hend); [done|lia|done|done| | |lia|].
  { split_and!; cbn [fst snd]; [done|done|by rewrite Hv|apply table_rel_empty|cbn; lia]. }
  { apply Forall_forall. lia. }
  exists out, cs, q0, ((λ e, create_acc_column (agg e) 0) <$> aggs ctx), q, Q. split; [done|]. split; [done|].
  split; [|by rewrite create_acc_table_ok].
  rewrite Hv. destruct cs; [|cbn; lia]. apply Forall2_nil_inv_l in Hcur as ->. by apply Forall2_nil_inv_r in Hfs.
Qed.

(** The empty table, with a bucket number that may be fixed already. *)
Lemma state_rel_new id d cell nb : cell_ok cell → data_rel cell nb d [] → is_merging d = false → state_rel (mkTable id d [] cell) nb [].
Proof. intros Hc Hd Hm. exists [], []. split_and!; cbn; try done. by rewrite Hm. Qed.

(** Spills written with the bucket number of the cell. *)
Lemma spills_with (cell : option nat) n fs chunks :
  (∀ n', cell = Some n' → n = n') →
  Forall2 (λ f cs, ∃ n', cell = Some n' ∧ spill_file ctx bucket_hash n' 0 f cs) fs chunks →
  Forall2 (λ f cs, spill_file ctx bucket_hash n 0 f cs) fs chunks.
Proof. intros Hn H. eapply Forall2_impl; [exact H|]. intros f cs (n' & Hc & Hf). by rewrite (Hn n' Hc). Qed.

Lemma spill_rest_ok d nb R fs cell chunks P :
  conf_ok → cell_ok cell → data_rel cell nb d P → (∀ key, key ∈ P.*1 → key_good key) → (Z.of_nat (length R) < 2 ^ 32)%Z →
  fs ≠ [] → Forall2 (λ f cs, ∃ n, cell = Some n ∧ spill_file ctx bucket_hash n 0 f cs) fs chunks →
  same_groups ctx R (remaining chunks ++ P) → length (remaining chunks) + length P ≤ length R →
  ∃ fs' n chunks', spill_rest d fs cell = Ok (fs', Some n) ∧ cell_ok (Some n) ∧ fs' ≠ [] ∧
    Forall2 (λ f cs, spill_file ctx bucket_hash n 0 f cs) fs' chunks' ∧ same_groups ctx R (remaining chunks') ∧
    length (remaining chunks') ≤ length R.
Proof.
  clear ratio_exceeds ratio_low. intros Hconf Hcell Hd Hgood Hlen Hne Hsp Hg Hl. unfold spill_rest. case_decide as Hz.
  - destruct (try_into_spill_ok cell nb d P) as (bs & n & cs & -> & Hn & Hcn & Hf & Hgs & Hls); [done|done|done|done|lia|].
    exists (fs ++ [bs]), n, (chunks ++ [cs]). split; [done|]. split; [done|].
    split; [intros E; by apply (app_cons_not_nil fs [] bs)|]. split; [|split].
    + apply Forall2_app; [by eapply spills_with|by constructor].
    + by rewrite Hg, remaining_snoc, Hgs.
    + rewrite remaining_snoc, length_app. lia.
  - destruct Hsp as [|f cs fs chunks (n & -> & Hf) Hsp]; [done|]. exists (f :: fs), n, (cs :: chunks).
    rewrite (data_rel_nil _ _ _ _ Hd), app_nil_r in * by lia. split; [done|]. split; [done|]. split; [done|].
    split; [constructor; [done|]; eapply spills_with; [|exact Hsp]; by intros n' [= ->]|]. split; [done|]. cbn in Hl |- *. lia.
Qed.

(** The output of a table: every group of the records processed once.  The table is left
    empty. *)
Lemma table_output_ok st nb R :
  ctx_ok ctx → conf_ok → (∀ key, key ∈ R.*1 → key_good key) → (Z.of_nat (length R) < 2 ^ 32)%Z → state_rel st nb R →
  ∃ out st' Q, table_output st = (out, Ok st') ∧ state_rel st' nb [] ∧ grouped ctx R Q ∧ rows_of out ≡ₚ out_row <$> Q.
Proof.
  clear ratio_exceeds ratio_low. intros Hctx Hconf Hgood Hlen (chunks & P & Hcell & Hsp & Hd & Hm & Hg & Hl).
  pose proof (same_keys _ _ Hg Hgood) as Hgood'. setoid_rewrite fmap_app in Hgood'. setoid_rewrite elem_of_app in Hgood'.
  unfold table_output, renew. destruct (new_data_ok (bucket_cell st) nb true) as (d & -> & Hd' & Hmd); [done|].
  cbn [mbind Result_bind]. rewrite lift_bind. cbn [spills table_id data bucket_cell].
  case_decide as Hempty.
  { destruct Hempty as [Hz Hs]. exists [], (mkTable (table_id st + 1) d [] (bucket_cell st)), []. split; [done|].
    split; [by apply state_rel_new|]. split; [|done]. rewrite Hs in Hsp. apply Forall2_nil_inv_l in Hsp as ->.
    rewrite (data_rel_nil _ _ _ _ Hd Hz) in Hg. eapply grouped_trans; [exact Hg|].
    split_and!; [apply NoDup_nil_2|done|set_solver]. }
  case_decide as Hs.
  { destruct (data st) as [h|m]; [|by destruct Hm]. rewrite Hs in Hsp. apply Forall2_nil_inv_l in Hsp as ->.
    set (bs := compute_batch_size_with_target_mem_size _ _ _ _).
    destruct (output_in_mem_ok h P bs Hctx Hd) as (out & -> & Hout); [by auto|apply compute_batch_size_pos, Hconf|].
    rewrite emit_bind. eexists _, _, _. split; [cbn; by rewrite app_nil_r|]. split; [by apply state_rel_new|].
    split; [|exact Hout]. eapply grouped_trans; [exact Hg|]. by apply (table_rel_grouped _ hash_one spilled). }
  destruct (spill_rest_ok (data st) nb R (spills st) (bucket_cell st) chunks P)
    as (fs & n & chunks' & -> & Hc & Hne & Hfs & Hg' & Hl'); [done|done|done|by auto|done|done|done|done|done|].
  rewrite lift_bind. cbn [num_spill_buckets].
  destruct (Hc n eq_refl) as [Hn0 Hn].
  destruct (merge_spills_ok n fs chunks') as (out & cs & q0 & t & q & Q & -> & Hq0 & Hq0l & Ht & Hml & Hend & HQ & Hout);
    [done|done|apply Hconf|done|done|by apply (same_keys _ _ Hg')|lia|].
  rewrite lift_bind, lift_bind, Hq0, lift_bind, (proj2 (rassert_Ok _)) by (by apply bool_decide_true). rewrite lift_bind, Ht, lift_bind, Hml, emit_bind.
  rewrite (proj2 (rassert_Ok _)).
  2:{ apply forallb_forall. intros c Hin%list_elem_of_In. apply bool_decide_true. rewrite Forall_forall in Hend. by apply Hend. }
  rewrite lift_bind. eexists _, _, Q. split; [cbn [fst snd mret Emit_ret]; by rewrite app_nil_r|].
  split; [|split; [by eapply grouped_trans|done]].
  apply state_rel_new; [done| |done]. by destruct d.
Qed.

Lemma table_new_ok : ∃ st, agg_table_try_new = Ok st ∧ state_rel st 0 [].
Proof.
  unfold agg_table_try_new. destruct (new_data_ok None 0 true) as (d & Hd & Hr & Hm); [done|]. cbn in Hd.
  rewrite Hd. eexists. split; [done|]. by apply state_rel_new.
Qed.

Lemma state_rel_mono st nb nb' R : nb ≤ nb' → state_rel st nb R → state_rel st nb' R.
Proof.
  intros Hle (chunks & P & ? & ? & Hd & ?). exists chunks, P. split; [done|]. split; [done|].
  split; [by eapply data_rel_mono|done].
Qed.
End AggTable.
