(* ===== verification/AggExec.v ===== *)
(** * The aggregation operator

    native-engine/datafusion-ext-plans/src/agg_exec.rs: hash aggregation with grouping,
    including spills, the merge of spills and partial skipping, and aggregation without
    grouping.

    The input is any list of batches (or errors) of the coalesced input stream.  With each
    batch come two decisions of the memory manager, whether the memory use is high and
    whether the table has to spill; all theorems hold for all of them.

    [sql_group_by] is the meaning of GROUP BY on the rows of the input: one row per
    distinct list of grouping values, with the aggregates of the rows of the group. *)

From S2P Require Import Prelude MachineInt Io Arrow BatchSerde Joins JoinHashMap RadixSort RadixQueue AggHashMap AggAcc AggCtx AggGroups AggSpill AggTable.

Set Default Proof Using "Type".

Local Abbreviation bytes := (list Z).
Local Abbreviation Record_ := (bytes * (nat → option Z))%type.
Local Abbreviation AccTable := (list AccColumn).

(** ** Aggregate functions of SQL *)

Definition sum_Z (xs : list Z) : Z := foldr Z.add 0%Z xs.

(** The aggregate of some values; sums and counts wrap around at 64 bits. *)
Definition sql_agg (a : AggKind) (ms : list (option Z)) : option Z :=
  let xs := omap id ms in
  match a with
  | Count => Some (i64 (sum_Z xs))
  | Sum => match xs with [] => None | _ => Some (i64 (sum_Z xs)) end
  | Max => match xs with [] => None | x :: xs => Some (foldr Z.max x xs) end
  | Min => match xs with [] => None | x :: xs => Some (foldr Z.min x xs) end
  end.

Lemma foldl_sum x xs : in_s 64 x → foldl (λ w v, i64 (w + v)) x xs = i64 (x + sum_Z xs).
Proof.
  revert x. induction xs as [|y xs IH]; intros x Hx; cbn [foldl sum_Z foldr].
  - rewrite Z.add_0_r. symmetry. by apply wraps_id.
  - rewrite IH by (apply wraps_bound; lia). rewrite i64_idem_l. f_equal. unfold sum_Z. lia.
Qed.

Lemma foldl_extremum (f : Z → Z → Z) x xs : Comm (=) f → Assoc (=) f → foldl f x xs = foldr f x xs.
Proof.
  intros Hc Ha. revert x. induction xs as [|y xs IH]; intros x; [done|]. cbn [foldl foldr]. rewrite IH.
  clear IH. induction xs as [|z xs IH]; cbn [foldr]; [apply Hc|]. by rewrite IH, !Ha, (Hc z y).
Qed.

Lemma foldl_same {A B} (f g : A → B → A) x l : (∀ w v, f w v = g w v) → foldl f x l = foldl g x l.
Proof. intros Hfg. revert x. induction l as [|y l IH]; intros x; [done|]. cbn. by rewrite Hfg, IH. Qed.

Lemma combine_extremum a v w : a = Max ∨ a = Min → combine a v w = match a with Max => Z.max w v | _ => Z.min w v end.
Proof.
  intros [-> | ->]; cbn; (destruct (Z.compare_spec w v) as [->|Hlt|Hgt]; [rewrite bool_decide_false by done|..]);
    repeat first [rewrite bool_decide_true by done|rewrite bool_decide_false by done]; lia.
Qed.

Lemma merge_all_sql a ms : Forall value_ok ms → merge_all a ms = sql_agg a ms.
Proof.
  intros Hms. unfold merge_all, sql_agg.
  assert (Hf : ∀ s, foldl (merge a) s ms = foldl (merge a) s (Some <$> omap id ms)).
  { clear Hms. induction ms as [|[x|] ms IH]; intros s; [done| |]; cbn; rewrite IH; [done|]. by destruct s. }
  rewrite Hf. clear Hf.
  assert (Hxs : Forall (in_s 64) (omap id ms)).
  { apply Forall_forall. intros x Hx. apply list_elem_of_omap in Hx as (m & Hm & E). cbn in E.
    rewrite Forall_forall in Hms. by apply (Hms m). }
  generalize dependent (omap id ms). clear ms Hms. intros xs Hxs.
  assert (Hsome : ∀ x xs, foldl (merge a) (Some x) (Some <$> xs) = Some (foldl (λ w v, combine a v w) x xs)).
  { clear. intros x xs. revert x. induction xs as [|y xs IH]; intros x; [done|]. rewrite fmap_cons. cbn [foldl]. by rewrite <- IH. }
  destruct a; cbn [init].
  2:{ rewrite Hsome. f_equal. cbn [combine]. rewrite foldl_sum by (unfold in_s; lia). done. }
  all: destruct Hxs as [|x xs Hx Hxs]; [done|]; rewrite fmap_cons; cbn [foldl merge]; rewrite Hsome; f_equal.
  - cbn [combine]. by apply foldl_sum.
  - rewrite <- foldl_extremum by first [exact Z.max_comm|exact Z.max_assoc]. apply foldl_same. intros. by rewrite combine_extremum by auto.
  - rewrite <- foldl_extremum by first [exact Z.min_comm|exact Z.min_assoc]. apply foldl_same. intros. by rewrite combine_extremum by auto.
Qed.

Lemma merge_all_fits a ms : Forall value_ok ms → value_ok (merge_all a ms).
Proof.
  intros Hms. unfold merge_all. assert (Hi : value_ok (init a)) by (destruct a; intros ? [= <-]; unfold in_s; lia).
  revert Hi. generalize (init a). induction Hms as [|m ms Hm _ IH]; intros s Hs; [done|]. cbn. apply IH. clear IH.
  destruct s as [w|], m as [v|]; try done. intros x [= <-]. destruct a; cbn.
  1,2: apply wraps_bound; lia.
  all: case_match; [by apply Hs|by apply Hm].
Qed.

Lemma contrib_fits a row : Forall value_ok row → value_ok (contrib a row).
Proof.
  intros Hrow. destruct a; cbn; try (destruct Hrow as [|v row Hv _]; [done|]; by destruct v).
  intros x [= <-]. unfold in_s. case_decide; lia.
Qed.

(** The laws of arrow's row format for rows of [n] columns. *)
Class RowFormat {V} (row_encode : list V → bytes) (row_decode : bytes → Result (list V)) (n : nat) : Prop := {
  row_roundtrip : ∀ g, length g = n → row_decode (row_encode g) = Ok g;
  row_size : ∀ g, length g = n → key_ok (row_encode g) }.

Section AggExec.
Context {V : Type} (to_i64 : V → option Z) (of_i64 : option Z → V).
Context (row_encode : list V → bytes) (row_decode : bytes → Result (list V)).
Context (hash_one : bytes → Z) (spilled : bytes → bool) (bucket_hash : bytes → Z).
Context (ctx : @AggContext V) (conf : AggConf).
Context (mem_used : InMemData → nat) (ratio_exceeds ratio_low : nat → nat → bool).

Local Abbreviation Batch := (RecordBatch (V:=V)).
Local Abbreviation null := (of_i64 None).
Local Abbreviation process_input_batch :=
  (process_input_batch to_i64 row_encode hash_one spilled bucket_hash ctx conf mem_used ratio_exceeds ratio_low).
Local Abbreviation table_output := (table_output of_i64 row_decode hash_one spilled bucket_hash ctx conf mem_used).

(** An item of the input, [mem_used_percent() > 0.8], and whether the table must spill. *)
Record Input := mkInput { item : Result Batch; mem_high : bool; must_spill : bool }.

(** The body of the loop; the state is the table and [partial_skipping_triggered]. *)
Definition hash_step (st : TableState * bool) (inp : Input) : Emit Batch (TableState * bool) :=
  let '(tables, partial_skipping_triggered) := st in
  batch ← lift (item inp);
  if partial_skipping_triggered : bool then
    _ ← (process_partial_skipped to_i64 of_i64 ctx batch : Emit Batch unit);
    mret (tables, true)
  else
    '(tables, signal) ← lift (process_input_batch tables batch (mem_high inp) (must_spill inp));
    match signal with
    | None => mret (tables, false)
    | Some TriggerPartialSkipping => tables ← table_output tables; mret (tables, true)
    | Some SpillPartialSkipping => tables ← table_output tables; mret (tables, false)
    end.

Definition execute_agg_with_grouping_hash (input : list Input) : Emit Batch unit :=
  tables ← lift (agg_table_try_new ctx);
  '(tables, _) ← emit_foldM hash_step (tables, false) input;
  _ ← table_output tables;
  mret tt.

Definition execute_agg_no_grouping (input : list (Result Batch)) : Emit Batch unit :=
  acc_table ← lift (create_acc_table ctx 1);
  acc_table ← emit_foldM (λ acc_table item,
      batch ← lift item;
      lift (update_batch_to_acc_table to_i64 ctx batch acc_table (Single 0))) acc_table input;
  agg_columns ← lift (build_agg_columns ctx acc_table (Single 0));
  batch ← lift (try_new_batch (output_num_fields ctx) (to_columns of_i64 agg_columns) 1);
  emit batch.

(** ** The meaning of the operator *)

(** A row: its grouping values, and what it contributes to each aggregate. *)
Local Abbreviation Row := (list V * (nat → option Z))%type.

Definition batch_input (b : Batch) (rows : list Row) : Prop :=
  ∃ css groups, batch_data to_i64 ctx b css ∧ group_data of_i64 ctx b groups ∧
    rows = imap (λ j g, (g, λ k, contrib_at css k j)) groups.

(** Without grouping, all rows are in one group. *)
Definition ungrouped_input (b : Batch) (rows : list Row) : Prop :=
  ∃ css, batch_data to_i64 ctx b css ∧ rows = (λ j, ([], λ k, contrib_at css k j)) <$> seq 0 (num_rows b).

Context `{EqDecision V}.

Definition agg_row (rows : list Row) : list V :=
  (λ k, of_i64 (sql_agg (kind_at ctx k) ((λ r : Row, r.2 k) <$> rows))) <$> seq 0 (length (aggs ctx)).

Definition sql_group_by (rows : list Row) : list (list V) :=
  (λ g, g ++ agg_row (filter (λ r, r.1 = g) rows)) <$> remove_dups rows.*1.

(** ** Lemmas *)

Definition encode_row (r : Row) : Record_ := (row_encode r.1, r.2).

Lemma batch_input_records b rows :
  batch_input b rows → batch_records to_i64 of_i64 row_encode ctx b (encode_row <$> rows).
Proof.
  intros (css & groups & Hb & Hg & ->). exists css, groups. split; [done|]. split; [done|].
  apply list_eq. intros i. rewrite list_lookup_fmap, !list_lookup_imap. by destruct (groups !! i).
Qed.

Lemma batch_input_width b rows : batch_input b rows → Forall (λ r : Row, length r.1 = length (groupings ctx)) rows.
Proof.
  intros (css & groups & _ & Hg & ->). apply group_data_length in Hg as [_ Hg]. apply Forall_lookup. intros i r Hr.
  apply list_lookup_imap_Some in Hr as (g & Hi & ->). by eapply Forall_lookup_1 in Hg.
Qed.

Lemma encoded_keys_good `{!RowFormat row_encode row_decode (length (groupings ctx))} (rows : list Row) :
  Forall (λ r : Row, length r.1 = length (groupings ctx)) rows →
  ∀ key, key ∈ (encode_row <$> rows).*1 → key_good row_decode ctx key.
Proof.
  intros Hw key Hk. rewrite <- list_fmap_compose in Hk. apply list_elem_of_fmap in Hk as (r & -> & Hr).
  rewrite Forall_forall in Hw. specialize (Hw r Hr). unfold compose, encode_row. cbn [fst]. split; [by eapply row_size|].
  exists r.1. split; [by eapply row_roundtrip|done].
Qed.

Local Abbreviation out_row := (out_row of_i64 row_decode ctx).
Local Abbreviation rows_of := (rows_of of_i64).
Local Abbreviation state_rel := (state_rel hash_one spilled bucket_hash ctx).
Local Abbreviation keys_good R := (∀ key, key ∈ (R : list Record_).*1 → key_good row_decode ctx key).

(** The values of records fit 64 bits. *)
Definition values_fit {K} (R : list (K * (nat → option Z))) : Prop :=
  ∀ r k, r ∈ R → k < length (aggs ctx) → value_ok (r.2 k).

Lemma values_fit_app {K} (R1 R2 : list (K * (nat → option Z))) : values_fit R1 → values_fit R2 → values_fit (R1 ++ R2).
Proof. intros H1 H2 r k [Hr|Hr]%elem_of_app; [by apply H1|by apply H2]. Qed.

Lemma values_fit_encode (rows : list Row) : values_fit rows → values_fit (encode_row <$> rows).
Proof. intros H r k (row & -> & Hr)%list_elem_of_fmap. by apply (H row). Qed.

Lemma grouped_fit R Q : values_fit R → grouped ctx R Q → values_fit Q.
Proof.
  intros HR (_ & _ & Hv) r k Hr Hk. rewrite (Hv r k Hr Hk). apply merge_all_fits. unfold gvals. apply Forall_fmap, Forall_forall.
  intros r' [_ Hr']%list_elem_of_filter. by apply HR.
Qed.

Lemma contrib_at_fits b css k j : batch_data to_i64 ctx b css → k < length (aggs ctx) → value_ok (contrib_at css k j).
Proof.
  intros (Hl & _ & Hd) Hk. unfold contrib_at.
  destruct (lookup_lt_is_Some_2 (aggs ctx) k Hk) as [e He]. destruct (lookup_lt_is_Some_2 css k) as [cs Hcs]; [lia|].
  rewrite Hcs. specialize (Hd k e cs He Hcs). destruct (cs !! j) as [v|] eqn:Hv; [|done]. cbn [default].
  destruct (is_partial e).
  - destruct Hd as (args & filter & _ & _ & Hargs & _ & _ & ->). apply list_lookup_fmap_Some in Hv as (j' & -> & Hj').
    unfold id. case_match; [|done]. apply contrib_fits. unfold arg_row. apply Forall_fmap. eapply Forall_impl; [exact Hargs|].
    intros arg [_ Ha]. unfold compose. destruct (arg !! j') eqn:E; [|done]. by eapply Forall_lookup_1 in Ha.
  - destruct Hd as (r & col & _ & _ & _ & _ & Hall). eapply Forall_lookup_1 in Hall; [|exact Hv]. apply Hall.
Qed.

Lemma batch_input_fits b rows : batch_input b rows → values_fit rows.
Proof.
  intros (css & groups & Hd & _ & ->) r k Hr Hk. apply list_elem_of_lookup in Hr as [j Hj].
  apply list_lookup_imap_Some in Hj as (g & _ & ->). by eapply contrib_at_fits.
Qed.

(** A batch that is not aggregated: each row is the accumulator of a group of one row. *)
Lemma skipped_ok `{!RowFormat row_encode row_decode (length (groupings ctx))} b rows :
  ctx_ok ctx → batch_input b rows →
  ∃ out Q, process_partial_skipped to_i64 of_i64 ctx b = (out, Ok tt) ∧ rows_of out ≡ₚ out_row <$> Q ∧
    same_groups ctx (encode_row <$> rows) Q ∧ values_fit Q.
Proof.
  clear ratio_exceeds ratio_low. intros Hctx Hin. pose proof (batch_input_width b rows Hin) as Hw.
  pose proof (batch_input_fits b rows Hin) as Hfit.
  destruct Hin as (css & groups & Hb & Hg & Hrows).
  destruct (process_partial_skipped_ok to_i64 of_i64 ctx b css groups Hctx Hb Hg) as (out & He & Hout).
  exists [out], ((λ r : Row, (row_encode r.1, λ k, merge_all (kind_at ctx k) [r.2 k])) <$> rows). split; [done|]. split; [|split].
  - unfold AggTable.rows_of. cbn [fmap list_fmap concat]. rewrite app_nil_r, Hout.
    apply reflexive_eq. rewrite Hrows. apply list_eq. intros i.
    rewrite !list_lookup_fmap, !list_lookup_imap. destruct (groups !! i) as [g|] eqn:Hi; [|done]. cbn. f_equal.
    unfold AggTable.out_row, decode_key. cbn [fst snd]. rewrite row_roundtrip; [done|].
    rewrite Hrows in Hw. apply (Forall_lookup_1 _ _ i (g, λ k, contrib_at css k i)) in Hw; [done|].
    by rewrite list_lookup_imap, Hi.
  - apply same_groups_single. apply Forall2_fmap_l, Forall2_fmap_r, Forall_Forall2_diag, Forall_forall. done.
  - intros r k (row & -> & Hr)%list_elem_of_fmap Hk. apply merge_all_fits, Forall_singleton. by apply Hfit.
Qed.

Lemma hash_step_ok `{!RowFormat row_encode row_decode (length (groupings ctx))} st nb R skip inp b rows :
  ctx_ok ctx → conf_ok conf mem_used → item inp = Ok b → batch_input b rows → state_rel st nb R → keys_good R → values_fit R →
  (Z.of_nat (length R + length rows + nb) < 2 ^ 32)%Z →
  ∃ out st' skip' R' Q, hash_step (st, skip) inp = (out, Ok (st', skip')) ∧ state_rel st' (S nb) R' ∧ keys_good R' ∧
    values_fit R' ∧ values_fit Q ∧
    length R' ≤ length R + length rows ∧ rows_of out ≡ₚ out_row <$> Q ∧
    same_groups ctx (R ++ (encode_row <$> rows)) (Q ++ R') ∧
    (supports_partial_skipping conf = false → skip = false → out = [] ∧ skip' = false ∧ R' = R ++ (encode_row <$> rows)).
Proof.
  intros Hctx Hconf Hb Hin Hst Hgood Hfit Hlen. unfold hash_step. rewrite Hb, lift_bind.
  set (R1 := R ++ (encode_row <$> rows)).
  assert (Hgood1 : keys_good R1).
  { intros key. unfold R1. rewrite fmap_app, elem_of_app. intros [Hk|Hk]; [by apply Hgood|].
    eapply encoded_keys_good; [by eapply batch_input_width|done]. }
  assert (Hfit1 : values_fit R1) by (by eapply values_fit_app, values_fit_encode, batch_input_fits).
  assert (Hlen1 : length R1 = length R + length rows) by (unfold R1; by rewrite length_app, length_fmap).
  destruct skip.
  { destruct (skipped_ok b rows Hctx Hin) as (out & Q & -> & Hout & Hg & HQ). rewrite emit_bind.
    eexists _, st, true, R, Q. split; [done|]. split; [by eapply state_rel_mono; [|exact Hst]; lia|]. split; [done|].
    split; [done|]. split; [done|]. split; [lia|]. split; [by rewrite app_nil_r|].
    split; [unfold R1; by rewrite Hg, (Permutation_app_comm R Q)|done]. }
  destruct (process_input_batch_ok to_i64 of_i64 row_encode row_decode hash_one spilled bucket_hash ctx conf mem_used
    ratio_exceeds ratio_low st nb R b (encode_row <$> rows) (mem_high inp) (must_spill inp))
    as (st' & s & -> & Hst' & Hs); [done|done|done|rewrite length_fmap; lia|done|by apply batch_input_records|].
  rewrite lift_bind. fold R1 in Hst'.
  destruct (table_output_ok of_i64 row_decode hash_one spilled bucket_hash ctx conf mem_used st' (S nb) R1)
    as (out & st2 & Q & Ho & Hst2 & Hg & Hrows); [done|done|done|lia|done|].
  destruct s as [[]|]; [rewrite Ho, emit_bind; eexists _, st2, _, [], Q..|].
  1,2: split; [done|]; split; [done|]; split; [by intros ? ?%elem_of_nil|]; split; [by intros ? ? ?%elem_of_nil|];
    split; [by eapply grouped_fit|]; split; [cbn; lia|]; split; [by rewrite app_nil_r|];
    split; [rewrite app_nil_r; by apply grouped_same|]; intros Hsp _; destruct Hs; congruence.
  eexists [], st', false, R1, []. split; [done|]. split; [exact Hst'|]. split; [done|]. split; [done|].
  split; [by intros ? ? ?%elem_of_nil|]. split; [lia|]. done.
Qed.

Definition inputs (input : list Input) (rowss : list (list Row)) : Prop :=
  Forall2 (λ inp rows, ∃ b, item inp = Ok b ∧ batch_input b rows) input rowss.

Lemma hash_loop_ok `{!RowFormat row_encode row_decode (length (groupings ctx))} input rowss st nb R skip :
  ctx_ok ctx → conf_ok conf mem_used → inputs input rowss → state_rel st nb R → keys_good R → values_fit R →
  (Z.of_nat (length R + length (concat rowss) + (nb + length input)) < 2 ^ 32)%Z →
  ∃ out st' skip' R' Q, emit_foldM hash_step (st, skip) input = (out, Ok (st', skip')) ∧
    state_rel st' (nb + length input) R' ∧ keys_good R' ∧ values_fit R' ∧ values_fit Q ∧ length R' ≤ length R + length (concat rowss) ∧
    rows_of out ≡ₚ out_row <$> Q ∧ same_groups ctx (R ++ (encode_row <$> concat rowss)) (Q ++ R') ∧
    (supports_partial_skipping conf = false → skip = false → out = [] ∧ R' = R ++ (encode_row <$> concat rowss)).
Proof.
  intros Hctx Hconf Hin. revert st nb R skip. induction Hin as [|inp rows input rowss (b & Hb & Hrows) _ IH]; intros st nb R skip Hst Hgood Hfit Hlen.
  { exists [], st, skip, R, []. cbn. rewrite Nat.add_0_r, app_nil_r. split_and!; try done; try lia. by intros ? ? ?%elem_of_nil. }
  cbn [concat length] in *. rewrite length_app in Hlen.
  destruct (hash_step_ok st nb R skip inp b rows) as (out1 & st1 & skip1 & R1 & Q1 & He1 & Hst1 & Hgood1 & Hfit1 & HQ1 & Hl1 & Hout1 & Hg1 & Hno1);
    [done..|lia|].
  cbn [emit_foldM]. rewrite He1, emit_bind.
  destruct (IH st1 (S nb) R1 skip1) as (out2 & st2 & skip2 & R2 & Q2 & He2 & Hst2 & Hgood2 & Hfit2 & HQ2 & Hl2 & Hout2 & Hg2 & Hno2);
    [done|done|done|lia|].
  rewrite He2. cbn [fst snd]. exists (out1 ++ out2), st2, skip2, R2, (Q1 ++ Q2). split; [done|].
  split; [by replace (nb + S (length input)) with (S nb + length input) by lia|]. split; [done|].
  split; [done|]. split; [by apply values_fit_app|].
  split; [rewrite length_app; lia|]. split; [by rewrite rows_of_app, fmap_app, Hout1, Hout2|]. split.
  - rewrite fmap_app, app_assoc, Hg1, <- !app_assoc, Hg2. done.
  - intros Hsp Hsk. destruct (Hno1 Hsp Hsk) as (-> & Hsk1 & ->). destruct (Hno2 Hsp Hsk1) as [-> ->].
    by rewrite fmap_app, app_assoc.
Qed.

(** Hash aggregation in terms of records. *)
Lemma hash_records_ok `{!RowFormat row_encode row_decode (length (groupings ctx))} input rowss :
  ctx_ok ctx → conf_ok conf mem_used → inputs input rowss → (Z.of_nat (length (concat rowss) + length input) < 2 ^ 32)%Z →
  ∃ out Q, execute_agg_with_grouping_hash input = (out, Ok tt) ∧ rows_of out ≡ₚ out_row <$> Q ∧
    same_groups ctx (encode_row <$> concat rowss) Q ∧ values_fit Q ∧
    (supports_partial_skipping conf = false → grouped ctx (encode_row <$> concat rowss) Q).
Proof.
  intros Hctx Hconf Hin Hlen. unfold execute_agg_with_grouping_hash.
  destruct (table_new_ok hash_one spilled bucket_hash ctx) as (st & -> & Hst). rewrite lift_bind.
  destruct (hash_loop_ok input rowss st 0 [] false) as (out1 & st1 & skip1 & R1 & Q1 & -> & Hst1 & Hgood1 & Hfit1 & HQ1 & Hl1 & Hout1 & Hg1 & Hno1);
    [done|done|done|done|by intros ? ?%elem_of_nil|by intros ? ? ?%elem_of_nil|cbn; lia|].
  rewrite emit_bind. cbn [fst snd app length] in *.
  destruct (table_output_ok of_i64 row_decode hash_one spilled bucket_hash ctx conf mem_used st1 (length input) R1)
    as (out2 & st2 & Q2 & -> & _ & Hg2 & Hout2); [done|done|done|lia|done|].
  rewrite emit_bind. cbn [fst snd]. rewrite app_nil_r. exists (out1 ++ out2), (Q1 ++ Q2). split; [done|].
  split; [by rewrite rows_of_app, fmap_app, Hout1, Hout2|]. split; [|split].
  - by rewrite Hg1, (grouped_same _ _ _ Hg2).
  - apply values_fit_app; [done|by apply (grouped_fit R1)].
  - intros Hsp. destruct (Hno1 Hsp eq_refl) as [-> ->]. cbn in Hout1.
    apply Permutation_nil_l in Hout1. symmetry in Hout1. apply fmap_nil_inv in Hout1 as ->. done.
Qed.

(** *** From records to rows *)

Definition row_width (r : Row) : Prop := length r.1 = length (groupings ctx).

Lemma inputs_rows input rowss : inputs input rowss → Forall row_width (concat rowss) ∧ values_fit (concat rowss).
Proof.
  intros H. induction H as [|inp rows input rowss (b & _ & Hb) _ [IHw IHf]]; [split; [done|by intros ? ? ?%elem_of_nil]|].
  cbn [concat]. split.
  - apply Forall_app. split; [|done]. by eapply batch_input_width.
  - apply values_fit_app; [|done]. by eapply batch_input_fits.
Qed.

Section Rows.
Context {RF : RowFormat row_encode row_decode (length (groupings ctx))}.

Lemma decode_encode g : length g = length (groupings ctx) → decode_key row_decode (row_encode g) = g.
Proof using Type RF. intros Hg. unfold decode_key. by rewrite row_roundtrip. Qed.

Lemma gvals_encode rows g k :
  Forall row_width rows → length g = length (groupings ctx) →
  gvals (encode_row <$> rows) (row_encode g) k = (λ r : Row, r.2 k) <$> filter (λ r, r.1 = g) rows.
Proof using Type RF.
  intros Hw Hg. unfold gvals. induction Hw as [|r rows Hr _ IH]; [done|]. rewrite fmap_cons, !filter_cons. cbn [encode_row fst].
  assert (row_encode r.1 = row_encode g ↔ r.1 = g) as Hiff.
  { split; [|by intros ->]. intros E. rewrite <- (decode_encode r.1 Hr), E. by apply decode_encode. }
  destruct (decide (r.1 = g)) as [E|E]; [rewrite decide_True by (by apply Hiff)|rewrite decide_False by (by rewrite Hiff)].
  - by rewrite !fmap_cons, IH.
  - done.
Qed.

(** The value of a group. *)
Lemma gval_sql rows g k :
  Forall row_width rows → values_fit rows → length g = length (groupings ctx) → k < length (aggs ctx) →
  gval ctx (encode_row <$> rows) (row_encode g) k = sql_agg (kind_at ctx k) ((λ r : Row, r.2 k) <$> filter (λ r, r.1 = g) rows).
Proof using Type RF.
  intros Hw Hf Hg Hk. unfold gval. rewrite gvals_encode by done. apply merge_all_sql. apply Forall_fmap, Forall_forall.
  intros r [_ Hr]%list_elem_of_filter. by apply Hf.
Qed.

(** Records with one record per group are the rows of the GROUP BY. *)
Lemma grouped_rows rows Q :
  Forall row_width rows → values_fit rows → grouped ctx (encode_row <$> rows) Q → out_row <$> Q ≡ₚ sql_group_by rows.
Proof using Type RF.
  intros Hw Hf (Hnd & Hk & Hv).
  set (F := λ key, decode_key row_decode key ++
    ((λ k, of_i64 (gval ctx (encode_row <$> rows) key k)) <$> seq 0 (length (aggs ctx)))).
  assert (out_row <$> Q = F <$> Q.*1) as ->.
  { rewrite <- list_fmap_compose. apply list_fmap_ext. intros i r Hr%list_elem_of_lookup_2. unfold AggTable.out_row, F, compose.
    f_equal. apply list_fmap_ext. intros ? k [-> Hkl]%lookup_seq. by rewrite Hv. }
  assert (Hin : ∀ g, g ∈ remove_dups rows.*1 → length g = length (groupings ctx)).
  { intros g. rewrite elem_of_remove_dups. intros (r & -> & Hr)%list_elem_of_fmap. rewrite Forall_forall in Hw. by apply Hw. }
  assert (Hp : Q.*1 ≡ₚ row_encode <$> remove_dups rows.*1).
  { apply NoDup_Permutation; [done| |].
    - apply NoDup_fmap_2_strong; [|apply NoDup_remove_dups]. intros g1 g2 H1 H2 E.
      by rewrite <- (decode_encode g1), E, decode_encode by auto.
    - intros key. rewrite <- Hk, <- list_fmap_compose. unfold compose. cbn [encode_row fst].
      rewrite !list_elem_of_fmap. setoid_rewrite elem_of_remove_dups. split.
      + intros (r & -> & Hr). exists r.1. split; [done|]. apply list_elem_of_fmap. eauto.
      + intros (g & -> & (r & -> & Hr)%list_elem_of_fmap). eauto. }
  rewrite Hp, <- list_fmap_compose. apply reflexive_eq. unfold sql_group_by. apply list_fmap_ext. intros i g Hg%list_elem_of_lookup_2.
  specialize (Hin g Hg). unfold compose, F, agg_row. rewrite decode_encode by done. f_equal. apply list_fmap_ext.
  intros ? k [-> Hkl]%lookup_seq. f_equal. by apply gval_sql.
Qed.

Lemma grouped_exists R : ∃ G, grouped ctx R G.
Proof.
  exists ((λ key, (key, gval ctx R key)) <$> remove_dups R.*1).
  assert (((λ key, (key, gval ctx R key)) <$> remove_dups R.*1).*1 = remove_dups R.*1) as E.
  { rewrite <- list_fmap_compose. apply list_fmap_id. }
  split; [|split]; rewrite ?E.
  - apply NoDup_remove_dups.
  - intros key. by rewrite elem_of_remove_dups.
  - by intros r k (key & -> & _)%list_elem_of_fmap _.
Qed.

Lemma same_groups_rows rows rows' :
  Forall row_width rows → values_fit rows → Forall row_width rows' → values_fit rows' →
  same_groups ctx (encode_row <$> rows) (encode_row <$> rows') → sql_group_by rows ≡ₚ sql_group_by rows'.
Proof using Type RF.
  intros Hw Hf Hw' Hf' Hg. destruct (grouped_exists (encode_row <$> rows')) as [G HG].
  rewrite <- (grouped_rows rows' G), <- (grouped_rows rows G); try done. by eapply grouped_trans.
Qed.

(** Records whose keys are encoded rows are encoded rows. *)
Definition decode_record (q : Record_) : Row := (decode_key row_decode q.1, q.2).

Lemma encode_decode rows Q :
  Forall row_width rows → same_groups ctx (encode_row <$> rows) Q →
  encode_row <$> (decode_record <$> Q) = Q ∧ Forall row_width (decode_record <$> Q).
Proof using Type RF.
  intros Hw [Hk _].
  assert (Hq : ∀ q, q ∈ Q → ∃ g, length g = length (groupings ctx) ∧ q.1 = row_encode g).
  { intros q Hq. assert (q.1 ∈ Q.*1) as Hin by (apply list_elem_of_fmap; eauto). apply Hk in Hin.
    rewrite <- list_fmap_compose in Hin. apply list_elem_of_fmap in Hin as (r & E & Hr). exists r.1.
    rewrite Forall_forall in Hw. split; [by apply Hw|exact E]. }
  split.
  - rewrite <- list_fmap_compose. rewrite <- (list_fmap_id Q) at 2. apply list_fmap_ext. intros i q Hi%list_elem_of_lookup_2.
    destruct (Hq q Hi) as (g & Hg & E). unfold compose, encode_row, decode_record. cbn [fst snd].
    destruct q as [key vs]. cbn [fst snd] in *. by rewrite E, decode_encode.
  - apply Forall_fmap, Forall_forall. intros q Hi. destruct (Hq q Hi) as (g & Hg & E). unfold compose, row_width, decode_record. cbn [fst].
    by rewrite E, decode_encode.
Qed.

(** *** The output rows as partial states *)

(** The output row of a state: the grouping values, then the accumulators. *)
Definition state_row (r : Row) : list V := r.1 ++ ((λ k, of_i64 (r.2 k)) <$> seq 0 (length (aggs ctx))).

(** Hash aggregation, with or without skipping: the output is a list of partial states
    that have the groups of the input. *)
Lemma hash_states_ok input rowss :
  ctx_ok ctx → conf_ok conf mem_used → inputs input rowss → (Z.of_nat (length (concat rowss) + length input) < 2 ^ 32)%Z →
  ∃ out Q, execute_agg_with_grouping_hash input = (out, Ok tt) ∧ rows_of out ≡ₚ state_row <$> Q ∧
    Forall row_width Q ∧ values_fit Q ∧ same_groups ctx (encode_row <$> concat rowss) (encode_row <$> Q) ∧
    (supports_partial_skipping conf = false → rows_of out ≡ₚ sql_group_by (concat rowss)).
Proof using Type RF.
  intros Hctx Hconf Hin Hlen. destruct (inputs_rows input rowss Hin) as [Hw Hf].
  destruct (hash_records_ok input rowss) as (out & Q & He & Hout & Hg & HQ & Hgr); [done..|].
  destruct (encode_decode _ Q Hw Hg) as [E HwQ]. exists out, (decode_record <$> Q). split; [done|].
  split; [rewrite Hout, <- list_fmap_compose; done|]. split; [done|].
  split; [|split; [by rewrite E|intros Hsp; rewrite Hout; by apply grouped_rows, Hgr]].
  intros r k (q & -> & Hq)%list_elem_of_fmap. by apply HQ.
Qed.

(** C6: hash aggregation without partial skipping terminates without failing and sends
    exactly one row per group, with the SQL value of every sum, count, max and min over
    the rows of the group, whenever the table spills and whether the spilled data was
    hashed or unmerged. *)
Theorem hash_agg_correct gs es input rowss :
  agg_ctx_try_new gs es = Ok ctx → conf_ok conf mem_used → inputs input rowss →
  (Z.of_nat (length (concat rowss) + length input) < 2 ^ 32)%Z → supports_partial_skipping conf = false →
  ∃ out, execute_agg_with_grouping_hash input = (out, Ok tt) ∧ rows_of out ≡ₚ sql_group_by (concat rowss).
Proof using Type RF.
  intros [Hctx _]%agg_ctx_try_new_ok Hconf Hin Hlen Hsp.
  destruct (hash_states_ok input rowss) as (out & Q & He & _ & _ & _ & _ & Hout); [done..|]. eauto.
Qed.

(** C11: with partial skipping, triggered by the number of groups, by memory or by a
    refused spill, the output rows are partial states whose groups and aggregates are
    those of the input rows. *)
Theorem partial_agg_keeps_groups gs es input rowss :
  agg_ctx_try_new gs es = Ok ctx → conf_ok conf mem_used → inputs input rowss →
  (Z.of_nat (length (concat rowss) + length input) < 2 ^ 32)%Z →
  ∃ out Q, execute_agg_with_grouping_hash input = (out, Ok tt) ∧ rows_of out ≡ₚ state_row <$> Q ∧
    sql_group_by Q ≡ₚ sql_group_by (concat rowss).
Proof using Type RF.
  intros [Hctx _]%agg_ctx_try_new_ok Hconf Hin Hlen. destruct (inputs_rows input rowss Hin) as [Hw Hf].
  destruct (hash_states_ok input rowss) as (out & Q & He & Hout & HwQ & HfQ & Hg & _); [done..|].
  exists out, Q. split; [done|]. split; [done|]. by apply same_groups_rows.
Qed.
End Rows.

(** *** No grouping *)

Lemma picks_single n : picks (idx_zipped (Single 0) (Range 0 n)) 0 = seq 0 n.
Proof.
  rewrite zipped_range by done. unfold picks, range. rewrite Nat.sub_0_r. cbn [acc_at].
  generalize (seq 0 n). intros l. induction l as [|i l IH]; [done|].
  rewrite fmap_cons, filter_cons, decide_True by done. rewrite fmap_cons. by rewrite IH.
Qed.

Lemma no_grouping_loop input rowss t (R : list Row) :
  ctx_ok ctx → Forall2 (λ item rows, ∃ b, item = Ok b ∧ ungrouped_input b rows) input rowss →
  table_ok ctx t → covers t 1 →
  (∀ k, k < length (aggs ctx) → tslot ctx t k 0 = merge_all (kind_at ctx k) ((λ r : Row, r.2 k) <$> R)) →
  ∃ t', emit_foldM (λ acc_table item, batch ← lift item;
      lift (update_batch_to_acc_table to_i64 ctx batch acc_table (Single 0))) t input = (([], Ok t') : Emit Batch AccTable) ∧
    table_ok ctx t' ∧ covers t' 1 ∧
    ∀ k, k < length (aggs ctx) → tslot ctx t' k 0 = merge_all (kind_at ctx k) ((λ r : Row, r.2 k) <$> (R ++ concat rowss)).
Proof.
  intros Hctx Hin. revert t R. induction Hin as [|item rows input rowss (b & -> & css & Hb & ->) _ IH]; intros t R Ht Hcov Hs.
  { exists t. cbn [concat]. rewrite app_nil_r. done. }
  cbn [emit_foldM]. rewrite lift_bind.
  destruct (update_batch_ok to_i64 ctx b css t (Single 0) 1 Hctx Hb Ht) as (t1 & -> & Ht1 & Hcov1 & _ & Hs1); [done|done|].
  rewrite lift_bind. cbn [concat]. rewrite app_assoc. apply IH; [done|done|].
  intros k Hk. rewrite Hs1, Hs, picks_single by done. rewrite fmap_app. unfold merge_all. rewrite foldl_app. f_equal.
  by rewrite <- list_fmap_compose.
Qed.

(** Aggregation without grouping sends one row with the SQL value of every aggregate
    over all input rows, also for an empty input. *)
Theorem no_grouping_agg_correct es input rowss :
  agg_ctx_try_new [] es = Ok ctx →
  Forall2 (λ item rows, ∃ b, item = Ok b ∧ ungrouped_input b rows) input rowss →
  ∃ out, execute_agg_no_grouping input = ([out], Ok tt) ∧ batch_rows null out = [agg_row (concat rowss)].
Proof.
  intros (Hctx & Hgs & _)%agg_ctx_try_new_ok Hin. unfold execute_agg_no_grouping.
  rewrite create_acc_table_ok, lift_bind. destruct (create_table_ok ctx 1) as (Ht & Hcov & Hs).
  destruct (no_grouping_loop input rowss _ [] Hctx Hin Ht Hcov) as (t & -> & Ht' & Hcov' & Hs').
  { intros k Hk. by rewrite Hs. }
  rewrite emit_bind. cbn [app] in *. rewrite build_agg_columns_ok by (done || by apply Forall_singleton).
  rewrite lift_bind. unfold try_new_batch. rewrite decide_True.
  2:{ split.
      - unfold to_columns. rewrite !length_fmap, length_seq. destruct Hctx as [_ _ _ _ _ -> _ _]. by rewrite Hgs.
      - unfold to_columns. apply Forall_fmap, Forall_fmap, Forall_forall. intros k _. done. }
  rewrite lift_bind. eexists. split; [done|]. apply batch_rows_ok; [done|]. intros i r Hr.
  apply list_lookup_singleton_Some in Hr as [-> <-]. change (idx_iter (Single 0)) with (range 0 1).
  rewrite (row_at_values of_i64 ctx t 0 1 0) by lia. unfold value_row, agg_row. apply list_fmap_ext.
  intros ? k [-> Hk]%lookup_seq. cbn [plus]. f_equal. rewrite Hs' by done. apply merge_all_sql. apply Forall_fmap, Forall_forall.
  intros row Hrow. apply list_elem_of_In, in_concat in Hrow as (rows & Hrows & Hrow).
  apply list_elem_of_In in Hrows, Hrow. apply list_elem_of_lookup in Hrows as [m Hm].
  destruct (Forall2_lookup_r _ _ _ _ _ Hin Hm) as (item & _ & b & _ & css & Hb & ->).
  apply list_elem_of_fmap in Hrow as (j & -> & _). by eapply contrib_at_fits.
Qed.

End AggExec.

(** ** Partial and final aggregation *)

Section TwoPhase.
Context {V : Type} `{EqDecision V} (to_i64 : V → option Z) (of_i64 : option Z → V).
Context (row_encode : list V → bytes) (row_decode : bytes → Result (list V)).
Context (hash_one : bytes → Z) (spilled : bytes → bool) (bucket_hash : bytes → Z).
Context (ctxP ctxF : @AggContext V) (confP confF : AggConf).
Context (mem_used : InMemData → nat) (ratio_exceeds ratio_low : nat → nat → bool).

Local Abbreviation Batch := (RecordBatch (V:=V)).
Local Abbreviation Row := (list V * (nat → option Z))%type.
Local Abbreviation execute ctx conf :=
  (execute_agg_with_grouping_hash to_i64 of_i64 row_encode row_decode hash_one spilled bucket_hash ctx conf mem_used
     ratio_exceeds ratio_low).
Local Abbreviation enc rows := (encode_row row_encode <$> (rows : list Row)).

(** The two stages have the same aggregate functions. *)
Definition same_aggs : Prop :=
  agg <$> aggs ctxP = agg <$> aggs ctxF ∧ length (groupings ctxP) = length (groupings ctxF).

Lemma same_aggs_kind : same_aggs → length (aggs ctxP) = length (aggs ctxF) ∧ ∀ k, kind_at ctxP k = kind_at ctxF k.
Proof.
  intros [Ha _]. split.
  - apply (f_equal length) in Ha. by rewrite !length_fmap in Ha.
  - intros k. apply (f_equal (lookup k)) in Ha. rewrite !list_lookup_fmap in Ha. unfold kind_at.
    destruct (aggs ctxP !! k), (aggs ctxF !! k); cbn in Ha; congruence.
Qed.

Lemma same_groups_stage P Q : same_aggs → same_groups ctxP P Q → same_groups ctxF P Q.
Proof.
  intros [Hl Hk]%same_aggs_kind [Hkeys Hv]. split; [done|]. intros key k Hlt. specialize (Hv key k ltac:(lia)).
  unfold gval in *. by rewrite <- Hk.
Qed.

Lemma filter_groups (f : bytes → bool) P Q :
  same_groups ctxF P Q → same_groups ctxF (filter (λ r, f r.1 = true) P) (filter (λ r, f r.1 = true) Q).
Proof.
  assert (Hg : ∀ R key k, gvals (filter (λ r, f r.1 = true) R) key k = if f key then gvals R key k else []).
  { intros R key k. unfold gvals. induction R as [|r R IH]; [by destruct (f key)|]. rewrite !filter_cons.
    destruct (decide (f r.1 = true)) as [Hf|Hf]; rewrite ?filter_cons; destruct (decide (r.1 = key)) as [<-|Hne]; rewrite ?fmap_cons, ?IH.
    - by rewrite Hf.
    - done.
    - by apply not_true_is_false in Hf as ->.
    - done. }
  assert (Hin : ∀ (R : list Record_) key, key ∈ (filter (λ r, f r.1 = true) R).*1 ↔ f key = true ∧ key ∈ R.*1).
  { intros R key. rewrite !list_elem_of_fmap. setoid_rewrite list_elem_of_filter. split.
    - intros (r & -> & Hf & Hr). eauto.
    - intros (Hf & r & -> & Hr). eauto. }
  intros [Hk Hv]. split.
  - intros key. by rewrite !Hin, Hk.
  - intros key k Hlt. unfold gval. rewrite !Hg. specialize (Hv key k Hlt). unfold gval in Hv. by destruct (f key).
Qed.

(** Rows that print alike are alike. *)
Lemma state_row_inj (r r' : Row) :
  (∀ v, value_ok v → to_i64 (of_i64 v) = v) → length r.1 = length r'.1 →
  (∀ k, k < length (aggs ctxF) → value_ok (r.2 k) ∧ value_ok (r'.2 k)) → state_row of_i64 ctxF r = state_row of_i64 ctxF r' →
  r.1 = r'.1 ∧ ∀ k, k < length (aggs ctxF) → r.2 k = r'.2 k.
Proof.
  intros Hto Hl Hv E. apply app_inj_1 in E as [E1 E2]; [|done]. split; [done|]. intros k Hk.
  apply (f_equal (lookup k)) in E2. rewrite !list_lookup_fmap, lookup_seq_lt in E2 by done. cbn in E2.
  injection E2 as E2. destruct (Hv k Hk) as [H1 H2]. rewrite <- (Hto _ H1), <- (Hto _ H2). by rewrite E2.
Qed.

Lemma same_groups_agree P Q :
  Forall2 (λ r r' : Record_, r.1 = r'.1 ∧ ∀ k, k < length (aggs ctxF) → r.2 k = r'.2 k) P Q → same_groups ctxF P Q.
Proof.
  intros H. split.
  - intros key. assert (P.*1 = Q.*1) as ->; [|done]. induction H as [|r r' P Q [E _] _ IH]; [done|]. cbn. by rewrite E, IH.
  - intros key k Hk. unfold gval. f_equal. unfold gvals. induction H as [|r r' P Q [E Ek] _ IH]; [done|].
    rewrite !filter_cons, <- E. case_decide; [|done]. rewrite !fmap_cons, (Ek k Hk). by f_equal.
Qed.

(** Rows with the same printed rows have the same groups. *)
Lemma state_rows_groups (rows Q : list Row) :
  (∀ v, value_ok v → to_i64 (of_i64 v) = v) → Forall (row_width ctxF) rows → Forall (row_width ctxF) Q →
  values_fit ctxF rows → values_fit ctxF Q → state_row of_i64 ctxF <$> rows ≡ₚ state_row of_i64 ctxF <$> Q →
  same_groups ctxF (enc rows) (enc Q).
Proof.
  intros Hto Hwr HwQ Hfr HfQ Hp. apply Permutation_map_inv in Hp as (rows' & E & Hp).
  trans (enc rows'); [|apply same_groups_perm; by rewrite Hp].
  apply same_groups_agree, Forall2_fmap_l, Forall2_fmap_r, Forall2_same_length_lookup_2.
  { apply (f_equal length) in E. rewrite !length_map in E. done. }
  intros i r r' Hr Hr'. apply (f_equal (lookup i)) in E. unfold fmap in E. rewrite !list_lookup_fmap, Hr, Hr' in E. cbn in E. injection E as E.
  assert (Hr'Q : r' ∈ Q) by (rewrite Hp; by eapply list_elem_of_lookup_2). apply list_elem_of_lookup_2 in Hr.
  rewrite Forall_forall in Hwr, HwQ. destruct (state_row_inj r r') as [E1 E2]; [done| |by auto|done|].
  - pose proof (Hwr r Hr) as H1. pose proof (HwQ r' Hr'Q) as H2. unfold row_width in *. congruence.
  - split; [unfold encode_row; cbn [fst]; by f_equal|exact E2].
Qed.

Lemma filter_state_rows (part : list V → bool) (Q : list Row) :
  Forall (row_width ctxF) Q →
  filter (λ row, part (take (length (groupings ctxF)) row) = true) (state_row of_i64 ctxF <$> Q)
  = state_row of_i64 ctxF <$> filter (λ r, part r.1 = true) Q.
Proof.
  intros Hw. induction Hw as [|r Q Hr _ IH]; [done|]. rewrite fmap_cons, !filter_cons.
  assert (take (length (groupings ctxF)) (state_row of_i64 ctxF r) = r.1) as ->.
  { unfold state_row. rewrite <- Hr. apply take_app_length. }
  destruct (decide (part r.1 = true)); [by rewrite fmap_cons, IH|done].
Qed.

Lemma filter_width (part : list V → bool) (Q : list Row) :
  Forall (row_width ctxF) Q → values_fit ctxF Q →
  Forall (row_width ctxF) (filter (λ r, part r.1 = true) Q) ∧ values_fit ctxF (filter (λ r, part r.1 = true) Q).
Proof.
  intros Hw Hf. split; [rewrite Forall_forall in *; intros r [_ Hr]%list_elem_of_filter; by apply Hw|]. intros r k [_ Hr]%list_elem_of_filter. by apply Hf.
Qed.

Section Stages.
Context {RF : RowFormat row_encode row_decode (length (groupings ctxF))}.

Lemma filter_encoded (part : list V → bool) (rows : list Row) :
  Forall (row_width ctxF) rows →
  enc (filter (λ r, part r.1 = true) rows) = filter (λ r, part (decode_key row_decode r.1) = true) (enc rows).
Proof using Type RF.
  intros Hw. induction Hw as [|r rows Hr _ IH]; [done|]. rewrite fmap_cons, !filter_cons. cbn [encode_row fst].
  rewrite (decode_encode row_encode row_decode ctxF) by done. destruct (decide (part r.1 = true)); [by rewrite fmap_cons, IH|done].
Qed.

(** The partial stage: the states of all tasks have the groups of all rows. *)
Lemma partial_stage_ok tasks rowsss :
  ctx_ok ctxP → same_aggs → conf_ok confP mem_used → Forall2 (inputs to_i64 of_i64 ctxP) tasks rowsss →
  Forall2 (λ input rowss, Z.of_nat (length (concat rowss) + length input) < 2 ^ 32)%Z tasks rowsss →
  ∃ outs Q, Forall2 (λ input out, execute ctxP confP input = (out, Ok tt)) tasks outs ∧
    concat (rows_of of_i64 <$> outs) ≡ₚ state_row of_i64 ctxF <$> Q ∧ Forall (row_width ctxF) Q ∧ values_fit ctxF Q ∧
    same_groups ctxF (enc (concat (concat rowsss))) (enc Q) ∧
    Forall (row_width ctxF) (concat (concat rowsss)) ∧ values_fit ctxF (concat (concat rowsss)).
Proof using Type EqDecision0 RF.
  intros Hctx Hsame Hconf Hin Hlen. pose proof (same_aggs_kind Hsame) as [Hal _]. pose proof Hsame as [_ Hgl].
  assert (Hfit : ∀ R : list Row, values_fit ctxP R → values_fit ctxF R) by (intros R HR r k Hr Hk; apply HR; [done|lia]).
  assert (Hwid : ∀ R : list Row, Forall (row_width ctxP) R → Forall (row_width ctxF) R).
  { intros R HR. eapply Forall_impl; [exact HR|]. intros r. unfold row_width. by rewrite Hgl. }
  induction Hin as [|input rowss tasks rowsss Hin _ IH].
  { exists [], []. split; [done|]. split; [done|]. split; [done|]. split; [by intros ? ? ?%elem_of_nil|].
    split; [done|]. split; [done|]. by intros ? ? ?%elem_of_nil. }
  apply Forall2_cons in Hlen as [Hl Hlen]. destruct (IH Hlen) as (outs & Q & Houts & Hp & HwQ & HfQ & Hg & Hw & Hf).
  rewrite <- Hgl in RF.
  destruct (hash_states_ok to_i64 of_i64 row_encode row_decode hash_one spilled bucket_hash ctxP confP mem_used ratio_exceeds ratio_low
    input rowss) as (out & Q1 & He & Hp1 & Hw1 & Hf1 & Hg1 & _); [done..|].
  destruct (inputs_rows to_i64 of_i64 ctxP input rowss Hin) as [Hwi Hfi].
  exists (out :: outs), (Q1 ++ Q). split; [by constructor|]. rewrite fmap_cons. cbn [concat]. rewrite concat_app. split.
  { rewrite fmap_app, Hp, Hp1. apply reflexive_eq. f_equal. apply list_fmap_ext. intros. unfold state_row. by rewrite Hal. }
  split; [apply Forall_app; auto|]. split; [apply values_fit_app; auto|].
  split; [rewrite !fmap_app, Hg; by rewrite (same_groups_stage _ _ Hsame Hg1)|].
  split; [apply Forall_app; auto|]. apply values_fit_app; auto.
Qed.

(** C1: partial aggregation of any tasks followed by a final stage computes GROUP BY:
    when the final stage reads the output rows of all tasks (or those of one shuffle
    partition, chosen by the grouping values) in any order and any batches, its output
    is one row per group of the original input rows with the SQL value of every
    aggregate, for any spilling and any partial skipping in the first stage. *)
Theorem two_phase_agg_correct gsP esP gsF esF tasks rowsss :
  agg_ctx_try_new gsP esP = Ok ctxP → agg_ctx_try_new gsF esF = Ok ctxF → same_aggs →
  (∀ v, value_ok v → to_i64 (of_i64 v) = v) →
  conf_ok confP mem_used → conf_ok confF mem_used → supports_partial_skipping confF = false →
  Forall2 (inputs to_i64 of_i64 ctxP) tasks rowsss →
  Forall2 (λ input rowss, Z.of_nat (length (concat rowss) + length input) < 2 ^ 32)%Z tasks rowsss →
  ∃ outs, Forall2 (λ input out, execute ctxP confP input = (out, Ok tt)) tasks outs ∧
    ∀ (part : list V → bool) input rowss, inputs to_i64 of_i64 ctxF input rowss →
      (Z.of_nat (length (concat rowss) + length input) < 2 ^ 32)%Z →
      state_row of_i64 ctxF <$> concat rowss
        ≡ₚ filter (λ row, part (take (length (groupings ctxF)) row) = true) (concat (rows_of of_i64 <$> outs)) →
      ∃ out, execute ctxF confF input = (out, Ok tt) ∧
        rows_of of_i64 out ≡ₚ sql_group_by of_i64 ctxF (filter (λ r, part r.1 = true) (concat (concat rowsss))).
Proof using Type RF.
  intros [HctxP _]%agg_ctx_try_new_ok [HctxF _]%agg_ctx_try_new_ok Hsame Hto HcP HcF Hsp Htasks Hlens.
  destruct (partial_stage_ok tasks rowsss) as (outs & Q & Houts & Hp & HwQ & HfQ & Hg & Hw & Hf); [done..|].
  exists outs. split; [done|]. intros part input rowss Hin Hlen Hrows. rewrite Hp, filter_state_rows in Hrows by done.
  destruct (inputs_rows to_i64 of_i64 ctxF input rowss Hin) as [Hwi Hfi].
  destruct (filter_width part Q HwQ HfQ) as [HwQ' HfQ']. destruct (filter_width part _ Hw Hf) as [Hw' Hf'].
  destruct (hash_states_ok to_i64 of_i64 row_encode row_decode hash_one spilled bucket_hash ctxF confF mem_used ratio_exceeds ratio_low
    input rowss) as (out & _ & He & _ & _ & _ & _ & Hout); [done..|].
  exists out. split; [done|]. rewrite (Hout Hsp). apply (same_groups_rows of_i64 row_encode row_decode ctxF); [done..|].
  rewrite (state_rows_groups _ (filter (λ r, part r.1 = true) Q)) by done.
  rewrite !filter_encoded by done. symmetry. by apply (filter_groups (λ key, part (decode_key row_decode key))).
Qed.
End Stages.
End TwoPhase.

(** ** Sample *)

Module AggSample.

Local Abbreviation V := (option Z).
Local Abbreviation Batch := (RecordBatch (V:=V)).

(** A row format: a tag and the value of each column. *)
Definition encode (g : list V) : bytes := concat ((λ v, match v with Some z => [1; z] | None => [0] end%Z) <$> g).
Fixpoint decode (key : bytes) : Result (list V) :=
  match key with
  | [] => Ok []
  | 0%Z :: key => g ← decode key; Ok (None :: g)
  | 1%Z :: z :: key => g ← decode key; Ok (Some z :: g)
  | _ => Err (Execution "bad row")
  end.

#[export] Instance encode_format : RowFormat encode decode 1.
Proof.
  split; intros g Hg; (destruct g as [|[z|] [|? ?]]; try discriminate Hg); unfold key_ok; cbn; (done || lia).
Defined.

Definition hash (key : bytes) : Z := foldr (λ z h, 31 * h + z)%Z 7%Z key.
Definition col (k : nat) (b : Batch) : Result (list V) := index (columns b) k.

Definition conf : AggConf := mkConf 2 1000 1000 false 0 false false.
(** A configuration with partial skipping after two records. *)
Definition skipping : AggConf := mkConf 2 1000 1000 true 2 false false.

Definition partial_aggs : list (@AggExpr V) := [mkAggExpr Partial Sum [col 1] None; mkAggExpr Partial Count [col 1] None].
Definition final_aggs : list (@AggExpr V) := [mkAggExpr Final Sum [] None; mkAggExpr Final Count [] None].
Definition partial_ctx : @AggContext V :=
  mkAggContext true false false [(0, Sum); (1, Count)] [] [col 0] partial_aggs 0 3.
Definition final_ctx : @AggContext V :=
  mkAggContext false true true [] [(0, Sum); (1, Count)] [col 0] final_aggs 2 3.

Definition run ctx conf input :=
  execute_agg_with_grouping_hash id id encode decode hash (λ _, false) hash ctx conf (λ _, 0) (λ r n, bool_decide (n ≤ r * 2)) (λ _ _, true) input.

Definition batch1 : Batch := mkBatch 4 [[Some 1; None; Some 1; Some 2]; [Some 10; Some 5; Some 30; None]]%Z.
Definition batch2 : Batch := mkBatch 3 [[Some 2; None; Some 3]; [None; Some 7; Some 9]]%Z.

(** The rows of a batch of a grouping column and an argument column. *)
Definition count_of (v : V) : option Z := Some (if v then 1 else 0)%Z.
Definition rows_in (g : list V) (css : list (list V)) : list (list V * (nat → option Z)) :=
  imap (λ j g, (g, λ k, contrib_at css k j)) ((λ v, [v]) <$> g).

Lemma one_group ctx g (rest : list (list V)) :
  groupings ctx = [col 0] → group_data id ctx (mkBatch (length g) (g :: rest)) ((λ v, [v]) <$> g).
Proof.
  intros Hg. exists [g]. rewrite Hg. split; [done|]. split; [done|]. split; [by constructor|].
  apply list_eq. intros i. rewrite !list_lookup_fmap. cbn [num_rows]. destruct (g !! i) as [x|] eqn:E.
  - rewrite lookup_seq_lt by (by eapply lookup_lt_Some). cbn. by erewrite nth_lookup_Some.
  - apply lookup_ge_None_1 in E. by rewrite lookup_ge_None_2 by (rewrite length_seq; lia).
Qed.

Lemma partial_input g v :
  length g = length v → Forall value_ok v →
  batch_input id id partial_ctx (mkBatch (length g) [g; v]) (rows_in g [v; count_of <$> v]).
Proof.
  intros Hl Hv. exists [v; count_of <$> v], ((λ v, [v]) <$> g). split; [|split; [by apply one_group|done]].
  split; [done|]. split; [cbn; lia|]. intros k e cs He Hcs.
  assert (Harg : Forall (λ arg, length arg = length g ∧ Forall value_ok arg) [v]) by (by constructor).
  assert (Hseq : ∀ i, v !! i = None → seq 0 (length g) !! i = None).
  { intros i Hi%lookup_ge_None_1. apply lookup_ge_None_2. rewrite length_seq. lia. }
  destruct k as [|[|k]]; [| |done]; injection He as <-; injection Hcs as <-; cbn [is_partial]; exists [v], None;
    (split; [done|]); (split; [done|]); (split; [done|]); (split; [by right|]); (split; [done|]);
    apply list_eq; intros i; rewrite !list_lookup_fmap; cbn [num_rows];
    (destruct (v !! i) as [x|] eqn:E; [|by rewrite Hseq]);
    (rewrite lookup_seq_lt by (rewrite Hl; by eapply lookup_lt_Some)); cbn; rewrite E; [done|].
  cbn. unfold count_of. f_equal. destruct x; [by rewrite decide_True by (by constructor)|].
  rewrite decide_False; [done|]. by intros [[]%is_Some_None _]%Forall_cons.
Qed.

Lemma final_input g ss cs :
  length ss = length g → length cs = length g → Forall value_ok ss → Forall (λ c, value_ok c ∧ is_Some c) cs →
  batch_input id id final_ctx (mkBatch (length g) [g; ss; cs]) (rows_in g [ss; cs]).
Proof.
  intros Hg Hc Hss Hcs. exists [ss; cs], ((λ v, [v]) <$> g). split; [|split; [by apply one_group|done]].
  split; [done|]. split; [cbn; lia|]. intros k e c He Hk.
  destruct k as [|[|k]]; [| |done]; injection He as <-; injection Hk as <-; cbn [is_partial].
  - exists 0, ss. split; [done|]. split; [done|]. split; [done|]. split; [by rewrite list_fmap_id|].
    eapply Forall_impl; [exact Hss|]. done.
  - exists 1, cs. split; [done|]. split; [done|]. split; [done|]. split; [by rewrite list_fmap_id|].
    eapply Forall_impl; [exact Hcs|]. by intros c [? ?].
Qed.

(** Two batches; the table spills after the first one. *)
Definition g1 : list V := [Some 1; None; Some 1; Some 2]%Z.
Definition v1 : list V := [Some 10; Some 5; Some 30; None]%Z.
Definition g2 : list V := [Some 2; None; Some 3]%Z.
Definition v2 : list V := [None; Some 7; Some 9]%Z.
Definition batches : list (@Input V) :=
  [mkInput (Ok (mkBatch 4 [g1; v1])) false true; mkInput (Ok (mkBatch 3 [g2; v2])) false false].
Definition batch_rows12 : list (list (list V * (nat → option Z))) :=
  [rows_in g1 [v1; count_of <$> v1]; rows_in g2 [v2; count_of <$> v2]].

Ltac small_values := repeat apply Forall_cons_2; try apply Forall_nil_2; intros ? [=]; subst; unfold in_s; lia.

Lemma batches_ok : inputs id id partial_ctx batches batch_rows12.
Proof.
  constructor; [eexists; split; [done|apply (partial_input g1 v1); [done|unfold v1; small_values]]|].
  constructor; [eexists; split; [done|apply (partial_input g2 v2); [done|unfold v2; small_values]]|constructor].
Qed.

Lemma conf_fine c : 0 < batch_size c → suggested_batch_mem_size c = 1000 → conf_ok c (λ _, 0).
Proof. intros Hb Hs. split; [done|]. rewrite Hs. split; [lia|done]. Qed.

(** One row per group, in the order of the buckets. *)
Example spilled_run :
  (let r := run partial_ctx conf batches in (rows_of id r.1, r.2))
  = ([[Some 3; Some 9; Some 1]; [Some 2; None; Some 0]; [Some 1; Some 40; Some 2]; [None; Some 12; Some 2]]%Z, Ok tt).
Proof. vm_compute. reflexivity. Qed.

Lemma hash_agg_correct_witness :
  ∃ out, run partial_ctx conf batches = (out, Ok tt) ∧
    rows_of id out ≡ₚ [[Some 1; Some 40; Some 2]; [Some 2; None; Some 0]; [None; Some 12; Some 2]; [Some 3; Some 9; Some 1]]%Z.
Proof.
  destruct (hash_agg_correct id id encode decode hash (λ _, false) hash partial_ctx conf (λ _, 0)
    (λ r n, bool_decide (n ≤ r * 2)) (λ _ _, true) [col 0] partial_aggs batches batch_rows12) as (out & He & Hp).
  - reflexivity.
  - apply conf_fine; [cbn; lia|reflexivity].
  - exact batches_ok.
  - vm_compute. reflexivity.
  - reflexivity.
  - exists out. split; [exact He|]. rewrite Hp. vm_compute. reflexivity.
Defined.

(** With skipping the second batch is passed on row by row: groups 2 and null occur twice. *)
Example skipping_run :
  (let r := run partial_ctx skipping batches in (rows_of id r.1, r.2))
  = ([[Some 1; Some 40; Some 2]; [None; Some 5; Some 1]; [Some 2; None; Some 0]; [Some 2; None; Some 0];
      [None; Some 7; Some 1]; [Some 3; Some 9; Some 1]]%Z, Ok tt).
Proof. vm_compute. reflexivity. Qed.

Lemma partial_agg_keeps_groups_witness :
  ∃ out Q, run partial_ctx skipping batches = (out, Ok tt) ∧ rows_of id out ≡ₚ state_row id partial_ctx <$> Q ∧
    sql_group_by id partial_ctx Q ≡ₚ
      [[Some 1; Some 40; Some 2]; [Some 2; None; Some 0]; [None; Some 12; Some 2]; [Some 3; Some 9; Some 1]]%Z.
Proof.
  destruct (partial_agg_keeps_groups id id encode decode hash (λ _, false) hash partial_ctx skipping (λ _, 0)
    (λ r n, bool_decide (n ≤ r * 2)) (λ _ _, true) [col 0] partial_aggs batches batch_rows12) as (out & Q & He & Hp & Hg).
  - reflexivity.
  - apply conf_fine; [cbn; lia|reflexivity].
  - exact batches_ok.
  - vm_compute. reflexivity.
  - exists out, Q. split; [exact He|]. split; [exact Hp|]. rewrite Hg. vm_compute. reflexivity.
Defined.

Definition no_group_ctx : @AggContext V := mkAggContext true false false [(0, Max)] [] [] [mkAggExpr Partial Max [col 0] None] 0 1.

Lemma no_grouping_agg_correct_witness :
  ∃ out, execute_agg_no_grouping id id no_group_ctx [Ok (mkBatch 3 [v2]); Ok (mkBatch 0 [[]])] = ([out], Ok tt) ∧
    batch_rows None out = [[Some 9]]%Z.
Proof.
  destruct (no_grouping_agg_correct id id no_group_ctx [mkAggExpr Partial Max [col 0] None]
    [Ok (mkBatch 3 [v2]); Ok (mkBatch 0 [[]])]
    [(λ j, ([], λ k, contrib_at [v2] k j)) <$> seq 0 3; []]) as (out & He & Hp).
  - reflexivity.
  - constructor; [|constructor; [|constructor]]; eexists; (split; [reflexivity|]); [exists [v2]|exists [[]]];
      (split; [|reflexivity]); (split; [reflexivity|]); (split; [cbn; lia|]); intros [|k] e cs [= <-] [= <-];
      cbn [is_partial]; [exists [v2], None|exists [[]], None]; (split; [reflexivity|]); (split; [reflexivity|]);
      (split; [|split; [by right|split; [done|reflexivity]]]).
    + apply Forall_singleton. split; [reflexivity|]. unfold v2. small_values.
    + apply Forall_singleton. split; [reflexivity|]. constructor.
  - exists out. split; [exact He|]. etransitivity; [exact Hp|]. vm_compute. reflexivity.
Defined.

(** Two partial tasks with skipping, and a final stage that reads all their rows. *)
Definition task1 : list (@Input V) := [mkInput (Ok (mkBatch 4 [g1; v1])) false false].
Definition task2 : list (@Input V) := [mkInput (Ok (mkBatch 3 [g2; v2])) false false].
Definition gs : list V := [Some 1; None; Some 2; Some 2; None; Some 3]%Z.
Definition sums : list V := [Some 40; Some 5; None; None; Some 7; Some 9]%Z.
Definition counts : list V := [Some 2; Some 1; Some 0; Some 0; Some 1; Some 1]%Z.
Definition final_batches : list (@Input V) := [mkInput (Ok (mkBatch 6 [gs; sums; counts])) false true].

Lemma two_phase_agg_correct_witness :
  ∃ out, run final_ctx conf final_batches = (out, Ok tt) ∧
    rows_of id out ≡ₚ [[Some 1; Some 40; Some 2]; [Some 2; None; Some 0]; [None; Some 12; Some 2]; [Some 3; Some 9; Some 1]]%Z.
Proof.
  destruct (two_phase_agg_correct id id encode decode hash (λ _, false) hash partial_ctx final_ctx skipping conf (λ _, 0)
    (λ r n, bool_decide (n ≤ r * 2)) (λ _ _, true) [col 0] partial_aggs [col 0] final_aggs [task1; task2]
    [[rows_in g1 [v1; count_of <$> v1]]; [rows_in g2 [v2; count_of <$> v2]]]) as (outs & Houts & Hfinal).
  - reflexivity.
  - reflexivity.
  - split; reflexivity.
  - done.
  - apply conf_fine; [cbn; lia|reflexivity].
  - apply conf_fine; [cbn; lia|reflexivity].
  - reflexivity.
  - pose proof batches_ok as Hb. apply Forall2_cons in Hb as [(b1 & [= <-] & H1) Hb].
    apply Forall2_cons in Hb as [(b2 & [= <-] & H2) _].
    constructor; [|constructor; [|constructor]]; (constructor; [eexists; split; [reflexivity|done]|constructor]).
  - constructor; [|constructor; [|constructor]]; vm_compute; reflexivity.
  - apply Forall2_cons_inv_l in Houts as (out1 & outs1 & H1 & Houts & ->).
    apply Forall2_cons_inv_l in Houts as (out2 & outs2 & H2 & Houts & ->). apply Forall2_nil_inv_l in Houts as ->.
    vm_compute in H1, H2. injection H1 as <-. injection H2 as <-.
    destruct (Hfinal (λ _, true) final_batches [rows_in gs [sums; counts]]) as (out & He & Hp).
    + constructor; [|constructor]. eexists. split; [reflexivity|]. apply (final_input gs sums counts); [reflexivity|reflexivity| |].
      * unfold sums. small_values.
      * unfold counts. repeat apply Forall_cons_2; try apply Forall_nil_2; (split; [|by eexists]); intros ? [=]; subst; unfold in_s; lia.
    + vm_compute. reflexivity.
    + vm_compute. reflexivity.
    + exists out. split; [exact He|]. rewrite Hp. vm_compute. reflexivity.
Defined.
End AggSample.
