(* ===== verification/AggSort.v ===== *)
(** * Sort aggregation

    native-engine/datafusion-ext-plans/src/agg_exec.rs [execute_agg_sorted]: equal keys are
    adjacent in the input, so that only the groups of one output batch are kept.  The rows
    of a batch are added to the accumulators slice by slice; [acc_indices] holds the
    accumulator of each row of the slice that is not added yet.

    The operator is related to [runs], which merges neighbours with equal keys; when the
    equal keys of the input are adjacent, the runs are the groups. *)

From S2P Require Import Prelude MachineInt Io Arrow BatchSerde Joins JoinHashMap RadixSort RadixQueue AggHashMap AggAcc AggCtx AggGroups AggSpill AggTable AggExec.

Set Default Proof Using "Type".

Local Abbreviation bytes := (list Z).
Local Abbreviation Record_ := (bytes * (nat → option Z))%type.
Local Abbreviation AccTable := (list AccColumn).

(** Equal elements are adjacent. *)
Definition contiguous {A} (l : list A) : Prop :=
  ∀ i j m x, i ≤ j ≤ m → l !! i = Some x → l !! m = Some x → l !! j = Some x.

Lemma contiguous_snoc {A} (l : list A) x : contiguous (l ++ [x]) → contiguous l ∧ (x ∈ l → last l = Some x).
Proof.
  intros Hc. split.
  - intros i j m y Hijm Hi Hm. pose proof (lookup_lt_Some _ _ _ Hm).
    specialize (Hc i j m y Hijm). rewrite !lookup_app_l in Hc by lia. by apply Hc.
  - intros [i Hi]%list_elem_of_lookup. pose proof (lookup_lt_Some _ _ _ Hi). rewrite last_lookup.
    specialize (Hc i (pred (length l)) (length l) x).
    rewrite (lookup_app_l l [x] i), (lookup_app_l l [x] (pred _)) in Hc by lia. apply Hc; [lia|done|].
    by rewrite lookup_app_r, Nat.sub_diag by lia.
Qed.

Lemma contiguous_fmap {A B} (f : A → B) l :
  (∀ x y, x ∈ l → y ∈ l → f x = f y → x = y) → contiguous l → contiguous (f <$> l).
Proof.
  intros Hinj Hc i j m y Hijm Hi Hm. apply list_lookup_fmap_Some in Hi as (x & -> & Hi). apply list_lookup_fmap_Some in Hm as (z & E & Hm).
  assert (z = x) as -> by (symmetry; apply Hinj; [by eapply list_elem_of_lookup_2..|done]).
  by rewrite list_lookup_fmap, (Hc i j m x Hijm Hi Hm).
Qed.

Lemma distinct_fmap {A B} `{EqDecision A, EqDecision B} (f : A → B) l :
  (∀ x y, x ∈ l → y ∈ l → f x = f y → x = y) → distinct (f <$> l) = f <$> distinct l.
Proof.
  induction l as [|x l IH] using rev_ind; intros Hinj; [done|].
  assert (IH' : distinct (f <$> l) = f <$> distinct l).
  { apply IH. intros y z Hy Hz. apply Hinj; apply elem_of_app; by left. }
  rewrite fmap_app. cbn [fmap list_fmap]. rewrite !distinct_snoc, IH'.
  destruct (decide (x ∈ l)) as [Hx|Hx].
  - rewrite decide_True by (apply list_elem_of_fmap; eauto). done.
  - rewrite decide_False, fmap_app; [done|]. intros (y & E & Hy)%list_elem_of_fmap. apply Hx.
    rewrite (Hinj x y); [done|set_solver|set_solver|done].
Qed.

Section AggSort.
Context {V : Type} (to_i64 : V → option Z) (of_i64 : option Z → V).
Context (row_encode : list V → bytes) (row_decode : bytes → Result (list V)).
Context (ctx : @AggContext V) (batch_size : nat).

Local Abbreviation Batch := (RecordBatch (V:=V)).
Local Abbreviation null := (of_i64 None).

Record Staging := mkStaging {
  staging_keys : list bytes;
  staging_acc_table : AccTable;
  acc_indices : list nat;
  batch_range_start : nat }.

(** The macro [flush_staging!]. *)
Definition flush_staging (st : Staging) : Emit Batch Staging :=
  batch ← lift (convert_records_to_batch of_i64 row_decode ctx (staging_keys st) (staging_acc_table st)
                  (Range 0 (length (staging_keys st))));
  _ ← emit batch;
  mret (mkStaging [] (acc_table_resize (staging_acc_table st) 0) (acc_indices st) (batch_range_start st)).

(** The rows of the batch up to [batch_range_end] are added to the accumulators. *)
Definition update_staging (batch : Batch) (st : Staging) (batch_range_end : nat) : Result Staging :=
  t ← update_batch_slice_to_acc_table to_i64 ctx batch (batch_range_start st) batch_range_end (staging_acc_table st)
        (Indices (acc_indices st));
  Ok (mkStaging (staging_keys st) t [] batch_range_end).

(** The body of the inner loop. *)
Definition sorted_row (batch : Batch) (grouping_rows : list bytes) (st : Staging) (batch_range_end : nat) : Emit Batch Staging :=
  grouping_row ← lift (index grouping_rows batch_range_end);
  let same_key := match last (staging_keys st) with Some k => bool_decide (k = grouping_row) | None => false end in
  st ← (if same_key then mret st
        else
          st ← (if decide (batch_size ≤ length (staging_keys st)) then
                  st ← lift (update_staging batch st batch_range_end);
                  flush_staging st
                else mret st);
          mret (mkStaging (staging_keys st ++ [grouping_row]) (staging_acc_table st) (acc_indices st) (batch_range_start st)));
  mret (mkStaging (staging_keys st) (staging_acc_table st) (acc_indices st ++ [length (staging_keys st) - 1]) (batch_range_start st)).

Definition sorted_batch (st : Staging) (item : Result Batch) : Emit Batch Staging :=
  batch ← lift item;
  grouping_rows ← lift (create_grouping_rows row_encode ctx batch);
  st ← emit_foldM (sorted_row batch grouping_rows)
         (mkStaging (staging_keys st) (staging_acc_table st) (acc_indices st) 0) (range 0 (num_rows batch));
  lift (update_staging batch st (num_rows batch)).

Definition execute_agg_sorted (input : list (Result Batch)) : Emit Batch unit :=
  t ← lift (create_acc_table ctx 0);
  st ← emit_foldM sorted_batch (mkStaging [] t [] 0) input;
  if decide (staging_keys st = []) then mret tt
  else _ ← flush_staging st; mret tt.

(** ** Runs of equal keys *)

Definition run_step (Q : list Record_) (r : Record_) : list Record_ :=
  match last Q with
  | Some q =>
      if decide (q.1 = r.1) then <[pred (length Q) := (q.1, λ k, merge (kind_at ctx k) (q.2 k) (r.2 k))]> Q
      else Q ++ [(r.1, λ k, merge_all (kind_at ctx k) [r.2 k])]
  | None => [(r.1, λ k, merge_all (kind_at ctx k) [r.2 k])]
  end.
Definition runs (R : list Record_) : list Record_ := foldl run_step [] R.

Lemma runs_snoc R r : runs (R ++ [r]) = run_step (runs R) r.
Proof. unfold runs. by rewrite foldl_app. Qed.

Lemma gval_snoc R r key k :
  gval ctx (R ++ [r]) key k = if decide (r.1 = key) then merge (kind_at ctx k) (gval ctx R key k) (r.2 k) else gval ctx R key k.
Proof.
  rewrite gval_app. unfold gval at 2, gvals. rewrite filter_cons, filter_nil. pose proof (gval_normal ctx R key k) as Hn.
  unfold normal in Hn. case_decide.
  - unfold merge_all. cbn [fmap list_fmap foldl]. by rewrite (assoc (merge _)), Hn.
  - exact Hn.
Qed.

(** When equal keys are adjacent, the runs are the groups. *)
Lemma runs_ok R :
  contiguous R.*1 →
  (runs R).*1 = distinct R.*1 ∧ fst <$> last (runs R) = last R.*1 ∧
  ∀ q k, q ∈ runs R → k < length (aggs ctx) → q.2 k = gval ctx R q.1 k.
Proof.
  induction R as [|r R IH] using rev_ind; intros Hc; [split_and!; [done..|]; by intros ? ? ?%elem_of_nil|].
  rewrite fmap_app in Hc |- *. cbn [fmap list_fmap] in Hc |- *. apply contiguous_snoc in Hc as [Hc Hlast].
  destruct (IH Hc) as (Hk & Hl & Hv). clear IH. rewrite runs_snoc, distinct_snoc, last_snoc. unfold run_step.
  destruct (last (runs R)) as [q|] eqn:Eq; cbn [fmap option_fmap option_map] in Hl; last first.
  { symmetry in Hl. rewrite last_None in Hl. apply fmap_nil_inv in Hl as ->. split_and!; [done..|].
    intros q k ->%list_elem_of_singleton Hk'. unfold gval, gvals. cbn [app]. rewrite filter_cons, decide_True by done. done. }
  assert (Hq : q.1 ∈ R.*1) by (symmetry in Hl; apply last_Some in Hl as [l' ->]; set_solver).
  assert (Hql : runs R !! pred (length (runs R)) = Some q) by (by rewrite <- last_lookup).
  destruct (decide (q.1 = r.1)) as [E|E].
  - rewrite decide_True by (by rewrite <- E). split; [|split].
    + rewrite list_fmap_insert. cbn [fst]. rewrite list_insert_id; [done|]. by rewrite list_lookup_fmap, Hql.
    + rewrite last_lookup, length_insert, list_lookup_insert_eq by (by eapply lookup_lt_Some). cbn. by rewrite E.
    + intros q' k [i Hi]%list_elem_of_lookup Hlt. rewrite gval_snoc. destruct (decide (i = pred (length (runs R)))) as [->|Hne].
      * rewrite list_lookup_insert_eq in Hi by (by eapply lookup_lt_Some). injection Hi as <-. cbn [fst snd].
        rewrite decide_True by done. rewrite (Hv q k) by (done || by eapply list_elem_of_lookup_2). done.
      * rewrite list_lookup_insert_ne in Hi by done. rewrite decide_False; [by apply Hv; [eapply list_elem_of_lookup_2|]|].
        intros E'. apply Hne. pose proof (NoDup_distinct R.*1) as Hnd. rewrite <- Hk in Hnd.
        eapply (NoDup_lookup _ _ _ q'.1 Hnd); rewrite list_lookup_fmap; [by rewrite Hi|rewrite Hql; cbn; congruence].
  - assert (Hni : r.1 ∉ R.*1) by (intros Hin; apply E; specialize (Hlast Hin); congruence).
    rewrite decide_False by done. split; [|split].
    + by rewrite fmap_app, Hk.
    + by rewrite last_snoc.
    + intros q' k [Hin|Hin]%elem_of_app Hlt; [|apply list_elem_of_singleton in Hin as ->]; rewrite gval_snoc.
      * rewrite decide_False; [by apply Hv|]. intros E'. apply Hni. rewrite E', <- (elem_of_distinct R.*1), <- Hk.
        apply list_elem_of_fmap. eauto.
      * cbn [fst snd]. rewrite decide_True by done. unfold gval. by rewrite gvals_notin.
Qed.

Lemma runs_grouped R : contiguous R.*1 → grouped ctx R (runs R).
Proof.
  intros (Hk & _ & Hv)%runs_ok. split_and!; [rewrite Hk; apply NoDup_distinct| |done].
  intros key. by rewrite Hk, elem_of_distinct.
Qed.

(** ** The staged groups *)

(** The rows up to [e] of a batch with the contributions [css] are in the groups [G]: the
    accumulators have the rows before [batch_range_start], [acc_indices] names the groups
    of the others. *)
Record staging_rel (css : list (list (option Z))) (st : Staging) (e : nat) (G : list Record_) : Prop := {
  sg_keys : staging_keys st = G.*1;
  sg_table : table_ok ctx (staging_acc_table st);
  sg_start : batch_range_start st ≤ e;
  sg_length : length (acc_indices st) = e - batch_range_start st;
  sg_indices : Forall (λ i, i < length G) (acc_indices st);
  sg_covers : ∃ m, covers (staging_acc_table st) m ∧ ∀ i, m ≤ i < length G → i ∈ acc_indices st;
  sg_fresh : ∀ k i, k < length (aggs ctx) → length G ≤ i → tslot ctx (staging_acc_table st) k i = init (kind_at ctx k);
  sg_vals : ∀ i q k, G !! i = Some q → k < length (aggs ctx) → q.2 k =
    foldl (merge (kind_at ctx k)) (tslot ctx (staging_acc_table st) k i)
      (contrib_at css k <$> picks (zip (acc_indices st) (range (batch_range_start st) e)) i) }.

Lemma picks_snoc acc x lo e i :
  length acc = e - lo → lo ≤ e →
  picks (zip (acc ++ [x]) (range lo (S e))) i = picks (zip acc (range lo e)) i ++ (if decide (x = i) then [e] else []).
Proof.
  intros Hl Hle. unfold range. replace (S e - lo) with (S (e - lo)) by lia. rewrite seq_S, zip_with_app by (by rewrite length_seq).
  rewrite picks_app. f_equal. cbn [zip zip_with]. unfold picks. rewrite filter_cons, filter_nil. cbn [fst].
  replace (lo + (e - lo)) with e by lia. by case_decide.
Qed.

Lemma picks_notin acc l i : i ∉ acc → picks (zip acc l) i = [].
Proof.
  intros Hn. unfold picks. rewrite filter_none; [done|]. intros [a b] Hin E. cbn in E. subst a. apply Hn.
  by eapply elem_of_zip_l.
Qed.

(** The next row belongs to the last group. *)
Lemma stage_same css st e G q r :
  staging_rel css st e G → last G = Some q → q.1 = r.1 → (∀ k, k < length (aggs ctx) → r.2 k = contrib_at css k e) →
  staging_rel css (mkStaging (staging_keys st) (staging_acc_table st)
      (acc_indices st ++ [length (staging_keys st) - 1]) (batch_range_start st)) (S e)
    (<[pred (length G) := (q.1, λ k, merge (kind_at ctx k) (q.2 k) (r.2 k))]> G).
Proof.
  intros [Hk Ht Hst Hl Hi (m & Hcov & Hm) Hfr Hv] Hq E Hr. rewrite last_lookup in Hq. pose proof (lookup_lt_Some _ _ _ Hq) as Hlt.
  assert (Hidx : length (staging_keys st) - 1 = pred (length G)) by (rewrite Hk, length_fmap; lia).
  split; cbn [staging_keys staging_acc_table acc_indices batch_range_start]; rewrite ?length_insert, ?Hidx.
  - rewrite list_fmap_insert. cbn [fst]. rewrite list_insert_id; [done|]. by rewrite list_lookup_fmap, Hq.
  - done.
  - lia.
  - rewrite length_app. cbn. lia.
  - apply Forall_app. split; [done|]. apply Forall_singleton. lia.
  - exists m. split; [done|]. intros i Hmi. apply elem_of_app. left. by apply Hm.
  - done.
  - intros i q' k Hq' Hkl. rewrite picks_snoc by done. destruct (decide (i = pred (length G))) as [->|Hne].
    + rewrite decide_True, list_lookup_insert_eq in * by done. injection Hq' as <-. cbn [snd].
      rewrite fmap_app, foldl_app. cbn [fmap list_fmap foldl]. by rewrite (Hv _ q k Hq Hkl), Hr.
    + rewrite decide_False, app_nil_r by done. rewrite list_lookup_insert_ne in Hq' by done. by apply Hv.
Qed.

(** The next row starts a group. *)
Lemma stage_new css st e G r :
  staging_rel css st e G → (∀ k, k < length (aggs ctx) → r.2 k = contrib_at css k e) →
  staging_rel css (mkStaging (staging_keys st ++ [r.1]) (staging_acc_table st)
      (acc_indices st ++ [length (staging_keys st ++ [r.1]) - 1]) (batch_range_start st)) (S e)
    (G ++ [(r.1, λ k, merge_all (kind_at ctx k) [r.2 k])]).
Proof.
  intros [Hk Ht Hst Hl Hi (m & Hcov & Hm) Hfr Hv] Hr.
  assert (Hidx : length (staging_keys st ++ [r.1]) - 1 = length G) by (rewrite Hk, length_app, length_fmap; cbn; lia).
  split; cbn [staging_keys staging_acc_table acc_indices batch_range_start]; rewrite ?Hidx, ?length_app.
  - by rewrite fmap_app, Hk.
  - done.
  - lia.
  - cbn. lia.
  - apply Forall_app. split; [|apply Forall_singleton; cbn; lia]. eapply Forall_impl; [exact Hi|]. cbn. lia.
  - exists m. split; [done|]. intros i Hmi. cbn in Hmi. apply elem_of_app. destruct (decide (i = length G)) as [->|]; [right; set_solver|].
    left. apply Hm. lia.
  - intros k i Hkl Hge. apply Hfr; [done|lia].
  - intros i q k Hq Hkl. rewrite picks_snoc by done. destruct (decide (i = length G)) as [->|Hne].
    + rewrite lookup_app_r, Nat.sub_diag in Hq by lia. injection Hq as <-. cbn [snd]. rewrite decide_True by done.
      rewrite picks_notin, Hfr by (done || (intros Hin; rewrite Forall_forall in Hi; specialize (Hi _ Hin); lia)).
      cbn [app fmap list_fmap foldl]. by rewrite Hr.
    + rewrite decide_False, app_nil_r by done. rewrite lookup_app_l in Hq; [by apply Hv|].
      apply lookup_lt_Some in Hq. rewrite length_app in Hq. cbn in Hq. lia.
Qed.

(** Groups whose rows are all in the accumulators do not depend on the batch. *)
Definition settled (st : Staging) (G : list Record_) : Prop :=
  acc_indices st = [] ∧ staging_keys st = G.*1 ∧ table_ok ctx (staging_acc_table st) ∧ covers (staging_acc_table st) (length G) ∧
  (∀ k i, k < length (aggs ctx) → length G ≤ i → tslot ctx (staging_acc_table st) k i = init (kind_at ctx k)) ∧
  ∀ i q k, G !! i = Some q → k < length (aggs ctx) → q.2 k = tslot ctx (staging_acc_table st) k i.

Lemma settled_rel css st e G : settled st G → staging_rel css (mkStaging (staging_keys st) (staging_acc_table st) (acc_indices st) e) e G.
Proof.
  intros (Ha & Hk & Ht & Hc & Hf & Hv). split; cbn [staging_keys staging_acc_table acc_indices batch_range_start]; rewrite ?Ha; try done.
  - cbn. lia.
  - exists (length G). split; [done|]. lia.
Qed.

Lemma update_staging_ok b css st e G :
  ctx_ok ctx → batch_data to_i64 ctx b css → staging_rel css st e G → e ≤ num_rows b →
  ∃ st', update_staging b st e = Ok st' ∧ settled st' G ∧ batch_range_start st' = e.
Proof.
  intros Hctx Hb [Hk Ht Hst Hl Hi (m & Hcov & Hm) Hfr Hv] He. unfold update_staging.
  destruct (update_slice_ok to_i64 ctx b css (staging_acc_table st) (Indices (acc_indices st)) m (batch_range_start st) e)
    as (t' & -> & Ht' & Hc1 & Hc2 & Hs); [done|done|done|done|exact Hl|done|].
  cbn [mbind Result_bind]. eexists. split; [done|]. split; [|done]. cbn [idx_zipped idx_iter] in Hs.
  split_and!; cbn [acc_indices staging_keys staging_acc_table]; try done.
  - destruct (decide (m < length G)) as [Hlt|Hge]; [|by eapply covers_le; [exact Hc1|lia]].
    eapply covers_le; [exact Hc2|]. cbn [idx_num_records idx_iter]. specialize (Hm (length G - 1) ltac:(lia)).
    rewrite decide_False by (intros E; rewrite E in Hm; by apply elem_of_nil in Hm).
    pose proof (max_list_elem_of_le (length G - 1) (acc_indices st)). specialize (H Hm). lia.
  - intros k i Hkl Hge. rewrite Hs, picks_notin by (done || (intros Hin; rewrite Forall_forall in Hi; specialize (Hi _ Hin); lia)).
    by apply Hfr.
  - intros i q k Hq Hkl. rewrite Hs by done. by apply Hv.
Qed.

Local Abbreviation rows_of := (rows_of of_i64).
Local Abbreviation out_row := (out_row of_i64 row_decode ctx).
Local Abbreviation keys_good R := (∀ key, key ∈ (R : list Record_).*1 → key_good row_decode ctx key).

Lemma flush_staging_ok st G :
  ctx_ok ctx → settled st G → keys_good G →
  ∃ out st', flush_staging st = (out, Ok st') ∧ rows_of out = out_row <$> G ∧ settled st' [] ∧
    batch_range_start st' = batch_range_start st.
Proof.
  intros Hctx (Ha & Hk & Ht & Hc & Hf & Hv) Hgood. unfold flush_staging.
  assert (Hgl : Forall (key_good row_decode ctx) (staging_keys st)) by (rewrite Hk; by apply Forall_forall).
  assert (Hlen : length (staging_keys st) = length G) by (by rewrite Hk, length_fmap).
  destruct (output_batch_ok of_i64 row_decode ctx (staging_keys st) (staging_acc_table st) 0 (length (staging_keys st)))
    as (b & Hb & Hrows); [done|done|by rewrite Hlen|done|lia|].
  unfold output_batch, subslice in Hb. rewrite decide_True, lift_bind, sub_all in Hb by lia.
  destruct (convert_records_to_batch _ _ _ _ _ _) as [b'| | | |]; try discriminate Hb. rewrite lift_bind in Hb. injection Hb as ->.
  rewrite lift_bind. eexists _, _. split; [done|]. split; [|split; [|done]].
  - unfold AggTable.rows_of. cbn [fmap list_fmap app fst emit concat]. rewrite app_nil_r, Hrows.
    assert (length (table_records ctx (staging_keys st) (staging_acc_table st)) = length (staging_keys st)) as <- by apply length_imap.
    rewrite sub_all. apply list_eq. intros i. rewrite !list_lookup_fmap, lookup_table_records, Hk, list_lookup_fmap.
    destruct (G !! i) as [q|] eqn:Hq; [|done]. cbn. f_equal. unfold AggTable.out_row. cbn [fst snd]. f_equal.
    apply list_fmap_ext. intros k ? [-> Hkl]%lookup_seq. cbn [plus]. by rewrite (Hv i q k Hq Hkl).
  - destruct (acc_table_resize_ok ctx (staging_acc_table st) 0 Ht) as (Ht' & Hc' & _); [apply Forall_forall; lia|].
    split_and!; cbn [acc_indices staging_keys staging_acc_table]; [done..| |done].
    intros k i Hkl _. by apply resized_fresh.
Qed.

(** One row: the groups are those of [run_step], the first ones have been sent. *)
Lemma sorted_row_ok b css (N : list Record_) st e F G r :
  ctx_ok ctx → batch_data to_i64 ctx b css → staging_rel css st e G → keys_good G → e < num_rows b → N !! e = Some r →
  (∀ k, k < length (aggs ctx) → r.2 k = contrib_at css k e) → key_good row_decode ctx r.1 → (G = [] → F = []) →
  ∃ out st' D G', sorted_row b N.*1 st e = (out, Ok st') ∧ staging_rel css st' (S e) G' ∧ keys_good G' ∧ G' ≠ [] ∧
    rows_of out = out_row <$> D ∧ run_step (F ++ G) r = (F ++ D) ++ G'.
Proof.
  intros Hctx Hb Hst Hgood He Hr Hrv Hrk HF. unfold sorted_row.
  rewrite (proj2 (index_Ok N.*1 e r.1)), lift_bind by (by rewrite list_lookup_fmap, Hr).
  assert ((∃ q, last G = Some q ∧ q.1 = r.1) ∨ ¬ ∃ q, last G = Some q ∧ q.1 = r.1) as [(q & Hq & E)|Hnot].
  { destruct (last G) as [q|]; [|right; naive_solver]. destruct (decide (q.1 = r.1)); [left; eauto|right; naive_solver]. }
  - assert (last (staging_keys st) = Some q.1) as -> by (by rewrite (sg_keys _ _ _ _ Hst), fmap_last, Hq).
    rewrite bool_decide_true by done. exists []. eexists _, [], _. split; [done|]. split; [by eapply stage_same|].
    rewrite last_lookup in Hq. pose proof (lookup_lt_Some _ _ _ Hq) as Hlt. split; [|split; [|split; [done|]]].
    + rewrite list_fmap_insert. cbn [fst]. rewrite list_insert_id; [done|]. by rewrite list_lookup_fmap, Hq.
    + intros Hnil%(f_equal length). rewrite length_insert in Hnil. cbn in Hnil. lia.
    + unfold run_step. rewrite last_app, last_lookup, Hq, decide_True, app_nil_r by done.
      rewrite length_app. replace (pred (length F + length G)) with (length F + pred (length G)) by lia.
      by rewrite insert_app_r.
  - assert (match last (staging_keys st) with Some k => bool_decide (k = r.1) | None => false end = false) as ->.
    { rewrite (sg_keys _ _ _ _ Hst), fmap_last. destruct (last G) as [q|] eqn:Hq; [|done]. cbn.
      apply bool_decide_false. intros E. apply Hnot. eauto. }
    set (q := (r.1, λ k, merge_all (kind_at ctx k) [r.2 k])).
    assert (Hrun : run_step (F ++ G) r = F ++ G ++ [q]).
    { unfold run_step. destruct (last G) as [q'|] eqn:Hq.
      - rewrite last_app, Hq, decide_False by (intros E; apply Hnot; eauto). by rewrite <- app_assoc.
      - apply last_None in Hq as ->. by rewrite (HF eq_refl). }
    assert (Hgq : ∀ G1, keys_good G1 → keys_good (G1 ++ [q])).
    { intros G1 Hg1 key. rewrite fmap_app, elem_of_app. intros [Hin|Hin]; [by apply Hg1|].
      by apply list_elem_of_singleton in Hin as ->. }
    rewrite Hrun. case_decide.
    + destruct (update_staging_ok b css st e G) as (st1 & -> & Hs1 & Hb1); [done|done|done|lia|]. rewrite lift_bind.
      destruct (flush_staging_ok st1 G Hctx Hs1 Hgood) as (out & st2 & -> & Hout & Hs2 & Hb2). rewrite !emit_bind. cbn [fst snd].
      eexists _, _, G, ([] ++ [q]). split; [done|]. split; [|split; [|split; [done|split]]].
      * apply (stage_new css st2 e [] r); [|done]. apply (settled_rel css) with (e := e) in Hs2.
        assert (batch_range_start st2 = e) as <- by congruence. by destruct st2.
      * apply Hgq. by intros ? ?%elem_of_nil.
      * by rewrite !app_nil_r.
      * by rewrite <- app_assoc.
    + eexists _, _, [], (G ++ [q]). split; [done|]. split; [exact (stage_new css st e G r Hst Hrv)|]. split; [by apply Hgq|].
      split; [by intros [_ ?]%app_nil|]. split; [done|]. by rewrite app_nil_r.
Qed.

(** The rows of a batch from [e] on. *)
Lemma sorted_rows_ok b css (N : list Record_) n st e F G :
  ctx_ok ctx → batch_data to_i64 ctx b css → staging_rel css st e G → keys_good G → e + n = num_rows b → length N = num_rows b →
  (∀ j r k, N !! j = Some r → k < length (aggs ctx) → r.2 k = contrib_at css k j) → keys_good N → (G = [] → F = []) →
  ∃ out st' D G', emit_foldM (sorted_row b N.*1) st (seq e n) = (out, Ok st') ∧ staging_rel css st' (num_rows b) G' ∧
    keys_good G' ∧ (G' = [] → F ++ D = []) ∧ rows_of out = out_row <$> D ∧ foldl run_step (F ++ G) (drop e N) = (F ++ D) ++ G'.
Proof.
  intros Hctx Hb. revert st e F G. induction n as [|n IH]; intros st e F G Hst Hgood Hen Hlen Hv HgN HF.
  { rewrite Nat.add_0_r in Hen. subst e. exists [], st, [], G. rewrite drop_ge by lia. rewrite app_nil_r. done. }
  destruct (lookup_lt_is_Some_2 N e) as [r Hr]; [lia|].
  destruct (sorted_row_ok b css N st e F G r) as (out1 & st1 & D1 & G1 & He1 & Hst1 & Hg1 & Hne1 & Hout1 & Hrun1); try done.
  { lia. }
  { intros k Hk. by eapply Hv. }
  { apply HgN, list_elem_of_fmap. exists r. split; [done|]. by eapply list_elem_of_lookup_2. }
  destruct (IH st1 (S e) (F ++ D1) G1) as (out2 & st2 & D2 & G2 & He2 & Hst2 & Hg2 & Hne2 & Hout2 & Hrun2); try done.
  { lia. }
  cbn [seq emit_foldM]. rewrite He1, emit_bind, He2. cbn [fst snd]. exists (out1 ++ out2), st2, (D1 ++ D2), G2.
  split; [done|]. split; [done|]. split; [done|]. rewrite app_assoc. split; [done|].
  split; [by rewrite rows_of_app, fmap_app, Hout1, Hout2|].
  rewrite (drop_S N r e Hr). cbn [foldl]. by rewrite Hrun1, Hrun2.
Qed.

Lemma sorted_batch_ok `{!RowFormat row_encode row_decode (length (groupings ctx))} b rows st F G :
  ctx_ok ctx → batch_input to_i64 of_i64 ctx b rows → settled st G → keys_good G → (G = [] → F = []) →
  ∃ out st' D G', sorted_batch st (Ok b) = (out, Ok st') ∧ settled st' G' ∧ keys_good G' ∧ (G' = [] → F ++ D = []) ∧
    rows_of out = out_row <$> D ∧ foldl run_step (F ++ G) (encode_row row_encode <$> rows) = (F ++ D) ++ G'.
Proof.
  intros Hctx Hin Hst Hgood HF. pose proof (batch_input_width _ _ _ _ _ Hin) as Hw.
  pose proof (batch_input_records to_i64 of_i64 row_encode ctx b rows Hin) as HN.
  apply batch_records_keys in HN as [Hk Hl]. set (N := encode_row row_encode <$> rows) in *.
  destruct Hin as (css & groups & Hb & _ & Hrows). unfold sorted_batch. rewrite lift_bind, Hk, lift_bind.
  destruct (sorted_rows_ok b css N (num_rows b) (mkStaging (staging_keys st) (staging_acc_table st) (acc_indices st) 0) 0 F G)
    as (out & st1 & D & G1 & He & Hst1 & Hg1 & Hne1 & Hout & Hrun); try done.
  { by apply settled_rel. }
  { intros j r k Hr _. unfold N in Hr. rewrite Hrows in Hr. rewrite list_lookup_fmap, list_lookup_imap in Hr.
    destruct (groups !! j); [|done]. injection Hr as <-. done. }
  { by eapply encoded_keys_good. }
  unfold range. rewrite Nat.sub_0_r, He, emit_bind.
  destruct (update_staging_ok b css st1 (num_rows b) G1) as (st2 & -> & Hs2 & _); [done..|].
  exists (out ++ []), st2, D, G1. split; [done|]. split; [done|]. split; [done|]. split; [done|].
  rewrite app_nil_r. rewrite drop_0 in Hrun. done.
Qed.

Lemma sorted_loop_ok `{!RowFormat row_encode row_decode (length (groupings ctx))} input rowss st F G :
  ctx_ok ctx → Forall2 (λ item rows, ∃ b, item = Ok b ∧ batch_input to_i64 of_i64 ctx b rows) input rowss →
  settled st G → keys_good G → (G = [] → F = []) →
  ∃ out st' D G', emit_foldM sorted_batch st input = (out, Ok st') ∧ settled st' G' ∧ keys_good G' ∧ (G' = [] → F ++ D = []) ∧
    rows_of out = out_row <$> D ∧ foldl run_step (F ++ G) (encode_row row_encode <$> concat rowss) = (F ++ D) ++ G'.
Proof.
  intros Hctx Hin. revert st F G. induction Hin as [|item rows input rowss (b & -> & Hb) _ IH]; intros st F G Hst Hgood HF.
  { exists [], st, [], G. rewrite app_nil_r. done. }
  destruct (sorted_batch_ok b rows st F G) as (out1 & st1 & D1 & G1 & He1 & Hs1 & Hg1 & Hne1 & Hout1 & Hrun1); [done..|].
  destruct (IH st1 (F ++ D1) G1) as (out2 & st2 & D2 & G2 & He2 & Hs2 & Hg2 & Hne2 & Hout2 & Hrun2); [done..|].
  cbn [emit_foldM]. rewrite He1, emit_bind, He2. cbn [fst snd concat]. exists (out1 ++ out2), st2, (D1 ++ D2), G2.
  split; [done|]. split; [done|]. split; [done|]. rewrite app_assoc. split; [done|].
  split; [by rewrite rows_of_app, fmap_app, Hout1, Hout2|]. by rewrite fmap_app, foldl_app, Hrun1, Hrun2.
Qed.

(** Sort aggregation sends the runs of the input, in order. *)
Lemma sorted_runs_ok `{!RowFormat row_encode row_decode (length (groupings ctx))} input rowss :
  ctx_ok ctx → Forall2 (λ item rows, ∃ b, item = Ok b ∧ batch_input to_i64 of_i64 ctx b rows) input rowss →
  ∃ out, execute_agg_sorted input = (out, Ok tt) ∧ rows_of out = out_row <$> runs (encode_row row_encode <$> concat rowss).
Proof.
  intros Hctx Hin. unfold execute_agg_sorted. rewrite create_acc_table_ok, lift_bind.
  destruct (create_table_ok ctx 0) as (Ht & Hcov & Hs).
  destruct (sorted_loop_ok input rowss (mkStaging [] ((λ e, create_acc_column (agg e) 0) <$> aggs ctx) [] 0) [] [])
    as (out & st & D & G & -> & Hst & Hg & Hne & Hout & Hrun); [done|done| |by intros ? ?%elem_of_nil|done|].
  { split_and!; cbn [acc_indices staging_keys staging_acc_table]; [done..| |done]. intros k i Hk _. by apply Hs. }
  rewrite emit_bind. cbn [app] in *. unfold runs. rewrite Hrun. pose proof Hst as (_ & Hk & _).
  case_decide as Hnil.
  - rewrite Hk in Hnil. apply fmap_nil_inv in Hnil as ->. rewrite (Hne eq_refl) in *. eexists. split; [done|].
    cbn [fst mret Emit_ret]. by rewrite app_nil_r, Hout.
  - destruct (flush_staging_ok st G Hctx) as (out2 & st2 & -> & Hout2 & _); [done|done|]. eexists. split; [done|].
    cbn [fst snd mret Emit_ret mbind Emit_bind]. rewrite app_nil_r, rows_of_app, fmap_app, Hout, Hout2. done.
Qed.

(** ** The meaning of the operator *)

Context `{EqDecision V} {RF : RowFormat row_encode row_decode (length (groupings ctx))}.
Local Abbreviation Row := (list V * (nat → option Z))%type.

(** The groups in the order of their first rows. *)
Definition sql_group_by_first (rows : list Row) : list (list V) :=
  (λ g, g ++ agg_row of_i64 ctx (filter (λ r, r.1 = g) rows)) <$> distinct rows.*1.

Lemma group_by_first_perm (rows : list Row) : sql_group_by_first rows ≡ₚ sql_group_by of_i64 ctx rows.
Proof.
  unfold sql_group_by_first, sql_group_by. apply fmap_Permutation, NoDup_Permutation; [apply NoDup_distinct|apply NoDup_remove_dups|].
  intros g. by rewrite elem_of_distinct, elem_of_remove_dups.
Qed.

Lemma runs_rows (rows : list Row) :
  Forall (row_width ctx) rows → values_fit ctx rows → contiguous rows.*1 →
  out_row <$> runs (encode_row row_encode <$> rows) = sql_group_by_first rows.
Proof using Type RF.
  intros Hw Hf Hc.
  assert (Hwid : ∀ g, g ∈ rows.*1 → length g = length (groupings ctx)).
  { intros g (r & -> & Hr)%list_elem_of_fmap. rewrite Forall_forall in Hw. by apply Hw. }
  assert (Hinj : ∀ g1 g2, g1 ∈ rows.*1 → g2 ∈ rows.*1 → row_encode g1 = row_encode g2 → g1 = g2).
  { intros g1 g2 H1 H2 E. rewrite <- (decode_encode row_encode row_decode ctx g1), E by auto.
    apply (decode_encode row_encode row_decode ctx). auto. }
  assert (Ek : (encode_row row_encode <$> rows).*1 = row_encode <$> rows.*1) by (by rewrite <- !list_fmap_compose).
  destruct (runs_ok (encode_row row_encode <$> rows)) as (Hk & _ & Hv).
  { rewrite Ek. by apply contiguous_fmap. }
  rewrite Ek, distinct_fmap in Hk by done. unfold sql_group_by_first. apply list_eq. intros i. rewrite !list_lookup_fmap.
  apply (f_equal (lookup i)) in Hk. rewrite !list_lookup_fmap in Hk.
  destruct (runs (encode_row row_encode <$> rows) !! i) as [q|] eqn:Hq, (distinct rows.*1 !! i) as [g|] eqn:Hg; try discriminate Hk; [|done].
  injection Hk as Hk. cbn. f_equal. unfold AggTable.out_row, agg_row. apply list_elem_of_lookup_2 in Hq, Hg.
  rewrite elem_of_distinct in Hg. rewrite Hk, (decode_encode row_encode row_decode ctx) by auto. f_equal. apply list_fmap_ext.
  intros k ? [-> Hkl]%lookup_seq. cbn [plus]. f_equal. rewrite (Hv q k Hq Hkl), Hk. apply (gval_sql row_encode row_decode ctx); auto.
Qed.

(** C9: when equal grouping values are adjacent in the input, sort aggregation sends
    exactly one row per group in the order of the groups, with the SQL value of every
    aggregate, for any batches and any output batch size. *)
Theorem sort_agg_correct gs es input rowss :
  agg_ctx_try_new gs es = Ok ctx →
  Forall2 (λ item rows, ∃ b, item = Ok b ∧ batch_input to_i64 of_i64 ctx b rows) input rowss →
  contiguous (concat rowss).*1 →
  ∃ out, execute_agg_sorted input = (out, Ok tt) ∧ rows_of out = sql_group_by_first (concat rowss) ∧
    rows_of out ≡ₚ sql_group_by of_i64 ctx (concat rowss).
Proof using Type RF.
  intros [Hctx _]%agg_ctx_try_new_ok Hin Hc. destruct (sorted_runs_ok input rowss Hctx Hin) as (out & He & Hout).
  assert (Forall (row_width ctx) (concat rowss) ∧ values_fit ctx (concat rowss)) as [Hw Hf].
  { apply (inputs_rows to_i64 of_i64 ctx ((λ item, mkInput item false false) <$> input)). by apply Forall2_fmap_l. }
  exists out. split; [done|]. rewrite Hout, runs_rows by done. split; [done|]. apply group_by_first_perm.
Qed.

End AggSort.

Module AggSortSample.
Import AggSample.
Local Abbreviation V := (option Z).

Definition sorted_g1 : list V := [None; Some 1; Some 1; Some 2]%Z.
Definition sorted_g2 : list V := [Some 2; Some 3; Some 3]%Z.
Definition sorted_input : list (Result (RecordBatch (V:=V))) := [Ok (mkBatch 4 [sorted_g1; v1]); Ok (mkBatch 3 [sorted_g2; v2])].

Lemma sort_agg_correct_witness :
  ∃ out, execute_agg_sorted id id encode decode partial_ctx 2 sorted_input = (out, Ok tt) ∧
    rows_of id out = [[None; Some 10; Some 1]; [Some 1; Some 35; Some 2]; [Some 2; None; Some 0]; [Some 3; Some 16; Some 2]]%Z.
Proof.
  destruct (sort_agg_correct id id encode decode partial_ctx 2 [col 0] partial_aggs sorted_input
    [rows_in sorted_g1 [v1; count_of <$> v1]; rows_in sorted_g2 [v2; count_of <$> v2]]) as (out & He & Hp & _).
  - reflexivity.
  - constructor; [eexists; split; [reflexivity|apply (partial_input sorted_g1 v1); [reflexivity|unfold v1; small_values]]|].
    constructor; [eexists; split; [reflexivity|apply (partial_input sorted_g2 v2); [reflexivity|unfold v2; small_values]]|constructor].
  - intros i j m x Hijm Hi Hm. pose proof (lookup_lt_Some _ _ _ Hm) as Hlt. cbn in Hlt.
    do 7 (destruct m as [|m]; [cbn in Hm; injection Hm as <-; do 7 (destruct i as [|i]; [try discriminate Hi;
      do 7 (destruct j as [|j]; [first [reflexivity|exfalso; lia]|]); exfalso; lia|]); exfalso; lia|]). exfalso; lia.
  - exists out. split; [exact He|]. rewrite Hp. vm_compute. reflexivity.
Defined.
End AggSortSample.
