(* ===== verification/SortKeys.v ===== *)
(** * Sort keys in memory and in spills

    native-engine/datafusion-ext-plans/src/sort_exec.rs: the collectors of encoded keys.
    In memory the keys of a batch are one buffer with offsets; in a spill each key is
    written relative to the key before it ([SortedKeysWriter]), which is read back by
    [SortedKeysReader].

    Keys are compared as byte slices ([bytes_lt]).  The prefix code depends on their
    order: a key that is a prefix of the one before it is taken for a repetition, so that
    only ascending sequences survive ([squeezed_keys_roundtrip]); a repetition is what
    the merge relies on when it does not touch its loser tree. *)

From S2P Require Import Prelude MachineInt Io.

Set Default Proof Using "Type".

Local Abbreviation bytes := (list Z).

Lemma elem_of_concat {A} (x : A) (ls : list (list A)) : x ∈ concat ls ↔ ∃ l, x ∈ l ∧ l ∈ ls.
Proof.
  induction ls as [|l ls IH]; cbn; [set_solver|]. rewrite elem_of_app, IH. set_solver.
Qed.

(** ** The order of keys *)

(** [a < b] on byte slices. *)
Fixpoint bytes_lt (a b : bytes) : bool :=
  match a, b with
  | _, [] => false
  | [], _ :: _ => true
  | x :: a, y :: b => bool_decide (x < y)%Z || (bool_decide (x = y) && bytes_lt a b)
  end.

Definition bytes_le (a b : bytes) : Prop := bytes_lt b a = false.

#[export] Instance bytes_le_dec : RelDecision bytes_le.
Proof. intros a b. unfold bytes_le. solve_decision. Defined.

Lemma bytes_le_cons x a y b : bytes_le (x :: a) (y :: b) ↔ (x < y)%Z ∨ x = y ∧ bytes_le a b.
Proof.
  unfold bytes_le. cbn. rewrite orb_false_iff, andb_false_iff, !bool_decide_eq_false.
  destruct (bytes_lt b a); intuition lia.
Qed.

#[export] Instance bytes_le_po : PartialOrder bytes_le.
Proof.
  split; [split|].
  - intros a. induction a as [|x a IH]; [done|]. apply bytes_le_cons. auto.
  - intros a b c. revert b c. induction a as [|x a IH]; intros [|y b] [|z c]; try done.
    rewrite !bytes_le_cons. intros [?|[-> ?]] [?|[-> ?]]; try (left; lia). right. eauto.
  - intros a. induction a as [|x a IH]; intros [|y b]; try done.
    rewrite !bytes_le_cons. intros [?|[-> ?]] [?|[? ?]]; try lia. f_equal. auto.
Qed.

Lemma bytes_lt_le a b : bytes_lt a b = true → bytes_le a b.
Proof.
  revert b. induction a as [|x a IH]; intros [|y b]; try done. cbn. rewrite bytes_le_cons.
  rewrite orb_true_iff, andb_true_iff, !bool_decide_eq_true. intros [?|[-> ?]]; auto.
Qed.

#[export] Instance bytes_le_total : Total bytes_le.
Proof. intros a b. destruct (bytes_lt b a) eqn:E; [right; by apply bytes_lt_le|by left]. Qed.

Lemma bytes_le_nil a : bytes_le [] a.
Proof. by destruct a. Qed.

Lemma bytes_le_prefix a b : b `prefix_of` a → bytes_le a b → a = b.
Proof. intros [l ->] Hle. apply (anti_symm bytes_le); [done|]. clear Hle.
  induction b as [|x b IH]; [apply bytes_le_nil|]. apply bytes_le_cons. auto. Qed.

(** ** Common prefixes *)

(** [ptr::read_unaligned(v.as_ptr().add(off) as *const [u8; nb])] *)
Definition pread (v : bytes) (off nb : nat) : Result bytes :=
  if decide (off + nb ≤ length v) then Ok (take nb (drop off v)) else Undef.

(** [lcp + nb <= min_len && pread!(a, lcp, nb) == pread!(b, lcp, nb)] *)
Definition same_at (a b : bytes) (min_len lcp nb : nat) : Result bool :=
  if decide (lcp + nb ≤ min_len) then
    x ← pread a lcp nb; y ← pread b lcp nb; Ok (bool_decide (x = y))
  else Ok false.

(** [lcp += (..) as usize * nb] *)
Definition add_if_same (a b : bytes) (min_len nb lcp : nat) : Result nat :=
  same ← same_at a b min_len lcp nb;
  Ok (lcp + (if same : bool then 1 else 0) * nb).

Definition common_prefix_len (a b : bytes) : Result nat :=
  let min_len := length a `min` length b in
  lcp ← rwhileM min_len (λ lcp, same_at a b min_len lcp 8) (λ lcp, Ok (lcp + 8)) 0;
  lcp ← add_if_same a b min_len 4 lcp;
  lcp ← add_if_same a b min_len 2 lcp;
  add_if_same a b min_len 1 lcp.

(** ** Squeezed keys *)

(** [SortedKeysWriter::write_key]: the new [cur_key] and the bytes written.  [set_len] and
    the copy leave the first [prefix_len] bytes of the old key and the rest of the new. *)
Definition write_key (cur_key key : bytes) : Result (bytes * bytes) :=
  prefix_len ← common_prefix_len cur_key key;
  let suffix_len := length key - prefix_len in
  if decide (prefix_len = length key ∧ suffix_len = 0) then
    out ← write_len 0;
    Ok (cur_key, out)
  else
    let cur_key := take prefix_len cur_key ++ drop prefix_len key in
    suffix ← write_len (usize (Z.of_nat suffix_len + 1));
    prefix ← write_len (Z.of_nat prefix_len);
    Ok (cur_key, suffix ++ prefix ++ drop prefix_len key).

Record SortedKeysReader := mkReader { cur_key : bytes; is_equal_to_prev : bool }.

Definition default_reader : SortedKeysReader := mkReader [] false.

(** [SortedKeysReader::next_key]: bytes between the old length and [prefix_len] would not
    be initialized. *)
Definition next_key (r : SortedKeysReader) : Reader SortedKeysReader :=
  b ← read_len;
  if bool_decide (0 < b)%Z then
    let suffix_len := Z.to_nat (b - 1) in
    prefix_len ← read_len;
    let prefix_len := Z.to_nat prefix_len in
    if decide (prefix_len ≤ length (cur_key r)) then
      read_buf ← read_exact suffix_len;
      mret (mkReader (take prefix_len (cur_key r) ++ read_buf) false)
    else λ _, Undef
  else mret (mkReader (cur_key r) true).

(** ** Key collectors *)

(** The trait, without the capacity hints; [Rows] is arrow's container of encoded rows,
    which [into_rows] fills with a buffer and offsets. *)
Record Rows := mkRows { r_buffer : bytes; r_offsets : list nat }.

Class KeyCollector (KC : Type) := {
  kc_default : KC;
  add_key : KC → bytes → Result KC;
  freeze : KC → KC;
  into_rows : KC → nat → Result Rows }.

Record InMemRowsKeyCollector := mkInMem { buffer : bytes; offsets : list nat }.

(** [get_unchecked(start..end)] of the buffer. *)
Definition rows_key (buffer : bytes) (offsets : list nat) (i : nat) : Result bytes :=
  start ← uindex offsets i;
  end_ ← uindex offsets (i + 1);
  if decide (start ≤ end_ ≤ length buffer) then Ok (take (end_ - start) (drop start buffer)) else Undef.

Definition key (c : InMemRowsKeyCollector) (i : nat) : Result bytes := rows_key (buffer c) (offsets c) i.

(** [assert_eq!(self.offsets.len() - 1, num_rows)]; no offset at all wraps around. *)
Definition inmem_into_rows (c : InMemRowsKeyCollector) (num_rows : nat) : Result Rows :=
  _ ← rassert (bool_decide (usize (Z.of_nat (length (offsets c)) - 1) = Z.of_nat num_rows));
  Ok (mkRows (buffer c) (offsets c)).

Definition inmem_add_key (c : InMemRowsKeyCollector) (key : bytes) : InMemRowsKeyCollector :=
  mkInMem (buffer c ++ key) (offsets c ++ [length (buffer c)]).

Definition inmem_freeze (c : InMemRowsKeyCollector) : InMemRowsKeyCollector :=
  mkInMem (buffer c) (offsets c ++ [length (buffer c)]).

#[export] Instance inmem_collector : KeyCollector InMemRowsKeyCollector := {
  kc_default := mkInMem [] [];
  add_key c key := Ok (inmem_add_key c key);
  freeze := inmem_freeze;
  into_rows := inmem_into_rows }.

Record SqueezeKeyCollector := mkSqueeze { sorted_key_writer : bytes; store : bytes }.

(** [write_key(..).expect(..)] into a vector. *)
Definition squeeze_add_key (c : SqueezeKeyCollector) (key : bytes) : Result SqueezeKeyCollector :=
  '(writer, out) ← write_key (sorted_key_writer c) key;
  Ok (mkSqueeze writer (store c ++ out)).

(** The keys are read back from the store; the collector they go to is not frozen. *)
Definition squeeze_into_rows (c : SqueezeKeyCollector) (num_rows : nat) : Result Rows :=
  '(_, _, simple_key_collector) ← rfoldM
    (λ '(reader, r, simple_key_collector) _,
      '(reader, r) ← next_key reader r;
      Ok (reader, r, inmem_add_key simple_key_collector (cur_key reader)))
    (default_reader, store c, mkInMem [] []) (range 0 num_rows);
  inmem_into_rows simple_key_collector num_rows.

#[export] Instance squeeze_collector : KeyCollector SqueezeKeyCollector := {
  kc_default := mkSqueeze [] [];
  add_key := squeeze_add_key;
  freeze c := c;
  into_rows := squeeze_into_rows }.

(** ** Lemmas on prefixes *)

Fixpoint lcp (a b : bytes) : nat :=
  match a, b with
  | x :: a, y :: b => if decide (x = y) then S (lcp a b) else 0
  | _, _ => 0
  end.

Lemma lcp_spec n a b : n ≤ lcp a b ↔ n ≤ length a `min` length b ∧ take n a = take n b.
Proof.
  revert a b. induction n as [|n IH]; intros a b; [split; [split; [lia|done]|lia]|].
  destruct a as [|x a], b as [|y b]; cbn; try (split; [lia|intros [? ?]; lia]).
  case_decide as E.
  - specialize (IH a b). split.
    + intros Hn. destruct IH as [IH _]. destruct IH as [? ->]; [lia|]. subst. split; [lia|done].
    + intros [? [= _ Ht]]. apply le_n_S, IH. split; [lia|done].
  - split; [lia|]. intros [_ [= ? _]]. done.
Qed.

Lemma lcp_min a b : lcp a b ≤ length a `min` length b.
Proof. by destruct (proj1 (lcp_spec (lcp a b) a b)) as [? _]. Qed.

Lemma take_lcp n a b : n ≤ lcp a b → take n a = take n b.
Proof. intros Hn. by apply lcp_spec. Qed.

Lemma same_at_ok a b n nb :
  n ≤ lcp a b → same_at a b (length a `min` length b) n nb = Ok (bool_decide (n + nb ≤ lcp a b)).
Proof.
  intros Hn. pose proof (lcp_min a b). pose proof (take_lcp _ _ _ Hn) as Ht. unfold same_at, pread.
  case_decide as Hc.
  - rewrite !decide_True by lia. cbn [mbind Result_bind]. f_equal. apply bool_decide_ext.
    rewrite lcp_spec. rewrite <- !(take_take_drop _ n nb), Ht. split; [by intros ->|].
    intros [_ E]. by apply app_inv_head in E.
  - rewrite bool_decide_eq_false_2 by lia. done.
Qed.

Lemma add_if_same_ok a b n nb :
  n ≤ lcp a b → add_if_same a b (length a `min` length b) nb n =
    Ok (if decide (n + nb ≤ lcp a b) then n + nb else n).
Proof.
  intros Hn. unfold add_if_same. rewrite same_at_ok by done. cbn [mbind Result_bind].
  rewrite <- decide_bool_decide. case_decide; f_equal; lia.
Qed.

(** The block-wise comparison finds the length of the longest common prefix. *)
Lemma common_prefix_len_ok a b : common_prefix_len a b = Ok (lcp a b).
Proof.
  unfold common_prefix_len. pose proof (lcp_min a b) as Hm.
  destruct (rwhileM_inv (λ n, n ≤ lcp a b) (λ n, length a `min` length b - n)
    (λ n, same_at a b (length a `min` length b) n 8) (λ n, Ok (n + 8)) (length a `min` length b) 0)
    as (n & -> & Hn & He); [lia|lia| |].
  - intros n Hn. rewrite same_at_ok by done. eexists. split; [done|].
    rewrite bool_decide_eq_true. intros H8. eexists. split; [done|]. lia.
  - rewrite same_at_ok in He by done. injection He as He. apply bool_decide_eq_false in He.
    cbn [mbind Result_bind].
    do 3 (rewrite add_if_same_ok by (repeat case_decide; lia); cbn [mbind Result_bind]).
    f_equal. repeat case_decide; lia.
Qed.

(** ** The prefix code *)

(** A vector's length fits [isize]. *)
Definition vec_ok (k : bytes) : Prop := (Z.of_nat (length k) < 2 ^ 63)%Z.

Local Abbreviation len_of n := (len_bytes write_len_fuel (Z.of_nat n)).

(** What is written for [k] after [prev]. *)
Definition enc_key (prev k : bytes) : bytes :=
  let n := lcp prev k in
  if decide (n = length k) then len_of 0
  else len_of (S (length k - n)) ++ len_of n ++ drop n k.

Fixpoint enc_keys (prev : bytes) (ks : list bytes) : bytes :=
  match ks with [] => [] | k :: ks => enc_key prev k ++ enc_keys k ks end.

Lemma write_key_ok prev k :
  vec_ok k → (k `prefix_of` prev → k = prev) → write_key prev k = Ok (k, enc_key prev k).
Proof.
  intros Hk Hp. unfold write_key, enc_key, vec_ok in *. rewrite common_prefix_len_ok.
  cbn [mbind Result_bind]. pose proof (lcp_min prev k). pose proof (take_lcp _ prev k (le_n _)) as Ht.
  destruct (decide (lcp prev k = length k)) as [E|E].
  - rewrite decide_True by lia. rewrite write_len_Ok by (unfold in_u; lia). cbn [mbind Result_bind].
    rewrite E, firstn_all in Ht. rewrite <- Hp; [done|]. rewrite <- Ht. apply prefix_take.
  - rewrite decide_False by lia. unfold usize. rewrite wrapu_id by (unfold in_u; lia).
    replace (Z.of_nat (length k - lcp prev k) + 1)%Z with (Z.of_nat (S (length k - lcp prev k))) by lia.
    rewrite !write_len_Ok by (unfold in_u; lia). cbn [mbind Result_bind].
    by rewrite Ht, take_drop.
Qed.

(** The reader may have read more keys than the writer has written: a writer starts
    afresh with every batch. *)
Lemma next_key_ok p prev k e rest :
  vec_ok k → prev = p ∨ prev = [] → bytes_le p k →
  next_key (mkReader p e) (enc_key prev k ++ rest) = Ok (mkReader k (bool_decide (k = prev)), rest).
Proof.
  intros Hk Hprev Hle. unfold next_key, enc_key, vec_ok in *.
  pose proof (lcp_min prev k). pose proof (take_lcp _ prev k (le_n _)) as Ht.
  destruct (decide (lcp prev k = length k)) as [E|E].
  - erewrite reader_bind_Ok by (apply (read_len_app 0); unfold in_u; lia).
    rewrite bool_decide_eq_false_2 by lia. cbn [cur_key].
    assert (k = p ∧ k = prev) as [<- <-]; [|by rewrite bool_decide_eq_true_2].
    rewrite E, firstn_all in Ht. destruct Hprev as [->| ->].
    + assert (p = k) as ->; [|done]. apply bytes_le_prefix; [|done]. rewrite <- Ht. apply prefix_take.
    + rewrite take_nil in Ht. subst k. split; [|done]. symmetry.
      apply bytes_le_prefix; [apply prefix_nil|done].
  - assert (k ≠ prev) as Hne.
    { intros ->. apply E. assert (length prev ≤ lcp prev prev); [|lia]. apply lcp_spec. by rewrite Nat.min_id. }
    rewrite bool_decide_eq_false_2 by done. rewrite <- !app_assoc.
    erewrite reader_bind_Ok by (apply read_len_app; unfold in_u; lia).
    rewrite bool_decide_eq_true_2 by lia.
    erewrite reader_bind_Ok by (apply read_len_app; unfold in_u; lia).
    rewrite Nat2Z.id. cbn [cur_key].
    assert (lcp prev k ≤ length p ∧ take (lcp prev k) p = take (lcp prev k) k) as [Hl Htp].
    { destruct Hprev as [->| ->]; [split; [lia|done]|]. cbn. split; [lia|done]. }
    rewrite decide_True by done.
    erewrite reader_bind_Ok by (apply read_exact_app; rewrite length_drop; lia).
    by rewrite Htp, take_drop.
Qed.

(** ** Collectors *)

(** Where the keys of a buffer start, from [n] on. *)
Fixpoint starts (n : nat) (ks : list bytes) : list nat :=
  match ks with [] => [] | k :: ks => n :: starts (n + length k) ks end.

Lemma length_starts n ks : length (starts n ks) = length ks.
Proof. revert n. induction ks; intros; cbn; auto. Qed.

Lemma starts_app n ks ks' : starts n (ks ++ ks') = starts n ks ++ starts (n + length (concat ks)) ks'.
Proof.
  revert n. induction ks as [|k ks IH]; intros n; cbn; [f_equal; lia|].
  rewrite IH, length_app. do 3 f_equal. lia.
Qed.

(** The collector that has been given [ks], open and frozen. *)
Definition collected (ks : list bytes) : InMemRowsKeyCollector := mkInMem (concat ks) (starts 0 ks).

Lemma inmem_add_key_ok ks k : inmem_add_key (collected ks) k = collected (ks ++ [k]).
Proof.
  unfold inmem_add_key, collected. cbn [buffer offsets]. rewrite starts_app, concat_app. cbn.
  by rewrite app_nil_r.
Qed.

Definition frozen (ks : list bytes) : InMemRowsKeyCollector := inmem_freeze (collected ks).

Lemma offsets_frozen ks : offsets (frozen ks) = starts 0 (ks ++ [[]]).
Proof. unfold frozen, inmem_freeze, collected. cbn. by rewrite starts_app. Qed.

Lemma starts_lookup n ks i k :
  ks !! i = Some k → starts n ks !! i = Some (n + length (concat (take i ks))).
Proof.
  revert n i. induction ks as [|k' ks IH]; intros n [|i] Hi; [done..| |].
  - cbn. f_equal. lia.
  - cbn. rewrite (IH _ _ Hi), length_app. f_equal. lia.
Qed.

Lemma frozen_key ks i k : ks !! i = Some k → key (frozen ks) i = Ok k.
Proof.
  intros Hi. pose proof (lookup_lt_Some _ _ _ Hi) as Hlt. unfold key, rows_key.
  assert ((ks ++ [[]]) !! i = Some k) as Hi0 by (by apply lookup_app_l_Some).
  assert (is_Some ((ks ++ [[]]) !! (i + 1))) as [k' Hi1]
    by (apply lookup_lt_is_Some; rewrite length_app; cbn; lia).
  rewrite offsets_frozen, (proj2 (uindex_Ok _ _ _) (starts_lookup _ _ _ _ Hi0)). cbn [mbind Result_bind].
  rewrite (proj2 (uindex_Ok _ _ _) (starts_lookup _ _ _ _ Hi1)). cbn [mbind Result_bind].
  rewrite !take_app_le by lia. rewrite Nat.add_1_r, (take_S_r _ _ _ Hi), concat_app. cbn.
  rewrite app_nil_r, length_app.
  assert (concat ks = concat (take i ks) ++ k ++ concat (drop (S i) ks)) as E.
  { rewrite <- (take_drop_middle ks i k) at 1 by done. by rewrite concat_app. }
  rewrite decide_True by (rewrite E, !length_app; lia).
  rewrite E, drop_app_length, Nat.add_comm, Nat.add_sub, take_app_length. done.
Qed.

(** Collecting keys one by one. *)
Lemma inmem_collect ks ks' :
  rfoldM add_key (collected ks) ks' = Ok (collected (ks ++ ks')).
Proof.
  revert ks. induction ks' as [|k ks' IH]; intros ks; cbn [rfoldM]; [by rewrite app_nil_r|].
  cbn [add_key inmem_collector mbind Result_bind]. by rewrite inmem_add_key_ok, IH, <- app_assoc.
Qed.

Lemma sorted_prefix_eq prev k : bytes_le prev k → k `prefix_of` prev → k = prev.
Proof. intros Hle Hp. symmetry. by apply bytes_le_prefix. Qed.

Lemma squeeze_add_key_ok prev out k :
  vec_ok k → bytes_le prev k → squeeze_add_key (mkSqueeze prev out) k = Ok (mkSqueeze k (out ++ enc_key prev k)).
Proof.
  intros. unfold squeeze_add_key. cbn [sorted_key_writer store].
  by rewrite write_key_ok by eauto using sorted_prefix_eq.
Qed.

Lemma squeeze_collect prev out ks :
  Forall vec_ok ks → StronglySorted bytes_le (prev :: ks) →
  rfoldM squeeze_add_key (mkSqueeze prev out) ks =
    Ok (mkSqueeze (default prev (last ks)) (out ++ enc_keys prev ks)).
Proof.
  intros Hks. revert prev out. induction Hks as [|k ks Hk _ IH]; intros prev out Hs; cbn [rfoldM enc_keys].
  { by rewrite app_nil_r. }
  apply StronglySorted_inv in Hs as [Hs Hle]. apply Forall_cons_1 in Hle as [Hle _].
  rewrite squeeze_add_key_ok by done. cbn [mbind Result_bind]. rewrite IH by done. rewrite <- app_assoc. do 2 f_equal.
  rewrite last_cons. by destruct (last ks).
Qed.

(** ** Round trip of a batch of keys *)

(** Reading [n] keys, each with the answer of [is_equal_to_prev]. *)
Fixpoint read_keys (n : nat) (r : SortedKeysReader) : Reader (list (bytes * bool)) :=
  match n with
  | O => mret []
  | S n => r ← next_key r; ks ← read_keys n r; mret ((cur_key r, is_equal_to_prev r) :: ks)
  end.

(** Every key with whether it repeats the one before it. *)
Fixpoint with_repeats (prev : bytes) (ks : list bytes) : list (bytes * bool) :=
  match ks with [] => [] | k :: ks => (k, bool_decide (k = prev)) :: with_repeats k ks end.

Lemma read_keys_ok prev e ks rest :
  Forall vec_ok ks → StronglySorted bytes_le (prev :: ks) →
  read_keys (length ks) (mkReader prev e) (enc_keys prev ks ++ rest) = Ok (with_repeats prev ks, rest).
Proof.
  intros Hks. revert prev e. induction Hks as [|k ks Hk _ IH]; intros prev e Hs; cbn [enc_keys]; [done|].
  apply StronglySorted_inv in Hs as [Hs Hle]. apply Forall_cons_1 in Hle as [Hle _].
  cbn [length read_keys with_repeats]. rewrite <- app_assoc.
  erewrite reader_bind_Ok by (apply next_key_ok; auto).
  erewrite reader_bind_Ok by (by apply IH). done.
Qed.

Lemma sorted_from_nil ks : StronglySorted bytes_le ks → StronglySorted bytes_le ([] :: ks).
Proof. intros. constructor; [done|]. apply Forall_true, bytes_le_nil. Qed.

(** C16: ascending keys of any lengths that are squeezed by their common prefixes are
    read back one by one, each with a flag that is set exactly when the key repeats the
    one before it (the empty key before the first), and the bytes behind them are left.
    *)
Theorem squeezed_keys_roundtrip ks rest :
  Forall vec_ok ks → StronglySorted bytes_le ks →
  ∃ c, rfoldM add_key (kc_default : SqueezeKeyCollector) ks = Ok c ∧
    read_keys (length ks) default_reader (store (freeze c) ++ rest) = Ok (with_repeats [] ks, rest).
Proof.
  intros Hks Hs. apply sorted_from_nil in Hs. eexists.
  split; [by apply squeeze_collect|]. by apply read_keys_ok.
Qed.

(** The in-memory collector hands over all its keys. *)
Lemma inmem_into_rows_ok ks :
  (Z.of_nat (length ks) < 2 ^ 64)%Z →
  into_rows (frozen ks) (length ks) = Ok (mkRows (concat ks) (offsets (frozen ks))).
Proof.
  intros Hk. cbn [into_rows inmem_collector]. unfold inmem_into_rows.
  rewrite offsets_frozen, length_starts, length_app. cbn [length]. unfold usize.
  rewrite bool_decide_eq_true_2; [done|]. rewrite wrapu_id; unfold in_u; lia.
Qed.

(** Converting a squeezed collector to rows always panics: the collector that receives
    the keys has one offset less than [into_rows] expects. *)
Theorem squeeze_into_rows_panics ks :
  Forall vec_ok ks → StronglySorted bytes_le ks → (Z.of_nat (length ks) < 2 ^ 64)%Z →
  ∃ c, rfoldM add_key (kc_default : SqueezeKeyCollector) ks = Ok c ∧
    into_rows (freeze c) (length ks) = Panic.
Proof.
  intros Hks Hs Hlen. apply sorted_from_nil in Hs. eexists. split; [by apply squeeze_collect|].
  cbn [into_rows freeze squeeze_collector app]. unfold squeeze_into_rows, range. rewrite Nat.sub_0_r.
  cbn [store]. change default_reader with (mkReader [] false). change (mkInMem [] []) with (collected []).
  assert (∀ ks0 prev e n, Forall vec_ok ks → StronglySorted bytes_le (prev :: ks) →
    ∃ e', rfoldM (λ '(reader, r, c) (_ : nat),
      '(reader, r) ← next_key reader r; Ok (reader, r, inmem_add_key c (cur_key reader)))
      (mkReader prev e, enc_keys prev ks, collected ks0) (seq n (length ks))
    = Ok (mkReader (default prev (last ks)) e', [], collected (ks0 ++ ks))) as Hfold.
  { clear. induction ks as [|k ks IH]; intros ks0 prev e n Hks Hs.
    { exists e. cbn. by rewrite app_nil_r. }
    apply Forall_cons_1 in Hks as [Hk Hks]. apply StronglySorted_inv in Hs as [Hs Hle].
    apply Forall_cons_1 in Hle as [Hle _]. cbn [length seq rfoldM enc_keys].
    rewrite (next_key_ok prev prev k e) by auto. cbn [mbind Result_bind cur_key].
    rewrite inmem_add_key_ok. destruct (IH (ks0 ++ [k]) k (bool_decide (k = prev)) (S n)) as (e' & ->); [done..|].
    exists e'. rewrite <- app_assoc, last_cons. by destruct (last ks). }
  destruct (Hfold [] [] false 0 Hks Hs) as (e' & ->). cbn [mbind Result_bind app].
  unfold inmem_into_rows, collected. cbn [offsets]. rewrite length_starts.
  rewrite bool_decide_eq_false_2; [done|]. unfold usize, wrapu.
  intros E. destruct (decide (length ks = 0)) as [Hz|Hz]; [by rewrite Hz in E|].
  rewrite Z.mod_small in E by lia. lia.
Qed.

(** A key that is shorter than its predecessor and a prefix of it is read back wrong:
    the order of the keys is not only for the merge. *)
Example prefix_key_lost :
  ∃ c, rfoldM add_key (kc_default : SqueezeKeyCollector) [[1; 2]; [1]]%Z = Ok c ∧
    read_keys 2 default_reader (store c) = Ok ([([1; 2]%Z, false); ([1; 2]%Z, true)], []).
Proof. eexists. split; [vm_compute; reflexivity|vm_compute; reflexivity]. Qed.

Lemma squeezed_keys_roundtrip_witness :
  let ks := [[1; 2]; [1; 2]; [1; 2; 0]; [3]]%Z in
  ∃ c, rfoldM add_key (kc_default : SqueezeKeyCollector) ks = Ok c ∧
    read_keys 4 default_reader (store (freeze c) ++ [7]%Z) = Ok (with_repeats [] ks, [7]%Z).
Proof.
  apply (squeezed_keys_roundtrip [[1; 2]; [1; 2]; [1; 2; 0]; [3]]%Z [7]%Z).
  - repeat constructor; unfold vec_ok; cbn; lia.
  - repeat constructor; done.
Defined.

Lemma squeeze_into_rows_panics_witness :
  ∃ c, rfoldM add_key (kc_default : SqueezeKeyCollector) [[1]; [2]]%Z = Ok c ∧ into_rows (freeze c) 2 = Panic.
Proof.
  apply (squeeze_into_rows_panics [[1]; [2]]%Z).
  - repeat constructor; unfold vec_ok; cbn; lia.
  - repeat constructor; done.
  - done.
Defined.
