(* ===== verification/SortPrune.v ===== *)
(** * Sort keys and the columns they replace

    native-engine/datafusion-ext-plans/src/sort_exec.rs [PruneSortKeysFromBatch]: a column
    that is a sort key itself is dropped from the sorted batches and restored from the
    encoded keys.  Expressions and arrow's row format are parameters; a schema is the
    number of its fields.

    [prune_ok] and [restore_ok] describe the two directions row by row, and [restore_prune]
    shows that they are inverse as long as the projection leaves the key columns where
    they are; [prune_wrong_projection] is a projection that does not. *)

From S2P Require Import Prelude MachineInt Io Joins SortKeys.

Set Default Proof Using "Type".

Local Abbreviation bytes := (list Z).

(** A sort expression: the position of the column it names, if it is one. *)
Record SortExpr {V} := mkSortExpr {
  column_of : option nat;
  evaluate : RecordBatch (V:=V) → Result (list V) }.
Arguments SortExpr : clear implicits.
Arguments mkSortExpr {V} column_of evaluate.

Inductive ColMapper := FromPrunedBatch (idx : nat) | FromKey (idx : nat).

Record PruneSortKeysFromBatch {V} := mkPrune {
  input_projection : list nat;
  key_exprs : list (SortExpr V);
  key_cols : list nat;
  restored_col_mappers : list ColMapper;
  restored_schema : nat;
  pruned_schema : nat }.
Arguments PruneSortKeysFromBatch : clear implicits.

Section SortPrune.
Context {V : Type} (null : V).
Context (row_encode : list V → bytes) (row_decode : bytes → Result (list V)).

Local Abbreviation Batch := (RecordBatch (V:=V)).
Local Abbreviation row_at := (row_at null).
Local Abbreviation batch_rows := (batch_rows null).

(** ** Operations *)

(** [for (expr_idx, expr) in exprs.iter().enumerate()] *)
Definition relation_of (exprs : list (SortExpr V)) : list (nat * nat) :=
  omap (λ '(expr_idx, e), col ← column_of e; Some (expr_idx, col)) (enumerate exprs).

(** The mappers of the fields from [col_idx] on. *)
Fixpoint col_mappers (relation : list (nat * nat)) (num_pruned_cols col_idx n : nat) : list ColMapper :=
  match n with
  | O => []
  | S n =>
    match list_find (λ kv, kv.2 = col_idx) relation with
    | Some (_, kv) => FromKey kv.1 :: col_mappers relation (num_pruned_cols + 1) (col_idx + 1) n
    | None => FromPrunedBatch (col_idx - num_pruned_cols) :: col_mappers relation num_pruned_cols (col_idx + 1) n
    end
  end.

Definition try_new (input_schema : nat) (input_projection : list nat) (exprs : list (SortExpr V))
    : Result (PruneSortKeysFromBatch V) :=
  if decide (Forall (λ i, i < input_schema) input_projection) then
    let input_projected_schema := length input_projection in
    let relation := relation_of exprs in
    let pruned_cols := relation.*2 in
    let fields_after_pruning := filter (λ i, i ∉ pruned_cols) (seq 0 input_projected_schema) in
    Ok {| input_projection := input_projection;
          key_exprs := exprs;
          key_cols := pruned_cols;
          restored_col_mappers := col_mappers relation 0 0 input_projected_schema;
          restored_schema := input_projected_schema;
          pruned_schema := length fields_after_pruning |}
  else Err (Execution "project index out of bounds").

Definition is_all_pruned (p : PruneSortKeysFromBatch V) : bool := bool_decide (pruned_schema p = 0).

(** [RowConverter::convert_columns] and [convert_rows] for [n] fields. *)
Definition convert_columns (cols : list (list V)) : list bytes :=
  match cols with
  | [] => []
  | c :: _ => (λ i, row_encode (row_at cols i)) <$> seq 0 (length c)
  end.

Definition convert_rows (n : nat) (rows : list bytes) : Result (list (list V)) :=
  rows ← rmapM row_decode rows;
  let column j := (λ r, nth j r null) <$> (rows : list (list V)) in
  Ok (column <$> seq 0 n).

Definition prune (p : PruneSortKeysFromBatch V) (batch : Batch) : Result (list bytes * Batch) :=
  key_columns ← rmapM (λ e, evaluate e batch) (key_exprs p);
  let key_rows := convert_columns key_columns in
  projected ← project (input_projection p) (columns batch);
  let retained_cols := (filter (λ '(col_idx, _), col_idx ∉ key_cols p) (enumerate projected)).*2 in
  pruned_batch ← try_new_batch (pruned_schema p) retained_cols (num_rows batch);
  Ok (key_rows, pruned_batch).

(** The rows held by a buffer with offsets. *)
Definition rows_iter (r : Rows) : Result (list bytes) :=
  rmapM (rows_key (r_buffer r) (r_offsets r)) (seq 0 (length (r_offsets r) - 1)).

(** One field of the restored batch. *)
Definition restore_field (p : PruneSortKeysFromBatch V) (pruned_batch : Batch) (keys : list bytes)
    (map : ColMapper) : Result (list V) :=
  match map with
  | FromPrunedBatch idx => index (columns pruned_batch) idx
  | FromKey idx =>
      key_columns ← convert_rows (length (key_exprs p)) keys;
      index key_columns idx
  end.

Definition restore_from_existed_key_rows (p : PruneSortKeysFromBatch V) (pruned_batch : Batch) (key_rows : Rows)
    : Result Batch :=
  keys ← rows_iter key_rows;
  restored_fields ← rmapM (restore_field p pruned_batch keys) (restored_col_mappers p);
  try_new_batch (restored_schema p) restored_fields (num_rows pruned_batch).

Definition restore {KC} `{KeyCollector KC} (p : PruneSortKeysFromBatch V) (pruned_batch : Batch) (key_collector : KC)
    : Result Batch :=
  key_rows ← into_rows key_collector (num_rows pruned_batch);
  restore_from_existed_key_rows p pruned_batch key_rows.

(** ** Lemmas on positions *)

Section Positions.
Context (P : nat → Prop) `{∀ i, Decision (P i)}.

(** The elements at the positions that satisfy [P], counting from [k]. *)
Fixpoint at_positions {A} (k : nat) (l : list A) : list A :=
  match l with
  | [] => []
  | x :: l => if decide (P k) then x :: at_positions (S k) l else at_positions (S k) l
  end.

Lemma filter_enumerate {A} (l : list A) : (filter (λ '(i, _), P i) (enumerate l)).*2 = at_positions 0 l.
Proof.
  unfold enumerate.
  assert (∀ k, (filter (λ '(i, _), P i) (imap (λ i x, (k + i, x)) l)).*2 = at_positions k l) as Hk; [|apply (Hk 0)].
  induction l as [|x l IH]; intros k; [done|]. rewrite imap_cons, filter_cons, Nat.add_0_r.
  assert (imap ((λ i x, (k + i, x)) ∘ S) l = imap (λ i x, (S k + i, x)) l) as ->.
  { apply imap_ext. intros i y _. cbn. f_equal. lia. }
  cbn [at_positions]. destruct (decide (P k)).
  - rewrite fmap_cons. f_equal. apply IH.
  - apply IH.
Qed.

Lemma at_positions_fmap {A B} (f : A → B) k (l : list A) : at_positions k (f <$> l) = f <$> at_positions k l.
Proof.
  revert k. induction l as [|x l IH]; intros k; [done|]. rewrite fmap_cons. cbn [at_positions].
  case_decide; [rewrite fmap_cons; f_equal|]; apply IH.
Qed.

Lemma length_at_positions {A} k (l : list A) : length (at_positions k l) = length (filter P (seq k (length l))).
Proof.
  revert k. induction l as [|x l IH]; intros k; [done|]. cbn [at_positions length seq]. rewrite filter_cons.
  case_decide; cbn; auto.
Qed.

Lemma at_positions_lookup {A} k (l : list A) i :
  i < length l → P (k + i) → at_positions k l !! length (filter P (seq k i)) = l !! i.
Proof.
  revert k i. induction l as [|x l IH]; intros k [|i] Hi HP; cbn in Hi; [lia..| |].
  - rewrite Nat.add_0_r in HP. cbn. by rewrite decide_True.
  - cbn [at_positions seq]. rewrite filter_cons. assert (P (S k + i)) by (by replace (S k + i) with (k + S i) by lia).
    case_decide; cbn; apply IH; first [lia|done].
Qed.

End Positions.

(** ** What the mappers say *)

Lemma elem_of_relation exprs j i :
  (j, i) ∈ relation_of exprs ↔ ∃ e, exprs !! j = Some e ∧ column_of e = Some i.
Proof.
  unfold relation_of. rewrite list_elem_of_omap. split.
  - intros ([j' e] & Hin & E). apply elem_of_enumerate in Hin. destruct (column_of e) eqn:Ec; [|done].
    cbn in E. injection E as <- <-. eauto.
  - intros (e & He & Ec). exists (j, e). split; [by apply elem_of_enumerate|]. by rewrite Ec.
Qed.

(** The mapper of field [i]. *)
Definition mapper_of (relation : list (nat * nat)) (i : nat) : ColMapper :=
  match list_find (λ kv, kv.2 = i) relation with
  | Some (_, kv) => FromKey kv.1
  | None => FromPrunedBatch (length (filter (λ j, j ∉ relation.*2) (seq 0 i)))
  end.

Lemma mapper_of_cases relation i :
  (∃ j, (j, i) ∈ relation ∧ mapper_of relation i = FromKey j) ∨
  (i ∉ relation.*2 ∧ mapper_of relation i = FromPrunedBatch (length (filter (λ j, j ∉ relation.*2) (seq 0 i)))).
Proof.
  unfold mapper_of. destruct (list_find _ _) as [[n [j i']]|] eqn:E.
  - apply list_find_Some in E as (Hn & Ei & _). cbn in Ei. subst i'. left. exists j.
    split; [by eapply list_elem_of_lookup_2|done].
  - right. split; [|done]. apply list_find_None in E. intros ([j i'] & -> & Hin)%list_elem_of_fmap.
    rewrite Forall_forall in E. by apply (E _ Hin).
Qed.

Lemma filter_complement (P : nat → Prop) `{∀ i, Decision (P i)} l :
  length (filter P l) + length (filter (λ i, ¬ P i) l) = length l.
Proof. induction l as [|x l IH]; [done|]. rewrite !filter_cons. repeat case_decide; cbn; (lia || done). Qed.

Lemma col_mappers_ok relation np start n :
  np = length (filter (λ j, j ∈ relation.*2) (seq 0 start)) →
  col_mappers relation np start n = mapper_of relation <$> seq start n.
Proof.
  revert np start. induction n as [|n IH]; intros np start ->; [done|].
  pose proof (filter_complement (λ j, j ∈ relation.*2) (seq 0 start)) as Hc. rewrite length_seq in Hc.
  cbn [col_mappers seq]. rewrite fmap_cons. unfold mapper_of at 1.
  assert (∀ b, b = (if decide (start ∈ relation.*2) then 1 else 0) →
    length (filter (λ j, j ∈ relation.*2) (seq 0 start)) + b = length (filter (λ j, j ∈ relation.*2) (seq 0 (start + 1)))) as Hstep.
  { intros b ->. rewrite seq_app, filter_app, length_app. cbn [seq Nat.add]. rewrite filter_cons. by case_decide. }
  destruct (list_find _ _) as [[k kv]|] eqn:E.
  - f_equal. rewrite IH; [by rewrite Nat.add_1_r|]. apply Hstep. rewrite decide_True; [done|].
    apply list_find_Some in E as (Hk & Ei & _). apply list_elem_of_fmap. exists kv.
    split; [done|by eapply list_elem_of_lookup_2].
  - f_equal; [f_equal; lia|]. rewrite IH; [by rewrite Nat.add_1_r|].
    rewrite <- (Nat.add_0_r (length _)). apply Hstep. rewrite decide_False; [done|].
    apply list_find_None in E. intros (kv & -> & Hin)%list_elem_of_fmap.
    rewrite Forall_forall in E. by apply (E _ Hin).
Qed.

(** ** Rows *)

(** The laws of arrow's row format for [n] sort fields; [row_le] is the order that the
    sort options describe. *)
Class SortFormat (row_le : relation (list V)) (n : nat) : Prop := {
  sf_roundtrip : ∀ g, length g = n → row_decode (row_encode g) = Ok g;
  sf_size : ∀ g, length g = n → vec_ok (row_encode g);
  sf_order : ∀ a b, length a = n → length b = n → bytes_le (row_encode a) (row_encode b) ↔ row_le a b }.

(** A sort expression computes [f] on every row of [nf] values. *)
Record expr_ok (nf : nat) (e : SortExpr V) (f : list V → V) : Prop := {
  eo_eval : ∀ b, batch_ok b → length (columns b) = nf → evaluate e b = Ok (f <$> batch_rows b);
  eo_column : ∀ i, column_of e = Some i → i < nf ∧ ∀ r, length r = nf → f r = nth i r null }.

Context (nf : nat) (projection : list nat) (exprs : list (SortExpr V)) (fs : list (list V → V)).

Record prune_wf (p : PruneSortKeysFromBatch V) : Prop := {
  pw_new : try_new nf projection exprs = Ok p;
  pw_exprs : Forall2 (expr_ok nf) exprs fs;
  pw_some : exprs ≠ [];
  pw_fixed : ∀ i c, projection !! i = Some c → i ∈ key_cols p → c = i }.

Definition sort_values (r : list V) : list V := (λ f, f r) <$> fs.
Definition row_key (r : list V) : bytes := row_encode (sort_values r).

(** The columns that stay in the pruned batches. *)
Definition kept_cols (p : PruneSortKeysFromBatch V) : list nat :=
  at_positions (λ i, i ∉ key_cols p) 0 (input_projection p).

Definition prune_row (p : PruneSortKeysFromBatch V) (r : list V) : list V := proj_row null (kept_cols p) r.

Definition restore_value (g pr : list V) (m : ColMapper) : V :=
  match m with FromPrunedBatch i => nth i pr null | FromKey j => nth j g null end.

Definition restore_row (p : PruneSortKeysFromBatch V) (g pr : list V) : list V :=
  restore_value g pr <$> restored_col_mappers p.

Lemma prune_wf_fields p :
  prune_wf p →
  Forall (λ i, i < nf) projection ∧ input_projection p = projection ∧ key_exprs p = exprs ∧
  key_cols p = (relation_of exprs).*2 ∧ restored_schema p = length projection ∧
  restored_col_mappers p = mapper_of (relation_of exprs) <$> seq 0 (length projection) ∧
  pruned_schema p = length (kept_cols p).
Proof.
  intros [Hnew _ _ _]. unfold try_new in Hnew. case_decide; [|done]. injection Hnew as <-.
  cbn. split_and!; try done.
  - by apply col_mappers_ok.
  - unfold kept_cols. cbn. by rewrite length_at_positions.
Qed.

Lemma kept_cols_bound p : prune_wf p → Forall (λ k, k < nf) (kept_cols p).
Proof.
  intros Hp. destruct (prune_wf_fields p Hp) as (Hproj & Hip & _). unfold kept_cols. rewrite Hip. clear Hip.
  generalize 0. induction Hproj as [|c l Hc _ IH]; intros n; cbn; [constructor|]. by case_decide; [constructor; [done|apply IH]|apply IH].
Qed.

Lemma length_row_at (cols : list (list V)) i : length (row_at cols i) = length cols.
Proof. apply length_fmap. Qed.

Lemma length_batch_rows (b : Batch) : length (batch_rows b) = num_rows b.
Proof. unfold Joins.batch_rows. by rewrite length_fmap, length_seq. Qed.

Lemma elem_of_batch_rows (b : Batch) r : r ∈ batch_rows b → length r = length (columns b).
Proof. intros (i & -> & _)%list_elem_of_fmap. apply length_row_at. Qed.

(** Selecting columns of a batch. *)
Lemma row_at_select (cols : list (list V)) idxs i :
  row_at ((λ k, nth k cols []) <$> idxs) i = proj_row null idxs (row_at cols i).
Proof.
  unfold Joins.row_at, proj_row. rewrite <- list_fmap_compose. apply list_fmap_ext. intros _ k _.
  unfold compose. rewrite !(nth_lookup _ k), list_lookup_fmap.
  destruct (cols !! k) as [c|]; [done|by destruct i].
Qed.

Lemma project_select idxs (cols : list (list V)) :
  Forall (λ i, i < length cols) idxs → project idxs cols = Ok ((λ k, nth k cols []) <$> idxs).
Proof.
  intros Hi. apply rmapM_pure. intros k Hk. rewrite Forall_forall in Hi. apply index_Ok.
  destruct (lookup_lt_is_Some_2 cols k (Hi k Hk)) as [c Hc]. by rewrite nth_lookup, Hc.
Qed.

(** ** Pruning *)

Lemma evaluate_all p b :
  prune_wf p → batch_ok b → length (columns b) = nf →
  rmapM (λ e, evaluate e b) (key_exprs p) = Ok ((λ f, f <$> batch_rows b) <$> fs).
Proof.
  intros Hp Hb Hn. destruct (prune_wf_fields p Hp) as (_ & _ & -> & _). destruct Hp as [_ Hfs _ _].
  apply rmapM_Ok. rewrite Forall2_fmap_r. eapply Forall2_impl; [exact Hfs|].
  intros e f He. by apply (eo_eval _ _ _ He).
Qed.

Lemma convert_columns_ok (b : Batch) :
  fs ≠ [] → convert_columns ((λ f, f <$> batch_rows b) <$> fs) = row_key <$> batch_rows b.
Proof.
  intros Hne. unfold convert_columns. set (cols := (λ f, f <$> batch_rows b) <$> fs).
  assert (∃ c cs, cols = c :: cs ∧ length c = num_rows b) as (c & cs & Ec & Hc).
  { unfold cols. destruct fs as [|f fs']; [done|]. eexists _, _. split; [done|].
    by rewrite length_fmap, length_batch_rows. }
  transitivity ((λ i, row_encode (row_at cols i)) <$> seq 0 (num_rows b)); [by rewrite Ec, Hc|].
  unfold Joins.batch_rows. rewrite <- list_fmap_compose.
  apply list_fmap_ext. intros k i [-> Hi]%lookup_seq. unfold compose, row_key, sort_values. f_equal.
  unfold cols, Joins.row_at at 1. rewrite <- list_fmap_compose. apply list_fmap_ext. intros _ g _. unfold compose.
  rewrite nth_lookup, list_lookup_fmap. unfold Joins.batch_rows.
  by rewrite list_lookup_fmap, lookup_seq_lt by done.
Qed.

Lemma prune_ok p b :
  prune_wf p → batch_ok b → length (columns b) = nf →
  ∃ q, prune p b = Ok (row_key <$> batch_rows b, q) ∧ batch_ok q ∧ num_rows q = num_rows b ∧
    length (columns q) = pruned_schema p ∧ batch_rows q = prune_row p <$> batch_rows b.
Proof.
  intros Hp Hb Hn. pose proof (evaluate_all p b Hp Hb Hn) as He.
  destruct (prune_wf_fields p Hp) as (Hproj & Hip & _ & Hkc & _ & _ & Hps).
  unfold prune. rewrite He. cbn [mbind Result_bind]. rewrite Hip, project_select by (by rewrite Hn).
  cbn [mbind Result_bind]. rewrite convert_columns_ok.
  2:{ destruct Hp as [_ Hfs Hsome _]. intros ->. by apply Forall2_nil_inv_r in Hfs. }
  rewrite (filter_enumerate (λ i, i ∉ key_cols p)), at_positions_fmap. rewrite <- Hip. fold (kept_cols p).
  set (cols := (λ k, nth k (columns b) []) <$> kept_cols p).
  assert (Forall (λ c, length c = num_rows b) cols) as Hcols.
  { apply Forall_fmap, Forall_forall. intros k Hk. cbn.
    pose proof (kept_cols_bound p Hp) as Hkp. rewrite Forall_forall in Hkp. specialize (Hkp k Hk).
    destruct (lookup_lt_is_Some_2 (columns b) k ltac:(lia)) as [c Hc]. rewrite nth_lookup, Hc. cbn.
    unfold batch_ok in Hb. rewrite Forall_lookup in Hb. eauto. }
  unfold try_new_batch. rewrite decide_True by (split; [unfold cols; by rewrite length_fmap|done]).
  cbn [mbind Result_bind]. eexists. split; [done|].
  split; [done|]. split; [done|]. split; [cbn; unfold cols; by rewrite length_fmap, Hps|].
  unfold Joins.batch_rows. cbn [columns num_rows]. rewrite <- list_fmap_compose. apply list_fmap_ext. intros k i _.
  unfold compose. apply row_at_select.
Qed.

(** ** Restoring *)

Lemma restore_ok p q key_rows gs :
  prune_wf p → batch_ok q → length (columns q) = pruned_schema p → length gs = num_rows q →
  Forall (λ g, length g = length exprs ∧ row_decode (row_encode g) = Ok g) gs →
  rows_iter key_rows = Ok (row_encode <$> gs) →
  ∃ b, restore_from_existed_key_rows p q key_rows = Ok b ∧ batch_ok b ∧ num_rows b = num_rows q ∧
    length (columns b) = length projection ∧
    batch_rows b = zip_with (restore_row p) gs (batch_rows q).
Proof.
  intros Hp Hq Hlq Hgs Hdec Hiter. destruct (prune_wf_fields p Hp) as (_ & Hip & Hke & Hkc & Hrs & Hm & Hps).
  unfold restore_from_existed_key_rows. rewrite Hiter. cbn [mbind Result_bind].
  set (field := λ m, match m with
    | FromPrunedBatch i => nth i (columns q) [] | FromKey j => (λ g, nth j g null) <$> gs end).
  assert (rmapM (restore_field p q (row_encode <$> gs)) (restored_col_mappers p) = Ok (field <$> restored_col_mappers p)
    ∧ Forall (λ m, length (field m) = num_rows q ∧
        match m with FromPrunedBatch i => i < length (columns q) | FromKey _ => True end) (restored_col_mappers p)) as [-> Hf].
  { assert (Forall (λ m, restore_field p q (row_encode <$> gs) m = Ok (field m) ∧ length (field m) = num_rows q ∧
        match m with FromPrunedBatch i => i < length (columns q) | FromKey _ => True end) (restored_col_mappers p)) as Hall.
    2:{ split; [apply rmapM_pure; intros m Hin; rewrite Forall_forall in Hall; by apply Hall|].
        eapply Forall_impl; [exact Hall|]. by intros m [_ ?]. }
    rewrite Hm, Forall_fmap. apply Forall_forall. intros i [_ Hi]%elem_of_seq. cbn.
    destruct (mapper_of_cases (relation_of exprs) i) as [(j & Hj & ->)|[Hi' ->]]; cbn.
    - apply elem_of_relation in Hj as (e & He & _). apply lookup_lt_Some in He. rewrite Hke.
      assert (rmapM row_decode (row_encode <$> gs) = Ok gs) as Hd.
      { apply rmapM_Ok. apply Forall2_fmap_l, Forall_Forall2_diag. eapply Forall_impl; [exact Hdec|]. by intros g [_ ?]. }
      unfold convert_rows. rewrite Hd. cbn [mbind Result_bind]. split_and!; [|by rewrite length_fmap|done].
      apply index_Ok. rewrite list_lookup_fmap, lookup_seq_lt by lia. done.
    - set (k := length _). assert (k < length (columns q)) as Hk.
      { rewrite Hlq, Hps. unfold kept_cols, k. rewrite length_at_positions, Hip, <- Hkc.
        replace (length projection) with (i + S (length projection - S i)) by lia.
        rewrite seq_app, filter_app, length_app. cbn [seq]. rewrite filter_cons, decide_True by (by rewrite Hkc). cbn. lia. }
      destruct (lookup_lt_is_Some_2 (columns q) k Hk) as [c Hc]. split_and!; [| |done].
      + apply index_Ok. by rewrite nth_lookup, Hc.
      + rewrite nth_lookup, Hc. cbn. unfold batch_ok in Hq. rewrite Forall_lookup in Hq. eauto. }
  cbn [mbind Result_bind]. unfold try_new_batch. rewrite decide_True.
  2:{ split; [by rewrite length_fmap, Hm, length_fmap, length_seq|]. rewrite Forall_fmap.
      eapply Forall_impl; [exact Hf|]. by intros m [? _]. }
  eexists. split; [done|]. split_and!; [|done| |].
  - unfold batch_ok. cbn. rewrite Forall_fmap. eapply Forall_impl; [exact Hf|]. by intros m [? _].
  - cbn. by rewrite length_fmap, Hm, length_fmap, length_seq.
  - apply list_eq_same_length with (num_rows q);
      [rewrite length_zip_with, length_batch_rows; lia|by rewrite length_batch_rows|].
    intros i x y Hi Hx Hy. unfold Joins.batch_rows in Hx. cbn [columns num_rows] in Hx.
    rewrite list_lookup_fmap, lookup_seq_lt in Hx by done. injection Hx as <-.
    apply lookup_zip_with_Some in Hy as (g & pr & -> & Hg & Hpr). unfold Joins.batch_rows in Hpr.
    rewrite list_lookup_fmap, lookup_seq_lt in Hpr by done. injection Hpr as <-.
    unfold Joins.row_at at 1, restore_row. rewrite <- list_fmap_compose. apply list_fmap_ext. intros _ m Hin%list_elem_of_lookup_2.
    unfold compose. destruct m as [k|j]; cbn [field restore_value].
    + unfold Joins.row_at. rewrite !(nth_lookup _ k), list_lookup_fmap.
      rewrite Forall_forall in Hf. destruct (Hf _ Hin) as [_ Hk]. destruct (lookup_lt_is_Some_2 _ _ Hk) as [c ->]. done.
    + by rewrite nth_lookup, list_lookup_fmap, Hg.
Qed.

(** What was pruned is restored. *)
Lemma restore_row_prune p r :
  prune_wf p → length r = nf → restore_row p (sort_values r) (prune_row p r) = proj_row null projection r.
Proof.
  intros Hp Hr. destruct (prune_wf_fields p Hp) as (Hproj & Hip & _ & Hkc & _ & Hm & _).
  destruct Hp as [_ Hfs _ Hfix]. unfold restore_row, prune_row, proj_row. rewrite Hm, <- list_fmap_compose.
  apply list_eq. intros i. rewrite !list_lookup_fmap. destruct (projection !! i) as [c|] eqn:Ec.
  2:{ rewrite lookup_ge_None_2; [done|]. rewrite length_seq. by apply lookup_ge_None. }
  pose proof (lookup_lt_Some _ _ _ Ec) as Hi. rewrite lookup_seq_lt by done. cbn. f_equal.
  destruct (mapper_of_cases (relation_of exprs) i) as [(j & Hj & ->)|[Hi' ->]]; cbn.
  - assert (i ∈ key_cols p) as Hik by (rewrite Hkc; by apply (list_elem_of_fmap_2 snd _ (j, i))).
    rewrite (Hfix i c Ec Hik). apply elem_of_relation in Hj as (e & He & Hce).
    destruct (Forall2_lookup_l _ _ _ _ _ Hfs He) as (f & Hf & Hef). unfold sort_values.
    rewrite nth_lookup, list_lookup_fmap, Hf. cbn. by apply (eo_column _ _ _ Hef i Hce).
  - rewrite nth_lookup, list_lookup_fmap. unfold kept_cols.
    rewrite Hkc, (at_positions_lookup (λ j, j ∉ (relation_of exprs).*2) 0) by (by rewrite ?Hip).
    by rewrite Hip, Ec.
Qed.

Lemma length_sort_values p r : prune_wf p → length (sort_values r) = length exprs.
Proof. intros [_ Hfs _ _]. unfold sort_values. rewrite length_fmap. symmetry. by eapply Forall2_length. Qed.

Lemma rows_iter_frozen ks : rows_iter (mkRows (concat ks) (offsets (frozen ks))) = Ok ks.
Proof.
  unfold rows_iter. cbn [r_offsets r_buffer]. rewrite offsets_frozen, length_starts, length_app. cbn [length].
  rewrite Nat.add_sub. apply rmapM_Ok. rewrite <- offsets_frozen.
  apply Forall2_same_length_lookup_2; [by rewrite length_seq|].
  intros i j k Hj Hk. apply lookup_seq in Hj as [-> _]. by apply (frozen_key ks).
Qed.

(** Rows of any batches with their keys, gathered into one batch, are restored together. *)
Lemma restore_rows p q rs :
  (∀ g, length g = length exprs → row_decode (row_encode g) = Ok g) →
  prune_wf p → batch_ok q → length (columns q) = pruned_schema p →
  batch_rows q = prune_row p <$> rs → Forall (λ r, length r = nf) rs →
  (Z.of_nat (length rs) < 2 ^ 64)%Z →
  ∃ b, restore p q (frozen (row_key <$> rs)) = Ok b ∧ batch_ok b ∧
    batch_rows b = proj_row null projection <$> rs.
Proof.
  intros Hrt Hp Hq Hlq Hrows Hrs Hlen.
  assert (Hn : num_rows q = length rs).
  { rewrite <- length_batch_rows, Hrows. apply length_fmap. }
  destruct (restore_ok p q (mkRows (concat (row_key <$> rs)) (offsets (frozen (row_key <$> rs)))) (sort_values <$> rs))
    as (b & Hb & Hbok & _ & _ & Hbr); [done..|by rewrite length_fmap| | |].
  - apply Forall_fmap, Forall_true. intros r. cbn. assert (length (sort_values r) = length exprs) as Hl
      by (by apply (length_sort_values p)). auto.
  - rewrite rows_iter_frozen. unfold row_key. by rewrite <- list_fmap_compose.
  - exists b. split; [|split; [done|]].
    + unfold restore. rewrite Hn, <- (length_fmap row_key rs), inmem_into_rows_ok by (by rewrite length_fmap). done.
    + rewrite Hbr, Hrows, zip_with_fmap_l, zip_with_fmap_r, zip_with_diag. apply list_fmap_ext.
      intros i r Hr. apply restore_row_prune; [done|]. rewrite Forall_lookup in Hrs. eauto.
Qed.

(** C17: pruning the sort columns from a batch, collecting the encoded keys and
    restoring gives the projected batch back row by row, when the projection does not
    move sort columns. *)
Theorem prune_restore_roundtrip row_le p b :
  SortFormat row_le (length exprs) → prune_wf p → batch_ok b → length (columns b) = nf →
  (Z.of_nat (num_rows b) < 2 ^ 64)%Z →
  ∃ keys q c b', prune p b = Ok (keys, q) ∧
    rfoldM add_key (kc_default : InMemRowsKeyCollector) keys = Ok c ∧
    restore p q (freeze c) = Ok b' ∧ batch_ok b' ∧
    batch_rows b' = proj_row null projection <$> batch_rows b.
Proof.
  intros Hf Hp Hb Hn Hlen. destruct (prune_ok p b Hp Hb Hn) as (q & Hq & Hqok & Hqn & Hql & Hqr).
  destruct (restore_rows p q (batch_rows b)) as (b' & Hr & Hb' & Hrows); try done.
  - apply Hf.
  - apply Forall_forall. intros r Hr. by rewrite (elem_of_batch_rows _ _ Hr).
  - by rewrite length_batch_rows.
  - exists (row_key <$> batch_rows b), q, (collected (row_key <$> batch_rows b)), b'.
    split; [done|]. split; [apply (inmem_collect [])|]. auto.
Qed.

End SortPrune.

(** ** Concrete rows

    Values are nullable integers; a sort field is encoded as a tag and the value, nulls
    first. *)
Module PruneSample.

Definition encode (g : list (option Z)) : bytes :=
  concat ((λ v, match v with None => [0%Z] | Some z => [1%Z; z] end) <$> g).

Fixpoint decode (l : bytes) : Result (list (option Z)) :=
  match l with
  | [] => Ok []
  | t :: l =>
    if decide (t = 0)%Z then g ← decode l; Ok (None :: g)
    else match l with z :: l => g ← decode l; Ok (Some z :: g) | [] => Err UnexpectedEof end
  end.

Definition value_le (a b : option Z) : Prop :=
  match a, b with None, _ => True | Some _, None => False | Some x, Some y => (x <= y)%Z end.

(** Lexicographic order. *)
Fixpoint row_le (a b : list (option Z)) : Prop :=
  match a, b with
  | [], _ => True
  | _ :: _, [] => False
  | x :: a, y :: b => (value_le x y ∧ x ≠ y) ∨ (x = y ∧ row_le a b)
  end.

Lemma encode_cons v g : encode (v :: g) = (match v with None => [0%Z] | Some z => [1%Z; z] end) ++ encode g.
Proof. done. Qed.

Lemma encode_format n : (Z.of_nat n < 2 ^ 62)%Z → SortFormat encode decode row_le n.
Proof.
  intros Hn. split.
  - intros g _. induction g as [|[z|] g IH]; [done| |]; rewrite encode_cons; cbn; by rewrite IH.
  - intros g Hg. unfold vec_ok. assert (length (encode g) ≤ 2 * length g) as Hl; [|lia].
    clear. induction g as [|[z|] g IH]; [done| |]; rewrite encode_cons, length_app; cbn in *; lia.
  - intros a b Ha Hb. assert (length a = length b) as Hl by congruence. clear -Hl. revert b Hl.
    induction a as [|x a IH]; intros [|y b] Hl; try done. rewrite !encode_cons. injection Hl as Hl.
    specialize (IH b Hl). destruct x as [x|], y as [y|]; cbn [app row_le value_le]; rewrite ?bytes_le_cons, ?IH.
    + assert (Some x ≠ Some y ↔ x ≠ y) as -> by naive_solver. assert (Some x = Some y ↔ x = y) as -> by naive_solver.
      intuition lia.
    + naive_solver lia.
    + naive_solver lia.
    + intuition (try lia; try done).
Qed.

(** A table with two columns, sorted by the first. *)
Definition first_column : SortExpr (option Z) := mkSortExpr (Some 0) (λ b, index (columns b) 0).

Lemma first_column_ok nf : 0 < nf → expr_ok None nf first_column (λ r, nth 0 r None).
Proof.
  intros Hnf. split.
  - intros b Hb Hn. unfold batch_rows. rewrite <- list_fmap_compose. destruct b as [n [|c cols]]; cbn in *; [lia|].
    apply Forall_cons_1 in Hb as [Hc _]. f_equal. cbn in Hc. subst n. apply list_eq. intros i.
    rewrite list_lookup_fmap. destruct (c !! i) as [v|] eqn:E.
    + rewrite lookup_seq_lt by (by eapply lookup_lt_Some). cbn. by rewrite nth_lookup, E.
    + rewrite lookup_ge_None_2; [done|]. rewrite length_seq. by apply lookup_ge_None.
  - intros i [= <-]. done.
Qed.

Definition table : RecordBatch (V:=option Z) := mkBatch 3 [[Some 5; None; Some 2]; [Some 1; Some 2; Some 3]]%Z.

Lemma prune_restore_roundtrip_witness :
  ∃ p, try_new 2 [0; 1] [first_column] = Ok p ∧
  ∃ keys q c b', prune None encode p table = Ok (keys, q) ∧
    rfoldM add_key (kc_default : InMemRowsKeyCollector) keys = Ok c ∧
    restore None decode p q (freeze c) = Ok b' ∧ batch_ok b' ∧
    batch_rows None b' = proj_row None [0; 1] <$> batch_rows None table.
Proof.
  eexists. split; [vm_compute; reflexivity|].
  eapply (prune_restore_roundtrip None encode decode 2 [0; 1] [first_column] [λ r, nth 0 r None] row_le);
    [apply encode_format; done| |repeat constructor|done|done].
  split; [vm_compute; reflexivity| |done|].
  - constructor; [|constructor]. apply first_column_ok. lia.
  - intros [|[|i]] c Hc Hk; [by injection Hc|by apply list_elem_of_singleton in Hk|by destruct i].
Defined.

(** A projection that moves columns: the sorted column is the first of the table and the
    second of the output, where the first output column is the one dropped. *)
Example prune_wrong_projection :
  (p ← try_new 2 [1; 0] [first_column];
   '(keys, q) ← prune None encode p table;
   c ← rfoldM add_key (kc_default : InMemRowsKeyCollector) keys;
   b ← restore None decode p q (freeze c);
   Ok (columns b)) = Ok [[Some 5; None; Some 2]; [Some 5; None; Some 2]]%Z.
Proof. vm_compute. reflexivity. Qed.

End PruneSample.
