(* ===== verification/SortTop.v ===== *)
(** * The first rows of a sorted list

    The specification of an external sort with a limit.  [top n l out] says that [out] is a
    sorted selection of [n] least elements of [l] (of all, if there are fewer); among
    equivalent elements any may be selected.  A sorter may cut every run to the limit before
    it merges them: [top_replace]. *)

From S2P Require Import Prelude.

Set Default Proof Using "Type".

Section Top.
Context {A : Type} (le : relation A) {PO : PreOrder le} {TO : Total le} {RD : RelDecision le}.

Definition top (n : Z) (l out : list A) : Prop :=
  ∃ rest, out ++ rest ≡ₚ l ∧ StronglySorted le out ∧ (∀ x y, x ∈ out → y ∈ rest → le x y) ∧
    (Z.of_nat (length out) <= n)%Z ∧ (rest = [] ∨ Z.of_nat (length out) = n).

#[export] Instance top_perm n : Proper ((≡ₚ) ==> (=) ==> iff) (top n).
Proof. intros l l' Hl o ? <-. unfold top. by setoid_rewrite Hl. Qed.

(** Cutting a part of the input to its first elements first changes nothing. *)
Lemma top_replace n l l1 l2 out : top n l l1 → top n (l1 ++ l2) out → top n (l ++ l2) out.
Proof using PO.
  intros (r1 & Hp1 & Hs1 & Hle1 & Hn1 & He1) (r & Hp & Hs & Hle & Hn & He).
  exists (r ++ r1). split_and!; [|done| |done|].
  - rewrite app_assoc, Hp, <- Hp1, <- !app_assoc. f_equiv. apply Permutation_app_comm.
  - intros x y Hx [Hy|Hy]%elem_of_app; [by apply Hle|].
    assert (length l1 = Z.to_nat n) as Hl1 by (destruct He1 as [->|He1]; [by apply not_elem_of_nil in Hy|lia]).
    assert (l1 ⊆+ out ++ r) as Hsub by (rewrite Hp; apply submseteq_inserts_r; done).
    apply submseteq_app_r in Hsub as (k1 & k2 & Hk & Hk1 & Hk2).
    destruct k2 as [|z k2].
    + rewrite app_nil_r in Hk. apply Hle1; [|done].
      assert (length out ≤ length k1) as Hlen by (rewrite <- Hk; lia).
      pose proof (submseteq_length_Permutation _ _ Hk1 Hlen) as E. by rewrite Hk, E.
    + transitivity z; [apply Hle; [done|]|apply Hle1; [|done]].
      * eapply elem_of_submseteq; [left|done].
      * rewrite Hk. apply elem_of_app. right. left.
  - destruct He as [->|He]; [|by right]. destruct He1 as [->|He1]; [by left|].
    rewrite app_nil_r in Hp. pose proof (Permutation_length Hp) as Hl. rewrite length_app in Hl. right. lia.
Qed.

(** The first elements of the whole are enough: [top] is taken of lists that agree on it. *)
Definition refines (n : Z) (l' l : list A) : Prop := ∀ l2 out, top n (l' ++ l2) out → top n (l ++ l2) out.

#[export] Instance refines_preorder n : PreOrder (refines n).
Proof. split; [by intros l l2 out|]. intros a b c Hab Hbc l2 out Ht. by apply Hbc, Hab. Qed.

#[export] Instance refines_perm n : Proper ((≡ₚ) ==> (≡ₚ) ==> iff) (refines n).
Proof. intros a a' Ha b b' Hb. unfold refines. by setoid_rewrite Ha; setoid_rewrite Hb. Qed.

#[export] Instance refines_app n : Proper (refines n ==> refines n ==> refines n) (++).
Proof.
  intros a a' Ha b b' Hb l2 out Ht. rewrite <- app_assoc in *. apply Ha in Ht.
  rewrite (Permutation_app_comm b l2), (app_assoc a'), (Permutation_app_comm _ b) in Ht. apply Hb in Ht.
  by rewrite (Permutation_app_comm b'), <- app_assoc, (Permutation_app_comm l2 b') in Ht.
Qed.

Lemma top_refines n l out : top n l out → refines n out l.
Proof using PO. intros Ht l2 o. by apply top_replace. Qed.

Lemma refines_top n l' l out : refines n l' l → top n l' out → top n l out.
Proof. intros Hr. specialize (Hr [] out). by rewrite !app_nil_r in Hr. Qed.

Lemma refines_concat n (ls ls' : list (list A)) :
  Forall2 (refines n) ls ls' → refines n (concat ls) (concat ls').
Proof. induction 1 as [|l l' ls ls' Hl _ IH]; cbn; [done|by rewrite Hl, IH]. Qed.

(** [Iterator::take]. *)
Definition iter_take (n : Z) (l : list A) : list A := take (Z.to_nat (n `min` Z.of_nat (length l))) l.

Lemma length_iter_take n l : (0 <= n)%Z → Z.of_nat (length (iter_take n l)) = (n `min` Z.of_nat (length l))%Z.
Proof. intros. unfold iter_take. rewrite length_take. lia. Qed.

(** A prefix of a sorted list. *)
Lemma top_take n l l' : (0 <= n)%Z → l' ≡ₚ l → StronglySorted le l' → top n l (iter_take n l').
Proof.
  intros Hn Hp Hs. unfold iter_take. set (k := Z.to_nat _). exists (drop k l').
  rewrite <- (take_drop k l') in Hs. apply StronglySorted_app in Hs as (Hle & Hs1 & Hs2).
  split_and!; [by rewrite take_drop|done|done|rewrite length_take; lia|].
  rewrite length_take. destruct (decide (length l' ≤ k)); [left; by apply drop_ge|right; lia].
Qed.

(** First elements, then the first elements of what is left. *)
Lemma top_app n l out1 l' out2 :
  out1 ++ l' ≡ₚ l → StronglySorted le out1 → (∀ x y, x ∈ out1 → y ∈ l' → le x y) →
  top (n - Z.of_nat (length out1)) l' out2 → top n l (out1 ++ out2).
Proof using Type.
  intros Hp Hs Hle (rest & Hp2 & Hs2 & Hle2 & Hn & He). exists rest. split_and!.
  - by rewrite <- app_assoc, Hp2.
  - apply StronglySorted_app. split_and!; [|done|done]. intros x y Hx Hy. apply Hle; [done|]. rewrite <- Hp2.
    apply elem_of_app. by left.
  - intros x y [Hx|Hx]%elem_of_app Hy; [|by apply Hle2]. apply Hle; [done|]. rewrite <- Hp2. apply elem_of_app. by right.
  - rewrite length_app. lia.
  - rewrite length_app. destruct He; [by left|right; lia].
Qed.

(** The definition of a sort with a limit. *)
Lemma top_sorted n l out :
  top n l out ↔ ∃ sorted, sorted ≡ₚ l ∧ StronglySorted le sorted ∧ out = iter_take n sorted ∧ (0 <= n)%Z.
Proof using PO TO RD.
  split.
  - intros (rest & Hp & Hs & Hle & Hn & He). exists (out ++ merge_sort le rest).
    assert (StronglySorted le (out ++ merge_sort le rest)) as Hss.
    { apply StronglySorted_app. split_and!; [|done|apply (StronglySorted_merge_sort le)].
      intros x y Hx Hy. rewrite merge_sort_Permutation in Hy. auto. }
    split_and!; [by rewrite merge_sort_Permutation|done| |lia].
    unfold iter_take. destruct He as [->|He].
    + cbn. rewrite app_nil_r, take_ge; [done|lia].
    + rewrite length_app, (take_app_length' out); [done|lia].
  - intros (sorted & Hp & Hs & -> & Hn). by apply top_take.
Qed.

End Top.

Lemma iter_take_fmap {A B} (f : A → B) n l : iter_take n (f <$> l) = f <$> iter_take n l.
Proof. unfold iter_take. by rewrite length_fmap, fmap_take. Qed.

Lemma elem_of_iter_take {A} n (l : list A) x : x ∈ iter_take n l → x ∈ l.
Proof. intros (i & Hi & _)%elem_of_take. by eapply list_elem_of_lookup_2. Qed.
