(* ===== verification/Selection.v ===== *)
(** * Gathering rows of several batches

    native-engine/datafusion-ext-commons/src/arrow/selection.rs: [take_batch] picks rows of
    one batch, a batch interleaver rows of a list of batches by positions (batch, row).
    [interleave_ok]: the interleaver returns exactly the rows named, reading only inside the
    batches. *)

From S2P Require Import Prelude MachineInt Joins.

Set Default Proof Using "Type".

Section Selection.
Context {V : Type} (null : V).

Local Abbreviation Batch := (RecordBatch (V:=V)).
Local Abbreviation row_at := (row_at null).
Local Abbreviation batch_rows := (batch_rows null).

(** ** Operations *)

(** arrow's [take] on every column; the indices have no nulls. *)
Definition take_batch (batch : Batch) (indices : list nat) : Result Batch :=
  cols ← rmapM (λ c, rmapM (index c) indices) (columns batch);
  try_new_batch (length (columns batch)) cols (length indices).

(** The closure of [create_batch_interleaver]: the schema, and the arrays of each column. *)
Record BatchInterleaver := mkInterleaver {
  batch_schema : nat;
  col_arrays : list (list (list V)) }.

(** [col_arrays[col_idx].push(col.clone())] for the columns of a batch. *)
Definition push_columns (arrays : list (list (list V))) (batch : Batch) : Result (list (list (list V))) :=
  rfoldM (λ arrays '(col_idx, col), a ← index arrays col_idx; set_index arrays col_idx (a ++ [col]))
    arrays (enumerate (columns batch)).

Definition create_batch_interleaver (batches : list Batch) : Result BatchInterleaver :=
  batch ← index batches 0;
  col_arrays ← rfoldM push_columns (replicate (length (columns batch)) []) batches;
  Ok (mkInterleaver (length (columns batch)) col_arrays).

(** The value at a position, for every column type; the arrays are accessed unchecked. *)
Definition interleave_value (arrays : list (list V)) (i : nat * nat) : Result V :=
  array ← uindex arrays i.1; uindex array i.2.

Definition interleave (il : BatchInterleaver) (indices : list (nat * nat)) : Result Batch :=
  cols ← rmapM (λ arrays, rmapM (interleave_value arrays) indices) (col_arrays il);
  try_new_batch (batch_schema il) cols (length indices).

(** ** Lemmas *)

(** A batch built from rows column by column. *)
Lemma gather_ok {I} (nf : nat) (val : nat → I → V) (ix : list I) :
  ∃ q, try_new_batch nf ((λ j, val j <$> ix) <$> seq 0 nf) (length ix) = Ok q ∧ batch_ok q ∧
    num_rows q = length ix ∧ length (columns q) = nf ∧ batch_rows q = (λ i, (λ j, val j i) <$> seq 0 nf) <$> ix.
Proof.
  unfold try_new_batch. rewrite decide_True.
  2:{ split; [by rewrite length_fmap, length_seq|]. apply Forall_fmap, Forall_true. intros j. apply length_fmap. }
  eexists. split; [done|]. split; [|split; [done|split; [cbn; by rewrite length_fmap, length_seq|]]].
  - unfold batch_ok. cbn. apply Forall_fmap, Forall_true. intros j. apply length_fmap.
  - apply batch_rows_list. intros k i Hi. unfold Joins.row_at. rewrite <- list_fmap_compose.
    apply list_fmap_ext. intros _ j _. unfold compose. by rewrite nth_lookup, list_lookup_fmap, Hi.
Qed.

Lemma row_at_seq (b : Batch) i : row_at (columns b) i = (λ j, nth i (nth j (columns b) []) null) <$> seq 0 (length (columns b)).
Proof.
  unfold Joins.row_at. apply list_eq. intros j. rewrite !list_lookup_fmap.
  destruct (columns b !! j) as [c|] eqn:E.
  - rewrite lookup_seq_lt by (by eapply lookup_lt_Some). cbn. by rewrite (nth_lookup _ j), E.
  - rewrite lookup_ge_None_2; [done|]. rewrite length_seq. by apply lookup_ge_None.
Qed.

Lemma column_index (b : Batch) j i :
  batch_ok b → j < length (columns b) → i < num_rows b →
  nth j (columns b) [] !! i = Some (nth i (nth j (columns b) []) null).
Proof.
  intros Hb Hj Hi. destruct (lookup_lt_is_Some_2 (columns b) j Hj) as [c Hc].
  rewrite (nth_lookup _ j), Hc. cbn. unfold batch_ok in Hb. rewrite Forall_lookup in Hb. specialize (Hb j c Hc).
  destruct (lookup_lt_is_Some_2 c i ltac:(lia)) as [v Hv]. by rewrite nth_lookup, Hv.
Qed.

Lemma columns_seq (b : Batch) : columns b = (λ j, nth j (columns b) []) <$> seq 0 (length (columns b)).
Proof.
  apply list_eq. intros j. rewrite list_lookup_fmap. destruct (columns b !! j) as [c|] eqn:E.
  - rewrite lookup_seq_lt by (by eapply lookup_lt_Some). cbn. by rewrite nth_lookup, E.
  - rewrite lookup_ge_None_2; [done|]. rewrite length_seq. by apply lookup_ge_None.
Qed.

Lemma take_batch_ok b ix :
  batch_ok b → Forall (λ i, i < num_rows b) ix →
  ∃ q, take_batch b ix = Ok q ∧ batch_ok q ∧ num_rows q = length ix ∧ length (columns q) = length (columns b) ∧
    batch_rows q = row_at (columns b) <$> ix.
Proof.
  intros Hb His. unfold take_batch. set (val := λ j i, nth i (nth j (columns b) []) null).
  assert (rmapM (λ c, rmapM (index c) ix) (columns b) = Ok ((λ j, val j <$> ix) <$> seq 0 (length (columns b)))) as ->.
  { rewrite columns_seq at 1. apply rmapM_Ok. rewrite Forall2_fmap_l, Forall2_fmap_r. apply Forall_Forall2_diag.
    apply Forall_forall. intros j [_ Hj]%elem_of_seq. apply rmapM_pure. intros i Hi.
    rewrite Forall_forall in His. apply index_Ok, column_index; auto. }
  cbn [mbind Result_bind]. destruct (gather_ok (length (columns b)) val ix) as (q & -> & ? & ? & ? & Hr).
  exists q. split; [done|]. split; [done|]. split; [done|]. split; [done|].
  rewrite Hr. apply list_fmap_ext. intros _ i _. by rewrite row_at_seq.
Qed.

Lemma push_columns_ok arrays (batch : Batch) :
  length arrays = length (columns batch) →
  push_columns arrays batch = Ok (zip_with (λ a c, a ++ [c]) arrays (columns batch)).
Proof.
  unfold push_columns, enumerate.
  assert (∀ (d rest : list (list (list V))) (cols : list (list V)), length rest = length cols →
    rfoldM (λ arrays '(col_idx, col), a ← index arrays col_idx; set_index arrays col_idx (a ++ [col]))
      (d ++ rest) (imap (λ i c, (length d + i, c)) cols)
    = Ok (d ++ zip_with (λ a c, a ++ [c]) rest cols)) as H; [|intros Hl; apply (H [] arrays (columns batch) Hl)].
  intros d rest cols. revert d rest. induction cols as [|c cols IH]; intros d [|a rest] Hl; try done.
  rewrite imap_cons. cbn [rfoldM]. rewrite Nat.add_0_r.
  rewrite (proj2 (index_Ok _ _ a)) by (by apply list_lookup_middle). cbn [mbind Result_bind].
  rewrite set_index_Ok by (rewrite length_app; cbn; lia).
  rewrite (insert_app_r_alt d), Nat.sub_diag by lia. cbn [mbind Result_bind].
  assert (d ++ <[0:=a ++ [c]]> (a :: rest) = (d ++ [a ++ [c]]) ++ rest) as -> by (by rewrite <- app_assoc).
  assert (imap ((λ i x, (length d + i, x)) ∘ S) cols = imap (λ i x, (length (d ++ [a ++ [c]]) + i, x)) cols) as ->.
  { apply imap_ext. intros i y _. rewrite length_app. cbn. f_equal. lia. }
  rewrite IH by (cbn in Hl; lia). by rewrite <- app_assoc.
Qed.

(** The interleaver of a list of batches. *)
Definition interleaver_of (nf : nat) (batches : list Batch) : BatchInterleaver :=
  mkInterleaver nf ((λ j, (λ b, nth j (columns b) []) <$> batches) <$> seq 0 nf).

Lemma create_batch_interleaver_ok nf batches :
  batches ≠ [] → Forall (λ b, length (columns b) = nf) batches →
  create_batch_interleaver batches = Ok (interleaver_of nf batches).
Proof.
  intros Hne Hb. unfold create_batch_interleaver, interleaver_of. destruct batches as [|b0 bs]; [done|].
  cbn [index lookup list_lookup mbind Result_bind]. rewrite (Forall_inv Hb).
  assert (∀ d rest : list Batch, Forall (λ b, length (columns b) = nf) rest →
    rfoldM push_columns ((λ j, (λ b, nth j (columns b) []) <$> d) <$> seq 0 nf) rest
    = Ok ((λ j, (λ b, nth j (columns b) []) <$> (d ++ rest)) <$> seq 0 nf)) as H.
  { intros d rest. revert d. induction rest as [|b rest IH]; intros d Hr; cbn [rfoldM]; [by rewrite app_nil_r|].
    apply Forall_cons_1 in Hr as [Hn Hr].
    rewrite push_columns_ok by (by rewrite length_fmap, length_seq). cbn [mbind Result_bind].
    rewrite (columns_seq b), Hn, zip_with_fmap_l, zip_with_fmap_r, zip_with_diag.
    specialize (IH (d ++ [b]) Hr). rewrite <- app_assoc in IH. cbn [app] in IH. rewrite <- IH. f_equal.
    apply list_fmap_ext. intros k j [-> Hj]%lookup_seq. rewrite fmap_app. done. }
  specialize (H [] (b0 :: bs) Hb). cbn [app] in H.
  assert ((λ j, (λ b : Batch, nth j (columns b) []) <$> []) <$> seq 0 nf = replicate nf []) as E.
  { clear. generalize 0. induction nf as [|n IH]; intros k; [done|]. cbn. f_equal. apply IH. }
  rewrite <- E, H. done.
Qed.

(** Row [r] is at position [i] of the batches. *)
Definition position_of (batches : list Batch) (i : nat * nat) (r : list V) : Prop :=
  ∃ b, batches !! i.1 = Some b ∧ i.2 < num_rows b ∧ row_at (columns b) i.2 = r.

Lemma interleave_ok nf batches ix rs :
  Forall (λ b, batch_ok b ∧ length (columns b) = nf) batches → Forall2 (position_of batches) ix rs →
  ∃ q, interleave (interleaver_of nf batches) ix = Ok q ∧ batch_ok q ∧ num_rows q = length ix ∧
    length (columns q) = nf ∧ batch_rows q = rs.
Proof.
  intros Hb His. unfold interleave, interleaver_of. cbn [col_arrays batch_schema].
  set (val := λ j (i : nat * nat), nth i.2 (nth j (columns (nth i.1 batches (mkBatch 0 []))) []) null).
  assert (rmapM (λ arrays, rmapM (interleave_value arrays) ix)
    ((λ j, (λ b, nth j (columns b) []) <$> batches) <$> seq 0 nf) = Ok ((λ j, val j <$> ix) <$> seq 0 nf)) as ->.
  { apply rmapM_Ok. rewrite Forall2_fmap_l, Forall2_fmap_r. apply Forall_Forall2_diag.
    apply Forall_forall. intros j [_ Hj]%elem_of_seq. apply rmapM_pure. intros [a i] Hi. unfold interleave_value, val. cbn.
    apply list_elem_of_lookup in Hi as [k Hk]. destruct (Forall2_lookup_l _ _ _ _ _ His Hk) as (r & _ & b & Ha & Hlt & _).
    cbn in Ha, Hlt. rewrite Forall_lookup in Hb. destruct (Hb a b Ha) as [Hbok Hbn].
    rewrite (proj2 (uindex_Ok _ a (nth j (columns b) []))) by (by rewrite list_lookup_fmap, Ha).
    cbn [mbind Result_bind]. rewrite (nth_lookup batches), Ha. cbn. apply uindex_Ok, column_index; [done|lia|done]. }
  cbn [mbind Result_bind]. destruct (gather_ok nf val ix) as (q & -> & ? & ? & ? & Hr).
  exists q. split; [done|]. split; [done|]. split; [done|]. split; [done|].
  rewrite Hr. clear Hr q H H0 H1. induction His as [|[a i] r ix rs (b & Ha & Hlt & Hrow) _ IH]; [done|].
  rewrite fmap_cons, IH. f_equal. cbn in Ha, Hlt, Hrow. rewrite Forall_lookup in Hb. destruct (Hb a b Ha) as [_ Hbn].
  rewrite <- Hrow, row_at_seq, Hbn. apply list_fmap_ext. intros _ j _. unfold val. cbn.
  by rewrite (nth_lookup batches), Ha.
Qed.

End Selection.
