(* ===== verification/SortBlocks.v ===== *)
(** * Sorted blocks

    native-engine/datafusion-ext-plans/src/sort_exec.rs: a sorted run of batches with their
    keys, in memory ([InMemSortedBlock]) or in a spill file ([SpillSortedBlock]), and the
    builders that write them.  The memory figures that blocks report are left out.

    [SortedBlockOk] is what a block promises to the merge: [block_rep] relates it to the keys
    and batches that it has still to deliver.  Both kinds of blocks and their builders keep
    the promise; the one in a spill only because its keys ascend.  The batch codec of the
    spill is the interface [BatchCodec], which SortCodec implements by BatchSerde. *)

From S2P Require Import Prelude MachineInt Io Joins SortKeys.

Set Default Proof Using "Type".

Local Abbreviation bytes := (list Z).

(** [write_one_batch] and [read_one_batch] for a schema of [nf] fields. *)
Class BatchCodec (V : Type) (nf : nat) := {
  storable : V → Prop;
  write_one_batch : nat → list (list V) → Result bytes;
  read_one_batch : Reader (option (nat * list (list V)));
  codec_roundtrip (b : RecordBatch (V:=V)) :
    batch_ok b → length (columns b) = nf → Forall (Forall storable) (columns b) →
    (Z.of_nat (num_rows b) < 2 ^ 64)%Z →
    ∃ bs, write_one_batch (num_rows b) (columns b) = Ok bs ∧
      ∀ rest, read_one_batch (bs ++ rest) = Ok (Some (num_rows b, columns b), rest);
  codec_end : read_one_batch [] = Ok (None, []) }.

Section SortBlocks.
Context {V : Type} (nf : nat).

Local Abbreviation Batch := (RecordBatch (V:=V)).

(** ** The trait *)

Class SortedBlock (B : Type) := {
  is_single_batch : B → bool;
  block_next_batch : B → Result (B * option Batch);
  block_next_key : B → Result B;
  block_cur_key : B → Result bytes;
  block_is_equal_to_prev_key : B → Result bool }.

Class SortedBlockBuilder (S B KC : Type) := {
  add_batch_and_keys : S → Batch → KC → Result S;
  finish : S → Result B }.

(** ** Blocks in memory *)

Record InMemSortedBlock := mkInMemBlock {
  sorted_keys : list InMemRowsKeyCollector;
  sorted_batches : list Batch;
  cur_row_idx : Z }.

(** [usize::MAX]. *)
Definition usize_max : Z := 2 ^ 64 - 1.

Definition inmem_next_batch (b : InMemSortedBlock) : Result (InMemSortedBlock * option Batch) :=
  match sorted_batches b with
  | batch :: batches =>
    match sorted_keys b with
    | _ :: keys => Ok (mkInMemBlock keys batches usize_max, Some batch)
    | [] => Panic
    end
  | [] => Ok (b, None)
  end.

(** The addition wraps from [usize::MAX] to the first row. *)
Definition inmem_next_key (b : InMemSortedBlock) : InMemSortedBlock :=
  mkInMemBlock (sorted_keys b) (sorted_batches b) (usize (cur_row_idx b + 1)).

Definition inmem_key (b : InMemSortedBlock) (row_idx : Z) : Result bytes :=
  keys ← index (sorted_keys b) 0; key keys (Z.to_nat row_idx).

Definition inmem_is_equal_to_prev_key (b : InMemSortedBlock) : Result bool :=
  if bool_decide (0 < cur_row_idx b)%Z then
    key0 ← inmem_key b (cur_row_idx b - 1);
    key1 ← inmem_key b (cur_row_idx b);
    Ok (bool_decide (key0 = key1))
  else Ok false.

#[export] Instance inmem_block : SortedBlock InMemSortedBlock := {
  is_single_batch b := bool_decide (length (sorted_batches b) = 1);
  block_next_batch := inmem_next_batch;
  block_next_key b := Ok (inmem_next_key b);
  block_cur_key b := inmem_key b (cur_row_idx b);
  block_is_equal_to_prev_key := inmem_is_equal_to_prev_key }.

Record InMemSortedBlockBuilder := mkInMemBuilder {
  b_sorted_keys : list InMemRowsKeyCollector;
  b_sorted_batches : list Batch }.

Definition inmem_builder_default : InMemSortedBlockBuilder := mkInMemBuilder [] [].

(** An empty collector is put first, for the first pop. *)
#[export] Instance inmem_builder :
    SortedBlockBuilder InMemSortedBlockBuilder InMemSortedBlock InMemRowsKeyCollector := {
  add_batch_and_keys b batch keys :=
    Ok (mkInMemBuilder (b_sorted_keys b ++ [keys]) (b_sorted_batches b ++ [batch]));
  finish b := Ok (mkInMemBlock (kc_default :: b_sorted_keys b) (b_sorted_batches b) 0) }.

(** ** Blocks in spills *)

Context `{Codec : BatchCodec V nf}.

Record SpillSortedBlock := mkSpillBlock {
  spill_reader : bytes;
  cur_key_reader : SortedKeysReader }.

Definition spill_next_batch (b : SpillSortedBlock) : Result (SpillSortedBlock * option Batch) :=
  '(batch, r) ← read_one_batch (spill_reader b);
  match batch with
  | Some (num_rows, cols) =>
      batch ← try_new_batch nf cols num_rows;
      Ok (mkSpillBlock r (cur_key_reader b), Some batch)
  | None => Ok (mkSpillBlock r (cur_key_reader b), None)
  end.

Definition spill_next_key (b : SpillSortedBlock) : Result SpillSortedBlock :=
  '(reader, r) ← next_key (cur_key_reader b) (spill_reader b);
  Ok (mkSpillBlock r reader).

#[export] Instance spill_block : SortedBlock SpillSortedBlock := {
  is_single_batch _ := false;
  block_next_batch := spill_next_batch;
  block_next_key := spill_next_key;
  block_cur_key b := Ok (cur_key (cur_key_reader b));
  block_is_equal_to_prev_key b := Ok (is_equal_to_prev (cur_key_reader b)) }.

(** The bytes written so far. *)
Record SpillSortedBlockBuilder := mkSpillBuilder { spill_writer : bytes }.

Definition spill_builder_new : SpillSortedBlockBuilder := mkSpillBuilder [].

Definition spill_add_batch_and_keys (b : SpillSortedBlockBuilder) (batch : Batch) (keys : SqueezeKeyCollector)
    : Result SpillSortedBlockBuilder :=
  out ← write_one_batch (num_rows batch) (columns batch);
  Ok (mkSpillBuilder (spill_writer b ++ out ++ store keys)).

#[export] Instance spill_builder :
    SortedBlockBuilder SpillSortedBlockBuilder SpillSortedBlock SqueezeKeyCollector := {
  add_batch_and_keys := spill_add_batch_and_keys;
  finish b := Ok (mkSpillBlock (spill_writer b) default_reader) }.

(** ** The promise *)

(** A batch and its keys. *)
Local Abbreviation Run := (Batch * list bytes)%type.

Record run_ok (r : Run) : Prop := {
  ro_batch : batch_ok r.1;
  ro_cols : length (columns r.1) = nf;
  ro_keys : length r.2 = num_rows r.1;
  ro_some : 0 < num_rows r.1;
  ro_bound : (Z.of_nat (num_rows r.1) < 2 ^ 63)%Z;
  ro_vec : Forall vec_ok r.2;
  ro_store : Forall (Forall storable) (columns r.1) }.

(** [block_rep b on prev ks bs]: [prev] is the key that was read last, which is the current
    key if [on]; [ks] are the keys left of the current batch and [bs] the batches to come. *)
Class SortedBlockOk (B : Type) `{SortedBlock B} := {
  block_rep : B → bool → bytes → list bytes → list Run → Prop;
  rep_next_batch b on prev batch ks bs :
    block_rep b on prev [] ((batch, ks) :: bs) → run_ok (batch, ks) →
    ∃ b', block_next_batch b = Ok (b', Some batch) ∧ block_rep b' false prev ks bs;
  rep_end b on prev : block_rep b on prev [] [] → ∃ b', block_next_batch b = Ok (b', None);
  rep_next_key b on prev k ks bs :
    block_rep b on prev (k :: ks) bs →
    ∃ b' e, block_next_key b = Ok b' ∧ block_rep b' true k ks bs ∧
      block_is_equal_to_prev_key b' = Ok e ∧ (e = true → k = prev);
  rep_cur_key b prev ks bs : block_rep b true prev ks bs → block_cur_key b = Ok prev;
  rep_single b bs : block_rep b false [] [] bs → is_single_batch b = true → length bs = 1 }.

(** What a builder has been given. *)
Definition runs_ok (bs : list Run) : Prop :=
  Forall run_ok bs ∧ StronglySorted bytes_le (concat bs.*2).

Class BuilderOk (S B KC : Type) `{KeyCollector KC, SortedBlockOk B, SortedBlockBuilder S B KC} := {
  builder_rep : S → list Run → Prop;
  builder_add s bs b ks kc :
    builder_rep s bs → runs_ok (bs ++ [(b, ks)]) → rfoldM add_key kc_default ks = Ok kc →
    ∃ s', add_batch_and_keys s b (freeze kc) = Ok s' ∧ builder_rep s' (bs ++ [(b, ks)]);
  builder_finish s bs : builder_rep s bs → runs_ok bs →
    ∃ blk, finish s = Ok blk ∧ block_rep blk false [] [] bs;
  builder_collects ks : Forall vec_ok ks → StronglySorted bytes_le ks →
    ∃ kc, rfoldM add_key (kc_default : KC) ks = Ok kc }.

(** ** Blocks in memory keep it *)

Record inmem_rep (b : InMemSortedBlock) (on : bool) (prev : bytes) (ks : list bytes) (bs : list Run) : Prop := {
  im_batches : sorted_batches b = bs.*1;
  im_keys : ∃ c, sorted_keys b = c :: (frozen <$> bs.*2) ∧
    if on then ∃ used, c = frozen (used ++ prev :: ks) ∧ cur_row_idx b = Z.of_nat (length used) ∧
        (Z.of_nat (length (used ++ prev :: ks)) < 2 ^ 63)%Z
    else ks = [] ∧ cur_row_idx b = 0%Z ∨
         c = frozen ks ∧ cur_row_idx b = usize_max ∧ (Z.of_nat (length ks) < 2 ^ 63)%Z }.

Lemma inmem_key_ok c cs sb idx i ks k :
  c = frozen ks → ks !! i = Some k → inmem_key (mkInMemBlock (c :: cs) sb idx) (Z.of_nat i) = Ok k.
Proof.
  intros -> Hi. unfold inmem_key. cbn [sorted_keys index lookup list_lookup mbind Result_bind].
  rewrite Nat2Z.id. by apply frozen_key.
Qed.

#[export, refine] Instance inmem_block_ok : SortedBlockOk InMemSortedBlock := { block_rep := inmem_rep }.
Proof.
  - intros [sk sb idx] on prev batch ks bs [Hb (c & Hk & _)] [_ _ Hlen _ Hbound _ _]. cbn in *. subst sk sb.
    eexists. split; [done|]. split; [done|]. eexists. split; [done|]. right. split_and!; [done|done|lia].
  - intros [sk sb idx] on prev [Hb _]. cbn in *. subst sb. by eexists.
  - intros [sk sb idx] on prev k ks bs [Hb (c & Hk & Hon)]. cbn in Hb, Hk, Hon. subst sk sb.
    destruct on.
    + destruct Hon as (used & Hc & -> & Hlt). exists (mkInMemBlock (c :: (frozen <$> bs.*2)) bs.*1 (Z.of_nat (S (length used)))).
      exists (bool_decide (prev = k)).
      assert (Hl : c = frozen ((used ++ [prev]) ++ k :: ks)) by (by rewrite <- app_assoc).
      split_and!.
      * cbn. unfold inmem_next_key. cbn. unfold usize. rewrite wrapu_id; [do 2 f_equal; lia|].
        rewrite length_app in Hlt. cbn in Hlt. unfold in_u. lia.
      * split; [done|]. eexists. split; [done|]. exists (used ++ [prev]). split_and!; [done| |].
        { cbn. rewrite length_app. cbn. lia. }
        rewrite !length_app in *. cbn in *. lia.
      * cbn. unfold inmem_is_equal_to_prev_key. cbn [cur_row_idx]. rewrite bool_decide_eq_true_2 by lia.
        replace (Z.of_nat (S (length used)) - 1)%Z with (Z.of_nat (length used)) by lia.
        rewrite (inmem_key_ok c _ _ _ (length used) _ prev Hc) by (by apply list_lookup_middle).
        cbn [mbind Result_bind]. rewrite (inmem_key_ok c _ _ _ _ _ k Hl); [done|].
        apply list_lookup_middle. rewrite length_app. cbn. lia.
      * rewrite bool_decide_eq_true. done.
    + destruct Hon as [[? _]|(Hc & -> & Hlt)]; [done|].
      exists (mkInMemBlock (c :: (frozen <$> bs.*2)) bs.*1 0), false. split_and!; try done.
      split; [done|]. eexists. split; [done|]. by exists [].
  - intros [sk sb idx] prev ks bs [_ (c & Hk & used & Hc & Hi & _)]. cbn in *. subst sk idx.
    apply (inmem_key_ok _ _ _ _ _ _ _ Hc). by apply list_lookup_middle.
  - intros [sk sb idx] bs [Hb _]. cbn in *. subst sb. rewrite length_fmap, bool_decide_eq_true. done.
Defined.

#[export, refine] Instance inmem_builder_ok :
    BuilderOk InMemSortedBlockBuilder InMemSortedBlock InMemRowsKeyCollector := {
  builder_rep s bs := s = mkInMemBuilder (frozen <$> bs.*2) bs.*1 }.
Proof.
  - intros s bs b ks kc -> _ Hkc. rewrite (inmem_collect []) in Hkc. injection Hkc as <-.
    eexists. split; [done|]. cbn. by rewrite !fmap_app.
  - intros s bs -> _. eexists. split; [done|]. split; [done|]. eexists. split; [done|]. by left.
  - intros ks _ _. rewrite (inmem_collect []). eauto.
Defined.

(** ** Blocks in spills keep it *)

(** What the builder writes. *)
Inductive spill_file : bytes → list Run → Prop :=
  | spill_nil : spill_file [] []
  | spill_cons batch ks out rest bs :
      run_ok (batch, ks) → write_one_batch (num_rows batch) (columns batch) = Ok out →
      spill_file rest bs → spill_file (out ++ enc_keys [] ks ++ rest) ((batch, ks) :: bs).

(** [w] is the key to which the writer's next key is relative: the writer starts afresh
    with each batch, the reader does not. *)
Record spill_rep (b : SpillSortedBlock) (on : bool) (prev : bytes) (ks : list bytes) (bs : list Run) : Prop := {
  sr_prev : cur_key (cur_key_reader b) = prev;
  sr_file : ∃ w rest, (w = prev ∨ w = []) ∧ spill_reader b = enc_keys w ks ++ rest ∧ spill_file rest bs;
  sr_vec : Forall vec_ok ks;
  sr_sorted : StronglySorted bytes_le (prev :: ks ++ concat bs.*2) }.

Lemma runs_ok_snoc bs r : runs_ok (bs ++ [r]) → runs_ok bs ∧ run_ok r ∧ StronglySorted bytes_le r.2.
Proof.
  intros [Hr Hs]. apply Forall_app in Hr as [Hr Hr']. rewrite fmap_app, concat_app in Hs. cbn in Hs.
  rewrite app_nil_r in Hs. apply StronglySorted_app in Hs as (_ & ? & ?). split; [done|]. split; [|done].
  by apply Forall_cons_1 in Hr' as [? _].
Qed.

Lemma spill_file_snoc bs bytes batch ks out :
  spill_file bytes bs → run_ok (batch, ks) → write_one_batch (num_rows batch) (columns batch) = Ok out →
  spill_file (bytes ++ out ++ enc_keys [] ks) (bs ++ [(batch, ks)]).
Proof.
  induction 1 as [|batch' ks' out' rest bs Hr' Hw' _ IH]; intros Hr Hw.
  - cbn [app]. rewrite <- (app_nil_r (enc_keys [] ks)). constructor; [done..|constructor].
  - rewrite <- !app_assoc. cbn. constructor; [done..|auto].
Qed.

#[export, refine] Instance spill_block_ok : SortedBlockOk SpillSortedBlock := { block_rep := spill_rep }.
Proof.
  - intros [r rd] on prev batch ks bs [Hp (w & rest & _ & Hr & Hf) _ Hs] _. cbn in Hp, Hr. subst r prev.
    inversion Hf as [|? ? out rest' ? [Hb Hc Hl Hn Hlt Hv Hst] Hw Hf']; subst. cbn in *.
    destruct (codec_roundtrip batch) as (out' & Hw' & Hread); [done..|lia|]. assert (out' = out) as -> by congruence.
    unfold spill_next_batch. cbn [spill_reader cur_key_reader]. rewrite Hread. cbn [mbind Result_bind].
    unfold try_new_batch. rewrite decide_True by done. cbn [mbind Result_bind]. destruct batch.
    eexists. split; [done|]. split; [done| |done|done]. by exists [], rest'; auto.
  - intros [r rd] on prev [Hp (w & rest & _ & Hr & Hf) _ _]. cbn in *. inversion Hf; subst.
    unfold spill_next_batch. cbn. rewrite codec_end. by eexists.
  - intros [r rd] on prev k ks bs [Hp (w & rest & Hw & Hr & Hf) Hv Hs]. cbn in Hp, Hr. subst r prev.
    apply Forall_cons_1 in Hv as [Hk Hv]. cbn in Hs. apply StronglySorted_inv in Hs as [Hs Hle].
    apply Forall_cons_1 in Hle as [Hle _]. destruct rd as [p e]. cbn [cur_key] in *.
    eexists _, (bool_decide (k = w)). cbn. unfold spill_next_key. cbn [spill_reader cur_key_reader].
    rewrite <- app_assoc, (next_key_ok p w k e _ Hk) by done. cbn [mbind Result_bind].
    split_and!; [done| |done|].
    + split; [done| |done|done]. exists k, rest. auto.
    + rewrite bool_decide_eq_true. intros ->. destruct Hw as [->| ->]; [done|].
      apply (anti_symm bytes_le); [apply bytes_le_nil|done].
  - intros [r rd] prev ks bs [Hp _ _ _]. cbn in *. by subst.
  - done.
Defined.

#[export, refine] Instance spill_builder_ok :
    BuilderOk SpillSortedBlockBuilder SpillSortedBlock SqueezeKeyCollector := {
  builder_rep s bs := spill_file (spill_writer s) bs }.
Proof.
  - intros s bs b ks kc Hf Hbs Hkc. apply runs_ok_snoc in Hbs as (_ & Hr & Hs).
    pose proof Hr as [Hb Hc Hl Hn Hlt Hv Hst]. cbn in *.
    change kc_default with (mkSqueeze [] []) in Hkc. change add_key with squeeze_add_key in Hkc.
    rewrite squeeze_collect in Hkc by auto using sorted_from_nil. injection Hkc as <-.
    destruct (codec_roundtrip b) as (out & Hw & _); [done..|lia|].
    unfold spill_add_batch_and_keys. rewrite Hw. cbn. eexists. split; [done|]. cbn.
    by apply spill_file_snoc.
  - intros s bs Hf [Hr Hs]. eexists. split; [done|]. split; [done| |done|by apply sorted_from_nil].
    exists [], (spill_writer s). auto.
  - intros ks Hv Hs. eexists. apply squeeze_collect; [done|by apply sorted_from_nil].
Defined.

End SortBlocks.

Arguments block_rep {V nf _ B _ _} b on prev ks bs.
Arguments rep_next_batch {V nf _ B _ _} b on prev batch ks bs.
Arguments rep_end {V nf _ B _ _} b on prev.
Arguments rep_next_key {V nf _ B _ _} b on prev k ks bs.
Arguments rep_cur_key {V nf _ B _ _} b prev ks bs.
Arguments rep_single {V nf _ B _ _} b bs.
Arguments builder_rep {V nf _ S B KC _ _ _ _ _} s bs.
Arguments builder_add {V nf _ S B KC _ _ _ _ _} s bs b ks kc.
Arguments builder_finish {V nf _ S B KC _ _ _ _ _} s bs.
Arguments builder_collects {V nf _ S B KC _ _ _ _} BuilderOk ks.
