(* ===== verification/SortMerge.v ===== *)
(** * Merging sorted blocks

    native-engine/datafusion-ext-plans/src/sort_exec.rs: [SortedBlockCursor], [Merger] and
    [merge_blocks].  A cursor reads the keys of its block ahead of the rows; the merger takes
    keys from the cursor that a loser tree holds for the least one, collects the ids of these
    cursors, and then gathers the rows the ids stand for with a batch interleaver.  The tree
    is left alone while the least cursor repeats its key.  The memory figures of a cursor and
    the field [cur_batch_num_rows], which is never read, are left out.

    [Rest] is what a cursor has still to deliver, as pairs of key and row.  [cursor_ok] relates
    a cursor to it, and [merger_ok] a merger to the lists of its cursors; [next_ok] shows that a
    call of [next] takes its output from the fronts of these lists in the order of the keys. *)

From S2P Require Import Prelude MachineInt Io Joins LoserTree SortKeys SortBlocks SortTop Selection.

Set Default Proof Using "Type".

Local Abbreviation bytes := (list Z).

Section SortMerge.
Context {V : Type} (null : V) (nf : nat) `{Codec : BatchCodec V nf}.
Context {B : Type} `{Blk : @SortedBlock V B}.
Context (limit : Z).

Local Abbreviation Batch := (RecordBatch (V:=V)).
Local Abbreviation batch_rows := (batch_rows null).

(** [PruneSortKeysFromBatch::is_all_pruned] for a pruned schema of [nf] fields. *)
Definition all_pruned : bool := bool_decide (nf = 0).

(** ** Cursors *)

Record SortedBlockCursor := mkCursor {
  id : nat;
  input : B;
  cur_batches : list Batch;
  cur_batches_changed : bool;
  cur_key_row_idx : nat;
  cur_batch_idx : nat;
  cur_row_idx : nat;
  finished : bool }.

(** The current key as the comparison reads it; a cursor that is not finished has one
    ([cursor_key]). *)
Definition key_of (c : SortedBlockCursor) : bytes :=
  match block_cur_key (input c) with Ok k => k | _ => [] end.

#[export] Instance cursor_lt : ComparableForLoserTree SortedBlockCursor := λ a b,
  if finished b || finished a then finished b else bytes_lt (key_of a) (key_of b).

Definition set_finished (c : SortedBlockCursor) : SortedBlockCursor :=
  mkCursor (id c) (input c) (cur_batches c) (cur_batches_changed c) (cur_key_row_idx c) (cur_batch_idx c) (cur_row_idx c) true.

Definition load_next_batch (c : SortedBlockCursor) : Result (SortedBlockCursor * bool) :=
  '(input, batch) ← block_next_batch (input c);
  match batch with
  | Some batch =>
      Ok (mkCursor (id c) input (cur_batches c ++ [batch]) true 0 (cur_batch_idx c) (cur_row_idx c) (finished c), true)
  | None =>
      Ok (set_finished (mkCursor (id c) input (cur_batches c) (cur_batches_changed c) (cur_key_row_idx c)
        (cur_batch_idx c) (cur_row_idx c) (finished c)), false)
  end.

(** [self.cur_batches.last().map(|b| b.num_rows()).unwrap_or(0)] *)
Definition last_batch_rows (c : SortedBlockCursor) : nat :=
  match last (cur_batches c) with Some b => num_rows b | None => 0 end.

Definition cursor_next_key (c : SortedBlockCursor) : Result SortedBlockCursor :=
  _ ← rassert (negb (finished c));
  '(c, loaded) ← (if decide (last_batch_rows c ≤ cur_key_row_idx c) then load_next_batch c else Ok (c, true));
  if loaded : bool then
    input ← block_next_key (input c);
    Ok (mkCursor (id c) input (cur_batches c) (cur_batches_changed c) (cur_key_row_idx c + 1)
      (cur_batch_idx c) (cur_row_idx c) (finished c))
  else Ok (set_finished c).

(** The first record is loaded. *)
Definition try_from_block (id : nat) (block : B) : Result SortedBlockCursor :=
  cursor_next_key (mkCursor id block [] false 0 0 0 false).

Definition next_row (c : SortedBlockCursor) : Result (SortedBlockCursor * (nat * nat)) :=
  let batch_idx := cur_batch_idx c in
  let row_idx := cur_row_idx c in
  batch ← index (cur_batches c) batch_idx;
  let '(batch_idx', row_idx') :=
    if decide (num_rows batch ≤ row_idx + 1) then (batch_idx + 1, 0) else (batch_idx, row_idx + 1) in
  Ok (mkCursor (id c) (input c) (cur_batches c) (cur_batches_changed c) (cur_key_row_idx c) batch_idx' row_idx' (finished c),
      (batch_idx, row_idx)).

(** [drain(..cur_batch_idx)] panics if there are fewer batches. *)
Definition clear_finished_batches (c : SortedBlockCursor) : Result SortedBlockCursor :=
  if decide (0 < cur_batch_idx c) then
    _ ← rassert (bool_decide (cur_batch_idx c ≤ length (cur_batches c)));
    Ok (mkCursor (id c) (input c) (drop (cur_batch_idx c) (cur_batches c)) true (cur_key_row_idx c) 0 (cur_row_idx c) (finished c))
  else Ok c.

Definition clear_changed (c : SortedBlockCursor) : SortedBlockCursor :=
  mkCursor (id c) (input c) (cur_batches c) false (cur_key_row_idx c) (cur_batch_idx c) (cur_row_idx c) (finished c).

(** ** Merger *)

Record Merger := mkMerger {
  cursors : LoserTree SortedBlockCursor;
  batch_interleaver : BatchInterleaver (V:=V);
  single_batch_mode : bool;
  batches_base_indices : list nat;
  num_total_output_rows : Z }.

Definition merger_try_new (blocks : list B) : Result Merger :=
  let single_batch_mode := forallb is_single_batch blocks in
  cursors ← rmapM (λ '(id, block), try_from_block id block) (enumerate blocks);
  cursors ← LoserTree.new cursors;
  batch_interleaver ←
    (if single_batch_mode then
       batches ← rmapM (λ c, index (cur_batches c) 0) (values cursors);
       create_batch_interleaver batches
     else create_batch_interleaver [mkBatch 0 (replicate nf [])]);
  Ok (mkMerger cursors batch_interleaver single_batch_mode [] 0).

Section Next.
Context {KC : Type} `{Col : KeyCollector KC}.

(** The state of the loop over keys: the guard of the tree, the collected keys, the ids of
    their cursors, and [num_rows]. *)
Record Collect := mkCollect {
  min_cursor : PeekMut SortedBlockCursor;
  key_collector : KC;
  cursor_ids : list nat;
  n_rows : Z }.

Definition collect_key (s : Collect) : Result Collect :=
  c ← deref (min_cursor s);
  let cursor_ids := if all_pruned then cursor_ids s else cursor_ids s ++ [id c] in
  k ← block_cur_key (input c);
  key_collector ← add_key (key_collector s) k;
  c ← cursor_next_key c;
  min_cursor ← deref_mut (min_cursor s) (λ _, c);
  different ← (if finished c then Ok true else e ← block_is_equal_to_prev_key (input c); Ok (negb e));
  min_cursor ← (if different : bool then adjust min_cursor else Ok min_cursor);
  Ok (mkCollect min_cursor key_collector cursor_ids (n_rows s + 1)).

(** [!min_cursor.finished && num_rows < max_num_rows] *)
Definition collect_cond (max_num_rows : Z) (s : Collect) : Result bool :=
  c ← deref (min_cursor s);
  Ok (negb (finished c) && bool_decide (n_rows s < max_num_rows)%Z).

(** The batches of all cursors, and where those of each cursor start. *)
Fixpoint base_indices (n : nat) (cs : list SortedBlockCursor) : list nat :=
  match cs with [] => [] | c :: cs => n :: base_indices (n + length (cur_batches c)) cs end.

(** One element of [staging_indices]. *)
Definition stage (m : Merger) (s : list SortedBlockCursor * list (nat * nat)) (cursor_id : nat)
    : Result (list SortedBlockCursor * list (nat * nat)) :=
  let '(cs, indices) := s in
  c ← index cs cursor_id;
  '(c, (batch_idx, row_idx)) ← next_row c;
  cs ← set_index cs cursor_id c;
  if single_batch_mode m then Ok (cs, indices ++ [(id c, row_idx)])
  else
    base ← index (batches_base_indices m) (id c);
    Ok (cs, indices ++ [(base + batch_idx, row_idx)]).

(** A new interleaver when the batches of a cursor have changed. *)
Definition refresh (m : Merger) : Result Merger :=
  let cs := values (cursors m) in
  if negb (single_batch_mode m) && existsb cur_batches_changed cs then
    let batches := mjoin (cur_batches <$> cs) in
    il ← create_batch_interleaver batches;
    Ok (mkMerger (mkTree (losers (cursors m)) (clear_changed <$> cs)) il (single_batch_mode m)
      (base_indices 0 cs) (num_total_output_rows m))
  else Ok m.

Definition set_values (m : Merger) (cs : list SortedBlockCursor) : Merger :=
  mkMerger (mkTree (losers (cursors m)) cs) (batch_interleaver m) (single_batch_mode m) (batches_base_indices m)
    (num_total_output_rows m).

(** Collecting the rows of [cursor_ids]. *)
Definition pruned_rows (m : Merger) (cursor_ids : list nat) (n : Z) : Result (Merger * Batch) :=
  if all_pruned then Ok (m, mkBatch (Z.to_nat n) [])
  else
    m ← refresh m;
    '(cs, staging_indices) ← rfoldM (stage m) (values (cursors m), []) cursor_ids;
    batch ← interleave (batch_interleaver m) staging_indices;
    Ok (set_values m cs, batch).

Definition add_output_rows (m : Merger) (n : Z) : Merger :=
  mkMerger (cursors m) (batch_interleaver m) (single_batch_mode m) (batches_base_indices m)
    (usize (num_total_output_rows m + n)).

Definition set_cursors (m : Merger) (t : LoserTree SortedBlockCursor) : Merger :=
  mkMerger t (batch_interleaver m) (single_batch_mode m) (batches_base_indices m) (num_total_output_rows m).

Definition next (m : Merger) (batch_size : nat) : Result (Merger * option (KC * Batch)) :=
  let max_num_rows := (Z.of_nat batch_size `min` usize (limit - num_total_output_rows m))%Z in
  s ← rwhileM (Z.to_nat max_num_rows) (collect_cond max_num_rows) collect_key
        (mkCollect (peek_mut (cursors m)) kc_default [] 0);
  if bool_decide (n_rows s = 0)%Z then
    t ← drop_peek (min_cursor s);
    Ok (set_cursors m t, None)
  else
    let key_collector := freeze (key_collector s) in
    t ← drop_peek (min_cursor s);
    '(m, pruned_batch) ← pruned_rows (set_cursors m t) (cursor_ids s) (n_rows s);
    let m := add_output_rows m (n_rows s) in
    cs ← rmapM clear_finished_batches (values (cursors m));
    Ok (set_values m cs, Some (key_collector, pruned_batch)).

(** The body of the loop of [skip_rows]; the state is the merger and [remaining]. *)
Definition skip_step (suggested_batch_size : nat) (st : Merger * nat) : Result (Merger * nat + Merger) :=
  let '(m, remaining) := st in
  if decide (0 < remaining) then
    let batch_size := remaining `min` suggested_batch_size in
    '(m, output) ← next m batch_size;
    match output with
    | None => Ok (inr m)
    | Some _ => Ok (inl (m, remaining - batch_size))
    end
  else Ok (inr m).

(** Every call but the last returns a row: the rows of the input bound the number of calls. *)
Definition skip_rows (num_total_rows : nat) (m : Merger) (skip suggested_batch_size : nat) : Result Merger :=
  rloop (S (S num_total_rows)) (skip_step suggested_batch_size) (m, skip).

(** [while let Some((key_collector, pruned_batch)) = merger.next(batch_size)? { .. }], the
    state of the body being [s]. *)
Definition drain_step {S} (batch_size : nat) (body : S → KC → Batch → Result S) (st : Merger * S)
    : Result (Merger * S + Merger * S) :=
  let '(m, s) := st in
  '(m, output) ← next m batch_size;
  match output with
  | None => Ok (inr (m, s))
  | Some (key_collector, pruned_batch) => s ← body s key_collector pruned_batch; Ok (inl (m, s))
  end.

Definition drain {S} (num_total_rows batch_size : nat) (body : S → KC → Batch → Result S) (m : Merger) (s : S)
    : Result (Merger * S) :=
  rloop (Datatypes.S num_total_rows) (drain_step batch_size body) (m, s).

Definition merge_blocks {S B'} `{@SortedBlockBuilder V S B' KC} (num_total_rows sub_batch_size : nat)
    (blocks : list B) (block_builder : S) : Result B' :=
  _ ← rassert (bool_decide (1 ≤ length blocks));
  m ← merger_try_new blocks;
  '(_, block_builder) ← drain num_total_rows sub_batch_size
    (λ s key_collector pruned_batch, add_batch_and_keys s pruned_batch key_collector) m block_builder;
  finish block_builder.

End Next.

(** ** The order of cursors *)

#[export, refine] Instance cursor_order : TreeOrder SortedBlockCursor := {
  tree_le a b := finished b = true ∨
    (finished a = false ∧ finished b = false ∧ bytes_le (key_of a) (key_of b)) }.
Proof.
  all: unfold tree_lt, cursor_lt.
  - intros a b c [Hb|(Ha & Hb & Hab)] [Hc|(Hb' & Hc & Hbc)]; [auto|congruence|auto|].
    right. split_and!; [done..|]. by transitivity (key_of b).
  - intros a b. destruct (finished b), (finished a); cbn; auto. intros ?%bytes_lt_le. auto.
  - intros a b. destruct (finished b), (finished a); cbn; auto; done.
Defined.

(** Changes that the comparison does not see. *)
Definition same_key (c c' : SortedBlockCursor) : Prop :=
  id c' = id c ∧ input c' = input c ∧ finished c' = finished c.

#[export] Instance same_key_refl : Reflexive same_key.
Proof. done. Qed.

#[export] Instance same_key_trans : Transitive same_key.
Proof. intros a b c (? & ? & ?) (? & ? & ?). unfold same_key. split_and!; congruence. Qed.

Lemma same_key_le c c' : same_key c c' → tree_le c c' ∧ tree_le c' c.
Proof.
  intros (_ & Hi & Hf). cbn. unfold key_of. rewrite Hi, Hf. destruct (finished c); [auto|].
  split; right; (split; [done|split; [done|reflexivity]]).
Qed.

Lemma same_key_equivalent cs cs' : Forall2 same_key cs cs' → equivalent cs cs'.
Proof. intros Hcs. eapply Forall2_impl; [exact Hcs|]. apply same_key_le. Qed.

(** ** What a cursor delivers *)

Context `{BlkOk : @SortedBlockOk V nf Codec B Blk}.

Local Abbreviation Run := (Batch * list bytes)%type.
Local Abbreviation Row := (list V).
Local Abbreviation Rest := (list (bytes * Row)).

Definition loaded_ok (b : Batch) : Prop := batch_ok b ∧ length (columns b) = nf ∧ 0 < num_rows b.

(** The loaded rows from the current row on. *)
Definition pending (c : SortedBlockCursor) : list Row :=
  drop (cur_row_idx c) (concat (batch_rows <$> drop (cur_batch_idx c) (cur_batches c))).

(** The position of the next row. *)
Definition position_ok (c : SortedBlockCursor) : Prop :=
  (∃ b, cur_batches c !! cur_batch_idx c = Some b ∧ cur_row_idx c < num_rows b) ∨
  cur_batch_idx c = length (cur_batches c) ∧ cur_row_idx c = 0.

(** [pr] are the rows left, loaded or in the batches [bs] to come. *)
Record rows_ok (c : SortedBlockCursor) (bs : list Run) (pr : list Row) : Prop := {
  ro_loaded : Forall loaded_ok (cur_batches c);
  ro_pos : position_ok c;
  ro_runs : Forall (run_ok nf) bs;
  ro_pending : pr = pending c ++ concat (batch_rows <$> bs.*1) }.

(** A cursor that is not finished, [prev] being the key read last. *)
Record cursor_at (c : SortedBlockCursor) (on : bool) (prev : bytes) (ks : list bytes) (bs : list Run) (pr : list Row) : Prop := {
  ca_rows : rows_ok c bs pr;
  ca_fin : finished c = false;
  ca_rep : block_rep (input c) on prev ks bs;
  ca_idx : last_batch_rows c = cur_key_row_idx c + length ks }.

(** [kr] are the keys left, the current key first. *)
Definition cursor_ok (c : SortedBlockCursor) (bs : list Run) (kr : list bytes) (pr : list Row) : Prop :=
  (∃ prev ks, cursor_at c true prev ks bs pr ∧ kr = prev :: ks ++ concat bs.*2) ∨
  (rows_ok c bs pr ∧ finished c = true ∧ kr = [] ∧ bs = []).

Lemma cursor_key c bs k kr pr :
  cursor_ok c bs (k :: kr) pr → finished c = false ∧ block_cur_key (input c) = Ok k ∧ key_of c = k.
Proof.
  intros [(prev & ks & [_ Hf Hrep _] & [= -> _])|(_ & _ & ? & _)]; [|done].
  pose proof (rep_cur_key _ _ _ _ Hrep) as Hk. unfold key_of. by rewrite Hk.
Qed.

Lemma cursor_finished c bs kr pr : cursor_ok c bs kr pr → finished c = bool_decide (kr = []).
Proof.
  intros [(prev & ks & [_ -> _ _] & ->)|(_ & -> & -> & _)]; [by rewrite bool_decide_eq_false_2|done].
Qed.

Lemma pending_push c input b i :
  position_ok c → Forall loaded_ok (cur_batches c) →
  pending (mkCursor (id c) input (cur_batches c ++ [b]) true i (cur_batch_idx c) (cur_row_idx c) (finished c))
  = pending c ++ batch_rows b.
Proof.
  intros Hpos Hl. unfold pending. cbn. rewrite drop_app, fmap_app, concat_app.
  assert (cur_batch_idx c - length (cur_batches c) = 0) as ->.
  { destruct Hpos as [(b' & Hb & _)|[? _]]; [apply lookup_lt_Some in Hb|]; lia. }
  cbn. rewrite app_nil_r, drop_app_le; [done|].
  destruct Hpos as [(b' & Hb & Hr)|[_ ->]]; [|lia].
  rewrite (drop_S _ _ _ Hb), fmap_cons. cbn. rewrite length_app. unfold Joins.batch_rows at 1.
  rewrite length_fmap, length_seq. lia.
Qed.

(** Reading the next key. *)
Lemma cursor_next_key_ok c on prev ks bs pr :
  cursor_at c on prev ks bs pr →
  ∃ c' bs', cursor_next_key c = Ok c' ∧ cursor_ok c' bs' (ks ++ concat bs.*2) pr ∧ id c' = id c ∧
    cur_batch_idx c' = cur_batch_idx c ∧ cur_row_idx c' = cur_row_idx c ∧
    (cur_batches c' = cur_batches c ∧ cur_batches_changed c' = cur_batches_changed c ∧ (bs = [] → bs' = []) ∧
       (cur_batches c = [] → bs = []) ∨
     cur_batches_changed c' = true ∧ bs ≠ [] ∧ (cur_batches c = [] → ∃ b, cur_batches c' = [b] ∧ bs' = tail bs)) ∧
    (finished c' = false → ∃ e, block_is_equal_to_prev_key (input c') = Ok e ∧ (e = true → key_of c' = prev)).
Proof.
  intros [[Hl Hpos Hruns Hpr] Hfin Hrep Hidx]. unfold cursor_next_key. rewrite Hfin. cbn [negb rassert mbind Result_bind].
  assert (∀ c0 k ks' bs0, rows_ok c0 bs0 pr → finished c0 = false → (∃ on, block_rep (input c0) on prev (k :: ks') bs0) →
    last_batch_rows c0 = cur_key_row_idx c0 + S (length ks') →
    ∃ input' e, block_next_key (input c0) = Ok input' ∧
      block_is_equal_to_prev_key input' = Ok e ∧ (e = true → k = prev) ∧
      let c' := mkCursor (id c0) input' (cur_batches c0) (cur_batches_changed c0) (cur_key_row_idx c0 + 1)
        (cur_batch_idx c0) (cur_row_idx c0) (finished c0) in
      cursor_ok c' bs0 (k :: ks' ++ concat bs0.*2) pr ∧ key_of c' = k) as Hread.
  { intros c0 k ks' bs0 Hr0 Hf0 [on0 Hrep0] Hidx0. destruct (rep_next_key _ _ _ _ _ _ Hrep0) as (input' & e & Hn & Hrep' & He & Hprev).
    exists input', e. split_and!; [done..|]. cbn zeta.
    assert (cursor_ok (mkCursor (id c0) input' (cur_batches c0) (cur_batches_changed c0) (cur_key_row_idx c0 + 1)
      (cur_batch_idx c0) (cur_row_idx c0) (finished c0)) bs0 (k :: ks' ++ concat bs0.*2) pr) as Hc.
    { left. exists k, ks'. split; [|done]. destruct Hr0. split; [by split|done|done|].
      unfold last_batch_rows in *. cbn. lia. }
    split; [done|]. apply (cursor_key _ _ _ _ _ Hc). }
  destruct ks as [|k ks].
  - cbn [length] in Hidx. rewrite decide_True by lia. unfold load_next_batch. destruct bs as [|[batch ks] bs].
    + destruct (rep_end _ _ _ Hrep) as (input' & ->). cbn [mbind Result_bind].
      eexists _, []. split; [done|]. split_and!; try done.
      * right. split_and!; [by split|done..].
      * left. auto.
    + apply Forall_cons_1 in Hruns as [Hrun Hruns]. destruct (rep_next_batch _ _ _ _ _ _ Hrep Hrun) as (input' & -> & Hrep').
      cbn [mbind Result_bind]. pose proof Hrun as [Hb Hc Hlen Hn _ _ _]. cbn in Hb, Hc, Hlen, Hn.
      destruct ks as [|k ks]; [cbn in Hlen; lia|]. set (c0 := mkCursor _ _ _ _ _ _ _ _).
      destruct (Hread c0 k ks bs) as (input'' & e & -> & He & Hprev & Hok & Hkey).
      * split; [apply Forall_app; by repeat constructor| |done|].
        { destruct Hpos as [(b' & Hb' & Hr)|[Hi Hr]]; left; cbn.
          - exists b'. split; [by apply lookup_app_l_Some|done].
          - exists batch. rewrite Hi, Hr. split; [by apply list_lookup_middle|done]. }
        subst pr c0. rewrite pending_push by done. rewrite <- app_assoc. done.
      * done.
      * by exists false.
      * unfold last_batch_rows. cbn. rewrite last_snoc. done.
      * cbn [mbind Result_bind]. eexists _, bs. split; [done|]. split; [exact Hok|].
        split; [done|]. split; [done|]. split; [done|]. split.
        { right. split; [done|]. split; [done|]. intros E. exists batch. cbn. by rewrite E. }
        intros _. exists e. split; [done|]. intros ?. rewrite Hkey. auto.
  - cbn [length] in Hidx. rewrite decide_False by lia. cbn [mbind Result_bind].
    destruct (Hread c k ks bs) as (input' & e & -> & He & Hprev & Hok & Hkey); [by split|done|eauto|done|].
    cbn [mbind Result_bind]. eexists _, bs. split; [done|]. split; [exact Hok|].
    split; [done|]. split; [done|]. split; [done|]. split.
    { left. split; [done|]. split; [done|]. split; [auto|]. intros E. unfold last_batch_rows in Hidx. rewrite E in Hidx. cbn in Hidx. lia. }
    intros _. exists e. split; [done|]. intros ?. rewrite Hkey. auto.
Qed.

Lemma runs_lengths bs :
  Forall (run_ok nf) bs → length (concat bs.*2) = length (concat (batch_rows <$> bs.*1)).
Proof.
  induction 1 as [|[b ks] bs [_ _ Hk _ _ _ _] _ IH]; [done|]. cbn in *. rewrite !length_app, IH, Hk.
  f_equal. unfold Joins.batch_rows. by rewrite length_fmap, length_seq.
Qed.

(** The key is at most one row ahead of the rows that are loaded. *)
Lemma cursor_lengths c bs kr pr :
  cursor_ok c bs kr pr → finished c = false →
  ∃ ks : list bytes, length kr = S (length ks) + length (concat bs.*2) ∧ length pr = length (pending c) + length (concat bs.*2).
Proof.
  intros [(prev & ks & [[_ _ Hr ->] _ _ _] & ->)|(_ & ? & _)] Hf; [|congruence].
  exists ks. cbn. rewrite !length_app. pose proof (runs_lengths _ Hr). lia.
Qed.

Lemma pending_some c bs kr pr : cursor_ok c bs kr pr → length kr < length pr → pending c ≠ [].
Proof.
  intros Hc Hlt Hp. destruct (finished c) eqn:Hf.
  - destruct Hc as [(? & ? & [_ ? _ _] & _)|([_ _ _ ->] & _ & -> & ->)]; [congruence|]. rewrite Hp in Hlt. cbn in Hlt. lia.
  - destruct (cursor_lengths _ _ _ _ Hc Hf) as (ks & Hk & Hl). rewrite Hp in Hl. cbn in Hl. lia.
Qed.

(** Replacing what the keys do not depend on. *)
Lemma cursor_ok_same c c' bs kr pr pr' :
  cursor_ok c bs kr pr → same_key c c' → cur_key_row_idx c' = cur_key_row_idx c →
  (finished c = false → last_batch_rows c' = last_batch_rows c) → rows_ok c' bs pr' → cursor_ok c' bs kr pr'.
Proof.
  intros [(prev & ks & [_ Hf Hrep Hidx] & ->)|(_ & Hf & -> & ->)] (_ & Hi & Hfin) Hk Hlast Hr.
  - left. exists prev, ks. split; [|done]. split; [done|congruence|by rewrite Hi|]. rewrite Hlast, Hk by done. done.
  - right. split_and!; [done|congruence|done..].
Qed.

Lemma length_rows (b : Batch) : length (batch_rows b) = num_rows b.
Proof. unfold Joins.batch_rows. by rewrite length_fmap, length_seq. Qed.

Lemma next_row_ok c bs kr x pr :
  cursor_ok c bs kr (x :: pr) → pending c ≠ [] →
  ∃ c' b, next_row c = Ok (c', (cur_batch_idx c, cur_row_idx c)) ∧ same_key c c' ∧
    cur_batches c !! cur_batch_idx c = Some b ∧ cur_row_idx c < num_rows b ∧
    row_at null (columns b) (cur_row_idx c) = x ∧
    cursor_ok c' bs kr pr ∧ cur_batches c' = cur_batches c ∧ cur_batches_changed c' = cur_batches_changed c.
Proof.
  intros Hc Hp. assert (rows_ok c bs (x :: pr)) as [Hl Hpos Hruns Hpr].
  { destruct Hc as [(? & ? & [? _ _ _] & _)|(? & _)]; done. }
  destruct Hpos as [(b & Hb & Hr)|[Hi Hr]].
  2:{ exfalso. apply Hp. unfold pending. by rewrite Hi, drop_all, Hr. }
  pose proof (lookup_lt_Some _ _ _ Hb) as Hlt.
  unfold next_row. rewrite (proj2 (index_Ok _ _ _) Hb). cbn [mbind Result_bind].
  set (step := if decide (num_rows b ≤ cur_row_idx c + 1) then (cur_batch_idx c + 1, 0)
    else (cur_batch_idx c, cur_row_idx c + 1)).
  set (c' := mkCursor (id c) (input c) (cur_batches c) (cur_batches_changed c) (cur_key_row_idx c) step.1 step.2 (finished c)).
  exists c', b.
  set (later := concat (batch_rows <$> drop (S (cur_batch_idx c)) (cur_batches c))).
  assert (pending c = row_at null (columns b) (cur_row_idx c) :: pending c') as Hpend.
  { unfold pending at 1. rewrite (drop_S _ _ _ Hb), fmap_cons. cbn [concat]. fold later.
    rewrite drop_app_le by (rewrite length_rows; lia).
    assert (batch_rows b !! cur_row_idx c = Some (row_at null (columns b) (cur_row_idx c))) as Hrow.
    { unfold Joins.batch_rows. by rewrite list_lookup_fmap, lookup_seq_lt. }
    rewrite (drop_S _ _ _ Hrow). cbn [app]. f_equal. unfold pending. cbn. unfold step. case_decide as Hd; cbn.
    - rewrite drop_ge by (rewrite length_rows; lia). rewrite drop_0, Nat.add_1_r. done.
    - rewrite (drop_S _ _ _ Hb), fmap_cons. cbn [concat]. fold later. rewrite drop_app_le by (rewrite length_rows; lia).
      by rewrite Nat.add_1_r. }
  rewrite Hpend in Hpr. cbn in Hpr. injection Hpr as -> Hpr.
  split; [unfold c'; by destruct step|]. split; [done|]. split; [done|]. split; [done|].
  split; [done|]. split; [|done].
  eapply cursor_ok_same; [exact Hc|done..|]. split; [done| |done|done].
  unfold position_ok. cbn. unfold step. case_decide as Hd; cbn.
  - destruct (cur_batches c !! (cur_batch_idx c + 1)) as [b'|] eqn:Hb'.
    + left. exists b'. split; [done|]. rewrite Forall_lookup in Hl. by apply (Hl _ _ Hb').
    + right. apply lookup_ge_None in Hb'. split; [lia|done].
  - left. exists b. split; [done|lia].
Qed.

Lemma clear_ok c bs kr pr :
  cursor_ok c bs kr pr → length kr = length pr ∨ cur_batch_idx c = 0 →
  ∃ c', clear_finished_batches c = Ok c' ∧ cursor_ok c' bs kr pr ∧ same_key c c' ∧ cur_batch_idx c' = 0 ∧
    cur_row_idx c' = cur_row_idx c ∧ cur_batches c' = drop (cur_batch_idx c) (cur_batches c) ∧
    (cur_batches_changed c' = true ∨ cur_batches c' = cur_batches c ∧ cur_batches_changed c' = cur_batches_changed c).
Proof.
  intros Hc Hlen. unfold clear_finished_batches. case_decide as Hz.
  2:{ exists c. assert (cur_batch_idx c = 0) as Hi by lia. rewrite Hi, drop_0.
      split; [done|]. split; [done|]. split; [done|]. split; [done|]. split; [done|]. split; [done|]. by right. }
  destruct Hlen as [Hlen|]; [|lia].
  assert (rows_ok c bs pr) as [Hl Hpos Hruns Hpr] by (destruct Hc as [(? & ? & [? _ _ _] & _)|(? & _)]; done).
  assert (cur_batch_idx c ≤ length (cur_batches c)) as Hle.
  { destruct Hpos as [(b & Hb & _)|[? _]]; [apply lookup_lt_Some in Hb|]; lia. }
  rewrite bool_decide_eq_true_2 by done. cbn [rassert mbind Result_bind].
  eexists. split; [done|]. split; [|split_and!; first [done|by left]].
  eapply cursor_ok_same; [exact Hc|done|done| |].
  - intros Hf. destruct (cursor_lengths _ _ _ _ Hc Hf) as (ks & Hk & Hp).
    assert (cur_batch_idx c < length (cur_batches c)) as Hlt.
    { destruct Hpos as [(b & Hb & _)|[Hi Hr]]; [by apply lookup_lt_Some in Hb|].
      unfold pending in Hp. rewrite Hi, drop_all, Hr in Hp. cbn in Hp. lia. }
    unfold last_batch_rows. cbn. rewrite !last_lookup, length_drop, lookup_drop.
    by replace (cur_batch_idx c + pred (length (cur_batches c) - cur_batch_idx c)) with (pred (length (cur_batches c))) by lia.
  - split; [by apply Forall_drop| |done|].
    + destruct Hpos as [(b & Hb & Hr)|[Hi Hr]]; cbn.
      * left. exists b. cbn. by rewrite lookup_drop, Nat.add_0_r.
      * right. cbn. rewrite Hi, drop_all. done.
    + by rewrite Hpr.
Qed.

(** ** Collecting keys *)

(** The cursors deliver [rs]; [prs] are the rows they hold, which are ahead of [rs] while keys
    are collected. *)
Definition cursors_inv (single : bool) (cs : list SortedBlockCursor) (rs : list Rest) (prs : list (list Row)) : Prop :=
  length cs = length rs ∧ length rs = length prs ∧
  ∀ i c r pr, cs !! i = Some c → rs !! i = Some r → prs !! i = Some pr →
    id c = i ∧ ∃ bs, cursor_ok c bs r.*1 pr ∧
      (single = true → bs = [] ∧ length (cur_batches c) ≤ 1) ∧
      (all_pruned = true → cur_batch_idx c = 0 ∧ cur_row_idx c = 0).

Definition rests_sorted (rs : list Rest) : Prop := ∀ r, r ∈ rs → StronglySorted bytes_le r.*1.

(** What may happen to the batches of a cursor while keys are collected. *)
Definition evolves (single : bool) (c c' : SortedBlockCursor) : Prop :=
  (single = true → cur_batches c' = cur_batches c) ∧
  (cur_batches c' = cur_batches c ∧ cur_batches_changed c' = cur_batches_changed c ∨ cur_batches_changed c' = true).

Lemma evolves_trans single a b c : evolves single a b → evolves single b c → evolves single a c.
Proof.
  intros [H1 H2] [H3 H4]. split; [intros Hs; rewrite H3, H1; done|].
  destruct H4 as [[-> ->]|?]; auto.
Qed.

(** What was taken from cursor [i]. *)
Definition of_cursor {A} (i : nat) (out : list (nat * A)) : list A := (filter (λ x, x.1 = i) out).*2.

Lemma of_cursor_app {A} i (a b : list (nat * A)) : of_cursor i (a ++ b) = of_cursor i a ++ of_cursor i b.
Proof. unfold of_cursor. by rewrite filter_app, fmap_app. Qed.

(** [rs0] is [out] and then [rs], cursor by cursor. *)
Definition split_by (rs0 : list Rest) (out : list (nat * (bytes * Row))) (rs : list Rest) : Prop :=
  length rs0 = length rs ∧
  ∀ i r0 r, rs0 !! i = Some r0 → rs !! i = Some r → r0 = of_cursor i out ++ r.

Lemma split_by_snoc rs0 out rs i x r :
  split_by rs0 out rs → rs !! i = Some (x :: r) → split_by rs0 (out ++ [(i, x)]) (<[i := r]> rs).
Proof.
  intros [Hl Hs] Hi. split; [by rewrite length_insert|]. intros j r0 r' Hj0 Hj.
  rewrite of_cursor_app. unfold of_cursor at 2. rewrite filter_cons, filter_nil. cbn.
  destruct (decide (j = i)) as [->|Hne].
  - rewrite list_lookup_insert_eq in Hj by (by eapply lookup_lt_Some). injection Hj as <-.
    rewrite decide_True by done. cbn. rewrite <- app_assoc. by apply (Hs i).
  - rewrite list_lookup_insert_ne in Hj by done. rewrite decide_False by done. cbn.
    rewrite app_nil_r. by apply (Hs j).
Qed.

Lemma split_by_perm rs0 out rs :
  split_by rs0 out rs → Forall (λ x, x.1 < length rs0) out → concat rs0 ≡ₚ out.*2 ++ concat rs.
Proof.
  revert rs0 rs. induction out as [|[i x] out IH] using rev_ind; intros rs0 rs [Hl Hs] Ho.
  - assert (rs0 = rs) as ->; [|done]. apply list_eq_same_length with (length rs); [done|done|].
    intros i r0 r Hi H0 Hr. by rewrite (Hs i r0 r H0 Hr).
  - apply Forall_app in Ho as [Ho Hi]. apply Forall_cons_1 in Hi as [Hi _]. cbn in Hi.
    destruct (lookup_lt_is_Some_2 rs i ltac:(lia)) as [r Hr].
    rewrite (IH rs0 (<[i := x :: r]> rs)); [|split; [by rewrite length_insert|]|done].
    + rewrite fmap_app, <- app_assoc. cbn. f_equiv.
      assert (<[i := x :: r]> rs !! i = Some (x :: r)) as E by (by rewrite list_lookup_insert_eq by lia).
      pose proof (Merge.mjoin_insert (<[i := x :: r]> rs) i x r E) as Hp.
      rewrite list_insert_insert_eq, (list_insert_id rs i r Hr) in Hp.
      assert (∀ ls : list Rest, mjoin ls = concat ls) as Hj.
      { intros ls. induction ls as [|l ls IHl]; [done|]. change (l ++ mjoin ls = l ++ concat ls). by rewrite IHl. }
      by rewrite !Hj in Hp.
    + intros j r0 r' Hj0 Hj. destruct (decide (j = i)) as [->|Hne].
      * rewrite list_lookup_insert_eq in Hj by lia. injection Hj as <-.
        rewrite (Hs i r0 r Hj0 Hr), of_cursor_app. unfold of_cursor at 2. rewrite filter_cons, decide_True by done.
        cbn. by rewrite <- app_assoc.
      * rewrite list_lookup_insert_ne in Hj by done. rewrite (Hs j r0 r' Hj0 Hj), of_cursor_app.
        unfold of_cursor at 2. rewrite filter_cons, decide_False by done. cbn. by rewrite app_nil_r.
Qed.

Section Collecting.
Context {KC : Type} `{Col : KeyCollector KC}.
Context (collects : ∀ ks, Forall vec_ok ks → StronglySorted bytes_le ks →
  ∃ kc, rfoldM add_key (kc_default : KC) ks = Ok kc).
Context (single : bool) (cs0 : list SortedBlockCursor) (rs0 : list Rest) (prs : list (list Row)).

Local Abbreviation Collect := (@Collect KC).

Record collect_inv (s : Collect) (out : list (nat * (bytes * Row))) (rs : list Rest) : Prop := {
  ci_tree : tree_ok (tree (min_cursor s));
  ci_some : values (tree (min_cursor s)) ≠ [];
  ci_cursors : cursors_inv single (values (tree (min_cursor s))) rs prs;
  ci_evolves : Forall2 (evolves single) cs0 (values (tree (min_cursor s)));
  ci_split : split_by rs0 out rs;
  ci_range : Forall (λ x, x.1 < length rs0) out;
  ci_rests : rests_sorted rs;
  ci_vec : Forall (λ x, vec_ok x.1) (concat rs0);
  ci_keys : rfoldM add_key (kc_default : KC) (out.*2).*1 = Ok (key_collector s);
  ci_ids : cursor_ids s = if all_pruned then [] else out.*1;
  ci_n : n_rows s = Z.of_nat (length out);
  ci_sorted : StronglySorted bytes_le (out.*2).*1;
  ci_le : ∀ x y, x ∈ out.*2 → y ∈ concat rs → bytes_le x.1 y.1 }.

(** The cursor of the tree has the least key. *)
Lemma collect_min s out rs :
  collect_inv s out rs →
  ∃ i c, losers (tree (min_cursor s)) !! 0 = Some (Some i) ∧ values (tree (min_cursor s)) !! i = Some c ∧
    deref (min_cursor s) = Ok c ∧
    ((finished c = true ∧ concat rs = []) ∨
     finished c = false ∧ ∃ k x r, rs !! i = Some ((k, x) :: r) ∧ key_of c = k ∧ ∀ y, y ∈ concat rs → bytes_le k y.1).
Proof.
  intros [Htree Hsome (Hl1 & Hl2 & Hcs) _ _ _ Hrs _ _ _ _ _ _].
  destruct (deref_min _ Htree Hsome) as (i & c & Hi & Hc & Hd & _ & Hmin).
  exists i, c. split; [done|]. split; [done|]. split; [exact Hd|].
  assert (∀ j r, rs !! j = Some r → ∃ cj bs pr, values (tree (min_cursor s)) !! j = Some cj ∧ cursor_ok cj bs r.*1 pr) as Hrj.
  { intros j r Hr. pose proof (lookup_lt_Some _ _ _ Hr) as Hj.
    destruct (lookup_lt_is_Some_2 (values (tree (min_cursor s))) j ltac:(lia)) as [cj Hcj].
    destruct (lookup_lt_is_Some_2 prs j ltac:(lia)) as [pr Hpr].
    destruct (Hcs j cj r pr Hcj Hr Hpr) as (_ & bs & Hok & _). eauto 6. }
  pose proof (lookup_lt_Some _ _ _ Hc) as Hlt.
  destruct (lookup_lt_is_Some_2 rs i ltac:(lia)) as [r Hr]. destruct (Hrj i r Hr) as (c' & bs & pr & Hc' & Hok).
  assert (c' = c) as -> by congruence. destruct (finished c) eqn:Hf.
  - left. split; [done|]. apply elem_of_nil_inv. intros y (rj & Hy & Hin)%elem_of_concat.
    apply list_elem_of_lookup in Hin as [j Hj]. destruct (Hrj j rj Hj) as (cj & bs' & pr' & Hcj & Hokj).
    destruct (Hmin cj) as [Hfj|(? & _)]; [by eapply list_elem_of_lookup_2| |congruence].
    rewrite (cursor_finished _ _ _ _ Hokj) in Hfj. apply bool_decide_eq_true in Hfj.
    apply fmap_nil_inv in Hfj. subst rj. by apply not_elem_of_nil in Hy.
  - right. split; [done|]. destruct r as [|[k x] r].
    { rewrite (cursor_finished _ _ _ _ Hok) in Hf. by apply bool_decide_eq_false in Hf. }
    exists k, x, r. split; [done|]. destruct (cursor_key _ _ _ _ _ Hok) as (_ & _ & Hk). split; [done|].
    intros y (rj & Hy & Hin)%elem_of_concat. pose proof (Hrs rj Hin) as Hsort.
    apply list_elem_of_lookup in Hin as [j Hj]. destruct (Hrj j rj Hj) as (cj & bs' & pr' & Hcj & Hokj).
    destruct rj as [|[kj xj] rj]; [by apply not_elem_of_nil in Hy|].
    destruct (cursor_key _ _ _ _ _ Hokj) as (Hfj & _ & Hkj).
    destruct (Hmin cj) as [?|(_ & _ & Hle)]; [by eapply list_elem_of_lookup_2|congruence|].
    rewrite Hk, Hkj in Hle. rewrite fmap_cons in Hsort. cbn in Hsort. apply StronglySorted_inv in Hsort as [_ Hall].
    apply elem_of_cons in Hy as [->|Hy]; [done|]. transitivity kj; [done|].
    rewrite Forall_forall in Hall. apply Hall. by apply list_elem_of_fmap_2.
Qed.

Lemma cursors_inv_insert cs rs i c' bs x r pr :
  cursors_inv single cs rs prs → rs !! i = Some (x :: r) → prs !! i = Some pr → id c' = i →
  cursor_ok c' bs r.*1 pr → (single = true → bs = [] ∧ length (cur_batches c') ≤ 1) →
  (all_pruned = true → cur_batch_idx c' = 0 ∧ cur_row_idx c' = 0) →
  cursors_inv single (<[i := c']> cs) (<[i := r]> rs) prs.
Proof.
  intros (Hl1 & Hl2 & Hcs) Hr Hpr Hid Hok Hs Hap. split; [by rewrite !length_insert|].
  split; [by rewrite length_insert|]. pose proof (lookup_lt_Some _ _ _ Hr). intros j cj rj prj Hcj Hrj Hprj.
  destruct (decide (j = i)) as [->|Hne].
  - rewrite list_lookup_insert_eq in Hcj by lia. rewrite list_lookup_insert_eq in Hrj by lia. simplify_eq. eauto.
  - rewrite list_lookup_insert_ne in Hcj by done. rewrite list_lookup_insert_ne in Hrj by done. by eapply Hcs.
Qed.

Lemma rests_sorted_insert rs i x r : rests_sorted rs → rs !! i = Some (x :: r) → rests_sorted (<[i := r]> rs).
Proof.
  intros Hs Hi rj Hj. apply list_elem_of_lookup in Hj as [j Hj]. destruct (decide (j = i)) as [->|Hne].
  - rewrite list_lookup_insert_eq in Hj by (by eapply lookup_lt_Some). injection Hj as <-.
    specialize (Hs (x :: r) (list_elem_of_lookup_2 _ _ _ Hi)). rewrite fmap_cons in Hs. by apply StronglySorted_inv in Hs as [? _].
  - rewrite list_lookup_insert_ne in Hj by done. apply Hs. by eapply list_elem_of_lookup_2.
Qed.

Lemma concat_insert_cons (rs : list Rest) i x r :
  rs !! i = Some (x :: r) → concat rs ≡ₚ x :: concat (<[i := r]> rs).
Proof.
  intros Hi. assert (split_by rs [(i, x)] (<[i := r]> rs)) as Hs.
  { apply (split_by_snoc rs [] rs); [|done]. split; [done|]. intros j a b Ha Hb. cbn. congruence. }
  apply (split_by_perm _ _ _ Hs). constructor; [by eapply lookup_lt_Some|constructor].
Qed.

(** The guard after the key of its cursor has been replaced. *)
Lemma replace_winner (p : PeekMut SortedBlockCursor) i c c' (different : bool) :
  tree_ok (tree p) → losers (tree p) !! 0 = Some (Some i) → values (tree p) !! i = Some c →
  (different = false → finished c = false ∧ finished c' = false ∧ key_of c' = key_of c) →
  ∃ p', (p ← deref_mut p (λ _, c'); if different then adjust p else Ok p) = Ok p' ∧
    tree_ok (tree p') ∧ values (tree p') = <[i := c']> (values (tree p)).
Proof.
  destruct p as [[ls vs] d]. cbn [tree values losers]. intros Hok Hi Hc Hsame.
  unfold deref_mut. cbn [tree values losers]. rewrite (proj2 (uindex_Ok _ _ _) Hi). cbn [mbind Result_bind].
  rewrite (proj2 (uindex_Ok _ _ _) Hc). cbn [mbind Result_bind].
  rewrite set_uindex_Ok by (by eapply lookup_lt_Some). cbn [mbind Result_bind]. destruct different.
  - unfold adjust. cbn [dirty tree].
    destruct (adjust_tree_ok vs ls i c' Hok Hi) as (t' & Ht & Hv & Hok').
    cbn [mret Result_ret mbind Result_bind dirty tree]. rewrite Ht. cbn [mbind Result_bind]. eauto.
  - destruct Hsame as (Hf & Hf' & Hk); [done|]. eexists. split; [done|]. cbn. split; [|done].
    eapply tree_ok_equivalent; [|exact Hok]. apply (equivalent_insert _ _ c); [done|..]; right; rewrite Hk; by split_and!.
Qed.

Lemma collect_step s out rs c :
  collect_inv s out rs → deref (min_cursor s) = Ok c → finished c = false →
  ∃ i x r s', rs !! i = Some (x :: r) ∧ collect_key s = Ok s' ∧ collect_inv s' (out ++ [(i, x)]) (<[i := r]> rs).
Proof using Type collects.
  intros Hinv Hd Hf. destruct (collect_min s out rs Hinv) as (i & c' & Hi & Hc & Hd' & [[? _]|(_ & k & x & r & Hr & Hk & Hmin)]);
    [congruence|]. assert (c' = c) as -> by congruence.
  destruct Hinv as [Htree Hsome (Hl1 & Hl2 & Hcs) Hev Hsplit Hrange Hrests Hvec Hkeys Hids Hn Hsorted Hle].
  pose proof (lookup_lt_Some _ _ _ Hr) as Hilt. destruct (lookup_lt_is_Some_2 prs i ltac:(lia)) as [pr Hpr].
  destruct (Hcs i c _ pr Hc Hr Hpr) as (Hid & bs & Hok & Hsingle & Hap). cbn [fmap list_fmap fst] in Hok.
  exists i, (k, x), r. destruct (cursor_key _ _ _ _ _ Hok) as (_ & Hck & _).
  destruct Hok as [(prev & ks & Hat & [= <- Hkr])|(_ & ? & _)]; [|congruence].
  destruct (cursor_next_key_ok _ _ _ _ _ _ Hat) as (c' & bs' & Hnext & Hok' & Hid' & Hbi & Hri & Hbatches & Heq).
  rewrite <- Hkr in Hok'.
  pose proof (concat_insert_cons rs i (k, x) r Hr) as Hperm.
  pose proof (split_by_snoc _ _ _ _ _ _ Hsplit Hr) as Hsplit'.
  assert (i < length rs0) as Hi0 by (destruct Hsplit; lia).
  assert (Hrange' : Forall (λ x, x.1 < length rs0) (out ++ [(i, (k, x))])) by (apply Forall_app; by repeat constructor).
  assert (Hsorted' : StronglySorted bytes_le ((out ++ [(i, (k, x))]).*2).*1).
  { rewrite !fmap_app. cbn. apply StronglySorted_app. split_and!; [|done|by repeat constructor].
    intros a b Ha ->%list_elem_of_singleton. apply list_elem_of_fmap in Ha as (y & -> & Hy).
    apply (Hle y (k, x) Hy). rewrite Hperm. left. }
  assert (Hvec' : Forall vec_ok ((out ++ [(i, (k, x))]).*2).*1).
  { apply Forall_fmap. rewrite (split_by_perm _ _ _ Hsplit' Hrange') in Hvec. by apply Forall_app in Hvec as [? _]. }
  destruct (collects _ Hvec' Hsorted') as (kc' & Hkc').
  assert (add_key (key_collector s) k = Ok kc') as Hadd.
  { rewrite !fmap_app, rfoldM_app, Hkeys in Hkc'. cbn [mbind Result_bind fmap list_fmap rfoldM fst snd] in Hkc'.
    destruct (add_key (key_collector s) k); [|done..]. cbn in Hkc'. by injection Hkc' as ->. }
  set (different := if finished c' then Ok true else e ← block_is_equal_to_prev_key (input c'); Ok (negb e)).
  assert (∃ b, different = Ok b ∧ (b = false → finished c = false ∧ finished c' = false ∧ key_of c' = key_of c)) as (b & Hdiff & Hb).
  { unfold different. destruct (finished c') eqn:Hf'; [by exists true|].
    destruct (Heq eq_refl) as (e & -> & He). exists (negb e). split; [done|]. intros Hne. apply negb_false_iff in Hne.
    split_and!; [done|done|]. rewrite Hk. auto. }
  destruct (replace_winner (min_cursor s) i c c' b Htree Hi Hc Hb) as (p' & Hp' & Htree' & Hv').
  eexists. split; [done|]. split.
  - unfold collect_key. rewrite Hd. cbn [mbind Result_bind]. rewrite Hck. cbn [mbind Result_bind].
    rewrite Hadd. cbn [mbind Result_bind]. rewrite Hnext. cbn [mbind Result_bind].
    apply bind_Ok in Hp' as (q & -> & Hp'). cbn [mbind Result_bind]. fold different. rewrite Hdiff. cbn [mbind Result_bind].
    rewrite Hp'. cbn [mbind Result_bind]. done.
  - split; cbn [min_cursor key_collector cursor_ids n_rows]; try done.
    + rewrite Hv'. intros E%(f_equal length). rewrite length_insert in E. by destruct (values (tree (min_cursor s))).
    + rewrite Hv'. apply (cursors_inv_insert _ _ _ _ bs' (k, x) _ pr); [done|done|done|congruence|done| |].
      * intros Hs. destruct (Hsingle Hs) as [-> Hlen]. destruct Hbatches as [(-> & _ & Hbs & _)|(_ & ? & _)]; [auto|done].
      * intros Ha. rewrite Hbi, Hri. auto.
    + rewrite Hv'. apply Forall2_same_length_lookup_2; [rewrite length_insert; by eapply Forall2_length|].
      intros j a a' Ha Ha'. destruct (decide (j = i)) as [->|Hne].
      * rewrite list_lookup_insert_eq in Ha' by lia. injection Ha' as <-.
        destruct (Forall2_lookup_l _ _ _ _ _ Hev Ha) as (a' & Ha' & Hea). assert (a' = c) as -> by congruence.
        eapply evolves_trans; [exact Hea|]. split.
        { intros Hs. destruct (Hsingle Hs) as [-> _]. destruct Hbatches as [(-> & _)|(_ & ? & _)]; done. }
        destruct Hbatches as [(? & ? & _)|(? & _)]; auto.
      * rewrite list_lookup_insert_ne in Ha' by done. by eapply Forall2_lookup_lr.
    + by eapply rests_sorted_insert.
    + rewrite Hids, Hid. destruct all_pruned; [done|]. by rewrite fmap_app.
    + rewrite Hn, length_app. cbn. lia.
    + intros a y Ha Hy. rewrite fmap_app in Ha. cbn in Ha. apply elem_of_app in Ha as [Ha|Ha].
      * apply Hle; [done|]. rewrite Hperm. by right.
      * apply list_elem_of_singleton in Ha. subst a. apply Hmin. rewrite Hperm. by right.
Qed.

(** The loop ends with as many rows as were asked for, or with all of them. *)
Lemma collect_loop s out0 rs1 max_num_rows :
  collect_inv s out0 rs1 → (n_rows s <= max_num_rows)%Z → (0 <= n_rows s)%Z →
  ∃ s' out rs, rwhileM (Z.to_nat max_num_rows) (collect_cond max_num_rows) collect_key s = Ok s' ∧
    collect_inv s' out rs ∧ (n_rows s' <= max_num_rows)%Z ∧ (n_rows s' = max_num_rows ∨ concat rs = []).
Proof using Type collects.
  intros Hinv Hle Hpos.
  destruct (rwhileM_inv (λ s, (∃ out rs, collect_inv s out rs) ∧ (n_rows s <= max_num_rows)%Z)
    (λ s, Z.to_nat (max_num_rows - n_rows s)) (collect_cond max_num_rows) collect_key (Z.to_nat max_num_rows) s)
    as (s' & Hrun & ((out & rs & Hinv') & Hle') & Hend); [eauto|lia| |].
  - clear s out0 rs1 Hinv Hle Hpos. intros s ((out & rs & Hinv) & Hle).
    destruct (collect_min s out rs Hinv) as (i & c & _ & _ & Hd & _). unfold collect_cond at 1. rewrite Hd.
    cbn [mbind Result_bind]. eexists. split; [done|]. intros [Hf Hlt]%andb_true_iff.
    apply negb_true_iff in Hf. apply bool_decide_eq_true in Hlt.
    destruct (collect_step s out rs c Hinv Hd Hf) as (j & x & r & s' & _ & Hs' & Hinv').
    exists s'. pose proof (ci_n _ _ _ Hinv) as Hn. pose proof (ci_n _ _ _ Hinv') as Hn'. rewrite length_app in Hn'. cbn in Hn'.
    split; [done|]. split; [split; [eauto|lia]|lia].
  - exists s', out, rs. split; [done|]. split; [done|]. split; [done|].
    destruct (collect_min s' out rs Hinv') as (i & c & _ & _ & Hd & Hc). unfold collect_cond in Hend. rewrite Hd in Hend.
    cbn [mbind Result_bind] in Hend. injection Hend as Hend. apply andb_false_iff in Hend as [Hf|Hlt].
    + apply negb_false_iff in Hf. right. by destruct Hc as [[_ ?]|[? _]]; [|congruence].
    + apply bool_decide_eq_false in Hlt. left. lia.
Qed.

End Collecting.

(** ** Gathering the rows *)

(** The interleaver of [m] finds the batches of the cursors. *)
Definition located (m : Merger) (cs : list SortedBlockCursor) (Bs : list Batch) : Prop :=
  batch_interleaver m = interleaver_of nf Bs ∧ Forall (λ b, batch_ok b ∧ length (columns b) = nf) Bs ∧
  ∀ i c bi b, cs !! i = Some c → cur_batches c !! bi = Some b →
    ∃ a, Bs !! a = Some b ∧
      if single_batch_mode m then a = i
      else ∃ base, batches_base_indices m !! i = Some base ∧ a = base + bi.

Definition same_batches (c c' : SortedBlockCursor) : Prop :=
  cur_batches c' = cur_batches c ∧ cur_batches_changed c' = cur_batches_changed c.

#[export] Instance same_batches_trans : Transitive same_batches.
Proof. intros ??? [? ?] [? ?]. split; congruence. Qed.

Lemma located_batches m cs cs' Bs :
  located m cs Bs → Forall2 (λ c c', cur_batches c' = cur_batches c) cs cs' → located m cs' Bs.
Proof.
  intros (Hil & HBs & Hloc) Hcs. split; [done|]. split; [done|]. intros i c' bi b Hc' Hb.
  destruct (Forall2_lookup_r _ _ _ _ _ Hcs Hc') as (c & Hc & E). rewrite E in Hb. by eapply Hloc.
Qed.

Lemma base_indices_ok n cs i c bi b :
  cs !! i = Some c → cur_batches c !! bi = Some b →
  ∃ base, base_indices n cs !! i = Some (n + base) ∧ concat (cur_batches <$> cs) !! (base + bi) = Some b.
Proof.
  revert n i. induction cs as [|c0 cs IH]; intros n [|i] Hc Hb; [done..| |]; cbn in Hc.
  - injection Hc as ->. exists 0. cbn. split; [f_equal; lia|]. by apply lookup_app_l_Some.
  - destruct (IH (n + length (cur_batches c0)) i Hc Hb) as (base & Hbase & Hlook).
    exists (length (cur_batches c0) + base). rewrite fmap_cons. cbn [base_indices concat]. split; [etransitivity; [exact Hbase|f_equal; lia]|].
    rewrite lookup_app_r by lia. by replace (length (cur_batches c0) + base + bi - length (cur_batches c0)) with (base + bi) by lia.
Qed.

Lemma mjoin_concat {A} (ls : list (list A)) : mjoin ls = concat ls.
Proof. induction ls as [|l ls IH]; [done|]. change (l ++ mjoin ls = l ++ concat ls). by rewrite IH. Qed.

(** The interleaver is up to date unless a cursor has changed. *)
Definition interleaver_inv (m : Merger) (cs : list SortedBlockCursor) : Prop :=
  single_batch_mode m = true ∨ Forall (λ c, cur_batches_changed c = false) cs → ∃ Bs, located m cs Bs.

Lemma interleaver_inv_evolves m cs cs' :
  interleaver_inv m cs → Forall2 (evolves (single_batch_mode m)) cs cs' → interleaver_inv m cs'.
Proof.
  intros Hil Hcs Hwhen.
  assert (Forall2 (λ c c', cur_batches c' = cur_batches c) cs cs' ∧
    (single_batch_mode m = true ∨ Forall (λ c, cur_batches_changed c = false) cs)) as [Hsame Hwhen'].
  { destruct (single_batch_mode m) eqn:Hs.
    - split; [|by left]. eapply Forall2_impl; [exact Hcs|]. intros c c' [H1 _]. auto.
    - destruct Hwhen as [|Hwhen]; [done|]. rewrite Forall_lookup in Hwhen. split; [|right; apply Forall_lookup].
      + apply Forall2_same_length_lookup_2; [by eapply Forall2_length|]. intros i c c' Hc Hc'.
        pose proof (Forall2_lookup_lr _ _ _ _ _ _ Hcs Hc Hc') as [_ [[-> _]|Hch]]; [done|].
        by rewrite (Hwhen i c' Hc') in Hch.
      + intros i c Hc. destruct (Forall2_lookup_l _ _ _ _ _ Hcs Hc) as (c' & Hc' & _ & [[_ <-]|Hch]); [by apply (Hwhen i)|].
        by rewrite (Hwhen i c' Hc') in Hch. }
  destruct (Hil Hwhen') as [Bs Hloc]. exists Bs. by eapply located_batches.
Qed.

Lemma cursor_ok_clear_changed c bs kr pr : cursor_ok c bs kr pr → cursor_ok (clear_changed c) bs kr pr.
Proof.
  intros Hc. eapply cursor_ok_same; [exact Hc|done..|].
  destruct Hc as [(? & ? & [[? ? ? ?] _ _ _] & _)|([? ? ? ?] & _)]; by split.
Qed.

(** Replacing cursors one by one. *)
Lemma cursors_inv_Forall2 (single : bool) cs cs' rs prs (R : SortedBlockCursor → SortedBlockCursor → Prop) :
  cursors_inv single cs rs prs → Forall2 R cs cs' →
  (∀ c c' bs kr pr, R c c' → cursor_ok c bs kr pr → cursor_ok c' bs kr pr ∧ id c' = id c ∧
    length (cur_batches c') ≤ length (cur_batches c) ∧ cur_batch_idx c' = cur_batch_idx c ∧ cur_row_idx c' = cur_row_idx c) →
  cursors_inv single cs' rs prs.
Proof.
  intros (Hl1 & Hl2 & Hcs) HR Hstep. split; [by rewrite <- (Forall2_length _ _ _ HR)|]. split; [done|].
  intros i c' r pr Hc' Hr Hpr. destruct (Forall2_lookup_r _ _ _ _ _ HR Hc') as (c & Hc & HRc).
  destruct (Hcs i c r pr Hc Hr Hpr) as (Hid & bs & Hok & Hs & Hap).
  destruct (Hstep c c' bs r.*1 pr HRc Hok) as (Hok' & Hid' & Hlen & Hbi & Hri).
  split; [congruence|]. exists bs. split; [done|]. rewrite Hbi, Hri. split; [|done].
  intros Hsingle. destruct (Hs Hsingle). split; [done|lia].
Qed.

Lemma refresh_ok m rs prs :
  let cs := values (cursors m) in
  interleaver_inv m cs → cursors_inv (single_batch_mode m) cs rs prs → concat (cur_batches <$> cs) ≠ [] →
  ∃ m' Bs, refresh m = Ok m' ∧ located m' (values (cursors m')) Bs ∧ losers (cursors m') = losers (cursors m) ∧
    single_batch_mode m' = single_batch_mode m ∧ num_total_output_rows m' = num_total_output_rows m ∧
    Forall2 same_key cs (values (cursors m')) ∧ cursors_inv (single_batch_mode m) (values (cursors m')) rs prs.
Proof.
  intros cs Hil Hcs Hne. unfold refresh. fold cs.
  destruct (negb (single_batch_mode m) && existsb cur_batches_changed cs) eqn:Hcond.
  - apply andb_true_iff in Hcond as [Hs _]. apply negb_true_iff in Hs. rewrite mjoin_concat.
    assert (Forall loaded_ok (concat (cur_batches <$> cs))) as Hl.
    { apply Forall_forall. intros b (l & Hb & Hl)%elem_of_concat. apply list_elem_of_fmap in Hl as (c & -> & Hc).
      destruct Hcs as (Hl1 & Hl2 & Hcs). apply list_elem_of_lookup in Hc as [i Hi]. pose proof (lookup_lt_Some _ _ _ Hi).
      destruct (lookup_lt_is_Some_2 rs i ltac:(lia)) as [r Hr]. destruct (lookup_lt_is_Some_2 prs i ltac:(lia)) as [pr Hpr].
      destruct (Hcs i c r pr Hi Hr Hpr) as (_ & bs & Hok & _).
      assert (Forall loaded_ok (cur_batches c)) as Hall by (destruct Hok as [(? & ? & [[? _ _ _] _ _ _] & _)|([? _ _ _] & _)]; done).
      rewrite Forall_forall in Hall. auto. }
    rewrite (create_batch_interleaver_ok nf) by (done || (eapply Forall_impl; [exact Hl|]; by intros b (_ & ? & _))).
    cbn [mbind Result_bind]. eexists _, _. split; [done|]. cbn [cursors values losers single_batch_mode num_total_output_rows].
    split; [|split; [done|split; [done|split; [done|split]]]].
    + split; [done|]. split; [eapply Forall_impl; [exact Hl|]; by intros b (? & ? & _)|].
      intros i c bi b Hc Hb. cbn [single_batch_mode batches_base_indices]. rewrite Hs.
      apply list_lookup_fmap_Some in Hc as (c0 & -> & Hc). cbn in Hb.
      destruct (base_indices_ok 0 cs i c0 bi b Hc Hb) as (base & Hbase & Hlook). exists (base + bi). split; [done|].
      by exists base.
    + apply Forall2_fmap_r, Forall_Forall2_diag, Forall_true. done.
    + eapply (cursors_inv_Forall2 _ _ _ _ _ (λ c c', c' = clear_changed c)); [exact Hcs| |].
      * apply Forall2_fmap_r, Forall_Forall2_diag, Forall_true. done.
      * intros c c' bs kr pr -> Hok. split; [by apply cursor_ok_clear_changed|]. done.
  - assert (single_batch_mode m = true ∨ Forall (λ c, cur_batches_changed c = false) cs) as Hwhen.
    { apply andb_false_iff in Hcond as [Hs|Hch]; [left; by apply negb_false_iff in Hs|right].
      apply Forall_forall. by apply existsb_false. }
    destruct (Hil Hwhen) as [Bs Hloc]. exists m, Bs. split; [done|]. split; [done|]. split; [done|]. split; [done|].
    split; [done|]. split; [|done]. apply Forall_Forall2_diag, Forall_true. done.
Qed.

(** The rows a cursor holds while those of [out] are still to be gathered. *)
Definition holds (out : list (nat * (bytes * Row))) (rs : list Rest) (prs : list (list Row)) : Prop :=
  ∀ i r pr, rs !! i = Some r → prs !! i = Some pr → pr = (of_cursor i out ++ r).*2.

Lemma stage_ok m Bs rs out cs prs indices :
  all_pruned = false → located m cs Bs → cursors_inv (single_batch_mode m) cs rs prs → holds out rs prs →
  Forall (λ x, x.1 < length rs) out →
  ∃ cs' staged prs', rfoldM (stage m) (cs, indices) out.*1 = Ok (cs', indices ++ staged) ∧
    Forall2 (position_of null Bs) staged (out.*2).*2 ∧ cursors_inv (single_batch_mode m) cs' rs prs' ∧
    holds [] rs prs' ∧ Forall2 same_key cs cs' ∧ Forall2 same_batches cs cs'.
Proof.
  intros Hap. revert cs prs indices. induction out as [|[i x] out IH]; intros cs prs indices Hloc Hcs Hh Hr.
  { exists cs, [], prs. cbn. rewrite app_nil_r. split; [done|]. split; [constructor|]. split; [done|]. split; [done|].
    split; apply Forall_Forall2_diag, Forall_true; done. }
  apply Forall_cons_1 in Hr as [Hi Hr]. cbn in Hi. rewrite fmap_cons. cbn [fst rfoldM].
  pose proof Hcs as (Hl1 & Hl2 & Hcsi). destruct (lookup_lt_is_Some_2 cs i ltac:(lia)) as [c Hc].
  destruct (lookup_lt_is_Some_2 rs i Hi) as [r Hri]. destruct (lookup_lt_is_Some_2 prs i ltac:(lia)) as [pr Hpr].
  destruct (Hcsi i c r pr Hc Hri Hpr) as (Hid & bs & Hok & Hs & _).
  assert (pr = x.2 :: (of_cursor i out ++ r).*2) as ->.
  { rewrite (Hh i r pr Hri Hpr). unfold of_cursor. rewrite filter_cons. cbn. rewrite decide_True by done. done. }
  destruct (next_row_ok c bs r.*1 x.2 _ Hok) as (c' & b & Hn & Hsk & Hb & Hlt & Hrow & Hok' & Hbs & Hch).
  { eapply pending_some; [exact Hok|]. rewrite length_fmap. cbn. rewrite length_fmap, length_app. lia. }
  destruct Hsk as (Hid' & Hsk).
  unfold stage at 2. rewrite (proj2 (index_Ok _ _ _) Hc). cbn [mbind Result_bind]. rewrite Hn. cbn [mbind Result_bind].
  rewrite set_index_Ok by lia. cbn [mbind Result_bind].
  pose proof Hloc as (Hil & HBs & Hlook). destruct (Hlook i c _ b Hc Hb) as (a & Ha & Hmode).
  set (position := (a, cur_row_idx c)).
  assert (Hlen : length (<[i := c']> cs) = length cs) by apply length_insert.
  assert (Hsame : Forall2 same_key cs (<[i := c']> cs) ∧ Forall2 same_batches cs (<[i := c']> cs)).
  { assert (∀ (R : relation SortedBlockCursor), (∀ y, R y y) → R c c' → Forall2 R cs (<[i := c']> cs)) as Hins.
    { intros R Hrefl HR. apply Forall2_same_length_lookup_2; [done|]. intros j y y' Hy Hy'.
      destruct (decide (j = i)) as [->|Hne].
      - rewrite list_lookup_insert_eq in Hy' by lia. by simplify_eq.
      - rewrite list_lookup_insert_ne in Hy' by done. by simplify_eq. }
    split; apply Hins; done. }
  destruct Hsame as [Hsame1 Hsame2].
  destruct (IH (<[i := c']> cs) (<[i := (of_cursor i out ++ r).*2]> prs) (indices ++ [position]))
    as (cs' & staged & prs' & Hfold & Hpos & Hcs' & Hh' & Hk' & Hb').
  - eapply located_batches; [exact Hloc|]. eapply Forall2_impl; [exact Hsame2|]. by intros ? ? [? _].
  - split; [lia|]. split; [by rewrite length_insert|]. intros j cj rj prj Hcj Hrj Hprj.
    destruct (decide (j = i)) as [->|Hne].
    + rewrite list_lookup_insert_eq in Hcj by lia. rewrite list_lookup_insert_eq in Hprj by lia. simplify_eq.
      split; [congruence|]. exists bs. split; [done|]. split; [by rewrite Hbs|congruence].
    + rewrite list_lookup_insert_ne in Hcj by done. rewrite list_lookup_insert_ne in Hprj by done. by eapply Hcsi.
  - intros j rj prj Hrj Hprj. destruct (decide (j = i)) as [->|Hne].
    + rewrite list_lookup_insert_eq in Hprj by lia. by simplify_eq.
    + rewrite list_lookup_insert_ne in Hprj by done. rewrite (Hh j rj prj Hrj Hprj). unfold of_cursor.
      rewrite filter_cons. cbn. rewrite decide_False by done. done.
  - done.
  - exists cs', (position :: staged), prs'. split.
    { assert (index (batches_base_indices m) (id c') = if single_batch_mode m then index (batches_base_indices m) (id c') else Ok (a - cur_batch_idx c)) as Hbase.
      { destruct (single_batch_mode m); [done|]. destruct Hmode as (base & Hbase & ->). apply index_Ok.
        rewrite Hid', Hid, Hbase. f_equal. lia. }
      destruct (single_batch_mode m) eqn:Esm.
      - subst a. rewrite Hid', Hid. change (i, cur_row_idx c) with position. rewrite <- (app_assoc indices [position] staged) in Hfold. exact Hfold.
      - destruct Hmode as (base & _ & ->). rewrite Hbase. cbn [mbind Result_bind].
        replace (base + cur_batch_idx c - cur_batch_idx c + cur_batch_idx c) with (base + cur_batch_idx c) by lia.
        change (base + cur_batch_idx c, cur_row_idx c) with position.
        rewrite <- (app_assoc indices [position] staged) in Hfold. exact Hfold. }
    split; [constructor; [by exists b|done]|]. split; [done|]. split; [done|]. split.
    + by transitivity (<[i := c']> cs).
    + by transitivity (<[i := c']> cs).
Qed.

(** ** A call of [next] *)

Lemma clear_all (single : bool) cs rs prs :
  cursors_inv single cs rs prs → all_pruned = true ∨ holds [] rs prs →
  ∃ cs', rmapM clear_finished_batches cs = Ok cs' ∧ cursors_inv single cs' rs prs ∧ Forall2 same_key cs cs' ∧
    Forall2 (λ c c', cur_batches c' = drop (cur_batch_idx c) (cur_batches c) ∧
      (cur_batches_changed c' = true ∨ cur_batches c' = cur_batches c ∧ cur_batches_changed c' = cur_batches_changed c)) cs cs'.
Proof.
  intros (Hl1 & Hl2 & Hcs) Hsync.
  assert (∀ i c, cs !! i = Some c → ∃ r pr bs, rs !! i = Some r ∧ prs !! i = Some pr ∧ id c = i ∧
    cursor_ok c bs r.*1 pr ∧ (single = true → bs = [] ∧ length (cur_batches c) ≤ 1) ∧
    (all_pruned = true → cur_batch_idx c = 0 ∧ cur_row_idx c = 0) ∧ (length r.*1 = length pr ∨ cur_batch_idx c = 0)) as Hi.
  { intros i c Hc. pose proof (lookup_lt_Some _ _ _ Hc).
    destruct (lookup_lt_is_Some_2 rs i ltac:(lia)) as [r Hr]. destruct (lookup_lt_is_Some_2 prs i ltac:(lia)) as [pr Hpr].
    destruct (Hcs i c r pr Hc Hr Hpr) as (Hid & bs & Hok & Hs & Hap). exists r, pr, bs. split_and!; try done.
    destruct Hsync as [Hap'|Hh]; [right; by apply Hap|left]. rewrite (Hh i r pr Hr Hpr). cbn. by rewrite !length_fmap. }
  assert (∃ cs', rmapM clear_finished_batches cs = Ok cs') as [cs' Hcs'].
  { assert (Forall (λ c, ∃ c', clear_finished_batches c = Ok c') cs) as Hall.
    { apply Forall_lookup. intros i c Hc. destruct (Hi i c Hc) as (r & pr & bs & _ & _ & _ & Hok & _ & _ & Hl).
      destruct (clear_ok _ _ _ _ Hok Hl) as (c' & Hc' & _). eauto. }
    apply Forall_exists_Forall2_l in Hall as [cs' Hall]. exists cs'. by apply rmapM_Ok. }
  exists cs'. split; [done|]. apply rmapM_Ok in Hcs'.
  assert (∀ i c c', cs !! i = Some c → cs' !! i = Some c' → ∀ bs kr pr, cursor_ok c bs kr pr →
    length kr = length pr ∨ cur_batch_idx c = 0 → cursor_ok c' bs kr pr ∧ same_key c c' ∧ cur_batch_idx c' = 0 ∧
    cur_row_idx c' = cur_row_idx c ∧ cur_batches c' = drop (cur_batch_idx c) (cur_batches c) ∧
    (cur_batches_changed c' = true ∨ cur_batches c' = cur_batches c ∧ cur_batches_changed c' = cur_batches_changed c)) as Hclear.
  { intros i c c' Hc Hc' bs kr pr Hok Hl. pose proof (Forall2_lookup_lr _ _ _ _ _ _ Hcs' Hc Hc') as E. cbn in E.
    destruct (clear_ok _ _ _ _ Hok Hl) as (c'' & E' & ?). assert (c'' = c') as -> by congruence. done. }
  split.
  - split; [by rewrite <- (Forall2_length _ _ _ Hcs')|]. split; [done|]. intros i c' r pr Hc' Hr Hpr.
    destruct (Forall2_lookup_r _ _ _ _ _ Hcs' Hc') as (c & Hc & _).
    destruct (Hi i c Hc) as (r' & pr' & bs & ? & ? & Hid & Hok & Hs & Hap & Hl). simplify_eq.
    destruct (Hclear _ c c' Hc Hc' _ _ _ Hok Hl) as (Hok' & (Hid' & _) & Hbi & Hri & Hb & _).
    split; [done|]. exists bs. split; [done|]. rewrite Hbi, Hri, Hb. split.
    + intros Hsg. destruct (Hs Hsg). split; [done|]. rewrite length_drop. lia.
    + intros Ha. split; [done|by apply Hap].
  - split; (apply Forall2_same_length_lookup_2; [by eapply Forall2_length|]; intros i c c' Hc Hc';
      destruct (Hi i c Hc) as (r & pr & bs & _ & _ & _ & Hok & _ & _ & Hl);
      destruct (Hclear _ c c' Hc Hc' _ _ _ Hok Hl) as (_ & Hsk & _ & _ & Hb & Hch); done).
Qed.

(** A merger whose cursors have [rs] left. *)
Record merger_ok (m : Merger) (rs : list Rest) : Prop := {
  mo_tree : tree_ok (cursors m);
  mo_some : values (cursors m) ≠ [];
  mo_cursors : ∃ prs, cursors_inv (single_batch_mode m) (values (cursors m)) rs prs ∧
    (all_pruned = false → holds [] rs prs);
  mo_rests : rests_sorted rs;
  mo_vec : Forall (λ x, vec_ok x.1) (concat rs);
  mo_rows : all_pruned = true → Forall (λ x, x.2 = []) (concat rs);
  mo_il : all_pruned = false → interleaver_inv m (values (cursors m));
  mo_total : (0 <= num_total_output_rows m <= limit)%Z }.

(** The rows that a batch and its keys stand for. *)
Definition delivers {KC} `{KeyCollector KC} (output : option (KC * Batch)) (out : Rest) : Prop :=
  match output with
  | None => out = []
  | Some (kc, q) => out ≠ [] ∧ (∃ kc', rfoldM add_key kc_default out.*1 = Ok kc' ∧ kc = freeze kc') ∧
      batch_ok q ∧ length (columns q) = nf ∧ num_rows q = length out ∧ batch_rows q = out.*2
  end.

Section NextOk.
Context {KC : Type} `{Col : KeyCollector KC}.
Context (collects : ∀ ks, Forall vec_ok ks → StronglySorted bytes_le ks →
  ∃ kc, rfoldM add_key (kc_default : KC) ks = Ok kc).
Context (limit_bound : (limit < 2 ^ 64)%Z).

(** The batch of the collected rows. *)
Lemma pruned_rows_ok m rs prs out (n : Z) :
  let cs := values (cursors m) in
  cursors_inv (single_batch_mode m) cs rs prs → cs ≠ [] → tree_ok (cursors m) →
  (all_pruned = false → interleaver_inv m cs ∧ holds out rs prs) →
  (all_pruned = true → Forall (λ x, x.2 = []) out.*2) →
  Forall (λ x, x.1 < length rs) out → out ≠ [] → n = Z.of_nat (length out) →
  ∃ m' q prs', pruned_rows m (if all_pruned then [] else out.*1) n = Ok (m', q) ∧
    batch_ok q ∧ length (columns q) = nf ∧ num_rows q = length out ∧ batch_rows q = (out.*2).*2 ∧
    single_batch_mode m' = single_batch_mode m ∧ num_total_output_rows m' = num_total_output_rows m ∧
    losers (cursors m') = losers (cursors m) ∧ Forall2 same_key cs (values (cursors m')) ∧
    cursors_inv (single_batch_mode m) (values (cursors m')) rs prs' ∧
    (all_pruned = false → holds [] rs prs' ∧ ∃ Bs, located m' (values (cursors m')) Bs).
Proof.
  intros cs Hcs Hne Htree Hrows Hap Hr Hout ->. unfold pruned_rows. destruct all_pruned eqn:Eap.
  - exists m, (mkBatch (length out) []), prs. rewrite Nat2Z.id. split; [done|]. split; [constructor|].
    assert (nf = 0) as Hnf by (by apply bool_decide_eq_true in Eap). split; [done|]. split; [done|]. split.
    { unfold Joins.batch_rows. cbn. specialize (Hap eq_refl). apply list_eq. intros i.
      rewrite !list_lookup_fmap. destruct (out !! i) as [[j x]|] eqn:E.
      - rewrite lookup_seq_lt by (by eapply lookup_lt_Some). cbn. f_equal. symmetry.
        rewrite Forall_lookup in Hap. apply (Hap i). by rewrite list_lookup_fmap, E.
      - rewrite lookup_ge_None_2; [done|]. rewrite length_seq. by apply lookup_ge_None. }
    do 3 (split; [done|]). split; [by apply Forall_Forall2_diag, Forall_true|]. done.
  - destruct (Hrows eq_refl) as [Hil Hh].
    destruct (refresh_ok m rs prs Hil Hcs) as (m1 & Bs & -> & Hloc & Hlo & Hsm & Htot & Hsk & Hcs1).
    { destruct out as [|[i x] out]; [done|]. apply Forall_cons_1 in Hr as [Hi _]. cbn in Hi.
      destruct Hcs as (Hl1 & Hl2 & Hcsi). destruct (lookup_lt_is_Some_2 cs i ltac:(unfold cs in *; lia)) as [c Hc].
      destruct (lookup_lt_is_Some_2 rs i Hi) as [r Hri]. destruct (lookup_lt_is_Some_2 prs i ltac:(lia)) as [pr Hpr].
      destruct (Hcsi i c r pr Hc Hri Hpr) as (_ & bs & Hok & _). intros Hnil.
      assert (pending c ≠ []) as Hp.
      { eapply pending_some; [exact Hok|]. rewrite (Hh i r pr Hri Hpr). unfold of_cursor.
        rewrite filter_cons, decide_True by done. cbn. rewrite !length_fmap, length_app. lia. }
      apply Hp. unfold pending. assert (cur_batches c = []) as ->; [|rewrite drop_nil; apply drop_nil].
      destruct (cur_batches c) as [|b l] eqn:Eb; [done|]. exfalso.
      assert (b ∈ concat (cur_batches <$> cs)) as Hin; [|unfold cs in Hin; rewrite Hnil in Hin; by apply not_elem_of_nil in Hin].
      apply elem_of_concat. exists (cur_batches c). rewrite Eb. split; [left|]. rewrite <- Eb.
      apply list_elem_of_fmap_2. by eapply list_elem_of_lookup_2. }
    cbn [mbind Result_bind]. rewrite <- Hsm in Hcs1.
    destruct (stage_ok m1 Bs rs out _ prs [] Eap Hloc Hcs1 Hh Hr) as (cs' & staged & prs' & -> & Hpos & Hcs' & Hh' & Hsk' & Hsb).
    cbn [mbind Result_bind app]. destruct Hloc as (Hil1 & HBs & Hlook). rewrite Hil1.
    destruct (interleave_ok null nf Bs staged _ HBs Hpos) as (q & -> & Hq & Hqn & Hqc & Hqr).
    cbn [mbind Result_bind]. exists (set_values m1 cs'), q, prs'. split; [done|]. split; [done|]. split; [done|].
    split; [by rewrite Hqn, (Forall2_length _ _ _ Hpos), !length_fmap|]. split; [done|].
    cbn [set_values single_batch_mode num_total_output_rows cursors losers values].
    split; [done|]. split; [done|]. split; [done|]. split; [by transitivity (values (cursors m1))|].
    rewrite Hsm in Hcs'. split; [done|]. intros _. split; [done|]. exists Bs.
    assert (located m1 cs' Bs) as (? & ? & ?); [|done].
    eapply (located_batches m1 (values (cursors m1))); [done|]. eapply Forall2_impl; [exact Hsb|]. by intros ? ? [? _].
Qed.

(** What a call takes from [rs]. *)
Record taken_ok (m m' : Merger) (batch_size : nat) (rs rs' : list Rest) (out : Rest) : Prop := {
  tk_perm : concat rs ≡ₚ out ++ concat rs';
  tk_sorted : StronglySorted bytes_le out.*1;
  tk_le : ∀ x y, x ∈ out → y ∈ concat rs' → bytes_le x.1 y.1;
  tk_total : num_total_output_rows m' = (num_total_output_rows m + Z.of_nat (length out))%Z;
  tk_size : length out ≤ batch_size;
  tk_full : Z.of_nat (length out) = (Z.of_nat batch_size `min` (limit - num_total_output_rows m))%Z ∨ concat rs' = [] }.

(** The state in which the collection of a call starts. *)
Lemma collect_initial m rs :
  merger_ok m rs → ∃ prs, (all_pruned = false → holds [] rs prs) ∧
    collect_inv (KC := KC) (single_batch_mode m) (values (cursors m)) rs prs
      (mkCollect (peek_mut (cursors m)) kc_default [] 0) [] rs.
Proof.
  intros [Htree Hsome (prs & Hcs & Hh) Hrests Hvec _ _ _]. exists prs. split; [done|].
  split; cbn [min_cursor peek_mut tree]; try done.
  - apply Forall_Forall2_diag, Forall_true. intros c. split; [done|by left].
  - split; [done|]. intros i r0 r Hr0 Hr. cbn. congruence.
  - by destruct all_pruned.
  - constructor.
  - intros x y Hx. by apply not_elem_of_nil in Hx.
Qed.

Lemma tree_same_key t cs :
  tree_ok t → Forall2 same_key (values t) cs → tree_ok (mkTree (losers t) cs).
Proof.
  intros Ht Hsk. eapply tree_ok_equivalent; [by apply same_key_equivalent|]. by destruct t.
Qed.

Lemma same_key_some (cs cs' : list SortedBlockCursor) : Forall2 same_key cs cs' → cs ≠ [] → cs' ≠ [].
Proof. intros Hsk Hne ->. by apply Forall2_nil_inv_r in Hsk. Qed.

Lemma next_ok m rs batch_size :
  merger_ok m rs →
  ∃ m' output out rs', next (KC := KC) m batch_size = Ok (m', output) ∧ merger_ok m' rs' ∧
    taken_ok m m' batch_size rs rs' out ∧ delivers output out.
Proof using Type collects limit_bound.
  intros Hm. destruct (collect_initial m rs Hm) as (prs & Hh0 & Hstart). pose proof Hm as [Htree Hsome _ Hrests Hvec Hrows Hil Htot].
  unfold next. unfold usize. rewrite wrapu_id by (unfold in_u; lia).
  set (max_num_rows := (Z.of_nat batch_size `min` (limit - num_total_output_rows m))%Z).
  destruct (collect_loop collects _ _ _ _ _ _ _ max_num_rows Hstart) as (s & tagged & rs' & -> & Hinv & Hle & Hend);
    [cbn; lia|done|].
  cbn [mbind Result_bind]. pose proof Hinv as [Htree' Hsome' Hcs' Hev Hsplit Hrange Hrests' _ Hkeys Hids Hn Hsorted Hleast].
  pose proof (split_by_perm _ _ _ Hsplit Hrange) as Hperm.
  destruct (drop_peek_same _ Htree' Hsome') as (t & Ht & Hvt & Hokt).
  assert (Hvec' : Forall (λ x, vec_ok x.1) (concat rs')) by (rewrite Hperm in Hvec; by apply Forall_app in Hvec as [_ ?]).
  assert (Hrows' : all_pruned = true → Forall (λ x, x.2 = []) tagged.*2 ∧ Forall (λ x, x.2 = []) (concat rs')).
  { intros Ha. specialize (Hrows Ha). rewrite Hperm in Hrows. by apply Forall_app in Hrows. }
  assert (Hil' : all_pruned = false → interleaver_inv (set_cursors m t) (values t)).
  { intros Ha. rewrite Hvt. by apply (interleaver_inv_evolves m (values (cursors m))); [apply Hil|]. }
  assert (Hh : all_pruned = false → holds tagged rs' prs).
  { intros Ha i r pr Hr Hpr. destruct Hsplit as [Hl Hsplit]. pose proof (lookup_lt_Some _ _ _ Hr).
    destruct (lookup_lt_is_Some_2 rs i ltac:(lia)) as [r0 Hr0]. rewrite <- (Hsplit i r0 r Hr0 Hr).
    by apply (Hh0 Ha i r0 pr). }
  rewrite <- Hvt in Hcs', Hsome'.
  case_bool_decide as Hz.
  - rewrite Ht. cbn [mbind Result_bind]. assert (tagged = []) as -> by (destruct tagged; [done|cbn in Hn; lia]).
    exists (set_cursors m t), None, [], rs'. split; [done|]. split; [|split; [split|done]].
    + split; cbn [set_cursors cursors single_batch_mode num_total_output_rows]; try done; [by exists prs|].
      intros Ha. by apply Hrows'.
    + done.
    + constructor.
    + intros x y Hx. by apply not_elem_of_nil in Hx.
    + cbn. lia.
    + cbn. lia.
    + destruct Hend as [Hend|?]; [left; cbn; lia|by right].
  - rewrite Ht. cbn [mbind Result_bind]. rewrite Hids.
    assert (tagged ≠ []) as Hout by (intros ->; done).
    destruct (pruned_rows_ok (set_cursors m t) rs' prs tagged (n_rows s)) as (m1 & q & prs' & -> & Hq & Hqc & Hqn & Hqr & Hsm & Htm & Hlo & Hsk & Hcs1 & Hh1);
      cbn [set_cursors cursors single_batch_mode]; auto.
    { intros Ha. by apply Hrows'. }
    { destruct Hsplit as [<- _]. done. }
    cbn [mbind Result_bind].
    cbn [set_cursors cursors single_batch_mode num_total_output_rows] in Hsm, Htm, Hlo, Hsk, Hcs1.
    destruct (clear_all _ _ rs' prs' Hcs1) as (cs2 & Hclear & Hcs2 & Hsk2 & Hb2).
    { destruct all_pruned; [by left|right; by apply Hh1]. }
    cbn [add_output_rows cursors]. rewrite Hclear. cbn [mbind Result_bind].
    eexists _, _, tagged.*2, rs'. split; [done|]. split; [|split; [split|]].
    + pose proof (same_key_some _ _ Hsk Hsome') as Hsome1. pose proof (same_key_some _ _ Hsk2 Hsome1) as Hsome2.
      split; cbn [set_values add_output_rows cursors single_batch_mode num_total_output_rows values losers]; [|done| |done|done| | |].
      * rewrite Hlo. apply tree_same_key; [done|]. by transitivity (values (cursors m1)).
      * exists prs'. rewrite Hsm. split; [done|]. intros Ha. by apply Hh1.
      * intros Ha. by apply Hrows'.
      * intros Ha Hwhen. destruct (Hh1 Ha) as (_ & Bs & HBs1 & HBs2 & Hloc). exists Bs. split; [done|]. split; [done|].
        cbn [set_values add_output_rows single_batch_mode batches_base_indices]. intros i c' bi b Hc' Hb.
        destruct (Forall2_lookup_r _ _ _ _ _ Hb2 Hc') as (c & Hc & Ebs & Hch). apply (Hloc i c bi b Hc).
        destruct Hwhen as [Hs|Hall].
        -- rewrite Ebs in Hb. destruct (cur_batch_idx c) as [|k] eqn:Ek; [by rewrite drop_0 in Hb|].
           destruct Hcs1 as (Hl1 & Hl2 & Hcsi). pose proof (lookup_lt_Some _ _ _ Hc).
           destruct (lookup_lt_is_Some_2 rs' i ltac:(lia)) as [r Hr]. destruct (lookup_lt_is_Some_2 prs' i ltac:(lia)) as [pr Hpr].
           destruct (Hcsi i c r pr Hc Hr Hpr) as (_ & bs & _ & Hlen & _). cbn in Hs. rewrite Hsm in Hs. destruct (Hlen Hs) as [_ Hlen'].
           rewrite drop_ge in Hb by lia. done.
        -- rewrite Forall_lookup in Hall. specialize (Hall i c' Hc'). destruct Hch as [Hch|[<- _]]; [congruence|done].
      * rewrite Htm. unfold usize. rewrite wrapu_id; unfold in_u; lia.
    + exact Hperm.
    + done.
    + done.
    + cbn. rewrite Htm. unfold usize. rewrite wrapu_id by (unfold in_u; lia). rewrite length_fmap. lia.
    + rewrite length_fmap. lia.
    + rewrite length_fmap. destruct Hend as [Hend|?]; [left; lia|by right].
    + split; [by destruct tagged|]. split; [by exists (key_collector s)|]. split; [done|]. split; [done|].
      split; [by rewrite length_fmap|done].
Qed.

End NextOk.

(** ** Starting a merge *)

(** The rows of a run of batches with their keys. *)
Definition runs_rest (bs : list Run) : Rest := concat ((λ r, zip r.2 (batch_rows r.1)) <$> bs).

Definition block_ok (b : B) (bs : list Run) : Prop :=
  block_rep b false [] [] bs ∧ runs_ok nf bs ∧ bs ≠ [].

Lemma runs_rest_keys bs : Forall (run_ok nf) bs → (runs_rest bs).*1 = concat bs.*2.
Proof.
  induction 1 as [|[b ks] bs [_ _ Hk _ _ _ _] _ IH]; [done|]. cbn in Hk. unfold runs_rest in *. rewrite !fmap_cons. cbn [concat].
  rewrite fmap_app, IH, fst_zip; [done|]. cbn. rewrite length_rows. lia.
Qed.

Lemma runs_rest_rows bs : Forall (run_ok nf) bs → (runs_rest bs).*2 = concat (batch_rows <$> bs.*1).
Proof.
  induction 1 as [|[b ks] bs [_ _ Hk _ _ _ _] _ IH]; [done|]. cbn in Hk. unfold runs_rest in *. rewrite !fmap_cons. cbn [concat].
  rewrite fmap_app, IH, snd_zip; [done|]. cbn. rewrite length_rows. lia.
Qed.

Lemma try_from_block_ok i b bs :
  block_ok b bs →
  ∃ c first bs', try_from_block i b = Ok c ∧ id c = i ∧ cur_batches c = [first] ∧ cur_batches_changed c = true ∧
    cur_batch_idx c = 0 ∧ cur_row_idx c = 0 ∧ (is_single_batch b = true → bs' = []) ∧ loaded_ok first ∧
    cursor_ok c bs' (runs_rest bs).*1 (runs_rest bs).*2.
Proof.
  intros (Hrep & [Hruns Hs] & Hne). rewrite runs_rest_keys, runs_rest_rows by done.
  assert (cursor_at (mkCursor i b [] false 0 0 0 false) false [] [] bs (concat (batch_rows <$> bs.*1))) as Hat.
  { split; [|done|done|done]. split; [constructor|by right|done|done]. }
  destruct (cursor_next_key_ok _ _ _ _ _ _ Hat) as (c & bs' & Hnext & Hok & Hid & Hbi & Hri & Hch & _).
  destruct Hch as [(_ & _ & _ & Hnil)|(Hch & _ & Hfirst)]; [by destruct Hne; apply Hnil|].
  destruct (Hfirst eq_refl) as (first & Hbatches & ->). exists c, first, (tail bs).
  split; [done|]. split; [done|]. split; [done|]. split; [done|]. split; [done|]. split; [done|]. split; [|split; [|done]].
  - intros Hsingle. pose proof (rep_single _ _ Hrep Hsingle) as Hl. by destruct bs as [|? [|? ?]].
  - assert (Forall loaded_ok (cur_batches c)) as Hl by (destruct Hok as [(? & ? & [[? _ _ _] _ _ _] & _)|([? _ _ _] & _)]; done).
    rewrite Hbatches in Hl. by apply Forall_cons_1 in Hl as [? _].
Qed.

Lemma runs_rest_vec bs : Forall (run_ok nf) bs → Forall (λ x, vec_ok x.1) (runs_rest bs).
Proof.
  intros Hr. change (Forall (vec_ok ∘ fst) (runs_rest bs)). rewrite <- Forall_fmap.
  rewrite runs_rest_keys by done. apply Forall_forall.
  intros k (ks & Hk & (r & -> & Hin)%list_elem_of_fmap)%elem_of_concat. rewrite Forall_forall in Hr.
  destruct (Hr r Hin) as [_ _ _ _ _ Hv _]. rewrite Forall_forall in Hv. auto.
Qed.

Lemma runs_rest_pruned bs : all_pruned = true → Forall (run_ok nf) bs → Forall (λ x, x.2 = []) (runs_rest bs).
Proof.
  intros Hap Hr. change (Forall ((λ r, r = []) ∘ snd) (runs_rest bs)). rewrite <- Forall_fmap.
  rewrite runs_rest_rows by done. apply Forall_forall.
  intros row (rows & Hrow & (b & -> & (r & -> & Hin)%list_elem_of_fmap)%list_elem_of_fmap)%elem_of_concat.
  rewrite Forall_forall in Hr. destruct (Hr r Hin) as [_ Hc _ _ _ _ _]. apply bool_decide_eq_true in Hap.
  apply list_elem_of_fmap in Hrow as (i & -> & _). apply nil_length_inv. unfold row_at. rewrite length_fmap. congruence.
Qed.

Lemma forallb_lookup {A} (f : A → bool) l i x : forallb f l = true → l !! i = Some x → f x = true.
Proof. rewrite forallb_forall. intros Hf Hi. apply Hf. apply list_elem_of_In. by eapply list_elem_of_lookup_2. Qed.

Lemma merger_try_new_ok blocks bss :
  Forall2 block_ok blocks bss → blocks ≠ [] → (0 <= limit)%Z →
  ∃ m, merger_try_new blocks = Ok m ∧ merger_ok m (runs_rest <$> bss) ∧ num_total_output_rows m = 0%Z.
Proof.
  intros Hb Hne Hlim. unfold merger_try_new.
  set (new_cursor i b bs c := ∃ first bs', try_from_block i b = Ok c ∧ id c = i ∧ cur_batches c = [first] ∧ cur_batches_changed c = true ∧
    cur_batch_idx c = 0 ∧ cur_row_idx c = 0 ∧ (is_single_batch b = true → bs' = []) ∧ loaded_ok first ∧
    cursor_ok c bs' (runs_rest bs).*1 (runs_rest bs).*2).
  assert (∃ cs, rmapM (λ '(id, block), try_from_block id block) (enumerate blocks) = Ok cs ∧ length cs = length blocks ∧
    ∀ i c b bs, cs !! i = Some c → blocks !! i = Some b → bss !! i = Some bs → new_cursor i b bs c) as (cs & -> & Hlen & Hcs).
  { assert (Forall (λ x, ∃ c, try_from_block x.1 x.2 = Ok c) (enumerate blocks)) as Hall.
    { apply Forall_forall. intros [i b] Hi. apply elem_of_enumerate in Hi.
      destruct (Forall2_lookup_l _ _ _ _ _ Hb Hi) as (bs & _ & Hok). destruct (try_from_block_ok i b bs Hok) as (c & ? & ? & ? & _). eauto. }
    apply Forall_exists_Forall2_l in Hall as [cs Hcs]. exists cs.
    split; [apply rmapM_Ok; eapply Forall2_impl; [exact Hcs|]; by intros [i b] c|].
    split; [by rewrite <- (Forall2_length _ _ _ Hcs), length_enumerate|].
    intros i c b bs Hc Hbi Hbs. pose proof (Forall2_lookup_lr _ _ _ _ _ _ Hb Hbi Hbs) as Hok.
    assert (enumerate blocks !! i = Some (i, b)) as He by (by rewrite lookup_enumerate, Hbi).
    pose proof (Forall2_lookup_lr _ _ _ _ _ _ Hcs He Hc) as Ec. cbn [fst snd] in Ec.
    destruct (try_from_block_ok i b bs Hok) as (c' & first & bs' & Ec' & Hrest).
    assert (c' = c) as -> by congruence. by exists first, bs'. }
  assert (cs ≠ []) as Hcsne by (intros ->; apply Hne, nil_length_inv; done).
  cbn [mbind Result_bind]. destruct (new_ok cs) as (t & -> & Hv & Hok). cbn [mbind Result_bind].
  pose proof (Forall2_length _ _ _ Hb) as Hlb.
  assert (∀ i c, cs !! i = Some c → ∃ b bs, blocks !! i = Some b ∧ bss !! i = Some bs ∧ new_cursor i b bs c) as Hi.
  { intros i c Hc. pose proof (lookup_lt_Some _ _ _ Hc). destruct (lookup_lt_is_Some_2 blocks i ltac:(lia)) as [b Hbi].
    destruct (lookup_lt_is_Some_2 bss i ltac:(lia)) as [bs Hbs]. eauto 6. }
  set (single := forallb is_single_batch blocks).
  assert (∃ il, (if single then batches ← rmapM (λ c, index (cur_batches c) 0) (values t); create_batch_interleaver batches
      else create_batch_interleaver [mkBatch 0 (replicate nf [])]) = Ok il ∧
    interleaver_inv (mkMerger t il single [] 0) (values t)) as (il & -> & Hil).
  { rewrite Hv. destruct single eqn:Hs.
    - assert (∃ Bs, rmapM (λ c, index (cur_batches c) 0) cs = Ok Bs) as [Bs HBs].
      { assert (Forall (λ c, ∃ b, index (cur_batches c) 0 = Ok b) cs) as Hall.
        { apply Forall_lookup. intros i c Hc. destruct (Hi i c Hc) as (b & bs & _ & _ & first & bs' & _ & _ & E & _).
          rewrite E. by exists first. }
        apply Forall_exists_Forall2_l in Hall as [Bs HBs]. exists Bs. by apply rmapM_Ok. }
      rewrite HBs. cbn [mbind Result_bind]. apply rmapM_Ok in HBs.
      assert (Forall loaded_ok Bs) as Hl.
      { apply Forall_lookup. intros i b Hbi. destruct (Forall2_lookup_r _ _ _ _ _ HBs Hbi) as (c & Hc & E).
        destruct (Hi i c Hc) as (b' & bs & _ & _ & first & bs' & _ & _ & Ec & _ & _ & _ & _ & Hfirst & _).
        rewrite Ec in E. cbn in E. by injection E as <-. }
      rewrite (create_batch_interleaver_ok nf).
      + eexists. split; [done|]. intros _. exists Bs. split; [done|]. split; [eapply Forall_impl; [exact Hl|]; by intros ? (? & ? & _)|].
        intros i c bi b Hc Hb'. cbn [single_batch_mode]. exists i. split; [|done].
        destruct (Hi i c Hc) as (b' & bs & _ & _ & first & bs' & _ & _ & Ec & _). rewrite Ec in Hb'.
        apply list_lookup_singleton_Some in Hb' as [-> ->]. destruct (Forall2_lookup_l _ _ _ _ _ HBs Hc) as (b'' & Hb'' & E).
        rewrite Ec in E. cbn in E. by injection E as <-.
      + intros ->. by apply Forall2_nil_inv_r in HBs.
      + eapply Forall_impl; [exact Hl|]. by intros ? (_ & ? & _).
    - rewrite (create_batch_interleaver_ok nf) by (done || (constructor; [apply length_replicate|constructor])).
      eexists. split; [done|]. intros [?|Hall]; [done|]. exfalso. destruct cs as [|c cs']; [done|].
      apply Forall_cons_1 in Hall as [Hch _]. destruct (Hi 0 c eq_refl) as (b & bs & _ & _ & first & bs' & _ & _ & _ & Hch' & _). congruence. }
  cbn [mbind Result_bind]. eexists. split; [done|]. split; [|done].
  assert (Forall (run_ok nf) (concat bss)) as Hruns.
  { apply Forall_forall. intros r (bs & Hr & Hbs)%elem_of_concat. apply list_elem_of_lookup in Hbs as [i Hbs].
    destruct (Forall2_lookup_r _ _ _ _ _ Hb Hbs) as (b & _ & _ & [Hall _] & _). rewrite Forall_forall in Hall. auto. }
  assert (concat (runs_rest <$> bss) = runs_rest (concat bss)) as Hcat.
  { clear. induction bss as [|bs bss IH]; [done|]. cbn. rewrite IH. unfold runs_rest. by rewrite fmap_app, concat_app. }
  split; cbn [cursors single_batch_mode num_total_output_rows]; rewrite ?Hcat.
  - done.
  - by rewrite Hv.
  - exists ((λ bs, (runs_rest bs).*2) <$> bss). rewrite Hv. split; [split; [|split]|].
    + rewrite length_fmap. lia.
    + by rewrite !length_fmap.
    + intros i c r pr Hc Hr Hpr. destruct (Hi i c Hc) as (b & bs & Hbi & Hbs & first & bs' & _ & Hid & Ec & _ & Hbi0 & Hri0 & Hsb & _ & Hok').
      rewrite list_lookup_fmap, Hbs in Hr. rewrite list_lookup_fmap, Hbs in Hpr. injection Hr as <-. injection Hpr as <-. split; [done|]. exists bs'.
      split; [done|]. rewrite Ec. cbn. split; [|done]. intros Hs. split; [|lia]. apply Hsb. by eapply forallb_lookup.
    + intros _ i r pr Hr Hpr. apply list_lookup_fmap_Some in Hr as (bs & -> & Hbs).
      rewrite list_lookup_fmap, Hbs in Hpr. by injection Hpr as <-.
  - intros r Hr. apply list_elem_of_fmap in Hr as (bs & -> & Hbs). apply list_elem_of_lookup in Hbs as [i Hbs].
    destruct (Forall2_lookup_r _ _ _ _ _ Hb Hbs) as (b & _ & _ & [Hall Hsort] & _). by rewrite runs_rest_keys.
  - by apply runs_rest_vec.
  - intros Hap. by apply runs_rest_pruned.
  - done.
  - lia.
Qed.

(** ** Draining a merger *)

(** The order of rows by their keys. *)
Definition key_le (x y : bytes * Row) : Prop := bytes_le x.1 y.1.

#[export] Instance key_le_dec : RelDecision key_le.
Proof. intros x y. unfold key_le. apply _. Defined.

#[export] Instance key_le_preorder : PreOrder key_le.
Proof. split; [by intros x; unfold key_le|]. intros x y z. unfold key_le. by etrans. Qed.

#[export] Instance key_le_total : Total key_le.
Proof. intros x y. apply (total bytes_le). Qed.

Lemma key_sorted (l : Rest) : StronglySorted bytes_le l.*1 ↔ StronglySorted key_le l.
Proof.
  induction l as [|x l IH]; [by split; constructor|]. rewrite fmap_cons. split; intros [Hs Hall]%StronglySorted_inv; constructor.
  - by apply IH.
  - by rewrite Forall_fmap in Hall.
  - by apply IH.
  - by rewrite Forall_fmap.
Qed.

Section Drain.
Context {KC : Type} `{Col : KeyCollector KC}.
Context (collects : ∀ ks, Forall vec_ok ks → StronglySorted bytes_le ks →
  ∃ kc, rfoldM add_key (kc_default : KC) ks = Ok kc).
Context (limit_bound : (limit < 2 ^ 64)%Z).

(** What calls have taken altogether: [out] of [rs], leaving [rs']. *)
Record taken_all (m m' : Merger) (rs rs' : list Rest) (out : Rest) : Prop := {
  ta_perm : concat rs ≡ₚ out ++ concat rs';
  ta_sorted : StronglySorted bytes_le out.*1;
  ta_le : ∀ x y, x ∈ out → y ∈ concat rs' → bytes_le x.1 y.1;
  ta_total : num_total_output_rows m' = (num_total_output_rows m + Z.of_nat (length out))%Z }.

Lemma taken_none m rs : taken_all m m rs rs [].
Proof. split; [done|constructor|by intros x y Hx%not_elem_of_nil|cbn; lia]. Qed.

Lemma taken_more m m1 m2 n rs rs1 rs2 out1 out2 :
  taken_all m m1 rs rs1 out1 → taken_ok m1 m2 n rs1 rs2 out2 → taken_all m m2 rs rs2 (out1 ++ out2).
Proof.
  intros [Hp1 Hs1 Hle1 Ht1] [Hp2 Hs2 Hle2 Ht2 _ _]. split; [by rewrite Hp1, Hp2, app_assoc| | |rewrite length_app; lia].
  - rewrite fmap_app. apply StronglySorted_app. split; [|done].
    intros a b Ha Hb. apply list_elem_of_fmap in Ha as (x & -> & Hx). apply list_elem_of_fmap in Hb as (y & -> & Hy).
    apply Hle1; [done|]. rewrite Hp2. apply elem_of_app. by left.
  - intros x y [Hx|Hx]%elem_of_app Hy; [|by apply Hle2]. apply Hle1; [done|]. rewrite Hp2. apply elem_of_app. by right.
Qed.

Lemma drain_ok {S} (n batch_size : nat) (body : S → KC → Batch → Result S) (I : S → list Rest → Prop) m s rs :
  merger_ok m rs → 0 < batch_size → length (concat rs) ≤ n → I s [] →
  (∀ s outs kc q out rest, I s outs → delivers (Some (kc, q)) out → StronglySorted bytes_le (concat (outs ++ [out])).*1 →
     concat (outs ++ [out]) ++ rest ≡ₚ concat rs → ∃ s', body s kc q = Ok s' ∧ I s' (outs ++ [out])) →
  ∃ m' s' outs, drain n batch_size body m s = Ok (m', s') ∧ I s' outs ∧
    top key_le (limit - num_total_output_rows m) (concat rs) (concat outs).
Proof using Type collects limit_bound.
  intros Hm Hbs Hn HI Hbody. unfold drain.
  destruct (rloop_inv (λ '(m1, s1), ∃ rs1 outs, merger_ok m1 rs1 ∧ I s1 outs ∧ taken_all m m1 rs rs1 (concat outs))
    (λ '(m1, s1), Z.to_nat (Z.of_nat n - (num_total_output_rows m1 - num_total_output_rows m)))
    (λ '(m1, s1), ∃ rs1 outs, merger_ok m1 rs1 ∧ I s1 outs ∧ taken_all m m1 rs rs1 (concat outs) ∧
       (num_total_output_rows m1 = limit ∨ concat rs1 = []))
    (drain_step batch_size body) (Datatypes.S n) (m, s)) as ([m' s'] & -> & rs' & outs & Hm' & HI' & [Hp Hs Hle Ht] & Hend).
  - exists rs, []. split; [done|]. split; [done|]. apply taken_none.
  - lia.
  - clear s HI. intros [m1 s1] (rs1 & outs & Hm1 & HI1 & Hta). unfold drain_step.
    destruct (next_ok collects limit_bound m1 rs1 batch_size Hm1) as (m2 & output & out & rs2 & -> & Hm2 & Htk & Hd).
    cbn [mbind Result_bind]. pose proof (taken_more _ _ _ _ _ _ _ _ _ Hta Htk) as Hta2. destruct output as [[kc q]|].
    + left. assert (concat outs ++ out = concat (outs ++ [out])) as E by (rewrite concat_app; cbn; by rewrite app_nil_r).
      rewrite E in Hta2. pose proof Hta2 as [Hp Hs Hle Ht].
      destruct (Hbody s1 outs kc q out (concat rs2) HI1 Hd Hs) as (s2 & -> & HI2); [done|].
      cbn [mbind Result_bind]. eexists. split; [done|]. split; [by exists rs2, (outs ++ [out])|].
      pose proof (tk_total _ _ _ _ _ _ Htk) as Ht2. destruct Hd as (Hne & _).
      assert (0 < length out) by (destruct out; [done|cbn; lia]).
      pose proof (Permutation_length Hp) as Hlen. rewrite length_app in Hlen.
      pose proof (ta_total _ _ _ _ _ Hta). rewrite <- E, length_app in Hlen. lia.
    + right. eexists. split; [done|]. cbn in Hd. subst out. rewrite app_nil_r in Hta2. exists rs2, outs. split; [done|]. split; [done|].
      split; [done|]. destruct Htk as [_ _ _ Ht _ [Hf|?]]; [|by right]. left. cbn in Hf, Ht. pose proof (mo_total _ _ Hm1). lia.
  - exists m', s', outs. split; [done|]. split; [done|]. exists (concat rs'). pose proof (mo_total _ _ Hm').
    split; [by rewrite Hp|]. split; [by apply key_sorted|]. split; [done|]. split; [lia|].
    destruct Hend as [Hend|?]; [right; lia|by left].
Qed.

(** Skipping takes the first rows, unless there are not so many. *)
Lemma skip_rows_ok n m rs skip suggested_batch_size :
  merger_ok m rs → 0 < suggested_batch_size → length (concat rs) ≤ n →
  ∃ m' rs' out, skip_rows (KC := KC) n m skip suggested_batch_size = Ok m' ∧ merger_ok m' rs' ∧
    taken_all m m' rs rs' out ∧ length out ≤ skip ∧
    (length out = skip ∨ num_total_output_rows m' = limit ∨ concat rs' = []).
Proof using Type collects limit_bound.
  intros Hm Hbs Hn. unfold skip_rows.
  set (done_with (m1 : Merger) (rs1 : list Rest) (out : Rest) (left : nat) := length out + left = skip ∨ length out + left ≤ skip ∧ (num_total_output_rows m1 = limit ∨ concat rs1 = [])).
  destruct (rloop_inv (λ '(m1, remaining), ∃ rs1 out, merger_ok m1 rs1 ∧ taken_all m m1 rs rs1 out ∧ done_with m1 rs1 out remaining)
    (λ '(m1, _), Z.to_nat (Z.of_nat n - (num_total_output_rows m1 - num_total_output_rows m)))
    (λ m1, ∃ rs1 out, merger_ok m1 rs1 ∧ taken_all m m1 rs rs1 out ∧ done_with m1 rs1 out 0)
    (skip_step (KC := KC) suggested_batch_size) (S (S n)) (m, skip)) as (m' & -> & rs' & out & Hm' & Hta & Hd).
  - exists rs, []. split; [done|]. split; [apply taken_none|]. by left.
  - lia.
  - intros [m1 remaining] (rs1 & out & Hm1 & Hta & Hd). unfold skip_step. case_decide as Hr.
    2:{ right. eexists. split; [done|]. exists rs1, out. split; [done|]. split; [done|]. by replace remaining with 0 in Hd by lia. }
    cbn zeta. destruct (next_ok collects limit_bound m1 rs1 (remaining `min` suggested_batch_size) Hm1) as (m2 & output & out2 & rs2 & -> & Hm2 & Htk & Hdel).
    cbn [mbind Result_bind]. pose proof (taken_more _ _ _ _ _ _ _ _ _ Hta Htk) as Hta2.
    pose proof (mo_total _ _ Hm1) as Ht1. pose proof (mo_total _ _ Hm2) as Ht3. destruct Htk as [Hp _ _ Ht2 Hsize Hfull]. destruct output as [[kc q]|].
    + left. eexists. split; [done|]. split.
      * exists rs2, (out ++ out2). split; [done|]. split; [done|]. unfold done_with in *. rewrite length_app.
        destruct Hd as [Hd|[Hd Hx]].
        { destruct Hfull as [Hf|?]; [|right; split; [lia|by right]].
          destruct (decide (length out2 = remaining `min` suggested_batch_size)); [left; lia|right; split; [lia|left; lia]]. }
        right. split; [lia|]. destruct Hx as [Hx|Hx]; [left; lia|right].
        rewrite Hx in Hp. by apply Permutation_nil, app_eq_nil in Hp as [_ ?].
      * destruct Hdel as (Hne & _). assert (0 < length out2) by (destruct out2; [done|cbn; lia]).
        pose proof (ta_perm _ _ _ _ _ Hta2) as Hp2. apply Permutation_length in Hp2. rewrite !length_app in Hp2.
        pose proof (ta_total _ _ _ _ _ Hta). lia.
    + right. eexists. split; [done|]. cbn in Hdel. subst out2. rewrite app_nil_r in Hta2. cbn in *.
      exists rs2, out. split; [done|]. split; [done|]. unfold done_with in *. right. split; [lia|].
      destruct Hfull as [Hf|?]; [left; lia|by right].
  - exists m', rs', out. split; [done|]. split; [done|]. split; [done|]. unfold done_with in Hd. split; [lia|].
    destruct Hd as [?|[_ ?]]; [left; lia|by right].
Qed.

End Drain.

(** ** Merging blocks into one *)

(** Values that the spill can hold. *)
Definition row_storable (x : bytes * Row) : Prop := Forall storable x.2.

Lemma storable_columns (q : Batch) :
  batch_ok q → Forall (Forall storable) (batch_rows q) → Forall (Forall storable) (columns q).
Proof.
  intros Hq Hr. apply Forall_lookup. intros j c Hc. apply Forall_lookup. intros i v Hv.
  unfold batch_ok in Hq. rewrite Forall_lookup in Hq. pose proof (Hq j c Hc) as Hl. apply lookup_lt_Some in Hv as Hi.
  rewrite Forall_lookup in Hr. specialize (Hr i (row_at null (columns q) i)).
  unfold Joins.batch_rows in Hr. rewrite list_lookup_fmap, lookup_seq_lt in Hr by lia. specialize (Hr eq_refl).
  rewrite Forall_lookup in Hr. specialize (Hr j (nth i c null)). unfold row_at in Hr. rewrite list_lookup_fmap, Hc in Hr.
  specialize (Hr eq_refl). by rewrite nth_lookup, Hv in Hr.
Qed.

Lemma storable_rows (q : Batch) :
  batch_ok q → Forall (Forall storable) (columns q) → Forall (Forall storable) (batch_rows q).
Proof.
  intros Hq Hc. apply Forall_forall. intros row Hrow. apply list_elem_of_fmap in Hrow as (i & -> & [_ Hi]%elem_of_seq).
  apply Forall_fmap, Forall_lookup. intros j c Hj. unfold compose. unfold batch_ok in Hq. rewrite Forall_lookup in Hq, Hc.
  specialize (Hq j c Hj). specialize (Hc j c Hj). destruct (lookup_lt_is_Some_2 c i ltac:(lia)) as [v Hv].
  rewrite nth_lookup, Hv. cbn. rewrite Forall_lookup in Hc. eauto.
Qed.

Lemma runs_rest_storable bs : Forall (run_ok nf) bs → Forall row_storable (runs_rest bs).
Proof.
  intros Hr. change (Forall (Forall storable ∘ snd) (runs_rest bs)). rewrite <- Forall_fmap.
  rewrite runs_rest_rows by done. apply Forall_forall.
  intros row (rows & Hrow & (b & -> & (r & -> & Hin)%list_elem_of_fmap)%list_elem_of_fmap)%elem_of_concat.
  rewrite Forall_forall in Hr. destruct (Hr r Hin) as [Hb _ _ _ _ _ Hs].
  pose proof (storable_rows _ Hb Hs) as Hall. rewrite Forall_forall in Hall. auto.
Qed.

(** The output of a call as a run. *)
Lemma delivers_run {KC} `{KeyCollector KC} kc q out :
  delivers (Some (kc, q)) out → Forall (λ x, vec_ok x.1) out → Forall row_storable out →
  (Z.of_nat (length out) < 2 ^ 63)%Z → run_ok nf (q, out.*1) ∧ runs_rest [(q, out.*1)] = out.
Proof.
  intros (Hne & _ & Hq & Hqc & Hqn & Hqr) Hv Hs Hlen. split.
  - split; cbn; [done|done|by rewrite length_fmap|destruct out; [done|cbn in *; lia]|lia|by apply Forall_fmap|].
    apply storable_columns; [done|]. rewrite Hqr. by apply Forall_fmap.
  - unfold runs_rest. cbn. rewrite app_nil_r, Hqr. apply zip_fst_snd.
Qed.

Lemma top_nonempty {A} (le : relation A) n (l out : list A) : top le n l out → (1 <= n)%Z → l ≠ [] → out ≠ [].
Proof.
  intros (rest & Hp & _ & _ & _ & [->|Hl]) Hn Hne ->; [|cbn in Hl; lia]. cbn in Hp. by apply Permutation_nil in Hp.
Qed.

Lemma runs_rest_some bs : Forall (run_ok nf) bs → bs ≠ [] → runs_rest bs ≠ [].
Proof.
  intros Hr Hne Hnil. destruct bs as [|[b ks] bs]; [done|]. apply Forall_cons_1 in Hr as [[_ _ Hk Hn _ _ _] _]. cbn in Hk, Hn.
  apply (f_equal length) in Hnil. unfold runs_rest in Hnil. rewrite fmap_cons in Hnil. cbn [concat] in Hnil.
  rewrite length_app, length_zip_with in Hnil. cbn [fst snd length] in Hnil. rewrite length_rows in Hnil. lia.
Qed.

Lemma runs_rest_app bs bs' : runs_rest (bs ++ bs') = runs_rest bs ++ runs_rest bs'.
Proof. unfold runs_rest. by rewrite fmap_app, concat_app. Qed.

Lemma merge_blocks_ok {St B' KC} `{BldOk : @BuilderOk V nf Codec St B' KC ColK BlkB' BlkOkB' Bld} n sub_batch_size blocks bss (builder : St) :
  Forall2 block_ok blocks bss → blocks ≠ [] → (1 <= limit < 2 ^ 64)%Z → 0 < sub_batch_size →
  length (concat (runs_rest <$> bss)) ≤ n → (Z.of_nat n < 2 ^ 63)%Z → builder_rep builder [] →
  ∃ blk bs, merge_blocks (KC := KC) n sub_batch_size blocks builder = Ok blk ∧
    block_rep blk false [] [] bs ∧ runs_ok nf bs ∧ bs ≠ [] ∧
    top key_le limit (concat (runs_rest <$> bss)) (runs_rest bs).
Proof.
  intros Hb Hne Hlim Hsub Hn Hbound Hrep. unfold merge_blocks.
  rewrite bool_decide_eq_true_2 by (destruct blocks; [done|cbn; lia]). cbn [rassert mbind Result_bind].
  destruct (merger_try_new_ok blocks bss Hb Hne) as (m & -> & Hm & Htot); [lia|]. cbn [mbind Result_bind].
  assert (Forall (λ x, vec_ok x.1 ∧ row_storable x) (concat (runs_rest <$> bss)) ∧ concat (runs_rest <$> bss) ≠ []) as [Hall Hsome].
  { split.
    - apply Forall_forall. intros x (r & Hx & (bs & -> & Hbs)%list_elem_of_fmap)%elem_of_concat.
      apply list_elem_of_lookup in Hbs as [i Hbs]. destruct (Forall2_lookup_r _ _ _ _ _ Hb Hbs) as (b & _ & _ & [Hr _] & _).
      pose proof (runs_rest_vec _ Hr) as Hv. pose proof (runs_rest_storable _ Hr) as Hst. rewrite Forall_forall in Hv, Hst. auto.
    - destruct Hb as [|b bs blocks bss (_ & [Hr _] & Hbs) _]; [done|]. rewrite fmap_cons. cbn [concat].
      pose proof (runs_rest_some _ Hr Hbs). by destruct (runs_rest bs). }
  destruct (drain_ok (KC := KC) (builder_collects BldOk) ltac:(lia) n sub_batch_size
    (λ s kc q, add_batch_and_keys s q kc)
    (λ s outs, ∃ bs, builder_rep s bs ∧ runs_ok nf bs ∧ runs_rest bs = concat outs) m builder _ Hm Hsub Hn)
    as (m' & s' & outs & -> & (bs & Hbrep & Hbs & Hrest) & Htop).
  - exists []. split; [done|]. split; [split; constructor|done].
  - intros s outs kc q out rest (bs & Hbrep & Hbs & Hrest) Hd Hsorted Hperm.
    assert (Forall (λ x, vec_ok x.1 ∧ row_storable x) out) as Hout.
    { rewrite <- Hperm, concat_app in Hall. cbn in Hall. rewrite app_nil_r in Hall.
      apply Forall_app in Hall as [Hall _]. by apply Forall_app in Hall as [_ ?]. }
    assert (Z.of_nat (length out) < 2 ^ 63)%Z as Hlen.
    { apply Permutation_length in Hperm. rewrite concat_app, !length_app in Hperm. cbn in Hperm. rewrite length_app in Hperm. lia. }
    destruct (delivers_run kc q out Hd) as [Hrun Hrr]; [eapply Forall_impl; [exact Hout|]; by intros ? []..|done|].
    destruct Hd as (_ & (kc' & Hkc & ->) & _).
    assert (runs_rest (bs ++ [(q, out.*1)]) = concat (outs ++ [out])) as E.
    { rewrite runs_rest_app, Hrest, Hrr, concat_app. cbn. by rewrite app_nil_r. }
    assert (runs_ok nf (bs ++ [(q, out.*1)])) as Hruns'.
    { destruct Hbs as [Hr _]. assert (Forall (run_ok nf) (bs ++ [(q, out.*1)])) as Hr' by (apply Forall_app; split; [done|by apply Forall_singleton]).
      split; [done|]. by rewrite <- runs_rest_keys, E by done. }
    destruct (builder_add s bs q out.*1 kc' Hbrep Hruns' Hkc) as (s2 & Hadd & Hrep2). exists s2. split; [done|].
    by exists (bs ++ [(q, out.*1)]).
  - cbn [mbind Result_bind]. destruct (builder_finish s' bs Hbrep Hbs) as (blk & Hblk & Hrepb). exists blk, bs.
    rewrite Htot, Z.sub_0_r in Htop. rewrite <- Hrest in Htop. split; [done|]. split; [done|]. split; [done|]. split; [|done].
    intros ->. by apply (top_nonempty key_le limit _ _ Htop); [lia|done|].
Qed.

End SortMerge.
