(* ===== verification/SortCodec.v ===== *)
(** * Batches in spill files

    The interface [BatchCodec] of SortBlocks implemented by write_batch and read_batch of
    BatchSerde (native-engine/datafusion-ext-commons/src/io/mod.rs: write_one_batch and
    read_one_batch), for batches whose columns are nullable primitives of one type.  A value
    is its bit pattern; a column is an array with a validity bitmap. *)

From S2P Require Import Prelude MachineInt Io Joins SortKeys SortBlocks Arrow BatchSerde.

Set Default Proof Using "Type".

Section PrimitiveCodec.
Context `{Ops : ArrowOps} (t : PrimitiveType) (nf : nat).

Local Abbreviation Col := (list (option Z)).

(** Bit [i] is set for a value. *)
Definition validity (col : Col) : BitBuffer :=
  mkBits (foldl set_bit_raw (replicate (div_ceil (length col) 8) 0%Z)
            (filter (λ i, is_Some (mjoin (col !! i))) (seq 0 (length col)))) 0 (length col).

Definition array_of (col : Col) : Array := PrimitiveArray t (Some (validity col)) (default 0%Z <$> col).

Definition of_val (v : Val) : option Z := match v with VPrim z => Some z | _ => None end.

Definition column_of_array (a : Array) : Col := of_val <$> rows a.

Definition storable_value (v : option Z) : Prop := from_option (in_u (8 * Z.of_nat (byte_width t))) True v.

Definition write_columns_batch (n : nat) (cols : list Col) : Result (list Z) := write_batch n (array_of <$> cols).

Definition read_columns_batch : Reader (option (nat * list Col)) :=
  batch ← read_batch (replicate nf (Primitive t));
  mret ((λ b : nat * list Array, (b.1, column_of_array <$> b.2)) <$> batch).

Lemma set_bits_ok buf idxs :
  bytes_ok buf → Forall (λ i, i < 8 * length buf) idxs →
  bytes_ok (foldl set_bit_raw buf idxs) ∧ length (foldl set_bit_raw buf idxs) = length buf ∧
  ∀ j, bit_at (foldl set_bit_raw buf idxs) j = bool_decide (j ∈ idxs) || bit_at buf j.
Proof.
  intros Hb Hi. revert buf Hb Hi. induction idxs as [|i idxs IH]; intros buf Hb Hi; cbn [foldl].
  - split; [done|]. split; [done|]. intros j. rewrite bool_decide_eq_false_2; [done|apply not_elem_of_nil].
  - apply Forall_cons_1 in Hi as [Hi His]. destruct (set_bit_law buf i Hb Hi) as (Hb' & Hl & Hbits).
    destruct (IH (set_bit_raw buf i) Hb') as (? & Hl2 & Hbits2); [by rewrite Hl|]. split; [done|]. split; [congruence|].
    intros j. rewrite Hbits2, Hbits, orb_assoc. f_equal. apply eq_true_iff_eq.
    rewrite orb_true_iff, !bool_decide_eq_true, elem_of_cons. naive_solver.
Qed.

Lemma validity_ok col :
  nulls_wf (Some (validity col)) (length col) ∧
  ∀ i v, col !! i = Some v → null_at (Some (validity col)) i = bool_decide (v = None).
Proof.
  set (idxs := filter (λ i, is_Some (mjoin (col !! i))) (seq 0 (length col))).
  assert (length col ≤ 8 * length (replicate (div_ceil (length col) 8) 0%Z)) as Hlen by (rewrite length_replicate; apply div_ceil_8).
  destruct (set_bits_ok (replicate (div_ceil (length col) 8) 0%Z) idxs) as (Hb & Hl & Hbits).
  { apply Forall_replicate. unfold byte_ok. lia. }
  { apply Forall_forall. intros i [_ [_ Hi]%elem_of_seq]%list_elem_of_filter. lia. }
  split.
  - split; [|done]. split; [done|]. unfold validity. cbn [bb_buffer bb_offset bb_len]. fold idxs. rewrite Hl. lia.
  - intros i v Hv. unfold null_at, bits_at, validity. cbn [bb_buffer bb_offset]. fold idxs. rewrite Nat.add_0_l, Hbits, bit_at_zeros, orb_false_r.
    pose proof (lookup_lt_Some _ _ _ Hv). assert (i ∈ idxs ↔ is_Some v) as Hi.
    { unfold idxs. rewrite list_elem_of_filter, Hv, elem_of_seq. cbn. split; [by intros [? _]|]. split; [done|lia]. }
    rewrite (bool_decide_ext _ _ Hi). destruct v as [z|].
    + by rewrite bool_decide_eq_true_2, bool_decide_eq_false_2 by (by eauto || done).
    + rewrite bool_decide_eq_false_2, bool_decide_eq_true_2; [done|done|]. by intros [? ?].
Qed.

Lemma column_array_of col : column_of_array (array_of col) = col.
Proof.
  unfold column_of_array, array_of. cbn [rows]. unfold mask. rewrite length_fmap, <- list_fmap_compose.
  apply list_eq_same_length with (length col); [done|by rewrite length_fmap, length_seq|].
  intros i y x Hi Hy Hx. rewrite list_lookup_fmap, lookup_seq_lt in Hy by done. injection Hy as <-.
  change (negb (bits_at (validity col) i)) with (null_at (Some (validity col)) i).
  destruct (validity_ok col) as [_ Hn]. rewrite (Hn i x Hx), nth_lookup, list_lookup_fmap, Hx.
  by destruct x; case_bool_decide.
Qed.

Lemma array_of_ok col n :
  prim_valid t → supported (Primitive t) → length col = n → Forall storable_value col →
  array_ok (array_of col) ∧ alen (array_of col) = n.
Proof.
  intros Ht Hs <- Hcol. split; [|apply length_fmap]. split; [|done]. unfold array_of. cbn [wf]. rewrite length_fmap.
  destruct (validity_ok col) as [Hn _]. split; [done|]. split; [done|]. apply Forall_fmap.
  eapply Forall_impl; [exact Hcol|]. intros [z|]; cbn; [done|]. intros _. unfold in_u. lia.
Qed.

Lemma columns_read_back cols arrays :
  Forall2 same_rows arrays (array_of <$> cols) → column_of_array <$> arrays = cols.
Proof.
  rewrite Forall2_fmap_r. induction 1 as [|a c arrays cols Ha _ IH]; [done|]. rewrite fmap_cons, IH. f_equal.
  rewrite <- (column_array_of c). unfold column_of_array. by rewrite (sr_rows _ _ Ha).
Qed.

#[refine] Definition primitive_codec (Ht : prim_valid t) (Hs : supported (Primitive t)) : BatchCodec (option Z) nf := {|
  storable := storable_value;
  write_one_batch := write_columns_batch;
  read_one_batch := read_columns_batch |}.
Proof using Ops.
  - intros b Hb Hn Hst Hlen. unfold write_columns_batch, read_columns_batch.
    assert (replicate nf (Primitive t) = data_type <$> (array_of <$> columns b)) as ->.
    { rewrite <- list_fmap_compose, <- Hn. clear. induction (columns b) as [|c cs IH]; [done|]. cbn. by rewrite IH. }
    destruct (write_read_batch (num_rows b) (array_of <$> columns b)) as (bs & -> & _ & Hr).
    { unfold in_u. lia. }
    { apply Forall_fmap, Forall_forall. intros c Hc. unfold batch_ok in Hb. rewrite Forall_forall in Hb, Hst. apply array_of_ok; auto. }
    exists bs. split; [done|]. intros rest. destruct (Hr rest) as (cols' & Hread & _ & Hsame).
    rewrite (reader_bind_Ok _ _ _ _ _ Hread). cbn. by rewrite (columns_read_back (columns b) cols').
  - done.
Defined.

End PrimitiveCodec.
