(* ===== verification/SortExec.v ===== *)
(** * External sort

    native-engine/datafusion-ext-plans/src/sort_exec.rs: [ExternalSorter], which sorts every
    input batch, keeps the runs in memory until it is told to spill, merges runs in spills by
    levels, and merges what it has at the end, and the loop of [SortExec::execute] that drives
    it.  When the memory manager asks for a spill is an argument; metrics, channels and the
    byte counters are left out.  The sort functions of the standard library are parameters
    ([StdSort]): of them only the order of their result is used.

    [sorter_ok] relates the sorter to the rows it was given: its blocks [refines] them, so that
    the first rows of the blocks are first rows of the input.  [external_sort_correct] is the
    specification of ORDER BY with limit and offset. *)

From S2P Require Import Prelude MachineInt BatchSize Io Joins SortKeys SortPrune SortTop Selection SortBlocks SortMerge Arrow ArrowRef SortCodec.

Set Default Proof Using "Type".

Local Abbreviation bytes := (list Z).

(** [itertools]' sorts by a key: byte strings and levels. *)
Record StdSort := mkStdSort {
  sorted_unstable_by_key {A} : (A → bytes) → list A → list A;
  sorted_by_key {A} : (A → bytes) → list A → list A;
  sorted_unstable_by_level {A} : (A → nat) → list A → list A }.

(** What their documentation promises. *)
Record StdSortOk (s : StdSort) : Prop := {
  unstable_perm {A} (key : A → bytes) l : sorted_unstable_by_key s key l ≡ₚ l;
  unstable_sorted {A} (key : A → bytes) l : StronglySorted (λ x y, bytes_le (key x) (key y)) (sorted_unstable_by_key s key l);
  stable_perm {A} (key : A → bytes) l : sorted_by_key s key l ≡ₚ l;
  stable_sorted {A} (key : A → bytes) l : StronglySorted (λ x y, bytes_le (key x) (key y)) (sorted_by_key s key l);
  level_perm {A} (key : A → nat) l : sorted_unstable_by_level s key l ≡ₚ l }.

(** [chunk_by(key)]: maximal groups of neighbours with the same key. *)
Fixpoint chunk_by {A} (key : A → nat) (l : list A) : list (list A) :=
  match l with
  | [] => []
  | x :: l =>
    match chunk_by key l with
    | (y :: ys) :: gs => if decide (key x = key y) then (x :: y :: ys) :: gs else [x] :: (y :: ys) :: gs
    | gs => [x] :: gs
    end
  end.

Lemma concat_chunk_by {A} (key : A → nat) l : concat (chunk_by key l) = l.
Proof.
  induction l as [|x l IH]; [done|]. cbn [chunk_by]. destruct (chunk_by key l) as [|[|y ys] gs] eqn:E; cbn in *.
  - by rewrite <- IH.
  - by rewrite IH.
  - case_decide; cbn; by rewrite IH.
Qed.

Lemma index_middle {A} (l1 : list A) x l2 : index (l1 ++ x :: l2) (length l1) = Ok x.
Proof. apply index_Ok. by apply list_lookup_middle. Qed.

Lemma set_index_middle {A} (l1 : list A) x y l2 : set_index (l1 ++ x :: l2) (length l1) y = Ok (l1 ++ y :: l2).
Proof. rewrite set_index_Ok by (rewrite length_app; cbn; lia). f_equal. by rewrite insert_app_r_alt, Nat.sub_diag by lia. Qed.

Lemma fmap_inv {A B} (f : A → B) (l : list A) (out : list B) :
  (∀ x, x ∈ out → x ∈ f <$> l) → ∃ l', out = f <$> l' ∧ ∀ r, r ∈ l' → r ∈ l.
Proof.
  induction out as [|x out IH]; intros Hin.
  - exists []. split; [done|]. by intros r Hr%not_elem_of_nil.
  - destruct IH as (l' & -> & Hl'); [intros y Hy; apply Hin; by right|].
    assert (x ∈ f <$> l) as (r & -> & Hr)%list_elem_of_fmap by (apply Hin; left). exists (r :: l'). split; [done|].
    intros r' [->|?]%elem_of_cons; auto.
Qed.

(** Splitting a list as its image is split. *)
Lemma concat_fmap_inv {A B} (f : A → B) (l : list A) (ls : list (list B)) :
  concat ls = f <$> l → ∃ ls' : list (list A), ls = (λ k : list A, f <$> k) <$> ls' ∧ concat ls' = l.
Proof.
  revert l. induction ls as [|l1 ls IH]; intros l; cbn [concat].
  - intros E. symmetry in E. apply fmap_nil_inv in E as ->. by exists [].
  - intros E. symmetry in E. apply fmap_app_inv in E as (k1 & k2 & -> & E & ->). destruct (IH k2 E) as (ls' & -> & <-).
    by exists (k1 :: ls').
Qed.

Section SortExec.
Context {V : Type} (null : V).
Context (row_encode : list V → bytes) (row_decode : bytes → Result (list V)).
Context (std : StdSort).

Local Abbreviation Batch := (RecordBatch (V:=V)).
Local Abbreviation batch_rows := (batch_rows null).

(** The configured sizes, and the memory estimates on which only batch sizes and the choice
    of the sort function depend. *)
Record SortConf := mkSortConf {
  batch_size : nat;
  suggested_batch_mem_size : nat;
  suggested_kway_merge_batch_mem_size : nat;
  get_batch_mem_size : Batch → nat;
  rows_size : list bytes → nat }.

Context (conf : SortConf) (p : PruneSortKeysFromBatch V) `{Codec : BatchCodec V (pruned_schema p)}.
Context (skip : nat) (limit : Z).

Local Abbreviation InMem := (InMemSortedBlock (V:=V)).

Record LevelSpill := mkLevelSpill { block : SpillSortedBlock; level : nat }.

Record ExternalSorter := mkSorter {
  in_mem_blocks : list InMem;
  spills : list LevelSpill;
  num_total_rows : nat;
  mem_total_size : nat }.

Definition new_sorter : ExternalSorter := mkSorter [] [] 0 0.

Definition sub_batch_size (s : ExternalSorter) : nat :=
  compute_suggested_batch_size_for_kway_merge (batch_size conf) (suggested_kway_merge_batch_mem_size conf)
    (mem_total_size s) (num_total_rows s).

Definition output_batch_size (s : ExternalSorter) : nat :=
  compute_suggested_batch_size_for_output (batch_size conf) (suggested_batch_mem_size conf)
    (mem_total_size s) (num_total_rows s).

Definition NUM_MAX_MERGING_BATCHES : nat := 32.

(** [merge_blocks] into a new spill. *)
Definition merge_to_spill {B} `{@SortedBlock V B} (s : ExternalSorter) (blocks : list B) : Result SpillSortedBlock :=
  merge_blocks (pruned_schema p) limit (KC := SqueezeKeyCollector) (num_total_rows s) (sub_batch_size s) blocks
    spill_builder_new.

(** The body of the loop over levels; the state is [levels] and [spills]. *)
Definition merge_level (s : ExternalSorter) (st : list (list SpillSortedBlock) * list LevelSpill) (lv : nat)
    : Result (list (list SpillSortedBlock) * list LevelSpill) :=
  let '(levels, spills) := st in
  blocks ← index levels lv;
  levels ← set_index levels lv [];
  if decide (NUM_MAX_MERGING_BATCHES ≤ length blocks) then
    merged ← merge_to_spill s blocks;
    next_level ← index levels (lv + 1);
    levels ← set_index levels (lv + 1) (next_level ++ [merged]);
    Ok (levels, spills)
  else Ok (levels, spills ++ ((λ b, mkLevelSpill b lv) <$> blocks)).

Definition spill (s : ExternalSorter) : Result ExternalSorter :=
  merged_block ← merge_to_spill s (in_mem_blocks s);
  let spills := spills s ++ [mkLevelSpill merged_block 0] in
  let levels := (λ g : list LevelSpill, block <$> g) <$> chunk_by level (sorted_unstable_by_level std level spills) in
  let levels := levels ++ [[]] in
  '(_, spills) ← rfoldM (merge_level s) (levels, []) (seq 0 (length levels));
  Ok (mkSorter [] spills (num_total_rows s) (mem_total_size s)).

(** The sorted positions of a batch.  The row count is cast to [u32], and a batch without
    encoded keys divides by zero. *)
Definition sort_indices (keys : list bytes) : Result (list nat) :=
  _ ← rassert (bool_decide (length keys ≠ 0));
  let key_at i := nth i keys [] in
  let rows := seq 0 (Z.to_nat (u32 (Z.of_nat (length keys)))) in
  let sorted :=
    if decide (rows_size conf keys / length keys ≤ 8) then sorted_unstable_by_key std key_at rows
    else sorted_by_key std key_at rows in
  Ok (iter_take limit sorted).

(** [must_spill]: whether [update_mem_used] makes the sorter spill. *)
Definition insert_batch (s : ExternalSorter) (batch : Batch) (must_spill : bool) : Result ExternalSorter :=
  if decide (num_rows batch = 0) then Ok s
  else
    let num_total_rows := num_total_rows s + num_rows batch in
    let mem_total_size := mem_total_size s + get_batch_mem_size conf batch in
    '(keys, batch) ← prune null row_encode p batch;
    sorted_indices ← sort_indices keys;
    key_collector ← rfoldM (λ c row_idx, key ← index keys row_idx; add_key c key)
      (kc_default : InMemRowsKeyCollector) sorted_indices;
    sorted_batch ←
      (if negb (is_all_pruned p) then take_batch batch sorted_indices
       else Ok (mkBatch (length sorted_indices) []));
    builder ← add_batch_and_keys inmem_builder_default sorted_batch (freeze key_collector);
    blk ← (finish builder : Result InMem);
    let s := mkSorter (in_mem_blocks s ++ [blk]) (spills s) num_total_rows mem_total_size in
    if must_spill then spill s else Ok s.

(** The two kinds of senders: with encoded key rows or without. *)
Definition send_output_batch {KC} `{KeyCollector KC} (with_key_rows : bool) (pruned_batch : Batch) (key_collector : KC)
    : Result (Batch * option Rows) :=
  if with_key_rows then
    key_rows ← into_rows key_collector (num_rows pruned_batch);
    batch ← restore_from_existed_key_rows null row_decode p pruned_batch key_rows;
    Ok (batch, Some key_rows)
  else
    batch ← restore null row_decode p pruned_batch key_collector;
    Ok (batch, None).

(** Merging [blocks] into the output.  The source drops an error of [skip_rows] and goes on;
    here it ends the task. *)
Definition output_blocks {B} `{@SortedBlock V B} (with_key_rows : bool) (s : ExternalSorter) (blocks : list B)
    : Result (list (Batch * option Rows)) :=
  merger ← merger_try_new (pruned_schema p) blocks;
  merger ← (if decide (0 < skip)
    then skip_rows (pruned_schema p) limit (KC := InMemRowsKeyCollector) (num_total_rows s) merger skip (output_batch_size s)
    else Ok merger);
  '(_, sent) ← drain (pruned_schema p) limit (KC := InMemRowsKeyCollector) (num_total_rows s) (output_batch_size s)
    (λ sent key_collector pruned_batch,
       item ← send_output_batch with_key_rows pruned_batch key_collector; Ok (sent ++ [item])) merger [];
  Ok sent.

Definition output (with_key_rows : bool) (s : ExternalSorter) : Result (list (Batch * option Rows)) :=
  let has_spill := bool_decide (spills s ≠ []) in
  let has_in_mem_data := bool_decide (in_mem_blocks s ≠ []) in
  s ← (if has_spill && has_in_mem_data then spill s else Ok s);
  match spills s with
  | [] =>
    match in_mem_blocks s with
    | [] => Ok []
    | blocks => output_blocks with_key_rows s blocks
    end
  | spills => output_blocks with_key_rows s (block <$> spills)
  end.

(** An item of the input, and whether the memory manager then asks for a spill. *)
Record Input := mkInput { item : Result Batch; must_spill : bool }.

Definition sort_step (s : ExternalSorter) (inp : Input) : Result ExternalSorter :=
  batch ← item inp; insert_batch s batch (must_spill inp).

(** [execute_projected_without_key_rows] and [execute_projected_with_key_rows]. *)
Definition execute (with_key_rows : bool) (input : list Input) : Result (list (Batch * option Rows)) :=
  s ← rfoldM sort_step new_sorter input;
  output with_key_rows s.

(** ** Rows and their keys *)

Context (row_le : relation (list V)) (nf : nat) (projection : list nat) (exprs : list (SortExpr V)) (fs : list (list V → V)).
Context (StdOk : StdSortOk std) {Fmt : SortFormat row_encode row_decode row_le (length exprs)}.
Context (PruneOk : prune_wf null nf projection exprs fs p).
Context (LimitOk : (1 <= limit < 2 ^ 64)%Z) (SizeOk : 0 < batch_size conf).

Local Abbreviation Row := (list V).
Local Abbreviation Rest := (list (bytes * Row)).
Local Abbreviation Run := (Batch * list bytes)%type.
Local Abbreviation top := (top key_le limit).

(** What the sorter keeps of a row. *)
Definition keyed (r : Row) : bytes * Row := (row_key row_encode fs r, prune_row null p r).

(** [c] holds the first rows of [l]. *)
Definition shrinks (c l : Rest) : Prop :=
  refines key_le limit c l ∧ length c ≤ length l ∧ (∀ x, x ∈ c → x ∈ l) ∧ (l ≠ [] → c ≠ []).

#[export] Instance shrinks_preorder : PreOrder shrinks.
Proof.
  clear SizeOk LimitOk. split.
  - intros c. split; [done|]. auto.
  - intros a b c (H1 & H2 & H3 & H4) (H5 & H6 & H7 & H8). split; [by transitivity b|]. split; [lia|]. auto.
Qed.

#[export] Instance shrinks_perm : Proper ((≡ₚ) ==> (≡ₚ) ==> iff) shrinks.
Proof.
  clear SizeOk LimitOk. assert (∀ a a' b b', a ≡ₚ a' → b ≡ₚ b' → shrinks a b → shrinks a' b') as H.
  - intros a a' b b' Ha Hb (H1 & H2 & H3 & H4). unfold shrinks. split; [by rewrite <- Ha, <- Hb|].
    rewrite <- (Permutation_length Ha), <- (Permutation_length Hb). split; [done|].
    split; [intros x; rewrite <- Ha, <- Hb; apply H3|].
    intros Hne ->. symmetry in Ha. apply Permutation_nil in Ha. apply H4; [|done]. intros ->. by apply Permutation_nil in Hb.
  - intros a a' Ha b b' Hb. split; by apply H.
Qed.

Lemma shrinks_app a a' b b' : shrinks a a' → shrinks b b' → shrinks (a ++ b) (a' ++ b').
Proof.
  clear SizeOk LimitOk. intros (H1 & H2 & H3 & H4) (H5 & H6 & H7 & H8). split; [by rewrite H1, H5|]. rewrite !length_app. split; [lia|]. split.
  - intros x. rewrite !elem_of_app. intros [?|?]; auto.
  - intros Hne Hnil%app_eq_nil. destruct Hnil as [-> ->]. destruct a'; [|by apply H4]. destruct b'; [done|by apply H8].
Qed.

Lemma top_shrinks l out : top l out → shrinks out l.
Proof using LimitOk.
  clear SizeOk. intros Ht. split; [by apply top_refines; [apply _|]|]. pose proof Ht as (rest & Hp & _). split.
  { apply Permutation_length in Hp. rewrite length_app in Hp. lia. }
  split; [intros x Hx; rewrite <- Hp; apply elem_of_app; by left|].
  intros Hne. eapply top_nonempty; [exact Ht|lia|done].
Qed.

(** ** The invariant of the sorter *)

Local Abbreviation content bss := (concat (runs_rest null <$> bss)).
Local Abbreviation block_ok := (block_ok (pruned_schema p)).

Lemma content_app (a b : list (list Run)) : content (a ++ b) = content a ++ content b.
Proof. by rewrite fmap_app, concat_app. Qed.

Record sorter_ok (s : ExternalSorter) (L : list Row) : Prop := {
  so_blocks : ∃ mem_bss spill_bss, Forall2 block_ok (in_mem_blocks s) mem_bss ∧
    Forall2 (λ sp, block_ok (block sp)) (spills s) spill_bss ∧
    shrinks (content mem_bss ++ content spill_bss) (keyed <$> L);
  so_total : num_total_rows s = length L }.

Lemma merge_to_spill_ok {B} {Blk : SortedBlock B} {BlkOk : SortedBlockOk (pruned_schema p) B} s (blocks : list B) bss :
  Forall2 block_ok blocks bss → blocks ≠ [] → length (content bss) ≤ num_total_rows s →
  (Z.of_nat (num_total_rows s) < 2 ^ 63)%Z →
  ∃ blk bs, merge_to_spill s blocks = Ok blk ∧ block_ok blk bs ∧ shrinks (runs_rest null bs) (content bss).
Proof using LimitOk SizeOk.
  intros Hb Hne Hlen Hbound. unfold merge_to_spill.
  destruct (merge_blocks_ok null (pruned_schema p) limit (KC := SqueezeKeyCollector) (B' := SpillSortedBlock)
    (num_total_rows s) (sub_batch_size s) blocks bss spill_builder_new) as (blk & bs & -> & Hrep & Hruns & Hsome & Htop);
    [done|done|done|by apply compute_batch_size_pos|done|done|constructor|].
  exists blk, bs. split; [done|]. split; [done|]. by apply top_shrinks.
Qed.

(** ** Spilling *)

Lemma block_levels (bs : list SpillSortedBlock) lv : block <$> ((λ b, mkLevelSpill b lv) <$> bs) = bs.
Proof. rewrite <- list_fmap_compose. apply list_fmap_id. Qed.

(** The level after the last occupied one is empty until the one before it is merged. *)
Definition last_level_ok (levels : list (list SpillSortedBlock)) : Prop :=
  ∀ ls g, levels = ls ++ [g] → length g ≤ 1 ∧ (ls ≠ [] → g = []).

Lemma last_level_ok_tail g h levels b :
  last_level_ok (g :: h :: levels) → last_level_ok (h :: levels) ∧ last_level_ok ((h ++ [b]) :: levels).
Proof.
  intros Hl. assert (∀ ls g', h :: levels = ls ++ [g'] → g' = []) as Hnil.
  { intros ls g' E. apply (Hl (g :: ls) g'); [by rewrite E|done]. }
  split; intros ls g' E.
  - rewrite (Hnil ls g' E). split; [apply Nat.le_0_l|done].
  - destruct ls as [|l ls]; injection E as E1 E2.
    + subst. rewrite (Hnil [] h eq_refl). done.
    + rewrite (Hnil (h :: ls) g' ltac:(by rewrite E2)). split; [apply Nat.le_0_l|done].
Qed.

Lemma merge_levels_ok s lvs levels out bss :
  Forall2 block_ok (concat levels ++ (block <$> out)) bss → length (content bss) ≤ num_total_rows s →
  (Z.of_nat (num_total_rows s) < 2 ^ 63)%Z → last_level_ok levels → Forall (λ g, g = []) lvs →
  ∃ levels' out' bss', rfoldM (merge_level s) (lvs ++ levels, out) (seq (length lvs) (length levels)) = Ok (levels', out') ∧
    Forall2 block_ok (block <$> out') bss' ∧ shrinks (content bss') (content bss).
Proof using LimitOk SizeOk.
  remember (length levels) as n eqn:Hn. revert lvs levels out bss Hn.
  induction n as [|n IH]; intros lvs levels out bss Hn Hb Hlen Hbound Hlast Hlvs.
  { destruct levels; [|done]. exists (lvs ++ []), out, bss. done. }
  destruct levels as [|g levels]; [done|]. injection Hn as Hn. cbn [concat] in Hb.
  rewrite <- app_assoc in Hb. apply Forall2_app_inv_l in Hb as (bg & br & Hg & Hr & ->).
  cbn [seq rfoldM]. unfold merge_level at 2. rewrite index_middle. cbn [mbind Result_bind].
  rewrite set_index_middle. cbn [mbind Result_bind].
  assert (Forall (λ g, g = []) (lvs ++ [[]])) as Hlvs' by (apply Forall_app; auto).
  replace (S (length lvs)) with (length (lvs ++ [[]] : list (list SpillSortedBlock))) by (rewrite length_app; cbn; lia).
  replace (length lvs + 1) with (length (lvs ++ [[]] : list (list SpillSortedBlock))) by (by rewrite length_app).
  replace (lvs ++ [] :: levels) with ((lvs ++ [[]]) ++ levels) by (by rewrite <- app_assoc).
  rewrite content_app, length_app in Hlen. case_decide as Hmax.
  - unfold NUM_MAX_MERGING_BATCHES in Hmax. destruct levels as [|h levels].
    { destruct (Hlast [] g eq_refl). lia. }
    destruct (merge_to_spill_ok s g bg Hg) as (blk & bs & -> & Hblk & Hsh); [by intros ->; cbn in Hmax; lia|lia|done|].
    cbn [mbind Result_bind]. rewrite index_middle. cbn [mbind Result_bind]. rewrite set_index_middle. cbn [mbind Result_bind].
    cbn [concat] in Hr. rewrite <- app_assoc in Hr. apply Forall2_app_inv_l in Hr as (bh & br' & Hh & Hr & ->).
    rewrite content_app, length_app in Hlen.
    assert (shrinks (content (bh ++ [bs] ++ br')) (content (bg ++ bh ++ br'))) as Hs1.
    { rewrite !content_app. cbn [fmap list_fmap concat]. rewrite app_nil_r.
      rewrite (Permutation_app_swap_app (content bh)). by apply shrinks_app. }
    destruct (IH (lvs ++ [[]]) ((h ++ [blk]) :: levels) out (bh ++ [bs] ++ br')) as (levels' & out' & bss' & -> & Hb' & Hs2);
      [done| |destruct Hs1 as (_ & Hl & _); rewrite !content_app, !length_app in *; lia|done| |done|].
    + cbn [concat]. rewrite <- !app_assoc. apply Forall2_app; [done|]. apply Forall2_app; [by constructor|done].
    + by apply (last_level_ok_tail g h levels blk).
    + exists levels', out', bss'. split; [done|]. split; [done|]. by transitivity (content (bh ++ [bs] ++ br')).
  - apply Forall2_app_inv_l in Hr as (bl & bo & Hl & Ho & ->). rewrite content_app, length_app in Hlen.
    destruct (IH (lvs ++ [[]]) levels (out ++ ((λ b, mkLevelSpill b (length lvs)) <$> g)) (bl ++ bo ++ bg))
      as (levels' & out' & bss' & E & Hb' & Hs); [done| |rewrite !content_app, !length_app; lia|done| |done|].
    + rewrite fmap_app, block_levels. by repeat apply Forall2_app.
    + destruct levels as [|h levels]; [by intros [|? ?] ? ?|]. by apply (last_level_ok_tail g h levels (mkSpillBlock [] default_reader)).
    + exists levels', out', bss'. split; [exact E|]. split; [done|]. rewrite !content_app in *.
      by rewrite (Permutation_app_comm (content bg)), <- app_assoc.
Qed.

Lemma spill_ok s L :
  sorter_ok s L → in_mem_blocks s ≠ [] → (Z.of_nat (length L) < 2 ^ 63)%Z →
  ∃ s', spill s = Ok s' ∧ sorter_ok s' L ∧ in_mem_blocks s' = [].
Proof using LimitOk SizeOk StdOk.
  intros [(mbs & sbs & Hm & Hs & Hsh) Htot] Hne Hbound.
  pose proof Hsh as (_ & Hlen & _). rewrite length_app, length_fmap in Hlen. unfold spill.
  destruct (merge_to_spill_ok s (in_mem_blocks s) mbs Hm Hne) as (blk & bs & -> & Hblk & Hb); [lia|lia|].
  cbn [mbind Result_bind]. set (sp := spills s ++ [mkLevelSpill blk 0]).
  assert (Forall2 (λ sp, block_ok (block sp)) sp (sbs ++ [bs])) as Hsp by (apply Forall2_app; [done|by constructor]).
  destruct (Permutation_Forall2 (symmetry (level_perm std StdOk level sp)) Hsp) as (bss & Hperm & Hbss).
  set (groups := (λ g : list LevelSpill, block <$> g) <$> chunk_by level (sorted_unstable_by_level std level sp)).
  assert (concat groups = block <$> sorted_unstable_by_level std level sp) as Hg.
  { unfold groups. rewrite <- (concat_chunk_by level (sorted_unstable_by_level std level sp)) at 2. symmetry. apply concat_map. }
  assert (shrinks (content bss) (content mbs ++ content sbs)) as Hs1.
  { rewrite <- Hperm, content_app. cbn [fmap list_fmap concat]. rewrite app_nil_r, Permutation_app_comm. by apply shrinks_app. }
  destruct (merge_levels_ok s [] (groups ++ [[]]) [] bss) as (levels' & out' & bss' & Hfold & Hout & Hs2).
  - rewrite app_nil_r, concat_app, Hg. cbn [concat]. rewrite !app_nil_r. by apply Forall2_fmap_l.
  - destruct Hs1 as (_ & Hl & _). rewrite length_app in Hl. lia.
  - lia.
  - intros ls g [_ <-]%app_inj_tail. split; [apply Nat.le_0_l|done].
  - constructor.
  - cbn [app] in Hfold. change (length []) with 0 in Hfold. rewrite Hfold. cbn [mbind Result_bind].
    eexists. split; [done|]. split; [|done]. split; [|done]. exists [], bss'.
    split; [constructor|]. split; [by rewrite Forall2_fmap_l in Hout|]. cbn [app fmap list_fmap concat].
    transitivity (content bss); [done|]. by transitivity (content mbs ++ content sbs).
Qed.

(** ** Inserting *)

Lemma sort_indices_ok keys :
  keys ≠ [] → (Z.of_nat (length keys) < 2 ^ 32)%Z →
  ∃ sorted, sort_indices keys = Ok (iter_take limit sorted) ∧ sorted ≡ₚ seq 0 (length keys) ∧
    StronglySorted (λ i j, bytes_le (nth i keys []) (nth j keys [])) sorted.
Proof using StdOk.
  clear SizeOk LimitOk. intros Hne Hlen. unfold sort_indices, u32. rewrite wrapu_id, Nat2Z.id by (unfold in_u; lia).
  rewrite bool_decide_eq_true_2 by (by destruct keys). cbn [rassert mbind Result_bind].
  case_decide; (eexists; split; [done|split]).
  - by apply unstable_perm.
  - by apply unstable_sorted.
  - by apply stable_perm.
  - by apply stable_sorted.
Qed.

Lemma collect_indices (c : InMemRowsKeyCollector) keys idx :
  Forall (λ i, i < length keys) idx →
  rfoldM (λ c row_idx, key ← index keys row_idx; add_key c key) c idx = rfoldM add_key c ((λ i, nth i keys []) <$> idx).
Proof.
  intros Hidx. rewrite <- (list_fmap_id idx) at 1. apply rfoldM_fmap_ext. intros c' i Hi. rewrite Forall_forall in Hidx.
  destruct (lookup_lt_is_Some_2 keys i (Hidx i Hi)) as [k Hk]. unfold compose, Datatypes.id, index. by rewrite nth_lookup, Hk.
Qed.

(** With every column in the keys, only the number of rows is kept. *)
Lemma take_sorted_ok q idx :
  batch_ok q → length (columns q) = pruned_schema p → Forall (λ i, i < num_rows q) idx →
  ∃ sb, (if negb (is_all_pruned p) then take_batch q idx else Ok (mkBatch (length idx) [])) = Ok sb ∧
    batch_ok sb ∧ num_rows sb = length idx ∧ length (columns sb) = pruned_schema p ∧
    batch_rows sb = row_at null (columns q) <$> idx.
Proof.
  clear SizeOk LimitOk. intros Hq Hqc Hidx. unfold is_all_pruned. case_bool_decide as Hp; cbn [negb].
  - eexists. split; [done|]. split; [constructor|]. split; [done|]. split; [done|].
    rewrite Hp in Hqc. apply nil_length_inv in Hqc. rewrite Hqc. unfold Joins.batch_rows, row_at. cbn.
    rewrite !(const_fmap _ _ []) by done. by rewrite length_seq.
  - destruct (take_batch_ok null q idx Hq Hidx) as (sb & ? & ? & ? & Hc & ?). exists sb. rewrite Hc, Hqc. done.
Qed.

(** Sorting the keys of a batch selects its first rows. *)
Lemma sorted_rows_top b q sorted :
  num_rows q = num_rows b → batch_rows q = prune_row null p <$> batch_rows b →
  sorted ≡ₚ seq 0 (num_rows b) →
  StronglySorted (λ i j, bytes_le (nth i (row_key row_encode fs <$> batch_rows b) []) (nth j (row_key row_encode fs <$> batch_rows b) [])) sorted →
  let idx := iter_take limit sorted in
  top (keyed <$> batch_rows b)
    (zip ((λ i, nth i (row_key row_encode fs <$> batch_rows b) []) <$> idx) (row_at null (columns q) <$> idx)).
Proof using LimitOk.
  clear SizeOk. intros Hn Hrows Hperm Hsorted idx. set (keys := row_key row_encode fs <$> batch_rows b) in *.
  set (f := λ i, (nth i keys [], row_at null (columns q) i)).
  assert (zip ((λ i, nth i keys []) <$> idx) (row_at null (columns q) <$> idx) = iter_take limit (f <$> sorted)) as ->.
  { rewrite iter_take_fmap, zip_with_fmap_l, zip_with_fmap_r, zip_with_diag. done. }
  apply top_take; [lia| |].
  - rewrite Hperm. match goal with |- ?l ≡ₚ ?l' => assert (l = l') as ->; [|done] end. apply list_eq_same_length with (num_rows b);
      [by rewrite length_fmap, length_batch_rows|by rewrite length_fmap, length_seq|].
    intros i x y Hi Hx Hy. rewrite list_lookup_fmap, lookup_seq_lt in Hx by done. injection Hx as <-.
    rewrite list_lookup_fmap in Hy. unfold f, keyed, keys. destruct (batch_rows b !! i) as [r|] eqn:Er; [|done]. injection Hy as <-.
    rewrite nth_lookup, list_lookup_fmap, Er. cbn. f_equal.
    assert (batch_rows q !! i = Some (prune_row null p r)) as Hr by (by rewrite Hrows, list_lookup_fmap, Er).
    unfold Joins.batch_rows in Hr. rewrite list_lookup_fmap, lookup_seq_lt in Hr by lia. injection Hr as Hr. unfold keyed. by rewrite <- Hr.
  - eapply StronglySorted_fmap; [|exact Hsorted]. done.
Qed.

(** Kept values are values of the row. *)
Lemma prune_row_storable r : length r = nf → Forall storable r → Forall storable (prune_row null p r).
Proof using PruneOk.
  clear SizeOk LimitOk. intros Hr Hs. unfold prune_row, proj_row. apply Forall_fmap, Forall_forall. intros k Hk. cbn.
  pose proof (kept_cols_bound null nf projection exprs fs p PruneOk) as Hb. rewrite Forall_forall in Hb. specialize (Hb k Hk).
  destruct (lookup_lt_is_Some_2 r k ltac:(lia)) as [v Hv]. rewrite nth_lookup, Hv. cbn. rewrite Forall_lookup in Hs. eauto.
Qed.

Lemma row_key_vec r : vec_ok (row_key row_encode fs r).
Proof using PruneOk Fmt. destruct Fmt as [_ Hsize _]. apply Hsize. by eapply length_sort_values. Qed.

(** Batches the sorter may be given. *)
Record input_ok (b : Batch) : Prop := {
  io_batch : batch_ok b;
  io_cols : length (columns b) = nf;
  io_bound : (Z.of_nat (num_rows b) < 2 ^ 32)%Z;
  io_store : Forall (Forall storable) (columns b) }.

(** First rows of a batch make a run. *)
Lemma taken_run_ok b sb ks :
  input_ok b → 0 < num_rows b → batch_ok sb → length (columns sb) = pruned_schema p → length ks = num_rows sb →
  top (keyed <$> batch_rows b) (zip ks (batch_rows sb)) → runs_ok (pruned_schema p) [(sb, ks)].
Proof using LimitOk PruneOk Fmt.
  clear SizeOk. intros [Hb Hc Hbound Hst] H0 Hsb Hsc Hks Ht. pose proof (top_shrinks _ _ Ht) as (_ & Hle & Hin & Hsome).
  set (z := zip ks (batch_rows sb)) in *.
  assert (z.*1 = ks) as Hz1 by (apply fst_zip; rewrite length_batch_rows; lia).
  assert (z.*2 = batch_rows sb) as Hz2 by (apply snd_zip; rewrite length_batch_rows; lia).
  assert (length z = num_rows sb) as Hz by (by rewrite <- Hks, <- Hz1, length_fmap).
  assert (Forall (λ x, vec_ok x.1) z ∧ Forall (λ x, Forall storable x.2) z) as [Hv Hs].
  { apply Forall_and, Forall_forall. intros x Hx. apply Hin, list_elem_of_fmap in Hx as (r & -> & Hr).
    split; [apply row_key_vec|]. apply prune_row_storable; [by rewrite (elem_of_batch_rows _ _ _ Hr)|].
    pose proof (storable_rows null (pruned_schema p) b Hb Hst) as Hall. rewrite Forall_forall in Hall. auto. }
  rewrite length_fmap, length_batch_rows in Hle. split.
  - apply Forall_singleton. split; cbn [fst snd]; [done|done|done| |lia|rewrite <- Hz1; by apply Forall_fmap|].
    + assert (z ≠ []) as Hne; [|destruct z; [done|cbn in *; lia]]. apply Hsome. intros E. apply (f_equal length) in E.
      rewrite length_fmap, length_batch_rows in E. cbn in E. lia.
    + apply (storable_columns null); [done|]. rewrite <- Hz2. by apply Forall_fmap.
  - destruct Ht as (rest & _ & Hss & _). apply key_sorted in Hss. rewrite Hz1 in Hss. cbn. by rewrite app_nil_r.
Qed.

Lemma insert_ok s L b must_spill :
  sorter_ok s L → input_ok b → (Z.of_nat (length (L ++ batch_rows b)) < 2 ^ 63)%Z →
  ∃ s', insert_batch s b must_spill = Ok s' ∧ sorter_ok s' (L ++ batch_rows b).
Proof using LimitOk SizeOk StdOk PruneOk Fmt.
  intros Hs [Hb Hc Hbound Hst] Htotal. pose proof (length_batch_rows null b) as Hlr. unfold insert_batch.
  case_decide as H0.
  { rewrite H0 in Hlr. apply nil_length_inv in Hlr. rewrite Hlr, app_nil_r. eauto. }
  destruct (prune_ok null row_encode nf projection exprs fs p b PruneOk Hb Hc) as (q & -> & Hq & Hqn & Hqc & Hqr).
  cbn [mbind Result_bind]. set (keys := row_key row_encode fs <$> batch_rows b).
  assert (length keys = num_rows b) as Hkl by (unfold keys; by rewrite length_fmap).
  destruct (sort_indices_ok keys) as (sorted & -> & Hperm & Hsorted); [intros E; rewrite E in Hkl; cbn in Hkl; lia|lia|].
  cbn [mbind Result_bind]. rewrite Hkl in Hperm. set (idx := iter_take limit sorted).
  assert (Forall (λ i, i < num_rows b) idx) as Hidx.
  { apply Forall_forall. intros i Hi%elem_of_iter_take. rewrite Hperm in Hi. apply elem_of_seq in Hi. lia. }
  rewrite collect_indices by (by rewrite Hkl). rewrite (inmem_collect []). cbn [app mbind Result_bind].
  destruct (take_sorted_ok q idx Hq Hqc) as (sb & -> & Hsb & Hsn & Hsc & Hsr); [by rewrite Hqn|].
  cbn [mbind Result_bind]. set (ks := (λ i, nth i keys []) <$> idx).
  pose proof (sorted_rows_top b q sorted Hqn Hqr Hperm Hsorted) as Ht. cbv zeta in Ht. fold idx keys ks in Ht. rewrite <- Hsr in Ht.
  assert (length ks = num_rows sb) as Hks by (unfold ks; by rewrite length_fmap).
  assert (runs_rest null [(sb, ks)] = zip ks (batch_rows sb)) as Hrest by (unfold runs_rest; cbn; apply app_nil_r).
  assert (runs_ok (pruned_schema p) [(sb, ks)]) as Hruns by (apply (taken_run_ok b); by first [lia|done|split]).
  destruct (builder_add (BuilderOk := inmem_builder_ok (pruned_schema p)) inmem_builder_default [] sb ks (collected ks)) as (builder & -> & Hrep);
    [done|done|apply (inmem_collect [])|].
  cbn [mbind Result_bind]. destruct (builder_finish (BuilderOk := inmem_builder_ok (pruned_schema p)) builder _ Hrep Hruns) as (blk & -> & Hblk).
  cbn [mbind Result_bind]. destruct Hs as [(mbs & sbs & Hm & Hs & Hsh) Htot].
  assert (sorter_ok (mkSorter (in_mem_blocks s ++ [blk]) (spills s) (num_total_rows s + num_rows b)
    (mem_total_size s + get_batch_mem_size conf b)) (L ++ batch_rows b)) as Hok.
  { split; [|cbn; rewrite length_app; lia]. exists (mbs ++ [[(sb, ks)]]), sbs. split; [|split; [done|]].
    - apply Forall2_app; [done|]. by constructor.
    - rewrite content_app, fmap_app. change (content [[(sb, ks)]]) with (runs_rest null [(sb, ks)] ++ []).
      rewrite app_nil_r, Hrest, <- app_assoc, (Permutation_app_comm (zip _ _)), app_assoc. apply shrinks_app; [done|].
      by apply top_shrinks. }
  destruct must_spill; [|eauto]. destruct (spill_ok _ _ Hok) as (s' & -> & ? & _); [|lia|eauto].
  cbn. by destruct (in_mem_blocks s).
Qed.

(** ** Output *)

(** What an output item holds of the rows [rs]. *)
Definition delivered (with_key_rows : bool) (item : Batch * option Rows) (rs : list Row) : Prop :=
  batch_ok item.1 ∧ batch_rows item.1 = proj_row null projection <$> rs ∧
  if with_key_rows then ∃ key_rows, item.2 = Some key_rows ∧ rows_iter key_rows = Ok (row_key row_encode fs <$> rs)
  else item.2 = None.

Lemma send_ok with_key_rows q rs :
  batch_ok q → length (columns q) = pruned_schema p → batch_rows q = prune_row null p <$> rs →
  Forall (λ r, length r = nf) rs → (Z.of_nat (length rs) < 2 ^ 64)%Z →
  ∃ item, send_output_batch with_key_rows q (frozen (row_key row_encode fs <$> rs)) = Ok item ∧
    delivered with_key_rows item rs.
Proof using PruneOk Fmt.
  clear SizeOk LimitOk. intros Hq Hqc Hrows Hrs Hlen. destruct Fmt as [Hrt _ _].
  destruct (restore_rows null row_encode row_decode nf projection exprs fs p q rs Hrt PruneOk Hq Hqc Hrows Hrs Hlen)
    as (b & Hb & Hbok & Hbr).
  assert (num_rows q = length (row_key row_encode fs <$> rs)) as Hn.
  { rewrite length_fmap, <- (length_batch_rows null), Hrows. apply length_fmap. }
  unfold send_output_batch, delivered. destruct with_key_rows; [|rewrite Hb; eexists; split; done].
  unfold restore in Hb. rewrite Hn, inmem_into_rows_ok in * by (by rewrite length_fmap). cbn [mbind Result_bind] in *.
  rewrite Hb. cbn [mbind Result_bind]. eexists. split; [done|]. split; [done|]. split; [done|]. eexists. split; [done|].
  apply rows_iter_frozen.
Qed.

Lemma output_blocks_ok {B} {Blk : SortedBlock B} {BlkOk : SortedBlockOk (pruned_schema p) B} with_key_rows s (blocks : list B) bss L :
  Forall2 block_ok blocks bss → blocks ≠ [] → shrinks (content bss) (keyed <$> L) → num_total_rows s = length L →
  (Z.of_nat (length L) < 2 ^ 63)%Z → Forall (λ r, length r = nf) L →
  ∃ sent outs taken, output_blocks with_key_rows s blocks = Ok sent ∧
    top (keyed <$> L) (taken ++ concat outs) ∧ (length taken = skip ∨ length taken ≤ skip ∧ concat outs = []) ∧
    Forall2 (λ item out, ∀ rs, out = keyed <$> rs → Forall (λ r, length r = nf) rs → delivered with_key_rows item rs) sent outs.
Proof using PruneOk Fmt LimitOk SizeOk.
  clear StdOk. intros Hb Hne (Href & Hlen & Hin & Hsome) Htot Hbound HL. rewrite length_fmap in Hlen. unfold output_blocks.
  destruct (merger_try_new_ok null (pruned_schema p) limit blocks bss Hb Hne) as (m & -> & Hm & Hm0); [lia|]. cbn [mbind Result_bind].
  assert (∀ ks, Forall vec_ok ks → StronglySorted bytes_le ks → ∃ kc, rfoldM add_key (kc_default : InMemRowsKeyCollector) ks = Ok kc) as Hcol
    by (intros ks _ _; eexists; apply (inmem_collect [])).
  assert (0 < output_batch_size s) as Hobs by (by apply compute_batch_size_pos).
  assert (∃ m' rs' taken, (if decide (0 < skip)
      then skip_rows (pruned_schema p) limit (KC := InMemRowsKeyCollector) (num_total_rows s) m skip (output_batch_size s)
      else Ok m) = Ok m' ∧ merger_ok null (pruned_schema p) limit m' rs' ∧ taken_all m m' (runs_rest null <$> bss) rs' taken ∧
      length taken ≤ skip ∧ (length taken = skip ∨ num_total_output_rows m' = limit ∨ concat rs' = []))
    as (m' & rs' & taken & -> & Hm' & [Hp Hs Hle Ht] & Hskip & Hdone).
  { case_decide.
    - apply skip_rows_ok; [done|lia|done|done|lia].
    - exists m, (runs_rest null <$> bss), []. split; [done|]. split; [done|]. split; [apply taken_none|]. cbn. split; [|left]; lia. }
  cbn [mbind Result_bind].
  destruct (drain_ok null (pruned_schema p) limit (KC := InMemRowsKeyCollector) Hcol ltac:(lia)
    (num_total_rows s) (output_batch_size s)
    (λ sent key_collector pruned_batch,
       item ← send_output_batch with_key_rows pruned_batch key_collector; Ok (sent ++ [item]))
    (λ sent outs, Forall2 (λ item out, ∀ rs, out = keyed <$> rs → Forall (λ r, length r = nf) rs → delivered with_key_rows item rs) sent outs)
    m' [] rs' Hm' Hobs) as (m2 & sent & outs & -> & Hsent & Htop).
  - apply Permutation_length in Hp. rewrite length_app in Hp. lia.
  - constructor.
  - intros sent outs kc q out rest HI (_ & (kc' & Hkc & ->) & Hq & Hqc & _ & Hqr) _ Hperm.
    assert (∀ x, x ∈ out → x ∈ keyed <$> L) as Hout.
    { intros x Hx. apply Hin. rewrite Hp. apply elem_of_app. right. rewrite <- Hperm, concat_app. cbn. set_solver. }
    destruct (fmap_inv keyed L out Hout) as (rs & -> & Hrs).
    assert (length rs ≤ length L) as Hl.
    { apply Permutation_length in Hp, Hperm. rewrite concat_app, !length_app in *. cbn in Hperm. rewrite length_app, length_fmap in Hperm. lia. }
    rewrite (inmem_collect []) in Hkc. injection Hkc as <-. rewrite <- !list_fmap_compose in *.
    assert (∀ rs2, keyed <$> rs = keyed <$> rs2 → Forall (λ r, length r = nf) rs2 →
      ∃ item, send_output_batch with_key_rows q (frozen (row_key row_encode fs <$> rs)) = Ok item ∧ delivered with_key_rows item rs2) as Hsend.
    { intros rs2 E Hrs2. assert (length rs2 = length rs) as El by (apply (f_equal length) in E; by rewrite !length_fmap in E).
      assert (row_key row_encode fs <$> rs = row_key row_encode fs <$> rs2) as -> by (apply (f_equal (fmap fst)) in E; by rewrite <- !list_fmap_compose in E).
      apply send_ok; [done|done| |done|lia]. rewrite Hqr. apply (f_equal (fmap snd)) in E. by rewrite <- !list_fmap_compose in E. }
    assert (Forall (λ r, length r = nf) rs) as Hrl.
    { rewrite Forall_forall in *. auto. }
    destruct (Hsend rs eq_refl Hrl) as (item & E & _). cbn [app]. exists (sent ++ [item]). split.
    + match goal with |- context [send_output_batch _ _ ?k] => change k with (frozen (row_key row_encode fs <$> rs)) end. by rewrite E.
    + apply Forall2_app; [done|]. constructor; [|constructor]. intros rs2 Er Hr'. destruct (Hsend rs2 Er Hr') as (item' & E' & ?). congruence.
  - cbn [mbind Result_bind]. exists sent, outs, taken. split; [done|]. rewrite Ht, Hm0 in Htop.
    split; [|split; [|done]].
    + apply (refines_top _ _ _ _ _ Href). eapply top_app; [by symmetry|by apply key_sorted|exact Hle|]. exact Htop.
    + destruct Hdone as [?|Hdone]; [by left|right]. split; [done|].
      destruct Htop as (rest & Hpt & _ & _ & Hnt & _). destruct Hdone as [Hd|Hd].
      * apply nil_length_inv. lia.
      * rewrite Hd in Hpt. symmetry in Hpt. by apply Permutation_nil, app_eq_nil in Hpt as [? _].
Qed.

(** The items that [L] becomes: its first rows in order, less those skipped. *)
Definition sorted_output (with_key_rows : bool) (L : list Row) (sent : list (Batch * option Rows)) : Prop :=
  ∃ sorted slices, sorted ≡ₚ L ∧
    StronglySorted (λ r r', row_le (sort_values fs r) (sort_values fs r')) sorted ∧
    concat slices = drop skip (iter_take limit sorted) ∧ Forall2 (delivered with_key_rows) sent slices.

Lemma key_le_row_le r r' : key_le (keyed r) (keyed r') ↔ row_le (sort_values fs r) (sort_values fs r').
Proof using PruneOk Fmt.
  destruct Fmt as [_ _ Horder]. unfold key_le, keyed, row_key. cbn [fst]. apply Horder; by eapply length_sort_values.
Qed.

Lemma sorted_output_top with_key_rows L taken outs sent :
  Forall (λ r, length r = nf) L → top (keyed <$> L) (taken ++ concat outs) →
  (length taken = skip ∨ length taken ≤ skip ∧ concat outs = []) →
  Forall2 (λ item out, ∀ rs, out = keyed <$> rs → Forall (λ r, length r = nf) rs → delivered with_key_rows item rs) sent outs →
  sorted_output with_key_rows L sent.
Proof using PruneOk Fmt.
  clear SizeOk LimitOk StdOk. intros HL Ht Htaken Hsent. apply top_sorted in Ht as (sorted' & Hp & Hs & E & Hlim); [|apply _..].
  apply Permutation_map_inv in Hp as (sorted & -> & Hp).
  change (map keyed sorted) with (keyed <$> sorted) in *. symmetry in Hp. rewrite iter_take_fmap in E.
  assert (concat outs = keyed <$> drop skip (iter_take limit sorted)) as Ed.
  { rewrite fmap_drop, <- E. destruct Htaken as [<-|[Hl Hnil]]; [by rewrite drop_app_length|].
    rewrite Hnil, app_nil_r. symmetry. by apply drop_ge. }
  apply concat_fmap_inv in Ed as (slices & -> & Hslices). exists sorted, slices. split; [done|]. split.
  { clear -Hs PruneOk Fmt. induction sorted as [|r l IH]; [constructor|]. rewrite fmap_cons in Hs. apply StronglySorted_inv in Hs as [Hs Hall].
    constructor; [by apply IH|]. rewrite Forall_fmap in Hall. eapply Forall_impl; [exact Hall|]. intros r'. apply key_le_row_le. }
  split; [done|]. rewrite Forall2_fmap_r in Hsent.
  assert (Forall (Forall (λ r, length r = nf)) slices) as Hall.
  { apply Forall_forall. intros sl Hsl. apply Forall_forall. intros r Hr. rewrite Forall_forall in HL. apply HL. rewrite <- Hp.
    apply (elem_of_iter_take limit). rewrite <- (take_drop skip). apply elem_of_app. right. rewrite <- Hslices.
    apply elem_of_concat. eauto. }
  clear -Hsent Hall. induction Hsent as [|item sl sent slices Hi _ IH]; [constructor|].
  apply Forall_cons_1 in Hall as [Hsl Hall]. constructor; auto.
Qed.

Lemma output_ok with_key_rows s L :
  sorter_ok s L → (Z.of_nat (length L) < 2 ^ 63)%Z → Forall (λ r, length r = nf) L →
  ∃ sent, output with_key_rows s = Ok sent ∧ sorted_output with_key_rows L sent.
Proof using PruneOk Fmt LimitOk SizeOk StdOk.
  intros Hs Hbound HL. unfold output.
  assert (∃ s', (if bool_decide (spills s ≠ []) && bool_decide (in_mem_blocks s ≠ []) then spill s else Ok s) = Ok s' ∧
    sorter_ok s' L ∧ (spills s' ≠ [] → in_mem_blocks s' = [])) as (s' & -> & [(mbs & sbs & Hm & Hsp & Hsh) Htot] & Hor).
  { case_bool_decide; [case_bool_decide|]; cbn [andb].
    - destruct (spill_ok s L) as (s' & -> & ? & ?); eauto.
    - exists s. split; [done|]. split; [done|]. intros _. by destruct (in_mem_blocks s); [|destruct H0].
    - by exists s. }
  cbn [mbind Result_bind]. destruct (spills s') as [|sp sps].
  - apply Forall2_nil_inv_l in Hsp as ->. cbn [fmap list_fmap concat] in Hsh. rewrite app_nil_r in Hsh.
    destruct (in_mem_blocks s') as [|blk blks].
    + apply Forall2_nil_inv_l in Hm as ->. destruct Hsh as (_ & _ & _ & Hsome).
      destruct L as [|r L]; [|by destruct Hsome].
      exists []. split; [done|]. exists [], []. split; [done|]. split; [constructor|]. split; [|constructor].
      unfold iter_take. by rewrite take_nil, drop_nil.
    + destruct (output_blocks_ok with_key_rows s' (blk :: blks) mbs L Hm) as (sent & outs & taken & -> & Ht & Htk & Hsent); [done..|].
      exists sent. split; [done|]. by eapply sorted_output_top.
  - specialize (Hor ltac:(done)). rewrite Hor in Hm. apply Forall2_nil_inv_l in Hm as ->. cbn [fmap list_fmap concat app] in Hsh.
    destruct (output_blocks_ok with_key_rows s' (block <$> (sp :: sps)) sbs L) as (sent & outs & taken & E & Ht & Htk & Hsent);
      [by rewrite Forall2_fmap_l|done..|].
    exists sent. split; [done|]. by eapply sorted_output_top.
Qed.

(** C3: the external sort is ORDER BY with limit and offset: for any batches, any
    moments at which the memory manager asks for a spill and any batch sizes, execute
    terminates without failing and sends, in order and batch by batch, the projected
    rows (with their encoded keys, when they are asked for) that remain after skipping
    the offset from the first limit rows of a sorted permutation of all input rows, for
    a limit of at least one and a projection that does not move sort columns. *)
Theorem external_sort_correct with_key_rows (input : list Input) bs :
  Forall2 (λ i b, item i = Ok b ∧ input_ok b) input bs →
  (Z.of_nat (length (concat (batch_rows <$> bs))) < 2 ^ 63)%Z →
  ∃ sent, execute with_key_rows input = Ok sent ∧ sorted_output with_key_rows (concat (batch_rows <$> bs)) sent.
Proof using PruneOk Fmt LimitOk SizeOk StdOk.
  intros Hin Hbound. unfold execute.
  destruct (rfoldM_inv (λ s rest, ∃ bs1 bs2, bs = bs1 ++ bs2 ∧ Forall2 (λ i b, item i = Ok b ∧ input_ok b) rest bs2 ∧
    sorter_ok s (concat (batch_rows <$> bs1))) sort_step new_sorter input) as (s & -> & (bs1 & bs2 & -> & Hr & Hs)).
  - exists [], bs. split; [done|]. split; [done|]. split; [|done]. exists [], []. split; [constructor|]. split; [constructor|done].
  - clear Hin. intros s [i ms] rest (bs1 & bs2 & -> & Hr & Hs). apply Forall2_cons_inv_l in Hr as (b & bs3 & [Hi Hb] & Hr & ->).
    unfold sort_step. cbn in Hi |- *. rewrite Hi. cbn [mbind Result_bind].
    destruct (insert_ok s _ b ms Hs Hb) as (s' & -> & Hs').
    { rewrite fmap_app, concat_app, length_app in Hbound. cbn [fmap list_fmap concat] in Hbound. rewrite !length_app in *. lia. }
    exists s'. split; [done|]. exists (bs1 ++ [b]), bs3. rewrite <- app_assoc. split; [done|]. split; [done|].
    rewrite fmap_app, concat_app. cbn. by rewrite app_nil_r.
  - apply Forall2_nil_inv_l in Hr as ->. rewrite app_nil_r in *. cbn [mbind Result_bind]. apply output_ok; [done|done|].
    apply Forall_forall. intros r (rows & Hrow & (b & -> & Hb)%list_elem_of_fmap)%elem_of_concat.
    destruct (list_elem_of_lookup_1 _ _ Hb) as [i Hib]. destruct (Forall2_lookup_r _ _ _ _ _ Hin Hib) as (? & _ & _ & [_ Hc _ _]).
    by rewrite (elem_of_batch_rows _ _ _ Hrow).
Qed.

End SortExec.

(** ** A sorted table

    Two batches of two nullable Int32 columns, ordered by the first column, spilled after the
    first batch. *)
Module SortSample.
Import PruneSample.

Definition merge_sort_by {A K} (le : relation K) `{!RelDecision le} (key : A → K) (l : list A) : list A :=
  @merge_sort A (λ x y, le (key x) (key y)) (λ x y, decide (le (key x) (key y))) l.

Definition merge_sort_std : StdSort := {|
  sorted_unstable_by_key A := merge_sort_by bytes_le;
  sorted_by_key A := merge_sort_by bytes_le;
  sorted_unstable_by_level A := merge_sort_by Nat.le |}.

Lemma merge_sort_std_ok : StdSortOk merge_sort_std.
Proof.
  assert (∀ A K (le : relation K) `{!RelDecision le, !Total le, !Transitive le} (key : A → K) l,
    StronglySorted (λ x y, le (key x) (key y)) (merge_sort_by le key l)) as Hs.
  { intros A K le ? ? ? key l. assert (Transitive (λ x y, le (key x) (key y))) by (intros x y z; by etrans).
    assert (Total (λ x y, le (key x) (key y))) by (intros x y; apply (total le)). apply (StronglySorted_merge_sort _). }
  split; intros; cbn; first [apply merge_sort_Permutation|apply Hs; apply _].
Qed.

Definition pruned : PruneSortKeysFromBatch (option Z) := {|
  input_projection := [0; 1];
  key_exprs := [first_column];
  key_cols := [0];
  restored_col_mappers := [FromKey 0; FromPrunedBatch 0];
  restored_schema := 2;
  pruned_schema := 1 |}.

Definition codec : BatchCodec (option Z) (pruned_schema pruned) := primitive_codec Int32 1 I I.

Definition conf : SortConf (V := option Z) := mkSortConf 10000 (2 ^ 20) (2 ^ 20) (λ b, 16 * num_rows b) (λ ks, length (concat ks)).

Definition second : RecordBatch (V := option Z) := mkBatch 2 [[Some 4; Some 1]; [Some 4; Some 5]]%Z.

Definition input : list (Input (V := option Z)) := [mkInput (Ok table) true; mkInput (Ok second) false].

Definition run (skip : nat) (limit : Z) (with_key_rows : bool) :=
  execute None encode decode merge_sort_std conf pruned (Codec := codec) skip limit with_key_rows input.

(** Limit 3 after skipping 1. *)
Example sort_result :
  run 1 3 true = Ok [(mkBatch 2 [[Some 1; Some 2]; [Some 5; Some 3]], Some (mkRows [1; 1; 1; 2] [0; 2; 4]%nat))]%Z.
Proof. vm_compute. reflexivity. Qed.

Lemma external_sort_correct_witness :
  ∃ sent, run 1 3 true = Ok sent ∧
    sorted_output None encode 1 3 row_le [0; 1] [λ r, nth 0 r None] true
      (concat (batch_rows None <$> [table; second])) sent.
Proof.
  assert (SortFormat encode decode row_le 1) as Hf by by apply encode_format.
  apply (external_sort_correct None encode decode merge_sort_std conf pruned 1 3 row_le 2 [0; 1] [first_column] [λ r, nth 0 r None]
    (Fmt := Hf) merge_sort_std_ok).
  - split; [vm_compute; reflexivity| |done|].
    + constructor; [|constructor]. apply first_column_ok. lia.
    + intros [|[|i]] c Hc Hk; [by injection Hc|by apply list_elem_of_singleton in Hk|by destruct i].
  - done.
  - cbn. lia.
  - repeat constructor; cbn; unfold in_u; cbn; lia.
  - done.
Defined.

End SortSample.
