(* ===== verification/IpcCompression.v ===== *)
(** * Compressed blocks of batches

    native-engine/datafusion-ext-commons/src/io/ipc_compression.rs: the format of shuffle
    and broadcast data, a sequence of blocks, each a little-endian u32 length and a
    compressed frame that holds serialized batches.  The frame codec (lz4_flex, zstd) is
    the interface [FrameCodec], the batch codec the interface [BatchCodec] of SortBlocks;
    when a block is full is an argument.

    [ipc_write_read_roundtrip]: batches come back in order; [holds_app]: files of blocks may
    be concatenated, which the shuffle writers rely on.  A damaged block is reported by the
    model when the file is opened, by the code when its reader arrives at it. *)

From S2P Require Import Prelude MachineInt Io Joins SortBlocks.

Set Default Proof Using "Type".

Local Abbreviation bytes := (list Z).

(** A streaming encoder: what a write passes on to the inner writer, and what remains for
    the end of the frame. *)
Class FrameCodec (E : Type) := {
  enc_new : E;
  enc_write : E → bytes → Result (E * bytes);
  enc_finish : E → Result bytes;
  decompress : bytes → Result bytes }.

Definition feed {E} `{FrameCodec E} (chunks : list bytes) : Result (E * bytes) :=
  rfoldM (λ '(e, out) chunk, '(e, o) ← enc_write e chunk; Ok (e, out ++ o)) (enc_new, []) chunks.

(** A frame decompresses to what was written to it. *)
Class FrameCodecOk (E : Type) `{FrameCodec E} : Prop := {
  frame_law chunks : ∃ e out fin, feed chunks = Ok (e, out) ∧ enc_finish e = Ok fin ∧
    decompress (out ++ fin) = Ok (concat chunks) }.

Section Ipc.
Context {V : Type} {nf : nat} `{Codec : BatchCodec V nf} {E : Type} `{Frame : FrameCodec E}.

Local Abbreviation Batch := (RecordBatch (V:=V)).

(** ** Writing *)

Record IpcCompressionWriter := mkIpcWriter {
  output : bytes;
  shared_buf : bytes;
  block_writer : E;
  block_empty : bool }.

(** A fresh block starts with room for its length. *)
Definition open_block (output : bytes) : IpcCompressionWriter := mkIpcWriter output [0; 0; 0; 0]%Z enc_new true.

Definition ipc_new (output : bytes) : IpcCompressionWriter := open_block output.

(** The output that is left, and the writer with the new one. *)
Definition set_output (w : IpcCompressionWriter) (out : bytes) : Result (bytes * IpcCompressionWriter) :=
  _ ← rassert (block_empty w);
  Ok (output w, mkIpcWriter out (shared_buf w) (block_writer w) (block_empty w)).

Definition finish_current_buf (w : IpcCompressionWriter) : Result IpcCompressionWriter :=
  if negb (block_empty w) then
    fin ← enc_finish (block_writer w);
    let buf := shared_buf w ++ fin in
    let block_len := u32 (Z.of_nat (length buf - 4)) in
    Ok (open_block (output w ++ le_bytes 4 block_len ++ drop 4 buf))
  else Ok w.

(** [block_full]: the comparison of the buffer's length with the configured size. *)
Definition ipc_write_batch (block_full : nat → bool) (w : IpcCompressionWriter) (num_rows : nat) (cols : list (list V))
    : Result IpcCompressionWriter :=
  if decide (num_rows = 0) then Ok w
  else
    bs ← write_one_batch num_rows cols;
    '(e, out) ← enc_write (block_writer w) bs;
    let w := mkIpcWriter (output w) (shared_buf w ++ out) e false in
    if block_full (length (shared_buf w)) then finish_current_buf w else Ok w.

(** ** Reading *)

(** The bytes that the inner [Reader] delivers.  Less than four bytes end the file. *)
Fixpoint ipc_blocks (fuel : nat) (input : bytes) : Result bytes :=
  if decide (length input < 4) then Ok []
  else
    match fuel with
    | O => Diverge
    | S fuel =>
        let block_len := Z.to_nat (le_val (take 4 input)) in
        plain ← decompress (take block_len (drop 4 input));
        more ← ipc_blocks fuel (drop block_len (drop 4 input));
        Ok (plain ++ more)
    end.

Definition ipc_reader (input : bytes) : Result bytes := ipc_blocks (length input) input.

(** [while let Some(batch) = reader.read_batch(schema)? {..}] *)
Fixpoint ipc_read_batches (fuel : nat) (reader : bytes) : Result (list Batch) :=
  match fuel with
  | O => Diverge
  | S fuel =>
      '(batch, reader) ← read_one_batch reader;
      match batch with
      | None => Ok []
      | Some (n, cols) => batches ← ipc_read_batches fuel reader; Ok (mkBatch n cols :: batches)
      end
  end.

Definition read_file (fuel : nat) (input : bytes) : Result (list Batch) :=
  reader ← ipc_reader input; ipc_read_batches fuel reader.

(** ** What a file holds *)

Lemma ipc_blocks_more f k input plain : ipc_blocks f input = Ok plain → f ≤ k → ipc_blocks k input = Ok plain.
Proof.
  revert k input plain. induction f as [|f IH]; intros k input plain; cbn [ipc_blocks]; [|intros Hr Hk].
  - intros Hr _. destruct k; cbn [ipc_blocks]; by case_decide.
  - destruct k as [|k]; [lia|]. cbn [ipc_blocks]. case_decide; [done|].
    apply bind_Ok in Hr as (p1 & -> & Hr). apply bind_Ok in Hr as (more & Hm & Hr). cbn [mbind Result_bind].
    by rewrite (IH k _ more) by (first [done|lia]).
Qed.

Lemma ipc_blocks_fuel f input plain : ipc_blocks f input = Ok plain → ipc_reader input = Ok plain.
Proof.
  unfold ipc_reader. revert input plain. induction f as [|f IH]; intros input plain; cbn [ipc_blocks].
  - intros Hr. destruct (length input) as [|n] eqn:E0; cbn [ipc_blocks]; rewrite ?E0 in *; case_decide; done.
  - intros Hr. case_decide as Hlt.
    + destruct (length input) as [|n] eqn:E0; cbn [ipc_blocks]; rewrite ?E0; by rewrite decide_True by lia.
    + apply bind_Ok in Hr as (p1 & Hp & Hr). apply bind_Ok in Hr as (more & Hm & Hr). apply IH in Hm.
      destruct (length input) as [|n] eqn:E0; [lia|]. cbn [ipc_blocks]. rewrite E0, decide_False by lia. rewrite Hp. cbn [mbind Result_bind].
      rewrite (ipc_blocks_more _ n _ _ Hm) by (rewrite !length_drop; lia). done.
Qed.

(** [weight] bounds what a row adds to a file: no block is longer than the weight of its rows. *)
Context (null : V) (weight : list V → nat).

Definition batches_weight (bs : list Batch) : nat := sum_list (weight <$> mjoin (batch_rows null <$> bs)).

Lemma batches_weight_app bs1 bs2 : batches_weight (bs1 ++ bs2) = batches_weight bs1 + batches_weight bs2.
Proof. unfold batches_weight. by rewrite fmap_app, join_app, fmap_app, sum_list_with_app. Qed.


Definition encoded : Batch → bytes → Prop := λ b w, write_one_batch (num_rows b) (columns b) = Ok w.

Definition blocks_bounded : Prop := ∀ bs chunks e out fin,
  Forall2 encoded bs chunks → bs ≠ [] → Forall (λ b, num_rows b ≠ 0) bs →
  feed chunks = Ok (e, out) → enc_finish e = Ok fin → 4 + length (out ++ fin) ≤ batches_weight bs.

(** The length of a frame is stored in a u32. *)
Definition small (bs : list Batch) : Prop := (Z.of_nat (batches_weight bs) < 2 ^ 32)%Z.

(** [out] is blocks that hold [bs], whatever follows them. *)
Definition holds (out : bytes) (bs : list Batch) : Prop :=
  length out ≤ batches_weight bs ∧
  ∃ chunks, Forall2 encoded bs chunks ∧
    ∀ rest more, ipc_reader rest = Ok more → ipc_reader (out ++ rest) = Ok (concat chunks ++ more).

Lemma holds_nil : holds [] [].
Proof. split; [done|]. exists []. split; [constructor|]. intros rest more Hr. exact Hr. Qed.

Lemma holds_app out1 out2 bs1 bs2 : holds out1 bs1 → holds out2 bs2 → holds (out1 ++ out2) (bs1 ++ bs2).
Proof.
  intros (L1 & c1 & H1 & R1) (L2 & c2 & H2 & R2). split; [rewrite length_app, batches_weight_app; lia|]. exists (c1 ++ c2). split; [by apply Forall2_app|].
  intros rest more Hr. rewrite <- app_assoc, concat_app, <- app_assoc. by apply R1, R2.
Qed.

Lemma holds_block chunks bs frame :
  Forall2 encoded bs chunks →
  decompress frame = Ok (concat chunks) → 4 + length frame ≤ batches_weight bs → small bs →
  holds (le_bytes 4 (u32 (Z.of_nat (length frame))) ++ frame) bs.
Proof.
  intros Hbs Hd Hw Hsmall. unfold small in Hsmall. split; [by rewrite length_app, length_le_bytes|].
  exists chunks. split; [done|]. intros rest more Hr. set (header := le_bytes 4 _).
  assert (length header = 4) as Hh by apply length_le_bytes.
  apply (ipc_blocks_fuel (S (length rest))). cbn [ipc_blocks]. rewrite <- app_assoc, decide_False by (rewrite !length_app; lia).
  rewrite (take_app_length' header), (drop_app_length' header) by done.
  assert (Z.to_nat (le_val header) = length frame) as ->.
  { unfold header. rewrite le_val_le_bytes. change (8 * Z.of_nat 4)%Z with 32%Z. unfold u32. rewrite wrapu_wrapu, wrapu_id by (unfold in_u; lia). lia. }
  rewrite take_app_length, drop_app_length, Hd. cbn [mbind Result_bind]. unfold ipc_reader in Hr. rewrite Hr. done.
Qed.


(** ** What the writer has written *)

Definition stored (b : Batch) : Prop :=
  batch_ok b ∧ length (columns b) = nf ∧ Forall (Forall storable) (columns b) ∧ (Z.of_nat (num_rows b) < 2 ^ 64)%Z.

Lemma stored_encoded b : stored b →
  ∃ w, encoded b w ∧ ∀ rest, read_one_batch (w ++ rest) = Ok (Some (num_rows b, columns b), rest).
Proof. intros (H1 & H2 & H3 & H4). by apply codec_roundtrip. Qed.

Lemma feed_snoc chunks e out w :
  feed chunks = Ok (e, out) → feed (chunks ++ [w]) = ('(e, o) ← enc_write e w; Ok (e, out ++ o)).
Proof. intros Hf. unfold feed in *. rewrite rfoldM_app, Hf. cbn. destruct (enc_write e w) as [[? ?]| | | |]; done. Qed.

(** [w] has written [bs] to an output that held [out]; the last batches are in the open block. *)
Definition wrote (w : IpcCompressionWriter) (out : bytes) (bs : list Batch) : Prop :=
  Forall (λ b, num_rows b ≠ 0) bs ∧
  ∃ bs1 bs2 out1 chunks emitted, bs = bs1 ++ bs2 ∧ output w = out ++ out1 ∧ holds out1 bs1 ∧
    Forall2 encoded bs2 chunks ∧ feed chunks = Ok (block_writer w, emitted) ∧
    shared_buf w = [0; 0; 0; 0]%Z ++ emitted ∧ block_empty w = bool_decide (bs2 = []).

Lemma ipc_new_wrote out : wrote (ipc_new out) out [].
Proof.
  split; [constructor|]. exists [], [], [], [], [].
  split; [done|]. split; [by rewrite app_nil_r|]. split; [apply holds_nil|]. split; [constructor|done].
Qed.

Context `{Law : !FrameCodecOk E} (fit : blocks_bounded).

Lemma finish_current_buf_ok w out bs :
  wrote w out bs → small bs →
  ∃ out1, finish_current_buf w = Ok (open_block (out ++ out1)) ∧ holds out1 bs.
Proof using fit Law.
  intros (Hne & bs1 & bs2 & out1 & chunks & emitted & -> & Ho & Hh & He & Hf & Hs & Hb) Hw.
  unfold finish_current_buf. rewrite Hb. case_bool_decide as Hbs; cbn [negb].
  - subst bs2. inversion He; subst. exists out1. rewrite app_nil_r. split; [|done]. destruct w as [o sb e em].
    cbn [output shared_buf block_writer block_empty] in *. subst. unfold open_block. cbn in Hf. by injection Hf as <- <-.
  - destruct (frame_law chunks) as (e & o & fin & Hf' & Hfin & Hd). rewrite Hf in Hf'. injection Hf' as <- <-.
    rewrite Hfin, Hs, Ho. cbn [mbind Result_bind]. rewrite <- (app_assoc [_;_;_;_]%Z).
    change (drop 4 ([0; 0; 0; 0]%Z ++ emitted ++ fin)) with (emitted ++ fin).
    assert (length ([0; 0; 0; 0]%Z ++ emitted ++ fin) - 4 = length (emitted ++ fin)) as -> by (rewrite length_app; cbn [length]; lia).
    eexists. split; [by rewrite <- app_assoc|]. apply holds_app; [done|]. apply Forall_app in Hne as [_ Hne].
    apply (holds_block chunks); [done|done|by eapply (fit bs2 chunks)|]. unfold small in *. rewrite batches_weight_app in Hw. lia.
Qed.

Lemma open_block_wrote out out1 bs : Forall (λ b, num_rows b ≠ 0) bs → holds out1 bs → wrote (open_block (out ++ out1)) out bs.
Proof.
  intros Hne Hh. split; [done|]. exists bs, [], out1, [], [].
  split; [by rewrite app_nil_r|]. split; [done|]. split; [done|]. split; [constructor|done].
Qed.

(** A batch without rows is not written. *)
Definition kept (b : Batch) : list Batch := if decide (num_rows b = 0) then [] else [b].

Lemma ipc_write_batch_ok full w out bs b :
  wrote w out bs → stored b → small (bs ++ kept b) →
  ∃ w', ipc_write_batch full w (num_rows b) (columns b) = Ok w' ∧ wrote w' out (bs ++ kept b).
Proof using fit Law.
  intros Hwr Hst Hw. unfold ipc_write_batch, kept in *. case_decide as Hn; [exists w; by rewrite app_nil_r|].
  destruct (stored_encoded b Hst) as (c & Hc & _). unfold encoded in Hc. rewrite Hc. cbn [mbind Result_bind].
  destruct Hwr as (Hne & bs1 & bs2 & out1 & chunks & emitted & -> & Ho & Hh & He & Hf & Hs & Hb).
  destruct (frame_law (chunks ++ [c])) as (e & o & fin & Hf' & _ & _). pose proof Hf' as Hf1. rewrite (feed_snoc _ _ _ _ Hf) in Hf'.
  apply bind_Ok in Hf' as ([e1 o1] & -> & Hf'). injection Hf' as -> <-. cbn [mbind Result_bind shared_buf].
  set (w1 := mkIpcWriter _ _ _ _). assert (wrote w1 out ((bs1 ++ bs2) ++ [b])) as Hw1.
  { split; [apply Forall_app; split; [done|by constructor]|]. exists bs1, (bs2 ++ [b]), out1, (chunks ++ [c]), (emitted ++ o1).
    cbn [w1 output block_writer shared_buf block_empty]. rewrite Hs, <- !app_assoc. split_and!; try done.
    - apply Forall2_app; [done|]. by constructor.
    - rewrite bool_decide_eq_false_2; [done|]. by destruct bs2. }
  destruct (full _); [|by exists w1].
  destruct (finish_current_buf_ok w1 out _ Hw1 Hw) as (out2 & -> & H2). eexists. split; [done|].
  apply open_block_wrote; [|done]. by destruct Hw1.
Qed.

(** ** Reading a file back *)

Lemma ipc_read_batches_ok bs chunks fuel :
  Forall stored bs → Forall2 encoded bs chunks → length bs < fuel → ipc_read_batches fuel (concat chunks) = Ok bs.
Proof.
  intros Hst Hbs. revert fuel. induction Hbs as [|b c bs chunks Hb Hbs IH]; intros fuel Hfuel;
    (destruct fuel as [|fuel]; [cbn in Hfuel; lia|]); cbn [ipc_read_batches concat].
  - by rewrite codec_end.
  - apply Forall_cons in Hst as [Hb' Hst]. destruct (stored_encoded b Hb') as (c' & Hc & Hr).
    assert (c' = c) as -> by (unfold encoded in *; congruence). rewrite Hr. cbn [mbind Result_bind].
    rewrite (IH Hst) by (cbn in Hfuel; lia). by destruct b.
Qed.

Lemma read_file_holds out bs fuel : Forall stored bs → holds out bs → length bs < fuel → read_file fuel out = Ok bs.
Proof.
  intros Hst (_ & chunks & Hbs & Hr) Hfuel. unfold read_file. specialize (Hr [] [] eq_refl). rewrite !app_nil_r in Hr.
  rewrite Hr. by apply ipc_read_batches_ok.
Qed.

Definition ipc_write_all (block_full : nat → bool) (out : bytes) (bs : list Batch) : Result IpcCompressionWriter :=
  w ← rfoldM (λ w b, ipc_write_batch block_full w (num_rows b) (columns b)) (ipc_new out) bs;
  finish_current_buf w.

Lemma ipc_write_all_wrote full out bs :
  Forall stored bs → small (bs ≫= kept) →
  ∃ w, rfoldM (λ w b, ipc_write_batch full w (num_rows b) (columns b)) (ipc_new out) bs = Ok w ∧ wrote w out (bs ≫= kept).
Proof using fit Law.
  induction bs as [|b bs IH] using rev_ind; intros Hst Hw; [eexists; split; [done|apply ipc_new_wrote]|].
  apply Forall_app in Hst as [Hst Hb]. apply (proj1 (Forall_singleton _ _)) in Hb. rewrite bind_app in *. cbn in Hw |- *. rewrite app_nil_r in *.
  assert (small (bs ≫= kept)) as Hw1 by (unfold small in *; rewrite batches_weight_app in Hw; lia).
  destruct (IH Hst Hw1) as (w & Hf & Hwr).
  rewrite rfoldM_app, Hf. cbn [rfoldM mbind Result_bind]. destruct (ipc_write_batch_ok full w out _ b Hwr Hb Hw) as (w' & -> & H').
  by exists w'.
Qed.

(** Batches written as compressed blocks, wherever blocks are cut, are read back in
    order, without the empty ones. *)
Theorem ipc_write_read_roundtrip full bs :
  Forall stored bs → small (bs ≫= kept) →
  ∃ w, ipc_write_all full [] bs = Ok w ∧ block_empty w = true ∧
    ∀ fuel, length bs < fuel → read_file fuel (output w) = Ok (bs ≫= kept).
Proof using fit Law.
  intros Hst Hw. destruct (ipc_write_all_wrote full [] bs Hst Hw) as (w & Hf & Hwr).
  destruct (finish_current_buf_ok w [] _ Hwr Hw) as (out & Hfin & Hh). unfold ipc_write_all. rewrite Hf. cbn [mbind Result_bind].
  rewrite Hfin. eexists. split; [done|]. split; [done|]. intros fuel Hfuel. apply read_file_holds; [|exact Hh|].
  - apply Forall_bind. eapply Forall_impl; [exact Hst|]. intros b Hb. cbn. unfold kept. case_decide; [constructor|by apply (proj2 (Forall_singleton _ _))].
  - eapply Nat.le_lt_trans; [|exact Hfuel]. clear. induction bs as [|b bs IH]; [done|]. cbn. rewrite length_app.
    unfold kept at 1. case_decide; cbn [length]; lia.
Qed.

End Ipc.

Module IpcSample.

(** One column of integers, a batch is its length and its values; frames are not compressed. *)
Definition col_write (n : nat) (cols : list (list Z)) : Result bytes :=
  match cols with
  | [c] => if decide (length c = n) then Ok (Z.of_nat n :: c) else Err (Execution "length")
  | _ => Err (Execution "columns")
  end.

Definition col_read : Reader (option (nat * list (list Z))) := λ input,
  match input with
  | [] => Ok (None, [])
  | n :: rest => Ok (Some (Z.to_nat n, [take (Z.to_nat n) rest]), drop (Z.to_nat n) rest)
  end.

Lemma col_roundtrip (b : RecordBatch (V:=Z)) :
  batch_ok b → length (columns b) = 1 →
  ∃ bs, col_write (num_rows b) (columns b) = Ok bs ∧ ∀ rest, col_read (bs ++ rest) = Ok (Some (num_rows b, columns b), rest).
Proof.
  destruct b as [n cols]. unfold batch_ok. cbn [columns num_rows]. intros Hok Hlen.
  destruct cols as [|c [|? ?]]; try done. apply (proj1 (Forall_singleton _ _)) in Hok. cbn [col_write].
  rewrite decide_True by done. eexists. split; [done|]. intros rest. cbn [col_read app]. rewrite Nat2Z.id.
  by rewrite take_app_length', drop_app_length'.
Qed.

#[export] Instance col_codec : BatchCodec Z 1 := {
  storable _ := True;
  write_one_batch := col_write;
  read_one_batch := col_read;
  codec_roundtrip b Hok Hlen _ _ := col_roundtrip b Hok Hlen;
  codec_end := eq_refl }.

#[export] Instance plain_frames : FrameCodec unit := {
  enc_new := tt; enc_write _ w := Ok (tt, w); enc_finish _ := Ok []; decompress := Ok }.

Lemma plain_feed chunks : feed chunks = Ok (tt, concat chunks).
Proof.
  induction chunks as [|w chunks IH] using rev_ind; [done|]. rewrite (feed_snoc _ _ _ _ IH). cbn.
  by rewrite concat_app; cbn; rewrite app_nil_r.
Qed.

#[export] Instance plain_frames_ok : FrameCodecOk unit.
Proof. split. intros chunks. eexists _, _, _. split; [apply plain_feed|]. split; [done|]. cbn. by rewrite app_nil_r. Qed.

Lemma plain_bounded : blocks_bounded (V:=Z) (E:=unit) 0%Z (λ _, 6).
Proof.
  intros bs chunks e out fin Hbs Hne0 Hne Hf [= <-]. rewrite plain_feed in Hf. injection Hf as <- <-.
  rewrite app_nil_r. assert (4 * length bs + length (concat chunks) ≤ batches_weight 0%Z (λ _, 6) bs) as Hle.
  2: { destruct bs; [done|]. cbn [length] in Hle. lia. }
  clear Hne0. induction Hbs as [|b c bs chunks Hb Hbs IH]; [cbn; lia|]. apply Forall_cons in Hne as [Hb0 Hne].
  cbn [concat]. change (b :: bs) with ([b] ++ bs). rewrite batches_weight_app, !length_app. specialize (IH Hne).
  assert (length c ≤ 1 + num_rows b) as Hc.
  { change (col_write (num_rows b) (columns b) = Ok c) in Hb. unfold col_write in Hb.
    destruct (columns b) as [|c0 [|? ?]]; try done. case_decide as Hn; [|done]. injection Hb as <-. cbn [length]. lia. }
  assert (batches_weight 0%Z (λ _, 6) [b] = 6 * num_rows b) as ->; [|cbn [length]; lia].
  unfold batches_weight. rewrite fmap_cons. cbn [fmap list_fmap mjoin list_join]. rewrite app_nil_r.
  assert (∀ l : list (list Z), sum_list ((λ _, 6) <$> l) = 6 * length l) as -> by (induction l as [|? ? IHl]; [done|cbn in *; lia]).
  unfold batch_rows. by rewrite length_fmap, length_seq.
Qed.

(** Three batches, one of them without rows, in blocks of at least six bytes. *)
Definition batches : list (RecordBatch (V:=Z)) := [mkBatch 2 [[7; 8]%Z]; mkBatch 0 [[]]; mkBatch 1 [[9]%Z]].

Lemma batches_stored : Forall stored batches.
Proof. repeat constructor. Qed.

Lemma ipc_write_read_roundtrip_witness :
  ∃ w, ipc_write_all (E:=unit) (λ n, 6 <=? n) [] batches = Ok w ∧ block_empty w = true ∧
    ∀ fuel, 3 < fuel → read_file (E:=unit) fuel (output w) = Ok [mkBatch 2 [[7; 8]%Z]; mkBatch 1 [[9]%Z]].
Proof. apply (ipc_write_read_roundtrip 0%Z (λ _, 6) plain_bounded _ batches batches_stored). vm_compute. reflexivity. Defined.

Example two_blocks : (w ← ipc_write_all (E:=unit) (λ n, 6 <=? n) [] batches; Ok (output w)) =
  Ok [3; 0; 0; 0; 2; 7; 8; 2; 0; 0; 0; 1; 9]%Z.
Proof. reflexivity. Qed.

End IpcSample.
