(* ===== verification/Offsetted.v ===== *)
(** * Merging data by partition

    native-engine/datafusion-ext-plans/src/common/offsetted.rs: data whose partitions lie
    between offsets, and the iterator that visits the partitions of many such data in the
    order of their ids, with a RadixQueue of cursors.  What a user does with the data of an
    item is the argument [use] of [merge_next]; the unsigned integers of the offsets have
    [w] bits.

    [merge_next_ok] is the step that the shuffle writers iterate: each non-empty partition
    of each of the data is visited once, partitions in ascending order, and the merged
    offsets are the sums of the lengths before each partition. *)

From stdpp Require Import sorting.
From S2P Require Import Prelude MachineInt RadixQueue.

Set Default Proof Using "Type".

Section Offsetted.
Context {T : Type} (w : Z).

Record Offsetted := mkOffsetted { offsets : list Z; data : T }.

Definition offset (o : Offsetted) (i : nat) : Result (Z * Z) :=
  a ← index (offsets o) i;
  b ← index (offsets o) (i + 1);
  Ok (a, b).

Record OffsettedCursor := mkCursor { offsetted : Offsetted; cur : nat }.

Definition cur_empty (offs : list Z) (cur : nat) : bool :=
  bool_decide (cur + 1 < length offs) && bool_decide (nth (cur + 1) offs 0%Z = nth cur offs 0%Z).

Definition skip_empty_partitions (c : OffsettedCursor) : Result OffsettedCursor :=
  cur ← rwhile (length (offsets (offsetted c))) (cur_empty (offsets (offsetted c))) (λ cur, Ok (cur + 1)) (cur c);
  Ok (mkCursor (offsetted c) cur).

Definition cursor_new (o : Offsetted) : Result OffsettedCursor := skip_empty_partitions (mkCursor o 0).

Record OffsettedMergeIterator := mkMerge {
  num_partitions : nat;
  cursors : RadixQueue (T:=OffsettedCursor);
  cur_partition_id : nat;
  cur_offset : Z;
  merged_offsets : list Z }.

Definition merge_new (num_partitions : nat) (offsets : list Offsetted) : Result OffsettedMergeIterator :=
  _ ← rassert (bool_decide (offsets ≠ []));
  cs ← rmapM cursor_new offsets;
  cursors ← rq_new cur cs num_partitions;
  c ← peek cursors;
  Ok (mkMerge num_partitions cursors (cur c) 0 []).

Definition peek_next_partition_id (m : OffsettedMergeIterator) : Result nat := c ← peek (cursors m); Ok (cur c).

(** The use of the smallest cursor in [next]; its result is the range and the answer of
    [use], none at the end. *)
Definition forward_cursor {A} (num_partitions : nat) (use : T → Z * Z → Result (T * A)) (c : OffsettedCursor)
    : Result (OffsettedCursor * option (Z * Z * A)) :=
  if decide (num_partitions ≤ cur c) then Ok (c, None)
  else
    range ← offset (offsetted c) (cur c);
    '(d, a) ← use (data (offsetted c)) range;
    c' ← skip_empty_partitions (mkCursor (mkOffsetted (offsets (offsetted c)) d) (cur c + 1));
    Ok (c', Some (range, a)).

Definition merge_next {A} (use : T → Z * Z → Result (T * A)) (m : OffsettedMergeIterator)
    : Result (OffsettedMergeIterator * option (nat * A)) :=
  cur_partition_id ← peek_next_partition_id m;
  let merged_offsets := resize (cur_partition_id + 1) (cur_offset m) (merged_offsets m) in
  '(cursors, out) ← with_min cur (cursors m) (forward_cursor (num_partitions m) use);
  match out with
  | None => Ok (mkMerge (num_partitions m) cursors cur_partition_id (cur_offset m) merged_offsets, None)
  | Some ((start, stop), a) =>
      let cur_offset := wrapu w (cur_offset m + stop - start) in
      Ok (mkMerge (num_partitions m) cursors cur_partition_id cur_offset merged_offsets, Some (cur_partition_id, a))
  end.

(** [OffsettedMergeIterator::next_partition_chunk]: the id, if there is a chunk. *)
Definition next_partition_chunk (m : OffsettedMergeIterator) : Result (option nat) :=
  chunk_partition_id ← peek_next_partition_id m;
  Ok (if decide (chunk_partition_id < num_partitions m) then Some chunk_partition_id else None).

(** [next] of the iterator of a chunk. *)
Definition chunk_next {A} (use : T → Z * Z → Result (T * A)) (chunk_partition_id : nat) (m : OffsettedMergeIterator)
    : Result (OffsettedMergeIterator * option A) :=
  p ← peek_next_partition_id m;
  if decide (p = chunk_partition_id) then
    '(m, out) ← merge_next use m;
    Ok (m, match out with Some (_, a) => Some a | None => None end)
  else Ok (m, None).

(** ** Cursors *)

Definition at_ (offs : list Z) (p : nat) : Z := nth p offs 0%Z.

Lemma cur_empty_spec n offs p :
  length offs = n + 1 → cur_empty offs p = bool_decide (p < n ∧ at_ offs (p + 1) = at_ offs p).
Proof.
  intros Hl. unfold cur_empty, at_. rewrite <- bool_decide_and. apply bool_decide_ext. rewrite Hl. split; intros []; split; (done || lia).
Qed.

(** Between [p] and the cursor all partitions are empty, the next one is not. *)
Lemma skip_empty_ok n o p :
  length (offsets o) = n + 1 → p ≤ n →
  ∃ q, skip_empty_partitions (mkCursor o p) = Ok (mkCursor o q) ∧ p ≤ q ≤ n ∧ at_ (offsets o) q = at_ (offsets o) p ∧
    (∀ i, p ≤ i < q → at_ (offsets o) (i + 1) = at_ (offsets o) i) ∧ (q < n → at_ (offsets o) (q + 1) ≠ at_ (offsets o) q).
Proof.
  intros Hl Hp. unfold skip_empty_partitions. cbn [offsetted cur]. rewrite Hl.
  assert (∀ fuel p, p ≤ n → n < p + fuel → ∃ q, rwhile fuel (cur_empty (offsets o)) (λ cur, Ok (cur + 1)) p = Ok q ∧ p ≤ q ≤ n ∧
    at_ (offsets o) q = at_ (offsets o) p ∧ (∀ i, p ≤ i < q → at_ (offsets o) (i + 1) = at_ (offsets o) i) ∧
    (q < n → at_ (offsets o) (q + 1) ≠ at_ (offsets o) q)) as H.
  { clear p Hp. induction fuel as [|fuel IH]; intros p Hp Hf; [lia|]. cbn [rwhile]. rewrite (cur_empty_spec n) by done.
    case_bool_decide as Hc.
    - destruct Hc as [Hpn He]. cbn [mbind Result_bind]. destruct (IH (p + 1)) as (q & -> & Hq & Hat & Hi & Hne); [lia..|].
      exists q. split; [done|]. split; [lia|]. split; [by rewrite Hat|]. split; [|done]. intros i Hip.
      destruct (decide (i = p)) as [->|]; [done|]. apply Hi. lia.
    - exists p. split; [done|]. split; [lia|]. split; [done|]. split; [lia|]. intros Hpn He. by apply Hc. }
  destruct (H (n + 1) p) as (q & -> & Hq); [lia..|]. by exists q.
Qed.

(** ** What has been visited *)

(** The offsets of the data, and a relation of a datum to the position up to which it was
    used.  A use goes from one offset to the next. *)
Context {A : Type} (n : nat) (offss : list (list Z)) (dinv : nat → Z → T → Prop) (use : T → Z * Z → Result (T * A)).

Definition seg_at (j p : nat) : Z := at_ (nth j offss []) p.
Definition seg_range (j p : nat) : Z * Z := (seg_at j p, seg_at j (p + 1)).
Definition seg_len (x : nat * nat) : Z := seg_at x.1 (x.2 + 1) - seg_at x.1 x.2.

(** The partition [p] of the data [j]. *)
Definition is_seg (x : nat * nat) : Prop := x.1 < length offss ∧ x.2 < n ∧ seg_at x.1 (x.2 + 1) ≠ seg_at x.1 x.2.

Definition lens (xs : list (nat * nat)) : Z := foldr (λ x s, seg_len x + s)%Z 0%Z xs.

Definition before (q : nat) (xs : list (nat * nat)) : list (nat * nat) := filter (λ x, x.2 < q) xs.

Definition cursor_ok (j : nat) (c : OffsettedCursor) : Prop :=
  offss !! j = Some (offsets (offsetted c)) ∧ cur c ≤ n ∧ (cur c < n → is_seg (j, cur c)) ∧
  dinv j (seg_at j (cur c)) (data (offsetted c)).

Record merge_inv (m : OffsettedMergeIterator) (outs : list (nat * nat)) : Prop := {
  mi_parts : num_partitions m = n;
  mi_queue : rq_inv cur (cursors m);
  mi_keys : num_keys (cursors m) = n + 1;
  mi_count : length (values (cursors m)) = length offss;
  mi_cursors j c : values (cursors m) !! j = Some c → cursor_ok j c;
  mi_seen j c p : values (cursors m) !! j = Some c → is_seg (j, p) → (j, p) ∈ outs ↔ p < cur c;
  mi_nodup : NoDup outs;
  mi_outs : Forall is_seg outs;
  mi_order : StronglySorted (λ x y : nat * nat, x.2 ≤ y.2) outs;
  mi_past c : c ∈ values (cursors m) → Forall (λ x, x.2 ≤ cur c) outs;
  mi_offset : cur_offset m = wrapu w (lens outs);
  mi_merged_len : Forall (λ x, x.2 < length (merged_offsets m)) outs ∧
    (∀ c, c ∈ values (cursors m) → length (merged_offsets m) ≤ cur c + 1);
  mi_merged q o : merged_offsets m !! q = Some o → o = wrapu w (lens (before q outs)) }.

Lemma lens_app xs ys : lens (xs ++ ys) = (lens xs + lens ys)%Z.
Proof. induction xs as [|x xs IH]; cbn [lens foldr app]; [done|]. unfold lens in *. rewrite IH. lia. Qed.

Context (offs_len : Forall (λ o, length o = n + 1) offss).
Context (use_law : ∀ j p d, is_seg (j, p) → dinv j (seg_at j p) d →
  ∃ d' a, use d (seg_range j p) = Ok (d', a) ∧ dinv j (seg_at j (p + 1)) d').

Lemma offs_at j o : offss !! j = Some o → length o = n + 1 ∧ ∀ p, seg_at j p = at_ o p.
Proof using offs_len.
  intros Ho. split; [exact (Forall_lookup_1 _ _ _ _ offs_len Ho)|]. intros p. unfold seg_at. by rewrite (nth_lookup_Some _ _ _ _ Ho).
Qed.

(** A cursor over [o] that stands at [p] or behind the empty partitions after it. *)
Lemma cursor_skips j o p :
  offss !! j = Some (offsets o) → p ≤ n → dinv j (seg_at j p) (data o) →
  ∃ c, skip_empty_partitions (mkCursor o p) = Ok c ∧ cursor_ok j c ∧ p ≤ cur c ∧
    ∀ i, is_seg (j, i) → p ≤ i → cur c ≤ i.
Proof using offs_len.
  intros Ho Hp Hd. destruct (offs_at j _ Ho) as [Hl Hat].
  destruct (skip_empty_ok n o p Hl Hp) as (q & -> & Hq & Heq & Hi & Hne). exists (mkCursor o q). split; [done|].
  cbn [cur offsetted]. split.
  - split; [done|]. cbn [cur offsetted]. split; [lia|]. split.
    + intros Hqn. split; [by eapply lookup_lt_Some|]. cbn [fst snd]. split; [done|]. rewrite !Hat. by apply Hne.
    + by rewrite Hat, Heq, <- Hat.
  - split; [lia|]. intros i (_ & Hin & Hseg) Hpi. cbn [fst snd] in *. destruct (decide (q ≤ i)); [done|]. exfalso.
    rewrite !Hat in Hseg. apply Hseg, Hi. lia.
Qed.

Lemma forward_cursor_ok j c :
  cursor_ok j c → cur c < n →
  ∃ c' d a, forward_cursor n use c = Ok (c', Some (seg_range j (cur c), a)) ∧ use (data (offsetted c)) (seg_range j (cur c)) = Ok (d, a) ∧
    cursor_ok j c' ∧ cur c < cur c' ∧ ∀ i, is_seg (j, i) → i < cur c' ↔ i ≤ cur c.
Proof using offs_len use_law.
  intros (Ho & Hn & Hseg & Hd) Hc. specialize (Hseg Hc). destruct (offs_at j _ Ho) as [Hl Hat].
  unfold forward_cursor. rewrite decide_False by lia. unfold offset, index.
  assert (∀ i, i ≤ n → offsets (offsetted c) !! i = Some (seg_at j i)) as Hlk.
  { intros i Hi. rewrite Hat. unfold at_. destruct (nth_lookup_or_length (offsets (offsetted c)) i 0%Z) as [->|]; [done|lia]. }
  rewrite !Hlk by lia. cbn [mbind Result_bind]. destruct (use_law j (cur c) _ Hseg Hd) as (d & a & Hu & Hd').
  fold (seg_range j (cur c)). rewrite Hu. cbn [mbind Result_bind].
  destruct (cursor_skips j (mkOffsetted (offsets (offsetted c)) d) (cur c + 1)) as (c' & -> & Hok & Hge & Hi); [done|lia|done|].
  exists c', d, a. split; [done|]. split; [done|]. split; [done|]. split; [lia|]. intros i His. split; intros Hic.
  - destruct (decide (i ≤ cur c)); [done|]. specialize (Hi i His). lia.
  - lia.
Qed.

Lemma before_app q xs ys : before q (xs ++ ys) = before q xs ++ before q ys.
Proof. apply filter_app. Qed.

Lemma before_all q xs : Forall (λ x, x.2 < q) xs → before q xs = xs.
Proof. induction 1; [done|]. unfold before in *. rewrite filter_cons_True by done. congruence. Qed.

Lemma lookup_resize_pad (k : nat) (x : Z) l q o :
  length l ≤ k → resize k x l !! q = Some o → l !! q = Some o ∨ length l ≤ q ∧ q < k ∧ o = x.
Proof.
  intros Hl Hq. rewrite resize_ge in Hq by done. apply lookup_app_Some in Hq as [Hq|[Hge Hq]]; [by left|right].
  apply lookup_replicate in Hq as [-> Hq]. lia.
Qed.

(** [next] pads the merged offsets up to the partition of the smallest cursor. *)
Lemma merged_padded m outs q o p c :
  merge_inv m outs → c ∈ values (cursors m) → cur c = p →
  resize (p + 1) (cur_offset m) (merged_offsets m) !! q = Some o → o = wrapu w (lens (before q outs)).
Proof.
  intros Hm Hc Hp Hq. destruct (mi_merged_len m outs Hm) as [Hlt Hle]. apply lookup_resize_pad in Hq; [|rewrite <- Hp; by apply Hle].
  destruct Hq as [Hq|(Hge & _ & ->)]; [by apply (mi_merged m outs Hm)|]. rewrite (mi_offset m outs Hm), before_all; [done|].
  eapply Forall_impl; [exact Hlt|]. cbn. lia.
Qed.

Lemma merge_peek_ok m outs :
  merge_inv m outs → ∃ i c, peek_idx (cursors m) = Ok i ∧ values (cursors m) !! i = Some c ∧
    peek_next_partition_id m = Ok (cur c) ∧ cursor_ok i c ∧ ∀ c', c' ∈ values (cursors m) → cur c ≤ cur c'.
Proof.
  intros Hm. destruct (peek_idx_ok cur _ (mi_queue m outs Hm)) as (i & c & Hi & Hc & _ & Hmin). exists i, c.
  split; [done|]. split; [done|]. split; [|split; [by apply (mi_cursors m outs Hm)|done]].
  unfold peek_next_partition_id, peek. rewrite Hi. cbn [mbind Result_bind]. by rewrite (proj2 (uindex_Ok _ _ _) Hc).
Qed.

Lemma merge_end_ok m outs i c :
  merge_inv m outs → peek_idx (cursors m) = Ok i → values (cursors m) !! i = Some c →
  peek_next_partition_id m = Ok (cur c) → (∀ c', c' ∈ values (cursors m) → cur c ≤ cur c') → cur c = n →
  ∃ m', merge_next use m = Ok (m', None) ∧ merge_inv m' outs ∧ length (merged_offsets m') = n + 1 ∧ (∀ x, is_seg x → x ∈ outs).
Proof.
  intros Hm Hi Hc Hp Hmin Hn. pose proof (list_elem_of_lookup_2 _ _ _ Hc) as Hin.
  destruct (with_min_ok cur (cursors m) (forward_cursor (num_partitions m) use) i c c None) as (q' & Hq' & Hinv & Hv & Hk).
  { apply (mi_queue m outs Hm). } { done. } { done. }
  { unfold forward_cursor. rewrite (mi_parts m outs Hm), decide_True by lia. done. }
  { rewrite (mi_keys m outs Hm). lia. }
  unfold merge_next. rewrite Hp. cbn [mbind Result_bind]. rewrite Hq'. cbn [mbind Result_bind]. eexists. split; [done|].
  rewrite list_insert_id in Hv by done. split.
  - destruct Hm. split; cbn [num_partitions cursors cur_offset merged_offsets]; rewrite ?Hv, ?Hk; try done.
    + split; [|intros c' Hc'; rewrite length_resize; specialize (Hmin _ Hc'); lia].
      rewrite length_resize. eapply Forall_impl; [exact mi_outs0|]. intros x (_ & Hx & _). lia.
    + intros q o. eapply merged_padded; [by split|done|done].
  - cbn [merged_offsets]. rewrite length_resize. split; [lia|]. intros [j p] Hseg.
    destruct (lookup_lt_is_Some_2 (values (cursors m)) j) as [c' Hc']; [rewrite (mi_count m outs Hm); by destruct Hseg|].
    apply (mi_seen m outs Hm j c' p Hc' Hseg). destruct Hseg as (_ & Hpn & _). cbn [snd] in Hpn.
    specialize (Hmin c' (list_elem_of_lookup_2 _ _ _ Hc')). lia.
Qed.

Lemma wrap_forward outs x :
  wrapu w (wrapu w (lens outs) + seg_at x.1 (x.2 + 1) - seg_at x.1 x.2) = wrapu w (lens (outs ++ [x])).
Proof.
  rewrite lens_app. cbn [lens foldr]. unfold wrapu, seg_len. rewrite Z.add_0_r, <- Z.add_sub_assoc. apply Zplus_mod_idemp_l.
Qed.

Lemma merge_item_ok m outs i c :
  merge_inv m outs → peek_idx (cursors m) = Ok i → values (cursors m) !! i = Some c → cursor_ok i c →
  peek_next_partition_id m = Ok (cur c) → (∀ c', c' ∈ values (cursors m) → cur c ≤ cur c') → cur c < n →
  ∃ d a m', use (data (offsetted c)) (seg_range i (cur c)) = Ok (d, a) ∧
    merge_next use m = Ok (m', Some (cur c, a)) ∧ merge_inv m' (outs ++ [(i, cur c)]).
Proof using offs_len use_law.
  intros Hm Hi Hc Hcok Hp Hmin Hn. pose proof (list_elem_of_lookup_2 _ _ _ Hc) as Hin.
  destruct (forward_cursor_ok i c Hcok Hn) as (c' & d & a & Hf & Hu & Hcok' & Hgt & Hseen). exists d, a.
  destruct (with_min_ok cur (cursors m) (forward_cursor (num_partitions m) use) i c c' (Some (seg_range i (cur c), a)))
    as (q' & Hq' & Hinv & Hv & Hk).
  { apply (mi_queue m outs Hm). } { done. } { done. } { by rewrite (mi_parts m outs Hm). }
  { rewrite (mi_keys m outs Hm). destruct Hcok' as (_ & ? & _). lia. }
  unfold merge_next. rewrite Hp. cbn [mbind Result_bind]. rewrite Hq'. cbn [mbind Result_bind seg_range]. eexists. split; [done|].
  split; [done|]. pose proof (λ q o, merged_padded m outs q o (cur c) c Hm Hin eq_refl) as Hpad.
  assert (is_seg (i, cur c)) as Hseg by (destruct Hcok as (_ & _ & H & _); by apply H).
  assert (Forall (λ x, x.2 ≤ cur c) outs) as Hpast by (by apply (mi_past m outs Hm)).
  assert (∀ c'', c'' ∈ values q' → c'' = c' ∨ c'' ∈ values (cursors m)) as Hvals.
  { intros c'' Hc''. rewrite Hv in Hc''. apply list_elem_of_lookup in Hc'' as [j Hj]. destruct (decide (j = i)) as [->|].
    - rewrite list_lookup_insert_eq in Hj by (by eapply lookup_lt_Some). left. congruence.
    - rewrite list_lookup_insert_ne in Hj by done. right. by eapply list_elem_of_lookup_2. }
  assert (∀ c'', c'' ∈ values q' → cur c ≤ cur c'') as Hmin'.
  { intros c'' [->|Hc'']%Hvals; [lia|by apply Hmin]. }
  destruct Hm. split; cbn [num_partitions cursors cur_offset merged_offsets]; try done.
  - by rewrite Hk.
  - by rewrite Hv, length_insert.
  - intros j c'' Hj. rewrite Hv in Hj. destruct (decide (j = i)) as [->|].
    + rewrite list_lookup_insert_eq in Hj by (by eapply lookup_lt_Some). by injection Hj as <-.
    + rewrite list_lookup_insert_ne in Hj by done. by apply mi_cursors0.
  - intros j c'' p Hj Hjp. rewrite elem_of_app, list_elem_of_singleton. rewrite Hv in Hj. destruct (decide (j = i)) as [->|Hji].
    + rewrite list_lookup_insert_eq in Hj by (by eapply lookup_lt_Some). injection Hj as <-.
      rewrite (mi_seen0 i c p Hc Hjp), (Hseen p Hjp). split; [intros [?|[= ->]]; lia|]. intros Hle.
      destruct (decide (p = cur c)) as [->|]; [by right|left; lia].
    + rewrite list_lookup_insert_ne in Hj by done. rewrite (mi_seen0 j c'' p Hj Hjp). split; [intros [?|[= -> _]]; done|by left].
  - apply NoDup_app. split; [done|]. split; [|apply NoDup_singleton]. intros x Hx ->%list_elem_of_singleton.
    rewrite (mi_seen0 i c (cur c) Hc Hseg) in Hx. lia.
  - apply Forall_app. split; [done|by apply (proj2 (Forall_singleton _ _))].
  - apply StronglySorted_app. split; [|split; [done|repeat constructor]]. intros x y Hx ->%list_elem_of_singleton.
    by apply (proj1 (Forall_forall _ _) Hpast).
  - intros c'' Hc''. specialize (Hmin' c'' Hc''). apply Forall_app. split; [|by apply (proj2 (Forall_singleton _ _))].
    eapply Forall_impl; [exact Hpast|]. cbn. lia.
  - rewrite mi_offset0. apply (wrap_forward outs (i, cur c)).
  - rewrite length_resize. split; [|intros c'' Hc''; specialize (Hmin' c'' Hc''); lia]. apply Forall_app. split.
    + eapply Forall_impl; [exact Hpast|]. cbn. lia.
    + apply (proj2 (Forall_singleton _ _)). cbn. lia.
  - intros q o Hq. rewrite (Hpad q o Hq), before_app. apply lookup_lt_Some in Hq. rewrite length_resize in Hq.
    assert (before q [(i, cur c)] = []) as ->; [|by rewrite app_nil_r]. unfold before. rewrite filter_cons_False; [done|]. cbn. lia.
Qed.

Lemma merge_new_ok (os : list Offsetted) :
  os ≠ [] → offsets <$> os = offss → (∀ j o, os !! j = Some o → dinv j (seg_at j 0) (data o)) →
  ∃ m, merge_new n os = Ok m ∧ merge_inv m [].
Proof using offs_len.
  intros Hne Hos Hd. unfold merge_new. rewrite bool_decide_eq_true_2 by done. cbn [rassert mbind Result_bind].
  assert (∀ j o, os !! j = Some o → ∃ c, cursor_new o = Ok c ∧ cursor_ok j c ∧ ∀ i, is_seg (j, i) → cur c ≤ i) as Hnew.
  { intros j o Ho. destruct (cursor_skips j o 0) as (c & Hc & Hok & _ & Hi); [by rewrite <- Hos, list_lookup_fmap, Ho|lia|by apply Hd|].
    exists c. split; [done|]. split; [done|]. intros i His. apply Hi; [done|lia]. }
  assert (∃ cs, rmapM cursor_new os = Ok cs) as [cs Hcs].
  { clear -Hnew. revert Hnew. generalize cursor_ok as P. intros P Hnew. assert (Forall (λ o, ∃ c, cursor_new o = Ok c) os) as H.
    { apply Forall_lookup. intros j o Ho. destruct (Hnew j o Ho) as (c & Hc & _). by exists c. }
    clear Hnew. induction H as [|o l [c Hc] _ [cs IH]]; [by exists []|]. exists (c :: cs). cbn [rmapM]. rewrite Hc. cbn. by rewrite IH. }
  rewrite Hcs. cbn [mbind Result_bind]. apply rmapM_Ok in Hcs. pose proof (Forall2_length _ _ _ Hcs) as Hlen.
  assert (∀ j c, cs !! j = Some c → cursor_ok j c ∧ ∀ i, is_seg (j, i) → cur c ≤ i) as Hcur.
  { intros j c Hc. destruct (Forall2_lookup_r _ _ _ _ _ Hcs Hc) as (o & Ho & Hoc). destruct (Hnew j o Ho) as (c' & Hc' & H).
    rewrite Hoc in Hc'. injection Hc' as <-. done. }
  destruct (rq_new_ok cur cs n) as (q & -> & Hv & Hk & Hinv); [by destruct cs; destruct os|
    apply Forall_lookup; intros j c Hc; destruct (Hcur j c Hc) as [(_ & ? & _) _]; done|].
  cbn [mbind Result_bind]. destruct (peek_ok cur q Hinv) as (c & -> & _). cbn [mbind Result_bind]. eexists. split; [done|].
  split; cbn [num_partitions cursors cur_offset merged_offsets]; try done; rewrite ?Hv; try by constructor.
  - rewrite <- Hos, length_fmap. done.
  - intros j c' Hc'. by destruct (Hcur j c' Hc').
  - intros j c' p Hc' Hp. destruct (Hcur j c' Hc') as [_ H]. specialize (H p Hp). split; [by intros ?%not_elem_of_nil|lia].
  - split; [constructor|cbn; lia].
Qed.

Lemma outs_bound m outs : merge_inv m outs → length outs ≤ length offss * n.
Proof.
  intros Hm. rewrite <- (length_seq (length offss) 0), <- (length_seq n 0), <- length_prod.
  apply submseteq_length, NoDup_submseteq; [apply (mi_nodup m outs Hm)|]. intros [j p] Hx.
  destruct (proj1 (Forall_forall _ _) (mi_outs m outs Hm) _ Hx) as (Hj & Hp & _). cbn [fst snd] in *.
  apply list_elem_of_In, in_prod; apply list_elem_of_In, elem_of_seq; lia.
Qed.

(** [while let Some(item) = merge_iter.next() {..}]: the items and the iterator at the end. *)
Fixpoint merge_all (fuel : nat) (m : OffsettedMergeIterator) : Result (list (nat * A) * OffsettedMergeIterator) :=
  match fuel with
  | O => Diverge
  | S fuel =>
      '(m, out) ← merge_next use m;
      match out with
      | None => Ok ([], m)
      | Some x => '(xs, m) ← merge_all fuel m; Ok (x :: xs, m)
      end
  end.

(** The item of a partition of one of the data. *)
Definition item_of (x : nat * nat) (item : nat * A) : Prop :=
  item.1 = x.2 ∧ ∃ d d', dinv x.1 (seg_at x.1 x.2) d ∧ use d (seg_range x.1 x.2) = Ok (d', item.2).

Lemma merge_all_ok fuel m outs :
  merge_inv m outs → length offss * n < fuel + length outs →
  ∃ xs items m', merge_all fuel m = Ok (items, m') ∧ Forall2 item_of xs items ∧ merge_inv m' (outs ++ xs) ∧
    length (merged_offsets m') = n + 1 ∧ ∀ x, is_seg x → x ∈ outs ++ xs.
Proof using offs_len use_law.
  revert m outs. induction fuel as [|fuel IH]; intros m outs Hm Hf; [pose proof (outs_bound m outs Hm); lia|].
  cbn [merge_all]. destruct (merge_peek_ok m outs Hm) as (i & c & Hi & Hc & Hp & Hok & Hmin).
  destruct (decide (cur c < n)) as [Hn|Hn].
  - destruct (merge_item_ok m outs i c Hm Hi Hc Hok Hp Hmin Hn) as (d & a & m1 & Hu & -> & Hm1). cbn [mbind Result_bind].
    destruct (IH m1 _ Hm1) as (xs & items & m' & -> & Hxs & Hm' & Hlen & Hall); [rewrite length_app; cbn; lia|].
    rewrite <- app_assoc in Hm', Hall. exists ((i, cur c) :: xs), ((cur c, a) :: items), m'. split; [done|].
    split; [|done]. constructor; [|done]. split; [done|]. exists (data (offsetted c)), d. split; [by destruct Hok as (_ & _ & _ & ?)|done].
  - destruct (merge_end_ok m outs i c Hm Hi Hc Hp Hmin) as (m1 & -> & Hm1 & Hlen & Hall); [destruct Hok as (_ & ? & _); lia|].
    cbn [mbind Result_bind]. exists [], [], m1. rewrite app_nil_r. split; [done|]. by split; [constructor|].
Qed.

(** The offsets that the partitions have in the merged data. *)
Definition merged_of (outs : list (nat * nat)) : list Z := (λ q, wrapu w (lens (before q outs))) <$> seq 0 (n + 1).

Lemma merge_inv_merged m outs : merge_inv m outs → length (merged_offsets m) = n + 1 → merged_offsets m = merged_of outs.
Proof.
  intros Hm Hlen. apply list_eq. intros q. unfold merged_of. rewrite list_lookup_fmap. destruct (merged_offsets m !! q) as [o|] eqn:E.
  - rewrite lookup_seq_lt by (apply lookup_lt_Some in E; lia). cbn. f_equal. by apply (mi_merged m outs Hm).
  - apply lookup_ge_None in E. by rewrite lookup_seq_ge by lia.
Qed.

Lemma merge_run_ok (os : list Offsetted) :
  os ≠ [] → offsets <$> os = offss → (∀ j o, os !! j = Some o → dinv j (seg_at j 0) (data o)) →
  ∃ outs items m', (m ← merge_new n os; merge_all (S (length offss * n)) m) = Ok (items, m') ∧
    NoDup outs ∧ (∀ x, x ∈ outs ↔ is_seg x) ∧ StronglySorted (λ x y : nat * nat, x.2 ≤ y.2) outs ∧
    Forall2 item_of outs items ∧ merged_offsets m' = merged_of outs.
Proof using offs_len use_law.
  intros Hne Hos Hd. destruct (merge_new_ok os Hne Hos Hd) as (m & -> & Hm). cbn [mbind Result_bind].
  destruct (merge_all_ok (S (length offss * n)) m [] Hm) as (xs & items & m' & -> & Hxs & Hm' & Hlen & Hall); [cbn [length]; lia|].
  cbn [app] in *. exists xs, items, m'. split; [done|]. split; [apply (mi_nodup _ _ Hm')|]. split.
  - intros x. split; [|by apply Hall]. intros Hx. by apply (proj1 (Forall_forall _ _) (mi_outs _ _ Hm')).
  - split; [apply (mi_order _ _ Hm')|]. split; [done|]. by apply merge_inv_merged.
Qed.

(** C14: merging data by their offsets visits each non-empty partition of each of them
    exactly once, partitions in ascending order, uses each of the data from one offset
    to the next, and leaves as merged offsets the sums of the lengths before each
    partition. *)
Theorem merge_visits_partitions (os : list Offsetted) :
  os ≠ [] → offsets <$> os = offss → (∀ j o, os !! j = Some o → dinv j (seg_at j 0) (data o)) →
  ∃ outs items m', (m ← merge_new n os; merge_all (S (length offss * n)) m) = Ok (items, m') ∧
    NoDup outs ∧ (∀ x, x ∈ outs ↔ is_seg x) ∧ StronglySorted (λ x y : nat * nat, x.2 ≤ y.2) outs ∧
    Forall2 item_of outs items ∧ merged_offsets m' = merged_of outs.
Proof using offs_len use_law. apply merge_run_ok. Qed.

End Offsetted.

Module OffsettedSample.

(** Two files of three partitions, the user reads them from left to right. *)
Definition files : list (Offsetted (T:=Z)) := [mkOffsetted [0; 1; 1; 3]%Z 0%Z; mkOffsetted [0; 0; 2; 2]%Z 0%Z].

Definition read (pos : Z) (range : Z * Z) : Result (Z * (Z * Z)) := Ok ((pos + (range.2 - range.1))%Z, range).

Lemma read_law : ∀ j p d, is_seg 3 (offsets <$> files) (j, p) → d = seg_at (offsets <$> files) j p →
  ∃ d' a, read d (seg_range (offsets <$> files) j p) = Ok (d', a) ∧ d' = seg_at (offsets <$> files) j (p + 1).
Proof. intros j p d _ ->. eexists _, _. split; [done|]. cbn. lia. Qed.

Lemma merge_visits_partitions_witness :
  ∃ outs items m', (m ← merge_new 3 files; merge_all 64 read (S (2 * 3)) m) = Ok (items, m') ∧
    NoDup outs ∧ (∀ x, x ∈ outs ↔ is_seg 3 (offsets <$> files) x) ∧ StronglySorted (λ x y : nat * nat, x.2 ≤ y.2) outs ∧
    Forall2 (item_of (offsets <$> files) (λ j z d, d = z) read) outs items ∧ merged_offsets m' = merged_of 64 3 (offsets <$> files) outs.
Proof.
  assert (Forall (λ o, length o = 3 + 1) (offsets <$> files)) as Hl by (vm_compute; repeat constructor).
  refine (merge_visits_partitions 64 3 (offsets <$> files) (λ j z d, d = z) read Hl read_law files ltac:(done) eq_refl _).
  intros j o Ho. destruct j as [|[|j]]; cbn in Ho; [by injection Ho as <-..|done].
Defined.

Example merged : ('(items, m) ← (m ← merge_new 3 files; merge_all 64 read 7 m); Ok (items, merged_offsets m)) =
  Ok ([(0%nat, (0, 1)); (1%nat, (0, 2)); (2%nat, (1, 3))], [0; 1; 3; 5])%Z.
Proof. reflexivity. Qed.

End OffsettedSample.
