(* ===== verification/ShufflePartitioning.v ===== *)
(** * Partitions of rows

    native-engine/datafusion-ext-plans/src/shuffle/mod.rs: which output partition a row of a
    shuffled batch goes to, by hash, in turns, or by ranges.  DataFusion's expressions and
    arrow's row converter are the arguments [evaluate], [expr_type] and [convert_columns].

    [get_partition_rank]: for ascending bounds the linear and the binary search find the
    number of bounds below the key; [hash_partition_by_value]: the partition of a row is a
    function of its key values alone; [robin_ids_ok]: turns. *)

From S2P Require Import Prelude MachineInt Joins SortKeys Arrow ArrowRef BatchSerde SparkHash HashArrays.

Set Default Proof Using "Type".

Local Abbreviation bytes := (list Z).

(** ** Range bounds *)

(** The state is [(low, high)]; [>>] is the arithmetic shift. *)
Definition search_step (rows : list bytes) (target : bytes) (s : Z * Z) : Result (Z * Z + nat) :=
  let '(low, high) := s in
  if bool_decide (low <= high)%Z then
    let mid := Z.shiftr (low + high) 1 in
    mid_val ← index rows (Z.to_nat mid);
    Ok (if bytes_lt mid_val target then inl (mid + 1, high)%Z
        else if bytes_lt target mid_val then inl (low, mid - 1)%Z
        else inr (Z.to_nat mid))
  else Ok (inr (Z.to_nat low)).

Definition binary_search (rows : list bytes) (target : bytes) (from_index to_index : Z) : Result nat :=
  rloop (S (length rows)) (search_step rows target) (from_index, to_index - 1)%Z.

Definition get_partition (key_row : bytes) (bound_rows : list bytes) (ascending : bool) : Result Z :=
  let num_rows := length bound_rows in
  partition ←
    (if decide (num_rows ≤ 128) then
       rwhileM num_rows
         (λ partition, if decide (partition < num_rows) then b ← index bound_rows partition; Ok (bytes_lt b key_row) else Ok false)
         (λ partition, Ok (partition + 1)) 0
     else
       partition ← binary_search bound_rows key_row 0 (Z.of_nat num_rows);
       Ok (if decide (num_rows < partition) then num_rows else partition));
  Ok (u32 (Z.of_nat (if ascending then partition else num_rows - partition))).

(** The number of bounds below a key. *)
Definition rank (key : bytes) (bounds : list bytes) : nat := length (filter (λ b, bytes_lt b key = true) bounds).

Lemma bytes_lt_irrefl a : bytes_lt a a = false.
Proof. change (bytes_le a a). done. Qed.

Lemma bytes_lt_trans a b c : bytes_le a b → bytes_lt b c = true → bytes_lt a c = true.
Proof.
  intros Hab Hbc. destruct (bytes_lt a c) eqn:E; [done|]. change (bytes_le c a) in E.
  assert (bytes_le c b) as Hcb by (by etrans). unfold bytes_le in Hcb. congruence.
Qed.

(** The only number that separates the bounds below the key from the others. *)
Lemma rank_eq key bounds r :
  r ≤ length bounds → (∀ i b, bounds !! i = Some b → bytes_lt b key = bool_decide (i < r)) → rank key bounds = r.
Proof.
  intros Hr Hb. unfold rank. rewrite <- (take_drop r bounds), filter_app, filter_all, filter_none.
  - rewrite app_nil_r, length_take. lia.
  - intros b [i Hi]%list_elem_of_lookup. rewrite lookup_drop in Hi. rewrite (Hb _ _ Hi), bool_decide_eq_true. lia.
  - intros b [i Hi]%list_elem_of_lookup. apply lookup_take_Some in Hi as [Hi Hlt]. rewrite (Hb _ _ Hi). by apply bool_decide_eq_true.
Qed.

Lemma StronglySorted_lookup_1 {A} (R : relation A) (l : list A) i j x y :
  StronglySorted R l → i < j → l !! i = Some x → l !! j = Some y → R x y.
Proof.
  intros Hs. revert i j. induction Hs as [|a l Hs IH Ha]; intros [|i] [|j] Hij Hx Hy; try done; try lia; cbn in *.
  - injection Hx as ->. by apply (Forall_lookup_1 _ _ _ _ Ha Hy).
  - apply (IH i j); [lia|done..].
Qed.

Definition ascending_bounds (bounds : list bytes) : Prop := StronglySorted (λ a b, bytes_lt a b = true) bounds.

Lemma binary_search_ok bounds key :
  ascending_bounds bounds → binary_search bounds key 0 (Z.of_nat (length bounds)) = Ok (rank key bounds).
Proof.
  intros Hs. unfold binary_search.
  destruct (rloop_inv
    (λ '(low, high), (0 <= low <= high + 1)%Z ∧ (high < Z.of_nat (length bounds))%Z ∧
       ∀ i b, bounds !! i = Some b → (Z.of_nat i < low → bytes_lt b key = true)%Z ∧ (high < Z.of_nat i → bytes_lt key b = true)%Z)
    (λ '(low, high), Z.to_nat (high + 1 - low)) (λ r, r = rank key bounds)
    (search_step bounds key) (S (length bounds)) (0, Z.of_nat (length bounds) - 1)%Z) as (r & -> & ->); [| | |done].
  - split; [lia|]. split; [lia|]. intros i b Hi%lookup_lt_Some. split; intros; lia.
  - lia.
  - intros [low high] (Hlow & Hhigh & Hb). unfold search_step. case_bool_decide as Hc.
    2:{ right. eexists. split; [done|]. symmetry. apply rank_eq; [lia|]. intros i b Hi. destruct (Hb i b Hi) as [H1 H2].
        case_bool_decide; [apply H1; lia|]. apply bytes_lt_le, H2. lia. }
    rewrite Z.shiftr_div_pow2 by done. change (2 ^ 1)%Z with 2%Z. set (mid := ((low + high) / 2)%Z).
    assert (low <= mid <= high)%Z as Hmid by (unfold mid; split; [apply Z.div_le_lower_bound|apply Z.div_le_upper_bound]; lia).
    destruct (lookup_lt_is_Some_2 bounds (Z.to_nat mid)) as [bm Hbm]; [lia|].
    rewrite (proj2 (index_Ok _ _ _) Hbm). cbn [mbind Result_bind].
    assert (∀ i b, bounds !! i = Some b → (Z.of_nat i < mid → bytes_lt b bm = true)%Z ∧ (mid < Z.of_nat i → bytes_lt bm b = true)%Z) as Hord.
    { intros i b Hi. split; intros Him; [apply (StronglySorted_lookup_1 _ _ i (Z.to_nat mid) _ _ Hs)|apply (StronglySorted_lookup_1 _ _ (Z.to_nat mid) i _ _ Hs)]; (done || lia). }
    destruct (bytes_lt bm key) eqn:E1; [|destruct (bytes_lt key bm) eqn:E2].
    + left. eexists. split; [done|]. split; [|lia]. split; [lia|]. split; [lia|]. intros i b Hi. destruct (Hb i b Hi) as [H1 H2].
      destruct (Hord i b Hi) as [O1 O2]. split; [|apply H2]. intros Him.
      destruct (decide (Z.of_nat i = mid)) as [Heq|Hne].
      * assert (b = bm) as -> by (rewrite <- Heq, Nat2Z.id in Hbm; congruence). done.
      * apply (bytes_lt_trans _ bm); [apply bytes_lt_le, O1; lia|done].
    + left. eexists. split; [done|]. split; [|lia]. split; [lia|]. split; [lia|]. intros i b Hi. destruct (Hb i b Hi) as [H1 H2].
      destruct (Hord i b Hi) as [O1 O2]. split; [apply H1|]. intros Him.
      destruct (decide (Z.of_nat i = mid)) as [Heq|Hne].
      * assert (b = bm) as -> by (rewrite <- Heq, Nat2Z.id in Hbm; congruence). done.
      * apply (bytes_lt_trans _ bm); [by apply bytes_lt_le|apply O2; lia].
    + right. eexists. split; [done|]. assert (key = bm) as -> by (apply (anti_symm bytes_le); done).
      symmetry. apply rank_eq; [lia|]. intros i b Hi. destruct (Hord i b Hi) as [O1 O2]. case_bool_decide as Him.
      * apply O1. lia.
      * destruct (decide (Z.of_nat i = mid)) as [Heq|Hne].
        -- assert (b = bm) as -> by (rewrite <- Heq, Nat2Z.id in Hbm; congruence). apply bytes_lt_irrefl.
        -- apply bytes_lt_le, O2. lia.
Qed.

Lemma rank_le key bounds : rank key bounds ≤ length bounds.
Proof. apply length_filter. Qed.

(** The bounds below a key come first. *)
Lemma rank_lookup bounds key i b :
  ascending_bounds bounds → bounds !! i = Some b → bytes_lt b key = bool_decide (i < rank key bounds).
Proof.
  intros Hs. revert i. induction Hs as [|a bounds Hs IH Ha]; intros i Hi; [done|].
  assert (rank key (a :: bounds) = if bytes_lt a key then S (rank key bounds) else 0) as Hr.
  { unfold rank. rewrite filter_cons. destruct (bytes_lt a key) eqn:E; [by rewrite decide_True|]. rewrite decide_False by done.
    rewrite filter_none; [done|]. intros x Hx Hxk. apply (proj1 (Forall_forall _ _) Ha) in Hx.
    assert (bytes_lt a key = true) by (by apply (bytes_lt_trans _ x); [apply bytes_lt_le|]). congruence. }
  rewrite Hr. destruct i as [|i]; cbn in Hi.
  - injection Hi as ->. by destruct (bytes_lt b key).
  - rewrite (IH i Hi). destruct (bytes_lt a key) eqn:E; [apply bool_decide_ext; lia|]. rewrite (bool_decide_eq_false_2 (S i < 0)) by lia.
    apply bool_decide_eq_false. intros Hlt. specialize (IH i Hi). rewrite bool_decide_eq_true_2 in IH by done.
    assert (bytes_lt a b = true) by (by apply (Forall_lookup_1 _ _ _ _ Ha Hi)).
    assert (bytes_lt a key = true) by (by apply (bytes_lt_trans _ b); [apply bytes_lt_le|]). congruence.
Qed.

Lemma linear_search_ok bounds key fuel p :
  ascending_bounds bounds → p ≤ rank key bounds → rank key bounds ≤ p + fuel →
  rwhileM fuel (λ partition, if decide (partition < length bounds) then b ← index bounds partition; Ok (bytes_lt b key) else Ok false)
    (λ partition, Ok (partition + 1)) p = Ok (rank key bounds).
Proof.
  intros Hs. revert p. induction fuel as [|fuel IH]; intros p Hp Hf; cbn [rwhileM]; case_decide as Hlt; cbn [mbind Result_bind].
  - destruct (lookup_lt_is_Some_2 bounds p Hlt) as [b Hb]. rewrite (proj2 (index_Ok _ _ _) Hb). cbn [mbind Result_bind].
    rewrite (rank_lookup bounds key p b Hs Hb), bool_decide_eq_false_2 by lia. do 2 f_equal. lia.
  - do 2 f_equal. lia.
  - destruct (lookup_lt_is_Some_2 bounds p Hlt) as [b Hb]. rewrite (proj2 (index_Ok _ _ _) Hb). cbn [mbind Result_bind].
    rewrite (rank_lookup bounds key p b Hs Hb). case_bool_decide; [apply IH; lia|]. do 2 f_equal. lia.
  - pose proof (rank_le key bounds). do 2 f_equal. lia.
Qed.

Lemma get_partition_ok key bounds ascending :
  ascending_bounds bounds → (Z.of_nat (length bounds) < 2 ^ 32)%Z →
  get_partition key bounds ascending =
    Ok (Z.of_nat (if ascending then rank key bounds else length bounds - rank key bounds)).
Proof.
  intros Hs Hlen. unfold get_partition. pose proof (rank_le key bounds) as Hr.
  assert (∀ r, r ≤ length bounds → u32 (Z.of_nat r) = Z.of_nat r) as Hu by (intros r Hle; apply wrapu_id; unfold in_u; lia).
  case_decide.
  - rewrite linear_search_ok by (done || lia). cbn [mbind Result_bind]. by rewrite Hu by (destruct ascending; lia).
  - rewrite binary_search_ok by done. cbn [mbind Result_bind]. rewrite decide_False by lia. cbn [mbind Result_bind].
    by rewrite Hu by (destruct ascending; lia).
Qed.

(** For strictly ascending bounds, the linear search (up to 128 bounds) and the binary
    search both terminate within the bounds and give the number of bounds below the key,
    or what is left of them for a descending order. *)
Theorem get_partition_rank key bounds ascending :
  ascending_bounds bounds → (Z.of_nat (length bounds) < 2 ^ 32)%Z →
  get_partition key bounds ascending =
    Ok (Z.of_nat (if ascending then rank key bounds else length bounds - rank key bounds)).
Proof. apply get_partition_ok. Qed.

(** ** Partitionings *)

(** [i32::rem_euclid]: fails for zero and for the only quotient out of range. *)
Definition rem_euclid (a b : Z) : Result Z :=
  if bool_decide (b = 0%Z) then Panic
  else if bool_decide (a = - 2 ^ 31 ∧ b = -1)%Z then Panic
  else Ok (a mod Z.abs b)%Z.

Definition evaluate_partition_ids (hashes : list Z) (num_partitions : nat) : Result (list Z) :=
  hashes ← rmapM (λ h, rem_euclid h (i32 (Z.of_nat num_partitions))) hashes;
  Ok (map u32 hashes).

Section Partitionings.
Context {V : Type} `{Ops : ArrowOps} {Expr SortOptions : Type}.

Local Abbreviation Batch := (RecordBatch (V:=V)).

Inductive Partitioning :=
  | RoundRobinPartitioning (n : nat)
  | HashPartitioning (exprs : list Expr) (n : nat)
  | SinglePartitioning
  | RangePartitioning (sort_exprs : list (Expr * SortOptions)) (n : nat) (bounds : list bytes).

Definition partition_count (p : Partitioning) : nat :=
  match p with
  | RoundRobinPartitioning n | HashPartitioning _ n | RangePartitioning _ n _ => n
  | SinglePartitioning => 1
  end.

Context (evaluate : Expr → Batch → Result Arrow.Array) (expr_type : Expr → Batch → Result DataType)
  (convert_columns : list (DataType * SortOptions) → list Arrow.Array → Result (list bytes)).

Definition evaluate_hashes (p : Partitioning) (batch : Batch) : Result (list Z) :=
  match p with
  | HashPartitioning exprs _ =>
      arrays ← rmapM (λ expr, evaluate expr batch) exprs;
      a ← index arrays 0;
      create_murmur3_hashes (alen a) arrays 42
  | _ => Panic
  end.

Definition evaluate_robin_partition_ids (p : Partitioning) (batch : Batch) (start_rows : nat) : Result (list Z) :=
  rmapM (λ i, _ ← rassert (bool_decide (partition_count p ≠ 0)); Ok (u32 (Z.of_nat ((i + start_rows) mod partition_count p))))
    (seq 0 (num_rows batch)).

Definition evaluate_range_partition_ids (batch : Batch) (sort_expr : list (Expr * SortOptions)) (bound_rows : list bytes)
    : Result (list Z) :=
  fields ← rmapM (λ '(expr, options), t ← expr_type expr batch; Ok (t, options)) sort_expr;
  key_cols ← rmapM (λ '(expr, _), evaluate expr batch) sort_expr;
  key_rows ← convert_columns fields key_cols;
  rmapM (λ key_row, get_partition key_row bound_rows true) key_rows.

(** [.expect(..)] *)
Definition expect {A} (r : Result A) : Result A := match r with Err _ => Panic | r => r end.

(** The ids of one batch in [sort_batches_by_partition_id]; [start_rows] is advanced for turns. *)
Definition partition_ids (p : Partitioning) (start_rows : nat) (batch : Batch) : Result (list Z * nat) :=
  match p with
  | HashPartitioning _ _ =>
      hashes ← expect (evaluate_hashes p batch);
      ids ← evaluate_partition_ids hashes (partition_count p);
      Ok (ids, start_rows)
  | RoundRobinPartitioning _ =>
      ids ← evaluate_robin_partition_ids p batch start_rows;
      _ ← rassert (bool_decide (partition_count p ≠ 0));
      Ok (ids, (start_rows + num_rows batch) mod partition_count p)
  | RangePartitioning sort_expr _ bounds =>
      ids ← expect (evaluate_range_partition_ids batch sort_expr bounds);
      Ok (ids, start_rows)
  | SinglePartitioning => Panic
  end.

(** ** The partition of a row *)

(** Spark's [pmod] of a hash. *)
Definition hash_partition (n : nat) (key : list (DataType * Val)) : Z :=
  (foldl (λ hash '(d, v), hash_val murmur3 d v hash) 42 key mod Z.of_nat n)%Z.

(** The values of a row in the key columns. *)
Definition key_values (arrays : list Arrow.Array) (i : nat) : list (DataType * Val) :=
  (λ a, (data_type a, nth i (rows a) VNull)) <$> arrays.

Lemma hash_partition_row n arrays i :
  hash_partition n (key_values arrays i) = (row_hash murmur3 arrays 42 i mod Z.of_nat n)%Z.
Proof.
  unfold hash_partition, row_hash, key_values. f_equal. generalize 42%Z. induction arrays as [|a arrays IH]; intros h; [done|].
  cbn. apply IH.
Qed.

Lemma evaluate_partition_ids_ok hashes n :
  0 < n → (Z.of_nat n < 2 ^ 31)%Z → evaluate_partition_ids hashes n = Ok ((λ h, h mod Z.of_nat n)%Z <$> hashes).
Proof.
  intros Hn Hlt. unfold evaluate_partition_ids. assert (i32 (Z.of_nat n) = Z.of_nat n) as -> by (apply wraps_id; unfold in_s; lia).
  rewrite (rmapM_pure _ (λ h, h mod Z.of_nat n)%Z).
  - cbn [mbind Result_bind]. f_equal. rewrite <- list_fmap_compose. apply list_fmap_ext. intros _ h _. unfold compose.
    pose proof (Z.mod_pos_bound h (Z.of_nat n)). apply wrapu_id. unfold in_u. lia.
  - intros h _. unfold rem_euclid. rewrite !bool_decide_eq_false_2 by lia. by rewrite Z.abs_eq by lia.
Qed.

(** What is required of the key columns of a batch. *)
Definition key_columns (exprs : list Expr) (batch : Batch) (arrays : list Arrow.Array) : Prop :=
  arrays ≠ [] ∧ rmapM (λ expr, evaluate expr batch) exprs = Ok arrays ∧
  Forall (λ a, wf a ∧ hashable_column (data_type a) ∧ alen a = num_rows batch) arrays.

Lemma hash_ids_ok exprs n start batch arrays :
  0 < n → (Z.of_nat n < 2 ^ 31)%Z → key_columns exprs batch arrays →
  partition_ids (HashPartitioning exprs n) start batch =
    Ok ((λ i, hash_partition n (key_values arrays i)) <$> seq 0 (num_rows batch), start).
Proof.
  intros Hn Hlt (Hne & He & Ha). cbn [partition_ids partition_count evaluate_hashes]. rewrite He. cbn [mbind Result_bind].
  destruct arrays as [|a arrays]; [done|]. cbn [index lookup list_lookup mbind Result_bind].
  assert (alen a = num_rows batch) as -> by (by apply Forall_cons in Ha as ((_ & _ & ?) & _)).
  rewrite create_murmur3_hashes_ok by done. cbn [expect mbind Result_bind]. rewrite evaluate_partition_ids_ok by done.
  cbn [mbind Result_bind]. do 2 f_equal. rewrite <- list_fmap_compose. apply list_fmap_ext. intros _ i _. unfold compose.
  by rewrite hash_partition_row.
Qed.

Lemma robin_ids_ok n start batch :
  0 < n → (Z.of_nat n < 2 ^ 32)%Z →
  partition_ids (RoundRobinPartitioning n) start batch =
    Ok ((λ i, Z.of_nat ((start + i) mod n)) <$> seq 0 (num_rows batch), (start + num_rows batch) mod n).
Proof.
  intros Hn Hlt. cbn [partition_ids]. unfold evaluate_robin_partition_ids. cbn [partition_count].
  rewrite bool_decide_eq_true_2 by lia. cbn [rassert mbind Result_bind].
  rewrite (rmapM_pure _ (λ i, Z.of_nat ((start + i) mod n))); [done|]. intros i _. do 2 f_equal.
  rewrite Nat.add_comm. apply wrapu_id. unfold in_u. pose proof (Nat.mod_upper_bound (start + i) n). lia.
Qed.

Lemma range_ids_ok sort_exprs n bounds start batch fields cols keys :
  rmapM (λ '(expr, options), t ← expr_type expr batch; Ok (t, options)) sort_exprs = Ok fields →
  rmapM (λ '(expr, _), evaluate expr batch) sort_exprs = Ok cols → convert_columns fields cols = Ok keys →
  ascending_bounds bounds → (Z.of_nat (length bounds) < 2 ^ 32)%Z →
  partition_ids (RangePartitioning sort_exprs n bounds) start batch = Ok ((λ k, Z.of_nat (rank k bounds)) <$> keys, start).
Proof.
  intros Hf Hc Hk Hs Hlen. cbn [partition_ids]. unfold evaluate_range_partition_ids. rewrite Hf, Hc. cbn [mbind Result_bind].
  rewrite Hk. cbn [mbind Result_bind]. rewrite (rmapM_pure _ (λ k, Z.of_nat (rank k bounds))); [done|].
  intros k _. by rewrite get_partition_ok.
Qed.

(** C18: hash partitioning computes, for every row, the non-negative remainder of the
    Murmur3 hash with seed 42 of the values in its key columns, a partition number that
    depends on these values alone. *)
Theorem hash_partition_by_value exprs n start batch arrays :
  0 < n → (Z.of_nat n < 2 ^ 31)%Z → key_columns exprs batch arrays →
  partition_ids (HashPartitioning exprs n) start batch =
    Ok ((λ i, hash_partition n (key_values arrays i)) <$> seq 0 (num_rows batch), start) ∧
  ∀ i, (0 <= hash_partition n (key_values arrays i) < Z.of_nat n)%Z.
Proof.
  intros Hn Hlt Hk. split; [by apply hash_ids_ok|]. intros i. apply Z.mod_pos_bound. lia.
Qed.

End Partitionings.

Module PartitioningSample.

(** Three bounds, and 200 bounds for the binary search. *)
Definition bounds200 : list bytes := (λ i, [0; Z.of_nat i]%Z) <$> seq 0 200.

Example searches :
  get_partition [20]%Z [[10]; [20]; [30]]%Z true = Ok 1%Z ∧ get_partition [25]%Z [[10]; [20]; [30]]%Z true = Ok 2%Z ∧
  get_partition [0; 77; 1]%Z bounds200 true = Ok 78%Z ∧ get_partition [9]%Z bounds200 true = Ok 200%Z.
Proof. split_and!; vm_compute; reflexivity. Qed.

Lemma get_partition_rank_witness : get_partition [0; 77]%Z bounds200 true = Ok 77%Z.
Proof.
  assert (ascending_bounds bounds200) as Hs.
  { apply StronglySorted_lookup. intros i j x y Hij Hx Hy. unfold bounds200 in *. rewrite list_lookup_fmap in Hx, Hy.
    destruct (seq 0 200 !! i) as [a|] eqn:Ha; [|done]. destruct (seq 0 200 !! j) as [b|] eqn:Hb; [|done].
    cbn [fmap option_fmap option_map] in Hx, Hy. injection Hx as <-. injection Hy as <-.
    apply lookup_seq in Ha as [-> _], Hb as [-> _]. cbn [bytes_lt]. rewrite (bool_decide_eq_false_2 (0 < 0)%Z) by lia.
    rewrite (bool_decide_eq_true_2 (0%Z = 0%Z)) by done. cbn [orb andb]. rewrite bool_decide_eq_true_2 by lia. done. }
  rewrite (get_partition_rank [0; 77]%Z bounds200 true Hs) by (vm_compute; reflexivity). vm_compute. reflexivity.
Defined.

(** An expression is the column that it evaluates to. *)
Definition eval_col (a : Arrow.Array) (_ : RecordBatch (V:=Z)) : Result Arrow.Array := Ok a.

Lemma hash_partition_by_value_witness :
  partition_ids eval_col (λ _ _, Panic) (λ (_ : list (DataType * unit)) _, Panic) (HashPartitioning [sample_i32; sample_str] 7) 0 (mkBatch 3 []) =
    Ok ((λ i, hash_partition 7 (key_values [sample_i32; sample_str] i)) <$> seq 0 3, 0) ∧
  ∀ i, (0 <= hash_partition 7 (key_values [sample_i32; sample_str] i) < 7)%Z.
Proof.
  apply (hash_partition_by_value eval_col _ _ [sample_i32; sample_str] 7 0 (mkBatch 3 []) [sample_i32; sample_str]); [lia|lia|].
  split; [done|]. split; [done|].
  assert (Forall (λ a, hashable_column (data_type a)) [sample_i32; sample_str; sample_list]) as Hh by (repeat constructor).
  pose proof samples_ok as Hs. rewrite Forall_forall in *. intros a Ha. assert (a ∈ [sample_i32; sample_str; sample_list]) as Ha' by set_solver.
  destruct (Hs a Ha') as [[Hw _] Hl]. auto.
Defined.

End PartitioningSample.
