(* ===== verification/PartitionSort.v ===== *)
(** * Sorting staged batches by partition

    native-engine/datafusion-ext-plans/src/shuffle/buffered_data.rs,
    [sort_batches_by_partition_id]: the rows of some batches gathered into one batch in
    the order of their partition ids, and the offsets of the partitions in it.

    [labels] gives every row its partition; [sort_batches_ok] shows that the rows between
    two offsets are the rows of that partition. *)

From stdpp Require Import sorting.
From S2P Require Import Prelude MachineInt RadixSort Joins Selection SortKeys Arrow ShufflePartitioning.

Set Default Proof Using "Type".

Local Abbreviation bytes := (list Z).

(** ** Rows in order of a key *)

Section ByKey.
Context {T : Type} (key : T → nat).

Lemma sorted_by_key_split l q :
  StronglySorted (λ x y, key x ≤ key y) l →
  l = filter (λ x, key x < q) l ++ filter (λ x, key x = q) l ++ filter (λ x, q < key x) l.
Proof.
  induction 1 as [|x l Hs IH Hx]; [done|]. rewrite !filter_cons. rewrite Forall_forall in Hx.
  assert (∀ r, r ≤ key x → filter (λ y, key y < r) l = []) as Hlt.
  { intros r Hr. apply filter_none. intros y Hy. specialize (Hx y Hy). lia. }
  destruct (decide (key x < q)); [|destruct (decide (key x = q))].
  - rewrite !decide_False by lia. cbn. by f_equal.
  - rewrite !decide_False by lia. rewrite Hlt in * by lia. cbn. by f_equal.
  - rewrite !decide_True by lia. rewrite Hlt in * by lia.
    assert (filter (λ y, key y = q) l = []) as Heq by (apply filter_none; intros y Hy; specialize (Hx y Hy); lia).
    rewrite Heq in *. cbn. by f_equal.
Qed.

(** The rows of key [q] lie between the numbers of rows of smaller keys. *)
Lemma sorted_by_key_range l q :
  StronglySorted (λ x y, key x ≤ key y) l →
  take (start key l (S q) - start key l q) (drop (start key l q) l) = filter (λ x, key x = q) l.
Proof.
  intros Hs. rewrite start_S. replace (start key l q + cnt key l q - start key l q) with (cnt key l q) by lia.
  rewrite (sorted_by_key_split l q Hs) at 3. unfold start, cnt. rewrite drop_app_length. by rewrite take_app_length.
Qed.

Lemma start_Permutation l l' q : l ≡ₚ l' → start key l q = start key l' q.
Proof. intros Hp. unfold start. by rewrite Hp. Qed.

End ByKey.

Section PartitionSort.
Context {V : Type} (null : V) (nf : nat) `{Ops : ArrowOps} {Expr SortOptions : Type}.

Local Abbreviation Batch := (RecordBatch (V:=V)).
Local Abbreviation Partitioning := (Partitioning (Expr:=Expr) (SortOptions:=SortOptions)).
Local Abbreviation row_at := (row_at null).
Local Abbreviation batch_rows := (batch_rows null).

Context (evaluate : Expr → Batch → Result Arrow.Array) (expr_type : Expr → Batch → Result DataType)
  (convert_columns : list (DataType * SortOptions) → list Arrow.Array → Result (list bytes)).

Local Abbreviation partition_ids := (partition_ids evaluate expr_type convert_columns).

(** [(part_id, batch_idx, row_idx)] *)
Local Abbreviation Index := (Z * Z * Z)%type.

Definition part_key (t : Index) : nat := Z.to_nat t.1.1.
Definition row_index (t : Index) : nat * nat := (Z.to_nat t.1.2, Z.to_nat t.2).

(** One batch of the iterator behind [partition_indices]. *)
Definition batch_indices (p : Partitioning) (st : list Index * nat) (b : nat * Batch) : Result (list Index * nat) :=
  '(part_ids, start_rows) ← partition_ids p st.2 b.2;
  Ok (st.1 ++ imap (λ row_idx part_id, (part_id, u32 (Z.of_nat b.1), u32 (Z.of_nat row_idx))) part_ids, start_rows).

Definition sort_batches_by_partition_id (batches : list Batch) (p : Partitioning) (current_num_rows partition_id : nat)
    : Result (list Z * Batch) :=
  let num_partitions := partition_count p in
  _ ← rassert (bool_decide (num_partitions ≠ 0));
  let start_rows := Z.to_nat (usize (usize (Z.of_nat partition_id * 1000193) + Z.of_nat current_num_rows)) mod num_partitions in
  '(partition_indices, _) ← rfoldM (batch_indices p) ([], start_rows) (enumerate batches);
  '(partition_indices, part_counts) ← radix_sort_by_key part_key partition_indices (replicate num_partitions 0);
  let '(partition_offsets, offset) :=
    foldl (λ '(offs, offset) part_count, (offs ++ [offset], u32 (offset + u32 (Z.of_nat part_count)))) ([], 0%Z) part_counts in
  il ← create_batch_interleaver batches;
  sorted_batch ← interleave il (row_index <$> partition_indices);
  Ok (partition_offsets ++ [offset], sorted_batch).

(** ** The partition of every row *)

Context (p : Partitioning) (partition_id : nat).

(** The start of a batch whose first row has number [k]. *)
Definition start_rows (k : nat) : nat := (Z.to_nat (Z.of_nat partition_id * 1000193) + k) mod partition_count p.

Definition next_start (start n : nat) : nat :=
  match p with RoundRobinPartitioning c => (start + n) mod c | _ => start end.

(** The code finds a partition for every row of [b]. *)
Definition assignable (b : Batch) : Prop := ∀ start, ∃ ids, partition_ids p start b = Ok (ids, next_start start (num_rows b)) ∧
  length ids = num_rows b ∧ Forall (λ id, 0 <= id < Z.of_nat (partition_count p))%Z ids.

Definition assigned (k : nat) (b : Batch) : list nat :=
  match partition_ids p (start_rows k) b with Ok (ids, _) => Z.to_nat <$> ids | _ => [] end.

(** The rows of some batches with their partitions; the first row has number [k]. *)
Fixpoint labels (k : nat) (bs : list Batch) : list (nat * list V) :=
  match bs with
  | [] => []
  | b :: bs => zip (assigned k b) (batch_rows b) ++ labels (k + num_rows b) bs
  end.

Definition rows_for (q : nat) (l : list (nat * list V)) : list (list V) := (filter (λ x, x.1 = q) l).*2.

Definition total_rows (bs : list Batch) : nat := sum_list_with num_rows bs.

Lemma labels_app k bs1 bs2 : labels k (bs1 ++ bs2) = labels k bs1 ++ labels (k + total_rows bs1) bs2.
Proof.
  revert k. induction bs1 as [|b bs1 IH]; intros k; cbn [labels app total_rows sum_list_with]; [by rewrite Nat.add_0_r|].
  rewrite IH, <- app_assoc. do 3 f_equal. unfold total_rows. lia.
Qed.

Lemma rows_for_app q l1 l2 : rows_for q (l1 ++ l2) = rows_for q l1 ++ rows_for q l2.
Proof. unfold rows_for. by rewrite filter_app, fmap_app. Qed.

Lemma partition_ids_start s s' b ids s1 :
  partition_ids p s b = Ok (ids, s1) → (∀ n, p = RoundRobinPartitioning n → s = s') → ∃ s2, partition_ids p s' b = Ok (ids, s2).
Proof.
  destruct p as [n|exprs n| |es n bounds]; intros Hp Hs.
  - rewrite (Hs n eq_refl) in Hp. by exists s1.
  - cbn [ShufflePartitioning.partition_ids] in *. apply bind_Ok in Hp as (h & -> & Hp). cbn [mbind Result_bind].
    apply bind_Ok in Hp as (ids' & -> & Hp). injection Hp as -> _. by exists s'.
  - done.
  - cbn [ShufflePartitioning.partition_ids] in *. apply bind_Ok in Hp as (h & -> & Hp). injection Hp as -> _. by exists s'.
Qed.

(** [start] is right for turns if the next row has number [k]. *)
Definition start_for (start k : nat) : Prop := ∀ n, p = RoundRobinPartitioning n → start = start_rows k.

Lemma start_for_next start k n : partition_count p ≠ 0 → start_for start k → start_for (next_start start n) (k + n).
Proof.
  intros Hn Hs m Hp. specialize (Hs m Hp). subst start. unfold next_start, start_rows. rewrite Hp in *. cbn [partition_count] in *.
  by rewrite Nat.Div0.add_mod_idemp_l, Nat.add_assoc.
Qed.

Definition index_of (batches : list Batch) (t : Index) (x : nat * list V) : Prop :=
  part_key t = x.1 ∧ position_of null batches (row_index t) x.2.

Lemma batch_labels batches i b ids k :
  batches !! i = Some b → length ids = num_rows b → assigned k b = Z.to_nat <$> ids →
  (Z.of_nat i < 2 ^ 32)%Z → (Z.of_nat (num_rows b) < 2 ^ 32)%Z →
  Forall2 (index_of batches) (imap (λ row_idx part_id, (part_id, u32 (Z.of_nat i), u32 (Z.of_nat row_idx))) ids)
    (zip (assigned k b) (batch_rows b)).
Proof.
  intros Hb Hlen Ha Hi Hn. apply Forall2_same_length_lookup_2.
  - rewrite length_imap, length_zip_with, Ha, length_fmap. unfold Joins.batch_rows. rewrite length_fmap, length_seq. lia.
  - intros r t x Ht Hx. rewrite list_lookup_imap in Ht. destruct (ids !! r) as [id|] eqn:Hid; [|done]. cbn in Ht. injection Ht as <-.
    apply lookup_zip_with_Some in Hx as (q & row & -> & Hq & Hrow). rewrite Ha, list_lookup_fmap, Hid in Hq. injection Hq as <-.
    apply lookup_lt_Some in Hid as Hr. unfold Joins.batch_rows in Hrow. rewrite list_lookup_fmap, lookup_seq_lt in Hrow by lia.
    injection Hrow as <-. split; [done|]. exists b. unfold row_index. cbn [fst snd].
    assert (u32 (Z.of_nat i) = Z.of_nat i) as -> by (apply wrapu_id; unfold in_u; lia).
    assert (u32 (Z.of_nat r) = Z.of_nat r) as -> by (apply wrapu_id; unfold in_u; lia). rewrite !Nat2Z.id. split; [done|]. split; [lia|done].
Qed.

Lemma batch_indices_ok pre bs acc start k :
  partition_count p ≠ 0 → start_for start k → Forall assignable bs →
  (Z.of_nat (length (pre ++ bs)) < 2 ^ 32)%Z → Forall (λ b, Z.of_nat (num_rows b) < 2 ^ 32)%Z bs →
  ∃ acc' start', rfoldM (batch_indices p) (acc, start) (imap (λ i b, (length pre + i, b)) bs) = Ok (acc ++ acc', start') ∧
    Forall2 (index_of (pre ++ bs)) acc' (labels k bs) ∧ Forall (λ t, part_key t < partition_count p) acc'.
Proof.
  intros Hn. revert pre acc start k. induction bs as [|b bs IH]; intros pre acc start k Hs Ha Hlen Hrows.
  - exists [], start. rewrite app_nil_r. split; [done|]. split; constructor.
  - apply Forall_cons in Ha as [Hb Ha]. apply Forall_cons in Hrows as [Hr Hrows].
    rewrite imap_cons. cbn [rfoldM]. rewrite Nat.add_0_r. destruct (Hb start) as (ids & Hids & Hl & Hlt).
    assert (batch_indices p (acc, start) (length pre, b) = Ok (acc ++ imap (λ row_idx part_id,
      (part_id, u32 (Z.of_nat (length pre)), u32 (Z.of_nat row_idx))) ids, next_start start (num_rows b))) as ->.
    { unfold batch_indices. cbn [fst snd]. by rewrite Hids. }
    cbn [mbind Result_bind].
    assert (assigned k b = Z.to_nat <$> ids) as Has.
    { unfold assigned. destruct (partition_ids_start _ (start_rows k) _ _ _ Hids) as [s2 ->]; [|done]. intros m Hm. by apply (Hs m). }
    assert (imap ((λ i b, (length pre + i, b)) ∘ S) bs = imap (λ i y, (length (pre ++ [b]) + i, y)) bs) as ->.
    { apply imap_ext. intros i y _. rewrite length_app. cbn. f_equal. lia. }
    assert ((pre ++ [b]) ++ bs = pre ++ b :: bs) as E by (by rewrite <- app_assoc).
    destruct (IH (pre ++ [b]) (acc ++ imap (λ row_idx part_id, (part_id, u32 (Z.of_nat (length pre)), u32 (Z.of_nat row_idx))) ids)
      (next_start start (num_rows b)) (k + num_rows b)) as (acc' & start' & -> & Hacc & Hkeys); [by apply start_for_next|done|by rewrite E|done|].
    rewrite E in Hacc. rewrite <- app_assoc. eexists _, start'. split; [done|]. cbn [labels]. split.
    + apply Forall2_app; [|done]. eapply batch_labels; [by apply list_lookup_middle|done|done| |done].
      rewrite length_app in Hlen. cbn in Hlen. lia.
    + apply Forall_app. split; [|done]. apply Forall_lookup. intros i t Ht. rewrite list_lookup_imap in Ht.
      destruct (ids !! i) as [id|] eqn:Hid; [|done]. injection Ht as <-. unfold part_key. cbn [fst].
      pose proof (Forall_lookup_1 _ _ _ _ Hlt Hid). cbn in *. lia.
Qed.

Lemma offsets_fold (l : list Index) m a offs :
  (Z.of_nat (length l) < 2 ^ 32)%Z →
  foldl (λ '(offs, offset) part_count, (offs ++ [offset], u32 (offset + u32 (Z.of_nat part_count))))
    (offs, Z.of_nat (start part_key l a)) (cnt part_key l <$> seq a m) =
  (offs ++ ((λ q, Z.of_nat (start part_key l q)) <$> seq a m), Z.of_nat (start part_key l (a + m))).
Proof.
  intros Hl. revert a offs. induction m as [|m IH]; intros a offs; [by rewrite app_nil_r, Nat.add_0_r|].
  assert (cnt part_key l a ≤ length l) as Hc by apply length_filter.
  assert (start part_key l (S a) ≤ length l) as Hs by apply length_filter.
  cbn [seq]. rewrite !fmap_cons. cbn [foldl].
  assert (u32 (Z.of_nat (start part_key l a) + u32 (Z.of_nat (cnt part_key l a))) = Z.of_nat (start part_key l (S a))) as ->.
  { rewrite start_S in *. unfold u32. rewrite (wrapu_id 32 (Z.of_nat (cnt _ _ _))) by (unfold in_u; lia). rewrite wrapu_id by (unfold in_u; lia). lia. }
  rewrite IH, <- app_assoc. by replace (a + S m) with (S a + m) by lia.
Qed.

(** The rows of [b] between two offsets. *)
Definition range_rows (b : Batch) (s e : Z) : list (list V) :=
  row_at (columns b) <$> seq (Z.to_nat s) (Z.to_nat e - Z.to_nat s).

Lemma range_rows_take_drop b s e :
  (0 <= s <= e)%Z → (e <= Z.of_nat (num_rows b))%Z →
  range_rows b s e = take (Z.to_nat e - Z.to_nat s) (drop (Z.to_nat s) (batch_rows b)).
Proof.
  intros Hs He. unfold range_rows, Joins.batch_rows. rewrite <- fmap_drop, <- fmap_take, drop_seq, take_seq. do 2 f_equal. lia.
Qed.

(** [offs] are the offsets of the partitions of the rows [ls] in [b]. *)
Definition partitioned (b : Batch) (offs : list Z) (ls : list (nat * list V)) : Prop :=
  batch_ok b ∧ length (columns b) = nf ∧ num_rows b = length ls ∧ length offs = partition_count p + 1 ∧
  nth 0 offs 0%Z = 0%Z ∧
  ∀ q, q < partition_count p →
    (0 <= nth q offs 0 <= nth (q + 1) offs 0)%Z ∧ (nth (q + 1) offs 0 <= Z.of_nat (num_rows b))%Z ∧
    range_rows b (nth q offs 0%Z) (nth (q + 1) offs 0%Z) ≡ₚ rows_for q ls.

Definition good_batch (b : Batch) : Prop := batch_ok b ∧ length (columns b) = nf ∧ assignable b.

Lemma labels_length k bs : partition_count p ≠ 0 → Forall good_batch bs → length (labels k bs) = total_rows bs.
Proof.
  intros Hn H. revert k. induction H as [|b bs (_ & _ & Hb) _ IH]; intros k; [done|]. cbn [labels total_rows sum_list_with].
  rewrite length_app, IH, length_zip_with. unfold assigned. destruct (Hb (start_rows k)) as (ids & -> & Hl & _).
  rewrite length_fmap, Hl. unfold Joins.batch_rows. rewrite length_fmap, length_seq. unfold total_rows. lia.
Qed.

Lemma range_of_sorted (ts : list Index) (ls : list (nat * list V)) batches q :
  StronglySorted (λ x y, part_key x ≤ part_key y) ts → Forall2 (index_of batches) ts ls →
  take (start part_key ts (S q) - start part_key ts q) (drop (start part_key ts q) ls.*2) = rows_for q ls.
Proof.
  intros Hs H. assert (StronglySorted (λ x y : nat * list V, x.1 ≤ y.1) ls) as Hs'.
  { clear -Hs H. induction H as [|t x ts ls [Ht _] Hts IH]; [constructor|]. apply StronglySorted_cons in Hs as [Ht' Hs].
    constructor; [by apply IH|]. apply Forall_lookup. intros i y Hy. destruct (Forall2_lookup_r _ _ _ _ _ Hts Hy) as (t' & Ht1 & [Ht2 _]).
    pose proof (Forall_lookup_1 _ _ _ _ Ht' Ht1). cbn in *. lia. }
  assert (∀ r, start part_key ts r = start fst ls r) as Hst.
  { intros r. clear -H. unfold start. induction H as [|t x ts ls [Ht _] _ IH]; [done|]. rewrite !filter_cons, Ht. case_decide; cbn; congruence. }
  rewrite !Hst, <- fmap_drop, <- fmap_take, sorted_by_key_range by done. done.
Qed.

Lemma sort_batches_ok batches k :
  0 < partition_count p → batches ≠ [] → Forall good_batch batches →
  (Z.of_nat partition_id * 1000193 + Z.of_nat k < 2 ^ 64)%Z →
  (Z.of_nat (length batches) < 2 ^ 32)%Z → (Z.of_nat (total_rows batches) < 2 ^ 32)%Z →
  ∃ offs sorted, sort_batches_by_partition_id batches p k partition_id = Ok (offs, sorted) ∧
    partitioned sorted offs (labels k batches).
Proof.
  intros Hn Hne Hgood Hpid Hbs Htot. unfold sort_batches_by_partition_id. rewrite bool_decide_eq_true_2 by lia.
  cbn [rassert mbind Result_bind]. set (n := partition_count p) in *.
  assert (Z.to_nat (usize (usize (Z.of_nat partition_id * 1000193) + Z.of_nat k)) mod n = start_rows k) as ->.
  { unfold start_rows, usize. rewrite (wrapu_id 64 (_ * _)), wrapu_id by (unfold in_u; lia). unfold n. f_equal. lia. }
  destruct (batch_indices_ok [] batches [] (start_rows k) k) as (ts0 & s1 & Hf & Hts0 & Hkeys).
  { unfold n in Hn. lia. } { by intros m _. } { eapply Forall_impl; [exact Hgood|]. by intros b (_ & _ & ?). } { done. }
  { apply Forall_forall. intros b Hb. assert (num_rows b ≤ total_rows batches); [|lia]. unfold total_rows.
    clear -Hb. induction Hb as [b l|b c l _ IH]; cbn [sum_list_with]; lia. }
  cbn [app length] in Hf, Hts0. unfold enumerate. assert (imap (λ i b, (0 + i, b)) batches = imap pair batches) as E by done.
  rewrite E in Hf. rewrite Hf. cbn [mbind Result_bind]. fold n in Hkeys.
  destruct (radix_sort_by_key_ok part_key ts0 n Hkeys) as (ts & counts & -> & Hperm & Hsort & Hlen & Hcnt). cbn [mbind Result_bind].
  pose proof (Forall2_length _ _ _ Hts0) as Hl0. pose proof (Permutation_length Hperm) as Hl1.
  assert (length (labels k batches) = total_rows batches) as Hll by (apply labels_length; [unfold n in Hn; lia|done]).
  assert (counts = cnt part_key ts0 <$> seq 0 n) as ->.
  { apply list_eq. intros q. rewrite list_lookup_fmap. destruct (decide (q < n)) as [Hq|Hq].
    - rewrite lookup_seq_lt by done. by apply Hcnt.
    - rewrite lookup_ge_None_2, lookup_seq_ge by lia. done. }
  pose proof (offsets_fold ts0 n 0 [] ltac:(lia)) as Hoffs. rewrite start_0 in Hoffs. change (Z.of_nat 0) with 0%Z in Hoffs. cbn [Nat.add app] in Hoffs. rewrite Hoffs. clear Hoffs.
  assert (∃ ls, ls ≡ₚ labels k batches ∧ Forall2 (index_of batches) ts ls) as (ls & Hls & Hts).
  { destruct (Permutation_Forall2 (Permutation_sym Hperm) Hts0) as (ls & ? & ?). by exists ls. }
  rewrite (create_batch_interleaver_ok nf) by (done || (eapply Forall_impl; [exact Hgood|]; by intros b (_ & ? & _))).
  cbn [mbind Result_bind].
  destruct (interleave_ok null nf batches (row_index <$> ts) ls.*2) as (sorted & -> & Hok & Hrows & Hcols & Hr).
  { eapply Forall_impl; [exact Hgood|]. by intros b (? & ? & _). }
  { rewrite Forall2_fmap_l, Forall2_fmap_r. eapply Forall2_impl; [exact Hts|]. by intros t x [_ ?]. }
  cbn [mbind Result_bind]. eexists _, sorted. split; [done|]. rewrite length_fmap in Hrows.
  pose proof (Permutation_length Hls) as Hl2. pose proof (Forall2_length _ _ _ Hts) as Hl3.
  set (offs := ((λ q, Z.of_nat (start part_key ts0 q)) <$> seq 0 n) ++ [Z.of_nat (start part_key ts0 n)]).
  assert (∀ q, q ≤ n → nth q offs 0%Z = Z.of_nat (start part_key ts0 q)) as Hat.
  { intros q Hq. unfold offs. rewrite nth_lookup. destruct (decide (q < n)).
    - rewrite lookup_app_l, list_lookup_fmap, lookup_seq_lt by (by rewrite ?length_fmap, ?length_seq). done.
    - rewrite lookup_app_r by (rewrite length_fmap, length_seq; lia). rewrite length_fmap, length_seq.
      replace (q - n) with 0 by lia. cbn. by replace q with n by lia. }
  split; [done|]. split; [done|]. split; [lia|]. split; [unfold offs; rewrite length_app, length_fmap, length_seq; done|].
  split; [by rewrite Hat, start_0 by lia|]. intros q Hq. fold n in Hq. rewrite !Hat by lia. rewrite Nat.add_1_r.
  pose proof (start_mono part_key ts0 q (S q) ltac:(lia)) as Hmono. pose proof (start_mono part_key ts0 (S q) n ltac:(lia)) as Hmono2.
  rewrite (start_all part_key ts0 n Hkeys) in Hmono2. split; [lia|]. split; [lia|]. rewrite range_rows_take_drop by lia.
  rewrite Hr, !Nat2Z.id, <- !(start_Permutation part_key ts ts0) by done. rewrite (range_of_sorted ts ls batches) by done.
  unfold rows_for. by rewrite Hls.
Qed.

End PartitionSort.

(** ** Batches that can be assigned *)

Section Assignable.
Context {V : Type} `{Ops : ArrowOps} {Expr SortOptions : Type}.
Context (evaluate : Expr → RecordBatch (V:=V) → Result Arrow.Array) (expr_type : Expr → RecordBatch (V:=V) → Result DataType)
  (convert_columns : list (DataType * SortOptions) → list Arrow.Array → Result (list bytes)).

Lemma robin_assignable n b :
  0 < n → (Z.of_nat n < 2 ^ 32)%Z → assignable evaluate expr_type convert_columns (RoundRobinPartitioning n) b.
Proof.
  intros Hn Hlt start. rewrite robin_ids_ok by done. eexists. split; [done|]. split; [by rewrite length_fmap, length_seq|].
  apply Forall_fmap, Forall_forall. intros i _. cbn. pose proof (Nat.mod_upper_bound (start + i) n). lia.
Qed.

Lemma hash_assignable exprs n b arrays :
  0 < n → (Z.of_nat n < 2 ^ 31)%Z → key_columns evaluate exprs b arrays →
  assignable evaluate expr_type convert_columns (HashPartitioning exprs n) b.
Proof.
  intros Hn Hlt Hk start. rewrite (hash_ids_ok _ _ _ _ _ _ _ arrays) by done. eexists. split; [done|].
  split; [by rewrite length_fmap, length_seq|]. apply Forall_fmap, Forall_forall. intros i _. cbn. apply Z.mod_pos_bound. lia.
Qed.

Lemma range_assignable sort_exprs n bounds b fields cols keys :
  rmapM (λ '(expr, options), t ← expr_type expr b; Ok (t, options)) sort_exprs = Ok fields →
  rmapM (λ '(expr, _), evaluate expr b) sort_exprs = Ok cols → convert_columns fields cols = Ok keys → length keys = num_rows b →
  ascending_bounds bounds → length bounds < n → (Z.of_nat n < 2 ^ 32)%Z →
  assignable evaluate expr_type convert_columns (RangePartitioning sort_exprs n bounds) b.
Proof.
  intros Hf Hc Hk Hlen Hs Hb Hn start. rewrite (range_ids_ok _ _ _ _ _ _ _ _ fields cols keys) by (done || lia). eexists. split; [done|].
  split; [by rewrite length_fmap|]. apply Forall_fmap, Forall_forall. intros k _. cbn. pose proof (rank_le k bounds). lia.
Qed.

End Assignable.
