(* ===== verification/BufferedData.v ===== *)
(** * Buffered shuffle data

    native-engine/datafusion-ext-plans/src/shuffle/buffered_data.rs: batches that wait to be
    shuffled.  They are staged, sorted by partition ([PartitionSort]) when enough rows are
    there, and at last merged partition by partition ([Offsetted]) into a file or a remote
    shuffle service, as compressed blocks ([IpcCompression]).

    [buf_inv]: what the data holds after some batches; [buf_write_ok]: in the file, the
    section of a partition holds the rows of that partition, and the offsets delimit the
    sections; [buf_write_rss_ok]: the same for what is pushed to the service.

    The memory of a batch is the argument [mem_size], the configured sizes are
    [conf_batch_size] and [conf_mem_size]; [full] says when a block is full, [running]
    whether the task still runs when a partition is written. *)

From S2P Require SortMerge.
From S2P Require Import Prelude MachineInt RadixQueue BatchSize Joins Selection SortKeys SortBlocks IpcCompression Offsetted Arrow ShufflePartitioning PartitionSort.

Set Default Proof Using "Type".

Local Abbreviation bytes := (list Z).

Section BufferedData.
Context {V : Type} (null : V) {nf : nat} `{Codec : BatchCodec V nf} {E : Type} `{Frame : FrameCodec E}.
Context `{Ops : ArrowOps} {Expr SortOptions : Type}.

Local Abbreviation Batch := (RecordBatch (V:=V)).
Local Abbreviation Partitioning := (Partitioning (Expr:=Expr) (SortOptions:=SortOptions)).
Local Abbreviation batch_rows := (batch_rows null).

Context (evaluate : Expr → Batch → Result Arrow.Array) (expr_type : Expr → Batch → Result DataType)
  (convert_columns : list (DataType * SortOptions) → list Arrow.Array → Result (list bytes)).
Context (mem_size : Batch → nat) (conf_batch_size conf_mem_size : nat) (full : nat → bool) (running : nat → bool).

Record BufferedData := mkBuffered {
  partition_id : nat;
  partitioning : Partitioning;
  staging_batches : list Batch;
  staging_num_rows : nat;
  staging_mem_used : nat;
  sorted_batches : list Batch;
  sorted_offsets : list (list Z);
  buf_num_rows : nat;
  sorted_mem_used : nat }.

Definition buf_new (p : Partitioning) (partition_id : nat) : BufferedData := mkBuffered partition_id p [] 0 0 [] [] 0 0.

(** The data that is taken out, and what is left. *)
Definition drain (d : BufferedData) : BufferedData * BufferedData := (d, buf_new (partitioning d) (partition_id d)).

Definition mem_used (d : BufferedData) : nat := sorted_mem_used d + staging_mem_used d.

Definition buf_is_empty (d : BufferedData) : bool := bool_decide (sorted_batches d = []) && bool_decide (staging_batches d = []).

Definition flush_staging (d : BufferedData) : Result BufferedData :=
  let sorted_num_rows := buf_num_rows d - staging_num_rows d in
  '(offsets, sorted_batch) ← sort_batches_by_partition_id evaluate expr_type convert_columns
    (staging_batches d) (partitioning d) sorted_num_rows (partition_id d);
  Ok (mkBuffered (partition_id d) (partitioning d) [] 0 0 (sorted_batches d ++ [sorted_batch])
        (sorted_offsets d ++ [offsets]) (buf_num_rows d) (sorted_mem_used d + (mem_size sorted_batch + length offsets * 4))).

Definition add_batch (d : BufferedData) (batch : Batch) : Result BufferedData :=
  let d := mkBuffered (partition_id d) (partitioning d) (staging_batches d ++ [batch]) (staging_num_rows d + num_rows batch)
    (staging_mem_used d + mem_size batch * 2) (sorted_batches d) (sorted_offsets d) (buf_num_rows d + num_rows batch) (sorted_mem_used d) in
  let suggested_batch_size :=
    compute_suggested_batch_size_for_output conf_batch_size conf_mem_size (staging_mem_used d) (staging_num_rows d) in
  if decide (suggested_batch_size ≤ staging_num_rows d) then flush_staging d else Ok d.

(** ** Merging the sorted batches *)

Record PartitionedBatchesIterator := mkPartitioned {
  batch_interleaver : BatchInterleaver (V:=V);
  merge_iter : OffsettedMergeIterator (T:=nat);
  pb_batch_size : nat;
  last_chunk_partition_id : option nat }.

Definition pb_try_new (batches : list Batch) (batch_offsets : list (list Z)) (sub_batch_size num_partitions : nat)
    : Result PartitionedBatchesIterator :=
  il ← create_batch_interleaver batches;
  m ← merge_new num_partitions (imap (λ idx offsets, mkOffsetted offsets idx) batch_offsets);
  Ok (mkPartitioned il m sub_batch_size None).

Definition pb_next_chunk (it : PartitionedBatchesIterator) : Result (PartitionedBatchesIterator * option nat) :=
  chunk ← next_partition_chunk (merge_iter it);
  match chunk with
  | None => Ok (it, None)
  | Some p =>
      _ ← rassert (bool_decide (last_chunk_partition_id it ≠ Some p));
      Ok (mkPartitioned (batch_interleaver it) (merge_iter it) (pb_batch_size it) (Some p), Some p)
  end.

(** An item of the merge is the batch index and the range. *)
Definition take_range (idx : nat) (range : Z * Z) : Result (nat * (nat * (Z * Z))) := Ok (idx, (idx, range)).

Definition range_indices (x : nat * (Z * Z)) : list (nat * nat) :=
  (λ offset, (x.1, offset)) <$> seq (Z.to_nat x.2.1) (Z.to_nat x.2.2 - Z.to_nat x.2.1).

(** [for (batch_idx, range) in chunk {..}] *)
Definition collect_step (p batch_size : nat) (st : OffsettedMergeIterator (T:=nat) * list (nat * nat))
    : Result (OffsettedMergeIterator * list (nat * nat) + OffsettedMergeIterator * list (nat * nat)) :=
  '(m, item) ← chunk_next 32 take_range p st.1;
  match item with
  | None => Ok (inr (m, st.2))
  | Some x =>
      let indices := st.2 ++ range_indices x in
      Ok (if decide (batch_size ≤ length indices) then inr (m, indices) else inl (m, indices))
  end.

(** [next] of the iterator of a chunk of partition [p]. *)
Definition pb_next_batch (fuel p : nat) (it : PartitionedBatchesIterator) : Result (PartitionedBatchesIterator * option Batch) :=
  '(m, indices) ← rloop fuel (collect_step p (pb_batch_size it)) (merge_iter it, []);
  let it := mkPartitioned (batch_interleaver it) m (pb_batch_size it) (last_chunk_partition_id it) in
  if decide (indices = []) then Ok (it, None)
  else output_batch ← expect (interleave (batch_interleaver it) indices); Ok (it, Some output_batch).

(** The batches of one chunk go to the writer. *)
Definition write_step (lfuel p : nat) (st : PartitionedBatchesIterator * IpcCompressionWriter (E:=E))
    : Result (PartitionedBatchesIterator * IpcCompressionWriter + PartitionedBatchesIterator * IpcCompressionWriter) :=
  '(it, batch) ← pb_next_batch lfuel p st.1;
  match batch with
  | None => Ok (inr (it, st.2))
  | Some b => w ← ipc_write_batch full st.2 (num_rows b) (columns b); Ok (inl (it, w))
  end.

Definition count (w : IpcCompressionWriter (E:=E)) : Z := u64 (Z.of_nat (length (output w))).

(** One partition of the loop of [write]; the state has the offsets. *)
Definition write_chunk (fuel : nat) (st : PartitionedBatchesIterator * IpcCompressionWriter * list Z)
    : Result (PartitionedBatchesIterator * IpcCompressionWriter * list Z + IpcCompressionWriter * list Z) :=
  let '(it, w, offsets) := st in
  '(it, chunk) ← pb_next_chunk it;
  match chunk with
  | None => Ok (inr (w, offsets))
  | Some p =>
      _ ← (if running p then Ok tt else Err (Execution "task completed/killed"));
      let offsets := resize (p + 1) (count w) offsets in
      '(it, w) ← rloop fuel (write_step fuel p) (it, w);
      w ← finish_current_buf w;
      Ok (inl (it, w, offsets))
  end.

(** More than the steps of any of the loops. *)
Definition loop_fuel (d : BufferedData) : nat := S (length (sorted_offsets d) * partition_count (partitioning d)).

Definition into_sorted_batches (d : BufferedData) : Result PartitionedBatchesIterator :=
  let sub_batch_size := compute_suggested_batch_size_for_output conf_batch_size conf_mem_size (mem_used d) (buf_num_rows d) in
  pb_try_new (sorted_batches d) (sorted_offsets d) sub_batch_size (partition_count (partitioning d)).

(** The offsets, and the bytes that are written. *)
Definition buf_write (d : BufferedData) : Result (list Z * bytes) :=
  let n := partition_count (partitioning d) in
  if decide (buf_num_rows d = 0) then Ok (replicate (n + 1) 0%Z, [])
  else
    d ← (if decide (staging_batches d = []) then Ok d else flush_staging d);
    it ← into_sorted_batches d;
    '(w, offsets) ← rloop (loop_fuel d) (write_chunk (loop_fuel d)) (it, ipc_new [], []);
    Ok (resize (n + 1) (count w) offsets, output w).

(** One partition of [write_rss]; the state has the pushes, by partition. *)
Definition write_rss_chunk (fuel : nat) (st : PartitionedBatchesIterator * IpcCompressionWriter * list (nat * bytes))
    : Result (PartitionedBatchesIterator * IpcCompressionWriter * list (nat * bytes) + list (nat * bytes)) :=
  let '(it, w, pushed) := st in
  '(it, chunk) ← pb_next_chunk it;
  match chunk with
  | None => Ok (inr pushed)
  | Some p =>
      _ ← (if running p then Ok tt else Err (Execution "task completed/killed"));
      '(_, w) ← set_output w [];
      '(it, w) ← rloop fuel (write_step fuel p) (it, w);
      w ← finish_current_buf w;
      Ok (inl (it, w, pushed ++ [(p, output w)]))
  end.

(** What is pushed to each partition of the service, in this order. *)
Definition buf_write_rss (d : BufferedData) : Result (list (nat * bytes)) :=
  if decide (buf_num_rows d = 0) then Ok []
  else
    d ← (if decide (staging_batches d = []) then Ok d else flush_staging d);
    it ← into_sorted_batches d;
    rloop (loop_fuel d) (write_rss_chunk (loop_fuel d)) (it, ipc_new [], []).

(** ** The segments of a partition *)

Definition rows_of (bs : list Batch) : list (list V) := mjoin (batch_rows <$> bs).

Context (weight : list V → nat).

Definition rows_weight (rs : list (list V)) : nat := sum_list (weight <$> rs).

Lemma rows_weight_submseteq rs rs' : rs ⊆+ rs' → rows_weight rs ≤ rows_weight rs'.
Proof.
  intros [k Hk]%submseteq_Permutation. unfold rows_weight.
  assert (sum_list (weight <$> rs') = sum_list (weight <$> (rs ++ k))) as -> by (by rewrite Hk).
  rewrite fmap_app, sum_list_with_app. lia.
Qed.

Lemma rows_for_submseteq q (l : list (nat * list V)) : rows_for q l ⊆+ l.*2.
Proof. apply fmap_submseteq, sublist_submseteq, sublist_filter. Qed.

Lemma mjoin_cons {A} (l : list A) ls : mjoin (l :: ls) = l ++ mjoin ls.
Proof. done. Qed.

Lemma mjoin_Permutation {A} (ls ls' : list (list A)) : ls ≡ₚ ls' → mjoin ls ≡ₚ mjoin ls'.
Proof. by intros ->. Qed.

Section Merging.
Context (P : Partitioning) (Bs : list Batch) (offss : list (list Z)) (lss : list (list (nat * list V))).
Context (parts : Forall3 (partitioned null nf P) Bs offss lss).

Local Abbreviation n := (partition_count P).
Local Abbreviation is_seg := (is_seg n offss).
Local Abbreviation any_idx := (λ (j : nat) (_ : Z) (d : nat), d = j).
Local Abbreviation merge_inv := (merge_inv 32 n offss any_idx).

Definition seg_rows (x : nat * nat) : list (list V) :=
  match Bs !! x.1 with
  | Some b => range_rows null b (seg_at offss x.1 x.2) (seg_at offss x.1 (x.2 + 1))
  | None => []
  end.

Lemma parts_at j : j < length offss →
  ∃ b offs ls, Bs !! j = Some b ∧ offss !! j = Some offs ∧ lss !! j = Some ls ∧ partitioned null nf P b offs ls ∧
    ∀ q, seg_at offss j q = nth q offs 0%Z.
Proof using parts.
  intros Hj. destruct (lookup_lt_is_Some_2 offss j Hj) as [offs Ho].
  destruct (Forall3_lookup_m _ _ _ _ _ _ parts Ho) as (b & ls & Hb & Hl & Hp). exists b, offs, ls. split; [done|]. split; [done|].
  split; [done|]. split; [done|]. intros q. unfold seg_at, at_. by rewrite (nth_lookup_Some _ _ _ _ Ho).
Qed.

Lemma parts_offs_len : Forall (λ o, length o = n + 1) offss.
Proof using parts.
  apply Forall_lookup. intros j o Ho. destruct (Forall3_lookup_m _ _ _ _ _ _ parts Ho) as (b & ls & _ & _ & Hp).
  by destruct Hp as (_ & _ & _ & ? & _).
Qed.

Lemma seg_rows_for j q ls : q < n → lss !! j = Some ls → seg_rows (j, q) ≡ₚ rows_for q ls.
Proof using parts.
  intros Hq Hl. destruct (Forall3_lookup_r _ _ _ _ _ _ parts Hl) as (b & offs & Hb & Ho & Hp).
  unfold seg_rows. cbn [fst snd]. rewrite Hb. unfold seg_at, at_. rewrite (nth_lookup_Some _ _ _ _ Ho).
  destruct Hp as (_ & _ & _ & _ & _ & Hp). by apply Hp.
Qed.

Lemma seg_rows_empty x : ¬ is_seg x → x.1 < length offss → x.2 < n → seg_rows x = [].
Proof using parts.
  intros Hx Hj Hq. destruct (parts_at x.1 Hj) as (b & offs & ls & Hb & Ho & _ & Hp & Hat). unfold seg_rows. rewrite Hb.
  assert (seg_at offss x.1 (x.2 + 1) = seg_at offss x.1 x.2) as ->; [|unfold range_rows; by rewrite Nat.sub_diag].
  destruct (decide (seg_at offss x.1 (x.2 + 1) = seg_at offss x.1 x.2)) as [|Hne]; [done|]. exfalso. by apply Hx.
Qed.

Lemma rows_for_join q : rows_for q (mjoin lss) = mjoin ((λ j, rows_for q (nth j lss [])) <$> seq 0 (length offss)).
Proof using parts.
  rewrite <- (Forall3_length_lm _ _ _ _ parts), (Forall3_length_lr _ _ _ _ parts). clear.
  assert (lss = (λ j, nth j lss []) <$> seq 0 (length lss)) as E.
  { apply list_eq. intros j. rewrite list_lookup_fmap. destruct (lss !! j) as [ls|] eqn:Hl.
    - rewrite lookup_seq_lt by (by eapply lookup_lt_Some). cbn. by rewrite (nth_lookup_Some _ _ _ _ Hl).
    - rewrite lookup_ge_None_2; [done|]. rewrite length_seq. by apply lookup_ge_None. }
  rewrite E at 1. generalize (seq 0 (length lss)) as js. intros js. induction js as [|j js IH]; [done|].
  by rewrite !fmap_cons, !mjoin_cons, rows_for_app, IH.
Qed.

(** The rows of segments of partition [q], and what is missing from them. *)
Lemma section_rows q xs :
  q < n → NoDup xs → Forall is_seg xs → Forall (λ x, x.2 = q) xs →
  ∃ rest, rows_for q (mjoin lss) ≡ₚ mjoin (seg_rows <$> xs) ++ rest ∧ ((∀ x, is_seg x → x.2 = q → x ∈ xs) → rest = []).
Proof using parts.
  clear full running. intros Hq Hnd Hseg Hxq. assert (xs = (λ j, (j, q)) <$> xs.*1) as Exs.
  { clear -Hxq. induction Hxq as [|[j x] xs Hx _ IH]; [done|]. cbn in *. subst x. by f_equal. }
  assert (NoDup xs.*1) as Hnd1 by (rewrite Exs in Hnd; by eapply NoDup_fmap_1).
  assert (xs.*1 ⊆+ seq 0 (length offss)) as Hsub.
  { apply NoDup_submseteq; [done|]. intros j (x & -> & Hx)%list_elem_of_fmap. rewrite Forall_forall in Hseg.
    destruct (Hseg x Hx) as (Hj & _). apply elem_of_seq. lia. }
  apply submseteq_Permutation in Hsub as [rest Hrest].
  exists (mjoin ((λ j, rows_for q (nth j lss [])) <$> rest)). rewrite rows_for_join. split.
  - rewrite (mjoin_Permutation _ _ (fmap_Permutation _ _ _ Hrest)), fmap_app, join_app. apply Permutation_app_tail.
    rewrite Exs at 2. rewrite <- list_fmap_compose. clear Exs Hnd Hnd1 Hrest Hxq. induction xs as [|x xs IH]; [done|].
    apply Forall_cons in Hseg as [Hx Hseg]. rewrite !fmap_cons, !mjoin_cons, (IH Hseg). apply Permutation_app_tail. unfold compose.
    destruct (parts_at x.1) as (b & offs & ls & _ & _ & Hl & _); [by destruct Hx|].
    rewrite (nth_lookup_Some _ _ _ _ Hl). by rewrite (seg_rows_for _ q ls) by done.
  - intros Hall. assert (∀ j, j ∈ rest → rows_for q (nth j lss []) = []) as Hempty.
    { intros j Hj. assert (j ∈ seq 0 (length offss)) as Hjs by (rewrite Hrest; set_solver). apply elem_of_seq in Hjs as [_ Hjs].
      destruct (parts_at j) as (b & offs & ls & _ & _ & Hl & _); [lia|]. rewrite (nth_lookup_Some _ _ _ _ Hl).
      apply Permutation_nil_r. rewrite <- (seg_rows_for j q ls) by done. rewrite seg_rows_empty; [done| |cbn; lia|done].
      intros Hs. specialize (Hall _ Hs eq_refl). pose proof (NoDup_seq 0 (length offss)) as Hn. rewrite Hrest in Hn.
      apply NoDup_app in Hn as (_ & Hdis & _). apply (Hdis j); [|done]. apply list_elem_of_fmap. by exists (j, q). }
    clear -Hempty. induction rest as [|j rest IH]; [done|]. rewrite fmap_cons, mjoin_cons, Hempty by set_solver. apply IH. set_solver.
Qed.

(** ** One batch of a chunk *)

Definition positions (xs : list (nat * nat)) : list (nat * nat) :=
  mjoin ((λ x, range_indices (x.1, seg_range offss x.1 x.2)) <$> xs).

Definition segs_rows (xs : list (nat * nat)) : list (list V) := mjoin (seg_rows <$> xs).

Lemma segs_rows_app xs ys : segs_rows (xs ++ ys) = segs_rows xs ++ segs_rows ys.
Proof. unfold segs_rows. by rewrite fmap_app, join_app. Qed.

Lemma positions_app xs ys : positions (xs ++ ys) = positions xs ++ positions ys.
Proof. unfold positions. by rewrite fmap_app, join_app. Qed.

Lemma seg_positions x : is_seg x →
  Forall2 (position_of null Bs) (range_indices (x.1, seg_range offss x.1 x.2)) (seg_rows x) ∧
  range_indices (x.1, seg_range offss x.1 x.2) ≠ [].
Proof using parts.
  clear full running. intros (Hj & Hq & Hne). destruct (parts_at x.1 Hj) as (b & offs & ls & Hb & _ & _ & Hp & Hat).
  destruct Hp as (_ & _ & _ & _ & _ & Hp). destruct (Hp x.2 Hq) as (Hle & Hmax & _). rewrite !Hat in Hne.
  unfold range_indices, seg_range, seg_rows, range_rows. cbn [fst snd]. rewrite Hb, !Hat. split.
  - rewrite Forall2_fmap_l, Forall2_fmap_r. apply Forall_Forall2_diag, Forall_forall. intros i Hi. apply elem_of_seq in Hi.
    exists b. cbn [fst snd]. split; [done|]. split; [lia|done].
  - intros He%fmap_nil_inv%(f_equal length). rewrite length_seq in He. cbn in He. lia.
Qed.

Lemma positions_ok xs : Forall is_seg xs → Forall2 (position_of null Bs) (positions xs) (segs_rows xs).
Proof using parts.
  clear full running. induction 1 as [|x xs Hx _ IH]; [constructor|]. unfold positions, segs_rows. rewrite !fmap_cons, !mjoin_cons.
  apply Forall2_app; [|done]. by apply seg_positions.
Qed.

Lemma positions_nil xs : Forall is_seg xs → positions xs = [] → xs = [].
Proof using parts.
  clear full running. intros H He. destruct xs as [|x xs]; [done|]. apply Forall_cons in H as [Hx _]. exfalso. unfold positions in He.
  rewrite fmap_cons, mjoin_cons in He. apply app_nil in He as [He _]. by apply (seg_positions x Hx).
Qed.

Lemma take_range_law j q d : is_seg (j, q) → any_idx j (seg_at offss j q) d →
  ∃ d' a, take_range d (seg_range offss j q) = Ok (d', a) ∧ any_idx j (seg_at offss j (q + 1)) d'.
Proof. intros _ ->. eexists _, _. split; [done|]. done. Qed.

(** The next item of the chunk of partition [q], or its end. *)
Lemma chunk_next_ok m outs q :
  merge_inv m outs → q < n →
  (∃ j m', chunk_next 32 take_range q m = Ok (m', Some (j, seg_range offss j q)) ∧ is_seg (j, q) ∧ merge_inv m' (outs ++ [(j, q)])) ∨
  (chunk_next 32 take_range q m = Ok (m, None) ∧ ∃ q', peek_next_partition_id m = Ok q' ∧ q' ≠ q).
Proof using parts.
  clear full running. intros Hm Hq. destruct (merge_peek_ok 32 n offss any_idx m outs Hm) as (i & c & Hi & Hc & Hp & Hok & Hmin).
  unfold chunk_next. rewrite Hp. cbn [mbind Result_bind]. case_decide as Hcq.
  - left. destruct (merge_item_ok 32 n offss any_idx take_range parts_offs_len take_range_law m outs i c) as (d & a & m' & Hu & -> & Hm');
      [done..|lia|]. cbn [mbind Result_bind]. rewrite Hcq in *. exists i, m'. split; [|split; [|done]].
    + destruct Hok as (_ & _ & _ & Hd). cbn in Hd. unfold take_range in Hu. rewrite Hd in Hu. by injection Hu as <- <-.
    + destruct Hok as (_ & _ & Hs & _). rewrite Hcq in Hs. apply Hs. lia.
  - right. split; [done|]. by exists (cur c).
Qed.

(** The inner loop collects some of the segments of the chunk; it has none only at the end. *)
Lemma collect_rows_ok q bsz fuel m outs xs :
  q < n → merge_inv m (outs ++ xs) → Forall (λ x, x.2 = q) xs → length offss * n < fuel + length (outs ++ xs) →
  ∃ m' xs', rloop fuel (collect_step q bsz) (m, positions xs) = Ok (m', positions (xs ++ xs')) ∧
    merge_inv m' (outs ++ xs ++ xs') ∧ Forall (λ x, x.2 = q) (xs ++ xs') ∧
    (xs ++ xs' = [] → m' = m ∧ ∃ q', peek_next_partition_id m' = Ok q' ∧ q' ≠ q).
Proof using parts.
  clear full running. intros Hq. revert m xs. induction fuel as [|fuel IH]; intros m xs Hm Hxs Hf.
  { pose proof (outs_bound 32 n offss any_idx m _ Hm). lia. }
  assert (∀ r, collect_step q bsz (m, positions xs) = r → rloop (S fuel) (collect_step q bsz) (m, positions xs) =
    (r ← r; match r with inl s' => rloop fuel (collect_step q bsz) s' | inr t => Ok t end)) as Hstep by (by intros r <-).
  destruct (chunk_next_ok m _ q Hm Hq) as [(j & m' & Hc & Hseg & Hm')|[Hc Hend]];
    (erewrite Hstep; [|unfold collect_step; cbn [fst snd]; rewrite Hc; cbn [mbind Result_bind]; reflexivity]); cbn [mbind Result_bind].
  - rewrite <- app_assoc in Hm'. assert (positions xs ++ range_indices (j, seg_range offss j q) = positions (xs ++ [(j, q)])) as ->.
    { rewrite positions_app. f_equal. unfold positions. rewrite fmap_cons, mjoin_cons. cbn [fst snd]. symmetry. apply app_nil_r. }
    assert (Forall (λ x : nat * nat, x.2 = q) (xs ++ [(j, q)])) as Hxs' by (apply Forall_app; split; [done|by apply (proj2 (Forall_singleton _ _))]).
    case_decide.
    + exists m', [(j, q)]. split; [done|]. split; [done|]. split; [done|]. by intros [_ ?]%app_nil.
    + destruct (IH m' (xs ++ [(j, q)]) Hm' Hxs') as (m'' & xs' & Hl & Hm'' & Hx & Hn); [rewrite !length_app in *; cbn; lia|].
      rewrite <- app_assoc in *. exists m'', ((j, q) :: xs'). cbn [app] in *. split; [done|]. split; [done|]. split; [done|]. by intros [_ ?]%app_nil.
  - exists m, []. rewrite !app_nil_r. split; [done|]. split; [done|]. split; [done|]. done.
Qed.

Lemma pb_next_batch_ok il bsz last q fuel m outs :
  create_batch_interleaver Bs = Ok il → q < n → merge_inv m outs → length offss * n < fuel + length outs →
  ∃ m' xs b, pb_next_batch fuel q (mkPartitioned il m bsz last) = Ok (mkPartitioned il m' bsz last, b) ∧
    merge_inv m' (outs ++ xs) ∧ Forall (λ x, x.2 = q) xs ∧
    match b with
    | None => xs = [] ∧ m' = m ∧ ∃ q', peek_next_partition_id m' = Ok q' ∧ q' ≠ q
    | Some b => xs ≠ [] ∧ batch_ok b ∧ length (columns b) = nf ∧ batch_rows b = segs_rows xs
    end.
Proof using parts.
  clear full running. intros Hil Hq Hm Hf. unfold pb_next_batch. cbn [pb_batch_size merge_iter batch_interleaver last_chunk_partition_id].
  destruct (collect_rows_ok q bsz fuel m outs [] Hq) as (m' & xs & Hl & Hm' & Hxs & Hend); [by rewrite app_nil_r|constructor|by rewrite app_nil_r|].
  cbn [app] in *. change (positions []) with (@nil (nat * nat)) in Hl. rewrite Hl. cbn [mbind Result_bind].
  pose proof (mi_outs _ _ _ _ _ _ Hm') as Hsegs. apply Forall_app in Hsegs as [_ Hsegs]. case_decide as He.
  - apply positions_nil in He; [|done]. subst xs. exists m', [], None. split; [done|]. split; [done|]. split; [done|]. split; [done|by apply Hend].
  - assert (Forall (λ b, batch_ok b ∧ length (columns b) = nf) Bs) as HBs.
    { apply Forall_lookup. intros j b Hb. destruct (Forall3_lookup_l _ _ _ _ _ _ parts Hb) as (o & l & _ & _ & Hp). by destruct Hp as (? & ? & _). }
    rewrite (create_batch_interleaver_ok nf) in Hil.
    2:{ intros ->. apply He. destruct xs as [|x xs]; [done|]. apply Forall_cons in Hsegs as [(Hx & _) _].
        pose proof (Forall3_length_lm _ _ _ _ parts). cbn in *. lia. }
    2:{ eapply Forall_impl; [exact HBs|]. by intros b [_ ?]. }
    injection Hil as <-. destruct (interleave_ok null nf Bs (positions xs) (segs_rows xs) HBs (positions_ok xs Hsegs)) as (b & -> & Hok & Hn & Hc & Hr).
    cbn [expect mbind Result_bind]. exists m', xs, (Some b). split; [done|]. split; [done|]. split; [done|]. split; [by intros ->|done].
Qed.

(** ** A section of the output *)

Context `{Law : !FrameCodecOk E} (fit : blocks_bounded null weight).
Context (light : (Z.of_nat (rows_weight (mjoin lss).*2) < 2 ^ 32)%Z) (few : (Z.of_nat (length (mjoin lss)) < 2 ^ 32)%Z).
Context (keepable : Forall (Forall storable) (mjoin lss).*2).

Lemma segs_rows_some m outs xs q :
  q < n → merge_inv m (outs ++ xs) → Forall (λ x, x.2 = q) xs → segs_rows xs ⊆+ (mjoin lss).*2.
Proof using parts.
  clear full running. intros Hq Hm Hxs. pose proof (mi_nodup _ _ _ _ _ _ Hm) as Hnd. apply NoDup_app in Hnd as (_ & _ & Hnd).
  pose proof (mi_outs _ _ _ _ _ _ Hm) as Hseg. apply Forall_app in Hseg as [_ Hseg].
  destruct (section_rows q xs Hq Hnd Hseg Hxs) as (rest & Hr & _). etrans; [|apply (rows_for_submseteq q)].
  rewrite Hr. by apply submseteq_inserts_r.
Qed.

Lemma buf_rows_app bs1 bs2 : rows_of (bs1 ++ bs2) = rows_of bs1 ++ rows_of bs2.
Proof. unfold rows_of. by rewrite fmap_app, join_app. Qed.

Lemma rows_of_kept b : rows_of (kept b) = batch_rows b.
Proof.
  unfold kept, rows_of, Joins.batch_rows. case_decide as Hn; [by rewrite Hn|]. cbn. by rewrite app_nil_r.
Qed.

Lemma small_segs bs m outs xs q :
  q < n → merge_inv m (outs ++ xs) → Forall (λ x, x.2 = q) xs → rows_of bs = segs_rows xs → small null weight bs.
Proof using parts light.
  intros Hq Hm Hxs Hr. unfold small, batches_weight. fold (rows_of bs). rewrite Hr.
  pose proof (rows_weight_submseteq _ _ (segs_rows_some m outs xs q Hq Hm Hxs)) as Hw. unfold rows_weight in *. lia.
Qed.

Lemma stored_segs b rs : batch_ok b → length (columns b) = nf → batch_rows b = rs → rs ⊆+ (mjoin lss).*2 → stored b.
Proof using few keepable.
  clear light fit full running weight. intros Hok Hc Hr Hsub. split; [done|]. split; [done|]. split.
  - apply (SortMerge.storable_columns null); [done|]. rewrite Hr. apply Forall_forall. intros r Hin.
    rewrite Forall_forall in keepable. apply keepable. by eapply elem_of_submseteq.
  - assert (num_rows b = length rs) as ->; [by rewrite <- Hr; unfold Joins.batch_rows; rewrite length_fmap, length_seq|].
    apply submseteq_length in Hsub. rewrite length_fmap in Hsub. lia.
Qed.

Lemma write_loop_ok il bsz last q lf fuel m outs xs w out bs :
  create_batch_interleaver Bs = Ok il → q < n → merge_inv m (outs ++ xs) → Forall (λ x, x.2 = q) xs →
  wrote null weight w out bs → rows_of bs = segs_rows xs → Forall stored bs →
  length offss * n < lf → length offss * n < fuel + length (outs ++ xs) →
  ∃ m' xs' w' bs', rloop fuel (write_step lf q) (mkPartitioned il m bsz last, w) = Ok (mkPartitioned il m' bsz last, w') ∧
    merge_inv m' (outs ++ xs') ∧ Forall (λ x, x.2 = q) xs' ∧ length xs ≤ length xs' ∧ (xs' = [] → m' = m) ∧
    (∃ q', peek_next_partition_id m' = Ok q' ∧ q' ≠ q) ∧
    wrote null weight w' out bs' ∧ rows_of bs' = segs_rows xs' ∧ Forall stored bs'.
Proof using parts fit light few keepable Law.
  intros Hil Hq. revert m xs w bs. induction fuel as [|fuel IH]; intros m xs w bs Hm Hxs Hw Hr Hst Hlf Hf.
  { pose proof (outs_bound 32 n offss any_idx m _ Hm). lia. }
  assert (∀ s r, write_step lf q s = r → rloop (S fuel) (write_step lf q) s =
    (r ← r; match r with inl s' => rloop fuel (write_step lf q) s' | inr t => Ok t end)) as Hstep by (by intros s r <-).
  destruct (pb_next_batch_ok il bsz last q lf m (outs ++ xs) Hil Hq Hm ltac:(lia)) as (m' & ys & b & Hb & Hm' & Hys & Hend).
  rewrite <- app_assoc in Hm'. assert (Forall (λ x : nat * nat, x.2 = q) (xs ++ ys)) as Hxy by (by apply Forall_app).
  destruct b as [b|].
  - destruct Hend as (Hne & Hok & Hc & Hrb).
    assert (rows_of (bs ++ kept b) = segs_rows (xs ++ ys)) as Hr' by (by rewrite buf_rows_app, rows_of_kept, segs_rows_app, Hr, Hrb).
    assert (stored b) as Hsb.
    { apply (stored_segs b (segs_rows ys)); [done..|]. etrans; [|apply (segs_rows_some m' outs (xs ++ ys) q Hq Hm' Hxy)].
      rewrite segs_rows_app. by apply submseteq_inserts_l. }
    pose proof (small_segs _ _ _ _ _ Hq Hm' Hxy Hr') as Hsm.
    destruct (ipc_write_batch_ok null weight fit full w out bs b Hw Hsb Hsm) as (w' & Hwb & Hw').
    erewrite Hstep; [|unfold write_step; cbn [fst snd]; rewrite Hb; cbn [mbind Result_bind]; rewrite Hwb; reflexivity].
    cbn [mbind Result_bind].
    destruct (IH m' (xs ++ ys) w' (bs ++ kept b) Hm' Hxy Hw' Hr') as (m'' & xs' & w'' & bs' & Hl & Hm'' & Hx & Hlen & _ & H); [|done| |].
    + apply Forall_app. split; [done|]. unfold kept. case_decide; [constructor|by apply (proj2 (Forall_singleton _ _))].
    + rewrite !length_app in *. destruct ys; [done|]. cbn [length]. lia.
    + exists m'', xs', w'', bs'. rewrite length_app in Hlen. split; [done|]. split; [done|]. split; [done|]. split; [lia|].
      split; [|done]. intros ->. destruct ys; [done|]. cbn in Hlen. lia.
  - destruct Hend as (-> & -> & Hend). rewrite app_nil_r in *.
    erewrite Hstep; [|unfold write_step; cbn [fst snd]; rewrite Hb; reflexivity]. cbn [mbind Result_bind].
    exists m, xs, w, bs. split; [done|]. split; [done|]. split; [done|]. split; [lia|]. done.
Qed.

(** ** All sections *)

(** Where the sections start. *)
Definition section_starts (secs : list bytes) : list Z := (λ q, Z.of_nat (length (mjoin (take q secs)))) <$> seq 0 (length secs).

Lemma mjoin_empties k : mjoin (replicate k ([] : bytes)) = [].
Proof. induction k as [|k IH]; [done|exact IH]. Qed.

Lemma section_starts_resize secs p sec :
  length secs ≤ p →
  resize (p + 1) (Z.of_nat (length (mjoin secs))) (section_starts secs) =
    section_starts (secs ++ replicate (p - length secs) [] ++ [sec]).
Proof.
  clear. intros Hp. apply list_eq. intros q. unfold section_starts.
  rewrite resize_ge by (rewrite length_fmap, length_seq; lia). rewrite length_fmap, length_seq, !length_app, length_replicate. cbn [length].
  rewrite list_lookup_fmap. destruct (decide (q < p + 1)) as [Hq|Hq].
  - rewrite lookup_seq_lt by lia. cbn [Nat.add fmap option_fmap option_map]. destruct (decide (q < length secs)) as [Hl|Hl].
    + rewrite lookup_app_l by (rewrite length_fmap, length_seq; lia). rewrite list_lookup_fmap, lookup_seq_lt by lia. cbn.
      by rewrite take_app_le by lia.
    + rewrite lookup_app_r by (rewrite length_fmap, length_seq; lia). rewrite length_fmap, length_seq, lookup_replicate_2 by lia.
      rewrite take_app_ge by lia. rewrite take_app_le by (rewrite length_replicate; lia). rewrite take_replicate, join_app.
      by rewrite mjoin_empties, app_nil_r.
  - rewrite lookup_ge_None_2; [|rewrite length_app, length_fmap, length_seq, length_replicate; lia]. rewrite lookup_seq_ge by lia. done.
Qed.

(** The section [sec] of partition [q] holds the segments of [q] among [outs]. *)
Definition section_holds (outs : list (nat * nat)) (q : nat) (sec : bytes) : Prop :=
  ∃ bs, holds null weight sec bs ∧ Forall stored bs ∧ rows_of bs = segs_rows (filter (λ x, x.2 = q) outs) ∧
    (Z.of_nat (length sec) < 2 ^ 32)%Z.

Lemma section_holds_empty outs q : Forall (λ x, x.2 ≠ q) outs → section_holds outs q [].
Proof.
  clear light few keepable running. intros H. exists []. split; [apply holds_nil|]. split; [constructor|]. split; [|done].
  rewrite filter_none; [done|]. intros x Hx. by apply (proj1 (Forall_forall _ _) H).
Qed.

Definition sections_inv (outs : list (nat * nat)) (secs : list bytes) : Prop :=
  Forall (λ x, x.2 < length secs) outs ∧ ∀ q sec, secs !! q = Some sec → section_holds outs q sec.

Lemma sections_inv_pad outs secs k : sections_inv outs secs → sections_inv outs (secs ++ replicate k []).
Proof.
  clear light few keepable running. intros [Hlt Hs]. split; [eapply Forall_impl; [exact Hlt|]; cbn; rewrite length_app; lia|].
  intros q sec [Hq|[Hge Hq]]%lookup_app_Some; [by apply Hs|]. apply lookup_replicate in Hq as [-> _]. apply section_holds_empty.
  eapply Forall_impl; [exact Hlt|]. cbn. lia.
Qed.

Lemma sections_inv_add outs secs xs sec bs :
  sections_inv outs secs → Forall (λ x, x.2 = length secs) xs → holds null weight sec bs → Forall stored bs → small null weight bs →
  rows_of bs = segs_rows xs → sections_inv (outs ++ xs) (secs ++ [sec]).
Proof.
  clear light few keepable running. intros [Hlt Hs] Hxs Hh Hst Hsm Hr. split.
  - apply Forall_app. split; (eapply Forall_impl; [done|]); cbn; rewrite length_app; cbn; lia.
  - intros q s [Hq|[Hge Hq]]%lookup_app_Some.
    + destruct (Hs q s Hq) as (bs' & H1 & H2 & H3 & H4). exists bs'. split; [done|]. split; [done|]. split; [|done].
      rewrite H3, filter_app, (filter_none _ xs), app_nil_r; [done|]. intros x Hx. rewrite Forall_forall in Hxs. rewrite (Hxs x Hx).
      apply lookup_lt_Some in Hq. lia.
    + apply list_lookup_singleton_Some in Hq as [Hq <-]. assert (q = length secs) as -> by lia. exists bs. split; [done|]. split; [done|]. split.
      * rewrite Hr, filter_app, filter_none, filter_all; [done| |]; intros x Hx.
        -- by apply (proj1 (Forall_forall _ _) Hxs).
        -- apply (proj1 (Forall_forall _ _) Hlt) in Hx. cbn in Hx. lia.
      * destruct Hh as [Hl _]. unfold small in Hsm. lia.
Qed.

Lemma sections_length outs secs : sections_inv outs secs → length secs ≤ n → (Z.of_nat n < 2 ^ 31)%Z →
  (Z.of_nat (length (mjoin secs)) < 2 ^ 63)%Z.
Proof.
  clear light few keepable running. intros [_ Hs] Hle Hn. assert (Forall (λ sec : bytes, Z.of_nat (length sec) < 2 ^ 32)%Z secs) as Hall.
  { apply Forall_lookup. intros q sec Hq. by destruct (Hs q sec Hq) as (_ & _ & _ & _ & ?). }
  assert (Z.of_nat (length (mjoin secs)) <= Z.of_nat (length secs) * 2 ^ 32)%Z; [|lia].
  clear -Hall. induction Hall as [|sec secs Hsec _ IH]; [done|]. rewrite mjoin_cons, length_app. cbn [length]. lia.
Qed.

Lemma open_block_wrote_nil out : wrote null weight (open_block out) out [].
Proof. apply ipc_new_wrote. Qed.

(** A chunk is written as one section of the output. *)
Lemma chunk_ok il bsz last fuel m outs p out :
  create_batch_interleaver Bs = Ok il → merge_inv m outs → peek_next_partition_id m = Ok p → p < n → last ≠ Some p →
  length offss * n < fuel →
  pb_next_chunk (mkPartitioned il m bsz last) = Ok (mkPartitioned il m bsz (Some p), Some p) ∧
  ∃ m' xs w' sec bs, rloop fuel (write_step fuel p) (mkPartitioned il m bsz (Some p), open_block out) = Ok (mkPartitioned il m' bsz (Some p), w') ∧
    finish_current_buf w' = Ok (open_block (out ++ sec)) ∧ merge_inv m' (outs ++ xs) ∧ Forall (λ x, x.2 = p) xs ∧ xs ≠ [] ∧
    holds null weight sec bs ∧ Forall stored bs ∧ small null weight bs ∧ rows_of bs = segs_rows xs ∧
    ∃ q', peek_next_partition_id m' = Ok q' ∧ p < q'.
Proof using parts fit light few keepable Law.
  clear running. intros Hil Hm Hpeek Hp Hlast Hf. split.
  { unfold pb_next_chunk, next_partition_chunk. cbn [merge_iter last_chunk_partition_id batch_interleaver pb_batch_size].
    rewrite Hpeek. cbn [mbind Result_bind]. rewrite (mi_parts _ _ _ _ _ _ Hm), decide_True by done. cbn [mbind Result_bind]. by rewrite bool_decide_eq_true_2. }
  destruct (write_loop_ok il bsz (Some p) p fuel fuel m outs [] (open_block out) out [] Hil Hp)
    as (m' & xs & w' & bs & Hl & Hm' & Hxs & _ & Hnil & (q' & Hq' & Hne) & Hw' & Hr & Hst);
    [by rewrite app_nil_r|constructor|apply open_block_wrote_nil|done|constructor|done|rewrite app_nil_r; lia|].
  assert (xs ≠ []) as Hxne by (intros Hx; specialize (Hnil Hx); subst m'; congruence).
  pose proof (small_segs bs _ _ _ _ Hp Hm' Hxs Hr) as Hsm.
  destruct (finish_current_buf_ok null weight fit w' out bs Hw' Hsm) as (sec & Hfin & Hh).
  exists m', xs, w', sec, bs. split; [done|]. split; [done|]. split; [done|]. split; [done|]. split; [done|]. split; [done|].
  split; [done|]. split; [done|]. split; [done|]. exists q'. split; [done|].
  destruct (merge_peek_ok 32 n offss any_idx m' _ Hm') as (i & c & _ & Hc & Hpc & _ & _).
  assert (q' = cur c) as -> by congruence. destruct xs as [|x xs]; [done|].
  pose proof (mi_past _ _ _ _ _ _ Hm' c (list_elem_of_lookup_2 _ _ _ Hc)) as Hpast. rewrite Forall_forall in Hpast.
  specialize (Hpast x ltac:(set_solver)). cbn in Hpast. apply Forall_cons in Hxs as [Hx _]. lia.
Qed.

(** At the end every segment has been visited. *)
Lemma merge_done m outs : merge_inv m outs → peek_next_partition_id m = Ok n → ∀ x, is_seg x → x ∈ outs.
Proof using parts.
  clear light few keepable running fit Law full. intros Hm Hpeek x Hx.
  destruct (merge_peek_ok 32 n offss any_idx m _ Hm) as (i & c & Hi & Hc & Hpc & Hok & Hmin).
  destruct (merge_end_ok 32 n offss any_idx take_range m outs i c Hm Hi Hc Hpc Hmin ltac:(congruence)) as (_ & _ & _ & _ & Hall). by apply Hall.
Qed.

Context (alive : ∀ q, running q = true) (few_parts : (Z.of_nat n < 2 ^ 31)%Z).

Lemma count_open_block outs secs : sections_inv outs secs → length secs ≤ n →
  count (open_block (mjoin secs)) = Z.of_nat (length (mjoin secs)).
Proof using few_parts.
  clear light few keepable alive. intros Hs Hle. unfold count. cbn [output open_block]. apply wrapu_id. pose proof (sections_length outs secs Hs Hle few_parts).
  unfold in_u. lia.
Qed.

(** What the loops over the chunks keep. *)
Record chunks_inv (m : OffsettedMergeIterator) (last : option nat) (outs : list (nat * nat)) (secs : list bytes) : Prop := {
  ci_merge : merge_inv m outs;
  ci_secs : sections_inv outs secs;
  ci_length : length secs ≤ n;
  ci_last l : last = Some l → l < length secs;
  ci_peek : ∃ q, peek_next_partition_id m = Ok q ∧ length secs ≤ q ≤ n }.

Lemma chunks_inv_next m m' last outs secs xs p sec bs :
  chunks_inv m last outs secs → peek_next_partition_id m = Ok p → p < n → merge_inv m' (outs ++ xs) → Forall (λ x, x.2 = p) xs →
  holds null weight sec bs → Forall stored bs → small null weight bs → rows_of bs = segs_rows xs →
  (∃ q', peek_next_partition_id m' = Ok q' ∧ p < q') →
  chunks_inv m' (Some p) (outs ++ xs) (secs ++ replicate (p - length secs) [] ++ [sec]) ∧
  length (secs ++ replicate (p - length secs) [] ++ [sec]) = p + 1.
Proof using parts.
  clear light few keepable full Law fit few_parts alive.
  intros [Hm Hs Hle Hlast (q & Hq & Hqle)] Hpeek Hp Hm' Hxs Hh Hst Hsm Hr (q' & Hq' & Hgt).
  assert (length secs ≤ p) as Hlp by (assert (q = p) as <- by congruence; lia).
  assert (length (secs ++ replicate (p - length secs) []) = p) as Hl by (rewrite length_app, length_replicate; lia).
  split; [|rewrite app_assoc, length_app, Hl; done]. rewrite app_assoc. split.
  - done.
  - eapply sections_inv_add; [by apply sections_inv_pad|by rewrite Hl|done..].
  - rewrite length_app, Hl. cbn. lia.
  - intros l [= <-]. rewrite length_app, Hl. cbn. lia.
  - exists q'. split; [done|]. rewrite length_app, Hl. cbn. split; [lia|].
    destruct (merge_peek_ok 32 n offss any_idx m' _ Hm') as (i & c & _ & Hc & Hpc & (_ & Hcn & _) & _). assert (q' = cur c) as -> by congruence. lia.
Qed.

(** The sections of a file and their offsets. *)
Definition sections_file (ls : list (nat * list V)) (offsets : list Z) (out : bytes) (secs : list bytes) : Prop :=
  out = mjoin secs ∧ length secs = n ∧ offsets = section_starts (secs ++ [[]]) ∧
  ∀ q sec, secs !! q = Some sec → ∃ bs, holds null weight sec bs ∧ Forall stored bs ∧
    rows_of bs ≡ₚ rows_for q ls ∧ (Z.of_nat (length sec) < 2 ^ 32)%Z.

Lemma sections_complete m outs secs q sec :
  merge_inv m outs → (∀ x, is_seg x → x ∈ outs) → sections_inv outs secs → length secs ≤ n → secs !! q = Some sec →
  ∃ bs, holds null weight sec bs ∧ Forall stored bs ∧ rows_of bs ≡ₚ rows_for q (mjoin lss) ∧ (Z.of_nat (length sec) < 2 ^ 32)%Z.
Proof using parts.
  clear light few keepable full Law fit few_parts alive. intros Hm Hall [_ Hs] Hle Hq.
  destruct (Hs q sec Hq) as (bs & H1 & H2 & H3 & H4). exists bs. split; [done|]. split; [done|]. split; [|done]. rewrite H3.
  apply lookup_lt_Some in Hq. destruct (section_rows q (filter (λ x, x.2 = q) outs)) as (rest & Hr & Hrest).
  - lia.
  - apply NoDup_filter, (mi_nodup _ _ _ _ _ _ Hm).
  - apply Forall_forall. intros x [_ Hx]%list_elem_of_filter. apply (proj1 (Forall_forall _ _) (mi_outs _ _ _ _ _ _ Hm) x Hx).
  - apply Forall_forall. by intros x [? _]%list_elem_of_filter.
  - rewrite Hr, Hrest, app_nil_r; [done|]. intros x Hx Hxq. apply list_elem_of_filter. split; [done|by apply Hall].
Qed.

Lemma write_chunks_ok il bsz lf fuel m last outs secs :
  create_batch_interleaver Bs = Ok il → chunks_inv m last outs secs →
  length offss * n < lf → n < fuel + length secs →
  ∃ w offsets secs', rloop fuel (write_chunk lf) (mkPartitioned il m bsz last, open_block (mjoin secs), section_starts secs) = Ok (w, offsets) ∧
    sections_file (mjoin lss) (resize (n + 1) (count w) offsets) (output w) secs'.
Proof using parts fit light few keepable Law alive few_parts.
  intros Hil. revert m last outs secs. induction fuel as [|fuel IH]; intros m last outs secs Hci Hlf Hf.
  { destruct Hci. lia. }
  assert (∀ s r, write_chunk lf s = r → rloop (S fuel) (write_chunk lf) s =
    (r ← r; match r with inl s' => rloop fuel (write_chunk lf) s' | inr t => Ok t end)) as Hstep by (by intros s r <-).
  pose proof Hci as [Hm Hs Hle Hlast (p & Hpeek & Hpl)]. destruct (decide (p < n)) as [Hp|Hp].
  - assert (last ≠ Some p) as Hlp by (intros ->; specialize (Hlast p eq_refl); lia).
    destruct (chunk_ok il bsz last lf m outs p (mjoin secs) Hil Hm Hpeek Hp Hlp Hlf)
      as (Hnc & m' & xs & w' & sec & bs & Hl & Hfin & Hm' & Hxs & Hxne & Hh & Hst & Hsm & Hr & Hnext).
    destruct (chunks_inv_next m m' last outs secs xs p sec bs Hci Hpeek Hp Hm' Hxs Hh Hst Hsm Hr Hnext) as [Hci' Hlen'].
    erewrite Hstep.
    2:{ unfold write_chunk. rewrite Hnc. cbn [mbind Result_bind]. rewrite alive. cbn [mbind Result_bind]. rewrite Hl. cbn [mbind Result_bind].
        rewrite Hfin. cbn [mbind Result_bind]. rewrite (count_open_block outs secs Hs Hle), (section_starts_resize _ _ sec) by lia. reflexivity. }
    cbn [mbind Result_bind].
    assert (mjoin secs ++ sec = mjoin (secs ++ replicate (p - length secs) [] ++ [sec])) as ->.
    { rewrite !join_app, mjoin_empties. cbn. by rewrite app_nil_r. }
    apply (IH m' (Some p) (outs ++ xs)); [done|done|]. rewrite Hlen'. lia.
  - assert (p = n) as -> by lia. erewrite Hstep.
    2:{ unfold write_chunk, pb_next_chunk, next_partition_chunk. cbn [merge_iter]. rewrite Hpeek. cbn [mbind Result_bind].
        rewrite (mi_parts _ _ _ _ _ _ Hm), decide_False by done. cbn [mbind Result_bind]. reflexivity. }
    cbn [mbind Result_bind]. pose proof (sections_inv_pad outs secs (n - length secs) Hs) as Hs'.
    eexists _, _, (secs ++ replicate (n - length secs) []). split; [done|].
    assert (length (secs ++ replicate (n - length secs) []) = n) as Hlen by (rewrite length_app, length_replicate; lia).
    split; [|split; [done|split]].
    + cbn [output open_block]. by rewrite join_app, mjoin_empties, app_nil_r.
    + rewrite (count_open_block outs secs Hs Hle), (section_starts_resize _ _ []) by lia. by rewrite app_assoc.
    + intros q sec Hq. eapply sections_complete; [exact Hm|by eapply merge_done|done|lia|done].
Qed.

(** What is pushed to a partition. *)
Definition pushed_for (q : nat) (pushed : list (nat * bytes)) : bytes := mjoin (filter (λ x, x.1 = q) pushed).*2.

Lemma pushed_for_app q l1 l2 : pushed_for q (l1 ++ l2) = pushed_for q l1 ++ pushed_for q l2.
Proof. unfold pushed_for. by rewrite filter_app, fmap_app, join_app. Qed.

Definition sections_pushed (ls : list (nat * list V)) (pushed : list (nat * bytes)) : Prop :=
  ∀ q, q < n → ∃ bs, holds null weight (pushed_for q pushed) bs ∧ Forall stored bs ∧ rows_of bs ≡ₚ rows_for q ls.

Lemma pushed_next pushed secs p sec :
  length secs ≤ p → (∀ q, pushed_for q pushed = nth q secs []) →
  ∀ q, pushed_for q (pushed ++ [(p, sec)]) = nth q (secs ++ replicate (p - length secs) [] ++ [sec]) [].
Proof.
  clear. intros Hp Hq q. rewrite pushed_for_app, Hq. unfold pushed_for at 1. rewrite filter_cons. cbn [fst]. case_decide as Hpq.
  - subst q. cbn. rewrite app_nil_r, nth_overflow by done. rewrite nth_lookup, lookup_app_r, lookup_app_r by (rewrite ?length_replicate; lia).
    rewrite length_replicate, Nat.sub_diag. done.
  - cbn. rewrite app_nil_r, !nth_lookup. destruct (decide (q < length secs)) as [Hl|Hl]; [by rewrite lookup_app_l by lia|].
    rewrite lookup_ge_None_2, lookup_app_r by lia. destruct (decide (q < p)).
    + rewrite lookup_app_l by (rewrite length_replicate; lia). by rewrite lookup_replicate_2 by lia.
    + rewrite lookup_app_r by (rewrite length_replicate; lia). by rewrite lookup_ge_None_2 by (rewrite length_replicate; cbn; lia).
Qed.

Lemma write_rss_chunks_ok il bsz lf fuel m last outs secs o pushed :
  create_batch_interleaver Bs = Ok il → chunks_inv m last outs secs → (∀ q, pushed_for q pushed = nth q secs []) →
  length offss * n < lf → n < fuel + length secs →
  ∃ pushed', rloop fuel (write_rss_chunk lf) (mkPartitioned il m bsz last, open_block o, pushed) = Ok pushed' ∧ sections_pushed (mjoin lss) pushed'.
Proof using parts fit light few keepable Law alive.
  intros Hil. revert m last outs secs o pushed. induction fuel as [|fuel IH]; intros m last outs secs o pushed Hci Hpu Hlf Hf.
  { destruct Hci. lia. }
  assert (∀ s r, write_rss_chunk lf s = r → rloop (S fuel) (write_rss_chunk lf) s =
    (r ← r; match r with inl s' => rloop fuel (write_rss_chunk lf) s' | inr t => Ok t end)) as Hstep by (by intros s r <-).
  pose proof Hci as [Hm Hs Hle Hlast (p & Hpeek & Hpl)]. destruct (decide (p < n)) as [Hp|Hp].
  - assert (last ≠ Some p) as Hlp by (intros ->; specialize (Hlast p eq_refl); lia).
    destruct (chunk_ok il bsz last lf m outs p [] Hil Hm Hpeek Hp Hlp Hlf)
      as (Hnc & m' & xs & w' & sec & bs & Hl & Hfin & Hm' & Hxs & Hxne & Hh & Hst & Hsm & Hr & Hnext).
    destruct (chunks_inv_next m m' last outs secs xs p sec bs Hci Hpeek Hp Hm' Hxs Hh Hst Hsm Hr Hnext) as [Hci' Hlen'].
    erewrite Hstep.
    2:{ unfold write_rss_chunk. rewrite Hnc. cbn [mbind Result_bind]. rewrite alive. cbn [mbind Result_bind].
        assert (set_output (open_block o) [] = Ok (o, open_block [])) as -> by done. cbn [mbind Result_bind].
        rewrite Hl. cbn [mbind Result_bind]. rewrite Hfin. cbn [mbind Result_bind output open_block app]. reflexivity. }
    cbn [mbind Result_bind]. apply (IH m' (Some p) (outs ++ xs) _ sec _ Hci'); [|done|rewrite Hlen'; lia].
    apply pushed_next; [lia|done].
  - assert (p = n) as -> by lia. erewrite Hstep.
    2:{ unfold write_rss_chunk, pb_next_chunk, next_partition_chunk. cbn [merge_iter]. rewrite Hpeek. cbn [mbind Result_bind].
        rewrite (mi_parts _ _ _ _ _ _ Hm), decide_False by done. cbn [mbind Result_bind]. reflexivity. }
    cbn [mbind Result_bind]. eexists. split; [done|]. intros q Hq. pose proof (sections_inv_pad outs secs (n - length secs) Hs) as Hs'.
    assert (length (secs ++ replicate (n - length secs) []) = n) as Hlen by (rewrite length_app, length_replicate; lia).
    destruct (lookup_lt_is_Some_2 (secs ++ replicate (n - length secs) []) q) as [sec Hsec]; [lia|].
    destruct (sections_complete m outs _ q sec Hm ltac:(by eapply merge_done) Hs' ltac:(lia) Hsec) as (bs & H1 & H2 & H3 & _).
    exists bs. split; [|done]. rewrite Hpu. assert (nth q secs [] = sec) as ->; [|done].
    rewrite nth_lookup. apply lookup_app_Some in Hsec as [->|[Hge Hsec]]; [done|]. apply lookup_replicate in Hsec as [-> _].
    by rewrite lookup_ge_None_2.
Qed.

(** The iterator over the sorted batches at its start. *)
Lemma pb_try_new_ok bsz :
  Bs ≠ [] → ∃ il m, create_batch_interleaver Bs = Ok il ∧
    pb_try_new Bs offss bsz n = Ok (mkPartitioned il m bsz None) ∧ chunks_inv m None [] [].
Proof using parts.
  clear light few keepable full Law fit few_parts alive. intros Hne. pose proof (Forall3_length_lm _ _ _ _ parts) as Hlen.
  assert (Forall (λ b, length (columns b) = nf) Bs) as HBs.
  { apply Forall_lookup. intros j b Hb. destruct (Forall3_lookup_l _ _ _ _ _ _ parts Hb) as (o & l & _ & _ & Hp). by destruct Hp as (_ & ? & _). }
  unfold pb_try_new. rewrite (create_batch_interleaver_ok nf) by done. cbn [mbind Result_bind].
  destruct (merge_new_ok 32 n offss any_idx parts_offs_len (imap (λ idx offsets, mkOffsetted offsets idx) offss)) as (m & -> & Hm).
  - intros He%(f_equal length). rewrite length_imap in He. destruct Bs; [done|]. cbn in *. lia.
  - rewrite fmap_imap. unfold compose. cbn. clear. rewrite <- (list_fmap_id offss) at 2. generalize 0.
    induction offss as [|o l IH]; [done|]. intros k. rewrite imap_cons. cbn. f_equal. apply (IH k).
  - intros j o Ho. rewrite list_lookup_imap in Ho. destruct (offss !! j); [|done]. by injection Ho as <-.
  - cbn [mbind Result_bind]. eexists _, m. split; [done|]. split; [done|].
    destruct (merge_peek_ok 32 n offss any_idx m [] Hm) as (i & c & _ & _ & Hp & (_ & Hcn & _) & _).
    split; [done|split; [constructor|done]|cbn; lia|done|]. exists (cur c). split; [done|]. cbn. lia.
Qed.

End Merging.

(** ** The state between batches *)

Context (P : Partitioning) (pid : nat).

Local Abbreviation n := (partition_count P).
Local Abbreviation labels := (labels null evaluate expr_type convert_columns P pid).
Local Abbreviation good_batch := (good_batch nf evaluate expr_type convert_columns P).

(** [d] has taken [inputs]. *)
Definition buf_inv (d : BufferedData) (inputs : list Batch) : Prop :=
  partition_id d = pid ∧ partitioning d = P ∧ Forall good_batch inputs ∧
  buf_num_rows d = total_rows inputs ∧ staging_num_rows d = total_rows (staging_batches d) ∧
  ∃ flushed lss, inputs = flushed ++ staging_batches d ∧
    Forall3 (partitioned null nf P) (sorted_batches d) (sorted_offsets d) lss ∧ mjoin lss = labels 0 flushed.

(** Bounds under which the integers of the code do not wrap. *)
Definition in_bounds (inputs : list Batch) : Prop :=
  (Z.of_nat pid * 1000193 + 2 ^ 32 < 2 ^ 64 ∧ Z.of_nat (length inputs) < 2 ^ 32 ∧ Z.of_nat (total_rows inputs) < 2 ^ 32)%Z.

Lemma buf_new_inv : buf_inv (buf_new P pid) [].
Proof.
  split; [done|]. split; [done|]. split; [constructor|]. split; [done|]. split; [done|]. exists [], []. split; [done|]. split; [constructor|done].
Qed.

Lemma total_rows_app (bs1 bs2 : list Batch) : total_rows (bs1 ++ bs2) = total_rows bs1 + total_rows bs2.
Proof. unfold total_rows. by rewrite sum_list_with_app. Qed.

Lemma buf_flush_ok d inputs :
  buf_inv d inputs → staging_batches d ≠ [] → in_bounds inputs → 0 < n →
  ∃ d', flush_staging d = Ok d' ∧ buf_inv d' inputs ∧ staging_batches d' = [] ∧ sorted_batches d' ≠ [].
Proof.
  intros (Hpid & HP & Hg & Hn & Hsn & flushed & lss & -> & Hparts & Hl) Hne (Hb1 & Hb2 & Hb3) Hpos. unfold flush_staging.
  rewrite total_rows_app, length_app in *. apply Forall_app in Hg as [Hgf Hgs].
  assert (buf_num_rows d - staging_num_rows d = total_rows flushed) as -> by lia. rewrite Hpid, HP.
  destruct (sort_batches_ok null nf evaluate expr_type convert_columns P pid (staging_batches d) (total_rows flushed))
    as (offs & b & -> & Hp); [lia|done|done|lia|lia|lia|]. cbn [mbind Result_bind]. eexists. split; [done|].
  split; [|split; [done|]]; [|cbn [sorted_batches]; by intros [_ ?]%app_nil].
  split; [done|]. split; [done|]. split; [by apply Forall_app|]. split; [cbn [buf_num_rows]; by rewrite total_rows_app|]. split; [done|].
  exists (flushed ++ staging_batches d), (lss ++ [labels (total_rows flushed) (staging_batches d)]).
  cbn [staging_batches sorted_batches sorted_offsets]. split; [by rewrite app_nil_r|]. split.
  - apply Forall3_app; [done|]. constructor; [done|constructor].
  - rewrite join_app, Hl, labels_app. cbn. by rewrite app_nil_r.
Qed.

Lemma add_batch_ok d inputs b :
  buf_inv d inputs → good_batch b → in_bounds (inputs ++ [b]) → 0 < n →
  ∃ d', add_batch d b = Ok d' ∧ buf_inv d' (inputs ++ [b]).
Proof.
  intros (Hpid & HP & Hg & Hn & Hsn & flushed & lss & -> & Hparts & Hl) Hb Hbounds Hpos. unfold add_batch.
  set (d1 := mkBuffered _ _ _ _ _ _ _ _ _). assert (buf_inv d1 ((flushed ++ staging_batches d) ++ [b])) as Hd1.
  { unfold d1. split; [done|]. split; [done|]. split; [apply Forall_app; split; [done|by apply (proj2 (Forall_singleton _ _))]|].
    cbn [buf_num_rows staging_num_rows staging_batches sorted_batches sorted_offsets]. rewrite !total_rows_app in *. cbn.
    split; [lia|]. split; [rewrite Hsn; lia|]. exists flushed, lss. split; [by rewrite app_assoc|done]. }
  case_decide; [|by exists d1].
  destruct (buf_flush_ok d1 _ Hd1) as (d' & -> & Hd' & _); [unfold d1; cbn; by destruct (staging_batches d)|done|done|]. by exists d'.
Qed.

(** The rows behind the labels. *)
Lemma labels_rows k bs : Forall good_batch bs → (labels k bs).*2 = rows_of bs.
Proof.
  clear. intros H. revert k. induction H as [|b bs (_ & _ & Hb) _ IH]; intros k; [done|]. unfold rows_of. cbn [PartitionSort.labels].
  rewrite fmap_cons, mjoin_cons, fmap_app, IH. f_equal. apply snd_zip. unfold assigned.
  destruct (Hb (start_rows P pid k)) as (ids & -> & Hl & _). unfold Joins.batch_rows. rewrite !length_fmap, length_seq. lia.
Qed.

(** What the inputs must be for a file: rows that a batch codec keeps, not too heavy for a block. *)
Definition light (inputs : list Batch) : Prop := (Z.of_nat (rows_weight (rows_of inputs)) < 2 ^ 32)%Z.

Lemma stored_keepable inputs : Forall stored inputs → Forall (Forall storable) (rows_of inputs).
Proof.
  clear. intros H. induction H as [|b bs (Hok & _ & Hst & _) _ IH]; [constructor|]. unfold rows_of. rewrite fmap_cons, mjoin_cons.
  apply Forall_app. split; [by apply SortMerge.storable_rows|done].
Qed.

Lemma buf_inv_flushed d inputs :
  buf_inv d inputs → in_bounds inputs → 0 < n → buf_num_rows d ≠ 0 →
  ∃ d' lss, (if decide (staging_batches d = []) then Ok d else flush_staging d) = Ok d' ∧ partitioning d' = P ∧
    Forall3 (partitioned null nf P) (sorted_batches d') (sorted_offsets d') lss ∧ mjoin lss = labels 0 inputs ∧ sorted_batches d' ≠ [].
Proof.
  intros Hinv Hb Hpos Hn0. case_decide as Hst.
  - destruct Hinv as (_ & HP & Hg & Hn & _ & flushed & lss & -> & Hparts & Hl). rewrite Hst, app_nil_r in *. exists d, lss.
    split; [done|]. split; [done|]. split; [done|]. split; [done|]. intros He. rewrite He in Hparts. inversion Hparts; subst.
    apply (f_equal length) in Hl. rewrite (labels_length null nf) in Hl by (done || lia). cbn in Hl. lia.
  - destruct (buf_flush_ok d inputs Hinv Hst Hb Hpos) as (d' & Hd' & Hinv' & Hst' & Hne). 
    destruct Hinv' as (_ & HP & Hg & Hn & _ & flushed & lss & He & Hparts & Hl). rewrite Hst', app_nil_r in He. subst flushed.
    by exists d', lss.
Qed.

Context `{Law : !FrameCodecOk E} (fit : blocks_bounded null weight) (alive : ∀ q, running q = true).

Lemma section_starts_empty k : section_starts (replicate k [] ++ [[]]) = replicate (k + 1) 0%Z.
Proof.
  clear. assert (replicate k ([] : bytes) ++ [[]] = replicate (k + 1) []) as -> by (by rewrite replicate_add).
  unfold section_starts. rewrite length_replicate. apply list_eq. intros q. rewrite list_lookup_fmap. destruct (decide (q < k + 1)).
  - rewrite lookup_seq_lt, lookup_replicate_2 by done. cbn. by rewrite take_replicate, mjoin_empties.
  - rewrite lookup_seq_ge by lia. rewrite lookup_ge_None_2; [done|]. rewrite length_replicate. lia.
Qed.

Lemma empty_labels inputs : Forall good_batch inputs → 0 < n → total_rows inputs = 0 → labels 0 inputs = [].
Proof. intros Hg Hpos Ht. apply nil_length_inv. by rewrite (labels_length null nf) by (done || lia). Qed.

Lemma buf_write_ok d inputs :
  buf_inv d inputs → Forall stored inputs → in_bounds inputs → light inputs → 0 < n → (Z.of_nat n < 2 ^ 31)%Z →
  ∃ offs out secs, buf_write d = Ok (offs, out) ∧ sections_file P (labels 0 inputs) offs out secs.
Proof using fit Law alive.
  intros Hinv Hst Hb Hlight Hpos Hn31. unfold buf_write. pose proof Hinv as (Hpid & HP & Hg & Hn & _). rewrite HP. case_decide as Hn0.
  - eexists _, _, (replicate n []). split; [done|]. split; [by rewrite mjoin_empties|]. split; [by rewrite length_replicate|].
    split; [by rewrite section_starts_empty|]. intros q sec [-> _]%lookup_replicate. exists [].
    split; [apply holds_nil|]. split; [constructor|]. rewrite (empty_labels inputs) by (done || lia). done.
  - destruct (buf_inv_flushed d inputs Hinv Hb Hpos Hn0) as (d' & lss & -> & HP' & Hparts & Hl & Hne). cbn [mbind Result_bind].
    destruct (pb_try_new_ok P (sorted_batches d') (sorted_offsets d') lss Hparts
      (compute_suggested_batch_size_for_output conf_batch_size conf_mem_size (mem_used d') (buf_num_rows d')) Hne)
      as (il & m & Hil & Hnew & Hci).
    unfold into_sorted_batches. rewrite HP', Hnew. cbn [mbind Result_bind].
    assert ((mjoin lss).*2 = rows_of inputs) as Hrows by (rewrite Hl; by apply labels_rows).
    pose proof (Forall3_length_lm _ _ _ _ Hparts) as Hlen. assert (0 < length (sorted_batches d')) by (destruct (sorted_batches d'); [done|cbn; lia]).
    destruct (write_chunks_ok P (sorted_batches d') (sorted_offsets d') lss Hparts fit) with (il := il)
      (bsz := compute_suggested_batch_size_for_output conf_batch_size conf_mem_size (mem_used d') (buf_num_rows d'))
      (lf := loop_fuel d') (fuel := loop_fuel d') (m := m) (last := @None nat) (outs := @nil (nat * nat)) (secs := @nil bytes)
      as (w & offsets & secs & Hloop & Hfile); try done.
    + by rewrite Hrows.
    + rewrite Hl, (labels_length null nf) by (done || lia). apply Hb.
    + rewrite Hrows. by apply stored_keepable.
    + unfold loop_fuel. rewrite HP'. lia.
    + unfold loop_fuel. rewrite HP'. cbn [length]. nia.
    + unfold ipc_new. change (mjoin []) with (@nil Z) in Hloop. change (section_starts []) with (@nil Z) in Hloop.
      rewrite Hloop. cbn [mbind Result_bind]. rewrite <- Hl. by exists (resize (n + 1) (count w) offsets), (output w), secs.
Qed.

Lemma buf_write_rss_ok d inputs :
  buf_inv d inputs → Forall stored inputs → in_bounds inputs → light inputs → 0 < n →
  ∃ pushed, buf_write_rss d = Ok pushed ∧ sections_pushed P (labels 0 inputs) pushed.
Proof using fit Law alive.
  intros Hinv Hst Hb Hlight Hpos. unfold buf_write_rss. pose proof Hinv as (Hpid & HP & Hg & Hn & _). case_decide as Hn0.
  - eexists. split; [done|]. intros q _. exists []. split; [apply holds_nil|]. split; [constructor|].
    rewrite (empty_labels inputs) by (done || lia). done.
  - destruct (buf_inv_flushed d inputs Hinv Hb Hpos Hn0) as (d' & lss & -> & HP' & Hparts & Hl & Hne). cbn [mbind Result_bind].
    destruct (pb_try_new_ok P (sorted_batches d') (sorted_offsets d') lss Hparts
      (compute_suggested_batch_size_for_output conf_batch_size conf_mem_size (mem_used d') (buf_num_rows d')) Hne)
      as (il & m & Hil & Hnew & Hci).
    unfold into_sorted_batches. rewrite HP', Hnew. cbn [mbind Result_bind].
    assert ((mjoin lss).*2 = rows_of inputs) as Hrows by (rewrite Hl; by apply labels_rows).
    pose proof (Forall3_length_lm _ _ _ _ Hparts) as Hlen. assert (0 < length (sorted_batches d')) by (destruct (sorted_batches d'); [done|cbn; lia]).
    destruct (write_rss_chunks_ok P (sorted_batches d') (sorted_offsets d') lss Hparts fit) with (il := il)
      (bsz := compute_suggested_batch_size_for_output conf_batch_size conf_mem_size (mem_used d') (buf_num_rows d'))
      (lf := loop_fuel d') (fuel := loop_fuel d') (m := m) (last := @None nat) (outs := @nil (nat * nat)) (secs := @nil bytes)
      (o := @nil Z) (pushed := @nil (nat * bytes))
      as (pushed & Hloop & Hfile); try done.
    + by rewrite Hrows.
    + rewrite Hl, (labels_length null nf) by (done || lia). apply Hb.
    + rewrite Hrows. by apply stored_keepable.
    + intros q. by rewrite nth_lookup.
    + unfold loop_fuel. rewrite HP'. lia.
    + unfold loop_fuel. rewrite HP'. cbn [length]. nia.
    + unfold ipc_new. rewrite Hloop. rewrite <- Hl. by exists pushed.
Qed.

End BufferedData.
