(* ===== verification/ShuffleWriter.v ===== *)
(** * Shuffle writers

    native-engine/datafusion-ext-plans/src/shuffle: sort_repartitioner.rs and
    rss_sort_repartitioner.rs over [BufferedData], single_repartitioner.rs and
    rss_single_repartitioner.rs for one partition.  When the memory manager asks for a spill
    is an argument of [insert_batch]; a spill gives back the bytes written to it.

    [shuffle_files_correct]: whatever the spills, the offsets of the index file delimit in
    the data file, for every partition, blocks that read back as batches of the rows of that
    partition.  [rss_pushes_correct] and [single_file_correct] state the same for the remote
    service and for one partition. *)

From stdpp Require Import sorting.
From S2P Require Import Prelude MachineInt RadixSort RadixQueue Joins SortKeys SortBlocks IpcCompression Offsetted Arrow ArrowRef ShufflePartitioning PartitionSort BufferedData.

Set Default Proof Using "Type".

Local Abbreviation bytes := (list Z).

Section ShuffleWriter.
Context {V : Type} (null : V) {nf : nat} `{Codec : BatchCodec V nf} {E : Type} `{Frame : FrameCodec E}.
Context `{Ops : ArrowOps} {Expr SortOptions : Type}.

Local Abbreviation Batch := (RecordBatch (V:=V)).
Local Abbreviation Partitioning := (Partitioning (Expr:=Expr) (SortOptions:=SortOptions)).
Local Abbreviation batch_rows := (batch_rows null).

Context (evaluate : Expr → Batch → Result Arrow.Array) (expr_type : Expr → Batch → Result DataType)
  (convert_columns : list (DataType * SortOptions) → list Arrow.Array → Result (list bytes)).
Context (mem_size : Batch → nat) (conf_batch_size conf_mem_size : nat) (full : nat → bool) (running : nat → bool).

Local Abbreviation buf_write :=
  (buf_write (E:=E) evaluate expr_type convert_columns mem_size conf_batch_size conf_mem_size full running).
Local Abbreviation buf_write_rss :=
  (buf_write_rss (E:=E) evaluate expr_type convert_columns mem_size conf_batch_size conf_mem_size full running).
Local Abbreviation add_batch := (add_batch evaluate expr_type convert_columns mem_size conf_batch_size conf_mem_size).

(** ** Files *)

(** The reader of a spill is its bytes. *)
Record SortShuffleRepartitioner := mkSortShuffle {
  data : BufferedData (V:=V) (Expr:=Expr) (SortOptions:=SortOptions);
  spills : list (Offsetted (T:=bytes));
  num_output_partitions : nat }.

Definition sort_shuffle_new (p : Partitioning) (partition_id : nat) : SortShuffleRepartitioner :=
  mkSortShuffle (buf_new p partition_id) [] (partition_count p).

Definition spill (s : SortShuffleRepartitioner) : Result SortShuffleRepartitioner :=
  let '(d, rest) := drain (data s) in
  '(offsets, out) ← buf_write d;
  Ok (mkSortShuffle rest (spills s ++ [mkOffsetted offsets out]) (num_output_partitions s)).

Definition spill_if (b : bool) (s : SortShuffleRepartitioner) : Result SortShuffleRepartitioner := if b then spill s else Ok s.

(** Whether the two updates of the memory in use spill, and whether a spill is forced. *)
Definition insert_batch (s : SortShuffleRepartitioner) (input : Batch) (before after forced : bool) : Result SortShuffleRepartitioner :=
  s ← spill_if before s;
  d ← add_batch (data s) input;
  s ← spill_if after (mkSortShuffle d (spills s) (num_output_partitions s));
  spill_if forced s.

(** [std::io::copy] of [reader.take(range.end - range.start)]. *)
Definition copy_range (reader : bytes) (range : Z * Z) : Result (bytes * bytes) :=
  let len := Z.to_nat (u64 (range.2 - range.1)) in
  Ok (drop len reader, take len reader).

Definition offsets_data (offsets : list Z) : bytes := mjoin ((λ offset, le_bytes 8 (i64 offset)) <$> offsets).

(** The data file and the index file. *)
Definition shuffle_write (s : SortShuffleRepartitioner) : Result (bytes * bytes) :=
  let '(d, _) := drain (data s) in
  if decide (spills s = []) then
    '(offsets, output_data) ← buf_write d;
    Ok (output_data, offsets_data offsets)
  else
    spills ← (if negb (buf_is_empty d) then '(offsets, out) ← buf_write d; Ok (spills s ++ [mkOffsetted offsets out]) else Ok (spills s));
    m ← merge_new (num_output_partitions s) spills;
    '(items, m) ← merge_all 64 copy_range (S (length spills * num_output_partitions s)) m;
    Ok (mjoin items.*2, offsets_data (merged_offsets m)).

(** ** The remote service *)

Record RssSortShuffleRepartitioner := mkRssSort {
  rss_data : BufferedData (V:=V) (Expr:=Expr) (SortOptions:=SortOptions);
  rss : list (nat * bytes) }.

Definition rss_new (p : Partitioning) (partition_id : nat) : RssSortShuffleRepartitioner := mkRssSort (buf_new p partition_id) [].

Definition rss_spill (s : RssSortShuffleRepartitioner) : Result RssSortShuffleRepartitioner :=
  let '(d, rest) := drain (rss_data s) in
  pushed ← buf_write_rss d;
  Ok (mkRssSort rest (rss s ++ pushed)).

Definition rss_spill_if (b : bool) (s : RssSortShuffleRepartitioner) : Result RssSortShuffleRepartitioner := if b then rss_spill s else Ok s.

Definition rss_insert_batch (s : RssSortShuffleRepartitioner) (input : Batch) (before after forced : bool)
    : Result RssSortShuffleRepartitioner :=
  s ← rss_spill_if before s;
  d ← add_batch (rss_data s) input;
  s ← rss_spill_if after (mkRssSort d (rss s));
  rss_spill_if forced s.

Definition rss_shuffle_write (s : RssSortShuffleRepartitioner) : Result RssSortShuffleRepartitioner := rss_spill s.

(** ** One partition *)

(** The writer of the data file, once there is a batch. *)
Record SingleShuffleRepartitioner := mkSingle { output_data : option (IpcCompressionWriter (E:=E)) }.

Definition get_output_writer (s : SingleShuffleRepartitioner) : IpcCompressionWriter (E:=E) :=
  match output_data s with None => ipc_new [] | Some w => w end.

Definition single_insert_batch (s : SingleShuffleRepartitioner) (input : Batch) : Result SingleShuffleRepartitioner :=
  w ← ipc_write_batch full (get_output_writer s) (num_rows input) (columns input);
  Ok (mkSingle (Some w)).

Definition single_shuffle_write (s : SingleShuffleRepartitioner) : Result (bytes * bytes) :=
  match output_data s with
  | Some w =>
      w ← finish_current_buf w;
      let offset := Z.of_nat (length (output w)) in
      Ok (output w, replicate 8 0%Z ++ le_bytes 8 (i64 offset))
  | None => Ok ([], replicate 16 0%Z)
  end.

(** The bytes pushed to partition 0 of the service. *)
Definition rss_single_insert_batch (w : IpcCompressionWriter (E:=E)) (input : Batch) : Result (IpcCompressionWriter (E:=E)) :=
  ipc_write_batch full w (num_rows input) (columns input).

Definition rss_single_shuffle_write (w : IpcCompressionWriter (E:=E)) : Result (IpcCompressionWriter (E:=E)) := finish_current_buf w.

(** A run of a writer: the input batches, each with the spills around it. *)
Definition insert_all (s : SortShuffleRepartitioner) (inputs : list (Batch * (bool * bool * bool))) : Result SortShuffleRepartitioner :=
  rfoldM (λ s '(b, (before, after, forced)), insert_batch s b before after forced) s inputs.

Definition rss_insert_all (s : RssSortShuffleRepartitioner) (inputs : list (Batch * (bool * bool * bool)))
    : Result RssSortShuffleRepartitioner :=
  rfoldM (λ s '(b, (before, after, forced)), rss_insert_batch s b before after forced) s inputs.

Definition single_insert_all (s : SingleShuffleRepartitioner) (inputs : list Batch) : Result SingleShuffleRepartitioner :=
  rfoldM single_insert_batch s inputs.

(** ** Sections of a file *)

Lemma section_split (secs : list bytes) p sec :
  secs !! p = Some sec →
  mjoin (take (S p) secs) = mjoin (take p secs) ++ sec ∧ mjoin secs = mjoin (take p secs) ++ sec ++ mjoin (drop (S p) secs).
Proof.
  clear. intros Hp. split.
  - rewrite (take_S_r _ _ _ Hp), join_app. cbn. by rewrite app_nil_r.
  - rewrite <- (take_drop_middle secs p sec Hp) at 1. by rewrite join_app, mjoin_cons.
Qed.

Lemma section_starts_nth (secs : list bytes) q :
  q ≤ length secs → nth q (section_starts (secs ++ [[]])) 0%Z = Z.of_nat (length (mjoin (take q secs))).
Proof.
  clear. intros Hq. unfold section_starts. rewrite nth_lookup, list_lookup_fmap, lookup_seq_lt by (rewrite length_app; cbn; lia).
  cbn. by rewrite take_app_le.
Qed.

Lemma before_S (xs : list (nat * nat)) q :
  StronglySorted (λ x y : nat * nat, x.2 ≤ y.2) xs → before (S q) xs = before q xs ++ filter (λ x, x.2 = q) xs.
Proof.
  clear. intros Hs. pose proof (sorted_by_key_split snd xs q Hs) as E. unfold before.
  transitivity (filter (λ x : nat * nat, x.2 < S q) (filter (λ x, x.2 < q) xs ++ filter (λ x, x.2 = q) xs ++ filter (λ x, q < x.2) xs)); [by f_equal|].
  rewrite !filter_app. rewrite (filter_all _ (filter (λ x, x.2 < q) xs)), (filter_all _ (filter (λ x, x.2 = q) xs)),
    (filter_none _ (filter (λ x, q < x.2) xs)), app_nil_r; [done|..]; intros x [Hx _]%list_elem_of_filter; lia.
Qed.

(** Sorted items group by partition. *)
Lemma before_join (xs : list (nat * nat)) q :
  StronglySorted (λ x y : nat * nat, x.2 ≤ y.2) xs → before q xs = mjoin ((λ p, filter (λ x, x.2 = p) xs) <$> seq 0 q).
Proof.
  clear. intros Hs. induction q as [|q IH].
  - unfold before. apply filter_none. intros x _. lia.
  - rewrite before_S, IH, seq_S, fmap_app, join_app by done. cbn. by rewrite app_nil_r.
Qed.

Lemma mjoin_fmap {A B} (f : A → list B) (ls : list (list A)) : mjoin (f <$> mjoin ls) = mjoin ((λ l, mjoin (f <$> l)) <$> ls).
Proof. clear. induction ls as [|l ls IH]; [done|]. by rewrite mjoin_cons, fmap_app, join_app, IH, fmap_cons, mjoin_cons. Qed.

Lemma join_indices {A} (f : nat → list A) k js :
  NoDup js → (∀ j, j ∈ js → j < k) → (∀ j, j < k → j ∉ js → f j = []) → mjoin (f <$> js) ≡ₚ mjoin (f <$> seq 0 k).
Proof.
  clear. intros Hnd Hlt Hf. assert (js ⊆+ seq 0 k) as [rest Hrest]%submseteq_Permutation.
  { apply NoDup_submseteq; [done|]. intros j Hj. apply elem_of_seq. specialize (Hlt j Hj). lia. }
  rewrite (mjoin_Permutation _ _ (fmap_Permutation f _ _ Hrest)), fmap_app, join_app.
  assert (mjoin (f <$> rest) = []) as ->; [|by rewrite app_nil_r].
  pose proof (NoDup_seq 0 k) as Hn. rewrite Hrest in Hn. apply NoDup_app in Hn as (_ & Hdis & _).
  assert (∀ j, j ∈ rest → f j = []) as Hr.
  { intros j Hj. apply Hf; [|intros Hjs; by apply (Hdis j)]. assert (j ∈ seq 0 k) as Hs by (rewrite Hrest; set_solver).
    apply elem_of_seq in Hs. lia. }
  clear -Hr. induction rest as [|j rest IH]; [done|]. rewrite fmap_cons, mjoin_cons, Hr by set_solver. apply IH. set_solver.
Qed.

Lemma rows_for_mjoin q (lss : list (list (nat * list V))) :
  rows_for q (mjoin lss) = mjoin ((λ j, rows_for q (nth j lss [])) <$> seq 0 (length lss)).
Proof.
  clear. induction lss as [|ls lss IH]; [done|]. rewrite mjoin_cons, rows_for_app, IH. cbn [length seq]. rewrite fmap_cons, mjoin_cons.
  f_equal. rewrite <- fmap_S_seq, <- list_fmap_compose. done.
Qed.

Section Merge.
Context (weight : list V → nat) (P : Partitioning).

Local Abbreviation n := (partition_count P).
Local Abbreviation sections_file := (sections_file null weight P).
Local Abbreviation rows_of := (rows_of null).

Context (sps : list (Offsetted (T:=bytes))) (lss : list (list (nat * list V))) (secss : list (list bytes)).
Context (files : Forall3 (λ sp ls secs, sections_file ls (offsets sp) (Offsetted.data sp) secs) sps lss secss).

Local Abbreviation offss := (offsets <$> sps).
Local Abbreviation is_seg := (is_seg n offss).

Definition sec_of (x : nat * nat) : bytes := nth x.2 (nth x.1 secss []) [].
Definition rest_at (j : nat) (z : Z) (d : bytes) : Prop := d = drop (Z.to_nat z) (nth j (Offsetted.data <$> sps) []).

Lemma file_at j q : j < length sps → q < n →
  ∃ sp ls secs, sps !! j = Some sp ∧ lss !! j = Some ls ∧ secss !! j = Some secs ∧ sections_file ls (offsets sp) (Offsetted.data sp) secs ∧
    secs !! q = Some (sec_of (j, q)) ∧ seg_at offss j q = Z.of_nat (length (mjoin (take q secs))) ∧
    seg_at offss j (q + 1) = (Z.of_nat (length (mjoin (take q secs))) + Z.of_nat (length (sec_of (j, q))))%Z.
Proof using files.
  clear full running. intros Hj Hq. destruct (lookup_lt_is_Some_2 sps j Hj) as [sp Hsp]. destruct (Forall3_lookup_l _ _ _ _ _ _ files Hsp) as (ls & secs & Hl & Hs & Hf).
  pose proof Hf as (Ho & Hlen & Hst & _). exists sp, ls, secs.
  assert (secs !! q = Some (sec_of (j, q))) as Hsec.
  { unfold sec_of. cbn [fst snd]. rewrite (nth_lookup_Some _ _ _ _ Hs), nth_lookup. destruct (lookup_lt_is_Some_2 secs q) as [sec Hsec]; [lia|]. by rewrite Hsec. }
  split; [done|]. split; [done|]. split; [done|]. split; [done|]. split; [done|].
  assert (∀ r, r ≤ n → seg_at offss j r = Z.of_nat (length (mjoin (take r secs)))) as Hat.
  { intros r Hr. unfold seg_at, at_. rewrite (nth_lookup_Some offss j [] (offsets sp)) by (by rewrite list_lookup_fmap, Hsp).
    rewrite Hst. apply section_starts_nth. lia. }
  rewrite !Hat by lia. split; [done|]. rewrite Nat.add_1_r. destruct (section_split secs q _ Hsec) as [-> _]. rewrite length_app. lia.
Qed.

Lemma seg_len_sec j q : j < length sps → q < n → seg_len offss (j, q) = Z.of_nat (length (sec_of (j, q))).
Proof using files.
  clear full running. intros Hj Hq. destruct (file_at j q Hj Hq) as (sp & ls & secs & _ & _ & _ & _ & _ & H1 & H2). unfold seg_len. cbn [fst snd]. lia.
Qed.

(** Reading a partition of a spill gives its section. *)
Lemma copy_law j q d : is_seg (j, q) → rest_at j (seg_at offss j q) d →
  copy_range d (seg_range offss j q) = Ok (drop (length (sec_of (j, q))) d, sec_of (j, q)) ∧
  rest_at j (seg_at offss j (q + 1)) (drop (length (sec_of (j, q))) d).
Proof using files.
  clear full running. intros (Hj & Hq & _) Hd. cbn [fst snd] in Hj, Hq. rewrite length_fmap in Hj. unfold rest_at in *.
  destruct (file_at j q Hj Hq) as (sp & ls & secs & Hsp & Hl & Hs & Hf & Hsec & H1 & H2).
  pose proof Hf as (Ho & _ & _ & Hholds). destruct (Hholds q _ Hsec) as (_ & _ & _ & _ & Hlt).
  unfold copy_range, seg_range. cbn [fst snd]. rewrite H1, H2 in *.
  assert (u64 (Z.of_nat (length (mjoin (take q secs))) + Z.of_nat (length (sec_of (j, q))) - Z.of_nat (length (mjoin (take q secs))))
    = Z.of_nat (length (sec_of (j, q)))) as ->.
  { replace (_ + _ - _)%Z with (Z.of_nat (length (sec_of (j, q)))) by lia. apply wrapu_id. unfold in_u. lia. }
  rewrite (nth_lookup_Some (Offsetted.data <$> sps) j [] (Offsetted.data sp)) in * by (by rewrite list_lookup_fmap, Hsp).
  destruct (section_split secs q _ Hsec) as [_ Hout]. rewrite Nat2Z.id in *. subst d. split.
  - f_equal. f_equal. by rewrite Ho, Hout, drop_app_length, take_app_length.
  - rewrite drop_drop. f_equal. lia.
Qed.

Lemma items_sections outs (items : list (nat * bytes)) :
  (∀ x, x ∈ outs → is_seg x) → Forall2 (item_of offss rest_at copy_range) outs items → items.*2 = sec_of <$> outs.
Proof using files.
  clear full running. intros Hseg H. induction H as [|[j q] item outs items (_ & d & d' & Hd & Hu) _ IH]; [done|]. cbn [fst snd] in *. rewrite !fmap_cons.
  rewrite IH by set_solver. f_equal. destruct (copy_law j q d) as [Hc _]; [apply Hseg; set_solver|done|]. congruence.
Qed.

Lemma lens_sections outs : (∀ x, x ∈ outs → is_seg x) → lens offss outs = Z.of_nat (length (mjoin (sec_of <$> outs))).
Proof using files.
  clear full running. intros Hseg. induction outs as [|[j q] outs IH]; [done|]. cbn [lens foldr]. unfold lens in IH. rewrite IH by set_solver.
  destruct (Hseg (j, q)) as (Hj & Hq & _); [set_solver|]. cbn [fst snd] in *. rewrite length_fmap in Hj.
  rewrite seg_len_sec, fmap_cons, mjoin_cons, length_app by done. lia.
Qed.

(** The sections of one partition in several files hold its rows in all of them. *)
Lemma sections_join q xs :
  q < n → (∀ x, x ∈ xs → x.1 < length sps ∧ x.2 = q) →
  ∃ bs, holds null weight (mjoin (sec_of <$> xs)) bs ∧ Forall stored bs ∧
    rows_of bs ≡ₚ mjoin ((λ j, rows_for q (nth j lss [])) <$> xs.*1).
Proof using files.
  clear full running. intros Hq. induction xs as [|[j r] xs IH]; intros Hxs; [by exists []; split; [apply holds_nil|split; [constructor|]]|].
  destruct (Hxs (j, r)) as [Hj Hr]; [set_solver|]. cbn [fst snd] in Hj, Hr. subst r. destruct IH as (bs2 & Hh2 & Hs2 & Hr2); [set_solver|].
  destruct (file_at j q Hj Hq) as (sp & ls & secs & Hsp & Hl & Hs & Hf & Hsec & _). destruct Hf as (_ & _ & _ & Hf).
  destruct (Hf q _ Hsec) as (bs1 & Hh1 & Hs1 & Hr1 & _). exists (bs1 ++ bs2). rewrite !fmap_cons, !mjoin_cons. split; [by apply holds_app|].
  split; [by apply Forall_app|]. unfold BufferedData.rows_of. rewrite fmap_app, join_app. cbn [fst]. rewrite (nth_lookup_Some _ _ _ _ Hl).
  by apply Permutation_app.
Qed.

(** A section without bytes holds no rows, so the merge loses none by skipping it. *)
Lemma empty_section j q : j < length sps → q < n → sec_of (j, q) = [] → rows_for q (nth j lss []) = [].
Proof using files.
  clear full running. intros Hj Hq He. destruct (file_at j q Hj Hq) as (sp & ls & secs & Hsp & Hl & Hs & Hf & Hsec & _). destruct Hf as (_ & _ & _ & Hf).
  destruct (Hf q _ Hsec) as (bs & Hh & Hst & Hr & _). rewrite He in Hh. rewrite (nth_lookup_Some _ _ _ _ Hl).
  pose proof (read_file_holds null weight [] bs (S (length bs)) Hst Hh ltac:(lia)) as Hread.
  assert (bs = []) as ->; [|by apply Permutation_nil_r; symmetry].
  unfold read_file in Hread. change (ipc_reader []) with (@Ok bytes []) in Hread. cbn [mbind Result_bind ipc_read_batches] in Hread.
  rewrite codec_end in Hread. cbn [mbind Result_bind] in Hread. by injection Hread as <-.
Qed.

Lemma merge_sections outs :
  NoDup outs → (∀ x, x ∈ outs ↔ is_seg x) → StronglySorted (λ x y : nat * nat, x.2 ≤ y.2) outs →
  (Z.of_nat (rows_weight weight (mjoin lss).*2) < 2 ^ 32)%Z → (Z.of_nat n < 2 ^ 31)%Z →
  ∃ secs, sections_file (mjoin lss) (merged_of 64 n offss outs) (mjoin (sec_of <$> outs)) secs.
Proof using files.
  clear full running. intros Hnd Hseg Hsort Hlight Hn. exists ((λ q, mjoin (sec_of <$> filter (λ x, x.2 = q) outs)) <$> seq 0 n).
  assert (Hall : ∀ q, q < n → ∃ bs, holds null weight (mjoin (sec_of <$> filter (λ x, x.2 = q) outs)) bs ∧ Forall stored bs ∧
    rows_of bs ≡ₚ rows_for q (mjoin lss) ∧ (Z.of_nat (length (mjoin (sec_of <$> filter (λ x, x.2 = q) outs))) < 2 ^ 32)%Z).
  { intros q Hq. destruct (sections_join q (filter (λ x, x.2 = q) outs) Hq) as (bs & Hh & Hst & Hr).
    { intros x [Hx Hin]%list_elem_of_filter. apply Hseg in Hin as (Hj & _). by rewrite length_fmap in Hj. }
    exists bs. split; [done|]. split; [done|].
    assert (rows_of bs ≡ₚ rows_for q (mjoin lss)) as Hrows.
    { rewrite Hr, rows_for_mjoin. apply join_indices.
      - apply NoDup_fmap_2_strong; [|by apply NoDup_filter]. intros [j1 q1] [j2 q2] [H1 _]%list_elem_of_filter [H2 _]%list_elem_of_filter. cbn in *. congruence.
      - intros j (x & -> & [_ Hx]%list_elem_of_filter)%list_elem_of_fmap. apply Hseg in Hx as (Hj & _).
        rewrite length_fmap in Hj. by rewrite <- (Forall3_length_lm _ _ _ _ files).
      - intros j Hj Hnot. rewrite <- (Forall3_length_lm _ _ _ _ files) in Hj. apply empty_section; [done|done|].
        destruct (sec_of (j, q)) as [|b l] eqn:Es; [done|]. exfalso. apply Hnot. apply list_elem_of_fmap. exists (j, q).
        split; [done|]. apply list_elem_of_filter. split; [done|]. apply Hseg. split; [by rewrite length_fmap|]. split; [done|].
        destruct (file_at j q Hj Hq) as (? & ? & ? & _ & _ & _ & _ & _ & H1 & H2). rewrite Es in H2. cbn [fst snd length] in *. lia. }
    split; [done|]. destruct Hh as [Hlen _]. unfold batches_weight in Hlen. fold (rows_of bs) in Hlen.
    assert (rows_of bs ⊆+ (mjoin lss).*2) as Hsub by (rewrite Hrows; apply rows_for_submseteq).
    apply (rows_weight_submseteq weight) in Hsub. unfold rows_weight in *. lia. }
  assert (Hbefore : ∀ q, mjoin (sec_of <$> before q outs) = mjoin ((λ q, mjoin (sec_of <$> filter (λ x, x.2 = q) outs)) <$> seq 0 q)).
  { intros q. rewrite before_join by done. rewrite mjoin_fmap, <- list_fmap_compose. done. }
  split; [|split; [|split]].
  - rewrite <- Hbefore. by rewrite before_all by (apply Forall_forall; intros x (_ & Hx & _)%Hseg; done).
  - by rewrite length_fmap, length_seq.
  - unfold merged_of, section_starts. rewrite length_app, length_fmap, length_seq. cbn [length]. apply list_fmap_ext. intros i q [-> Hq]%lookup_seq.
    cbn [Nat.add]. rewrite take_app_le, <- fmap_take, take_seq, Nat.min_l by (rewrite ?length_fmap, ?length_seq; lia). rewrite <- Hbefore.
    rewrite lens_sections by (intros x [_ Hx]%list_elem_of_filter; by apply Hseg). apply wrapu_id. rewrite Hbefore.
    assert (Z.of_nat (length (mjoin ((λ q, mjoin (sec_of <$> filter (λ x, x.2 = q) outs)) <$> seq 0 i))) <= Z.of_nat i * 2 ^ 32)%Z; [|unfold in_u; lia].
    assert (i ≤ n) as Hi by lia. clear -Hall Hi. induction i as [|i IH]; [done|]. rewrite seq_S, fmap_app, join_app, length_app. cbn [Nat.add].
    destruct (Hall i ltac:(lia)) as (_ & _ & _ & _ & Hlt). specialize (IH ltac:(lia)). rewrite fmap_cons, mjoin_cons. cbn [fmap list_fmap].
    change (mjoin []) with (@nil Z). rewrite app_nil_r. lia.
  - intros q sec Hq. rewrite list_lookup_fmap in Hq. destruct (seq 0 n !! q) as [q'|] eqn:Eq; [|done]. apply lookup_seq in Eq as [-> Hqn].
    injection Hq as <-. by apply Hall.
Qed.

End Merge.

(** ** Reading the index *)

(** Offset [q] of an index file, and a section of a data file. *)
Definition index_at (index : bytes) (q : nat) : Z := le_val (take 8 (drop (8 * q) index)).
Definition section (data : bytes) (a b : Z) : bytes := take (Z.to_nat (b - a)) (drop (Z.to_nat a) data).

Lemma chunk_at {A} (f : A → bytes) (l : list A) k q x :
  (∀ y, length (f y) = k) → l !! q = Some x → take k (drop (k * q) (mjoin (f <$> l))) = f x.
Proof.
  clear. intros Hf. revert q. induction l as [|y l IH]; intros [|q] Hq; try done; rewrite fmap_cons, mjoin_cons.
  - injection Hq as ->. by rewrite Nat.mul_0_r, drop_0, take_app_length'.
  - rewrite Nat.mul_succ_r, Nat.add_comm, <- drop_drop, drop_app_length' by done. by apply IH.
Qed.

Lemma index_at_ok offsets q o :
  offsets !! q = Some o → (0 <= o < 2 ^ 63)%Z → index_at (offsets_data offsets) q = o.
Proof.
  clear. intros Hq Ho. unfold index_at, offsets_data. rewrite (chunk_at _ _ 8 q o) by (done || (intros; apply length_le_bytes)).
  unfold i64. rewrite le_val_le_bytes, wraps_id by (unfold in_s; lia). apply wrapu_id. change (8 * Z.of_nat 8)%Z with 64%Z. unfold in_u. lia.
Qed.

Section Correct.
Context (weight : list V → nat) (P : Partitioning) (pid : nat).

Local Abbreviation n := (partition_count P).
Local Abbreviation sections_file := (sections_file null weight P).
Local Abbreviation rows_of := (rows_of null).
Local Abbreviation labels := (labels null evaluate expr_type convert_columns P pid).
Local Abbreviation good_batch := (good_batch nf evaluate expr_type convert_columns P).
Local Abbreviation buf_inv := (buf_inv null (nf:=nf) evaluate expr_type convert_columns P pid).

(** Each partition of the two files reads back as batches of its rows among [ls]. *)
Definition files_hold (data index : bytes) (ls : list (nat * list V)) : Prop :=
  length index = 8 * (n + 1) ∧ index_at index 0 = 0%Z ∧ index_at index n = Z.of_nat (length data) ∧
  ∀ q, q < n → (0 <= index_at index q <= index_at index (q + 1))%Z ∧ (index_at index (q + 1) <= Z.of_nat (length data))%Z ∧
    ∃ bs, read_file (E:=E) (S (length bs)) (section data (index_at index q) (index_at index (q + 1))) = Ok bs ∧
      rows_of bs ≡ₚ rows_for q ls.

Lemma files_hold_sections ls offs out secs :
  sections_file ls offs out secs → 0 < n → (Z.of_nat n < 2 ^ 31)%Z → files_hold out (offsets_data offs) ls.
Proof.
  clear full running. intros (-> & Hlen & -> & Hsec) Hn0 Hn.
  assert (∀ k, k ≤ n → (Z.of_nat (length (mjoin (take k secs))) <= Z.of_nat k * 2 ^ 32)%Z) as Hbound.
  { intros k Hk. induction k as [|k IH]; [done|]. specialize (IH ltac:(lia)).
    destruct (lookup_lt_is_Some_2 secs k) as [sec Hs]; [lia|]. destruct (section_split secs k sec Hs) as [-> _].
    destruct (Hsec k sec Hs) as (_ & _ & _ & _ & ?). rewrite length_app. lia. }
  assert (∀ k, k ≤ n → index_at (offsets_data (section_starts (secs ++ [[]]))) k = Z.of_nat (length (mjoin (take k secs)))) as Hat.
  { intros k Hk. specialize (Hbound k Hk). apply index_at_ok; [|lia]. rewrite <- section_starts_nth by lia.
    destruct (nth_lookup_or_length (section_starts (secs ++ [[]])) k 0%Z) as [E1|E1]; [done|].
    unfold section_starts in E1. rewrite length_fmap, length_seq, length_app in E1. cbn in E1. lia. }
  split; [|split; [|split]].
  - unfold offsets_data. assert (length (section_starts (secs ++ [[]])) = n + 1) as <-.
    { unfold section_starts. rewrite length_fmap, length_seq, length_app. cbn. lia. }
    generalize (section_starts (secs ++ [[]])) as l. intros l. induction l as [|o l IH]; [done|].
    rewrite fmap_cons, mjoin_cons, length_app, IH, length_le_bytes. cbn [length]. lia.
  - by rewrite Hat by lia.
  - rewrite Hat by lia. by rewrite take_ge by lia.
  - intros q Hq. rewrite !Hat by lia. destruct (lookup_lt_is_Some_2 secs q) as [sec Hs]; [lia|].
    destruct (section_split secs q sec Hs) as [Ht Hj]. destruct (Hsec q sec Hs) as (bs & Hh & Hst & Hr & _).
    rewrite Nat.add_1_r, Ht, Hj, !length_app. split; [lia|]. split; [lia|]. exists bs. split; [|done].
    unfold section. rewrite Nat2Z.id, drop_app_length.
    rewrite take_app_length' by lia. apply (read_file_holds null weight); [done|done|lia].
Qed.

Context `{Law : !FrameCodecOk E} (fit : blocks_bounded null weight) (alive : ∀ q, running q = true).
Context (n_pos : 0 < n) (n_small : (Z.of_nat n < 2 ^ 31)%Z).

(** What is asked of the batches of a task together. *)
Definition inputs_ok (inputs : list Batch) : Prop :=
  Forall good_batch inputs ∧ Forall stored inputs ∧ in_bounds pid inputs ∧ light null weight inputs.

Lemma inputs_ok_part l1 l2 l3 : inputs_ok (l1 ++ l2 ++ l3) → inputs_ok l2.
Proof.
  clear. intros (Hg & Hs & Hb & Hl). split; [|split; [|split]].
  - by apply Forall_app in Hg as [_ [Hg _]%Forall_app].
  - by apply Forall_app in Hs as [_ [Hs _]%Forall_app].
  - unfold in_bounds, total_rows in *. rewrite !length_app, !sum_list_with_app in Hb. lia.
  - unfold light in *. rewrite !buf_rows_app in Hl. unfold rows_weight in *. rewrite !fmap_app, !sum_list_with_app in Hl. lia.
Qed.

Record shuffle_inv (s : SortShuffleRepartitioner) (epochs : list (list Batch)) (current : list Batch) : Prop := {
  si_parts : num_output_partitions s = n;
  si_data : buf_inv (data s) current;
  si_good : Forall good_batch (mjoin epochs);
  si_spills : ∃ secss, Forall3 (λ sp ls secs, sections_file ls (offsets sp) (Offsetted.data sp) secs)
                (spills s) (labels 0 <$> epochs) secss }.

Lemma shuffle_spill_ok s epochs current :
  shuffle_inv s epochs current → inputs_ok current → ∃ s', spill s = Ok s' ∧ shuffle_inv s' (epochs ++ [current]) [].
Proof using fit alive Law n_pos n_small.
  intros [Hp Hd Hg (secss & Hs)] (Hgc & Hst & Hb & Hl). unfold spill, drain.
  destruct (buf_write_ok null evaluate expr_type convert_columns mem_size conf_batch_size conf_mem_size full running weight P pid fit alive
    (data s) current Hd Hst Hb Hl n_pos n_small) as (offs & out & secs & -> & Hfile). cbn [mbind Result_bind]. eexists. split; [done|].
  split; [done| | |].
  - destruct Hd as (-> & -> & _). apply buf_new_inv.
  - rewrite join_app. apply Forall_app. split; [done|]. cbn. by rewrite app_nil_r.
  - exists (secss ++ [secs]). cbn [spills]. rewrite fmap_app. apply Forall3_app; [done|]. cbn. constructor; [done|constructor].
Qed.

Lemma spill_if_ok b s epochs current :
  shuffle_inv s epochs current → inputs_ok current →
  ∃ s' epochs' current', spill_if b s = Ok s' ∧ shuffle_inv s' epochs' current' ∧ mjoin epochs' ++ current' = mjoin epochs ++ current.
Proof using fit alive Law n_pos n_small.
  intros Hs Hi. destruct b; [|by exists s, epochs, current]. destruct (shuffle_spill_ok s epochs current Hs Hi) as (s' & Hsp & Hs').
  exists s', (epochs ++ [current]), []. split; [done|]. split; [done|]. rewrite join_app. cbn. by rewrite !app_nil_r.
Qed.

(** The current batches are the last of all. *)
Lemma current_ok epochs current epochs' current' later :
  inputs_ok (mjoin epochs ++ current ++ later) → mjoin epochs' ++ current' = mjoin epochs ++ current → inputs_ok current'.
Proof. clear. intros Hi He. apply (inputs_ok_part (mjoin epochs') current' later). by rewrite app_assoc, He, <- app_assoc. Qed.

Lemma insert_batch_ok s epochs current b before after forced :
  shuffle_inv s epochs current → inputs_ok (mjoin epochs ++ current ++ [b]) →
  ∃ s' epochs' current', insert_batch s b before after forced = Ok s' ∧ shuffle_inv s' epochs' current' ∧
    mjoin epochs' ++ current' = mjoin epochs ++ current ++ [b].
Proof using fit alive Law n_pos n_small.
  intros Hs Hi. unfold insert_batch.
  destruct (spill_if_ok before s epochs current Hs) as (s1 & e1 & c1 & -> & Hs1 & E1); [by eapply current_ok|]. cbn [mbind Result_bind].
  assert (inputs_ok (mjoin e1 ++ (c1 ++ [b]) ++ [])) as Hi1 by (by rewrite app_nil_r, app_assoc, E1, <- app_assoc).
  destruct Hs1 as [Hp1 Hd1 Hg1 Hsp1]. apply inputs_ok_part in Hi1 as Hi1'.
  destruct (add_batch_ok null evaluate expr_type convert_columns mem_size conf_batch_size conf_mem_size P pid (data s1) c1 b Hd1) as (d & -> & Hd).
  { destruct Hi1' as (Hg & _). apply Forall_app in Hg as [_ Hg]. by apply (proj1 (Forall_singleton _ _)) in Hg. }
  { apply Hi1'. } { done. }
  cbn [mbind Result_bind]. set (s2 := mkSortShuffle d (spills s1) (num_output_partitions s1)).
  assert (shuffle_inv s2 e1 (c1 ++ [b])) as Hs2 by (by split).
  destruct (spill_if_ok after s2 _ _ Hs2 Hi1') as (s3 & e3 & c3 & -> & Hs3 & E3). cbn [mbind Result_bind].
  destruct (spill_if_ok forced s3 _ _ Hs3) as (s4 & e4 & c4 & -> & Hs4 & E4); [by eapply current_ok|].
  exists s4, e4, c4. split; [done|]. split; [done|]. by rewrite E4, E3, app_assoc, E1, <- app_assoc.
Qed.

Lemma insert_all_ok inputs s epochs current :
  shuffle_inv s epochs current → inputs_ok (mjoin epochs ++ current ++ inputs.*1) →
  ∃ s' epochs' current', insert_all s inputs = Ok s' ∧ shuffle_inv s' epochs' current' ∧
    mjoin epochs' ++ current' = mjoin epochs ++ current ++ inputs.*1.
Proof using fit alive Law n_pos n_small.
  revert s epochs current. induction inputs as [|[b [[f1 f2] f3]] inputs IH]; intros s epochs current Hs Hi.
  { exists s, epochs, current. cbn. by rewrite app_nil_r. }
  unfold insert_all. cbn [rfoldM]. rewrite fmap_cons in *. cbn [fst] in *.
  destruct (insert_batch_ok s epochs current b f1 f2 f3 Hs) as (s1 & e1 & c1 & -> & Hs1 & E1).
  { apply (inputs_ok_part [] _ (inputs.*1)). cbn [app]. by rewrite <- !app_assoc. }
  cbn [mbind Result_bind]. destruct (IH s1 e1 c1 Hs1) as (s' & e' & c' & Hr & Hs' & E').
  { by rewrite app_assoc, E1, <- !app_assoc. }
  exists s', e', c'. split; [done|]. split; [done|]. by rewrite E', app_assoc, E1, <- !app_assoc.
Qed.

Lemma spills_rows epochs : Forall good_batch (mjoin epochs) → (mjoin (labels 0 <$> epochs)).*2 = rows_of (mjoin epochs).
Proof.
  clear. induction epochs as [|e epochs IH]; intros Hg; [done|]. rewrite fmap_cons, !mjoin_cons, fmap_app in *.
  apply Forall_app in Hg as [Hg1 Hg]. rewrite IH by done. rewrite buf_rows_app. f_equal. by apply (labels_rows null (nf:=nf)).
Qed.

(** The end of a run with spills: the merge of all of them. *)
Lemma merge_epochs_ok sps epochs secss :
  Forall3 (λ sp ls secs, sections_file ls (offsets sp) (Offsetted.data sp) secs) sps (labels 0 <$> epochs) secss →
  sps ≠ [] → Forall good_batch (mjoin epochs) → light null weight (mjoin epochs) →
  ∃ items m offs secs, (m ← merge_new n sps; merge_all 64 copy_range (S (length sps * n)) m) = Ok (items, m) ∧
    merged_offsets m = offs ∧ sections_file (mjoin (labels 0 <$> epochs)) offs (mjoin items.*2) secs.
Proof using n_pos n_small.
  clear fit alive Law full running. intros Hfiles Hne Hg Hl.
  destruct (merge_run_ok 64 n (offsets <$> sps) (rest_at sps) copy_range) with (os := sps)
    as (outs & items & m & Hrun & Hnd & Hseg & Hsort & Hitems & Hmo); [| |done|done| |].
  - apply Forall_fmap, Forall_lookup. intros j sp Hsp. destruct (Forall3_lookup_l _ _ _ _ _ _ Hfiles Hsp) as (ls & secs & _ & _ & Hf).
    destruct Hf as (_ & Hlen & Ho & _). cbn. rewrite Ho. unfold section_starts. rewrite length_fmap, length_seq, length_app. cbn. lia.
  - intros j q d Hs Hd. eexists _, _. by apply (copy_law weight P sps (labels 0 <$> epochs) secss Hfiles).
  - intros j sp Hsp. unfold rest_at. pose proof (lookup_lt_Some _ _ _ Hsp) as Hj.
    destruct (file_at weight P sps (labels 0 <$> epochs) secss Hfiles j 0 Hj ltac:(lia)) as (? & ? & ? & _ & _ & _ & _ & _ & -> & _).
    cbn. by rewrite (nth_lookup_Some _ _ _ (Offsetted.data sp)) by (by rewrite list_lookup_fmap, Hsp).
  - destruct (merge_sections weight P sps (labels 0 <$> epochs) secss Hfiles outs Hnd Hseg Hsort) as (secs & Hsecs); [|done|].
    { rewrite spills_rows by done. exact Hl. }
    rewrite length_fmap in Hrun. exists items, m, (merged_of 64 n (offsets <$> sps) outs), secs. split; [done|]. split; [done|].
    by rewrite (items_sections weight P sps (labels 0 <$> epochs) secss Hfiles outs items) by (by intros x ?%Hseg || done).
Qed.

Lemma shuffle_write_ok s epochs current :
  shuffle_inv s epochs current → inputs_ok (mjoin epochs ++ current) →
  ∃ data index epochs', shuffle_write s = Ok (data, index) ∧ mjoin epochs' = mjoin epochs ++ current ∧
    files_hold data index (mjoin (labels 0 <$> epochs')).
Proof using fit alive Law n_pos n_small.
  intros [Hp Hd Hg (secss & Hs)] Hi. pose proof Hi as (Hga & Hsa & Hba & Hla).
  destruct (inputs_ok_part (mjoin epochs) current []) as (Hgc & Hst & Hb & Hl); [by rewrite app_nil_r|].
  pose proof (buf_write_ok null evaluate expr_type convert_columns mem_size conf_batch_size conf_mem_size full running weight P pid fit alive
    (data s) current Hd Hst Hb Hl n_pos n_small) as (offs & out & secs & Hw & Hfile).
  unfold shuffle_write, drain. case_decide as Hsp.
  - rewrite Hsp in Hs. inversion Hs as [E1 E2|]; subst. destruct epochs; [|done]. rewrite Hw. cbn [mbind Result_bind].
    eexists _, _, [current]. split; [done|]. split; [cbn; by rewrite app_nil_r|]. cbn. rewrite app_nil_r. by eapply files_hold_sections.
  - destruct (buf_is_empty (data s)) eqn:He; cbn [negb].
    + assert (labels 0 current = []) as Hnil.
      { unfold buf_is_empty in He. apply andb_true_iff in He as [He1%bool_decide_eq_true He2%bool_decide_eq_true].
        destruct Hd as (_ & _ & _ & _ & _ & flushed & lss & Hcur & Hparts & Hlab). rewrite He2, app_nil_r in Hcur. subst flushed.
        rewrite He1 in Hparts. inversion Hparts; subst. done. }
      cbn [mbind Result_bind]. destruct (merge_epochs_ok (spills s) epochs secss Hs Hsp Hg) as (items & m & offs' & secs' & Hrun & Hmo & Hf).
      { unfold light in *. rewrite buf_rows_app in Hla. unfold rows_weight in *. rewrite fmap_app, sum_list_with_app in Hla. lia. }
      rewrite Hp. apply bind_Ok in Hrun as (m0 & -> & Hrun). cbn [mbind Result_bind]. rewrite Hrun. cbn [mbind Result_bind].
      eexists _, _, (epochs ++ [current]). split; [done|]. split; [rewrite join_app; cbn; by rewrite app_nil_r|].
      rewrite fmap_app, join_app. cbn [fmap list_fmap]. rewrite Hnil. cbn. rewrite app_nil_r, Hmo. by eapply files_hold_sections.
    + rewrite Hw. cbn [mbind Result_bind].
      destruct (merge_epochs_ok (spills s ++ [mkOffsetted offs out]) (epochs ++ [current]) (secss ++ [secs])) as (items & m & offs' & secs' & Hrun & Hmo & Hf).
      { rewrite fmap_app. apply Forall3_app; [done|]. cbn. constructor; [done|constructor]. }
      { by intros [_ ?]%app_nil. } { rewrite join_app. cbn. by rewrite app_nil_r. } { rewrite join_app. cbn. by rewrite app_nil_r. }
      rewrite Hp. apply bind_Ok in Hrun as (m0 & -> & Hrun). cbn [mbind Result_bind]. rewrite Hrun. cbn [mbind Result_bind].
      eexists _, _, (epochs ++ [current]). split; [done|]. split; [rewrite join_app; cbn; by rewrite app_nil_r|].
      rewrite Hmo. by eapply files_hold_sections.
Qed.

(** Hashes and ranges do not depend on the number of a row. *)
Lemma labels_start k bs : (∀ m, P ≠ RoundRobinPartitioning m) → Forall good_batch bs → labels k bs = labels 0 bs.
Proof.
  clear. intros HP H. generalize 0 as k'. revert k. induction H as [|b bs (_ & _ & Hb) _ IH]; intros k k'; [done|].
  cbn [PartitionSort.labels]. rewrite (IH _ (k' + num_rows b)). f_equal. f_equal. unfold assigned.
  destruct (Hb (start_rows P pid k)) as (ids & Hids & _). rewrite Hids.
  destruct (partition_ids_start evaluate expr_type convert_columns P _ (start_rows P pid k') _ _ _ Hids) as [s2 ->]; [|done].
  intros m Hm. by destruct (HP m).
Qed.

Lemma labels_epochs epochs :
  (∀ m, P ≠ RoundRobinPartitioning m) → Forall good_batch (mjoin epochs) → mjoin (labels 0 <$> epochs) = labels 0 (mjoin epochs).
Proof.
  clear. intros HP. induction epochs as [|e epochs IH]; intros Hg; [done|]. rewrite fmap_cons, !mjoin_cons in *.
  apply Forall_app in Hg as [Hg1 Hg]. rewrite labels_app, IH by done. f_equal. symmetry. by apply labels_start.
Qed.

Lemma sort_shuffle_new_inv : shuffle_inv (sort_shuffle_new P pid) [] [].
Proof. clear. split; [done|apply buf_new_inv|constructor|]. exists []. constructor. Qed.

(** C2: the sort shuffle writes each row to its partition exactly once: for any batches
    within the bounds and any moments of spilling, inserting and writing succeed, and
    the index file holds nondecreasing offsets, from zero to the length of the data
    file, between which the data file reads back, for every partition, as batches of a
    permutation of the rows that were assigned to it (by hash or range, of all input
    rows; in turns, counted anew in each of some consecutive groups of the batches,
    those that the spills make). *)
Theorem shuffle_files_correct inputs :
  inputs_ok (inputs.*1) →
  ∃ s data index epochs, insert_all (sort_shuffle_new P pid) inputs = Ok s ∧ shuffle_write s = Ok (data, index) ∧
    mjoin epochs = inputs.*1 ∧ files_hold data index (mjoin (labels 0 <$> epochs)) ∧
    ((∀ m, P ≠ RoundRobinPartitioning m) → files_hold data index (labels 0 inputs.*1)).
Proof using fit alive Law n_pos n_small.
  intros Hi. destruct (insert_all_ok inputs _ [] [] sort_shuffle_new_inv Hi) as (s & e & c & Hr & Hs & He). cbn [mjoin list_join app] in He.
  destruct (shuffle_write_ok s e c Hs) as (data & index & epochs & Hw & Ee & Hf); [by rewrite He|].
  rewrite He in Ee. exists s, data, index, epochs. split; [done|]. split; [done|]. split; [done|]. split; [done|].
  intros HP. rewrite <- Ee, <- labels_epochs; [done|done|]. rewrite Ee. apply Hi.
Qed.

(** ** The remote service *)

Local Abbreviation sections_pushed := (sections_pushed null weight P).

Lemma sections_pushed_app l1 l2 p1 p2 : sections_pushed l1 p1 → sections_pushed l2 p2 → sections_pushed (l1 ++ l2) (p1 ++ p2).
Proof.
  clear. intros H1 H2 q Hq. destruct (H1 q Hq) as (b1 & Hh1 & Hs1 & Hr1). destruct (H2 q Hq) as (b2 & Hh2 & Hs2 & Hr2).
  exists (b1 ++ b2). rewrite pushed_for_app, rows_for_app, buf_rows_app. split; [by apply holds_app|]. split; [by apply Forall_app|].
  by apply Permutation_app.
Qed.

Definition rss_inv (s : RssSortShuffleRepartitioner) (epochs : list (list Batch)) (current : list Batch) : Prop :=
  buf_inv (rss_data s) current ∧ sections_pushed (mjoin (labels 0 <$> epochs)) (rss s).

Lemma rss_spill_ok s epochs current :
  rss_inv s epochs current → inputs_ok current → ∃ s', rss_spill s = Ok s' ∧ rss_inv s' (epochs ++ [current]) [].
Proof using fit alive Law n_pos.
  intros [Hd Hp] (Hgc & Hst & Hb & Hl). unfold rss_spill, drain.
  destruct (buf_write_rss_ok null evaluate expr_type convert_columns mem_size conf_batch_size conf_mem_size full running weight P pid fit alive
    (rss_data s) current Hd Hst Hb Hl n_pos) as (pushed & -> & Hpu). cbn [mbind Result_bind]. eexists. split; [done|]. split.
  - destruct Hd as (-> & -> & _). apply buf_new_inv.
  - cbn [rss]. rewrite fmap_app, join_app. apply sections_pushed_app; [done|]. cbn. by rewrite app_nil_r.
Qed.

Lemma rss_spill_if_ok b s epochs current :
  rss_inv s epochs current → inputs_ok current →
  ∃ s' epochs' current', rss_spill_if b s = Ok s' ∧ rss_inv s' epochs' current' ∧ mjoin epochs' ++ current' = mjoin epochs ++ current.
Proof using fit alive Law n_pos.
  intros Hs Hi. destruct b; [|by exists s, epochs, current]. destruct (rss_spill_ok s epochs current Hs Hi) as (s' & Hsp & Hs').
  exists s', (epochs ++ [current]), []. split; [done|]. split; [done|]. rewrite join_app. cbn. by rewrite !app_nil_r.
Qed.

Lemma rss_insert_batch_ok s epochs current b before after forced :
  rss_inv s epochs current → inputs_ok (mjoin epochs ++ current ++ [b]) →
  ∃ s' epochs' current', rss_insert_batch s b before after forced = Ok s' ∧ rss_inv s' epochs' current' ∧
    mjoin epochs' ++ current' = mjoin epochs ++ current ++ [b].
Proof using fit alive Law n_pos.
  intros Hs Hi. unfold rss_insert_batch.
  destruct (rss_spill_if_ok before s epochs current Hs) as (s1 & e1 & c1 & -> & [Hd1 Hp1] & E1); [by eapply current_ok|]. cbn [mbind Result_bind].
  assert (inputs_ok (mjoin e1 ++ (c1 ++ [b]) ++ [])) as Hi1 by (by rewrite app_nil_r, app_assoc, E1, <- app_assoc).
  apply inputs_ok_part in Hi1 as Hi1'.
  destruct (add_batch_ok null evaluate expr_type convert_columns mem_size conf_batch_size conf_mem_size P pid (rss_data s1) c1 b Hd1) as (d & -> & Hd).
  { destruct Hi1' as (Hg & _). apply Forall_app in Hg as [_ Hg]. by apply (proj1 (Forall_singleton _ _)) in Hg. }
  { apply Hi1'. } { done. }
  cbn [mbind Result_bind]. assert (rss_inv (mkRssSort d (rss s1)) e1 (c1 ++ [b])) as Hs2 by done.
  destruct (rss_spill_if_ok after _ _ _ Hs2 Hi1') as (s3 & e3 & c3 & -> & Hs3 & E3). cbn [mbind Result_bind].
  destruct (rss_spill_if_ok forced s3 _ _ Hs3) as (s4 & e4 & c4 & -> & Hs4 & E4); [by eapply current_ok|].
  exists s4, e4, c4. split; [done|]. split; [done|]. by rewrite E4, E3, app_assoc, E1, <- app_assoc.
Qed.

Lemma rss_insert_all_ok inputs s epochs current :
  rss_inv s epochs current → inputs_ok (mjoin epochs ++ current ++ inputs.*1) →
  ∃ s' epochs' current', rss_insert_all s inputs = Ok s' ∧ rss_inv s' epochs' current' ∧
    mjoin epochs' ++ current' = mjoin epochs ++ current ++ inputs.*1.
Proof using fit alive Law n_pos.
  revert s epochs current. induction inputs as [|[b [[f1 f2] f3]] inputs IH]; intros s epochs current Hs Hi.
  { exists s, epochs, current. cbn. by rewrite app_nil_r. }
  unfold rss_insert_all. cbn [rfoldM]. rewrite fmap_cons in *. cbn [fst] in *.
  destruct (rss_insert_batch_ok s epochs current b f1 f2 f3 Hs) as (s1 & e1 & c1 & -> & Hs1 & E1).
  { apply (inputs_ok_part [] _ (inputs.*1)). cbn [app]. by rewrite <- !app_assoc. }
  cbn [mbind Result_bind]. destruct (IH s1 e1 c1 Hs1) as (s' & e' & c' & Hr & Hs' & E').
  { by rewrite app_assoc, E1, <- !app_assoc. }
  exists s', e', c'. split; [done|]. split; [done|]. by rewrite E', app_assoc, E1, <- !app_assoc.
Qed.

(** What is pushed to partition [q] reads back as batches of its rows. *)
Definition pushes_hold (pushed : list (nat * bytes)) (ls : list (nat * list V)) : Prop :=
  ∀ q, q < n → ∃ bs, read_file (E:=E) (S (length bs)) (pushed_for q pushed) = Ok bs ∧ rows_of bs ≡ₚ rows_for q ls.

(** C12: the remote sort shuffle pushes each row to its partition exactly once: whatever
    the spills, the bytes pushed to a partition, one after the other, read back as
    batches of a permutation of its rows. *)
Theorem rss_pushes_correct inputs :
  inputs_ok (inputs.*1) →
  ∃ s s' epochs, rss_insert_all (rss_new P pid) inputs = Ok s ∧ rss_shuffle_write s = Ok s' ∧
    mjoin epochs = inputs.*1 ∧ pushes_hold (rss s') (mjoin (labels 0 <$> epochs)).
Proof using fit alive Law n_pos.
  intros Hi. destruct (rss_insert_all_ok inputs (rss_new P pid) [] []) as (s & e & c & Hr & Hs & He); [|done|].
  { split; [apply buf_new_inv|]. intros q _. exists []. split; [apply holds_nil|]. split; [constructor|done]. }
  cbn [mjoin list_join app] in He. destruct (rss_spill_ok s e c Hs) as (s' & Hsp & Hs').
  { apply (inputs_ok_part (mjoin e) c []). by rewrite app_nil_r, He. }
  exists s, s', (e ++ [c]). split; [done|]. split; [done|]. split; [rewrite join_app; cbn; by rewrite app_nil_r|].
  destruct Hs' as [_ Hp]. intros q Hq. destruct (Hp q Hq) as (bs & Hh & Hst & Hrows). exists bs. split; [|done].
  apply (read_file_holds null weight); [done|done|lia].
Qed.

(** ** One partition *)

Lemma single_insert_all_ok inputs s bs :
  (match output_data s with Some w => wrote null weight w [] bs | None => bs = [] end) →
  Forall stored inputs → small null weight (bs ++ (inputs ≫= kept)) →
  ∃ s', single_insert_all s inputs = Ok s' ∧
    (match output_data s' with Some w => wrote null weight w [] (bs ++ (inputs ≫= kept)) | None => bs ++ (inputs ≫= kept) = [] end).
Proof using fit Law.
  clear alive n_pos n_small. revert s bs. induction inputs as [|b inputs IH]; intros s bs Hs Hst Hsm.
  { exists s. cbn. by rewrite app_nil_r. }
  apply Forall_cons in Hst as [Hb Hst]. assert (wrote null weight (get_output_writer s) [] bs) as Hw.
  { unfold get_output_writer. destruct (output_data s); [done|]. rewrite Hs. apply ipc_new_wrote. }
  rewrite bind_cons, app_assoc in *. destruct (ipc_write_batch_ok null weight fit full _ [] bs b Hw Hb) as (w' & Hwb & Hw').
  { unfold small in *. rewrite batches_weight_app in Hsm. lia. }
  unfold single_insert_all. cbn [rfoldM].
  assert (single_insert_batch s b = Ok (mkSingle (Some w'))) as -> by (unfold single_insert_batch; by rewrite Hwb). cbn [mbind Result_bind].
  by apply (IH (mkSingle (Some w')) (bs ++ kept b)).
Qed.

(** With one partition the data file reads back as the input batches in order, without
    the empty ones, and the index holds zero and the length of the data file, also when
    there was no batch. *)
Theorem single_file_correct inputs :
  Forall stored inputs → small null weight (inputs ≫= kept) →
  ∃ s data index, single_insert_all (mkSingle None) inputs = Ok s ∧ single_shuffle_write s = Ok (data, index) ∧
    length index = 16 ∧ index_at index 0 = 0%Z ∧ index_at index 1 = Z.of_nat (length data) ∧
    ∀ fuel, length inputs < fuel → read_file (E:=E) fuel data = Ok (inputs ≫= kept).
Proof using fit Law.
  clear alive n_pos n_small. intros Hst Hsm. destruct (single_insert_all_ok inputs (mkSingle None) [] eq_refl Hst Hsm) as (s & Hr & Hs).
  cbn [app] in Hs. exists s.
  assert (length (inputs ≫= kept) ≤ length inputs ∧ Forall stored (inputs ≫= kept)) as [Hlen Hk].
  { clear -Hst. induction Hst as [|b inputs Hb _ [IH1 IH2]]; [by split; [|constructor]|]. rewrite bind_cons, length_app. unfold kept at 1 3.
    case_decide; cbn [length app]; split; (lia || (try constructor; done)). }
  unfold single_shuffle_write. destruct (output_data s) as [w|].
  - destruct (finish_current_buf_ok null weight fit w [] _ Hs Hsm) as (out & -> & Hh). cbn [mbind Result_bind app output open_block].
    exists out, (replicate 8 0%Z ++ le_bytes 8 (i64 (Z.of_nat (length out)))). split; [done|]. split; [done|].
    assert (Z.of_nat (length out) < 2 ^ 63)%Z as Hout by (destruct Hh as [Hh _]; unfold small in Hsm; lia).
    split; [by rewrite length_app, length_le_bytes|]. split; [|split].
    + done.
    + unfold index_at. rewrite drop_app_length' by done. rewrite take_ge by (rewrite length_le_bytes; lia).
      unfold i64. rewrite le_val_le_bytes, wraps_id by (unfold in_s; lia). apply wrapu_id. change (8 * Z.of_nat 8)%Z with 64%Z. unfold in_u. lia.
    + intros fuel Hf. apply (read_file_holds null weight); [done|done|lia].
  - exists [], (replicate 16 0%Z). split; [done|]. split; [done|]. split; [done|]. split; [done|]. split; [done|].
    intros fuel Hf. rewrite Hs in *. apply (read_file_holds null weight); [done|apply holds_nil|cbn; lia].
Qed.

End Correct.

End ShuffleWriter.

Module ShuffleSample.

Import IpcSample.

(** One column, whose hash gives one of three partitions. *)
Definition eval_key (_ : unit) (b : RecordBatch (V:=Z)) : Result Arrow.Array := Ok (PrimitiveArray Int32 None (nth 0 (columns b) [])).

Definition hash3 : Partitioning (Expr:=unit) (SortOptions:=unit) := HashPartitioning [tt] 3.

(** A spill is forced after the second batch, and another one comes before the third. *)
Definition task : list (RecordBatch (V:=Z) * (bool * bool * bool)) :=
  [(mkBatch 3 [[1; 2; 3]%Z], (false, false, false)); (mkBatch 2 [[4; 1]%Z], (false, false, true));
   (mkBatch 1 [[2]%Z], (true, false, false))].

Lemma key_batch n c :
  length c = n → forallb (λ v, (0 <=? v) && (v <? 2 ^ 32))%Z c = true →
  good_batch 1 eval_key (λ _ _, Panic) (λ _ _, Panic) hash3 (mkBatch n [c]).
Proof.
  intros Hc Hv. split; [by apply (proj2 (Forall_singleton _ _))|]. split; [done|].
  apply (hash_assignable _ _ _ _ _ _ [PrimitiveArray Int32 None c]); [lia|lia|]. split; [done|]. split; [done|].
  apply (proj2 (Forall_singleton _ _)). split; [|split; [done|done]]. split; [done|]. split; [done|].
  apply Forall_forall. intros v Hin. rewrite forallb_forall in Hv. specialize (Hv v (proj1 (list_elem_of_In _ _) Hin)).
  change (8 * Z.of_nat (byte_width Int32))%Z with 32%Z. unfold in_u. lia.
Qed.

Lemma task_ok : inputs_ok 0%Z (nf:=1) eval_key (λ _ _, Panic) (λ _ _, Panic) (λ _, 6) hash3 7 (task.*1).
Proof.
  split; [|split; [|split]].
  - repeat (constructor; [by apply key_batch|]). constructor.
  - repeat constructor.
  - vm_compute. done.
  - vm_compute. done.
Qed.

Lemma shuffle_files_correct_witness :
  ∃ s data index epochs,
    insert_all eval_key (λ _ _, Panic) (λ _ _, Panic) (λ _, 100) 10000 1000 (E:=unit) (λ n, 20 <=? n) (λ _, true)
      (sort_shuffle_new hash3 7) task = Ok s ∧
    shuffle_write eval_key (λ _ _, Panic) (λ _ _, Panic) (λ _, 100) 10000 1000 (E:=unit) (λ n, 20 <=? n) (λ _, true) s = Ok (data, index) ∧
    mjoin epochs = task.*1 ∧
    files_hold 0%Z (E:=unit) hash3 data index (mjoin (labels 0%Z eval_key (λ _ _, Panic) (λ _ _, Panic) hash3 7 0 <$> epochs)) ∧
    ((∀ m, hash3 ≠ RoundRobinPartitioning m) →
      files_hold 0%Z (E:=unit) hash3 data index (labels 0%Z eval_key (λ _ _, Panic) (λ _ _, Panic) hash3 7 0 task.*1)).
Proof.
  apply (shuffle_files_correct 0%Z eval_key (λ _ _, Panic) (λ _ _, Panic) (λ _, 100) 10000 1000 (λ n, 20 <=? n) (λ _, true)
    (λ _, 6) hash3 7 plain_bounded); [done|cbn; lia|cbn; lia|exact task_ok].
Defined.

Lemma rss_pushes_correct_witness :
  ∃ s s' epochs,
    rss_insert_all eval_key (λ _ _, Panic) (λ _ _, Panic) (λ _, 100) 10000 1000 (E:=unit) (λ n, 20 <=? n) (λ _, true)
      (rss_new hash3 7) task = Ok s ∧
    rss_shuffle_write eval_key (λ _ _, Panic) (λ _ _, Panic) (λ _, 100) 10000 1000 (E:=unit) (λ n, 20 <=? n) (λ _, true) s = Ok s' ∧
    mjoin epochs = task.*1 ∧
    pushes_hold 0%Z (E:=unit) hash3 (rss s') (mjoin (labels 0%Z eval_key (λ _ _, Panic) (λ _ _, Panic) hash3 7 0 <$> epochs)).
Proof.
  apply (rss_pushes_correct 0%Z eval_key (λ _ _, Panic) (λ _ _, Panic) (λ _, 100) 10000 1000 (λ n, 20 <=? n) (λ _, true)
    (λ _, 6) hash3 7 plain_bounded); [done|cbn; lia|exact task_ok].
Defined.

Lemma single_file_correct_witness :
  ∃ s data index, single_insert_all (E:=unit) (λ n, 20 <=? n) (mkSingle None) batches = Ok s ∧
    single_shuffle_write s = Ok (data, index) ∧
    length index = 16 ∧ index_at index 0 = 0%Z ∧ index_at index 1 = Z.of_nat (length data) ∧
    ∀ fuel, 3 < fuel → read_file (E:=unit) fuel data = Ok [mkBatch 2 [[7; 8]%Z]; mkBatch 1 [[9]%Z]].
Proof.
  apply (single_file_correct 0%Z (λ n, 20 <=? n) (λ _, 6) plain_bounded batches batches_stored). vm_compute. done.
Defined.

Example task_files :
  (s ← insert_all eval_key (λ _ _, Panic) (λ _ _, Panic) (λ _, 100) 10000 1000 (E:=unit) (λ n, 20 <=? n) (λ _, true)
         (sort_shuffle_new hash3 7) task;
   '(data, index) ← shuffle_write eval_key (λ _ _, Panic) (λ _ _, Panic) (λ _, 100) 10000 1000 (E:=unit) (λ n, 20 <=? n) (λ _, true) s;
   part0 ← read_file (E:=unit) 9 (section data (index_at index 0) (index_at index 1));
   part1 ← read_file (E:=unit) 9 (section data (index_at index 1) (index_at index 2));
   Ok (index_at index <$> seq 0 4, part0, part1)) = Ok ([0; 14; 21; 21]%Z, [mkBatch 1 [[2]%Z]; mkBatch 3 [[2; 3; 4]%Z]], [mkBatch 2 [[1; 1]%Z]]).
Proof. vm_compute. reflexivity. Qed.

End ShuffleSample.
