(* ===== verification/SparkDecimal.v ===== *)
(** * Rounding and decimals

    native-engine/datafusion-ext-functions: spark_round.rs and spark_bround.rs round integers,
    decimals and floats to a number of digits, spark_check_overflow.rs changes precision and
    scale of decimals, spark_make_decimal.rs and spark_unscaled_value.rs convert them.

    [rounded] says what a rounding is: a multiple of the unit nearest to the value, with a
    rule for ties.  [spark_rounding_nearest] shows it for columns of integers and decimals, in
    the ranges in which the 128-bit arithmetic does not wrap around ([roundable]), and
    [check_overflow_correct] for the change of scale; the Examples at the end are inputs out
    of these ranges, and what floats do. *)

From S2P Require Import Prelude MachineInt Arrow Columnar Floats.
Local Open Scope Z_scope.

Set Default Proof Using "Type".

Definition i16 := wraps 16.
Definition i128 := wraps 128.

(** ** 128-bit arithmetic *)

(** [i128::pow(10, n)] *)
Definition pow10 (n : Z) : Z := i128 (10 ^ n).

(** [%] and [/] panic for zero and for the one quotient out of range. *)
Definition rem_i128 (a b : Z) : Result Z :=
  if bool_decide (b = 0) then Panic else if bool_decide (a = - 2 ^ 127 ∧ b = -1) then Panic else Ok (Z.rem a b).

Definition quot_i128 (a b : Z) : Result Z :=
  if bool_decide (b = 0) then Panic else if bool_decide (a = - 2 ^ 127 ∧ b = -1) then Panic else Ok (Z.quot a b).

Definition round_i128_half_up (value scale : Z) : Result Z :=
  if 0 <=? scale then Ok value
  else
    let factor := pow10 (u32 (i32 (- scale))) in
    remainder ← rem_i128 value factor;
    let base := i128 (value - remainder) in
    Ok (if 0 <=? value then
          if factor <=? i128 (remainder * 2) then i128 (base + factor) else base
        else if factor <=? i128 (i128 (Z.abs remainder) * 2) then i128 (base - factor)
        else base).

Definition round_i128_half_even (value scale : Z) : Result Z :=
  if 0 <=? scale then Ok value
  else
    let factor := pow10 (u32 (i32 (- scale))) in
    remainder ← rem_i128 value factor;
    let base := i128 (value - remainder) in
    let twice := i128 (i128 (Z.abs remainder) * 2) in
    if factor <? twice then
      Ok (if 0 <=? value then i128 (base + factor) else i128 (base - factor))
    else if twice <? factor then Ok base
    else
      q ← quot_i128 base factor;
      Ok (if Z.rem q 2 =? 0 then base
          else if 0 <=? value then i128 (base + factor)
          else i128 (base - factor)).

(** ** Floats *)

Definition half (F : FloatFormat) : spec_float := f_of_scaled F 1 (-1) false.

Definition round_half_up_f64 (x : spec_float) : spec_float :=
  if SFleb (S754_zero false) x then f_floor f64 (f_add f64 x (half f64)) else f_ceil f64 (f_sub f64 x (half f64)).

Definition round_half_up_f32 (x : spec_float) : spec_float :=
  if SFleb (S754_zero false) x then f_floor f32 (f_add f32 x (half f32)) else f_ceil f32 (f_sub f32 x (half f32)).

(** [w] is the width of the integer whose last bit tells whether the floor is even. *)
Definition round_half_even (F : FloatFormat) (w : Z) (x : spec_float) : spec_float :=
  if is_nan x || is_infinite x then x
  else
    let sign := sign_of x in
    let ax := SFabs x in
    let f := f_floor F ax in
    let diff := f_sub F ax f in
    let rounded :=
      if SFltb (half F) diff then f_add F f (f_of_int F 1)
      else if SFltb diff (half F) then f
      else if Z.land (f_to_int w f) 1 =? 0 then f else f_add F f (f_of_int F 1) in
    copysign rounded sign.

Definition round_half_even_f64 : spec_float → spec_float := round_half_even f64 64.
Definition round_half_even_f32 : spec_float → spec_float := round_half_even f32 32.

(** ** round and bround *)

(** The two functions differ in the three roundings and their name.  [powi F n] is 10 to the
    power [n], whose last digits the standard library leaves open. *)
Section Rounding.
Context (powi : FloatFormat → Z → spec_float).
Context (name : string) (round_i128 : Z → Z → Result Z) (round_f32 round_f64 : spec_float → spec_float).

Definition parse_scale (scale_val : ColumnarValue) : Result Z :=
  match scale_val with
  | CScalar (Primitive Int32) (VPrim n) => Ok n
  | CScalar (Primitive Int64) (VPrim n) => Ok (i32 n)
  | _ => Err (Execution (name ++ " scale must be a literal integer"))
  end.

Definition round_decimal (in_scale scale v : Z) : Result Z :=
  let diff := i32 (in_scale - scale) in
  if 0 <=? diff then round_i128 v (i32 (- diff)) else Ok (i128 (v * pow10 (u32 (i32 (- diff))))).

Definition round_bits (F : FloatFormat) (round : spec_float → spec_float) (factor : spec_float) (bits : Z) : Z :=
  let v := f_of_bits F bits in
  if is_nan v || is_infinite v then bits else f_to_bits F (f_div F (round (f_mul F v factor)) factor).

Definition round_array (arr : Column) (scale : Z) : Result Column :=
  match ctype arr with
  | Primitive (Decimal128 precision in_scale) =>
      result ← unary (DATA_TYPE (Decimal128 precision in_scale)) (round_decimal in_scale scale) arr;
      with_precision_and_scale precision in_scale result
  | Primitive Int64 => unary Int64 (λ v, z ← round_i128 v scale; Ok (i64 z)) arr
  | Primitive Int32 => unary Int32 (λ v, z ← round_i128 v scale; Ok (i32 z)) arr
  | Primitive Int16 => unary Int16 (λ v, z ← round_i128 v scale; Ok (i16 z)) arr
  | Primitive Float32 => unary Float32 (λ v, Ok (round_bits f32 round_f32 (powi f32 scale) v)) arr
  | _ =>
      arr ← downcast (Primitive Float64) arr;
      unary Float64 (λ v, Ok (round_bits f64 round_f64 (powi f64 scale) v)) arr
  end.

Definition round_scalar (t : DataType) (v : Val) (scale : Z) : Result ColumnarValue :=
  match v with
  | VNull => Ok (CScalar t v)
  | VPrim v =>
      match t with
      | Primitive Float64 =>
          let f := powi f64 scale in
          Ok (CScalar t (VPrim (f_to_bits f64 (f_div f64 (round_f64 (f_mul f64 (f_of_bits f64 v) f)) f))))
      | Primitive Float32 =>
          let f := powi f64 scale in
          let v := f_cast f64 (f_of_bits f32 v) in
          Ok (CScalar t (VPrim (f_to_bits f32 (f_cast f32 (f_div f64 (round_f64 (f_mul f64 v f)) f)))))
      | Primitive Int64 => z ← round_i128 v scale; Ok (CScalar t (VPrim (i64 z)))
      | Primitive Int32 => z ← round_i128 v scale; Ok (CScalar t (VPrim (i32 z)))
      | Primitive Int16 => z ← round_i128 v scale; Ok (CScalar t (VPrim (i16 z)))
      | Primitive (Decimal128 _ _) => z ← round_i128 v scale; Ok (CScalar t (VPrim z))
      | _ => Err (Execution ("Unsupported type for " ++ name))
      end
  | _ => Err (Execution ("Unsupported type for " ++ name))
  end.

Definition spark_round_with (args : list ColumnarValue) : Result ColumnarValue :=
  match args with
  | [value; scale_val] =>
      scale ← parse_scale scale_val;
      match value with
      | CArray arr => arr ← round_array arr scale; Ok (CArray arr)
      | CScalar t v => round_scalar t v scale
      end
  | _ => Err (Execution (name ++ " requires two arguments"))
  end.

End Rounding.

Definition spark_round (powi : FloatFormat → Z → spec_float) : list ColumnarValue → Result ColumnarValue :=
  spark_round_with powi "spark_round()" round_i128_half_up round_half_up_f32 round_half_up_f64.

Definition spark_bround (powi : FloatFormat → Z → spec_float) : list ColumnarValue → Result ColumnarValue :=
  spark_round_with powi "spark_bround()" round_i128_half_even round_half_even_f32 round_half_even_f64.

(** ** Change of precision *)

Definition change_precision_round_half_up (i128_val precision scale to_precision to_scale : Z) : Result (option Z) :=
  if bool_decide (to_precision = precision ∧ to_scale = scale) then Ok (Some i128_val)
  else
    i128_val ←
      (match to_scale ?= scale with
       | Lt =>
           let diff := i8 (scale - to_scale) in
           let pow10diff := pow10 (u32 diff) in
           dropped_digits ← rem_i128 i128_val pow10diff;
           i128_val ← quot_i128 i128_val pow10diff;
           Ok (if pow10diff <=? i128 (i128 (Z.abs dropped_digits) * 2)
               then i128 (i128_val + (if dropped_digits <? 0 then -1 else 1)) else i128_val)
       | Gt =>
           let diff := i8 (to_scale - scale) in
           Ok (i128 (i128_val * pow10 (u32 diff)))
       | Eq => Ok i128_val
       end);
    let p := pow10 (Z.min to_precision 38) in
    Ok (if (i128_val <=? i128 (- p)) || (p <=? i128_val) then None else Some i128_val).

(** The literal arguments precision and scale. *)
Definition decimal_args (args : list ColumnarValue) : Result (Z * Z) :=
  match args with
  | _ :: CScalar (Primitive Int32) (VPrim precision) :: CScalar (Primitive Int32) (VPrim scale) :: _ =>
      let precision := u8 precision in
      let scale := i8 scale in
      _ ← rassert (1 <=? precision);
      Ok (precision, scale)
  | _ => Panic
  end.

Definition spark_check_overflow (args : list ColumnarValue) : Result ColumnarValue :=
  '(to_precision, to_scale) ← decimal_args args;
  match args with
  | CScalar (Primitive (Decimal128 precision scale)) (VPrim v) :: _ =>
      o ← change_precision_round_half_up v precision scale to_precision to_scale;
      Ok (CScalar (Primitive (Decimal128 to_precision to_scale)) (val_prim o))
  | CScalar _ _ :: _ => Ok (CScalar (Primitive (Decimal128 to_precision to_scale)) VNull)
  | CArray array :: _ =>
      match ctype array with
      | Primitive (Decimal128 precision scale) =>
          output ← rmapM (λ v, match v with
            | Some v => change_precision_round_half_up v precision scale to_precision to_scale
            | None => Ok None
            end) (prim_iter array);
          c ← with_precision_and_scale to_precision to_scale (prim_from_iter (DATA_TYPE (Decimal128 precision scale)) output);
          Ok (CArray c)
      | _ => Panic
      end
  | [] => Panic
  end.

Definition spark_make_decimal (args : list ColumnarValue) : Result ColumnarValue :=
  '(precision, scale) ← decimal_args args;
  match args with
  | CScalar (Primitive Int64) (VPrim v) :: _ => Ok (CScalar (Primitive (Decimal128 precision scale)) (VPrim v))
  | CScalar _ _ :: _ => Ok (CScalar (Primitive (Decimal128 precision scale)) VNull)
  | CArray array :: _ =>
      match ctype array with
      | Primitive Int64 =>
          c ← with_precision_and_scale precision scale (prim_from_iter (DATA_TYPE (Decimal128 precision scale)) (prim_iter array));
          Ok (CArray c)
      | _ => Panic
      end
  | [] => Panic
  end.

Definition spark_unscaled_value (args : list ColumnarValue) : Result ColumnarValue :=
  match args with
  | CScalar (Primitive (Decimal128 _ _)) (VPrim v) :: _ => Ok (CScalar (Primitive Int64) (VPrim (i64 v)))
  | CScalar _ _ :: _ => Ok (CScalar (Primitive Int64) VNull)
  | CArray array :: _ =>
      match ctype array with
      | Primitive (Decimal128 _ _) => Ok (CArray (prim_from_iter Int64 ((λ o : option Z, i64 <$> o) <$> prim_iter array)))
      | _ => Panic
      end
  | [] => Panic
  end.

(** ** What a rounding is *)

(** [m] is a multiple of [10 ^ k] nearest to [v]; of two, the one that satisfies [tie]. *)
Record rounded (tie : Z → Z → Z → Prop) (k v m : Z) : Prop := {
  r_multiple : (10 ^ k | m);
  r_nearest : 2 * Z.abs (m - v) <= 10 ^ k;
  r_tie : 2 * Z.abs (m - v) = 10 ^ k → tie k v m }.

(** Away from zero, and to the even multiple. *)
Definition half_up (k v m : Z) : Prop := Z.abs v < Z.abs m.
Definition half_even (k v m : Z) : Prop := Z.even (m / 10 ^ k) = true.

Lemma pow10_pos k : 0 <= k → 0 < 10 ^ k.
Proof. intros. apply Z.pow_pos_nonneg; lia. Qed.

Lemma rounded_0 tie v : rounded tie 0 v v.
Proof. split; [exists v; lia|lia|]. rewrite Z.sub_diag. lia. Qed.

(** A rounding is unique, so the theorems below determine the results. *)
Lemma half_up_unique k v m1 m2 : 0 <= k → rounded half_up k v m1 → rounded half_up k v m2 → m1 = m2.
Proof.
  intros Hk [[q1 H1] Hn1 Ht1] [[q2 H2] Hn2 Ht2]. pose proof (pow10_pos k Hk). unfold half_up in *. set (p := 10 ^ k) in *.
  assert (q1 = q2 ∨ q1 = q2 + 1 ∨ q2 = q1 + 1) as [Hq|[Hq|Hq]] by nia; [by subst| |].
  - assert (m1 = m2 + p) by nia. assert (q2 <= -1 ∨ q2 = 0 ∨ 1 <= q2) as [|[|]] by lia; nia.
  - assert (m2 = m1 + p) by nia. assert (q1 <= -1 ∨ q1 = 0 ∨ 1 <= q1) as [|[|]] by lia; nia.
Qed.

Lemma half_even_unique k v m1 m2 : 0 <= k → rounded half_even k v m1 → rounded half_even k v m2 → m1 = m2.
Proof.
  intros Hk [[q1 H1] Hn1 Ht1] [[q2 H2] Hn2 Ht2]. pose proof (pow10_pos k Hk). unfold half_even in *. set (p := 10 ^ k) in *.
  subst m1 m2. rewrite !Z.div_mul in * by lia. assert (q1 = q2 ∨ q1 = q2 + 1 ∨ q2 = q1 + 1) as [?|[Hq|Hq]] by nia; [by subst| |].
  - assert (2 * Z.abs (q1 * p - v) = p ∧ 2 * Z.abs (q2 * p - v) = p) as [E1 E2] by nia. specialize (Ht1 E1). specialize (Ht2 E2).
    subst q1. rewrite Z.even_add, Ht2 in Ht1. done.
  - assert (2 * Z.abs (q1 * p - v) = p ∧ 2 * Z.abs (q2 * p - v) = p) as [E1 E2] by nia. specialize (Ht1 E1). specialize (Ht2 E2).
    subst q2. rewrite Z.even_add, Ht1 in Ht2. done.
Qed.

(** ** 128-bit arithmetic in range *)

Lemma i128_id x : - 2 ^ 127 <= x < 2 ^ 127 → i128 x = x.
Proof. intros Hx. apply wraps_id; [lia|exact Hx]. Qed.

Lemma pow10_le k : 0 <= k <= 38 → 0 < 10 ^ k <= 10 ^ 38.
Proof. intros Hk. split; [apply pow10_pos; lia|]. apply Z.pow_le_mono_r; lia. Qed.

Lemma pow10_id k : 0 <= k <= 38 → pow10 k = 10 ^ k.
Proof. intros Hk. apply i128_id. pose proof (pow10_le k Hk). lia. Qed.

Lemma neg_scale k : 0 < k <= 38 → u32 (i32 (- - k)) = k.
Proof.
  intros Hk. rewrite Z.opp_involutive. unfold u32, i32. rewrite wraps_id by (unfold in_s; lia). apply wrapu_id. unfold in_u. lia.
Qed.

(** Quotient and remainder towards zero. *)
Lemma rem_quot v p :
  0 < p →
  ∃ q r, Z.rem v p = r ∧ Z.quot v p = q ∧ v = p * q + r ∧ Z.abs r < p ∧ Z.abs r <= Z.abs v ∧ (0 <= v → 0 <= r ∧ 0 <= q) ∧ (v < 0 → r <= 0 ∧ q <= 0).
Proof.
  intros Hp. exists (Z.quot v p), (Z.rem v p). split; [done|]. split; [done|].
  pose proof (Z.quot_rem' v p) as Hv. split; [done|].
  pose proof (Z.rem_bound_abs v p ltac:(lia)) as Hr.
  assert (0 <= v → 0 <= Z.rem v p) by (intros; apply Z.rem_nonneg; lia).
  assert (0 <= v → 0 <= Z.quot v p) by (intros; apply Z.quot_pos; lia).
  assert (v < 0 → Z.rem v p <= 0) by (intros; apply Z.rem_nonpos; lia).
  assert (v < 0 → Z.quot v p <= 0) by (intros; rewrite <- (Z.opp_involutive v), Z.quot_opp_l by lia; pose proof (Z.quot_pos (- v) p); lia).
  split; [lia|]. split; [|split; intros; split; auto]. destruct (decide (0 <= v)); nia.
Qed.

Lemma rem_i128_Ok v p : 0 < p → rem_i128 v p = Ok (Z.rem v p).
Proof. intros Hp. unfold rem_i128. by rewrite !bool_decide_eq_false_2 by lia. Qed.

Lemma quot_i128_Ok v p : 0 < p → quot_i128 v p = Ok (Z.quot v p).
Proof. intros Hp. unfold quot_i128. by rewrite !bool_decide_eq_false_2 by lia. Qed.

(** The digits to round away and the values for which nothing wraps around. *)
Definition in_range (k v : Z) : Prop := k <= 37 ∧ Z.abs v <= 10 ^ 38 ∨ k <= 38 ∧ Z.abs v <= 2 ^ 63.

Definition rounds (tie : Z → Z → Z → Prop) (round : Z → Z → Result Z) : Prop :=
  ∀ k v, 0 < k → in_range k v → ∃ m, round v (- k) = Ok m ∧ rounded tie k v m.

Lemma in_range_bounds k v r :
  0 < k → in_range k v → r < 10 ^ k → r <= Z.abs v → r * 2 < 2 ^ 127 ∧ Z.abs v + 10 ^ k < 2 ^ 127.
Proof.
  intros Hk [[Hk37 Hv]|[Hk38 Hv]] Hr Hrv.
  - assert (10 ^ k <= 10 ^ 37) by (apply Z.pow_le_mono_r; lia). lia.
  - pose proof (pow10_le k). lia.
Qed.

Lemma round_half_up_ok : rounds half_up round_i128_half_up.
Proof.
  intros k v Hk Hr. assert (k <= 38) as Hk38 by (destruct Hr; lia). unfold round_i128_half_up.
  rewrite (proj2 (Z.leb_gt _ _)) by lia. rewrite neg_scale, pow10_id by lia.
  pose proof (pow10_le k ltac:(lia)) as Hp. rewrite rem_i128_Ok by lia. cbn [mbind Result_bind].
  destruct (rem_quot v (10 ^ k)) as (q & r & -> & _ & Hv & Hrp & Hrv & Hpos & Hneg); [lia|].
  destruct (in_range_bounds k v (Z.abs r)) as [Hrr Hvp]; [lia|done|lia|lia|].
  set (p := 10 ^ k) in *. rewrite !(i128_id (v - r)), (i128_id (Z.abs r)), !(i128_id (_ * 2)) by lia.
  eexists. split; [done|].
  assert (v - r = q * p) as -> by lia. destruct (Z.leb_spec 0 v) as [H0|H0].
  - destruct (Z.leb_spec p (r * 2)); rewrite ?i128_id by lia.
    + split; [exists (q + 1); fold p; lia|fold p; lia|unfold half_up; lia].
    + split; [exists q; done|fold p; lia|fold p; lia].
  - destruct (Z.leb_spec p (Z.abs r * 2)); rewrite ?i128_id by lia.
    + split; [exists (q - 1); fold p; lia|fold p; lia|unfold half_up; lia].
    + split; [exists q; done|fold p; lia|fold p; lia].
Qed.

Lemma rem_2_even q : (Z.rem q 2 =? 0) = Z.even q.
Proof.
  destruct (Z.even q) eqn:He.
  - apply Z.even_spec in He as [h ->]. rewrite Z.mul_comm, Z.rem_mul by lia. done.
  - apply Z.eqb_neq. intros H. apply Z.rem_divide in H as [h ->]; [|lia]. rewrite Z.even_mul, orb_true_r in He. done.
Qed.

Lemma round_half_even_ok : rounds half_even round_i128_half_even.
Proof.
  intros k v Hk Hr. assert (k <= 38) as Hk38 by (destruct Hr; lia). unfold round_i128_half_even.
  rewrite (proj2 (Z.leb_gt _ _)) by lia. rewrite neg_scale, pow10_id by lia.
  pose proof (pow10_le k ltac:(lia)) as Hp. rewrite rem_i128_Ok by lia. cbn [mbind Result_bind].
  destruct (rem_quot v (10 ^ k)) as (q & r & -> & _ & Hv & Hrp & Hrv & Hpos & Hneg); [lia|].
  destruct (in_range_bounds k v (Z.abs r)) as [Hrr Hvp]; [lia|done|lia|lia|].
  rewrite (i128_id (v - r)), (i128_id (Z.abs r)), (i128_id (_ * 2)), quot_i128_Ok by lia. cbn [mbind Result_bind].
  assert (v - r = q * 10 ^ k) as Hb by lia. rewrite !Hb, Z.quot_mul by lia.
  assert (∀ q', rounded half_even k v (q' * 10 ^ k) ↔ 2 * Z.abs (q' * 10 ^ k - v) <= 10 ^ k ∧
    (2 * Z.abs (q' * 10 ^ k - v) = 10 ^ k → Z.even q' = true)) as Hq.
  { intros q'. split.
    - intros [_ Hn Ht]. unfold half_even in Ht. rewrite Z.div_mul in Ht by lia. done.
    - intros [Hn Ht]. split; [by exists q'|done|]. unfold half_even. rewrite Z.div_mul by lia. done. }
  set (p := 10 ^ k) in *.
  destruct (Z.ltb_spec p (Z.abs r * 2)); [|destruct (Z.ltb_spec (Z.abs r * 2) p)].
  - destruct (Z.leb_spec 0 v); rewrite i128_id by lia; eexists; (split; [done|]).
    + replace (q * p + p) with ((q + 1) * p) by lia. apply Hq. split; [lia|intros; exfalso; lia].
    + replace (q * p - p) with ((q - 1) * p) by lia. apply Hq. split; [lia|intros; exfalso; lia].
  - eexists. split; [done|]. apply Hq. split; [lia|intros; exfalso; lia].
  - rewrite rem_2_even. destruct (Z.even q) eqn:He.
    + eexists. split; [done|]. apply Hq. split; [lia|done].
    + destruct (Z.leb_spec 0 v); rewrite i128_id by lia; eexists; (split; [done|]).
      * replace (q * p + p) with ((q + 1) * p) by lia. apply Hq. split; [lia|]. intros _. by rewrite Z.even_add, He.
      * replace (q * p - p) with ((q - 1) * p) by lia. apply Hq. split; [lia|]. intros _. by rewrite Z.even_sub, He.
Qed.

(** ** round and bround *)

Section Correct.
Context (powi : FloatFormat → Z → spec_float).

(** A row that is rounded to [k] digits.  The multiple may be outside of [w] bits when the value
    is within half a unit of the bounds; its low bits are taken then, as [toInt] of Spark does. *)
Definition row_rounded (tie : Z → Z → Z → Prop) (w k : Z) (v1 v2 : Val) : Prop :=
  match v1 with
  | VPrim z => ∃ m, rounded tie k z m ∧ (in_s w m → v2 = VPrim m) ∧ (¬ in_s w m → v2 = VPrim (wraps w m))
  | _ => v2 = VNull
  end.

Definition int_width (t : PrimitiveType) : option Z :=
  match t with Int16 => Some 16 | Int32 => Some 32 | Int64 => Some 64 | _ => None end.

Lemma unary_rounds tie t w k f c :
  0 < w → (∀ z, VPrim z ∈ cvals c → ∃ m, f z = Ok (wraps w m) ∧ rounded tie k z m) →
  ∃ vs, unary t f c = Ok (mkColumn (Primitive t) vs) ∧ Forall2 (row_rounded tie w k) (cvals c) vs.
Proof.
  intros Hw Hf. unfold unary, prim_iter. induction (cvals c) as [|v vs IH]; [by exists []|].
  destruct IH as (vs' & Heq & HF). { intros z Hz. apply Hf. by constructor. }
  change (prim_of <$> v :: vs) with (prim_of v :: (prim_of <$> vs)). cbn [rmapM].
  destruct (rmapM (omapM f) (prim_of <$> vs)) as [l| | | |]; try discriminate. cbn [mbind Result_bind] in Heq |- *.
  injection Heq as <-. destruct v; cbn [prim_of omapM mbind Result_bind];
    try (exists (VNull :: (val_prim <$> l)); split; [done|by constructor]).
  destruct (Hf bits) as (m & -> & Hm); [by constructor|]. cbn [mbind Result_bind].
  exists (VPrim (wraps w m) :: (val_prim <$> l)). split; [done|]. constructor; [|done]. exists m. split; [done|]. split; [|done]. intros. by rewrite wraps_id.
Qed.

Context (name : string) (tie : Z → Z → Z → Prop) (round_int : Z → Z → Result Z) (r32 r64 : spec_float → spec_float).
Context (Hround : rounds tie round_int) (Hup : ∀ v scale, 0 <= scale → round_int v scale = Ok v).

Lemma round_int_ok v scale :
  -38 <= scale → Z.abs v <= 2 ^ 63 → ∃ m, round_int v scale = Ok m ∧ rounded tie (Z.max 0 (- scale)) v m.
Proof using Hround Hup.
  intros Hs Hv. destruct (decide (0 <= scale)).
  - exists v. rewrite Hup by done. rewrite Z.max_l by lia. split; [done|apply rounded_0].
  - destruct (Hround (- scale) v) as (m & Hm & Hr); [lia|right; lia|]. exists m.
    rewrite Z.opp_involutive in Hm. rewrite Z.max_r by lia. done.
Qed.

Lemma round_ints_ok t w c scale :
  int_width t = Some w → ctype c = Primitive t → Forall (λ v, ∀ z, v = VPrim z → Z.abs z <= 2 ^ 63) (cvals c) → -38 <= scale →
  ∃ vs, round_array powi round_int r32 r64 c scale = Ok (mkColumn (Primitive t) vs) ∧
    Forall2 (row_rounded tie w (Z.max 0 (- scale))) (cvals c) vs.
Proof using Hround Hup.
  intros Hw Ht Hc Hs. unfold round_array. rewrite Ht.
  assert (∀ z, VPrim z ∈ cvals c → ∃ m, (z ← round_int z scale; Ok (wraps w z)) = Ok (wraps w m) ∧ rounded tie (Z.max 0 (- scale)) z m) as Hf.
  { intros z Hz. rewrite Forall_forall in Hc. destruct (round_int_ok z scale) as (m & -> & Hm); [done|by apply (Hc _ Hz)|]. by exists m. }
  destruct t; try discriminate; injection Hw as <-; by apply unary_rounds.
Qed.

Lemma round_decimals_ok p s c scale :
  ctype c = Primitive (Decimal128 p s) → 1 <= p <= 38 → s <= p → -128 <= s →
  Forall (λ v, ∀ z, v = VPrim z → Z.abs z < 10 ^ p) (cvals c) → 0 <= s - scale <= 37 →
  ∃ vs, round_array powi round_int r32 r64 c scale = Ok (mkColumn (Primitive (Decimal128 p s)) vs) ∧
    Forall2 (row_rounded tie 128 (s - scale)) (cvals c) vs.
Proof using Hround Hup.
  intros Ht Hp Hsp Hs Hc Hd. unfold round_array. rewrite Ht.
  destruct (unary_rounds tie (DATA_TYPE (Decimal128 p s)) 128 (s - scale) (round_decimal round_int s scale) c) as (vs & -> & HF); [done|..].
  - intros z Hz. rewrite Forall_forall in Hc. specialize (Hc _ Hz z eq_refl). assert (10 ^ p <= 10 ^ 38) by (apply Z.pow_le_mono_r; lia).
    unfold round_decimal. assert (i32 (s - scale) = s - scale) as -> by (apply wraps_id; unfold in_s; lia).
    rewrite (proj2 (Z.leb_le _ _)) by lia. assert (i32 (- (s - scale)) = - (s - scale)) as -> by (apply wraps_id; unfold in_s; lia).
    destruct (decide (s - scale = 0)) as [->|].
    + rewrite Hup by lia. exists z. rewrite wraps_id by (unfold in_s; lia). split; [done|apply rounded_0].
    + destruct (Hround (s - scale) z) as (m & -> & Hm); [lia|left; lia|]. exists m. split; [|done]. f_equal. symmetry. apply i128_id.
      destruct Hm as [_ Hn _]. assert (10 ^ (s - scale) <= 10 ^ 37) by (apply Z.pow_le_mono_r; lia). lia.
  - cbn [mbind Result_bind]. unfold with_precision_and_scale. rewrite bool_decide_eq_true_2 by lia. cbn [cvals]. by exists vs.
Qed.

End Correct.

(** A column and a number of digits for which nothing wraps around before the last cast:
    integers down to 38 digits, decimals as long as at most 37 digits are dropped.  [w] is the
    width of the results, [k] the number of digits that are rounded away. *)
Definition roundable (c : Column) (scale w k : Z) : Prop :=
  (∃ t, ctype c = Primitive t ∧ int_width t = Some w ∧ Forall (λ v, ∀ z, v = VPrim z → in_s w z) (cvals c) ∧
    -38 <= scale ∧ k = Z.max 0 (- scale)) ∨
  (∃ p s, ctype c = Primitive (Decimal128 p s) ∧ 1 <= p <= 38 ∧ -128 <= s <= p ∧ Forall (λ v, ∀ z, v = VPrim z → Z.abs z < 10 ^ p) (cvals c) ∧
    w = 128 ∧ k = s - scale ∧ 0 <= k <= 37).

Lemma round_with_ok powi name tie round_int r32 r64 c scale w k :
  rounds tie round_int → (∀ v scale, 0 <= scale → round_int v scale = Ok v) → roundable c scale w k →
  ∃ vs, spark_round_with powi name round_int r32 r64 [CArray c; CScalar (Primitive Int32) (VPrim scale)] = Ok (CArray (mkColumn (ctype c) vs)) ∧
    Forall2 (row_rounded tie w k) (cvals c) vs.
Proof.
  intros Hround Hup Hc. cbn [spark_round_with parse_scale mbind Result_bind].
  destruct Hc as [(t & Ht & Hw & Hc & Hs & ->)|(p & s & Ht & Hp & Hs & Hc & -> & -> & Hk)].
  - destruct (round_ints_ok powi tie round_int r32 r64 Hround Hup t w c scale) as (vs & -> & HF); [done|done| |done|].
    + eapply Forall_impl; [exact Hc|]. intros v Hv z Hz. specialize (Hv z Hz). destruct t; try discriminate; injection Hw as <-; unfold in_s in Hv; lia.
    + cbn [mbind Result_bind]. rewrite Ht. by exists vs.
  - destruct (round_decimals_ok powi tie round_int r32 r64 Hround Hup p s c scale) as (vs & -> & HF); [done|lia..|done|lia|].
    cbn [mbind Result_bind]. rewrite Ht. by exists vs.
Qed.


(** ** Change of scale *)

(** The unscaled number [m] of [z] after [d] digits were dropped, or added. *)
Definition rescaled (d z m : Z) : Prop :=
  if 0 <=? d then rounded half_up d z (m * 10 ^ d) else m = z * 10 ^ (- d).

Definition row_rescaled (d precision : Z) (v1 v2 : Val) : Prop :=
  match v1 with
  | VPrim z => ∃ m, rescaled d z m ∧ v2 = if Z.abs m <? 10 ^ precision then VPrim m else VNull
  | _ => v2 = VNull
  end.

Lemma change_precision_ok z p s tp ts :
  1 <= p <= 38 → Z.abs z < 10 ^ p → 1 <= tp <= 38 → -38 <= s - ts <= 37 → (s < ts → Z.abs z * 10 ^ (ts - s) < 2 ^ 127) →
  ∃ m, rescaled (s - ts) z m ∧
    change_precision_round_half_up z p s tp ts = Ok (if Z.abs m <? 10 ^ tp then Some m else None).
Proof.
  intros Hp Hz Htp Hd Hw. assert (10 ^ p <= 10 ^ 38) by (apply Z.pow_le_mono_r; lia).
  assert (∀ m, m = z ∨ Z.abs m < 2 ^ 127 → (let p := pow10 (Z.min tp 38) in
     Ok (if (m <=? i128 (- p)) || (p <=? m) then None else Some m) : Result (option Z)) = Ok (if Z.abs m <? 10 ^ tp then Some m else None)) as Hend.
  { intros m Hm. cbn zeta. rewrite Z.min_l by lia. pose proof (pow10_le tp ltac:(lia)). rewrite pow10_id, i128_id by lia. f_equal.
    destruct (Z.leb_spec m (- 10 ^ tp)), (Z.leb_spec (10 ^ tp) m), (Z.ltb_spec (Z.abs m) (10 ^ tp)); cbn [orb]; done || lia. }
  unfold change_precision_round_half_up. case_bool_decide as He.
  { destruct He as [-> ->]. exists z. rewrite Z.sub_diag. split; [unfold rescaled; cbn; rewrite Z.mul_1_r; apply rounded_0|].
    by rewrite (proj2 (Z.ltb_lt _ _)). }
  assert (i8 (s - ts) = s - ts ∧ i8 (ts - s) = ts - s) as [-> ->] by (split; apply wraps_id; unfold in_s; lia).
  unfold rescaled. destruct (Z.compare_spec ts s) as [->|Hlt|Hgt].
  - exists z. rewrite Z.sub_diag. split; [cbn; rewrite Z.mul_1_r; apply rounded_0|]. cbn [mbind Result_bind]. apply Hend. by left.
  - set (k := s - ts) in *. rewrite (proj2 (Z.leb_le 0 k)) by lia. assert (u32 k = k) as -> by (apply wrapu_id; unfold in_u; lia).
    pose proof (pow10_le k ltac:(lia)) as Hpk. rewrite (pow10_id k) by lia. rewrite rem_i128_Ok by lia. cbn [mbind Result_bind]. rewrite quot_i128_Ok by lia. cbn [mbind Result_bind].
    destruct (rem_quot z (10 ^ k)) as (q & r & -> & -> & Hv & Hrp & Hrv & Hpos & Hneg); [lia|].
    destruct (in_range_bounds k z (Z.abs r)) as [Hrr Hvp]; [lia|left; lia|lia|lia|]. set (P := 10 ^ k) in *.
    assert (Z.abs q <= Z.abs z) by nia. assert ((0 <= z → 0 <= P * q) ∧ (z < 0 → P * q <= 0)) as [HqP1 HqP2] by nia. rewrite (i128_id (Z.abs r)), (i128_id (_ * 2)) by lia.
    set (m := if P <=? Z.abs r * 2 then q + (if r <? 0 then -1 else 1) else q).
    assert ((if P <=? Z.abs r * 2 then i128 (q + (if r <? 0 then -1 else 1)) else q) = m) as ->.
    { unfold m. destruct (Z.leb_spec P (Z.abs r * 2)); [|done]. apply i128_id. destruct (Z.ltb_spec r 0); lia. }
    exists m. split; [|apply Hend; right; unfold m; destruct (P <=? _), (r <? 0); lia].
    unfold m. destruct (Z.leb_spec P (Z.abs r * 2)); [destruct (Z.ltb_spec r 0)|].
    + split; [by exists (q + -1)|fold P; lia|]. unfold half_up. fold P. intros _. destruct (decide (0 <= z)); lia.
    + split; [by exists (q + 1)|fold P; lia|]. unfold half_up. fold P. intros _. destruct (decide (0 <= z)); lia.
    + split; [by exists q|fold P; lia|fold P; lia].
  - rewrite (proj2 (Z.leb_gt 0 (s - ts))) by lia. exists (z * 10 ^ (- (s - ts))). split; [done|].
    rewrite Z.opp_sub_distr, Z.add_comm, Z.add_opp_r. assert (u32 (ts - s) = ts - s) as -> by (apply wrapu_id; unfold in_u; lia).
    specialize (Hw Hgt). pose proof (pow10_le (ts - s) ltac:(lia)). rewrite (pow10_id (ts - s)) by lia. rewrite (i128_id (z * _)) by nia. cbn [mbind Result_bind].
    apply Hend. right. nia.
Qed.

(** [spark_check_overflow] with literal precision and scale. *)
Definition decimal_lits (precision scale : Z) : list ColumnarValue :=
  [CScalar (Primitive Int32) (VPrim precision); CScalar (Primitive Int32) (VPrim scale)].

Lemma decimal_args_Ok c p s : 1 <= p <= 38 → -128 <= s <= p → decimal_args (c :: decimal_lits p s) = Ok (p, s).
Proof.
  intros Hp Hs. unfold decimal_args, decimal_lits. assert (u8 p = p) as -> by (apply wrapu_id; unfold in_u; lia).
  assert (i8 s = s) as -> by (apply wraps_id; unfold in_s; lia). by rewrite (proj2 (Z.leb_le _ _)) by lia.
Qed.

(** The decimals that a change of scale can take: digits in the precision, and no product
    beyond 128 bits. *)
Definition rescalable (p d : Z) (v : Val) : Prop := ∀ z, v = VPrim z → Z.abs z < 10 ^ p ∧ (d < 0 → Z.abs z * 10 ^ (- d) < 2 ^ 127).

Lemma change_precision_row p s tp ts v :
  1 <= p <= 38 → 1 <= tp <= 38 → -38 <= s - ts <= 37 → rescalable p (s - ts) v →
  ∃ o, omapM (λ z, change_precision_round_half_up z p s tp ts) (prim_of v) = Ok o ∧ row_rescaled (s - ts) tp v (val_prim (mjoin o)).
Proof.
  intros Hp Htp Hd Hv. destruct v as [| |z| | | | |]; try by exists None.
  destruct (Hv z eq_refl) as [Hz Hw]. destruct (change_precision_ok z p s tp ts) as (m & Hm & Heq); [done..| |].
  { intros Hlt. replace (ts - s) with (- (s - ts)) by lia. apply Hw. lia. }
  cbn [prim_of omapM]. rewrite Heq. cbn [mbind Result_bind]. eexists. split; [done|]. exists m. split; [done|]. by destruct (Z.abs m <? 10 ^ tp).
Qed.

(** C34: check_overflow on a column, and on each of its values as a literal, rescales
    every decimal to the new scale, rounding halves away from zero when digits are
    dropped, gives null exactly for the values that do not fit the new precision, and
    keeps nulls, when the scale drops by at most 37 digits and, where it grows, by at
    most 38 with no value leaving 128 bits on the way. *)
Theorem check_overflow_correct p s tp ts vs :
  1 <= p <= 38 → 1 <= tp <= 38 → -128 <= ts <= tp → -38 <= s - ts <= 37 → Forall (rescalable p (s - ts)) vs →
  (∃ vs', spark_check_overflow (CArray (mkColumn (Primitive (Decimal128 p s)) vs) :: decimal_lits tp ts) =
      Ok (CArray (mkColumn (Primitive (Decimal128 tp ts)) vs')) ∧
    Forall2 (row_rescaled (s - ts) tp) vs vs') ∧
  Forall (λ v, ∃ v', spark_check_overflow (CScalar (Primitive (Decimal128 p s)) v :: decimal_lits tp ts) =
      Ok (CScalar (Primitive (Decimal128 tp ts)) v') ∧ row_rescaled (s - ts) tp v v') vs.
Proof.
  intros Hp Htp Hts Hd Hvs. unfold spark_check_overflow. setoid_rewrite decimal_args_Ok; [|lia..]. cbn [mbind Result_bind ctype]. split.
  - unfold prim_iter. cbn [cvals]. match goal with |- context [rmapM ?f _] => set (g := f) end.
    assert (∃ l, rmapM g (prim_of <$> vs) = Ok l ∧ Forall2 (row_rescaled (s - ts) tp) vs (val_prim <$> l)) as (l & -> & HF).
    { induction Hvs as [|v vs Hv Hvs IH]; [by exists []|]. destruct IH as (l & Hl & HF).
      destruct (change_precision_row p s tp ts v Hp Htp Hd Hv) as (o & Ho & Hr). exists (mjoin o :: l).
      change (prim_of <$> v :: vs) with (prim_of v :: (prim_of <$> vs)). cbn [rmapM]. rewrite Hl. split; [|by constructor].
      unfold g at 1. destruct (prim_of v) as [z|]; cbn [omapM] in Ho; [|by injection Ho as <-].
      destruct (change_precision_round_half_up z p s tp ts); try discriminate. by injection Ho as <-. }
    cbn [mbind Result_bind]. unfold with_precision_and_scale. rewrite bool_decide_eq_true_2 by lia. cbn [mbind Result_bind]. by exists (val_prim <$> l).
  - eapply Forall_impl; [exact Hvs|]. intros v Hv. cbn beta. destruct (change_precision_row p s tp ts v Hp Htp Hd Hv) as (o & Ho & Hr).
    exists (val_prim (mjoin o)). split; [|done]. destruct v as [| |z| | | | |]; cbn [prim_of omapM] in Ho; try by injection Ho as <-.
    destruct (change_precision_round_half_up z p s tp ts); try discriminate. by injection Ho as <-.
Qed.

(** An unscaled value of a decimal made from a 64-bit number is the number. *)
Lemma unscaled_make_decimal p s vs :
  1 <= p <= 38 → -128 <= s <= p → Forall (λ v, v = VNull ∨ ∃ z, v = VPrim z ∧ in_s 64 z) vs →
  (c ← spark_make_decimal (CArray (mkColumn (Primitive Int64) vs) :: decimal_lits p s); spark_unscaled_value [c]) =
  Ok (CArray (mkColumn (Primitive Int64) vs)).
Proof.
  intros Hp Hs Hvs. unfold spark_make_decimal. rewrite decimal_args_Ok by lia. cbn [mbind Result_bind ctype]. unfold with_precision_and_scale.
  rewrite bool_decide_eq_true_2 by lia. cbn [mbind Result_bind spark_unscaled_value ctype cvals]. unfold prim_from_iter, prim_iter. cbn [cvals].
  do 3 f_equal. rewrite <- !list_fmap_compose. rewrite <- (list_fmap_id vs) at 2. apply list_fmap_ext. intros i v Hi.
  rewrite Forall_lookup in Hvs. destruct (Hvs i v Hi) as [->|(z & -> & Hz)]; cbn; [done|]. unfold i64. by rewrite wraps_id.
Qed.

(** ** Inputs *)

Module DecimalSample.

(** The powers of ten of floats of the samples. *)
Definition powi (F : FloatFormat) (n : Z) : spec_float :=
  if 0 <=? n then f_of_int F (10 ^ n) else f_div F (f_of_int F 1) (f_of_int F (10 ^ (- n))).

Definition decimals (p s : Z) (l : list Z) : Column := mkColumn (Primitive (Decimal128 p s)) (VPrim <$> l).
Definition ints (l : list Z) : Column := mkColumn (Primitive Int32) (VNull :: (VPrim <$> l)).


Example rounded_ints :
  spark_round powi [CArray (ints [25; -35; 2147483647]); CScalar (Primitive Int32) (VPrim (-1))] = Ok (CArray (ints [30; -40; -2147483646])) ∧
  spark_bround powi [CArray (ints [25; -35; 2147483647]); CScalar (Primitive Int32) (VPrim (-1))] = Ok (CArray (ints [20; -40; -2147483646])).
Proof. by vm_compute. Qed.

Lemma check_overflow_correct_witness :
  (∃ vs', spark_check_overflow (CArray (decimals 10 3 [12345; -67895; 9999999]) :: decimal_lits 4 1) =
      Ok (CArray (mkColumn (Primitive (Decimal128 4 1)) vs')) ∧
    Forall2 (row_rescaled 2 4) (VPrim <$> [12345; -67895; 9999999]) vs') ∧
  Forall (λ v, ∃ v', spark_check_overflow (CScalar (Primitive (Decimal128 10 3)) v :: decimal_lits 4 1) =
      Ok (CScalar (Primitive (Decimal128 4 1)) v') ∧ row_rescaled 2 4 v v') (VPrim <$> [12345; -67895; 9999999]).
Proof.
  apply (check_overflow_correct 10 3 4 1); [lia..|].
  repeat (apply Forall_cons_2; [intros z [= <-]; lia|]). apply Forall_nil_2.
Defined.

Example overflow_checked :
  spark_check_overflow (CArray (decimals 10 3 [12345; -67895; 9999999]) :: decimal_lits 4 1) =
    Ok (CArray (mkColumn (Primitive (Decimal128 4 1)) [VPrim 123; VPrim (-679); VNull])) ∧
  (λ v, spark_check_overflow (CScalar (Primitive (Decimal128 10 3)) v :: decimal_lits 4 1)) <$> [VPrim (-67895); VPrim 9999999; VNull] =
    (λ v, Ok (CScalar (Primitive (Decimal128 4 1)) v)) <$> [VPrim (-679); VNull; VNull].
Proof. by vm_compute. Qed.

(** A decimal value keeps its digits where a column is rounded, and a larger scale moves the
    point of a column: 1.25 to one digit, 1.5 to three. *)
Lemma round_decimal_scales :
  spark_round powi [CScalar (Primitive (Decimal128 3 2)) (VPrim 125); CScalar (Primitive Int32) (VPrim 1)] =
    Ok (CScalar (Primitive (Decimal128 3 2)) (VPrim 125)) ∧
  spark_round powi [CArray (decimals 3 2 [125]); CScalar (Primitive Int32) (VPrim 1)] = Ok (CArray (decimals 3 2 [130])) ∧
  spark_round powi [CArray (decimals 5 1 [15]); CScalar (Primitive Int32) (VPrim 3)] = Ok (CArray (decimals 5 1 [1500])).
Proof. by vm_compute. Qed.

(** Out of the range of [spark_rounding_nearest]: 0.9 with 38 digits is rounded to 0, since
    twice the remainder wraps around, and 5 rounded to 39 digits is not 0. *)
Lemma round_wraps :
  spark_round powi [CArray (decimals 38 38 [9 * 10 ^ 37]); CScalar (Primitive Int32) (VPrim 0)] = Ok (CArray (decimals 38 38 [0])) ∧
  round_i128_half_up 5 (-39) = Ok (10 ^ 39 - 3 * 2 ^ 128) ∧ round_i128_half_up 5 (-128) = Panic.
Proof. by vm_compute. Qed.

(** The product of a change of scale wraps around into the range of the precision. *)
Lemma check_overflow_wraps :
  spark_check_overflow (CArray (decimals 38 0 [10 ^ 37]) :: decimal_lits 38 2) =
  Ok (CArray (decimals 38 2 [10 ^ 39 - 3 * 2 ^ 128])).
Proof. by vm_compute. Qed.

(** The float below one half is rounded to one, since adding one half is inexact. *)
Lemma round_half_up_below_half :
  SFltb (f_of_bits f64 4602678819172646911) (half f64) = true ∧
  round_half_up_f64 (f_of_bits f64 4602678819172646911) = f_of_int f64 1 ∧
  round_half_even_f64 (f_of_bits f64 4602678819172646911) = S754_zero false.
Proof. by vm_compute. Qed.

(** 2.5, -2.5 and 0.125 at two digits. *)
Example rounded_floats :
  spark_round powi [CArray (mkColumn (Primitive Float64) (VPrim ∘ f_to_bits f64 <$> [f_of_scaled f64 5 (-1) false; f_of_scaled f64 (-5) (-1) false]));
    CScalar (Primitive Int32) (VPrim 0)] = Ok (CArray (mkColumn (Primitive Float64) (VPrim ∘ f_to_bits f64 ∘ f_of_int f64 <$> [3; -3]))) ∧
  spark_bround powi [CArray (mkColumn (Primitive Float64) (VPrim ∘ f_to_bits f64 <$> [f_of_scaled f64 5 (-1) false; f_of_scaled f64 (-5) (-1) false]));
    CScalar (Primitive Int32) (VPrim 0)] = Ok (CArray (mkColumn (Primitive Float64) (VPrim ∘ f_to_bits f64 ∘ f_of_int f64 <$> [2; -2]))) ∧
  spark_round powi [CScalar (Primitive Float64) (VPrim (f_to_bits f64 (f_of_scaled f64 1 (-3) false))); CScalar (Primitive Int32) (VPrim 2)] =
    Ok (CScalar (Primitive Float64) (VPrim (f_to_bits f64 (f_div f64 (f_of_int f64 13) (f_of_int f64 100))))).
Proof. by vm_compute. Qed.

End DecimalSample.
