(* ===== verification/CastText.v ===== *)
(** * Casts of strings to integers and dates

    native-engine/datafusion-ext-commons/src/arrow/cast.rs: [to_integer] and [to_date], copied
    from Spark.  [to_integer_correct] equates the parser, which accumulates negated digits and
    stops when it would overflow, with reading the digits as an unbounded number;
    [to_date_correct] gives the accepted formats. *)

From S2P Require Import Prelude MachineInt.
Local Open Scope Z_scope.

Set Default Proof Using "Type".

Local Abbreviation bytes := (list Z).

Definition is_ascii_digit (b : Z) : bool := (48 <=? b) && (b <=? 57).

(** ** Integers *)

Section Integer.
(** The width of the target. *)
Context (w : Z).

Definition min_value : Z := - 2 ^ (w - 1).
Definition stop_value : Z := Z.quot min_value 10.

(** The first loop: the negated number and what is left behind a separator. *)
Fixpoint integral_part (bs : bytes) (result : Z) : option (Z * bytes) :=
  match bs with
  | [] => Some (result, [])
  | b :: bs =>
      if b =? 46 then Some (result, bs)
      else if is_ascii_digit b then
        if result <? stop_value then None
        else
          let result := wraps w (wraps w (result * 10) - (b - 48)) in
          if 0 <? result then None else integral_part bs result
      else None
  end.

Definition to_integer (input : bytes) : option Z :=
  match input with
  | [] => None
  | b :: rest =>
      let negative := b =? 45 in
      let signed := negative || (b =? 43) in
      if signed && bool_decide (length input = 1%nat) then None
      else
        '(result, fraction) ← integral_part (if signed then rest else input) 0;
        if forallb is_ascii_digit fraction then
          if negative then Some result
          else let result := wraps w (- result) in if result <? 0 then None else Some result
        else None
  end.

(** ** The number a string denotes *)

Definition digits_val (ds : bytes) : Z := fold_left (λ v d, v * 10 + (d - 48)) ds 0.

(** The bytes before the first separator, and those behind it. *)
Fixpoint split_point (bs : bytes) : bytes * bytes :=
  match bs with
  | [] => ([], [])
  | b :: bs => if b =? 46 then ([], bs) else let '(p, q) := split_point bs in (b :: p, q)
  end.

(** An optional sign and digits with an optional fraction, which is cut off; a sign alone is
    not a number, a point alone is zero. *)
Definition integer_of (input : bytes) : option Z :=
  let '(sign, body) := match input with
    | b :: body => if b =? 45 then (-1, body) else if b =? 43 then (1, body) else (1, input)
    | [] => (1, []) end in
  let '(int, fraction) := split_point body in
  if bool_decide (body ≠ []) && forallb is_ascii_digit int && forallb is_ascii_digit fraction
  then Some (sign * digits_val int) else None.

(** Whether the value is in the range of the type. *)
Definition checked (v : Z) : option Z := if (min_value <=? v) && (v <? - min_value) then Some v else None.

Lemma fold_digits_mono ds v : forallb is_ascii_digit ds = true → 0 <= v → v <= fold_left (λ v d, v * 10 + (d - 48)) ds v.
Proof.
  revert v. induction ds as [|d ds IH]; intros v Hd Hv; [done|]. cbn [forallb] in Hd. apply andb_prop in Hd as [Hd Hds].
  unfold is_ascii_digit in Hd. apply andb_prop in Hd as [H1%Z.leb_le H2%Z.leb_le]. cbn [fold_left].
  specialize (IH (v * 10 + (d - 48)) Hds). lia.
Qed.

Context (w_ge : 8 <= w).

Lemma min_value_bound : min_value <= -128 ∧ 2 ^ w = - 2 * min_value.
Proof using w_ge.
  unfold min_value. assert (2 ^ 7 <= 2 ^ (w - 1)) by (apply Z.pow_le_mono_r; lia). split; [lia|].
  replace w with (Z.succ (w - 1)) at 1 by lia. rewrite Z.pow_succ_r by lia. lia.
Qed.

Lemma stop_value_bound : 10 * stop_value = min_value + Z.rem (- min_value) 10 ∧ 0 <= Z.rem (- min_value) 10 < 10.
Proof using w_ge.
  pose proof min_value_bound. unfold stop_value. pose proof (Z.quot_rem' (- min_value) 10). rewrite Z.quot_opp_l in H0 by lia.
  pose proof (Z.rem_bound_pos (- min_value) 10). lia.
Qed.

(** The loop from [result = - v] reads the rest of the number, unless it is out of range. *)
Lemma integral_part_ok bs v :
  0 <= v <= - min_value →
  let '(int, fraction) := split_point bs in
  integral_part bs (- v) =
    if forallb is_ascii_digit int && (fold_left (λ v d, v * 10 + (d - 48)) int v <=? - min_value)
    then Some (- fold_left (λ v d, v * 10 + (d - 48)) int v, fraction) else None.
Proof using w_ge.
  revert v. induction bs as [|b bs IH]; intros v Hv.
  { cbn. by rewrite (proj2 (Z.leb_le _ _)) by lia. }
  cbn [split_point integral_part]. destruct (b =? 46); [cbn; by rewrite (proj2 (Z.leb_le _ _)) by lia|].
  destruct (split_point bs) as [int fraction] eqn:Hs. cbn [forallb fold_left].
  destruct (is_ascii_digit b) eqn:Hb; [|done]. cbn [andb].
  pose proof min_value_bound as [Hmin Hw]. pose proof stop_value_bound as [Hstop Hrem].
  assert (0 <= b - 48 <= 9) as Hd by (unfold is_ascii_digit in Hb; apply andb_prop in Hb as [?%Z.leb_le ?%Z.leb_le]; lia).
  assert (∀ x, in_s w x ↔ min_value <= x < - min_value) as Hin by (intros x; unfold in_s, min_value; lia).
  assert (- min_value < v * 10 + (b - 48) → forallb is_ascii_digit int && (fold_left (λ v d, v * 10 + (d - 48)) int (v * 10 + (b - 48)) <=? - min_value) = false) as Hover.
  { intros Ho. destruct (forallb is_ascii_digit int) eqn:Hint; [|done]. pose proof (fold_digits_mono int (v * 10 + (b - 48)) Hint). 
    cbn [andb]. apply Z.leb_gt. lia. }
  destruct (Z.ltb_spec (- v) stop_value).
  { rewrite Hover; [done|]. lia. }
  rewrite (wraps_id w (- v * 10)) by (lia || (apply Hin; lia)).
  destruct (decide (- min_value < v * 10 + (b - 48))) as [Ho|Ho].
  - rewrite Hover by done. unfold wraps. 
    assert ((- v * 10 - (b - 48) + 2 ^ (w - 1)) mod 2 ^ w = - v * 10 - (b - 48) + 2 ^ (w - 1) + 2 ^ w) as ->.
    { symmetry. apply (Z.mod_unique _ _ (-1)); [|lia]. left. unfold min_value in *. lia. }
    rewrite (proj2 (Z.ltb_lt _ _)); [done|]. lia.
  - rewrite wraps_id by (lia || (apply Hin; lia)). rewrite (proj2 (Z.ltb_ge _ _)) by lia.
    specialize (IH (v * 10 + (b - 48))). cbn in IH. replace (- v * 10 - (b - 48)) with (- (v * 10 + (b - 48))) by lia. apply IH. lia.
Qed.

Lemma to_integer_body body negative :
  body ≠ [] →
  (integral_part body 0 ≫= λ '(result, fraction),
   if forallb is_ascii_digit fraction then
     if negative : bool then Some result
     else let result := wraps w (- result) in if result <? 0 then None else Some result
   else None : option Z) =
  (let '(int, fraction) := split_point body in
   if bool_decide (body ≠ []) && forallb is_ascii_digit int && forallb is_ascii_digit fraction
   then Some ((if negative : bool then -1 else 1) * digits_val int) else None) ≫= checked.
Proof using w_ge.
  intros Hb. rewrite bool_decide_eq_true_2 by done. pose proof min_value_bound as [Hmin Hw].
  pose proof (integral_part_ok body 0 ltac:(lia)) as Hi. destruct (split_point body) as [int fraction]. change (- 0) with 0 in Hi. rewrite Hi.
  fold (digits_val int). destruct (forallb is_ascii_digit int) eqn:Hint; [|done]. cbn [andb].
  pose proof (fold_digits_mono int 0 Hint ltac:(lia)) as HV. fold (digits_val int) in HV. set (V := digits_val int) in *.
  assert (∀ x, in_s w x ↔ min_value <= x < - min_value) as Hin by (intros x; unfold in_s, min_value; lia).
  unfold checked. destruct (Z.leb_spec V (- min_value)) as [HVm|HVm]; cbn [mbind option_bind];
    destruct (forallb is_ascii_digit fraction), negative; cbn [mbind option_bind]; try done.
  - rewrite (proj2 (Z.leb_le _ _)), (proj2 (Z.ltb_lt _ _)) by lia. cbn [andb]. f_equal; lia.
  - rewrite Z.opp_involutive, Z.mul_1_l, (proj2 (Z.leb_le min_value V)) by lia. cbn [andb].
    destruct (decide (V = - min_value)) as [->|].
    + unfold wraps. rewrite Z.ltb_irrefl.
      assert ((- min_value + 2 ^ (w - 1)) mod 2 ^ w = 0) as ->.
      { replace (- min_value + 2 ^ (w - 1)) with (2 ^ w) by (unfold min_value in *; lia). apply Z.mod_same. lia. }
      rewrite (proj2 (Z.ltb_lt _ _)); [done|]. unfold min_value in *. lia.
    + rewrite wraps_id by (lia || (apply Hin; lia)). rewrite (proj2 (Z.ltb_ge _ _)), (proj2 (Z.ltb_lt _ _)) by lia. done.
  - rewrite (proj2 (Z.leb_gt _ _)) by lia. done.
  - rewrite Z.mul_1_l, (proj2 (Z.ltb_ge _ _)), andb_false_r by lia. done.
Qed.

(** C25: casting text to an integer of a width gives the number written by an optional
    sign and digits with an optional fraction, truncated, exactly when the text has that
    form and the number is in the range of the width: the wrapping arithmetic, its early
    stop and its sign test detect every overflow. *)
Theorem to_integer_correct input : to_integer input = integer_of input ≫= checked.
Proof using w_ge.
  destruct input as [|b rest]; [done|]. unfold to_integer, integer_of.
  assert (bool_decide (length (b :: rest) = 1%nat) = bool_decide (rest = [])) as -> by (apply bool_decide_ext; by destruct rest).
  destruct (Z.eqb_spec b 45); [|destruct (Z.eqb_spec b 43)]; cbn [orb andb].
  - case_bool_decide as Hr; [by subst|]. by apply (to_integer_body rest true).
  - case_bool_decide as Hr; [by subst|]. by apply (to_integer_body rest false).
  - by apply (to_integer_body (b :: rest) false).
Qed.

End Integer.

(** ** Dates *)

(** [char::is_whitespace] beyond one byte, as UTF-8: the [White_Space] of Unicode. *)
Definition whitespaces : list bytes :=
  ((λ b, [b]) <$> [9; 10; 11; 12; 13; 32]) ++ [[194; 133]; [194; 160]; [225; 154; 128]] ++
  ((λ b, [226; 128; b]) <$> [128; 129; 130; 131; 132; 133; 134; 135; 136; 137; 138; 168; 169; 175]) ++
  [[226; 129; 159]; [227; 128; 128]].

(** One space at the start or at the end. *)
Definition skip_space (cut : bytes → bytes → option bytes) (s : bytes) : option bytes :=
  foldr (λ ws r, match cut ws s with Some s' => Some s' | None => r end) None whitespaces.

Definition cut_start (ws s : bytes) : option bytes :=
  if decide (take (length ws) s = ws) then Some (drop (length ws) s) else None.

Definition cut_end (ws s : bytes) : option bytes :=
  let n := (length s - length ws)%nat in
  if decide (ws ≠ [] ∧ drop n s = ws) then Some (take n s) else None.

Fixpoint trim_with (fuel : nat) (cut : bytes → bytes → option bytes) (s : bytes) : bytes :=
  match fuel with
  | 0%nat => s
  | S fuel => match skip_space cut s with Some s' => trim_with fuel cut s' | None => s end
  end.

(** [str::trim]; every cut shortens the string. *)
Definition trim (s : bytes) : bytes :=
  let s := trim_with (length s) cut_start s in trim_with (length s) cut_end s.

Section Date.
(** [NaiveDate::from_ymd_opt] followed by [num_days_from_ce]. *)
Context (from_ymd_opt : Z → Z → Z → option Z).

Definition is_valid_digits (segment : nat) (digits : Z) : bool :=
  let max_digits_year := 7 in
  bool_decide (segment = 0%nat) && (4 <=? digits) && (digits <=? max_digits_year) ||
  bool_decide (segment ≠ 0%nat) && (0 <? digits) && (digits <=? 2).

(** The loop: the segment, the segments, the value and the digits of the current one, and the
    bytes that are left. *)
Fixpoint date_segments (bs : bytes) (i : nat) (segments : list Z) (value digits : Z) : option (nat * list Z * Z * Z * bytes) :=
  match bs with
  | [] => Some (i, segments, value, digits, [])
  | b :: rest =>
      if bool_decide (i < 3)%nat && negb ((b =? 32) || (b =? 84)) then
        if bool_decide (i < 2)%nat && (b =? 45) then
          if negb (is_valid_digits i digits) then None
          else date_segments rest (i + 1) (<[i := value]> segments) 0 0
        else
          let parsed_value := u8 (b - 48) in
          if negb ((0 <=? parsed_value) && (parsed_value <=? 9)) then None
          else date_segments rest i segments (i32 (i32 (value * 10) + parsed_value)) (i32 (digits + 1))
      else Some (i, segments, value, digits, bs)
  end.

(** What follows the loop, up to the segments. *)
Definition date_end (st : nat * list Z * Z * Z * bytes) : option (list Z) :=
  let '(i, segments, value, digits, rest) := st in
  if negb (is_valid_digits i digits) then None
  else if bool_decide (i < 2)%nat && bool_decide (rest ≠ []) then None
  else Some (<[i := value]> segments).

Definition to_date (s : bytes) : option Z :=
  let s_trimmed := trim s in
  match s_trimmed with
  | [] => None
  | b :: rest =>
      let signed := (b =? 45) || (b =? 43) in
      let sign := if b =? 45 then -1 else 1 in
      segments ← date_segments (if signed then rest else s_trimmed) 0 [1; 1; 1] 0 0 ≫= date_end;
      let year := nth 0 segments 0 in
      let month := nth 1 segments 0 in
      let day := nth 2 segments 0 in
      if (9999 <? year) || (12 <? month) || (31 <? day) then None
      else (λ days, i32 (days - 719163)) <$> from_ymd_opt (i32 (sign * year)) (u32 month) (u32 day)
  end.

(** ** The formats *)

Definition number (lo hi : nat) (ds : bytes) (v : Z) : Prop :=
  forallb is_ascii_digit ds = true ∧ (lo <= length ds <= hi)%nat ∧ v = digits_val ds.

(** Nothing, or anything behind a blank or a T. *)
Definition time_part (tail : bytes) : Prop := ∀ b, head tail = Some b → b = 32 ∨ b = 84.

(** [yyyy], [yyyy-[m]m] and [yyyy-[m]m-[d]d] with a time that is not read. *)
Inductive date_format : bytes → Z → Z → Z → Prop :=
  | DF_year ys y : number 4 7 ys y → date_format ys y 1 1
  | DF_month ys y ms m : number 4 7 ys y → number 1 2 ms m → date_format (ys ++ 45 :: ms) y m 1
  | DF_day ys y ms m ds d tail :
      number 4 7 ys y → number 1 2 ms m → number 1 2 ds d → time_part tail →
      date_format (ys ++ 45 :: ms ++ 45 :: ds ++ tail) y m d.

(** A date with an optional sign and at most four significant digits in its year. *)
Definition signed_date (s : bytes) (y m d : Z) : Prop :=
  ∃ y0 body, date_format body y0 m d ∧ y0 <= 9999 ∧
    (s = 45 :: body ∧ y = - y0 ∨ s = 43 :: body ∧ y = y0 ∨ s = body ∧ y = y0).

Fixpoint span_digits (bs : bytes) : bytes * bytes :=
  match bs with
  | [] => ([], [])
  | b :: rest => if is_ascii_digit b then let '(ds, r) := span_digits rest in (b :: ds, r) else ([], bs)
  end.

(** The value of digits in a 32-bit register. *)
Definition digits_i32 (ds : bytes) (v : Z) : Z := fold_left (λ v d, i32 (i32 (v * 10) + (d - 48))) ds v.

Lemma span_digits_ok bs :
  let '(ds, rest) := span_digits bs in
  bs = ds ++ rest ∧ forallb is_ascii_digit ds = true ∧ ∀ b, head rest = Some b → is_ascii_digit b = false.
Proof.
  induction bs as [|b bs IH]; cbn [span_digits]; [by split_and!|]. destruct (is_ascii_digit b) eqn:Hb.
  - destruct (span_digits bs) as [ds rest]. destruct IH as (-> & Hds & Hr). cbn [forallb]. by rewrite Hb, Hds.
  - split_and!; [done|done|]. by intros ? [= <-].
Qed.

Lemma span_digits_app ds rest :
  forallb is_ascii_digit ds = true → (∀ b, head rest = Some b → is_ascii_digit b = false) → span_digits (ds ++ rest) = (ds, rest).
Proof.
  intros Hds Hr. induction ds as [|d ds IH]; cbn [app span_digits].
  - destruct rest as [|b rest]; [done|]. cbn [span_digits]. by rewrite (Hr b).
  - cbn [forallb] in Hds. apply andb_prop in Hds as [Hd Hds]. by rewrite Hd, IH.
Qed.

Lemma digit_range b : is_ascii_digit b = true → 48 <= b <= 57.
Proof. unfold is_ascii_digit. intros [?%Z.leb_le ?%Z.leb_le]%andb_prop. lia. Qed.

(** The digits at the head are added to the current segment. *)
Lemma segments_digits ds rest i segs v n :
  (i < 3)%nat → forallb is_ascii_digit ds = true → 0 <= n → n + Z.of_nat (length ds) < 2 ^ 31 →
  date_segments (ds ++ rest) i segs v n = date_segments rest i segs (digits_i32 ds v) (n + Z.of_nat (length ds)).
Proof.
  intros Hi. revert v n. induction ds as [|d ds IH]; intros v n Hds Hn Hl; [by rewrite Z.add_0_r|].
  cbn [forallb] in Hds. apply andb_prop in Hds as [Hd Hds]. pose proof (digit_range d Hd). cbn [length] in Hl.
  cbn [app date_segments]. rewrite bool_decide_eq_true_2 by done.
  assert ((d =? 32) = false ∧ (d =? 84) = false ∧ (d =? 45) = false) as (-> & -> & ->) by (repeat split; apply Z.eqb_neq; lia).
  rewrite andb_false_r. cbn [negb orb andb]. assert (u8 (d - 48) = d - 48) as -> by (apply wrapu_id; unfold in_u; lia).
  rewrite (proj2 (Z.leb_le 0 _)), (proj2 (Z.leb_le _ 9)) by lia. cbn [negb andb].
  assert (i32 (n + 1) = n + 1) as -> by (apply wraps_id; unfold in_s; lia). rewrite IH by (done || lia). cbn [length]. f_equal. lia.
Qed.

Lemma digits_i32_small ds : forallb is_ascii_digit ds = true → (length ds <= 7)%nat → digits_i32 ds 0 = digits_val ds.
Proof.
  intros Hds Hl. unfold digits_i32, digits_val.
  assert (∀ ds v k, forallb is_ascii_digit ds = true → 0 <= v < 10 ^ k → 0 <= k → k + Z.of_nat (length ds) <= 7 →
    fold_left (λ v d, i32 (i32 (v * 10) + (d - 48))) ds v = fold_left (λ v d, v * 10 + (d - 48)) ds v) as H.
  { clear. induction ds as [|d ds IH]; intros v k Hds Hv Hk Hl; [done|]. cbn [forallb] in Hds. apply andb_prop in Hds as [Hd Hds].
    pose proof (digit_range d Hd). cbn [fold_left length] in *. assert (10 ^ k <= 10 ^ 6) by (apply Z.pow_le_mono_r; lia).
    assert (i32 (v * 10) = v * 10) as -> by (apply wraps_id; unfold in_s; lia).
    assert (i32 (v * 10 + (d - 48)) = v * 10 + (d - 48)) as -> by (apply wraps_id; unfold in_s; lia).
    apply (IH _ (k + 1)); [done| |lia|lia]. rewrite Z.pow_add_r by lia. lia. }
  apply (H ds 0 0); [done|lia|lia|lia].
Qed.

Definition seg_lo (i : nat) : nat := if bool_decide (i = 0%nat) then 4 else 1.
Definition seg_hi (i : nat) : nat := if bool_decide (i = 0%nat) then 7 else 2.

Lemma valid_digits_spec i n : is_valid_digits i (Z.of_nat n) = true ↔ (seg_lo i <= n <= seg_hi i)%nat.
Proof.
  unfold is_valid_digits, seg_lo, seg_hi. case_bool_decide; subst.
  - rewrite bool_decide_eq_false_2, orb_false_r by auto. cbn [andb]. rewrite andb_true_iff, !Z.leb_le. lia.
  - rewrite bool_decide_eq_true_2 by done. cbn [andb orb]. rewrite andb_true_iff, Z.ltb_lt, Z.leb_le. lia.
Qed.

Lemma valid_number i ds v :
  number (seg_lo i) (seg_hi i) ds v ↔
  forallb is_ascii_digit ds = true ∧ is_valid_digits i (Z.of_nat (length ds)) = true ∧ v = digits_i32 ds 0.
Proof.
  unfold number. rewrite valid_digits_spec. assert (seg_hi i <= 7)%nat by (unfold seg_hi; case_bool_decide; lia).
  split; intros (Hd & Hl & ->); (split; [done|]; split; [done|]); rewrite digits_i32_small by (done || lia); done.
Qed.

(** One segment. *)
Lemma scan_level i segs bs ds rest :
  (i < 3)%nat → bytes_ok bs → Z.of_nat (length bs) < 2 ^ 31 → span_digits bs = (ds, rest) →
  date_segments bs i segs 0 0 ≫= date_end =
  match rest with
  | [] => date_end (i, segs, digits_i32 ds 0, Z.of_nat (length ds), [])
  | b :: r =>
      if (b =? 32) || (b =? 84) then date_end (i, segs, digits_i32 ds 0, Z.of_nat (length ds), b :: r)
      else if bool_decide (i < 2)%nat && (b =? 45) then
        if is_valid_digits i (Z.of_nat (length ds)) then date_segments r (i + 1) (<[i := digits_i32 ds 0]> segs) 0 0 ≫= date_end else None
      else None
  end.
Proof.
  intros Hi Hby Hl Hs. pose proof (span_digits_ok bs) as Hok. rewrite Hs in Hok. destruct Hok as (-> & Hds & Hr). rewrite length_app in Hl.
  rewrite segments_digits by (done || lia). rewrite Z.add_0_l. destruct rest as [|b r]; [done|]. cbn [date_segments].
  rewrite bool_decide_eq_true_2 by done. destruct ((b =? 32) || (b =? 84)) eqn:Hb; [done|]. cbn [negb andb].
  destruct (bool_decide (i < 2)%nat && (b =? 45)); [by destruct (is_valid_digits _ _)|].
  assert ((0 <=? u8 (b - 48)) && (u8 (b - 48) <=? 9) = false) as ->; [|done].
  specialize (Hr b eq_refl). unfold is_ascii_digit in Hr. apply Forall_app in Hby as [_ Hby]. apply Forall_cons in Hby as [[Hb0 Hb1] _].
  apply not_true_is_false. intros [H0%Z.leb_le H9%Z.leb_le]%andb_prop. unfold u8, wrapu in *. change (2 ^ 8) with 256 in *. destruct (decide (48 <= b)).
  - rewrite Z.mod_small in H9 by lia. rewrite (proj2 (Z.leb_le 48 b)), (proj2 (Z.leb_le b 57)) in Hr by lia. done.
  - rewrite <- (Z.mod_unique (b - 48) 256 (-1) (b + 208)) in H9 by lia. lia.
Qed.

(** A segment is a number, and then the string ends or the next segment begins. *)
Lemma level_spec i segs body l :
  (i < 3)%nat → bytes_ok body → Z.of_nat (length body) < 2 ^ 31 →
  date_segments body i segs 0 0 ≫= date_end = Some l ↔
  ∃ ds rest v, body = ds ++ rest ∧ number (seg_lo i) (seg_hi i) ds v ∧
    ((rest = [] ∨ i = 2%nat ∧ time_part rest) ∧ l = <[i := v]> segs ∨
     (i < 2)%nat ∧ ∃ r, rest = 45 :: r ∧ date_segments r (i + 1) (<[i := v]> segs) 0 0 ≫= date_end = Some l).
Proof.
  intros Hi Hby Hl. split.
  - destruct (span_digits body) as [ds rest] eqn:Hs. rewrite (scan_level i segs body ds rest) by done.
    pose proof (span_digits_ok body) as Hok. rewrite Hs in Hok. destruct Hok as (-> & Hds & _). intros H.
    assert (is_valid_digits i (Z.of_nat (length ds)) = true) as Hv.
    { destruct (is_valid_digits i (Z.of_nat (length ds))) eqn:Hv; [done|]. exfalso. revert H. unfold date_end. rewrite Hv.
      by destruct rest as [|b r]; [|destruct ((b =? 32) || (b =? 84)); [|destruct (bool_decide _ && _)]]. }
    exists ds, rest, (digits_i32 ds 0). split; [done|]. split; [by apply valid_number|]. revert H. unfold date_end. rewrite Hv. cbn [negb].
    destruct rest as [|b r].
    + rewrite andb_false_r. intros [= <-]. left. split; [by left|done].
    + rewrite (bool_decide_eq_true_2 (b :: r ≠ [])), andb_true_r by done. destruct ((b =? 32) || (b =? 84)) eqn:Hb.
      * case_bool_decide; [done|]. intros [= <-]. left. split; [|done]. right. split; [lia|].
        intros b' [= <-]. apply orb_prop in Hb as [->%Z.eqb_eq| ->%Z.eqb_eq]; auto.
      * case_bool_decide; [|done]. cbn [andb]. destruct (Z.eqb_spec b 45) as [->|]; [|done]. intros H'. right. split; [done|]. by exists r.
  - intros (ds & rest & v & -> & (Hds & Hv & ->)%valid_number & Hr).
    assert (∀ b, head rest = Some b → is_ascii_digit b = false) as Hh.
    { intros b Hb. destruct Hr as [[[->|[_ Ht]] _]|(_ & r & -> & _)]; [done| |by injection Hb as <-]. by destruct (Ht b Hb) as [->| ->]. }
    rewrite (scan_level i segs _ ds rest) by (done || by apply span_digits_app).
    destruct Hr as [[Hend ->]|(Hi2 & r & -> & Hr)].
    + unfold date_end. rewrite Hv. cbn [negb]. destruct rest as [|b r]; [by rewrite andb_false_r|].
      destruct Hend as [|[-> Ht]]; [done|]. destruct (Ht b eq_refl) as [->| ->]; done.
    + cbn [Z.eqb Pos.eqb orb]. rewrite bool_decide_eq_true_2 by done. cbn [andb]. by rewrite Hv.
Qed.

(** The loop and what follows it read the formats. *)
Lemma scan_format body l :
  bytes_ok body → Z.of_nat (length body) < 2 ^ 31 →
  (date_segments body 0 [1; 1; 1] 0 0 ≫= date_end = Some l ↔ ∃ y m d, l = [y; m; d] ∧ date_format body y m d).
Proof.
  intros Hby Hl. rewrite level_spec by (done || lia). split.
  - intros (ys & r0 & y & -> & Hy & [[[->|[? _]] ->]|(_ & r1 & -> & H1)]); [|done|].
    { do 3 eexists. split; [done|]. rewrite app_nil_r. by constructor. }
    apply Forall_app in Hby as [_ [_ Hby]%Forall_cons]. rewrite length_app in Hl. cbn [length] in Hl. change (<[0%nat:=y]> [1; 1; 1]) with [y; 1; 1] in H1.
    rewrite level_spec in H1 by (done || lia). destruct H1 as (ms & r2 & m & -> & Hm & [[[->|[? _]] ->]|(_ & r3 & -> & H2)]); [|done|].
    { do 3 eexists. split; [done|]. rewrite app_nil_r. by apply DF_month. }
    apply Forall_app in Hby as [_ [_ Hby]%Forall_cons]. rewrite length_app in Hl. cbn [length] in Hl. change (<[(0 + 1)%nat:=m]> [y; 1; 1]) with [y; m; 1] in H2.
    rewrite level_spec in H2 by (done || lia). destruct H2 as (ds & tail & d & -> & Hd & [[Ht ->]|(? & _)]); [|lia].
    do 3 eexists. split; [done|]. apply DF_day; [done..|]. by destruct Ht as [->|[_ Ht]].
  - intros (y & m & d & -> & Hf). 
    assert (∀ ms rest' x, ms ++ 45 :: rest' = x → bytes_ok x → Z.of_nat (length x) < 2 ^ 31 → bytes_ok rest' ∧ Z.of_nat (length rest') < 2 ^ 31) as Htl.
    { intros ms rest' x <- [_ [_ Hb]%Forall_cons]%Forall_app Hx. split; [done|]. rewrite length_app in Hx. cbn [length] in Hx. lia. }
    destruct Hf as [ys y Hy|ys y ms m Hy Hm|ys y ms m ds d tail Hy Hm Hd Ht].
    + exists ys, [], y. rewrite app_nil_r. split; [done|]. split; [done|]. left. split; [by left|done].
    + destruct (Htl _ _ _ eq_refl Hby Hl) as [Hby1 Hl1]. exists ys, (45 :: ms), y. split; [done|]. split; [done|]. right. split; [lia|]. exists ms. split; [done|].
      apply level_spec; [lia|done|done|]. exists ms, [], m. rewrite app_nil_r. split; [done|]. split; [done|]. left. split; [by left|done].
    + destruct (Htl _ _ _ eq_refl Hby Hl) as [Hby1 Hl1]. destruct (Htl _ _ _ eq_refl Hby1 Hl1) as [Hby2 Hl2].
      exists ys, (45 :: ms ++ 45 :: ds ++ tail), y. split; [done|]. split; [done|]. right. split; [lia|]. eexists. split; [done|].
      apply level_spec; [lia|done|done|]. exists ms, (45 :: ds ++ tail), m. split; [done|]. split; [done|]. right. split; [lia|]. eexists. split; [done|].
      apply level_spec; [lia|done|done|]. exists ds, tail, d. split; [done|]. split; [done|]. left. split; [by right|done].
Qed.

Lemma number_range lo hi ds v : number lo hi ds v → (hi <= 7)%nat → 0 <= v < 10 ^ 7.
Proof.
  intros (Hd & Hl & ->) Hhi. unfold digits_val.
  assert (∀ ds v k, forallb is_ascii_digit ds = true → 0 <= v < 10 ^ k → 0 <= k →
    0 <= fold_left (λ v d, v * 10 + (d - 48)) ds v < 10 ^ (k + Z.of_nat (length ds))) as H.
  { clear. induction ds as [|d ds IH]; intros v k Hds Hv Hk; [by rewrite Z.add_0_r|]. cbn [forallb] in Hds. apply andb_prop in Hds as [Hd Hds].
    pose proof (digit_range d Hd). cbn [fold_left length]. replace (k + Z.of_nat (S (length ds))) with (k + 1 + Z.of_nat (length ds)) by lia.
    apply IH; [done| |lia]. rewrite Z.pow_add_r by lia. lia. }
  specialize (H ds 0 0 Hd ltac:(lia) ltac:(lia)). assert (10 ^ (0 + Z.of_nat (length ds)) <= 10 ^ 7) by (apply Z.pow_le_mono_r; lia). lia.
Qed.

Lemma date_format_range body y m d :
  date_format body y m d → 0 <= y < 10 ^ 7 ∧ 0 <= m < 10 ^ 7 ∧ 0 <= d < 10 ^ 7 ∧ ∃ c r, body = c :: r ∧ is_ascii_digit c = true.
Proof.
  intros Hf.
  assert (∀ ys y rest, number 4 7 ys y → ∃ c r, ys ++ rest = c :: r ∧ is_ascii_digit c = true) as Hh.
  { intros [|c ys] y' rest (Hd & Hl & _); cbn in Hl; [lia|]. cbn [forallb] in Hd. apply andb_prop in Hd as [Hc _]. by exists c, (ys ++ rest). }
  destruct Hf as [ys y Hy|ys y ms m Hy Hm|ys y ms m ds d tail Hy Hm Hd Ht]; (split; [eapply number_range; [done|lia]|]).
  - split; [lia|]. split; [lia|]. rewrite <- (app_nil_r ys). by eapply Hh.
  - split; [eapply number_range; [done|lia]|]. split; [lia|]. by eapply Hh.
  - split; [eapply number_range; [done|lia]|]. split; [eapply number_range; [done|lia]|]. by eapply Hh.
Qed.

Lemma trim_with_sub (cut : bytes → bytes → option bytes) fuel s :
  (∀ ws s s', cut ws s = Some s' → (length s' <= length s)%nat ∧ (bytes_ok s → bytes_ok s')) →
  (length (trim_with fuel cut s) <= length s)%nat ∧ (bytes_ok s → bytes_ok (trim_with fuel cut s)).
Proof.
  intros Hcut. revert s. induction fuel as [|fuel IH]; intros s; cbn [trim_with]; [done|].
  destruct (skip_space cut s) as [s'|] eqn:Hs; [|done].
  assert ((length s' <= length s)%nat ∧ (bytes_ok s → bytes_ok s')) as [Hl Hb].
  { unfold skip_space in Hs. clear IH. induction whitespaces as [|ws wss IHw]; [done|]. cbn [foldr] in Hs.
    destruct (cut ws s) as [s1|] eqn:Hc; [injection Hs as <-; by eapply Hcut|by apply IHw]. }
  destruct (IH s') as [Hl' Hb']. split; [lia|auto].
Qed.

Lemma trim_sub s : (length (trim s) <= length s)%nat ∧ (bytes_ok s → bytes_ok (trim s)).
Proof.
  unfold trim. destruct (trim_with_sub cut_start (length s) s) as [Hl1 Hb1].
  { intros ws s0 s' H. unfold cut_start in H. case_decide; [|done]. injection H as <-. split; [rewrite length_drop; lia|apply Forall_drop]. }
  set (s1 := trim_with (length s) cut_start s) in *. destruct (trim_with_sub cut_end (length s1) s1) as [Hl2 Hb2].
  { intros ws s0 s' H. unfold cut_end in H. case_decide; [|done]. injection H as <-. split; [rewrite length_take; lia|apply Forall_take]. }
  split; [lia|auto].
Qed.

(** C36: casting text to a date succeeds exactly on the format of Spark (an optional
    sign, a year of four to seven digits, one- or two-digit month and day that may be
    missing, a time part only after a day), with a year of at most 9999 and a day that
    the calendar has; the loop over segments terminates without indexing beyond them. *)
Theorem to_date_correct s n :
  bytes_ok s → Z.of_nat (length s) < 2 ^ 31 →
  to_date s = Some n ↔
  ∃ y m d days, signed_date (trim s) y m d ∧ m <= 12 ∧ d <= 31 ∧ from_ymd_opt y m d = Some days ∧ n = i32 (days - 719163).
Proof.
  intros Hby Hl. destruct (trim_sub s) as [Htl Htb]. specialize (Htb Hby). unfold to_date. destruct (trim s) as [|b rest] eqn:Ht.
  { split; [done|]. intros (y & m & d & days & (y0 & body & Hf & _ & Hs) & _). destruct (date_format_range _ _ _ _ Hf) as (_ & _ & _ & c & r & -> & _).
    by destruct Hs as [[? _]|[[? _]|[? _]]]. }
  set (signed := (b =? 45) || (b =? 43)). set (body := if signed then rest else b :: rest).
  assert (bytes_ok body ∧ Z.of_nat (length body) < 2 ^ 31) as [Hbb Hbl].
  { unfold body. cbn [length] in Htl. destruct signed; [apply Forall_cons in Htb as [_ Htb]; split; [done|lia]|split; [done|cbn [length]; lia]]. }
  assert (∀ y m d, signed_date (b :: rest) y m d ↔ ∃ y0, date_format body y0 m d ∧ y0 <= 9999 ∧ y = (if b =? 45 then -1 else 1) * y0) as Hsd.
  { intros y m d. unfold body, signed. split.
    - intros (y0 & bd & Hf & Hy & Hs). destruct (date_format_range _ _ _ _ Hf) as (_ & _ & _ & c & r & -> & Hc). exists y0.
      destruct Hs as [[[= -> ->] ->]|[[[= -> ->] ->]|[[= -> ->] ->]]]; [split_and!; [done|done|cbn; lia]..|].
      pose proof (digit_range c Hc). rewrite (proj2 (Z.eqb_neq c 45)), (proj2 (Z.eqb_neq c 43)) by lia. split_and!; [done|done|lia].
    - intros (y0 & Hf & Hy & ->). exists y0, (if (b =? 45) || (b =? 43) then rest else b :: rest). split; [done|]. split; [done|].
      destruct (Z.eqb_spec b 45) as [->|]; [left; split; [done|lia]|]. destruct (Z.eqb_spec b 43) as [->|]; [right; left; split; [done|cbn; lia]|].
      right; right. split; [done|cbn; lia]. }
  split.
  - destruct (date_segments body 0 [1; 1; 1] 0 0 ≫= date_end) as [l|] eqn:Hscan; [|done]. cbn [mbind option_bind].
    apply scan_format in Hscan as (y0 & m & d & -> & Hf); [|done..]. cbn [nth]. destruct (date_format_range _ _ _ _ Hf) as (Hy0 & Hm & Hd & _).
    destruct (Z.ltb_spec 9999 y0); [done|]. destruct (Z.ltb_spec 12 m); [done|]. destruct (Z.ltb_spec 31 d); [done|]. cbn [orb].
    unfold i32, u32. rewrite (wraps_id 32 (_ * y0)) by (try destruct (b =? 45); unfold in_s; lia). rewrite !wrapu_id by (unfold in_u; lia).
    destruct (from_ymd_opt _ m d) as [days|] eqn:Hdays; [|done]. intros [= <-]. eexists _, m, d, days. split; [apply Hsd; by exists y0|]. done.
  - intros (y & m & d & days & Hs & Hm12 & Hd31 & Hdays & ->). apply Hsd in Hs as (y0 & Hf & Hy & ->). destruct (date_format_range _ _ _ _ Hf) as (Hy0 & Hm & Hd & _).
    assert (date_segments body 0 [1; 1; 1] 0 0 ≫= date_end = Some [y0; m; d]) as -> by (apply scan_format; [done..|]; by exists y0, m, d).
    cbn [mbind option_bind nth]. rewrite (proj2 (Z.ltb_ge _ _)) by lia. rewrite !(proj2 (Z.ltb_ge _ _)) by lia. cbn [orb].
    unfold i32, u32. rewrite (wraps_id 32 (_ * y0)) by (try destruct (b =? 45); unfold in_s; lia). rewrite !wrapu_id by (unfold in_u; lia). by rewrite Hdays.
Qed.

End Date.

Module TextSample.

(** The days of the proleptic Gregorian calendar, for years from 1 on. *)
Definition leap (y : Z) : bool := (y mod 4 =? 0) && negb (y mod 100 =? 0) || (y mod 400 =? 0).
Definition month_days (y m : Z) : Z :=
  if m =? 2 then (if leap y then 29 else 28) else if bool_decide (m ∈ [4; 6; 9; 11]) then 30 else 31.
Definition ymd (y m d : Z) : option Z :=
  if bool_decide (1 <= m <= 12 ∧ 1 <= d <= month_days y m) then
    let y' := y - 1 in
    Some (365 * y' + y' / 4 - y' / 100 + y' / 400 + sumZ (month_days y) (Z.of_nat <$> seq 1 (Z.to_nat (m - 1))) + d)
  else None.

(** " 2024-2-29T1" *)
Definition leap_day : bytes := [32; 50; 48; 50; 52; 45; 50; 45; 50; 57; 84; 49].

Lemma to_integer_correct_witness : 8 <= 8 ∧ to_integer 8 [45; 49; 50; 56; 46; 53] = integer_of [45; 49; 50; 56; 46; 53] ≫= checked 8.
Proof. split; [lia|]. apply to_integer_correct. lia. Defined.

Lemma to_date_correct_witness :
  to_date ymd leap_day = Some 19782 ↔
  ∃ y m d days, signed_date (trim leap_day) y m d ∧ m <= 12 ∧ d <= 31 ∧ ymd y m d = Some days ∧ 19782 = i32 (days - 719163).
Proof.
  apply to_date_correct; [|done]. repeat (apply Forall_cons_2; [split; done|]). apply Forall_nil_2.
Defined.

(** "-128.5", "128", "+7", "." and "-" in 8 bits. *)
Example integers :
  to_integer 8 <$> [[45; 49; 50; 56; 46; 53]; [49; 50; 56]; [43; 55]; [46]; [45]] = [Some (-128); None; Some 7; Some 0; None].
Proof. by vm_compute. Qed.

(** The leap day; "2023-02-29", "1970" and "12345678-1-1". *)
Example dates :
  to_date ymd <$> [leap_day; [50; 48; 50; 51; 45; 48; 50; 45; 50; 57]; [49; 57; 55; 48]; [49; 50; 51; 52; 53; 54; 55; 56; 45; 49; 45; 49]] =
  [Some 19782; None; Some 0; None].
Proof. by vm_compute. Qed.

End TextSample.
