(* ===== verification/Cast.v ===== *)
(** * Casts of arrays

    native-engine/datafusion-ext-commons/src/arrow/cast.rs: [cast] to another type, by the
    nesting of the array.  Strings become integers and dates by [CastText], booleans, maps and
    structs become text, lists, structs and maps keep their offsets and validity over cast
    children, and the rest is left to arrow's kernel ([CastOps]).  Casts by the names of struct
    fields ([cast_scan_input_array]) are not modelled: types carry no names.

    [cast_rows]: the cast array has the type asked for, is well formed, and its rows are the
    values of the given rows under [cast_val]. *)

From S2P Require Import Prelude MachineInt Utf8 Chars Arrow ArrowRef HashArrays Columnar Floats CastText.

Set Default Proof Using "Type*".

Local Abbreviation bytes := (list Z).

(** ** What is left to arrow *)

Class CastOps := {
  (** [arrow::compute::kernels::cast::cast] *)
  kernel : Array → DataType → Result Array;
  (** [StringArray] and primitive arrays from iterators; their builders *)
  string_array : list (option bytes) → Array;
  prim_array : PrimitiveType → list (option Z) → Array;
  (** [BigDecimal::from_str] and [to_plain_string] *)
  plain_decimal : bytes → option bytes;
  (** [NaiveDate::from_ymd_opt] and [num_days_from_ce] *)
  from_ymd_opt : Z → Z → Z → option Z }.

Section Cast.
Context `{Ops : ArrowOps} `{Cast : CastOps}.

Definition signed_width (t : DataType) : option (PrimitiveType * Z) :=
  match t with
  | Primitive Int8 => Some (Int8, 8%Z)
  | Primitive Int16 => Some (Int16, 16%Z)
  | Primitive Int32 => Some (Int32, 32%Z)
  | Primitive Int64 => Some (Int64, 64%Z)
  | _ => None
  end.

(** [array.iter()] of a string array. *)
Definition string_iter (a : Array) : Result (list (option bytes)) :=
  match a with
  | BytesArray true nl o d => rmapM (λ i, if null_at nl i then Ok None else v ← bytes_value o d i; Ok (Some v)) (seq 0 (alen a))
  | _ => Panic
  end.

(** The bit pattern of a number. *)
Definition pattern (t : PrimitiveType) (v : Z) : Z := wrapu (8 * Z.of_nat (byte_width t)) v.

Definition try_cast_string_array_to_integer (a : Array) (t : PrimitiveType) (w : Z) : Result Array :=
  l ← string_iter a;
  Ok (prim_array t ((λ o : option bytes, s ← o; pattern t <$> to_integer w s) <$> l)).

Definition try_cast_string_array_to_date (a : Array) : Result Array :=
  l ← string_iter a;
  Ok (prim_array Date32 ((λ o : option bytes, s ← o; pattern Date32 <$> to_date from_ymd_opt s) <$> l)).

Definition to_plain (s : bytes) : bytes :=
  if existsb (λ b, (b =? 101)%Z || (b =? 69)%Z) s then default s (plain_decimal s) else s.

Definition to_plain_string_array (a : Array) : Result Array :=
  l ← string_iter a;
  Ok (string_array ((λ o : option bytes, to_plain <$> o) <$> l)).

Definition float_format (t : PrimitiveType) : option FloatFormat :=
  match t with Float32 => Some f32 | Float64 => Some f64 | _ => None end.

(** [arrow::compute::unary] with a cast by [as]. *)
Definition float_to_int (F : FloatFormat) (t : PrimitiveType) (w : Z) (nulls : option BitBuffer) (values : list Z) : Array :=
  PrimitiveArray t nulls ((λ v, pattern t (f_to_int w (f_of_bits F v))) <$> values).

(** [string_array.value(i)] of what a cast to strings returned. *)
Definition string_value (a : Array) (i : nat) : Result bytes :=
  match a with BytesArray true _ o d => bytes_value o d i | _ => Panic end.

(** One entry of a map, with the separator before it. *)
Definition push_entry (values keys_s values_s : Array) (start i : nat) (row_str : bytes) : Result bytes :=
  let row_str := if bool_decide (start < i) then row_str ++ str ", " else row_str in
  k ← string_value keys_s i;
  let row_str := row_str ++ k ++ str " ->" in
  if null_at (nulls_of values) i then Ok (row_str ++ str " null")
  else v ← string_value values_s i; Ok (row_str ++ str " " ++ v).

Definition map_to_string (nulls : option BitBuffer) (offsets : list Z) (n : nat) (values keys_s values_s : Array) : Result Array :=
  rows ← rmapM (λ row_idx,
    if null_at nulls row_idx then Ok None
    else
      start ← index offsets row_idx;
      stop ← index offsets (row_idx + 1);
      let start := Z.to_nat start in
      row_str ← rfoldM (λ row_str i, push_entry values keys_s values_s start i row_str) (str "{") (seq start (Z.to_nat stop - start));
      Ok (Some (row_str ++ str "}"))) (seq 0 n);
  Ok (string_array rows).

(** One column of a struct. *)
Definition push_field (row_idx : nat) (row_str : bytes) (x : nat * (Array * Array)) : Result bytes :=
  let '(col_idx, (column, column_s)) := x in
  let row_str := if bool_decide (col_idx = 0) then row_str else row_str ++ str "," in
  let sep := if bool_decide (col_idx = 0) then [] else str " " in
  if null_at (nulls_of column) row_idx then Ok (row_str ++ sep ++ str "null")
  else v ← string_value column_s row_idx; Ok (row_str ++ sep ++ v).

Definition struct_to_string (nulls : option BitBuffer) (n : nat) (columns columns_s : list Array) : Result Array :=
  rows ← rmapM (λ row_idx,
    if null_at nulls row_idx then Ok None
    else
      row_str ← rfoldM (push_field row_idx) (str "{") (enumerate (zip columns columns_s));
      Ok (Some (row_str ++ str "}"))) (seq 0 n);
  Ok (string_array rows).

(** The columns of a struct, to the types of fields and to strings. *)
Definition cast_columns (cast : Array → DataType → Result Array) : list Array → list (bool * DataType) → Result (list Array) :=
  fix go cs ts := match cs, ts with
  | c :: cs, (_, d) :: ts => x ← cast c d; xs ← go cs ts; Ok (x :: xs)
  | _, _ => Ok []
  end.

Definition cast_strings (cast : Array → DataType → Result Array) : list Array → Result (list Array) :=
  fix go cs := match cs with
  | c :: cs => x ← cast c Utf8; xs ← go cs; Ok (x :: xs)
  | [] => Ok []
  end.

(** The recursion is on the array; the entries of a map are a struct over its children. *)
Fixpoint cast_impl (a : Array) (t : DataType) {struct a} : Result Array :=
  let cast_struct fs nl n cs t :=
    if decide (Struct fs = t) then Ok (StructArray fs nl n cs)
    else match t with
    | Null => Ok (NullArray n)
    | Struct ts =>
        if decide (length ts = length cs) then
          cs' ← cast_columns cast_impl cs ts;
          try_new (StructArray ts nl n cs')
        else Err (Execution "cannot cast structs with different numbers of fields")
    | Utf8 => cs' ← cast_strings cast_impl cs; struct_to_string nl n cs cs'
    | _ => kernel (StructArray fs nl n cs) t
    end in
  if decide (data_type a = t) then Ok a
  else match t with
  | Null => Ok (NullArray (alen a))
  | _ =>
      match a with
      | BytesArray true nl o d =>
          match signed_width t, t with
          | Some (ti, w), _ => try_cast_string_array_to_integer a ti w
          | _, Primitive Date32 => try_cast_string_array_to_date a
          | _, Primitive (Decimal128 _ _) => a' ← to_plain_string_array a; kernel a' t
          | _, _ => kernel a t
          end
      | PrimitiveArray p nl vs =>
          match float_format p, signed_width t with
          | Some F, Some (ti, w) => Ok (float_to_int F ti w nl vs)
          | _, _ =>
              match p, t with
              | Timestamp _ _, Primitive Float64 => a' ← kernel a (Primitive Int64); kernel a' t
              | _, _ => kernel a t
              end
          end
      | BooleanArray nl v =>
          match t with
          | Utf8 => Ok (string_array ((λ i, if null_at nl i then None else Some (str (if bits_at v i then "true" else "false"))) <$> seq 0 (bb_len v)))
          | _ => kernel a t
          end
      | ListArray nb d nl o v =>
          match t with
          | List nb' d' => v' ← cast_impl v d'; try_new (ListArray nb' d' nl o v')
          | _ => kernel a t
          end
      | StructArray fs nl n cs => cast_struct fs nl n cs t
      | MapArray nb fs s nl o n cs =>
          match t with
          | Map nb' d' s' =>
              entries ← cast_struct fs None n cs d';
              match entries with
              | StructArray fs' None n' cs' => try_new (MapArray nb' fs' s' nl o n' cs')
              | _ => Err (Execution "entries of a map must be structs")
              end
          | Utf8 =>
              match cs with
              | [keys; values] =>
                  keys_s ← cast_impl keys Utf8;
                  values_s ← cast_impl values Utf8;
                  map_to_string nl o (alen a) values keys_s values_s
              | _ => Panic
              end
          | _ => kernel a t
          end
      | _ => kernel a t
      end
  end.

Definition cast (a : Array) (t : DataType) : Result Array := cast_impl a t.

End Cast.

(** ** The values of a cast *)

Definition join (sep : bytes) (l : list bytes) : bytes :=
  match l with [] => [] | x :: l => x ++ mjoin ((λ y, sep ++ y) <$> l) end.

(** The text of a struct and of a map; none for null. *)
Definition null_text (o : option bytes) : bytes := default (str "null") o.
Definition struct_text (fields : list (option bytes)) : bytes := str "{" ++ join (str ", ") (null_text <$> fields) ++ str "}".
Definition map_text (entries : list (bytes * option bytes)) : bytes :=
  str "{" ++ join (str ", ") ((λ e, e.1 ++ str " -> " ++ null_text e.2) <$> entries) ++ str "}".

Definition text_of (v : Val) : bytes := match v with VBytes s => s | _ => [] end.
(** The text of a value of type [d] whose cast to a string is [s].  Null is printed as null, but
    arrays of the null type have no validity bitmap: their nulls are printed as their text, which
    is empty ([null_fields_print_empty]). *)
Definition field_text (d : DataType) (v s : Val) : option bytes :=
  if is_vnull v && bool_decide (d ≠ Null) then None else Some (text_of s).

(** The offsets of a string array have 31 bits. *)
Definition text_len (v : Val) : Z := match v with VBytes s => Z.of_nat (length s) | _ => 0%Z end.
Definition fit (vs : list Val) : Prop := (sumZ text_len vs < 2 ^ 31)%Z.

(** What the kernel does, as arrow documents it: it casts value by value between the types it
    supports, null to null, and every value has a text; the strings of a new null array are empty;
    arrays are built from their rows. *)
Class CastLaws `{CastOps} := {
  castable : DataType → DataType → Prop;
  kernel_val : DataType → DataType → Val → Val;
  kernel_law a t : wf a → castable (data_type a) t → fit (kernel_val (data_type a) t <$> rows a) →
    ∃ b, kernel a t = Ok b ∧ wf b ∧ data_type b = t ∧ rows b = kernel_val (data_type a) t <$> rows a;
  kernel_null d t : kernel_val d t VNull = VNull;
  kernel_text d v : castable d Utf8 → v ≠ VNull → kernel_val d Utf8 v ≠ VNull;
  kernel_null_texts n b i : castable Null Utf8 → kernel (NullArray n) Utf8 = Ok b → i < n → string_value b i = Ok [];
  string_array_law l : Forall (λ o : option bytes, ∀ s, o = Some s → utf8_valid s ∧ bytes_ok s) l → fit (val_bytes <$> l) →
    wf (string_array l) ∧ data_type (string_array l) = Utf8 ∧ rows (string_array l) = val_bytes <$> l;
  prim_array_law t l : prim_valid t → Forall (λ o : option Z, ∀ z, o = Some z → in_u (8 * Z.of_nat (byte_width t)) z) l →
    wf (prim_array t l) ∧ data_type (prim_array t l) = Primitive t ∧ rows (prim_array t l) = val_prim <$> l;
  plain_law s p : plain_decimal s = Some p → utf8_valid p ∧ bytes_ok p }.

Section Values.
Context `{Ops : ArrowOps} `{Laws : CastLaws}.

(** The values of a row of fields, and their texts. *)
Definition zip_fields {A} (f : DataType → DataType → A → A) : list (bool * DataType) → list (bool * DataType) → list A → list A :=
  fix go fs ts vs {struct fs} := match fs, ts, vs with
  | (_, d) :: fs, (_, t) :: ts, v :: vs => f d t v :: go fs ts vs
  | _, _, _ => []
  end.

Definition zip_texts (f : DataType → DataType → Val → Val) : list (bool * DataType) → list Val → list (option bytes) :=
  fix go fs vs {struct fs} := match fs, vs with
  | (_, d) :: fs, v :: vs => field_text d v (f d Utf8 v) :: go fs vs
  | _, _ => []
  end.

Definition cast_text (t : DataType) (s : bytes) : Val :=
  match signed_width t with
  | Some (ti, w) => val_prim (pattern ti <$> to_integer w s)
  | None =>
      match t with
      | Primitive Date32 => val_prim (pattern Date32 <$> to_date from_ymd_opt s)
      | Primitive (Decimal128 _ _) => kernel_val Utf8 t (VBytes (to_plain s))
      | _ => kernel_val Utf8 t (VBytes s)
      end
  end.

Definition cast_number (p : PrimitiveType) (t : DataType) (b : Z) : Val :=
  match float_format p, signed_width t with
  | Some F, Some (ti, w) => VPrim (pattern ti (f_to_int w (f_of_bits F b)))
  | _, _ =>
      match p, t with
      | Timestamp _ _, Primitive Float64 => kernel_val (Primitive Int64) t (kernel_val (Primitive p) (Primitive Int64) (VPrim b))
      | _, _ => kernel_val (Primitive p) t (VPrim b)
      end
  end.

Definition bool_text (b : bool) : bytes := str (if b then "true" else "false").

Fixpoint cast_val (d t : DataType) (v : Val) {struct d} : Val :=
  if decide (d = t) then v
  else if is_vnull v || bool_decide (t = Null) then VNull
  else match d with
  | Utf8 => cast_text t (text_of v)
  | Primitive p => match v with VPrim b => cast_number p t b | _ => VNull end
  | Boolean => match t, v with Utf8, VBool b => VBytes (bool_text b) | _, _ => kernel_val d t v end
  | List _ di =>
      match t with
      | List _ ti => match v with VList vs => VList (cast_val di ti <$> vs) | _ => VNull end
      | _ => kernel_val d t v
      end
  | Struct fs =>
      match t with
      | Struct ts => match v with VStruct vs => VStruct (zip_fields cast_val fs ts vs) | _ => VNull end
      | Utf8 => match v with VStruct vs => VBytes (struct_text (zip_texts cast_val fs vs)) | _ => VNull end
      | _ => kernel_val d t v
      end
  | Map _ (Struct fs) _ =>
      match t with
      | Map _ (Struct ts) _ => match v with VMap cols => VMap (zip_fields (λ d t c, cast_val d t <$> c) fs ts cols) | _ => VNull end
      | Utf8 =>
          match fs, v with
          | [(_, kd); (_, vd)], VMap [ks; vs] =>
              VBytes (map_text (zip_with (λ k v, (text_of (cast_val kd Utf8 k), field_text vd v (cast_val vd Utf8 v))) ks vs))
          | _, _ => VNull
          end
      | _ => kernel_val d t v
      end
  | _ => kernel_val d t v
  end.

(** The casts whose result is an array: what the kernel supports, and a child may become null
    only where the target allows it. *)
Definition field_ok (ok : Prop) (nb : bool) (d : DataType) (nb' : bool) (t : DataType) : Prop :=
  ok ∧ (nb' = true ∨ d = t ∧ nb = false).

Definition fields_ok (ok : DataType → DataType → Prop) : list (bool * DataType) → list (bool * DataType) → Prop :=
  fix go fs ts {struct fs} := match fs, ts with
  | [], [] => True
  | (nb, d) :: fs, (nb', t) :: ts => field_ok (ok d t) nb d nb' t ∧ go fs ts
  | _, _ => False
  end.

Definition texts_ok (ok : DataType → DataType → Prop) : list (bool * DataType) → Prop :=
  fix go fs {struct fs} := match fs with [] => True | (_, d) :: fs => ok d Utf8 ∧ go fs end.

Definition text_ok (t : DataType) : Prop :=
  match signed_width t with Some _ => True | None => if decide (t = Primitive Date32) then True else castable Utf8 t end.

Definition number_ok (p : PrimitiveType) (t : DataType) : Prop :=
  match float_format p, signed_width t with
  | Some _, Some _ => True
  | _, _ =>
      match p, t with
      | Timestamp _ _, Primitive Float64 => castable (Primitive p) (Primitive Int64) ∧ castable (Primitive Int64) t
      | _, _ => castable (Primitive p) t
      end
  end.

Fixpoint cast_ok (d t : DataType) {struct d} : Prop :=
  d = t ∨ t = Null ∨
  match d with
  | Utf8 => text_ok t
  | Primitive p => number_ok p t
  | Boolean => t = Utf8 ∨ castable Boolean t
  | List nb di => match t with List nb' ti => field_ok (cast_ok di ti) nb di nb' ti | _ => castable d t end
  | Struct fs => match t with Struct ts => fields_ok cast_ok fs ts | Utf8 => texts_ok cast_ok fs | _ => castable d t end
  | Map _ (Struct fs) _ =>
      match t with
      | Map _ t' _ => match t' with Struct ts => fields_ok cast_ok fs ts | _ => False end
      | Utf8 => (∃ k, head fs = Some (false, k)) ∧ texts_ok cast_ok fs
      | _ => castable d t
      end
  | _ => castable d t
  end.

(** The texts that a cast builds are not too long for a string array. *)
Definition columns_fit (fits : Array → DataType → Prop) : list Array → list (bool * DataType) → Prop :=
  fix go cs ts := match cs, ts with c :: cs, (_, t) :: ts => fits c t ∧ go cs ts | _, _ => True end.

Definition texts_fit (fits : Array → DataType → Prop) : list Array → Prop :=
  fix go cs := match cs with c :: cs => fits c Utf8 ∧ go cs | [] => True end.

Fixpoint cast_fits (a : Array) (t : DataType) {struct a} : Prop :=
  fit (cast_val (data_type a) t <$> rows a) ∧
  match a with
  | BytesArray _ _ _ _ => fit ((λ v, val_bytes (to_plain <$> bytes_of v)) <$> rows a)
  | PrimitiveArray p _ _ => fit (kernel_val (Primitive p) (Primitive Int64) <$> rows a)
  | ListArray _ _ _ _ v => match t with List _ ti => cast_fits v ti | _ => True end
  | StructArray _ _ _ cs => match t with Struct ts => columns_fit cast_fits cs ts | Utf8 => texts_fit cast_fits cs | _ => True end
  | MapArray _ _ _ _ _ _ cs =>
      match t with Map _ (Struct ts) _ => columns_fit cast_fits cs ts | Utf8 => texts_fit cast_fits cs | _ => True end
  | _ => True
  end.

Lemma cast_fits_rows a t : cast_fits a t → fit (cast_val (data_type a) t <$> rows a).
Proof. by destruct a; intros [? _]. Qed.

(** ** Values *)

Lemma cast_val_id d v : cast_val d d v = v.
Proof. by destruct d; cbn [cast_val]; rewrite decide_True. Qed.

Lemma cast_val_null d t : cast_val d t VNull = VNull.
Proof. by destruct d; cbn [cast_val]; case_decide. Qed.

Lemma cast_val_to_null d v : d ≠ Null → cast_val d Null v = VNull.
Proof. intros Hd. destruct d; cbn [cast_val]; rewrite decide_False by done; by rewrite bool_decide_eq_true_2, orb_true_r. Qed.

Lemma mask_fmap (f : Val → Val) nl n g : f VNull = VNull → f <$> mask nl n g = mask nl n (λ i, f (g i)).
Proof.
  intros Hf. unfold mask. rewrite <- list_fmap_compose. apply list_fmap_ext. intros k i _. cbn. by destruct (null_at nl i).
Qed.

Lemma sub_fmap {A B} (f : A → B) l a b : f <$> sub l a b = sub (f <$> l) a b.
Proof. unfold sub. by rewrite fmap_take, fmap_drop. Qed.

Lemma nth_fmap_null (f : Val → Val) l i : f VNull = VNull → nth i (f <$> l) VNull = f (nth i l VNull).
Proof. intros Hf. rewrite !nth_lookup, list_lookup_fmap. by destruct (l !! i). Qed.

Lemma fmap_const {A B} (f : A → B) (y : B) l : (∀ x, x ∈ l → f x = y) → f <$> l = replicate (length l) y.
Proof.
  induction l as [|x l IH]; intros Hf; [done|]. cbn. rewrite Hf by by left. f_equal. apply IH. intros z Hz. apply Hf. by right.
Qed.

(** Off the null arrays, the validity bitmap tells which rows are null. *)
Lemma null_at_rows a i :
  data_type a ≠ Null → i < alen a → null_at (nulls_of a) i = is_vnull (nth i (rows a) VNull).
Proof.
  intros Ht Hi. destruct a; cbn [data_type nulls_of alen rows] in *; try done;
    try (rewrite nth_mask by done; by destruct (null_at _ i)).
  rewrite nth_lookup, lookup_replicate_2 by done. done.
Qed.

Lemma string_value_ok b i s :
  wf b → data_type b = Utf8 → nth i (rows b) VNull = VBytes s → string_value b i = Ok s ∧ utf8_valid s ∧ bytes_ok s.
Proof.
  intros Hw Ht Hs. destruct b as [| | |u nl o d| | | |]; try discriminate. destruct u; [|discriminate]. cbn [string_value].
  assert (i < length o - 1) as Hi.
  { destruct (decide (i < length o - 1)); [done|]. rewrite nth_overflow in Hs; [done|]. rewrite length_rows_array. cbn [alen]. lia. }
  destruct (bytes_value_ok true nl o d i Hw Hi) as [-> Hb]. cbn [rows] in Hs. rewrite nth_mask in Hs by done.
  destruct (null_at nl i); [done|]. injection Hs as <-. split; [done|]. split; [|done]. destruct Hw as (_ & _ & _ & Hu). by apply Hu.
Qed.

(** ** The cases of a cast *)

Definition cast_spec (a : Array) : Prop := ∀ t,
  wf a → cast_ok (data_type a) t → cast_fits a t →
  ∃ b, cast_impl a t = Ok b ∧ wf b ∧ data_type b = t ∧ rows b = cast_val (data_type a) t <$> rows a.

Lemma cast_impl_same a : cast_impl a (data_type a) = Ok a.
Proof. destruct a; cbn [cast_impl]; by rewrite decide_True. Qed.

Lemma rows_same a : rows a = cast_val (data_type a) (data_type a) <$> rows a.
Proof. rewrite <- (list_fmap_id (rows a)) at 1. apply list_fmap_ext. intros. by rewrite cast_val_id. Qed.

Lemma rows_to_null a : data_type a ≠ Null → rows (NullArray (alen a)) = cast_val (data_type a) Null <$> rows a.
Proof. intros Ht. rewrite (fmap_const _ VNull); [cbn [rows]; by rewrite length_rows_array|]. intros. by apply cast_val_to_null. Qed.

(** A cast left to the kernel. *)
Lemma kernel_case a t :
  cast_impl a t = kernel a t → wf a → castable (data_type a) t → (∀ v, v ∈ rows a → cast_val (data_type a) t v = kernel_val (data_type a) t v) →
  cast_fits a t →
  ∃ b, cast_impl a t = Ok b ∧ wf b ∧ data_type b = t ∧ rows b = cast_val (data_type a) t <$> rows a.
Proof.
  intros -> Hw Hc Hv Hfit%cast_fits_rows.
  assert (cast_val (data_type a) t <$> rows a = kernel_val (data_type a) t <$> rows a) as Heq.
  { apply list_fmap_ext. intros k v Hk. apply Hv. by eapply list_elem_of_lookup_2. }
  rewrite Heq in Hfit |- *. exact (kernel_law a t Hw Hc Hfit).
Qed.

(** What remains of a claim once the target is another type, and not the null type. *)
Lemma cast_spec_intro a :
  data_type a ≠ Null →
  (∀ t, data_type a ≠ t → t ≠ Null → wf a → cast_ok (data_type a) t → cast_fits a t →
    ∃ b, cast_impl a t = Ok b ∧ wf b ∧ data_type b = t ∧ rows b = cast_val (data_type a) t <$> rows a) → cast_spec a.
Proof.
  intros Hn Hspec t Hw Hok Hfit. destruct (decide (data_type a = t)) as [<-|Hd].
  { exists a. split; [apply cast_impl_same|]. split; [done|]. split; [done|]. apply rows_same. }
  destruct (decide (t = Null)) as [->|Ht]; [|by apply Hspec].
  exists (NullArray (alen a)). split; [|split; [done|split; [done|by apply rows_to_null]]]. destruct a; cbn [cast_impl]; by rewrite decide_False.
Qed.

(** Unfolds [cast_val] on a value that is not null, with other types. *)
Ltac cast_val_step Hd Ht :=
  cbn [data_type cast_val] in *; rewrite (decide_False (P:=_ = _) _ _ Hd), (bool_decide_eq_false_2 _ Ht); cbn [is_vnull orb].

Lemma string_iter_ok nl o d :
  wf (BytesArray true nl o d) → string_iter (BytesArray true nl o d) = Ok (bytes_of <$> rows (BytesArray true nl o d)).
Proof.
  intros Hw. cbn [string_iter rows]. unfold mask. rewrite <- list_fmap_compose. apply rmapM_Ok, Forall2_fmap_r, Forall_Forall2_diag, Forall_forall.
  intros i Hi. apply elem_of_seq in Hi. cbn [compose]. destruct (null_at nl i); [done|].
  destruct (bytes_value_ok true nl o d i Hw) as [-> _]; [lia|done].
Qed.

Lemma elem_of_mask nl n f v : v ∈ mask nl n f → v = VNull ∨ ∃ i, i < n ∧ null_at nl i = false ∧ v = f i.
Proof.
  unfold mask. intros (i & -> & Hi)%list_elem_of_fmap. apply elem_of_seq in Hi. destruct (null_at nl i) eqn:Hn; [by left|].
  right. exists i. split; [lia|done].
Qed.

Lemma utf8_rows nl o d v :
  wf (BytesArray true nl o d) → v ∈ rows (BytesArray true nl o d) → v = VNull ∨ ∃ s, v = VBytes s ∧ utf8_valid s ∧ bytes_ok s.
Proof.
  intros Hw [->|(i & Hi & _ & ->)]%elem_of_mask; [by left|right]. eexists. split; [done|].
  destruct (bytes_value_ok true nl o d i Hw Hi) as [_ Hb]. destruct Hw as (_ & _ & _ & Hu). auto.
Qed.

Lemma in_u_pattern t v : in_u (8 * Z.of_nat (byte_width t)) (pattern t v).
Proof. apply wrapu_bound. lia. Qed.

Lemma signed_width_valid t ti w : signed_width t = Some (ti, w) → t = Primitive ti ∧ prim_valid ti.
Proof. destruct t as [| |[]| | | | | |]; intros; try discriminate; by simplify_eq/=. Qed.

(** An array of parsed strings. *)
Lemma parsed_case a l ti (f : bytes → option Z) :
  (∀ v, v ∈ rows a → v = VNull ∨ ∃ s, v = VBytes s) → l = bytes_of <$> rows a → prim_valid ti →
  let b := prim_array ti ((λ o : option bytes, s ← o; pattern ti <$> f s) <$> l) in
  wf b ∧ data_type b = Primitive ti ∧ rows b = (λ v, match v with VBytes s => val_prim (pattern ti <$> f s) | _ => VNull end) <$> rows a.
Proof.
  intros Hv -> Hti. destruct (prim_array_law ti ((λ o : option bytes, s ← o; pattern ti <$> f s) <$> (bytes_of <$> rows a))) as (Hw & Ht & Hr); [done| |].
  { apply Forall_fmap, Forall_fmap, Forall_forall. intros v _ z Hz. cbn in Hz. destruct (bytes_of v) as [s|]; [|done]. cbn in Hz.
    destruct (f s); [|done]. injection Hz as <-. apply in_u_pattern. }
  split; [done|]. split; [done|]. rewrite Hr, <- !list_fmap_compose. apply list_fmap_ext. intros k v Hk%list_elem_of_lookup_2. by destruct (Hv v Hk) as [->|[s ->]].
Qed.

Lemma bytes_cast u nl o d : cast_spec (BytesArray u nl o d).
Proof.
  apply cast_spec_intro; [by destruct u|]. intros t Hd Ht Hw Hok Hfit. destruct u; cbn [data_type] in *.
  2: { apply kernel_case; [|done| | |].
    - cbn [cast_impl data_type]. rewrite decide_False by done. by destruct t.
    - by destruct Hok as [|[|]].
    - intros v [->|(i & _ & _ & ->)]%elem_of_mask; [by rewrite cast_val_null, kernel_null|]. by cast_val_step Hd Ht.
    - done. }
  assert (∀ v, v ∈ rows (BytesArray true nl o d) → v = VNull ∨ ∃ s, v = VBytes s) as Hrows.
  { intros v Hv. destruct (utf8_rows nl o d v Hw Hv) as [->|(s & -> & _)]; eauto. }
  assert (∀ g : Val → Val, g VNull = VNull → (∀ s, g (VBytes s) = cast_text t s) →
    g <$> rows (BytesArray true nl o d) = cast_val Utf8 t <$> rows (BytesArray true nl o d)) as Hfin.
  { intros g Hg0 Hg. apply list_fmap_ext. intros k v Hk%list_elem_of_lookup_2. destruct (Hrows v Hk) as [->|[s ->]].
    - by rewrite cast_val_null.
    - rewrite Hg. by cast_val_step Hd Ht. }
  destruct Hok as [|[|Hok]]; [done..|].
  assert (cast_impl (BytesArray true nl o d) t = match signed_width t, t with
    | Some (ti, w), _ => try_cast_string_array_to_integer (BytesArray true nl o d) ti w
    | _, Primitive Date32 => try_cast_string_array_to_date (BytesArray true nl o d)
    | _, Primitive (Decimal128 _ _) => a' ← to_plain_string_array (BytesArray true nl o d); kernel a' t
    | _, _ => kernel (BytesArray true nl o d) t end) as Himpl.
  { cbn [cast_impl data_type]. rewrite decide_False by done. by destruct t. }
  unfold text_ok in Hok. rewrite Himpl. destruct (signed_width t) as [[ti w]|] eqn:Hsw.
  { destruct (signed_width_valid t ti w Hsw) as [-> Hti]. unfold try_cast_string_array_to_integer. rewrite string_iter_ok by done. cbn [mbind Result_bind].
    destruct (parsed_case (BytesArray true nl o d) _ ti (to_integer w) Hrows eq_refl Hti) as (Hwb & Htb & Hrb). eexists. split; [done|]. split; [done|].
    split; [done|]. rewrite Hrb. apply Hfin; [done|]. intros s. unfold cast_text. by rewrite Hsw. }
  case_decide as Hdate.
  { subst t. unfold try_cast_string_array_to_date. rewrite string_iter_ok by done. cbn [mbind Result_bind].
    destruct (parsed_case (BytesArray true nl o d) _ Date32 (to_date from_ymd_opt) Hrows eq_refl I) as (Hwb & Htb & Hrb). eexists. split; [done|].
    split; [done|]. split; [done|]. rewrite Hrb. by apply Hfin. }
  assert ((∀ s, kernel_val Utf8 t (VBytes s) = cast_text t s) → ∃ b0, kernel (BytesArray true nl o d) t = Ok b0 ∧ wf b0 ∧ data_type b0 = t ∧
    rows b0 = cast_val Utf8 t <$> rows (BytesArray true nl o d)) as Hk.
  { intros Hs. rewrite <- (Hfin (kernel_val Utf8 t)) by (apply kernel_null || done). apply (kernel_law (BytesArray true nl o d) t Hw Hok).
    cbn [data_type]. rewrite (Hfin (kernel_val Utf8 t)) by (apply kernel_null || done). by apply (cast_fits_rows (BytesArray true nl o d)). }
  destruct t as [| |[]| | | | | |]; try done; try (apply Hk; intros s; unfold cast_text; by rewrite Hsw).
  unfold to_plain_string_array. rewrite string_iter_ok by done. cbn [mbind Result_bind].
  set (l := (λ o0 : option bytes, to_plain <$> o0) <$> (bytes_of <$> rows (BytesArray true nl o d))).
  destruct Hfit as [Hfit Hplain].
  assert (val_bytes <$> l = (λ v, val_bytes (to_plain <$> bytes_of v)) <$> rows (BytesArray true nl o d)) as Hl.
  { unfold l. by rewrite <- !list_fmap_compose. }
  destruct (string_array_law l) as (Hws & Hts & Hrs); [|by rewrite Hl|].
  { unfold l. apply Forall_fmap, Forall_fmap, Forall_forall. intros v Hv s Hs. cbn in Hs.
    destruct (utf8_rows nl o d v Hw Hv) as [->|(s0 & -> & Hu & Hb0)]; [done|]. injection Hs as <-. unfold to_plain.
    destruct (existsb _ s0); [|done]. destruct (plain_decimal s0) as [p|] eqn:Hp; [|done]. by apply (plain_law s0). }
  assert (kernel_val Utf8 (Primitive (Decimal128 precision scale)) <$> rows (string_array l) =
    cast_val Utf8 (Primitive (Decimal128 precision scale)) <$> rows (BytesArray true nl o d)) as Hdec.
  { rewrite Hrs, Hl, <- list_fmap_compose. apply Hfin; [apply kernel_null|]. intros s. unfold cast_text. by rewrite Hsw. }
  rewrite <- Hdec, <- Hts. apply (kernel_law (string_array l) (Primitive (Decimal128 precision scale)) Hws); [by rewrite Hts|].
  rewrite Hts, Hdec. exact Hfit.
Qed.

Lemma prim_cast p nl vs : cast_spec (PrimitiveArray p nl vs).
Proof.
  apply cast_spec_intro; [done|]. intros t Hd Ht Hw Hok Hfit. cbn [data_type] in *. destruct Hok as [|[|Hok]]; [done..|].
  assert (∀ v, v ∈ rows (PrimitiveArray p nl vs) → v = VNull ∨ ∃ z, v = VPrim z) as Hrows.
  { intros v [->|(i & _ & _ & ->)]%elem_of_mask; eauto. }
  assert (∀ g : Val → Val, g VNull = VNull → (∀ z, g (VPrim z) = cast_number p t z) →
    g <$> rows (PrimitiveArray p nl vs) = cast_val (Primitive p) t <$> rows (PrimitiveArray p nl vs)) as Hfin.
  { intros g Hg0 Hg. apply list_fmap_ext. intros k v Hk%list_elem_of_lookup_2. destruct (Hrows v Hk) as [->|[z ->]].
    - by rewrite cast_val_null.
    - rewrite Hg. by cast_val_step Hd Ht. }
  assert (cast_impl (PrimitiveArray p nl vs) t = match float_format p, signed_width t with
    | Some F, Some (ti, w) => Ok (float_to_int F ti w nl vs)
    | _, _ => match p, t with
      | Timestamp _ _, Primitive Float64 => a' ← kernel (PrimitiveArray p nl vs) (Primitive Int64); kernel a' t
      | _, _ => kernel (PrimitiveArray p nl vs) t end end) as Himpl.
  { cbn [cast_impl data_type]. rewrite decide_False by done. by destruct t. }
  rewrite Himpl. unfold number_ok in Hok.
  assert (castable (Primitive p) t → (∀ z, kernel_val (Primitive p) t (VPrim z) = cast_number p t z) →
    ∃ b, kernel (PrimitiveArray p nl vs) t = Ok b ∧ wf b ∧ data_type b = t ∧ rows b = cast_val (Primitive p) t <$> rows (PrimitiveArray p nl vs)) as Hk.
  { intros Hc Hz. rewrite <- (Hfin (kernel_val (Primitive p) t)) by (apply kernel_null || done). apply (kernel_law (PrimitiveArray p nl vs) t Hw Hc).
    cbn [data_type]. rewrite (Hfin (kernel_val (Primitive p) t)) by (apply kernel_null || done). by apply (cast_fits_rows (PrimitiveArray p nl vs)). }
  destruct (float_format p) as [F|] eqn:HF, (signed_width t) as [[ti w]|] eqn:Hsw.
  - destruct (signed_width_valid t ti w Hsw) as [-> Hti]. unfold float_to_int. eexists. split; [done|]. destruct Hw as (Hnl & _ & _).
    split; [cbn [wf]; rewrite length_fmap; split; [done|]; split; [done|]; apply Forall_fmap, Forall_true; intros; apply in_u_pattern|].
    split; [done|]. rewrite <- (Hfin (λ v, match v with VPrim z => cast_number p (Primitive ti) z | _ => VNull end)) by done.
    cbn [rows]. rewrite length_fmap, mask_fmap by done. apply mask_ext; [done|]. intros i Hi. unfold cast_number. rewrite HF, Hsw.
    destruct (lookup_lt_is_Some_2 vs i Hi) as [z Hz]. rewrite !nth_lookup, list_lookup_fmap, Hz. done.
  - destruct p; try discriminate; (apply Hk; [exact Hok|]); intros z; unfold cast_number; by rewrite HF, Hsw.
  - destruct (signed_width_valid t ti w Hsw) as [-> Hti].
    destruct p; try discriminate; try (apply Hk; [exact Hok|]; intros z; unfold cast_number; by rewrite HF).
    destruct ti; try discriminate; (apply Hk; [exact Hok|]; intros z; unfold cast_number; by rewrite HF).
  - destruct p; try discriminate; try (apply Hk; [exact Hok|]; intros z; unfold cast_number; by rewrite HF).
    destruct t as [| |[]| | | | | |]; try discriminate; try (apply Hk; [exact Hok|]; intros z; unfold cast_number; by rewrite HF).
    destruct Hok as [Hc1 Hc2], Hfit as [Hfit Hfit1]. destruct (kernel_law _ _ Hw Hc1 Hfit1) as (a1 & -> & Hw1 & Ht1 & Hr1). cbn [mbind Result_bind data_type] in *.
    rewrite <- (Hfin (kernel_val (Primitive Int64) (Primitive Float64) ∘ kernel_val (Primitive (Timestamp unit tz)) (Primitive Int64))) in Hfit |- *
      by (cbn [compose]; rewrite ?kernel_null; done).
    rewrite list_fmap_compose in Hfit |- *. cbn [data_type] in Hr1. rewrite <- Hr1 in Hfit |- *.
    pose proof (kernel_law a1 (Primitive Float64) Hw1) as Hk2. rewrite Ht1 in Hk2. by apply Hk2.
Qed.

Lemma bool_cast nl bv : cast_spec (BooleanArray nl bv).
Proof.
  apply cast_spec_intro; [done|]. intros t Hd Ht Hw Hok Hfit. cbn [data_type] in *. destruct Hok as [|[|Hok]]; [done..|].
  destruct (decide (t = Utf8)) as [->|Hu].
  - cbn [cast_impl data_type]. rewrite decide_False by done.
    set (l := (λ i, if null_at nl i then None else Some (str (if bits_at bv i then "true" else "false"))) <$> seq 0 (bb_len bv)).
    assert (val_bytes <$> l = cast_val Boolean Utf8 <$> rows (BooleanArray nl bv)) as Hl.
    { unfold l. cbn [rows]. unfold mask. rewrite <- !list_fmap_compose. apply list_fmap_ext. intros k i _. cbn [compose].
      destruct (null_at nl i); [by rewrite cast_val_null|]. by destruct (bits_at bv i). }
    destruct (string_array_law l) as (Hws & Hts & Hrs).
    { unfold l. apply Forall_fmap, Forall_true. intros i s Hs. cbn in Hs. destruct (null_at nl i); [done|]. injection Hs as <-.
      destruct (bits_at bv i); (split; [done|]); repeat (apply Forall_cons_2; [split; done|]); apply Forall_nil_2. }
    { rewrite Hl. by apply (cast_fits_rows (BooleanArray nl bv)). }
    exists (string_array l). split; [done|]. split; [done|]. split; [done|]. by rewrite Hrs.
  - destruct Hok as [|Hok]; [done|]. apply kernel_case; [|done|done| |done].
    + cbn [cast_impl data_type]. rewrite decide_False by done. by destruct t.
    + intros v [->|(i & _ & _ & ->)]%elem_of_mask; [by rewrite cast_val_null, kernel_null|]. cast_val_step Hd Ht. by destruct t.
Qed.

Lemma cast_alen a t b : rows b = cast_val (data_type a) t <$> rows a → alen b = alen a.
Proof. intros Hr. by rewrite <- !length_rows_array, Hr, length_fmap. Qed.

(** A child of a nested array: where the target allows no null the child is as it was. *)
Lemma child_cast c nb' t nb :
  cast_spec c → wf c → field_ok (cast_ok (data_type c) t) nb (data_type c) nb' t → cast_fits c t →
  ∃ c', cast_impl c t = Ok c' ∧ wf c' ∧ data_type c' = t ∧ rows c' = cast_val (data_type c) t <$> rows c ∧ (nb' = false → c' = c ∧ nb = false).
Proof.
  intros Hc Hw [Hok Hn] Hfit. destruct (Hc t Hw Hok Hfit) as (c' & Hi & Hw' & Ht & Hr). exists c'. split_and!; [done..|]. intros ->.
  destruct Hn as [|[<- ->]]; [done|]. rewrite cast_impl_same in Hi. injection Hi as <-. done.
Qed.

Lemma list_cast nb d nl o v : cast_spec v → cast_spec (ListArray nb d nl o v).
Proof.
  intros IH. apply cast_spec_intro; [done|]. intros t Hd Ht Hw Hok Hfit. destruct Hok as [|[|Hok]]; [done..|].
  assert (∀ x, x ∈ rows (ListArray nb d nl o v) → x = VNull ∨ ∃ vs, x = VList vs) as Hrows.
  { intros x [->|(i & _ & _ & ->)]%elem_of_mask; eauto. }
  destruct t as [| | | | |nb' ti|? ? ?|ts|?];
    try (apply kernel_case; [cbn [cast_impl data_type]; by rewrite decide_False by done|done|done|
      intros x Hx; destruct (Hrows x Hx) as [->|[vs ->]]; [by rewrite cast_val_null, kernel_null|by cast_val_step Hd Ht]|done]).
  destruct Hw as (Hnl & Ho & <- & Hv & Hnn). cbn [cast_impl]. rewrite decide_False by done.
  destruct Hfit as [_ Hfit]. destruct (child_cast v nb' ti nb IH Hv Hok Hfit) as (v' & -> & Hv' & Ht' & Hr' & Hsame). cbn [mbind Result_bind].
  assert (wf (ListArray nb' ti nl o v')) as Hw'.
  { split; [done|]. split; [by rewrite (cast_alen _ _ _ Hr')|]. split; [done|]. split; [done|]. intros Hnb i Hi. destruct (Hsame Hnb) as [-> Hnb0]. by apply Hnn. }
  rewrite try_new_law by done. eexists. split; [done|]. split; [done|]. split; [done|]. cbn [rows]. rewrite mask_fmap by apply cast_val_null.
  apply mask_ext; [done|]. intros i Hi. cast_val_step Hd Ht. by rewrite sub_fmap, Hr'.
Qed.

Definition col_rows (cs : list Array) : list (list Val) := rows <$> cs.

Lemma columns_cast pn n fs cs ts :
  Forall cast_spec cs → cols_wf wf pn n fs cs → fields_ok cast_ok fs ts → columns_fit cast_fits cs ts →
  ∃ cs', cast_columns cast_impl cs ts = Ok cs' ∧ cols_wf wf pn n ts cs' ∧ length ts = length cs ∧
    col_rows cs' = zip_fields (λ d t (r : list Val), cast_val d t <$> r) fs ts (col_rows cs).
Proof.
  intros Hcs. revert fs ts. induction Hcs as [|c cs Hc Hcs IH]; intros [|[nb d] fs] ts Hw Hok Hfit; try done.
  - destruct ts; [|done]. by exists [].
  - destruct ts as [|[nb' t] ts]; [done|]. destruct Hw as [(<- & Hn & Hwc & Hnn) Hw]. destruct Hok as [Hf Hok], Hfit as [Hft Hfit].
    destruct (child_cast c nb' t nb Hc Hwc Hf Hft) as (c' & Hi & Hw' & Ht' & Hr' & Hsame).
    destruct (IH fs ts Hw Hok Hfit) as (cs' & Hcs' & Hwcs & Hlen & Hrows). exists (c' :: cs').
    split.
    { change (cast_columns cast_impl (c :: cs) ((nb', t) :: ts)) with (x ← cast_impl c t; xs ← cast_columns cast_impl cs ts; Ok (x :: xs)).
      rewrite Hi. cbn [mbind Result_bind]. by rewrite Hcs'. }
    split; [|split; [cbn [length]; by f_equal|]].
    + split; [|done]. split; [done|]. split; [by rewrite (cast_alen _ _ _ Hr')|]. split; [done|]. intros Hnb i Hi'. destruct (Hsame Hnb) as [-> ->]. by apply Hnn.
    + change (col_rows (c' :: cs')) with (rows c' :: col_rows cs'). rewrite Hr', Hrows. done.
Qed.

Lemma zip_fields_fmap {A B} (f : DataType → DataType → A → A) (g : DataType → DataType → B → B) (h : A → B) fs ts vs :
  (∀ d t v, h (f d t v) = g d t (h v)) → h <$> zip_fields f fs ts vs = zip_fields g fs ts (h <$> vs).
Proof.
  intros Hh. revert ts vs. induction fs as [|[nb d] fs IH]; intros [|[nb' t] ts] [|v vs]; try done.
  change (zip_fields f ((nb, d) :: fs) ((nb', t) :: ts) (v :: vs)) with (f d t v :: zip_fields f fs ts vs).
  rewrite !fmap_cons. cbn [zip_fields]. by rewrite Hh, <- IH.
Qed.

Lemma struct_columns_cast fs nl n cs ts :
  Forall cast_spec cs → wf (StructArray fs nl n cs) → Struct fs ≠ Struct ts → fields_ok cast_ok fs ts → columns_fit cast_fits cs ts →
  ∃ cs', cast_columns cast_impl cs ts = Ok cs' ∧ length ts = length cs ∧ wf (StructArray ts nl n cs') ∧
    rows (StructArray ts nl n cs') = cast_val (Struct fs) (Struct ts) <$> rows (StructArray fs nl n cs) ∧
    col_rows cs' = zip_fields (λ d t (r : list Val), cast_val d t <$> r) fs ts (col_rows cs).
Proof.
  intros Hcs [Hnl Hw] Hd Hok Hfit. destruct (columns_cast _ n fs cs ts Hcs Hw Hok Hfit) as (cs' & Hcast & Hw' & Hlen & Hr).
  exists cs'. split; [done|]. split; [done|]. split; [done|]. split; [|done]. cbn [rows]. rewrite mask_fmap by apply cast_val_null.
  apply mask_ext; [done|]. intros i Hi. cast_val_step Hd (λ H : Struct ts = Null, eq_ind (Struct ts) (λ d, match d with Struct _ => True | _ => False end) I Null H). f_equal.
  assert (∀ l : list Array, (λ c, nth i (rows c) VNull) <$> l = (λ r, nth i r VNull) <$> col_rows l) as Hnth.
  { intros l. unfold col_rows. by rewrite <- list_fmap_compose. }
  rewrite !Hnth, Hr.
  rewrite (zip_fields_fmap _ cast_val (λ r, nth i r VNull)); [done|]. intros. apply nth_fmap_null, cast_val_null.
Qed.

(** ** Texts *)

Definition valid_text (s : bytes) : Prop := utf8_valid s ∧ bytes_ok s.

Lemma valid_text_app s1 s2 : valid_text s1 → valid_text s2 → valid_text (s1 ++ s2).
Proof. intros [Hu1 Hb1] [Hu2 Hb2]. split; [by apply utf8_valid_app|by apply Forall_app]. Qed.

Lemma valid_text_const s : bool_decide (utf8_validb (length s) s = true ∧ Forall (λ b, 0 <= b < 256)%Z s) = true → valid_text s.
Proof. intros Hs%bool_decide_eq_true. exact Hs. Qed.

Ltac valid_const := apply valid_text_const; vm_compute; reflexivity.

Lemma valid_text_join sep l : valid_text sep → Forall valid_text l → valid_text (join sep l).
Proof.
  intros Hs Hl. destruct Hl as [|x l Hx Hl]; [valid_const|]. cbn [join]. apply valid_text_app; [done|].
  induction Hl as [|y l Hy Hl IH]; [valid_const|]. rewrite fmap_cons. cbn [mjoin list_join]. apply valid_text_app; [by apply valid_text_app|done].
Qed.

Lemma valid_null_text o : (∀ s, o = Some s → valid_text s) → valid_text (null_text o).
Proof. destruct o; intros Ho; [by apply Ho|]. valid_const. Qed.

(** A loop that appends an item for each element, with a separator before all but the first. *)
Lemma rfoldM_join {A} (f : bytes → A → Result bytes) (first : A → bool) (g : A → bytes) sep l acc :
  (∀ acc x, x ∈ l → f acc x = Ok (acc ++ (if first x then [] else sep) ++ g x)) →
  match l with [] => True | x :: l => first x = true ∧ ∀ y, y ∈ l → first y = false end →
  rfoldM f acc l = Ok (acc ++ join sep (g <$> l)).
Proof.
  intros Hf Hl. destruct l as [|x l]; [cbn; by rewrite app_nil_r|]. destruct Hl as [Hx Hl]. cbn [rfoldM]. rewrite Hf by by left.
  rewrite Hx. cbn [mbind Result_bind app]. rewrite fmap_cons. cbn [join]. rewrite app_assoc. generalize (acc ++ g x). clear acc.
  assert (∀ acc y, y ∈ l → f acc y = Ok (acc ++ sep ++ g y)) as Hf'.
  { intros acc y Hy. rewrite Hf by by right. by rewrite Hl. }
  clear Hf Hl Hx. induction l as [|y l IH]; intros acc; [cbn; by rewrite app_nil_r|]. cbn [rfoldM]. rewrite Hf' by by left. cbn [mbind Result_bind].
  rewrite IH by (intros; apply Hf'; by right). rewrite !fmap_cons. cbn [mjoin list_join]. by rewrite <- !app_assoc.
Qed.

Lemma cols_wf_len pn n fs cs : cols_wf wf pn n fs cs → length cs = length fs.
Proof.
  revert fs. induction cs as [|c cs IH]; intros [|[nb d] fs]; try done. intros [_ Hw]. cbn [length]. f_equal. by apply IH.
Qed.

(** The cast of a value with a text is its text. *)
Lemma cast_has_text c v :
  wf c → data_type c ≠ Null → cast_ok (data_type c) Utf8 → v ∈ rows c → v ≠ VNull → cast_val (data_type c) Utf8 v ≠ VNull.
Proof.
  intros Hw Hn Hok Hv Hv0. destruct (decide (data_type c = Utf8)) as [->|Hd]; [by rewrite cast_val_id|].
  assert (Utf8 ≠ Null) as Hu by done.
  destruct c as [n|nl b|p nl vs|[] nl o d|nb d nl o c|nb fs s nl o n cs|fs nl n cs|w n]; cbn [data_type rows] in *; try done; destruct Hok as [|[|Hok]]; try done.
  - apply elem_of_mask in Hv as [->|(i & _ & _ & ->)]; [done|]. by cast_val_step Hd Hu.
  - apply elem_of_mask in Hv as [->|(i & _ & _ & ->)]; [done|]. cast_val_step Hd Hu. unfold cast_number, number_ok in *. cbn [signed_width] in *.
    destruct (float_format p), p; by apply kernel_text.
  - apply elem_of_mask in Hv as [->|(i & _ & _ & ->)]; [done|]. cast_val_step Hd Hu. by apply kernel_text.
  - apply elem_of_mask in Hv as [->|(i & _ & _ & ->)]; [done|]. cast_val_step Hd Hu. by apply kernel_text.
  - apply elem_of_mask in Hv as [->|(i & _ & _ & ->)]; [done|]. destruct Hw as (_ & _ & Hl & Hcs). 
    apply cols_wf_len in Hcs. destruct fs as [|[kn kd] [|[vn vd] []]]; try done. by destruct cs as [|kc [|vc []]].
  - apply elem_of_mask in Hv as [->|(i & _ & _ & ->)]; [done|]. by cast_val_step Hd Hu.
  - apply elem_of_replicate in Hv as [-> _]. cast_val_step Hd Hu. by apply kernel_text.
Qed.

(** The text of a row of a column that is cast to strings. *)
Lemma text_value c s i :
  wf c → data_type c ≠ Null → cast_ok (data_type c) Utf8 → wf s → data_type s = Utf8 → rows s = cast_val (data_type c) Utf8 <$> rows c →
  i < alen c → let v := nth i (rows c) VNull in v ≠ VNull →
  string_value s i = Ok (text_of (cast_val (data_type c) Utf8 v)) ∧ valid_text (text_of (cast_val (data_type c) Utf8 v)).
Proof.
  intros Hwc Hn Hok Hw Hu Hr Hi v Hv0.
  assert (v ∈ rows c) as Hin.
  { unfold v. destruct (lookup_lt_is_Some_2 (rows c) i) as [x Hx]; [by rewrite length_rows_array|]. rewrite nth_lookup, Hx. by eapply list_elem_of_lookup_2. }
  pose proof (cast_has_text c v Hwc Hn Hok Hin Hv0) as Htext.
  assert (nth i (rows s) VNull = cast_val (data_type c) Utf8 v) as Hnth by (rewrite Hr; apply nth_fmap_null, cast_val_null).
  assert (∃ t, cast_val (data_type c) Utf8 v = VBytes t) as [t Hvt].
  { rewrite <- Hnth. destruct s as [| | |[] nl o data| | | |]; try discriminate. rewrite <- Hnth in Htext.
    assert (nth i (rows (BytesArray true nl o data)) VNull ∈ rows (BytesArray true nl o data)) as Hin2.
    { destruct (nth_in_or_default i (rows (BytesArray true nl o data)) VNull) as [Hin2|Hd]; [by apply list_elem_of_In|by rewrite Hd in Htext]. }
    destruct (utf8_rows nl o data _ Hw Hin2) as [Hd|(t & -> & _)]; [done|]. by exists t. }
  rewrite Hvt in *. cbn [text_of]. destruct (string_value_ok s i t Hw Hu Hnth) as (Hsv & Hut & Hbt). done.
Qed.

(** The field of a column in row [i]. *)
Definition field_at (i : nat) (d : DataType) (c : Array) : option bytes :=
  field_text d (nth i (rows c) VNull) (cast_val d Utf8 (nth i (rows c) VNull)).

(** A column and its cast to strings: the bitmap tells which fields have no text. *)
Record text_col (n : nat) (d : DataType) (c s : Array) : Prop := {
  tc_len : alen c = n;
  tc_null i : i < n → null_at (nulls_of c) i = true → field_at i d c = None;
  tc_text i : i < n → null_at (nulls_of c) i = false →
    let t := text_of (cast_val d Utf8 (nth i (rows c) VNull)) in field_at i d c = Some t ∧ string_value s i = Ok t ∧ valid_text t }.

Lemma text_col_ok n c : cast_spec c → wf c → alen c = n → cast_ok (data_type c) Utf8 → cast_fits c Utf8 →
  ∃ s, cast_impl c Utf8 = Ok s ∧ text_col n (data_type c) c s.
Proof.
  intros Hc Hw Hl Hok Hfit. destruct (Hc Utf8 Hw Hok Hfit) as (s & Hi & Hws & Ht & Hr). exists s. split; [done|]. subst n.
  destruct (decide (data_type c = Null)) as [Hn|Hn].
  - destruct c as [n| | |[]| | | |]; try discriminate. cbn [data_type] in *. split; [done|done|]. intros i Hn' _.
    destruct Hok as [|[|Hok]]; [done..|]. unfold field_at, field_text. cbn [rows]. rewrite nth_lookup, lookup_replicate_2 by done. cbn [default from_option id].
    split; [|split; [|valid_const]].
    + rewrite (bool_decide_eq_false_2 (Null ≠ Null)), andb_false_r; [done|tauto].
    + rewrite cast_val_null. by apply (kernel_null_texts n s i).
  - split; [done|..]; intros i Hn' Hb; rewrite null_at_rows in Hb by done; unfold field_at, field_text.
    + by rewrite Hb, bool_decide_eq_true_2.
    + rewrite Hb. split; [done|]. apply text_value; try done. intros Hv. by rewrite Hv in Hb.
Qed.

(** Columns and their casts, side by side. *)
Inductive text_cols (n : nat) : list (bool * DataType) → list Array → list Array → Prop :=
  | tc_nil : text_cols n [] [] []
  | tc_cons nb d fs c cs s ss : text_col n d c s → text_cols n fs cs ss → text_cols n ((nb, d) :: fs) (c :: cs) (s :: ss).

Lemma text_cols_ok pn n fs cs :
  Forall cast_spec cs → cols_wf wf pn n fs cs → texts_ok cast_ok fs → texts_fit cast_fits cs →
  ∃ ss, cast_strings cast_impl cs = Ok ss ∧ text_cols n fs cs ss.
Proof.
  intros Hcs. revert fs. induction Hcs as [|c cs Hc Hcs IH]; intros [|[nb d] fs] Hw Hok Hfit; try done.
  - exists []. split; [done|constructor].
  - destruct Hw as [(<- & Hn & Hwc & _) Hw]. destruct Hok as [Hcok Hok], Hfit as [Hcf Hfit].
    destruct (text_col_ok n c Hc Hwc Hn Hcok Hcf) as (s & Hs & Htc). destruct (IH fs Hw Hok Hfit) as (ss & Hss & Htcs).
    exists (s :: ss). split; [|by constructor].
    change (cast_strings cast_impl (c :: cs)) with (x ← cast_impl c Utf8; xs ← cast_strings cast_impl cs; Ok (x :: xs)).
    rewrite Hs. cbn [mbind Result_bind]. by rewrite Hss.
Qed.

Lemma field_at_ok n d c s i acc sep :
  text_col n d c s → i < n →
  (if null_at (nulls_of c) i then Ok (acc ++ sep ++ str "null") else v ← string_value s i; Ok (acc ++ sep ++ v)) =
    Ok (acc ++ sep ++ null_text (field_at i d c)) ∧ valid_text (null_text (field_at i d c)).
Proof.
  intros [_ Hnull Htext] Hi. destruct (null_at (nulls_of c) i) eqn:E; [rewrite Hnull by done; split; [done|valid_const]|].
  destruct (Htext i Hi E) as (-> & -> & ?). done.
Qed.

(** The loop over the columns, from column [k] on. *)
Lemma push_fields_ok n fs cs ss i k acc :
  text_cols n fs cs ss → i < n →
  let texts := null_text <$> zip_texts cast_val fs ((λ c, nth i (rows c) VNull) <$> cs) in
  rfoldM (push_field i) acc (imap (λ j x, (k + j, x)) (zip cs ss)) =
    Ok (acc ++ if bool_decide (k = 0) then join (str ", ") texts else mjoin ((λ y, str ", " ++ y) <$> texts)) ∧ Forall valid_text texts.
Proof.
  intros Htc Hi. revert k acc. induction Htc as [|nb d fs c cs s ss Htc Htcs IH]; intros k acc.
  { split; [|constructor]. cbn. case_bool_decide; by rewrite app_nil_r. }
  cbn [zip_with imap rfoldM]. rewrite Nat.add_0_r.
  change (zip_texts cast_val ((nb, d) :: fs) ((λ c, nth i (rows c) VNull) <$> c :: cs)) with
    (field_at i d c :: zip_texts cast_val fs ((λ c, nth i (rows c) VNull) <$> cs)).
  set (acc' := if bool_decide (k = 0) then acc else acc ++ str ",").
  set (sep := if bool_decide (k = 0) then [] else str " ").
  destruct (field_at_ok n d c s i acc' sep Htc Hi) as [Hf Hvalid].
  assert (push_field i acc (k, (c, s)) = Ok (acc' ++ sep ++ null_text (field_at i d c))) as -> by exact Hf. cbn [mbind Result_bind].
  assert (∀ acc, rfoldM (push_field i) acc (imap ((λ j x, (k + j, x)) ∘ S) (zip cs ss)) = rfoldM (push_field i) acc (imap (λ j x, (S k + j, x)) (zip cs ss))) as Himap.
  { intros a. f_equal. apply imap_ext. intros j x _. cbn [compose]. f_equal. lia. }
  destruct (IH (S k) (acc' ++ sep ++ null_text (field_at i d c))) as [Hloop Hall]. rewrite Himap, Hloop, (bool_decide_eq_false_2 (S k = 0)) by done.
  split; [|by constructor]. f_equal. rewrite !fmap_cons. cbn [join mjoin list_join]. unfold acc', sep. destruct (bool_decide (k = 0)); cbn [app]; by rewrite <- ?app_assoc.
Qed.

(** The rows of texts. *)
Lemma text_rows nl n (f : nat → bytes) (g : nat → Result (option bytes)) :
  (∀ i, i < n → g i = Ok (if null_at nl i then None else Some (f i))) → (∀ i, i < n → null_at nl i = false → valid_text (f i)) →
  fit (mask nl n (λ i, VBytes (f i))) →
  ∃ b, (r ← rmapM g (seq 0 n); Ok (string_array r)) = Ok b ∧ wf b ∧ data_type b = Utf8 ∧ rows b = mask nl n (λ i, VBytes (f i)).
Proof.
  intros Hg Hf Hfit. set (l := (λ i, if null_at nl i then None else Some (f i)) <$> seq 0 n).
  assert (rmapM g (seq 0 n) = Ok l) as ->.
  { apply rmapM_Ok, Forall2_fmap_r, Forall_Forall2_diag, Forall_forall. intros i Hi%elem_of_seq. apply Hg. lia. }
  assert (val_bytes <$> l = mask nl n (λ i, VBytes (f i))) as Hl.
  { unfold l, mask. rewrite <- list_fmap_compose. apply list_fmap_ext. intros k i _. cbn [compose]. by destruct (null_at nl i). }
  cbn [mbind Result_bind]. destruct (string_array_law l) as (Hw & Ht & Hr); [|by rewrite Hl|].
  { unfold l. apply Forall_fmap, Forall_forall. intros i Hi%elem_of_seq s Hs. cbn in Hs. destruct (null_at nl i) eqn:Hn; [done|]. injection Hs as <-. apply Hf; [lia|done]. }
  eexists. split; [done|]. split; [done|]. split; [done|]. by rewrite Hr.
Qed.

Lemma struct_cast fs nl n cs : Forall cast_spec cs → cast_spec (StructArray fs nl n cs).
Proof.
  intros IH. apply cast_spec_intro; [done|]. intros t Hd Ht Hw Hok Hfit. destruct Hok as [|[|Hok]]; [done..|]. cbn [data_type] in *.
  assert (∀ x, x ∈ rows (StructArray fs nl n cs) → x = VNull ∨ ∃ vs, x = VStruct vs) as Hrows.
  { intros x [->|(i & _ & _ & ->)]%elem_of_mask; eauto. }
  destruct t as [| | | | |nb' ti|? ? ?|ts|?];
    try (apply kernel_case; [cbn [cast_impl data_type]; by rewrite !decide_False by done|done|done|
      intros x Hx; destruct (Hrows x Hx) as [->|[vs ->]]; [by rewrite cast_val_null, kernel_null|by cast_val_step Hd Ht]|done]).
  - cbn [cast_impl data_type]. rewrite !decide_False by done. destruct Hw as [Hnl Hcw].
    destruct Hfit as [Hfit Htf]. destruct (text_cols_ok _ n fs cs IH Hcw Hok Htf) as (ss & -> & Htcs). cbn [mbind Result_bind]. unfold struct_to_string.
    assert (cast_val (Struct fs) Utf8 <$> rows (StructArray fs nl n cs) =
      mask nl n (λ i, VBytes (struct_text (zip_texts cast_val fs ((λ c, nth i (rows c) VNull) <$> cs))))) as Heq.
    { cbn [rows]. rewrite mask_fmap by apply cast_val_null. apply mask_ext; [done|]. intros i Hi. by cast_val_step Hd Ht. }
    cbn [data_type] in Hfit. rewrite Heq in Hfit |- *.
    destruct (text_rows nl n (λ i, struct_text (zip_texts cast_val fs ((λ c, nth i (rows c) VNull) <$> cs)))
      (λ row_idx, if null_at nl row_idx then Ok None
       else row_str ← rfoldM (push_field row_idx) (str "{") (enumerate (zip cs ss)); Ok (Some (row_str ++ str "}")))) as (b & Hb & Hwb & Htb & Hrb).
    + intros i Hi. destruct (null_at nl i); [done|]. destruct (push_fields_ok n fs cs ss i 0 (str "{") Htcs Hi) as [Hloop _].
      change (imap (λ j x, (0 + j, x)) (zip cs ss)) with (enumerate (zip cs ss)) in Hloop. rewrite Hloop. cbn [mbind Result_bind].
      rewrite bool_decide_eq_true_2 by done. unfold struct_text. by rewrite <- app_assoc.
    + intros i Hi _. destruct (push_fields_ok n fs cs ss i 0 (str "{") Htcs Hi) as [_ Hall]. unfold struct_text.
      apply valid_text_app; [valid_const|]. apply valid_text_app; [|valid_const]. apply valid_text_join; [valid_const|done].
    + exact Hfit.
    + by exists b.
  - cbn [cast_impl data_type]. rewrite !decide_False by done.
    destruct Hfit as [_ Hfit]. destruct (struct_columns_cast fs nl n cs ts IH Hw Hd Hok Hfit) as (cs' & -> & Hlen & Hw' & Hr & _). rewrite decide_True by done. cbn [mbind Result_bind].
    rewrite try_new_law by done. eexists. split; [done|]. split; [done|]. split; [done|]. exact Hr.
Qed.

(** ** Maps *)

Lemma zip_fields_id {A} (f : DataType → DataType → A → A) fs vs :
  length vs = length fs → (∀ d v, f d d v = v) → zip_fields f fs fs vs = vs.
Proof.
  intros Hl Hf. revert vs Hl. induction fs as [|[nb d] fs IH]; intros [|v vs] Hl; try done.
  change (zip_fields f ((nb, d) :: fs) ((nb, d) :: fs) (v :: vs)) with (f d d v :: zip_fields f fs fs vs). rewrite Hf, IH; [done|]. by injection Hl.
Qed.

Lemma zip_with_sub {A B C} (F : A → B → C) l1 l2 d1 d2 a b :
  a ≤ b → b ≤ length l1 → b ≤ length l2 → zip_with F (sub l1 a b) (sub l2 a b) = (λ j, F (nth j l1 d1) (nth j l2 d2)) <$> seq a (b - a).
Proof.
  intros Hab H1 H2. rewrite (sub_seq l1 d1), (sub_seq l2 d2) by lia. induction (seq a (b - a)) as [|j js IH]; [done|].
  rewrite !fmap_cons. cbn [zip_with]. by rewrite IH.
Qed.

Definition key_text (kd : DataType) (keys : Array) (j : nat) : bytes := text_of (cast_val kd Utf8 (nth j (rows keys) VNull)).

Lemma push_entry_ok n kd vd keys values keys_s values_s start j acc :
  text_col n kd keys keys_s → text_col n vd values values_s → j < n → null_at (nulls_of keys) j = false →
  push_entry values keys_s values_s start j acc =
    Ok (acc ++ (if negb (bool_decide (start < j)) then [] else str ", ") ++ key_text kd keys j ++ str " -> " ++ null_text (field_at j vd values)) ∧
  valid_text (key_text kd keys j ++ str " -> " ++ null_text (field_at j vd values)).
Proof.
  intros Hk Hv Hj Hnn. destruct (tc_text _ _ _ _ Hk j Hj Hnn) as (_ & Hks & Hkt). fold (key_text kd keys j) in *. unfold push_entry. rewrite Hks. cbn [mbind Result_bind].
  set (row_str := (if bool_decide (start < j) then acc ++ str ", " else acc) ++ key_text kd keys j ++ str " ->").
  destruct (field_at_ok n vd values values_s j row_str (str " ") Hv Hj) as [Hf Hvt].
  split; [|apply valid_text_app; [done|]; apply valid_text_app; [valid_const|done]].
  trans (Ok (row_str ++ str " " ++ null_text (field_at j vd values))); [exact Hf|].
  f_equal. unfold row_str. change (str " -> ") with (str " ->" ++ str " "). destruct (bool_decide (start < j)); cbn [negb app]; by rewrite <- ?app_assoc.
Qed.

Lemma map_to_string_ok n kd vd keys values keys_s values_s nl o :
  text_col n kd keys keys_s → text_col n vd values values_s → offsets_wf o n → (∀ j, j < n → null_at (nulls_of keys) j = false) →
  fit (mask nl (length o - 1) (λ i, VBytes (map_text (zip_with (λ k v, (text_of (cast_val kd Utf8 k), field_text vd v (cast_val vd Utf8 v)))
      (sub (rows keys) (off o i) (off o (S i))) (sub (rows values) (off o i) (off o (S i))))))) →
  ∃ b, map_to_string nl o (length o - 1) values keys_s values_s = Ok b ∧ wf b ∧ data_type b = Utf8 ∧
    rows b = mask nl (length o - 1) (λ i, VBytes (map_text (zip_with (λ k v, (text_of (cast_val kd Utf8 k), field_text vd v (cast_val vd Utf8 v)))
      (sub (rows keys) (off o i) (off o (S i))) (sub (rows values) (off o i) (off o (S i)))))).
Proof.
  intros Hk Hv Ho Hnn Hfit. unfold map_to_string. apply text_rows; [| |done].
  - intros i Hi. destruct (null_at nl i); [done|].
    destruct (lookup_lt_is_Some_2 o i ltac:(lia)) as [x Hx]. destruct (lookup_lt_is_Some_2 o (S i) ltac:(lia)) as [y Hy].
    rewrite Nat.add_1_r, (proj2 (index_Ok _ _ _) Hx). cbn [mbind Result_bind]. rewrite (proj2 (index_Ok _ _ _) Hy). cbn [mbind Result_bind].
    assert (Z.to_nat x = off o i) as -> by (unfold off; by rewrite nth_lookup, Hx).
    assert (Z.to_nat y = off o (S i)) as -> by (unfold off; by rewrite nth_lookup, Hy).
    pose proof (off_mono _ _ i (S i) Ho ltac:(lia) ltac:(lia)). pose proof (off_mono _ _ (S i) (length o - 1) Ho ltac:(lia) ltac:(lia)).
    pose proof (ow_end _ _ Ho). 
    rewrite (rfoldM_join _ (λ j, negb (bool_decide (off o i < j))) (λ j, key_text kd keys j ++ str " -> " ++ null_text (field_at j vd values)) (str ", ")).
    + cbn [mbind Result_bind]. do 2 f_equal. unfold map_text. rewrite <- app_assoc. do 3 f_equal.
      rewrite (zip_with_sub _ _ _ VNull VNull) by (rewrite ?length_rows_array, ?(tc_len _ _ _ _ Hk), ?(tc_len _ _ _ _ Hv); lia).
      by rewrite <- list_fmap_compose.
    + intros acc j Hj%elem_of_seq. apply (push_entry_ok n kd vd); [done|done|lia|]. apply Hnn. lia.
    + destruct (off o (S i) - off o i) as [|m]; [done|]. cbn [seq]. split; [by rewrite bool_decide_eq_false_2 by lia|].
      intros j Hj%elem_of_seq. rewrite bool_decide_eq_true_2 by lia. done.
  - intros i Hi _. pose proof (off_mono _ _ i (S i) Ho ltac:(lia) ltac:(lia)). pose proof (off_mono _ _ (S i) (length o - 1) Ho ltac:(lia) ltac:(lia)).
    pose proof (ow_end _ _ Ho). unfold map_text. apply valid_text_app; [valid_const|]. apply valid_text_app; [|valid_const]. apply valid_text_join; [valid_const|].
    rewrite (zip_with_sub _ _ _ VNull VNull) by (rewrite ?length_rows_array, ?(tc_len _ _ _ _ Hk), ?(tc_len _ _ _ _ Hv); lia).
    apply Forall_fmap, Forall_fmap, Forall_forall. intros j Hj%elem_of_seq.
    apply (push_entry_ok n kd vd keys values keys_s values_s 0 j []); [done|done|lia|]. apply Hnn. lia.
Qed.

Lemma map_cast nb fs s nl o n cs : Forall cast_spec cs → cast_spec (MapArray nb fs s nl o n cs).
Proof.
  intros IH. apply cast_spec_intro; [done|]. intros t Hd Ht Hw Hok Hfit. destruct Hok as [|[|Hok]]; [done..|]. cbn [data_type] in *.
  assert (∀ x, x ∈ rows (MapArray nb fs s nl o n cs) → x = VNull ∨ ∃ vs, x = VMap vs) as Hrows.
  { intros x [->|(i & _ & _ & ->)]%elem_of_mask; eauto. }
  destruct t as [| | | | |nb' ti|nb' d' s'|ts|?];
    try (apply kernel_case; [cbn [cast_impl data_type]; by rewrite !decide_False by done|done|done|
      intros x Hx; destruct (Hrows x Hx) as [->|[vs ->]]; [by rewrite cast_val_null, kernel_null|by cast_val_step Hd Ht]|done]).
  - destruct Hw as (Hnl & Ho & Hfl & Hcw). pose proof (cols_wf_len _ _ _ _ Hcw) as Hcl.
    destruct fs as [|[kn kd] [|[vn vd] []]]; try done. destruct cs as [|keys [|values []]]; try done.
    destruct Hcw as [(<- & Hkl & Hwk & Hkn) [(<- & Hvl & Hwv & _) _]]. destruct Hok as [[k [= -> _]] [Hkok [Hvok _]]], Hfit as [Hfit [Hkf [Hvf _]]].
    apply Forall_cons in IH as [IHk [IHv _]%Forall_cons].
    destruct (text_col_ok n keys IHk Hwk Hkl Hkok Hkf) as (ks & Hks & Htk). destruct (text_col_ok n values IHv Hwv Hvl Hvok Hvf) as (vs & Hvs & Htv).
    cbn [cast_impl data_type alen]. rewrite decide_False by done. rewrite Hks. cbn [mbind Result_bind]. rewrite Hvs. cbn [mbind Result_bind].
    match goal with |- context [cast_val ?d Utf8 <$> rows ?a] => assert (cast_val d Utf8 <$> rows a =
      mask nl (length o - 1) (λ i, VBytes (map_text (zip_with (λ k v, (text_of (cast_val (data_type keys) Utf8 k), field_text (data_type values) v (cast_val (data_type values) Utf8 v)))
        (sub (rows keys) (off o i) (off o (S i))) (sub (rows values) (off o i) (off o (S i))))))) as Heq end.
    { cbn [rows]. rewrite mask_fmap by apply cast_val_null. apply mask_ext; [done|]. intros i Hi. by cast_val_step Hd Ht. }
    cbn [data_type] in Hfit. rewrite Heq in Hfit |- *. apply (map_to_string_ok n); [done..| |done].
    intros j Hj. destruct (null_at (nulls_of keys) j) eqn:E; [|done]. by specialize (Hkn eq_refl j Hj E).
  - destruct d' as [| | | | | | |ts|]; try done. destruct Hw as (Hnl & Ho & Hfl & Hcw). pose proof (cols_wf_len _ _ _ _ Hcw) as Hcl.
    assert (∃ cs', (if decide (Struct fs = Struct ts) then Ok (StructArray fs None n cs)
       else if decide (length ts = length cs) then cs' ← cast_columns cast_impl cs ts; try_new (StructArray ts None n cs')
       else Err (Execution "cannot cast structs with different numbers of fields")) = Ok (StructArray ts None n cs') ∧
      wf (StructArray ts None n cs') ∧ length ts = 2 ∧ col_rows cs' = zip_fields (λ d t (r : list Val), cast_val d t <$> r) fs ts (col_rows cs)) as (cs' & Hent & [_ Hcw'] & Htl & Hr).
    { case_decide as Hs.
      - injection Hs as <-. exists cs. split; [done|]. split; [by split|]. split; [done|]. symmetry. apply zip_fields_id; [by unfold col_rows; rewrite length_fmap|].
        intros d v. rewrite <- (list_fmap_id v) at 2. apply list_fmap_ext. intros. by rewrite cast_val_id.
      - destruct Hfit as [_ Hfit]. destruct (struct_columns_cast fs None n cs ts IH) as (cs' & -> & Hlen & Hw' & _ & Hr); [by split|done..|]. rewrite decide_True by done.
        cbn [mbind Result_bind]. exists cs'. split; [by apply try_new_law|]. split; [done|]. split; [lia|done]. }
    cbn [cast_impl data_type]. rewrite decide_False by done. rewrite Hent. cbn [mbind Result_bind].
    assert (wf (MapArray nb' ts s' nl o n cs')) as Hw' by done.
    rewrite try_new_law by done. eexists. split; [done|]. split; [done|]. split; [done|]. cbn [rows]. rewrite mask_fmap by apply cast_val_null.
    apply mask_ext; [done|]. intros i Hi. cast_val_step Hd Ht. f_equal.
    assert (∀ l : list Array, (λ c, sub (rows c) (off o i) (off o (S i))) <$> l = (λ r, sub r (off o i) (off o (S i))) <$> col_rows l) as Hsub.
    { intros l. unfold col_rows. by rewrite <- list_fmap_compose. }
    rewrite !Hsub, Hr. apply zip_fields_fmap. intros d t v. by rewrite sub_fmap.
Qed.

Lemma null_cast n : cast_spec (NullArray n).
Proof.
  intros t Hw Hok Hfit. destruct (decide (Null = t)) as [<-|Hd]; [exists (NullArray n); split; [apply (cast_impl_same (NullArray n))|split; [done|split; [done|apply (rows_same (NullArray n))]]]|].
  destruct Hok as [|[->|Hok]]; [done..|]. apply kernel_case; [|done|done| |done].
  - cbn [cast_impl data_type]. rewrite decide_False by done. by destruct t.
  - intros v [-> _]%elem_of_replicate. by rewrite cast_val_null, kernel_null.
Qed.

Lemma other_cast w n : cast_spec (OtherArray w n).
Proof.
  apply cast_spec_intro; [done|]. intros t Hd Ht Hw Hok Hfit. destruct Hok as [|[|Hok]]; [done..|]. apply kernel_case; [|done|done| |done].
  - cbn [cast_impl data_type]. rewrite decide_False by done. by destruct t.
  - intros v [-> _]%elem_of_replicate. by cast_val_step Hd Ht.
Qed.

(** C24: cast terminates without error on every well-formed array and target type that
    it can cast (the kernel supports the parts left to it, and parts that may become
    null are nullable in the target), the result is well formed, has the target type and
    holds row by row the value that the cast of values defines: texts parsed, floats
    saturated, lists, structs and maps cast by their parts, and structs and maps printed
    as {a, b} and {k -> v} from the texts of their parts with null for nulls; a part of
    the null type is printed as empty text. The condition on the array is that the texts
    built fit the 31-bit offsets of a string array. *)
Theorem cast_rows a t :
  wf a → cast_ok (data_type a) t → cast_fits a t →
  ∃ b, cast a t = Ok b ∧ wf b ∧ data_type b = t ∧ rows b = cast_val (data_type a) t <$> rows a.
Proof.
  revert t. change (cast_spec a). induction a as [n|nl v|p nl vs|u nl o d|nb d nl o v IH|nb fs s nl o n cs IH|fs nl n cs IH|w n] using Array_nested_ind.
  - apply null_cast.
  - apply bool_cast.
  - apply prim_cast.
  - apply bytes_cast.
  - by apply list_cast.
  - by apply map_cast.
  - by apply struct_cast.
  - apply other_cast.
Qed.

End Values.

(** ** Arrays from rows

    An instance of the two classes: string and primitive arrays built from their rows, and a
    kernel that widens 32-bit integers. *)

Module CastSample.

Fixpoint bitmap_from (i : nat) (bs : list bool) (buf : list Z) : list Z :=
  match bs with [] => buf | b :: bs => bitmap_from (S i) bs (if b then ref_set_bit buf i else buf) end.

Definition bitmap (bs : list bool) : BitBuffer := mkBits (bitmap_from 0 bs (replicate (length bs / 8 + 1) 0%Z)) 0 (length bs).

Lemma bitmap_from_ok i bs buf :
  bytes_ok buf → i + length bs ≤ 8 * length buf →
  bytes_ok (bitmap_from i bs buf) ∧ length (bitmap_from i bs buf) = length buf ∧
  ∀ j, bit_at (bitmap_from i bs buf) j = bit_at buf j || (bool_decide (i ≤ j) && nth (j - i) bs false).
Proof.
  revert i buf. induction bs as [|b bs IH]; intros i buf Hb Hl; cbn [bitmap_from].
  { split; [done|]. split; [done|]. intros j. by rewrite nth_overflow, andb_false_r, orb_false_r by (cbn; lia). }
  cbn [length] in Hl. destruct (ref_set_bit_law buf i Hb ltac:(lia)) as (Hb' & Hl' & Hbit).
  destruct (IH (S i) (if b then ref_set_bit buf i else buf)) as (Hr & Hlen & Hat); [by destruct b|destruct b; rewrite ?Hl'; lia|].
  split; [done|]. split; [by rewrite Hlen; destruct b|]. intros j. rewrite Hat.
  destruct (decide (j = i)) as [->|Hj].
  - rewrite Nat.sub_diag, (bool_decide_eq_false_2 (S i ≤ i)), (bool_decide_eq_true_2 (i ≤ i)) by lia. cbn [nth andb]. rewrite orb_false_r.
    destruct b; [by rewrite Hbit, bool_decide_eq_true_2, orb_true_r|by rewrite orb_false_r].
  - assert (bit_at (if b then ref_set_bit buf i else buf) j = bit_at buf j) as ->.
    { destruct b; [|done]. by rewrite Hbit, bool_decide_eq_false_2. }
    f_equal. destruct (decide (S i ≤ j)).
    + rewrite !bool_decide_eq_true_2 by lia. cbn [andb]. replace (j - i) with (S (j - S i)) by lia. done.
    + by rewrite !bool_decide_eq_false_2 by lia.
Qed.

Lemma bitmap_ok bs : nulls_wf (Some (bitmap bs)) (length bs) ∧ ∀ i, null_at (Some (bitmap bs)) i = negb (nth i bs false).
Proof.
  assert (length bs ≤ 8 * (length bs / 8 + 1)) as Hl.
  { pose proof (Nat.div_mod_eq (length bs) 8). assert (length bs mod 8 < 8) by (apply Nat.mod_upper_bound; lia). lia. }
  destruct (bitmap_from_ok 0 bs (replicate (length bs / 8 + 1) 0%Z)) as (Hb & Hlen & Hat).
  - apply Forall_replicate. split; lia.
  - rewrite length_replicate. lia.
  - split; [split; [split; [done|cbn [bitmap bb_len bb_offset bb_buffer]; rewrite Hlen, length_replicate; lia]|done]|].
    intros i. unfold null_at, bits_at, bitmap. cbn [bb_buffer bb_offset]. rewrite Nat.add_0_l, Hat, Nat.sub_0_r. f_equal.
    assert (bit_at (replicate (length bs / 8 + 1) 0%Z) i = false) as ->; [|done].
    unfold bit_at. destruct (_ !! _) as [x|] eqn:E; [|done]. apply lookup_replicate_1 in E as [-> _]. apply Z.testbit_0_l.
Qed.

Fixpoint offsets_from (a : Z) (l : list bytes) : list Z :=
  match l with [] => [a] | s :: l => a :: offsets_from (a + Z.of_nat (length s)) l end.

Lemma offsets_from_ok a l i :
  i ≤ length l → offsets_from a l !! i = Some (a + Z.of_nat (length (mjoin (take i l))))%Z.
Proof.
  revert a i. induction l as [|s l IH]; intros a [|i] Hi; cbn [length] in Hi; try lia; cbn [offsets_from].
  - cbn. f_equal. lia.
  - cbn. f_equal. lia.
  - cbn [lookup list_lookup take]. rewrite IH by lia. change (mjoin (s :: take i l)) with (s ++ mjoin (take i l)). rewrite length_app. f_equal. lia.
Qed.

Lemma length_offsets a l : length (offsets_from a l) = S (length l).
Proof. revert a. induction l as [|s l IH]; intros a; [done|]. cbn [offsets_from length]. by rewrite IH. Qed.

Definition strings (l : list (option bytes)) : Array :=
  let ss := default [] <$> l in
  BytesArray true (Some (bitmap ((λ o, bool_decide (is_Some o)) <$> l))) (offsets_from 0 ss) (mjoin ss).

Definition numbers (t : PrimitiveType) (l : list (option Z)) : Array :=
  PrimitiveArray t (Some (bitmap ((λ o, bool_decide (is_Some o)) <$> l))) (default 0%Z <$> l).

Lemma nth_valid {A} (l : list (option A)) i : i < length l →
  negb (nth i ((λ o, bool_decide (is_Some o)) <$> l) false) = true ↔ l !! i = Some None.
Proof.
  intros Hi. destruct (lookup_lt_is_Some_2 l i Hi) as [o Ho]. rewrite nth_lookup, list_lookup_fmap, Ho. cbn. destruct o; cbn; split; done || congruence.
Qed.

(** The rows of an array over the validity of a list. *)
Lemma mask_valid {A} (l : list (option A)) (f : nat → Val) (g : option A → Val) :
  g None = VNull → (∀ i x, l !! i = Some (Some x) → f i = g (Some x)) →
  mask (Some (bitmap ((λ o, bool_decide (is_Some o)) <$> l))) (length l) f = g <$> l.
Proof.
  intros Hg Hf. apply list_eq. intros i. destruct (decide (i < length l)) as [Hi|Hi].
  - unfold mask. rewrite !list_lookup_fmap, lookup_seq_lt by done. cbn [fmap option_fmap option_map].
    destruct (bitmap_ok ((λ o, bool_decide (is_Some o)) <$> l)) as [_ Hat]. rewrite Nat.add_0_l, Hat.
    destruct (lookup_lt_is_Some_2 l i Hi) as [o Ho]. rewrite Ho. cbn [fmap option_fmap option_map]. rewrite nth_lookup, list_lookup_fmap, Ho.
    destruct o as [x|]; cbn; [by rewrite (Hf i x)|by rewrite Hg].
  - rewrite !lookup_ge_None_2; [done|rewrite length_fmap; lia|]. unfold mask. rewrite length_fmap, length_seq. lia.
Qed.

Lemma strings_sub (l : list bytes) i s :
  l !! i = Some s → sub (mjoin l) (off (offsets_from 0 l) i) (off (offsets_from 0 l) (S i)) = s.
Proof.
  intros Hs. pose proof (lookup_lt_Some _ _ _ Hs) as Hi. unfold off.
  rewrite !nth_lookup, !offsets_from_ok by lia. cbn [default from_option id]. rewrite !Z.add_0_l, !Nat2Z.id.
  rewrite (take_S_r _ _ _ Hs), join_app. cbn [mjoin list_join]. rewrite app_nil_r, length_app. unfold sub.
  assert (mjoin l = mjoin (take i l) ++ s ++ mjoin (drop (S i) l)) as ->.
  { rewrite <- (take_drop_middle l i s Hs) at 1. by rewrite join_app. }
  rewrite drop_app_length.
  replace (length (mjoin (take i l)) + length s - length (mjoin (take i l))) with (length s) by lia. by rewrite take_app_length.
Qed.

Lemma sum_lengths (l : list (option bytes)) :
  sumZ text_len (val_bytes <$> l) = Z.of_nat (length (mjoin (default [] <$> l))).
Proof.
  induction l as [|o l IH]; [done|]. rewrite !fmap_cons. change (mjoin (default [] o :: (default [] <$> l))) with (default [] o ++ mjoin (default [] <$> l)). rewrite length_app.
  change (sumZ text_len (val_bytes o :: (val_bytes <$> l))) with (text_len (val_bytes o) + sumZ text_len (val_bytes <$> l))%Z.
  rewrite IH. destruct o; cbn; lia.
Qed.

Lemma strings_law l :
  Forall (λ o : option bytes, ∀ s, o = Some s → utf8_valid s ∧ bytes_ok s) l → fit (val_bytes <$> l) →
  wf (strings l) ∧ data_type (strings l) = Utf8 ∧ rows (strings l) = val_bytes <$> l.
Proof.
  intros Hl Hfit. unfold fit in Hfit. rewrite sum_lengths in Hfit. set (ss := default [] <$> l) in *.
  assert (length ss = length l) as Hss by (unfold ss; by rewrite length_fmap).
  assert (∀ i, i ≤ length ss → offsets_from 0 ss !! i = Some (Z.of_nat (length (mjoin (take i ss))))) as Hoff.
  { intros i Hi. by rewrite offsets_from_ok. }
  assert (Forall (λ s, utf8_valid s ∧ bytes_ok s) ss) as Hv.
  { unfold ss. apply Forall_fmap. eapply Forall_impl; [exact Hl|]. intros [s|] Hs; [by apply Hs|split; [done|constructor]]. }
  assert (∀ i, i ≤ length ss → off (offsets_from 0 ss) i = length (mjoin (take i ss))) as Ho.
  { intros i Hi. unfold off. rewrite nth_lookup, Hoff by done. cbn. lia. }
  split; [|split; [done|]].
  - unfold strings. fold ss. cbn [wf]. rewrite length_offsets. replace (S (length ss) - 1) with (length l) by lia. split; [|split; [|split]].
    + pose proof (proj1 (bitmap_ok ((λ o : option bytes, bool_decide (is_Some o)) <$> l))) as Hb. by rewrite length_fmap in Hb.
    + assert (∀ i, length (mjoin (take i ss)) ≤ length (mjoin ss)) as Hle.
      { intros i. rewrite <- (take_drop i ss) at 2. rewrite join_app, length_app. lia. }
      split.
      * rewrite length_offsets. lia.
      * apply Forall_lookup. intros i x Hx. assert (i ≤ length ss) by (apply lookup_lt_Some in Hx; rewrite length_offsets in Hx; lia).
        rewrite Hoff in Hx by done. injection Hx as <-. specialize (Hle i). lia.
      * intros i Hi. rewrite length_offsets in Hi. rewrite !Ho by lia. destruct (lookup_lt_is_Some_2 ss i ltac:(lia)) as [s Hs].
        rewrite (take_S_r _ _ _ Hs), join_app, length_app. lia.
      * rewrite length_offsets, Ho by lia. apply Hle.
    + unfold bytes_ok. clear -Hv. induction Hv as [|s ss [_ Hs] _ IH]; [constructor|]. change (mjoin (s :: ss)) with (s ++ mjoin ss). by apply Forall_app.
    + intros _ i Hi. destruct (lookup_lt_is_Some_2 ss i ltac:(lia)) as [s Hs]. rewrite (strings_sub ss i s Hs). rewrite Forall_lookup in Hv. by apply (Hv i s).
  - unfold strings. fold ss. cbn [rows]. rewrite length_offsets. replace (S (length ss) - 1) with (length l) by lia. apply mask_valid; [done|].
    intros i x Hx. cbn [val_bytes]. f_equal. apply strings_sub. unfold ss. by rewrite list_lookup_fmap, Hx.
Qed.

Lemma numbers_law t l :
  prim_valid t → Forall (λ o : option Z, ∀ z, o = Some z → in_u (8 * Z.of_nat (byte_width t)) z) l →
  wf (numbers t l) ∧ data_type (numbers t l) = Primitive t ∧ rows (numbers t l) = val_prim <$> l.
Proof.
  intros Ht Hl. split; [|split; [done|]].
  - cbn [numbers wf]. rewrite length_fmap. split; [|split; [done|]].
    + pose proof (proj1 (bitmap_ok ((λ o : option Z, bool_decide (is_Some o)) <$> l))) as Hb. by rewrite length_fmap in Hb.
    + apply Forall_fmap. eapply Forall_impl; [exact Hl|]. intros [z|] Hz; [by apply Hz|]. cbn. unfold in_u. pose proof (Z.pow_pos_nonneg 2 (8 * Z.of_nat (byte_width t))). lia.
  - cbn [numbers rows]. rewrite length_fmap. apply mask_valid; [done|]. intros i x Hx. by rewrite nth_lookup, list_lookup_fmap, Hx.
Qed.

Lemma join_nils n : mjoin (replicate n []) = ([] : bytes).
Proof. by induction n. Qed.

Lemma null_strings n i : i < n → string_value (strings (replicate n None)) i = Ok [].
Proof.
  intros Hi. unfold strings. rewrite !fmap_replicate. cbn [string_value default from_option]. unfold bytes_value.
  assert (∀ j, j ≤ n → offsets_from 0 (replicate n []) !! j = Some 0%Z) as Ho.
  { intros j Hj. rewrite offsets_from_ok by (by rewrite length_replicate). rewrite take_replicate. by rewrite join_nils. }
  rewrite (proj2 (index_Ok _ _ _) (Ho i ltac:(lia))). cbn [mbind Result_bind].
  rewrite (proj2 (index_Ok _ _ _) (Ho (i + 1) ltac:(lia))). by rewrite join_nils.
Qed.

(** The kernel widens 32-bit integers and makes null strings. *)
Definition widen (a : Array) (t : DataType) : Result Array :=
  match a, t with
  | PrimitiveArray Int32 nl vs, Primitive Int64 => Ok (PrimitiveArray Int64 nl ((λ v, pattern Int64 (wraps 32 v)) <$> vs))
  | NullArray n, Utf8 => Ok (strings (replicate n None))
  | _, _ => Err (Execution "unsupported cast")
  end.

#[export] Instance SampleCast : CastOps := {|
  kernel := widen; string_array := strings; prim_array := numbers; plain_decimal := λ _, None; from_ymd_opt := TextSample.ymd |}.

Definition widen_val (v : Val) : Val := match v with VPrim b => VPrim (pattern Int64 (wraps 32 b)) | _ => VNull end.

#[export] Program Instance SampleLaws : CastLaws := {|
  castable := λ d t, d = Primitive Int32 ∧ t = Primitive Int64 ∨ d = Null ∧ t = Utf8;
  kernel_val := λ d _ v, if decide (d = Null) then v else widen_val v;
  string_array_law := strings_law;
  prim_array_law := numbers_law |}.
Next Obligation.
  intros a t Hw [[Ha ->]|[Ha ->]] _.
  - destruct a as [| |p nl vs|[]| | | |]; try discriminate. injection Ha as ->. destruct Hw as (Hnl & _ & _).
    eexists. split; [done|]. split; [|split; [done|]].
    + split; [by rewrite length_fmap|]. split; [done|]. apply Forall_fmap, Forall_true. intros v. apply in_u_pattern.
    + cbn [rows data_type]. rewrite length_fmap, mask_fmap by done. apply mask_ext; [done|]. intros i Hi.
      destruct (lookup_lt_is_Some_2 vs i Hi) as [z Hz]. by rewrite !nth_lookup, list_lookup_fmap, Hz.
  - destruct a as [n| | |[]| | | |]; try discriminate. exists (strings (replicate n None)). split; [done|].
    assert (val_bytes <$> replicate n None = rows (NullArray n)) as Hr by apply fmap_replicate. cbn [data_type]. rewrite list_fmap_id, <- Hr. apply strings_law.
    + apply Forall_replicate. naive_solver.
    + unfold fit. rewrite sum_lengths, fmap_replicate. by rewrite join_nils.
Qed.
Next Obligation. intros d t. destruct d; done. Qed.
Next Obligation. intros d v [[-> ?]|[-> _]]; [done|]. by rewrite decide_True. Qed.
Next Obligation. intros n b i _ [= <-] Hi. by apply null_strings. Qed.
Next Obligation. done. Qed.

(** The lists ["12", "x"] and ["-7"], and the map {a -> b, c -> null}. *)
Definition words : Array := strings [Some (str "12"); Some (str "x"); Some (str "-7")].
Definition lists : Array := ListArray true Utf8 None [0; 2; 3]%Z words.
Definition maps : Array :=
  MapArray false [(false, Utf8); (true, Utf8)] false None [0; 2]%Z 2 [strings [Some (str "a"); Some (str "c")]; strings [Some (str "b"); None]].
Definition structs : Array := StructArray [(true, Utf8); (true, Boolean); (true, Utf8)] None 1
  [strings [Some (str "a")]; BooleanArray None (bitmap [true]); strings [None]].

Lemma words_wf : wf words.
Proof. apply strings_law; [|done]. repeat (apply Forall_cons_2; [intros s [= <-]; split; [done|repeat (apply Forall_cons_2; [split; done|]); apply Forall_nil_2]|]). apply Forall_nil_2. Qed.

Lemma cast_rows_witness :
  wf lists ∧ cast_ok (data_type lists) (List true (Primitive Int32)) ∧ cast_fits lists (List true (Primitive Int32)) ∧
  ∃ b, cast lists (List true (Primitive Int32)) = Ok b ∧ wf b ∧ data_type b = List true (Primitive Int32) ∧
    rows b = cast_val (data_type lists) (List true (Primitive Int32)) <$> rows lists.
Proof.
  assert (wf lists) as Hw.
  { split; [done|]. split; [|split; [done|split; [apply words_wf|done]]]. split; [cbn; lia| | |].
    - repeat (apply Forall_cons_2; [lia|]). apply Forall_nil_2.
    - intros [|[|i]] Hi; [apply Nat.leb_le; reflexivity..|]. cbn in Hi. lia.
    - apply Nat.leb_le. reflexivity. }
  assert (cast_ok (data_type lists) (List true (Primitive Int32))) as Hok.
  { right; right. split; [|by left]. right; right. done. }
  assert (cast_fits lists (List true (Primitive Int32))) as Hfit by (split; [done|split; done]).
  split; [exact Hw|]. split; [exact Hok|]. split; [exact Hfit|]. exact (cast_rows lists _ Hw Hok Hfit).
Defined.

Example casts :
  (b ← cast lists (List true (Primitive Int32)); Ok (rows b)) = Ok [VList [VPrim 12; VNull]; VList [VPrim (2 ^ 32 - 7)]] ∧
  (b ← cast maps Utf8; Ok (rows b)) = Ok [VBytes (str "{a -> b, c -> null}")] ∧
  (b ← cast structs Utf8; Ok (rows b)) = Ok [VBytes (str "{a, true, null}")].
Proof. by vm_compute. Qed.

(** A struct and a map whose fields have the null type. *)
Example null_fields_print_empty :
  (b ← cast (StructArray [(true, Null); (true, Utf8)] None 1 [NullArray 1; strings [None]]) Utf8; Ok (rows b)) = Ok [VBytes (str "{, null}")] ∧
  (b ← cast (MapArray false [(false, Utf8); (true, Null)] false None [0; 1]%Z 1 [strings [Some (str "a")]; NullArray 1]) Utf8; Ok (rows b))
    = Ok [VBytes (str "{a -> }")].
Proof. by vm_compute. Qed.

End CastSample.
