(* ===== verification/JsonPath.v ===== *)
(** * JSON paths

    native-engine/datafusion-ext-functions/src/spark_get_json_object.rs: [get_json_object] of
    Spark, in one step and as the parsing of texts followed by the evaluation of paths on
    parsed texts.  A path is read by [parse] and [try_new] into matchers, which are evaluated
    one after the other, by one evaluator for the values of serde_json ([Value]) and by
    another for those of sonic-rs, which are known through their accessors ([SonicRs]).  The
    texts of numbers, the parsers and the printers belong to these libraries.

    [try_new_grammar] gives the paths that are accepted and their matchers; a path never
    leads to anything else than matchers or an error.  [evaluators_agree] relates the two
    evaluators, [parsed_json_object_equal] the two ways of evaluation. *)

From S2P Require Import Prelude MachineInt Utf8 Arrow Columnar Chars.

Set Default Proof Using "Type".

Local Abbreviation bytes := (list Z).

Inductive HiveGetJsonObjectMatcher :=
  | Root
  | Child (name : bytes)
  | Subscript (index : Z)
  | SubscriptAll.

#[export] Instance HiveGetJsonObjectMatcher_eq_dec : EqDecision HiveGetJsonObjectMatcher.
Proof. solve_decision. Defined.

(** [HiveGetJsonObjectError] *)
Definition InvalidJsonPath : Error := Execution "InvalidJsonPath".
Definition InvalidInput : Error := Execution "InvalidInput".

(** ** Paths

    A character is its bytes; the iterator over the characters of a path is the list of those
    that remain. *)

Definition dollar : bytes := [36%Z].
Definition dot : bytes := [46%Z].
Definition space : bytes := [32%Z].
Definition open_bracket : bytes := [91%Z].
Definition close_bracket : bytes := [93%Z].
Definition star : bytes := [42%Z].

Fixpoint skip_spaces (chars : list bytes) : list bytes :=
  match chars with
  | c :: rest => if decide (c = space) then skip_spaces rest else chars
  | [] => []
  end.

Fixpoint child_name (chars : list bytes) (name : bytes) : bytes * list bytes :=
  match chars with
  | c :: rest => if decide (c = dot ∨ c = open_bracket) then (name, chars) else child_name rest (name ++ c)
  | [] => (name, [])
  end.

Fixpoint index_str (chars : list bytes) (index : bytes) : Result (bytes * list bytes) :=
  match chars with
  | c :: rest => if decide (c = close_bracket) then Ok (index, rest) else index_str rest (index ++ c)
  | [] => Err InvalidJsonPath
  end.

(** Behind an opening bracket. *)
Definition parse_subscript (chars : list bytes) : Result (HiveGetJsonObjectMatcher * list bytes) :=
  '(index, chars) ← index_str chars [];
  if decide (index = [] ∨ index = star) then Ok (SubscriptAll, chars)
  else
    match parse_usize index with
    | Some index => Ok (Subscript index, chars)
    | None => Err InvalidJsonPath
    end.

(** The call of [parse] by itself, behind a dot, is at an opening bracket. *)
Definition parse (chars : list bytes) : Result (option (HiveGetJsonObjectMatcher * list bytes)) :=
  match chars with
  | [] => Ok None
  | c :: chars =>
      if decide (c = dollar) then Ok (Some (Root, chars))
      else if decide (c = dot) then
        let chars := skip_spaces chars in
        match chars with
        | b :: chars' =>
            if decide (b = open_bracket) then m ← parse_subscript chars'; Ok (Some m)
            else
              let '(name, chars) := child_name chars [] in
              if decide (name = []) then Err InvalidJsonPath else Ok (Some (Child name, chars))
        | [] => Err InvalidJsonPath
        end
      else if decide (c = open_bracket) then m ← parse_subscript chars; Ok (Some m)
      else Err InvalidJsonPath
  end.

(** The loop ends, as each matcher takes a character. *)
Definition parse_all (chars : list bytes) : Result (list HiveGetJsonObjectMatcher) :=
  rloop (S (length chars)) (λ '(chars, matchers),
    m ← parse chars;
    match m with
    | Some (matcher, chars) => Ok (inl (chars, matchers ++ [matcher]))
    | None => Ok (inr matchers)
    end) (chars, []).

Definition try_new (json_path : bytes) : Result (list HiveGetJsonObjectMatcher) :=
  matchers ← parse_all (chars json_path);
  match matchers with
  | Root :: matchers => if decide (Root ∈ matchers) then Err InvalidJsonPath else Ok matchers
  | _ => Err InvalidJsonPath
  end.

(** ** Values *)

Inductive Value (Number : Type) :=
  | JNull
  | JBool (b : bool)
  | JNumber (n : Number)
  | JString (s : bytes)
  | JArray (vs : list (Value Number))
  | JObject (fields : list (bytes * Value Number)).
Arguments JNull {Number}.
Arguments JBool {Number} b.
Arguments JNumber {Number} n.
Arguments JString {Number} s.
Arguments JArray {Number} vs.
Arguments JObject {Number} fields.

(** [serde_json] *)
Class SerdeJson (Number : Type) := {
  serde_from_str : bytes → option (Value Number);
  serde_to_string : Value Number → option bytes;
  number_to_string : Number → bytes;
}.

Inductive JsonType := TNull | TBoolean | TNumber | TString | TObject | TArray.

(** [sonic_rs] *)
Class SonicRs := {
  sonic : Type;
  sonic_object : Type;
  sonic_null : sonic;
  sonic_is_null : sonic → bool;
  get_type : sonic → JsonType;
  as_bool : sonic → option bool;
  as_number : sonic → option bytes;
  as_str : sonic → option bytes;
  as_object : sonic → option sonic_object;
  as_array : sonic → option (list sonic);
  sonic_get : sonic_object → bytes → option sonic;
  sonic_from_vec : list sonic → sonic;
  sonic_from_str : bytes → option sonic;
  sonic_to_string : sonic → option bytes;
}.

Section Evaluation.
Context {Number : Type} `{SerdeJson Number} `{SonicRs}.

Local Abbreviation value := (Value Number).

(** [object.get(key)]; the keys of an object are distinct. *)
Fixpoint object_get {V} (fields : list (bytes * V)) (key : bytes) : option V :=
  match fields with
  | (k, v) :: fields => if decide (k = key) then Some v else object_get fields key
  | [] => None
  end.

Definition bool_to_string (b : bool) : bytes := str (if b then "true" else "false").

Definition is_null (v : value) : bool := match v with JNull => true | _ => false end.

Definition serde_json_value_to_string (v : value) : Result (option bytes) :=
  match v with
  | JNull => Ok None
  | JString s => Ok (Some s)
  | JNumber n => Ok (Some (number_to_string n))
  | JBool b => Ok (Some (bool_to_string b))
  | JArray _ | JObject _ => match serde_to_string v with Some s => Ok (Some s) | None => Err InvalidInput end
  end.

Definition sonic_value_to_string (v : sonic) : Result (option bytes) :=
  match get_type v with
  | TNull => Ok None
  | TString => Ok (as_str v)
  | TNumber => Ok (as_number v)
  | TBoolean => Ok (bool_to_string <$> as_bool v)
  | _ => match sonic_to_string v with Some s => Ok (Some s) | None => Err InvalidInput end
  end.

Definition evaluate_serde_json (m : HiveGetJsonObjectMatcher) (v : value) : value :=
  match m, v with
  | Root, _ => v
  | Child child, JObject object => default JNull (object_get object child)
  | Child child, JArray array =>
      let items := (λ item, match item with JObject object => default JNull (object_get object child) | _ => JNull end) <$> array in
      let vs := mjoin ((λ r, match r with JArray array => array | other => [other] end) <$> filter (λ r, is_null r = false) items) in
      match vs with [] => JNull | _ => JArray vs end
  | Subscript index, JArray array => default JNull (array !! Z.to_nat index)
  | SubscriptAll, JArray _ => v
  | _, _ => JNull
  end.

Definition evaluate_sonic (m : HiveGetJsonObjectMatcher) (v : sonic) : sonic :=
  match m with
  | Root => v
  | Child child =>
      match as_object v with
      | Some object => default sonic_null (sonic_get object child)
      | None =>
          match as_array v with
          | Some array =>
              let items := (λ item, match as_object item with Some object => default sonic_null (sonic_get object child) | None => sonic_null end) <$> array in
              let vs := mjoin ((λ r, match as_array r with Some array => array | None => [r] end) <$> filter (λ r, sonic_is_null r = false) items) in
              match vs with [] => sonic_null | _ => sonic_from_vec vs end
          | None => sonic_null
          end
      end
  | Subscript index => match as_array v with Some array => default sonic_null (array !! Z.to_nat index) | None => sonic_null end
  | SubscriptAll => match as_array v with Some _ => v | None => sonic_null end
  end.

Definition evaluate_with_value_serde_json (matchers : list HiveGetJsonObjectMatcher) (root : value) : Result (option bytes) :=
  serde_json_value_to_string (foldl (λ v m, evaluate_serde_json m v) root matchers).

Definition evaluate_with_value_sonic (matchers : list HiveGetJsonObjectMatcher) (root : sonic) : Result (option bytes) :=
  sonic_value_to_string (foldl (λ v m, evaluate_sonic m v) root matchers).

(** [if let Ok(v) = r { return Ok(v); }] *)
Definition or_else {A} (r : Result A) (k : Result A) : Result A := match r with Err _ => k | r => r end.

Definition evaluate (matchers : list HiveGetJsonObjectMatcher) (json_str : bytes) : Result (option bytes) :=
  let by_serde :=
    match serde_from_str json_str with
    | Some root_value => or_else (evaluate_with_value_serde_json matchers root_value) (Err InvalidInput)
    | None => Err InvalidInput
    end in
  match sonic_from_str json_str with
  | Some root_value => or_else (evaluate_with_value_sonic matchers root_value) by_serde
  | None => by_serde
  end.

(** ** The functions *)

Definition string_array (c : ColumnarValue) : Result Column :=
  let array := into_array 1 c in
  if decide (ctype array = Utf8) then Ok array else Panic.

(** [r.ok().unwrap_or(None)] *)
Definition ok_or_none (r : Result (option bytes)) : Result (option bytes) := or_else r (Ok None).

Definition null_strings (n : nat) : ColumnarValue := CArray (mkColumn Utf8 (replicate n VNull)).

Definition spark_get_json_object (args : list ColumnarValue) : Result ColumnarValue :=
  match args with
  | json :: path :: _ =>
      json_strings ← string_array json;
      match path with
      | CScalar Utf8 VNull => Ok (null_strings (clen json_strings))
      | CScalar Utf8 (VBytes path_string) =>
          match try_new path_string with
          | Err _ => Ok (null_strings (clen json_strings))
          | r =>
              evaluator ← r;
              output ← rmapM (λ s, match s with Some s => ok_or_none (evaluate evaluator s) | None => Ok None end) (bytes_iter json_strings);
              Ok (CArray (bytes_from_iter Utf8 output))
          end
      | _ => Panic
      end
  | _ => Panic
  end.

Inductive ParsedJsonValue :=
  | SerdeJsonValue (v : value)
  | SonicValue (v : sonic)
  | Fallback (s : bytes).

Definition parse_value (fallback_enabled : bool) (s : bytes) : option ParsedJsonValue :=
  match s with
  | [] => None
  | _ =>
      match sonic_from_str s with
      | Some v => Some (SonicValue v)
      | None =>
          match serde_from_str s with
          | Some v => Some (SerdeJsonValue v)
          | None => if fallback_enabled then Some (Fallback s) else None
          end
      end
  end.

(** The array of parsed values. *)
Definition spark_parse_json (fallback_enabled : bool) (args : list ColumnarValue) : Result (list (option ParsedJsonValue)) :=
  match args with
  | json :: _ =>
      json_strings ← string_array json;
      Ok ((λ s : option bytes, s ≫= parse_value fallback_enabled) <$> bytes_iter json_strings)
  | [] => Panic
  end.

(** [parse_fallback]: the texts that no parser accepts are given to the JVM. *)
Definition fallback_jsons (json_array : list (option ParsedJsonValue)) : list bytes :=
  omap (λ v, match v with Some (Fallback s) => Some s | _ => None end) json_array.

Definition parse_fallback (parse_jsons : bytes → list bytes → Result (list (option bytes))) (fallback_enabled : bool)
    (json_path : bytes) (json_array : list (option ParsedJsonValue)) : Result (list (option bytes)) :=
  if fallback_enabled then
    match fallback_jsons json_array with [] => Ok [] | jsons => parse_jsons json_path jsons end
  else Ok [].

(** One parsed value; the results of the JVM are taken in order. *)
Definition evaluate_parsed (by_serde : value → Result (option bytes)) (by_sonic : sonic → Result (option bytes))
    (st : list (option bytes) * list (option bytes)) (v : option ParsedJsonValue) : Result (list (option bytes) * list (option bytes)) :=
  let '(output, fallback_results) := st in
  match v with
  | None => Ok (output ++ [None], fallback_results)
  | Some (SerdeJsonValue v) => r ← by_serde v; Ok (output ++ [r], fallback_results)
  | Some (SonicValue v) => r ← by_sonic v; Ok (output ++ [r], fallback_results)
  | Some (Fallback _) =>
      match fallback_results with
      | r :: fallback_results => Ok (output ++ [r], fallback_results)
      | [] => Panic
      end
  end.

Definition spark_get_parsed_json_object (parse_jsons : bytes → list bytes → Result (list (option bytes))) (fallback_enabled : bool)
    (json_array : list (option ParsedJsonValue)) (path : ColumnarValue) : Result ColumnarValue :=
  match path with
  | CScalar Utf8 VNull => Ok (null_strings (length json_array))
  | CScalar Utf8 (VBytes path_string) =>
      match try_new path_string with
      | Err _ => Ok (null_strings (length json_array))
      | r =>
          evaluator ← r;
          fallback_results ← parse_fallback parse_jsons fallback_enabled path_string json_array;
          '(output, _) ← rfoldM (evaluate_parsed
            (λ v, ok_or_none (evaluate_with_value_serde_json evaluator v))
            (λ v, ok_or_none (evaluate_with_value_sonic evaluator v))) ([], fallback_results) json_array;
          Ok (CArray (bytes_from_iter Utf8 output))
      end
  | _ => Panic
  end.

(** A field at the top, for [json_tuple]. *)
Definition spark_get_parsed_json_simple_field (parse_jsons : bytes → list bytes → Result (list (option bytes))) (fallback_enabled : bool)
    (json_array : list (option ParsedJsonValue)) (field : bytes) : Result Column :=
  fallback_results ← parse_fallback parse_jsons fallback_enabled field json_array;
  '(output, _) ← rfoldM (evaluate_parsed
    (λ v, match v with
      | JObject object => match object_get object field with Some v => ok_or_none (serde_json_value_to_string v) | None => Ok None end
      | _ => Ok None
      end)
    (λ v, match as_object v with
      | Some object => match sonic_get object field with Some v => ok_or_none (sonic_value_to_string v) | None => Ok None end
      | None => Ok None
      end)) ([], fallback_results) json_array;
  Ok (bytes_from_iter Utf8 output).
End Evaluation.

(** ** The grammar of paths *)

Definition name_char (c : bytes) : Prop := c ≠ dot ∧ c ≠ open_bracket.

(** What can follow a name. *)
Definition name_end (rest : list bytes) : Prop := ∀ c, head rest = Some c → ¬ name_char c.

Definition subscript_of (index : bytes) : option HiveGetJsonObjectMatcher :=
  if decide (index = [] ∨ index = star) then Some SubscriptAll else Subscript <$> parse_usize index.

(** A matcher at the start of a path, and the rest of the path. *)
Inductive piece : list bytes → HiveGetJsonObjectMatcher → list bytes → Prop :=
  | piece_child k name rest :
      mjoin name ≠ [] → head name ≠ Some space → Forall name_char name → name_end rest →
      piece (dot :: replicate k space ++ name ++ rest) (Child (mjoin name)) rest
  | piece_subscript pre index rest m :
      (pre = [] ∨ ∃ k, pre = dot :: replicate k space) → Forall (λ c, c ≠ close_bracket) index → subscript_of (mjoin index) = Some m →
      piece (pre ++ open_bracket :: index ++ close_bracket :: rest) m rest.

Inductive json_path : list bytes → list HiveGetJsonObjectMatcher → Prop :=
  | json_path_nil : json_path [] []
  | json_path_cons cs m rest ms : piece cs m rest → json_path rest ms → json_path cs (m :: ms).

Lemma skip_spaces_spec cs : ∃ k, cs = replicate k space ++ skip_spaces cs ∧ head (skip_spaces cs) ≠ Some space.
Proof.
  induction cs as [|c cs (k & Hk & Hh)]; [by exists 0|]. cbn [skip_spaces]. case_decide as Hc.
  - exists (S k). subst c. split; [|done]. cbn [replicate app]. by f_equal.
  - exists 0. split; [done|]. by intros [= ->].
Qed.

Lemma skip_spaces_all k cs : head cs ≠ Some space → skip_spaces (replicate k space ++ cs) = cs.
Proof.
  intros Hh. induction k as [|k IH]; [|exact IH]. destruct cs as [|c cs]; [done|]. cbn [replicate app skip_spaces]. by rewrite decide_False by (by intros ->).
Qed.

Lemma child_name_all name rest n : Forall name_char name → name_end rest → child_name (name ++ rest) n = (n ++ mjoin name, rest).
Proof.
  intros Hn Hr. revert n. induction Hn as [|c name Hc Hn IH]; intros n.
  - cbn [app mjoin list_join]. rewrite app_nil_r. destruct rest as [|c rest]; [done|]. cbn [child_name]. rewrite decide_True; [done|].
    specialize (Hr c eq_refl). unfold name_char in Hr. destruct (decide (c = dot)); [by left|]. destruct (decide (c = open_bracket)); [by right|]. tauto.
  - cbn [app child_name]. destruct Hc as [H1 H2]. rewrite decide_False by naive_solver. rewrite IH. change (mjoin (c :: name)) with (c ++ mjoin name). by rewrite (assoc_L (++)).
Qed.

Lemma name_split cs : ∃ name rest, cs = name ++ rest ∧ Forall name_char name ∧ name_end rest.
Proof.
  induction cs as [|c cs (name & rest & -> & Hn & Hr)]; [by exists [], []|]. destruct (decide (c = dot ∨ c = open_bracket)) as [Hc|Hc].
  - exists [], (c :: name ++ rest). split; [done|]. split; [constructor|]. intros c' [= <-]. unfold name_char. tauto.
  - exists (c :: name), rest. split; [done|]. split; [|done]. constructor; [|done]. unfold name_char. tauto.
Qed.

Lemma index_str_all index rest n : Forall (λ c, c ≠ close_bracket) index → index_str (index ++ close_bracket :: rest) n = Ok (n ++ mjoin index, rest).
Proof.
  intros Hi. revert n. induction Hi as [|c index Hc Hi IH]; intros n.
  - cbn [app index_str]. rewrite decide_True by done. by rewrite app_nil_r.
  - cbn [app index_str]. rewrite decide_False by done. rewrite IH. change (mjoin (c :: index)) with (c ++ mjoin index). by rewrite (assoc_L (++)).
Qed.

Lemma index_split cs : (∃ index rest, cs = index ++ close_bracket :: rest ∧ Forall (λ c, c ≠ close_bracket) index) ∨ ∀ n, index_str cs n = Err InvalidJsonPath.
Proof.
  induction cs as [|c cs [(index & rest & -> & Hi)|IH]]; [by right| |].
  - left. destruct (decide (c = close_bracket)) as [->|Hc].
    + exists [], (index ++ close_bracket :: rest). by split.
    + exists (c :: index), rest. split; [done|]. by constructor.
  - destruct (decide (c = close_bracket)) as [->|Hc]; [left; exists [], cs; by split|].
    right. intros n. cbn [index_str]. by rewrite decide_False by done.
Qed.

Lemma parse_subscript_all index rest m :
  Forall (λ c, c ≠ close_bracket) index → subscript_of (mjoin index) = Some m → parse_subscript (index ++ close_bracket :: rest) = Ok (m, rest).
Proof.
  intros Hi Hm. unfold parse_subscript. rewrite index_str_all by done. cbn [mbind Result_bind app]. unfold subscript_of in Hm.
  case_decide; [by injection Hm as ->|]. destruct (parse_usize (mjoin index)); [|done]. by injection Hm as <-.
Qed.

(** What follows an opening bracket is a subscript or an error. *)
Lemma parse_subscript_spec cs :
  (∃ index rest m, cs = index ++ close_bracket :: rest ∧ Forall (λ c, c ≠ close_bracket) index ∧ subscript_of (mjoin index) = Some m) ∨
  parse_subscript cs = Err InvalidJsonPath.
Proof.
  destruct (index_split cs) as [(index & rest & -> & Hi)|He]; [|right; unfold parse_subscript; by rewrite He].
  destruct (subscript_of (mjoin index)) as [m|] eqn:Hm; [left; by exists index, rest, m|]. right.
  unfold parse_subscript. rewrite index_str_all by done. cbn [mbind Result_bind app]. unfold subscript_of in Hm. case_decide; [done|]. by destruct (parse_usize _).
Qed.

(** A step of [parse] is a dollar or a piece. *)
Definition path_step (cs : list bytes) (m : HiveGetJsonObjectMatcher) (rest : list bytes) : Prop := cs = dollar :: rest ∧ m = Root ∨ piece cs m rest.

Lemma parse_step cs m rest : path_step cs m rest → parse cs = Ok (Some (m, rest)).
Proof.
  intros [[-> ->]|Hp]; [done|]. destruct Hp as [k name rest Hne Hsp Hn Hr|pre index rest m Hpre Hi Hm].
  - cbn [parse]. rewrite decide_False, decide_True by done. destruct name as [|c name]; [done|]. rewrite skip_spaces_all by done.
    cbn [app]. rewrite decide_False by (apply Forall_cons in Hn as [[_ H] _]; done).
    change (c :: name ++ rest) with ((c :: name) ++ rest). rewrite child_name_all by done. cbn [app]. by rewrite decide_False.
  - destruct Hpre as [->|[k ->]].
    + cbn [app parse]. rewrite !decide_False, decide_True by done. by rewrite (parse_subscript_all index rest m).
    + cbn [app parse]. rewrite decide_False, decide_True by done. rewrite <- ?(assoc_L (++)). rewrite skip_spaces_all by done.
      rewrite decide_True by done. by rewrite (parse_subscript_all index rest m).
Qed.

Lemma parse_spec cs :
  cs = [] ∧ parse cs = Ok None ∨ (∃ m rest, path_step cs m rest ∧ length rest < length cs) ∨ parse cs = Err InvalidJsonPath.
Proof.
  destruct cs as [|c cs]; [by left|right]. cbn [parse].
  assert (∀ pre cs', (pre = [] ∨ ∃ k, pre = dot :: replicate k space) →
    (∃ m rest, path_step (pre ++ open_bracket :: cs') m rest ∧ length rest < length (pre ++ open_bracket :: cs')) ∨
    (m ← parse_subscript cs'; Ok (Some m)) = Err InvalidJsonPath) as Hsub.
  { intros pre cs' Hpre. destruct (parse_subscript_spec cs') as [(index & rest & m & -> & Hi & Hm)|He]; [left|right; by rewrite He].
    exists m, rest. split; [right; by constructor|]. rewrite length_app. cbn [length]. rewrite length_app. cbn [length]. lia. }
  case_decide as H1; [left; subst c; exists Root, cs; split; [by left|cbn [length]; lia]|].
  case_decide as H2.
  - subst c. destruct (skip_spaces_spec cs) as (k & Hk & Hh). destruct (skip_spaces cs) as [|b cs'] eqn:Hs; [by right|]. rewrite Hk. clear Hk Hs.
    case_decide as H3.
    + subst b. destruct (Hsub (dot :: replicate k space) cs') as [Hx|Hx]; [right; by exists k|left|by right]. exact Hx.
    + destruct (name_split (b :: cs')) as (name & rest & Hcs & Hn & Hr). rewrite Hcs, child_name_all by done. cbn [app]. case_decide as H4; [by right|left].
      exists (Child (mjoin name)), rest. split; [right; constructor; try done|].
      * destruct name as [|c name]; [done|]. injection Hcs as <- _. done.
      * cbn [length]. rewrite !length_app. lia.
  - case_decide as H3; [|by right]. subst c. apply (Hsub [] cs). by left.
Qed.

Inductive path_steps : list bytes → list HiveGetJsonObjectMatcher → Prop :=
  | path_steps_nil : path_steps [] []
  | path_steps_cons cs m rest ms : path_step cs m rest → path_steps rest ms → path_steps cs (m :: ms).

Lemma parse_loop fuel cs acc :
  length cs < fuel →
  let loop := rloop fuel (λ '(chars, matchers),
    m ← parse chars;
    match m with
    | Some (matcher, chars) => Ok (inl (chars, matchers ++ [matcher]))
    | None => Ok (inr matchers)
    end) (cs, acc) in
  (∃ ms, path_steps cs ms ∧ loop = Ok (acc ++ ms)) ∨ loop = Err InvalidJsonPath ∧ ∀ ms, ¬ path_steps cs ms.
Proof.
  revert cs acc. induction fuel as [|fuel IH]; intros cs acc Hf; [lia|]. cbn [rloop].
  destruct (parse_spec cs) as [[-> ->]|[(m & rest & Hs & Hl)|He]].
  - left. exists []. split; [constructor|]. by rewrite app_nil_r.
  - rewrite (parse_step _ _ _ Hs). cbn [mbind Result_bind]. destruct (IH rest (acc ++ [m]) ltac:(lia)) as [(ms & Hms & ->)|[-> Hno]].
    + left. exists (m :: ms). split; [by econstructor|]. by rewrite <- (assoc_L (++)).
    + right. split; [done|]. intros ms Hms. inversion Hms as [|cs' m' rest' ms' Hs' Hms']; subst.
      { destruct Hs as [[? _]|Hs]; [done|]. inversion Hs as [|pre ???? ? ? Heq]; subst. by destruct pre. }
      pose proof (parse_step _ _ _ Hs') as Hp. rewrite (parse_step _ _ _ Hs) in Hp. injection Hp as <- <-. by eapply Hno.
  - rewrite He. right. split; [done|]. intros ms Hms. inversion Hms as [|cs' m' rest' ms' Hs' Hms']; subst; [done|].
    rewrite (parse_step _ _ _ Hs') in He. discriminate.
Qed.

Lemma piece_not_root cs m rest : piece cs m rest → m ≠ Root.
Proof. intros [|pre index rest' m' _ _ Hm]; [done|]. intros ->. unfold subscript_of in Hm. case_decide; [done|]. by destruct (parse_usize _). Qed.

Lemma json_path_steps cs ms : json_path cs ms ↔ path_steps cs ms ∧ Root ∉ ms.
Proof.
  split.
  - induction 1 as [|cs m rest ms Hp Hj [IH Hr]]; [split; [constructor|set_solver]|]. split; [econstructor; [by right|done]|].
    apply not_elem_of_cons. split; [|done]. intros <-. by eapply piece_not_root.
  - intros [Hs Hr]. induction Hs as [|cs m rest ms Hs Hss IH]; [constructor|]. apply not_elem_of_cons in Hr as [Hm Hr].
    destruct Hs as [[_ ->]|Hp]; [done|]. econstructor; [done|by apply IH].
Qed.

(** C28: the path parser always terminates and accepts exactly the paths of the grammar:
    a dollar, then children (a dot, spaces and a name up to the next dot or bracket),
    subscripts (a machine-sized number in brackets) and wildcards (empty brackets or a
    star), with an optional dot and spaces before a bracket, and no further dollar; the
    matchers are those of the pieces, in order, and every other path is refused as
    invalid. *)
Theorem try_new_grammar s :
  (∀ ms, try_new s = Ok ms ↔ ∃ cs, chars s = dollar :: cs ∧ json_path cs ms) ∧
  (try_new s = Err InvalidJsonPath ∨ ∃ ms, try_new s = Ok ms).
Proof.
  unfold try_new, parse_all. destruct (parse_loop (S (length (chars s))) (chars s) [] ltac:(lia)) as [(ms & Hms & ->)|[-> Hno]]; cbn [mbind Result_bind app].
  - assert (∀ cs ms', chars s = dollar :: cs → json_path cs ms' → ms = Root :: ms') as Hall.
    { intros cs ms' Hc Hj. apply json_path_steps in Hj as [Hj _]. rewrite Hc in Hms. clear Hc. remember (dollar :: cs) as l eqn:Hl.
      inversion Hms as [|? m rest ms'' Hs Hms'']; subst; [done|].
      assert (path_step (dollar :: cs) Root cs) as Hd by by left. apply parse_step in Hd, Hs. rewrite Hd in Hs. injection Hs as <- <-. f_equal.
      clear Hd Hms. revert ms' Hj. induction Hms'' as [|cs m rest ms'' Hs Hss IH]; intros ms' Hj.
      - inversion Hj as [|? ? ? ? Hs]; [done|]; subst. apply parse_step in Hs. done.
      - inversion Hj as [|? m' rest' ms3 Hs' Hj']; subst; [by apply parse_step in Hs|]. apply parse_step in Hs, Hs'. rewrite Hs in Hs'. injection Hs' as <- <-. f_equal. by apply IH. }
    split.
    + intros ms'. split.
      * destruct ms as [|m ms]; [done|]. destruct m; try done. case_decide as Hr; [done|]. intros [= <-].
        inversion Hms as [|? ? rest ? Hs Hms']; subst. destruct Hs as [[Hc _]|Hp]; [|by apply piece_not_root in Hp]. exists rest. split; [done|]. by apply json_path_steps.
      * intros (cs & Hc & Hj). rewrite (Hall cs ms' Hc Hj). apply json_path_steps in Hj as [_ Hj]. by rewrite decide_False.
    + destruct ms as [|m ms]; [by left|]. destruct m; try by left. case_decide; [by left|right; by eexists].
  - split; [|by left]. intros ms. split; [done|]. intros (cs & Hc & Hj). exfalso. apply json_path_steps in Hj as [Hj _]. eapply (Hno (Root :: ms)). rewrite Hc. econstructor; [by left|done].
Qed.

(** ** The two evaluators *)

Definition type_of {N} (v : Value N) : JsonType :=
  match v with JNull => TNull | JBool _ => TBoolean | JNumber _ => TNumber | JString _ => TString | JArray _ => TArray | JObject _ => TObject end.

(** What the accessors say of the value they access. *)
Class SonicLaws (N : Type) `{SonicRs} := {
  view : sonic → Value N;
  view_null : view sonic_null = JNull;
  view_is_null v : sonic_is_null v = is_null (view v);
  view_type v : get_type v = type_of (view v);
  view_bool v : as_bool v = match view v with JBool b => Some b | _ => None end;
  view_str v : as_str v = match view v with JString s => Some s | _ => None end;
  view_object v : match view v with
    | JObject fields => ∃ o, as_object v = Some o ∧ ∀ k, view <$> sonic_get o k = object_get fields k
    | _ => as_object v = None
    end;
  view_array v : match view v with JArray vs => ∃ l, as_array v = Some l ∧ view <$> l = vs | _ => as_array v = None end;
  view_from_vec vs : view (sonic_from_vec vs) = JArray (view <$> vs);
}.

Section Agreement.
Context {N : Type} `{SerdeJson N} `{SonicLaws N}.

Lemma view_get o fields k : (∀ k, view <$> sonic_get o k = object_get fields k) → view (default sonic_null (sonic_get o k)) = default JNull (object_get fields k).
Proof. intros Ho. rewrite <- Ho. destruct (sonic_get o k); [done|apply view_null]. Qed.

(** A child of an item of an array. *)
Lemma view_item child item :
  view match as_object item with Some object => default sonic_null (sonic_get object child) | None => sonic_null end =
  match view item with JObject object => default JNull (object_get object child) | _ => JNull end.
Proof. pose proof (view_object item) as Ho. destruct (view item); try (rewrite Ho; apply view_null). destruct Ho as (o & -> & Ho). by apply view_get. Qed.

Lemma view_items items :
  view <$> mjoin ((λ r, match as_array r with Some array => array | None => [r] end) <$> filter (λ r, sonic_is_null r = false) items) =
  mjoin ((λ r, match r with JArray array => array | other => [other] end) <$> filter (λ r, is_null r = false) (view <$> items)).
Proof.
  induction items as [|r items IH]; [done|]. rewrite fmap_cons, !filter_cons. rewrite view_is_null. case_decide as Hr; [|done].
  rewrite !fmap_cons. change (mjoin (?x :: ?l)) with (x ++ mjoin l). rewrite fmap_app, IH. f_equal.
  pose proof (view_array r) as Ha. destruct (view r) eqn:Hv; try (rewrite Ha; cbn [fmap list_fmap]; by rewrite Hv). by destruct Ha as (l & -> & <-).
Qed.

Lemma evaluate_view m v : view (evaluate_sonic m v) = evaluate_serde_json m (view v).
Proof.
  pose proof (view_object v) as Ho. pose proof (view_array v) as Ha. destruct m as [|child|index|]; [done|..].
  - cbn [evaluate_sonic]. destruct (view v) as [| | | |vs|fields] eqn:Hv; rewrite ?Ho, ?Ha; try apply view_null.
    + destruct Ha as (l & -> & <-). cbn [evaluate_serde_json].
      rewrite <- (list_fmap_compose view). rewrite (list_fmap_ext _ (view ∘ (λ item, match as_object item with Some object => default sonic_null (sonic_get object child) | None => sonic_null end)) l)
        by (intros; symmetry; apply view_item).
      rewrite list_fmap_compose, <- view_items. destruct (mjoin _) as [|x xs]; [apply view_null|]. rewrite view_from_vec. by rewrite fmap_cons.
    + destruct Ho as (o & -> & Ho). by apply view_get.
  - cbn [evaluate_sonic]. destruct (view v) as [| | | |vs|fields] eqn:Hv; rewrite ?Ha; try apply view_null. destruct Ha as (l & -> & <-). cbn [evaluate_serde_json].
    rewrite list_lookup_fmap. destruct (l !! Z.to_nat index); [done|apply view_null].
  - cbn [evaluate_sonic]. destruct (view v) as [| | | |vs|fields] eqn:Hv; rewrite ?Ha; try apply view_null. destruct Ha as (l & -> & <-). done.
Qed.

(** The values whose text does not depend on a printer. *)
Definition same_text (v : Value N) : bool := match v with JNull | JBool _ | JString _ => true | _ => false end.

(** The evaluator over sonic values gives the text that the evaluator over serde values
    gives, for every path, when both libraries hold the same document. *)
Theorem evaluators_agree ms root :
  view (foldl (λ v m, evaluate_sonic m v) root ms) = foldl (λ v m, evaluate_serde_json m v) (view root) ms ∧
  (same_text (foldl (λ v m, evaluate_serde_json m v) (view root) ms) = true →
   evaluate_with_value_sonic ms root = evaluate_with_value_serde_json ms (view root)).
Proof.
  assert (view (foldl (λ v m, evaluate_sonic m v) root ms) = foldl (λ v m, evaluate_serde_json m v) (view root) ms) as Hv.
  { revert root. induction ms as [|m ms IH]; intros root; [done|]. cbn [foldl]. by rewrite IH, evaluate_view. }
  split; [done|]. unfold evaluate_with_value_sonic, evaluate_with_value_serde_json, sonic_value_to_string. rewrite view_type, view_bool, view_str, Hv. by destruct (foldl _ (view root) ms).
Qed.
End Agreement.

(** ** Evaluation of parsed texts *)

Section Parsed.
Context {N : Type} `{SerdeJson N} `{SonicRs}.

(** Printing a value of sonic-rs does not fail, and the empty text is not JSON. *)
Record PrinterOk : Prop := {
  po_to_string v : is_Some (sonic_to_string v);
  po_sonic_empty : sonic_from_str [] = None;
  po_serde_empty : serde_from_str (Number := N) [] = None;
}.

Lemma sonic_text_Ok v : PrinterOk → ∃ o, sonic_value_to_string v = Ok o.
Proof. intros Hp. unfold sonic_value_to_string. destruct (po_to_string Hp v) as [s Hs]. destruct (get_type v); rewrite ?Hs; by eexists. Qed.

Definition evaluate_one (evaluator : list HiveGetJsonObjectMatcher) : option (ParsedJsonValue (Number := N)) → Result (option bytes) := λ v,
  match v with
  | None => Ok None
  | Some (SerdeJsonValue v) => ok_or_none (evaluate_with_value_serde_json evaluator v)
  | Some (SonicValue v) => ok_or_none (evaluate_with_value_sonic evaluator v)
  | Some (Fallback _) => Panic
  end.

Lemma evaluate_parse evaluator s : PrinterOk → ok_or_none (evaluate evaluator s) = evaluate_one evaluator (parse_value false s).
Proof.
  intros Hp. unfold evaluate, parse_value. destruct s as [|b s]; [by rewrite (po_sonic_empty Hp), (po_serde_empty Hp)|].
  destruct (sonic_from_str (b :: s)) as [v|]; cbn [evaluate_one].
  - unfold evaluate_with_value_sonic. by destruct (sonic_text_Ok (foldl (λ v m, evaluate_sonic m v) v evaluator) Hp) as [o ->].
  - destruct (serde_from_str (b :: s)) as [v|]; cbn [evaluate_one]; [|done]. by destruct (evaluate_with_value_serde_json evaluator v).
Qed.

Lemma evaluate_parsed_all evaluator fs l output :
  Forall (λ v, evaluate_one evaluator v ≠ Panic) l →
  (st ← rfoldM (evaluate_parsed (λ v, ok_or_none (evaluate_with_value_serde_json evaluator v)) (λ v, ok_or_none (evaluate_with_value_sonic evaluator v))) (output, fs) l; Ok st.1) =
  (os ← rmapM (evaluate_one evaluator) l; Ok (output ++ os)).
Proof.
  intros Hl. revert output. induction Hl as [|v l Hv Hl IH]; intros output; [cbn; by rewrite app_nil_r|]. cbn [rfoldM rmapM].
  destruct v as [[v|v|s]|]; cbn [evaluate_parsed evaluate_one]; [| |done|].
  - destruct (ok_or_none _); try done. cbn [mbind Result_bind]. rewrite IH. destruct (rmapM _ l); try done. cbn [mbind Result_bind mret Result_ret]. by rewrite <- (assoc_L (++)).
  - destruct (ok_or_none _); try done. cbn [mbind Result_bind]. rewrite IH. destruct (rmapM _ l); try done. cbn [mbind Result_bind mret Result_ret]. by rewrite <- (assoc_L (++)).
  - cbn [mbind Result_bind]. rewrite IH. destruct (rmapM _ l); try done. cbn [mbind Result_bind mret Result_ret]. by rewrite <- (assoc_L (++)).
Qed.

Lemma parse_one evaluator s : evaluate_one evaluator (parse_value false s) ≠ Panic.
Proof.
  unfold parse_value. destruct s as [|b s]; [done|]. destruct (sonic_from_str (b :: s)) as [v|]; cbn [evaluate_one].
  - unfold evaluate_with_value_sonic, sonic_value_to_string. destruct (get_type _); try done; by destruct (sonic_to_string _).
  - destruct (serde_from_str (b :: s)) as [v|]; [|done]. cbn [evaluate_one]. unfold evaluate_with_value_serde_json. destruct (foldl _ v evaluator); try done; cbn [serde_json_value_to_string]; by destruct (serde_to_string _).
Qed.

(** C29: with the fallback to the virtual machine off, parsing a column of documents and
    extracting a path from the parsed values gives what extracting the path from the
    texts gives, errors and literals included: nulls, empty texts, texts that only one
    of the libraries reads and texts that neither reads. *)
Theorem parsed_json_object_equal parse_jsons json path :
  PrinterOk →
  (parsed ← spark_parse_json false [json]; spark_get_parsed_json_object parse_jsons false parsed path) = spark_get_json_object [json; path].
Proof.
  intros Hp. unfold spark_get_json_object, spark_parse_json, spark_get_parsed_json_object, parse_fallback. destruct (string_array json) as [c| | | |]; try done. cbn [mbind Result_bind].
  assert (length ((λ s : option bytes, s ≫= parse_value (Number := N) false) <$> bytes_iter c) = clen c) as Hlen by (unfold bytes_iter, clen; by rewrite !length_fmap).
  destruct path as [|[] v]; try done. destruct v as [| | |path_string| | | |]; rewrite ?Hlen; try done. destruct (try_new path_string) as [evaluator| | | |]; rewrite ?Hlen; try done.
  cbn [mbind Result_bind]. pose proof (evaluate_parsed_all evaluator [] ((λ s : option bytes, s ≫= parse_value (Number := N) false) <$> bytes_iter c) []) as Hall.
  assert (∀ l : list (option bytes), rmapM (λ s : option bytes, match s with Some s => ok_or_none (evaluate evaluator s) | None => Ok None end) l =
    rmapM (evaluate_one evaluator) ((λ s : option bytes, s ≫= parse_value (Number := N) false) <$> l)) as Hmap.
  { intros l. induction l as [|[s|] l IH]; [done|..]; rewrite fmap_cons; cbn [rmapM mbind option_bind].
    - rewrite evaluate_parse by done. by rewrite IH.
    - by rewrite IH. }
  rewrite Hmap.
  assert (Forall (λ v, evaluate_one evaluator v ≠ Panic) ((λ s : option bytes, s ≫= parse_value (Number := N) false) <$> bytes_iter c)) as Hf.
  { apply Forall_fmap, Forall_forall. intros [s|] _; cbn; [apply parse_one|done]. }
  specialize (Hall Hf). destruct (rfoldM _ _ _) as [[output rest]| | | |], (rmapM _ _) as [os| | | |]; cbn [mbind Result_bind fst] in *; try done.
  all: by simplify_eq.
Qed.
End Parsed.

(** ** A library of values *)

Module JsonSample.
Local Open Scope Z_scope.

Definition digits (n : Z) : bytes := str (pretty.pretty n).

Definition commas (l : list bytes) : bytes := mjoin (imap (λ i s, if decide (i = 0%nat) then s else str "," ++ s) l).

Fixpoint print (v : Value Z) : bytes :=
  match v with
  | JNull => str "null"
  | JBool b => bool_to_string b
  | JNumber n => digits n
  | JString s => [34] ++ s ++ [34]
  | JArray vs => str "[" ++ commas (print <$> vs) ++ str "]"
  | JObject fields => str "{" ++ commas ((λ '(k, v), [34] ++ k ++ [34] ++ str ":" ++ print v) <$> fields) ++ str "}"
  end.

Definition fruit (w : Z) (t : string) : Value Z := JObject [(str "weight", JNumber w); (str "type", JString (str t))].

Definition store : Value Z := JObject [
  (str "store", JObject [(str "fruit", JArray [fruit 8 "apple"; fruit 9 "pear"]); (str "open", JBool true)]);
  (str "owner", JString (str "amy"))].

(** The texts that the parsers know. *)
Definition documents : list (bytes * Value Z) := [(str "S", store); (str "null", JNull)].

#[local] Instance SampleSerde : SerdeJson Z := {
  serde_from_str := object_get ((str "N", JNumber 7) :: documents);
  serde_to_string v := Some (print v);
  number_to_string := digits;
}.

#[local] Instance SampleSonic : SonicRs := {
  sonic := Value Z;
  sonic_object := list (bytes * Value Z);
  sonic_null := JNull;
  sonic_is_null := is_null;
  get_type := type_of;
  as_bool v := match v with JBool b => Some b | _ => None end;
  as_number v := match v with JNumber n => Some (digits n) | _ => None end;
  as_str v := match v with JString s => Some s | _ => None end;
  as_object v := match v with JObject fields => Some fields | _ => None end;
  as_array v := match v with JArray vs => Some vs | _ => None end;
  sonic_get := object_get;
  sonic_from_vec := JArray;
  sonic_from_str := object_get documents;
  sonic_to_string v := Some (print v);
}.

#[local] Instance SampleLaws : SonicLaws Z.
Proof.
  refine {| view := (λ v, v) : sonic → Value Z |}; try done.
  - intros v. destruct v as [| | | | |fields]; try done. exists fields. split; [done|]. intros k. apply option_fmap_id.
  - intros v. destruct v as [| | | |vs|]; try done. exists vs. split; [done|]. apply list_fmap_id.
  - intros vs. by rewrite list_fmap_id.
Defined.

Lemma evaluators_agree_witness :
  evaluate_with_value_sonic [Child (str "owner")] store = evaluate_with_value_serde_json [Child (str "owner")] store.
Proof. exact (proj2 (evaluators_agree (N := Z) [Child (str "owner")] store) eq_refl). Defined.

Definition texts : ColumnarValue := CArray (mkColumn Utf8 [VBytes (str "S"); VNull; VBytes (str "N"); VBytes []; VBytes (str "x")]).

Lemma parsed_json_object_equal_witness :
  (parsed ← spark_parse_json false [texts]; spark_get_parsed_json_object (λ _ _, Panic) false parsed (CScalar Utf8 (VBytes (str "$.owner")))) =
  spark_get_json_object [texts; CScalar Utf8 (VBytes (str "$.owner"))].
Proof. apply (parsed_json_object_equal (λ _ _, Panic) texts). by split; [eexists|..]. Defined.

Definition get (path : string) : Result ColumnarValue := spark_get_json_object [texts; CScalar Utf8 (VBytes (str path))].
Definition got (l : list string) : Result ColumnarValue :=
  Ok (CArray (mkColumn Utf8 ((λ s, if decide (s = "-")%string then VNull else VBytes (str s)) <$> l))).

Example paths :
  get "$.owner" = got ["amy"; "-"; "-"; "-"; "-"]%string ∧ get "$.  store.  open" = got ["true"; "-"; "-"; "-"; "-"]%string ∧
  get "$" = Ok (CArray (mkColumn Utf8 [VBytes (print store); VNull; VBytes (str "7"); VNull; VNull])) ∧
  get "$.store.fruit[1].weight" = got ["9"; "-"; "-"; "-"; "-"]%string ∧ get "$.store.fruit.[*].weight" = got ["[8,9]"; "-"; "-"; "-"; "-"]%string ∧
  get "$.store.fruit[7]" = got ["-"; "-"; "-"; "-"; "-"]%string ∧ get "store" = got ["-"; "-"; "-"; "-"; "-"]%string.
Proof. by vm_compute. Qed.

Example path_errors :
  try_new (str "$.a..b") = Err InvalidJsonPath ∧ try_new (str "$.a[") = Err InvalidJsonPath ∧ try_new (str "$[-1]") = Err InvalidJsonPath ∧
  try_new (str "$[+1].$x[]") = Ok [Subscript 1; Child (str "$x"); SubscriptAll] ∧ try_new (str "$[18446744073709551616]") = Err InvalidJsonPath.
Proof. by vm_compute. Qed.

End JsonSample.
