(* ===== verification/SparkMap.v ===== *)
(** * Functions that build maps

    native-engine/datafusion-ext-functions/src/spark_map.rs: [map_from_entries],
    [map_from_arrays], [map_concat] and [str_to_map].  Each of them collects the entries of
    one row after the other into the keys, values, offsets and validity of a map array
    ([MapBuilder]); a key that comes twice in a row is an error, or its last value wins.
    [str_to_map] splits texts with the regular expressions of Java, which is an argument.

    The theorems [map_from_entries_rows], [map_concat_rows], [map_from_arrays_rows] and
    [str_to_map_rows] relate all of them to [build_row], which says what the entries of a row
    make.  [str_to_map_short_column] shows a column of length one that makes [str_to_map]
    panic.  Types have no field names, and the number of entries is below the 31 bits of
    offsets in the theorems. *)

From S2P Require Import Prelude MachineInt Arrow Columnar Chars.

Set Default Proof Using "Type".

Local Abbreviation bytes := (list Z).
Local Abbreviation Entry := (Val * Val)%type.

Inductive MapKeyDedupPolicy := Exception | LastWin.

#[export] Instance MapKeyDedupPolicy_eq_dec : EqDecision MapKeyDedupPolicy.
Proof. solve_decision. Defined.

Definition parse_map_key_dedup_policy (args : list ColumnarValue) (idx : nat) : Result MapKeyDedupPolicy :=
  match args !! idx with
  | None => Ok Exception
  | Some (CScalar Utf8 (VBytes policy)) =>
      if decide (policy = str "EXCEPTION") then Ok Exception
      else if decide (policy = str "LAST_WIN") then Ok LastWin
      else Err (Execution "unsupported map key dedup policy")
  | Some (CScalar Utf8 VNull) => Ok Exception
  | Some _ => Err (Execution "map key dedup policy arg must be string scalar")
  end.

(** ** The arrays of a map *)

(** [all_keys], [all_values], [offsets], [valids] and [next_offset]. *)
Record MapBuilder := mkBuilder {
  all_keys : list Val;
  all_values : list Val;
  offsets : list Z;
  valids : list bool;
  next_offset : Z;
}.

Definition builder_new : MapBuilder := mkBuilder [] [] [0%Z] [] 0.

Definition push_null (b : MapBuilder) : MapBuilder :=
  mkBuilder (all_keys b) (all_values b) (offsets b ++ [next_offset b]) (valids b ++ [false]) (next_offset b).

Definition push_row (row_entries : list Entry) (b : MapBuilder) : MapBuilder :=
  let next_offset := i32 (next_offset b + i32 (Z.of_nat (length row_entries))) in
  mkBuilder (all_keys b ++ row_entries.*1) (all_values b ++ row_entries.*2) (offsets b ++ [next_offset]) (valids b ++ [true]) next_offset.

(** [OffsetBuffer::new] *)
Definition ascending (offsets : list Z) : bool :=
  bool_decide (0 <= nth 0 offsets 0)%Z && forallb (λ '(a, b), bool_decide (a <= b)%Z) (zip offsets (tail offsets)).

(** [StructArray::from] of a key and a value column and [MapArray::new], with a row for each
    validity. *)
Definition builder_finish (nullable : bool) (key_field value_field : bool * DataType) (ordered : bool) (b : MapBuilder) : Result Column :=
  _ ← rassert (ascending (offsets b));
  _ ← rassert (value_field.1 || forallb (λ v, negb (is_vnull v)) (all_values b));
  _ ← rassert (bool_decide (off (offsets b) (length (offsets b) - 1) <= length (all_keys b)));
  Ok (mkColumn (Map nullable (Struct [key_field; value_field]) ordered)
    (imap (λ i (valid : bool), if valid then VMap [sub (all_keys b) (off (offsets b) i) (off (offsets b) (S i)); sub (all_values b) (off (offsets b) i) (off (offsets b) (S i))] else VNull) (valids b))).

(** ** Entries of a row *)

(** The map [row_key_to_index]. *)
Definition key_index (m : list (Val * nat)) (key : Val) : option nat := snd <$> head (filter (λ x, x.1 = key) m).

Definition insert_entry (policy : MapKeyDedupPolicy) (st : list Entry * list (Val * nat)) (e : Entry) : Result (list Entry * list (Val * nat)) :=
  let '(row_entries, row_key_to_index) := st in
  let '(key, value) := e in
  match key_index row_key_to_index key with
  | Some idx =>
      match policy with
      | Exception => Err (Execution "duplicate key found")
      | LastWin =>
          old ← index row_entries idx;
          row_entries ← set_index row_entries idx (old.1, value);
          Ok (row_entries, row_key_to_index)
      end
  | None => Ok (row_entries ++ [(key, value)], row_key_to_index ++ [(key, length row_entries)])
  end.

(** The entries of a list row, up to the first null entry, which makes the row null. *)
Fixpoint from_entries (policy : MapKeyDedupPolicy) (st : list Entry * list (Val * nat)) (entries : list Val) : Result (option (list Entry)) :=
  match entries with
  | [] => Ok (Some st.1)
  | VStruct [key; value] :: entries =>
      if is_vnull key then Err (Execution "map_from_entries does not support null map keys")
      else st ← insert_entry policy st (key, value); from_entries policy st entries
  | VNull :: _ => Ok None
  | _ :: _ => Panic
  end.

(** ** Arguments *)

Definition null_list_type : DataType := List true Null.

Definition columnar_value_to_list_array (arg : ColumnarValue) : Result Column :=
  match arg with
  | CArray array =>
      match ctype array with
      | Null => Ok (mkColumn null_list_type (replicate (clen array) VNull))
      | List _ _ => Ok array
      | _ => Err (Execution "arg must be array")
      end
  | CScalar t v =>
      match t with
      | List _ _ => Ok (mkColumn t [v])
      | _ => if is_vnull v then Ok (mkColumn null_list_type [VNull]) else Err (Execution "arg must be array")
      end
  end.

(** [get_list_array_field] *)
Definition list_field (c : Column) : Result (bool * DataType) :=
  match ctype c with List nullable item => Ok (nullable, item) | _ => Err (Execution "arg must be array") end.

Definition extract_list_entry_fields (field : bool * DataType) : Result ((bool * DataType) * (bool * DataType)) :=
  match field.2 with
  | Struct [key; value] => Ok (key, value)
  | Struct _ => Err (Execution "array entries struct must contain exactly 2 fields")
  | _ => Err (Execution "array entries must be struct")
  end.

Definition map_from_entries (args : list ColumnarValue) : Result ColumnarValue :=
  match args with
  | [] => Err (Execution "map_from_entries requires at least one argument")
  | arg :: _ =>
      entry_arrays ← columnar_value_to_list_array arg;
      field ← list_field entry_arrays;
      '(key_field, value_field) ← extract_list_entry_fields field;
      dedup_policy ← parse_map_key_dedup_policy args 1;
      b ← rfoldM (λ b v,
        match v with
        | VNull => Ok (push_null b)
        | VList entries =>
            row_entries ← from_entries dedup_policy ([], []) entries;
            Ok (match row_entries with Some row_entries => push_row row_entries b | None => push_null b end)
        | _ => Panic
        end) builder_new (cvals entry_arrays);
      c ← builder_finish false (false, key_field.2) value_field false b;
      Ok (CArray c)
  end.

(** The length that the arguments of a length other than one have. *)
Definition common_rows (lens : list nat) : nat :=
  match filter (λ len, len ≠ 1) lens with [] => 1 | lens => list_max lens end.

Definition lengths_differ (lens : list nat) (num_rows : nat) : bool := existsb (λ len, bool_decide (len ≠ 1 ∧ len ≠ num_rows)) lens.

(** The row of an argument: arguments of length one are repeated. *)
Definition row_of (c : Column) (row_idx : nat) : Result Val := index (cvals c) (if decide (clen c = 1) then 0 else row_idx).

(** The [HashSet] of the keys of a row. *)
Definition insert_new (st : list Entry * list Val) (e : Entry) : Result (list Entry * list Val) :=
  let '(row_entries, row_keys) := st in
  if is_vnull e.1 then Err (Execution "null map keys are not supported")
  else if decide (e.1 ∈ row_keys) then Err (Execution "duplicate key found")
  else Ok (row_entries ++ [e], e.1 :: row_keys).

Definition map_from_arrays (args : list ColumnarValue) : Result ColumnarValue :=
  match args with
  | [keys_arg; values_arg] =>
      key_array ← columnar_value_to_list_array keys_arg;
      value_array ← columnar_value_to_list_array values_arg;
      key_field ← list_field key_array;
      value_field ← list_field value_array;
      let lens := [clen key_array; clen value_array] in
      let num_rows := common_rows lens in
      if lengths_differ lens num_rows then Err (Execution "all arrays of map_from_arrays must have the same length")
      else
        b ← rfoldM (λ b row_idx,
          keys ← row_of key_array row_idx;
          values ← row_of value_array row_idx;
          match keys, values with
          | VNull, _ | _, VNull => Ok (push_null b)
          | VList keys, VList values =>
              if decide (length keys = length values) then
                '(row_entries, _) ← rfoldM insert_new ([], []) (zip keys values);
                Ok (push_row row_entries b)
              else Err (Execution "map_from_arrays requires key/value arrays to have the same length")
          | _, _ => Panic
          end) builder_new (seq 0 num_rows);
        c ← builder_finish false (false, key_field.2) value_field false b;
        Ok (CArray c)
  | _ => Err (Execution "map_from_arrays requires exactly 2 arguments")
  end.

(** [get_map_type]: the first map type, which all arguments have that are not null. *)
Definition find_map_type (args : list ColumnarValue) : option DataType :=
  head (filter (λ t, match t with Map _ _ _ => true | _ => false end = true) (arg_type <$> args)).

Definition get_map_type (args : list ColumnarValue) : Result DataType :=
  match args with
  | [] => Err (Execution "map_concat requires at least one map argument")
  | _ =>
      match find_map_type args with
      | None => Err (Execution "map_concat args must be map")
      | Some t =>
          if forallb (λ t', bool_decide (t' = t ∨ t' = Null)) (arg_type <$> args) then Ok t
          else Err (Execution "map_concat requires all map args to have the same type")
      end
  end.

Definition columnar_value_to_map_array (t : DataType) (arg : ColumnarValue) : Column :=
  match arg with
  | CArray array => match ctype array with Null => mkColumn t (replicate (clen array) VNull) | _ => array end
  | CScalar _ v => mkColumn t [v]
  end.

(** The entries of the maps of a row, up to the first that is null. *)
Fixpoint concat_maps (row_idx : nat) (st : list Entry * list Val) (arrays : list Column) : Result (option (list Entry)) :=
  match arrays with
  | [] => Ok (Some st.1)
  | array :: arrays =>
      v ← row_of array row_idx;
      match v with
      | VNull => Ok None
      | VMap [keys; values] => st ← rfoldM insert_new st (zip keys values); concat_maps row_idx st arrays
      | _ => Panic
      end
  end.

Definition map_concat (args : list ColumnarValue) : Result ColumnarValue :=
  t ← get_map_type args;
  let arg_arrays := columnar_value_to_map_array t <$> args in
  let num_rows := common_rows (clen <$> arg_arrays) in
  if lengths_differ (clen <$> arg_arrays) num_rows then Err (Execution "all maps of map_concat must have the same length")
  else
    match t with
    | Map nullable (Struct [key_field; value_field]) ordered =>
        b ← rfoldM (λ b row_idx,
          row_entries ← concat_maps row_idx ([], []) arg_arrays;
          Ok (match row_entries with Some row_entries => push_row row_entries b | None => push_null b end)) builder_new (seq 0 num_rows);
        c ← builder_finish nullable key_field value_field ordered b;
        Ok (CArray c)
    | _ => Err (Execution "map_concat map entries struct must contain exactly 2 fields")
    end.

(** ** Texts *)

Section StrToMap.
(** [str_to_map_split]: the parts of a text, by the regular expressions of pairs and values. *)
Context (str_to_map_split : bytes → bytes → bytes → Result (list (bytes * option bytes))).

Definition columnar_value_to_string_array (arg : ColumnarValue) (len : nat) : Result Column :=
  let array := into_array len arg in
  match ctype array with
  | Null => Ok (mkColumn Utf8 (replicate (clen array) VNull))
  | Utf8 => Ok array
  | _ => Err (Execution "str_to_map arg must be string")
  end.

(** [Array::is_null]: an array without nulls has no buffer of them. *)
Definition array_is_null (c : Column) (i : nat) : Result bool :=
  match cvals c !! i with Some v => Ok (is_vnull v) | None => if existsb is_vnull (cvals c) then Panic else Ok false end.

(** The lengths of the arguments that are arrays. *)
Definition array_lens (args : list ColumnarValue) : list nat := omap (λ arg, match arg with CArray array => Some (clen array) | CScalar _ _ => None end) args.

Definition str_to_map (args : list ColumnarValue) : Result ColumnarValue :=
  match args with
  | text :: pair_delim :: key_value_delim :: rest =>
      if decide (length args ≤ 4) then
        dedup_policy ← parse_map_key_dedup_policy args 3;
        let num_rows := common_rows (array_lens args) in
        if lengths_differ (array_lens args) num_rows then Err (Execution "all arguments of str_to_map must have the same length")
        else
          text_array ← columnar_value_to_string_array text num_rows;
          pair_delim_array ← columnar_value_to_string_array pair_delim num_rows;
          key_value_delim_array ← columnar_value_to_string_array key_value_delim num_rows;
          b ← rfoldM (λ b row_idx,
            null ← array_is_null text_array row_idx;
            null ← (if null : bool then Ok true else array_is_null pair_delim_array row_idx);
            null ← (if null : bool then Ok true else array_is_null key_value_delim_array row_idx);
            if null : bool then Ok (push_null b)
            else
              text ← index (cvals text_array) row_idx;
              pair_delim ← index (cvals pair_delim_array) row_idx;
              key_value_delim ← index (cvals key_value_delim_array) row_idx;
              match text, pair_delim, key_value_delim with
              | VBytes text, VBytes pair_delim, VBytes key_value_delim =>
                  split_entries ← str_to_map_split text pair_delim key_value_delim;
                  '(row_entries, _) ← rfoldM (insert_entry dedup_policy) ([], []) ((λ '(k, v), (VBytes k, val_bytes v)) <$> split_entries);
                  Ok (push_row row_entries b)
              | _, _, _ => Panic
              end) builder_new (seq 0 num_rows);
          c ← builder_finish false (false, Utf8) (true, Utf8) false b;
          Ok (CArray c)
      else Err (Execution "str_to_map requires 3 or 4 arguments")
  | _ => Err (Execution "str_to_map requires 3 or 4 arguments")
  end.
End StrToMap.

(** ** Rows of maps *)

(** The last value that comes with a key. *)
Definition value_of (es : list Entry) (key : Val) : Val := default VNull (snd <$> last (filter (λ e, e.1 = key) es)).

(** The keys in the order of their first occurrence, each with its last value. *)
Definition merge_entries (es : list Entry) : list Entry := (λ key, (key, value_of es key)) <$> distinct es.*1.

(** Entries that make a map. *)
Definition entries_ok (policy : MapKeyDedupPolicy) (es : list Entry) : bool :=
  forallb (λ e, negb (is_vnull e.1)) es && bool_decide (policy = LastWin ∨ NoDup es.*1).

(** The row for some entries, and for a null after them. *)
Definition build_row (row : list Entry * bool) : Val :=
  if row.2 then VNull else let es := merge_entries row.1 in VMap [es.*1; es.*2].

(** ** Entries *)

Lemma merge_snoc_new es e : e.1 ∉ es.*1 → merge_entries (es ++ [e]) = merge_entries es ++ [e].
Proof.
  intros He. unfold merge_entries. rewrite fmap_app. cbn [fmap list_fmap]. rewrite distinct_snoc, decide_False, fmap_app by done. f_equal.
  - apply list_fmap_ext. intros _ k Hk%list_elem_of_lookup_2. rewrite elem_of_distinct in Hk. unfold value_of.
    rewrite filter_app, filter_cons_False, filter_nil, app_nil_r; [done|]. by intros <-.
  - cbn [fmap list_fmap]. destruct e as [k v]. cbn [fst] in *. do 2 f_equal. unfold value_of. rewrite filter_app, filter_cons_True, filter_nil by done. by rewrite last_snoc.
Qed.

Lemma lookup_merge es i e : merge_entries es !! i = Some e → distinct es.*1 !! i = Some e.1 ∧ e.2 = value_of es e.1.
Proof. unfold merge_entries. rewrite list_lookup_fmap. intros (k & Hk & ->)%fmap_Some. by split. Qed.

Lemma merge_snoc_old es e i : distinct es.*1 !! i = Some e.1 → merge_entries (es ++ [e]) = <[i:=e]> (merge_entries es).
Proof.
  intros Hi. assert (e.1 ∈ es.*1) as He by (apply elem_of_distinct; by eapply list_elem_of_lookup_2).
  unfold merge_entries. rewrite fmap_app. cbn [fmap list_fmap]. rewrite distinct_snoc, decide_True by done.
  apply list_eq. intros j. rewrite list_lookup_fmap. destruct (decide (j = i)) as [->|Hj].
  - rewrite Hi, list_lookup_insert_eq by (rewrite length_fmap; by apply lookup_lt_Some in Hi). cbn. destruct e as [k v]. cbn [fst]. do 2 f_equal.
    unfold value_of. rewrite filter_app, filter_cons_True, filter_nil by done. by rewrite last_snoc.
  - rewrite list_lookup_insert_ne, list_lookup_fmap by done. destruct (distinct es.*1 !! j) as [k|] eqn:Hk; [|done]. cbn. do 2 f_equal.
    unfold value_of. rewrite filter_app, filter_cons_False, filter_nil, app_nil_r; [done|].
    intros E. apply Hj. eapply NoDup_lookup; [apply (NoDup_distinct es.*1)|exact Hk|]. by rewrite Hi, E.
Qed.

Lemma merge_keys es : (merge_entries es).*1 = distinct es.*1.
Proof. unfold merge_entries. rewrite <- list_fmap_compose. apply list_fmap_id. Qed.

Lemma distinct_NoDup (l : list Val) : NoDup l → distinct l = l.
Proof.
  induction l as [|x l IH] using rev_ind; [done|]. intros (Hl & Hx & _)%NoDup_app. rewrite distinct_snoc, IH by done. rewrite decide_False; [done|].
  intros Hin. apply (Hx x Hin). by left.
Qed.

Lemma merge_NoDup es : NoDup es.*1 → merge_entries es = es.
Proof.
  induction es as [|e es IH] using rev_ind; [done|]. rewrite fmap_app. intros (Hl & Hx & _)%NoDup_app. rewrite merge_snoc_new, IH; [done..|].
  intros Hin. apply (Hx _ Hin). by left.
Qed.

Lemma length_merge es : length (merge_entries es) ≤ length es.
Proof.
  unfold merge_entries. rewrite length_fmap. induction es as [|e es IH] using rev_ind; [done|]. rewrite fmap_app. cbn [fmap list_fmap].
  rewrite distinct_snoc, length_app. cbn [length]. case_decide; rewrite ?length_app; cbn [length]; lia.
Qed.

(** The index of the merged keys. *)
Definition index_of (es : list Entry) : list (Val * nat) := imap (λ i e, (e.1, i)) es.

Lemma key_index_of es key i : NoDup es.*1 → es.*1 !! i = Some key → key_index (index_of es) key = Some i.
Proof.
  unfold index_of, key_index. intros Hn Hi.
  assert (∀ f : nat → nat, snd <$> head (filter (λ x : Val * nat, x.1 = key) (imap (λ i e, (e.1, f i)) es)) = Some (f i)) as Hf; [|exact (Hf (λ i, i))].
  revert i Hi. induction es as [|e es IH]; intros i Hi f; [done|]. rewrite fmap_cons in Hn, Hi. apply NoDup_cons in Hn as [He Hn]. cbn [imap]. rewrite filter_cons. cbn [fst].
  destruct i as [|i]; [injection Hi as <-; by rewrite decide_True|]. rewrite decide_False by (intros E; apply He; rewrite E; by eapply list_elem_of_lookup_2).
  by apply (IH Hn i Hi (f ∘ S)).
Qed.

Lemma key_index_none es key : key ∉ es.*1 → key_index (index_of es) key = None.
Proof.
  unfold index_of, key_index. intros Hk. assert (∀ f : nat → nat, filter (λ x : Val * nat, x.1 = key) (imap (λ i e, (e.1, f i)) es) = []) as Hf; [|by rewrite (Hf (λ i, i))].
  induction es as [|e es IH]; intros f; [done|]. rewrite fmap_cons in Hk. apply not_elem_of_cons in Hk as [H1 H2]. cbn [imap]. rewrite filter_cons_False by (cbn [fst]; congruence). by apply (IH H2 (f ∘ S)).
Qed.

Definition entries_state (es : list Entry) : list Entry * list (Val * nat) := (merge_entries es, index_of (merge_entries es)).

Lemma insert_entry_ok policy es e :
  insert_entry policy (entries_state es) e =
  if decide (policy = LastWin ∨ e.1 ∉ es.*1) then Ok (entries_state (es ++ [e])) else Err (Execution "duplicate key found").
Proof.
  destruct e as [k v]. cbn [insert_entry entries_state fst]. destruct (decide (k ∈ es.*1)) as [Hk|Hk].
  - assert (∃ i, distinct es.*1 !! i = Some k) as [i Hi] by (by apply list_elem_of_lookup, elem_of_distinct).
    rewrite (key_index_of (merge_entries es) k i); [|by rewrite merge_keys; apply NoDup_distinct|by rewrite merge_keys].
    destruct policy; [rewrite decide_False by naive_solver; done|]. rewrite decide_True by by left.
    destruct (lookup_lt_is_Some_2 (merge_entries es) i) as [old Hold]; [unfold merge_entries; rewrite length_fmap; by apply lookup_lt_Some in Hi|].
    rewrite (proj2 (index_Ok _ _ _) Hold). cbn [mbind Result_bind]. destruct (lookup_merge _ _ _ Hold) as [Hold1 _]. rewrite Hi in Hold1. destruct old as [k' v']. injection Hold1 as <-.
    rewrite set_index_Ok by (by eapply lookup_lt_Some). cbn [mbind Result_bind]. unfold entries_state. rewrite (merge_snoc_old es (k, v) i) by done.
    do 2 f_equal. unfold index_of. apply list_eq. intros j. rewrite !list_lookup_imap. destruct (decide (j = i)) as [->|Hj].
    + rewrite Hold, list_lookup_insert_eq by (by eapply lookup_lt_Some). done.
    + by rewrite list_lookup_insert_ne by done.
  - rewrite key_index_none by (by rewrite merge_keys, elem_of_distinct). rewrite decide_True by by right. unfold entries_state.
    rewrite merge_snoc_new by done. do 2 f_equal. unfold index_of. rewrite imap_app. cbn [imap fst]. by rewrite Nat.add_0_r.
Qed.

Lemma NoDup_snoc {A} (l : list A) x : NoDup (l ++ [x]) ↔ NoDup l ∧ x ∉ l.
Proof. rewrite (comm (R := Permutation) (++)). cbn [app]. rewrite NoDup_cons. tauto. Qed.

Lemma entries_ok_snoc policy es e :
  entries_ok policy (es ++ [e]) = entries_ok policy es && negb (is_vnull e.1) && bool_decide (policy = LastWin ∨ e.1 ∉ es.*1).
Proof.
  unfold entries_ok. rewrite forallb_app. cbn [forallb]. rewrite fmap_app. cbn [fmap list_fmap]. rewrite andb_true_r.
  assert (bool_decide (policy = LastWin ∨ NoDup (es.*1 ++ [e.1])) = bool_decide (policy = LastWin ∨ NoDup es.*1) && bool_decide (policy = LastWin ∨ e.1 ∉ es.*1)) as ->.
  { rewrite <- bool_decide_and. apply bool_decide_ext. rewrite NoDup_snoc. tauto. }
  destruct (forallb _ es), (negb (is_vnull e.1)), (bool_decide (policy = LastWin ∨ NoDup _)), (bool_decide (policy = LastWin ∨ _)); done.
Qed.

Lemma entries_ok_prefix policy es es' : entries_ok policy es = false → entries_ok policy (es ++ es') = false.
Proof.
  intros He. induction es' as [|e es' IH] using rev_ind; [by rewrite app_nil_r|]. by rewrite (assoc_L (++)), entries_ok_snoc, IH.
Qed.

(** [r] is an error of the program exactly when the rows do not make maps. *)
Definition ok_or_error {A} (ok : bool) (x : A) (r : Result A) : Prop := if ok then r = Ok x else ∃ msg, r = Err (Execution msg).

(** What the items of a list row say: entries up to the first null. *)
Fixpoint entries_of (vs : list Val) : list Entry * bool :=
  match vs with
  | VStruct [key; value] :: vs => let '(es, null) := entries_of vs in ((key, value) :: es, null)
  | [] => ([], false)
  | _ => ([], true)
  end.

Definition entry_item (v : Val) : Prop := v = VNull ∨ ∃ key value, v = VStruct [key; value].

Definition merged (row : list Entry * bool) : option (list Entry) := if row.2 then None else Some (merge_entries row.1).

Lemma from_entries_from policy es vs :
  entries_ok policy es = true → Forall entry_item vs →
  ok_or_error (entries_ok policy (es ++ (entries_of vs).1)) (merged (es ++ (entries_of vs).1, (entries_of vs).2)) (from_entries policy (entries_state es) vs).
Proof.
  intros Hes Hvs. revert es Hes. induction Hvs as [|v vs Hv Hvs IH]; intros es Hes.
  { cbn. rewrite app_nil_r, Hes. exact eq_refl. }
  destruct Hv as [->|(key & value & ->)]; [cbn; rewrite app_nil_r, Hes; exact eq_refl|]. cbn [entries_of from_entries]. destruct (entries_of vs) as [es' null] eqn:He. cbn [fst snd] in *.
  change ((key, value) :: es') with ([(key, value)] ++ es'). rewrite (assoc_L (++)). pose proof (entries_ok_snoc policy es (key, value)) as Hsnoc. rewrite Hes in Hsnoc. cbn [fst andb] in Hsnoc.
  destruct (is_vnull key) eqn:Hk; cbn [negb andb] in Hsnoc.
  { rewrite entries_ok_prefix by done. by eexists. }
  rewrite insert_entry_ok. cbn [fst]. destruct (decide (policy = LastWin ∨ key ∉ es.*1)) as [Hd|Hd].
  - cbn [mbind Result_bind]. rewrite bool_decide_eq_true_2 in Hsnoc by done. by apply IH.
  - rewrite bool_decide_eq_false_2 in Hsnoc by done. rewrite entries_ok_prefix by done. by eexists.
Qed.

Lemma from_entries_ok policy vs :
  Forall entry_item vs → ok_or_error (entries_ok policy (entries_of vs).1) (merged (entries_of vs)) (from_entries policy ([], []) vs).
Proof. intros Hvs. pose proof (from_entries_from policy [] vs) as H. cbn [app] in H. rewrite <- surjective_pairing in H. apply H; [|done]. unfold entries_ok. cbn. apply bool_decide_eq_true. right. constructor. Qed.

Lemma insert_entries_ok policy es done_es :
  entries_ok policy done_es = true → Forall (λ e, is_vnull e.1 = false) es →
  ok_or_error (entries_ok policy (done_es ++ es)) (entries_state (done_es ++ es)) (rfoldM (insert_entry policy) (entries_state done_es) es).
Proof.
  intros Hes Hn. revert done_es Hes. induction Hn as [|e es Hk Hn IH]; intros done_es Hes; [cbn; rewrite app_nil_r, Hes; exact eq_refl|].
  cbn [rfoldM]. change (e :: es) with ([e] ++ es). rewrite (assoc_L (++)). pose proof (entries_ok_snoc policy done_es e) as Hsnoc. rewrite Hes, Hk in Hsnoc. cbn [negb andb] in Hsnoc.
  rewrite insert_entry_ok. destruct (decide (policy = LastWin ∨ e.1 ∉ done_es.*1)) as [Hd|Hd].
  - cbn [mbind Result_bind]. rewrite bool_decide_eq_true_2 in Hsnoc by done. by apply IH.
  - rewrite bool_decide_eq_false_2 in Hsnoc by done. rewrite entries_ok_prefix by done. by eexists.
Qed.

(** The set of keys refuses what the exception policy refuses. *)
Lemma insert_new_all es done_es :
  entries_ok Exception done_es = true →
  ok_or_error (entries_ok Exception (done_es ++ es)) (done_es ++ es, reverse (done_es ++ es).*1) (rfoldM insert_new (done_es, reverse done_es.*1) es).
Proof.
  revert done_es. induction es as [|e es IH]; intros done_es Hes; [cbn; rewrite app_nil_r, Hes; exact eq_refl|].
  cbn [rfoldM]. change (e :: es) with ([e] ++ es). rewrite (assoc_L (++)). pose proof (entries_ok_snoc Exception done_es e) as Hsnoc. rewrite Hes in Hsnoc. cbn [andb] in Hsnoc.
  cbn [insert_new]. destruct (is_vnull e.1); cbn [negb andb] in Hsnoc; [rewrite entries_ok_prefix by done; by eexists|].
  destruct (decide (e.1 ∈ reverse done_es.*1)) as [Hd|Hd].
  - rewrite bool_decide_eq_false_2 in Hsnoc by (intros [Hx|Hx]; [discriminate|apply Hx; revert Hd; by rewrite elem_of_reverse]). rewrite entries_ok_prefix by done. by eexists.
  - cbn [mbind Result_bind]. rewrite bool_decide_eq_true_2 in Hsnoc by (right; intros Hin; apply Hd; by rewrite elem_of_reverse). specialize (IH (done_es ++ [e]) Hsnoc).
    assert (reverse (done_es ++ [e]).*1 = e.1 :: reverse done_es.*1) as Hr by by rewrite fmap_app, reverse_app.
    rewrite Hr in IH. exact IH.
Qed.

Lemma exception_merge es : entries_ok Exception es = true → merge_entries es = es.
Proof. unfold entries_ok. intros [_ H%bool_decide_eq_true]%andb_prop. apply merge_NoDup. naive_solver. Qed.

(** ** Rows of a map array *)

Definition push (r : option (list Entry)) (b : MapBuilder) : MapBuilder := match r with Some es => push_row es b | None => push_null b end.

Definition map_row (r : option (list Entry)) : Val := match r with Some es => VMap [es.*1; es.*2] | None => VNull end.

Lemma merged_row row : map_row (merged row) = build_row row.
Proof. destruct row as [es []]; done. Qed.

(** The rows that a builder holds. *)
Definition rows_of (b : MapBuilder) : list Val :=
  imap (λ i (valid : bool), if valid then VMap [sub (all_keys b) (off (offsets b) i) (off (offsets b) (S i)); sub (all_values b) (off (offsets b) i) (off (offsets b) (S i))] else VNull) (valids b).

Record builder_ok (b : MapBuilder) : Prop := {
  bo_offsets : length (offsets b) = S (length (valids b));
  bo_last : nth (length (valids b)) (offsets b) 0%Z = next_offset b;
  bo_next : next_offset b = Z.of_nat (length (all_keys b));
  bo_values : length (all_values b) = length (all_keys b);
  bo_bound : Forall (λ o, (0 <= o <= next_offset b)%Z) (offsets b);
  bo_ascending : ∀ i, S i < length (offsets b) → (nth i (offsets b) 0 <= nth (S i) (offsets b) 0)%Z;
}.

Lemma builder_new_ok : builder_ok builder_new.
Proof. split; try done; [by apply Forall_singleton|cbn; lia]. Qed.

Lemma nth_snoc {A} (l : list A) x d i : nth i (l ++ [x]) d = if decide (i < length l) then nth i l d else if decide (i = length l) then x else d.
Proof.
  case_decide; [by apply app_nth1|]. rewrite app_nth2 by lia. case_decide as Hi; [by rewrite Hi, Nat.sub_diag|].
  rewrite nth_overflow; [done|]. cbn [length]. lia.
Qed.

Lemma sub_app_le {A} (l1 l2 : list A) a b : b ≤ length l1 → sub (l1 ++ l2) a b = sub l1 a b.
Proof.
  intros Hb. unfold sub. destruct (decide (b ≤ a)).
  - assert (b - a = 0) as -> by lia. done.
  - by rewrite drop_app_le, take_app_le by (rewrite ?length_drop; lia).
Qed.

Lemma push_ok r b :
  builder_ok b → (Z.of_nat (length (all_keys b) + match r with Some es => length es | None => 0 end) < 2 ^ 31)%Z →
  builder_ok (push r b) ∧ rows_of (push r b) = rows_of b ++ [map_row r] ∧
  all_keys (push r b) = all_keys b ++ (match r with Some es => es | None => [] end).*1 ∧
  all_values (push r b) = all_values b ++ (match r with Some es => es | None => [] end).*2.
Proof.
  intros [Ho Hl Hn Hv Hb Ha] Hlt. set (es := match r with Some es => es | None => [] end).
  assert (∃ valid, push r b = mkBuilder (all_keys b ++ es.*1) (all_values b ++ es.*2) (offsets b ++ [(next_offset b + Z.of_nat (length es))%Z]) (valids b ++ [valid]) (next_offset b + Z.of_nat (length es))
    ∧ valid = match r with Some _ => true | None => false end) as (valid & -> & Hvalid).
  { eexists. split; [|done]. destruct r as [es'|]; cbn [push]; [|unfold push_null, es; cbn; by rewrite !app_nil_r, Z.add_0_r].
    unfold push_row, es. unfold i32. rewrite (wraps_id 32 (Z.of_nat _)), wraps_id by (done || unfold in_s; lia). done. }
  assert (Z.of_nat (length es) = (Z.of_nat (length (all_keys b) + length es) - next_offset b)%Z) as Hes by (rewrite Hn; lia).
  split.
  { split; cbn [offsets valids next_offset all_keys all_values].
    - rewrite !length_app. cbn [length]. lia.
    - rewrite nth_snoc, length_app. cbn [length]. rewrite decide_False, decide_True by lia. done.
    - rewrite length_app, length_fmap. lia.
    - rewrite !length_app, !length_fmap. lia.
    - apply Forall_app. split; [|apply Forall_singleton; lia]. eapply Forall_impl; [exact Hb|]. cbn. lia.
    - intros i Hi. rewrite !nth_snoc. rewrite length_app in Hi. cbn [length] in Hi. repeat case_decide; try lia; [by apply Ha; lia|].
      assert (i = length (valids b)) as -> by lia. rewrite Hl. lia. }
  split; [|done]. unfold rows_of. cbn [offsets valids all_keys all_values]. rewrite imap_app. f_equal.
  - apply imap_ext. intros i v Hi. apply lookup_lt_Some in Hi. destruct v; [|done]. unfold off. rewrite !nth_snoc, !decide_True by lia.
    assert (Z.to_nat (nth (S i) (offsets b) 0%Z) ≤ length (all_keys b)) as Hle.
    { rewrite Forall_forall in Hb. specialize (Hb (nth (S i) (offsets b) 0%Z)). rewrite Hn in Hb.
      assert (nth (S i) (offsets b) 0%Z ∈ offsets b) as Hin by (apply list_elem_of_In, nth_In; lia). specialize (Hb Hin). lia. }
    by rewrite !sub_app_le by lia.
  - cbn [imap]. rewrite Hvalid. destruct r as [es'|]; [|done]. cbn [map_row]. unfold off. rewrite !nth_snoc, Nat.add_0_r.
    rewrite decide_True, decide_False, decide_True by lia. rewrite Hl. unfold sub.
    assert (Z.to_nat (next_offset b) = length (all_keys b)) as Hnx by lia. rewrite Hnx, drop_app_length, <- Hv, drop_app_length, Hv.
    unfold es in *. rewrite Hn. assert (Z.to_nat (Z.of_nat (length (all_keys b)) + Z.of_nat (length es')) - length (all_keys b) = length es') as -> by lia.
    rewrite !take_ge by (rewrite length_fmap; lia). done.
Qed.

Lemma nth_zip_tail (l : list Z) a b : (a, b) ∈ zip l (tail l) → ∃ i, S i < length l ∧ a = nth i l 0%Z ∧ b = nth (S i) l 0%Z.
Proof.
  intros [i Hi]%list_elem_of_lookup. apply lookup_zip_Some in Hi as [Ha Hb]. rewrite lookup_tail in Hb. exists i.
  split; [by apply lookup_lt_Some in Hb|]. by rewrite !nth_lookup, Ha, Hb.
Qed.

Lemma finish_ok nullable kf vf ordered b :
  builder_ok b → (vf.1 = false → VNull ∉ all_values b) →
  builder_finish nullable kf vf ordered b = Ok (mkColumn (Map nullable (Struct [kf; vf]) ordered) (rows_of b)).
Proof.
  intros [Ho Hl Hn Hv Hb Ha] Hnull. unfold builder_finish.
  assert (ascending (offsets b) = true) as ->.
  { unfold ascending. apply andb_true_intro. split.
    - apply bool_decide_eq_true. rewrite Forall_forall in Hb. apply (Hb (nth 0 (offsets b) 0%Z)), list_elem_of_In, nth_In. lia.
    - apply forallb_forall. intros [x y] Hxy%list_elem_of_In. apply nth_zip_tail in Hxy as (i & Hi & -> & ->). apply bool_decide_eq_true. by apply Ha. }
  cbn [rassert mbind Result_bind]. assert (vf.1 || forallb (λ v, negb (is_vnull v)) (all_values b) = true) as ->.
  { destruct vf.1; [done|]. apply forallb_forall. intros v Hin%list_elem_of_In. destruct v; try done. by apply Hnull in Hin. }
  cbn [rassert mbind Result_bind]. rewrite bool_decide_eq_true_2; [done|]. rewrite Ho. cbn [Nat.sub]. rewrite Nat.sub_0_r. unfold off. rewrite Hl. lia.
Qed.

Lemma merge_values es v : v ∈ (merge_entries es).*2 → v ∈ es.*2.
Proof.
  unfold merge_entries. rewrite <- list_fmap_compose. intros (k & -> & Hk)%list_elem_of_fmap. apply (elem_of_distinct es.*1 k), list_elem_of_fmap in Hk as (e & -> & He).
  cbn. unfold value_of. destruct (last (filter (λ e', e'.1 = e.1) es)) as [e'|] eqn:Hlast.
  - rewrite last_lookup in Hlast. apply list_elem_of_lookup_2, list_elem_of_filter in Hlast as [_ He']. cbn. apply list_elem_of_fmap. by exists e'.
  - apply last_None in Hlast. assert (e ∈ filter (λ e', e'.1 = e.1) es) as Hin by (by apply list_elem_of_filter). rewrite Hlast in Hin. by apply not_elem_of_nil in Hin.
Qed.

Lemma rmapM_ok_or_error {A B} (ok : A → bool) (g : A → B) f l :
  (∀ x, x ∈ l → ok_or_error (ok x) (g x) (f x)) → ok_or_error (forallb ok l) (g <$> l) (rmapM f l).
Proof.
  induction l as [|x l IH]; intros Hf; [done|]. cbn [rmapM forallb]. pose proof (Hf x ltac:(by left)) as Hx. specialize (IH (λ y Hy, Hf y ltac:(by right))).
  unfold ok_or_error in *. destruct (ok x); cbn [andb]; [|destruct Hx as [msg ->]; by eexists]. rewrite Hx. cbn [mbind Result_bind].
  destruct (forallb ok l); [by rewrite IH|]. destruct IH as [msg ->]. by eexists.
Qed.

Definition entries_size (r : option (list Entry)) : nat := match r with Some es => length es | None => 0 end.

Lemma push_all rs b :
  builder_ok b → (Z.of_nat (length (all_keys b) + sum_list (entries_size <$> rs)) < 2 ^ 31)%Z →
  builder_ok (foldl (λ b r, push r b) b rs) ∧ rows_of (foldl (λ b r, push r b) b rs) = rows_of b ++ (map_row <$> rs) ∧
  ∀ v, v ∈ all_values (foldl (λ b r, push r b) b rs) → v ∈ all_values b ∨ ∃ es, Some es ∈ rs ∧ v ∈ es.*2.
Proof.
  revert b. induction rs as [|r rs IH]; intros b Hb Hsz; [cbn; rewrite app_nil_r; split; [done|split; [done|by left]]|].
  rewrite fmap_cons in Hsz. change (sum_list (?x :: ?l)) with (x + sum_list l) in Hsz.
  destruct (push_ok r b Hb) as (Hb' & Hr' & Hk & Hvs); [destruct r; cbn [entries_size] in Hsz; lia|].
  destruct (IH (push r b) Hb') as (Hb2 & Hr2 & Hv2); [rewrite Hk, length_app, length_fmap; destruct r; cbn [entries_size length] in *; lia|].
  cbn [foldl]. split; [done|]. split; [rewrite Hr2, Hr'; by rewrite <- (assoc_L (++))|].
  intros v Hv. destruct (Hv2 v Hv) as [Hin|(es & Hes & Hin)]; [|right; exists es; split; [by right|done]].
  rewrite Hvs in Hin. apply elem_of_app in Hin as [Hin|Hin]; [by left|right]. destruct r as [es|]; [|by apply not_elem_of_nil in Hin]. exists es. split; [by left|done].
Qed.

Lemma loop_push {A} (f : A → Result (option (list Entry))) b l :
  rfoldM (λ b x, r ← f x; Ok (push r b)) b l = (rs ← rmapM f l; Ok (foldl (λ b r, push r b) b rs)).
Proof.
  revert b. induction l as [|x l IH]; intros b; [done|]. cbn [rfoldM rmapM]. destruct (f x); try done. cbn [mbind Result_bind]. rewrite IH.
  by destruct (rmapM f l).
Qed.

Lemma rfoldM_ext {A S} (f g : S → A → Result S) s l : (∀ s x, x ∈ l → f s x = g s x) → rfoldM f s l = rfoldM g s l.
Proof.
  revert s. induction l as [|x l IH]; intros s Hfg; [done|]. cbn [rfoldM]. rewrite Hfg by (by left). destruct (g s x); try done. cbn [mbind Result_bind]. apply IH. intros; apply Hfg. by right.
Qed.

(** The loop over the rows, each of which gives entries and perhaps a null. *)
Lemma build_rows {A} (ok : A → bool) (row : A → list Entry * bool) (f : A → Result (option (list Entry))) body nullable kf vf ordered l :
  (∀ b x, x ∈ l → body b x = (r ← f x; Ok (push r b))) →
  (∀ x, x ∈ l → ok_or_error (ok x) (merged (row x)) (f x)) →
  (vf.1 = false → ∀ x, x ∈ l → VNull ∉ (row x).1.*2) →
  (Z.of_nat (sum_list ((λ x, length (row x).1) <$> l)) < 2 ^ 31)%Z →
  ok_or_error (forallb ok l) (CArray (mkColumn (Map nullable (Struct [kf; vf]) ordered) ((λ x, build_row (row x)) <$> l)))
    (b ← rfoldM body builder_new l; c ← builder_finish nullable kf vf ordered b; Ok (CArray c)).
Proof.
  intros Hbody Hf Hnull Hsz. rewrite (rfoldM_ext _ _ _ _ Hbody), loop_push. pose proof (rmapM_ok_or_error _ _ _ _ Hf) as Hrs. unfold ok_or_error in *.
  destruct (forallb _ l) eqn:Hok; [|destruct Hrs as [msg ->]; by eexists]. rewrite Hrs. cbn [mbind Result_bind].
  destruct (push_all ((λ x, merged (row x)) <$> l) builder_new builder_new_ok) as (Hb & Hr & Hv).
  { cbn [all_keys builder_new length Nat.add]. rewrite <- list_fmap_compose.
    assert (sum_list ((entries_size ∘ λ x, merged (row x)) <$> l) ≤ sum_list ((λ x, length (row x).1) <$> l)); [|lia].
    clear. induction l as [|x l IH]; [done|]. rewrite !fmap_cons. change (sum_list (?x :: ?l)) with (x + sum_list l).
    assert ((entries_size ∘ λ x, merged (row x)) x ≤ length (row x).1); [|lia]. cbn. unfold merged. destruct (row x) as [es []]; cbn [fst snd entries_size]; [lia|apply length_merge]. }
  rewrite finish_ok; [|done|].
  - cbn [mbind Result_bind]. rewrite Hr. cbn [builder_new rows_of valids imap app]. do 3 f_equal. rewrite <- list_fmap_compose. apply list_fmap_ext. intros _ x _. cbn. apply merged_row.
  - intros Hvf Hin. destruct (Hv _ Hin) as [Hin'|(es & Hes & Hin')]; [by apply not_elem_of_nil in Hin'|]. apply list_elem_of_fmap in Hes as (x & Hes & Hx).
    unfold merged in Hes. destruct (row x) as [es' null] eqn:Hrow. destruct null; [done|]. injection Hes as ->. apply merge_values in Hin'. specialize (Hnull Hvf x Hx). by rewrite Hrow in Hnull.
Qed.

(** ** The functions *)

(** A row of a list of entries, whose values are not null where the type says so. *)
Definition entries_row (value_nullable : bool) (v : Val) : Prop :=
  v = VNull ∨ ∃ vs, v = VList vs ∧ Forall entry_item vs ∧ (value_nullable = false → VNull ∉ (entries_of vs).1.*2).

Definition row_entries (v : Val) : list Entry * bool := match v with VList vs => entries_of vs | _ => ([], true) end.

Definition map_column (key_type : DataType) (value_field : bool * DataType) (rows : list Val) : ColumnarValue :=
  CArray (mkColumn (Map false (Struct [(false, key_type); value_field]) false) rows).

(** The number of entries of all rows. *)
Definition count_entries {A} (row : A → list Entry * bool) (l : list A) : Z := Z.of_nat (sum_list ((λ x, length (row x).1) <$> l)).

(** C27: map_from_entries builds row by row the map of the entries, in the order of
    their first keys: a null list or a null entry gives null, the policy LAST_WIN gives
    each key its last value, and it fails exactly when an entry that is read has a null
    key or, by the policy EXCEPTION, a key appears twice in a row. *)
Theorem map_from_entries_rows policy nb kf vf rows rest :
  parse_map_key_dedup_policy (CArray (mkColumn (List nb (Struct [kf; vf])) rows) :: rest) 1 = Ok policy →
  Forall (entries_row vf.1) rows → (count_entries row_entries rows < 2 ^ 31)%Z →
  ok_or_error (forallb (λ v, entries_ok policy (row_entries v).1) rows)
    (map_column kf.2 vf ((λ v, build_row (row_entries v)) <$> rows))
    (map_from_entries (CArray (mkColumn (List nb (Struct [kf; vf])) rows) :: rest)).
Proof.
  intros Hpol Hrows Hsz. unfold map_from_entries. rewrite Hpol. cbn [columnar_value_to_list_array ctype list_field extract_list_entry_fields mbind Result_bind fst snd cvals].
  rewrite Forall_forall in Hrows.
  apply (build_rows (λ v, entries_ok policy (row_entries v).1) row_entries (λ v, match v with VNull => Ok None | VList vs => from_entries policy ([], []) vs | _ => Panic end)); [| | |done].
  - intros b v Hv. destruct (Hrows v Hv) as [->|(vs & -> & _)]; [done|]. by destruct (from_entries policy ([], []) vs) as [[]| | | |].
  - intros v Hv. destruct (Hrows v Hv) as [->|(vs & -> & Hvs & _)]; [|by apply from_entries_ok]. unfold entries_ok. cbn.
    rewrite bool_decide_eq_true_2 by (right; constructor). done.
  - intros Hvf v Hv. destruct (Hrows v Hv) as [->|(vs & -> & _ & Hn)]; [cbn; apply not_elem_of_nil|]. by apply Hn.
Qed.

(** ** Rows of several arguments *)

(** The row of an argument of the common length or of length one. *)
Definition arg_row (c : Column) (i : nat) : Val := nth (if decide (clen c = 1) then 0 else i) (cvals c) VNull.

Lemma common_length lens n len : lengths_differ lens n = false → len ∈ lens → len = 1 ∨ len = n.
Proof.
  unfold lengths_differ. intros Hd Hin. destruct (decide (len ≠ 1 ∧ len ≠ n)) as [Hne|Hne]; [|lia].
  assert (existsb (λ len, bool_decide (len ≠ 1 ∧ len ≠ n)) lens = true); [|congruence]. apply existsb_exists. exists len. split; [by apply list_elem_of_In|by apply bool_decide_eq_true].
Qed.

Lemma row_of_ok c n i : clen c = 1 ∨ clen c = n → i < n → row_of c i = Ok (arg_row c i) ∧ arg_row c i ∈ cvals c.
Proof.
  intros Hlen Hi. unfold row_of, arg_row, clen in *. set (j := if decide (length (cvals c) = 1) then 0 else i).
  assert (j < length (cvals c)) as Hj by (unfold j; case_decide; lia). destruct (lookup_lt_is_Some_2 _ _ Hj) as [v Hv].
  rewrite (proj2 (index_Ok _ _ _) Hv), nth_lookup, Hv. split; [done|]. by eapply list_elem_of_lookup_2.
Qed.

(** The entries of a row of keys and a row of values. *)
Definition zipped_entries (keys values : Val) : list Entry * bool :=
  match keys, values with VList keys, VList values => (zip keys values, false) | _, _ => ([], true) end.

Definition list_item (v : Val) : Prop := v = VNull ∨ ∃ vs, v = VList vs.

(** Keys and values of a row have the same number. *)
Definition pairs_ok (keys values : Val) : bool :=
  match keys, values with VList keys, VList values => bool_decide (length keys = length values) | _, _ => true end.

Lemma entries_ok_nil policy : entries_ok policy [] = true.
Proof. unfold entries_ok. cbn. apply bool_decide_eq_true. right. constructor. Qed.

Lemma insert_new_from_nil es :
  ok_or_error (entries_ok Exception es) (es, reverse es.*1) (rfoldM insert_new ([], []) es).
Proof. apply (insert_new_all es []), entries_ok_nil. Qed.

Lemma zip_snd {A B} (l1 : list A) (l2 : list B) x : x ∈ (zip l1 l2).*2 → x ∈ l2.
Proof. intros ([a b] & -> & Hin)%list_elem_of_fmap. by apply elem_of_zip_r in Hin. Qed.

(** Map_from_arrays pairs the keys and the values of each row, null when one of the two
    is null, and fails exactly on a null key, a repeated key or lists of different
    lengths. *)
Theorem map_from_arrays_rows nb kt vnb vt keys values n :
  let kc := mkColumn (List nb kt) keys in
  let vc := mkColumn (List vnb vt) values in
  let row i := zipped_entries (arg_row kc i) (arg_row vc i) in
  common_rows [clen kc; clen vc] = n → lengths_differ [clen kc; clen vc] n = false →
  Forall list_item keys → Forall list_item values → (vnb = false → ∀ vs, VList vs ∈ values → VNull ∉ vs) →
  (count_entries row (seq 0 n) < 2 ^ 31)%Z →
  ok_or_error (forallb (λ i, pairs_ok (arg_row kc i) (arg_row vc i) && entries_ok Exception (row i).1) (seq 0 n))
    (map_column kt (vnb, vt) ((λ i, build_row (row i)) <$> seq 0 n))
    (map_from_arrays [CArray kc; CArray vc]).
Proof.
  intros kc vc row Hn Hd Hk Hv Hnull Hsz. unfold map_from_arrays. cbn [columnar_value_to_list_array ctype list_field mbind Result_bind kc vc].
  fold kc vc. cbv zeta. rewrite Hn, Hd. rewrite Forall_forall in Hk, Hv.
  assert (∀ i, i ∈ seq 0 n → (row_of kc i = Ok (arg_row kc i) ∧ list_item (arg_row kc i)) ∧ row_of vc i = Ok (arg_row vc i) ∧ arg_row vc i ∈ values) as Hrow.
  { intros i Hi%elem_of_seq. destruct (row_of_ok kc n i) as [-> H1]; [apply (common_length _ _ _ Hd); set_solver|lia|].
    destruct (row_of_ok vc n i) as [-> H2]; [apply (common_length _ _ _ Hd); set_solver|lia|]. split; [split; [done|by apply Hk]|done]. }
  apply (build_rows (λ i, pairs_ok (arg_row kc i) (arg_row vc i) && entries_ok Exception (row i).1) row
    (λ i, match arg_row kc i, arg_row vc i with
      | VList keys, VList values =>
          if decide (length keys = length values) then '(row_entries, _) ← rfoldM insert_new ([], []) (zip keys values); Ok (Some row_entries)
          else Err (Execution "map_from_arrays requires key/value arrays to have the same length")
      | _, _ => Ok None
      end)); [| | |done].
  - intros b i Hi. destruct (Hrow i Hi) as [[-> Hki] [-> Hvi]]. cbn [mbind Result_bind]. apply Hv in Hvi.
    destruct Hki as [->|[ks ->]]; [done|]. destruct Hvi as [->|[vs ->]]; [done|]. case_decide; [|done]. by destruct (rfoldM _ _ _) as [[]| | | |].
  - intros i Hi. destruct (Hrow i Hi) as [[_ Hki] [_ Hvi]]. apply Hv in Hvi. unfold row.
    destruct Hki as [->|[ks ->]]; [cbn [pairs_ok zipped_entries fst andb]; rewrite entries_ok_nil; exact eq_refl|]. destruct Hvi as [->|[vs ->]]; [cbn [pairs_ok zipped_entries fst andb]; rewrite entries_ok_nil; exact eq_refl|]. cbn [pairs_ok zipped_entries fst].
    destruct (decide (length ks = length vs)) as [Hl|Hl]; [rewrite bool_decide_eq_true_2 by done|rewrite bool_decide_eq_false_2 by done; by eexists].
    cbn [andb]. pose proof (insert_new_from_nil (zip ks vs)) as Hins. unfold ok_or_error in *. destruct (entries_ok Exception (zip ks vs)) eqn:Hok; [|destruct Hins as [msg ->]; by eexists].
    rewrite Hins. cbn [mbind Result_bind]. unfold merged. cbn [fst snd]. by rewrite exception_merge.
  - intros Hvf i Hi Hin. destruct (Hrow i Hi) as [_ [_ Hvi]]. unfold row in Hin. destruct (arg_row kc i); try by apply not_elem_of_nil in Hin.
    destruct (arg_row vc i); try by apply not_elem_of_nil in Hin. apply zip_snd in Hin. by eapply Hnull.
Qed.

(** The entries of the maps of a row, up to a null. *)
Fixpoint maps_entries (maps : list Val) : list Entry * bool :=
  match maps with
  | VMap [keys; values] :: maps => let '(es, null) := maps_entries maps in (zip keys values ++ es, null)
  | [] => ([], false)
  | _ => ([], true)
  end.

Definition map_item (value_nullable : bool) (v : Val) : Prop :=
  v = VNull ∨ ∃ keys values, v = VMap [keys; values] ∧ (value_nullable = false → VNull ∉ values).

Lemma concat_maps_ok vnb n i arrays es :
  Forall (λ c, (clen c = 1 ∨ clen c = n) ∧ Forall (map_item vnb) (cvals c)) arrays → i < n → entries_ok Exception es = true →
  let row := maps_entries ((λ c, arg_row c i) <$> arrays) in
  ok_or_error (entries_ok Exception (es ++ row.1)) (if row.2 then None else Some (es ++ row.1)) (concat_maps i (es, reverse es.*1) arrays).
Proof.
  intros Ha Hi. revert es. induction Ha as [|c arrays [Hlen Hc] Ha IH]; intros es Hes; cbv zeta; [cbn; by rewrite app_nil_r, Hes|].
  rewrite fmap_cons. cbn [concat_maps]. destruct (row_of_ok c n i Hlen Hi) as [-> Hin]. rewrite Forall_forall in Hc. cbn [mbind Result_bind].
  destruct (Hc _ Hin) as [->|(ks & vs & -> & _)]; [cbn; by rewrite app_nil_r, Hes|]. cbn [maps_entries].
  specialize (IH (es ++ zip ks vs)). destruct (maps_entries _) as [es' null]. cbn [fst snd] in *. pose proof (insert_new_all (zip ks vs) es Hes) as Hins.
  unfold ok_or_error in Hins at 1. destruct (entries_ok Exception (es ++ zip ks vs)) eqn:Hok.
  - rewrite Hins. cbn [mbind Result_bind]. rewrite (assoc_L (++)). by apply IH.
  - rewrite (assoc_L (++)), entries_ok_prefix by done. destruct Hins as [msg ->]. by exists msg.
Qed.

Lemma maps_values vnb maps : vnb = false → Forall (map_item vnb) maps → VNull ∉ (maps_entries maps).1.*2.
Proof.
  intros Hvnb Hm. induction Hm as [|v maps Hv Hm IH]; [apply not_elem_of_nil|]. destruct Hv as [->|(ks & vs & -> & Hn)]; [apply not_elem_of_nil|].
  cbn [maps_entries]. destruct (maps_entries maps) as [es null]. cbn [fst] in *. rewrite fmap_app. intros [Hin|Hin]%elem_of_app; [|done]. apply zip_snd in Hin. by apply Hn.
Qed.

(** Map_concat of columns of maps, with columns of one row and literals spread over all
    rows, gives row by row the entries of all its maps, null when one is null, and fails
    exactly when a key appears twice among the maps that are read of a row. *)
Theorem map_concat_rows args nb kf vf ordered n :
  let t := Map nb (Struct [kf; vf]) ordered in
  let arrays := columnar_value_to_map_array t <$> args in
  let row i := maps_entries ((λ c, arg_row c i) <$> arrays) in
  get_map_type args = Ok t → common_rows (clen <$> arrays) = n → lengths_differ (clen <$> arrays) n = false →
  Forall (λ c, Forall (map_item vf.1) (cvals c)) arrays → (count_entries row (seq 0 n) < 2 ^ 31)%Z →
  ok_or_error (forallb (λ i, entries_ok Exception (row i).1) (seq 0 n)) (CArray (mkColumn t ((λ i, build_row (row i)) <$> seq 0 n))) (map_concat args).
Proof.
  intros t arrays row Ht Hn Hd Hm Hsz. unfold map_concat. rewrite Ht. cbn [mbind Result_bind]. fold arrays. rewrite Hn, Hd. unfold t.
  assert (Forall (λ c, (clen c = 1 ∨ clen c = n) ∧ Forall (map_item vf.1) (cvals c)) arrays) as Ha.
  { rewrite Forall_forall in Hm |- *. intros c Hc. split; [|by apply Hm]. apply (common_length _ _ _ Hd), list_elem_of_fmap. by exists c. }
  apply (build_rows (λ i, entries_ok Exception (row i).1) row (λ i, concat_maps i ([], []) arrays)); [| | |done].
  - intros b i _. by destruct (concat_maps i ([], []) arrays) as [[]| | | |].
  - intros i Hi%elem_of_seq. pose proof (concat_maps_ok vf.1 n i arrays [] Ha ltac:(lia) (entries_ok_nil _)) as Hc. cbv zeta in Hc. cbn [app reverse fmap list_fmap] in Hc. fold (row i) in Hc.
    unfold ok_or_error in *. change (reverse []) with (@nil Val) in Hc. destruct (entries_ok Exception (row i).1) eqn:Hok; [|done]. rewrite Hc. unfold merged. destruct (row i) as [es []]; [done|]. cbn [fst snd] in *. by rewrite exception_merge.
  - intros Hvf i Hi%elem_of_seq. apply (maps_values vf.1); [done|]. apply Forall_fmap. eapply Forall_impl; [exact Ha|]. intros c [Hlen Hc]. cbn.
    destruct (row_of_ok c n i Hlen ltac:(lia)) as [_ Hin]. rewrite Forall_forall in Hc. by apply Hc.
Qed.

Section StrToMapRows.
Context (str_to_map_split : bytes → bytes → bytes → Result (list (bytes * option bytes))).
Context (parts : bytes → bytes → bytes → list (bytes * option bytes)) (Hsplit : ∀ t p k, str_to_map_split t p k = Ok (parts t p k)).

Definition text_item (v : Val) : Prop := v = VNull ∨ ∃ s, v = VBytes s.

(** The entries of a text and its delimiters, none of them null. *)
Definition text_entries (text pair_delim key_value_delim : Val) : list Entry * bool :=
  match text, pair_delim, key_value_delim with
  | VBytes text, VBytes pair_delim, VBytes key_value_delim => ((λ '(k, v), (VBytes k, val_bytes v)) <$> parts text pair_delim key_value_delim, false)
  | _, _, _ => ([], true)
  end.

Lemma array_is_null_ok c i : i < clen c → array_is_null c i = Ok (is_vnull (nth i (cvals c) VNull)).
Proof. intros Hi. unfold array_is_null. destruct (lookup_lt_is_Some_2 (cvals c) i Hi) as [v Hv]. by rewrite Hv, nth_lookup, Hv. Qed.

Lemma index_cvals c i : i < clen c → index (cvals c) i = Ok (nth i (cvals c) VNull).
Proof. intros Hi. destruct (lookup_lt_is_Some_2 (cvals c) i Hi) as [v Hv]. by rewrite (proj2 (index_Ok _ _ _) Hv), nth_lookup, Hv. Qed.

(** Str_to_map splits the text of each row into entries by its delimiters and merges
    repeated keys by the policy. *)
Theorem str_to_map_rows policy text pair_delim key_value_delim rest tc pc kc :
  let args := text :: pair_delim :: key_value_delim :: rest in
  let n := common_rows (array_lens args) in
  let row i := text_entries (nth i (cvals tc) VNull) (nth i (cvals pc) VNull) (nth i (cvals kc) VNull) in
  length args ≤ 4 → parse_map_key_dedup_policy args 3 = Ok policy → lengths_differ (array_lens args) n = false →
  columnar_value_to_string_array text n = Ok tc → columnar_value_to_string_array pair_delim n = Ok pc → columnar_value_to_string_array key_value_delim n = Ok kc →
  Forall (λ c, clen c = n ∧ Forall text_item (cvals c)) [tc; pc; kc] → (count_entries row (seq 0 n) < 2 ^ 31)%Z →
  ok_or_error (forallb (λ i, entries_ok policy (row i).1) (seq 0 n))
    (map_column Utf8 (true, Utf8) ((λ i, build_row (row i)) <$> seq 0 n))
    (str_to_map str_to_map_split args).
Proof using Hsplit.
  intros args n row Hargs Hpol Hd Ht Hp Hk Hc Hsz. unfold str_to_map, args. fold args. rewrite decide_True by done. rewrite Hpol. cbn [mbind Result_bind]. fold n. rewrite Hd, Ht. cbn [mbind Result_bind].
  rewrite Hp. cbn [mbind Result_bind]. rewrite Hk. cbn [mbind Result_bind].
  assert (∀ c i, c ∈ [tc; pc; kc] → i ∈ seq 0 n → array_is_null c i = Ok (is_vnull (nth i (cvals c) VNull)) ∧ index (cvals c) i = Ok (nth i (cvals c) VNull) ∧ text_item (nth i (cvals c) VNull)) as Hitem.
  { intros c i Hin Hi%elem_of_seq. rewrite Forall_forall in Hc. destruct (Hc c Hin) as [Hlen Hv]. split; [apply array_is_null_ok; lia|]. split; [apply index_cvals; lia|].
    rewrite Forall_forall in Hv. apply Hv, list_elem_of_In, nth_In. unfold clen in Hlen. lia. }
  apply (build_rows (λ i, entries_ok policy (row i).1) row
    (λ i, if (row i).2 then Ok None else '(row_entries, _) ← rfoldM (insert_entry policy) ([], []) (row i).1; Ok (Some row_entries))); [| |done|done].
  - intros b i Hi. destruct (Hitem tc i ltac:(set_solver) Hi) as (-> & -> & H1), (Hitem pc i ltac:(set_solver) Hi) as (-> & -> & H2), (Hitem kc i ltac:(set_solver) Hi) as (-> & -> & H3).
    unfold row, text_entries. destruct H1 as [->|[s1 ->]]; [done|]. cbn [is_vnull mbind Result_bind]. destruct H2 as [->|[s2 ->]]; [done|]. cbn [is_vnull mbind Result_bind]. destruct H3 as [->|[s3 ->]]; [done|].
    cbn [is_vnull mbind Result_bind fst snd]. rewrite Hsplit. cbn [mbind Result_bind]. by destruct (rfoldM _ _ _) as [[]| | | |].
  - intros i Hi. destruct (row i) as [es null] eqn:Hrow. cbn [fst snd]. unfold merged. cbn [fst snd]. destruct null.
    + assert (es = []) as -> by (unfold row, text_entries in Hrow; destruct (nth i (cvals tc) VNull), (nth i (cvals pc) VNull), (nth i (cvals kc) VNull); by injection Hrow). by rewrite entries_ok_nil.
    + pose proof (insert_entries_ok policy es [] (entries_ok_nil policy)) as Hins. cbn [app] in Hins.
      assert (Forall (λ e : Entry, is_vnull e.1 = false) es) as Hnn.
      { unfold row, text_entries in Hrow. destruct (nth i (cvals tc) VNull), (nth i (cvals pc) VNull), (nth i (cvals kc) VNull); try discriminate. injection Hrow as <-.
        apply Forall_fmap, Forall_forall. by intros [k v] _. }
      specialize (Hins Hnn). change (entries_state []) with (@nil Entry, @nil (Val * nat)) in Hins.
      unfold ok_or_error in *. destruct (entries_ok policy es); [by rewrite Hins|]. destruct Hins as [msg Hins]. exists msg. by rewrite Hins.
Qed.
End StrToMapRows.

(** ** Maps *)

Module MapSample.

(** Proves a property of every element of a list. *)
Ltac all_items tac := repeat (apply Forall_cons_2; [tac|]); apply Forall_nil_2.

Definition entry (k v : Z) : Val := VStruct [VPrim k; VPrim v].
Definition ints (l : list Z) : Val := VList (VPrim <$> l).
Definition int_map (l : list (Z * Z)) : Val := VMap [VPrim <$> l.*1; VPrim <$> l.*2].
Definition int : DataType := Primitive Int32.
Definition map_type : DataType := Map false (Struct [(false, int); (true, int)]) false.
Definition policy (p : string) : ColumnarValue := CScalar Utf8 (VBytes (str p)).

Definition entry_lists : list Val := [VList [entry 1 10; entry 2 20; entry 1 11]; VNull; VList [entry 3 30; VNull; VStruct [VNull; VNull]]; VList []].

Lemma map_from_entries_rows_witness :
  map_from_entries [CArray (mkColumn (List true (Struct [(false, int); (true, int)])) entry_lists); policy "LAST_WIN"] =
  Ok (map_column int (true, int) [int_map [(1, 11); (2, 20)]; VNull; VNull; int_map []]%Z).
Proof.
  apply (map_from_entries_rows LastWin true (false, int) (true, int) entry_lists [policy "LAST_WIN"]); [done| |done].
  all_items ltac:(first [by left|right; eexists; split; [done|split; [|done]]; all_items ltac:(first [by left|by right; do 2 eexists])]).
Defined.

Lemma map_from_arrays_rows_witness :
  map_from_arrays [CArray (mkColumn (List false int) [ints [1; 2]; VNull]); CArray (mkColumn (List true int) [ints [5; 6]])]%Z =
  Ok (map_column int (true, int) [int_map [(1, 5); (2, 6)]; VNull]%Z).
Proof.
  apply (map_from_arrays_rows false int true int [ints [1; 2]; VNull]%Z [ints [5; 6]]%Z 2); [done..| | |done|done].
  - all_items ltac:(first [by left|by right; eexists]).
  - all_items ltac:(by right; eexists).
Defined.

Lemma map_concat_rows_witness :
  map_concat [CArray (mkColumn map_type [int_map [(1, 5)]; int_map [(2, 6)]]); CScalar map_type (int_map [(2, 7)])]%Z =
  Err (Execution "duplicate key found") ∧
  map_concat [CArray (mkColumn map_type [int_map [(1, 5)]; VNull]); CScalar map_type (int_map [(2, 7)])]%Z =
  Ok (CArray (mkColumn map_type [int_map [(1, 5); (2, 7)]; VNull]%Z)).
Proof.
  split; [by vm_compute|].
  apply (map_concat_rows [CArray (mkColumn map_type [int_map [(1, 5)]; VNull]); CScalar map_type (int_map [(2, 7)])]%Z false (false, int) (true, int) false 2); [done..| |done].
  all_items ltac:(cbn [columnar_value_to_map_array cvals ctype map_type]; all_items ltac:(first [by left|by right; do 2 eexists])).
Defined.

(** Splitting at single characters. *)
Definition cut (d : bytes) (s : bytes) : list bytes :=
  let '(last, parts) := foldr (λ b '(cur, parts), if decide ([b] = d) then ([], cur :: parts) else (b :: cur, parts)) ([], []) s in last :: parts.

Definition cut_pairs (t p k : bytes) : list (bytes * option bytes) :=
  (λ e, match cut k e with key :: value :: _ => (key, Some value) | [key] => (key, None) | [] => ([], None) end) <$> cut p t.

Definition texts (l : list string) : ColumnarValue := CArray (mkColumn Utf8 ((λ s, VBytes (str s)) <$> l)).

Lemma str_to_map_rows_witness :
  str_to_map (λ t p k, Ok (cut_pairs t p k)) [texts ["a:1,b:2"; "a"]; policy ","; policy ":"]%string =
  Ok (map_column Utf8 (true, Utf8) [VMap [[VBytes (str "a"); VBytes (str "b")]; [VBytes (str "1"); VBytes (str "2")]]; VMap [[VBytes (str "a")]; [VNull]]]).
Proof.
  pose proof (str_to_map_rows _ cut_pairs (λ _ _ _, eq_refl) Exception (texts ["a:1,b:2"; "a"]%string) (policy ",") (policy ":") []
    (mkColumn Utf8 ((λ s, VBytes (str s)) <$> ["a:1,b:2"; "a"]%string)) (mkColumn Utf8 (replicate 2 (VBytes (str ",")))) (mkColumn Utf8 (replicate 2 (VBytes (str ":"))))
    ltac:(cbn; lia) eq_refl eq_refl eq_refl eq_refl eq_refl ltac:(all_items ltac:(split; [done|all_items ltac:(by right; eexists)])) eq_refl) as Hrows.
  vm_compute in Hrows. vm_compute. exact Hrows.
Defined.

(** A column of length one next to longer columns passes the check of lengths, but is not
    repeated; other map functions repeat it. *)
Lemma str_to_map_short_column :
  str_to_map (λ t p k, Ok (cut_pairs t p k)) [texts ["a:1"]; texts [","; ","]; policy ":"]%string = Panic ∧
  lengths_differ (array_lens [texts ["a:1"]; texts [","; ","]; policy ":"]%string) 2 = false.
Proof. by vm_compute. Qed.

(** The last value wins at the place of the first; without the policy, and for null keys, there
    is an error, unless a null entry comes before. *)
Example map_errors :
  let from p vs := map_from_entries [CArray (mkColumn (List true (Struct [(false, int); (true, int)])) [VList vs]); policy p] in
  from "EXCEPTION" [entry 1 10; entry 1 11]%Z = Err (Execution "duplicate key found") ∧
  from "EXCEPTION" [entry 1 10; VNull; entry 1 11]%Z = Ok (map_column int (true, int) [VNull]) ∧
  from "LAST_WIN" [VStruct [VNull; VPrim 1]] = Err (Execution "map_from_entries does not support null map keys") ∧
  map_from_entries [CScalar Null VNull] = Err (Execution "array entries must be struct").
Proof. by vm_compute. Qed.

End MapSample.
