(* ===== verification/SparkStrings.v ===== *)
(** * String functions

    native-engine/datafusion-ext-functions/src/spark_strings.rs and spark_initcap.rs.  Case
    mapping beyond ASCII is the Unicode tables of the standard library, an argument
    ([Unicode]).  [split] is [str::split] on a non-empty pattern.

    [split_concat_ws_roundtrip]: joining the parts of a text by the separator gives the text
    back, and no part contains it.  [substring_correct], [string_concat_rows] say what
    [spark_substring] and [string_concat] return for any arguments they accept;
    [initcap_ascii] that the path for ASCII texts agrees with the other one.
    [substring_before_start] and [concat_ws_literal_list] are inputs with results that are
    not those of Spark. *)

From S2P Require Import Prelude MachineInt Utf8 Arrow Columnar Chars.

Set Default Proof Using "Type".

Local Abbreviation bytes := (list Z).

(** ** The standard library *)

Class Unicode := {
  str_to_lowercase : bytes → bytes;
  str_to_uppercase : bytes → bytes;
  char_is_alphabetic : bytes → bool;
  char_to_lowercase : bytes → bytes;
  char_to_uppercase : bytes → bytes;
}.

(** [str::repeat] *)
Definition repeat_str (s : bytes) (n : nat) : bytes := mjoin (replicate n s).

Definition starts_with (pat s : bytes) : bool := bool_decide (take (length pat) s = pat).

(** [str::split]: matches from the left that do not overlap; [skip] bytes of the last match
    remain. *)
Fixpoint split_from (pat s segment : bytes) (skip : nat) : list bytes :=
  match s with
  | [] => [segment]
  | b :: rest =>
      match skip with
      | S skip => split_from pat rest segment skip
      | O =>
          if starts_with pat s then segment :: split_from pat rest [] (length pat - 1)
          else split_from pat rest (segment ++ [b]) 0
      end
  end.

Definition split (pat s : bytes) : list bytes := split_from pat s [] 0.

(** [segments.join(sep)] *)
Fixpoint join_strs (sep : bytes) (segments : list bytes) : bytes :=
  match segments with
  | [] => []
  | [s] => s
  | s :: segments => s ++ sep ++ join_strs sep segments
  end.

(** ** Functions of one text *)

(** [as_string_array(array)?.into_iter().map(|s| s.map(f))] *)
Definition map_strings (f : bytes → bytes) (array : Column) : Result Column :=
  array ← downcast Utf8 array;
  Ok (bytes_from_iter Utf8 ((λ s : option bytes, f <$> s) <$> bytes_iter array)).

Section Case.
Context `{Unicode}.

Definition string_lower (args : list ColumnarValue) : Result ColumnarValue :=
  match args with
  | CArray array :: _ => c ← map_strings str_to_lowercase array; Ok (CArray c)
  | CScalar Utf8 v :: _ => Ok (CScalar Utf8 (val_bytes (str_to_lowercase <$> bytes_of v)))
  | _ :: _ => Err (Execution "string_lower only supports literal utf8")
  | [] => Panic
  end.

Definition string_upper (args : list ColumnarValue) : Result ColumnarValue :=
  match args with
  | CArray array :: _ => c ← map_strings str_to_uppercase array; Ok (CArray c)
  | CScalar Utf8 v :: _ => Ok (CScalar Utf8 (val_bytes (str_to_uppercase <$> bytes_of v)))
  | _ :: _ => Err (Execution "string_upper only supports literal utf8")
  | [] => Panic
  end.

Definition is_ascii_lower (b : Z) : bool := (97 <=? b)%Z && (b <=? 122)%Z.
Definition is_ascii_upper (b : Z) : bool := (65 <=? b)%Z && (b <=? 90)%Z.
Definition to_ascii_uppercase (b : Z) : Z := if is_ascii_lower b then (b - 32)%Z else b.
Definition to_ascii_lowercase (b : Z) : Z := if is_ascii_upper b then (b + 32)%Z else b.
Definition is_ascii_alphanumeric (b : Z) : bool := is_ascii_lower b || is_ascii_upper b || is_digit b.

(** The two loops of [initcap], with [out] and [prev_is_space]. *)
Definition initcap_ascii_step (st : bytes * bool) (ch : Z) : bytes * bool :=
  let '(out, prev_is_space) := st in
  (out ++ [if prev_is_space && is_ascii_alphanumeric ch then to_ascii_uppercase ch else to_ascii_lowercase ch], bool_decide (ch = 32%Z)).

Definition initcap_step (st : bytes * bool) (ch : bytes) : bytes * bool :=
  let '(out, prev_is_space) := st in
  (out ++ (if prev_is_space && char_is_alphabetic ch then char_to_uppercase ch else char_to_lowercase ch), bool_decide (ch = [32%Z])).

Definition is_ascii (s : bytes) : bool := forallb (λ b, b <? 128)%Z s.

Definition initcap (input : bytes) : bytes :=
  if is_ascii input then (foldl initcap_ascii_step ([], true) input).1
  else (foldl initcap_step ([], true) (chars input)).1.

Definition string_initcap (args : list ColumnarValue) : Result ColumnarValue :=
  match args with
  | CArray array :: _ => c ← map_strings initcap array; Ok (CArray c)
  | CScalar Utf8 (VBytes s) :: _ => Ok (CScalar Utf8 (VBytes (initcap s)))
  | _ :: _ => Err (Execution "Unsupported args for string_initcap")
  | [] => Panic
  end.
End Case.

Definition string_space (args : list ColumnarValue) : Result ColumnarValue :=
  match args with
  | n :: _ =>
      n_array ← downcast (Primitive Int32) (into_array 1 n);
      Ok (CArray (bytes_from_iter Utf8 ((λ n : option Z, (λ n, repeat_str [32%Z] (Z.to_nat (Z.max n 0))) <$> n) <$> prim_iter n_array)))
  | [] => Panic
  end.

Definition string_repeat (args : list ColumnarValue) : Result ColumnarValue :=
  match args with
  | s :: n :: _ =>
      let string_array := into_array 1 s in
      match n with
      | CScalar (Primitive Int32) (VPrim n) =>
          c ← map_strings (λ s, repeat_str s (Z.to_nat (Z.max n 0))) string_array; Ok (CArray c)
      | CScalar _ VNull => Ok (CScalar Utf8 VNull)
      | _ => Err (Execution "string_repeat n only supports literal int32")
      end
  | _ => Panic
  end.

Definition string_split (args : list ColumnarValue) : Result ColumnarValue :=
  match args with
  | s :: pat :: _ =>
      match pat with
      | CScalar Utf8 (VBytes pat) =>
          if decide (pat = []) then Err (Execution "string_split pattern only supports non-empty literal string")
          else
            string_array ← downcast Utf8 (into_array 1 s);
            Ok (CArray (mkColumn (List true Utf8) ((λ s : option bytes, match s with Some s => VList (VBytes <$> split pat s) | None => VNull end) <$> bytes_iter string_array)))
      | _ => Err (Execution "string_split pattern only supports non-empty literal string")
      end
  | _ => Panic
  end.

(** ** Substrings *)

Definition clamp (x lo hi : Z) : Z := if (x <? lo)%Z then lo else if (hi <? x)%Z then hi else x.

Definition saturating_add (a b : Z) : Z := clamp (a + b) (- 2 ^ 63) (2 ^ 63 - 1).

Definition substring_range (total_len : nat) (pos len : Z) : nat * nat :=
  if (len <=? 0)%Z then (0, 0)
  else
    let total_len_i64 := i64 (Z.of_nat total_len) in
    let raw_start := if (0 <? pos)%Z then i64 (pos - 1) else if (pos <? 0)%Z then saturating_add total_len_i64 pos else 0%Z in
    let start := clamp raw_start 0 total_len_i64 in
    let stop := clamp (saturating_add start len) 0 total_len_i64 in
    (Z.to_nat start, Z.to_nat stop).

(** [&l[start..end]] *)
Definition slice {A} (l : list A) (r : nat * nat) : Result (list A) :=
  _ ← rassert (bool_decide (r.1 ≤ r.2 ≤ length l));
  Ok (sub l r.1 r.2).

Definition substring_str (pos len : Z) (s : bytes) : Result bytes :=
  cs ← slice (chars s) (substring_range (length (chars s)) pos len);
  Ok (mjoin (cs : list bytes)).

Definition substring_binary (pos len : Z) (s : bytes) : Result bytes := slice s (substring_range (length s) pos len).

Definition int64_literal (arg : option ColumnarValue) : Result Z :=
  match arg with
  | Some (CScalar (Primitive Int64) (VPrim n)) => Ok n
  | Some _ => Err (Execution "substring only supports literal int64")
  | None => Panic
  end.

Definition spark_substring (args : list ColumnarValue) : Result ColumnarValue :=
  pos ← int64_literal (args !! 1);
  len ← int64_literal (args !! 2);
  let map_column f c := l ← rmapM (omapM f) (bytes_iter c); Ok (CArray (bytes_from_iter (ctype c) l)) in
  match args with
  | CArray array :: _ =>
      match ctype array with
      | Utf8 => map_column (substring_str pos len) array
      | Binary => map_column (substring_binary pos len) array
      | _ => Err (Execution "substring only supports utf8 or binary")
      end
  | CScalar Utf8 v :: _ => r ← omapM (substring_str pos len) (bytes_of v); Ok (CScalar Utf8 (val_bytes r))
  | CScalar Binary v :: _ => r ← omapM (substring_binary pos len) (bytes_of v); Ok (CScalar Binary (val_bytes r))
  | _ :: _ => Err (Execution "substring only supports utf8 or binary")
  | [] => Panic
  end.

(** ** Concatenation *)

(** The value of an argument in a row: [None] ends the row with null. *)
Definition concat_arg (i : nat) (arg : ColumnarValue) : Result (option bytes) :=
  match arg with
  | CScalar Utf8 v => Ok (bytes_of v)
  | CScalar _ _ => Panic
  | CArray c =>
      v ← index (cvals c) i;
      match v with
      | VNull => Ok None
      | VBytes s => if decide (ctype c = Utf8) then Ok (Some s) else Panic
      | _ => Panic
      end
  end.

Fixpoint concat_row (i : nat) (owned_string : bytes) (args : list ColumnarValue) : Result (option bytes) :=
  match args with
  | [] => Ok (Some owned_string)
  | arg :: args =>
      v ← concat_arg i arg;
      match v with Some s => concat_row i (owned_string ++ s) args | None => Ok None end
  end.

Definition first_array_len (args : list ColumnarValue) : option nat :=
  head (omap (λ arg, match arg with CArray c => Some (clen c) | CScalar _ _ => None end) args).

Definition string_concat (args : list ColumnarValue) : Result ColumnarValue :=
  match args with
  | [] => Err (Execution "concat was called with 0 arguments. It requires at least 1.")
  | _ =>
      match first_array_len args with
      | Some size => l ← rmapM (λ i, concat_row i [] args) (seq 0 size); Ok (CArray (bytes_from_iter Utf8 l))
      | None =>
          if existsb (λ arg, match arg with CScalar _ v => is_vnull v | CArray _ => false end) args then Ok (CScalar Utf8 VNull)
          else
            result ← rfoldM (λ inner arg, match arg with CScalar Utf8 (VBytes v) => Ok (inner ++ v) | _ => Panic end) [] args;
            Ok (CScalar Utf8 (VBytes result))
      end
  end.

(** [Arg]; the arguments that are ignored are left out.  The test for a literal list compares
    the type of the list itself with that of strings. *)
Inductive Arg :=
  | Literal (s : bytes)
  | LiteralList (l : list bytes)
  | ArgArray (c : Column)
  | ArgList (c : Column).

Definition concat_ws_type_error {A} : Result A := Err (Execution "concat_ws args must be string or array<string>").

Definition make_arg (arg : ColumnarValue) : Result (option Arg) :=
  match arg with
  | CArray c =>
      match ctype c with
      | Utf8 => Ok (Some (ArgArray c))
      | List _ Utf8 => Ok (Some (ArgList c))
      | _ => concat_ws_type_error
      end
  | CScalar t v =>
      match v with
      | VNull => Ok None
      | VBytes s => if decide (t = Utf8) then Ok (Some (Literal s)) else concat_ws_type_error
      | VList l => if decide (t = Utf8) then Ok (Some (LiteralList (omap bytes_of l))) else concat_ws_type_error
      | _ => concat_ws_type_error
      end
  end.

Definition row_segments (i : nat) (segments : list bytes) (arg : Arg) : Result (list bytes) :=
  match arg with
  | Literal s => Ok (segments ++ [s])
  | LiteralList l => Ok (segments ++ l)
  | ArgArray c => v ← index (cvals c) i; Ok (match bytes_of v with Some s => segments ++ [s] | None => segments end)
  | ArgList c => v ← index (cvals c) i; Ok (match v with VList l => segments ++ omap bytes_of l | _ => segments end)
  end.

Definition is_literal (arg : Arg) : bool := match arg with Literal _ | LiteralList _ => true | _ => false end.

(** The length of the last column. *)
Definition concat_ws_len (args : list Arg) : nat :=
  foldl (λ array_len arg, match arg with ArgArray c | ArgList c => clen c | _ => array_len end) 1 args.

Definition string_concat_ws (args : list ColumnarValue) : Result ColumnarValue :=
  match args with
  | CScalar Utf8 (VBytes sep) :: args =>
      args ← rmapM make_arg args;
      let args := omap id args in
      if forallb is_literal args then
        segments ← rfoldM (row_segments 0) [] args;
        Ok (CScalar Utf8 (VBytes (join_strs sep segments)))
      else
        l ← rmapM (λ i, segments ← rfoldM (row_segments i) [] args; Ok (Some (join_strs sep segments))) (seq 0 (concat_ws_len args));
        Ok (CArray (bytes_from_iter Utf8 l))
  | CScalar Utf8 VNull :: _ => Ok (CScalar Utf8 VNull)
  | _ :: _ => Err (Execution "string_concat_ws separator only supports literal string")
  | [] => Panic
  end.

(** ** Splitting and joining *)

Lemma starts_with_app pat s : starts_with pat s = true → s = pat ++ drop (length pat) s.
Proof. intros H%bool_decide_eq_true. rewrite <- H at 1. by rewrite take_drop. Qed.

Lemma split_from_cons pat s segment skip : ∃ x l, split_from pat s segment skip = x :: l.
Proof.
  revert segment skip. induction s as [|b s IH]; intros segment skip; [by do 2 eexists|]. cbn [split_from]. destruct skip; [|apply IH].
  case_match; [by do 2 eexists|apply IH].
Qed.

Lemma join_cons sep x l : l ≠ [] → join_strs sep (x :: l) = x ++ sep ++ join_strs sep l.
Proof. by destruct l. Qed.

Lemma join_split_from pat s segment skip :
  pat ≠ [] → skip ≤ length s → join_strs pat (split_from pat s segment skip) = segment ++ drop skip s.
Proof.
  intros Hp. revert segment skip. induction s as [|b s IH]; intros segment skip Hs; [cbn; destruct skip; by rewrite app_nil_r|].
  cbn [split_from]. destruct skip as [|skip]; [|cbn [length] in Hs; rewrite IH by lia; done].
  destruct (starts_with pat (b :: s)) eqn:Hm.
  - pose proof (starts_with_app _ _ Hm) as Hb. assert (length pat ≤ S (length s)) as Hlen.
    { apply bool_decide_eq_true in Hm. rewrite <- Hm, length_take. cbn [length]. lia. }
    destruct (split_from_cons pat s [] (length pat - 1)) as (x & l & Hx). rewrite join_cons by (by rewrite Hx). rewrite IH by lia.
    cbn [app]. cbn [drop]. f_equal. rewrite Hb. f_equal. destruct pat as [|c pat]; [done|]. cbn [length drop Nat.sub]. by rewrite Nat.sub_0_r.
  - rewrite IH by lia. cbn [drop]. by rewrite <- (assoc_L (++)).
Qed.

Lemma join_split pat s : pat ≠ [] → join_strs pat (split pat s) = s.
Proof. intros Hp. unfold split. by rewrite join_split_from by (done || lia). Qed.

(** No part contains the pattern. *)
Definition contains (pat s : bytes) : Prop := ∃ i, i < length s ∧ starts_with pat (drop i s) = true.

Lemma starts_with_extend pat s1 s2 : starts_with pat s1 = true → starts_with pat (s1 ++ s2) = true.
Proof. intros H. apply starts_with_app in H. unfold starts_with. apply bool_decide_eq_true. rewrite H, <- (assoc_L (++)). apply take_app_length. Qed.

Lemma split_from_free pat s segment skip :
  pat ≠ [] → skip ≤ length s → (∀ i, i < length segment → starts_with pat (drop i (segment ++ drop skip s)) = false) →
  Forall (λ p, ¬ contains pat p) (split_from pat s segment skip).
Proof.
  intros Hp. revert segment skip. induction s as [|b s IH]; intros segment skip Hs Hseg.
  { cbn [split_from]. apply Forall_singleton. intros (i & Hi & Hm). assert (skip = 0) as -> by (cbn in Hs; lia). cbn [drop] in Hseg. rewrite app_nil_r in Hseg. by rewrite Hseg in Hm. }
  cbn [split_from]. destruct skip as [|skip]; [|cbn [length] in Hs; apply IH; [lia|exact Hseg]]. cbn [drop] in Hseg.
  destruct (starts_with pat (b :: s)) eqn:Hm.
  - apply Forall_cons_2.
    + intros (i & Hi & Hc). apply (starts_with_extend pat _ (b :: s)) in Hc. rewrite <- drop_app_le in Hc by lia. by rewrite Hseg in Hc.
    + apply IH; [|by intros i Hi; cbn in Hi; lia]. apply bool_decide_eq_true in Hm. rewrite <- Hm, length_take. cbn [length]. lia.
  - apply IH; [lia|]. intros i Hi. rewrite length_app in Hi. cbn [length drop] in Hi |- *. rewrite <- (assoc_L (++)). cbn [app].
    destruct (decide (i < length segment)) as [Hl|Hl]; [by apply Hseg|]. assert (i = length segment) as -> by lia. by rewrite drop_app_length.
Qed.

Lemma rmapM_seq {A B} (f : nat → Result B) (g : A → B) l : (∀ i x, l !! i = Some x → f i = Ok (g x)) → rmapM f (seq 0 (length l)) = Ok (g <$> l).
Proof.
  intros Hf. apply rmapM_Ok, Forall2_same_length_lookup_2; [by rewrite length_seq, length_fmap|]. intros i x y Hx Hy. apply lookup_seq in Hx as [-> Hi].
  rewrite list_lookup_fmap in Hy. apply fmap_Some in Hy as (z & Hz & ->). by apply Hf.
Qed.

Lemma omap_bytes (l : list bytes) : omap bytes_of (VBytes <$> l) = l.
Proof. induction l as [|x l IH]; [done|]. rewrite fmap_cons. cbn. by f_equal. Qed.

Definition string_row (v : Val) : Prop := v = VNull ∨ ∃ s, v = VBytes s.

(** C32: splitting a column of texts by a pattern succeeds, no piece contains the
    pattern, and joining the pieces of each row by the pattern with concat_ws gives the
    texts back; a null text gives a null list, which joins to the empty text. *)
Theorem split_concat_ws_roundtrip sep rows :
  sep ≠ [] → Forall string_row rows →
  ∃ parts, string_split [CArray (mkColumn Utf8 rows); CScalar Utf8 (VBytes sep)] = Ok (CArray (mkColumn (List true Utf8) parts)) ∧
    Forall2 (λ v p, match v with VNull => p = VNull | _ => ∃ l, p = VList (VBytes <$> l) ∧ Forall (λ s, ¬ contains sep s) l end) rows parts ∧
    string_concat_ws [CScalar Utf8 (VBytes sep); CArray (mkColumn (List true Utf8) parts)] =
    Ok (CArray (mkColumn Utf8 ((λ v, match v with VNull => VBytes [] | _ => v end) <$> rows))).
Proof.
  intros Hsep Hrows. eexists. cbn [string_split]. rewrite decide_False by done. rewrite downcast_Ok by done. cbn [mbind Result_bind]. split; [done|].
  unfold bytes_iter. cbn [cvals]. split.
  - apply Forall2_fmap_r, Forall2_fmap_r, Forall_Forall2_diag. eapply Forall_impl; [exact Hrows|]. intros v [->|[s ->]]; [done|]. cbn. eexists. split; [done|].
    apply split_from_free; [done|lia|]. intros i Hi. cbn in Hi. lia.
  - cbn [string_concat_ws rmapM make_arg ctype mbind Result_bind mret Result_ret omap list_omap id option_ret forallb is_literal andb concat_ws_len foldl clen].
    rewrite <- list_fmap_compose. unfold clen. cbn [cvals]. rewrite length_fmap.
    rewrite (rmapM_seq _ (λ v, Some match v with VBytes s => s | _ => [] end)).
    + cbn [mbind Result_bind]. unfold bytes_from_iter. do 3 f_equal. rewrite <- list_fmap_compose. apply list_fmap_ext. intros i v Hv.
      rewrite Forall_forall in Hrows. by destruct (Hrows v) as [->|[s ->]]; [by eapply list_elem_of_lookup_2|..].
    + intros i v Hv. cbn [rfoldM row_segments cvals]. rewrite Forall_forall in Hrows. pose proof (Hrows v ltac:(by eapply list_elem_of_lookup_2)) as Hrow.
      unfold index. rewrite list_lookup_fmap, Hv. cbn [fmap option_fmap option_map mbind Result_bind app compose]. destruct Hrow as [->|[s ->]]; [done|]. cbn.
      rewrite omap_bytes, join_split by done. done.
Qed.


(** ** Substrings *)

(** The index of the first element that is kept. *)
Definition substring_start (n : nat) (pos : Z) : Z :=
  if (0 <? pos)%Z then Z.min (pos - 1) (Z.of_nat n) else if (pos <? 0)%Z then Z.max 0 (Z.of_nat n + pos) else 0%Z.

Definition substr {A} (pos len : Z) (l : list A) : list A := take (Z.to_nat len) (drop (Z.to_nat (substring_start (length l) pos)) l).

Lemma clamp_max x lo hi : (lo <= hi)%Z → clamp x lo hi = Z.max lo (Z.min x hi).
Proof. intros. unfold clamp. destruct (Z.ltb_spec x lo); [lia|]. destruct (Z.ltb_spec hi x); lia. Qed.

Lemma substring_range_bounds n pos len :
  in_s 64 pos → in_s 64 len → (Z.of_nat n < 2 ^ 63)%Z → (0 < len)%Z →
  substring_range n pos len = (Z.to_nat (substring_start n pos), Z.to_nat (Z.min (Z.of_nat n) (substring_start n pos + len))).
Proof.
  unfold in_s, substring_range, substring_start, saturating_add, i64. cbn [Z.sub]. change (2 ^ (64 - 1))%Z with (2 ^ 63)%Z. intros Hp Hl Hn Hlen.
  rewrite (proj2 (Z.leb_gt len 0)) by lia. rewrite (wraps_id 64 (Z.of_nat n)) by (done || unfold in_s; lia). rewrite !clamp_max by lia.
  destruct (Z.ltb_spec 0 pos).
  - rewrite (wraps_id 64 (pos - 1)) by (done || unfold in_s; lia). apply (f_equal2 pair); lia.
  - destruct (Z.ltb_spec pos 0); apply (f_equal2 pair); lia.
Qed.

Lemma slice_substr {A} pos len (l : list A) :
  in_s 64 pos → in_s 64 len → (Z.of_nat (length l) < 2 ^ 63)%Z → slice l (substring_range (length l) pos len) = Ok (substr pos len l).
Proof.
  intros Hp Hl Hn. destruct (decide (len <= 0)%Z) as [Hlen|Hlen].
  - unfold substring_range. rewrite (proj2 (Z.leb_le len 0)) by done. unfold slice, substr. cbn [fst snd]. rewrite bool_decide_eq_true_2 by lia.
    assert (Z.to_nat len = 0) as -> by lia. done.
  - rewrite substring_range_bounds by (done || lia). unfold slice, substr. cbn [fst snd].
    assert (0 <= substring_start (length l) pos <= Z.of_nat (length l))%Z as Hb by (unfold substring_start; destruct (Z.ltb_spec 0 pos); [|destruct (Z.ltb_spec pos 0)]; lia).
    set (a := substring_start (length l) pos) in *. rewrite bool_decide_eq_true_2 by lia. cbn [rassert mbind Result_bind]. unfold sub. f_equal.
    destruct (decide (a + len <= Z.of_nat (length l))%Z).
    + rewrite Z.min_r by lia. f_equal. lia.
    + rewrite Z.min_l by lia. rewrite !take_ge by (rewrite length_drop; lia). done.
Qed.

Definition substring_val (t : DataType) (pos len : Z) (v : Val) : Val :=
  match v with
  | VBytes s => VBytes match t with Utf8 => mjoin (substr pos len (chars s)) | _ => substr pos len s end
  | _ => v
  end.

(** A text, or null, shorter than the 63 bits of an index. *)
Definition short_row (v : Val) : Prop := v = VNull ∨ ∃ s, v = VBytes s ∧ (Z.of_nat (length s) < 2 ^ 63)%Z.

Lemma length_chars s : length (chars s) ≤ length s.
Proof.
  induction s as [|b s IH] using chars_ind; [done|]. rewrite chars_cons. cbn [length]. rewrite length_drop in IH. pose proof (utf8_chunk_pos b s). cbn [length] in IH. lia.
Qed.

Lemma substring_str_ok pos len s : in_s 64 pos → in_s 64 len → (Z.of_nat (length s) < 2 ^ 63)%Z → substring_str pos len s = Ok (mjoin (substr pos len (chars s))).
Proof. intros Hp Hl Hs. unfold substring_str. pose proof (length_chars s). by rewrite slice_substr by (done || lia). Qed.

Lemma substring_row t pos len v :
  t = Utf8 ∨ t = Binary → in_s 64 pos → in_s 64 len → short_row v →
  omapM (match t with Utf8 => substring_str pos len | _ => substring_binary pos len end) (bytes_of v) = Ok (bytes_of (substring_val t pos len v)) ∧
  val_bytes (bytes_of (substring_val t pos len v)) = substring_val t pos len v.
Proof.
  intros Ht Hp Hl [->|(s & -> & Hs)]; [done|]. split; [|done]. cbn [omapM bytes_of substring_val].
  destruct Ht as [->| ->]; [by rewrite substring_str_ok|]. unfold substring_binary. by rewrite slice_substr.
Qed.

(** C33: substring on a column or a literal, with any 64-bit position and length, never
    slices out of range and gives for each text the characters (for binary values, the
    bytes) from the position, counted from 1 or from the end, as many as asked for and
    there are; nulls stay. *)
Theorem substring_correct t pos len rows v :
  t = Utf8 ∨ t = Binary → in_s 64 pos → in_s 64 len → Forall short_row rows → short_row v →
  let args arg := [arg; CScalar (Primitive Int64) (VPrim pos); CScalar (Primitive Int64) (VPrim len)] in
  spark_substring (args (CArray (mkColumn t rows))) = Ok (CArray (mkColumn t (substring_val t pos len <$> rows))) ∧
  spark_substring (args (CScalar t v)) = Ok (CScalar t (substring_val t pos len v)).
Proof.
  intros Ht Hp Hl Hrows Hv args. split.
  - assert (∀ f, f = match t with Utf8 => substring_str pos len | _ => substring_binary pos len end →
      (l ← rmapM (omapM f) (bytes_iter (mkColumn t rows)); Ok (CArray (bytes_from_iter t l))) = Ok (CArray (mkColumn t (substring_val t pos len <$> rows)))) as Hf.
    { intros f ->. rewrite (proj2 (rmapM_Ok _ _ ((λ v, bytes_of (substring_val t pos len v)) <$> rows))).
      - cbn [mbind Result_bind]. unfold bytes_from_iter. rewrite <- list_fmap_compose. do 3 f_equal. apply list_fmap_ext. intros i x Hx. cbn.
        rewrite Forall_forall in Hrows. by destruct (substring_row t pos len x Ht Hp Hl (Hrows x ltac:(by eapply list_elem_of_lookup_2))).
      - unfold bytes_iter. cbn [cvals]. apply Forall2_fmap_2, Forall_Forall2_diag. eapply Forall_impl; [exact Hrows|]. intros x Hx. by apply substring_row. }
    destruct Ht as [->| ->]; by apply Hf.
  - destruct (substring_row t pos len v Ht Hp Hl Hv) as [H1 H2]. destruct Ht as [->| ->]; unfold args, spark_substring; cbn [int64_literal lookup list_lookup mbind Result_bind]; rewrite H1; cbn [mbind Result_bind]; by rewrite H2.
Qed.

(** ** Concatenation *)

Definition concat_val (vs : list Val) : Val := if existsb is_vnull vs then VNull else VBytes (mjoin (omap bytes_of vs)).

Definition arg_value (i : nat) (arg : ColumnarValue) : Val := match arg with CArray c => nth i (cvals c) VNull | CScalar _ v => v end.

(** A text argument; columns have [n] rows. *)
Definition text_arg (n : nat) (arg : ColumnarValue) : Prop :=
  match arg with CArray c => ctype c = Utf8 ∧ clen c = n ∧ Forall string_row (cvals c) | CScalar t v => t = Utf8 ∧ string_row v end.

Lemma concat_arg_ok n i arg : text_arg n arg → i < n → concat_arg i arg = Ok (bytes_of (arg_value i arg)) ∧ string_row (arg_value i arg).
Proof.
  destruct arg as [c|t v]; cbn [text_arg concat_arg arg_value].
  - intros (Ht & Hn & Hc) Hi. destruct (lookup_lt_is_Some_2 (cvals c) i) as [v Hv]; [unfold clen in Hn; lia|].
    rewrite (proj2 (index_Ok _ _ _) Hv), nth_lookup, Hv. cbn [mbind Result_bind default]. rewrite Forall_forall in Hc.
    destruct (Hc v) as [->|[s ->]]; [by eapply list_elem_of_lookup_2|by split; [|left]|]. rewrite decide_True by done. split; [done|]. right. by eexists.
  - intros [-> Hv] _. by split.
Qed.

Lemma concat_row_ok n i args s :
  Forall (text_arg n) args → i < n →
  concat_row i s args = Ok (if existsb is_vnull (arg_value i <$> args) then None else Some (s ++ mjoin (omap bytes_of (arg_value i <$> args)))).
Proof.
  intros Ha Hi. revert s. induction Ha as [|arg args Harg Ha IH]; intros s; [cbn; by rewrite app_nil_r|]. cbn [concat_row].
  destruct (concat_arg_ok n i arg Harg Hi) as [-> Hv]. rewrite fmap_cons. cbn [mbind Result_bind existsb]. destruct Hv as [Hv|[s' Hv]]; rewrite Hv; [done|]. cbn [bytes_of is_vnull orb].
  rewrite IH. destruct (existsb _ _); [done|]. cbn [omap list_omap bytes_of]. change (mjoin (s' :: ?l)) with (s' ++ mjoin l). by rewrite (assoc_L (++)).
Qed.

(** Concat of columns and literals gives row by row the concatenated texts, null when
    one of them is null, and a literal when all arguments are literals. *)
Theorem string_concat_rows args n :
  args ≠ [] → Forall (text_arg n) args →
  string_concat args = Ok
    match first_array_len args with
    | Some _ => CArray (mkColumn Utf8 ((λ i, concat_val (arg_value i <$> args)) <$> seq 0 n))
    | None => CScalar Utf8 (concat_val (arg_value 0 <$> args))
    end.
Proof.
  intros Hne Ha. unfold string_concat. destruct args as [|a0 args0]; [done|]. clear Hne. set (args := a0 :: args0) in *. destruct (first_array_len args) as [size|] eqn:Hf.
  - assert (size = n) as ->.
    { unfold first_array_len in Hf. apply head_Some_elem_of, list_elem_of_omap in Hf as (arg & Hin & Harg). rewrite Forall_forall in Ha. specialize (Ha arg Hin).
      destruct arg; [|done]. injection Harg as <-. by destruct Ha as (_ & ? & _). }
    rewrite (proj2 (rmapM_Ok _ _ ((λ i, bytes_of (concat_val (arg_value i <$> args))) <$> seq 0 n))).
    + cbn [mbind Result_bind]. unfold bytes_from_iter. rewrite <- list_fmap_compose. do 3 f_equal. apply list_fmap_ext. intros _ i _. cbn [compose]. unfold concat_val. by destruct (existsb _ _).
    + apply Forall2_fmap_r, Forall_Forall2_diag, Forall_forall. intros i Hi%elem_of_seq. cbn [compose]. rewrite (concat_row_ok n) by (done || lia). unfold concat_val, compose. by destruct (existsb is_vnull (arg_value i <$> args)).
  - assert (∀ l s, Forall (text_arg n) l → head (omap (λ arg, match arg with CArray c => Some (clen c) | CScalar _ _ => None end) l) = None →
      existsb (λ arg, match arg with CScalar _ v => is_vnull v | CArray _ => false end) l = existsb is_vnull (arg_value 0 <$> l) ∧
      (existsb is_vnull (arg_value 0 <$> l) = false →
       rfoldM (λ inner arg, match arg with CScalar Utf8 (VBytes v) => Ok (inner ++ v) | _ => Panic end) s l = Ok (s ++ mjoin (omap bytes_of (arg_value 0 <$> l))))) as Hl.
    { intros l s Hl. revert s. induction Hl as [|arg l Harg Hl IH]; intros s Hh; [split; [done|]; intros _; cbn; by rewrite app_nil_r|].
      destruct arg as [c|t v]; [done|]. destruct Harg as [-> Hv]. cbn [omap list_omap] in Hh. rewrite fmap_cons. cbn [existsb arg_value rfoldM].
      split; [by rewrite (proj1 (IH s Hh))|]. destruct Hv as [->|[s' ->]]; [done|]. cbn [is_vnull orb mbind Result_bind]. intros Hn. rewrite (proj2 (IH (s ++ s') Hh) Hn).
      cbn [omap list_omap bytes_of]. change (mjoin (s' :: ?l)) with (s' ++ mjoin l). by rewrite (assoc_L (++)). }
    destruct (Hl args [] Ha Hf) as [-> Hfold]. unfold concat_val. destruct (existsb is_vnull (arg_value 0 <$> args)); [done|]. by rewrite Hfold.
Qed.

(** ** The paths of initcap *)

Section Initcap.
Context `{Unicode}.

(** The tables on ASCII. *)
Class AsciiOk : Prop := {
  ascii_alphabetic b : (0 <= b < 128)%Z → char_is_alphabetic [b] = is_ascii_lower b || is_ascii_upper b;
  ascii_lowercase b : (0 <= b < 128)%Z → char_to_lowercase [b] = [to_ascii_lowercase b];
  ascii_uppercase b : (0 <= b < 128)%Z → char_to_uppercase [b] = [to_ascii_uppercase b];
}.

Lemma chars_of_ascii s : is_ascii s = true → chars s = (λ b, [b]) <$> s.
Proof.
  induction s as [|b s IH]; [done|]. cbn [is_ascii forallb]. intros [Hb%Z.ltb_lt Hs]%andb_prop. rewrite chars_ascii by done. rewrite fmap_cons. f_equal. by apply IH.
Qed.

(** The two loops of initcap agree on ASCII texts. *)
Theorem initcap_ascii `{!AsciiOk} s :
  is_ascii s = true → Forall (λ b, 0 <= b)%Z s → initcap s = (foldl initcap_step ([], true) (chars s)).1.
Proof.
  intros Ha Hs. unfold initcap. rewrite Ha, (chars_of_ascii s Ha). f_equal.
  assert (∀ out prev, foldl initcap_ascii_step (out, prev) s = foldl initcap_step (out, prev) ((λ b, [b]) <$> s)) as Hfold; [|apply Hfold]. revert Ha.
  induction Hs as [|b s Hb Hs IH]; intros Ha out prev; [done|]. cbn [is_ascii forallb] in Ha. apply andb_prop in Ha as [Hb'%Z.ltb_lt Ha].
  rewrite fmap_cons. cbn [foldl initcap_ascii_step initcap_step]. rewrite IH by done.
  assert (bool_decide ([b] = [32%Z]) = bool_decide (b = 32%Z)) as -> by (apply bool_decide_ext; split; [by intros [= ->]|by intros ->]). do 3 f_equal.
  rewrite ascii_alphabetic, ascii_lowercase, ascii_uppercase by lia. unfold is_ascii_alphanumeric. destruct prev; [|done]. cbn [andb].
  destruct (is_ascii_lower b || is_ascii_upper b) eqn:Hal; [done|]. cbn [orb]. apply orb_false_elim in Hal as [H1 H2]. unfold to_ascii_uppercase, to_ascii_lowercase. rewrite H1, H2. by destruct (is_digit b).
Qed.
End Initcap.

(** ** Texts *)

Module StringSample.

Definition lit (s : string) : ColumnarValue := CScalar Utf8 (VBytes (str s)).
Definition num (n : Z) : ColumnarValue := CScalar (Primitive Int64) (VPrim n).
Definition col (l : list string) : list Val := VNull :: ((λ s, VBytes (str s)) <$> l).
Definition texts (l : list string) : ColumnarValue := CArray (mkColumn Utf8 (col l)).

Lemma col_rows l : Forall string_row (col l).
Proof. apply Forall_cons_2; [by left|]. apply Forall_fmap, Forall_forall. intros s _. right. by eexists. Qed.

Lemma split_concat_ws_roundtrip_witness :
  ∃ parts, string_split [texts ["a--b---"; ""]%string; lit "--"] = Ok (CArray (mkColumn (List true Utf8) parts)) ∧
    Forall2 (λ v p, match v with VNull => p = VNull | _ => ∃ l, p = VList (VBytes <$> l) ∧ Forall (λ s, ¬ contains (str "--") s) l end) (col ["a--b---"; ""]%string) parts ∧
    string_concat_ws [lit "--"; CArray (mkColumn (List true Utf8) parts)] =
    Ok (CArray (mkColumn Utf8 ((λ v, match v with VNull => VBytes [] | _ => v end) <$> col ["a--b---"; ""]%string))).
Proof. apply (split_concat_ws_roundtrip (str "--") (col ["a--b---"; ""]%string)); [done|apply col_rows]. Defined.

Lemma substring_correct_witness :
  spark_substring [texts ["héllo"; ""]%string; num (-4); num 3] = Ok (texts ["éll"; ""]%string) ∧
  spark_substring [lit "ab"; num 2; num (2 ^ 63 - 1)] = Ok (lit "b").
Proof.
  assert (∀ l, Forall short_row (col l) ↔ Forall (λ s, (Z.of_nat (length (str s)) < 2 ^ 63)%Z) l) as Hshort.
  { intros l. unfold col. rewrite Forall_cons, Forall_fmap. split.
    - intros [_ Hl]. eapply Forall_impl; [exact Hl|]. intros s [|(x & [= <-] & ?)]; done.
    - intros Hl. split; [by left|]. eapply Forall_impl; [exact Hl|]. intros s Hs. right. by eexists. }
  split.
  - apply (substring_correct Utf8 (-4) 3 (col ["héllo"; ""]%string) VNull); [by left|done|done| |by left]. apply Hshort. by repeat (apply Forall_cons_2; [done|]); apply Forall_nil_2.
  - apply (substring_correct Utf8 2 (2 ^ 63 - 1) [] (VBytes (str "ab"))); [by left|done|done|apply Forall_nil_2|]. right. by eexists.
Defined.

Lemma string_concat_rows_witness : string_concat [texts ["x"; "y"]%string; lit "-"; texts ["1"; "2"]%string] = Ok (texts ["x-1"; "y-2"]%string).
Proof.
  apply (string_concat_rows [texts ["x"; "y"]%string; lit "-"; texts ["1"; "2"]%string] 3); [done|].
  repeat apply Forall_cons_2; [..|apply Forall_nil_2]; [split; [done|split; [done|apply col_rows]]|split; [done|right; by eexists]|split; [done|split; [done|apply col_rows]]].
Defined.

#[local] Instance AsciiTables : Unicode := {
  str_to_lowercase := fmap to_ascii_lowercase;
  str_to_uppercase := fmap to_ascii_uppercase;
  char_is_alphabetic c := forallb (λ b, is_ascii_lower b || is_ascii_upper b) c;
  char_to_lowercase := fmap to_ascii_lowercase;
  char_to_uppercase := fmap to_ascii_uppercase;
}.

#[local] Instance AsciiTablesOk : AsciiOk.
Proof. split; try done. intros b _. cbn. apply andb_true_r. Defined.

Lemma initcap_ascii_witness : initcap (str "hi 1st THERE") = (foldl initcap_step ([], true) (chars (str "hi 1st THERE"))).1.
Proof. apply (initcap_ascii (str "hi 1st THERE")); [done|]. by repeat (apply Forall_cons_2; [done|]); apply Forall_nil_2. Defined.

(** A position before the first character: Spark counts the length from that position, and
    gives the first character here. *)
Lemma substring_before_start : spark_substring [lit "abc"; num (-5); num 3] = Ok (lit "abc").
Proof. by vm_compute. Qed.

(** A literal list of strings is refused. *)
Lemma concat_ws_literal_list :
  string_concat_ws [lit ","; CScalar (List true Utf8) (VList [VBytes (str "a"); VBytes (str "b")])] =
  Err (Execution "concat_ws args must be string or array<string>").
Proof. done. Qed.

Example strings :
  initcap (str "hi 1st THERE") = str "Hi 1st There" ∧
  string_space [CArray (mkColumn (Primitive Int32) [VPrim 2; VPrim (-1); VNull])] = Ok (CArray (mkColumn Utf8 [VBytes (str "  "); VBytes []; VNull])) ∧
  string_repeat [lit "ab"; CScalar (Primitive Int32) (VPrim 2)] = Ok (CArray (mkColumn Utf8 [VBytes (str "abab")])) ∧
  string_concat_ws [lit ","; texts ["a"; "b"]%string; lit "x"] = Ok (CArray (mkColumn Utf8 [VBytes (str "x"); VBytes (str "a,x"); VBytes (str "b,x")])) ∧
  string_concat [lit "a"; CScalar Utf8 VNull] = Ok (CScalar Utf8 VNull).
Proof. by vm_compute. Qed.

End StringSample.
