(* ===== verification/FlinkDatetime.v ===== *)
(** * Time stamps from texts

    native-engine/datafusion-ext-functions/src/flink_datetime.rs: [UNIX_TIMESTAMP(value, format)]
    of Flink, which reads texts leniently as SimpleDateFormat of Java does.  Formats become
    tokens ([parse_format]), tokens read fields ([parse_datetime]), and the fields, in range or
    not, make a second ([normalize]), in the Julian calendar before its end.  Time zones belong
    to chrono ([TimeZones]).

    [flink_unix_timestamp_rows]: the grammar [reads] says which texts a format reads, and as
    what fields; the function reads exactly these, row by row.
    [flink_timestamp_roundtrip]: times that are printed in a format are read back.
    [normalize_calendar]: the closed formulas for Julian day numbers count the days of years
    and months, and no time of 32-bit fields overflows. *)

From S2P Require Import Prelude MachineInt Utf8 Chars Arrow ArrowRef HashArrays Columnar Floats CastText Cast.

Set Default Proof Using "Type".
Local Open Scope Z_scope.

Local Abbreviation bytes := (list Z).

Inductive LocalResult := Single (offset : Z) | Ambiguous (base_offset : Z) | NoLocal.

(** Time zones; [in_range] is whether [DateTime::from_timestamp] has a result. *)
Class TimeZones := {
  Tz : Type;
  parse_tz : bytes → option Tz;
  in_range : Z → bool;
  offset_from_local : Tz → Z → LocalResult;
  base_offset_from_utc : Tz → Z → Z;
}.

(** ** Formats *)

Inductive FieldKind := Year | Month | Day | Hour | Minute | Second.

Definition width (kind : FieldKind) : nat := match kind with Year => 4 | _ => 2 end.

Inductive Token := Field (kind : FieldKind) | Literal (b : Z).

Definition specifier (spec : Z) : option Token :=
  if spec =? 89 then Some (Field Year)
  else if spec =? 109 then Some (Field Month)
  else if spec =? 100 then Some (Field Day)
  else if spec =? 72 then Some (Field Hour)
  else if spec =? 77 then Some (Field Minute)
  else if spec =? 83 then Some (Field Second)
  else if spec =? 37 then Some (Literal 37)
  else None.

Fixpoint parse_format (format : bytes) : Result (list Token) :=
  match format with
  | [] => Ok []
  | b :: rest =>
      if b =? 37 then
        match rest with
        | [] => Err (Execution "dangling '%' in format")
        | spec :: rest =>
            match specifier spec with
            | Some token => tokens ← parse_format rest; Ok (token :: tokens)
            | None => Err (Execution "unsupported format specifier")
            end
        end
      else tokens ← parse_format rest; Ok (Literal b :: tokens)
  end.

(** ** Fields *)

Record Fields := mkFields { year : Z; month : Z; day : Z; hour : Z; minute : Z; second : Z }.

Definition default_fields : Fields := mkFields 1970 1 1 0 0 0.

Definition set_field (kind : FieldKind) (value : Z) (f : Fields) : Fields :=
  let '(mkFields y mo d h mi s) := f in
  match kind with
  | Year => mkFields value mo d h mi s
  | Month => mkFields y value d h mi s
  | Day => mkFields y mo value h mi s
  | Hour => mkFields y mo d value mi s
  | Minute => mkFields y mo d h value s
  | Second => mkFields y mo d h mi value
  end.

(** The digits of a window, wrapping around, and how many they are. *)
Fixpoint scan_digits (window : bytes) (magnitude : Z) : Z * nat :=
  match window with
  | b :: rest =>
      if is_ascii_digit b then
        let '(m, n) := scan_digits rest (i64 (i64 (magnitude * 10) + (b - 48))) in (m, S n)
      else (magnitude, 0%nat)
  | [] => (magnitude, 0%nat)
  end.

Definition scan_number (bs : bytes) (start stop : nat) : option (Z * nat) :=
  let negative := bool_decide (bs !! start = Some 45) in
  let digits_start := if negative then S start else start in
  let '(magnitude, n) := scan_digits (sub bs digits_start stop) 0 in
  if decide (n = 0%nat) then None
  else Some (i32 (if negative then i64 (- magnitude) else magnitude), (digits_start + n)%nat).

Fixpoint blanks (bs : bytes) : nat :=
  match bs with b :: rest => if (b =? 32) || (b =? 9) then S (blanks rest) else 0%nat | [] => 0%nat end.

(** The end of the window of a field: bounded when another field follows. *)
Definition window_end (bs : bytes) (start0 : nat) (kind : FieldKind) (next : option Token) : option nat :=
  match next with
  | Some (Field _) => let stop := (start0 + width kind)%nat in if decide (length bs < stop)%nat then None else Some stop
  | _ => Some (length bs)
  end.

Fixpoint read_fields (bs : bytes) (tokens : list Token) (pos : nat) (fields : Fields) : option Fields :=
  match tokens with
  | [] => Some fields
  | Literal lit :: tokens => if decide (bs !! pos = Some lit) then read_fields bs tokens (S pos) fields else None
  | Field kind :: tokens =>
      let start0 := pos in
      let pos := (pos + blanks (drop pos bs))%nat in
      if decide (length bs ≤ pos)%nat then None
      else
        stop ← window_end bs start0 kind (head tokens);
        '(value, next) ← scan_number bs pos stop;
        read_fields bs tokens next (set_field kind value fields)
  end.

(** ** Days *)

Definition gregorian_jdn (year month : Z) : Z :=
  let a := (14 - month) / 12 in
  let y := year + 4800 - a in
  let m := month + 12 * a - 3 in
  1 + (153 * m + 2) / 5 + 365 * y + y / 4 - y / 100 + y / 400 - 32045.

Definition julian_jdn (year month : Z) : Z :=
  let a := (14 - month) / 12 in
  let y := year + 4800 - a in
  let m := month + 12 * a - 3 in
  1 + (153 * m + 2) / 5 + 365 * y + y / 4 - 32083.

(** The numbers are of 64 bits, which fields of 32 bits do not exceed ([normalize_calendar]). *)
Definition normalize (f : Fields) : Z :=
  let year_adj := year f + (month f - 1) / 12 in
  let month_idx := (month f - 1) mod 12 + 1 in
  let jdn_gregorian := gregorian_jdn year_adj month_idx + (day f - 1) in
  let jdn := if 2299161 <=? jdn_gregorian then jdn_gregorian else julian_jdn year_adj month_idx + (day f - 1) in
  let epoch_day := jdn - 2440588 in
  epoch_day * 86400 + hour f * 3600 + minute f * 60 + second f.

Section Flink.
Context `{TimeZones}.

Definition resolve_offset_secs (local_sec : Z) (tz : Tz) : Z :=
  if in_range local_sec then
    match offset_from_local tz local_sec with
    | Single offset => offset
    | Ambiguous base_offset => base_offset
    | NoLocal => base_offset_from_utc tz local_sec
    end
  else 0.

Definition local_to_utc (tz : Tz) (f : Fields) : Z := let local_sec := normalize f in local_sec - resolve_offset_secs local_sec tz.

Definition parse_datetime (input : bytes) (tokens : list Token) (tz : Tz) : option Z :=
  match tokens with
  | [] => None
  | _ => local_to_utc tz <$> read_fields input tokens 0 default_fields
  end.

(** A literal of type LargeUtf8 is taken too in the source; it is not among the types of [Arrow]. *)
Definition utf8_scalar (arg : ColumnarValue) : option bytes :=
  match arg with CScalar Utf8 (VBytes s) => Some s | _ => None end.

Context `{Ops : ArrowOps} `{Casts : CastOps}.

(** [value] is [args[0]] as an array; the result is an Int64 column. *)
Definition flink_unix_timestamp (value : Array) (args : list ColumnarValue) : Result Column :=
  match args with
  | [format; zone_id] =>
      match utf8_scalar format with
      | None => Err (Execution "Flink_UnixTimestamp: format must be a non-null string")
      | Some format =>
          match utf8_scalar zone_id with
          | None => Err (Execution "Flink_UnixTimestamp: zoneId must be a non-null string")
          | Some zone_id =>
              match parse_tz zone_id with
              | None => Err (Execution "Flink_UnixTimestamp: invalid timezone")
              | Some tz =>
                  tokens ← parse_format format;
                  value ← cast value Utf8;
                  strings ← string_iter value;
                  Ok (prim_from_iter Int64 ((λ o : option bytes, (λ s, default (- 2 ^ 63) (parse_datetime s tokens tz)) <$> o) <$> strings))
              end
          end
      end
  | _ => Err (Execution "Flink_UnixTimestamp requires 3 arguments [value, chronoFormat, zoneId]")
  end.

(** The milliseconds of the clock are an argument. *)
Definition flink_unix_timestamp_now (timestamp_millis : Z) (args : list ColumnarValue) : Result ColumnarValue :=
  match args with
  | [] => Ok (CScalar (Primitive Int64) (VPrim (Z.quot timestamp_millis 1000)))
  | _ => Err (Execution "Flink_UnixTimestampNow takes no arguments")
  end.
End Flink.

(** ** What is read

    [reads] is the lenient grammar of a format: which texts it reads, and the fields before
    and after.  Text behind the last token is ignored. *)

(** Digits end before something else. *)
Definition stops (rest : bytes) : Prop := match rest with b :: _ => is_ascii_digit b = false | [] => True end.

Definition is_blank (b : Z) : bool := (b =? 32) || (b =? 9).

(** The number of a list of digits. *)
Definition number (digits : bytes) : Z := fold_left (λ v d, v * 10 + (d - 48)) digits 0.

Definition sign_text (negative : bool) : bytes := if negative then [45] else [].
Definition signed (negative : bool) (v : Z) : Z := if negative then - v else v.

(** Where the digits of a field end, [n] bytes after the field began.  A field before another
    field has a window of its width, blanks and sign included: it must be there, and the digits
    stop in it or fill it. *)
Definition field_ends (kind : FieldKind) (next : option Token) (n : nat) (rest : bytes) : Prop :=
  match next with
  | Some (Field _) => (n ≤ width kind ≤ n + length rest)%nat ∧ (n = width kind ∨ stops rest)
  | _ => stops rest
  end.

Inductive reads : list Token → bytes → Fields → Fields → Prop :=
  | reads_end rest f : reads [] rest f f
  | reads_literal b tokens s f g : reads tokens s f g → reads (Literal b :: tokens) (b :: s) f g
  | reads_field kind tokens blank negative digits s f g :
      forallb is_blank blank = true → forallb is_ascii_digit digits = true → digits ≠ [] →
      field_ends kind (head tokens) (length blank + length (sign_text negative) + length digits) s →
      reads tokens s (set_field kind (i32 (signed negative (number digits))) f) g →
      reads (Field kind :: tokens) (blank ++ sign_text negative ++ digits ++ s) f g.

Lemma i64_low x : wrapu 32 (i64 x) = wrapu 32 x.
Proof.
  unfold wrapu, i64, wraps. rewrite (Z.mod_eq (x + 2 ^ (64 - 1)) (2 ^ 64)) by lia.
  replace (x + 2 ^ (64 - 1) - 2 ^ 64 * ((x + 2 ^ (64 - 1)) / 2 ^ 64) - 2 ^ (64 - 1))
    with (x + (- ((x + 2 ^ (64 - 1)) / 2 ^ 64) * 2 ^ 32) * 2 ^ 32) by lia. by apply Z.mod_add.
Qed.

Lemma scan_digits_app l r m v :
  forallb is_ascii_digit l = true → stops r → wrapu 32 m = wrapu 32 v →
  ∃ m', scan_digits (l ++ r) m = (m', length l) ∧ wrapu 32 m' = wrapu 32 (fold_left (λ v d, v * 10 + (d - 48)) l v).
Proof.
  revert m v. induction l as [|d l IH]; intros m v Hl Hr Hm.
  - exists m. cbn [app length fold_left]. split; [|done]. destruct r as [|b r]; [done|]. cbn [scan_digits]. unfold stops in Hr. by rewrite Hr.
  - cbn [forallb] in Hl. apply andb_prop in Hl as [Hd Hl]. cbn [app scan_digits fold_left length]. rewrite Hd.
    destruct (IH (i64 (i64 (m * 10) + (d - 48))) (v * 10 + (d - 48)) Hl Hr) as (m' & -> & Hm').
    + rewrite i64_low. unfold wrapu. rewrite Zplus_mod. change ((i64 (m * 10)) mod 2 ^ 32) with (wrapu 32 (i64 (m * 10))). rewrite i64_low. unfold wrapu in *.
      by rewrite Zmult_mod, Hm, <- Zmult_mod, <- Zplus_mod.
    + by exists m'.
Qed.

Lemma signed_low negative m v :
  wrapu 32 m = wrapu 32 v → i32 (if negative : bool then i64 (- m) else m) = i32 (signed negative v).
Proof.
  intros Hm. apply wraps_cong; [done|]. unfold signed. destruct negative; [|done]. rewrite i64_low. unfold wrapu in *.
  change (- m) with (0 - m). change (- v) with (0 - v). by rewrite Zminus_mod, Hm, <- Zminus_mod.
Qed.

(** Digits and what stops them. *)
Lemma digits_split w : ∃ l r, w = l ++ r ∧ forallb is_ascii_digit l = true ∧ stops r.
Proof.
  induction w as [|b w (l & r & -> & Hl & Hr)]; [by exists [], []|]. destruct (is_ascii_digit b) eqn:Hb.
  - exists (b :: l), r. split; [done|]. split; [cbn [forallb]; by rewrite Hb|done].
  - by exists [], (b :: l ++ r).
Qed.

Lemma blanks_split bs : forallb is_blank (take (blanks bs) bs) = true ∧ match drop (blanks bs) bs with b :: _ => is_blank b = false | [] => True end.
Proof.
  induction bs as [|b bs [IH1 IH2]]; [done|]. cbn [blanks]. change ((b =? 32) || (b =? 9)) with (is_blank b). destruct (is_blank b) eqn:Hb.
  - cbn [take drop forallb]. by rewrite Hb.
  - by cbn [take drop].
Qed.

Lemma blanks_app blank rest :
  forallb is_blank blank = true → match rest with b :: _ => is_blank b = false | [] => True end → blanks (blank ++ rest) = length blank.
Proof.
  intros Hb Hr. induction blank as [|b blank IH].
  - destruct rest as [|b rest]; [done|]. cbn [app blanks length]. change ((b =? 32) || (b =? 9)) with (is_blank b). by rewrite Hr.
  - cbn [forallb] in Hb. apply andb_prop in Hb as [Hb1 Hb]. cbn [app blanks length]. change ((b =? 32) || (b =? 9)) with (is_blank b). by rewrite Hb1, IH.
Qed.

Lemma digit_not_blank b : is_ascii_digit b = true → is_blank b = false ∧ b ≠ 45.
Proof. unfold is_ascii_digit, is_blank. intros [H1%Z.leb_le H2%Z.leb_le]%andb_prop. split; [|lia]. apply orb_false_intro; apply Z.eqb_neq; lia. Qed.

(** A number in a text, up to the end of its window or to what stops it. *)
Definition number_at (bs : bytes) (start stop : nat) (negative : bool) (digits : bytes) (next : nat) : Prop :=
  drop start bs = sign_text negative ++ digits ++ drop next bs ∧ forallb is_ascii_digit digits = true ∧ digits ≠ [] ∧
  next = (start + length (sign_text negative) + length digits)%nat ∧ (next <= stop)%nat ∧ (next = stop ∨ stops (drop next bs)).

Lemma scan_number_some bs start stop negative digits next :
  number_at bs start stop negative digits next →
  scan_number bs start stop = Some (i32 (signed negative (number digits)), next).
Proof.
  intros (Hd & Hdig & Hne & -> & Hle & Hstop). unfold scan_number. set (ds := (start + length (sign_text negative))%nat) in *.
  assert (bool_decide (bs !! start = Some 45) = negative) as ->.
  { rewrite <- (Nat.add_0_r start), <- lookup_drop, Hd. destruct negative; [done|]. destruct digits as [|d digits]; [done|].
    cbn [forallb] in Hdig. apply andb_prop in Hdig as [[_ ?]%digit_not_blank _]. apply bool_decide_eq_false_2. by intros [= ?]. }
  assert ((if negative then S start else start) = ds) as -> by (unfold ds; destruct negative; cbn; lia).
  assert (drop ds bs = digits ++ drop (ds + length digits) bs) as Hds.
  { unfold ds at 1. rewrite <- drop_drop, Hd, drop_app_length. done. }
  unfold sub. rewrite Hds, take_app_ge by lia.
  destruct (scan_digits_app digits (take (stop - ds - length digits) (drop (ds + length digits) bs)) 0 0 Hdig) as (m & -> & Hm); [|done|].
  - destruct Hstop as [Heq|Hs]; [by replace (stop - ds - length digits)%nat with 0%nat by lia|].
    revert Hs. generalize (drop (ds + length digits) bs). intros [|b rest]; by destruct (stop - ds - length digits)%nat.
  - rewrite decide_False by (by destruct digits). do 2 f_equal. by apply signed_low.
Qed.

Lemma scan_number_number bs start stop v next :
  (stop <= length bs)%nat → scan_number bs start stop = Some (v, next) → ∃ negative digits, number_at bs start stop negative digits next.
Proof.
  intros Hstop Hscan. unfold scan_number in Hscan. set (negative := bool_decide (bs !! start = Some 45)) in Hscan.
  assert ((if negative then S start else start) = (start + length (sign_text negative))%nat) as Hds by (destruct negative; cbn; lia).
  rewrite Hds in Hscan. set (ds := (start + length (sign_text negative))%nat) in *.
  destruct (digits_split (sub bs ds stop)) as (l & r & Hw & Hl & Hr).
  destruct (scan_digits_app l r 0 0 Hl Hr) as (m & Hm & _); [done|]. rewrite Hw, Hm in Hscan. case_decide as Hlen; [done|]. injection Hscan as _ <-.
  assert (length l + length r = (stop - ds) `min` (length bs - ds))%nat as Hwl.
  { rewrite <- length_app, <- Hw. unfold sub. by rewrite length_take, length_drop. }
  assert (drop ds bs = l ++ r ++ drop (stop - ds) (drop ds bs)) as Hdrop.
  { rewrite <- (take_drop (stop - ds) (drop ds bs)) at 1. change (take (stop - ds) (drop ds bs)) with (sub bs ds stop). by rewrite Hw, <- app_assoc. }
  assert (drop (ds + length l) bs = r ++ drop (stop - ds) (drop ds bs)) as Hnext by (by rewrite <- drop_drop, Hdrop, drop_app_length at 1).
  exists negative, l. split; [|split; [done|split; [by destruct l|split; [done|split; [lia|]]]]].
  - rewrite Hnext, <- Hdrop. unfold ds, negative. case_bool_decide as Hneg; cbn [sign_text length app]; [|by rewrite Nat.add_0_r].
    rewrite Nat.add_1_r. by apply drop_S.
  - rewrite Hnext. destruct r as [|b r]; [left; cbn [length] in Hwl; lia|by right].
Qed.

(** The window of a field, and where its number ends. *)
Lemma window_field bs start0 start kind next_token stop next :
  window_end bs start0 kind next_token = Some stop → (start0 <= start < next)%nat → (next <= length bs)%nat →
  (next <= stop)%nat ∧ (next = stop ∨ stops (drop next bs)) ↔ field_ends kind next_token (next - start0) (drop next bs).
Proof.
  intros Hw Hs Hn. unfold window_end, field_ends in *. rewrite length_drop.
  destruct next_token as [[k|b]|]; [case_decide as Hlen; [done|]; injection Hw as <-|injection Hw as <-..].
  - split; intros [H1 H2]; split; try lia; destruct H2 as [H2|H2]; first [left; lia|by right].
  - split; [|intros; split; [lia|by right]]. intros [_ [->|]]; [by rewrite drop_all|done].
  - split; [|intros; split; [lia|by right]]. intros [_ [->|]]; [by rewrite drop_all|done].
Qed.

Lemma blanks_length bs : (blanks bs <= length bs)%nat.
Proof. induction bs as [|b bs IH]; cbn [blanks length]; [lia|]. destruct (_ || _); lia. Qed.

Lemma window_stop bs start0 kind next stop : window_end bs start0 kind next = Some stop → (stop <= length bs)%nat.
Proof. unfold window_end. destruct next as [[]|]; [case_decide; [done|]|..]; intros [= <-]; lia. Qed.

Lemma read_field bs kind tokens pos f g :
  (∀ pos f, read_fields bs tokens pos f = Some g → reads tokens (drop pos bs) f g) →
  read_fields bs (Field kind :: tokens) pos f = Some g → reads (Field kind :: tokens) (drop pos bs) f g.
Proof.
  intros IH Hread. cbn [read_fields] in Hread. set (k := blanks (drop pos bs)) in *. case_decide as Hlen; [done|].
  destruct (window_end bs pos kind (head tokens)) as [stop|] eqn:Hw; [|done]. cbn [mbind option_bind] in Hread.
  destruct (scan_number bs (pos + k) stop) as [[v next]|] eqn:Hscan; [|done]. cbn [mbind option_bind] in Hread.
  destruct (scan_number_number bs (pos + k) stop v next) as (negative & digits & Hn); [by eapply window_stop|done|].
  rewrite (scan_number_some _ _ _ _ _ _ Hn) in Hscan. injection Hscan as <-. destruct Hn as (Hd & Hdig & Hne & Hnext & Hend).
  pose proof (blanks_split (drop pos bs)) as [Hblank _]. fold k in Hblank.
  assert (length (take k (drop pos bs)) = k) as Hk by (rewrite length_take; pose proof (blanks_length (drop pos bs)); lia).
  assert (length digits ≠ 0%nat) by (by destruct digits).
  assert (next <= length bs)%nat.
  { apply (f_equal length) in Hd. rewrite !length_app, !length_drop in Hd. lia. }
  rewrite <- (take_drop k (drop pos bs)), drop_drop, Hd. apply reads_field; [done..| |by apply IH].
  rewrite Hk. apply (window_field _ _ (pos + k) _ _ _ _ Hw) in Hend; [|lia..]. by replace (next - pos)%nat with (k + length (sign_text negative) + length digits)%nat in Hend by lia.
Qed.

Lemma reads_field_read bs kind tokens pos f g :
  (∀ pos f, reads tokens (drop pos bs) f g → read_fields bs tokens pos f = Some g) →
  reads (Field kind :: tokens) (drop pos bs) f g → read_fields bs (Field kind :: tokens) pos f = Some g.
Proof.
  intros IH Hreads. inversion Hreads as [| |? ? blank negative digits s ? ? Hblank Hdig Hne Hends Hs Heq Htext]; subst.
  set (p := (pos + length blank)%nat). set (next := (p + length (sign_text negative) + length digits)%nat).
  assert (length digits ≠ 0%nat) by (by destruct digits).
  assert (drop p bs = sign_text negative ++ digits ++ s) as Hp by (unfold p; by rewrite <- drop_drop, <- Htext, drop_app_length).
  assert (drop next bs = s) as Hnext.
  { unfold next. rewrite <- !drop_drop, Hp, drop_app_length, drop_app_length. done. }
  assert (length bs = next + length s)%nat as Hlen.
  { apply (f_equal length) in Hp. rewrite !length_app, length_drop in Hp. unfold next. lia. }
  cbn [read_fields]. assert (blanks (drop pos bs) = length blank) as ->.
  { rewrite <- Htext. apply blanks_app; [done|]. destruct negative; [done|]. destruct digits as [|d digits]; [done|].
    cbn [forallb] in Hdig. by apply andb_prop in Hdig as [[? _]%digit_not_blank _]. }
  fold p. rewrite decide_False by lia.
  assert (∃ stop, window_end bs pos kind (head tokens) = Some stop) as [stop Hw].
  { unfold window_end, field_ends in *. destruct (head tokens) as [[]|]; [|by eexists..]. rewrite decide_False by lia. by eexists. }
  rewrite Hw. cbn [mbind option_bind].
  assert (number_at bs p stop negative digits next) as Hn.
  { split; [by rewrite Hnext|]. split; [done|]. split; [done|]. split; [done|]. apply (window_field _ _ p _ _ _ _ Hw); [lia..|]. rewrite Hnext.
    by replace (next - pos)%nat with (length blank + length (sign_text negative) + length digits)%nat by lia. }
  rewrite (scan_number_some _ _ _ _ _ _ Hn). cbn [mbind option_bind]. apply IH. by rewrite Hnext.
Qed.

(** The parser reads the texts of the grammar. *)
Lemma read_fields_reads bs tokens pos f g : read_fields bs tokens pos f = Some g ↔ reads tokens (drop pos bs) f g.
Proof.
  revert pos f. induction tokens as [|[kind|b] tokens IH]; intros pos f.
  - split; [intros [= ->]; constructor|]. by inversion 1.
  - split; [apply read_field|apply reads_field_read]; intros; by apply IH.
  - cbn [read_fields]. case_decide as Hb.
    + rewrite (drop_S _ _ _ Hb), IH. split; [by constructor|]. by inversion 1.
    + split; [done|]. inversion 1 as [|? ? ? ? ? ? Heq Htext|]; subst. exfalso. apply Hb. by rewrite <- (Nat.add_0_r pos), <- lookup_drop, <- Htext.
Qed.

(** ** Printing *)

Definition specifier_of (kind : FieldKind) : Z :=
  match kind with Year => 89 | Month => 109 | Day => 100 | Hour => 72 | Minute => 77 | Second => 83 end.

Definition print_specifier (t : Token) : bytes :=
  match t with Field kind => [37; specifier_of kind] | Literal b => if b =? 37 then [37; 37] else [b] end.

Definition print_format (tokens : list Token) : bytes := tokens ≫= print_specifier.

Lemma parse_print_format tokens : parse_format (print_format tokens) = Ok tokens.
Proof.
  induction tokens as [|t tokens IH]; [done|]. change (print_format (t :: tokens)) with (print_specifier t ++ print_format tokens).
  destruct t as [kind|b]; cbn [print_specifier].
  - cbn [app parse_format]. change (37 =? 37) with true. cbn iota. destruct kind; cbn [specifier_of]; cbv [specifier]; cbn [Z.eqb Pos.eqb]; by rewrite IH.
  - destruct (Z.eqb_spec b 37) as [->|Hb]; cbn [app parse_format].
    + change (37 =? 37) with true. cbn iota. change (specifier 37) with (Some (Literal 37)). by rewrite IH.
    + rewrite (proj2 (Z.eqb_neq b 37)) by done. by rewrite IH.
Qed.

Definition get_field (kind : FieldKind) (f : Fields) : Z :=
  match kind with Year => year f | Month => month f | Day => day f | Hour => hour f | Minute => minute f | Second => second f end.

(** The last [n] digits. *)
Fixpoint pad (n : nat) (v : Z) : bytes :=
  match n with O => [] | S n => pad n (v / 10) ++ [48 + v mod 10] end.

Definition print_token (f : Fields) (t : Token) : bytes :=
  match t with Field kind => pad (width kind) (get_field kind f) | Literal b => [b] end.

Definition print_fields (f : Fields) (tokens : list Token) : bytes := tokens ≫= print_token f.

(** What is read back: the fields that the format has, over the defaults. *)
Fixpoint shown (f : Fields) (tokens : list Token) (fields : Fields) : Fields :=
  match tokens with
  | [] => fields
  | Field kind :: tokens => shown f tokens (set_field kind (get_field kind f) fields)
  | Literal _ :: tokens => shown f tokens fields
  end.

(** A literal behind a field is not a digit. *)
Fixpoint separated (tokens : list Token) : Prop :=
  match tokens with
  | Field _ :: rest => (match rest with Literal b :: _ => is_ascii_digit b = false | _ => True end) ∧ separated rest
  | Literal _ :: rest => separated rest
  | [] => True
  end.

(** The fields have no more digits than their width. *)
Definition printable (f : Fields) : Prop := ∀ kind, 0 <= get_field kind f < 10 ^ Z.of_nat (width kind).

Lemma length_pad n v : length (pad n v) = n.
Proof. revert v. induction n as [|n IH]; intros v; [done|]. cbn [pad]. rewrite length_app, IH. cbn [length]. lia. Qed.

Lemma pad_digits n v : forallb is_ascii_digit (pad n v) = true.
Proof.
  revert v. induction n as [|n IH]; intros v; [done|]. cbn [pad]. rewrite forallb_app, IH. cbn [forallb andb]. rewrite andb_true_r.
  unfold is_ascii_digit. pose proof (Z.mod_pos_bound v 10 ltac:(lia)). apply andb_true_intro. split; apply Z.leb_le; lia.
Qed.

Lemma fold_pad n v m : 0 <= v < 10 ^ Z.of_nat n → fold_left (λ v d, v * 10 + (d - 48)) (pad n v) m = m * 10 ^ Z.of_nat n + v.
Proof.
  revert v. induction n as [|n IH]; intros v Hv; [cbn in *; lia|]. cbn [pad]. rewrite fold_left_app. cbn [fold_left].
  rewrite Nat2Z.inj_succ, Z.pow_succ_r in Hv |- * by lia. rewrite IH.
  - pose proof (Z.div_mod v 10). lia.
  - split; [apply Z.div_pos; lia|]. apply Z.div_lt_upper_bound; lia.
Qed.

Lemma number_pad n v : 0 <= v < 10 ^ Z.of_nat n → number (pad n v) = v.
Proof. intros Hv. unfold number. by rewrite fold_pad by done. Qed.

(** Printed fields are read. *)
Lemma printed_reads f tokens fields :
  printable f → separated tokens → reads tokens (print_fields f tokens) fields (shown f tokens fields).
Proof.
  intros Hf. revert fields. induction tokens as [|[kind|b] tokens IH]; intros fields Hsep; [constructor| |by constructor; apply IH].
  destruct Hsep as [Hnext Hsep]. assert (1 <= width kind <= 4)%nat as Hw by (destruct kind; cbn; lia).
  change (print_fields f (Field kind :: tokens)) with ([] ++ sign_text false ++ pad (width kind) (get_field kind f) ++ print_fields f tokens).
  apply reads_field; [done|apply pad_digits|intros E; apply (f_equal length) in E; rewrite length_pad in E; cbn in E; lia|..].
  - rewrite length_pad. cbn [sign_text length]. unfold field_ends. destruct tokens as [|[k|b] tokens]; cbn [head]; [done| |done]. split; [lia|by left].
  - rewrite number_pad by apply Hf. cbn [signed]. unfold i32. rewrite wraps_id; [by apply IH|done|].
    assert (10 ^ Z.of_nat (width kind) <= 10 ^ 4) by (apply Z.pow_le_mono_r; lia). pose proof (Hf kind). unfold in_s. lia.
Qed.

(** ** The calendars *)

Definition leap_gregorian (y : Z) : bool := (y mod 4 =? 0) && (negb (y mod 100 =? 0) || (y mod 400 =? 0)).
Definition leap_julian (y : Z) : bool := y mod 4 =? 0.

Definition month_length (leap : bool) (m : nat) : Z :=
  match m with 2%nat => if leap then 29 else 28 | 4%nat | 6%nat | 9%nat | 11%nat => 30 | _ => 31 end.

(** The days of the months before a month. *)
Definition days_before (leap : bool) (m : Z) : Z := foldl (λ n k, n + month_length leap k) 0 (seq 1 (Z.to_nat (m - 1))).

(** The Julian day of the first of a month: the days of the years since year 1, whose first
    day is 1721426 in one calendar and 1721424 in the other, and of the months before. *)
Definition gregorian_first (y m : Z) : Z := 1721426 + 365 * (y - 1) + ((y - 1) / 4 - (y - 1) / 100 + (y - 1) / 400) + days_before (leap_gregorian y) m.
Definition julian_first (y m : Z) : Z := 1721424 + 365 * (y - 1) + (y - 1) / 4 + days_before (leap_julian y) m.

Lemma month_cases m : 1 <= m <= 12 → m = 1 ∨ m = 2 ∨ m = 3 ∨ m = 4 ∨ m = 5 ∨ m = 6 ∨ m = 7 ∨ m = 8 ∨ m = 9 ∨ m = 10 ∨ m = 11 ∨ m = 12.
Proof. lia. Qed.

Lemma div_add a b c : 0 < b → (a + c * b) / b = a / b + c.
Proof. intros. by rewrite Z.div_add by lia. Qed.

(** The leap days before a year and in it. *)
Lemma leap_step_4 y : y / 4 = (y - 1) / 4 + (if y mod 4 =? 0 then 1 else 0).
Proof. destruct (Z.eqb_spec (y mod 4) 0); Z.div_mod_to_equations; lia. Qed.

Lemma leap_step_gregorian y : y / 4 - y / 100 + y / 400 = (y - 1) / 4 - (y - 1) / 100 + (y - 1) / 400 + (if leap_gregorian y then 1 else 0).
Proof.
  unfold leap_gregorian. destruct (Z.eqb_spec (y mod 4) 0), (Z.eqb_spec (y mod 100) 0), (Z.eqb_spec (y mod 400) 0); cbn [andb orb negb]; Z.div_mod_to_equations; lia.
Qed.

(** Computes the closed numbers of a month. *)
Ltac month_numbers :=
  repeat match goal with
  | |- context [(14 - ?k) / 12] => let a := eval vm_compute in ((14 - k) / 12) in change ((14 - k) / 12) with a
  | |- context [(153 * ?x + 2) / 5] => let d := eval vm_compute in ((153 * x + 2) / 5) in change ((153 * x + 2) / 5) with d
  | |- context [days_before ?l ?m] => let d := eval vm_compute in (days_before l m) in change (days_before l m) with d
  end.

Lemma gregorian_jdn_first y m : 1 <= m <= 12 → gregorian_jdn y m = gregorian_first y m.
Proof.
  intros Hm. pose proof (leap_step_gregorian y) as Hleap. unfold gregorian_jdn, gregorian_first.
  assert (∀ z, (z + 4800) / 4 - (z + 4800) / 100 + (z + 4800) / 400 = z / 4 - z / 100 + z / 400 + 1164) as Hdiv.
  { intros z. replace (z + 4800) with (z + 1200 * 4) at 1 by ring. replace (z + 4800) with (z + 48 * 100) at 1 by ring. replace (z + 4800) with (z + 12 * 400) by ring.
    rewrite !div_add by lia. ring. }
  pose proof (Hdiv y) as H0. pose proof (Hdiv (y - 1)) as H1. replace (y - 1 + 4800) with (y + 4800 - 1) in H1 by ring.
  destruct (month_cases m Hm) as [->|[->|[->|[->|[->|[->|[->|[->|[->|[->|[->| ->]]]]]]]]]]].
  all: cbn zeta; destruct (leap_gregorian y); month_numbers; rewrite ?Z.sub_0_r; lia.
Qed.

Lemma julian_jdn_first y m : 1 <= m <= 12 → julian_jdn y m = julian_first y m.
Proof.
  intros Hm. pose proof (leap_step_4 y) as Hleap. unfold julian_jdn, julian_first, leap_julian.
  assert (∀ z, (z + 4800) / 4 = z / 4 + 1200) as Hdiv by (intros z; replace (z + 4800) with (z + 1200 * 4) by ring; rewrite div_add by lia; ring).
  pose proof (Hdiv y) as H0. pose proof (Hdiv (y - 1)) as H1. replace (y - 1 + 4800) with (y + 4800 - 1) in H1 by ring.
  destruct (month_cases m Hm) as [->|[->|[->|[->|[->|[->|[->|[->|[->|[->|[->| ->]]]]]]]]]]].
  all: cbn zeta; destruct (y mod 4 =? 0); month_numbers; rewrite ?Z.sub_0_r; lia.
Qed.

(** The day of a date that may be out of range, in the calendar of its time. *)
Definition hybrid_day (y m d : Z) : Z :=
  let y' := y + (m - 1) / 12 in
  let m' := (m - 1) mod 12 + 1 in
  let day := gregorian_first y' m' + (d - 1) in
  if 2299161 <=? day then day else julian_first y' m' + (d - 1).

Definition i32_fields (f : Fields) : Prop := ∀ kind, in_s 32 (get_field kind f).

(** C31: normalize never leaves 64 bits and counts days as the hybrid calendar does: for
    any 32-bit fields, months and days that overflow roll over, days from 15 October
    1582 on follow the Gregorian rule of leap years and earlier ones the Julian rule. *)
Theorem normalize_calendar f :
  i32_fields f →
  normalize f = (hybrid_day (year f) (month f) (day f) - 2440588) * 86400 + hour f * 3600 + minute f * 60 + second f ∧
  in_s 64 (normalize f).
Proof.
  intros Hf. assert (1 <= (month f - 1) mod 12 + 1 <= 12) as Hm by (pose proof (Z.mod_pos_bound (month f - 1) 12); lia).
  split; [unfold normalize, hybrid_day; cbn zeta; by rewrite gregorian_jdn_first, julian_jdn_first|].
  pose proof (Hf Year) as Hy. pose proof (Hf Month) as Hmo. pose proof (Hf Day) as Hd. pose proof (Hf Hour) as Hh. pose proof (Hf Minute) as Hmi. pose proof (Hf Second) as Hs.
  cbn [get_field] in *. unfold in_s in *. change (2 ^ (32 - 1)) with 2147483648 in *. change (2 ^ (64 - 1)) with 9223372036854775808.
  unfold normalize. cbn zeta. set (m := (month f - 1) mod 12 + 1) in *. assert (- 178956972 <= (month f - 1) / 12 <= 178956971) as Hq by (Z.div_mod_to_equations; lia).
  set (y := year f + (month f - 1) / 12) in *. assert (- 2326440620 <= y <= 2326440619) as Hyb by lia. clearbody m y.
  assert (- 900000000000 <= gregorian_jdn y m <= 900000000000 ∧ - 900000000000 <= julian_jdn y m <= 900000000000) as [Hg Hj].
  { unfold gregorian_jdn, julian_jdn. cbn zeta. Z.div_mod_to_equations. lia. }
  destruct (2299161 <=? _); lia.
Qed.

(** The first days of months follow each other as in a calendar; the last Julian day is the
    eve of the first Gregorian one. *)
Lemma calendar_steps y m :
  (1 <= m <= 11 → gregorian_first y (m + 1) = gregorian_first y m + month_length (leap_gregorian y) (Z.to_nat m) ∧
    julian_first y (m + 1) = julian_first y m + month_length (leap_julian y) (Z.to_nat m)) ∧
  gregorian_first (y + 1) 1 = gregorian_first y 12 + 31 ∧ julian_first (y + 1) 1 = julian_first y 12 + 31 ∧
  gregorian_first 1970 1 = 2440588 ∧ julian_first 1582 10 + 4 = 2299161 ∧ gregorian_first 1582 10 + 14 = 2299161.
Proof.
  assert (∀ leap m, 1 <= m <= 11 → days_before leap (m + 1) = days_before leap m + month_length leap (Z.to_nat m)) as Hstep.
  { intros leap k Hk. unfold days_before. replace (Z.to_nat (k + 1 - 1)) with (S (Z.to_nat (k - 1))) by lia.
    rewrite seq_S, foldl_app. cbn [foldl]. do 2 f_equal. lia. }
  split; [intros Hm; unfold gregorian_first, julian_first; rewrite !Hstep by lia; lia|].
  unfold gregorian_first, julian_first. replace (y + 1 - 1) with y by ring. pose proof (leap_step_gregorian y). pose proof (leap_step_4 y). unfold leap_julian.
  split; [destruct (leap_gregorian y), (leap_gregorian (y + 1)); month_numbers; lia|].
  split; [destruct (y mod 4 =? 0), ((y + 1) mod 4 =? 0); month_numbers; lia|]. by vm_compute.
Qed.

(** ** The function *)

Section FlinkRows.
Context `{TimeZones} `{Ops : ArrowOps} `{Casts : CastOps}.

Definition literal (s : bytes) : ColumnarValue := CScalar Utf8 (VBytes s).

(** A row of the function: the seconds of what is read, and -2^63 for other texts. *)
Inductive timestamp_of (tokens : list Token) (tz : Tz) : Val → Val → Prop :=
  | time_null : timestamp_of tokens tz VNull VNull
  | time_read s g : tokens ≠ [] → reads tokens s default_fields g → timestamp_of tokens tz (VBytes s) (VPrim (local_to_utc tz g))
  | time_unread s : (tokens ≠ [] → ∀ g, ¬ reads tokens s default_fields g) → timestamp_of tokens tz (VBytes s) (VPrim (- 2 ^ 63)).

Lemma parse_datetime_spec tokens tz s : timestamp_of tokens tz (VBytes s) (VPrim (default (- 2 ^ 63) (parse_datetime s tokens tz))).
Proof.
  unfold parse_datetime. destruct tokens as [|t tokens]; [by constructor|].
  destruct (read_fields s (t :: tokens) 0 default_fields) as [g|] eqn:Hr; cbn [fmap option_fmap option_map default from_option id].
  - apply time_read; [done|]. by apply read_fields_reads in Hr.
  - apply time_unread. intros _ g Hg. apply (read_fields_reads s _ 0) in Hg. congruence.
Qed.

Lemma flink_rows tokens value zone tz :
  parse_tz zone = Some tz → wf value → data_type value = Utf8 →
  flink_unix_timestamp value [literal (print_format tokens); literal zone] =
  Ok (mkColumn (Primitive Int64) ((λ v, val_prim ((λ s, default (- 2 ^ 63) (parse_datetime s tokens tz)) <$> bytes_of v)) <$> rows value)).
Proof.
  intros Htz Hwf Hty. unfold flink_unix_timestamp. cbn [utf8_scalar literal]. rewrite Htz, parse_print_format. cbn [mbind Result_bind].
  assert (cast value Utf8 = Ok value) as ->.
  { unfold cast. destruct value; cbn [cast_impl]; by rewrite decide_True. }
  cbn [mbind Result_bind]. destruct value as [| | |[] nl o d| | | |]; try discriminate. rewrite string_iter_ok by done. cbn [mbind Result_bind].
  unfold prim_from_iter. by rewrite <- !list_fmap_compose.
Qed.

(** C30: a column of texts is parsed row by row as a declarative grammar of the format
    says (literals byte for byte; a field after blanks, with a sign and any number of
    digits modulo 2^32, up to a byte that is no digit, or within the window of its width
    when another field follows; text behind the last token ignored): a text that the
    grammar reads gives the seconds of its fields in the time zone, with defaults for
    missing fields, any other text (and every text under the empty format) gives -2^63,
    and null stays null. *)
Theorem flink_unix_timestamp_rows tokens value zone tz :
  parse_tz zone = Some tz → wf value → data_type value = Utf8 →
  ∃ vs, flink_unix_timestamp value [literal (print_format tokens); literal zone] = Ok (mkColumn (Primitive Int64) vs) ∧
    Forall2 (timestamp_of tokens tz) (rows value) vs.
Proof.
  intros Htz Hwf Hty. rewrite (flink_rows tokens value zone tz) by done. eexists. split; [done|].
  apply Forall2_fmap_r, Forall_Forall2_diag, Forall_forall. intros v Hv. destruct value as [| | |[] nl o d| | | |]; try discriminate.
  apply elem_of_mask in Hv as [->|(i & _ & _ & ->)]; [constructor|]. apply parse_datetime_spec.
Qed.

(** Texts printed in a format are read back, with the defaults for the fields that the format
    leaves out. *)
Lemma flink_timestamp_roundtrip tokens (fs : list (option Fields)) value zone tz :
  tokens ≠ [] → separated tokens → (∀ f, Some f ∈ fs → printable f) → parse_tz zone = Some tz →
  wf value → data_type value = Utf8 → rows value = (λ o : option Fields, val_bytes ((λ f, print_fields f tokens) <$> o)) <$> fs →
  flink_unix_timestamp value [literal (print_format tokens); literal zone] =
  Ok (mkColumn (Primitive Int64) ((λ o : option Fields, val_prim ((λ f, local_to_utc tz (shown f tokens default_fields)) <$> o)) <$> fs)).
Proof.
  intros Hne Hsep Hfs Htz Hwf Hty Hrows. rewrite (flink_rows tokens value zone tz), Hrows, <- list_fmap_compose by done. do 2 f_equal.
  apply list_fmap_ext. intros i [f|] Hx%list_elem_of_lookup_2; [|done]. cbn. do 2 f_equal. unfold parse_datetime. destruct tokens; [done|].
  by rewrite (proj2 (read_fields_reads (print_fields f _) _ 0 _ _) (printed_reads f _ default_fields (Hfs f Hx) Hsep)).
Qed.
End FlinkRows.

(** ** The default format *)

Module FlinkSample.
Import CastSample.

(** Two zones, eight hours east and UTC. *)
#[local] Instance SampleZones : TimeZones := {
  Tz := Z;
  parse_tz s := if decide (s = str "UTC") then Some 0 else if decide (s = str "Asia/Shanghai") then Some 28800 else None;
  in_range t := bool_decide (Z.abs t < 8 * 10 ^ 12);
  offset_from_local tz _ := Single tz;
  base_offset_from_utc tz _ := tz;
}.

Definition default_format : list Token :=
  [Field Year; Literal 45; Field Month; Literal 45; Field Day; Literal 32; Field Hour; Literal 58; Field Minute; Literal 58; Field Second].

Definition at_ (y mo d h mi s : Z) : Fields := mkFields y mo d h mi s.

Definition texts : list (option bytes) := [Some (str "2024-2-29  8:00:01 GMT"); None; Some (str "2024/02/29"); Some (str "1582-10-15 08:00:00")].

Lemma texts_ok : wf (strings texts) ∧ data_type (strings texts) = Utf8 ∧ rows (strings texts) = val_bytes <$> texts.
Proof. apply strings_law; [|done]. repeat (apply Forall_cons_2; [intros s [= <-]; split; [done|repeat (apply Forall_cons_2; [split; done|]); apply Forall_nil_2] || done|]). apply Forall_nil_2. Qed.

Lemma flink_unix_timestamp_rows_witness :
  ∃ vs, flink_unix_timestamp (strings texts) [literal (str "%Y-%m-%d %H:%M:%S"); literal (str "Asia/Shanghai")] = Ok (mkColumn (Primitive Int64) vs) ∧
    Forall2 (timestamp_of default_format (28800 : @Tz SampleZones)) (rows (strings texts)) vs.
Proof. apply (flink_unix_timestamp_rows default_format (strings texts) (str "Asia/Shanghai") (28800 : @Tz SampleZones)); [done|apply texts_ok|done]. Defined.

Example timestamps :
  flink_unix_timestamp (strings texts) [literal (str "%Y-%m-%d %H:%M:%S"); literal (str "Asia/Shanghai")] =
  Ok (mkColumn (Primitive Int64) [VPrim 1709164801; VNull; VPrim (- 2 ^ 63); VPrim (-12219292800)]).
Proof. by vm_compute. Qed.

Lemma normalize_calendar_witness :
  normalize (at_ 2021 14 (-3) 25 0 0) = (hybrid_day 2021 14 (-3) - 2440588) * 86400 + 90000 ∧ in_s 64 (normalize (at_ 2021 14 (-3) 25 0 0)).
Proof. apply (normalize_calendar (at_ 2021 14 (-3) 25 0 0)). by intros []. Defined.

Definition utc (format s : string) : option Z :=
  match parse_format (str format) with Ok tokens => parse_datetime (str s) tokens (0 : @Tz SampleZones) | _ => None end.

(** Lenient fields, the digits of adjacent fields, and texts that are not times. *)
Example lenient :
  utc "%Y-%m-%d" "2024-13-01" = utc "%Y-%m-%d" "2025-01-01" ∧ utc "%Y-%m-%d" "2024-1-1" = utc "%Y-%m-%d" "2024-01-01" ∧
  utc "%Y%m%d" "20240229" = utc "%Y-%m-%d" "2024-02-29" ∧ utc "%Y-%m-%d" "1582-10-14" = utc "%Y-%m-%d" "1582-10-24" ∧
  utc "%Y-%m-%d" "2024-01-01 trailing" = utc "%Y-%m-%d" "2024-01-01" ∧ utc "%Y-%m-%d" "2024/01/01" = None ∧ utc "" "" = None ∧
  utc "%Y" "4294967296" = utc "%Y" "0" ∧ utc "%H1%M" "08130" = None ∧ utc "%Y-%m-%d" "2024--1-1" = utc "%Y-%m-%d" "2023-11-01" ∧ parse_format (str "%q") = Err (Execution "unsupported format specifier").
Proof. by vm_compute. Qed.

End FlinkSample.
